(* ===== verification/_CoqProject ===== *)
-Q . S2P
Prelude.v
Corev1.v
Float64.v
Monad.v
Trace.v
Paths.v
FileSys.v
Text.v
Extract.v
Peers.v
Image.v
Overlay.v
Types.v
UnitNames.v
Stats.v
Foci.v
Syzygy.v
Queue.v
Monitor.v
Probes.v
PodStore.v
Persist.v
Status.v
BatchWatcher.v
Hydration.v
Reconciler.v
Expansion.v
Env.v
VolTracker.v
Runtime.v
Exec.v
UserNS.v
Shim.v
Logs.v
Signals.v
Slice.v
Control.v
Api.v
Plugin.v
Pki.v
Rollout.v
Volume.v
Resources.v
Config.v
Join.v
Lifecycle.v
PodLife.v
Eviction.v
PawnNode.v
NodeCtl.v
IPPool.v
Network.v
PodController.v
