(* ===== verification/Prelude.v ===== *)
(** * Verification of Periapsis

    Periapsis runs Kubernetes pods as systemd-nspawn machines.  One process,
    [perigeos], hosts several virtual nodes ("pawns"); for each of them a
    provider ([node/]) creates, watches and deletes pods, and an event loop
    ([internal/syzygy]) computes their statuses.  This library models the parts
    of the Go sources that decide something, as Rocq functions that evaluate,
    and proves what makes them correct.

    ** How the parts interact

    - The pod controller ([node/podcontroller.go], [node/pod.go]:
      [PodController.v]) turns the informer's events and the provider's
      notifications into keys of three retrying work queues ([internal/queue]:
      [Queue.v]), whose handlers call the provider and the API server.
    - The provider creates, deletes and restarts pods ([node/lifecycle.go]:
      [Lifecycle.v], [PodLife.v]).  Creating one resolves its environment
      ([internal/podutils], [internal/downward]: [Env.v], with the expansion of
      [internal/expansion]: [Expansion.v]), pulls its images from registries and
      peers, unpacks their layers and mounts them as overlays
      ([internal/image]: [Image.v], [Peers.v], [Extract.v], [Overlay.v]),
      computes its resources ([Resources.v]) and
      its machines ([internal/runtime/systemd], [internal/cgroup]:
      [Runtime.v]), its network ([internal/network]: [Network.v], with the
      addresses of [IPPool.v]) and its volumes ([internal/volume]: [Volume.v]),
      which are tracked for refreshes ([node/voltracker.go]: [VolTracker.v]),
      and registers it in the pod store.
    - The pod store ([node/podstore.go]: [PodStore.v]) admits pods, counts their
      resources and holds their restart and probe states.
    - systemd's listing and signals reach the batch watcher
      ([node/batchwatcher.go]: [BatchWatcher.v]).  It applies the restart
      policy, runs the probes ([node/probes.go]: [Probes.v]), computes statuses
      ([node/status.go]: [Status.v]), and sends facts to the event loop.
      Signals name units, whose names are built and parsed by the functions of
      [UnitNames.v].
    - The probe scheduler ([internal/probescheduler]: [Probes.v]) sends the
      results of probes as facts.
    - The event loop keeps one state machine per pod ([internal/foci]:
      [Foci.v]) and hands its effects to the callbacks of the store and to the
      API writer ([internal/syzygy] and [internal/horizon]: [Syzygy.v]).
    - Every status change is written to disk ([node/podstate.go]: [Persist.v]);
      after a restart the store is filled from there and from the running units
      ([node/hydration.go]: [Hydration.v]), and a periodic pass removes what
      nobody wants ([node/reconciler.go]: [Reconciler.v]).
    - Under memory pressure, which is read from the cgroups ([internal/stats],
      [internal/psi]: [Stats.v]), pods are deleted ([node/eviction.go]:
      [Eviction.v]).
    - The configuration ([internal/config]: [Config.v]) gives the pawns.  Each
      reports itself as a node ([node/pawnnode.go]: [PawnNode.v]) through the
      node controller, which registers it, patches its status and renews its
      lease ([node/node.go], [node/lease_controller_v1.go]: [NodeCtl.v]) as
      long as pings succeed ([node/node_ping_controller.go] over
      [internal/lock]: [Monitor.v]).
    - The API server asks a pawn for logs, commands, attachment and ports
      ([node/api], [node/exec.go], [internal/server]: [Api.v]); the runtime
      reads the journal ([Logs.v]) and enters the containers ([Exec.v]), some
      of which have a user namespace ([UserNS.v]) that a shim enters
      ([cmd/userns-shim]: [Shim.v]).  Unit events come as D-Bus
      signals ([Signals.v]); each pawn has a slice ([Slice.v]).  The server's
      certificate is requested and renewed by [internal/pki] ([Pki.v]).
    - Storage drivers register through sockets ([internal/plugin]:
      [Plugin.v]); an operator asks the control server ([internal/control]:
      [Control.v]), rolls deployments out ([cmd/apsis/rollout.go]:
      [Rollout.v]) and makes hosts join ([internal/join]: [Join.v]).

    ** Files

    - [Prelude.v] (this file): Go's integers with their wrap-around, strings
      with Go's slicing, generic lemmas, the hint database [go].
    - [Corev1.v]: the Kubernetes objects, reduced to the fields that are used.
    - [Float64.v]: IEEE 754 arithmetic and the conversions of durations.
    - [Monad.v]: state with errors, and Hoare triples over it; [Trace.v]: code
      that calls services, with the calls recorded, and its rules; [Paths.v],
      [Text.v]: path, text and number functions of the standard library;
      [FileSys.v]: a tree of files in which operations can fail.
    - [Extract.v]: [extractLayer] over a tree with symbolic and hard links,
      in which look-ups follow links as the kernel does.
    - [Peers.v]: end points of peers and the selector.
    - [Image.v]: [ImageManager] with its store of layers, temporary
      directories, blobs and cache files; every pull over oracles for the
      registry, the peers and the disk; unpacking is the class [Unpacker], of
      which [Extract.v] gives an instance.
    - [Overlay.v]: [Mount] and [Unmount] over the stack of mounts of each
      mount point.
    - [Types.v]: the facts and effects of [internal/types].
    - [UnitNames.v]: unit names, D-Bus escaping ([internal/runtime/systemd]),
      [ParseUnitName] ([node/gambit.go]), [ParseContainerFromUnit]
      ([internal/foci/reduce.go]), [vethName] ([internal/network/manager.go]).
    - [Foci.v]: [PodState], every reducer, [Reduce], the status conversions.
    - [Syzygy.v]: [Syzygy] and [Horizon] as records of their channels and maps;
      [step] is one action of some goroutine, so that a list of events is an
      interleaving; [writePodStatus] against an arbitrary API server.
    - [Queue.v]: the queue under its lock, for any rate limiter (a class) and
      any retry function.
    - [Probes.v]: running, scheduling and evaluating probes; the two loops that
      do so.
    - [PodStore.v]: the store as a record of maps and counters; every operation;
      [StoreOp] lists those that change it.
    - [Persist.v]: state files in a model of the pods directory, in which a
      write can fail or stop after any step.
    - [Status.v]: [buildPodStatus] and [GetPodStatus].
    - [BatchWatcher.v]: [poll], [checkPod], [handleUnitEvent], with the state
      maps as references into a heap of maps, because the code shares one map
      between two fields.
    - [Hydration.v], [Reconciler.v]: recovery and reconciliation, over the store,
      the directory and the listed machines.
    - [Expansion.v], [Env.v]: expansion, and all sources of a container's
      environment; the name validators of Kubernetes are parameters.
    - [VolTracker.v]: the index from ConfigMaps and Secrets to mounts.
    - [Runtime.v]: unit properties and commands of a machine, [RunMachine],
      [StopMachine], [WaitForMachineExit], over an oracle for the host.
    - [Exec.v]: the leader of a machine, commands, attachment, shared mounts;
      [UserNS.v]: ranges of user IDs, identities in the files of an image, and
      the host's side of the handshake; [Shim.v]: the shim as a machine, and
      both sides as one step relation over the FIFOs; [Logs.v]: options, invocations and the reader,
      over a class [Journal] with laws; [Signals.v]: signals and waiters;
      [Slice.v]: properties and clean-up of slices.
    - [Api.v]: error classes, status codes, handlers, routes, layers for peers,
      and port forwarding with the network namespace of its thread.
    - [Control.v]: the method table, both ways to call it, the responses.
    - [Plugin.v]: registration over the objects of the cluster.
    - [Pki.v]: the holder under interleaved handshakes; requests and files.
    - [Rollout.v]: flags, steps and waiting.  [Join.v]: the steps of joining
      with the trace of their changes, over [Config.v].
    - [Resources.v]: limits, identities and OOM scores of containers.
    - [Lifecycle.v]: [launchContainer], [syncPodSandboxAndContainers], the
      creation goroutine [saga], [DeletePod], [restartContainer], in the monad,
      with the trace of all calls; [World] answers them and lets the other
      goroutines run in between.  [PodLife.v]: what whole lives look like.
    - [Eviction.v]: choice and order of the victims.
    - [IPPool.v], [Network.v]: the pool of addresses; both network managers as
      instances of the class [NetworkManager], their commands recorded in order,
      and the update of the CiliumNode.
    - [Volume.v]: [Resolve] with all volume types, refreshes, CSI staging and
      clean-up, over the tree of [FileSys.v] and oracles for API and drivers.
    - [Stats.v]: the parsers of cgroup and pressure files, over file contents.
    - [Config.v]: [Process], from the raw to the processed configuration.
    - [Monitor.v]: the monitor variable, with channels that are open or closed,
      under any interleaving; pings on top of it.
    - [PawnNode.v]: [BuildNode], conditions, statistics, shutdown and draining.
    - [NodeCtl.v]: [RunNode] and [syncLease] with the trace of their calls.
    - [PodController.v]: callbacks and handlers over a heap of shared entries.

    ** What the theorems show

    - State machine: reachable states are well formed; restarts follow the
      policy, once per crash, with the documented back-off; phases and published
      statuses agree with the containers; finished pods are reported once.
    - Event loop: for every interleaving, it refines one reducer per pod,
      channels stay within their buffers and nothing accepted is reordered; a
      status is written only to the pod it was computed for.
    - Queue: sorted, one item per key; the earliest due item is served; an
      update during processing is not lost; retries are bounded.
    - Controller: a sync changes the provider at most once and only for reasons
      it was given; it settles; statuses and forced deletions reach only the pod
      with the same UID; no callback panics in any interleaving.
    - Probes: thresholds and hysteresis, the schedule, the startup gate, and
      that both loops compute the same states.
    - Store: counters and name index are exact in every run that respects the
      callers' obligations ([op_ok]); admission keeps the node within its
      capacity; statuses land on their container; delays double up to the cap.
    - Watcher: at most one restart goroutine per container in every run; pods
      being deleted are left alone; the exact condition for a terminal phase.
    - Lives of pods: the order of creation (network, init containers, app
      containers, promotion), what each failed launch leaves
      behind, the protocol of attempts and delays, the completeness of deletion,
      the end of every wait.
    - Recovery: writes are atomic; restart counters and the delays of the
      schedule survive a written state file; exactly the unfinished pods are
      restored; a reconciliation spares what is wanted and removes the rest.
    - Environment: its contents and precedence, and when resolving it fails.
    - Machines: metadata round trip, soundness and end of waiting for an exit.
    - Images: a pull only adds complete layers, each unpacked from what a peer,
      the registry or a compressed layer gave under its hash (which nothing
      checks), and leaves nothing half done as long as temporary directories can
      be removed; the policies; a pulled image is found again; registry requests
      are bounded.  Unpacking stays in its directory for archives whose entries
      do not pass through links, and gives what the archive says if also no two
      entries share a place.  The overlay shows each
      file from the topmost layer that has it; mounting adds one mount or none,
      unmounting removes all mounts and the workspace.
    - Eviction: victims are the highest ranked running pods, in order.
    - Volumes: one bind mount per volume mount, from the right place and
      read-only where it must be; files are touched below the pod's directory,
      at declared host paths and at the staging directories of claimed volumes;
      a refresh leaves the files of the mounted keys and no others; CSI volumes
      are staged only after they are attached.
    - Network: a set-up is complete, or takes no address; what each failure
      undoes and what it leaves; sweeps spare what is in use; both
      managers meet one contract.
    - Node: it is written only after a clean ping; the base of a patch is what
      was applied last; a renewal of the lease is bounded; what is allocatable
      is what the store computes; drains delete every pod.
    - Configuration: accepted ones have exactly the pawns asked for, with
      distinct ports.  Monitor: subscribers are woken exactly for what they
      have not read.  Statistics: what the kernel wrote is what is read.
    - Requests: a command runs at most once, for the container of the registered
      pod that the request names, in the leader of its machine, or in the main
      process of its unit when no leader is found;
      a forwarded port is one of that pod, and the thread comes back; a peer
      reaches only the tarballs of layers; logs are those of the right
      invocation, complete and in order; the codes of errors.
    - Containers: user IDs lie in ranges above those of the host; a workload
      behind the shim runs only with its maps and its identity, and does start
      if no call fails; the clean-up
      of slices spares active pawns.
    - Operation: a remote client of the control server cannot stop anything,
      and the doctor reports exactly the differences; registration of drivers
      ends and keeps other entries; renewals of certificates are limited; a
      rollout takes bounded steps, each after the last is ready; joining makes
      its changes in order, and the configuration it writes is accepted.
    - Names, expansion, addresses: round trips and absence of panics; the
      expansion loop computes the expansion grammar for texts in which no
      character outside ASCII follows a dollar sign; allocation is complete.
    Theorems introduced by a comment that starts with "Defect", and those in the
    sections on behaviours that differ from the comments, state where the code
    does not do what it means to.

    ** Conventions

    Numbers are [Z] with [wrap32], [wrap64] and [u32] where the width matters;
    times and durations are nanoseconds, and 0 is the zero time.  Clock
    readings, random numbers, probe results, the API server, systemd, commands,
    CNI and CSI plugins, registries and peers, failures of files and the order of
    map iteration are arguments; answers may depend on all that was done
    before.  A run-time panic
    is [None].  Loops with a bound of their own recurse on it; [Expand] has as
    fuel the length of its input plus one, [Allocate] one more than the last
    host offset, and [waitForContainer] the number of polls that fit into its
    timeout, [pollAttachment] the ticks of its timeout, [freePort] one more than
    the number of used ports, [removeStaleFiles] one more than the depth of the
    tree, [fetch] and [fromPeers] one more than the number of healthy peers,
    [Unmount] one more than the number of mounts, [children_loop] 21 rounds of
    100 ms for its 2 s, [handleSocketWithRetry] 60 rounds of 500 ms for its
    30 s, [verifyRegistration] 30 rounds of 2 s for its minute, [waitForReady]
    the polls of its timeout, and their theorems show that this is enough;
    [loadInvocationIDs] has as fuel the number of entries of the journal or
    more, as its theorem asks.  [backoff_loop] recurses
    on a number of attempts that its theorem bounds by the moment at which the
    context is cancelled.  The creation
    goroutine retries for ever if it must: [saga] recurses on a number of
    attempts, and its theorem holds for every number.  Locks are not modelled:
    an operation that holds one is one step.  So is a poll of the batch watcher,
    during which other goroutines of the program may change the store.

    ** Not modelled

    Libraries are parameters or left out: JSON, TOML and YAML decoding, gRPC,
    varlink framing, D-Bus, netlink, cryptography, the matching of routes and
    the protocols of streams.  So are parts that only move bytes or wire
    components: the relays between terminals, connections and streams, the
    [getent] shim of [systemd/musl.go], listeners, log output, metrics and tracing, the
    main programs and the printing commands of [cmd/]. *)
From Stdlib Require Export Ascii ZArith Lia.
From stdpp Require Export base gmap strings sorting fin_maps numbers.
From stdpp Require Export list_basics list_relations list_monad list_misc list_tactics list.

Declare Scope go_scope.
Delimit Scope go_scope with go.

(** ** Machine integers

    A Go integer of width [w] is a [Z] in the range of its type; every
    operation that can leave the range is followed by the wrap-around of
    that type. *)

Definition wrap32 (z : Z) : Z := (z + 2 ^ 31) `mod` 2 ^ 32 - 2 ^ 31.
Definition wrap64 (z : Z) : Z := (z + 2 ^ 63) `mod` 2 ^ 64 - 2 ^ 63.
Definition u32 (z : Z) : Z := z `mod` 2 ^ 32.
Definition u64 (z : Z) : Z := z `mod` 2 ^ 64.

Notation "x +i32 y" := (wrap32 (x + y)) (at level 50, left associativity) : go_scope.
Notation "x +i64 y" := (wrap64 (x + y)) (at level 50, left associativity) : go_scope.
Notation "x -i64 y" := (wrap64 (x - y)) (at level 50, left associativity) : go_scope.
Notation "x *i64 y" := (wrap64 (x * y)) (at level 40, left associativity) : go_scope.
Notation "x +u32 y" := (u32 (x + y)) (at level 50, left associativity) : go_scope.

Definition in_int32 (z : Z) : Prop := (- 2 ^ 31 <= z < 2 ^ 31)%Z.
Definition in_int64 (z : Z) : Prop := (- 2 ^ 63 <= z < 2 ^ 63)%Z.
Definition in_uint32 (z : Z) : Prop := (0 <= z < 2 ^ 32)%Z.

Lemma wrap32_id z : in_int32 z → wrap32 z = z.
Proof. unfold in_int32, wrap32. intros. rewrite Z.mod_small; lia. Qed.

Lemma wrap64_id z : in_int64 z → wrap64 z = z.
Proof. unfold in_int64, wrap64. intros. rewrite Z.mod_small; lia. Qed.

Lemma wrap32_range z : in_int32 (wrap32 z).
Proof.
  unfold in_int32, wrap32.
  pose proof (Z.mod_pos_bound (z + 2 ^ 31) (2 ^ 32) ltac:(lia)). lia.
Qed.

Lemma wrap64_range z : in_int64 (wrap64 z).
Proof.
  unfold in_int64, wrap64.
  pose proof (Z.mod_pos_bound (z + 2 ^ 63) (2 ^ 64) ltac:(lia)). lia.
Qed.

Lemma u32_id z : in_uint32 z → u32 z = z.
Proof. unfold in_uint32, u32. intros. apply Z.mod_small. lia. Qed.

Lemma u32_range z : in_uint32 (u32 z).
Proof. unfold in_uint32, u32. apply Z.mod_pos_bound. lia. Qed.

(** Wrapping commutes with addition, so an accumulator that wraps at each
    step agrees with the wrapped exact sum. *)
Lemma wrap64_add_l a b : wrap64 (wrap64 a + b) = wrap64 (a + b).
Proof.
  unfold wrap64. f_equal.
  replace ((a + 2 ^ 63) `mod` 2 ^ 64 - 2 ^ 63 + b + 2 ^ 63)%Z
    with ((a + 2 ^ 63) `mod` 2 ^ 64 + b)%Z by lia.
  rewrite Zplus_mod_idemp_l. f_equal. lia.
Qed.

Lemma wrap32_add_l a b : wrap32 (wrap32 a + b) = wrap32 (a + b).
Proof.
  unfold wrap32. f_equal.
  replace ((a + 2 ^ 31) `mod` 2 ^ 32 - 2 ^ 31 + b + 2 ^ 31)%Z
    with ((a + 2 ^ 31) `mod` 2 ^ 32 + b)%Z by lia.
  rewrite Zplus_mod_idemp_l. f_equal. lia.
Qed.

Lemma wrap64_add_r a b : wrap64 (a + wrap64 b) = wrap64 (a + b).
Proof. rewrite Z.add_comm, wrap64_add_l. f_equal. lia. Qed.

Lemma wrap64_sub_r a b : wrap64 (a - wrap64 b) = wrap64 (a - b).
Proof.
  unfold wrap64. f_equal.
  replace (a - ((b + 2 ^ 63) `mod` 2 ^ 64 - 2 ^ 63) + 2 ^ 63)%Z
    with ((a + 2 ^ 64) - (b + 2 ^ 63) `mod` 2 ^ 64)%Z by lia.
  rewrite Zminus_mod_idemp_r.
  replace (a + 2 ^ 64 - (b + 2 ^ 63))%Z with (a - b + 2 ^ 63)%Z by lia.
  reflexivity.
Qed.

(** ** Strings

    A Go string is a byte sequence, here a [string]; the standard library
    operations the sources use, on their own recursion so that they
    evaluate. *)

Module Str.

Abbreviation len := String.length.

#[local] Arguments String.append !_ _ : simpl nomatch.

(** [s[n:]] and [s[:n]], for [n] within the string. *)
Fixpoint sdrop (n : nat) (s : string) : string :=
  match n, s with
  | O, _ => s
  | S n', String _ s' => sdrop n' s'
  | S _, EmptyString => EmptyString
  end.

Fixpoint stake (n : nat) (s : string) : string :=
  match n, s with
  | O, _ => EmptyString
  | S n', String c s' => String c (stake n' s')
  | S _, EmptyString => EmptyString
  end.

(** [s[i:j]]; [None] is the run-time panic of a slice out of range. *)
Definition slice (s : string) (i j : nat) : option string :=
  if (i <=? j)%nat && (j <=? len s)%nat then Some (stake (j - i) (sdrop i s)) else None.

(** [s[i]]; [None] is the panic of an index out of range. *)
Definition at_ (s : string) (i : nat) : option ascii := String.get i s.

(** [strings.HasPrefix], [strings.HasSuffix], [strings.Index] (with [None]
    for -1), [strings.IndexByte]. *)
Definition has_prefix (s p : string) : bool := String.prefix p s.

Definition has_suffix (s suf : string) : bool :=
  (len suf <=? len s)%nat && bool_decide (sdrop (len s - len suf) s = suf).

Fixpoint index (s sub : string) : option nat :=
  if String.prefix sub s then Some 0
  else match s with
       | EmptyString => None
       | String _ s' => S <$> index s' sub
       end.

Fixpoint index_byte (s : string) (b : ascii) : option nat :=
  match s with
  | EmptyString => None
  | String c s' => if decide (c = b) then Some 0 else S <$> index_byte s' b
  end.

Definition trim_suffix (s suf : string) : string :=
  if has_suffix s suf then stake (len s - len suf) s else s.

Definition trim_prefix (s p : string) : string :=
  if has_prefix s p then sdrop (len p) s else s.

(** [strings.Map], and [strings.ToLower] and [strings.ToUpper] on ASCII. *)
Fixpoint smap (f : ascii → ascii) (s : string) : string :=
  match s with
  | EmptyString => EmptyString
  | String c s' => String (f c) (smap f s')
  end.

Definition in_range (c lo hi : ascii) : bool :=
  (N_of_ascii lo <=? N_of_ascii c)%N && (N_of_ascii c <=? N_of_ascii hi)%N.

Definition ToLower : string → string :=
  smap (λ c, if in_range c "A" "Z" then ascii_of_N (N_of_ascii c + 32) else c).
Definition ToUpper : string → string :=
  smap (λ c, if in_range c "a" "z" then ascii_of_N (N_of_ascii c - 32) else c).

(** [strings.Join] *)
Fixpoint Join (l : list string) (sep : string) : string :=
  match l with
  | [] => EmptyString
  | [s] => s
  | s :: l => s +:+ sep +:+ Join l sep
  end.

Lemma length_app (a b : string) : len (a +:+ b) = len a + len b.
Proof. induction a as [|c a IH]; cbn; congruence. Qed.

Lemma app_assoc (a b c : string) : a +:+ (b +:+ c) = (a +:+ b) +:+ c.
Proof. induction a as [|x a IH]; cbn; congruence. Qed.

Lemma app_nil_r (a : string) : a +:+ "" = a.
Proof. induction a as [|x a IH]; cbn; congruence. Qed.

Lemma sdrop_app (a b : string) : sdrop (len a) (a +:+ b) = b.
Proof. induction a as [|c a IH]; cbn; auto. Qed.

Lemma stake_app (a b : string) : stake (len a) (a +:+ b) = a.
Proof. induction a as [|c a IH]; cbn; congruence. Qed.

Lemma stake_all (s : string) : stake (len s) s = s.
Proof. induction s as [|c s IH]; cbn; congruence. Qed.

Lemma sdrop_all (s : string) : sdrop (len s) s = "".
Proof. induction s as [|c s IH]; cbn; auto. Qed.

Lemma stake_sdrop (n : nat) (s : string) : stake n s +:+ sdrop n s = s.
Proof. revert s. induction n as [|n IH]; intros [|c s]; cbn; try done. by rewrite IH. Qed.

Lemma length_sdrop (n : nat) (s : string) : len (sdrop n s) = len s - n.
Proof. revert s. induction n as [|n IH]; intros [|c s]; cbn; auto. Qed.

Lemma length_stake (n : nat) (s : string) : len (stake n s) = n `min` len s.
Proof. revert s. induction n as [|n IH]; intros [|c s]; cbn; auto. Qed.

Lemma sdrop_sdrop (n m : nat) (s : string) : sdrop n (sdrop m s) = sdrop (m + n) s.
Proof.
  revert s. induction m as [|m IH]; intros [|c s]; cbn; auto.
  destruct n; done.
Qed.

Lemma prefix_app (a b : string) : String.prefix a (a +:+ b) = true.
Proof.
  induction a as [|c a IH]; cbn; [by destruct b|].
  destruct (Ascii.ascii_dec c c); [done|congruence].
Qed.

Lemma prefix_spec (a s : string) : String.prefix a s = true → ∃ b, s = a +:+ b.
Proof.
  revert s. induction a as [|c a IH]; intros s Hp; [by exists s|].
  destruct s as [|d s]; [done|]. cbn in Hp.
  destruct (Ascii.ascii_dec c d) as [->|]; [|done].
  destruct (IH _ Hp) as [b ->]. by exists b.
Qed.

Lemma has_suffix_app (a suf : string) : has_suffix (a +:+ suf) suf = true.
Proof.
  unfold has_suffix. rewrite length_app.
  rewrite (proj2 (Nat.leb_le _ _)) by lia. cbn.
  apply bool_decide_eq_true_2.
  replace (len a + len suf - len suf) with (len a) by lia. apply sdrop_app.
Qed.

Lemma has_suffix_spec (s suf : string) :
  has_suffix s suf = true → s = stake (len s - len suf) s +:+ suf.
Proof.
  unfold has_suffix. intros [_ Heq%bool_decide_eq_true_1]%andb_true_iff.
  rewrite <- (stake_sdrop (len s - len suf) s) at 1. by rewrite Heq.
Qed.

Lemma index_cons c (s sub : string) :
  index (String c s) sub
  = if String.prefix sub (String c s) then Some 0 else S <$> index s sub.
Proof. reflexivity. Qed.

Lemma index_prefix (s sub : string) : String.prefix sub s = true → index s sub = Some 0.
Proof. destruct s; cbn; by intros ->. Qed.

Lemma app_inj_length (a a' b b' : string) :
  len a = len a' → a +:+ b = a' +:+ b' → a = a' ∧ b = b'.
Proof.
  revert a'. induction a as [|c a IH]; intros [|c' a']; cbn; intros Hl Heq; try lia; [done|].
  injection Heq as -> Heq. destruct (IH a' ltac:(lia) Heq) as [-> ->]. done.
Qed.

(** [strings.Index] finds an occurrence. *)
Lemma index_Some (s sub : string) i :
  index s sub = Some i → String.prefix sub (sdrop i s) = true ∧ i + len sub ≤ len s.
Proof.
  revert i. induction s as [|c s IH]; intros i Hi.
  - destruct sub; cbn in Hi; simplify_eq. cbn. split; [done|lia].
  - rewrite index_cons in Hi. destruct (String.prefix sub (String c s)) eqn:Hp.
    + injection Hi as <-. cbn [sdrop]. split; [done|].
      apply prefix_spec in Hp as [b Hb]. rewrite Hb, length_app. lia.
    + apply fmap_Some in Hi as (j & Hj & ->).
      destruct (IH _ Hj) as [? ?]. cbn. split; [done|lia].
Qed.

Lemma slice_mid (a b c : string) : slice (a +:+ b +:+ c) (len a) (len a + len b) = Some b.
Proof.
  unfold slice. rewrite !length_app.
  rewrite !(proj2 (Nat.leb_le _ _)) by lia. cbn.
  replace (len a + len b - len a) with (len b) by lia. by rewrite sdrop_app, stake_app.
Qed.

Lemma slice_tail (a b : string) : slice (a +:+ b) (len a) (len (a +:+ b)) = Some b.
Proof.
  pose proof (slice_mid a b "") as H. rewrite app_nil_r in H. by rewrite length_app.
Qed.

Lemma slice_head (a b : string) : slice (a +:+ b) 0 (len a) = Some a.
Proof. apply (slice_mid "" a b). Qed.

Lemma slice_mid_at (a b c : string) i j : i = len a → j = len a + len b → slice (a +:+ b +:+ c) i j = Some b.
Proof. intros -> ->. apply slice_mid. Qed.

Lemma slice_tail_at (a b : string) i j : i = len a → j = len a + len b → slice (a +:+ b) i j = Some b.
Proof. intros -> ->. rewrite <- length_app. apply slice_tail. Qed.

(** [sort.Strings] *)
#[export] Instance string_leb_dec : RelDecision (λ a b : string, String.leb a b = true).
Proof. intros a b. apply _. Defined.

Definition sortStrings (l : list string) : list string := merge_sort (λ a b, String.leb a b = true) l.

End Str.

(** ** Lists *)

(** The index of the first element satisfying [p]; the sources return -1
    where this is [None]. *)
Fixpoint find_index {A} (p : A → bool) (l : list A) : option nat :=
  match l with
  | [] => None
  | x :: l' => if p x then Some 0 else S <$> find_index p l'
  end.

Lemma find_index_Some {A} (p : A → bool) l i :
  find_index p l = Some i → ∃ x, l !! i = Some x ∧ p x = true.
Proof.
  revert i. induction l as [|y l IH]; intros i Hi; cbn in Hi; [done|].
  destruct (p y) eqn:Hp.
  - injection Hi as <-. by exists y.
  - apply fmap_Some in Hi as (j & Hj & ->). apply IH in Hj as (x & ? & ?).
    by exists x.
Qed.

Lemma find_index_None {A} (p : A → bool) l :
  find_index p l = None ↔ Forall (λ x, p x = false) l.
Proof.
  induction l as [|y l IH]; cbn.
  - split; [constructor|done].
  - rewrite Forall_cons. destruct (p y) eqn:Hp.
    + split; [done|]. by intros [? _].
    + rewrite <- IH. destruct (find_index p l); naive_solver.
Qed.

Lemma forallb_ext_elem {A} (f g : A → bool) l : (∀ x, x ∈ l → f x = g x) → forallb f l = forallb g l.
Proof.
  induction l as [|x l IH]; intros H; [done|]. cbn. rewrite H by constructor. f_equal. apply IH.
  intros y Hy. apply H. by constructor.
Qed.

Lemma find_index_first {A} (p : A → bool) l i j x :
  find_index p l = Some i → l !! j = Some x → p x = true → i ≤ j.
Proof.
  revert i j. induction l as [|y l IH]; intros i j Hi Hj Hp; cbn in Hi; [done|].
  destruct (p y) eqn:Hy.
  - injection Hi as <-. lia.
  - apply fmap_Some in Hi as (k & Hk & ->).
    destruct j as [|j]; cbn in Hj.
    + injection Hj as ->. congruence.
    + pose proof (IH _ _ Hk Hj Hp). lia.
Qed.

(** Elements of a list without duplicate images are determined by them. *)
Lemma NoDup_fmap_elem {A B} (f : A → B) (l : list A) x y :
  NoDup (f <$> l) → x ∈ l → y ∈ l → f x = f y → x = y.
Proof.
  intros Hn [i Hi]%list_elem_of_lookup [j Hj]%list_elem_of_lookup Hf.
  assert (i = j) as ->; [|congruence].
  apply (NoDup_lookup _ i j (f x) Hn); rewrite list_lookup_fmap.
  - by rewrite Hi.
  - rewrite Hj. cbn. congruence.
Qed.

(** Sum of an integer measure over a list. *)
Lemma filter_all {A} (P : A → Prop) `{!∀ x, Decision (P x)} (l : list A) : Forall P l → filter P l = l.
Proof. induction 1 as [|x l Hx _ IH]; [done|]. rewrite filter_cons, decide_True by done. by rewrite IH. Qed.

Lemma filter_none {A} (P : A → Prop) `{!∀ x, Decision (P x)} (l : list A) : Forall (λ x, ¬ P x) l → filter P l = [].
Proof. induction 1 as [|x l Hx _ IH]; [done|]. rewrite filter_cons, decide_False by done. by rewrite IH. Qed.

Lemma NoDup_fmap_filter {A B} (f : A → B) (P : A → Prop) `{!∀ x, Decision (P x)} (l : list A) :
  NoDup (f <$> l) → NoDup (f <$> filter P l).
Proof.
  induction l as [|x l IH]; [done|]. rewrite filter_cons, fmap_cons, NoDup_cons. intros [Hx Hl].
  case_decide; [|by apply IH]. rewrite fmap_cons, NoDup_cons. split; [|by apply IH].
  rewrite list_elem_of_fmap in *. intros (y & ? & [_ ?]%list_elem_of_filter). eauto.
Qed.

Definition sum_over {A} (f : A → Z) (l : list A) : Z := foldr (λ x acc, (f x + acc)%Z) 0%Z l.

Lemma sum_over_nonneg {A} (f : A → Z) l : Forall (λ x, 0 <= f x)%Z l → (0 <= sum_over f l)%Z.
Proof. induction 1 as [|x l Hx _ IH]; [done|]. change (sum_over f (x :: l)) with (f x + sum_over f l)%Z. lia. Qed.

Lemma sum_over_app {A} (f : A → Z) l k : sum_over f (l ++ k) = (sum_over f l + sum_over f k)%Z.
Proof. induction l as [|x l IH]; cbn; [done|]. unfold sum_over in *. rewrite IH. lia. Qed.

#[export] Instance sum_over_Permutation {A} (f : A → Z) :
  Proper (Permutation ==> eq) (sum_over f).
Proof. unfold sum_over. induction 1; cbn in *; lia. Qed.

(** Sum of an integer measure over the values of a map: what an
    incrementally maintained counter of the map should hold. *)
Definition map_sum {A} (f : A → Z) (m : gmap string A) : Z :=
  sum_over (λ kv, f (snd kv)) (map_to_list m).

Lemma map_sum_empty {A} (f : A → Z) : map_sum f ∅ = 0%Z.
Proof. unfold map_sum. by rewrite map_to_list_empty. Qed.

Lemma map_sum_insert_new {A} (f : A → Z) m k x :
  m !! k = None → map_sum f (<[k:=x]> m) = (f x + map_sum f m)%Z.
Proof. intros Hk. unfold map_sum. by rewrite map_to_list_insert. Qed.

Lemma map_sum_delete {A} (f : A → Z) m k x :
  m !! k = Some x → map_sum f (delete k m) = (map_sum f m - f x)%Z.
Proof.
  intros Hk. rewrite <- (insert_delete_id m k x Hk) at 2.
  rewrite map_sum_insert_new by apply lookup_delete_eq. lia.
Qed.

Lemma map_sum_replace {A} (f : A → Z) m k x y :
  m !! k = Some x → map_sum f (<[k:=y]> m) = (map_sum f m - f x + f y)%Z.
Proof.
  intros Hk. rewrite <- insert_delete_eq.
  rewrite map_sum_insert_new by apply lookup_delete_eq.
  rewrite (map_sum_delete _ _ _ _ Hk). lia.
Qed.

Lemma map_sum_ext {A} (f g : A → Z) m :
  (∀ k x, m !! k = Some x → f x = g x) → map_sum f m = map_sum g m.
Proof.
  intros Hfg. unfold map_sum.
  assert (Forall (λ kv, f (snd kv) = g (snd kv)) (map_to_list m)) as HF.
  { apply Forall_forall. intros [k x] Hin%elem_of_map_to_list. by eapply Hfg. }
  induction HF as [|kv l Heq _ IH]; cbn; [done|]. unfold sum_over in *. lia.
Qed.

(** ** Automation *)

Create HintDb go.
#[export] Hint Resolve wrap32_range wrap64_range u32_range : go.
Create Rewrite HintDb go.
#[export] Hint Rewrite wrap64_add_l wrap64_add_r wrap64_sub_r : go.

(** Case analysis on every [match], [if] and [decide] of the goal, then the
    equations it leaves. *)
Ltac go_cases := repeat (case_match || case_decide || case_bool_decide); simplify_eq/=.
