(* ===== verification/Corev1.v ===== *)
(** * Kubernetes API data

    The fields of the [k8s.io/api/core/v1] objects that the modelled code
    reads or writes, as plain data.  A pointer field is an [option]; a map
    that the code compares with [nil] is an [option] of a map; a
    [metav1.Time] or [time.Time] is the number of nanoseconds since the zero
    time, so that [IsZero] is [= 0]; a [time.Duration] is an int64 number of
    nanoseconds.  A nil slice and an empty one are both [[]].  Every record
    has its Go zero value, and decidable equality, which is what [cmp.Equal]
    computes. *)
From S2P Require Import Prelude.

Abbreviation Time := Z.
Abbreviation Duration := Z.

Definition Second : Duration := 1000000000.
Definition Minute : Duration := 60 * Second.
Definition Hour : Duration := 60 * Minute.

Definition IsZero (t : Time) : bool := bool_decide (t = 0%Z).

(** String enumerations of the API, with [*Zero] for the empty string. *)
Inductive PodPhase := PhaseZero | PodPending | PodRunning | PodSucceeded | PodFailed | PodUnknown.
Inductive RestartPolicy := RestartPolicyZero | RestartPolicyAlways | RestartPolicyOnFailure | RestartPolicyNever.
Inductive ConditionStatus := ConditionTrue | ConditionFalse | ConditionUnknown.

#[export] Instance PodPhase_eq_dec : EqDecision PodPhase.
Proof. solve_decision. Defined.
#[export] Instance RestartPolicy_eq_dec : EqDecision RestartPolicy.
Proof. solve_decision. Defined.
#[export] Instance ConditionStatus_eq_dec : EqDecision ConditionStatus.
Proof. solve_decision. Defined.

(** [runtime.MachineState]; [StateZero] is the empty string that a map
    lookup of an absent key yields. *)
Inductive MachineState := StateZero | StateRunning | StateCreating | StateFailed | StateExited | StateUnknown.
#[export] Instance MachineState_eq_dec : EqDecision MachineState.
Proof. solve_decision. Defined.

(** A [resource.Quantity], by the two int64 readings the code takes of it. *)
Record Quantity := { MilliValue : Z; Value : Z }.

Definition zeroQuantity : Quantity := {| MilliValue := 0; Value := 0 |}.

(** [resource.NewMilliQuantity] and [resource.NewQuantity] ([Value] rounds up). *)
Definition NewMilliQuantity (m : Z) : Quantity := {| MilliValue := m; Value := - (- m `div` 1000) |}.
Definition NewQuantity (v : Z) : Quantity := {| MilliValue := v * 1000; Value := v |}.

Abbreviation ResourceList := (gmap string Quantity).

Record ResourceRequirements := {
  Limits : option ResourceList;
  Requests : option ResourceList;
}.

(** Probe handlers; a port is given by its [IntOrString.String]. *)
Record HTTPGetAction := {
  h_Path : string;
  h_Port : string;
  h_Host : string;
  h_HTTPS : bool;
  h_Headers : list (string * string);
}.

Record TCPSocketAction := { tcp_Port : string; tcp_Host : string }.

Record Probe := {
  HTTPGet : option HTTPGetAction;
  TCPSocket : option TCPSocketAction;
  Exec : option (list string);
  InitialDelaySeconds : Z;
  TimeoutSeconds : Z;
  PeriodSeconds : Z;
  SuccessThreshold : Z;
  FailureThreshold : Z;
}.

Definition zeroProbe : Probe := {|
  HTTPGet := None; TCPSocket := None; Exec := None; InitialDelaySeconds := 0; TimeoutSeconds := 0;
  PeriodSeconds := 0; SuccessThreshold := 0; FailureThreshold := 0 |}.

(** Environment variables and where they come from. *)
Record KeySelector := { ksel_Name : string; ksel_Key : string; ksel_Optional : option bool }.
Record ObjectFieldSelector := { ofs_APIVersion : string; ofs_FieldPath : string }.

(** [evs_ResourceFieldRef] tells whether the field is set; its content is
    never read. *)
Record EnvVarSource := {
  evs_FieldRef : option ObjectFieldSelector;
  evs_ResourceFieldRef : bool;
  evs_ConfigMapKeyRef : option KeySelector;
  evs_SecretKeyRef : option KeySelector;
}.

Record EnvVar := { ev_Name : string; ev_Value : string; ev_ValueFrom : option EnvVarSource }.

Record EnvSource := { es_Name : string; es_Optional : option bool }.

Record EnvFromSource := {
  efs_Prefix : string;
  efs_ConfigMapRef : option EnvSource;
  efs_SecretRef : option EnvSource;
}.

(** Lifecycle hooks and security contexts. *)
Record LifecycleHandler := {
  lh_Exec : option (list string);
  lh_HTTPGet : option HTTPGetAction;
  lh_Sleep : option Z;
}.

Record Lifecycle := { lc_PostStart : option LifecycleHandler; lc_PreStop : option LifecycleHandler }.

Record SecurityContext := {
  sc_RunAsUser : option Z;
  sc_RunAsGroup : option Z;
  sc_Privileged : option bool;
}.

Record VolumeMount := {
  vm_Name : string;
  vm_MountPath : string;
  vm_ReadOnly : bool;
  vm_MountPropagation : option string;
}.

Record Container := {
  c_Name : string;
  c_Image : string;
  c_ImagePullPolicy : string;
  c_Command : list string;
  c_Args : list string;
  c_Env : list EnvVar;
  c_EnvFrom : list EnvFromSource;
  c_VolumeMounts : list VolumeMount;
  c_Stdin : bool;
  c_RestartPolicy : option RestartPolicy;
  c_Lifecycle : option Lifecycle;
  c_SecurityContext : option SecurityContext;
  c_Resources : ResourceRequirements;
  c_ReadinessProbe : option Probe;
  c_LivenessProbe : option Probe;
  c_StartupProbe : option Probe;
}.

Definition zeroContainer : Container := {|
  c_Name := ""; c_Image := ""; c_ImagePullPolicy := ""; c_Command := []; c_Args := [];
  c_Env := []; c_EnvFrom := []; c_VolumeMounts := []; c_Stdin := false; c_RestartPolicy := None; c_Lifecycle := None;
  c_SecurityContext := None;
  c_Resources := {| Limits := None; Requests := None |};
  c_ReadinessProbe := None; c_LivenessProbe := None; c_StartupProbe := None |}.

Record ContainerStateWaiting := { w_Reason : string; w_Message : string }.
Record ContainerStateRunning := { r_StartedAt : Time }.
Record ContainerStateTerminated := {
  t_ExitCode : Z; t_Reason : string; t_Message : string; t_StartedAt : Time; t_FinishedAt : Time }.

Record ContainerState := {
  Waiting : option ContainerStateWaiting;
  Running : option ContainerStateRunning;
  Terminated : option ContainerStateTerminated;
}.

Definition zeroContainerState : ContainerState :=
  {| Waiting := None; Running := None; Terminated := None |}.

Record ContainerStatus := {
  cs_Name : string;
  cs_State : ContainerState;
  cs_Ready : bool;
  cs_RestartCount : Z;
  cs_Image : string;
}.

Record PodCondition := { pc_Type : string; pc_Status : ConditionStatus }.

Record PodStatus := {
  ps_Phase : PodPhase;
  ps_Conditions : list PodCondition;
  ps_Message : string;
  ps_Reason : string;
  ps_HostIP : string;
  ps_PodIP : string;
  ps_PodIPs : list string;
  ps_StartTime : option Time;
  ps_InitContainerStatuses : list ContainerStatus;
  ps_ContainerStatuses : list ContainerStatus;
}.

Definition zeroPodStatus : PodStatus := {|
  ps_Phase := PhaseZero; ps_Conditions := []; ps_Message := ""; ps_Reason := "";
  ps_HostIP := ""; ps_PodIP := ""; ps_PodIPs := []; ps_StartTime := None;
  ps_InitContainerStatuses := []; ps_ContainerStatuses := [] |}.

Record KeyToPath := { ktp_Key : string; ktp_Path : string }.
Record HostPathVolumeSource := { hpv_Path : string; hpv_Type : option string }.
Record ConfigMapVolumeSource := { cmv_Name : string; cmv_Items : list KeyToPath }.
Record SecretVolumeSource := { sev_SecretName : string; sev_Items : list KeyToPath }.
Record PersistentVolumeClaimVolumeSource := { pvv_ClaimName : string; pvv_ReadOnly : bool }.
Record ServiceAccountTokenProjection := {
  sat_Path : string; sat_Audience : string; sat_ExpirationSeconds : option Z }.

(** [daf_FieldRef] is the field path, [None] for a resource field. *)
Record DownwardAPIVolumeFile := { daf_Path : string; daf_FieldRef : option string }.

(** A source of a projected volume; of the four fields at most one is set. *)
Record VolumeProjection := {
  vpr_ServiceAccountToken : option ServiceAccountTokenProjection;
  vpr_ConfigMap : option ConfigMapVolumeSource;
  vpr_DownwardAPI : option (list DownwardAPIVolumeFile);
  vpr_Secret : option SecretVolumeSource;
}.

(** A volume, by the sources that are supported. *)
Record Volume := {
  vol_Name : string;
  vol_HostPath : option HostPathVolumeSource;
  vol_EmptyDir : bool;
  vol_ConfigMap : option ConfigMapVolumeSource;
  vol_Secret : option SecretVolumeSource;
  vol_PersistentVolumeClaim : option PersistentVolumeClaimVolumeSource;
  vol_Projected : option (list VolumeProjection);
}.

Definition zeroVolume : Volume := {|
  vol_Name := ""; vol_HostPath := None; vol_EmptyDir := false; vol_ConfigMap := None; vol_Secret := None;
  vol_PersistentVolumeClaim := None; vol_Projected := None |}.

Record Toleration := {
  tol_Key : string;
  tol_Operator : string;
  tol_Value : string;
  tol_Effect : string;
  tol_Seconds : option Z;
}.

(** The fields of [ObjectMeta] and [PodSpec] that are read, in one record;
    [p_SecurityContext] gives [RunAsUser] and [RunAsGroup]. *)
Record Pod := {
  p_Name : string;
  p_Namespace : string;
  p_UID : string;
  p_ResourceVersion : string;
  p_Labels : option (gmap string string);
  p_Annotations : option (gmap string string);
  p_Finalizers : list string;
  p_DeletionTimestamp : option Time;
  p_DeletionGracePeriodSeconds : option Z;
  p_NodeName : string;
  p_ServiceAccountName : string;
  p_RestartPolicy : RestartPolicy;
  p_TerminationGracePeriodSeconds : option Z;
  p_ActiveDeadlineSeconds : option Z;
  p_EnableServiceLinks : option bool;
  p_HostNetwork : bool;
  p_HostPID : bool;
  p_SecurityContext : option (option Z * option Z);
  p_Resources : option ResourceRequirements;
  p_Tolerations : list Toleration;
  p_Volumes : list Volume;
  p_InitContainers : list Container;
  p_Containers : list Container;
  p_EphemeralContainers : list Container;
  p_Status : PodStatus;
}.

Definition zeroPod : Pod := {|
  p_Name := ""; p_Namespace := ""; p_UID := ""; p_ResourceVersion := ""; p_Labels := None;
  p_Annotations := None; p_Finalizers := []; p_DeletionTimestamp := None;
  p_DeletionGracePeriodSeconds := None; p_NodeName := ""; p_ServiceAccountName := "";
  p_RestartPolicy := RestartPolicyZero; p_TerminationGracePeriodSeconds := None;
  p_ActiveDeadlineSeconds := None; p_EnableServiceLinks := None; p_HostNetwork := false;
  p_HostPID := false; p_SecurityContext := None; p_Resources := None; p_Tolerations := [];
  p_Volumes := []; p_InitContainers := []; p_Containers := []; p_EphemeralContainers := [];
  p_Status := zeroPodStatus |}.

#[export] Instance Quantity_eq_dec : EqDecision Quantity.
Proof. solve_decision. Defined.
#[export] Instance ResourceRequirements_eq_dec : EqDecision ResourceRequirements.
Proof. solve_decision. Defined.
#[export] Instance HTTPGetAction_eq_dec : EqDecision HTTPGetAction.
Proof. solve_decision. Defined.
#[export] Instance TCPSocketAction_eq_dec : EqDecision TCPSocketAction.
Proof. solve_decision. Defined.
#[export] Instance Probe_eq_dec : EqDecision Probe.
Proof. solve_decision. Defined.
#[export] Instance KeySelector_eq_dec : EqDecision KeySelector.
Proof. solve_decision. Defined.
#[export] Instance ObjectFieldSelector_eq_dec : EqDecision ObjectFieldSelector.
Proof. solve_decision. Defined.
#[export] Instance EnvVarSource_eq_dec : EqDecision EnvVarSource.
Proof. solve_decision. Defined.
#[export] Instance EnvVar_eq_dec : EqDecision EnvVar.
Proof. solve_decision. Defined.
#[export] Instance EnvSource_eq_dec : EqDecision EnvSource.
Proof. solve_decision. Defined.
#[export] Instance EnvFromSource_eq_dec : EqDecision EnvFromSource.
Proof. solve_decision. Defined.
#[export] Instance LifecycleHandler_eq_dec : EqDecision LifecycleHandler.
Proof. solve_decision. Defined.
#[export] Instance Lifecycle_eq_dec : EqDecision Lifecycle.
Proof. solve_decision. Defined.
#[export] Instance SecurityContext_eq_dec : EqDecision SecurityContext.
Proof. solve_decision. Defined.
#[export] Instance VolumeMount_eq_dec : EqDecision VolumeMount.
Proof. solve_decision. Defined.
#[export] Instance Container_eq_dec : EqDecision Container.
Proof. solve_decision. Defined.
#[export] Instance ContainerStateWaiting_eq_dec : EqDecision ContainerStateWaiting.
Proof. solve_decision. Defined.
#[export] Instance ContainerStateRunning_eq_dec : EqDecision ContainerStateRunning.
Proof. solve_decision. Defined.
#[export] Instance ContainerStateTerminated_eq_dec : EqDecision ContainerStateTerminated.
Proof. solve_decision. Defined.
#[export] Instance ContainerState_eq_dec : EqDecision ContainerState.
Proof. solve_decision. Defined.
#[export] Instance ContainerStatus_eq_dec : EqDecision ContainerStatus.
Proof. solve_decision. Defined.
#[export] Instance PodCondition_eq_dec : EqDecision PodCondition.
Proof. solve_decision. Defined.
#[export] Instance PodStatus_eq_dec : EqDecision PodStatus.
Proof. solve_decision. Defined.
#[export] Instance KeyToPath_eq_dec : EqDecision KeyToPath.
Proof. solve_decision. Defined.
#[export] Instance HostPathVolumeSource_eq_dec : EqDecision HostPathVolumeSource.
Proof. solve_decision. Defined.
#[export] Instance ConfigMapVolumeSource_eq_dec : EqDecision ConfigMapVolumeSource.
Proof. solve_decision. Defined.
#[export] Instance SecretVolumeSource_eq_dec : EqDecision SecretVolumeSource.
Proof. solve_decision. Defined.
#[export] Instance PersistentVolumeClaimVolumeSource_eq_dec : EqDecision PersistentVolumeClaimVolumeSource.
Proof. solve_decision. Defined.
#[export] Instance ServiceAccountTokenProjection_eq_dec : EqDecision ServiceAccountTokenProjection.
Proof. solve_decision. Defined.
#[export] Instance DownwardAPIVolumeFile_eq_dec : EqDecision DownwardAPIVolumeFile.
Proof. solve_decision. Defined.
#[export] Instance VolumeProjection_eq_dec : EqDecision VolumeProjection.
Proof. solve_decision. Defined.
#[export] Instance Volume_eq_dec : EqDecision Volume.
Proof. solve_decision. Defined.
#[export] Instance Toleration_eq_dec : EqDecision Toleration.
Proof. solve_decision. Defined.
#[export] Instance Pod_eq_dec : EqDecision Pod.
Proof. solve_decision. Defined.
