(* ===== verification/Float64.v ===== *)
(** * float64

    The floating-point arithmetic of the sources: IEEE 754 double precision, by
    the specification floats of the Standard Library.  A conversion of a float
    to an integer that does not fit gives the smallest int64, as on amd64. *)
From Stdlib Require Import SpecFloat.
From S2P Require Import Prelude Corev1.

Definition float64 : Type := spec_float.
Definition float64_of_int (z : Z) : float64 := binary_normalize 53 1024 z 0 false.
Definition fmul : float64 → float64 → float64 := SFmul 53 1024.
Definition fadd : float64 → float64 → float64 := SFadd 53 1024.
Definition fdiv : float64 → float64 → float64 := SFdiv 53 1024.

Definition int_of_float64 (f : float64) : Z :=
  let z := match f with
           | S754_zero _ => Some 0%Z
           | S754_finite s m e =>
               let a := if (0 <=? e)%Z then (Zpos m * 2 ^ e)%Z else (Zpos m `div` 2 ^ (- e))%Z in
               Some (if s then - a else a)%Z
           | _ => None
           end in
  match z with
  | Some z => if (- 2 ^ 63 <=? z)%Z && (z <? 2 ^ 63)%Z then z else (- 2 ^ 63)%Z
  | None => (- 2 ^ 63)%Z
  end.

Definition flt : float64 → float64 → bool := SFltb.
Definition fle : float64 → float64 → bool := SFleb.

(** [time.Duration.Seconds] and the conversion back, [time.Duration(sec * float64(time.Second))]. *)
Definition Seconds (d : Duration) : float64 :=
  fadd (float64_of_int (Z.quot d Second)) (fdiv (float64_of_int (Z.rem d Second)) (float64_of_int 1000000000)).
Definition Duration_of_seconds (sec : float64) : Duration := int_of_float64 (fmul sec (float64_of_int Second)).
