(* ===== verification/Monad.v ===== *)
(** * State and errors

    The monad of the imperative code: a computation takes a state and returns
    the state it leaves behind together with an error or a value, so that the
    effects made before an early return are kept.  The Hoare triples over it
    have one postcondition for each of the two ways to return. *)
From S2P Require Import Prelude.

Definition SE (S E A : Type) : Type := S → S * (E + A).

#[export] Instance SE_ret S E : MRet (SE S E) := λ A a s, (s, inr a).
#[export] Instance SE_bind S E : MBind (SE S E) := λ A B f m s,
  match m s with
  | (s, inl e) => (s, inl e)
  | (s, inr a) => f a s
  end.

Section Operations.
Context {S E : Type}.

Definition throw {A} (e : E) : SE S E A := λ s, (s, inl e).
Definition get : SE S E S := λ s, (s, inr s).
Definition gets {A} (f : S → A) : SE S E A := λ s, (s, inr (f s)).
Definition modifyS (f : S → S) : SE S E () := λ s, (f s, inr tt).

(** [if err := m; err != nil { ... }]: the error as a value. *)
Definition try {A} (m : SE S E A) : SE S E (E + A) := λ s,
  let '(s, r) := m s in (s, inr r).

(** The same, in a function that itself returns no error. *)
Definition handled {F A} (m : SE S E A) : SE S F (E + A) := λ s, let '(s, r) := m s in (s, inr r).

(** A call that does not return an error. *)
Definition lift {A} (f : S → S * A) : SE S E A := λ s, let '(s, a) := f s in (s, inr a).

(** [for _, x := range l { ... }] *)
Fixpoint forM {A} (l : list A) (f : A → SE S E ()) : SE S E () :=
  match l with
  | [] => mret tt
  | x :: l => _ ← f x; forM l f
  end.

Definition whenM (b : bool) (m : SE S E ()) : SE S E () := if b then m else mret tt.
End Operations.

(** [fmt.Errorf("...: %w", err)]: the same computation with a wrapped error. *)
Definition mapErr {S E F A} (w : E → F) (m : SE S E A) : SE S F A := λ s,
  match m s with
  | (s, inl e) => (s, inl (w e))
  | (s, inr a) => (s, inr a)
  end.

(** ** Triples *)

Definition triple {S E A} (P : S → Prop) (m : SE S E A) (Q : A → S → Prop) (R : E → S → Prop) : Prop :=
  ∀ s, P s → match m s with (s', inr a) => Q a s' | (s', inl e) => R e s' end.

Section Triples.
Context {S E : Type}.
Implicit Types (P : S → Prop) (R : E → S → Prop).

Lemma triple_ret {A} (a : A) P R (Q : A → S → Prop) : (∀ s, P s → Q a s) → triple P (mret a) Q R.
Proof. intros H s Hs. cbn. auto. Qed.

Lemma triple_throw {A} (e : E) P R (Q : A → S → Prop) : (∀ s, P s → R e s) → triple P (throw e) Q R.
Proof. intros H s Hs. cbn. auto. Qed.

Lemma triple_bind {A B} P (Q : A → S → Prop) (Q' : B → S → Prop) R (m : SE S E A) (f : A → SE S E B) :
  triple P m Q R → (∀ a, triple (Q a) (f a) Q' R) → triple P (m ≫= f) Q' R.
Proof.
  intros Hm Hf s Hs. specialize (Hm s Hs). unfold mbind, SE_bind.
  destruct (m s) as [s' [e|a]]; [done|]. by apply Hf.
Qed.

Lemma triple_ret_bind {A B} (a : A) P (Q : B → S → Prop) R (f : A → SE S E B) :
  triple P (f a) Q R → triple P (mret a ≫= f) Q R.
Proof. intros H s Hs. exact (H s Hs). Qed.

Lemma triple_throw_bind {A B} (e : E) P (Q : B → S → Prop) R (f : A → SE S E B) :
  (∀ s, P s → R e s) → triple P (throw e ≫= f) Q R.
Proof. intros H s Hs. exact (H s Hs). Qed.

Lemma triple_conseq {A} P P' (Q Q' : A → S → Prop) R R' (m : SE S E A) :
  triple P' m Q' R' → (∀ s, P s → P' s) → (∀ a s, Q' a s → Q a s) → (∀ e s, R' e s → R e s) →
  triple P m Q R.
Proof. intros H HP HQ HR s Hs. specialize (H s (HP s Hs)). destruct (m s) as [s' [e|a]]; auto. Qed.

Lemma triple_gets {A} (f : S → A) P R (Q : A → S → Prop) :
  (∀ s, P s → Q (f s) s) → triple P (gets f) Q R.
Proof. intros H s Hs. cbn. auto. Qed.

Lemma triple_modify (f : S → S) P R (Q : () → S → Prop) :
  (∀ s, P s → Q tt (f s)) → triple P (modifyS f) Q R.
Proof. intros H s Hs. cbn. auto. Qed.

Lemma triple_lift {A} (f : S → S * A) P R (Q : A → S → Prop) :
  (∀ s, P s → Q (f s).2 (f s).1) → triple P (lift f) Q R.
Proof. intros H s Hs. unfold lift. specialize (H s Hs). by destruct (f s). Qed.

Lemma triple_try {A} P R (Q : E + A → S → Prop) (m : SE S E A) :
  triple P m (λ a, Q (inr a)) (λ e, Q (inl e)) → triple P (try m) Q R.
Proof. intros H s Hs. specialize (H s Hs). unfold try. by destruct (m s) as [s' [e|a]]. Qed.

Lemma triple_handled {F A} P (R : F → S → Prop) (Q : E + A → S → Prop) (m : SE S E A) :
  triple P m (λ a, Q (inr a)) (λ e, Q (inl e)) → triple P (handled m) Q R.
Proof. intros H s Hs. specialize (H s Hs). unfold handled. by destruct (m s) as [s' [e|a]]. Qed.

Lemma triple_when P R Q (b : bool) (m : SE S E ()) :
  (b = true → triple P m Q R) → (b = false → ∀ s, P s → Q tt s) → triple P (whenM b m) Q R.
Proof. intros Hm Hs. destruct b; [by apply Hm|]. by apply triple_ret, Hs. Qed.

(** A loop, with an invariant over the part of the list that is done. *)
Lemma triple_forM {A} (I : list A → S → Prop) R (f : A → SE S E ()) l :
  (∀ pre x rest, l = pre ++ x :: rest → triple (I pre) (f x) (λ _, I (pre ++ [x])) R) →
  triple (I []) (forM l f) (λ _, I l) R.
Proof.
  intros H.
  enough (∀ rest pre, l = pre ++ rest → triple (I pre) (forM rest f) (λ _, I l) R) as Hg by by apply (Hg l []).
  intros rest. induction rest as [|x rest IH]; intros pre Hl; cbn.
  - apply triple_ret. intros s Hs. by rewrite Hl, app_nil_r.
  - eapply triple_bind; [by apply (H pre x rest)|]. intros []. apply IH. by rewrite Hl, <- app_assoc.
Qed.

Lemma triple_and {A} P (Q Q' : A → S → Prop) R R' (m : SE S E A) :
  triple P m Q R → triple P m Q' R' → triple P m (λ a s, Q a s ∧ Q' a s) (λ e s, R e s ∧ R' e s).
Proof. intros H H' s Hs. specialize (H s Hs). specialize (H' s Hs). destruct (m s) as [s' [e|a]]; auto. Qed.

Lemma triple_run {A} P Q R (m : SE S E A) s s' r : triple P m Q R → P s → m s = (s', r) →
  match r with inr a => Q a s' | inl e => R e s' end.
Proof. intros H Hs Hm. specialize (H s Hs). rewrite Hm in H. by destruct r. Qed.
End Triples.

Lemma triple_mapErr {S E F A} P (Q : A → S → Prop) (R : F → S → Prop) (w : E → F) (m : SE S E A) :
  triple P m Q (λ e, R (w e)) → triple P (mapErr w m) Q R.
Proof. intros H s Hs. specialize (H s Hs). unfold mapErr. by destruct (m s) as [s' [e|a]]. Qed.

(** ** Errors alone *)

#[export] Instance sum_ret E : MRet (sum E) := λ A a, inr a.
#[export] Instance sum_bind E : MBind (sum E) := λ A B f m,
  match m with inl e => inl e | inr a => f a end.

(** [if err != nil { return wrapped }] on an optional answer. *)
Definition orErr {E A} (e : E) (o : option A) : E + A := match o with Some a => inr a | None => inl e end.

Lemma sum_bind_inr {E A B} (f : A → E + B) (m : E + A) b :
  m ≫= f = inr b ↔ ∃ a, m = inr a ∧ f a = inr b.
Proof. destruct m; cbn; naive_solver. Qed.

Lemma orErr_inr {E A} (e : E) (o : option A) a : orErr e o = inr a ↔ o = Some a.
Proof. destruct o; cbn; naive_solver. Qed.
