(* ===== verification/Trace.v ===== *)
(** * Code that calls services

    The monad of [Monad] over a state with two parts: the calls made so far,
    each with its answer, and the data of the component. The answer of a call
    is a function of the calls before it. [wp] says how a computation ends:
    with which result, which calls and which data. *)
From S2P Require Import Prelude Monad.

Record TState (Act D : Type) := { t_trace : list Act; t_data : D }.
Arguments t_trace {_ _} _.
Arguments t_data {_ _} _.
Arguments Build_TState {_ _} _ _.

Section Trace.
Context {Act D : Type}.

Abbreviation TM E := (SE (TState Act D) E).

Definition callT {E A} (answer : list Act → A) (record : A → Act) : TM E A := λ s,
  let a := answer s.(t_trace) in ({| t_trace := s.(t_trace) ++ [record a]; t_data := s.(t_data) |}, inr a).

Definition doT {E} (a : Act) : TM E () := callT (λ _, tt) (λ _, a).

Definition getD {E A} (f : D → A) : TM E A := gets (λ s, f s.(t_data)).
Definition modD {E} (f : D → D) : TM E () := modifyS (λ s, {| t_trace := s.(t_trace); t_data := f s.(t_data) |}).

(** An answer that is not recorded, as of a clock. *)
Definition askT {E A} (answer : list Act → A) : TM E A := gets (λ s, answer s.(t_trace)).

Definition wp {E A} (m : TM E A) (Φ : E + A → list Act → D → Prop) (t : list Act) (d : D) : Prop :=
  ∃ r new d', m {| t_trace := t; t_data := d |} = ({| t_trace := t ++ new; t_data := d' |}, r) ∧ Φ r new d'.

Lemma wp_ret {E A} (a : A) (Φ : E + A → list Act → D → Prop) t d : Φ (inr a) [] d → wp (mret a) Φ t d.
Proof. intros H. exists (inr a), [], d. by rewrite app_nil_r. Qed.

Lemma wp_throw {E A} (e : E) (Φ : E + A → list Act → D → Prop) t d : Φ (inl e) [] d → wp (throw e) Φ t d.
Proof. intros H. exists (inl e), [], d. by rewrite app_nil_r. Qed.

Lemma wp_bind {E A B} (m : TM E A) (f : A → TM E B) (Φ : E + B → list Act → D → Prop) t d :
  wp m (λ r new d', match r with
                    | inl e => Φ (inl e) new d'
                    | inr a => wp (f a) (λ r' new' d'', Φ r' (new ++ new') d'') (t ++ new) d'
                    end) t d →
  wp (m ≫= f) Φ t d.
Proof.
  intros ([e|a] & new & d' & Hm & H).
  - exists (inl e), new, d'. unfold mbind, SE_bind. by rewrite Hm.
  - destruct H as (r & new' & d'' & Hf & H). exists r, (new ++ new'), d''. unfold mbind, SE_bind. rewrite Hm, Hf.
    by rewrite app_assoc.
Qed.

Lemma wp_call {E A} (answer : list Act → A) (record : A → Act) (Φ : E + A → list Act → D → Prop) t d :
  Φ (inr (answer t)) [record (answer t)] d → wp (callT answer record) Φ t d.
Proof. intros H. by exists (inr (answer t)), [record (answer t)], d. Qed.

Lemma wp_do {E} (a : Act) (Φ : E + () → list Act → D → Prop) t d : Φ (inr tt) [a] d → wp (doT a) Φ t d.
Proof. exact (wp_call (λ _, tt) (λ _, a) Φ t d). Qed.

Lemma wp_getD {E A} (f : D → A) (Φ : E + A → list Act → D → Prop) t d : Φ (inr (f d)) [] d → wp (getD f) Φ t d.
Proof. intros H. exists (inr (f d)), [], d. by rewrite app_nil_r. Qed.

Lemma wp_askT {E A} (f : list Act → A) (Φ : E + A → list Act → D → Prop) t d : Φ (inr (f t)) [] d → wp (askT f) Φ t d.
Proof. intros H. exists (inr (f t)), [], d. by rewrite app_nil_r. Qed.

Lemma wp_modD {E} (f : D → D) (Φ : E + () → list Act → D → Prop) t d : Φ (inr tt) [] (f d) → wp (modD f) Φ t d.
Proof. intros H. exists (inr tt), [], (f d). by rewrite app_nil_r. Qed.

Lemma wp_when {E} (b : bool) (m : TM E ()) (Φ : E + () → list Act → D → Prop) t d :
  (b = true → wp m Φ t d) → (b = false → Φ (inr tt) [] d) → wp (whenM b m) Φ t d.
Proof. intros H1 H2. destruct b; [by apply H1|]. by apply wp_ret, H2. Qed.

Lemma wp_handled {E F A} (m : TM E A) (Φ : F + (E + A) → list Act → D → Prop) t d :
  wp m (λ r new d', Φ (inr r) new d') t d → wp (handled m) Φ t d.
Proof. intros (r & new & d' & Hm & H). exists (inr r), new, d'. unfold handled. by rewrite Hm. Qed.

Lemma wp_try {E A} (m : TM E A) (Φ : E + (E + A) → list Act → D → Prop) t d :
  wp m (λ r new d', Φ (inr r) new d') t d → wp (try m) Φ t d.
Proof. intros (r & new & d' & Hm & H). exists (inr r), new, d'. unfold try. by rewrite Hm. Qed.

Lemma wp_mapErr {E F A} (w : E → F) (m : TM E A) (Φ : F + A → list Act → D → Prop) t d :
  wp m (λ r new d', Φ match r with inl e => inl (w e) | inr a => inr a end new d') t d → wp (mapErr w m) Φ t d.
Proof. intros ([e|a] & new & d' & Hm & H); eexists _, new, d'; unfold mapErr; by rewrite Hm. Qed.

Lemma wp_conseq {E A} (m : TM E A) (Φ Ψ : E + A → list Act → D → Prop) t d :
  wp m Φ t d → (∀ r new d', Φ r new d' → Ψ r new d') → wp m Ψ t d.
Proof. intros (r & new & d' & Hm & H) HΨ. exists r, new, d'. auto. Qed.

(** A loop, with an invariant over the part of the list that is done: how it
    looks after each turn that goes well, and what an error leaves. *)
Lemma wp_forM {E A} (I : list A → list Act → D → Prop) (R : E → list Act → D → Prop) (f : A → TM E ()) l t d :
  I [] [] d →
  (∀ pre x rest new d, l = pre ++ x :: rest → I pre new d →
    wp (f x) (λ r new' d', match r with inr _ => I (pre ++ [x]) (new ++ new') d' | inl e => R e (new ++ new') d' end) (t ++ new) d) →
  wp (forM l f) (λ r new d', match r with inr _ => I l new d' | inl e => R e new d' end) t d.
Proof.
  intros H0 Hstep.
  enough (∀ rest pre new d, l = pre ++ rest → I pre new d →
    wp (forM rest f) (λ r new' d', match r with inr _ => I l (new ++ new') d' | inl e => R e (new ++ new') d' end) (t ++ new) d) as H.
  { specialize (H l [] [] d eq_refl H0). by rewrite app_nil_r in H. }
  intros rest. induction rest as [|x rest IH]; intros pre new d0 Hl HI; cbn [forM].
  - apply wp_ret. rewrite app_nil_r in *. by subst.
  - apply wp_bind. eapply wp_conseq; [by apply (Hstep pre x rest)|]. intros [e|[]] new' d' H; [done|].
    rewrite <- app_assoc. eapply wp_conseq; [apply (IH (pre ++ [x]))|].
    + by rewrite <- app_assoc.
    + done.
    + intros r new'' d'' Hr. by rewrite !app_assoc in *.
Qed.

(** The calls that a computation makes all satisfy [P]. *)
Definition only {E A} (P : Act → Prop) (m : TM E A) : Prop := ∀ t d, wp m (λ _ new _, Forall P new) t d.

Lemma only_ret {E A} P (a : A) : only P (mret a : TM E A).
Proof. intros t d. by apply wp_ret. Qed.
Lemma only_throw {E A} P (e : E) : only P (throw e : TM E A).
Proof. intros t d. by apply wp_throw. Qed.
Lemma only_bind {E A B} P (m : TM E A) (f : A → TM E B) : only P m → (∀ a, only P (f a)) → only P (m ≫= f).
Proof.
  intros Hm Hf t d. apply wp_bind. eapply wp_conseq; [apply Hm|]. intros [e|a] new d' Hn; [done|].
  eapply wp_conseq; [apply Hf|]. intros. by apply Forall_app.
Qed.
(** The same with what is known of the result. *)
Lemma only_bind_wp {E A B} P (Q : A → Prop) (m : TM E A) (f : A → TM E B) :
  (∀ t d, wp m (λ r new _, Forall P new ∧ ∀ a, r = inr a → Q a) t d) → (∀ a, Q a → only P (f a)) → only P (m ≫= f).
Proof.
  intros Hm Hf t d. apply wp_bind. eapply wp_conseq; [apply Hm|]. intros [e|a] new d' [Hn Ha]; [done|].
  eapply wp_conseq; [by apply Hf, Ha|]. intros. by apply Forall_app.
Qed.
Lemma wp_only {E A} P (m : TM E A) (Φ : E + A → list Act → D → Prop) t d :
  wp m Φ t d → only P m → wp m (λ r new d', Φ r new d' ∧ Forall P new) t d.
Proof.
  intros (r & new & d' & Hm & H) Ho. destruct (Ho t d) as (r' & new' & d'' & Hm' & H'). rewrite Hm in Hm'.
  injection Hm' as Hn%app_inv_head <- <-. subst. by exists r, new', d'.
Qed.
Lemma only_call {E A} (P : Act → Prop) (answer : list Act → A) record : (∀ a, P (record a)) → only P (callT answer record : TM E A).
Proof. intros H t d. apply wp_call. by repeat constructor. Qed.
(** What is recorded is what was answered. *)
Lemma only_answer {E A} (P : Act → Prop) (answer : list Act → A) record : (∀ t, P (record (answer t))) → only P (callT answer record : TM E A).
Proof. intros H t d. apply wp_call. by repeat constructor. Qed.
Lemma only_do {E} (P : Act → Prop) a : P a → only P (doT a : TM E ()).
Proof. intros H. by apply only_call. Qed.
Lemma only_getD {E A} P (f : D → A) : only P (getD f : TM E A).
Proof. intros t d. by apply wp_getD. Qed.
Lemma only_askT {E A} P (f : list Act → A) : only P (askT f : TM E A).
Proof. intros t d. by apply wp_askT. Qed.
Lemma only_modD {E} P (f : D → D) : only P (modD f : TM E ()).
Proof. intros t d. by apply wp_modD. Qed.
Lemma only_handled {E F A} P (m : TM E A) : only P m → only P (handled m : TM F (E + A)).
Proof. intros H t d. apply wp_handled, H. Qed.
Lemma only_mapErr {E F A} P (w : E → F) (m : TM E A) : only P m → only P (mapErr w m).
Proof. intros H t d. apply wp_mapErr, H. Qed.
Lemma only_forM {E A} P (f : A → TM E ()) l : (∀ x, x ∈ l → only P (f x)) → only P (forM l f).
Proof.
  induction l as [|x l IH]; intros H; cbn; [apply only_ret|]. apply only_bind; [apply H; constructor|]. intros _.
  apply IH. intros y Hy. apply H. by constructor.
Qed.

End Trace.

(** Steps through straight-line code. *)
Ltac wp_step :=
  match goal with
  | |- wp (mbind _ _) _ _ _ => apply wp_bind
  | |- wp (mret _) _ _ _ => apply wp_ret
  | |- wp (throw _) _ _ _ => apply wp_throw
  | |- wp (callT _ _) _ _ _ => apply wp_call
  | |- wp (doT _) _ _ _ => apply wp_do
  | |- wp (getD _) _ _ _ => apply wp_getD
  | |- wp (askT _) _ _ _ => apply wp_askT
  | |- wp (modD _) _ _ _ => apply wp_modD
  | |- wp (handled _) _ _ _ => apply wp_handled
  | |- wp (mapErr _ _) _ _ _ => apply wp_mapErr
  end; cbn beta iota zeta.

Ltac only_step :=
  match goal with
  | |- only _ (mbind _ _) => apply only_bind
  | |- only _ (mret _) => apply only_ret
  | |- only _ (throw _) => apply only_throw
  | |- only _ (callT _ _) => apply only_call
  | |- only _ (doT _) => apply only_do
  | |- only _ (getD _) => apply only_getD
  | |- only _ (askT _) => apply only_askT
  | |- only _ (modD _) => apply only_modD
  | |- only _ (handled _) => apply only_handled
  | |- only _ (mapErr _ _) => apply only_mapErr
  | |- only _ (forM _ _) => apply only_forM
  | |- only _ (whenM ?b _) => destruct b; cbn [whenM]
  | |- only _ (match ?x with _ => _ end) => destruct x
  | |- ∀ _, _ => intros ?
  end.
