(* ===== verification/Paths.v ===== *)
(** * File paths

    [path/filepath] on Unix, as the sources use it: [Clean], [Join], [Base]
    and [Dir].  A path is handled through its components, which is what the
    package computes lexically. *)
From S2P Require Import Prelude.
Import Str.

#[local] Arguments String.append !_ _ : simpl nomatch.

(** [strings.Split(s, sep)] for a separator of one byte. *)
Fixpoint splitOn (sep : ascii) (s : string) : list string :=
  match s with
  | EmptyString => [""]
  | String c s =>
      if decide (c = sep) then "" :: splitOn sep s
      else match splitOn sep s with
           | [] => [String c ""]
           | x :: l => String c x :: l
           end
  end.

Definition isRooted (p : string) : bool := has_prefix p "/".

(** The components of a cleaned path, innermost first. *)
Definition cleanStep (rooted : bool) (stack : list string) (x : string) : list string :=
  if decide (x = "" ∨ x = ".") then stack
  else if decide (x = "..") then
    match stack with
    | y :: stack' => if decide (y = "..") then x :: stack else stack'
    | [] => if rooted then [] else [x]
    end
  else x :: stack.

Definition cleanComponents (p : string) : list string :=
  reverse (foldl (cleanStep (isRooted p)) [] (splitOn "/" p)).

Definition Clean (p : string) : string :=
  let body := Join (cleanComponents p) "/" in
  if isRooted p then "/" +:+ body else if decide (body = "") then "." else body.

Fixpoint dropEmpty (elems : list string) : list string :=
  match elems with
  | "" :: elems => dropEmpty elems
  | _ => elems
  end.

Definition pathJoin (elems : list string) : string :=
  match dropEmpty elems with
  | [] => ""
  | elems => Clean (Join elems "/")
  end.

(** ** Clean components stay below their parent *)

(** A component that is a plain file name. *)
Definition plain (x : string) : Prop := x ≠ "" ∧ x ≠ "." ∧ x ≠ ".." ∧ index_byte x "/" = None.

#[export] Instance plain_dec x : Decision (plain x) := ltac:(unfold plain; apply _).

Lemma splitOn_plain x s : index_byte x "/" = None → splitOn "/" (x +:+ "/" +:+ s) = x :: splitOn "/" s.
Proof.
  induction x as [|c x IH]; cbn; [done|]. case_decide; [done|]. intros Hn%fmap_None. cbn in IH. by rewrite IH.
Qed.

Lemma splitOn_last x : index_byte x "/" = None → splitOn "/" x = [x].
Proof. induction x as [|c x IH]; cbn; [done|]. case_decide; [done|]. intros Hn%fmap_None. by rewrite IH. Qed.

Lemma splitOn_nonempty s : splitOn "/" s ≠ [].
Proof. induction s; cbn; [done|]. case_decide; [done|]. by destruct (splitOn "/" s). Qed.

Lemma splitOn_app s x : splitOn "/" (s +:+ "/" +:+ x) = splitOn "/" s ++ splitOn "/" x.
Proof.
  induction s as [|c s IH]; cbn; [done|]. cbn in IH. rewrite IH. case_decide; [done|].
  pose proof (splitOn_nonempty s). by destruct (splitOn "/" s).
Qed.

Lemma cleanStep_plain r stack x : plain x → cleanStep r stack x = x :: stack.
Proof. intros (H1 & H2 & H3 & _). unfold cleanStep. rewrite decide_False by naive_solver. by rewrite decide_False. Qed.

(** Joining a plain name to a rooted directory adds one component. *)
Lemma cleanComponents_snoc dir x : isRooted dir = true → plain x →
  cleanComponents (dir +:+ "/" +:+ x) = cleanComponents dir ++ [x].
Proof.
  intros Hr Hx. unfold cleanComponents. assert (isRooted (dir +:+ "/" +:+ x) = isRooted dir) as ->.
  { rewrite Hr. unfold isRooted, has_prefix in *. destruct (prefix_spec _ _ Hr) as [b ->].
    rewrite <- app_assoc. apply prefix_app. }
  rewrite splitOn_app, (splitOn_last x) by apply Hx. rewrite foldl_app. cbn [foldl].
  by rewrite cleanStep_plain, reverse_cons by done.
Qed.

(** ** Cleaning again changes nothing *)

Lemma splitOn_pieces s x : x ∈ splitOn "/" s → index_byte x "/" = None.
Proof.
  revert x. induction s as [|c s IH]; intros x; cbn; [set_solver|]. case_decide as Hc; [set_solver|].
  pose proof (splitOn_nonempty s). destruct (splitOn "/" s) as [|y l]; [done|].
  rewrite elem_of_cons. intros [->|Hx]; [|apply IH; by constructor]. cbn. rewrite decide_False by done.
  rewrite IH by constructor. done.
Qed.

Lemma cleanSteps_plain l stack : Forall (λ x, index_byte x "/" = None) l → Forall plain stack →
  Forall plain (foldl (cleanStep true) stack l).
Proof.
  revert stack. induction l as [|x l IH]; intros stack Hl Hs; cbn [foldl]; [done|]. inv Hl. apply IH; [done|].
  unfold cleanStep. case_decide as Hskip; [done|]. case_decide as Hdd; [|constructor; [|done]; unfold plain; naive_solver].
  destruct stack as [|y stack]; [done|]. apply Forall_cons in Hs as [(_ & _ & Hy & _) Hs]. by rewrite decide_False.
Qed.

Lemma cleanComponents_plain s : isRooted s = true → Forall plain (cleanComponents s).
Proof.
  intros Hr. unfold cleanComponents. rewrite Hr. apply Forall_reverse, cleanSteps_plain; [|constructor].
  apply Forall_forall. apply splitOn_pieces.
Qed.

Lemma cleanSteps_keep l stack r : Forall plain l → foldl (cleanStep r) stack l = reverse l ++ stack.
Proof.
  revert stack. induction l as [|x l IH]; intros stack Hl; cbn [foldl]; [done|]. inv Hl.
  rewrite cleanStep_plain, IH, reverse_cons by done. by rewrite <- List.app_assoc.
Qed.

Lemma splitOn_Join l : l ≠ [] → Forall (λ x, index_byte x "/" = None) l → splitOn "/" (Join l "/") = l.
Proof.
  intros Hne Hl. induction Hl as [|x l Hx Hl IH]; [done|]. destruct l as [|y l]; [by apply splitOn_last|].
  change (Join (x :: y :: l) "/") with (x +:+ "/" +:+ Join (y :: l) "/"). rewrite splitOn_plain by done. by rewrite IH.
Qed.

Lemma isRooted_slash s : isRooted ("/" +:+ s) = true.
Proof. unfold isRooted, has_prefix. apply prefix_app. Qed.

Lemma cleanComponents_rooted l : Forall plain l → cleanComponents ("/" +:+ Join l "/") = l.
Proof.
  intros Hl. unfold cleanComponents. rewrite isRooted_slash.
  change (splitOn "/" ("/" +:+ Join l "/")) with ("" :: splitOn "/" (Join l "/")). cbn [foldl].
  change (cleanStep true [] "") with (@nil string). destruct (decide (l = [])) as [->|Hne]; [done|].
  rewrite splitOn_Join; [|done|]. 2: { eapply Forall_impl; [done|]. by intros x (_ & _ & _ & ?). }
  by rewrite cleanSteps_keep, (right_id_L [] (++)), reverse_involutive.
Qed.

Lemma Clean_rooted s : isRooted s = true → Clean s = "/" +:+ Join (cleanComponents s) "/".
Proof. intros Hr. unfold Clean. by rewrite Hr. Qed.

Lemma cleanComponents_Clean s : isRooted s = true → cleanComponents (Clean s) = cleanComponents s.
Proof. intros Hr. rewrite Clean_rooted by done. by apply cleanComponents_rooted, cleanComponents_plain. Qed.

Lemma isRooted_app s x : isRooted s = true → isRooted (s +:+ x) = true.
Proof. unfold isRooted, has_prefix. intros Hr. destruct (prefix_spec _ _ Hr) as [b ->]. rewrite <- app_assoc. apply prefix_app. Qed.

Lemma isRooted_Clean s : isRooted s = true → isRooted (Clean s) = true.
Proof. intros Hr. rewrite Clean_rooted by done. apply isRooted_slash. Qed.

(** [filepath.Join] of a rooted directory and plain names adds the names. *)
Lemma cleanComponents_names dir l : isRooted dir = true → Forall plain l → l ≠ [] →
  cleanComponents (dir +:+ "/" +:+ Join l "/") = cleanComponents dir ++ l.
Proof.
  intros Hr Hl Hne. unfold cleanComponents. rewrite isRooted_app, Hr, splitOn_app, foldl_app, splitOn_Join by
    (done || (eapply Forall_impl; [done|]; by intros x (_ & _ & _ & ?))).
  rewrite cleanSteps_keep, reverse_app, reverse_involutive by done. done.
Qed.

Lemma pathJoin_names dir l : isRooted dir = true → Forall plain l → l ≠ [] →
  isRooted (pathJoin (dir :: l)) = true ∧ cleanComponents (pathJoin (dir :: l)) = cleanComponents dir ++ l.
Proof.
  intros Hr Hl Hne. assert (pathJoin (dir :: l) = Clean (dir +:+ "/" +:+ Join l "/")) as ->.
  { unfold pathJoin. destruct dir; [done|]. by destruct l. }
  rewrite cleanComponents_Clean by by apply isRooted_app. split; [by apply isRooted_Clean, isRooted_app|].
  by apply cleanComponents_names.
Qed.

(** A relative path without [..] stays in its directory. *)
Lemma cleanComponents_inside dir path : isRooted dir = true → (".." ∉ splitOn "/" path) →
  ∃ l, cleanComponents (dir +:+ "/" +:+ path) = cleanComponents dir ++ l.
Proof.
  intros Hr Hp. unfold cleanComponents. rewrite isRooted_app, Hr, splitOn_app, foldl_app by done.
  generalize (foldl (cleanStep true) [] (splitOn "/" dir)). induction (splitOn "/" path) as [|x l IH]; intros stack; cbn [foldl].
  - exists []. by rewrite (right_id_L [] (++)).
  - apply not_elem_of_cons in Hp as [Hx Hl]. destruct (IH Hl (cleanStep true stack x)) as [l' ->].
    unfold cleanStep. case_decide; [eauto|]. rewrite decide_False by congruence. exists (x :: l'). rewrite reverse_cons.
    by rewrite <- List.app_assoc.
Qed.
