(* ===== verification/FileSys.v ===== *)
(** * Files

    What the sources use of [os] on files and directories. A path is the list
    of its components; the state is the content of the files and the set of the
    directories. An operation fails when the tree does not allow it, and also
    when the argument [fails] says so, with what it leaves behind; [confined]
    states how far a failing operation can reach. Permissions, links and
    mounts are left out. *)
From S2P Require Import Prelude Monad Trace.

Abbreviation Path := (list string).

Record FS := { fs_files : gmap Path string; fs_dirs : gset Path }.

Inductive FSOp :=
  | FMkdirAll (p : Path)
  | FWrite (p : Path) (data : string)
  | FCreate (p : Path)
  | FTruncate (p : Path)
  | FRemove (p : Path)
  | FRemoveAll (p : Path)
  | FReadDir (p : Path).

Inductive FSAns := FSOk | FSExist | FSNotExist | FSFailed.
#[export] Instance FSAns_eq_dec : EqDecision FSAns.
Proof. solve_decision. Defined.

(** [filepath.Dir] *)
Definition parent (p : Path) : Path := take (length p - 1) p.

(** The directories on the way to a path, itself included. *)
Fixpoint prefixes (p : Path) : list Path :=
  match p with
  | [] => [[]]
  | x :: p => [] :: map (cons x) (prefixes p)
  end.

(** [p] is [dir] or lies in it. *)
Definition below (dir p : Path) : bool := bool_decide (take (length dir) p = dir).

Definition isFile (fs : FS) (p : Path) : bool := bool_decide (is_Some (fs.(fs_files) !! p)).
Definition isDir (fs : FS) (p : Path) : bool := bool_decide (p ∈ fs.(fs_dirs)).

(** The entries of a directory by name, with whether they are directories. *)
Definition childName (dir p : Path) : option string :=
  match drop (length dir) p with [x] => if below dir p then Some x else None | _ => None end.

Definition entryLe (a b : string * bool) : Prop := String.leb a.1 b.1 = true.
#[export] Instance entryLe_dec : RelDecision entryLe := ltac:(intros a b; unfold entryLe; apply _).

Definition children (fs : FS) (dir : Path) : list (string * bool) :=
  merge_sort entryLe
    (omap (λ p, (λ x, (x, true)) <$> childName dir p) (elements fs.(fs_dirs)) ++
     omap (λ kv, (λ x, (x, false)) <$> childName dir kv.1) (map_to_list fs.(fs_files))).

(** Whether the tree allows the operation. *)
Definition allowed (op : FSOp) (fs : FS) : FSAns :=
  match op with
  | FMkdirAll p => if existsb (isFile fs) (prefixes p) then FSFailed else FSOk
  | FWrite p _ => if isDir fs p || negb (isDir fs (parent p)) then FSFailed else FSOk
  | FCreate p => if isDir fs p || isFile fs p then FSExist else if isDir fs (parent p) then FSOk else FSFailed
  | FTruncate p => if isFile fs p then FSOk else FSNotExist
  | FRemove p =>
      if isFile fs p then FSOk
      else if isDir fs p then match children fs p with [] => FSOk | _ => FSFailed end
      else FSNotExist
  | FRemoveAll _ => FSOk
  | FReadDir p => if isDir fs p then FSOk else FSFailed
  end.

Definition applyFS (op : FSOp) (fs : FS) : FS :=
  match op with
  | FMkdirAll p => {| fs with fs_dirs := list_to_set (prefixes p) ∪ fs.(fs_dirs) |}
  | FWrite p data => {| fs with fs_files := <[p := data]> fs.(fs_files) |}
  | FCreate p => {| fs with fs_files := <[p := ""]> fs.(fs_files) |}
  | FTruncate p => {| fs with fs_files := alter (λ _, "") p fs.(fs_files) |}
  | FRemove p => {| fs_files := delete p fs.(fs_files); fs_dirs := fs.(fs_dirs) ∖ {[ p ]} |}
  | FRemoveAll p => {| fs_files := filter (λ kv, below p kv.1 = false) fs.(fs_files);
                       fs_dirs := filter (λ q, below p q = false) fs.(fs_dirs) |}
  | FReadDir _ => fs
  end.

(** A file system is a tree: what is in it lies in directories, and a path is
    not both a file and a directory. *)
Record tree (fs : FS) : Prop := {
  tree_root : [] ∈ fs.(fs_dirs);
  tree_dir : ∀ p x, p ++ [x] ∈ fs.(fs_dirs) → p ∈ fs.(fs_dirs);
  tree_file : ∀ p x, is_Some (fs.(fs_files) !! (p ++ [x])) → p ∈ fs.(fs_dirs);
  tree_disjoint : ∀ p, p ∈ fs.(fs_dirs) → fs.(fs_files) !! p = None;
}.

(** What a failing operation may leave: a part of the directories, a part of
    the data, a part of the tree. *)
Definition confined (op : FSOp) (fs fs' : FS) : Prop :=
  match op with
  | FMkdirAll p => fs'.(fs_files) = fs.(fs_files) ∧ ∃ q, q ∈ prefixes p ∧ fs'.(fs_dirs) = list_to_set (prefixes q) ∪ fs.(fs_dirs)
  | FWrite p _ => fs'.(fs_dirs) = fs.(fs_dirs) ∧ delete p fs'.(fs_files) = delete p fs.(fs_files)
  | FRemoveAll p => fs'.(fs_files) ⊆ fs.(fs_files) ∧ fs'.(fs_dirs) ⊆ fs.(fs_dirs) ∧ (tree fs → tree fs') ∧
      filter (λ kv, below p kv.1 = false) fs'.(fs_files) = filter (λ kv, below p kv.1 = false) fs.(fs_files)
  | _ => fs' = fs
  end.

Section Ops.
Context {Act : Type} (record : FSOp → FSAns → Act) (fails : list Act → FSOp → FS → option FS).

Abbreviation FM E := (SE (TState Act FS) E).

Definition fsTry {E} (op : FSOp) : FM E FSAns := λ s,
  let fs := s.(t_data) in
  let '(fs, ans) := match allowed op fs with
                    | FSOk => match fails s.(t_trace) op fs with
                              | None => (applyFS op fs, FSOk)
                              | Some fs => (fs, FSFailed)
                              end
                    | ans => (fs, ans)
                    end in
  (Build_TState (s.(t_trace) ++ [record op ans]) fs, inr ans).

(** [if err := ...; err != nil { return err }] *)
Definition fsDo {E} (err : FSOp → E) (op : FSOp) : FM E () :=
  ans ← fsTry op;
  if decide (ans = FSOk) then mret tt else throw (err op).

(** [os.ReadDir]; [None] is an error. *)
Definition ReadDir {E} (p : Path) : FM E (option (list (string * bool))) :=
  ans ← fsTry (FReadDir p);
  fs ← getD (λ fs, fs);
  mret (if decide (ans = FSOk) then Some (children fs p) else None).

Lemma wp_fsTry {E} op (Φ : E + FSAns → list Act → FS → Prop) t fs :
  (∀ ans, ans ≠ FSOk → allowed op fs = ans → Φ (inr ans) [record op ans] fs) →
  (∀ fs', allowed op fs = FSOk → fails t op fs = Some fs' → Φ (inr FSFailed) [record op FSFailed] fs') →
  (allowed op fs = FSOk → Φ (inr FSOk) [record op FSOk] (applyFS op fs)) → wp (fsTry op) Φ t fs.
Proof.
  intros H1 H2 H3. unfold wp, fsTry. cbn [t_trace t_data].
  destruct (allowed op fs); [destruct (fails t op fs) eqn:?|..]; eexists _, [_], _; (split; [reflexivity|by auto]).
Qed.

End Ops.

(** ** Facts *)

Lemma below_app dir p : below dir (dir ++ p) = true.
Proof. apply bool_decide_eq_true. by rewrite take_app_length. Qed.

Lemma below_spec dir p : below dir p = true ↔ ∃ q, p = dir ++ q.
Proof.
  split; [|intros [q ->]; apply below_app]. intros H%bool_decide_eq_true. exists (drop (length dir) p).
  rewrite <- H at 1. by rewrite take_drop.
Qed.

Lemma prefixes_self p : p ∈ prefixes p.
Proof. induction p as [|x p IH]; cbn; [constructor|]. apply elem_of_cons. right. apply list_elem_of_fmap. by exists p. Qed.

Lemma prefixes_spec p q : q ∈ prefixes p ↔ ∃ r, p = q ++ r.
Proof.
  revert q. induction p as [|x p IH]; intros q; cbn.
  - rewrite list_elem_of_singleton. split; [intros ->; by exists []|]. intros [r Hr]. by destruct q.
  - rewrite elem_of_cons, list_elem_of_fmap. split.
    + intros [->|(q' & -> & [r ->]%IH)]; [by exists (x :: p)|by exists r].
    + intros [r Hr]. destruct q as [|y q]; [by left|right]. injection Hr as -> ->. exists q. split; [done|]. apply IH. by exists r.
Qed.

Lemma childName_spec dir p x : childName dir p = Some x ↔ p = dir ++ [x].
Proof.
  unfold childName. split.
  - destruct (drop _ _) as [|y [|]] eqn:Hd; try done. destruct (below dir p) eqn:Hb; [|done]. intros [= ->].
    apply below_spec in Hb as [q ->]. rewrite drop_app_length in Hd. by subst.
  - intros ->. by rewrite drop_app_length, below_app.
Qed.

Lemma children_file fs dir x : (x, false) ∈ children fs dir ↔ is_Some (fs.(fs_files) !! (dir ++ [x])).
Proof.
  unfold children. rewrite merge_sort_Permutation, elem_of_app, !list_elem_of_omap. split.
  - intros [(p & _ & (y & ? & ?)%fmap_Some)|([p c] & Hin%elem_of_map_to_list & (y & Hp & [= ->])%fmap_Some)]; [done|].
    apply childName_spec in Hp as Hp'. cbn in Hp'. subst p. eauto.
  - intros [c Hc]. right. exists (dir ++ [x], c). split; [by apply elem_of_map_to_list|].
    apply fmap_Some. exists x. by rewrite childName_spec.
Qed.

Lemma children_dir fs dir x : (x, true) ∈ children fs dir ↔ dir ++ [x] ∈ fs.(fs_dirs).
Proof.
  unfold children. rewrite merge_sort_Permutation, elem_of_app, !list_elem_of_omap. split.
  - intros [(p & Hin & (y & Hp & [= ->])%fmap_Some)|(p & _ & (y & ? & ?)%fmap_Some)]; [|done].
    apply childName_spec in Hp as ->. by apply elem_of_elements.
  - intros Hin. left. exists (dir ++ [x]). split; [by apply elem_of_elements|]. apply fmap_Some. exists x. by rewrite childName_spec.
Qed.

Lemma parent_snoc p x : parent (p ++ [x]) = p.
Proof. unfold parent. rewrite List.length_app. cbn. by rewrite Nat.add_sub, take_app_length. Qed.

Lemma isDir_true fs p : isDir fs p = true ↔ p ∈ fs.(fs_dirs).
Proof. apply bool_decide_eq_true. Qed.

Lemma isFile_true fs p : isFile fs p = true ↔ is_Some (fs.(fs_files) !! p).
Proof. apply bool_decide_eq_true. Qed.

(** Below a directory there are only directories on the way. *)
Lemma tree_up fs p q : tree fs → p ++ q ∈ fs.(fs_dirs) → p ∈ fs.(fs_dirs).
Proof.
  intros Ht. induction q as [|x q IH] using rev_ind; [by rewrite app_nil_r|]. rewrite app_assoc. intros H%tree_dir; auto.
Qed.

Lemma tree_above fs p x q : tree fs → is_Some (fs.(fs_files) !! (p ++ x :: q)) → p ∈ fs.(fs_dirs).
Proof.
  intros Ht H. destruct (exists_last (l := x :: q)) as (q' & y & Hq); [done|]. rewrite Hq in H.
  rewrite app_assoc in H. by eapply tree_up, tree_file.
Qed.

(** Nothing lies in a file. *)
Lemma tree_leaf fs p q : tree fs → is_Some (fs.(fs_files) !! p) → is_Some (fs.(fs_files) !! (p ++ q)) → q = [].
Proof.
  intros Ht Hp Hq. destruct q as [|x q]; [done|]. apply tree_above in Hq; [|done].
  apply tree_disjoint in Hq; [|done]. destruct Hp as [c Hc]. congruence.
Qed.

(** A file at [p] keeps the tree, where the operation that makes it is allowed. *)
Lemma tree_set fs p files : tree fs → isDir fs p = false → isDir fs (parent p) = true →
  delete p files = delete p fs.(fs_files) → tree {| fs with fs_files := files |}.
Proof.
  intros Ht Hp Hpar Hd.
  assert (∀ q, q ≠ p → files !! q = fs_files fs !! q) as Hq.
  { intros q Hne. by rewrite <- (lookup_delete_ne files p q), Hd, lookup_delete_ne by done. }
  assert (p ∉ fs_dirs fs) as Hn by (by apply bool_decide_eq_false in Hp).
  destruct Ht as [H1 H2 H3 H4]. split; cbn; [done|done|..].
  - intros q x Hx. destruct (decide (q ++ [x] = p)) as [<-|Hne].
    + rewrite parent_snoc in Hpar. by apply isDir_true.
    + rewrite Hq in Hx by done. by eapply H3.
  - intros q Hx. rewrite Hq by (intros ->; done). auto.
Qed.

Lemma tree_mkdir fs p : tree fs → existsb (isFile fs) (prefixes p) = false →
  tree {| fs with fs_dirs := list_to_set (prefixes p) ∪ fs.(fs_dirs) |}.
Proof.
  intros [H1 H2 H3 H4] Hf. split; cbn; [set_solver|..].
  - intros q x. rewrite !elem_of_union, !elem_of_list_to_set, !prefixes_spec. intros [[r ->]|H]; [left|right; eauto].
    exists (x :: r). by rewrite <- app_assoc.
  - intros q x H%H3. set_solver.
  - intros q. rewrite elem_of_union, elem_of_list_to_set. intros [Hq|Hq]; [|auto].
    destruct (fs_files fs !! q) as [c|] eqn:E; [|done]. exfalso.
    assert (existsb (isFile fs) (prefixes p) = true) as Ht; [|congruence].
    apply existsb_exists. exists q. split; [by apply list_elem_of_In|]. apply isFile_true. eauto.
Qed.

Lemma prefixes_trans p q r : r ∈ prefixes q → q ∈ prefixes p → r ∈ prefixes p.
Proof. rewrite !prefixes_spec. intros [a ->] [b ->]. exists (a ++ b). by rewrite <- app_assoc. Qed.

(** Every operation keeps the tree, whether it succeeds or fails. *)
Lemma applyFS_tree op fs : tree fs → allowed op fs = FSOk → op ≠ FRemove [] → op ≠ FRemoveAll [] → tree (applyFS op fs).
Proof.
  intros Ht Hok Hr1 Hr2. destruct op as [p|p data|p|p|p|p|p]; cbn in Hok |- *.
  - destruct (existsb _ _) eqn:E; [done|]. by apply tree_mkdir.
  - destruct (isDir fs p) eqn:?, (isDir fs (parent p)) eqn:?; try done. by apply (tree_set _ p); rewrite ?delete_insert_eq.
  - destruct (isDir fs p) eqn:?; [done|]. destruct (isFile fs p); [done|]. destruct (isDir fs (parent p)) eqn:?; [|done].
    by apply (tree_set _ p); rewrite ?delete_insert_eq.
  - destruct Ht as [H1 H2 H3 H4]. split; cbn; [done..| |].
    + intros q x. rewrite lookup_alter. destruct (decide _); [|apply H3]. intros Hx%fmap_is_Some. subst. by apply (H3 q x).
    + intros q Hq%H4. rewrite lookup_alter. case_decide; subst; by rewrite Hq.
  - destruct Ht as [H1 H2 H3 H4].
    assert (∀ x, (p ++ [x] ∉ fs_dirs fs) ∧ fs_files fs !! (p ++ [x]) = None) as Hc.
    { intros x. destruct (isFile fs p) eqn:Hf.
      - apply isFile_true in Hf as [c Hf]. split; [intros ?%H2%H4; congruence|].
        destruct (fs_files fs !! (p ++ [x])) eqn:E; [|done]. assert (p ∈ fs_dirs fs) as ?%H4 by eauto. congruence.
      - destruct (isDir fs p); [|done]. destruct (children fs p) eqn:E; [|done]. split.
        + rewrite <- children_dir, E. apply not_elem_of_nil.
        + apply eq_None_not_Some. rewrite <- children_file, E. apply not_elem_of_nil. }
    split; cbn.
    + assert ([] ≠ p) by congruence. set_solver.
    + intros q x Hq. assert (q ≠ p) by (intros ->; destruct (Hc x); set_solver). set_solver.
    + intros q x [c [Hne Hq]%lookup_delete_Some]. assert (q ≠ p) by (intros ->; destruct (Hc x); congruence).
      assert (q ∈ fs_dirs fs) by eauto. set_solver.
    + intros q Hq. rewrite lookup_delete_None. right. apply H4. set_solver.
  - destruct Ht as [H1 H2 H3 H4].
    assert (∀ q x, below p (q ++ [x]) = false → below p q = false) as Hb.
    { intros q x Hx. destruct (below p q) eqn:E; [|done]. apply below_spec in E as [r ->]. by rewrite <- app_assoc, below_app in Hx. }
    split; cbn.
    + apply elem_of_filter. split; [|done]. destruct p; [congruence|done].
    + intros q x. rewrite !elem_of_filter. naive_solver.
    + intros q x [c [Hq Hx]%map_lookup_filter_Some]. apply elem_of_filter. cbn in Hx. naive_solver.
    + intros q [_ Hq]%elem_of_filter. apply map_lookup_filter_None. auto.
  - done.
Qed.

Lemma confined_tree op fs fs' : tree fs → allowed op fs = FSOk → confined op fs fs' → tree fs'.
Proof.
  intros Ht Hok Hc. destruct op as [p|p data|p|p|p|p|p]; cbn in Hok, Hc; try by subst.
  - destruct Hc as (Hf & q & Hq & Hd). destruct fs' as [files dirs]. cbn in Hf, Hd. subst files dirs.
    apply (tree_mkdir fs q Ht). destruct (existsb (isFile fs) (prefixes q)) eqn:E; [|done]. exfalso.
    apply existsb_exists in E as (r & Hr%list_elem_of_In & Hx).
    assert (existsb (isFile fs) (prefixes p) = true) as Hy; [|by rewrite Hy in Hok].
    apply existsb_exists. exists r. split; [|done]. apply list_elem_of_In. by eapply prefixes_trans.
  - destruct (isDir fs p) eqn:?, (isDir fs (parent p)) eqn:?; try done. destruct Hc as [Hd Hf].
    destruct fs' as [files dirs]. cbn in Hd, Hf. subst dirs. by apply (tree_set _ p).
  - tauto.
Qed.

Lemma confined_refl op fs : tree fs → confined op fs fs.
Proof.
  intros Ht. destruct op as [p|p data|p|p|p|p|p]; cbn; try done. split; [done|]. exists []. split; [apply prefixes_spec; by exists p|].
  cbn. pose proof (tree_root _ Ht). set_solver.
Qed.

(** An operation on a tree: a failing one reaches no further than [confined]. *)
Lemma wp_file {Act E} (record : FSOp → FSAns → Act) fails op (Φ : E + FSAns → list Act → FS → Prop) t fs :
  (∀ t op fs fs', fails t op fs = Some fs' → confined op fs fs') →
  tree fs → op ≠ FRemove [] → op ≠ FRemoveAll [] →
  (∀ ans fs', ans ≠ FSOk → (ans ≠ FSFailed → allowed op fs = ans ∧ fs' = fs) → tree fs' → confined op fs fs' →
    Φ (inr ans) [record op ans] fs') →
  (allowed op fs = FSOk → tree (applyFS op fs) → Φ (inr FSOk) [record op FSOk] (applyFS op fs)) →
  wp (fsTry record fails op) Φ t fs.
Proof.
  intros Hc Ht Hr1 Hr2 Hbad Hok. apply wp_fsTry.
  - intros ans Hne Ha. apply Hbad; auto using confined_refl.
  - intros fs' Ha Hf. apply Hbad; [done|done|by eapply confined_tree; eauto|eauto].
  - intros Ha. apply Hok; [done|]. by apply applyFS_tree.
Qed.

(** The same for an operation whose failure is returned. *)
Lemma wp_fileDo {Act E} (record : FSOp → FSAns → Act) fails (err : FSOp → E) op (Φ : E + () → list Act → FS → Prop) t fs :
  (∀ t op fs fs', fails t op fs = Some fs' → confined op fs fs') →
  tree fs → op ≠ FRemove [] → op ≠ FRemoveAll [] →
  (∀ ans fs', tree fs' → confined op fs fs' → Φ (inl (err op)) [record op ans] fs') →
  (allowed op fs = FSOk → tree (applyFS op fs) → Φ (inr tt) [record op FSOk] (applyFS op fs)) →
  wp (fsDo record fails err op) Φ t fs.
Proof.
  intros Hc Ht Hr1 Hr2 Hbad Hok. unfold fsDo. wp_step. apply wp_file; auto.
  - intros ans fs' Hne _ Ht' Hf. rewrite decide_False by done. wp_step. by apply Hbad.
  - intros Ha Ht'. rewrite decide_True by done. wp_step. by apply Hok.
Qed.

Lemma wp_ReadDir {Act E} (record : FSOp → FSAns → Act) fails p (Φ : E + option (list (string * bool)) → list Act → FS → Prop) t fs :
  (∀ t op fs fs', fails t op fs = Some fs' → confined op fs fs') → tree fs →
  (∀ ans, ans ≠ FSOk → Φ (inr None) [record (FReadDir p) ans] fs) →
  (p ∈ fs.(fs_dirs) → Φ (inr (Some (children fs p))) [record (FReadDir p) FSOk] fs) → wp (ReadDir record fails p) Φ t fs.
Proof.
  intros Hc Ht Hbad Hok. unfold ReadDir. wp_step. apply wp_file; try done.
  - intros ans fs' Hne _ _ ->. wp_step. wp_step. wp_step. rewrite decide_False by done. by apply Hbad.
  - intros Ha _. wp_step. wp_step. wp_step. rewrite decide_True by done. apply Hok.
    cbn in Ha. destruct (isDir fs p) eqn:Hd; [by apply isDir_true|done].
Qed.
