(* ===== verification/Text.v ===== *)
(** * Text of the kernel and of commands

    What the sources use of [strings], [strconv] and [bufio] to read files of
    the kernel and the output of commands: fields, trimming, numbers, lines.
    The text is ASCII; the limit of 64 KiB for a line of a [bufio.Scanner] is
    left out. *)
From stdpp Require Import pretty.
From S2P Require Import Prelude Paths.
Import Str.

#[local] Arguments String.append !_ _ : simpl nomatch.

(** The white space of ASCII. *)
Definition isSpace (c : ascii) : bool :=
  let n := N_of_ascii c in ((9 <=? n) && (n <=? 13) || (n =? 32))%N.

Fixpoint splitSpace (s : string) : list string :=
  match s with
  | EmptyString => [""]
  | String c s =>
      if isSpace c then "" :: splitSpace s
      else match splitSpace s with
           | [] => [String c ""]
           | x :: l => String c x :: l
           end
  end.

(** [strings.Fields] *)
Definition Fields (s : string) : list string := filter (λ x, x ≠ "") (splitSpace s).

Fixpoint trimLeft (s : string) : string :=
  match s with
  | String c s' => if isSpace c then trimLeft s' else s
  | EmptyString => ""
  end.

Fixpoint trimRight (s : string) : string :=
  match s with
  | EmptyString => ""
  | String c s =>
      match trimRight s with
      | EmptyString => if isSpace c then "" else String c ""
      | r => String c r
      end
  end.

(** [strings.TrimSpace] *)
Definition TrimSpace (s : string) : string := trimRight (trimLeft s).

(** [strings.Trim(s, cutset)] for one character *)
Fixpoint trimLeftChar (b : ascii) (s : string) : string :=
  match s with
  | String c s' => if decide (c = b) then trimLeftChar b s' else s
  | EmptyString => ""
  end.

Fixpoint trimRightChar (b : ascii) (s : string) : string :=
  match s with
  | EmptyString => ""
  | String c s =>
      match trimRightChar b s with
      | EmptyString => if decide (c = b) then "" else String c ""
      | r => String c r
      end
  end.

Definition TrimChar (b : ascii) (s : string) : string := trimRightChar b (trimLeftChar b s).

(** The lines that a [bufio.Scanner] returns. *)
Fixpoint dropLastEmpty (l : list string) : list string :=
  match l with
  | [] => []
  | [x] => if decide (x = "") then [] else [x]
  | x :: l => x :: dropLastEmpty l
  end.

Definition newline : ascii := "010".
Definition nl : string := String newline "".

Definition scanLines (s : string) : list string :=
  map (λ line, trim_suffix line (String "013" "")) (dropLastEmpty (splitOn newline s)).

(** ** Numbers *)

Definition digit (c : ascii) : option Z :=
  let n := N_of_ascii c in if ((48 <=? n) && (n <=? 57))%N then Some (Z.of_N (n - 48)) else None.

Inductive NumErr := ErrSyntax | ErrRange.

Definition maxUint64 : Z := 2 ^ 64 - 1.

Fixpoint parseUint_loop (s : string) (n : Z) : NumErr + Z :=
  match s with
  | EmptyString => inr n
  | String c s =>
      match digit c with
      | None => inl ErrSyntax
      | Some d => let n' := (n * 10 + d)%Z in if (maxUint64 <? n')%Z then inl ErrRange else parseUint_loop s n'
      end
  end.

(** [strconv.ParseUint(s, 10, 64)] *)
Definition ParseUint (s : string) : NumErr + Z :=
  if decide (s = "") then inl ErrSyntax else parseUint_loop s 0.

(** The value that is returned beside an error. *)
Definition ParseUint_value (s : string) : Z :=
  match ParseUint s with
  | inr n => n
  | inl ErrSyntax => 0
  | inl ErrRange => maxUint64
  end.

(** [strconv.Atoi], by its error *)
Definition isInt (s : string) : bool :=
  let '(neg, body) := match s with
                      | String "-" s' => (true, s')
                      | String "+" s' => (false, s')
                      | _ => (false, s)
                      end in
  match ParseUint body with
  | inr n => if neg : bool then (n <=? 2 ^ 63)%Z else (n <? 2 ^ 63)%Z
  | inl _ => false
  end.

(** ** Words: no white space *)

Fixpoint noSpace (s : string) : bool :=
  match s with
  | EmptyString => true
  | String c s => negb (isSpace c) && noSpace s
  end.

Definition word (s : string) : Prop := s ≠ "" ∧ noSpace s = true.

#[export] Instance word_dec s : Decision (word s) := ltac:(unfold word; apply _).

Lemma splitSpace_cons_ne c s : ∃ x l, splitSpace (String c s) = x :: l.
Proof. cbn. destruct (isSpace c); [by eauto|]. destruct (splitSpace s); eauto. Qed.

Lemma splitSpace_word s : noSpace s = true → splitSpace s = [s].
Proof.
  induction s as [|c s IH]; [done|]. cbn. intros [Hc Hs]%andb_true_iff.
  apply negb_true_iff in Hc. by rewrite Hc, IH.
Qed.

Lemma splitSpace_app a c s :
  noSpace a = true → isSpace c = true → splitSpace (a +:+ String c s) = a :: splitSpace s.
Proof.
  intros Ha Hc. induction a as [|c' a IH]; cbn; [by rewrite Hc|].
  cbn in Ha. apply andb_true_iff in Ha as [Hc' Ha]. apply negb_true_iff in Hc'. rewrite Hc'. by rewrite IH.
Qed.

Lemma Fields_word s : word s → Fields s = [s].
Proof. intros [Hne Hs]. unfold Fields. rewrite splitSpace_word by done. by rewrite filter_cons_True. Qed.

Lemma Fields_app a c s : word a → isSpace c = true → Fields (a +:+ String c s) = a :: Fields s.
Proof.
  intros [Hne Ha] Hc. unfold Fields. rewrite splitSpace_app by done. by rewrite filter_cons_True.
Qed.

Lemma Fields_two a b : word a → word b → Fields (a +:+ " " +:+ b) = [a; b].
Proof. intros Ha Hb. change (" " +:+ b) with (String " " b). by rewrite Fields_app, Fields_word. Qed.

Lemma Fields_words s x : x ∈ Fields s → word x.
Proof.
  unfold Fields. intros [Hne Hx]%list_elem_of_filter. split; [done|]. clear Hne.
  revert x Hx. induction s as [|c s IH]; cbn; intros x Hx.
  - by apply list_elem_of_singleton in Hx as ->.
  - destruct (isSpace c) eqn:Hc.
    + apply elem_of_cons in Hx as [->|Hx]; [done|by apply IH].
    + destruct (splitSpace s) as [|y l] eqn:Hs; [by apply list_elem_of_singleton in Hx as ->; cbn; rewrite Hc|].
      apply elem_of_cons in Hx as [->|Hx].
      * cbn. rewrite Hc. apply IH. constructor.
      * apply IH. by constructor.
Qed.

(** ** Decimal digits are read back *)

Lemma pretty_N_char_digit n : (n < 10)%N → digit (pretty_N_char n) = Some (Z.of_N n).
Proof.
  intros Hn. destruct n as [|p]; [done|]. do 9 (destruct p as [p|p|]; try done; try lia).
Qed.

Lemma pretty_N_char_noSpace n : isSpace (pretty_N_char n) = false.
Proof. unfold pretty_N_char. destruct n as [|p]; [done|]. by repeat (destruct p as [p|p|]; try done). Qed.

Lemma parseUint_pretty_go n s :
  (Z.of_N n <= maxUint64)%Z → parseUint_loop (pretty_N_go n s) 0 = parseUint_loop s (Z.of_N n).
Proof.
  revert s. induction (N.lt_wf_0 n) as [n _ IH]; intros s Hn.
  destruct (decide (n = 0%N)) as [->|Hne]; [done|].
  rewrite pretty_N_go_step by lia.
  assert (n `div` 10 < n)%N as Hlt by (apply N.div_lt; lia).
  rewrite IH by lia. cbn [parseUint_loop].
  rewrite pretty_N_char_digit by (apply N.mod_lt; lia).
  assert (Z.of_N (n `div` 10) * 10 + Z.of_N (n `mod` 10) = Z.of_N n)%Z as ->
    by (pose proof (N.div_mod n 10); lia).
  destruct (Z.ltb_spec maxUint64 (Z.of_N n)); [lia|done].
Qed.

Lemma noSpace_pretty_go n s : noSpace (pretty_N_go n s) = noSpace s.
Proof.
  revert s. induction (N.lt_wf_0 n) as [n _ IH]; intros s.
  destruct (decide (n = 0%N)) as [->|Hne]; [done|].
  rewrite pretty_N_go_step by lia. rewrite IH by (apply N.div_lt; lia).
  cbn. by rewrite pretty_N_char_noSpace.
Qed.

Lemma pretty_go_ne n s : (0 < n)%N → pretty_N_go n s ≠ "".
Proof.
  revert s. induction (N.lt_wf_0 n) as [n _ IH]; intros s Hn.
  rewrite pretty_N_go_step by lia.
  destruct (decide (n `div` 10 = 0)%N) as [->|Hne]; [by rewrite pretty_N_go_0|].
  apply IH; [apply N.div_lt; lia|by apply N.neq_0_lt_0].
Qed.

Lemma pretty_Z_pos p : pretty (Z.pos p) = pretty_N_go (N.pos p) "".
Proof. done. Qed.

Lemma ParseUint_pretty (n : Z) : (0 <= n <= maxUint64)%Z → ParseUint (pretty n) = inr n.
Proof.
  intros Hn. destruct n as [|p|p]; [done| |lia]. rewrite pretty_Z_pos. unfold ParseUint.
  rewrite decide_False by (by apply pretty_go_ne). rewrite parseUint_pretty_go by lia. done.
Qed.

Lemma ParseUint_value_pretty (n : Z) : (0 <= n <= maxUint64)%Z → ParseUint_value (pretty n) = n.
Proof. intros Hn. unfold ParseUint_value. by rewrite ParseUint_pretty. Qed.

Lemma pretty_word (n : Z) : (0 <= n)%Z → word (pretty n).
Proof.
  intros Hn. destruct n as [|p|p]; [by split| |lia]. rewrite pretty_Z_pos.
  split; [by apply pretty_go_ne|by rewrite noSpace_pretty_go].
Qed.

Lemma ParseUint_range s n : ParseUint s = inr n → (0 <= n <= maxUint64)%Z.
Proof.
  unfold ParseUint. destruct (decide _); [done|]. generalize (eq_refl : 0%Z = 0%Z).
  assert (∀ s a, (0 <= a <= maxUint64)%Z → parseUint_loop s a = inr n → (0 <= n <= maxUint64)%Z) as H;
    [|intros _; apply H; unfold maxUint64; lia].
  clear. induction s as [|c s IH]; cbn; intros a Ha; [by intros [= <-]|].
  destruct (digit c) as [d|] eqn:Hd; [|done]. destruct (Z.ltb_spec maxUint64 (a * 10 + d)); [done|].
  apply IH. unfold digit in Hd. case_match; simplify_eq. lia.
Qed.

Lemma ParseUint_value_range s : (0 <= ParseUint_value s <= maxUint64)%Z.
Proof.
  unfold ParseUint_value. destruct (ParseUint s) as [[]|n] eqn:H; try (unfold maxUint64; lia).
  by apply ParseUint_range in H.
Qed.

(** ** Lines are read back *)

Definition oneLine (s : string) : Prop :=
  splitOn newline s = [s] ∧ trim_suffix s (String "013" "") = s.

#[export] Instance oneLine_dec s : Decision (oneLine s) := ltac:(unfold oneLine; apply _).

(** The lines, each ended by a newline. *)
Definition unlines (l : list string) : string := foldr (λ x s, x +:+ nl +:+ s) "" l.

Lemma splitOn_line x s : splitOn newline x = [x] → splitOn newline (x +:+ nl +:+ s) = x :: splitOn newline s.
Proof.
  induction x as [|c x IH]; [done|]. intros H. change (String c x +:+ nl +:+ s) with (String c (x +:+ nl +:+ s)).
  cbn [splitOn] in H |- *. destruct (decide (c = newline)) as [->|Hc]; [done|].
  destruct (splitOn newline x) as [|y l] eqn:Hx; [by simplify_eq/=|].
  injection H as -> ->. by rewrite IH.
Qed.

Lemma scanLines_unlines l : Forall oneLine l → scanLines (unlines l) = l.
Proof.
  intros Hl. unfold scanLines.
  assert (dropLastEmpty (splitOn newline (unlines l)) = l) as ->.
  - induction Hl as [|x l [Hx _] Hl IH]; [done|]. cbn [unlines foldr].
    rewrite splitOn_line by done. fold (unlines l). cbn [dropLastEmpty].
    destruct (splitOn newline (unlines l)) eqn:Hs; [|by rewrite IH].
    exfalso. clear -Hs. destruct (unlines l) as [|c s]; [done|]. cbn in Hs.
    destruct (decide (c = newline)); [done|]. by destruct (splitOn newline s).
  - induction Hl as [|x l [_ Hx] Hl IH]; [done|]. cbn [map]. by rewrite Hx, IH.
Qed.

Fixpoint inLine (s : string) : bool :=
  match s with
  | EmptyString => true
  | String c s => bool_decide (c ≠ newline ∧ c ≠ "013"%char) && inLine s
  end.

Lemma inLine_app a b : inLine (a +:+ b) = inLine a && inLine b.
Proof. induction a as [|c a IH]; [done|]. cbn [inLine String.append]. by rewrite IH, andb_assoc. Qed.

Lemma inLine_noSpace s : noSpace s = true → inLine s = true.
Proof.
  induction s as [|c s IH]; [done|]. cbn [noSpace inLine]. intros [Hc Hs]%andb_true_iff. rewrite IH by done.
  rewrite andb_true_r. apply bool_decide_eq_true. by split; intros ->.
Qed.

Lemma oneLine_inLine s : inLine s = true → oneLine s.
Proof.
  intros H. split.
  - induction s as [|c s IH]; [done|]. cbn [inLine] in H. apply andb_true_iff in H as [[Hc _]%bool_decide_eq_true H].
    cbn [splitOn]. rewrite decide_False by done. by rewrite IH.
  - unfold trim_suffix. destruct (has_suffix s _) eqn:Hsuf; [|done]. exfalso.
    apply has_suffix_spec in Hsuf. rewrite Hsuf, inLine_app in H. by apply andb_true_iff in H as [_ H].
Qed.

Lemma has_prefix_words a key v :
  noSpace a = true → noSpace key = true → has_prefix (a +:+ " " +:+ v) (key +:+ " ") = bool_decide (a = key).
Proof.
  unfold has_prefix. revert key. induction a as [|c a IH]; intros [|k key] Ha Hk.
  - by destruct v.
  - apply andb_true_iff in Hk as [Hk _]. cbn -[bool_decide Ascii.ascii_dec].
    destruct (Ascii.ascii_dec k " ") as [->|]; [done|]. by rewrite bool_decide_false.
  - apply andb_true_iff in Ha as [Ha _]. cbn -[bool_decide Ascii.ascii_dec].
    destruct (Ascii.ascii_dec " " c) as [<-|]; [done|]. by rewrite bool_decide_false.
  - apply andb_true_iff in Ha as [_ Ha], Hk as [_ Hk]. cbn -[bool_decide Ascii.ascii_dec].
    destruct (Ascii.ascii_dec k c) as [->|Hne].
    + etrans; [exact (IH key Ha Hk)|]. apply bool_decide_ext. naive_solver.
    + rewrite bool_decide_false; [done|congruence].
Qed.

Lemma trimRight_noSpace s : noSpace s = true → trimRight s = s.
Proof.
  induction s as [|c s IH]; [done|]. cbn. intros [Hc%negb_true_iff Hs]%andb_true_iff. rewrite IH, Hc by done. by destruct s.
Qed.

Lemma TrimSpace_line s : word s → TrimSpace (s +:+ nl) = s.
Proof.
  intros [Hne Hs]. unfold TrimSpace. destruct s as [|c s]; [done|]. cbn [noSpace] in Hs.
  apply andb_true_iff in Hs as [Hc%negb_true_iff Hs]. cbn [String.append trimLeft]. rewrite Hc.
  assert (∀ c s, isSpace c = false → noSpace s = true → trimRight (String c (s +:+ nl)) = String c s) as H;
    [|by apply H].
  clear. intros c s. revert c. induction s as [|c' s IH]; intros c Hc Hs; [by cbn; rewrite Hc|].
  cbn [noSpace] in Hs. apply andb_true_iff in Hs as [Hc'%negb_true_iff Hs].
  change (trimRight (String c (String c' s +:+ nl)))
    with (match trimRight (String c' (s +:+ nl)) with
          | EmptyString => if isSpace c then "" else String c "" | r => String c r end).
  by rewrite IH.
Qed.
