(* ===== verification/Extract.v ===== *)
(** * Unpacking layers (internal/image/extract.go)

    [extractLayer] writes the entries of a tar archive below a directory. The
    file system has symbolic links, which the kernel follows while it looks up
    a path, and hard links, which share the content of a file: files refer to
    inodes, and [l_data] holds their contents. An archive is what [tar.Reader]
    yields; an entry whose data breaks off has [te_short], an archive that ends
    in an error has not [tar_eof]. [XEnv] says which operations the system
    refuses for other reasons, such as a full disk. Modes are left out, and the
    directory is an absolute path. *)
From S2P Require Import Prelude Monad Paths FileSys.
Import Str.

(** ** Files with links *)

Inductive Node := NDir | NFile (ino : nat) | NLink (link : string).
#[export] Instance Node_eq_dec : EqDecision Node.
Proof. solve_decision. Defined.

Record LFS := { l_nodes : gmap Path Node; l_data : gmap nat string }.

Definition nodeAt (fs : LFS) (p : Path) : option Node :=
  match p with [] => Some NDir | _ => fs.(l_nodes) !! p end.

(** The look-up of a path: the place it names, whose last component need not
    exist. A link at the end is followed with [follow]; after [links] links
    the kernel gives up. *)
Fixpoint walk (links : nat) (fs : LFS) (follow : bool) : Path → list string → option Path :=
  fix go (cur : Path) (rest : list string) :=
    match rest with
    | [] => Some cur
    | x :: rest =>
        if decide (x = "" ∨ x = ".") then go cur rest
        else if decide (x = "..") then go (parent cur) rest
        else
          let p := cur ++ [x] in
          match nodeAt fs p with
          | Some (NLink link) =>
              if decide (rest = [] ∧ follow = false) then Some p
              else match links with
                   | O => None
                   | S links => walk links fs follow (if isRooted link then [] else cur) (splitOn "/" link ++ rest)
                   end
          | Some NDir => go p rest
          | _ => if decide (rest = []) then Some p else None
          end
    end.

(** MAXSYMLINKS *)
Definition maxLinks : nat := 40.

Definition lookupPath (fs : LFS) (follow : bool) (p : Path) : option Path := walk maxLinks fs follow [] p.

Definition statNode (fs : LFS) (p : Path) : option Node := lookupPath fs true p ≫= nodeAt fs.

Definition setNode (p : Path) (n : Node) (fs : LFS) : LFS := {| fs with l_nodes := <[p := n]> fs.(l_nodes) |}.
Definition setData (i : nat) (data : string) (fs : LFS) : LFS := {| fs with l_data := <[i := data]> fs.(l_data) |}.

(** Writing from the start of a file that is not truncated. *)
Definition overwrite (old data : string) : string := data +:+ sdrop (len data) old.

Definition newInode (fs : LFS) : nat := fresh (dom fs.(l_data)).

Definition emptyDir (fs : LFS) (p : Path) : bool :=
  forallb (λ kv : Path * Node, negb (below p kv.1) || bool_decide (kv.1 = p)) (map_to_list fs.(l_nodes)).

(** ** Archives *)

Inductive Typeflag := TypeDir | TypeReg | TypeSymlink | TypeLink | TypeOther.
#[export] Instance Typeflag_eq_dec : EqDecision Typeflag.
Proof. solve_decision. Defined.

Record TarEntry := {
  te_Name : string;
  te_Typeflag : Typeflag;
  te_Linkname : string;
  te_data : string;
  te_short : bool;
}.

Record Tar := { tar_entries : list TarEntry; tar_eof : bool }.

Inductive XOp :=
  | XMkdir (p : Path)
  | XOpen (p : Path)
  | XWrite (data : string)
  | XSymlink (link : string) (p : Path)
  | XLink (old new : Path).

Inductive XErr :=
  | ErrAbsolutePath (name : string)
  | ErrInvalidPath (name : string)
  | ErrOp (op : XOp)
  | ErrTar.

(** [x_fails]: the system refuses the operation; a write that fails has
    written [x_written] bytes. *)
Record XEnv := { x_fails : XOp → LFS → bool; x_written : LFS → nat }.

Section Extract.
Context (env : XEnv).

Abbreviation XM := (SE LFS XErr).

(** An operation that has an effect where the file system allows it. *)
Definition sysCall (op : XOp) (effect : LFS → option LFS) : XM () := λ fs,
  if env.(x_fails) op fs then (fs, inl (ErrOp op))
  else match effect fs with
       | Some fs' => (fs', inr tt)
       | None => (fs, inl (ErrOp op))
       end.

(** The effect of making an entry at a path that does not exist. *)
Definition makeAt (p : Path) (n : Node) (fs : LFS) : option LFS :=
  q ← lookupPath fs false p;
  match nodeAt fs q with None => Some (setNode q n fs) | Some _ => None end.

Definition mkdirOne (p : Path) : XM () :=
  fs ← get;
  match statNode fs p with
  | Some NDir => mret tt
  | Some _ => throw (ErrOp (XMkdir p))
  | None => sysCall (XMkdir p) (makeAt p NDir)
  end.

(** [os.MkdirAll] *)
Definition MkdirAll (p : Path) : XM () := forM (prefixes p) mkdirOne.

(** [os.OpenFile(p, os.O_CREATE|os.O_RDWR, ...)]: the inode. *)
Definition OpenFile (p : Path) : XM nat :=
  fs ← get;
  _ ← whenM (env.(x_fails) (XOpen p) fs) (throw (ErrOp (XOpen p)));
  match lookupPath fs true p with
  | None => throw (ErrOp (XOpen p))
  | Some q =>
      match nodeAt fs q with
      | Some (NFile i) => mret i
      | Some _ => throw (ErrOp (XOpen p))
      | None => let i := newInode fs in _ ← modifyS (λ fs, setData i "" (setNode q (NFile i) fs)); mret i
      end
  end.

(** [io.Copy(f, tr)] *)
Definition copyTo (i : nat) (e : TarEntry) : XM () :=
  fs ← get;
  let old := default "" (fs.(l_data) !! i) in
  if env.(x_fails) (XWrite e.(te_data)) fs then
    _ ← modifyS (setData i (overwrite old (stake (env.(x_written) fs) e.(te_data))));
    throw (ErrOp (XWrite e.(te_data)))
  else
    _ ← modifyS (setData i (overwrite old e.(te_data)));
    if e.(te_short) then throw ErrTar else mret tt.

(** [os.Remove], whose error is ignored. *)
Definition Remove (p : Path) : XM () :=
  modifyS (λ fs,
    match lookupPath fs false p with
    | None => fs
    | Some q =>
        match nodeAt fs q with
        | None => fs
        | Some NDir => if emptyDir fs q && negb (bool_decide (q = [])) then {| fs with l_nodes := delete q fs.(l_nodes) |} else fs
        | Some _ => {| fs with l_nodes := delete q fs.(l_nodes) |}
        end
    end).

Definition Symlink (link : string) (p : Path) : XM () :=
  sysCall (XSymlink link p) (λ fs, if decide (link = "") then None else makeAt p (NLink link) fs).

Definition Link (old new : Path) : XM () :=
  sysCall (XLink old new) (λ fs,
    o ← lookupPath fs false old;
    n ← nodeAt fs o;
    if decide (n = NDir) then None else makeAt new n fs).

(** The place of an entry; [None] is the directory itself. *)
Definition entryTarget (dst name : string) : XErr + option string :=
  let clean := Clean name in
  if isRooted clean then inl (ErrAbsolutePath name) else
  let target := pathJoin [dst; clean] in
  let dstClean := Clean dst in
  if negb (bool_decide (target = dstClean)) && negb (has_prefix target (dstClean +:+ "/")) then inl (ErrInvalidPath name)
  else if decide (target = dstClean) then inr None
  else inr (Some target).

Definition extractEntry (dst : string) (e : TarEntry) : XM () :=
  match entryTarget dst e.(te_Name) with
  | inl err => throw err
  | inr None => mret tt
  | inr (Some target) =>
      let target := cleanComponents target in
      match e.(te_Typeflag) with
      | TypeDir => MkdirAll target
      | TypeReg =>
          _ ← MkdirAll (parent target);
          i ← OpenFile target;
          copyTo i e
      | TypeSymlink =>
          _ ← try (MkdirAll (parent target));
          _ ← Remove target;
          Symlink e.(te_Linkname) target
      | TypeLink =>
          let linkTarget := cleanComponents (pathJoin [dst; e.(te_Linkname)]) in
          _ ← try (MkdirAll (parent target));
          _ ← Remove target;
          Link linkTarget target
      | TypeOther => mret tt
      end
  end.

Definition extractLayer (dst : string) (tr : Tar) : XM () :=
  _ ← forM tr.(tar_entries) (extractEntry dst);
  if tr.(tar_eof) then mret tt else throw ErrTar.

End Extract.

(** ** The place of an entry *)

Lemma splitOn_rooted l : l ≠ [] → Forall plain l → splitOn "/" ("/" +:+ Join l "/") = "" :: l.
Proof.
  intros Hne Hl. change (splitOn "/" ("/" +:+ Join l "/")) with ("" :: splitOn "/" (Join l "/")).
  rewrite splitOn_Join; [done|done|]. eapply Forall_impl; [done|]. by intros x (_ & _ & _ & ?).
Qed.

Lemma Join_app_slash l k : l ≠ [] → k ≠ [] → Join (l ++ k) "/" = Join l "/" +:+ "/" +:+ Join k "/".
Proof.
  intros Hl Hk. induction l as [|x l IH]; [done|]. destruct l as [|y l].
  - cbn. by destruct k.
  - change (Join ((x :: y :: l) ++ k) "/") with (x +:+ "/" +:+ Join ((y :: l) ++ k) "/"). rewrite IH by done.
    change (Join (x :: y :: l) "/") with (x +:+ "/" +:+ Join (y :: l) "/"). by rewrite !app_assoc.
Qed.

(** The prefix test on strings is the one on components. *)
Lemma has_prefix_below d p : d ≠ [] → Forall plain d → Forall plain p →
  has_prefix ("/" +:+ Join p "/") (("/" +:+ Join d "/") +:+ "/") = true ↔ ∃ q, q ≠ [] ∧ p = d ++ q.
Proof.
  intros Hne Hd Hp. split.
  - intros [s Hs]%prefix_spec. exists (splitOn "/" s). split; [apply splitOn_nonempty|].
    apply (f_equal (splitOn "/")) in Hs. rewrite <- app_assoc, splitOn_app, (splitOn_rooted d) in Hs by done.
    destruct (decide (p = [])) as [->|Hpne]; [|rewrite splitOn_rooted in Hs by done; by injection Hs].
    exfalso. cbn in Hs. injection Hs as Hs. destruct d as [|x d]; [done|]. injection Hs as Hx Hs. inv Hd.
    destruct d; [by destruct (splitOn_nonempty s)|done].
  - intros (q & Hq & ->). rewrite Join_app_slash by done. rewrite !app_assoc. unfold has_prefix. apply prefix_app.
Qed.

(** Every name ends in exactly one of four ways, by where its components lead. *)
Lemma entryTarget_spec dst name : isRooted dst = true → cleanComponents dst ≠ [] →
  let D := cleanComponents dst in
  let comps := cleanComponents (dst +:+ "/" +:+ Clean name) in
  entryTarget dst name =
    if isRooted (Clean name) then inl (ErrAbsolutePath name)
    else if decide (comps = D) then inr None
    else if below D comps then inr (Some ("/" +:+ Join comps "/"))
    else inl (ErrInvalidPath name).
Proof.
  intros Hr Hne D comps. unfold entryTarget. destruct (isRooted (Clean name)); [done|].
  assert (pathJoin [dst; Clean name] = "/" +:+ Join comps "/") as ->.
  { unfold pathJoin. assert (dropEmpty [dst; Clean name] = [dst; Clean name]) as -> by by destruct dst.
    cbn [Join]. by rewrite Clean_rooted by by apply isRooted_app. }
  assert (Forall plain comps) as Hc by by apply cleanComponents_plain, isRooted_app.
  assert (Forall plain D) as HD by by apply cleanComponents_plain.
  rewrite (Clean_rooted dst) by done. fold D.
  assert ("/" +:+ Join comps "/" = "/" +:+ Join D "/" ↔ comps = D) as Heq.
  { split; [|by intros ->]. intros He%(f_equal cleanComponents). by rewrite !cleanComponents_rooted in He. }
  destruct (decide (comps = D)) as [->|Hn].
  - rewrite bool_decide_eq_true_2 by done. cbn [negb andb]. by rewrite decide_True.
  - assert ("/" +:+ Join comps "/" ≠ "/" +:+ Join D "/") as Hs by by rewrite Heq.
    rewrite bool_decide_eq_false_2, (decide_False _ _ Hs) by done. cbn [negb andb].
    pose proof (has_prefix_below D comps Hne HD Hc) as Hp. destruct (below D comps) eqn:Hb.
    + apply below_spec in Hb as [q Hq]. destruct (has_prefix _ _); [done|]. exfalso. cut (false = true); [done|]. apply Hp.
      exists q. split; [|done]. intros ->. by rewrite (right_id_L [] (++)) in Hq.
    + destruct (has_prefix _ _) eqn:He; [|done]. exfalso. destruct Hp as [Hp _]. destruct (Hp eq_refl) as (q & _ & Hq). by rewrite Hq, below_app in Hb.
Qed.

(** An accepted name lies below the directory. *)
Lemma entryTarget_inside dst name t : isRooted dst = true → cleanComponents dst ≠ [] → entryTarget dst name = inr (Some t) →
  ∃ q, q ≠ [] ∧ cleanComponents t = cleanComponents dst ++ q ∧ Forall plain (cleanComponents t).
Proof.
  intros Hr Hne. rewrite entryTarget_spec by done. cbv zeta. destruct (isRooted (Clean name)); [done|]. case_decide as Hn; [done|].
  destruct (below _ _) eqn:Hb; [|done]. intros [= <-]. apply below_spec in Hb as [q Hq].
  assert (Forall plain (cleanComponents (dst +:+ "/" +:+ Clean name))) as Hc by by apply cleanComponents_plain, isRooted_app.
  rewrite cleanComponents_rooted by done. exists q. rewrite Hq in *. split; [|done]. intros ->. by rewrite (right_id_L [] (++)) in Hn.
Qed.

(** ** Looking up a path that meets no link *)

Lemma walk_cons links fs follow cur x rest : plain x →
  walk links fs follow cur (x :: rest) =
    match nodeAt fs (cur ++ [x]) with
    | Some (NLink link) =>
        if decide (rest = [] ∧ follow = false) then Some (cur ++ [x])
        else match links with
             | O => None
             | S links => walk links fs follow (if isRooted link then [] else cur) (splitOn "/" link ++ rest)
             end
    | Some NDir => walk links fs follow (cur ++ [x]) rest
    | _ => if decide (rest = []) then Some (cur ++ [x]) else None
    end.
Proof.
  intros (H1 & H2 & H3 & _). destruct links; cbn; rewrite decide_False by naive_solver; by rewrite decide_False.
Qed.

Lemma walk_nil links fs follow cur : walk links fs follow cur [] = Some cur.
Proof. by destruct links. Qed.

(** No link is met: the path names itself, if anything. *)
Lemma walk_straight links fs follow cur rest q : Forall plain rest →
  (∀ a b l, rest = a ++ b → a ≠ [] → (b ≠ [] ∨ follow = true) → nodeAt fs (cur ++ a) ≠ Some (NLink l)) →
  walk links fs follow cur rest = Some q → q = cur ++ rest.
Proof.
  revert cur. induction rest as [|x rest IH]; intros cur Hp Hl.
  - rewrite walk_nil, (right_id_L [] (++)). congruence.
  - inv Hp. rewrite walk_cons by done. destruct (nodeAt fs (cur ++ [x])) as [[| |l]|] eqn:Hn.
    + intros Hw. apply IH in Hw; [|done|].
      * by rewrite <- List.app_assoc in Hw.
      * intros a b l -> Ha Hb. rewrite <- List.app_assoc. apply (Hl (x :: a) b); done.
    + case_decide; [subst; congruence|done].
    + case_decide as Hd; [destruct Hd; subst; congruence|]. exfalso. apply (Hl [x] rest l); try done.
      destruct rest, follow; naive_solver.
    + case_decide; [subst; congruence|done].
Qed.

Lemma walk_dirs links fs follow cur rest : Forall plain rest →
  (∀ a b, rest = a ++ b → a ≠ [] → nodeAt fs (cur ++ a) = Some NDir) → walk links fs follow cur rest = Some (cur ++ rest).
Proof.
  revert cur. induction rest as [|x rest IH]; intros cur Hp Hl.
  - by rewrite walk_nil, (right_id_L [] (++)).
  - inv Hp. rewrite walk_cons, (Hl [x] rest) by done. rewrite IH; [by rewrite <- List.app_assoc|done|].
    intros a b -> Ha. rewrite <- List.app_assoc. by apply (Hl (x :: a) b).
Qed.

(** ** Nothing outside the directory changes *)

(** An archive in which no entry lies at or below the place of an earlier
    link, and whose hard links name places of the archive, [L] being the
    places of the links so far. *)
Definition clear (L : list Path) (p : Path) : bool := forallb (λ q, negb (below q p)) L.
Definition clearParent (L : list Path) (p : Path) : bool := clear L (parent p).

Definition straightEntry (dst : string) (L : list Path) (e : TarEntry) : bool :=
  match entryTarget dst e.(te_Name) with
  | inr (Some target) =>
      let p := cleanComponents target in
      match e.(te_Typeflag) with
      | TypeDir | TypeReg => clear L p
      | TypeSymlink => clearParent L p
      | TypeLink =>
          let old := cleanComponents (pathJoin [dst; e.(te_Linkname)]) in
          clearParent L p && below (cleanComponents dst) old && clearParent L old
      | TypeOther => true
      end
  | _ => true
  end.

Definition newLinks (dst : string) (e : TarEntry) : list Path :=
  match entryTarget dst e.(te_Name) with
  | inr (Some target) => match e.(te_Typeflag) with TypeSymlink | TypeLink => [cleanComponents target] | _ => [] end
  | _ => []
  end.

Fixpoint straight (dst : string) (L : list Path) (l : list TarEntry) : bool :=
  match l with
  | [] => true
  | e :: l => straightEntry dst L e && straight dst (L ++ newLinks dst e) l
  end.

(** The directory [D] is there, and the links in it are at [L]; outside, the
    entries and the contents of the files are as in [fs0]. *)
Record contained (fs0 : LFS) (D : Path) (L : list Path) (fs : LFS) : Prop := {
  ct_out : ∀ p, below D p = false → nodeAt fs p = nodeAt fs0 p;
  ct_dst : ∀ q, q ∈ prefixes D → nodeAt fs q = Some NDir;
  ct_links : ∀ p l, below D p = true → nodeAt fs p = Some (NLink l) → p ∈ L;
  ct_own : ∀ p q i, below D p = true → below D q = false → nodeAt fs p = Some (NFile i) → nodeAt fs q ≠ Some (NFile i);
  ct_inodes : ∀ p i, nodeAt fs p = Some (NFile i) → is_Some (fs.(l_data) !! i);
  ct_data : ∀ q i, below D q = false → nodeAt fs0 q = Some (NFile i) → fs.(l_data) !! i = fs0.(l_data) !! i;
}.

Lemma clear_spec L p : clear L p = true ↔ ∀ q, q ∈ L → below q p = false.
Proof.
  unfold clear. rewrite forallb_forall. split.
  - intros H q Hq. apply negb_true_iff, H. by apply list_elem_of_In.
  - intros H q Hq%list_elem_of_In. by apply negb_true_iff, H.
Qed.

Lemma below_trans a b c : below a b = true → below b c = true → below a c = true.
Proof. rewrite !below_spec. intros [x ->] [y ->]. exists (x ++ y). by rewrite List.app_assoc. Qed.

Lemma nodeAt_setNode p q n fs : p ≠ [] → nodeAt (setNode p n fs) q = if decide (q = p) then Some n else nodeAt fs q.
Proof.
  intros Hp. destruct q as [|x q]; cbn [nodeAt]; [by rewrite decide_False|]. cbn [setNode l_nodes]. rewrite lookup_insert.
  case_decide as H1; case_decide as H2; congruence.
Qed.

Lemma nodeAt_delete p q fs : p ≠ [] →
  nodeAt {| fs with l_nodes := delete p fs.(l_nodes) |} q = if decide (q = p) then None else nodeAt fs q.
Proof.
  intros Hp. destruct q as [|x q]; cbn [nodeAt]; [by rewrite decide_False|]. cbn [l_nodes]. rewrite lookup_delete.
  case_decide as H1; case_decide as H2; congruence.
Qed.

Lemma nodeAt_setData i data q fs : nodeAt (setData i data fs) q = nodeAt fs q.
Proof. by destruct q. Qed.

Lemma newInode_fresh fs : fs.(l_data) !! newInode fs = None.
Proof. apply not_elem_of_dom. unfold newInode. apply is_fresh. Qed.

Section Contained.
Context (env : XEnv) (fs0 : LFS) (D : Path).
Hypothesis plainD : Forall plain D.

Abbreviation Inv := (contained fs0 D).

(** A place in the directory. *)
Definition within (p : Path) : Prop := ∃ r, r ≠ [] ∧ p = D ++ r ∧ Forall plain p.

Lemma within_below p : within p → below D p = true.
Proof. intros (r & _ & -> & _). apply below_app. Qed.

Lemma within_not_prefix p : within p → p ∉ prefixes D.
Proof.
  intros (r & Hr & -> & _) [s Hs]%prefixes_spec. apply (f_equal length) in Hs. rewrite !List.length_app in Hs. by destruct r; [|cbn in Hs; lia].
Qed.

Lemma within_nonempty p : within p → p ≠ [].
Proof. intros (r & Hr & -> & _) [_ ?]%app_nil. done. Qed.

Lemma contained_more L L' fs : L ⊆ L' → Inv L fs → Inv L' fs.
Proof. intros HL [H1 H2 H3 H4 H5 H6]. split; eauto. Qed.

(** Changing an entry of the directory. *)
Lemma contained_setNode L fs p n : within p → Inv L fs →
  (∀ l, n = NLink l → p ∈ L) →
  (∀ i, n = NFile i → is_Some (fs.(l_data) !! i) ∧ ∀ q, below D q = false → nodeAt fs q ≠ Some (NFile i)) →
  Inv L (setNode p n fs).
Proof.
  intros Hp [H1 H2 H3 H4 H5 H6] Hl Hf. pose proof (within_below p Hp) as Hb. pose proof (within_nonempty p Hp) as Hne.
  pose proof (within_not_prefix p Hp) as Hpre. split; intros q.
  - intros Hq. rewrite nodeAt_setNode, decide_False by (done || (intros ->; congruence)). auto.
  - intros Hq. rewrite nodeAt_setNode, decide_False by (done || (intros ->; done)). auto.
  - intros l Hq. rewrite nodeAt_setNode by done. case_decide; [subst; intros [= ->]; eauto|eauto].
  - intros r i Hq Hr. rewrite !nodeAt_setNode by done. rewrite (decide_False (P := r = p)) by (intros ->; congruence).
    case_decide; [intros [= ->]; by apply Hf|eauto].
  - intros i. rewrite nodeAt_setNode by done. case_decide; [intros [= ->]; by apply Hf|cbn; eauto].
  - intros i Hq Hi. cbn. eauto.
Qed.

Lemma contained_delete L fs p : within p → Inv L fs → Inv L {| fs with l_nodes := delete p fs.(l_nodes) |}.
Proof.
  intros Hp [H1 H2 H3 H4 H5 H6]. pose proof (within_below p Hp) as Hb. pose proof (within_nonempty p Hp) as Hne.
  pose proof (within_not_prefix p Hp) as Hpre. split; intros q; rewrite ?nodeAt_delete by done.
  - intros Hq. rewrite decide_False by (intros ->; congruence). auto.
  - intros Hq. rewrite decide_False by (intros ->; done). auto.
  - intros l Hq. case_decide; [done|eauto].
  - intros r i Hq Hr. rewrite !nodeAt_delete by done. rewrite (decide_False (P := r = p)) by (intros ->; congruence).
    case_decide; [done|eauto].
  - intros i. case_decide; [done|cbn; eauto].
  - intros i Hq Hi. cbn. eauto.
Qed.

(** Writing to an inode that is not in use outside. *)
Lemma contained_setData L fs i data : Inv L fs → (∀ q, below D q = false → nodeAt fs q ≠ Some (NFile i)) → Inv L (setData i data fs).
Proof.
  intros [H1 H2 H3 H4 H5 H6] Hi. split; try setoid_rewrite nodeAt_setData; eauto.
  - intros p j Hj%H5. cbn. rewrite lookup_insert. case_decide; [eauto|done].
  - intros q j Hq Hj. cbn. rewrite lookup_insert_ne; [eauto|]. intros ->. apply (Hi q Hq). by rewrite H1.
Qed.

(** Looking up a place of the directory. *)
Lemma lookup_within L fs follow p q : Inv L fs → within p → clear L (parent p) = true → (follow = true → clear L p = true) →
  lookupPath fs follow p = Some q → q = p.
Proof.
  intros HI (r & Hr & -> & Hpl) Hpar Hcl Hw. unfold lookupPath in Hw. apply walk_straight in Hw; [done|done|].
  intros a b l Hab Ha Hb Hn. change ([] ++ a) with a in Hn.
  destruct (below D a) eqn:Hbel.
  - pose proof (ct_links _ _ _ _ HI _ _ Hbel Hn) as HL. rewrite clear_spec in Hpar, Hcl.
    destruct b as [|y b].
    + rewrite (right_id_L [] (++)) in Hab. subst a. destruct Hb as [|Hb]; [done|]. specialize (Hcl Hb _ HL).
      pose proof (below_app (D ++ r) []) as E. rewrite (right_id_L [] (++)) in E. congruence.
    + specialize (Hpar _ HL). destruct (exists_last (l := y :: b)) as (b' & z & Hz); [done|]. rewrite Hz, List.app_assoc in Hab.
      rewrite Hab, parent_snoc, below_app in Hpar. done.
  - assert (a ∈ prefixes D) as Hpre; [|rewrite (ct_dst _ _ _ _ HI _ Hpre) in Hn; done].
    apply prefixes_spec. destruct (app_eq_inv _ _ _ _ Hab) as [(k & -> & _)|(k & -> & _)].
    + by exists k.
    + by rewrite below_app in Hbel.
Qed.

Definition keeps {A} (L : list Path) (m : SE LFS XErr A) : Prop := triple (Inv L) m (λ _, Inv L) (λ _, Inv L).

Lemma keepsX_bind {A B} L (m : SE LFS XErr A) (f : A → SE LFS XErr B) : keeps L m → (∀ a, keeps L (f a)) → keeps L (m ≫= f).
Proof. intros Hm Hf. eapply triple_bind; [apply Hm|apply Hf]. Qed.

Lemma keepsX_more {A} L L' (m : SE LFS XErr A) : L ⊆ L' → keeps L m → triple (Inv L) m (λ _, Inv L) (λ _, Inv L').
Proof. intros HL Hm. eapply triple_conseq; [exact Hm|done|done|]. intros e fs. by apply contained_more. Qed.

Lemma keepsX_try {A} L (m : SE LFS XErr A) : keeps L m → keeps L (try m).
Proof. intros Hm. apply triple_try. exact Hm. Qed.

(** A system call, after which there may be more links. *)
Lemma more_sysCall L L' op effect : L ⊆ L' → (∀ fs fs', Inv L fs → effect fs = Some fs' → Inv L' fs') →
  triple (Inv L) (sysCall env op effect) (λ _, Inv L') (λ _, Inv L').
Proof.
  intros HL H fs HI. unfold sysCall. destruct (x_fails env op fs); [by eapply contained_more|].
  destruct (effect fs) eqn:?; [eauto|by eapply contained_more].
Qed.

Lemma makeAt_within L fs fs' p n : Inv L fs → within p → clear L (parent p) = true → makeAt p n fs = Some fs' →
  fs' = setNode p n fs ∧ nodeAt fs p = None.
Proof.
  intros HI Hp Hc. unfold makeAt. destruct (lookupPath fs false p) as [q|] eqn:Hw; [|done]. cbn.
  apply (lookup_within L) in Hw as ->; try done. destruct (nodeAt fs p) eqn:?; [done|]. by intros [= <-].
Qed.

Lemma clear_prefix L p q : clear L p = true → q ∈ prefixes p → clear L q = true.
Proof.
  rewrite !clear_spec. intros H [r ->]%prefixes_spec x Hx. specialize (H x Hx). destruct (below x q) eqn:Hb; [|done].
  by rewrite (below_trans _ _ _ Hb (below_app q r)) in H.
Qed.

Lemma parent_prefix p : parent p ∈ prefixes p.
Proof. apply prefixes_spec. exists (drop (length p - 1) p). unfold parent. by rewrite take_drop. Qed.

Lemma prefix_within p q : Forall plain p → (∃ r, p = D ++ r) → q ∈ prefixes p → q ∈ prefixes D ∨ within q.
Proof.
  intros Hpl [r ->] [s Hs]%prefixes_spec. destruct (app_eq_inv _ _ _ _ Hs) as [(k & -> & _)|(k & -> & ->)].
  - left. apply prefixes_spec. by exists k.
  - destruct k as [|x k].
    + left. rewrite (right_id_L [] (++)). apply prefixes_self.
    + right. exists (x :: k). split; [done|]. split; [done|]. rewrite List.app_assoc in Hpl. by apply Forall_app in Hpl as [? _].
Qed.

Lemma keeps_mkdirOne L p q : Forall plain p → (∃ r, p = D ++ r) → clear L p = true → q ∈ prefixes p → keeps L (mkdirOne env q).
Proof.
  intros Hpl Hp Hc Hin fs HI. unfold mkdirOne, mbind, SE_bind, get. destruct (statNode fs q) as [[| |]|]; try done.
  apply (more_sysCall L L); [done| |done]. clear fs HI. intros fs fs' HI He.
  pose proof (clear_prefix _ _ _ Hc Hin) as Hcq.
  destruct (prefix_within p q Hpl Hp Hin) as [HD|Hw].
  - exfalso. unfold makeAt, lookupPath in He. rewrite walk_dirs in He.
    + cbn in He. by rewrite (ct_dst _ _ _ _ HI) in He.
    + apply prefixes_spec in HD as [s Hs]. pose proof plainD as Hd. rewrite Hs in Hd. by apply Forall_app in Hd as [? _].
    + intros a b Hab _. apply (ct_dst _ _ _ _ HI). eapply prefixes_trans; [|done]. apply prefixes_spec. by exists b.
  - apply (makeAt_within L) in He as [-> _]; [|done|done|by eapply clear_prefix; [|apply parent_prefix]].
    by apply contained_setNode.
Qed.

Lemma keeps_mkdirs L p l : Forall plain p → (∃ r, p = D ++ r) → clear L p = true → (∀ q, q ∈ l → q ∈ prefixes p) →
  keeps L (forM l (mkdirOne env)).
Proof.
  intros Hpl Hp Hc Hl. apply (triple_forM (λ _, Inv L)). intros pre q rest ->. apply (keeps_mkdirOne L p); try done.
  apply Hl, elem_of_app. right. constructor.
Qed.

Lemma keeps_MkdirAll L p : Forall plain p → (∃ r, p = D ++ r) → clear L p = true → keeps L (MkdirAll env p).
Proof. intros Hpl Hp Hc. by apply (keeps_mkdirs L p). Qed.

Lemma keeps_Remove L p : within p → clear L (parent p) = true → keeps L (Remove p).
Proof.
  intros Hp Hc. apply triple_modify. intros fs HI. destruct (lookupPath fs false p) as [q|] eqn:Hw; [|done].
  apply (lookup_within L) in Hw as ->; [|done..]. destruct (nodeAt fs p) as [[| |]|]; auto using contained_delete.
  destruct (emptyDir fs p && _); auto using contained_delete.
Qed.

Lemma more_Symlink L link p : within p → clear L (parent p) = true →
  triple (Inv L) (Symlink env link p) (λ _, Inv (L ++ [p])) (λ _, Inv (L ++ [p])).
Proof.
  intros Hp Hc. apply more_sysCall; [set_solver|]. intros fs fs' HI. case_decide; [done|]. intros He.
  apply (makeAt_within L) in He as [-> _]; [|done..].
  apply contained_setNode; [done|eapply contained_more; [|done]; set_solver|set_solver|done].
Qed.

Lemma lookup_below L fs p q : Inv L fs → Forall plain p → below D p = true → clear L (parent p) = true →
  lookupPath fs false p = Some q → q = p.
Proof.
  intros HI Hpl Hb Hc Hw. destruct (prefix_within p p Hpl) as [HD|Hwi]; [by apply below_spec|apply prefixes_self|..].
  - unfold lookupPath in Hw. rewrite walk_dirs in Hw; [by injection Hw|done|].
    intros a b Hab _. apply (ct_dst _ _ _ _ HI). eapply prefixes_trans; [|done]. apply prefixes_spec. by exists b.
  - by apply (lookup_within L) in Hw as ->.
Qed.

Lemma more_Link L old p : within p → clear L (parent p) = true →
  Forall plain old → below D old = true → clear L (parent old) = true → 
  triple (Inv L) (Link env old p) (λ _, Inv (L ++ [p])) (λ _, Inv (L ++ [p])).
Proof.
  intros Hp Hc Hpl Hold Hco. apply more_sysCall; [set_solver|]. intros fs fs' HI.
  destruct (lookupPath fs false old) as [o|] eqn:Hw; [|done]. cbn. destruct (nodeAt fs o) as [n|] eqn:Hn; [|done]. cbn.
  case_decide as Hd; [done|]. intros He. apply (makeAt_within L) in He as [-> _]; [|done..].
  apply (lookup_below L) in Hw as ->; [|done..].
  apply contained_setNode; [done|eapply contained_more; [|done]; set_solver|set_solver|]. intros i ->. split; [by eapply (ct_inodes _ _ _ _ HI)|]. intros q Hq.
  by apply (ct_own _ _ _ _ HI old q i).
Qed.

Lemma keeps_write L p e : within p → clear L p = true → keeps L (i ← OpenFile env p; copyTo env i e).
Proof.
  intros Hp Hc. eapply (triple_bind _ (λ i fs, Inv L fs ∧ ∀ q, below D q = false → nodeAt fs q ≠ Some (NFile i))).
  - intros fs HI. unfold OpenFile, mbind, SE_bind, get. destruct (x_fails env _ fs); cbn [whenM]; [done|]. cbn -[lookupPath newInode].
    destruct (lookupPath fs true p) as [q|] eqn:Hw; [|done].
    apply (lookup_within L) in Hw as ->; [|done|done|by eapply clear_prefix; [|apply parent_prefix]|done].
    destruct (nodeAt fs p) as [[|i|]|] eqn:Hn; cbn -[newInode]; try done.
    + split; [done|]. intros q Hq. eapply (ct_own _ _ _ _ HI); eauto using within_below.
    + set (i := newInode fs). assert (∀ q, nodeAt fs q ≠ Some (NFile i)) as Hi.
      { intros q [d Hd]%(ct_inodes _ _ _ _ HI). pose proof (newInode_fresh fs). unfold i in Hd. congruence. }
      assert (Inv L (setNode p (NFile i) (setData i "" fs))) as HI'.
      { apply contained_setNode; [done| |done|].
        - apply contained_setData; [done|]. intros q _. apply Hi.
        - intros j [= <-]. split; [cbn; rewrite lookup_insert_eq; eauto|]. intros q _. rewrite nodeAt_setData. apply Hi. }
      split; [done|]. intros q Hq. rewrite nodeAt_setData, nodeAt_setNode by by apply within_nonempty.
      rewrite decide_False; [apply Hi|]. intros ->. by rewrite within_below in Hq.
  - intros i fs [HI Hi]. unfold copyTo, mbind, SE_bind, get, modifyS. destruct (x_fails env _ fs); cbn; [by apply contained_setData|].
    destruct (te_short e); cbn; by apply contained_setData.
Qed.

Lemma keeps_entry dst L e : isRooted dst = true → cleanComponents dst = D → D ≠ [] → straightEntry dst L e = true →
  triple (Inv L) (extractEntry env dst e) (λ _, Inv (L ++ newLinks dst e)) (λ _, Inv (L ++ newLinks dst e)).
Proof using plainD.
  intros Hr HD Hne. unfold straightEntry, extractEntry, newLinks. destruct (entryTarget dst (te_Name e)) as [err|[t|]] eqn:Ht.
  - intros _. rewrite (right_id_L [] (++)). by apply triple_throw.
  - apply entryTarget_inside in Ht as (q & Hq & Hc & Hpl); [|done|by rewrite HD]. rewrite HD in Hc.
    set (p := cleanComponents t) in *. assert (within p) as Hp by by exists q.
    assert (Forall plain (parent p) ∧ ∃ r, parent p = D ++ r) as [Hpp Hpar].
    { destruct (exists_last (l := q)) as (q' & x & ->); [done|]. rewrite Hc, List.app_assoc in *. rewrite parent_snoc.
      apply Forall_app in Hpl as [? _]. eauto. }
    destruct (te_Typeflag e); rewrite ?(right_id_L [] (++)); intros Hs.
    + apply keeps_MkdirAll; eauto.
    + apply keepsX_bind; [|intros []; by apply keeps_write]. apply keeps_MkdirAll; eauto.
      by eapply clear_prefix; [|apply parent_prefix].
    + eapply triple_bind; [apply keepsX_more; [set_solver|]; apply keepsX_try, keeps_MkdirAll; eauto|]. intros ?.
      eapply triple_bind; [apply keepsX_more; [set_solver|]; by apply keeps_Remove|]. intros ?. by apply more_Symlink.
    + apply andb_true_iff in Hs as [[Hs1 Hs2]%andb_true_iff Hs3]. rewrite HD in Hs2.
      eapply triple_bind; [apply keepsX_more; [set_solver|]; apply keepsX_try, keeps_MkdirAll; eauto|]. intros ?.
      eapply triple_bind; [apply keepsX_more; [set_solver|]; by apply keeps_Remove|]. intros ?. apply more_Link; try done.
      unfold pathJoin. assert (dropEmpty [dst; te_Linkname e] = [dst; te_Linkname e]) as -> by by destruct dst.
      cbn [Join]. apply cleanComponents_plain, isRooted_Clean. by apply isRooted_app.
    + by apply triple_ret.
  - intros _. rewrite (right_id_L [] (++)). by apply triple_ret.
Qed.

Lemma keeps_entries dst L l : isRooted dst = true → cleanComponents dst = D → D ≠ [] → straight dst L l = true →
  triple (Inv L) (forM l (extractEntry env dst)) (λ _ fs, ∃ L, Inv L fs) (λ _ fs, ∃ L, Inv L fs).
Proof using plainD.
  intros Hr HD Hne. revert L. induction l as [|e l IH]; intros L; cbn [forM straight]; [intros _; apply triple_ret; eauto|].
  intros [He Hl]%andb_true_iff. apply (triple_bind _ (λ _, Inv (L ++ newLinks dst e))); [|intros []; by apply IH].
  eapply triple_conseq; [by apply (keeps_entry dst L e)|done|done|]. intros err fs HI.
  exists (L ++ newLinks dst e). exact HI.
Qed.
End Contained.

(** The files a directory is made in: every directory on the way is one, the
    directory is empty, and the files refer to inodes that exist. *)
Record ready (fs : LFS) (D : Path) : Prop := {
  rd_dirs : ∀ q, q ∈ prefixes D → nodeAt fs q = Some NDir;
  rd_empty : ∀ p, below D p = true → p ≠ D → nodeAt fs p = None;
  rd_inodes : ∀ p i, nodeAt fs p = Some (NFile i) → is_Some (fs.(l_data) !! i);
}.

Lemma ready_dir fs D : ready fs D → nodeAt fs D = Some NDir.
Proof. intros H. apply (rd_dirs _ _ H), prefixes_self. Qed.

Lemma ready_contained fs D : ready fs D → contained fs D [] fs.
Proof.
  intros H. pose proof (ready_dir _ _ H) as HD. destruct H as [H1 H2 H3]. split; eauto.
  - intros p l Hp Hn. destruct (decide (p = D)) as [->|Hne]; [congruence|]. rewrite H2 in Hn by done. done.
  - intros p q i Hp _ Hn. destruct (decide (p = D)) as [->|Hne]; [congruence|]. rewrite H2 in Hn by done. done.
Qed.

(** C16: Unpacking a layer whose entries do not pass through links changes
    nothing outside its directory, however it ends: no entry appears, vanishes
    or is replaced, and no file has other content. *)
Theorem extract_contained env dst tr fs :
  isRooted dst = true → cleanComponents dst ≠ [] → ready fs (cleanComponents dst) → straight dst [] tr.(tar_entries) = true →
  let fs' := (extractLayer env dst tr fs).1 in
  ∀ p, below (cleanComponents dst) p = false →
    nodeAt fs' p = nodeAt fs p ∧ ∀ i, nodeAt fs p = Some (NFile i) → fs'.(l_data) !! i = fs.(l_data) !! i.
Proof.
  intros Hr Hne Hrd Hs fs'.
  assert (∃ L, contained fs (cleanComponents dst) L fs') as [L HI].
  { pose proof (keeps_entries env fs (cleanComponents dst) (cleanComponents_plain dst Hr) dst [] _ Hr eq_refl Hne Hs) as Ht.
    specialize (Ht fs (ready_contained _ _ Hrd)). unfold fs', extractLayer, mbind, SE_bind.
    destruct (forM _ _ fs) as [fs1 [err|[]]]; [done|]. by destruct (tar_eof tr). }
  intros p Hp. split; [by apply (ct_out _ _ _ _ HI)|]. intros i. by apply (ct_data _ _ _ _ HI).
Qed.

(** ** What is unpacked *)

(** The place of an entry as a path; entries of other types (devices, pipes) are
    skipped and have none. *)
Definition placeOf (dst : string) (e : TarEntry) : option Path :=
  match e.(te_Typeflag), entryTarget dst e.(te_Name) with
  | TypeOther, _ => None
  | _, inr (Some target) => Some (cleanComponents target)
  | _, _ => None
  end.

Lemma placeOf_target dst e p : placeOf dst e = Some p → ∃ t, entryTarget dst e.(te_Name) = inr (Some t) ∧ cleanComponents t = p.
Proof. unfold placeOf. destruct (te_Typeflag e), (entryTarget dst (te_Name e)) as [|[]]; naive_solver. Qed.

(** The entry is on disk. *)
Definition shows (dst : string) (fs : LFS) (e : TarEntry) : Prop :=
  match placeOf dst e with
  | Some p =>
      match e.(te_Typeflag) with
      | TypeDir => nodeAt fs p = Some NDir
      | TypeReg => ∃ i, nodeAt fs p = Some (NFile i) ∧ fs.(l_data) !! i = Some e.(te_data)
      | TypeSymlink => nodeAt fs p = Some (NLink e.(te_Linkname))
      | TypeLink => ∃ n, n ≠ NDir ∧ nodeAt fs p = Some n ∧ nodeAt fs (cleanComponents (pathJoin [dst; e.(te_Linkname)])) = Some n
      | TypeOther => True
      end
  | None => True
  end.

(** From [fs] to [fs'], all that is not at [p] stays, and only directories are
    new; contents stay. *)
Definition kept (p : Path) (fs fs' : LFS) : Prop :=
  (∀ q n, q ≠ p → nodeAt fs q = Some n → nodeAt fs' q = Some n) ∧
  (∀ q n, q ≠ p → nodeAt fs' q = Some n → n ≠ NDir → nodeAt fs q = Some n) ∧
  (∀ i d, fs.(l_data) !! i = Some d → fs'.(l_data) !! i = Some d).

Lemma kept_refl p fs : kept p fs fs.
Proof. by split_and!. Qed.

Lemma kept_trans p a b c : kept p a b → kept p b c → kept p a c.
Proof. intros (H1 & H2 & H3) (K1 & K2 & K3). split_and!; eauto. Qed.

Lemma kept_setNode p n fs : p ≠ [] → kept p fs (setNode p n fs).
Proof. intros Hp. split_and!; try done; intros q m Hq; by rewrite nodeAt_setNode, decide_False. Qed.

Lemma makeAt_spec p n fs fs' : makeAt p n fs = Some fs' →
  ∃ q, q ≠ [] ∧ lookupPath fs false p = Some q ∧ nodeAt fs q = None ∧ fs' = setNode q n fs.
Proof.
  unfold makeAt. destruct (lookupPath fs false p) as [q|]; [|done]. cbn. destruct (nodeAt fs q) eqn:Hn; [done|]. intros [= <-].
  exists q. split_and!; try done. by intros ->.
Qed.

(** [MkdirAll] only adds directories. *)
Lemma MkdirAll_kept env p q fs : (∀ n, nodeAt fs p = Some n → n = NDir) →
  kept p fs (MkdirAll env q fs).1 ∧ (∀ n, nodeAt (MkdirAll env q fs).1 p = Some n → n = NDir).
Proof.
  unfold MkdirAll. revert fs. induction (prefixes q) as [|x l IH]; intros fs Hp; cbn [forM]; [by split; [apply kept_refl|]|].
  assert (kept p fs (mkdirOne env x fs).1 ∧ (∀ n, nodeAt (mkdirOne env x fs).1 p = Some n → n = NDir)) as [Hk Hd].
  { unfold mkdirOne, mbind, SE_bind, get. destruct (statNode fs x) as [[| |]|]; try (split; [apply kept_refl|exact Hp]).
    unfold sysCall. destruct (x_fails env _ fs); [split; [apply kept_refl|exact Hp]|].
    destruct (makeAt x NDir fs) as [fs'|] eqn:Hm; [|split; [apply kept_refl|exact Hp]].
    apply makeAt_spec in Hm as (r & Hr & _ & Hn & ->). cbn [fst]. split; [split_and!|].
    - intros y n Hy Hyn. rewrite nodeAt_setNode by done. case_decide; congruence.
    - intros y n Hy. rewrite nodeAt_setNode by done. case_decide; [congruence|done].
    - done.
    - intros n. rewrite nodeAt_setNode by done. case_decide; [congruence|apply Hp]. }
  unfold mbind, SE_bind. destruct (mkdirOne env x fs) as [fs1 [err|[]]]; [done|]. cbn [fst] in Hk, Hd.
  destruct (IH fs1 Hd) as [Hk' Hd']. split; [|done]. by eapply kept_trans.
Qed.

Lemma prefixes_last p : ∃ l, prefixes p = l ++ [p].
Proof.
  induction p as [|x p [l IH]]; [by exists []|]. exists ([] :: map (cons x) l). cbn. rewrite IH. by rewrite map_app.
Qed.

Lemma forM_snoc {S E A} (l : list A) x (f : A → SE S E ()) s s' :
  forM (l ++ [x]) f s = (s', inr tt) → ∃ s1, forM l f s = (s1, inr tt) ∧ f x s1 = (s', inr tt).
Proof.
  revert s. induction l as [|y l IH]; intros s; cbn [forM app]; unfold mbind, SE_bind.
  - destruct (f x s) as [s1 [|[]]] eqn:Hf; [done|]. intros [= <-]. by exists s.
  - destruct (f y s) as [s1 [|[]]]; [done|]. apply IH.
Qed.

(** What [MkdirAll] makes where no link is met. *)
Lemma MkdirAll_made env fs0 D L p fs fs' : Forall plain D → contained fs0 D L fs → within D p → clear L p = true →
  MkdirAll env p fs = (fs', inr tt) → nodeAt fs' p = Some NDir.
Proof.
  intros HD HI Hp Hc Hm. assert (clear L (parent p) = true) as Hcp by by eapply clear_prefix; [|apply parent_prefix].
  unfold MkdirAll in Hm. destruct (prefixes_last p) as [l Hl]. rewrite Hl in Hm. apply forM_snoc in Hm as (fs1 & Hm1 & Hm).
  assert (contained fs0 D L fs1) as HI1.
  { destruct Hp as (r & _ & Hpr & Hpl).
    epose proof (keeps_mkdirs env fs0 D HD L p l Hpl (ex_intro _ r Hpr) Hc _ fs HI) as H. by rewrite Hm1 in H.
    Unshelve. intros q Hq. rewrite Hl. set_solver. }
  unfold mkdirOne, mbind, SE_bind, get in Hm. destruct (statNode fs1 p) as [[| |]|] eqn:Hs; try done.
  - injection Hm as ->. unfold statNode in Hs. destruct (lookupPath fs' true p) as [q|] eqn:Hw; [|done].
    by apply (lookup_within fs0 D HD L) in Hw as ->.
  - unfold sysCall in Hm. destruct (x_fails env _ fs1); [done|]. destruct (makeAt p NDir fs1) as [fs2|] eqn:Hmk; [|done].
    injection Hm as ->. apply (makeAt_within fs0 D HD L) in Hmk as [-> _]; try done.
    rewrite nodeAt_setNode, decide_True; [done..|]. by eapply within_nonempty.
Qed.

Section Shown.
Context (env : XEnv) (fs0 : LFS) (dst : string).
Hypothesis rooted : isRooted dst = true.
Hypothesis proper : cleanComponents dst ≠ [].

Abbreviation D := (cleanComponents dst).
Abbreviation Inv := (contained fs0 D).

#[local] Set Default Proof Using "Type*".

Lemma plain_dst : Forall plain D.
Proof. by apply cleanComponents_plain. Qed.
#[local] Hint Resolve plain_dst : core.

(** Only directories at the place of a new entry. *)
Definition vacant (p : Path) (fs : LFS) : Prop := ∀ n, nodeAt fs p = Some n → n = NDir.

Lemma write_shown L p e fs fs' : Inv L fs → within D p → clear L p = true → vacant p fs →
  (i ← OpenFile env p; copyTo env i e) fs = (fs', inr tt) →
  kept p fs fs' ∧ ∃ i, nodeAt fs' p = Some (NFile i) ∧ fs'.(l_data) !! i = Some e.(te_data).
Proof.
  intros HI Hp Hc Hv. pose proof (within_nonempty _ _ Hp) as Hne.
  unfold OpenFile, mbind, SE_bind, get. destruct (x_fails env _ fs); cbn [whenM]; [done|]. cbn -[lookupPath newInode].
  destruct (lookupPath fs true p) as [q|] eqn:Hw; [|done].
  apply (lookup_within fs0 D plain_dst L) in Hw as ->; [|done|done|by eapply clear_prefix; [|apply parent_prefix]|done].
  destruct (nodeAt fs p) as [n|] eqn:Hn; [by rewrite (Hv n Hn)|]. cbn -[newInode].
  set (i := newInode fs). unfold copyTo, mbind, SE_bind, get, modifyS. cbn -[newInode overwrite].
  destruct (x_fails env _ _); [done|]. destruct (te_short e); [done|]. intros [= <-].
  rewrite lookup_insert_eq. change (default "" (Some "")) with "". assert (overwrite "" (te_data e) = te_data e) as ->.
  { unfold overwrite. assert (∀ n, sdrop n "" = "") as -> by by intros []. apply app_nil_r. }
  split; [split_and!|exists i].
  - intros q n Hq. by rewrite !nodeAt_setData, nodeAt_setNode, decide_False.
  - intros q n Hq. by rewrite !nodeAt_setData, nodeAt_setNode, decide_False.
  - intros j d Hj. cbn. rewrite !lookup_insert_ne; [done|..]; intros <-; pose proof (newInode_fresh fs); unfold i in Hj; congruence.
  - rewrite !nodeAt_setData, nodeAt_setNode, decide_True by done. split; [done|]. cbn. by rewrite lookup_insert_eq.
Qed.

Lemma Remove_kept L p fs : Inv L fs → within D p → clear L (parent p) = true → kept p fs (Remove p fs).1 ∧ (Remove p fs).2 = inr tt.
Proof.
  intros HI Hp Hc. pose proof (within_nonempty _ _ Hp) as Hne. unfold Remove, modifyS. cbn [fst snd]. split; [|done].
  assert (kept p fs {| fs with l_nodes := delete p fs.(l_nodes) |}) as Hd.
  { split_and!; try done; intros q n Hq; by rewrite nodeAt_delete, decide_False. }
  destruct (lookupPath fs false p) as [q|] eqn:Hw; [|apply kept_refl].
  apply (lookup_within fs0 D plain_dst L) in Hw as ->; [|done..].
  destruct (nodeAt fs p) as [[| |]|]; auto using kept_refl. destruct (_ && _); auto using kept_refl.
Qed.

(** The entry made after [MkdirAll] and [Remove]. *)
Lemma makeAt_shown L p n fs fs' : Inv L fs → within D p → clear L (parent p) = true → makeAt p n fs = Some fs' →
  kept p fs fs' ∧ nodeAt fs' p = Some n ∧ nodeAt fs p = None.
Proof.
  intros HI Hp Hc Hm. apply (makeAt_within fs0 D plain_dst L) in Hm as [-> Hn]; try done.
  pose proof (within_nonempty _ _ Hp) as Hne. split_and!; [by apply kept_setNode| |done]. by rewrite nodeAt_setNode, decide_True.
Qed.

(** The state when a link is made. *)
Lemma before_link L p fs : Inv L fs → within D p → clear L (parent p) = true → vacant p fs →
  ∃ fs1, (_ ← try (MkdirAll env (parent p)); Remove p) fs = (fs1, inr tt) ∧ Inv L fs1 ∧ kept p fs fs1.
Proof.
  intros HI Hp Hc Hv. destruct (MkdirAll_kept env p (parent p) fs Hv) as [Hk Hv1].
  assert (Forall plain (parent p) ∧ ∃ r, parent p = D ++ r) as [Hpp Hpar].
  { destruct Hp as (q & Hq & Hpq & Hpl). destruct (exists_last (l := q)) as (q' & x & ->); [done|]. rewrite Hpq, List.app_assoc in *.
    rewrite parent_snoc. apply Forall_app in Hpl as [? _]. eauto. }
  pose proof (keeps_MkdirAll env fs0 D plain_dst L (parent p) Hpp Hpar Hc fs HI) as H1. unfold mbind, SE_bind, try.
  destruct (MkdirAll env (parent p) fs) as [fs1 r]. cbn [fst] in *. assert (Inv L fs1) as HI1 by by destruct r.
  destruct (Remove_kept L p fs1 HI1 Hp Hc) as [Hk2 Hr]. pose proof (keeps_Remove fs0 D plain_dst L p Hp Hc fs1 HI1) as H2.
  destruct (Remove p fs1) as [fs2 r2]. cbn [fst snd] in *. subst r2. exists fs2. split; [done|]. split; [done|]. by eapply kept_trans.
Qed.

Lemma entry_shown L e p fs fs' : Inv L fs → straightEntry dst L e = true → placeOf dst e = Some p → vacant p fs →
  extractEntry env dst e fs = (fs', inr tt) → kept p fs fs' ∧ shows dst fs' e.
Proof.
  intros HI Hs Hpl Hv. unfold shows. rewrite Hpl. apply placeOf_target in Hpl as (t & Ht & Hpl).
  unfold straightEntry in Hs. unfold extractEntry. rewrite Ht in *.
  apply entryTarget_inside in Ht as (q & Hq & Hc & Hplain); [|done..]. rewrite Hpl in *. assert (within D p) as Hp by by exists q.
  destruct (te_Typeflag e).
  - intros Hm. destruct (MkdirAll_kept env p p fs Hv) as [Hk _]. rewrite Hm in Hk. split; [done|]. by apply (MkdirAll_made env fs0 D L p fs).
  - unfold mbind at 1, SE_bind at 1. destruct (MkdirAll_kept env p (parent p) fs Hv) as [Hk Hv1].
    assert (Forall plain (parent p) ∧ ∃ r, parent p = D ++ r) as [Hpp Hpar].
    { destruct (exists_last (l := q)) as (q' & x & ->); [done|]. rewrite Hc, List.app_assoc in *. rewrite parent_snoc.
      apply Forall_app in Hplain as [? _]. eauto. }
    assert (clear L (parent p) = true) as Hcp by by eapply clear_prefix; [|apply parent_prefix].
    pose proof (keeps_MkdirAll env fs0 D plain_dst L (parent p) Hpp Hpar Hcp fs HI) as H1.
    destruct (MkdirAll env (parent p) fs) as [fs1 [err|[]]]; [done|]. intros Hw. apply (write_shown L) in Hw as [Hk2 Hw]; try done.
    split; [by eapply kept_trans|done].
  - destruct (before_link L p fs HI Hp Hs Hv) as (fs1 & Hb & HI1 & Hk). revert Hb. unfold mbind, SE_bind.
    destruct (try _ fs) as [fs2 [err|r]]; [done|]. intros ->. unfold Symlink, sysCall. destruct (x_fails env _ fs1); [done|].
    case_decide; [done|]. destruct (makeAt p _ fs1) as [fs3|] eqn:Hm; [|done]. intros [= <-].
    apply (makeAt_shown L) in Hm as (Hk3 & Hn & _); try done. split; [by eapply kept_trans|done].
  - apply andb_true_iff in Hs as [[Hs1 Hs2]%andb_true_iff Hs3].
    destruct (before_link L p fs HI Hp Hs1 Hv) as (fs1 & Hb & HI1 & Hk). revert Hb. unfold mbind at 1 2 3, SE_bind at 1 2 3.
    destruct (try _ fs) as [fs2 [err|r]]; [done|]. intros ->. unfold Link, sysCall. destruct (x_fails env _ fs1); [done|].
    set (old := cleanComponents (pathJoin [dst; te_Linkname e])) in *. destruct (lookupPath fs1 false old) as [o|] eqn:Hw; [|done]. cbn -[makeAt].
    destruct (nodeAt fs1 o) as [n|] eqn:Hn; [|done]. cbn -[makeAt]. case_decide as Hd; [done|].
    destruct (makeAt p n fs1) as [fs3|] eqn:Hm; [|done]. intros [= <-].
    apply (makeAt_shown L) in Hm as (Hk3 & Hp3 & Hp1); try done. split; [by eapply kept_trans|]. exists n. split_and!; try done.
    apply (lookup_below fs0 D plain_dst L) in Hw as ->; [|done| |done..].
    + apply Hk3; [congruence|done].
    + unfold old, pathJoin. assert (dropEmpty [dst; te_Linkname e] = [dst; te_Linkname e]) as -> by by destruct dst.
      cbn [Join]. apply cleanComponents_plain, isRooted_Clean. by apply isRooted_app.
  - intros [= <-]. split; [apply kept_refl|done].
Qed.

(** What the entries before leave: they are on disk, and every file or link in
    the directory is theirs. *)
Definition unpacked (before : list TarEntry) (fs : LFS) : Prop :=
  (∀ e, e ∈ before → shows dst fs e) ∧
  (∀ p n, below D p = true → nodeAt fs p = Some n → n ≠ NDir → p ∈ omap (placeOf dst) before).

Lemma kept_shows p fs fs' e : kept p fs fs' → vacant p fs → placeOf dst e ≠ Some p → shows dst fs e → shows dst fs' e.
Proof.
  intros (Hk1 & _ & Hk3) Hv. unfold shows. destruct (placeOf dst e) as [q|]; [|done]. intros Hq. destruct (te_Typeflag e).
  - apply Hk1; congruence.
  - intros (i & Hn & Hi). exists i. split; [apply Hk1; congruence|auto].
  - apply Hk1; congruence.
  - intros (n & Hd & Hn & Ho). exists n. split_and!; [done|apply Hk1; congruence|]. apply Hk1; [|done]. intros Ho'.
    rewrite Ho' in Ho. by apply Hd, Hv.
  - done.
Qed.

Lemma entry_unpacked L e before fs fs' : Inv L fs → straightEntry dst L e = true → NoDup (omap (placeOf dst) (before ++ [e])) →
  unpacked before fs → extractEntry env dst e fs = (fs', inr tt) → unpacked (before ++ [e]) fs'.
Proof.
  intros HI Hs Hnd [Hb Hf] He. unfold unpacked. rewrite omap_app in *. destruct (placeOf dst e) as [p|] eqn:Hp.
  - assert (omap (placeOf dst) [e] = [p]) as Ho by (cbn; by rewrite Hp). rewrite Ho in *.
    apply NoDup_app in Hnd as (_ & Hnd & _).
    assert (p ∉ omap (placeOf dst) before) as Hnew by (intros Hin; apply (Hnd p Hin); constructor).
    assert (vacant p fs) as Hv.
    { intros n Hn. destruct (decide (n = NDir)) as [|Hne]; [done|]. exfalso. apply Hnew. eapply Hf; [|done..].
      apply placeOf_target in Hp as (t & Ht & <-).
      apply entryTarget_inside in Ht as (q & _ & -> & _); [|done..]. apply below_app. }
    destruct (entry_shown L e p fs fs' HI Hs Hp Hv He) as [Hk Hsh]. split.
    + intros e' [He'|He'%list_elem_of_singleton]%elem_of_app; [|by subst]. eapply kept_shows; eauto.
      intros Hq. apply Hnew. apply list_elem_of_omap. eauto.
    + intros q n Hq Hn Hd. apply elem_of_app. destruct (decide (q = p)) as [->|Hne]; [right; constructor|left].
      eapply Hf; [done| |done]. destruct Hk as (_ & Hk & _). by apply Hk.
  - assert (omap (placeOf dst) [e] = []) as Ho by (cbn; by rewrite Hp). rewrite Ho, (right_id_L [] (++)).
    assert (fs' = fs) as ->.
    { unfold placeOf in Hp. unfold extractEntry in He. destruct (entryTarget dst (te_Name e)) as [|[|]]; try done;
        [destruct (te_Typeflag e); try done|]; by injection He. }
    split; [|done]. intros e' [He'|He'%list_elem_of_singleton]%elem_of_app; [auto|]. subst. unfold shows. by rewrite Hp.
Qed.

Lemma entries_unpacked l before L fs fs' : Inv L fs → straight dst L l = true → NoDup (omap (placeOf dst) (before ++ l)) →
  unpacked before fs → forM l (extractEntry env dst) fs = (fs', inr tt) → unpacked (before ++ l) fs'.
Proof.
  revert before L fs. induction l as [|e l IH]; intros before L fs HI Hs Hnd Hu; cbn [forM].
  - intros [= <-]. by rewrite (right_id_L [] (++)).
  - cbn [straight] in Hs. apply andb_true_iff in Hs as [Hs Hsl]. unfold mbind, SE_bind.
    pose proof (keeps_entry env fs0 D plain_dst dst L e rooted eq_refl proper Hs fs HI) as HI1.
    destruct (extractEntry env dst e fs) as [fs1 [err|[]]] eqn:He; [done|]. intros Hl.
    assert (before ++ e :: l = (before ++ [e]) ++ l) as Hbl by by rewrite <- List.app_assoc. rewrite Hbl in *.
    apply (IH (before ++ [e]) (L ++ newLinks dst e) fs1); try done. apply (entry_unpacked L e before fs); try done.
    rewrite omap_app in Hnd. by apply NoDup_app in Hnd as (? & _ & _).
Qed.
End Shown.

(** C29: Unpacking a layer into an empty directory, when it succeeds, gives what
    the archive says, for an archive whose entries do not pass through links of
    the archive and are all at different places: each directory, file and link
    of it is at its place with its content or target, hard links share their
    file, and every file and link in the directory is at the place of one of
    them. Entries of other types are skipped. (An archive with two entries for
    one place can mix their contents: [second_entry_mixed].) *)
Theorem extract_exact env dst tr fs fs' :
  isRooted dst = true → cleanComponents dst ≠ [] → ready fs (cleanComponents dst) → straight dst [] tr.(tar_entries) = true →
  NoDup (omap (placeOf dst) tr.(tar_entries)) → extractLayer env dst tr fs = (fs', inr tt) →
  tr.(tar_eof) = true ∧ (∀ e, e ∈ tr.(tar_entries) → shows dst fs' e) ∧
  (∀ p n, below (cleanComponents dst) p = true → nodeAt fs' p = Some n → n ≠ NDir → p ∈ omap (placeOf dst) tr.(tar_entries)).
Proof.
  intros Hr Hne Hrd Hs Hnd He. unfold extractLayer, mbind, SE_bind in He. destruct (forM _ _ fs) as [fs1 [err|[]]] eqn:Hf; [done|].
  destruct (tar_eof tr); [|done]. injection He as ->. split; [done|].
  apply (entries_unpacked env fs dst Hr Hne _ [] [] fs fs'); try done; [by apply ready_contained|].
  split; [by intros e ?%elem_of_nil|]. intros p n Hp Hn Hd. exfalso. destruct (decide (p = cleanComponents dst)) as [->|Hpd].
  - rewrite ready_dir in Hn by done. congruence.
  - rewrite (rd_empty _ _ Hrd) in Hn by done. done.
Qed.

(** ** On an example *)

Definition demoLFS : LFS := {|
  l_nodes := list_to_map [(["etc"], NDir); (["etc"; "passwd"], NFile 0); (["l"], NDir); (["l"; "tmp"], NDir)];
  l_data := {[ 0 := "root" ]} |}.
Definition demoXEnv : XEnv := {| x_fails := λ _ _, false; x_written := λ _, 0 |}.

Definition demoEntry (typ : Typeflag) (name link data : string) : TarEntry :=
  {| te_Name := name; te_Typeflag := typ; te_Linkname := link; te_data := data; te_short := false |}.

Definition demoTar : Tar := {|
  tar_entries := [demoEntry TypeDir "./" "" ""; demoEntry TypeDir "bin/" "" ""; demoEntry TypeReg "bin/sh" "" "#!";
                  demoEntry TypeSymlink "sh" "bin/sh" ""; demoEntry TypeLink "bin/ash" "bin/sh" ""];
  tar_eof := true |}.

Lemma demo_ready : ready demoLFS ["l"; "tmp"].
Proof.
  assert (∀ p n, nodeAt demoLFS p = Some n → p = [] ∨ (p, n) ∈ map_to_list demoLFS.(l_nodes)) as Hn.
  { intros [|x p] n; [by left|]. intros H. right. by apply elem_of_map_to_list. }
  assert (Forall (λ kv : Path * Node, match kv.2 with NFile i => i = 0 | _ => True end ∧ (below ["l"; "tmp"] kv.1 = true → kv.1 = ["l"; "tmp"]))
    (map_to_list demoLFS.(l_nodes))) as Hall by (vm_compute; repeat constructor; done).
  rewrite Forall_forall in Hall. split.
  - intros q Hq. repeat (apply elem_of_cons in Hq as [->|Hq]; [reflexivity|]). by apply elem_of_nil in Hq.
  - intros p Hb Hne. destruct (nodeAt demoLFS p) as [n|] eqn:E; [|done]. exfalso.
    destruct (Hn _ _ E) as [->|Hin]; [done|]. apply Hne. by apply (Hall _ Hin).
  - intros p i E. destruct (Hn _ _ E) as [->|Hin]; [done|]. destruct (Hall _ Hin) as [Hi _]. cbn in Hi. subst. by eexists.
Qed.

Lemma extract_contained_witness :
  let fs' := (extractLayer demoXEnv "/l/tmp" demoTar demoLFS).1 in
  nodeAt fs' ["etc"; "passwd"] = Some (NFile 0) ∧ fs'.(l_data) !! 0 = Some "root".
Proof.
  pose proof (extract_contained demoXEnv "/l/tmp" demoTar demoLFS eq_refl ltac:(vm_compute; discriminate) demo_ready
    ltac:(vm_compute; reflexivity)) as H. cbv zeta in H |- *. destruct (H ["etc"; "passwd"] ltac:(vm_compute; reflexivity)) as [H1 H2].
  split; [rewrite H1; vm_compute; reflexivity|]. rewrite (H2 0); vm_compute; reflexivity.
Defined.

Lemma extract_exact_witness : let fs' := (extractLayer demoXEnv "/l/tmp" demoTar demoLFS).1 in
  nodeAt fs' ["l"; "tmp"; "sh"] = Some (NLink "bin/sh") ∧ nodeAt fs' ["l"; "tmp"; "bin"; "ash"] = nodeAt fs' ["l"; "tmp"; "bin"; "sh"].
Proof.
  intros fs'. assert (extractLayer demoXEnv "/l/tmp" demoTar demoLFS = (fs', inr tt)) as He by (vm_compute; reflexivity).
  destruct (extract_exact demoXEnv "/l/tmp" demoTar demoLFS fs' eq_refl ltac:(vm_compute; discriminate) demo_ready
    ltac:(vm_compute; reflexivity) ltac:(apply (bool_decide_eq_true_1 _); vm_compute; reflexivity) He) as (_ & H & _). split.
  - apply (H (demoEntry TypeSymlink "sh" "bin/sh" "")). vm_compute. do 3 right. by left.
  - destruct (H (demoEntry TypeLink "bin/ash" "bin/sh" "")) as (n & _ & H1 & H2); [vm_compute; do 4 right; by left|].
    etransitivity; [exact H1|symmetry; exact H2].
Defined.

(** The check of the names does not see links: an entry below a link that the
    archive made itself is written wherever the link leads. *)
Definition linkTar : Tar := {|
  tar_entries := [demoEntry TypeSymlink "a" "/etc" ""; demoEntry TypeReg "a/passwd" "" "evil"]; tar_eof := true |}.

Example symlink_escapes : let '(fs', r) := extractLayer demoXEnv "/l/tmp" linkTar demoLFS in
  r = inr tt ∧ nodeAt fs' ["etc"; "passwd"] = Some (NFile 0) ∧ fs'.(l_data) !! 0 = Some "evil".
Proof. by vm_compute. Qed.

(** The name a hard link refers to is not checked at all. *)
Definition hardTar : Tar := {|
  tar_entries := [demoEntry TypeLink "a" "../../etc/passwd" ""; demoEntry TypeReg "a" "" "evil"]; tar_eof := true |}.

Example hard_link_escapes : let '(fs', r) := extractLayer demoXEnv "/l/tmp" hardTar demoLFS in
  r = inr tt ∧ nodeAt fs' ["etc"; "passwd"] = Some (NFile 0) ∧ fs'.(l_data) !! 0 = Some "evil".
Proof. by vm_compute. Qed.

(** A file that occurs again is not truncated. *)
Definition twiceTar : Tar := {|
  tar_entries := [demoEntry TypeReg "motd" "" "welcome"; demoEntry TypeReg "motd" "" "hi"]; tar_eof := true |}.

Example second_entry_mixed : let '(fs', r) := extractLayer demoXEnv "/l/tmp" twiceTar demoLFS in
  r = inr tt ∧ ∃ i, nodeAt fs' ["l"; "tmp"; "motd"] = Some (NFile i) ∧ fs'.(l_data) !! i = Some "hilcome".
Proof. vm_compute. split; [done|]. by exists 1. Qed.

(** An absolute name and one that leaves the directory are refused. *)
Example names_refused :
  entryTarget "/l/tmp" "/etc/passwd" = inl (ErrAbsolutePath "/etc/passwd") ∧
  entryTarget "/l/tmp" "bin/../../x" = inl (ErrInvalidPath "bin/../../x") ∧
  entryTarget "/l/tmp" "./" = inr None ∧ entryTarget "/l/tmp" "./bin/sh" = inr (Some "/l/tmp/bin/sh").
Proof. by vm_compute. Qed.
