(* ===== verification/Peers.v ===== *)
(** * Peers (internal/image/peers.go)

    Layers can come from other hosts: the end points of their pawns, the choice
    of one of them for a layer, and the eviction of those that fail. The nodes
    are those that carry the label [periapsis.io/host]. *)
From stdpp Require Import pretty.
From S2P Require Import Prelude.

Record PeerNode := {
  pn_Host : string;
  pn_Port : Z;
  pn_Addresses : list (string * string);
}.

Definition internalIP (n : PeerNode) : option string :=
  snd <$> List.find (λ a : string * string, bool_decide (a.1 = "InternalIP")) n.(pn_Addresses).

(** The address and the end point of a node; an empty host name is one that is
    not configured. *)
Definition endpointOf (selfHost : string) (n : PeerNode) : option (string * string) :=
  if negb (bool_decide (selfHost = "")) && bool_decide (n.(pn_Host) = selfHost) then None
  else if decide (n.(pn_Port) = 0%Z) then None
  else (λ ip, (ip, ip +:+ ":" +:+ pretty n.(pn_Port))) <$> internalIP n.

(** [seen] are the addresses that have an end point. *)
Fixpoint endpoints_loop (selfHost : string) (seen : gset string) (nodes : list PeerNode) : list string :=
  match nodes with
  | [] => []
  | n :: nodes =>
      match endpointOf selfHost n with
      | Some (ip, ep) =>
          if decide (ip ∈ seen) then endpoints_loop selfHost seen nodes
          else ep :: endpoints_loop selfHost ({[ ip ]} ∪ seen) nodes
      | None => endpoints_loop selfHost seen nodes
      end
  end.

(** [None] for the nodes is an error of the API server, or no client. *)
Definition peerEndpoints (selfHost : string) (nodes : option (list PeerNode)) : list string :=
  endpoints_loop selfHost ∅ (default [] nodes).

(** ** The selector *)

Record peerSelector := { ps_healthy : list string; ps_next : nat }.

Definition pick (ps : peerSelector) : peerSelector * option string :=
  match ps.(ps_healthy) with
  | [] => (ps, None)
  | _ => ({| ps with ps_next := S ps.(ps_next) |}, ps.(ps_healthy) !! (ps.(ps_next) `mod` length ps.(ps_healthy)))
  end.

Definition markBad (ep : string) (ps : peerSelector) : peerSelector :=
  match find_index (λ e, bool_decide (e = ep)) ps.(ps_healthy) with
  | None => ps
  | Some i =>
      let healthy := take i ps.(ps_healthy) ++ drop (S i) ps.(ps_healthy) in
      let next := if i <? ps.(ps_next) then ps.(ps_next) - 1 else ps.(ps_next) in
      {| ps_healthy := healthy; ps_next := match healthy with [] => 0 | _ => next `mod` length healthy end |}
  end.

Definition newPeerSelector (eps : list string) : option peerSelector :=
  match eps with [] => None | _ => Some {| ps_healthy := eps; ps_next := 0 |} end.

(** ** Facts *)

Lemma endpointOf_spec selfHost n ip ep : endpointOf selfHost n = Some (ip, ep) ↔
  (selfHost = "" ∨ n.(pn_Host) ≠ selfHost) ∧ n.(pn_Port) ≠ 0%Z ∧ internalIP n = Some ip ∧ ep = ip +:+ ":" +:+ pretty n.(pn_Port).
Proof.
  unfold endpointOf. case_bool_decide; case_bool_decide; cbn [negb andb]; try case_decide; rewrite ?fmap_Some; naive_solver.
Qed.

(** The end points come from nodes of other hosts, with an address each. *)
Lemma endpoints_loop_spec selfHost seen nodes : ∃ l : list (PeerNode * string),
  endpoints_loop selfHost seen nodes = map (λ x, x.2 +:+ ":" +:+ pretty x.1.(pn_Port)) l ∧
  NoDup l.*2 ∧ (∀ n ip, (n, ip) ∈ l → n ∈ nodes ∧ (ip ∉ seen) ∧ is_Some (endpointOf selfHost n) ∧ internalIP n = Some ip).
Proof.
  revert seen. induction nodes as [|n nodes IH]; intros seen; cbn [endpoints_loop].
  { exists []. split_and!; [done|constructor|]. by intros n ip ?%elem_of_nil. }
  destruct (endpointOf selfHost n) as [[ip ep]|] eqn:He.
  - case_decide as Hin.
    + destruct (IH seen) as (l & -> & Hnd & Hl). exists l. split_and!; try done. intros m a (? & ? & ? & ?)%Hl. split_and!; try done. by constructor.
    + destruct (IH ({[ ip ]} ∪ seen)) as (l & -> & Hnd & Hl). apply endpointOf_spec in He as Hip. destruct Hip as (_ & _ & Hip & ->).
      exists ((n, ip) :: l). cbn. split_and!; [done| |].
      * constructor; [|done]. intros ([m a] & Ha & Hm%Hl)%list_elem_of_fmap. cbn in Ha. subst. set_solver.
      * intros m a [[= -> ->]|(? & ? & ? & ?)%Hl]%elem_of_cons; split_and!; eauto; [constructor|by constructor|set_solver].
  - destruct (IH seen) as (l & -> & Hnd & Hl). exists l. split_and!; try done. intros m a (? & ? & ? & ?)%Hl. split_and!; try done. by constructor.
Qed.

Lemma endpoints_loop_covers selfHost seen nodes n ip ep : n ∈ nodes → endpointOf selfHost n = Some (ip, ep) → ip ∉ seen →
  ∃ m ep', m ∈ nodes ∧ endpointOf selfHost m = Some (ip, ep') ∧ ep' ∈ endpoints_loop selfHost seen nodes.
Proof.
  revert seen. induction nodes as [|m nodes IH]; intros seen Hn He Hs; [by apply elem_of_nil in Hn|]. cbn.
  apply elem_of_cons in Hn. destruct (endpointOf selfHost m) as [[ip' ep']|] eqn:Hm.
  - destruct (decide (ip' = ip)) as [->|Hne].
    + rewrite decide_False by done. exists m, ep'. split_and!; [constructor|done|constructor].
    + destruct Hn as [->|Hn]; [congruence|]. case_decide.
      * destruct (IH seen Hn He Hs) as (k & e & ? & ? & ?). exists k, e. split_and!; try done. by constructor.
      * destruct (IH ({[ip']} ∪ seen) Hn He) as (k & e & ? & ? & ?); [set_solver|]. exists k, e. split_and!; try done; by constructor.
  - destruct Hn as [->|Hn]; [congruence|]. destruct (IH seen Hn He Hs) as (k & e & ? & ? & ?). exists k, e.
    split_and!; try done. by constructor.
Qed.

Lemma pick_spec ps : match pick ps with
  | (ps', Some ep) => ps'.(ps_healthy) = ps.(ps_healthy) ∧ ep ∈ ps.(ps_healthy)
  | (ps', None) => ps' = ps ∧ ps.(ps_healthy) = []
  end.
Proof.
  unfold pick. destruct (ps_healthy ps) as [|e l] eqn:Hh; [done|].
  destruct (lookup_lt_is_Some_2 (e :: l) (ps_next ps `mod` length (e :: l))) as [ep He]; [apply Nat.mod_upper_bound; done|].
  rewrite He. split; [by cbn|]. by eapply list_elem_of_lookup_2.
Qed.

Lemma markBad_spec ep ps : ep ∈ ps.(ps_healthy) →
  ∃ pre post, ps.(ps_healthy) = pre ++ ep :: post ∧ (ep ∉ pre) ∧ (markBad ep ps).(ps_healthy) = pre ++ post.
Proof.
  intros Hin. unfold markBad. destruct (find_index _ (ps_healthy ps)) as [i|] eqn:Hi.
  - pose proof Hi as (x & Hx & Hp)%find_index_Some. apply bool_decide_eq_true in Hp. subst x.
    exists (take i (ps_healthy ps)), (drop (S i) (ps_healthy ps)). split_and!; [by rewrite take_drop_middle| |done].
    intros (j & Hj)%list_elem_of_lookup_1. apply lookup_take_Some in Hj as [Hj Hlt].
    pose proof (find_index_first _ _ i j ep Hi Hj (bool_decide_eq_true_2 _ eq_refl)). lia.
  - exfalso. apply find_index_None in Hi. rewrite Forall_forall in Hi. specialize (Hi ep Hin). by rewrite bool_decide_eq_true_2 in Hi.
Qed.

Lemma markBad_length ep ps : ep ∈ ps.(ps_healthy) → S (length (markBad ep ps).(ps_healthy)) = length ps.(ps_healthy).
Proof. intros (pre & post & -> & _ & ->)%markBad_spec. rewrite !length_app. cbn. lia. Qed.

(** The next [k] choices. *)
Fixpoint picks (k : nat) (ps : peerSelector) : list string :=
  match k with
  | O => []
  | S k => let '(ps, ep) := pick ps in option_list ep ++ picks k ps
  end.

Lemma picks_lookup k ps i : ps.(ps_healthy) ≠ [] → i < k →
  picks k ps !! i = ps.(ps_healthy) !! ((ps.(ps_next) + i) `mod` length ps.(ps_healthy)).
Proof.
  revert ps i. induction k as [|k IH]; intros ps i Hne Hi; [lia|]. cbn [picks].
  assert (∃ ep, pick ps = ({| ps with ps_next := S ps.(ps_next) |}, Some ep) ∧
    ps.(ps_healthy) !! (ps.(ps_next) `mod` length ps.(ps_healthy)) = Some ep) as (ep & -> & He).
  { unfold pick. destruct (ps_healthy ps) as [|e l] eqn:Hh; [done|].
    destruct (lookup_lt_is_Some_2 (e :: l) (ps_next ps `mod` length (e :: l))) as [ep He]; [apply Nat.mod_upper_bound; done|].
    exists ep. by rewrite He. }
  destruct i as [|i].
  - cbn. by rewrite Nat.add_0_r.
  - cbn. rewrite IH; cbn [ps_healthy ps_next]; [|done|lia]. do 2 f_equal. lia.
Qed.

(** While no peer is evicted, each gets its turn. *)
Lemma picks_round ps : picks (length ps.(ps_healthy)) ps ≡ₚ ps.(ps_healthy).
Proof.
  destruct (decide (ps.(ps_healthy) = [])) as [->|Hne]; [done|]. set (l := ps_healthy ps) in *.
  assert (length l ≠ 0) as Hl by (by destruct l).
  assert (picks (length l) ps = drop (ps_next ps `mod` length l) l ++ take (ps_next ps `mod` length l) l) as ->.
  2: { rewrite (comm (++)). by rewrite take_drop. }
  set (r := ps_next ps `mod` length l). assert (r < length l) as Hr by by apply Nat.mod_upper_bound.
  assert (∀ k, length (picks k ps) = k) as Hlen.
  { clear Hr. subst r. intros k. unfold l in Hne. clear l Hl. revert ps Hne. induction k as [|k IH]; intros ps Hne; [done|]. cbn [picks].
    pose proof (pick_spec ps) as Hp. destruct (pick ps) as [ps' [ep|]]; [|by destruct Hp]. destruct Hp as [Hp _]. cbn.
    rewrite IH; [done|by rewrite Hp]. }
  apply list_eq_same_length with (length l); [rewrite length_app, length_drop, length_take; lia|apply Hlen|].
  intros i x y Hi Hx Hy. rewrite picks_lookup in Hx by done. fold l in Hx.
  rewrite <- Nat.Div0.add_mod_idemp_l in Hx. fold r in Hx.
  destruct (decide (r + i < length l)) as [Hlt|Hge].
  - rewrite Nat.mod_small in Hx by done. rewrite lookup_app_l in Hy by (rewrite length_drop; lia). rewrite lookup_drop in Hy. congruence.
  - rewrite lookup_app_r, length_drop in Hy by (rewrite length_drop; lia). rewrite lookup_take_lt in Hy by lia.
    assert ((r + i) `mod` length l = i - (length l - r)) as Hm.
    { symmetry. apply (Nat.mod_unique _ _ 1); lia. }
    rewrite Hm in Hx. congruence.
Qed.

(** The cursor counts the choices and is not reduced before it is compared, so
    that an entry can be skipped: after a turn of three and [a] again, [a] is
    evicted, and [b] is passed over. *)
Example eviction_skips :
  let ps := {| ps_healthy := ["a"; "b"; "c"]; ps_next := 0 |} in
  let ps := (pick (pick (pick (pick ps).1).1).1).1 in
  (pick (markBad "a" ps)).2 = Some "c".
Proof. reflexivity. Qed.
