(* ===== verification/Image.v ===== *)
(** * Images (internal/image/manager.go)

    The image manager keeps extracted layers, compressed layers and the
    description of images below its layer cache. A pull resolves the manifest
    of an image, or takes what is cached, and makes sure that every layer is
    extracted: from a compressed layer on disk, from a peer, or from the
    registry. [Store] is the cache on disk with the maps in memory; a layer is
    unpacked through the interface [Unpacker], which [Extract] implements. The
    registry, the peers and the failures of the disk answer through [IEnv] as
    functions of the calls made before. Layers are fetched one after the other;
    the code fetches up to eight at once, each under its own hash. *)
From stdpp Require Import pretty.
From S2P Require Import Prelude Float64 Monad Trace Paths Text Extract Peers.
Import Str.

(** ** Layers *)

(** A body as the readers with stall detection deliver it: the bytes, and
    whether an error comes after them. *)
Record Body := { b_bytes : string; b_broken : bool }.
#[export] Instance Body_eq_dec : EqDecision Body.
Proof. solve_decision. Defined.

(** Unpacking a compressed layer into a directory: what is in it then, and
    whether all went well; [consumed] are the bytes that were read. *)
Class Unpacker (Tree : Type) := {
  emptyTree : Tree;
  unpack : Body → Tree → Tree * bool;
  consumed : Body → string;
}.

(** ** Images *)

Record imageConfig := { ic_Entrypoint : list string; ic_Cmd : list string }.

(** A layer of an image; [None] is an error. *)
Record Layer := { ly_DiffID : option string; ly_Digest : string }.

Record Img := {
  img_Layers : option (list Layer);
  img_Digest : option string;
  img_Config : option imageConfig;
}.

(** ** The store *)

(** [is_layers], [is_tmp]: the directories of the layer cache; [is_blobs]: the
    compressed layers; [is_files]: the files of [.manifests]; [is_mem],
    [is_config]: the maps in memory; [is_inflight]: the layers announced to
    peers; [is_self]: the end points known to be this host. *)
Record Store (Tree : Type) := {
  is_layers : gmap string Tree;
  is_tmp : gmap string Tree;
  is_blobs : gmap string string;
  is_files : gmap string string;
  is_mem : gmap string Img;
  is_config : gmap string imageConfig;
  is_inflight : gset string;
  is_self : gset string;
  is_selector : option peerSelector;
}.
Arguments is_layers {_} _.
Arguments is_tmp {_} _.
Arguments is_blobs {_} _.
Arguments is_files {_} _.
Arguments is_mem {_} _.
Arguments is_config {_} _.
Arguments is_inflight {_} _.
Arguments is_self {_} _.
Arguments is_selector {_} _.

(** ** Calls *)

Inductive IOp :=
  | OMkTmp (tmp : string)
  | ORemoveTmp (tmp : string)
  | OCommit (tmp hash : string)
  | OCreateBlob (hash : string)
  | ORenameBlob (hash : string)
  | OOpenBlob (hash : string)
  | ORemoveBlob (hash : string)
  | OWrite (file : string).

Inductive IAct :=
  | IDisk (op : IOp) (ok : bool)
  | IHead (image : string) (ans : option string)
  | IImage (image : string) (ans : option Img)
  | INodes
  | IInflight (ep : string)
  | IPeerHead (ep hash : string) (ok : bool)
  | IPeerGet (ep hash : string) (ans : option Body)
  | IUpstream (hash : string) (ans : option Body)
  | ITick
  | ISleep (seconds : Z)
  | IEvent (kind reason : string)
  | IProgress (done total : nat).

(** [ie_nodes]: the nodes of the cluster, [ie_inflight]: what a peer is
    pulling, [ie_arrival]: the order in which the peers answer, [ie_cancelled]:
    the context is done before the next tick, [ie_now]: the clock, [ie_left]:
    what is in a file that could not be written, if it was opened. *)
Record IEnv := {
  ie_fails : list IAct → IOp → bool;
  ie_parse : string → bool;
  ie_Head : list IAct → string → option string;
  ie_Image : list IAct → string → option Img;
  ie_nodes : list IAct → option (list PeerNode);
  ie_inflight : list IAct → string → option (list string);
  ie_arrival : list IAct → list string → list string;
  ie_peerHead : list IAct → string → string → bool;
  ie_peerGet : list IAct → string → string → option Body;
  ie_upstream : list IAct → Layer → option Body;
  ie_cancelled : list IAct → bool;
  ie_now : list IAct → Z;
  ie_left : list IAct → string → option string;
  ie_marshal : list string → string;
  ie_unmarshal : string → option (list string);
  ie_marshalConfig : imageConfig → string;
  ie_unmarshalConfig : string → option imageConfig;
}.

(** [im_peers]: the host name once peers are enabled. *)
Record ImageManager := {
  im_baseDir : string;
  im_layerCache : string;
  im_peers : option string;
  im_selfMarker : string;
}.

Inductive IErr :=
  | ErrDisk (op : IOp)
  | ErrUpstream
  | ErrLayers
  | ErrDiffID (i : nat)
  | ErrNotCached
  | ErrMissing
  | ErrManifest
  | ErrReference
  | ErrFuel
  | Panic.

Definition NewImageManager (baseDir : string) : ImageManager :=
  {| im_baseDir := baseDir; im_layerCache := pathJoin [baseDir; "layers"]; im_peers := None; im_selfMarker := "" |}.

(** [marker]: the random marker, [None] when there is no randomness. *)
Definition SetPeers {Tree} (selfHost : string) (marker : option string) (im : ImageManager) (s : Store Tree) :
    ImageManager * Store Tree :=
  match marker with
  | Some m => ({| im with im_peers := Some selfHost; im_selfMarker := "self-" +:+ m |},
               {| s with is_inflight := {[ "self-" +:+ m ]} ∪ s.(is_inflight) |})
  | None => ({| im with im_peers := Some selfHost |}, s)
  end.

Definition slashToUnderscore (c : ascii) : ascii := if decide (c = "/"%char) then "_"%char else c.
Definition underscoreToSlash (c : ascii) : ascii := if decide (c = "_"%char) then "/"%char else c.

(** The name of an image as a file name. *)
Definition safeName (imageName : string) : string := smap slashToUnderscore imageName.

(** The files of an image, below [.manifests]. *)
Definition layerCacheFile (imageName : string) : string := safeName imageName +:+ ".json".
Definition imageConfigFile (imageName : string) : string := safeName imageName +:+ ".config.json".
Definition manifestDigestFile (imageName : string) : string := safeName imageName +:+ ".digest".
Definition indexDigestFile (imageName : string) : string := safeName imageName +:+ ".index".

(** ** Operations *)

Definition inflightPollInterval : Z := 2.
Definition inflightWaitTimeout : Z := 60.
Definition waitTicks : nat := Z.to_nat (inflightWaitTimeout / inflightPollInterval).
Definition maxAttempts : nat := 3.

Section Manager.
Context {Tree : Type} `{!Unpacker Tree} (env : IEnv) (im : ImageManager).

Abbreviation IM := (SE (TState IAct (Store Tree)) IErr).
Abbreviation St := (Store Tree).

(** An operation on the disk, and whether it succeeds. *)
Definition disk (op : IOp) (effect : St → St) : IM bool :=
  ok ← callT (λ t, negb (env.(ie_fails) t op)) (IDisk op);
  _ ← whenM ok (modD effect);
  mret ok.

Definition event (kind reason : string) : IM () := doT (IEvent kind reason).

Definition setTmp (tmp : string) (t : Tree) (s : St) : St := {| s with is_tmp := <[tmp := t]> s.(is_tmp) |}.
Definition dropTmp (tmp : string) (s : St) : St := {| s with is_tmp := delete tmp s.(is_tmp) |}.
Definition tmpTree (tmp : string) (s : St) : Tree := default emptyTree (s.(is_tmp) !! tmp).

(** [os.MkdirAll(tmpPath)] *)
Definition makeTmp (tmp : string) : IM () :=
  ok ← disk (OMkTmp tmp) (λ s, setTmp tmp (tmpTree tmp s) s);
  if ok : bool then mret tt else throw (ErrDisk (OMkTmp tmp)).

Definition removeTmp (tmp : string) : IM bool := disk (ORemoveTmp tmp) (dropTmp tmp).

Definition removeBlob (hash : string) : IM bool :=
  disk (ORemoveBlob hash) (λ s, {| s with is_blobs := delete hash s.(is_blobs) |}).

(** What is done after a failure: the blob and the directory are removed, and
    the directory is made again. *)
Definition renewTmp (hash tmp : string) : IM () :=
  _ ← removeBlob hash;
  _ ← removeTmp tmp;
  makeTmp tmp.

Definition unpackTo (tmp : string) (body : Body) : IM bool :=
  t ← getD (tmpTree tmp);
  _ ← modD (setTmp tmp (unpack body t).1);
  mret (unpack body t).2.

Definition saveAndExtract (body : Body) (hash tmp : string) : IM bool :=
  ok ← disk (OCreateBlob hash) id;
  if negb ok then mret false else
  ok ← unpackTo tmp body;
  if negb ok then mret false else
  disk (ORenameBlob hash) (λ s, {| s with is_blobs := <[hash := consumed body]> s.(is_blobs) |}).

Definition extractCompressedBlob (hash blob tmp : string) : IM bool :=
  ok ← disk (OOpenBlob hash) id;
  if negb ok then mret false else unpackTo tmp {| b_bytes := blob; b_broken := false |}.

Definition layerPath (hash : string) : string := pathJoin [im.(im_layerCache); hash].

Definition hasLayer (hash : string) (s : St) : bool := bool_decide (is_Some (s.(is_layers) !! hash)).

Definition commitLayer (tmp hash : string) : IM string :=
  present ← getD (hasLayer hash);
  if present : bool then
    _ ← removeTmp tmp;
    mret (layerPath hash)
  else
    ok ← disk (OCommit tmp hash) (λ s, dropTmp tmp {| s with is_layers := <[hash := tmpTree tmp s]> s.(is_layers) |});
    if ok : bool then mret (layerPath hash)
    else _ ← removeTmp tmp; throw (ErrDisk (OCommit tmp hash)).

Definition committed (tmp hash : string) : IM (option string) := path ← commitLayer tmp hash; mret (Some path).

(** ** Peers *)

Definition fetchOnePeer (hash ep : string) : IM (option Body) :=
  callT (λ t, env.(ie_peerGet) t ep hash) (IPeerGet ep hash).

Definition peerHasLayer (ep hash : string) : IM bool :=
  callT (λ t, env.(ie_peerHead) t ep hash) (IPeerHead ep hash).

Definition fetchInflightHashes (ep : string) : IM (option (list string)) :=
  callT (λ t, env.(ie_inflight) t ep) (λ _, IInflight ep).

(** The end points of this pull. *)
Definition endpoints : IM (list string) :=
  match im.(im_peers) with
  | None => mret []
  | Some selfHost => nodes ← callT env.(ie_nodes) (λ _, INodes); mret (peerEndpoints selfHost nodes)
  end.

(** The answers of the peers, in the order of their arrival. *)
Fixpoint inflight_loop (want : gset string) (eps : list string) (found : gmap string string) : IM (gmap string string) :=
  match eps with
  | [] => mret found
  | ep :: eps =>
      ans ← fetchInflightHashes ep;
      let hashes := default [] ans in
      if negb (bool_decide (im.(im_selfMarker) = "")) && bool_decide (im.(im_selfMarker) ∈ hashes) then
        _ ← modD (λ s, {| s with is_self := {[ ep ]} ∪ s.(is_self) |});
        inflight_loop want eps found
      else
        inflight_loop want eps
          (foldl (λ f h, if decide (h ∈ want ∧ f !! h = None) then <[h := ep]> f else f) found hashes)
  end.

Definition peersWithInflight (want : gset string) : IM (gmap string string) :=
  eps ← endpoints;
  self ← getD is_self;
  eps ← askT (λ t, env.(ie_arrival) t (filter (λ ep, ep ∉ self) eps));
  inflight_loop want eps ∅.

Fixpoint wait_loop (ticks : nat) (ep hash : string) : IM bool :=
  match ticks with
  | O => mret false
  | S ticks =>
      cancelled ← askT env.(ie_cancelled);
      if cancelled : bool then mret false else
      _ ← doT ITick;
      ok ← peerHasLayer ep hash;
      if ok : bool then mret true else wait_loop ticks ep hash
  end.

Definition waitForPeerLayer (ep hash : string) : IM bool := wait_loop waitTicks ep hash.

Definition noPeers : peerSelector := {| ps_healthy := []; ps_next := 0 |}.
Definition selectorOf (s : St) : peerSelector := default noPeers s.(is_selector).

Definition pickPeer : IM (option string) :=
  ep ← getD (λ s, (pick (selectorOf s)).2);
  _ ← modD (λ s, {| s with is_selector := Some (pick (selectorOf s)).1 |});
  mret ep.

Definition evict (ep : string) : IM () := modD (λ s, {| s with is_selector := Some (markBad ep (selectorOf s)) |}).

Fixpoint fetch_loop (fuel : nat) (hash : string) : IM (option (Body * string)) :=
  match fuel with
  | O => throw ErrFuel
  | S fuel =>
      ep ← pickPeer;
      match ep with
      | None => mret None
      | Some ep =>
          body ← fetchOnePeer hash ep;
          match body with
          | None => _ ← evict ep; fetch_loop fuel hash
          | Some body => mret (Some (body, ep))
          end
      end
  end.

(** Every turn but the last evicts a peer. *)
Definition fetch (hash : string) : IM (option (Body * string)) :=
  n ← getD (λ s, length (selectorOf s).(ps_healthy));
  fetch_loop (S n) hash.

(** ** Pulling a layer *)

(** Each way to get a layer ends with the path of the layer, or leaves an empty
    directory for the next one. *)
Definition fromBlob (hash tmp : string) : IM (option string) :=
  blob ← getD (λ s, s.(is_blobs) !! hash);
  match blob with
  | None => mret None
  | Some blob =>
      ok ← extractCompressedBlob hash blob tmp;
      if ok : bool then committed tmp hash
      else _ ← renewTmp hash tmp; mret None
  end.

(** A peer that is pulling the layer itself. *)
Definition fromInflight (hash tmp : string) : IM (option string) :=
  inflightPeers ← peersWithInflight {[ hash ]};
  match inflightPeers !! hash with
  | None => mret None
  | Some ep =>
      _ ← event "Normal" "PeerWait";
      finished ← waitForPeerLayer ep hash;
      if negb finished then mret None else
      body ← fetchOnePeer hash ep;
      ok ← match body with Some body => saveAndExtract body hash tmp | None => mret false end;
      if ok : bool then _ ← event "Normal" "PulledFromPeer"; committed tmp hash
      else _ ← renewTmp hash tmp; mret None
  end.

(** The peers of the selector. *)
Fixpoint peers_loop (fuel : nat) (hash tmp : string) : IM (option string) :=
  match fuel with
  | O => throw ErrFuel
  | S fuel =>
      got ← fetch hash;
      match got with
      | None => mret None
      | Some (body, ep) =>
          ok ← saveAndExtract body hash tmp;
          if ok : bool then _ ← event "Normal" "PulledFromPeer"; committed tmp hash
          else
            _ ← event "Warning" "PeerFallback";
            _ ← evict ep;
            _ ← renewTmp hash tmp;
            peers_loop fuel hash tmp
      end
  end.

Definition fromPeers (hash tmp : string) : IM (option string) :=
  n ← getD (λ s, length (selectorOf s).(ps_healthy));
  peers_loop (S n) hash tmp.

(** The registry, for each of the attempts left. *)
Fixpoint upstream_loop (attempts : list nat) (hash : string) (layer : Layer) (tmp : string) : IM string :=
  match attempts with
  | [] => _ ← removeTmp tmp; throw ErrUpstream
  | attempt :: attempts =>
      _ ← whenM (0 <? attempt) (
        _ ← event "Warning" "RegistryRetry";
        _ ← renewTmp hash tmp;
        doT (ISleep (3 * Z.of_nat attempt)));
      _ ← event "Normal" "RegistryPull";
      rc ← callT (λ t, env.(ie_upstream) t layer) (IUpstream hash);
      ok ← match rc with Some body => saveAndExtract body hash tmp | None => mret false end;
      if ok : bool then commitLayer tmp hash else upstream_loop attempts hash layer tmp
  end.

Definition orElse (m : IM (option string)) (k : IM string) : IM string :=
  r ← m;
  match r with Some path => mret path | None => k end.

Definition tmpName (hash : string) (now : Z) : string := ".tmp-" +:+ hash +:+ "-" +:+ pretty now.

Definition ensureLayer (hash : string) (layer : Layer) : IM string :=
  present ← getD (hasLayer hash);
  if present : bool then mret (layerPath hash) else
  now ← askT env.(ie_now);
  let tmp := tmpName hash now in
  _ ← makeTmp tmp;
  orElse (fromBlob hash tmp) (
    selector ← getD is_selector;
    let upstream := upstream_loop (seq 0 maxAttempts) hash layer tmp in
    match selector with
    | None => upstream
    | Some _ => orElse (fromInflight hash tmp) (orElse (fromPeers hash tmp) upstream)
    end).

(** ** Pulling all layers of an image *)

Definition markInflight (hash : string) : IM () := modD (λ s, {| s with is_inflight := {[ hash ]} ∪ s.(is_inflight) |}).
Definition markLayerDone (hash : string) : IM () := modD (λ s, {| s with is_inflight := s.(is_inflight) ∖ {[ hash ]} |}).
Definition InflightHashes (s : St) : list string := elements s.(is_inflight).

(** The hashes of the layers; those that are not on disk are announced. *)
Fixpoint announce (i : nat) (layers : list Layer) : IM (list (string * bool)) :=
  match layers with
  | [] => mret []
  | layer :: layers =>
      match layer.(ly_DiffID) with
      | None => throw (ErrDiffID i)
      | Some h =>
          present ← getD (hasLayer h);
          _ ← whenM (negb present) (markInflight h);
          infos ← announce (S i) layers;
          mret ((h, negb present) :: infos)
      end
  end.

(** All layers are pulled, whatever happens to the others; the first error is
    returned. *)
Fixpoint pull_loop (done total : nat) (todo : list (Layer * (string * bool))) : IM (list string) :=
  match todo with
  | [] => mret []
  | (layer, (h, announced)) :: todo =>
      r ← try (ensureLayer h layer);
      _ ← whenM announced (markLayerDone h);
      match r with
      | inr path =>
          _ ← doT (IProgress (S done) total);
          paths ← pull_loop (S done) total todo;
          mret (path :: paths)
      | inl err => _ ← try (pull_loop done total todo); throw err
      end
  end.

Definition layersFromImage (img : Img) : IM (list string) :=
  match img.(img_Layers) with
  | None => throw ErrLayers
  | Some layers =>
      eps ← endpoints;
      _ ← modD (λ s, {| s with is_selector := newPeerSelector eps |});
      infos ← announce 0 layers;
      pull_loop 0 (length layers) (zip layers infos)
  end.

(** ** What is remembered of an image *)

(** [os.MkdirAll] and [os.WriteFile], whose errors are ignored. *)
Definition writeManifest (file data : string) : IM () :=
  left ← askT (λ t, env.(ie_left) t file);
  ok ← disk (OWrite file) (λ s, {| s with is_files := <[file := data]> s.(is_files) |});
  match left with
  | Some part => whenM (negb ok) (modD (λ s, {| s with is_files := <[file := part]> s.(is_files) |}))
  | None => mret tt
  end.

Definition baseName (path : string) : string := default "" (last (cleanComponents path)).

Definition saveLayerCache (imageName : string) (layerPaths : list string) : IM () :=
  writeManifest (layerCacheFile imageName) (env.(ie_marshal) (map baseName layerPaths)).

Definition loadLayers (imageName : string) (s : St) : option (list string) :=
  data ← s.(is_files) !! layerCacheFile imageName;
  hashes ← env.(ie_unmarshal) data;
  if forallb (λ h, hasLayer h s) hashes then Some (map layerPath hashes) else None.

Definition loadLayerCache (imageName : string) : IM (option (list string)) := getD (loadLayers imageName).

Definition saveIndexDigest (imageName digest : string) : IM () := writeManifest (indexDigestFile imageName) digest.
Definition loadDigest (file : string) (s : St) : string := default "" (TrimSpace <$> s.(is_files) !! file).
Definition loadIndexDigest (imageName : string) : IM string := getD (loadDigest (indexDigestFile imageName)).
Definition saveManifestDigest (imageName digest : string) : IM () := writeManifest (manifestDigestFile imageName) digest.
Definition loadManifestDigest (imageName : string) (s : St) : string := loadDigest (manifestDigestFile imageName) s.

Definition saveImageConfig (imageName : string) (cfg : imageConfig) : IM () :=
  writeManifest (imageConfigFile imageName) (env.(ie_marshalConfig) cfg).
Definition loadImageConfig (imageName : string) (s : St) : option imageConfig :=
  s.(is_files) !! imageConfigFile imageName ≫= env.(ie_unmarshalConfig).

Definition ImageEntrypoint (imageName : string) (s : St) : St * (list string * list string) :=
  match s.(is_mem) !! imageName with
  | Some img => (s, match img.(img_Config) with Some cf => (cf.(ic_Entrypoint), cf.(ic_Cmd)) | None => ([], []) end)
  | None =>
      match s.(is_config) !! imageName with
      | Some cfg => (s, (cfg.(ic_Entrypoint), cfg.(ic_Cmd)))
      | None =>
          match loadImageConfig imageName s with
          | Some cfg => ({| s with is_config := <[imageName := cfg]> s.(is_config) |}, (cfg.(ic_Entrypoint), cfg.(ic_Cmd)))
          | None => (s, ([], []))
          end
      end
  end.

(** ** Pulling an image *)

Definition resolveManifestDigest (imageName : string) : IM (option string) :=
  if negb (env.(ie_parse) imageName) then mret None else
  desc ← callT (λ t, env.(ie_Head) t imageName) (IHead imageName);
  match desc with
  | Some digest => mret (Some digest)
  | None =>
      img ← callT (λ t, env.(ie_Image) t imageName) (IImage imageName);
      mret (img ≫= img_Digest)
  end.

(** The manifest with the digest of the index, which is empty when the registry
    does not tell it. *)
Definition resolveManifest (imageName : string) : IM (Img * string) :=
  _ ← event "Normal" "ResolvingManifest";
  if negb (env.(ie_parse) imageName) then
    _ ← event "Error" "ResolvingManifestFailed"; throw ErrReference
  else
    desc ← callT (λ t, env.(ie_Head) t imageName) (IHead imageName);
    img ← callT (λ t, env.(ie_Image) t imageName) (IImage imageName);
    match img with
    | None => throw ErrManifest
    | Some img => mret (img, default "" desc)
    end.

(** [digest[:16]] *)
Definition short16 (digest : string) : IM () := if len digest <? 16 then throw Panic else mret tt.

(** The policies that use what is cached; [None] goes on to the registry. *)
Definition pullCached (imageName pullPolicy : string) : IM (option (list string * bool)) :=
  mem ← getD (λ s, s.(is_mem) !! imageName);
  paths ← loadLayerCache imageName;
  match mem, paths with
  | _, Some paths => _ ← event "Normal" "ImageCached"; mret (Some (paths, true))
  | Some img, None =>
      r ← try (layersFromImage img);
      _ ← event "Normal" "ImageCached";
      match r with inr paths => mret (Some (paths, true)) | inl err => throw err end
  | None, None =>
      if decide (pullPolicy = "Never") then _ ← event "Error" "ImageMissing"; throw ErrNotCached
      else mret None
  end.

(** The check whether what is cached is current. *)
Definition pullCurrent (imageName : string) : IM (option (list string * bool)) :=
  cachedPaths ← loadLayerCache imageName;
  match cachedPaths with
  | None => mret None
  | Some cachedPaths =>
      cachedIndex ← loadIndexDigest imageName;
      if decide (cachedIndex = "") then mret None else
      remoteDigest ← resolveManifestDigest imageName;
      match remoteDigest with
      | None => mret None
      | Some remoteDigest =>
          if decide (remoteDigest = cachedIndex) then
            _ ← short16 remoteDigest;
            _ ← event "Normal" "ImageCached";
            mret (Some (cachedPaths, true))
          else
            _ ← short16 cachedIndex;
            _ ← short16 remoteDigest;
            mret None
      end
  end.

(** What is done when the registry does not answer. *)
Definition pullOffline (imageName : string) : IM (list string * bool) :=
  mem ← getD (λ s, s.(is_mem) !! imageName);
  match mem with
  | Some img => paths ← layersFromImage img; mret (paths, true)
  | None =>
      paths ← loadLayerCache imageName;
      match paths with
      | Some paths => _ ← event "Warning" "RegistryFailed"; mret (paths, true)
      | None => _ ← event "Error" "ResolvingManifestFailed"; throw ErrManifest
      end
  end.

(** What is kept of an image that was pulled. *)
Definition remember (imageName : string) (img : Img) (indexDigest : string) (layerPaths : list string) : IM () :=
  _ ← saveLayerCache imageName layerPaths;
  _ ← whenM (negb (bool_decide (indexDigest = ""))) (saveIndexDigest imageName indexDigest);
  _ ← match img.(img_Digest) with Some digest => saveManifestDigest imageName digest | None => mret tt end;
  match img.(img_Config) with Some cf => saveImageConfig imageName cf | None => mret tt end.

Definition pullFresh (imageName : string) : IM (list string * bool) :=
  r ← try (resolveManifest imageName);
  match r with
  | inl err => pullOffline imageName
  | inr (img, indexDigest) =>
      _ ← modD (λ s, {| s with is_mem := <[imageName := img]> s.(is_mem) |});
      layerPaths ← layersFromImage img;
      _ ← remember imageName img indexDigest layerPaths;
      mret (layerPaths, false)
  end.

Definition usesCache (pullPolicy : string) : bool := bool_decide (pullPolicy = "IfNotPresent") || bool_decide (pullPolicy = "Never").

(** The paths of the layers, and whether they were cached. *)
Definition PullWithOptions (imageName pullPolicy : string) : IM (list string * bool) :=
  let pullPolicy := if decide (pullPolicy = "") then "Always" else pullPolicy in
  cached ← (if usesCache pullPolicy then pullCached imageName pullPolicy else mret None);
  match cached with
  | Some r => mret r
  | None =>
      current ← pullCurrent imageName;
      match current with
      | Some r => mret r
      | None => pullFresh imageName
      end
  end.

(** ** House-keeping *)

(** The directories in [is_tmp] are those whose name starts with [.tmp-]. *)
Definition SweepStaleTmpDirs : IM () :=
  tmps ← getD (λ s, elements (dom s.(is_tmp)));
  forM tmps (λ tmp, _ ← removeTmp tmp; mret tt).

Record CachedImage := {
  ci_Name : string;
  ci_Digest : string;
  ci_Layers : nat;
  ci_LayerPaths : list string;
  ci_SizeBytes : Z;
}.

(** The size of a layer, extracted and compressed. *)
Definition layerSize (treeSize : Tree → Z) (s : St) (path : string) : Z :=
  let h := baseName path in
  default 0%Z (treeSize <$> s.(is_layers) !! h) + default 0%Z ((λ blob, Z.of_nat (len blob)) <$> s.(is_blobs) !! h).

Fixpoint list_loop (treeSize : Tree → Z) (s : St) (seen : gset string) (files : list string) : list CachedImage :=
  match files with
  | [] => []
  | file :: files =>
      let safe := trim_suffix file ".json" in
      if negb (has_suffix file ".json") || has_suffix safe ".config" then list_loop treeSize s seen files else
      let imageName := smap underscoreToSlash safe in
      if decide (imageName ∈ seen) then list_loop treeSize s seen files else
      let seen := {[ imageName ]} ∪ seen in
      match loadLayers imageName s with
      | None => list_loop treeSize s seen files
      | Some paths =>
          {| ci_Name := imageName; ci_Digest := loadManifestDigest imageName s; ci_Layers := length paths;
             ci_LayerPaths := paths; ci_SizeBytes := sum_over (layerSize treeSize s) paths |}
          :: list_loop treeSize s seen files
      end
  end.

Definition ListCachedImages (treeSize : Tree → Z) (s : St) : list CachedImage :=
  list_loop treeSize s ∅ (sortStrings (elements (dom s.(is_files)))).
End Manager.

(** ** The rate of a download *)

(** [total]: the bytes so far, [n]: those of this read, [elapsed]: the time
    since the start. The result is the new total and whether it fails. *)
Definition rateGuard_Read (minRate warmup total elapsed n : Z) (err : bool) : Z * bool :=
  let total := (total + n)%Z in
  if negb err && (warmup <? elapsed)%Z && (0 <? total)%Z
     && (int_of_float64 (fdiv (float64_of_int total) (Seconds elapsed)) <? minRate)%Z
  then (total, true) else (total, err).

(** ** The way of a layer to the cache *)

(** A peer or the registry has delivered a body for the layer. *)
Definition delivered (new : list IAct) (hash : string) (body : Body) : Prop :=
  (∃ ep, IPeerGet ep hash (Some body) ∈ new) ∨ IUpstream hash (Some body) ∈ new.

Lemma delivered_more new new' hash body : delivered new hash body → new ⊆ new' → delivered new' hash body.
Proof. intros [[ep H]|H] Hs; [left; exists ep|right]; by apply Hs. Qed.

Section Frames.
Context {Tree : Type} `{!Unpacker Tree}.

Abbreviation St := (Store Tree).

(** What pulling a layer leaves alone. *)
Record frame (hash tmp : string) (d : St) (new : list IAct) (d' : St) : Prop := {
  fr_files : d'.(is_files) = d.(is_files);
  fr_mem : d'.(is_mem) = d.(is_mem);
  fr_config : d'.(is_config) = d.(is_config);
  fr_inflight : d'.(is_inflight) = d.(is_inflight);
  fr_tmp : ∀ k, k ≠ tmp → d'.(is_tmp) !! k = d.(is_tmp) !! k;
  fr_blobs : ∀ k, k ≠ hash → d'.(is_blobs) !! k = d.(is_blobs) !! k;
  fr_blob : ∀ b, d'.(is_blobs) !! hash = Some b → d.(is_blobs) !! hash = Some b ∨
    ∃ body, delivered new hash body ∧ (unpack body emptyTree).2 = true ∧ b = consumed body;
}.

Lemma frame_refl hash tmp d new : frame hash tmp d new d.
Proof. split; auto. Qed.

Lemma frame_more hash tmp d new new' d' : frame hash tmp d new d' → new ⊆ new' → frame hash tmp d new' d'.
Proof.
  intros [H1 H2 H3 H4 H5 H6 H7] Hs. split; auto. intros b Hb. destruct (H7 b Hb) as [?|(body & ? & ? & ?)]; [by left|right].
  exists body. split_and!; try done. by eapply delivered_more.
Qed.

Lemma frame_trans hash tmp d new d1 new' d2 :
  frame hash tmp d new d1 → frame hash tmp d1 new' d2 → frame hash tmp d (new ++ new') d2.
Proof.
  intros [H1 H2 H3 H4 H5 H6 H7] [K1 K2 K3 K4 K5 K6 K7]. split; try congruence.
  - intros k Hk. by rewrite K5, H5.
  - intros k Hk. by rewrite K6, H6.
  - intros b Hb. destruct (K7 b Hb) as [Hb1|(body & ? & ? & ?)].
    + destruct (H7 b Hb1) as [?|(body & ? & ? & ?)]; [by left|right]. exists body. split_and!; try done.
      eapply delivered_more; [done|set_solver].
    + right. exists body. split_and!; try done. eapply delivered_more; [done|set_solver].
Qed.

(** The three ways in which a step can end. *)
Definition got (Q : Body → Prop) (hash tmp : string) (d d' : St) : Prop :=
  ∃ body tree, Q body ∧ unpack body emptyTree = (tree, true) ∧ d'.(is_layers) = <[hash := tree]> d.(is_layers) ∧ d'.(is_tmp) !! tmp = None.
Definition waiting (tmp : string) (d d' : St) : Prop := d'.(is_layers) = d.(is_layers) ∧ d'.(is_tmp) !! tmp = Some emptyTree.
Definition gone (e : IErr) (tmp : string) (d d' : St) : Prop :=
  e ≠ ErrFuel ∧ d'.(is_layers) = d.(is_layers) ∧ d'.(is_tmp) !! tmp = None.

End Frames.

Section Layers.
Context {Tree : Type} `{!Unpacker Tree} (env : IEnv) (im : ImageManager).
(** Directories can be removed. *)
Hypothesis tidy : ∀ t tmp, env.(ie_fails) t (ORemoveTmp tmp) = false.

Abbreviation St := (Store Tree).

Lemma wp_disk op (effect : St → St) (Φ : IErr + bool → list IAct → St → Prop) t d :
  (env.(ie_fails) t op = false → Φ (inr true) [IDisk op true] (effect d)) →
  (env.(ie_fails) t op = true → Φ (inr false) [IDisk op false] d) → wp (disk env op effect) Φ t d.
Proof.
  intros H1 H2. unfold disk. wp_step. wp_step. destruct (ie_fails env t op); cbn [negb whenM]; repeat wp_step; auto.
Qed.

Lemma wp_removeTmp tmp (Φ : IErr + bool → list IAct → St → Prop) t d :
  Φ (inr true) [IDisk (ORemoveTmp tmp) true] (dropTmp tmp d) → wp (removeTmp env tmp) Φ t d.
Proof. intros H. apply wp_disk; [done|]. by rewrite tidy. Qed.

Lemma wp_commitLayer hash tmp tree t d : d.(is_layers) !! hash = None → d.(is_tmp) !! tmp = Some tree →
  wp (commitLayer env im tmp hash) (λ r new d', frame hash tmp d new d' ∧
    match r with
    | inr path => path = layerPath im hash ∧ d'.(is_layers) = <[hash := tree]> d.(is_layers) ∧ d'.(is_tmp) !! tmp = None
    | inl e => gone e tmp d d'
    end) t d.
Proof.
  intros Hl Ht. unfold commitLayer. wp_step. wp_step. assert (hasLayer hash d = false) as ->.
  { apply bool_decide_eq_false. rewrite Hl. by intros []. }
  wp_step. apply wp_disk; intros _.
  - wp_step. split; [|cbn; unfold tmpTree; rewrite Ht, lookup_delete_eq; done].
    split; cbn; auto. intros k Hk. by rewrite lookup_delete_ne.
  - wp_step. apply wp_removeTmp. wp_step. split; [|unfold gone; cbn; by rewrite lookup_delete_eq].
    split; cbn; auto. intros k Hk. by rewrite lookup_delete_ne.
Qed.

Lemma wp_renewTmp hash tmp t d :
  wp (renewTmp env hash tmp) (λ r new d', frame hash tmp d new d' ∧
    match r with inr _ => waiting tmp d d' ∧ d'.(is_selector) = d.(is_selector) | inl e => gone e tmp d d' end) t d.
Proof.
  unfold renewTmp. wp_step. apply wp_disk; intros _.
  all: wp_step; apply wp_removeTmp; unfold makeTmp; wp_step; apply wp_disk; intros _; wp_step.
  all: (split; [split; cbn; auto|unfold waiting, gone; cbn; rewrite ?lookup_insert_eq, ?lookup_delete_eq; unfold tmpTree; cbn;
    rewrite ?lookup_delete_eq; done]).
  all: try (intros k Hk; rewrite ?lookup_insert_ne, ?lookup_delete_ne by done; done).
  all: intros b Hb; rewrite ?lookup_delete_eq in Hb; auto; done.
Qed.

Lemma frame_selector hash tmp (d : St) new sel : frame hash tmp d new {| d with is_selector := sel |}.
Proof. by split; auto. Qed.

Lemma wp_saveAndExtract body hash tmp t (d : St) : d.(is_tmp) !! tmp = Some emptyTree →
  wp (saveAndExtract env body hash tmp) (λ r new d', ∃ ok tree, r = inr ok ∧
    d'.(is_layers) = d.(is_layers) ∧ d'.(is_tmp) !! tmp = Some tree ∧ (ok = true → unpack body emptyTree = (tree, true)) ∧
    d'.(is_selector) = d.(is_selector) ∧
    ∀ pre, delivered pre hash body → frame hash tmp d (pre ++ new) d') t d.
Proof.
  intros Ht. unfold saveAndExtract. wp_step. apply wp_disk; intros _; cbn [negb].
  2: { wp_step. exists false, emptyTree. split_and!; auto using frame_refl; done. }
  wp_step. unfold unpackTo. repeat wp_step. unfold id.
  assert (tmpTree tmp d = emptyTree) as -> by (unfold tmpTree; by rewrite Ht).
  destruct (unpack body emptyTree) as [tree ok] eqn:Hu. cbn [fst snd].
  assert (∀ new, frame hash tmp d new (setTmp tmp tree d)) as Hf.
  { split; cbn; auto. intros k Hk. by rewrite lookup_insert_ne. }
  destruct ok; cbn [negb].
  2: { wp_step. exists false, tree. cbn. rewrite lookup_insert_eq. split_and!; auto; done. }
  apply wp_disk; intros _; cbn.
  - exists true, tree. rewrite lookup_insert_eq. split_and!; auto. intros pre Hp. split; cbn; auto.
    + intros k Hk. by rewrite lookup_insert_ne.
    + intros k Hk. by rewrite lookup_insert_ne.
    + intros b. rewrite lookup_insert_eq. intros [= <-]. right. exists body. rewrite Hu. split_and!; try done.
      eapply delivered_more; [done|set_solver].
  - exists false, tree. rewrite lookup_insert_eq. split_and!; auto; done.
Qed.

(** How a way to get the layer ends. *)
Definition phase (hash tmp : string) (d : St) (r : IErr + option string) (new : list IAct) (d' : St) : Prop :=
  frame hash tmp d new d' ∧
  match r with
  | inr (Some path) => path = layerPath im hash ∧ got (delivered new hash) hash tmp d d'
  | inr None => waiting tmp d d'
  | inl e => gone e tmp d d'
  end.

Lemma phase_step hash tmp d0 d pre r new d' : frame hash tmp d0 pre d → d.(is_layers) = d0.(is_layers) →
  phase hash tmp d r new d' → phase hash tmp d0 r (pre ++ new) d'.
Proof.
  intros Hf Hl [Hf' Hr]. split; [by eapply frame_trans|]. destruct r as [e|[path|]].
  - destruct Hr as (? & ? & ?). split_and!; congruence.
  - destruct Hr as (-> & body & tree & ? & ? & Hl' & ?). split; [done|]. exists body, tree. split_and!; try done; [|congruence].
    eapply delivered_more; [done|set_solver].
  - destruct Hr as (? & ?). split; congruence.
Qed.

Lemma phase_more hash tmp d r new new' d' : phase hash tmp d r new d' → new ⊆ new' → phase hash tmp d r new' d'.
Proof.
  intros [Hf Hr] Hs. split; [by eapply frame_more|]. destruct r as [e|[path|]]; [done| |done].
  destruct Hr as (-> & body & tree & Hd & Hr). split; [done|]. exists body, tree. split; [by eapply delivered_more|done].
Qed.

(** A body that was unpacked is committed. *)
Lemma wp_committed hash tmp pre body tree t d0 d : frame hash tmp d0 pre d → d.(is_layers) = d0.(is_layers) →
  d0.(is_layers) !! hash = None → d.(is_tmp) !! tmp = Some tree → delivered pre hash body → unpack body emptyTree = (tree, true) →
  wp (committed env im tmp hash) (λ r new d', phase hash tmp d0 r (pre ++ new) d') t d.
Proof.
  intros Hf Hl Hn Ht Hd Hu. unfold committed. wp_step. eapply wp_conseq; [apply (wp_commitLayer _ _ tree); congruence|].
  intros [e|path] new d' [Hf' Hr].
  - split; [by eapply frame_trans|]. destruct Hr as (? & ? & ?). split_and!; congruence.
  - wp_step. rewrite (right_id_L [] (++)). split; [by eapply frame_trans|]. destruct Hr as (-> & Hl' & Ht'). split; [done|].
    exists body, tree. split_and!; try done; [eapply delivered_more; [done|set_solver]|congruence].
Qed.

Lemma wp_renewed {A} hash tmp pre t d0 d (k : SE (TState IAct St) IErr A) (Φ : IErr + A → list IAct → St → Prop) :
  frame hash tmp d0 pre d → d.(is_layers) = d0.(is_layers) →
  (∀ e new d', frame hash tmp d0 (pre ++ new) d' → gone e tmp d0 d' → Φ (inl e) new d') →
  (∀ new d', frame hash tmp d0 (pre ++ new) d' → waiting tmp d0 d' → d'.(is_selector) = d.(is_selector) →
    wp k (λ r new' d'', Φ r (new ++ new') d'') (t ++ new) d') →
  wp (_ ← renewTmp env hash tmp; k) Φ t d.
Proof.
  intros Hf Hl He Hk. wp_step. eapply wp_conseq; [apply wp_renewTmp|]. intros [e|[]] new d' [Hf' Hr].
  - apply He; [by eapply frame_trans|]. destruct Hr as (? & ? & ?). split_and!; congruence.
  - destruct Hr as [[? ?] ?]. apply Hk; [by eapply frame_trans|split; congruence|done].
Qed.

(** *** The blob on disk *)
Definition whole (blob : string) : Body := {| b_bytes := blob; b_broken := false |}.

Lemma wp_fromBlob hash tmp t d : d.(is_layers) !! hash = None → d.(is_tmp) !! tmp = Some emptyTree →
  wp (fromBlob env im hash tmp) (λ r new d', frame hash tmp d new d' ∧
    match r with
    | inr (Some path) => path = layerPath im hash ∧ got (λ body, ∃ blob, d.(is_blobs) !! hash = Some blob ∧ body = whole blob) hash tmp d d'
    | inr None => waiting tmp d d' ∧ d'.(is_selector) = d.(is_selector)
    | inl e => gone e tmp d d'
    end) t d.
Proof.
  intros Hl Ht. unfold fromBlob. wp_step. wp_step. destruct (is_blobs d !! hash) as [blob|] eqn:Hb.
  2: { wp_step. split; [apply frame_refl|done]. }
  unfold extractCompressedBlob. wp_step.
  assert (∀ new d1, frame hash tmp d new d1 → is_layers d1 = is_layers d → is_selector d1 = is_selector d → ∀ t,
    wp (_ ← renewTmp env hash tmp; mret None) (λ r new' d', frame hash tmp d (new ++ new') d' ∧
      match r with
      | inr (Some path) => path = layerPath im hash ∧ got (λ body, ∃ b, Some blob = Some b ∧ body = whole b) hash tmp d d'
      | inr None => waiting tmp d d' ∧ d'.(is_selector) = d.(is_selector)
      | inl e => gone e tmp d d'
      end) t d1) as Hre.
  { intros new d1 Hf1 Hl1 Hs1 t'. apply (wp_renewed hash tmp new _ d); try done.
    - intros new' d' Hf' Hw Hs. wp_step. rewrite (right_id_L [] (++)). split_and!; [done|done|congruence]. }
  wp_step. apply wp_disk; intros _; cbn [negb].
  - unfold unpackTo. repeat wp_step. unfold id. assert (tmpTree tmp d = emptyTree) as -> by (unfold tmpTree; by rewrite Ht).
    fold (whole blob). destruct (unpack (whole blob) emptyTree) as [tree ok] eqn:Hu. cbn [fst snd].
    assert (∀ new, frame hash tmp d new (setTmp tmp tree d)) as Hf.
    { split; cbn; auto. intros k Hk. by rewrite lookup_insert_ne. }
    destruct ok; [|by apply Hre].
    unfold committed. wp_step. eapply wp_conseq; [apply (wp_commitLayer _ _ tree); [done|cbn; by rewrite lookup_insert_eq]|].
    intros [e|path] new d' [Hf' Hr].
    + split; [eapply frame_more; [eapply frame_trans; [apply (Hf [])|exact Hf']|set_solver]|exact Hr].
    + wp_step. rewrite (right_id_L [] (++)). split; [eapply frame_more; [eapply frame_trans; [apply (Hf [])|exact Hf']|set_solver]|]. destruct Hr as (-> & Hl' & Ht').
      split; [done|]. exists (whole blob), tree. split_and!; eauto.
  - wp_step. apply Hre; auto using frame_refl.
Qed.

(** *** A peer that is pulling the layer *)
Lemma wp_endpoints t (d : St) : wp (endpoints env im) (λ r new d', ∃ eps, r = inr eps ∧ d' = d) t d.
Proof. unfold endpoints. destruct (im_peers im); repeat wp_step; eauto. Qed.

Lemma wp_inflight_loop want eps found t (d : St) :
  wp (inflight_loop env im want eps found) (λ r new d', ∃ m self, r = inr m ∧ d' = {| d with is_self := self |}) t d.
Proof.
  revert found t d. induction eps as [|ep eps IH]; intros found t d; cbn [inflight_loop].
  - wp_step. exists found, (is_self d). by destruct d.
  - unfold fetchInflightHashes. wp_step. wp_step. destruct (negb _ && _).
    + wp_step. wp_step. eapply wp_conseq; [apply IH|]. intros r new d' (m & self & -> & ->). eauto.
    + apply IH.
Qed.

Lemma wp_peersWithInflight want t (d : St) :
  wp (peersWithInflight env im want) (λ r new d', ∃ m self, r = inr m ∧ d' = {| d with is_self := self |}) t d.
Proof.
  unfold peersWithInflight. wp_step. eapply wp_conseq; [apply wp_endpoints|]. intros r new d' (eps & -> & ->).
  repeat wp_step. apply wp_inflight_loop.
Qed.

Lemma wp_wait_loop ticks ep hash t (d : St) : wp (wait_loop env ticks ep hash) (λ r new d', ∃ b, r = inr b ∧ d' = d) t d.
Proof.
  revert t. induction ticks as [|ticks IH]; intros t; cbn [wait_loop]; [wp_step; eauto|].
  wp_step. wp_step. destruct (ie_cancelled env t); [wp_step; eauto|]. repeat wp_step. unfold peerHasLayer. wp_step.
  destruct (ie_peerHead env _ ep hash); [wp_step; eauto|]. apply IH.
Qed.

(** A body is unpacked and committed, or the directory is renewed. *)
Lemma wp_tryBody hash tmp pre t d0 d rc fail : frame hash tmp d0 pre d → d.(is_layers) = d0.(is_layers) →
  d0.(is_layers) !! hash = None → d.(is_tmp) !! tmp = Some emptyTree →
  (∀ body, rc = Some body → delivered pre hash body) →
  (∀ new d', frame hash tmp d0 (pre ++ new) d' → d'.(is_layers) = d0.(is_layers) → d'.(is_selector) = d.(is_selector) →
    wp fail (λ r new' d'', phase hash tmp d0 r (pre ++ new ++ new') d'') (t ++ new) d') →
  wp (ok ← match rc with Some body => saveAndExtract env body hash tmp | None => mret false end;
      if ok : bool then _ ← event "Normal" "PulledFromPeer"; committed env im tmp hash else fail)
    (λ r new d', phase hash tmp d0 r (pre ++ new) d') t d.
Proof.
  intros Hf Hl Hn Ht Hd Hfail. wp_step. destruct rc as [body|]; [|wp_step; apply Hfail; by rewrite ?(right_id_L [] (++))].
  specialize (Hd body eq_refl). eapply wp_conseq; [by apply wp_saveAndExtract|].
  intros r new d' (ok & tree & -> & Hl2 & Ht2 & Hu & Hsel & Hf2).
  assert (frame hash tmp d0 (pre ++ new) d') as Hf'.
  { eapply frame_more; [eapply frame_trans; [exact Hf|exact (Hf2 pre Hd)]|set_solver]. }
  destruct ok; [|apply Hfail; congruence]. unfold event. wp_step. wp_step.
  eapply wp_conseq; [apply (wp_committed hash tmp (pre ++ new) body tree _ d0 d'); try done; [congruence| |by apply Hu]|].
  - eapply delivered_more; [done|set_solver].
  - intros r new' d'' Hp. eapply phase_more; [exact Hp|set_solver].
Qed.

Lemma wp_fromInflight hash tmp t d : d.(is_layers) !! hash = None → d.(is_tmp) !! tmp = Some emptyTree →
  wp (fromInflight env im hash tmp) (phase hash tmp d) t d.
Proof.
  intros Hl Ht. unfold fromInflight. wp_step. eapply wp_conseq; [apply wp_peersWithInflight|].
  intros r new d1 (m & self & -> & Hd1). assert (∀ new, frame hash tmp d new d1) as Hf1 by (intros; subst; by split; auto).
  assert (is_layers d1 = is_layers d ∧ is_tmp d1 = is_tmp d) as [Hl1 Ht1] by by subst. clear Hd1.
  assert (∀ new, phase hash tmp d (inr None) new d1) as Hnone by (intros; split; [done|split; congruence]).
  destruct (m !! hash) as [ep|]; [|by wp_step]. wp_step. apply wp_do. wp_step. eapply wp_conseq; [apply wp_wait_loop|]. intros r new' d' (b & -> & ->).
  destruct b; cbn [negb]; [|by wp_step].
  unfold fetchOnePeer. wp_step. wp_step. set (rc := ie_peerGet env _ ep hash).
  eapply wp_conseq; [apply (wp_tryBody hash tmp [IPeerGet ep hash rc] _ d d1); try done; [congruence|..]|].
  - intros body Hb. rewrite Hb. left. exists ep. constructor.
  - intros new2 d' Hf2 Hl2 Hs2. apply (wp_renewed hash tmp ([IPeerGet ep hash rc] ++ new2) _ d); [done|done|..].
    + intros e new3 d3 Hf3 Hg. split; [eapply frame_more; [done|set_solver]|done].
    + intros new3 d3 Hf3 Hw _. wp_step. split; [eapply frame_more; [done|set_solver]|done].
  - intros r new2 d' Hp. eapply phase_more; [exact Hp|set_solver].
Qed.

(** *** The peers of the selector *)
Lemma wp_fetch_loop fuel hash t (d : St) : length (selectorOf d).(ps_healthy) < fuel →
  wp (fetch_loop env fuel hash) (λ r new d', ∃ sel, d' = {| d with is_selector := Some sel |} ∧
    length sel.(ps_healthy) ≤ length (selectorOf d).(ps_healthy) ∧
    match r with
    | inr (Some (body, ep)) => IPeerGet ep hash (Some body) ∈ new ∧ ep ∈ sel.(ps_healthy)
    | inr None => True
    | inl _ => False
    end) t d.
Proof.
  revert t d. induction fuel as [|fuel IH]; intros t d Hlt; [lia|]. cbn [fetch_loop]. unfold pickPeer. repeat wp_step.
  pose proof (pick_spec (selectorOf d)) as Hp. destruct (pick (selectorOf d)) as [ps [ep|]] eqn:Hpick; cbn [fst snd] in *.
  - destruct Hp as [Hh Hin]. unfold fetchOnePeer. wp_step. wp_step. set (d1 := {| d with is_selector := Some ps |}).
    destruct (ie_peerGet env _ ep hash) as [body|].
    + wp_step. exists ps. split_and!; [done|by rewrite Hh|set_solver|by rewrite Hh].
    + unfold evict. wp_step. wp_step. change (selectorOf d1) with ps.
      assert (S (length (ps_healthy (markBad ep ps))) = length (ps_healthy ps)) as Hlen by (apply markBad_length; by rewrite Hh).
      rewrite Hh in Hlen. eapply wp_conseq; [apply IH; cbn; lia|].
      intros r new d' (sel & -> & Hle & Hr). cbn in Hle. exists sel. split_and!; [done|lia|].
      destruct r as [e|[[body ep']|]]; [done| |done]. destruct Hr. split; [set_solver|done].
  - wp_step. exists ps. destruct Hp as [-> ?]. by split_and!.
Qed.

Lemma wp_peers_loop fuel hash tmp t d : length (selectorOf d).(ps_healthy) < fuel →
  d.(is_layers) !! hash = None → d.(is_tmp) !! tmp = Some emptyTree →
  wp (peers_loop env im fuel hash tmp) (phase hash tmp d) t d.
Proof.
  revert t d. induction fuel as [|fuel IH]; intros t d Hlt Hl Ht; [lia|]. cbn [peers_loop]. unfold fetch. wp_step. wp_step. wp_step.
  eapply wp_conseq; [apply wp_fetch_loop; lia|]. intros r new d1 (sel & -> & Hle & Hr). set (d1 := {| d with is_selector := Some sel |}).
  assert (∀ new, frame hash tmp d new d1) as Hf1 by (intros; apply frame_selector).
  destruct r as [e|[[body ep]|]]; [done| |wp_step; split; [done|split; done]]. destruct Hr as [Hin Hep].
  change (saveAndExtract env body hash tmp) with (match Some body with Some body => saveAndExtract env body hash tmp | None => mret false end).
  eapply wp_conseq; [apply (wp_tryBody hash tmp new _ d d1 (Some body)); try done|].
  - intros b [= <-]. left. by exists ep.
  - intros new2 d2 Hf2 Hl2 Hs2. unfold event, evict. wp_step. wp_step. wp_step. wp_step.
    assert (selectorOf d2 = sel) as -> by (unfold selectorOf; by rewrite Hs2).
    assert (S (length (ps_healthy (markBad ep sel))) = length (ps_healthy sel)) as Hlen by by apply markBad_length.
    apply (wp_renewed hash tmp (new ++ new2) _ d); [|done|..].
    + eapply frame_more; [eapply frame_trans; [exact Hf2|apply frame_selector]|]. rewrite (right_id_L [] (++)). set_solver.
    + intros e new3 d3 Hf3 Hg. split; [eapply frame_more; [done|set_solver]|done].
    + intros new3 d3 Hf3 Hw Hs3. cbn in Hs3. destruct Hw as [Hw1 Hw2].
      eapply wp_conseq; [apply IH; [unfold selectorOf; rewrite Hs3; cbn; lia|congruence|done]|].
      intros r new4 d4 Hp. eapply phase_more; [eapply phase_step; [exact Hf3|done|done]|set_solver].
  - intros r new2 d' Hp. eapply phase_more; [exact Hp|set_solver].
Qed.

(** *** The registry *)

(** How a pull from the registry ends. *)
Definition outcome (hash tmp : string) (d : St) (r : IErr + string) (new : list IAct) (d' : St) : Prop :=
  frame hash tmp d new d' ∧
  match r with
  | inr path => path = layerPath im hash ∧ got (delivered new hash) hash tmp d d'
  | inl e => gone e tmp d d'
  end.

Lemma outcome_more hash tmp d r new new' d' : outcome hash tmp d r new d' → new ⊆ new' → outcome hash tmp d r new' d'.
Proof.
  intros [Hf Hr] Hs. split; [by eapply frame_more|]. destruct r as [e|path]; [done|].
  destruct Hr as (-> & body & tree & Hd & Hr). split; [done|]. exists body, tree. split; [by eapply delivered_more|done].
Qed.

(** One attempt; [again] are the others. *)
Lemma wp_attempt hash tmp layer pre t d0 d again : frame hash tmp d0 pre d → d.(is_layers) = d0.(is_layers) →
  d0.(is_layers) !! hash = None → d.(is_tmp) !! tmp = Some emptyTree →
  (∀ new d', frame hash tmp d0 new d' → d'.(is_layers) = d0.(is_layers) → pre ⊆ new → ∀ t,
    wp again (λ r new' d'', outcome hash tmp d0 r (new ++ new') d'') t d') →
  wp (_ ← event "Normal" "RegistryPull";
      rc ← callT (λ t, env.(ie_upstream) t layer) (IUpstream hash);
      ok ← match rc with Some body => saveAndExtract env body hash tmp | None => mret false end;
      if ok : bool then commitLayer env im tmp hash else again) (λ r new d', outcome hash tmp d0 r (pre ++ new) d') t d.
Proof.
  intros Hf Hl Hn Ht Hagain. wp_step. apply wp_do. wp_step. wp_step. wp_step. set (rc := ie_upstream env _ layer).
  destruct rc as [body|].
  2: { wp_step. eapply wp_conseq; [apply (Hagain pre); done|]. intros r new d' H. eapply outcome_more; [exact H|set_solver]. }
  assert (delivered [IUpstream hash (Some body)] hash body) as Hd by (right; constructor).
  eapply wp_conseq; [by apply wp_saveAndExtract|]. intros r new d' (ok & tree & -> & Hl2 & Ht2 & Hu & _ & Hf2).
  specialize (Hf2 _ Hd). assert (frame hash tmp d0 (pre ++ [IUpstream hash (Some body)] ++ new) d') as Hf' by by eapply frame_trans.
  destruct ok.
  - eapply wp_conseq; [apply (wp_commitLayer _ _ tree); congruence|]. intros [e|path] new' d'' [Hfc Hr].
    + split; [eapply frame_more; [eapply frame_trans; [exact Hf'|exact Hfc]|set_solver]|]. destruct Hr as (? & ? & ?). split_and!; congruence.
    + split; [eapply frame_more; [eapply frame_trans; [exact Hf'|exact Hfc]|set_solver]|]. destruct Hr as (-> & Hl' & Ht'). split; [done|].
      exists body, tree. split_and!; [eapply delivered_more; [done|set_solver]|auto|congruence|done].
  - eapply wp_conseq; [eapply (Hagain _ _ Hf'); [congruence|set_solver]|]. intros r new' d'' H.
    eapply outcome_more; [exact H|set_solver].
Qed.

Lemma wp_upstream_loop attempts hash layer tmp pre t d0 d : frame hash tmp d0 pre d → d.(is_layers) = d0.(is_layers) →
  d0.(is_layers) !! hash = None → (head attempts = Some 0 → d.(is_tmp) !! tmp = Some emptyTree) → Forall (λ a, a ≠ 0) (tail attempts) →
  wp (upstream_loop env im attempts hash layer tmp) (λ r new d', outcome hash tmp d0 r (pre ++ new) d') t d.
Proof.
  revert pre t d. induction attempts as [|a attempts IH]; intros pre t d Hf Hl Hn Ht Ha; cbn [upstream_loop].
  { wp_step. apply wp_removeTmp. wp_step. split.
    - eapply frame_more; [eapply (frame_trans _ _ _ _ _ []); [exact Hf|]|set_solver]. split; cbn; auto. intros k Hk. by rewrite lookup_delete_ne.
    - unfold gone. cbn. by rewrite lookup_delete_eq. }
  assert (∀ new d', frame hash tmp d0 new d' → d'.(is_layers) = d0.(is_layers) → ∀ t,
    wp (upstream_loop env im attempts hash layer tmp) (λ r new' d'', outcome hash tmp d0 r (new ++ new') d'') t d') as Hnext.
  { intros new d' Hf' Hl' t'. apply IH; try done.
    - destruct attempts as [|b attempts]; [done|]. cbn in *. apply Forall_cons in Ha as [Hb _]. by intros [= ->].
    - destruct attempts as [|b attempts]; [done|]. by apply Forall_cons in Ha as [_ Ha]. }
  wp_step. destruct a as [|a]; cbn [Nat.ltb Nat.leb whenM].
  - wp_step. eapply wp_conseq; [apply wp_attempt; eauto|]. intros r new d' H. exact H.
  - unfold event at 1. wp_step. wp_step. apply (wp_renewed hash tmp pre _ d0); [done|done|..].
    + intros e new d' Hf' Hg. split; [eapply frame_more; [exact Hf'|set_solver]|done].
    + intros new d' Hf' [Hl' Ht'] _. wp_step. eapply wp_conseq; [apply (wp_attempt hash tmp layer (pre ++ new) _ d0 d'); eauto|].
      intros r new' d'' H. eapply outcome_more; [exact H|set_solver].
Qed.

(** *** The whole way *)

(** Where the content of a layer can come from. *)
Definition source (d : St) (new : list IAct) (hash : string) (body : Body) : Prop :=
  (∃ blob, d.(is_blobs) !! hash = Some blob ∧ body = whole blob) ∨ delivered new hash body.

Definition ensured (hash tmp : string) (d : St) (r : IErr + string) (new : list IAct) (d' : St) : Prop :=
  frame hash tmp d new d' ∧
  match r with
  | inr path => path = layerPath im hash ∧ got (source d new hash) hash tmp d d'
  | inl e => gone e tmp d d'
  end.

Lemma outcome_ensured hash tmp d r pre new d' : outcome hash tmp d r new d' → new ⊆ pre → ensured hash tmp d r pre d'.
Proof.
  intros H Hs. destruct (outcome_more _ _ _ _ _ _ _ H Hs) as [Hf Hr]. split; [done|]. destruct r as [e|path]; [done|].
  destruct Hr as (-> & body & tree & Hd & Hr). split; [done|]. exists body, tree. split; [by right|done].
Qed.

(** A phase is followed by the next one where it gives nothing. *)
Lemma wp_orElse hash tmp m k pre t d0 d : frame hash tmp d0 pre d → d.(is_layers) = d0.(is_layers) →
  wp m (phase hash tmp d) t d →
  (∀ new d', frame hash tmp d0 new d' → waiting tmp d0 d' → pre ⊆ new → ∀ t,
    wp k (λ r new' d'', outcome hash tmp d0 r (new ++ new') d'') t d') →
  wp (orElse m k) (λ r new d', outcome hash tmp d0 r (pre ++ new) d') t d.
Proof.
  intros Hf Hl Hm Hk. unfold orElse. wp_step. eapply wp_conseq; [exact Hm|]. intros r new d' Hp.
  pose proof (phase_step hash tmp d0 d pre r new d' Hf Hl Hp) as [Hf' Hr]. destruct r as [e|[path|]].
  - done.
  - wp_step. rewrite (right_id_L [] (++)). done.
  - eapply wp_conseq; [eapply (Hk (pre ++ new)); [done|done|set_solver]|]. intros r new' d'' H. eapply outcome_more; [exact H|set_solver].
Qed.

Lemma wp_ensureLayer hash layer t d : d.(is_layers) !! hash = None → d.(is_tmp) !! tmpName hash (env.(ie_now) t) = None →
  wp (ensureLayer env im hash layer) (ensured hash (tmpName hash (env.(ie_now) t)) d) t d.
Proof.
  intros Hl Ht. unfold ensureLayer. wp_step. wp_step. assert (hasLayer hash d = false) as ->.
  { apply bool_decide_eq_false. rewrite Hl. by intros []. }
  wp_step. wp_step. rewrite (right_id_L [] (++)). set (tmp := tmpName hash (ie_now env t)) in *. unfold makeTmp. wp_step. wp_step.
  apply wp_disk; intros _.
  2: { wp_step. split; [apply frame_refl|]. by split_and!. }
  wp_step. assert (tmpTree tmp d = emptyTree) as -> by (unfold tmpTree; by rewrite Ht). set (d1 := setTmp tmp emptyTree d).
  assert (∀ new, frame hash tmp d new d1) as Hf1 by (split; cbn; auto; intros k Hk; by rewrite lookup_insert_ne).
  assert (is_layers d1 !! hash = None ∧ is_tmp d1 !! tmp = Some emptyTree) as [Hl1 Ht1] by (cbn; by rewrite lookup_insert_eq).
  unfold orElse at 1. wp_step. eapply wp_conseq; [by apply wp_fromBlob|]. intros r new d2 [Hf2 Hr]. destruct r as [e|[path|]].
  - split; [eapply frame_more; [eapply frame_trans; [apply (Hf1 [])|exact Hf2]|set_solver]|exact Hr].
  - wp_step. split; [eapply frame_more; [eapply frame_trans; [apply (Hf1 [])|exact Hf2]|set_solver]|].
    destruct Hr as (-> & body & tree & (blob & Hb & ->) & Hr). split; [done|]. exists (whole blob), tree. split; [left; by exists blob|exact Hr].
  - destruct Hr as [[Hl2 Ht2] _]. assert (frame hash tmp d new d2) as Hf by (eapply frame_more; [eapply frame_trans; [apply (Hf1 [])|exact Hf2]|set_solver]).
    assert (∀ new d', frame hash tmp d new d' → waiting tmp d d' → ∀ t, wp (upstream_loop env im (seq 0 maxAttempts) hash layer tmp)
      (λ r new' d'', outcome hash tmp d r (new ++ new') d'') t d') as Hup.
    { intros new' d' Hf' [Hl' Ht'] t'. apply wp_upstream_loop; try done. by repeat constructor. }
    wp_step. wp_step. destruct (is_selector d2).
    + eapply wp_conseq; [apply (wp_orElse hash tmp _ _ new _ d d2); [done|done|by apply wp_fromInflight; [rewrite Hl2|]|]|].
      * intros new3 d3 Hf3 [Hl3 Ht3] Hs3 t3. apply (wp_orElse hash tmp); [done|done| |].
        -- unfold fromPeers. wp_step. wp_step. apply wp_peers_loop; [lia|congruence|done].
        -- intros new4 d4 Hf4 Hw4 Hs4 t4. by apply Hup.
      * intros r new3 d3 H. eapply outcome_ensured; [exact H|set_solver].
    + eapply wp_conseq; [by apply (Hup new d2)|]. intros r new3 d3 H. eapply outcome_ensured; [exact H|set_solver].
Qed.
End Layers.

(** ** The calls of a pull *)

Section Calls.
Context {Tree : Type} `{!Unpacker Tree} (env : IEnv) (im : ImageManager) (P : IAct → Prop).
Hypothesis plainCalls : ∀ a, match a with IPeerGet _ _ _ | IUpstream _ _ => True | _ => P a end.
Hypothesis peerCalls : ∀ t ep hash, P (IPeerGet ep hash (env.(ie_peerGet) t ep hash)).

Abbreviation St := (Store Tree).
Abbreviation OnlyP m := (only P m).

(** [call_step]: a call that is known to be calls, or one step further. *)
#[local] Create HintDb calls.
Ltac call_step := first [solve [eauto with calls] | progress cbn [negb] | only_step].
Ltac call_tac := repeat call_step; try match goal with |- P ?a => exact (plainCalls a) end.

Lemma calls_disk op effect : OnlyP (disk env op effect : SE (TState IAct St) IErr bool).
Proof. unfold disk. call_tac. Qed.
#[local] Hint Resolve calls_disk : calls.
Lemma calls_event kind reason : OnlyP (event kind reason : SE (TState IAct St) IErr ()).
Proof. apply only_do, (plainCalls (IEvent kind reason)). Qed.
#[local] Hint Resolve calls_event : calls.
Lemma calls_removeTmp tmp : OnlyP (removeTmp env tmp : SE (TState IAct St) IErr bool).
Proof. unfold removeTmp. call_tac. Qed.
#[local] Hint Resolve calls_removeTmp : calls.
Lemma calls_renewTmp hash tmp : OnlyP (renewTmp env hash tmp : SE (TState IAct St) IErr ()).
Proof. unfold renewTmp, removeBlob, makeTmp. call_tac. Qed.
#[local] Hint Resolve calls_renewTmp : calls.
Lemma calls_saveAndExtract body hash tmp : OnlyP (saveAndExtract env body hash tmp : SE (TState IAct St) IErr bool).
Proof. unfold saveAndExtract, unpackTo. call_tac. Qed.
#[local] Hint Resolve calls_saveAndExtract : calls.
Lemma calls_commitLayer tmp hash : OnlyP (commitLayer env im tmp hash : SE (TState IAct St) IErr string).
Proof. unfold commitLayer. call_tac. Qed.
#[local] Hint Resolve calls_commitLayer : calls.
Lemma calls_fetchOnePeer hash ep : OnlyP (fetchOnePeer env hash ep : SE (TState IAct St) IErr (option Body)).
Proof. apply only_answer. intros t. apply peerCalls. Qed.
#[local] Hint Resolve calls_fetchOnePeer : calls.

Lemma calls_fromBlob hash tmp : OnlyP (fromBlob env im hash tmp : SE (TState IAct St) IErr (option string)).
Proof. unfold fromBlob, extractCompressedBlob, unpackTo, committed. call_tac. Qed.

Lemma calls_inflight_loop want eps found : OnlyP (inflight_loop env im want eps found : SE (TState IAct St) IErr (gmap string string)).
Proof. revert found. induction eps; intros found; cbn [inflight_loop]; unfold fetchInflightHashes; call_tac. Qed.

Lemma calls_wait_loop ticks ep hash : OnlyP (wait_loop env ticks ep hash : SE (TState IAct St) IErr bool).
Proof. induction ticks; cbn [wait_loop]; unfold peerHasLayer; call_tac. Qed.
#[local] Hint Resolve calls_inflight_loop calls_wait_loop : calls.

Lemma calls_fromInflight hash tmp : OnlyP (fromInflight env im hash tmp : SE (TState IAct St) IErr (option string)).
Proof. unfold fromInflight, peersWithInflight, endpoints, waitForPeerLayer, committed. call_tac. Qed.

Lemma calls_fetch_loop fuel hash : OnlyP (fetch_loop env fuel hash : SE (TState IAct St) IErr (option (Body * string))).
Proof. induction fuel; cbn [fetch_loop]; unfold pickPeer, evict; call_tac. Qed.
#[local] Hint Resolve calls_fetch_loop : calls.

Lemma calls_peers_loop fuel hash tmp : OnlyP (peers_loop env im fuel hash tmp : SE (TState IAct St) IErr (option string)).
Proof. induction fuel; cbn [peers_loop]; unfold fetch, evict, committed; call_tac. Qed.

Lemma calls_upstream attempts hash layer tmp : (∀ t, P (IUpstream hash (env.(ie_upstream) t layer))) →
  OnlyP (upstream_loop env im attempts hash layer tmp : SE (TState IAct St) IErr string).
Proof.
  intros Hh. assert (OnlyP (callT (λ t, env.(ie_upstream) t layer) (IUpstream hash) : SE (TState IAct St) IErr (option Body))) as Hu.
  { by apply only_answer. }
  induction attempts; cbn [upstream_loop]; call_tac.
Qed.
#[local] Hint Resolve calls_fromBlob calls_fromInflight calls_peers_loop calls_upstream : calls.

Lemma calls_ensureLayer hash layer : (∀ t, P (IUpstream hash (env.(ie_upstream) t layer))) →
  OnlyP (ensureLayer env im hash layer : SE (TState IAct St) IErr string).
Proof. intros Hh. unfold ensureLayer, orElse, fromPeers, makeTmp. call_tac. Qed.
End Calls.

(** ** Asking the registry *)

Section Queries.
Context {Tree : Type} (env : IEnv).

Abbreviation St := (Store Tree).

Lemma wp_resolveManifestDigest imageName t d :
  wp (resolveManifestDigest env imageName) (λ r new d', (∃ x, r = inr x) ∧ d' = d) t (d : St).
Proof.
  unfold resolveManifestDigest. destruct (ie_parse env imageName); cbn [negb]; [|wp_step; eauto]. wp_step. wp_step.
  destruct (ie_Head env t imageName); repeat wp_step; eauto.
Qed.

Lemma wp_short16 digest (Φ : IErr + () → list IAct → St → Prop) t d :
  Φ (inl Panic) [] d → Φ (inr tt) [] d → wp (short16 digest) Φ t d.
Proof. intros. unfold short16. destruct (_ <? _); by wp_step. Qed.

Lemma wp_resolveManifest imageName t d :
  wp (resolveManifest env imageName) (λ r new d', d' = d ∧
    match r with
    | inr (img, _) => IImage imageName (Some img) ∈ new ∧ ∃ t, env.(ie_Image) t imageName = Some img
    | inl e => e ≠ ErrFuel
    end) t (d : St).
Proof.
  unfold resolveManifest. wp_step. apply wp_do. destruct (ie_parse env imageName); cbn [negb]; [|wp_step; apply wp_do; by wp_step].
  wp_step. wp_step. wp_step. wp_step. destruct (ie_Image env _ imageName) as [img|] eqn:Hi; wp_step; split; [done| |done|done].
  split; [set_solver|eauto].
Qed.

End Queries.

(** ** The content of layers *)

Section Provenance.
Context {Tree : Type} `{!Unpacker Tree} (env : IEnv) (im : ImageManager).

Abbreviation St := (Store Tree).

(** A compressed layer on disk after the calls [new]: it was there, or it is
    what was read of a body that was delivered. *)
Definition saved (d : St) (new : list IAct) (hash blob : string) : Prop :=
  d.(is_blobs) !! hash = Some blob ∨
  ∃ body, delivered new hash body ∧ (unpack body emptyTree).2 = true ∧ blob = consumed body.

(** The tree is what a body unpacks to without an error, in an empty directory:
    one that a peer or the registry delivered for the layer, or the bytes of
    its compressed form on disk. *)
Definition unpackedFrom (d : St) (new : list IAct) (hash : string) (tree : Tree) : Prop :=
  ∃ body, (delivered new hash body ∨ ∃ blob, saved d new hash blob ∧ body = whole blob) ∧ unpack body emptyTree = (tree, true).

(** Where what is on disk comes from. *)
Record provenance (d : St) (new : list IAct) (d' : St) : Prop := {
  pv_layers : ∀ hash tree, d'.(is_layers) !! hash = Some tree → d.(is_layers) !! hash = Some tree ∨ unpackedFrom d new hash tree;
  pv_blobs : ∀ hash blob, d'.(is_blobs) !! hash = Some blob → saved d new hash blob;
}.

Lemma saved_more d d1 new new1 new' hash blob :
  (∀ b, d1.(is_blobs) !! hash = Some b → saved d new hash b) → saved d1 new1 hash blob → new ⊆ new' → new1 ⊆ new' → saved d new' hash blob.
Proof.
  intros Hd [Hb|(body & Hb & Hr)] Hn Hn1.
  - destruct (Hd _ Hb) as [|(body & Hb' & Hr)]; [by left|]. right. exists body. split; [by eapply delivered_more|done].
  - right. exists body. split; [by eapply delivered_more|done].
Qed.

Lemma unpackedFrom_more d d1 new new1 new' hash tree :
  (∀ b, d1.(is_blobs) !! hash = Some b → saved d new hash b) → unpackedFrom d1 new1 hash tree → new ⊆ new' → new1 ⊆ new' →
  unpackedFrom d new' hash tree.
Proof.
  intros Hd (body & [Hb|(blob & Hs & ->)] & Hu) Hn Hn1; eexists; (split; [|exact Hu]).
  - left. by eapply delivered_more.
  - right. exists blob. split; [by eapply saved_more|done].
Qed.

Lemma provenance_refl d : provenance d [] d.
Proof. split; [by left|by left]. Qed.

Lemma provenance_trans d1 d2 d3 new new' : provenance d1 new d2 → provenance d2 new' d3 → provenance d1 (new ++ new') d3.
Proof.
  intros [Hl Hb] [Hl' Hb']. split.
  - intros h tree [H|H]%Hl'; [apply Hl in H as [H|H]|]; [by left|right..].
    + eapply unpackedFrom_more; [|exact H|set_solver|set_solver]. intros b ?. by left.
    + eapply unpackedFrom_more; [apply Hb|exact H|set_solver|set_solver].
  - intros h blob H%Hb'. eapply saved_more; [apply Hb|exact H|set_solver|set_solver].
Qed.

Lemma provenance_more d new new' d' : provenance d new d' → new ⊆ new' → provenance d new' d'.
Proof.
  intros [Hl Hb] Hn. split.
  - intros h tree [H|H]%Hl; [by left|right]. eapply (unpackedFrom_more _ _ []); [|exact H|set_solver|done]. intros b ?. by left.
  - intros h blob H%Hb. eapply (saved_more _ _ []); [|exact H|set_solver|done]. intros b ?. by left.
Qed.

(** ** Pulling all layers *)

Hypothesis tidy : ∀ t tmp, env.(ie_fails) t (ORemoveTmp tmp) = false.

(** The name of a new directory is not in use. *)
Definition unused (d : St) : Prop := ∀ t hash, d.(is_tmp) !! tmpName hash (env.(ie_now) t) = None.

(** What pulling layers does to the store. *)
Record pulled (d : St) (new : list IAct) (d' : St) : Prop := {
  pu_files : d'.(is_files) = d.(is_files);
  pu_mem : d'.(is_mem) = d.(is_mem);
  pu_config : d'.(is_config) = d.(is_config);
  pu_tmp : d'.(is_tmp) = d.(is_tmp);
  pu_layers : d.(is_layers) ⊆ d'.(is_layers);
  pu_from : provenance d new d';
}.

Lemma pulled_refl d : pulled d [] d.
Proof. split; try done. apply provenance_refl. Qed.

Lemma pulled_trans d1 d2 d3 new new' : pulled d1 new d2 → pulled d2 new' d3 → pulled d1 (new ++ new') d3.
Proof. intros [] []. split; try congruence; [by etransitivity|by eapply provenance_trans]. Qed.

Lemma pulled_more d new new' d' : pulled d new d' → new ⊆ new' → pulled d new' d'.
Proof. intros [] Hn. split; try done. by eapply provenance_more. Qed.

(** A change of the other parts of the store. *)
Lemma pulled_same d new d1 d2 : pulled d new d1 → d2.(is_files) = d1.(is_files) → d2.(is_mem) = d1.(is_mem) →
  d2.(is_config) = d1.(is_config) → d2.(is_tmp) = d1.(is_tmp) → d2.(is_layers) = d1.(is_layers) → d2.(is_blobs) = d1.(is_blobs) →
  pulled d new d2.
Proof. intros [?????[Hl Hb]] ??? ? Hl' Hb'. split; try congruence; [by rewrite Hl'|]. split; [by rewrite Hl'|by rewrite Hb']. Qed.

Lemma pulled_has hash d new d' : pulled d new d' → hasLayer hash d = true → hasLayer hash d' = true.
Proof. unfold hasLayer. rewrite !bool_decide_eq_true. intros Hp [t Ht]. exists t. eapply lookup_weaken; [done|apply Hp]. Qed.

Lemma ensured_pulled hash tmp d r new d' : d.(is_layers) !! hash = None → d.(is_tmp) !! tmp = None →
  ensured im hash tmp d r new d' →
  pulled d new d' ∧ d'.(is_inflight) = d.(is_inflight) ∧
  match r with inr path => path = layerPath im hash ∧ hasLayer hash d' = true | inl e => e ≠ ErrFuel end.
Proof.
  intros Hl Ht [Hf Hr].
  assert (∀ h blob, is_blobs d' !! h = Some blob → saved d new h blob) as Hblob.
  { intros h blob Hb. destruct (decide (h = hash)) as [->|Hne]; [by apply (fr_blob _ _ _ _ _ Hf) in Hb|].
    rewrite (fr_blobs _ _ _ _ _ Hf) in Hb by done. by left. }
  assert (is_tmp d' !! tmp = None → is_tmp d' = is_tmp d) as Htmp.
  { intros H0. apply map_eq. intros k. destruct (decide (k = tmp)) as [->|Hne]; [congruence|]. by apply (fr_tmp _ _ _ _ _ Hf). }
  destruct r as [e|path].
  - destruct Hr as (He & Hl' & Ht'). split_and!; [|apply Hf|done]. split; [apply Hf..|by apply Htmp|by rewrite Hl'|].
    split; [rewrite Hl'; by left|done].
  - destruct Hr as (-> & body & tree & Hs & Hu & Hl' & Ht'). split_and!; [|apply Hf|done|].
    + split; [apply Hf..|auto|rewrite Hl'; by apply insert_subseteq|]. split; [|done]. rewrite Hl'. intros h t.
      rewrite lookup_insert. case_decide as Hh; [|by left]. intros [= <-]. subst h. right. exists body. split; [|done].
      destruct Hs as [(blob & Hb & ->)|Hd]; [right; exists blob; split; [by left|done]|by left].
    + apply bool_decide_eq_true. rewrite Hl', lookup_insert_eq. eauto.
Qed.

Lemma wp_ensure hash layer t d : unused d →
  wp (ensureLayer env im hash layer) (λ r new d', pulled d new d' ∧ d'.(is_inflight) = d.(is_inflight) ∧
    match r with inr path => path = layerPath im hash ∧ hasLayer hash d' = true | inl e => e ≠ ErrFuel end) t d.
Proof.
  intros Hfr. destruct (is_layers d !! hash) as [tree|] eqn:Hl.
  - assert (hasLayer hash d = true) as Hp by (apply bool_decide_eq_true; rewrite Hl; eauto).
    unfold ensureLayer. wp_step. wp_step. rewrite Hp. wp_step. split_and!; auto using pulled_refl.
  - eapply wp_conseq; [apply wp_ensureLayer; [exact tidy|done|apply Hfr]|].
    intros r new d' He. eapply ensured_pulled; [done|apply Hfr|exact He].
Qed.

(** The hashes that were announced. *)
Definition announcedOf (todo : list (Layer * (string * bool))) : gset string :=
  list_to_set (omap (λ x : Layer * (string * bool), if x.2.2 then Some x.2.1 else None) todo).

Lemma wp_pull_loop done total todo t d : unused d →
  wp (pull_loop env im done total todo) (λ r new d', pulled d new d' ∧ d'.(is_inflight) = d.(is_inflight) ∖ announcedOf todo ∧
    match r with
    | inr paths => paths = map (λ x : Layer * (string * bool), layerPath im x.2.1) todo ∧ ∀ x, x ∈ todo → hasLayer x.2.1 d' = true
    | inl e => e ≠ ErrFuel
    end) t d.
Proof.
  revert done t d. induction todo as [|[layer [h b]] todo IH]; intros done t d Hfr; cbn [pull_loop].
  - wp_step. split_and!; [apply pulled_refl|set_solver|done|]. by intros x ?%elem_of_nil.
  - wp_step. apply wp_try. eapply wp_conseq; [by apply (wp_ensure h)|]. intros r new d1 (Hp1 & Hi1 & Hr1).
    set (d2 := if b then {| d1 with is_inflight := d1.(is_inflight) ∖ {[ h ]} |} else d1).
    assert (∀ Φ t, Φ (inr tt) [] d2 → wp (whenM b (markLayerDone h)) Φ t d1) as Hmark.
    { intros Φ t' H. destruct b; cbn [whenM]; [unfold markLayerDone; by wp_step|by wp_step]. }
    assert (pulled d new d2) as Hp2 by (eapply pulled_same; [exact Hp1|by destruct b..]).
    assert (∀ d3 : St, is_inflight d3 = is_inflight d2 ∖ announcedOf todo → is_inflight d3 = is_inflight d ∖ announcedOf ((layer, (h, b)) :: todo)) as Hi.
    { intros d3 ->. unfold d2, announcedOf. destruct b; cbn; rewrite Hi1; set_solver. }
    assert (unused d2) as Hfr2 by (intros t' h'; rewrite (pu_tmp _ _ _ Hp2); apply Hfr).
    wp_step. apply Hmark. destruct r as [e|path].
    + wp_step. apply wp_try. eapply wp_conseq; [by apply IH|]. intros r new' d3 (Hp3 & Hi3 & _). wp_step.
      split_and!; [eapply pulled_more; [by eapply pulled_trans|set_solver]|auto|done].
    + destruct Hr1 as [-> Hhas]. wp_step. wp_step. wp_step. eapply wp_conseq; [by apply IH|]. intros r new' d3 (Hp3 & Hi3 & Hr3).
      destruct r as [e|paths]; [split_and!; [eapply pulled_more; [by eapply pulled_trans|set_solver]|auto|done]|]. wp_step.
      destruct Hr3 as [-> Hr3]. split_and!; [eapply pulled_more; [by eapply pulled_trans|set_solver]|auto|done|].
      intros x [->|Hx]%elem_of_cons; [|auto]. cbn. eapply pulled_has; [exact Hp3|]. unfold d2. by destruct b.
Qed.

Lemma wp_announce i layers t d : wp (announce i layers) (λ r new d', pulled d new d' ∧
    match r with
    | inr infos => mapM ly_DiffID layers = Some infos.*1 ∧ d'.(is_inflight) = d.(is_inflight) ∪ announcedOf (zip layers infos)
    | inl e => e ≠ ErrFuel
    end) t d.
Proof.
  revert i t d. induction layers as [|layer layers IH]; intros i t d; cbn [announce].
  - wp_step. split_and!; [apply pulled_refl|done|]. unfold announcedOf. cbn. set_solver.
  - destruct (ly_DiffID layer) as [h|] eqn:Hh; [|wp_step; split; [apply pulled_refl|done]]. wp_step. wp_step. wp_step.
    set (d2 := if hasLayer h d then d else {| d with is_inflight := {[ h ]} ∪ d.(is_inflight) |}).
    assert (∀ Φ t, Φ (inr tt) [] d2 → wp (whenM (negb (hasLayer h d)) (markInflight h)) Φ t d) as Hmark.
    { intros Φ t' H. unfold d2 in H. destruct (hasLayer h d); cbn [whenM negb]; [by wp_step|unfold markInflight; by wp_step]. }
    assert (pulled d [] d2) as Hp2 by (eapply pulled_same; [apply pulled_refl|by unfold d2; destruct (hasLayer h d)..]).
    apply Hmark. wp_step. eapply wp_conseq; [apply IH|].
    intros [e|infos] new d3 [Hp3 Hr]; [split; [by apply (pulled_trans _ _ _ [] new Hp2)|done]|].
    wp_step. destruct Hr as [Hm Hi]. split_and!; [eapply pulled_more; [by eapply pulled_trans|set_solver]| |].
    + cbn. by rewrite Hh, Hm.
    + rewrite Hi. unfold d2, announcedOf. destruct (hasLayer h d); cbn; set_solver.
Qed.

(** All layers of the image are on disk. *)
Definition complete (img : Img) (paths : list string) (d : St) : Prop :=
  ∃ layers hashes, img.(img_Layers) = Some layers ∧ mapM ly_DiffID layers = Some hashes ∧
    paths = map (layerPath im) hashes ∧ Forall (λ h, hasLayer h d = true) hashes.

Lemma wp_layersFromImage img t d : unused d →
  wp (layersFromImage env im img) (λ r new d', pulled d new d' ∧
    match r with inr paths => complete img paths d' ∧ d'.(is_inflight) ⊆ d.(is_inflight) | inl e => e ≠ ErrFuel end) t d.
Proof.
  intros Hfr. unfold layersFromImage. destruct (img_Layers img) as [layers|] eqn:Hl; [|wp_step; split; [apply pulled_refl|done]].
  wp_step. eapply wp_conseq; [apply wp_endpoints|]. intros r new d' (eps & -> & ->). wp_step. wp_step.
  set (d1 := {| d with is_selector := newPeerSelector eps |}).
  assert (pulled d [] d1) as Hp1 by (eapply pulled_same; [apply pulled_refl|done..]).
  wp_step. eapply wp_conseq; [apply wp_announce|].
  intros [e|infos] new' d2 [Hp2 Hr]; (assert (pulled d new' d2) as Hp by apply (pulled_trans _ _ _ [] _ Hp1 Hp2)).
  { split; [eapply pulled_more; [exact Hp|set_solver]|done]. }
  destruct Hr as [Hm Hi]. pose proof (length_mapM _ _ _ Hm) as Hlen. rewrite length_fmap in Hlen.
  eapply wp_conseq; [apply wp_pull_loop; intros t' h; rewrite (pu_tmp _ _ _ Hp); apply Hfr|].
  intros r new2 d3 (Hp3 & Hi3 & Hr). split; [eapply pulled_more; [by eapply pulled_trans|set_solver]|].
  destruct r as [e|paths]; [done|]. destruct Hr as [-> Hr]. split; [|rewrite Hi3, Hi; cbn; set_solver].
  assert (map (λ x : Layer * (string * bool), x.2.1) (zip layers infos) = infos.*1) as Hz.
  { clear -Hlen. revert infos Hlen. induction layers; intros [|? infos] Hlen; cbn in *; [done..|]. f_equal. apply IHlayers. lia. }
  exists layers, infos.*1. split_and!; [done|done| |].
  - rewrite <- Hz. by rewrite map_map.
  - rewrite <- Hz. apply Forall_map. apply Forall_forall. auto.
Qed.

(** ** Pulling an image *)

(** The paths of a pull are layers on disk: those of an image that the registry
    or the memory gave, or those of the list on disk. *)
Definition pullOf (imageName : string) (d : St) (new : list IAct) (paths : list string) (d' : St) : Prop :=
  (loadLayers env im imageName d = Some paths ∧ d'.(is_files) = d.(is_files)) ∨
  ∃ img, (d.(is_mem) !! imageName = Some img ∨ IImage imageName (Some img) ∈ new) ∧ complete img paths d'.

Definition pullEnds (imageName : string) (d : St) (r : IErr + (list string * bool)) (new : list IAct) (d' : St) : Prop :=
  d.(is_layers) ⊆ d'.(is_layers) ∧ d'.(is_tmp) = d.(is_tmp) ∧ provenance d new d' ∧
  match r with inr (paths, _) => pullOf imageName d new paths d' | inl e => e ≠ ErrFuel end.

Lemma pullEnds_same imageName d r new : match r with inr (paths, _) => loadLayers env im imageName d = Some paths | inl e => e ≠ ErrFuel end →
  pullEnds imageName d r new d.
Proof.
  intros H. split_and!; [done..|eapply provenance_more; [apply provenance_refl|set_solver]|].
  destruct r as [|[paths b]]; [done|]. by left.
Qed.

Lemma pullEnds_more imageName d r new new' d' : pullEnds imageName d r new d' → new ⊆ new' → pullEnds imageName d r new' d'.
Proof.
  intros (H1 & H2 & H3 & H4) Hs. split_and!; try done; [by eapply provenance_more|]. destruct r as [|[paths b]]; [done|].
  destruct H4 as [?|(img & [?|?] & ?)]; [by left|right; exists img..]; set_solver.
Qed.

Lemma pulled_ends imageName d r new new' d' : pulled d new d' → new ⊆ new' →
  match r with inr (paths, _) => pullOf imageName d new' paths d' | inl e => e ≠ ErrFuel end → pullEnds imageName d r new' d'.
Proof. intros Hp Hn H. split_and!; [apply Hp|apply Hp|eapply provenance_more; [apply Hp|done]|done]. Qed.

(** A pull of the layers of an image that is in memory. *)
Lemma wp_layersOf imageName img t d b : unused d → d.(is_mem) !! imageName = Some img →
  wp (paths ← layersFromImage env im img; mret (paths, b)) (pullEnds imageName d) t d.
Proof.
  intros Hfr Hm. wp_step. eapply wp_conseq; [by apply wp_layersFromImage|]. intros [e|paths] new d' [Hp Hr].
  - by eapply pulled_ends.
  - wp_step. eapply pulled_ends; [exact Hp|set_solver|]. right. exists img. split; [by left|apply Hr].
Qed.

Lemma wp_pullCached imageName pullPolicy t d : unused d →
  wp (pullCached env im imageName pullPolicy) (λ r new d',
    match r with
    | inr (Some x) => x.2 = true ∧ pullEnds imageName d (inr x) new d'
    | inr None => d' = d
    | inl e => pullEnds imageName d (inl e) new d'
    end) t d.
Proof.
  intros Hfr. unfold pullCached, loadLayerCache. wp_step. wp_step. wp_step. wp_step.
  destruct (loadLayers env im imageName d) as [paths|] eqn:Hload.
  - destruct (is_mem d !! imageName); (wp_step; apply wp_do; wp_step; split; [done|by apply pullEnds_same]).
  - destruct (is_mem d !! imageName) as [img|] eqn:Hm.
    + wp_step. apply wp_try.
      eapply wp_conseq; [by apply wp_layersFromImage|]. intros r' new' d'' [Hp Hr]. wp_step. apply wp_do. destruct r' as [e|paths].
      * wp_step. eapply pulled_ends; [exact Hp|set_solver|done].
      * wp_step. split; [done|]. eapply pulled_ends; [exact Hp|set_solver|]. right. exists img. split; [by left|apply Hr].
    + case_decide; [|by wp_step]. wp_step. apply wp_do. wp_step. by apply pullEnds_same.
Qed.

Lemma wp_pullCurrent imageName t d :
  wp (pullCurrent env im imageName) (λ r new d', d' = d ∧
    match r with
    | inr (Some x) => x.2 = true ∧ pullEnds imageName d (inr x) new d
    | inr None => True
    | inl e => pullEnds imageName d (inl e) new d
    end) t d.
Proof.
  unfold pullCurrent, loadLayerCache, loadIndexDigest. wp_step. wp_step. destruct (loadLayers env im imageName d) as [paths|] eqn:Hl; [|by wp_step].
  wp_step. wp_step. case_decide; [by wp_step|]. wp_step. eapply wp_conseq; [apply wp_resolveManifestDigest|].
  intros r new d' [[x ->] ->]. destruct x as [digest|]; [|by wp_step]. case_decide.
  - wp_step. apply wp_short16; [split; [done|by apply pullEnds_same]|]. wp_step. apply wp_do. wp_step. split; [done|]. split; [done|by apply pullEnds_same].
  - wp_step. apply wp_short16; [split; [done|by apply pullEnds_same]|]. wp_step. apply wp_short16; [split; [done|by apply pullEnds_same]|].
    by wp_step.
Qed.

Lemma wp_pullOffline imageName t d : unused d → wp (pullOffline env im imageName) (pullEnds imageName d) t d.
Proof.
  intros Hfr. unfold pullOffline, loadLayerCache. wp_step. wp_step. destruct (is_mem d !! imageName) as [img|] eqn:Hm; [by apply wp_layersOf|].
  wp_step. wp_step. destruct (loadLayers env im imageName d) eqn:Hl; (wp_step; apply wp_do; wp_step; by apply pullEnds_same).
Qed.

(** Writing what is remembered leaves the layers. *)
Definition sameLayers (d d' : St) : Prop :=
  d'.(is_layers) = d.(is_layers) ∧ d'.(is_blobs) = d.(is_blobs) ∧ d'.(is_tmp) = d.(is_tmp).

Lemma wp_writeManifest file data t d : wp (writeManifest env file data) (λ r new d', r = inr tt ∧ sameLayers d d') t d.
Proof.
  unfold writeManifest. wp_step. wp_step. wp_step. apply wp_disk; intros _; destruct (ie_left env t file); cbn [negb whenM]; by wp_step.
Qed.

Lemma wp_remember imageName img indexDigest paths t d :
  wp (remember env imageName img indexDigest paths) (λ r new d', r = inr tt ∧ sameLayers d d') t d.
Proof.
  assert (∀ d1 d2 d3, sameLayers d1 d2 → sameLayers d2 d3 → sameLayers d1 d3) as Htrans.
  { intros d1 d2 d3 (? & ? & ?) (? & ? & ?). split_and!; congruence. }
  unfold remember, saveLayerCache, saveIndexDigest, saveManifestDigest, saveImageConfig. wp_step.
  eapply wp_conseq; [apply wp_writeManifest|]. intros r new d1 [-> H1]. wp_step.
  eapply wp_conseq; [instantiate (1 := λ r new d', r = inr tt ∧ sameLayers d1 d'); apply wp_when; [intros _; apply wp_writeManifest|done]|].
  intros r new2 d2 [-> H2]. wp_step.
  eapply wp_conseq; [instantiate (1 := λ r new d', r = inr tt ∧ sameLayers d2 d'); destruct (img_Digest img); [apply wp_writeManifest|by wp_step]|].
  intros r new3 d3 [-> H3].
  eapply wp_conseq; [instantiate (1 := λ r new d', r = inr tt ∧ sameLayers d3 d'); destruct (img_Config img); [apply wp_writeManifest|by wp_step]|].
  intros r new4 d4 [-> H4]. split; eauto.
Qed.

Lemma wp_pullFresh imageName t d : unused d → wp (pullFresh env im imageName) (pullEnds imageName d) t d.
Proof.
  intros Hfr. unfold pullFresh. wp_step. apply wp_try. eapply wp_conseq; [apply wp_resolveManifest|]. intros r new d' [-> Hr].
  destruct r as [e|[img digest]].
  - eapply wp_conseq; [by apply wp_pullOffline|]. intros r new' d' H. eapply pullEnds_more; [exact H|set_solver].
  - wp_step. wp_step. wp_step. set (d1 := {| d with is_mem := _ |}).
    eapply wp_conseq; [by apply (wp_layersFromImage img _ d1)|]. intros r2 new2 d2 [Hp Hc].
    assert (provenance d new2 d2) as Hpv by (destruct (pu_from _ _ _ Hp) as [Hg1 Hg2]; split; [exact Hg1|exact Hg2]).
    destruct r2 as [e|paths].
    + split_and!; [apply Hp|apply Hp|eapply provenance_more; [exact Hpv|set_solver]|done].
    + wp_step. eapply wp_conseq; [apply wp_remember|]. intros r new3 d3 [-> (Hl & Hb & Ht)]. wp_step. split_and!.
      * rewrite Hl. apply Hp.
      * rewrite Ht. apply Hp.
      * eapply (provenance_more d new2); [|set_solver]. destruct Hpv as [Hg1 Hg2]. split; rewrite ?Hl, ?Hb; [exact Hg1|exact Hg2].
      * right. exists img. split; [right; destruct Hr; set_solver|]. destruct Hc as [(layers & hashes & ? & ? & ? & Hall) _].
        exists layers, hashes. split_and!; try done. unfold hasLayer in *. by rewrite Hl.
Qed.

Lemma wp_PullWithOptions imageName pullPolicy t d : unused d → wp (PullWithOptions env im imageName pullPolicy) (pullEnds imageName d) t d.
Proof.
  intros Hfr. unfold PullWithOptions. set (policy := if decide _ then _ else _). wp_step.
  assert (∀ t, wp (current ← pullCurrent env im imageName; match current with Some r => mret r | None => pullFresh env im imageName end)
    (pullEnds imageName d) t d) as Hgo.
  { intros t'. wp_step. eapply wp_conseq; [apply wp_pullCurrent|]. intros [e|[x|]] new d' [-> H]; [done| |].
    - wp_step. rewrite (right_id_L [] (++)). apply H.
    - eapply wp_conseq; [by apply wp_pullFresh|]. intros r new' d' H'. eapply pullEnds_more; [exact H'|set_solver]. }
  destruct (usesCache policy); [|wp_step; apply Hgo]. eapply wp_conseq; [by apply wp_pullCached|]. intros [e|[x|]] new d' H; [done| |].
  - wp_step. rewrite (right_id_L [] (++)). apply H.
  - subst d'. eapply wp_conseq; [apply Hgo|]. intros r new' d' H'. eapply pullEnds_more; [exact H'|set_solver].
Qed.
End Provenance.

(** ** Results *)


(** The requests to the registry for layers. *)
Definition isUpstream (a : IAct) : bool := match a with IUpstream _ _ => true | _ => false end.
Definition upstreams (new : list IAct) : nat := length (List.filter isUpstream new).

Lemma upstreams_app a b : upstreams (a ++ b) = upstreams a + upstreams b.
Proof. unfold upstreams. by rewrite List.filter_app, List.length_app. Qed.

Lemma upstreams_none new : Forall (λ a, isUpstream a = false) new → upstreams new = 0.
Proof. induction 1 as [|a l Ha _ IH]; [done|]. unfold upstreams in *. cbn. by rewrite Ha. Qed.

Section Bounded.
Context {Tree : Type} `{!Unpacker Tree} (env : IEnv) (im : ImageManager).

Abbreviation quiet m := (only (λ a, isUpstream a = false) m).
Abbreviation TM := (SE (TState IAct (Store Tree)) IErr).

Lemma quiet_bind {A B} (m : TM A) (f : A → TM B) n t d : quiet m →
  (∀ a t d, wp (f a) (λ _ new _, upstreams new ≤ n) t d) → wp (m ≫= f) (λ _ new _, upstreams new ≤ n) t d.
Proof.
  intros Hm Hf. wp_step. eapply wp_conseq; [apply Hm|]. intros [e|a] new d' Hn%upstreams_none; [cbn beta iota; lia|].
  eapply wp_conseq; [apply Hf|]. intros r new' d'' H. cbn beta in H. rewrite upstreams_app. lia.
Qed.

Lemma quiet_bound {A} (m : TM A) n t d : quiet m → wp m (λ _ new _, upstreams new ≤ n) t d.
Proof. intros Hm. eapply wp_conseq; [apply Hm|]. intros r new d' Hn%upstreams_none. cbn beta. lia. Qed.

Lemma plain_quiet a : match a with IPeerGet _ _ _ | IUpstream _ _ => True | _ => isUpstream a = false end.
Proof. by destruct a. Qed.

Lemma upstream_bound attempts hash layer tmp t d :
  wp (upstream_loop env im attempts hash layer tmp : TM string) (λ _ new _, upstreams new ≤ length attempts) t d.
Proof.
  pose proof plain_quiet as Hp. revert t d. induction attempts as [|a attempts IH]; intros t d; cbn [upstream_loop length].
  - apply quiet_bound, only_bind; [by apply calls_disk|]. intros _. apply only_throw.
  - apply quiet_bind.
    { destruct (0 <? a); cbn [whenM]; [|apply only_ret]. apply only_bind; [by apply calls_event|]. intros _.
      apply only_bind; [by apply calls_renewTmp|]. intros _. by apply only_do. }
    intros _ t1 d1. apply quiet_bind; [by apply calls_event|]. intros _ t2 d2. wp_step. wp_step.
    set (rc := ie_upstream env t2 layer). apply (wp_conseq _ (λ _ new _, upstreams new ≤ length attempts)).
    + apply quiet_bind; [destruct rc; [by apply calls_saveAndExtract|apply only_ret]|]. intros [] t3 d3; [|apply IH].
      apply quiet_bound. by apply calls_commitLayer.
    + intros r new d' H. cbn beta in H. change (IUpstream hash rc :: new) with ([IUpstream hash rc] ++ new). rewrite upstreams_app. cbn. lia.
Qed.

(** A layer costs the registry at most three requests, whatever the registry,
    the peers and the disk do. *)
Theorem ensure_bound hash layer t d :
  wp (ensureLayer env im hash layer : TM string) (λ _ new _, upstreams new ≤ maxAttempts) t d.
Proof.
  pose proof plain_quiet as Hp. assert (∀ t ep h, isUpstream (IPeerGet ep h (ie_peerGet env t ep h)) = false) as Hpeer by done.
  assert (∀ tmp t d, wp (upstream_loop env im (seq 0 maxAttempts) hash layer tmp : TM string) (λ _ new _, upstreams new ≤ maxAttempts) t d) as Hup.
  { intros tmp t' d'. eapply wp_conseq; [apply upstream_bound|]. done. }
  unfold ensureLayer, orElse. apply quiet_bind; [apply only_getD|]. intros [] t1 d1; [apply quiet_bound, only_ret|].
  apply quiet_bind; [apply only_askT|]. intros now t2 d2.
  apply quiet_bind; [unfold makeTmp; apply only_bind; [by apply calls_disk|]; intros []; [apply only_ret|apply only_throw]|]. intros _ t3 d3.
  apply quiet_bind; [by apply calls_fromBlob|]. intros [path|] t4 d4; [apply quiet_bound, only_ret|].
  apply quiet_bind; [apply only_getD|]. intros [sel|] t5 d5; [|apply Hup].
  apply quiet_bind; [by apply calls_fromInflight|]. intros [path|] t6 d6; [apply quiet_bound, only_ret|].
  apply quiet_bind; [unfold fromPeers; apply only_bind; [apply only_getD|]; intros n; by apply calls_peers_loop|].
  intros [path|] t7 d7; [apply quiet_bound, only_ret|apply Hup].
Qed.
End Bounded.

Lemma usesCache_spec p : p ∈ ["IfNotPresent"; "Never"] → usesCache p = true.
Proof. unfold usesCache. rewrite !elem_of_cons, elem_of_nil. by intros [->|[->|[]]]. Qed.

Lemma not_cached p : p ∉ ["IfNotPresent"; "Never"] → usesCache p = false.
Proof. unfold usesCache. rewrite !elem_of_cons, elem_of_nil. intros H. rewrite !bool_decide_eq_false_2 by tauto. done. Qed.

Lemma pull_on_disk {Tree} `{!Unpacker Tree} env im imageName pullPolicy paths t (d : Store Tree) :
  pullPolicy ∈ ["IfNotPresent"; "Never"] → loadLayers env im imageName d = Some paths →
  wp (PullWithOptions env im imageName pullPolicy)
    (λ r new d', r = inr (paths, true) ∧ new = [IEvent "Normal" "ImageCached"] ∧ d' = d) t d.
Proof.
  intros Hu%usesCache_spec Hl. unfold PullWithOptions. rewrite decide_False, Hu by (by intros ->).
  wp_step. unfold pullCached, loadLayerCache. wp_step. wp_step. wp_step. wp_step. rewrite Hl.
  destruct (is_mem d !! imageName); (wp_step; apply wp_do; wp_step; by wp_step).
Qed.

(** The pull policies. With [IfNotPresent] and [Never] an image whose
    layers are on disk is used without a call; with [Never] an image that is
    not cached is refused without a call. Otherwise an image whose layers are on
    disk is used after one request when the digest of the index is the one that
    was saved (and has 16 characters at least), and also when the registry does not answer. None of this changes
    the store. *)
Theorem pull_policy {Tree} `{!Unpacker Tree} env im imageName pullPolicy t (d : Store Tree) :
  let pull := PullWithOptions env im imageName pullPolicy in
  let digest := loadDigest (indexDigestFile imageName) d in
  (∀ paths, pullPolicy ∈ ["IfNotPresent"; "Never"] → loadLayers env im imageName d = Some paths →
    wp pull (λ r new d', r = inr (paths, true) ∧ new = [IEvent "Normal" "ImageCached"] ∧ d' = d) t d) ∧
  (pullPolicy = "Never" → d.(is_mem) !! imageName = None → loadLayers env im imageName d = None →
    wp pull (λ r new d', r = inl ErrNotCached ∧ new = [IEvent "Error" "ImageMissing"] ∧ d' = d) t d) ∧
  (∀ paths, pullPolicy ∉ ["IfNotPresent"; "Never"] → loadLayers env im imageName d = Some paths →
    env.(ie_parse) imageName = true → env.(ie_Head) t imageName = Some digest → 16 ≤ len digest →
    wp pull (λ r new d', r = inr (paths, true) ∧ new = [IHead imageName (Some digest); IEvent "Normal" "ImageCached"] ∧ d' = d) t d) ∧
  (∀ paths, pullPolicy ∉ ["IfNotPresent"; "Never"] → loadLayers env im imageName d = Some paths → d.(is_mem) !! imageName = None →
    (∀ t, env.(ie_Head) t imageName = None) → (∀ t, env.(ie_Image) t imageName = None) →
    wp pull (λ r new d', r = inr (paths, true) ∧ upstreams new = 0 ∧ d' = d) t d).
Proof.
  assert (∀ p, usesCache p = true → (if decide (p = "") then "Always" else p) = p) as Hp.
  { intros p Hu. rewrite decide_False; [done|]. by intros ->. }
  assert (∀ p, usesCache p = false → usesCache (if decide (p = "") then "Always" else p) = false) as Hp'.
  { intros p Hu. by case_decide. }
  split_and!; [intros paths; by apply pull_on_disk|..]; unfold PullWithOptions.
  - intros -> Hm Hl. rewrite Hp by done. change (usesCache "Never") with true. wp_step. unfold pullCached, loadLayerCache. wp_step. wp_step. wp_step. wp_step.
    rewrite Hl, Hm, decide_True by done. wp_step. apply wp_do. by wp_step.
  - intros paths Hu%not_cached Hl Hparse Hh Hlen. rewrite Hp' by done. wp_step. wp_step. wp_step.
    unfold pullCurrent, loadLayerCache, loadIndexDigest. wp_step. wp_step. rewrite Hl. wp_step. wp_step.
    rewrite decide_False by (intros H; rewrite H in Hlen; cbn in Hlen; lia). unfold resolveManifestDigest. rewrite Hparse. cbn [negb].
    wp_step. wp_step. wp_step. rewrite !(right_id_L [] (++)), Hh. wp_step. rewrite decide_True by done. wp_step.
    unfold short16. destruct (Nat.ltb_spec (len (loadDigest (indexDigestFile imageName) d)) 16); [lia|]. wp_step. wp_step. apply wp_do.
    wp_step. by wp_step.
  - intros paths Hu%not_cached Hl Hm Hh Hi. rewrite Hp' by done. wp_step. wp_step. wp_step.
    unfold pullCurrent, loadLayerCache, loadIndexDigest. wp_step. wp_step. rewrite Hl. wp_step. wp_step.
    assert (∀ t pre, upstreams pre = 0 → wp (pullFresh env im imageName)
      (λ r new d', r = inr (paths, true) ∧ upstreams (pre ++ new) = 0 ∧ d' = d) t d) as Hfresh.
    { intros t' pre Hpre. unfold pullFresh, resolveManifest, pullOffline, loadLayerCache. wp_step. apply wp_try. wp_step. apply wp_do.
      destruct (ie_parse env imageName); cbn [negb].
      - wp_step. wp_step. wp_step. wp_step. rewrite Hi. wp_step. wp_step. wp_step. rewrite Hm. wp_step. wp_step. rewrite Hl.
        wp_step. apply wp_do. wp_step. split_and!; [done| |done]. by rewrite upstreams_app, Hpre.
      - wp_step. apply wp_do. wp_step. wp_step. wp_step. rewrite Hm. wp_step. wp_step. rewrite Hl. wp_step. apply wp_do. wp_step.
        split_and!; [done| |done]. by rewrite upstreams_app, Hpre. }
    case_decide; [wp_step; by apply (Hfresh _ [])|]. unfold resolveManifestDigest. destruct (ie_parse env imageName); cbn [negb].
    + wp_step. wp_step. wp_step. rewrite Hh. wp_step. wp_step. rewrite Hi. wp_step. change (None ≫= img_Digest) with (@None string).
      cbn iota. wp_step. by apply (Hfresh _ [_; _]).
    + wp_step. wp_step. wp_step. by apply (Hfresh _ []).
Qed.

(** ** What is remembered is found again *)

Section Remembered.
Context {Tree : Type} `{!Unpacker Tree} (env : IEnv) (im : ImageManager).
Hypothesis writes : ∀ t file, env.(ie_fails) t (OWrite file) = false.

Abbreviation St := (Store Tree).

Lemma wp_written file data (Φ : IErr + () → list IAct → St → Prop) t d :
  (∀ new, Φ (inr tt) new {| d with is_files := <[file := data]> d.(is_files) |}) → wp (writeManifest env file data) Φ t d.
Proof.
  intros H. unfold writeManifest. wp_step. wp_step. wp_step. apply wp_disk; [|by rewrite writes]. intros _.
  destruct (ie_left env t file); cbn [negb whenM]; wp_step; apply H.
Qed.

Lemma file_names_differ imageName :
  layerCacheFile imageName ≠ indexDigestFile imageName ∧ layerCacheFile imageName ≠ manifestDigestFile imageName ∧
  layerCacheFile imageName ≠ imageConfigFile imageName ∧ indexDigestFile imageName ≠ manifestDigestFile imageName ∧
  indexDigestFile imageName ≠ imageConfigFile imageName.
Proof.
  unfold layerCacheFile, indexDigestFile, manifestDigestFile, imageConfigFile.
  split_and!; intros H%(app_inj_length _ _ _ _ eq_refl); by destruct H.
Qed.

Lemma wp_remembered imageName img indexDigest paths t (d : St) :
  wp (remember env imageName img indexDigest paths) (λ r new d', r = inr tt ∧ d'.(is_layers) = d.(is_layers) ∧
    d'.(is_files) !! layerCacheFile imageName = Some (env.(ie_marshal) (map baseName paths)) ∧
    (indexDigest ≠ "" → d'.(is_files) !! indexDigestFile imageName = Some indexDigest)) t d.
Proof.
  destruct (file_names_differ imageName) as (H1 & H2 & H3 & H4 & H5).
  unfold remember, saveLayerCache, saveIndexDigest, saveManifestDigest, saveImageConfig. wp_step. apply wp_written. intros new. wp_step.
  set (Good := λ d' : St, is_layers d' = is_layers d ∧ d'.(is_files) !! layerCacheFile imageName = Some (env.(ie_marshal) (map baseName paths))).
  set (Index := λ d' : St, indexDigest ≠ "" → d'.(is_files) !! indexDigestFile imageName = Some indexDigest).
  apply (wp_conseq _ (λ r new d', r = inr tt ∧ Good d' ∧ Index d')).
  { apply wp_when.
    - intros _. apply wp_written. intros new'. unfold Good, Index. cbn. split_and!; [done|done| |intros _; by rewrite lookup_insert_eq].
      by rewrite lookup_insert_ne, lookup_insert_eq.
    - intros Hb%negb_false_iff%bool_decide_eq_true. unfold Good, Index. cbn. rewrite lookup_insert_eq. done. }
  intros r new2 d2 (-> & [Hl Hf] & Hi). wp_step. apply (wp_conseq _ (λ r new d', r = inr tt ∧ Good d' ∧ Index d')).
  { destruct (img_Digest img); [|by wp_step]. apply wp_written. intros new'. unfold Good, Index. cbn. rewrite !lookup_insert_ne by congruence. done. }
  intros r new3 d3 (-> & [Hl3 Hf3] & Hi3). apply (wp_conseq _ (λ r new d', r = inr tt ∧ Good d' ∧ Index d')).
  { destruct (img_Config img); [|by wp_step]. apply wp_written. intros new'. unfold Good, Index. cbn. rewrite !lookup_insert_ne by congruence. done. }
  intros r new4 d4 (-> & [Hl4 Hf4] & Hi4). done.
Qed.
End Remembered.

Lemma baseName_layerPath im h : isRooted im.(im_layerCache) = true → plain h → baseName (layerPath im h) = h.
Proof.
  intros Hr Hh. unfold baseName, layerPath. destruct (pathJoin_names (im_layerCache im) [h] Hr) as [_ ->]; [by apply Forall_singleton|done|].
  by rewrite last_snoc.
Qed.

(** An image that was pulled is found again: when its description could be
    written, the next pull with [IfNotPresent] returns the same layers and
    calls nobody. *)
Theorem pull_remembered {Tree} `{!Unpacker Tree} env im imageName pullPolicy t (d : Store Tree) :
  (∀ t tmp, env.(ie_fails) t (ORemoveTmp tmp) = false) → unused env d →
  (∀ t file, env.(ie_fails) t (OWrite file) = false) →
  (∀ l, env.(ie_unmarshal) (env.(ie_marshal) l) = Some l) →
  isRooted im.(im_layerCache) = true →
  (∀ t img layers, env.(ie_Image) t imageName = Some img → img.(img_Layers) = Some layers →
    Forall (λ l, match l.(ly_DiffID) with Some h => plain h | None => True end) layers) →
  wp (PullWithOptions env im imageName pullPolicy) (λ r new d',
    ∀ paths, r = inr (paths, false) →
      wp (PullWithOptions env im imageName "IfNotPresent")
        (λ r' new' d'', r' = inr (paths, true) ∧ new' = [IEvent "Normal" "ImageCached"] ∧ d'' = d') (t ++ new) d') t d.
Proof.
  intros Htidy Hfr Hw Hj Hr Hplain.
  assert (∀ t, wp (pullFresh env im imageName) (λ r new d', ∀ paths, r = inr (paths, false) → loadLayers env im imageName d' = Some paths) t d) as Hfresh.
  { intros t'. unfold pullFresh. wp_step. apply wp_try. eapply wp_conseq; [apply wp_resolveManifest|]. intros r new d' [-> Hres].
    destruct r as [e|[img digest]].
    - unfold pullOffline, loadLayerCache. wp_step. wp_step. destruct (is_mem d !! imageName) as [img|] eqn:Hm.
      + wp_step. eapply wp_conseq; [by apply (wp_layersFromImage env im)|]. intros [?|paths] new' d' _; [done|]. wp_step. done.
      + wp_step. wp_step. destruct (loadLayers env im imageName d); wp_step; apply wp_do; by wp_step.
    - destruct Hres as (_ & t1 & Himg). wp_step. wp_step. wp_step.
      eapply wp_conseq; [by apply (wp_layersFromImage env im)|]. intros [e|paths] new2 d2 [_ Hc]; [done|].
      destruct Hc as [(layers & hashes & Hls & Hm & -> & Hall) _]. wp_step.
      eapply wp_conseq; [by apply (wp_remembered env)|]. intros r new3 d3 (-> & Hl & Hf & _). wp_step. intros paths [= <-].
      unfold loadLayers. rewrite Hf. cbn [mbind option_bind]. rewrite Hj. cbn [mbind option_bind].
      assert (map baseName (map (layerPath im) hashes) = hashes) as ->.
      { specialize (Hplain _ _ _ Himg Hls). apply mapM_Some in Hm. clear -Hm Hr Hplain.
        induction Hm as [|l h layers hashes Hlh Hm IH]; [done|]. apply Forall_cons in Hplain as [Hp Hpl]. rewrite Hlh in Hp.
        cbn [map]. rewrite baseName_layerPath by done. f_equal. by apply IH. }
      assert (forallb (λ h, hasLayer h d3) hashes = true) as ->; [|done].
      apply forallb_forall. intros h Hin%list_elem_of_In. rewrite Forall_forall in Hall. unfold hasLayer in *. rewrite Hl. by apply Hall. }
  apply (wp_conseq _ (λ r new d', ∀ paths, r = inr (paths, false) → loadLayers env im imageName d' = Some paths)).
  2: { intros r new d' H paths Hrp. apply pull_on_disk; [apply list_elem_of_here|by apply H]. }
  unfold PullWithOptions. set (policy := if decide _ then _ else _). wp_step.
  assert (∀ t, wp (current ← pullCurrent env im imageName; match current with Some r => mret r | None => pullFresh env im imageName end)
    (λ r new d', ∀ paths, r = inr (paths, false) → loadLayers env im imageName d' = Some paths) t d) as Hgo.
  { intros t'. wp_step. eapply wp_conseq; [by apply (wp_pullCurrent env im)|]. intros [e|[x|]] new d' [-> H]; [done| |].
    - wp_step. intros paths [= ->]. by destruct H.
    - eapply wp_conseq; [by apply Hfresh|]. done. }
  destruct (usesCache policy); [|wp_step; apply Hgo]. eapply wp_conseq; [by apply (wp_pullCached env im)|].
  intros [e|[x|]] new d' H; [done| |].
  - wp_step. intros paths [= ->]. by destruct H.
  - subst d'. eapply wp_conseq; [apply Hgo|]. done.
Qed.

(** ** Unpacking with [extractLayer] *)

Section ExtractUnpacker.
Context (gunzip : Body → option Tar) (readOf : Body → string) (xenv : XEnv).

(** The directory of the layer is the only one in sight. *)
Definition layerDir : string := "/layer".
Definition emptyLayer : LFS := {| l_nodes := {[ ["layer"] := NDir ]}; l_data := ∅ |}.

Definition unpackLayer (body : Body) (fs : LFS) : LFS * bool :=
  match gunzip body with
  | None => (fs, false)
  | Some tr => match extractLayer xenv layerDir tr fs with (fs, inr _) => (fs, true) | (fs, inl _) => (fs, false) end
  end.

Definition extractUnpacker : Unpacker LFS := {| emptyTree := emptyLayer; unpack := unpackLayer; consumed := readOf |}.

Lemma emptyLayer_ready : ready emptyLayer ["layer"].
Proof.
  assert (∀ p n, nodeAt emptyLayer p = Some n → n = NDir ∧ (p = [] ∨ p = ["layer"])) as Hn.
  { intros [|x p] n; cbn; [naive_solver|]. intros [<- <-]%lookup_singleton_Some. auto. }
  split.
  - intros q Hq. repeat (apply elem_of_cons in Hq as [->|Hq]; [reflexivity|]). by apply elem_of_nil in Hq.
  - intros p Hb Hne. destruct (nodeAt emptyLayer p) as [n|] eqn:E; [|done]. apply Hn in E as [_ [Hp|Hp]]; subst; done.
  - intros p i [H _]%Hn. done.
Qed.

(** A layer that was unpacked shows the entries of its archive. *)
Lemma unpackLayer_exact body tree : unpackLayer body emptyLayer = (tree, true) →
  ∃ tr, gunzip body = Some tr ∧ (straight layerDir [] tr.(tar_entries) = true → NoDup (omap (placeOf layerDir) tr.(tar_entries)) →
    ∀ e, e ∈ tr.(tar_entries) → shows layerDir tree e).
Proof.
  unfold unpackLayer. destruct (gunzip body) as [tr|]; [|done]. destruct (extractLayer xenv layerDir tr emptyLayer) as [fs [e|[]]] eqn:He; [done|].
  intros [= <-]. exists tr. split; [done|]. intros Hs Hnd.
  assert (cleanComponents layerDir = ["layer"]) as HD by (vm_compute; reflexivity).
  pose proof (entries_unpacked xenv emptyLayer layerDir eq_refl ltac:(by rewrite HD) tr.(tar_entries) [] [] emptyLayer fs) as H.
  rewrite HD in H. unfold extractLayer, mbind, SE_bind in He. destruct (forM _ _ emptyLayer) as [fs1 [err|[]]] eqn:Hf; [done|].
  destruct (tar_eof tr); [|done]. injection He as ->. apply H; try done; [by apply ready_contained, emptyLayer_ready|].
  split; [by intros e ?%elem_of_nil|]. rewrite HD. intros p n Hp Hn Hd. exfalso. destruct (decide (p = ["layer"])) as [->|Hne].
  - rewrite (ready_dir _ _ emptyLayer_ready) in Hn. congruence.
  - rewrite (rd_empty _ _ emptyLayer_ready) in Hn by done. done.
Qed.
End ExtractUnpacker.

(** ** On examples *)

(** A layer whose content is its text. *)
#[local] Instance textUnpacker : Unpacker string :=
  {| emptyTree := ""; unpack := λ body t, (t +:+ b_bytes body, negb (b_broken body)); consumed := b_bytes |}.

Definition emptyStore : Store string :=
  {| is_layers := ∅; is_tmp := ∅; is_blobs := ∅; is_files := ∅; is_mem := ∅; is_config := ∅; is_inflight := ∅; is_self := ∅; is_selector := None |}.

Definition textLayer (hash text : string) : Layer := {| ly_DiffID := Some hash; ly_Digest := text |}.
Definition textImage (layers : list Layer) : Img :=
  {| img_Layers := Some layers; img_Digest := Some "sha256:0000000000"; img_Config := None |}.

(** A registry of images, with the digests of their indices. *)
Definition demoIEnv (images : list (string * (option string * Img))) : IEnv := {|
  ie_fails := λ _ _, false; ie_parse := λ _, true;
  ie_Head := λ _ name, (list_to_map images : gmap string (option string * Img)) !! name ≫= fst;
  ie_Image := λ _ name, snd <$> (list_to_map images : gmap string (option string * Img)) !! name;
  ie_nodes := λ _, None; ie_inflight := λ _ _, None; ie_arrival := λ _ l, l; ie_peerHead := λ _ _ _, false;
  ie_peerGet := λ _ _ _, None;
  ie_upstream := λ _ layer, Some {| b_bytes := ly_Digest layer; b_broken := false |};
  ie_cancelled := λ _, false; ie_now := λ _, 7%Z; ie_left := λ _ _, None;
  ie_marshal := λ l, Join l ","; ie_unmarshal := λ s, Some (if decide (s = "") then [] else splitOn "," s);
  ie_marshalConfig := λ _, ""; ie_unmarshalConfig := λ _, None |}.

Definition demoIM : ImageManager := NewImageManager "/b".

(** What a run leaves and returns. *)
Definition runPull (env : IEnv) (im : ImageManager) (imageName policy : string) (d : Store string) :
    Store string * (IErr + (list string * bool)) :=
  let '(s, r) := PullWithOptions env im imageName policy {| t_trace := []; t_data := d |} in (s.(t_data), r).

Definition demoImages : list (string * (option string * Img)) :=
  [("app:1", (Some "sha256:aaaaaaaaaaaa", textImage [textLayer "h1" "one"; textLayer "h2" "two"]))].

Definition demoContent (hash : string) : string := if decide (hash = "h1") then "one" else "two".

(** The registry of [demoIEnv] with the content of its layers checked. *)
Definition checkedIEnv : IEnv := {| (demoIEnv demoImages) with
  ie_upstream := λ _ layer,
    h ← layer.(ly_DiffID);
    if decide (ly_Digest layer = demoContent h) then Some {| b_bytes := ly_Digest layer; b_broken := false |} else None |}.

Lemma demo_unused : unused checkedIEnv emptyStore.
Proof. done. Qed.


Lemma pull_policy_witness :
  let d := (runPull checkedIEnv demoIM "app:1" "" emptyStore).1 in
  wp (PullWithOptions checkedIEnv demoIM "app:1" "IfNotPresent")
    (λ r new d', r = inr (["/b/layers/h1"; "/b/layers/h2"], true) ∧ new = [IEvent "Normal" "ImageCached"] ∧ d' = d) [] d.
Proof.
  intros d. destruct (pull_policy checkedIEnv demoIM "app:1" "IfNotPresent" [] d) as (H & _).
  apply H; [apply list_elem_of_here|vm_compute; reflexivity].
Defined.

(** An encoding of lists of strings that can be read back. *)
Fixpoint bits (p : positive) : string := match p with xH => "" | xO p => String "0" (bits p) | xI p => String "1" (bits p) end.
Fixpoint ofBits (s : string) : positive :=
  match s with EmptyString => xH | String c s => if decide (c = "0"%char) then xO (ofBits s) else xI (ofBits s) end.

Lemma ofBits_bits p : ofBits (bits p) = p.
Proof. induction p as [p IH|p IH|]; cbn; by rewrite ?IH. Qed.

Definition bitsIEnv : IEnv := {| checkedIEnv with ie_marshal := λ l, bits (encode l); ie_unmarshal := λ s, decode (ofBits s) |}.

Lemma pull_remembered_witness : ∃ new d',
  (PullWithOptions bitsIEnv demoIM "app:1" "Always" (Build_TState [] emptyStore)).1 = Build_TState new d' ∧
  wp (PullWithOptions bitsIEnv demoIM "app:1" "IfNotPresent")
    (λ r' new' d'', r' = inr (["/b/layers/h1"; "/b/layers/h2"], true) ∧ new' = [IEvent "Normal" "ImageCached"] ∧ d'' = d') new d'.
Proof.
  assert (∀ t img layers, bitsIEnv.(ie_Image) t "app:1" = Some img → img.(img_Layers) = Some layers →
    Forall (λ l, match l.(ly_DiffID) with Some h => plain h | None => True end) layers) as Hplain.
  { intros t img layers Hi Hl. vm_compute in Hi. injection Hi as <-. injection Hl as <-.
    rewrite !Forall_cons. split_and!; [apply (bool_decide_eq_true_1 _); vm_compute; reflexivity..|constructor]. }
  destruct (pull_remembered bitsIEnv demoIM "app:1" "Always" [] emptyStore (λ _ _, eq_refl) demo_unused
    (λ _ _, eq_refl) ltac:(intros l; cbn; by rewrite ofBits_bits, decode_encode) eq_refl Hplain) as (r & new & d' & Hr & Hp).
  exists new, d'. split; [by rewrite Hr|]. apply Hp. vm_compute in Hr. by injection Hr as _ _ <-.
Defined.

(** ** Weak points *)

(** A slash and an underscore give the same file: the layers of one image are
    used for the other, without asking the registry. *)
Example image_names_collide :
  let env := demoIEnv [("org/app:1", (Some "sha256:aaaaaaaaaaaa", textImage [textLayer "h1" "one"]));
                       ("org_app:1", (Some "sha256:bbbbbbbbbbbb", textImage [textLayer "h2" "two"]))] in
  let d := (runPull env demoIM "org/app:1" "Always" emptyStore).1 in
  (runPull env demoIM "org_app:1" "IfNotPresent" d).2 = inr (["/b/layers/h1"], true).
Proof. by vm_compute. Qed.

(** ... and the list of images shows names that no one pulled. *)
Example listed_under_wrong_name :
  let env := demoIEnv [("org_app:1", (Some "sha256:bbbbbbbbbbbb", textImage [textLayer "h2" "two"]))] in
  let d := (runPull env demoIM "org_app:1" "Always" emptyStore).1 in
  map ci_Name (ListCachedImages env demoIM (λ t, Z.of_nat (len t)) d) = ["org/app:1"].
Proof. by vm_compute. Qed.

(** When the registry does not tell the digest of the index, the old one is
    kept beside the new layers; a tag that goes back then gets the new layers. *)
Example stale_index_digest :
  let img1 := textImage [textLayer "h1" "one"] in
  let img2 := textImage [textLayer "h2" "two"] in
  let env1 := demoIEnv [("app:1", (Some "sha256:aaaaaaaaaaaa", img1))] in
  let env2 := demoIEnv [("app:1", (None, img2))] in
  let d1 := (runPull env1 demoIM "app:1" "Always" emptyStore).1 in
  let d2 := (runPull env2 demoIM "app:1" "Always" d1).1 in
  (runPull env1 demoIM "app:1" "Always" d1).2 = inr (["/b/layers/h1"], true) ∧
  (runPull env1 demoIM "app:1" "Always" d2).2 = inr (["/b/layers/h2"], true).
Proof. by vm_compute. Qed.

(** A digest file that was cut off makes every later pull panic. *)
Example short_digest_panics :
  let env := demoIEnv [("app:1", (Some "sha256:bbbbbbbbbbbb", textImage [textLayer "h2" "two"]))] in
  let d := {| ((runPull env demoIM "app:1" "Always" emptyStore).1) with is_files := {[ "app:1.json" := "h2"; "app:1.index" := "sha256:" ]} |} in
  (runPull env demoIM "app:1" "Always" d).2 = inl Panic.
Proof. by vm_compute. Qed.

(** What a peer sends is not compared with the digest. *)
Example peer_content_unverified :
  let env := {| (demoIEnv [("app:1", (Some "sha256:aaaaaaaaaaaa", textImage [textLayer "h1" "one"]))]) with
                ie_nodes := λ _, Some [{| pn_Host := "other"; pn_Port := 10250; pn_Addresses := [("InternalIP", "10.0.0.9")] |}];
                ie_peerGet := λ _ _ _, Some {| b_bytes := "evil"; b_broken := false |} |} in
  let im := {| demoIM with im_peers := Some "self" |} in
  let '(d, r) := runPull env im "app:1" "Always" emptyStore in
  r = inr (["/b/layers/h1"], false) ∧ d.(is_layers) !! "h1" = Some "evil".
Proof. by vm_compute. Qed.

(** A temporary directory that cannot be removed stays, and what the first
    attempt left in it becomes part of the layer. *)
Example remains_mixed :
  let env := {| (demoIEnv [("app:1", (Some "sha256:aaaaaaaaaaaa", textImage [textLayer "h1" "one"]))]) with
                ie_fails := λ _ op, match op with ORemoveTmp _ => true | _ => false end;
                ie_upstream := λ t _, Some {| b_bytes := "one"; b_broken := bool_decide (List.filter isUpstream t = []) |} |} in
  let '(d, r) := runPull env demoIM "app:1" "Always" emptyStore in
  r = inr (["/b/layers/h1"], false) ∧ d.(is_layers) !! "h1" = Some "oneone".
Proof. by vm_compute. Qed.

(** A layer without a known hash leaves those before it announced for ever. *)
Example announcement_leaks :
  let env := demoIEnv [("app:1", (None, textImage [textLayer "h1" "one"; {| ly_DiffID := None; ly_Digest := "" |}]))] in
  let '(d, r) := runPull env demoIM "app:1" "Always" emptyStore in
  r = inl (ErrDiffID 1) ∧ InflightHashes d = ["h1"].
Proof. by vm_compute. Qed.
