(* ===== verification/Overlay.v ===== *)
(** * Root file systems of containers (internal/image/manager.go, Mount and Unmount)

    The layers of an image become the lower directories of an overlay, whose
    mount point is the root of a container. The kernel stacks mounts on one
    mount point: [os_mounts] holds the stack of each, topmost first, and
    [os_dirs] the directories of workspaces that exist. [OEnv] says which operations fail and
    which files a merged directory shows. The base directory is an absolute
    path. *)
From S2P Require Import Prelude Monad Trace Paths Image.
Import Str.

Inductive OOp :=
  | ORemoveAll (base : string)
  | OMkdirAll (dir : string)
  | OMount (target opts : string)
  | OUnmount (target : string)
  | OCreate (file : string)
  | OWriteString (file : string).

Inductive OAct :=
  | OCall (op : OOp) (ok : bool)
  | OEinval (target : string)
  | OStat (path : string) (exists_ : bool)
  | OSleep (ms : Z).

(** [oe_fails]: the operation fails for a reason of its own; a mount point that
    is not mounted and a directory with a mount in it are in the state.
    [oe_left]: the directories that a failed removal did not get to. *)
Record OEnv := {
  oe_fails : list OAct → OOp → bool;
  oe_exists : list OAct → string → bool;
  oe_left : list OAct → string → bool;
}.

Record OState := { os_mounts : gmap string (list string); os_dirs : gset string }.

Inductive OErr := ErrMkdir (dir : string) | ErrOverlay | ErrOSRelease | ErrUnmount | ErrBusy | ErrSpin.

Definition stackOf (target : string) (s : OState) : list string := default [] (s.(os_mounts) !! target).
Definition setStack (target : string) (l : list string) (s : OState) : OState :=
  {| s with os_mounts := <[target := l]> s.(os_mounts) |}.

(** The lower directories: topmost layer first, each once. *)
Fixpoint dedup (seen : gset string) (l : list string) : list string :=
  match l with
  | [] => []
  | p :: l => if decide (p ∈ seen) then dedup seen l else p :: dedup ({[ p ]} ∪ seen) l
  end.

Definition lowerDirs (layerPaths : list string) : list string := dedup ∅ (reverse layerPaths).

Definition overlayOpts (layerPaths : list string) (upper work : string) : string :=
  "lowerdir=" +:+ Join (lowerDirs layerPaths) ":" +:+ ",upperdir=" +:+ upper +:+ ",workdir=" +:+ work +:+ ",index=off".

Section Overlay.
Context (env : OEnv) (im : ImageManager).

Abbreviation OM := (SE (TState OAct OState) OErr).

Definition workspace (podUID : string) : string := pathJoin [im.(im_baseDir); "pods"; podUID].
Definition rootfsOf (podUID : string) : string := pathJoin [workspace podUID; "rootfs"].
Definition upperOf (podUID : string) : string := pathJoin [workspace podUID; "upper"].
Definition workOf (podUID : string) : string := pathJoin [workspace podUID; "work"].

(** The directories of the workspace of a pod. *)
Definition workspaceDirs (podUID : string) : gset string := {[ rootfsOf podUID; upperOf podUID; workOf podUID ]}.

(** A system call with its effect when it succeeds. *)
Definition sys (op : OOp) (possible : OState → bool) (effect : OState → OState) : OM bool :=
  s ← getD id;
  ok ← callT (λ t, possible s && negb (env.(oe_fails) t op)) (OCall op);
  _ ← whenM ok (modD effect);
  mret ok.

(** [os.RemoveAll] on the workspace of a pod. It fails while a mount is in it,
    and then keeps the mount point; the other directories may be gone. *)
Definition removeWorkspace (podUID : string) : OM bool :=
  let dirs := workspaceDirs podUID in
  ok ← sys (ORemoveAll (workspace podUID)) (λ s, bool_decide (stackOf (rootfsOf podUID) s = []))
    (λ s, {| s with os_dirs := s.(os_dirs) ∖ dirs |});
  if ok : bool then mret true else
  left ← askT env.(oe_left);
  _ ← modD (λ s, {| s with os_dirs := filter (λ p, p ∉ dirs ∨ stackOf p s ≠ [] ∨ left p = true) s.(os_dirs) |});
  mret false.

Definition mkdir (dir : string) : OM () :=
  ok ← sys (OMkdirAll dir) (λ _, true) (λ s, {| s with os_dirs := {[ dir ]} ∪ s.(os_dirs) |});
  if ok : bool then mret tt else throw (ErrMkdir dir).

Definition statPath (path : string) : OM bool := callT (λ t, env.(oe_exists) t path) (OStat path).

Fixpoint anyExists (merged : string) (paths : list string) : OM bool :=
  match paths with
  | [] => mret false
  | p :: paths =>
      found ← statPath (pathJoin [merged; p]);
      if found : bool then mret true else anyExists merged paths
  end.

Definition ensureOSRelease (merged : string) : OM () :=
  present ← anyExists merged ["/etc/os-release"; "/usr/lib/os-release"];
  if present : bool then mret tt else
  let usrLib := pathJoin [merged; "usr"; "lib"] in
  ok ← sys (OMkdirAll usrLib) (λ _, true) id;
  if negb ok then throw ErrOSRelease else
  let file := pathJoin [usrLib; "os-release"] in
  ok ← sys (OCreate file) (λ _, true) id;
  if negb ok then throw ErrOSRelease else
  ok ← sys (OWriteString file) (λ _, true) id;
  if negb ok then throw ErrOSRelease else mret tt.

Definition pop (target : string) (s : OState) : OState := setStack target (tail (stackOf target s)) s.

Definition Mount (podUID : string) (layerPaths : list string) : OM string :=
  let merged := rootfsOf podUID in
  let upper := upperOf podUID in
  let work := workOf podUID in
  _ ← removeWorkspace podUID;
  _ ← forM [merged; upper; work] mkdir;
  let opts := overlayOpts layerPaths upper work in
  ok ← sys (OMount merged opts) (λ _, true) (λ s, setStack merged (opts :: stackOf merged s) s);
  if negb ok then throw ErrOverlay else
  r ← try (ensureOSRelease merged);
  match r with
  | inl e => _ ← sys (OUnmount merged) (λ s, negb (bool_decide (stackOf merged s = []))) (pop merged); throw e
  | inr _ => mret merged
  end.

(** One mount per call; [EINVAL] ends the loop. *)
Fixpoint unmount_loop (fuel : nat) (target : string) : OM () :=
  match fuel with
  | O => throw ErrSpin
  | S fuel =>
      stack ← getD (stackOf target);
      match stack with
      | [] => doT (OEinval target)
      | _ => ok ← sys (OUnmount target) (λ _, true) (pop target);
             if ok : bool then unmount_loop fuel target else throw ErrUnmount
      end
  end.

Fixpoint remove_loop (tries : nat) (podUID : string) : OM () :=
  match tries with
  | O => throw ErrBusy
  | S tries =>
      ok ← removeWorkspace podUID;
      if ok : bool then mret tt else
      _ ← doT (OSleep 200);
      remove_loop tries podUID
  end.

Definition removeTries : nat := 5.

Definition Unmount (podUID : string) : OM () :=
  let target := rootfsOf podUID in
  present ← getD (λ s, bool_decide (target ∈ s.(os_dirs)));
  if negb present then _ ← removeWorkspace podUID; mret tt else
  n ← getD (λ s, length (stackOf target s));
  _ ← unmount_loop (S n) target;
  remove_loop removeTries podUID.

End Overlay.

(** ** Which layer a file comes from *)

Lemma dedup_find (P : string → Prop) `{!∀ x, Decision (P x)} seen l : (∀ x, x ∈ seen → ¬ P x) →
  snd <$> list_find P (dedup seen l) = snd <$> list_find P l.
Proof.
  revert seen. induction l as [|p l IH]; intros seen Hs; [done|]. cbn [dedup list_find]. case_decide as Hin.
  - rewrite (decide_False (P := P p)) by auto. rewrite IH by done. by destruct (list_find P l) as [[]|].
  - cbn [list_find]. case_decide as Hp; [done|]. specialize (IH ({[ p ]} ∪ seen)).
    assert (∀ x, x ∈ {[p]} ∪ seen → ¬ P x) as Hs' by set_solver. specialize (IH Hs').
    destruct (list_find P (dedup _ l)) as [[]|], (list_find P l) as [[]|]; cbn in *; congruence.
Qed.

Lemma dedup_spec seen l : NoDup (dedup seen l) ∧ ∀ x, x ∈ dedup seen l ↔ x ∈ l ∧ x ∉ seen.
Proof.
  revert seen. induction l as [|p l IH]; intros seen; cbn [dedup]; [split; [constructor|set_solver]|]. case_decide as Hp.
  - destruct (IH seen) as [H1 H2]. split; [done|]. intros x. rewrite H2, elem_of_cons. naive_solver.
  - destruct (IH ({[ p ]} ∪ seen)) as [H1 H2]. split.
    + constructor; [|done]. rewrite H2. set_solver.
    + intros x. rewrite !elem_of_cons, H2. destruct (decide (x = p)); set_solver.
Qed.

(** The overlay shows each file from the topmost layer that has it: looking
    it up in the lower directories gives the layer that looking it up from the
    last layer of the image to the first one gives. No directory occurs twice,
    and every layer is there. *)
Theorem overlay_order layerPaths (has : string → Prop) `{!∀ x, Decision (has x)} :
  snd <$> list_find has (lowerDirs layerPaths) = snd <$> list_find has (reverse layerPaths) ∧
  NoDup (lowerDirs layerPaths) ∧ ∀ p, p ∈ lowerDirs layerPaths ↔ p ∈ layerPaths.
Proof.
  destruct (dedup_spec ∅ (reverse layerPaths)) as [H1 H2]. split_and!; [by apply dedup_find; set_solver|done|].
  intros p. unfold lowerDirs. rewrite H2, elem_of_reverse. set_solver.
Qed.

(** ** Mounting and unmounting *)

Section Mounts.
Context (env : OEnv) (im : ImageManager).

Lemma wp_sys op possible effect (Φ : OErr + bool → list OAct → OState → Prop) t d :
  (possible d = true → Φ (inr true) [OCall op true] (effect d)) →
  (possible d = false ∨ env.(oe_fails) t op = true → Φ (inr false) [OCall op false] d) → wp (sys env op possible effect) Φ t d.
Proof.
  intros H1 H2. unfold sys. wp_step. wp_step. wp_step. wp_step. rewrite (right_id_L [] (++)). unfold id.
  destruct (possible d) eqn:Hp, (oe_fails env t op) eqn:Hf; cbn [negb andb whenM]; repeat wp_step; cbn; auto.
Qed.

Lemma stackOf_set target l s : stackOf target (setStack target l s) = l.
Proof. unfold stackOf, setStack. cbn. by rewrite lookup_insert_eq. Qed.

(** A computation that leaves the mounts. *)
Definition leaves {A} (m : SE (TState OAct OState) OErr A) : Prop := ∀ t d, wp m (λ _ _ d', d'.(os_mounts) = d.(os_mounts)) t d.

Lemma leaves_bind {A B} (m : SE (TState OAct OState) OErr A) (f : A → SE (TState OAct OState) OErr B) :
  leaves m → (∀ a, leaves (f a)) → leaves (m ≫= f).
Proof.
  intros Hm Hf t d. wp_step. eapply wp_conseq; [apply Hm|]. intros [e|a] new d' H; [done|].
  eapply wp_conseq; [apply Hf|]. intros r new' d'' H'. cbn in *. congruence.
Qed.

Lemma leaves_sys op possible effect : (∀ d, (effect d).(os_mounts) = d.(os_mounts)) → leaves (sys env op possible effect).
Proof. intros H t d. by apply wp_sys. Qed.

Lemma leaves_ret {A} (a : A) : leaves (mret a).
Proof. intros t d. by wp_step. Qed.

Lemma leaves_throw {A} e : leaves (throw e : SE (TState OAct OState) OErr A).
Proof. intros t d. by wp_step. Qed.

Lemma leaves_anyExists merged paths : leaves (anyExists env merged paths).
Proof.
  induction paths as [|p paths IH]; cbn [anyExists]; [apply leaves_ret|]. apply leaves_bind; [intros t d; unfold statPath; by wp_step|].
  intros []; [apply leaves_ret|done].
Qed.

Lemma leaves_ensureOSRelease merged : leaves (ensureOSRelease env merged).
Proof.
  unfold ensureOSRelease. apply leaves_bind; [apply leaves_anyExists|]. intros []; [apply leaves_ret|].
  repeat (apply leaves_bind; [by apply leaves_sys|]; intros []; cbn [negb]; [|apply leaves_throw]). apply leaves_ret.
Qed.

Lemma leaves_removeWorkspace podUID : leaves (removeWorkspace env im podUID).
Proof.
  unfold removeWorkspace. apply leaves_bind; [by apply leaves_sys|]. intros []; [apply leaves_ret|].
  intros t d. by repeat wp_step.
Qed.

Lemma leaves_mkdirs l : leaves (forM l (mkdir env)).
Proof.
  induction l as [|x l IH]; cbn [forM]; [apply leaves_ret|]. apply leaves_bind; [|by intros []].
  unfold mkdir. apply leaves_bind; [by apply leaves_sys|]. intros []; [apply leaves_ret|apply leaves_throw].
Qed.

(** Mounting a root file system puts exactly one overlay on top of what is
    mounted there, with the layers of the image, or, if the mount can be undone,
    leaves the mounts as they were. *)
Theorem mount_exact podUID layerPaths t d :
  (∀ t, env.(oe_fails) t (OUnmount (rootfsOf im podUID)) = false) →
  wp (Mount env im podUID layerPaths) (λ r new d',
    match r with
    | inr merged => merged = rootfsOf im podUID ∧
        d'.(os_mounts) = <[merged := overlayOpts layerPaths (upperOf im podUID) (workOf im podUID)
                           :: stackOf merged d]> d.(os_mounts)
    | inl _ => stackOf (rootfsOf im podUID) d' = stackOf (rootfsOf im podUID) d
    end) t d.
Proof.
  intros Hun. unfold Mount. set (merged := rootfsOf im podUID). set (opts := overlayOpts _ _ _).
  wp_step. eapply wp_conseq; [apply leaves_removeWorkspace|]. intros [e|b] new d1 H1; cbn in H1; [unfold stackOf; by rewrite H1|].
  wp_step. eapply wp_conseq; [apply leaves_mkdirs|]. intros [e|[]] new2 d2 H2; cbn in H2; [unfold stackOf; by rewrite H2, H1|].
  wp_step. apply wp_sys; intros _; cbn [negb]; [|wp_step; unfold stackOf; by rewrite H2, H1].
  wp_step. apply wp_try. eapply wp_conseq; [apply leaves_ensureOSRelease|]. intros [e|[]] new3 d3 H3; cbn in H3.
  - assert (stackOf merged d3 = opts :: stackOf merged d) as Hs.
    { unfold stackOf. rewrite H3, lookup_insert_eq. cbn. unfold stackOf. by rewrite H2, H1. }
    wp_step. apply wp_sys.
    + intros _. wp_step. unfold pop. rewrite stackOf_set, Hs. done.
    + rewrite Hs, Hun. by intros [|].
  - wp_step. split; [done|]. rewrite H3. unfold stackOf. by rewrite H2, H1.
Qed.

(** Only what is mounted on [target] differs. *)
Definition mountsElsewhere (target : string) (d d' : OState) : Prop := ∀ m, m ≠ target → d'.(os_mounts) !! m = d.(os_mounts) !! m.

Lemma wp_unmount_loop fuel target t d : length (stackOf target d) < fuel →
  wp (unmount_loop env fuel target) (λ r new d', d'.(os_dirs) = d.(os_dirs) ∧ mountsElsewhere target d d' ∧
    match r with inr _ => stackOf target d' = [] | inl e => e = ErrUnmount ∧ ∃ k, stackOf target d' = drop k (stackOf target d) end) t d.
Proof.
  revert t d. induction fuel as [|fuel IH]; intros t d Hlt; [lia|]. cbn [unmount_loop]. wp_step. wp_step.
  destruct (stackOf target d) as [|o l] eqn:Hs; [wp_step; done|]. wp_step. apply wp_sys; intros _.
  - eapply wp_conseq; [apply IH; unfold pop; rewrite stackOf_set, Hs; cbn in Hlt |- *; lia|]. intros r new d' (Hd & Hm & Hr).
    split_and!; [done|intros m Hne; rewrite Hm by done; cbn; by rewrite lookup_insert_ne|].
    destruct r as [e|]; [|done]. destruct Hr as (-> & k & Hk). split; [done|]. exists (S k).
    unfold pop in Hk. by rewrite stackOf_set, Hs in Hk.
  - wp_step. split_and!; [done..|]. exists 0. by rewrite Hs.
Qed.

(** A removal that fails leaves some of the directories. *)
Lemma wp_removeWorkspace podUID t d :
  wp (removeWorkspace env im podUID) (λ r new d', d'.(os_mounts) = d.(os_mounts) ∧
    ∃ ok, r = inr ok ∧ new = [OCall (ORemoveAll (workspace im podUID)) ok] ∧
      if ok : bool then d'.(os_dirs) = d.(os_dirs) ∖ workspaceDirs im podUID
      else d.(os_dirs) ∖ workspaceDirs im podUID ⊆ d'.(os_dirs) ⊆ d.(os_dirs)) t d.
Proof.
  unfold removeWorkspace. wp_step. apply wp_sys; intros _; [wp_step; split; [done|by exists true]|]. repeat wp_step. split; [done|].
  exists false. split; [done|]. split; [by rewrite ?(right_id_L [] (++))|]. cbn. split; set_solver.
Qed.

Lemma wp_remove_loop tries podUID t d :
  wp (remove_loop env im tries podUID) (λ r new d', d'.(os_mounts) = d.(os_mounts) ∧
    match r with
    | inr _ => d'.(os_dirs) = d.(os_dirs) ∖ workspaceDirs im podUID
    | inl e => e = ErrBusy ∧ d.(os_dirs) ∖ workspaceDirs im podUID ⊆ d'.(os_dirs) ⊆ d.(os_dirs)
    end) t d.
Proof.
  revert t d. induction tries as [|n IH]; intros t d; cbn [remove_loop]; [wp_step; set_solver|].
  wp_step. eapply wp_conseq; [apply wp_removeWorkspace|]. intros r new d1 [Hm (ok & -> & -> & Hd)]. destruct ok; [by wp_step|].
  wp_step. wp_step. eapply wp_conseq; [apply IH|]. intros r new' d2 [Hm2 Hr]. split; [congruence|]. destruct r as [e|[]]; set_solver.
Qed.

(** C30: Unmounting ends, however many overlays are stacked. When the mount
    point exists and it succeeds, nothing is mounted there any more and of the
    directories exactly those of the workspace (the mount point, the upper and
    the work directory) are gone. When it fails, it was refused an unmount, and
    the directories are all there; or nothing is mounted any more, but the
    workspace could not be removed. When the mount point does not exist, it
    succeeds after one attempt to remove the workspace, whether or not that
    worked. Other mounts and other directories stay in every case. *)
Theorem unmount_complete podUID t d :
  let target := rootfsOf im podUID in
  let dirs := {[ target; upperOf im podUID; workOf im podUID ]} in
  wp (Unmount env im podUID) (λ r new d',
    mountsElsewhere target d d' ∧ d.(os_dirs) ∖ dirs ⊆ d'.(os_dirs) ⊆ d.(os_dirs) ∧
    if decide (target ∈ d.(os_dirs)) then
      match r with
      | inr _ => stackOf target d' = [] ∧ d'.(os_dirs) = d.(os_dirs) ∖ dirs
      | inl e => (e = ErrUnmount ∧ d'.(os_dirs) = d.(os_dirs)) ∨ (e = ErrBusy ∧ stackOf target d' = [])
      end
    else r = inr tt ∧ d'.(os_mounts) = d.(os_mounts) ∧
      ∃ ok, new = [OCall (ORemoveAll (workspace im podUID)) ok] ∧ (ok = true → d'.(os_dirs) = d.(os_dirs) ∖ dirs)) t d.
Proof.
  intros target dirs. assert (dirs = workspaceDirs im podUID) as Hdirs by done. clearbody dirs. subst dirs.
  unfold Unmount. wp_step. wp_step. fold target. case_decide as Hin; [|].
  - rewrite bool_decide_eq_true_2 by done. cbn [negb]. wp_step. wp_step. wp_step.
    eapply wp_conseq; [apply wp_unmount_loop; lia|]. intros [e|[]] new d' (Hd & Hm & Hr).
    + destruct Hr as [-> _]. rewrite Hd. split; [done|]. split; [split; set_solver|by left].
    + eapply wp_conseq; [apply wp_remove_loop|]. intros r new' d'' [Hs Hr2]. rewrite Hd in Hr2.
      assert (stackOf target d'' = []) as Hst by (unfold stackOf; rewrite Hs; exact Hr).
      split; [intros m Hne; rewrite Hs; by apply Hm|]. destruct r as [e|[]].
      * destruct Hr2 as [-> Hr2]. split; [exact Hr2|by right].
      * rewrite Hr2. split; [split; set_solver|]. done.
  - rewrite bool_decide_eq_false_2 by done. cbn [negb]. wp_step. eapply wp_conseq; [apply wp_removeWorkspace|].
    intros r new d' [Hm (ok & -> & -> & Hd)]. wp_step. split; [intros m _; by rewrite Hm|]. split.
    + destruct ok; [rewrite Hd; set_solver|exact Hd].
    + split_and!; [done..|]. exists ok. split; [done|]. by intros ->.
Qed.
End Mounts.

(** ** On an example *)

Definition demoOEnv : OEnv := {| oe_fails := λ _ _, false; oe_exists := λ _ _, false; oe_left := λ _ _, false |}.
Definition noMounts : OState := {| os_mounts := ∅; os_dirs := ∅ |}.

Lemma mount_exact_witness :
  wp (Mount demoOEnv demoIM "u" ["/l/a"; "/l/b"; "/l/a"]) (λ r new d', r = inr "/b/pods/u/rootfs" ∧
    stackOf "/b/pods/u/rootfs" d' =
      ["lowerdir=/l/a:/l/b,upperdir=/b/pods/u/upper,workdir=/b/pods/u/work,index=off"]) [] noMounts.
Proof.
  destruct (mount_exact demoOEnv demoIM "u" ["/l/a"; "/l/b"; "/l/a"] [] noMounts (λ _, eq_refl)) as (r & new & d' & Hr & H).
  exists r, new, d'. split; [exact Hr|]. vm_compute in Hr. injection Hr as _ _ <-. destruct H as [_ H]. split; [done|].
  unfold stackOf. rewrite H. vm_compute. reflexivity.
Defined.

(** A second mount without an unmount is stacked on the first one. *)
Definition mountedTwice : OState :=
  t_data (fst ((_ ← Mount demoOEnv demoIM "u" ["/l/a"]; Mount demoOEnv demoIM "u" ["/l/a"]) (Build_TState [] noMounts))).

Example unmount_twice_mounted : length (stackOf "/b/pods/u/rootfs" mountedTwice) = 2 ∧
  (Unmount demoOEnv demoIM "u" (Build_TState [] mountedTwice)).1.(t_data).(os_dirs) = ∅.
Proof. split; [vm_compute; reflexivity|]. apply (bool_decide_eq_true_1 _). vm_compute. reflexivity. Qed.
