(* ===== verification/Types.v ===== *)
(** * Facts and effects (internal/types)

    The sealed interfaces [Fact] and [Effect] as inductive types with one
    constructor per concrete Go type.  Fields that no constructor function
    sets and no code reads ([StartedAt] and [FinishedAt] of facts) are left
    out. *)
From S2P Require Import Prelude Corev1.

Inductive Fact :=
  | UnitFact (uid UnitName SubState : string) (ExitCode : Z)
  | ContainerStateFact (uid Container : string) (State : MachineState) (ExitCode : Z)
  | ExitFact (uid Container : string) (ExitCode : Z) (Reason : string) (WillRestart : bool)
  | ProbeFact (uid Container ProbeType : string) (Success Ready StartupPassed : bool)
      (SuccessThreshold FailureThreshold : Z)
  | SpecFact (uid Namespace PodName : string) (pod : option Pod)
  | PodAdmitFact (uid Namespace Name PodIP : string) (pod : Pod)
  | PodEvictFact (uid : string)
  | MarkRunningFact (uid ContainerName : string)
  | BackoffResetFact (uid ContainerName : string).

(** [Fact.UID], which every concrete type inherits from [baseFact]. *)
Definition UID (f : Fact) : string :=
  match f with
  | UnitFact u _ _ _ | ContainerStateFact u _ _ _ | ExitFact u _ _ _ _
  | ProbeFact u _ _ _ _ _ _ _ | SpecFact u _ _ _ | PodAdmitFact u _ _ _ _
  | PodEvictFact u | MarkRunningFact u _ | BackoffResetFact u _ => u
  end.

Record WaitingPayload := { wp_Reason : string }.
Record RunningPayload := { rp_StartedAt : Time }.
Record TerminatedPayload := {
  tp_ExitCode : Z; tp_Reason : string; tp_StartedAt : Time; tp_FinishedAt : Time }.

Record ContainerStatePayload := {
  csp_Waiting : option WaitingPayload;
  csp_Running : option RunningPayload;
  csp_Terminated : option TerminatedPayload;
}.

Record ContainerStatusPayload := {
  cp_Name : string;
  cp_Image : string;
  cp_Ready : bool;
  cp_RestartCount : Z;
  cp_State : ContainerStatePayload;
}.

Record PodStatusPayload := {
  pp_Phase : PodPhase;
  pp_Conditions : list PodCondition;
  pp_ContainerStatuses : list ContainerStatusPayload;
  pp_HostIP : string;
  pp_PodIP : string;
}.

Record ContainerInitPayload := { ci_Name : string; ci_HasReadinessProbe : bool }.

Inductive Effect :=
  | UpdateStatus (uid Namespace Name : string) (Status : PodStatusPayload)
  | RestartContainer (uid Namespace PodName ContainerName : string) (RestartCount : Z)
      (Backoff : Duration)
  | SetPodPhase (uid : string) (Phase : PodPhase)
  | ResetUnit (uid ContainerName : string)
  | RecordEvent (uid EventType Reason Message : string)
  | PersistPodState (uid : string)
  | InitRestartState (uid Namespace Name : string) (Containers : list ContainerInitPayload).

(** The pod an effect is about. *)
Definition effect_uid (e : Effect) : string :=
  match e with
  | UpdateStatus u _ _ _ | RestartContainer u _ _ _ _ _ | SetPodPhase u _ | ResetUnit u _
  | RecordEvent u _ _ _ | PersistPodState u | InitRestartState u _ _ _ => u
  end.

Definition is_restart (e : Effect) : bool :=
  match e with RestartContainer _ _ _ _ _ _ => true | _ => false end.
