(* ===== verification/UnitNames.v ===== *)
(** * Names shared between components

    The systemd unit name of a container ([wrapperUnitName]), the two parsers
    that read it back ([node.ParseUnitName] and [foci.ParseContainerFromUnit]),
    the D-Bus object path escaping through which unit names travel in signals
    ([dbusUnitEscape], [dbusUnitUnescape], [pathBase]), and the host interface
    name of a pod ([vethName]). *)
From S2P Require Import Prelude Corev1.
Import Str.

#[local] Arguments String.append !_ _ : simpl nomatch.

(** ** Definitions *)

Definition wrapperUnitName (pawnName podUID containerName : string) : string :=
  "perigeos-" +:+ pawnName +:+ "-pod-" +:+ podUID +:+ "-" +:+ containerName +:+ ".service".

Definition sliceName (pawnName : string) : string := "perigeos-" +:+ pawnName +:+ ".slice".

(** [None] is a panic of one of the slice expressions. *)
Definition ParseUnitName (pawnName unitName : string) : option (string * string) :=
  let prefix := "perigeos-" +:+ pawnName +:+ "-pod-" in
  let suffix := ".service" in
  if negb (has_prefix unitName prefix) || negb (has_suffix unitName suffix)
  then Some ("", "")
  else
    inner ← slice unitName (len prefix) (len unitName - len suffix);
    if (len inner <? 38)%nat then Some ("", "")
    else
      uid ← slice inner 0 36;
      name ← slice inner 37 (len inner);
      Some (uid, name).

Definition ParseContainerFromUnit_run (unitName : string) : option string :=
  let suffix := ".service" in
  if negb (has_suffix unitName suffix) then Some ""
  else
    let prefix := "perigeos-" in
    match index unitName prefix with
    | None => Some ""
    | Some idx =>
        rest ← slice unitName (idx + len prefix) (len unitName);
        match index rest "-pod-" with
        | None => Some ""
        | Some podIdx =>
            afterPod ← slice rest (podIdx + 5) (len rest);
            (* a negative upper bound panics *)
            if (len afterPod <? len suffix)%nat then None
            else
              afterPod ← slice afterPod 0 (len afterPod - len suffix);
              if (len afterPod <? 38)%nat then Some ""
              else slice afterPod 37 (len afterPod)
        end
    end.

(** The value the Go function returns; [ParseContainerFromUnit_total] shows
    that it always returns. *)
Definition ParseContainerFromUnit (unitName : string) : string :=
  default "" (ParseContainerFromUnit_run unitName).

Definition byte_of (c : ascii) : Z := Z.of_N (N_of_ascii c).
Definition of_byte (z : Z) : ascii := ascii_of_N (Z.to_N (z `mod` 256)).

Definition in_range (lo hi c : ascii) : bool :=
  (byte_of lo <=? byte_of c)%Z && (byte_of c <=? byte_of hi)%Z.

Definition isAlpha (c : ascii) : bool := in_range "a" "z" c || in_range "A" "Z" c.
Definition isDigit (c : ascii) : bool := in_range "0" "9" c.

(** A digit of the [%x] verb. *)
Definition hex_digit (d : Z) : ascii :=
  if (d <? 10)%Z then of_byte (byte_of "0" + d) else of_byte (byte_of "a" + (d - 10)).

(** [fmt.Fprintf(&b, "_%02x", c)]. *)
Definition escape_byte (c : ascii) : string :=
  String "_" (String (hex_digit (byte_of c `div` 16)) (String (hex_digit (byte_of c `mod` 16)) "")).

(** The loop of [dbusUnitEscape] from index [i], with [first] for [i = 0]. *)
Fixpoint dbusUnitEscape_loop (first : bool) (name : string) : string :=
  match name with
  | EmptyString => ""
  | String c rest =>
      if isAlpha c || (isDigit c && negb first)
      then String c (dbusUnitEscape_loop false rest)
      else escape_byte c +:+ dbusUnitEscape_loop false rest
  end.

Definition dbusUnitEscape (name : string) : string := dbusUnitEscape_loop true name.

Definition unhex (c : ascii) : Z :=
  if in_range "0" "9" c then byte_of c - byte_of "0"
  else if in_range "a" "f" c then byte_of c - byte_of "a" + 10
  else if in_range "A" "F" c then byte_of c - byte_of "A" + 10
  else -1.

Fixpoint dbusUnitUnescape_loop (s : string) : string :=
  match s with
  | EmptyString => ""
  | String c s' =>
      match s' with
      | String h (String l rest) =>
          if decide (c = "_"%char) then
            let hi := unhex h in
            let lo := unhex l in
            if (0 <=? hi)%Z && (0 <=? lo)%Z
            then String (of_byte (Z.lor (Z.shiftl hi 4) lo)) (dbusUnitUnescape_loop rest)
            else String c (dbusUnitUnescape_loop s')
          else String c (dbusUnitUnescape_loop s')
      | _ => String c (dbusUnitUnescape_loop s')
      end
  end.

Definition dbusUnitUnescape (escaped : string) : string :=
  if decide (escaped = "_") then "" else dbusUnitUnescape_loop escaped.

(** [strings.LastIndexByte], with [None] for -1. *)
Fixpoint last_index_byte (s : string) (b : ascii) : option nat :=
  match s with
  | EmptyString => None
  | String c s' =>
      match last_index_byte s' b with
      | Some i => Some (S i)
      | None => if decide (c = b) then Some 0 else None
      end
  end.

Definition pathBase (p : string) : string :=
  match last_index_byte p "/" with
  | Some i => sdrop (S i) p
  | None => p
  end.

(** [string(b)] for a byte: the UTF-8 encoding of that code point. *)
Definition rune_string (c : ascii) : string :=
  if (byte_of c <? 128)%Z then String c ""
  else String (of_byte (192 + byte_of c `div` 64)) (String (of_byte (128 + byte_of c `mod` 64)) "").

(** The loop of [vethName], over the UID read backwards. *)
Fixpoint vethName_loop (rev_uid : list ascii) (clean : string) : string :=
  match rev_uid with
  | [] => clean
  | c :: rest =>
      if (len clean <? 8)%nat
      then vethName_loop rest (if decide (c = "-"%char) then clean else rune_string c +:+ clean)
      else clean
  end.

Definition vethName (podUID : string) : string :=
  "veth" +:+ vethName_loop (reverse (String.list_ascii_of_string podUID)) "".

(** ** Unit names and their parsers *)

Lemma get_app_r (a b : string) i : String.get (len a + i) (a +:+ b) = String.get i b.
Proof. induction a as [|c a IH]; cbn; auto. Qed.

Lemma index_byte_None_get (s : string) c i : index_byte s c = None → String.get i s ≠ Some c.
Proof.
  revert i. induction s as [|d s IH]; intros i; cbn; [done|].
  case_decide as Hd; [done|]. destruct (index_byte s c) eqn:Hs; [done|].
  intros _. destruct i as [|i]; cbn; [congruence|by apply IH].
Qed.

(** A byte that does not occur in a suffix lies before the suffix. *)
Lemma suffix_after_byte (a b suf : string) c :
  has_suffix (a +:+ String c b) suf = true → index_byte suf c = None → len suf ≤ len b.
Proof.
  intros Hs Hn. destruct (decide (len suf ≤ len b)) as [|Hlt]; [done|exfalso].
  assert (len suf ≤ len (a +:+ String c b)) as Hle.
  { unfold has_suffix in Hs. apply andb_true_iff in Hs as [Hs _]. by apply Nat.leb_le in Hs. }
  set (n := len (a +:+ String c b) - len suf) in *.
  set (i := len a - n).
  pose proof (has_suffix_spec _ _ Hs) as Heq. fold n in Heq.
  rewrite length_app in Hle. cbn in Hle.
  assert (len (stake n (a +:+ String c b)) = n) as Hn'.
  { rewrite length_stake, length_app. cbn. subst n. rewrite length_app in *. cbn in *. lia. }
  assert (n + i = len a) as Hi.
  { subst n i. rewrite length_app in *. cbn in *. lia. }
  apply (index_byte_None_get suf c i Hn).
  rewrite <- (get_app_r (stake n (a +:+ String c b)) suf i).
  rewrite <- Heq, Hn', Hi.
  replace (len a) with (len a + 0) by lia. by rewrite get_app_r.
Qed.

(** A slice within bounds splits the string. *)
Lemma slice_bounds (s : string) i j :
  i ≤ j → j ≤ len s → ∃ a b c, s = a +:+ b +:+ c ∧ len a = i ∧ len b = j - i ∧ slice s i j = Some b.
Proof.
  intros Hij Hj. exists (stake i s), (stake (j - i) (sdrop i s)), (sdrop (j - i) (sdrop i s)).
  rewrite !stake_sdrop. repeat split.
  - rewrite length_stake. lia.
  - rewrite length_stake, length_sdrop. lia.
  - unfold slice. by rewrite !(proj2 (Nat.leb_le _ _)) by lia.
Qed.

Lemma wrapperUnitName_assoc pawn uid c :
  wrapperUnitName pawn uid c
  = ("perigeos-" +:+ pawn +:+ "-pod-") +:+ (uid +:+ "-" +:+ c) +:+ ".service".
Proof. unfold wrapperUnitName. by rewrite <- !app_assoc. Qed.

(** The part of [ParseUnitName] after its guard, on a name cut at the
    prefix and the suffix. *)
Lemma ParseUnitName_cut pawn inner :
  ParseUnitName pawn (("perigeos-" +:+ pawn +:+ "-pod-") +:+ inner +:+ ".service")
  = if (len inner <? 38)%nat then Some ("", "")
    else Some (stake 36 inner, sdrop 37 inner).
Proof.
  unfold ParseUnitName, has_prefix.
  set (p := "perigeos-" +:+ pawn +:+ "-pod-").
  rewrite prefix_app. rewrite (app_assoc p inner), has_suffix_app. cbn [negb orb].
  rewrite <- app_assoc, !length_app.
  replace (len p + (len inner + len ".service") - len ".service") with (len p + len inner) by lia.
  rewrite slice_mid. cbn [mbind option_bind].
  case_match eqn:Hl; [done|]. apply Nat.ltb_ge in Hl.
  unfold slice. rewrite !(proj2 (Nat.leb_le _ _)) by lia. cbn [andb mbind option_bind].
  rewrite <- length_sdrop, stake_all. done.
Qed.

Lemma ParseUnitName_wrapper pawn uid c :
  len uid = 36 → c ≠ "" → ParseUnitName pawn (wrapperUnitName pawn uid c) = Some (uid, c).
Proof.
  intros Hu Hc. rewrite wrapperUnitName_assoc, ParseUnitName_cut, !length_app.
  destruct c as [|x c]; [done|]. cbn [String.length].
  rewrite (proj2 (Nat.ltb_ge _ _)) by lia.
  rewrite <- Hu at 1. rewrite stake_app.
  replace 37 with (len uid + 1) by lia. rewrite <- sdrop_sdrop, sdrop_app. done.
Qed.

(** A name that passes the guard is a prefix, an inner part and a suffix that
    do not overlap. *)
Lemma ParseUnitName_guard pawn u :
  has_prefix u ("perigeos-" +:+ pawn +:+ "-pod-") = true → has_suffix u ".service" = true →
  ∃ inner, u = ("perigeos-" +:+ pawn +:+ "-pod-") +:+ inner +:+ ".service".
Proof.
  intros Hp Hs. unfold has_prefix in Hp. apply prefix_spec in Hp as [b ->].
  assert (len ".service" ≤ len b) as Hlen.
  { apply (suffix_after_byte ("perigeos-" +:+ pawn +:+ "-pod") b _ "-"); [|reflexivity].
    rewrite <- !app_assoc in Hs |- *. exact Hs. }
  pose proof (has_suffix_spec _ _ Hs) as Heq.
  rewrite <- (stake_sdrop (len b - len ".service") b) in Heq |- *.
  set (i := stake _ b) in *. set (t := sdrop _ b) in *.
  rewrite app_assoc in Heq. apply app_inj_length in Heq as [_ Ht].
  - exists i. by rewrite Ht.
  - rewrite length_stake, !length_app. unfold i, t.
    rewrite length_stake, length_sdrop. lia.
Qed.

Lemma ParseUnitName_Some pawn u :
  ∃ uid c, ParseUnitName pawn u = Some (uid, c) ∧
    (c = "" ∧ uid = "" ∨
     len uid = 36 ∧ c ≠ "" ∧ ∃ sep, len sep = 1 ∧
       u = ("perigeos-" +:+ pawn +:+ "-pod-") +:+ (uid +:+ sep +:+ c) +:+ ".service").
Proof.
  destruct (has_prefix u ("perigeos-" +:+ pawn +:+ "-pod-")) eqn:Hp;
    [destruct (has_suffix u ".service") eqn:Hs|];
    try (exists "", ""; split; [unfold ParseUnitName; by rewrite Hp, ?Hs|by left]).
  destruct (ParseUnitName_guard _ _ Hp Hs) as [inner ->].
  rewrite ParseUnitName_cut. case_match eqn:Hl.
  - exists "", "". split; [done|by left].
  - apply Nat.ltb_ge in Hl. exists (stake 36 inner), (sdrop 37 inner). split; [done|right].
    split; [rewrite length_stake; lia|]. split.
    + intros He. pose proof (length_sdrop 37 inner) as Hd. rewrite He in Hd. cbn in Hd. lia.
    + exists (stake 1 (sdrop 36 inner)). split; [rewrite length_stake, length_sdrop; lia|].
      replace (sdrop 37 inner) with (sdrop 1 (sdrop 36 inner)) by (by rewrite sdrop_sdrop).
      by rewrite !stake_sdrop.
Qed.

(** ** The pawn-independent parser *)

Lemma prefix_app_long (p a b : string) :
  len p ≤ len a → String.prefix p (a +:+ b) = String.prefix p a.
Proof.
  revert a. induction p as [|c p IH]; intros a Hl; [by destruct a, b|].
  destruct a as [|d a]; cbn in Hl; [lia|]. cbn.
  destruct (Ascii.ascii_dec c d); [apply IH; lia|done].
Qed.

(** The first occurrence of a marker [m ++ String x ""] that does not occur
    before is where it was put. *)
Lemma index_first (a m b : string) x :
  index (a +:+ m) (m +:+ String x "") = None →
  index (a +:+ (m +:+ String x "") +:+ b) (m +:+ String x "") = Some (len a).
Proof.
  induction a as [|c a IH]; intros Hn.
  - apply index_prefix. apply (prefix_app (m +:+ String x "") b).
  - change (String c a +:+ (m +:+ String x "") +:+ b)
      with (String c (a +:+ (m +:+ String x "") +:+ b)).
    change (String c a +:+ m) with (String c (a +:+ m)) in Hn.
    rewrite index_cons in Hn |- *.
    destruct (String.prefix (m +:+ String x "") (String c (a +:+ m))) eqn:Hp; [done|].
    destruct (index (a +:+ m) _) eqn:Hi; [done|]. rewrite IH by done.
    replace (String c (a +:+ (m +:+ String x "") +:+ b))
      with (String c (a +:+ m) +:+ String x b)
      by (rewrite <- !app_assoc; cbn; by rewrite <- app_assoc).
    rewrite prefix_app_long, Hp; [done|]. cbn. rewrite !length_app. cbn. lia.
Qed.

(** A pawn name in which the marker of the UID cannot be mistaken: ["-pod-"]
    does not occur in it, also not across its end. *)
Definition pawn_unambiguous (pawn : string) : Prop := index (pawn +:+ "-pod") "-pod-" = None.

Lemma ParseContainerFromUnit_cut pawn inner :
  pawn_unambiguous pawn →
  ParseContainerFromUnit_run (("perigeos-" +:+ pawn +:+ "-pod-") +:+ inner +:+ ".service")
  = if (len inner <? 38)%nat then Some "" else Some (sdrop 37 inner).
Proof.
  intros Hp. unfold ParseContainerFromUnit_run.
  set (u := ("perigeos-" +:+ pawn +:+ "-pod-") +:+ inner +:+ ".service").
  assert (has_suffix u ".service" = true) as -> by (unfold u; rewrite app_assoc; apply has_suffix_app).
  assert (u = "perigeos-" +:+ (pawn +:+ "-pod-" +:+ inner +:+ ".service")) as Hu
    by (unfold u; by rewrite <- !app_assoc).
  rewrite (index_prefix u "perigeos-") by (rewrite Hu; apply prefix_app). cbn [negb].
  change (0 + len "perigeos-") with (len "perigeos-"). rewrite Hu, slice_tail.
  cbn [mbind option_bind].
  pose proof (index_first pawn "-pod" (inner +:+ ".service") "-" Hp) as Hi.
  change ("-pod" +:+ "-") with "-pod-" in Hi. rewrite Hi.
  replace (len pawn + 5) with (len (pawn +:+ "-pod-")) by (rewrite length_app; done).
  rewrite (app_assoc pawn "-pod-"), slice_tail. cbn [mbind option_bind].
  rewrite length_app, (proj2 (Nat.ltb_ge _ _)) by lia.
  replace (len inner + len ".service" - len ".service") with (len inner) by lia.
  rewrite slice_head. cbn [mbind option_bind].
  case_match eqn:Hl; [done|]. apply Nat.ltb_ge in Hl.
  unfold slice. rewrite !(proj2 (Nat.leb_le _ _)) by lia. cbn [andb].
  by rewrite <- length_sdrop, stake_all.
Qed.

Lemma slice_Some (s : string) i j : i ≤ j → j ≤ len s → ∃ t, slice s i j = Some t ∧ len t = j - i.
Proof. intros. destruct (slice_bounds s i j) as (a & b & c & ? & ? & ? & ?); eauto. Qed.

Lemma slice_from (s : string) i : i ≤ len s → slice s i (len s) = Some (sdrop i s).
Proof.
  intros. unfold slice. rewrite !(proj2 (Nat.leb_le _ _)) by lia. cbn [andb].
  by rewrite <- length_sdrop, stake_all.
Qed.

(** The suffix of a string after an occurrence of ["-pod-"] still ends in
    [".service"] when the whole string does. *)
Lemma pod_suffix (u rest : string) a k :
  u = a +:+ rest → has_suffix u ".service" = true → index rest "-pod-" = Some k →
  len ".service" ≤ len (sdrop (k + 5) rest).
Proof.
  intros -> Hs Hk. apply index_Some in Hk as [Hp Hle]. apply prefix_spec in Hp as [b Hb].
  assert (sdrop (k + 5) rest = b) as ->.
  { rewrite <- sdrop_sdrop, Hb. apply (sdrop_app "-pod-" b). }
  apply (suffix_after_byte (a +:+ stake k rest +:+ "-pod") b _ "-"); [|reflexivity].
  replace ((a +:+ stake k rest +:+ "-pod") +:+ String "-" b) with (a +:+ rest); [done|].
  rewrite <- (stake_sdrop k rest) at 1. rewrite Hb. by rewrite <- !app_assoc.
Qed.

Lemma ParseContainerFromUnit_run_total u : is_Some (ParseContainerFromUnit_run u).
Proof.
  unfold ParseContainerFromUnit_run.
  destruct (has_suffix u ".service") eqn:Hs; cbn [negb]; [|by eexists].
  destruct (index u "perigeos-") as [i|] eqn:Hi; [|by eexists].
  apply index_Some in Hi as [_ Hi]. rewrite slice_from by done. cbn [mbind option_bind].
  set (rest := sdrop (i + len "perigeos-") u).
  destruct (index rest "-pod-") as [k|] eqn:Hk; [|by eexists].
  assert (len ".service" ≤ len (sdrop (k + 5) rest)) as Hlen.
  { eapply (pod_suffix u rest (stake (i + len "perigeos-") u)); [|done|done].
    symmetry. apply stake_sdrop. }
  apply index_Some in Hk as [_ Hk].
  rewrite slice_from by done. cbn [mbind option_bind].
  rewrite (proj2 (Nat.ltb_ge _ _)) by done.
  destruct (slice_Some (sdrop (k + 5) rest) 0 (len (sdrop (k + 5) rest) - len ".service"))
    as (t & Ht & _); [lia|lia|].
  rewrite Ht. cbn [mbind option_bind]. case_match eqn:Hl; [by eexists|].
  apply Nat.ltb_ge in Hl. rewrite slice_from by lia. by eexists.
Qed.

(** ** D-Bus path escaping *)

Lemma escape_byte_unhex c :
  ∃ h l, escape_byte c = String "_" (String h (String l "")) ∧
    ((0 <=? unhex h)%Z && (0 <=? unhex l)%Z) = true ∧
    of_byte (Z.lor (Z.shiftl (unhex h) 4) (unhex l)) = c.
Proof.
  eexists _, _. split; [reflexivity|].
  destruct c as [[] [] [] [] [] [] [] []]; vm_compute; done.
Qed.

Lemma isAlpha_isDigit_not_special c d :
  isAlpha c || (isDigit c && d) = true → c ≠ "_"%char ∧ c ≠ "/"%char.
Proof. destruct c as [[] [] [] [] [] [] [] []], d; vm_compute; done. Qed.

Lemma unescape_plain c s :
  c ≠ "_"%char → dbusUnitUnescape_loop (String c s) = String c (dbusUnitUnescape_loop s).
Proof. intros Hc. destruct s as [|? [|? ?]]; cbn; [done|done|]. by rewrite decide_False. Qed.

Lemma unescape_escape_byte c s :
  dbusUnitUnescape_loop (escape_byte c +:+ s) = String c (dbusUnitUnescape_loop s).
Proof.
  destruct (escape_byte_unhex c) as (h & l & -> & Hpos & Hc).
  cbn -[Z.leb Z.lor Z.shiftl unhex]. by rewrite Hpos, Hc.
Qed.

Lemma unescape_escape_loop first s :
  dbusUnitUnescape_loop (dbusUnitEscape_loop first s) = s.
Proof.
  revert first. induction s as [|c s IH]; intros first; [done|].
  cbn [dbusUnitEscape_loop]. case_match eqn:Hc.
  - apply isAlpha_isDigit_not_special in Hc as [Hc _]. by rewrite unescape_plain, IH.
  - by rewrite unescape_escape_byte, IH.
Qed.

Lemma escape_loop_not_underscore first s : dbusUnitEscape_loop first s ≠ "_".
Proof.
  destruct s as [|c s]; [done|]. cbn [dbusUnitEscape_loop]. case_match eqn:Hc; [|done].
  apply isAlpha_isDigit_not_special in Hc as [Hc _]. intros [=]. done.
Qed.

Lemma unescape_escape s : dbusUnitUnescape (dbusUnitEscape s) = s.
Proof.
  unfold dbusUnitUnescape, dbusUnitEscape.
  rewrite decide_False by apply escape_loop_not_underscore. apply unescape_escape_loop.
Qed.

Lemma escape_no_slash first s : last_index_byte (dbusUnitEscape_loop first s) "/" = None.
Proof.
  revert first. induction s as [|c s IH]; intros first; [done|].
  cbn [dbusUnitEscape_loop]. case_match eqn:Hc.
  - apply isAlpha_isDigit_not_special in Hc as [_ Hc]. cbn. by rewrite IH, decide_False.
  - unfold escape_byte. cbn -[hex_digit Z.div Z.modulo]. rewrite IH.
    rewrite !decide_False; [done|..];
      destruct c as [[] [] [] [] [] [] [] []]; vm_compute; done.
Qed.

Lemma last_index_byte_app a c s :
  last_index_byte s c = None → last_index_byte (a +:+ String c s) c = Some (len a).
Proof.
  intros Hs. induction a as [|x a IH]; cbn.
  - by rewrite Hs, decide_True.
  - by rewrite IH.
Qed.

Lemma pathBase_app dir s :
  last_index_byte s "/" = None → pathBase (dir +:+ String "/" s) = s.
Proof.
  intros Hs. unfold pathBase. rewrite last_index_byte_app by done.
  replace (S (len dir)) with (len dir + 1) by lia. rewrite <- sdrop_sdrop, sdrop_app. done.
Qed.

(** ** Interface names *)

Lemma rune_string_length c : 1 ≤ len (rune_string c) ≤ 2.
Proof. unfold rune_string. case_match; cbn; lia. Qed.

Lemma vethName_loop_length l clean : len clean ≤ 9 → len (vethName_loop l clean) ≤ 9.
Proof.
  revert clean. induction l as [|c l IH]; intros clean Hc; cbn [vethName_loop]; [done|].
  case_match eqn:Hl; [|done]. apply Nat.ltb_lt in Hl. apply IH.
  case_decide; [done|]. rewrite length_app. pose proof (rune_string_length c). lia.
Qed.

(** ** Properties *)

(** A systemd D-Bus signal for the unit of a container, whose object path
    ends in the escaped unit name, is decoded by [dbusUnitUnescape],
    [pathBase] and [ParseUnitName] to exactly the pod UID and the container
    name the unit was created for, for every pawn name, container name and
    36-character UID. *)
Theorem unit_event_roundtrip dir pawn uid c :
  len uid = 36 → c ≠ "" →
  ParseUnitName pawn
    (dbusUnitUnescape (pathBase (dir +:+ "/" +:+ dbusUnitEscape (wrapperUnitName pawn uid c))))
  = Some (uid, c).
Proof.
  intros Hu Hc.
  change ("/" +:+ dbusUnitEscape (wrapperUnitName pawn uid c))
    with (String "/" (dbusUnitEscape (wrapperUnitName pawn uid c))).
  rewrite pathBase_app by apply escape_no_slash.
  rewrite unescape_escape. by apply ParseUnitName_wrapper.
Qed.

Lemma unit_event_roundtrip_witness :
  ParseUnitName "compute-00"
    (dbusUnitUnescape (pathBase ("/org/freedesktop/systemd1/unit" +:+ "/" +:+ dbusUnitEscape
      (wrapperUnitName "compute-00" "0b7c3d52-6a43-4c11-9f0e-7d0c1b2a3f4e" "web"))))
  = Some ("0b7c3d52-6a43-4c11-9f0e-7d0c1b2a3f4e", "web").
Proof. apply (unit_event_roundtrip "/org/freedesktop/systemd1/unit"); vm_compute; done. Defined.

(** [ParseUnitName] never slices out of range, whatever string it is
    given; what it returns is either the pair of empty strings or the UID and
    container name cut from a name of the documented shape, except that the
    byte between them is not checked to be a hyphen. *)
Theorem ParseUnitName_sound pawn u :
  ∃ uid c, ParseUnitName pawn u = Some (uid, c) ∧
    (c = "" ∧ uid = "" ∨
     len uid = 36 ∧ c ≠ "" ∧ ∃ sep, len sep = 1 ∧
       u = ("perigeos-" +:+ pawn +:+ "-pod-") +:+ (uid +:+ sep +:+ c) +:+ ".service").
Proof. apply ParseUnitName_Some. Qed.

(** [ParseContainerFromUnit], which does not know the pawn, never slices
    out of range; and on every unit name that [ParseUnitName] accepts for a
    pawn in whose name ["-pod-"] cannot be mistaken it returns the same
    container name. *)
Theorem ParseContainerFromUnit_agrees pawn u uid c :
  pawn_unambiguous pawn → ParseUnitName pawn u = Some (uid, c) → c ≠ "" →
  is_Some (ParseContainerFromUnit_run u) ∧ ParseContainerFromUnit u = c.
Proof.
  intros Hp Hu Hc. split; [apply ParseContainerFromUnit_run_total|].
  destruct (ParseUnitName_Some pawn u) as (uid' & c' & Hu' & [[-> ->]|(Hl & _ & sep & Hsep & ->)]);
    [congruence|].
  rewrite Hu in Hu'. simplify_eq. unfold ParseContainerFromUnit.
  rewrite ParseContainerFromUnit_cut by done. rewrite !length_app.
  destruct c' as [|x c']; [done|]. rewrite (proj2 (Nat.ltb_ge _ _)) by (cbn; lia). cbn [default].
  replace 37 with (len uid' + len sep) by lia. by rewrite <- sdrop_sdrop, !sdrop_app.
Qed.

Lemma ParseContainerFromUnit_agrees_witness :
  ParseContainerFromUnit
    (wrapperUnitName "compute-00" "0b7c3d52-6a43-4c11-9f0e-7d0c1b2a3f4e" "web") = "web".
Proof.
  apply (ParseContainerFromUnit_agrees "compute-00" _ "0b7c3d52-6a43-4c11-9f0e-7d0c1b2a3f4e" "web");
    vm_compute; done.
Defined.

(** Defect: the two parsers disagree for a pawn whose name ends in ["-pod"]: the
    pawn-independent one cuts at the first marker and reads the container
    name four bytes too early. *)
Theorem ParseContainerFromUnit_ambiguous :
  let u := wrapperUnitName "edge-pod" "0b7c3d52-6a43-4c11-9f0e-7d0c1b2a3f4e" "web" in
  ParseUnitName "edge-pod" u = Some ("0b7c3d52-6a43-4c11-9f0e-7d0c1b2a3f4e", "web") ∧
  ParseContainerFromUnit u = "f4e-web".
Proof. vm_compute. done. Qed.

(** The host interface name of a pod fits the 15 bytes that Linux allows,
    for every UID. *)
Theorem vethName_fits uid : len (vethName uid) ≤ 15.
Proof.
  unfold vethName. rewrite length_app.
  pose proof (vethName_loop_length (reverse (String.list_ascii_of_string uid)) "" ltac:(cbn; lia)).
  cbn [String.length]. lia.
Qed.
