(* ===== verification/Stats.v ===== *)
(** * Resource usage (internal/stats/cgroup.go, internal/psi/psi.go)

    The usage of a pawn and of its containers as the cgroup files report it,
    and the pressure of the host. [fs] is the content of a file at the time of
    the call, [None] when it cannot be opened. [fmt.Sscanf] with floating
    point verbs is an argument. *)
From Stdlib Require Import QArith.QArith_base.
From stdpp Require Import pretty.
From S2P Require Import Prelude Paths Text UnitNames.
Import Str.

Inductive StatErr :=
  | OpenFailed (path : string)
  | NotFoundIn (path : string)
  | ParseFailed (path : string) (e : NumErr).

Definition cgroupRoot : string := "/sys/fs/cgroup".

Definition cgroupPawnSlice (pawnName : string) : string :=
  pathJoin [cgroupRoot; "perigeos-" +:+ pawnName +:+ ".slice"].

Definition cgroupServicePath (pawnName podUID containerName : string) : string :=
  pathJoin [cgroupPawnSlice pawnName;
            "perigeos-" +:+ pawnName +:+ "-pod-" +:+ podUID +:+ "-" +:+ containerName +:+ ".service"].

(** The second field of the first line that starts with [key] and a space and
    has two fields. *)
Definition statField (key line : string) : option string :=
  if has_prefix line (key +:+ " ") then
    match Fields line with
    | [_; v] => Some v
    | _ => None
    end
  else None.

Definition statLookup (key content : string) : option string := head (omap (statField key) (scanLines content)).

Section Files.
Context (fs : string → option string).

Definition readCPUStat (cgDir : string) : StatErr + Z :=
  let path := pathJoin [cgDir; "cpu.stat"] in
  match fs path with
  | None => inl (OpenFailed path)
  | Some content =>
      match statLookup "usage_usec" content with
      | Some v => match ParseUint v with inr n => inr n | inl e => inl (ParseFailed path e) end
      | None => inl (NotFoundIn path)
      end
  end.

Definition readMemoryCurrent (cgDir : string) : StatErr + Z :=
  let path := pathJoin [cgDir; "memory.current"] in
  match fs path with
  | None => inl (OpenFailed path)
  | Some content =>
      match ParseUint (TrimSpace content) with
      | inr n => inr n
      | inl e => inl (ParseFailed path e)
      end
  end.

(** The value is returned beside the error; the callers use the value. *)
Definition readMemoryInactive (cgDir : string) : Z * option StatErr :=
  let path := pathJoin [cgDir; "memory.stat"] in
  match fs path with
  | None => (0%Z, Some (OpenFailed path))
  | Some content =>
      match statLookup "inactive_file" content with
      | Some v => (ParseUint_value v, match ParseUint v with inr _ => None | inl e => Some (ParseFailed path e) end)
      | None => (0%Z, None)
      end
  end.

Definition ReadContainerCPU (pawnName podUID containerName : string) : StatErr + Z :=
  match readCPUStat (cgroupServicePath pawnName podUID containerName) with
  | inr usageUsec => inr (u64 (usageUsec * 1000))
  | inl e => inl e
  end.

Definition ReadContainerMemory (pawnName podUID containerName : string) : StatErr + Z * Z :=
  let cgDir := cgroupServicePath pawnName podUID containerName in
  match readMemoryCurrent cgDir with
  | inl e => inl e
  | inr usage =>
      let inactive := fst (readMemoryInactive cgDir) in
      inr (usage, if (inactive <? usage)%Z then usage - inactive else usage)%Z
  end.

Definition ReadSliceCPU (pawnName : string) : StatErr + Z :=
  match readCPUStat (cgroupPawnSlice pawnName) with
  | inr usageUsec => inr (u64 (usageUsec * 1000))
  | inl e => inl e
  end.

Definition ReadSliceMemory (pawnName : string) : StatErr + Z * Z :=
  let cgDir := cgroupPawnSlice pawnName in
  match readMemoryCurrent cgDir with
  | inl e => inl e
  | inr usage =>
      let inactive := fst (readMemoryInactive cgDir) in
      inr (usage, if (inactive <? usage)%Z then usage - inactive else usage)%Z
  end.

End Files.

(** ** The files as the kernel writes them *)

(** [cpu.stat] and [memory.stat]: a line for each key. *)
Definition flatKeyed (l : list (string * Z)) : string :=
  unlines (map (λ kv, kv.1 +:+ " " +:+ pretty kv.2) l).

Definition keyed (l : list (string * Z)) : Prop :=
  Forall (λ kv, word kv.1 ∧ 0 <= kv.2 <= maxUint64)%Z l.

Lemma statField_printed key k v :
  word k → word key → (0 <= v)%Z →
  statField key (k +:+ " " +:+ pretty v) = if decide (k = key) then Some (pretty v) else None.
Proof.
  intros Hk Hkey Hv. unfold statField. rewrite has_prefix_words by (apply Hk || apply Hkey).
  destruct (decide (k = key)) as [->|Hne]; [|by rewrite bool_decide_false].
  rewrite bool_decide_true by done. by rewrite Fields_two by eauto using pretty_word.
Qed.

Definition keyValue (key : string) (l : list (string * Z)) : option Z :=
  head (omap (λ kv, if decide (kv.1 = key) then Some kv.2 else None) l).

Lemma statLookup_printed key l :
  word key → keyed l → statLookup key (flatKeyed l) = pretty <$> keyValue key l.
Proof.
  intros Hkey Hl. unfold statLookup, flatKeyed. rewrite scanLines_unlines.
  - induction Hl as [|[k v] l [Hk Hv] Hl IH]; [done|]. cbn [map omap list_omap fst snd] in *.
    rewrite statField_printed by (done || lia). unfold keyValue. cbn [omap list_omap fst snd].
    destruct (decide (k = key)); [done|exact IH].
  - apply Forall_map. eapply Forall_impl; [exact Hl|]. intros [k v] [Hk Hv]. cbn in *.
    apply oneLine_inLine. rewrite !inLine_app, (inLine_noSpace k), (inLine_noSpace (pretty v)); [done| |apply Hk].
    apply pretty_word. lia.
Qed.

Lemma keyValue_range key l v : keyed l → keyValue key l = Some v → (0 <= v <= maxUint64)%Z.
Proof.
  intros Hl. induction Hl as [|[k x] l [_ Hx] Hl IH]; [done|]. unfold keyValue. cbn.
  destruct (decide (k = key)); cbn; [by intros [= <-]|exact IH].
Qed.

(** A cgroup with accounting: what its files hold. *)
Record Cgroup := { cg_cpu : list (string * Z); cg_current : Z; cg_memory : list (string * Z) }.

Definition holds_cgroup (fs : string → option string) (dir : string) (cg : Cgroup) : Prop :=
  keyed cg.(cg_cpu) ∧ keyed cg.(cg_memory) ∧ (0 <= cg.(cg_current) <= maxUint64)%Z ∧
  fs (pathJoin [dir; "cpu.stat"]) = Some (flatKeyed cg.(cg_cpu)) ∧
  fs (pathJoin [dir; "memory.current"]) = Some (pretty cg.(cg_current) +:+ nl) ∧
  fs (pathJoin [dir; "memory.stat"]) = Some (flatKeyed cg.(cg_memory)).

Section Reading.
Context (fs : string → option string) (dir : string) (cg : Cgroup) (Hcg : holds_cgroup fs dir cg).

Lemma readCPUStat_reads :
  readCPUStat fs dir = match keyValue "usage_usec" cg.(cg_cpu) with
                       | Some v => inr v
                       | None => inl (NotFoundIn (pathJoin [dir; "cpu.stat"]))
                       end.
Proof.
  destruct Hcg as (Hc & _ & _ & Hf & _). unfold readCPUStat. rewrite Hf, statLookup_printed by (done || by split).
  destruct (keyValue _ _) as [v|] eqn:Hv; [|done]. cbn [fmap option_fmap option_map].
  by rewrite ParseUint_pretty by eauto using keyValue_range.
Qed.

Lemma readMemoryCurrent_reads : readMemoryCurrent fs dir = inr cg.(cg_current).
Proof.
  destruct Hcg as (_ & _ & Hu & _ & Hf & _). unfold readMemoryCurrent. rewrite Hf.
  rewrite TrimSpace_line by (apply pretty_word; lia). by rewrite ParseUint_pretty.
Qed.

Lemma readMemoryInactive_reads :
  readMemoryInactive fs dir = (default 0%Z (keyValue "inactive_file" cg.(cg_memory)), None).
Proof.
  destruct Hcg as (_ & Hm & _ & _ & _ & Hf). unfold readMemoryInactive. rewrite Hf, statLookup_printed by (done || by split).
  destruct (keyValue _ _) as [v|] eqn:Hv; [|done]. cbn [fmap option_fmap option_map from_option id].
  by rewrite ParseUint_value_pretty, ParseUint_pretty by eauto using keyValue_range.
Qed.

(** The working set: the usage without the file cache that is not in use. *)
Definition workingSet : Z :=
  let inactive := default 0%Z (keyValue "inactive_file" cg.(cg_memory)) in
  if (inactive <? cg.(cg_current))%Z then cg.(cg_current) - inactive else cg.(cg_current).

Lemma workingSet_range : (0 <= workingSet <= cg.(cg_current))%Z.
Proof.
  destruct Hcg as (_ & Hm & Hu & _). unfold workingSet.
  destruct (keyValue "inactive_file" (cg_memory cg)) as [v|] eqn:Hv; cbn [from_option id].
  - apply keyValue_range in Hv; [|done]. destruct (Z.ltb_spec v (cg_current cg)); lia.
  - destruct (Z.ltb_spec 0 (cg_current cg)); lia.
Qed.

End Reading.

Lemma u64_id z : (0 <= z <= maxUint64)%Z → u64 z = z.
Proof. intros Hz. unfold u64, maxUint64 in *. apply Z.mod_small. lia. Qed.

(** What the kernel wrote is what is reported: the usage of a cgroup is
    read back exactly, the working set is the usage without the inactive file
    cache and never exceeds the usage, and the CPU time comes back in
    nanoseconds; for the slice of a pawn and for a container alike. *)
Theorem cgroup_readings fs pawn uid container cg :
  holds_cgroup fs (cgroupPawnSlice pawn) cg →
  holds_cgroup fs (cgroupServicePath pawn uid container) cg →
  ReadSliceMemory fs pawn = inr (cg.(cg_current), workingSet cg) ∧
  ReadContainerMemory fs pawn uid container = inr (cg.(cg_current), workingSet cg) ∧
  (0 <= workingSet cg <= cg.(cg_current))%Z ∧
  ∀ usec, keyValue "usage_usec" cg.(cg_cpu) = Some usec → (usec * 1000 <= maxUint64)%Z →
    ReadSliceCPU fs pawn = inr (usec * 1000)%Z ∧ ReadContainerCPU fs pawn uid container = inr (usec * 1000)%Z.
Proof.
  intros Hs Hc. unfold ReadSliceMemory, ReadContainerMemory, ReadSliceCPU, ReadContainerCPU.
  rewrite (readMemoryCurrent_reads _ _ _ Hs), (readMemoryCurrent_reads _ _ _ Hc).
  rewrite (readMemoryInactive_reads _ _ _ Hs), (readMemoryInactive_reads _ _ _ Hc).
  split_and!; [done|done|by eapply workingSet_range|by eapply workingSet_range|]. intros usec Hv Hmax.
  rewrite (readCPUStat_reads _ _ _ Hs), (readCPUStat_reads _ _ _ Hc), Hv.
  apply keyValue_range in Hv; [|apply Hs]. by rewrite u64_id by lia.
Qed.

Definition demoCgroup : Cgroup :=
  {| cg_cpu := [("usage_usec", 1234567%Z); ("user_usec", 1000000%Z)]; cg_current := 1048576%Z;
     cg_memory := [("anon", 65536%Z); ("inactive_file", 4096%Z)] |}.

Definition demoCgroupFiles (dirs : list string) : string → option string := λ path,
  if decide (path ∈ map (λ d, pathJoin [d; "cpu.stat"]) dirs) then Some (flatKeyed demoCgroup.(cg_cpu))
  else if decide (path ∈ map (λ d, pathJoin [d; "memory.current"]) dirs) then Some (pretty demoCgroup.(cg_current) +:+ nl)
  else if decide (path ∈ map (λ d, pathJoin [d; "memory.stat"]) dirs) then Some (flatKeyed demoCgroup.(cg_memory))
  else None.

Ltac keyed_concrete := repeat constructor; vm_compute; congruence.

Lemma cgroup_readings_witness :
  let fs := demoCgroupFiles [cgroupPawnSlice "alpha"; cgroupServicePath "alpha" "uid-1" "app"] in
  ReadSliceMemory fs "alpha" = inr (1048576, 1044480)%Z ∧ ReadContainerCPU fs "alpha" "uid-1" "app" = inr 1234567000%Z.
Proof.
  assert (∀ d, d ∈ [cgroupPawnSlice "alpha"; cgroupServicePath "alpha" "uid-1" "app"] →
    holds_cgroup (demoCgroupFiles [cgroupPawnSlice "alpha"; cgroupServicePath "alpha" "uid-1" "app"]) d demoCgroup) as H.
  { intros d Hd. repeat (apply elem_of_cons in Hd as [->|Hd]); [| |by apply elem_of_nil in Hd].
    all: split_and!; [keyed_concrete|keyed_concrete|vm_compute; congruence|vm_compute; congruence|vm_compute; reflexivity..]. }
  destruct (cgroup_readings _ "alpha" "uid-1" "app" demoCgroup
    (H _ (list_elem_of_here _ _)) (H _ (list_elem_of_further _ _ _ (list_elem_of_here _ _)))) as (H1 & _ & _ & H2).
  split; [exact H1|]. destruct (H2 1234567%Z eq_refl) as [_ H3]; [vm_compute; congruence|exact H3].
Defined.

(** systemd keeps the slice [perigeos-<pawn>.slice] inside [perigeos.slice],
    which is where [countStaleSlices] looks for it. The readers look for it at
    the root of the hierarchy: on such a host nothing is read. *)
Example nested_slice_not_read :
  let fs := demoCgroupFiles [pathJoin [cgroupRoot; "perigeos.slice"; sliceName "alpha"]] in
  ReadSliceMemory fs "alpha" = inl (OpenFailed "/sys/fs/cgroup/perigeos-alpha.slice/memory.current").
Proof. vm_compute. reflexivity. Qed.

(** ** Pressure of the host (internal/psi/psi.go) *)

Record Pressure := { Avg10 : Q; Avg60 : Q; Avg300 : Q }.
Record HostPressure := { hp_CPU : Pressure; hp_Memory : Pressure }.

Inductive PSIErr := PSIOpen (path : string) | PSIParse (path : string) | PSINoLine (path prefix : string).

Section PSI.
Context (fs : string → option string).
(** [fmt.Sscanf(line, prefix+" avg10=%f avg60=%f avg300=%f", ...)] *)
Context (Sscanf : string → string → option Pressure).

Definition parsePSIFile (path prefix : string) : PSIErr + Pressure :=
  match fs path with
  | None => inl (PSIOpen path)
  | Some content =>
      match head (filter (λ line, has_prefix line (prefix +:+ " ") = true) (scanLines content)) with
      | None => inl (PSINoLine path prefix)
      | Some line =>
          match Sscanf line (prefix +:+ " avg10=%f avg60=%f avg300=%f") with
          | Some p => inr p
          | None => inl (PSIParse path)
          end
      end
  end.

Definition psi_Read : PSIErr + HostPressure :=
  match parsePSIFile "/proc/pressure/cpu" "some" with
  | inl e => inl e
  | inr cpu =>
      match parsePSIFile "/proc/pressure/memory" "full" with
      | inl e => inl e
      | inr mem => inr {| hp_CPU := cpu; hp_Memory := mem |}
      end
  end.

(** What the admission of a pod uses of it. *)
Definition admissionPressure : option (Q * Q) :=
  match psi_Read with
  | inr hp => Some (hp.(hp_CPU).(Avg10), hp.(hp_Memory).(Avg10))
  | inl _ => None
  end.

End PSI.
