(* ===== verification/Foci.v ===== *)
(** * The per-pod state machine (internal/foci)

    [PodState] and its operations from state.go, the transition function
    [Reduce] with one definition per kind of fact from reduce.go, and the
    conversions to status payloads from convert.go.

    [Reduce] reads the clock, so every definition that does takes a [Clock]
    with one reading per site of the source: the theorems hold for all
    readings.  The container slice of a [PodState] is a list here; the Go
    slice is shared between the caller's copy and the result, which
    [caller_after] makes explicit. *)
From stdpp Require Import pretty.
From S2P Require Import Prelude Corev1 Types UnitNames.

(** ** State (state.go) *)

Inductive ContainerPhase := PhaseCreating | PhaseRunning | PhaseTerminated | PhaseCrashLoopBackOff.

#[export] Instance ContainerPhase_eq_dec : EqDecision ContainerPhase.
Proof. solve_decision. Defined.

(** [ContainerPhase.String]. *)
Definition ContainerPhase_String (p : ContainerPhase) : string :=
  match p with
  | PhaseCreating => "ContainerCreating"
  | PhaseRunning => "Running"
  | PhaseTerminated => "Terminated"
  | PhaseCrashLoopBackOff => "CrashLoopBackOff"
  end.

Record ProbeSpec := {
  pr_InitialDelaySeconds : Z;
  pr_PeriodSeconds : Z;
  pr_TimeoutSeconds : Z;
  pr_SuccessThreshold : Z;
  pr_FailureThreshold : Z;
}.

Definition zeroProbeSpec : ProbeSpec := {|
  pr_InitialDelaySeconds := 0; pr_PeriodSeconds := 0; pr_TimeoutSeconds := 0;
  pr_SuccessThreshold := 0; pr_FailureThreshold := 0 |}.

Record ContainerSpec := {
  fs_Name : string;
  fs_Image : string;
  fs_HasReadinessProbe : bool;
  fs_HasLivenessProbe : bool;
  fs_HasStartupProbe : bool;
  fs_ReadinessProbe : ProbeSpec;
  fs_LivenessProbe : ProbeSpec;
  fs_StartupProbe : ProbeSpec;
}.

Record PodSpec := {
  sp_RestartPolicy : RestartPolicy;
  sp_Containers : list ContainerSpec;
}.

Record ContainerState := {
  fc_Name : string;
  fc_Image : string;
  fc_Phase : ContainerPhase;
  fc_Ready : bool;
  fc_RestartCount : Z;
  fc_SeenRunning : bool;
  fc_Restarting : bool;
  fc_Backoff : Duration;
  fc_LastStarted : Time;
  fc_ExitCode : Z;
  fc_ExitReason : string;
  fc_StartupPassed : bool;
}.

Record PodState := {
  s_UID : string;
  s_Namespace : string;
  s_Name : string;
  s_PodIP : string;
  s_Spec : PodSpec;
  s_Phase : PodPhase;
  s_Containers : list ContainerState;
}.

(** [PodState{}]. *)
Definition zeroPodState : PodState := {|
  s_UID := ""; s_Namespace := ""; s_Name := ""; s_PodIP := "";
  s_Spec := {| sp_RestartPolicy := RestartPolicyZero; sp_Containers := [] |};
  s_Phase := PhaseZero; s_Containers := [] |}.

(** The readings of the clock during one call of [Reduce]: the [time.Now]
    that sets [LastStarted], the one inside [time.Since], the one for the
    [i]-th container created by a spec, the [metav1.Now] for the [i]-th
    container of a status. *)
Record Clock := {
  clk_now : Time;
  clk_since : Time;
  clk_create : nat → Time;
  clk_status : nat → Time;
}.

Definition FindContainer (s : PodState) (name : string) : option nat :=
  find_index (λ c, bool_decide (c.(fc_Name) = name)) s.(s_Containers).

Definition FindSpec (s : PodState) (name : string) : option nat :=
  find_index (λ c, bool_decide (c.(fs_Name) = name)) s.(s_Spec).(sp_Containers).

Definition RestartBackoffInit : Duration := 10 * Second.
Definition MaxBackoff : Duration := 5 * Minute.
Definition RestartBackoffReset : Duration := 10 * Minute.

Definition newProbeSpec (p : Probe) : ProbeSpec := {|
  pr_InitialDelaySeconds := p.(InitialDelaySeconds);
  pr_PeriodSeconds := p.(PeriodSeconds);
  pr_TimeoutSeconds := p.(TimeoutSeconds);
  pr_SuccessThreshold := p.(SuccessThreshold);
  pr_FailureThreshold := p.(FailureThreshold) |}.

Definition has {A} (o : option A) : bool := match o with Some _ => true | None => false end.

Definition newContainerSpec (c : Container) : ContainerSpec := {|
  fs_Name := c.(c_Name);
  fs_Image := c.(c_Image);
  fs_HasReadinessProbe := has c.(c_ReadinessProbe);
  fs_HasLivenessProbe := has c.(c_LivenessProbe);
  fs_HasStartupProbe := has c.(c_StartupProbe);
  fs_ReadinessProbe := default zeroProbeSpec (newProbeSpec <$> c.(c_ReadinessProbe));
  fs_LivenessProbe := default zeroProbeSpec (newProbeSpec <$> c.(c_LivenessProbe));
  fs_StartupProbe := default zeroProbeSpec (newProbeSpec <$> c.(c_StartupProbe)) |}.

Definition NewPodSpec (pod : Pod) : PodSpec := {|
  sp_RestartPolicy := pod.(p_RestartPolicy);
  sp_Containers := map newContainerSpec pod.(p_Containers) |}.

(** The [ContainerState] literal of a container that starts in Creating. *)
Definition newContainerState (now : Time) (cs : ContainerSpec) : ContainerState := {|
  fc_Name := cs.(fs_Name);
  fc_Image := cs.(fs_Image);
  fc_Phase := PhaseCreating;
  fc_Ready := negb cs.(fs_HasReadinessProbe);
  fc_RestartCount := 0;
  fc_SeenRunning := false;
  fc_Restarting := false;
  fc_Backoff := RestartBackoffInit;
  fc_LastStarted := now;
  fc_ExitCode := 0;
  fc_ExitReason := "";
  fc_StartupPassed := false |}.

Definition NewPodState (clk : Clock) (uid namespace name podIP : string) (pod : Pod) : PodState :=
  let spec := NewPodSpec pod in
  {| s_UID := uid; s_Namespace := namespace; s_Name := name; s_PodIP := podIP;
     s_Spec := spec; s_Phase := PodPending;
     s_Containers := imap (λ i cs, newContainerState (clk.(clk_create) i) cs) spec.(sp_Containers) |}.

(** ** Status payloads (convert.go) *)

Definition containerStateToPayload (now : Time) (cv : ContainerState) : ContainerStatePayload :=
  match cv.(fc_Phase) with
  | PhaseCreating =>
      {| csp_Waiting := Some {| wp_Reason := "ContainerCreating" |};
         csp_Running := None; csp_Terminated := None |}
  | PhaseRunning =>
      {| csp_Waiting := None;
         csp_Running := Some {| rp_StartedAt := cv.(fc_LastStarted) |};
         csp_Terminated := None |}
  | PhaseTerminated =>
      {| csp_Waiting := None; csp_Running := None;
         csp_Terminated := Some {| tp_ExitCode := cv.(fc_ExitCode);
                                   tp_Reason := cv.(fc_ExitReason);
                                   tp_StartedAt := cv.(fc_LastStarted);
                                   tp_FinishedAt := now |} |}
  | PhaseCrashLoopBackOff =>
      {| csp_Waiting := Some {| wp_Reason := "CrashLoopBackOff" |};
         csp_Running := None; csp_Terminated := None |}
  end.

Definition BuildPodStatusPayload (clk : Clock) (state : PodState) : PodStatusPayload :=
  let containerStatuses :=
    imap (λ i cv, {| cp_Name := cv.(fc_Name); cp_Image := cv.(fc_Image);
                     cp_Ready := cv.(fc_Ready); cp_RestartCount := cv.(fc_RestartCount);
                     cp_State := containerStateToPayload (clk.(clk_status) i) cv |})
      state.(s_Containers) in
  let allReady := forallb cp_Ready containerStatuses in
  {| pp_Phase := state.(s_Phase);
     pp_Conditions := [{| pc_Type := "Ready";
                          pc_Status := if allReady then ConditionTrue else ConditionFalse |}];
     pp_ContainerStatuses := containerStatuses;
     pp_HostIP := state.(s_PodIP);
     pp_PodIP := state.(s_PodIP) |}.

Definition payloadToContainerState (p : ContainerStatePayload) : Corev1.ContainerState :=
  match p.(csp_Waiting) with
  | Some w => {| zeroContainerState with
                 Waiting := Some {| w_Reason := w.(wp_Reason); w_Message := "" |} |}
  | None =>
  match p.(csp_Running) with
  | Some r => {| zeroContainerState with Running := Some {| r_StartedAt := r.(rp_StartedAt) |} |}
  | None =>
  match p.(csp_Terminated) with
  | Some t => {| zeroContainerState with
                 Terminated := Some {| t_ExitCode := t.(tp_ExitCode); t_Reason := t.(tp_Reason); t_Message := "";
                                       t_StartedAt := t.(tp_StartedAt);
                                       t_FinishedAt := t.(tp_FinishedAt) |} |}
  | None => {| zeroContainerState with
               Waiting := Some {| w_Reason := "ContainerCreating"; w_Message := "" |} |}
  end end end.

Definition PodStatusPayloadToCorev1 (payload : PodStatusPayload) : PodStatus :=
  {| zeroPodStatus with
     ps_Phase := payload.(pp_Phase);
     ps_Conditions := map (λ c, {| pc_Type := c.(pc_Type); pc_Status := c.(pc_Status) |})
                        payload.(pp_Conditions);
     ps_ContainerStatuses :=
       map (λ cs, {| cs_Name := cs.(cp_Name); cs_Image := cs.(cp_Image); cs_Ready := cs.(cp_Ready);
                     cs_RestartCount := cs.(cp_RestartCount);
                     cs_State := payloadToContainerState cs.(cp_State) |})
         payload.(pp_ContainerStatuses);
     ps_HostIP := payload.(pp_HostIP);
     ps_PodIP := payload.(pp_PodIP) |}.

(** ** Transitions (reduce.go) *)

(** [min] on durations, [shouldRestart]. *)
Definition goMin (a b : Duration) : Duration := if (a <? b)%Z then a else b.

Definition shouldRestart (policy : RestartPolicy) (exitCode : Z) : bool :=
  match policy with
  | RestartPolicyAlways => true
  | RestartPolicyOnFailure => negb (bool_decide (exitCode = 0%Z))
  | _ => false
  end.

(** The flags the loop of [recomputePhase] accumulates. *)
Record PhaseFlags := {
  anyRunning : bool;
  anyCreating : bool;
  anyRestarting : bool;
  allTerminated : bool;
  allSucceeded : bool;
}.

Definition recomputePhase_step (f : PhaseFlags) (cv : ContainerState) : PhaseFlags :=
  match cv.(fc_Phase) with
  | PhaseRunning => {| f with anyRunning := true; allTerminated := false |}
  | PhaseCreating => {| f with anyCreating := true; allTerminated := false |}
  | PhaseCrashLoopBackOff =>
      {| f with anyRestarting := true; allTerminated := false; allSucceeded := false |}
  | PhaseTerminated =>
      if negb (bool_decide (cv.(fc_ExitCode) = 0%Z)) then {| f with allSucceeded := false |} else f
  end.

Definition phaseFlags (cs : list ContainerState) : PhaseFlags :=
  foldl recomputePhase_step
    {| anyRunning := false; anyCreating := false; anyRestarting := false;
       allTerminated := true; allSucceeded := true |} cs.

Definition recomputePhase (clk : Clock) (state : PodState) : PodState * list Effect :=
  let prevPhase := state.(s_Phase) in
  let f := phaseFlags state.(s_Containers) in
  let phase :=
    if f.(anyRunning) then PodRunning
    else if f.(anyCreating) then PodPending
    else if f.(anyRestarting) then PodRunning
    else if f.(allTerminated) then (if f.(allSucceeded) then PodSucceeded else PodFailed)
    else prevPhase in
  let state := {| state with s_Phase := phase |} in
  let status := BuildPodStatusPayload clk state in
  let effects := [UpdateStatus state.(s_UID) state.(s_Namespace) state.(s_Name) status] in
  let terminal :=
    if (bool_decide (phase = PodSucceeded) || bool_decide (phase = PodFailed))
       && negb (bool_decide (prevPhase = phase))
    then SetPodPhase state.(s_UID) phase
         :: map (λ cv, ResetUnit state.(s_UID) cv.(fc_Name)) state.(s_Containers)
    else [] in
  (state, effects ++ terminal ++ [PersistPodState state.(s_UID)]).

(** [idx := state.FindContainer(name)], the early return for -1, and
    [cv := &state.Containers[idx]]. *)
Definition with_container (state : PodState) (name : string)
    (k : nat → ContainerState → PodState * list Effect) : PodState * list Effect :=
  match FindContainer state name with
  | None => (state, [])
  | Some idx =>
      match state.(s_Containers) !! idx with
      | None => (state, [])
      | Some cv => k idx cv
      end
  end.

(** A write through [cv]. *)
Definition set_container (state : PodState) (idx : nat) (cv : ContainerState) : PodState :=
  {| state with s_Containers := <[idx := cv]> state.(s_Containers) |}.

(** [cv.Restarting = true; cv.RestartCount++; cv.Backoff = min(cv.Backoff*2, MaxBackoff)],
    the block in front of every [RestartContainer]. *)
Definition bumpRestart (cv : ContainerState) : ContainerState :=
  {| cv with fc_Restarting := true;
             fc_RestartCount := wrap32 (cv.(fc_RestartCount) + 1);
             fc_Backoff := goMin (wrap64 (cv.(fc_Backoff) * 2)) MaxBackoff |}.

Definition restartEffect (state : PodState) (containerName : string) (cv : ContainerState) : Effect :=
  RestartContainer state.(s_UID) state.(s_Namespace) state.(s_Name) containerName
    cv.(fc_RestartCount) cv.(fc_Backoff).

Definition failedMessage (containerName : string) (exitCode : Z) : string :=
  "Container " +:+ containerName +:+ " exited with error (code " +:+ pretty exitCode +:+ ")".

(** The tail shared by the reducers: recompute the pod phase when [changed]. *)
Definition finish (clk : Clock) (state : PodState) (idx : nat) (cv : ContainerState)
    (changed : bool) (effects : list Effect) : PodState * list Effect :=
  let state := set_container state idx cv in
  if changed then
    let '(newState, statusEff) := recomputePhase clk state in
    (newState, effects ++ statusEff)
  else (state, effects).

Definition reduceUnitFact (clk : Clock) (state : PodState) (unitName subState : string)
    (exitCode : Z) : PodState * list Effect :=
  let containerName := ParseContainerFromUnit unitName in
  if bool_decide (containerName = "") then (state, [])
  else with_container state containerName (λ idx cv,
    let prevPhase := cv.(fc_Phase) in
    let done cv effects :=
      finish clk state idx cv
        (negb (bool_decide (prevPhase = cv.(fc_Phase))) || bool_decide (cv.(fc_Phase) = PhaseRunning))
        effects in
    if bool_decide (subState = "running") then
      let cv := {| cv with fc_Phase := PhaseRunning; fc_SeenRunning := true;
                           fc_Restarting := false; fc_LastStarted := clk.(clk_now) |} in
      done cv (if bool_decide (prevPhase = PhaseRunning) then []
               else [RecordEvent state.(s_UID) "Normal" "Started"
                       ("Container " +:+ containerName +:+ " started")])
    else if bool_decide (subState = "failed") then
      let cv := {| cv with fc_Phase := PhaseCrashLoopBackOff; fc_ExitCode := exitCode |} in
      let effects := if bool_decide (prevPhase = PhaseCrashLoopBackOff) then []
                     else [RecordEvent state.(s_UID) "Warning" "Failed"
                             (failedMessage containerName exitCode)] in
      if shouldRestart state.(s_Spec).(sp_RestartPolicy) cv.(fc_ExitCode) then
        let cv := bumpRestart cv in
        done cv (effects ++ [restartEffect state containerName cv])
      else done cv effects
    else if bool_decide (subState = "start-pre") || bool_decide (subState = "start")
            || bool_decide (subState = "start-post") then
      done {| cv with fc_Phase := PhaseCreating |} []
    else if bool_decide (subState = "stop-sigterm") || bool_decide (subState = "stop-watchdog") then
      (state, [RecordEvent state.(s_UID) "Normal" "Killing"
                 ("Container " +:+ containerName +:+ " received SIGTERM, waiting for graceful exit")])
    else if bool_decide (subState = "stop-sigkill") || bool_decide (subState = "stop-kill") then
      (state, [RecordEvent state.(s_UID) "Warning" "Killing"
                 ("Container " +:+ containerName +:+ " grace period expired, sending SIGKILL")])
    else (state, [])).

Definition reduceContainerStateFact (clk : Clock) (state : PodState) (container : string)
    (st : MachineState) (exitCode : Z) : PodState * list Effect :=
  with_container state container (λ idx cv,
    let prevPhase := cv.(fc_Phase) in
    let done cv effects :=
      finish clk state idx cv (negb (bool_decide (prevPhase = cv.(fc_Phase)))) effects in
    let crash cv :=
      let cv := {| cv with fc_Phase := PhaseCrashLoopBackOff |} in
      if negb cv.(fc_Restarting) then
        let cv := bumpRestart cv in (cv, [restartEffect state container cv])
      else (cv, []) in
    match st with
    | StateRunning =>
        let cv := {| cv with fc_Phase := PhaseRunning; fc_SeenRunning := true;
                             fc_Restarting := false; fc_LastStarted := clk.(clk_now) |} in
        let cv :=
          if negb (IsZero cv.(fc_LastStarted))
             && (RestartBackoffReset <? clk.(clk_since) - cv.(fc_LastStarted))%Z
          then {| cv with fc_Backoff := RestartBackoffInit |} else cv in
        done cv []
    | StateCreating => done {| cv with fc_Phase := PhaseCreating |} []
    | StateFailed =>
        let cv := {| cv with fc_ExitCode := exitCode |} in
        let '(cv, effects) :=
          if shouldRestart state.(s_Spec).(sp_RestartPolicy) exitCode then crash cv
          else ({| cv with fc_Phase := PhaseTerminated; fc_ExitReason := "Error" |}, []) in
        done cv (effects ++
          if bool_decide (prevPhase = PhaseCrashLoopBackOff) then []
          else [RecordEvent state.(s_UID) "Warning" "Failed" (failedMessage container exitCode)])
    | StateExited =>
        let cv := {| cv with fc_ExitCode := exitCode |} in
        let '(cv, effects) :=
          if bool_decide (state.(s_Spec).(sp_RestartPolicy) = RestartPolicyAlways) then crash cv
          else ({| cv with fc_Phase := PhaseTerminated;
                           fc_ExitReason := if bool_decide (exitCode = 0%Z) then "Completed" else "Error" |},
                []) in
        done cv (effects ++
          if bool_decide (prevPhase = PhaseTerminated) || bool_decide (prevPhase = PhaseCrashLoopBackOff)
          then []
          else if bool_decide (exitCode = 0%Z)
          then [RecordEvent state.(s_UID) "Normal" "Completed"
                  ("Container " +:+ container +:+ " exited with code " +:+ pretty exitCode)]
          else [RecordEvent state.(s_UID) "Warning" "Failed" (failedMessage container exitCode)])
    | _ =>
        if cv.(fc_Restarting) then (state, [])
        else if cv.(fc_SeenRunning)
        then done {| cv with fc_Phase := PhaseTerminated; fc_ExitCode := 0;
                             fc_ExitReason := "Completed" |} []
        else (state, [])
    end).

Definition reduceExitFact (clk : Clock) (state : PodState) (container : string) (exitCode : Z)
    (reason : string) (willRestart : bool) : PodState * list Effect :=
  with_container state container (λ idx cv,
    if negb cv.(fc_SeenRunning)
    then (set_container state idx {| cv with fc_Phase := PhaseCreating |}, [])
    else
      let prevPhase := cv.(fc_Phase) in
      let '(cv, effects) :=
        if willRestart then
          let cv := bumpRestart {| cv with fc_Phase := PhaseCrashLoopBackOff |} in
          (cv, [restartEffect state container cv])
        else
          ({| cv with fc_Phase := PhaseTerminated; fc_ExitCode := exitCode;
                      fc_ExitReason :=
                        if bool_decide (reason = "")
                        then (if bool_decide (exitCode = 0%Z) then "Completed" else "Error")
                        else reason |}, []) in
      finish clk state idx cv (negb (bool_decide (prevPhase = cv.(fc_Phase)))) effects).

Definition reduceProbeFact (clk : Clock) (state : PodState) (container probeType : string)
    (ready startupPassed : bool) : PodState * list Effect :=
  with_container state container (λ idx cv,
    let wasReady := cv.(fc_Ready) in
    let cv :=
      if bool_decide (probeType = "readiness") then {| cv with fc_Ready := ready |}
      else if bool_decide (probeType = "startup") then {| cv with fc_StartupPassed := startupPassed |}
      else cv in
    let changed := negb (Bool.eqb wasReady cv.(fc_Ready)) in
    finish clk state idx cv changed
      (if changed && cv.(fc_Ready)
       then [RecordEvent state.(s_UID) "Normal" "ProbeReady"
               ("Container " +:+ container +:+ " passed readiness probe")]
       else [])).

(** One iteration of the loop of [reduceSpecFact]. *)
Definition syncContainer (clk : Clock) (state : PodState) (i : nat) (cs : ContainerSpec)
    : ContainerState :=
  match FindContainer state cs.(fs_Name) ≫= λ idx, state.(s_Containers) !! idx with
  | Some existing => {| existing with fc_Image := cs.(fs_Image) |}
  | None => newContainerState (clk.(clk_create) i) cs
  end.

Definition reduceSpecFact (clk : Clock) (state : PodState) (pod : option Pod)
    : PodState * list Effect :=
  match pod with
  | None => (state, [])
  | Some pod =>
      let newSpec := NewPodSpec pod in
      let newContainers := imap (syncContainer clk state) newSpec.(sp_Containers) in
      recomputePhase clk {| state with s_Spec := newSpec; s_Containers := newContainers |}
  end.

Definition reducePodAdmitFact (clk : Clock) (state : PodState) (uid namespace name podIP : string)
    (pod : Pod) : PodState * list Effect :=
  if negb (bool_decide (state.(s_UID) = "")) then reduceSpecFact clk state (Some pod)
  else
    let newState := NewPodState clk uid namespace name podIP pod in
    let containers :=
      map (λ cs, {| ci_Name := cs.(fs_Name); ci_HasReadinessProbe := cs.(fs_HasReadinessProbe) |})
        newState.(s_Spec).(sp_Containers) in
    (newState, [InitRestartState uid namespace name containers; PersistPodState uid]).

Definition reducePodEvictFact (state : PodState) : PodState * list Effect :=
  (zeroPodState, map (λ cv, ResetUnit state.(s_UID) cv.(fc_Name)) state.(s_Containers)).

Definition reduceMarkRunningFact (state : PodState) (containerName : string) : PodState * list Effect :=
  with_container state containerName (λ idx cv,
    (set_container state idx {| cv with fc_SeenRunning := true |}, [])).

Definition reduceBackoffResetFact (state : PodState) (containerName : string) : PodState * list Effect :=
  with_container state containerName (λ idx cv,
    (set_container state idx {| cv with fc_Backoff := RestartBackoffInit |}, [])).

Definition Reduce (clk : Clock) (state : PodState) (fact : Fact) : PodState * list Effect :=
  if bool_decide (state.(s_UID) = "") then (state, [])
  else
    match fact with
    | UnitFact _ unitName subState exitCode => reduceUnitFact clk state unitName subState exitCode
    | ContainerStateFact _ container st exitCode =>
        reduceContainerStateFact clk state container st exitCode
    | ExitFact _ container exitCode reason willRestart =>
        reduceExitFact clk state container exitCode reason willRestart
    | ProbeFact _ container probeType _ ready startupPassed _ _ =>
        reduceProbeFact clk state container probeType ready startupPassed
    | SpecFact _ _ _ pod => reduceSpecFact clk state pod
    | PodAdmitFact uid namespace name podIP pod =>
        reducePodAdmitFact clk state uid namespace name podIP pod
    | PodEvictFact _ => reducePodEvictFact state
    | MarkRunningFact _ containerName => reduceMarkRunningFact state containerName
    | BackoffResetFact _ containerName => reduceBackoffResetFact state containerName
    end.

(** ** Invariant *)

(** A container state agrees with its spec, its back-off is within the
    configured bounds and its restart counter is an int32. *)
Definition container_ok (sp : ContainerSpec) (cv : ContainerState) : Prop :=
  cv.(fc_Name) = sp.(fs_Name) ∧ cv.(fc_Image) = sp.(fs_Image) ∧
  (RestartBackoffInit ≤ cv.(fc_Backoff) ≤ MaxBackoff)%Z ∧ in_int32 cv.(fc_RestartCount).

(** [Containers] is indexed the same as [Spec.Containers]. *)
Definition wf (s : PodState) : Prop :=
  Forall2 container_ok s.(s_Spec).(sp_Containers) s.(s_Containers).

Definition keeps (cv cv' : ContainerState) : Prop :=
  ∀ sp, container_ok sp cv → container_ok sp cv'.

Lemma goMin_spec a b : goMin a b = Z.min a b.
Proof. unfold goMin. destruct (Z.ltb_spec a b); lia. Qed.

Lemma keeps_bump cv : keeps cv (bumpRestart cv).
Proof.
  intros sp (? & ? & [Hb1 Hb2] & Hc). unfold container_ok, bumpRestart. cbn.
  split_and!; try done; try apply wrap32_range;
    rewrite goMin_spec; unfold RestartBackoffInit, MaxBackoff, Minute, Second in *;
    rewrite wrap64_id by (unfold in_int64; lia); lia.
Qed.

Lemma keeps_trans a b c : keeps a b → keeps b c → keeps a c.
Proof. unfold keeps. eauto. Qed.

(** Updates of the fields that the invariant does not mention. *)
Ltac keeps_tac :=
  let H := fresh in intros ? H; unfold container_ok in *; cbn in *; first [exact H | done].

Lemma keeps_backoff_init cv : keeps cv {| cv with fc_Backoff := RestartBackoffInit |}.
Proof.
  intros sp (? & ? & ? & ?). unfold container_ok. cbn.
  unfold RestartBackoffInit, MaxBackoff, Minute, Second in *. split_and!; try done; lia.
Qed.

Ltac solve_keeps :=
  first [ keeps_tac
        | eapply keeps_trans; [|apply keeps_bump]; keeps_tac
        | eapply keeps_trans; [|apply keeps_backoff_init]; keeps_tac ].

Lemma container_ok_new now cs : container_ok cs (newContainerState now cs).
Proof.
  unfold container_ok, in_int32. cbn.
  unfold RestartBackoffInit, MaxBackoff, Minute, Second. repeat split; lia.
Qed.

Lemma wf_set s idx cv cv' :
  wf s → s.(s_Containers) !! idx = Some cv → keeps cv cv' → wf (set_container s idx cv').
Proof.
  intros Hwf Hcv Hk. unfold wf, set_container in *. cbn.
  destruct (Forall2_lookup_r _ _ _ _ _ Hwf Hcv) as (sp & Hsp & Hok).
  rewrite <- (list_insert_id (sp_Containers (s_Spec s)) idx sp) by done.
  apply Forall2_insert; auto.
Qed.

Lemma recomputePhase_containers clk s :
  s_Containers (recomputePhase clk s).1 = s_Containers s ∧
  s_Spec (recomputePhase clk s).1 = s_Spec s ∧
  s_UID (recomputePhase clk s).1 = s_UID s ∧
  s_Namespace (recomputePhase clk s).1 = s_Namespace s ∧
  s_Name (recomputePhase clk s).1 = s_Name s ∧
  s_PodIP (recomputePhase clk s).1 = s_PodIP s.
Proof. done. Qed.

Lemma wf_recompute clk s : wf s → wf (recomputePhase clk s).1.
Proof. done. Qed.

Lemma finish_containers clk s idx cv b es :
  s_Containers (finish clk s idx cv b es).1 = <[idx := cv]> s.(s_Containers).
Proof. unfold finish. by destruct b. Qed.

Lemma wf_finish clk s idx cv cv' b es :
  wf s → s.(s_Containers) !! idx = Some cv → keeps cv cv' → wf (finish clk s idx cv' b es).1.
Proof. intros. unfold finish. destruct b; cbn; by eapply wf_set. Qed.

(** Elimination of [with_container]: the container is absent, or it is the
    one found. *)
Lemma with_container_elim (P : PodState * list Effect → Prop) s name k :
  P (s, []) →
  (∀ idx cv, FindContainer s name = Some idx → s.(s_Containers) !! idx = Some cv →
             cv.(fc_Name) = name → P (k idx cv)) →
  P (with_container s name k).
Proof.
  intros H0 Hk. unfold with_container.
  destruct (FindContainer s name) as [idx|] eqn:Hf; [|done].
  destruct (find_index_Some _ _ _ Hf) as (cv & Hcv & Hn%bool_decide_eq_true_1).
  rewrite Hcv. by apply Hk.
Qed.

Lemma FindContainer_lookup s name idx :
  FindContainer s name = Some idx →
  ∃ cv, s.(s_Containers) !! idx = Some cv ∧ cv.(fc_Name) = name.
Proof. intros (cv & ? & ?%bool_decide_eq_true_1)%find_index_Some. eauto. Qed.

Create HintDb foci.
#[export] Hint Resolve keeps_bump keeps_backoff_init container_ok_new : foci.
#[export] Hint Extern 3 (keeps _ _) => keeps_tac : foci.

Lemma wf_reduceUnitFact clk s u sub e : wf s → wf (reduceUnitFact clk s u sub e).1.
Proof.
  intros Hwf. unfold reduceUnitFact. case_bool_decide; [done|].
  apply with_container_elim; [done|]. intros idx cv _ Hcv _.
  repeat case_match; try done; (eapply wf_finish; [done|done|]); solve_keeps.
Qed.

Lemma wf_reduceContainerStateFact clk s c st e : wf s → wf (reduceContainerStateFact clk s c st e).1.
Proof.
  intros Hwf. unfold reduceContainerStateFact.
  apply with_container_elim; [done|]. intros idx cv _ Hcv _.
  destruct st; repeat case_match; simplify_eq; try done; (eapply wf_finish; [done|done|]);
    solve_keeps.
Qed.

Lemma wf_reduceExitFact clk s c e r w : wf s → wf (reduceExitFact clk s c e r w).1.
Proof.
  intros Hwf. unfold reduceExitFact.
  apply with_container_elim; [done|]. intros idx cv _ Hcv _.
  repeat case_match; simplify_eq; 
    (first [eapply wf_finish|eapply wf_set]; [done|done|]); solve_keeps.
Qed.

Lemma wf_reduceProbeFact clk s c t r sp : wf s → wf (reduceProbeFact clk s c t r sp).1.
Proof.
  intros Hwf. unfold reduceProbeFact.
  apply with_container_elim; [done|]. intros idx cv _ Hcv _.
  eapply wf_finish; [done|done|]. repeat case_bool_decide; keeps_tac.
Qed.

Lemma wf_reduceSpecFact clk s pod : wf s → wf (reduceSpecFact clk s pod).1.
Proof.
  intros Hwf. unfold reduceSpecFact. destruct pod as [pod|]; [|done].
  apply wf_recompute. unfold wf. cbn. apply Forall2_same_length_lookup_2.
  - by rewrite length_imap.
  - intros i sp cv Hsp Hcv. rewrite list_lookup_imap, Hsp in Hcv. cbn in Hcv.
    simplify_eq. unfold syncContainer.
    destruct (FindContainer s (fs_Name sp)) as [idx|] eqn:Hf; cbn; [|apply container_ok_new].
    destruct (FindContainer_lookup _ _ _ Hf) as (cv & Hcv & Hn). rewrite Hcv.
    destruct (Forall2_lookup_r _ _ _ _ _ Hwf Hcv) as (sp' & _ & ? & ? & ? & ?).
    unfold container_ok. cbn. done.
Qed.

Lemma wf_NewPodState clk uid ns n ip pod : wf (NewPodState clk uid ns n ip pod).
Proof.
  unfold wf, NewPodState. cbn. apply Forall2_same_length_lookup_2.
  - by rewrite length_imap.
  - intros i sp cv Hsp Hcv. rewrite list_lookup_imap, Hsp in Hcv. cbn in Hcv.
    simplify_eq. apply container_ok_new.
Qed.

Lemma wf_reducePodAdmitFact clk s uid ns n ip pod :
  wf s → wf (reducePodAdmitFact clk s uid ns n ip pod).1.
Proof.
  intros Hwf. unfold reducePodAdmitFact. case_match.
  - by apply wf_reduceSpecFact.
  - apply wf_NewPodState.
Qed.

Lemma wf_zero : wf zeroPodState.
Proof. exact (List.Forall2_nil container_ok). Qed.

#[export] Hint Resolve wf_zero wf_reduceUnitFact wf_reduceContainerStateFact wf_reduceExitFact
  wf_reduceProbeFact wf_reduceSpecFact wf_reducePodAdmitFact : foci.

Lemma wf_Reduce clk s f : wf s → wf (Reduce clk s f).1.
Proof.
  intros Hwf. unfold Reduce. case_bool_decide; [done|].
  destruct f; auto with foci; unfold reduceMarkRunningFact, reduceBackoffResetFact;
    (apply with_container_elim; [done|]; intros; eapply wf_set; eauto with foci).
Qed.

(** ** The pod phase *)

Definition in_phase (p : ContainerPhase) (cv : ContainerState) : bool := bool_decide (cv.(fc_Phase) = p).
Definition exit_ok (cv : ContainerState) : bool := bool_decide (cv.(fc_ExitCode) = 0%Z).

(** The phase of a pod as a function of its containers, without the loop. *)
Definition podPhase (cs : list ContainerState) : PodPhase :=
  if existsb (in_phase PhaseRunning) cs then PodRunning
  else if existsb (in_phase PhaseCreating) cs then PodPending
  else if existsb (in_phase PhaseCrashLoopBackOff) cs then PodRunning
  else if forallb exit_ok cs then PodSucceeded else PodFailed.

Lemma phaseFlags_fold f cs :
  let g := foldl recomputePhase_step f cs in
  g.(anyRunning) = f.(anyRunning) || existsb (in_phase PhaseRunning) cs ∧
  g.(anyCreating) = f.(anyCreating) || existsb (in_phase PhaseCreating) cs ∧
  g.(anyRestarting) = f.(anyRestarting) || existsb (in_phase PhaseCrashLoopBackOff) cs ∧
  g.(allTerminated) = f.(allTerminated) && forallb (in_phase PhaseTerminated) cs ∧
  g.(allSucceeded) = f.(allSucceeded)
    && forallb (λ cv, negb (in_phase PhaseCrashLoopBackOff cv)
                      && (negb (in_phase PhaseTerminated cv) || exit_ok cv)) cs.
Proof.
  revert f. induction cs as [|cv cs IH]; intros f; cbn.
  - by rewrite !orb_false_r, !andb_true_r.
  - destruct (IH (recomputePhase_step f cv)) as (-> & -> & -> & -> & ->).
    unfold recomputePhase_step, in_phase, exit_ok.
    destruct (fc_Phase cv) eqn:Hp; cbn; repeat case_bool_decide; try done; cbn;
      rewrite ?orb_true_r, ?andb_false_r, ?orb_false_r, ?andb_true_r, ?orb_true_l; done.
Qed.

Lemma terminated_iff cs :
  forallb (in_phase PhaseTerminated) cs
  = negb (existsb (in_phase PhaseRunning) cs) && negb (existsb (in_phase PhaseCreating) cs)
    && negb (existsb (in_phase PhaseCrashLoopBackOff) cs).
Proof.
  induction cs as [|cv cs IH]; cbn; [done|]. rewrite IH. unfold in_phase.
  destruct (fc_Phase cv); cbn; rewrite ?andb_false_r; done.
Qed.

Lemma succeeded_terminated cs :
  forallb (in_phase PhaseTerminated) cs = true →
  forallb (λ cv, negb (in_phase PhaseCrashLoopBackOff cv)
                 && (negb (in_phase PhaseTerminated cv) || exit_ok cv)) cs = forallb exit_ok cs.
Proof.
  induction cs as [|cv cs IH]; cbn; [done|]. intros [Hp Ht]%andb_true_iff. rewrite IH by done.
  unfold in_phase in *. apply bool_decide_eq_true_1 in Hp. rewrite Hp. by cbn.
Qed.

Lemma recomputePhase_podPhase clk s :
  s_Phase (recomputePhase clk s).1 = podPhase s.(s_Containers).
Proof.
  unfold recomputePhase, podPhase, phaseFlags. cbn.
  match goal with |- context [foldl _ ?f0 _] =>
    destruct (phaseFlags_fold f0 (s_Containers s)) as (-> & -> & -> & -> & ->) end.
  cbn. pose proof (terminated_iff (s_Containers s)) as Ht.
  repeat (case_match; [done|]). rewrite Ht.
  repeat match goal with H : existsb _ _ = false |- _ => rewrite H in * end. cbn in *.
  by rewrite succeeded_terminated.
Qed.

Lemma existsb_in_phase p cs :
  existsb (in_phase p) cs = true ↔ ∃ cv, cv ∈ cs ∧ cv.(fc_Phase) = p.
Proof.
  rewrite List.existsb_exists. unfold in_phase. split.
  - intros (cv & Hin & Hp%bool_decide_eq_true_1). exists cv. by rewrite list_elem_of_In.
  - intros (cv & Hin & Hp). exists cv. rewrite <- list_elem_of_In. by rewrite bool_decide_eq_true.
Qed.

Lemma forallb_exit_ok cs : forallb exit_ok cs = true ↔ ∀ cv, cv ∈ cs → cv.(fc_ExitCode) = 0%Z.
Proof.
  rewrite List.forallb_forall. unfold exit_ok. split; intros H cv Hin.
  - apply list_elem_of_In, H in Hin. by apply bool_decide_eq_true_1 in Hin.
  - apply bool_decide_eq_true_2, H. by apply list_elem_of_In.
Qed.

Lemma forallb_exit_bad cs : forallb exit_ok cs = false ↔ ∃ cv, cv ∈ cs ∧ cv.(fc_ExitCode) ≠ 0%Z.
Proof.
  rewrite <- not_true_iff_false, forallb_exit_ok. split.
  - intros Hn. induction cs as [|cv cs IH]; [exfalso; apply Hn; set_solver|].
    destruct (decide (cv.(fc_ExitCode) = 0%Z)) as [Hz|Hz]; [|exists cv; set_solver].
    destruct IH as (x & ? & ?); [intros Hall; apply Hn; set_solver|]. exists x. set_solver.
  - intros (cv & Hin & Hne) Hall. by apply Hne, Hall.
Qed.

Lemma some_not_all (cs : list ContainerState) p :
  (∃ cv, cv ∈ cs ∧ cv.(fc_Phase) = p) → p ≠ PhaseTerminated →
  ¬ (∀ cv, cv ∈ cs → cv.(fc_Phase) = PhaseTerminated).
Proof. intros (cv & Hin & Hp) Hne Hall. apply Hne. rewrite <- Hp. by apply Hall. Qed.

Lemma none_all (cs : list ContainerState) :
  ¬ (∃ cv, cv ∈ cs ∧ cv.(fc_Phase) = PhaseRunning) →
  ¬ (∃ cv, cv ∈ cs ∧ cv.(fc_Phase) = PhaseCreating) →
  ¬ (∃ cv, cv ∈ cs ∧ cv.(fc_Phase) = PhaseCrashLoopBackOff) →
  ∀ cv, cv ∈ cs → cv.(fc_Phase) = PhaseTerminated.
Proof. intros Hr Hc Hb cv Hin. destruct (fc_Phase cv) eqn:Hp; eauto; exfalso; eauto. Qed.

Lemma all_and (cs : list ContainerState) :
  (∀ cv, cv ∈ cs → cv.(fc_Phase) = PhaseTerminated ∧ cv.(fc_ExitCode) = 0%Z) ↔
  (∀ cv, cv ∈ cs → cv.(fc_Phase) = PhaseTerminated) ∧ (∀ cv, cv ∈ cs → cv.(fc_ExitCode) = 0%Z).
Proof. split; [intros H; split; intros; by apply H|intros [? ?]; auto]. Qed.

(** ** The shape of the effects *)

Definition same_id (s s' : PodState) : Prop :=
  s'.(s_UID) = s.(s_UID) ∧ s'.(s_Namespace) = s.(s_Namespace) ∧ s'.(s_Name) = s.(s_Name) ∧
  s'.(s_PodIP) = s.(s_PodIP).

(** The effects that a reducer emits besides those of [recomputePhase]. *)
Definition local_effect (uid : string) (e : Effect) : Prop :=
  match e with
  | RecordEvent u _ _ _ | RestartContainer u _ _ _ _ _ => u = uid
  | _ => False
  end.

(** Either the phase is kept and only events and restarts are emitted, or
    the result ends with [recomputePhase]. *)
Definition reduced (clk : Clock) (s : PodState) (r : PodState * list Effect) : Prop :=
  (same_id s r.1 ∧ s_Phase r.1 = s_Phase s ∧ Forall (local_effect s.(s_UID)) r.2) ∨
  ∃ s0 pre, same_id s s0 ∧ s_Phase s0 = s_Phase s ∧ Forall (local_effect s.(s_UID)) pre ∧
    r = ((recomputePhase clk s0).1, pre ++ (recomputePhase clk s0).2).

Lemma reduced_finish clk s idx cv b es :
  Forall (local_effect s.(s_UID)) es → reduced clk s (finish clk s idx cv b es).
Proof.
  intros Hes. unfold finish. destruct b.
  - right. exists (set_container s idx cv), es. done.
  - left. done.
Qed.

Lemma reduced_quiet clk s es : Forall (local_effect s.(s_UID)) es → reduced clk s (s, es).
Proof. left. done. Qed.

Lemma reduced_recompute clk s s0 :
  same_id s s0 → s_Phase s0 = s_Phase s → reduced clk s (recomputePhase clk s0).
Proof. intros. right. exists s0, []. by split_and!. Qed.

#[export] Hint Resolve reduced_finish reduced_quiet reduced_recompute : foci.

Ltac local_tac := repeat (apply Forall_app; split); repeat case_match; repeat constructor.

Lemma reduced_reduceUnitFact clk s u sub e : reduced clk s (reduceUnitFact clk s u sub e).
Proof.
  unfold reduceUnitFact. case_bool_decide; [by apply reduced_quiet|].
  apply with_container_elim; [by apply reduced_quiet|]. intros idx cv _ _ _.
  repeat case_match; first [apply reduced_finish|apply reduced_quiet]; local_tac.
Qed.

Lemma reduced_reduceContainerStateFact clk s c st e :
  reduced clk s (reduceContainerStateFact clk s c st e).
Proof.
  unfold reduceContainerStateFact.
  apply with_container_elim; [by apply reduced_quiet|]. intros idx cv _ _ _.
  destruct st; repeat case_match; simplify_eq;
    first [apply reduced_finish|apply reduced_quiet]; local_tac.
Qed.

Lemma reduced_reduceExitFact clk s c e r w : reduced clk s (reduceExitFact clk s c e r w).
Proof.
  unfold reduceExitFact.
  apply with_container_elim; [by apply reduced_quiet|]. intros idx cv _ _ _.
  repeat case_match; simplify_eq; try (apply reduced_finish; local_tac). left. done.
Qed.

Lemma reduced_reduceProbeFact clk s c t r sp : reduced clk s (reduceProbeFact clk s c t r sp).
Proof.
  unfold reduceProbeFact.
  apply with_container_elim; [by apply reduced_quiet|]. intros idx cv _ _ _.
  apply reduced_finish. local_tac.
Qed.

Lemma reduced_reduceSpecFact clk s pod : reduced clk s (reduceSpecFact clk s pod).
Proof. destruct pod; [by apply reduced_recompute|by apply reduced_quiet]. Qed.

(** The reports of a finished pod among the effects of [recomputePhase]. *)
Lemma SetPodPhase_recompute clk s uid p :
  SetPodPhase uid p ∈ (recomputePhase clk s).2 ↔
    uid = s.(s_UID) ∧ p = s_Phase (recomputePhase clk s).1 ∧ (p = PodSucceeded ∨ p = PodFailed) ∧
    s.(s_Phase) ≠ p.
Proof.
  unfold recomputePhase. cbn [fst snd s_Phase s_Containers s_UID].
  set (ph := if anyRunning _ then _ else _). clearbody ph.
  rewrite !elem_of_app, !list_elem_of_singleton.
  case_match eqn:Ht.
  - apply andb_true_iff in Ht as [Hd Hd2%negb_true_iff%bool_decide_eq_false_1].
    apply orb_true_iff in Hd. rewrite !bool_decide_eq_true in Hd.
    rewrite elem_of_cons. split.
    + intros [?|[[?|(? & ? & _)%list_elem_of_fmap]|?]]; simplify_eq; auto.
    + intros (-> & -> & _). auto.
  - rewrite elem_of_nil. split; [naive_solver|]. intros (-> & -> & Hph & Hd). exfalso.
    rewrite (bool_decide_eq_false_2 _ Hd), andb_true_r in Ht.
    apply orb_false_iff in Ht. rewrite !bool_decide_eq_false in Ht. tauto.
Qed.

Lemma ResetUnit_recompute clk s uid p cv :
  SetPodPhase uid p ∈ (recomputePhase clk s).2 → cv ∈ s.(s_Containers) →
  ResetUnit uid cv.(fc_Name) ∈ (recomputePhase clk s).2.
Proof.
  intros Hin Hcv. pose proof (proj1 (SetPodPhase_recompute clk s uid p) Hin) as (-> & _).
  revert Hin. unfold recomputePhase. cbn [fst snd s_Phase s_Containers s_UID].
  set (ph := if anyRunning _ then _ else _). clearbody ph. rewrite !elem_of_app. case_match.
  - intros _. right. left. apply elem_of_cons. right. apply list_elem_of_fmap. eauto.
  - rewrite !list_elem_of_singleton, elem_of_nil. naive_solver.
Qed.

#[export] Hint Resolve reduced_reduceUnitFact reduced_reduceContainerStateFact
  reduced_reduceExitFact reduced_reduceProbeFact reduced_reduceSpecFact : foci.

Lemma reduced_Reduce clk s f :
  s.(s_UID) ≠ "" → (∀ u, f ≠ PodEvictFact u) → reduced clk s (Reduce clk s f).
Proof.
  intros Hu Hf. unfold Reduce. rewrite bool_decide_eq_false_2 by done.
  destruct f; auto with foci.
  - unfold reducePodAdmitFact. rewrite bool_decide_eq_false_2 by done. cbn [negb].
    auto with foci.
  - by edestruct Hf.
  - unfold reduceMarkRunningFact.
    apply with_container_elim; [by apply reduced_quiet|]. intros. by left.
  - unfold reduceBackoffResetFact.
    apply with_container_elim; [by apply reduced_quiet|]. intros. by left.
Qed.

(** ** Restarts *)

Definition restarts (es : list Effect) : list Effect := List.filter is_restart es.

Lemma restarts_app es es' : restarts (es ++ es') = restarts es ++ restarts es'.
Proof. unfold restarts. by rewrite List.filter_app. Qed.

Lemma restarts_resets u cs : restarts (map (λ cv, ResetUnit u cv.(fc_Name)) cs) = [].
Proof. unfold restarts. by induction cs. Qed.

Lemma restarts_recompute clk s : restarts (recomputePhase clk s).2 = [].
Proof.
  unfold recomputePhase. cbn [snd]. rewrite !restarts_app. cbn. rewrite app_nil_r.
  case_match; [|done]. apply restarts_resets.
Qed.

Lemma restarts_finish clk s idx cv b es : restarts (finish clk s idx cv b es).2 = restarts es.
Proof.
  unfold finish. destruct b; [|done].
  pose proof (restarts_recompute clk (set_container s idx cv)) as Hn.
  destruct (recomputePhase clk (set_container s idx cv)) as [ns eff].
  cbn [snd] in *. by rewrite restarts_app, Hn, app_nil_r.
Qed.

(** A container that ended with this exit code is restarted: always, or when
    it failed. *)
Definition policy_restarts (policy : RestartPolicy) (exitCode : Z) : bool :=
  bool_decide (policy = RestartPolicyAlways) ||
  (bool_decide (policy = RestartPolicyOnFailure) && negb (exitCode =? 0)%Z).

Lemma shouldRestart_spec policy e : shouldRestart policy e = policy_restarts policy e.
Proof.
  unfold policy_restarts. destruct policy; cbn; try done.
  destruct (Z.eqb_spec e 0); case_bool_decide; done.
Qed.

(** When the restart policy of the pod allows the restart that a fact asks
    for; an [ExitFact] carries the decision of its sender. *)
Definition restart_allowed (policy : RestartPolicy) (f : Fact) : bool :=
  match f with
  | UnitFact _ _ sub e => bool_decide (sub = "failed") && policy_restarts policy e
  | ContainerStateFact _ _ StateFailed e => policy_restarts policy e
  | ContainerStateFact _ _ StateExited _ => bool_decide (policy = RestartPolicyAlways)
  | ExitFact _ _ _ _ w => w
  | _ => false
  end.

(** The container a fact is about. *)
Definition fact_container (f : Fact) : string :=
  match f with
  | UnitFact _ u _ _ => ParseContainerFromUnit u
  | ContainerStateFact _ c _ _ | ExitFact _ c _ _ _ | ProbeFact _ c _ _ _ _ _ _
  | MarkRunningFact _ c | BackoffResetFact _ c => c
  | _ => ""
  end.

(** [r] restarts container [c] of [s], once: the one restart effect carries
    the counter and the doubled, capped back-off that the state holds. *)
Definition restarted (s : PodState) (c : string) (r : PodState * list Effect) : Prop :=
  ∃ idx cv cv',
    FindContainer s c = Some idx ∧ s.(s_Containers) !! idx = Some cv ∧
    r.1.(s_Containers) !! idx = Some cv' ∧
    cv'.(fc_Phase) = PhaseCrashLoopBackOff ∧ cv'.(fc_Restarting) = true ∧
    cv'.(fc_RestartCount) = wrap32 (cv.(fc_RestartCount) + 1) ∧
    cv'.(fc_Backoff) = Z.min (wrap64 (cv.(fc_Backoff) * 2)) MaxBackoff ∧
    restarts r.2 = [RestartContainer s.(s_UID) s.(s_Namespace) s.(s_Name) c
                      cv'.(fc_RestartCount) cv'.(fc_Backoff)].

Lemma restarted_finish clk s c idx cv cv0 b es :
  FindContainer s c = Some idx → s.(s_Containers) !! idx = Some cv →
  cv0.(fc_Phase) = PhaseCrashLoopBackOff → cv0.(fc_RestartCount) = cv.(fc_RestartCount) →
  cv0.(fc_Backoff) = cv.(fc_Backoff) →
  restarts es = [restartEffect s c (bumpRestart cv0)] →
  restarted s c (finish clk s idx (bumpRestart cv0) b es).
Proof.
  intros Hf Hcv Hp Hn Hb Hes. exists idx, cv, (bumpRestart cv0).
  rewrite restarts_finish, finish_containers. split_and!; try done.
  - apply list_lookup_insert_eq. by eapply lookup_lt_Some.
  - cbn. by rewrite Hn.
  - cbn. by rewrite goMin_spec, Hb.
Qed.

(** What one fact can restart. *)
Definition restart_outcome (s : PodState) (f : Fact) (r : PodState * list Effect) : Prop :=
  restarts r.2 = [] ∨
  restart_allowed s.(s_Spec).(sp_RestartPolicy) f = true ∧ restarted s (fact_container f) r.

Lemma restart_reduceUnitFact clk s uid u sub e :
  restart_outcome s (UnitFact uid u sub e) (reduceUnitFact clk s u sub e).
Proof.
  unfold reduceUnitFact. case_bool_decide; [by left|].
  apply with_container_elim; [by left|]. intros idx cv Hf Hcv Hn.
  destruct (bool_decide (sub = "running")); [left; rewrite restarts_finish; by case_match|].
  destruct (bool_decide (sub = "failed")) eqn:Hs.
  - case_match eqn:Hr; [right|left; rewrite restarts_finish; by case_match].
    split; [cbn; by rewrite Hs, <- shouldRestart_spec|]. eapply restarted_finish; try done.
    rewrite restarts_app. by case_match.
  - left. repeat case_match; try done; by rewrite restarts_finish.
Qed.

Lemma restart_reduceContainerStateFact clk s uid c st e :
  restart_outcome s (ContainerStateFact uid c st e) (reduceContainerStateFact clk s c st e).
Proof.
  unfold reduceContainerStateFact.
  apply with_container_elim; [by left|]. intros idx cv Hf Hcv Hn.
  destruct st; try (left; repeat case_match; rewrite ?restarts_finish; done).
  - destruct (shouldRestart _ _) eqn:Hr; [|left; rewrite restarts_finish; cbn; by case_match].
    destruct (fc_Restarting cv) eqn:Hre; cbn [negb fc_Restarting].
    + left. rewrite restarts_finish. by case_match.
    + right. split; [cbn; by rewrite <- shouldRestart_spec|]. eapply restarted_finish; try done.
      rewrite restarts_app. by case_match.
  - destruct (bool_decide (_ = RestartPolicyAlways)) eqn:Hr;
      [|left; rewrite restarts_finish; cbn; by repeat case_match].
    destruct (fc_Restarting cv) eqn:Hre; cbn [negb fc_Restarting].
    + left. rewrite restarts_finish. by repeat case_match.
    + right. split; [done|]. eapply restarted_finish; try done.
      rewrite restarts_app. by repeat case_match.
Qed.

Lemma restart_reduceExitFact clk s uid c e r w :
  restart_outcome s (ExitFact uid c e r w) (reduceExitFact clk s c e r w).
Proof.
  unfold reduceExitFact.
  apply with_container_elim; [by left|]. intros idx cv Hf Hcv Hn.
  destruct (fc_SeenRunning cv); cbn [negb]; [|by left].
  destruct w; [right|left; by rewrite restarts_finish].
  split; [done|]. by eapply restarted_finish.
Qed.

Lemma restart_reduceSpecFact clk s f pod : restart_outcome s f (reduceSpecFact clk s pod).
Proof. left. destruct pod; [apply restarts_recompute|done]. Qed.

Lemma restart_Reduce clk s f : restart_outcome s f (Reduce clk s f).
Proof.
  unfold Reduce. case_bool_decide; [by left|].
  destruct f; auto using restart_reduceUnitFact, restart_reduceContainerStateFact,
    restart_reduceExitFact, restart_reduceSpecFact.
  - left. unfold reduceProbeFact. apply with_container_elim; [done|]. intros.
    rewrite restarts_finish. by case_match.
  - unfold reducePodAdmitFact. case_match; [apply restart_reduceSpecFact|by left].
  - left. apply restarts_resets.
  - left. unfold reduceMarkRunningFact. by apply with_container_elim.
  - left. unfold reduceBackoffResetFact. by apply with_container_elim.
Qed.

(** ** Sequences of facts *)

(** What the event loop of Syzygy does with the facts of one pod. *)
Fixpoint runFacts (s : PodState) (l : list (Clock * Fact)) : PodState * list Effect :=
  match l with
  | [] => (s, [])
  | (clk, f) :: l =>
      let '(s1, e1) := Reduce clk s f in
      let '(s2, e2) := runFacts s1 l in
      (s2, e1 ++ e2)
  end.

Lemma runFacts_cons s clk f l :
  runFacts s ((clk, f) :: l)
  = ((runFacts (Reduce clk s f).1 l).1, (Reduce clk s f).2 ++ (runFacts (Reduce clk s f).1 l).2).
Proof. cbn. destruct (Reduce clk s f) as [s1 e1]. cbn. by destruct (runFacts s1 l). Qed.

(** The container of the state with a given name. *)
Definition view (s : PodState) (c : string) : option ContainerState :=
  FindContainer s c ≫= λ idx, s.(s_Containers) !! idx.

Lemma find_index_insert {A} (p : A → bool) l i x y :
  l !! i = Some x → p x = p y → find_index p (<[i := y]> l) = find_index p l.
Proof.
  revert i. induction l as [|z l IH]; intros i Hi Hp; [done|].
  destruct i as [|i]; cbn in Hi; [simplify_eq; cbn; by rewrite Hp|].
  change (<[S i := y]> (z :: l)) with (z :: <[i := y]> l). cbn [find_index].
  by rewrite (IH i).
Qed.

Lemma FindContainer_insert s s' idx cv cv' c :
  s.(s_Containers) !! idx = Some cv → cv'.(fc_Name) = cv.(fc_Name) →
  s'.(s_Containers) = <[idx := cv']> s.(s_Containers) → FindContainer s' c = FindContainer s c.
Proof.
  intros Hcv Hn Hs'. unfold FindContainer. rewrite Hs'. eapply find_index_insert; [done|].
  cbn. by rewrite Hn.
Qed.

Lemma view_insert s s' idx cv cv' c :
  FindContainer s c = Some idx → s.(s_Containers) !! idx = Some cv →
  cv'.(fc_Name) = cv.(fc_Name) → s'.(s_Containers) = <[idx := cv']> s.(s_Containers) →
  view s' c = Some cv'.
Proof.
  intros Hf Hcv Hn Hs'. unfold view. erewrite FindContainer_insert by eauto. rewrite Hf, Hs'.
  cbn. apply list_lookup_insert_eq. by eapply lookup_lt_Some.
Qed.

Lemma view_Some s c cv :
  view s c = Some cv →
  ∃ idx, FindContainer s c = Some idx ∧ s.(s_Containers) !! idx = Some cv ∧ cv.(fc_Name) = c.
Proof.
  unfold view. intros (idx & Hf & Hcv)%bind_Some.
  destruct (FindContainer_lookup _ _ _ Hf) as (cv' & Hcv' & Hn). simplify_eq. eauto.
Qed.

Lemma finish_frame clk s idx cv b es :
  s_UID (finish clk s idx cv b es).1 = s_UID s ∧ s_Spec (finish clk s idx cv b es).1 = s_Spec s.
Proof. unfold finish. by destruct b. Qed.

Lemma with_container_view s c cv k :
  view s c = Some cv → ∃ idx, FindContainer s c = Some idx ∧
    s.(s_Containers) !! idx = Some cv ∧ with_container s c k = k idx cv.
Proof.
  intros (idx & Hf & Hcv & _)%view_Some. exists idx. unfold with_container. by rewrite Hf, Hcv.
Qed.

(** A poll result other than Running. *)
Definition poll_not_running (c : string) (cf : Clock * Fact) : Prop :=
  match cf.2 with
  | ContainerStateFact _ c' st _ => c' = c ∧ st ≠ StateRunning
  | _ => False
  end.

Definition restarting (s : PodState) (c : string) : bool :=
  match view s c with Some cv => cv.(fc_Restarting) | None => false end.

(** While a restart is pending, polls that do not see the container running
    keep it pending and start no other. *)
Lemma poll_pending clk s uid c st e :
  st ≠ StateRunning → restarting s c = true →
  restarting (Reduce clk s (ContainerStateFact uid c st e)).1 c = true ∧
  restarts (Reduce clk s (ContainerStateFact uid c st e)).2 = [].
Proof.
  intros Hst Hr. unfold Reduce. case_bool_decide; [done|].
  unfold restarting in Hr. destruct (view s c) as [cv|] eqn:Hv; [|done].
  unfold reduceContainerStateFact.
  edestruct with_container_view as (idx & Hf & Hcv & ->); [done|].
  cbn [fc_Restarting]. rewrite Hr. cbn [negb].
  destruct st; try done; repeat case_match; simplify_eq; rewrite ?restarts_finish;
    (split; [unfold restarting|by rewrite ?restarts_app; repeat case_match]);
    try (cbn [fst]; by rewrite Hv);
    (erewrite view_insert; [|done|done| |apply finish_containers]; done).
Qed.

(** A poll that does restart leaves the restart pending. *)
Lemma poll_restart_pending clk s uid c st e :
  restarts (Reduce clk s (ContainerStateFact uid c st e)).2 ≠ [] →
  restarting (Reduce clk s (ContainerStateFact uid c st e)).1 c = true.
Proof.
  unfold Reduce. case_bool_decide; [done|]. unfold reduceContainerStateFact.
  apply with_container_elim; [done|]. intros idx cv Hf Hcv Hn. unfold restarting.
  destruct st; repeat case_match; simplify_eq; rewrite ?restarts_finish;
    try (intros H'; exfalso; apply H'; rewrite ?restarts_app; by repeat case_match);
    intros _; match goal with H : view _ _ = _ |- _ => 
      erewrite view_insert in H; [|done|done| |apply finish_containers]; by simplify_eq end.
Qed.

(** One crash of container [c]: a poll that sees it failed, then one that
    sees it running again. *)
Definition crash_cycle (uid c : string) (e : Z) (clks : Clock * Clock) : list (Clock * Fact) :=
  [(clks.1, ContainerStateFact uid c StateFailed e); (clks.2, ContainerStateFact uid c StateRunning 0)].

Lemma poll_failed_view clk s uid c e cv :
  s.(s_UID) ≠ "" → view s c = Some cv → cv.(fc_Restarting) = false →
  shouldRestart s.(s_Spec).(sp_RestartPolicy) e = true →
  let r := Reduce clk s (ContainerStateFact uid c StateFailed e) in
  view r.1 c = Some (bumpRestart {| cv with fc_ExitCode := e; fc_Phase := PhaseCrashLoopBackOff |}) ∧
  s_UID r.1 = s_UID s ∧ s_Spec r.1 = s_Spec s ∧ length (restarts r.2) = 1.
Proof.
  intros Hu Hv Hre Hsr. cbn zeta. unfold Reduce. rewrite bool_decide_eq_false_2 by done.
  unfold reduceContainerStateFact.
  edestruct with_container_view as (idx & Hf & Hcv & ->); [done|].
  cbn [fc_Restarting]. rewrite Hsr, Hre. cbn [negb].
  rewrite restarts_finish, restarts_app.
  match goal with |- context [finish ?a ?b ?c ?d ?e ?f] =>
    destruct (finish_frame a b c d e f) as [-> ->] end.
  split_and!; [|done|done|by case_match].
  by erewrite view_insert; [|done|done| |apply finish_containers].
Qed.

Lemma poll_running_view clk s uid c e cv :
  s.(s_UID) ≠ "" → view s c = Some cv →
  (clk.(clk_since) - clk.(clk_now) ≤ RestartBackoffReset)%Z →
  let r := Reduce clk s (ContainerStateFact uid c StateRunning e) in
  view r.1 c = Some {| cv with fc_Phase := PhaseRunning; fc_SeenRunning := true;
                               fc_Restarting := false; fc_LastStarted := clk.(clk_now) |} ∧
  s_UID r.1 = s_UID s ∧ s_Spec r.1 = s_Spec s ∧ restarts r.2 = [].
Proof.
  intros Hu Hv Hclk. cbn zeta. unfold Reduce. rewrite bool_decide_eq_false_2 by done.
  unfold reduceContainerStateFact.
  edestruct with_container_view as (idx & Hf & Hcv & ->); [done|].
  cbn [fc_LastStarted]. rewrite (proj2 (Z.ltb_ge _ _)) by done. rewrite andb_false_r.
  rewrite restarts_finish.
  match goal with |- context [finish ?a ?b ?c ?d ?e ?f] =>
    destruct (finish_frame a b c d e f) as [-> ->] end.
  split_and!; try done.
  by erewrite view_insert; [|done|done| |apply finish_containers].
Qed.

Lemma double_capped n : (0 ≤ n)%Z →
  Z.min (wrap64 (Z.min (RestartBackoffInit * 2 ^ n) MaxBackoff * 2)) MaxBackoff
  = Z.min (RestartBackoffInit * 2 ^ (n + 1)) MaxBackoff.
Proof.
  intros Hn. assert (1 ≤ 2 ^ n)%Z by (apply (Z.pow_le_mono_r 2 0 n); lia).
  unfold RestartBackoffInit, MaxBackoff, Minute, Second.
  rewrite wrap64_id by (unfold in_int64; lia). rewrite Z.pow_add_r by lia. lia.
Qed.

Lemma crash_cycle_step s uid c e clks cv n rest :
  s.(s_UID) ≠ "" → view s c = Some cv → cv.(fc_Restarting) = false →
  shouldRestart s.(s_Spec).(sp_RestartPolicy) e = true →
  (clks.2.(clk_since) - clks.2.(clk_now) ≤ RestartBackoffReset)%Z →
  (0 ≤ n)%Z → cv.(fc_Backoff) = Z.min (RestartBackoffInit * 2 ^ n) MaxBackoff →
  ∃ s' cv' es,
    runFacts s (crash_cycle uid c e clks ++ rest) = ((runFacts s' rest).1, es ++ (runFacts s' rest).2) ∧
    s_UID s' = s_UID s ∧ s_Spec s' = s_Spec s ∧ view s' c = Some cv' ∧ cv'.(fc_Restarting) = false ∧
    cv'.(fc_Backoff) = Z.min (RestartBackoffInit * 2 ^ (n + 1)) MaxBackoff ∧
    length (restarts es) = 1.
Proof.
  intros Hu Hv Hre Hsr Hclk Hn Hb. destruct clks as [k1 k2]. cbn [fst snd] in *.
  unfold crash_cycle. cbn [app fst snd]. rewrite runFacts_cons, runFacts_cons.
  destruct (poll_failed_view k1 s uid c e cv Hu Hv Hre Hsr) as (Hv1 & Hu1 & Hs1 & Hr1).
  set (r1 := Reduce k1 s _) in *.
  destruct (poll_running_view k2 r1.1 uid c 0 _ ltac:(by rewrite Hu1) Hv1 Hclk) as (Hv2 & Hu2 & Hs2 & Hr2).
  set (r2 := Reduce k2 r1.1 _) in *.
  eexists r2.1, _, (r1.2 ++ r2.2).
  split_and!; [cbn [fst snd]; by rewrite app_assoc|congruence|congruence|done|done| |].
  - cbn. by rewrite goMin_spec, Hb, double_capped.
  - by rewrite restarts_app, Hr2, app_nil_r.
Qed.

Lemma restart_pending_stays s c l :
  Forall (poll_not_running c) l → restarting s c = true → restarts (runFacts s l).2 = [].
Proof.
  revert s. induction l as [|[clk f] l IH]; intros s Hl Hr; [done|].
  inversion Hl as [|?? Hf Hl']; subst. destruct f; try done. destruct Hf as [-> Hst].
  destruct (poll_pending clk s uid c State ExitCode Hst Hr) as [Hr' Hn].
  rewrite runFacts_cons. cbn [snd]. rewrite restarts_app, Hn. by apply IH.
Qed.

Lemma restarts_at_most_one clk s f : length (restarts (Reduce clk s f).2) ≤ 1.
Proof.
  destruct (restart_Reduce clk s f) as [->|[_ (? & ? & ? & _ & _ & _ & _ & _ & _ & _ & ->)]]; cbn; lia.
Qed.

Lemma wf_runFacts s l : wf s → wf (runFacts s l).1.
Proof.
  revert s. induction l as [|[clk f] l IH]; intros s Hs; [done|].
  rewrite runFacts_cons. by apply IH, wf_Reduce.
Qed.

(** ** Properties *)

(** C1: Every state that the machine reaches from the admission of a pod, by
    any sequence of facts with any clock readings, has its containers in the
    order and with the names and images of the current spec, every back-off
    between 10 s and 5 min and every restart counter in the int32 range. *)
Theorem Reduce_invariant clk uid ns n ip pod l :
  wf (runFacts (NewPodState clk uid ns n ip pod) l).1.
Proof. apply wf_runFacts, wf_NewPodState. Qed.

(** The pod phase that [recomputePhase] stores and publishes: Running when
    a container runs, or none is being created and one waits for its restart;
    Pending when none runs and one is being created; Succeeded exactly when
    all containers terminated with code 0; Failed exactly when all terminated
    and some code is not 0. *)
Theorem recomputePhase_phase clk s :
  let cs := s.(s_Containers) in
  let p := s_Phase (recomputePhase clk s).1 in
  let some ph := ∃ cv, cv ∈ cs ∧ cv.(fc_Phase) = ph in
  (p = PodRunning ↔ some PhaseRunning ∨ ¬ some PhaseCreating ∧ some PhaseCrashLoopBackOff) ∧
  (p = PodPending ↔ ¬ some PhaseRunning ∧ some PhaseCreating) ∧
  (p = PodSucceeded ↔ ∀ cv, cv ∈ cs → cv.(fc_Phase) = PhaseTerminated ∧ cv.(fc_ExitCode) = 0%Z) ∧
  (p = PodFailed ↔ (∀ cv, cv ∈ cs → cv.(fc_Phase) = PhaseTerminated) ∧
                   ∃ cv, cv ∈ cs ∧ cv.(fc_ExitCode) ≠ 0%Z).
Proof.
  cbn zeta. rewrite recomputePhase_podPhase. unfold podPhase.
  pose proof (some_not_all (s_Containers s) PhaseRunning) as Hr.
  pose proof (some_not_all (s_Containers s) PhaseCreating) as Hc.
  pose proof (some_not_all (s_Containers s) PhaseCrashLoopBackOff) as Hb.
  pose proof (none_all (s_Containers s)) as Ht.
  pose proof (forallb_exit_ok (s_Containers s)) as He.
  pose proof (forallb_exit_bad (s_Containers s)) as Hx.
  rewrite all_and.
  rewrite <- (existsb_in_phase PhaseRunning), <- (existsb_in_phase PhaseCreating),
    <- (existsb_in_phase PhaseCrashLoopBackOff) in *.
  rewrite <- He in *. rewrite <- Hx in *. clear He Hx.
  set (A := ∀ cv, cv ∈ s_Containers s → fc_Phase cv = PhaseTerminated) in *. clearbody A.
  destruct (existsb (in_phase PhaseRunning) _); [intuition congruence|].
  destruct (existsb (in_phase PhaseCreating) _); [intuition congruence|].
  destruct (existsb (in_phase PhaseCrashLoopBackOff) _); [intuition congruence|].
  destruct (forallb exit_ok _); intuition congruence.
Qed.

(** Every status that a fact publishes is the status of the state the
    fact leads to, under the pod's own identity, and the phase it carries is
    the phase of that state's containers. *)
Theorem Reduce_status_consistent clk s f uid ns n st :
  UpdateStatus uid ns n st ∈ (Reduce clk s f).2 →
  let s' := (Reduce clk s f).1 in
  uid = s.(s_UID) ∧ ns = s.(s_Namespace) ∧ n = s.(s_Name) ∧
  st = BuildPodStatusPayload clk s' ∧ st.(pp_Phase) = podPhase s'.(s_Containers).
Proof.
  intros Hin. cbn zeta. destruct (decide (s.(s_UID) = "")) as [Hu|Hu].
  { unfold Reduce in Hin. rewrite bool_decide_eq_true_2 in Hin by done. set_solver. }
  assert (∀ u, f ≠ PodEvictFact u) as Hf.
  { intros u ->. unfold Reduce in Hin. rewrite bool_decide_eq_false_2 in Hin by done.
    cbn in Hin. by apply list_elem_of_fmap in Hin as (? & ? & _). }
  destruct (reduced_Reduce clk s f Hu Hf) as
    [(_ & _ & Hl)|(s0 & pre & (Hu0 & Hn0 & Hm0 & _) & _ & Hl & Heq)].
  - rewrite Forall_forall in Hl. by apply Hl in Hin.
  - rewrite Heq in Hin |- *. cbn [fst snd] in *. rewrite elem_of_app in Hin.
    destruct Hin as [Hin|Hin]; [rewrite Forall_forall in Hl; by apply Hl in Hin|].
    unfold recomputePhase in Hin. cbn [snd] in Hin.
    rewrite !elem_of_app, !list_elem_of_singleton in Hin.
    destruct Hin as [Hin|[Hin|Hin]]; [|exfalso; case_match; [|set_solver];
      apply elem_of_cons in Hin as [|(? & ? & _)%list_elem_of_fmap]; done|done].
    injection Hin as -> -> -> ->.
    split_and!; [done|done|done|reflexivity|exact (recomputePhase_podPhase clk s0)].
Qed.

(** A pod with one container, admitted; the state in which the properties
    below are shown to apply. *)
Definition sampleClock : Clock := {|
  clk_now := 5; clk_since := 6; clk_create := λ _, 3%Z; clk_status := λ _, 7%Z |}.

Definition samplePod : Pod :=
  {| zeroPod with p_RestartPolicy := RestartPolicyAlways;
                  p_Containers := [{| zeroContainer with c_Name := "web"; c_Image := "nginx" |}] |}.

Definition sampleState : PodState := NewPodState sampleClock "u1" "default" "web-0" "10.0.0.2" samplePod.

Lemma Reduce_status_consistent_witness :
  ∃ st, UpdateStatus "u1" "default" "web-0" st
          ∈ (Reduce sampleClock sampleState (ContainerStateFact "u1" "web" StateRunning 0)).2 ∧
        st.(pp_Phase) = PodRunning.
Proof.
  eexists. split; [apply list_elem_of_here|].
  eapply eq_trans; [|reflexivity].
  apply (Reduce_status_consistent sampleClock sampleState (ContainerStateFact "u1" "web" StateRunning 0)
           "u1" "default" "web-0" _ (list_elem_of_here _ _)).
Defined.

(** A pod is reported to the store as finished exactly when a fact moves
    it to Succeeded or Failed from another phase, with that phase; and then
    the unit of every container is reset. *)
Theorem Reduce_terminal clk s f uid p :
  s.(s_UID) ≠ "" → (∀ u, f ≠ PodEvictFact u) →
  let s' := (Reduce clk s f).1 in
  let es := (Reduce clk s f).2 in
  (SetPodPhase uid p ∈ es ↔
     uid = s.(s_UID) ∧ p = s'.(s_Phase) ∧ (p = PodSucceeded ∨ p = PodFailed) ∧ s.(s_Phase) ≠ p) ∧
  (SetPodPhase uid p ∈ es →
     ∀ cv, cv ∈ s'.(s_Containers) → ResetUnit uid cv.(fc_Name) ∈ es).
Proof.
  intros Hu Hf. cbn zeta.
  destruct (reduced_Reduce clk s f Hu Hf) as
    [(_ & Hp & Hl)|(s0 & pre & (Hu0 & _) & Hp & Hl & ->)]; rewrite Forall_forall in Hl.
  - assert (SetPodPhase uid p ∉ (Reduce clk s f).2) as Hn by (intros Hin; by apply Hl in Hin).
    split; [|done]. split; [done|]. intros (_ & -> & _ & Hne). congruence.
  - assert (SetPodPhase uid p ∉ pre) as Hn by (intros Hin; by apply Hl in Hin).
    cbn [fst snd]. rewrite <- Hp, <- Hu0, elem_of_app. split.
    + rewrite <- SetPodPhase_recompute. tauto.
    + intros [|Hin]; [done|]. intros cv Hcv. apply elem_of_app. right.
      by eapply ResetUnit_recompute.
Qed.

Lemma Reduce_terminal_witness :
  let s := {| sampleState with s_Spec := {| sampleState.(s_Spec) with sp_RestartPolicy := RestartPolicyNever |} |} in
  SetPodPhase "u1" PodFailed ∈ (Reduce sampleClock s (ContainerStateFact "u1" "web" StateExited 3)).2.
Proof.
  cbn zeta. apply (Reduce_terminal sampleClock _ (ContainerStateFact "u1" "web" StateExited 3));
    [done|done|].
  split; [done|]. split; [vm_compute; reflexivity|]. split; [by right|done].
Defined.

(** A fact restarts at most one container, the one it is about, and only
    when the restart policy allows it; the one restart effect carries the
    counter and the doubled and capped back-off that the state now holds for
    that container, which is left in CrashLoopBackOff with the restart
    pending. *)
Theorem Reduce_restarts clk s f :
  let r := Reduce clk s f in
  restarts r.2 = [] ∨
  restart_allowed s.(s_Spec).(sp_RestartPolicy) f = true ∧ restarted s (fact_container f) r.
Proof. apply restart_Reduce. Qed.

(** However many polls report a container as failed, exited, creating or
    unknown, at most one restart is started until a poll sees it running. *)
Theorem poll_restart_once s c l :
  Forall (poll_not_running c) l → length (restarts (runFacts s l).2) ≤ 1.
Proof.
  revert s. induction l as [|[clk f] l IH]; intros s Hl; [cbn; lia|].
  inversion Hl as [|?? Hf Hl']; subst. destruct f; try done. destruct Hf as [-> Hst].
  rewrite runFacts_cons. cbn [snd]. rewrite restarts_app, length_app.
  pose proof (restarts_at_most_one clk s (ContainerStateFact uid c State ExitCode)).
  pose proof (IH (Reduce clk s (ContainerStateFact uid c State ExitCode)).1 Hl').
  destruct (decide (restarts (Reduce clk s (ContainerStateFact uid c State ExitCode)).2 = []))
    as [->|Hne]; [done|].
  rewrite (restart_pending_stays _ c) by auto using poll_restart_pending. cbn. lia.
Qed.

Lemma poll_restart_once_witness :
  length (restarts (runFacts sampleState
    [(sampleClock, ContainerStateFact "u1" "web" StateFailed 1);
     (sampleClock, ContainerStateFact "u1" "web" StateFailed 1);
     (sampleClock, ContainerStateFact "u1" "web" StateExited 0)]).2) ≤ 1.
Proof. apply (poll_restart_once sampleState "web"). repeat constructor; done. Defined.

(** After [n] crashes, each followed by a successful restart, the back-off
    of a container is min(10 s * 2^n, 5 min), and [n] restarts were started. *)
Theorem crash_loop_backoff s uid c e cv clks :
  s.(s_UID) ≠ "" → view s c = Some cv → cv.(fc_Restarting) = false →
  shouldRestart s.(s_Spec).(sp_RestartPolicy) e = true → cv.(fc_Backoff) = RestartBackoffInit →
  Forall (λ k, (k.2.(clk_since) - k.2.(clk_now) ≤ RestartBackoffReset)%Z) clks →
  let r := runFacts s (mjoin (crash_cycle uid c e <$> clks)) in
  let n := Z.of_nat (length clks) in
  fc_Backoff <$> view r.1 c = Some (Z.min (RestartBackoffInit * 2 ^ n) MaxBackoff) ∧
  Z.of_nat (length (restarts r.2)) = n.
Proof.
  intros Hu Hv Hre Hsr Hb Hk. cbn zeta.
  assert (∃ m, (0 ≤ m)%Z ∧ m = 0%Z ∧ cv.(fc_Backoff) = Z.min (RestartBackoffInit * 2 ^ m) MaxBackoff)
    as (m & Hm & Hm0 & Hbm) by (exists 0%Z; rewrite Hb; by split_and!).
  rewrite <- (Z.add_0_l (Z.of_nat (length clks))) at 1. rewrite <- Hm0. clear Hb Hm0.
  revert s cv m Hu Hv Hre Hsr Hm Hbm.
  induction Hk as [|k clks Hk _ IH]; intros s cv m Hu Hv Hre Hsr Hm Hbm.
  - cbn. by rewrite Hv, Z.add_0_r; cbn; rewrite Hbm.
  - change (mjoin (crash_cycle uid c e <$> k :: clks))
      with (crash_cycle uid c e k ++ mjoin (crash_cycle uid c e <$> clks)).
    destruct (crash_cycle_step s uid c e k cv m (mjoin (crash_cycle uid c e <$> clks)))
      as (s' & cv' & es & -> & Hu' & Hs' & Hv' & Hre' & Hb' & Hn); try done.
    destruct (IH s' cv' (m + 1)%Z) as [Hv2 Hlen]; [congruence|done|done|congruence|lia|done|].
    cbn [fst snd length]. rewrite Hv2, restarts_app, length_app, Hn. split; [|lia].
    do 3 f_equal. f_equal. lia.
Qed.

Lemma crash_loop_backoff_witness :
  let r := runFacts sampleState
    (mjoin (crash_cycle "u1" "web" 1 <$> [(sampleClock, sampleClock); (sampleClock, sampleClock)])) in
  fc_Backoff <$> view r.1 "web" = Some 40000000000%Z ∧ Z.of_nat (length (restarts r.2)) = 2%Z.
Proof.
  exact (crash_loop_backoff sampleState "u1" "web" 1 _ [(sampleClock, sampleClock); (sampleClock, sampleClock)]
    ltac:(done) eq_refl eq_refl eq_refl eq_refl ltac:(repeat constructor; done)).
Defined.

(** The API state a container of each phase is reported with. *)
Definition reportedState (now : Time) (cv : ContainerState) : Corev1.ContainerState :=
  match cv.(fc_Phase) with
  | PhaseCreating => {| zeroContainerState with
      Waiting := Some {| w_Reason := "ContainerCreating"; w_Message := "" |} |}
  | PhaseCrashLoopBackOff => {| zeroContainerState with
      Waiting := Some {| w_Reason := "CrashLoopBackOff"; w_Message := "" |} |}
  | PhaseRunning => {| zeroContainerState with Running := Some {| r_StartedAt := cv.(fc_LastStarted) |} |}
  | PhaseTerminated => {| zeroContainerState with
      Terminated := Some {| t_ExitCode := cv.(fc_ExitCode); t_Reason := cv.(fc_ExitReason); t_Message := "";
                            t_StartedAt := cv.(fc_LastStarted); t_FinishedAt := now |} |}
  end.

(** The two conversions from a [PodState] to the API status lose nothing:
    phase and addresses are kept, every container keeps its position, name,
    image, readiness and counter and gets exactly the one state of its phase,
    and the pod is Ready exactly when all its containers are. *)
Theorem status_conversion clk s :
  let st := PodStatusPayloadToCorev1 (BuildPodStatusPayload clk s) in
  st.(ps_Phase) = s.(s_Phase) ∧ st.(ps_PodIP) = s.(s_PodIP) ∧
  length st.(ps_ContainerStatuses) = length s.(s_Containers) ∧
  (∀ i cv, s.(s_Containers) !! i = Some cv →
     st.(ps_ContainerStatuses) !! i
     = Some {| cs_Name := cv.(fc_Name); cs_State := reportedState (clk.(clk_status) i) cv;
               cs_Ready := cv.(fc_Ready); cs_RestartCount := cv.(fc_RestartCount);
               cs_Image := cv.(fc_Image) |}) ∧
  (st.(ps_Conditions) = [{| pc_Type := "Ready"; pc_Status := ConditionTrue |}] ↔
     ∀ cv, cv ∈ s.(s_Containers) → cv.(fc_Ready) = true).
Proof.
  cbn zeta. unfold PodStatusPayloadToCorev1, BuildPodStatusPayload. cbn.
  split_and!; try done.
  - by rewrite List.length_map, length_imap.
  - intros i cv Hi. rewrite list_lookup_fmap, list_lookup_imap, Hi. cbn. do 2 f_equal.
    unfold containerStateToPayload, payloadToContainerState, reportedState.
    by destruct (fc_Phase cv).
  - match goal with |- context [forallb ?p ?l] => destruct (forallb p l) eqn:Hf end.
    + split; [intros _|done]. rewrite List.forallb_forall in Hf. intros cv [i Hi]%list_elem_of_lookup.
      eapply (Hf (Build_ContainerStatusPayload _ _ _ _ _)), list_elem_of_In, list_elem_of_lookup.
      exists i. rewrite list_lookup_imap, Hi. reflexivity.
    + split; [done|]. intros Hall. exfalso. apply not_true_iff_false in Hf. apply Hf.
      apply List.forallb_forall. intros x Hx%list_elem_of_In. 
      apply list_elem_of_lookup in Hx as [i Hi]. rewrite list_lookup_imap in Hi.
      apply fmap_Some in Hi as (cv & Hcv & ->). cbn. eapply Hall, list_elem_of_lookup_2. done.
Qed.

(** ** Behaviours that differ from what the comments say *)

(** The stable-run reset of the back-off is never taken by the poll path:
    [LastStarted] is set to the current time immediately before it is read
    back, so however long the container has been running the back-off is
    kept (unless the call itself takes ten minutes). *)
Theorem poll_running_keeps_backoff clk s uid c e cv :
  s.(s_UID) ≠ "" → view s c = Some cv →
  (clk.(clk_since) - clk.(clk_now) ≤ RestartBackoffReset)%Z →
  fc_Backoff <$> view (Reduce clk s (ContainerStateFact uid c StateRunning e)).1 c
  = Some cv.(fc_Backoff).
Proof.
  intros Hu Hv Hk. destruct (poll_running_view clk s uid c e cv Hu Hv Hk) as (-> & _). done.
Qed.

(** The caller's variable after a call of [Reduce].  The struct is passed by
    value, but its [Containers] slice refers to the same array, through which
    the reducers of these facts write. *)
Definition caller_after (clk : Clock) (s : PodState) (f : Fact) : PodState :=
  match f with
  | SpecFact _ _ _ _ | PodAdmitFact _ _ _ _ _ | PodEvictFact _ => s
  | _ => {| s with s_Containers := (Reduce clk s f).1.(s_Containers) |}
  end.

(** The comment on [Reduce] says that the caller's copy is never mutated. *)
Theorem caller_copy_mutated :
  view (caller_after sampleClock sampleState (ContainerStateFact "u1" "web" StateRunning 0)) "web"
  ≠ view sampleState "web".
Proof. vm_compute. done. Qed.

(** With restart policy Never, a "failed" unit event leaves the container in
    CrashLoopBackOff and the pod Running although nothing will restart it. *)
Theorem unit_failed_never_restarted :
  let u := wrapperUnitName "p" "0b7c3d52-6a43-4c11-9f0e-7d0c1b2a3f4e" "web" in
  let s := {| sampleState with s_Spec := {| sampleState.(s_Spec) with sp_RestartPolicy := RestartPolicyNever |} |} in
  let r := Reduce sampleClock s (UnitFact "u1" u "failed" 1) in
  fc_Phase <$> view r.1 "web" = Some PhaseCrashLoopBackOff ∧ r.1.(s_Phase) = PodRunning ∧
  restarts r.2 = [].
Proof. vm_compute. done. Qed.
