(* ===== verification/Syzygy.v ===== *)
(** * The event loop and the effect executor (internal/syzygy, internal/horizon)

    Syzygy owns the map of pod states and turns facts into effects with
    [Foci.Reduce]; its workers route every effect to a local callback or to
    Horizon, whose workers execute the Kubernetes side.  Goroutines are
    modelled by the order in which their atomic steps happen: [step] takes
    one event of the interleaving, and the theorems hold for every sequence
    of events.  A buffered channel is a list with the capacity of its [make];
    sends to it are non-blocking in both components. *)
From S2P Require Import Prelude Corev1 Types UnitNames Foci.

(** ** Channels *)

(** [select { case ch <- x: default: }]: the new contents and whether the
    send happened. *)
Definition try_send {A} (cap : nat) (ch : list A) (x : A) : list A * bool :=
  if (length ch <? cap)%nat then (ch ++ [x], true) else (ch, false).

Lemma try_send_cap {A} cap (ch : list A) x :
  length ch ≤ cap → length (try_send cap ch x).1 ≤ cap.
Proof.
  unfold try_send. destruct (Nat.ltb_spec (length ch) cap); cbn; [|done].
  rewrite length_app. cbn. lia.
Qed.

(** ** Horizon *)

Definition horizonBuf : nat := 1024.

Record Horizon := {
  h_inbox : list Effect;
  h_closed : bool;
}.

Definition NewHorizon : Horizon := {| h_inbox := []; h_closed := false |}.

Definition Horizon_Send (h : Horizon) (eff : Effect) : Horizon * bool :=
  if h.(h_closed) then (h, false)
  else
    let '(ch, ok) := try_send horizonBuf h.(h_inbox) eff in
    ({| h with h_inbox := ch |}, ok).

Definition Horizon_close (h : Horizon) : Horizon :=
  if h.(h_closed) then h else {| h with h_closed := true |}.

(** The callbacks and API writes that [executeEffect] performs. *)
Inductive HorizonCall :=
  | CallWritePodStatus (uid namespace name : string) (status : PodStatus)
  | CallRestartContainer (uid namespace podName containerName : string) (restartCount : Z) (backoff : Duration)
  | CallResetUnit (uid containerName : string)
  | CallRecordEvent (uid eventType reason message : string)
  | CallWarn.

Definition handleUpdateStatus (uid namespace name : string) (status : PodStatusPayload) : HorizonCall :=
  CallWritePodStatus uid namespace name (PodStatusPayloadToCorev1 status).

Definition executeEffect (eff : Effect) : HorizonCall :=
  match eff with
  | UpdateStatus uid ns n st => handleUpdateStatus uid ns n st
  | RestartContainer uid ns pn cn rc b => CallRestartContainer uid ns pn cn rc b
  | ResetUnit uid cn => CallResetUnit uid cn
  | RecordEvent uid et r m => CallRecordEvent uid et r m
  | _ => CallWarn
  end.

(** *** Writing a status

    The API server is the environment: [get i] and [update i] are its answers
    to the calls of the [i]-th attempt, and may depend on anything. *)

Inductive ApiErr := ErrNotFound | ErrConflict | ErrOther (msg : string).

Definition IsNotFound (e : ApiErr) : bool := match e with ErrNotFound => true | _ => false end.
Definition IsConflict (e : ApiErr) : bool := match e with ErrConflict => true | _ => false end.

Inductive ApiCall := ApiGet (namespace name : string) | ApiUpdateStatus (namespace : string) (pod : Pod).

Section WritePodStatus.
Variable get : nat → Pod + ApiErr.
Variable update : nat → option ApiErr.
Variables (uid namespace name : string) (status : PodStatus).

Definition maxRetries : nat := 5.

(** The loop from attempt [attempt], with [n] attempts left: the calls made
    and the error returned ([None] for nil). *)
Fixpoint writePodStatus_loop (n attempt : nat) : list ApiCall * option ApiErr :=
  match n with
  | O => ([], None)
  | S n' =>
      match get attempt with
      | inr err => ([ApiGet namespace name], if IsNotFound err then None else Some err)
      | inl current =>
          if negb (bool_decide (current.(p_UID) = uid)) then ([ApiGet namespace name], None)
          else
            let upd := {| current with p_Status := status |} in
            let calls := [ApiGet namespace name; ApiUpdateStatus namespace upd] in
            match update attempt with
            | None => (calls, None)
            | Some err =>
                if IsNotFound err then (calls, None)
                else if IsConflict err then
                  if (attempt <? maxRetries - 1)%nat
                  then let '(rest, r) := writePodStatus_loop n' (S attempt) in (calls ++ rest, r)
                  else (calls, None)
                else (calls, Some err)
            end
      end
  end.

Definition writePodStatus : list ApiCall * option ApiErr := writePodStatus_loop maxRetries 0.
End WritePodStatus.

(** ** Syzygy *)

Definition inboxBuf : nat := 2048.
Definition effectsBuf : N := 16384.

Record Syzygy := {
  inbox : list Fact;
  effects : list Effect;
  closed : bool;
  states : gmap string PodState;
}.

Definition NewSyzygy : Syzygy := {| inbox := []; effects := []; closed := false; states := ∅ |}.

Definition Send (s : Syzygy) (f : Fact) : Syzygy * bool :=
  if s.(closed) then (s, false)
  else
    let '(ch, ok) := try_send inboxBuf s.(inbox) f in
    ({| s with inbox := ch |}, ok).

Definition close (s : Syzygy) : Syzygy := if s.(closed) then s else {| s with closed := true |}.

(** The loop of [processFact] that pushes the effects. *)
Fixpoint pushEffects (ch : list Effect) (es : list Effect) : list Effect :=
  match es with
  | [] => ch
  | e :: es => pushEffects (try_send (N.to_nat effectsBuf) ch e).1 es
  end.

Definition processFact (clk : Clock) (s : Syzygy) (f : Fact) : Syzygy :=
  let uid := UID f in
  if bool_decide (uid = "") then s
  else
    let currentState := default zeroPodState (s.(states) !! uid) in
    let '(newState, es) := Reduce clk currentState f in
    {| s with
       states := if bool_decide (newState.(s_UID) = "") then delete uid s.(states)
                 else <[uid := newState]> s.(states);
       effects := pushEffects s.(effects) es |}.

(** What a worker does with an effect. *)
Inductive Dispatch :=
  | DoSetPodPhase (uid : string) (phase : PodPhase)
  | DoPersistPodState (uid : string)
  | DoInitRestartState (uid namespace name : string) (containers : list ContainerInitPayload)
  | ToHorizon (eff : Effect).

Definition dispatchEffect (eff : Effect) : Dispatch :=
  match eff with
  | SetPodPhase uid p => DoSetPodPhase uid p
  | PersistPodState uid => DoPersistPodState uid
  | InitRestartState uid ns n cs => DoInitRestartState uid ns n cs
  | UpdateStatus _ _ _ _ | RestartContainer _ _ _ _ _ _ | ResetUnit _ _ | RecordEvent _ _ _ _ =>
      ToHorizon eff
  end.

Definition PodState_of (s : Syzygy) (uid : string) : option PodState := s.(states) !! uid.
Definition PodCount (s : Syzygy) : nat := size s.(states).

(** The drain of [Run] after [close]: the remaining facts in order. *)
Fixpoint drain (s : Syzygy) (l : list (Clock * Fact)) : Syzygy :=
  match l with
  | [] => {| s with inbox := [] |}
  | (clk, f) :: l => drain (processFact clk s f) l
  end.

(** ** The running system *)

(** The two components, and the history of what was accepted, processed and
    done. *)
Record System := {
  syz : Syzygy;
  hor : Horizon;
  accepted : list Fact;
  processed : list (Clock * Fact);
  localCalls : list Dispatch;
  apiCalls : list HorizonCall;
}.

Definition initSystem : System := {|
  syz := NewSyzygy; hor := NewHorizon; accepted := []; processed := []; localCalls := []; apiCalls := [] |}.

(** One step of some goroutine: a sender, the fact loop, an effect worker, a
    Horizon worker, or one of the shutdowns. *)
Inductive Event :=
  | EvSend (f : Fact)
  | EvProcess (clk : Clock)
  | EvDispatch
  | EvHorizon
  | EvClose
  | EvHorizonClose.

Definition step (s : System) (e : Event) : System :=
  match e with
  | EvSend f =>
      let '(z, ok) := Send s.(syz) f in
      {| s with syz := z; accepted := if ok then s.(accepted) ++ [f] else s.(accepted) |}
  | EvProcess clk =>
      match s.(syz).(inbox) with
      | [] => s
      | f :: rest =>
          {| s with syz := processFact clk {| s.(syz) with inbox := rest |} f;
                    processed := s.(processed) ++ [(clk, f)] |}
      end
  | EvDispatch =>
      match s.(syz).(effects) with
      | [] => s
      | e :: rest =>
          let s := {| s with syz := {| s.(syz) with effects := rest |} |} in
          match dispatchEffect e with
          | ToHorizon e => {| s with hor := (Horizon_Send s.(hor) e).1 |}
          | d => {| s with localCalls := s.(localCalls) ++ [d] |}
          end
      end
  | EvHorizon =>
      match s.(hor).(h_inbox) with
      | [] => s
      | e :: rest => {| s with hor := {| s.(hor) with h_inbox := rest |};
                               apiCalls := s.(apiCalls) ++ [executeEffect e] |}
      end
  | EvClose => {| s with syz := close s.(syz) |}
  | EvHorizonClose => {| s with hor := Horizon_close s.(hor) |}
  end.

Definition run (s : System) (es : list Event) : System := foldl step s es.

(** ** [sync.WaitGroup] *)

Inductive WgOp := WgAdd | WgDone.

(** The counter after the operations; [None] is the panic of a negative
    counter. *)
Fixpoint wgRun (counter : nat) (ops : list WgOp) : option nat :=
  match ops with
  | [] => Some counter
  | WgAdd :: ops => wgRun (S counter) ops
  | WgDone :: ops => match counter with O => None | S c => wgRun c ops end
  end.

(** [wg.Go(f)] is [wg.Add(1)], then [f] and [wg.Done()] in a goroutine. *)
Definition wgGo (body : list WgOp) : list WgOp := WgAdd :: body ++ [WgDone].

(** The operations of [Run] on [aeWg] once the anti-entropy loop returns: the
    function given to [Go] defers another [Done]. *)
Definition antiEntropyWg : list WgOp := wgGo [WgDone].

(** ** Lemmas *)

Lemma Reduce_uid clk s f :
  s_UID (Reduce clk s f).1 = s_UID s ∨ (Reduce clk s f).1 = zeroPodState ∧ s_UID s ≠ "".
Proof.
  destruct (decide (s.(s_UID) = "")) as [Hu|Hu].
  { left. unfold Reduce. by rewrite bool_decide_eq_true_2. }
  destruct f;
    try (left; match goal with |- context [Reduce clk s ?f] =>
           destruct (reduced_Reduce clk s f Hu ltac:(done)) as [([Hid _] & _)|(s0 & pre & [Hid _] & _ & _ & ->)];
           exact Hid end).
  right. unfold Reduce. by rewrite bool_decide_eq_false_2.
Qed.

Lemma pushEffects_cap es ch :
  length ch ≤ N.to_nat effectsBuf → length (pushEffects ch es) ≤ N.to_nat effectsBuf.
Proof. revert ch. induction es as [|e es IH]; intros ch Hl; cbn; [done|]. by apply IH, try_send_cap. Qed.

(** The tracked pods of a state map: keyed by their own UID, well formed. *)
Definition tracked_ok (m : gmap string PodState) : Prop :=
  ∀ uid ps, m !! uid = Some ps → ps.(s_UID) = uid ∧ uid ≠ "" ∧ wf ps.

Definition state_of (z : Syzygy) (uid : string) : PodState := default zeroPodState (z.(states) !! uid).

Lemma state_of_wf z uid : tracked_ok z.(states) → wf (state_of z uid).
Proof.
  intros Hm. unfold state_of. destruct (states z !! uid) as [ps|] eqn:Hl; cbn; [|apply wf_zero].
  by apply Hm in Hl as (_ & _ & ?).
Qed.

(** [processFact] replaces the state of the fact's pod by the reduced one and
    leaves the others alone. *)
Lemma processFact_state clk z f uid :
  tracked_ok z.(states) → UID f ≠ "" →
  state_of (processFact clk z f) uid
  = if decide (uid = UID f) then (Reduce clk (state_of z uid) f).1 else state_of z uid.
Proof.
  intros Hm Hne. unfold processFact. rewrite bool_decide_eq_false_2 by done.
  pose proof (Reduce_uid clk (state_of z (UID f)) f) as Hr.
  change (default zeroPodState (states z !! UID f)) with (state_of z (UID f)).
  destruct (Reduce clk (state_of z (UID f)) f) as [ns es] eqn:HR.
  unfold state_of at 1. cbn [states fst] in *. case_decide as Hd.
  - subst uid. rewrite HR. case_bool_decide as Hu; cbn.
    + rewrite lookup_delete_eq. cbn. destruct Hr as [Hr|[-> _]]; [|done].
      rewrite Hu in Hr. cbn in Hr. unfold state_of in *.
      destruct (states z !! UID f) as [ps|] eqn:Hl; cbn in *.
      * apply Hm in Hl as (Heq & _). congruence.
      * unfold Reduce in HR. rewrite bool_decide_eq_true_2 in HR by done. congruence.
    + by rewrite lookup_insert_eq.
  - case_bool_decide; [rewrite lookup_delete_ne by done|rewrite lookup_insert_ne by done]; done.
Qed.

Lemma tracked_ok_process clk z f : tracked_ok z.(states) → tracked_ok (processFact clk z f).(states).
Proof.
  intros Hm. unfold processFact. case_bool_decide as Hne; [done|].
  pose proof (Reduce_uid clk (state_of z (UID f)) f) as Hr.
  pose proof (wf_Reduce clk (state_of z (UID f)) f (state_of_wf z _ Hm)) as Hw.
  change (default zeroPodState (states z !! UID f)) with (state_of z (UID f)).
  destruct (Reduce clk (state_of z (UID f)) f) as [ns es] eqn:HR. cbn [states fst] in *.
  intros uid ps. case_bool_decide as Hu.
  - rewrite lookup_delete_Some. intros [_ Hl]. by apply Hm.
  - rewrite lookup_insert_Some. intros [[<- <-]|[_ Hl]]; [|by apply Hm].
    split_and!; [|done|done]. destruct Hr as [Hr|[-> _]]; [|done].
    rewrite Hr. unfold state_of in Hr |- *. destruct (states z !! UID f) as [ps|] eqn:Hl; cbn in *.
    + by apply Hm in Hl as [? _].
    + by rewrite Hr in Hu.
Qed.

Lemma processFact_frame clk z f :
  inbox (processFact clk z f) = inbox z ∧ closed (processFact clk z f) = closed z.
Proof. unfold processFact. case_bool_decide; [done|]. by destruct (Reduce _ _ _). Qed.

Lemma processFact_effects_cap clk z f :
  length z.(effects) ≤ N.to_nat effectsBuf →
  length (effects (processFact clk z f)) ≤ N.to_nat effectsBuf.
Proof.
  intros. unfold processFact. case_bool_decide; [done|].
  destruct (Reduce _ _ _). by apply pushEffects_cap.
Qed.

(** The effects that belong to Horizon. *)
Definition for_horizon (e : Effect) : Prop := executeEffect e ≠ CallWarn.

Lemma dispatch_for_horizon e e' : dispatchEffect e = ToHorizon e' → e' = e ∧ for_horizon e.
Proof. destruct e; cbn; intros [=]; subst; split; done. Qed.

(** The facts of one pod among those processed. *)
Definition facts_of (uid : string) (l : list (Clock * Fact)) : list (Clock * Fact) :=
  filter (λ cf, UID cf.2 = uid) l.

Record system_ok (s : System) : Prop := {
  ok_inbox : length s.(syz).(inbox) ≤ inboxBuf;
  ok_effects : length s.(syz).(effects) ≤ N.to_nat effectsBuf;
  ok_hinbox : length s.(hor).(h_inbox) ≤ horizonBuf;
  ok_fifo : s.(accepted) = map snd s.(processed) ++ s.(syz).(inbox);
  ok_tracked : tracked_ok s.(syz).(states);
  ok_routed : Forall for_horizon s.(hor).(h_inbox);
  ok_calls : CallWarn ∉ s.(apiCalls);
}.

Lemma system_ok_init : system_ok initSystem.
Proof.
  split; cbn; try lia; try done.
  apply not_elem_of_nil.
Qed.

Lemma Horizon_Send_ok h e :
  length h.(h_inbox) ≤ horizonBuf → Forall for_horizon h.(h_inbox) → for_horizon e →
  length (Horizon_Send h e).1.(h_inbox) ≤ horizonBuf ∧
  Forall for_horizon (Horizon_Send h e).1.(h_inbox).
Proof.
  intros Hl HF He. unfold Horizon_Send. destruct (h_closed h); [done|].
  pose proof (try_send_cap horizonBuf (h_inbox h) e Hl).
  unfold try_send in *. destruct (_ <? _)%nat; cbn in *; [|done].
  split; [done|]. apply Forall_app. by repeat constructor.
Qed.

Lemma system_ok_send s f : system_ok s → system_ok (step s (EvSend f)).
Proof.
  intros [H1 H2 H3 H4 H5 H6 H7]. cbn. unfold Send. destruct (closed (syz s)); [by split|].
  pose proof (try_send_cap inboxBuf (inbox (syz s)) f H1). unfold try_send in *.
  destruct (_ <? _)%nat; cbn in *; split; cbn; try done. by rewrite H4, app_assoc.
Qed.

Lemma system_ok_process s clk : system_ok s → system_ok (step s (EvProcess clk)).
Proof.
  intros [H1 H2 H3 H4 H5 H6 H7]. cbn. destruct (inbox (syz s)) as [|f rest] eqn:Hi; [by split; rewrite ?Hi|].
  destruct (processFact_frame clk {| s.(syz) with inbox := rest |} f) as [Hin _].
  split; cbn; try done.
  - rewrite Hin. cbn in *. lia.
  - by apply processFact_effects_cap.
  - rewrite Hin, map_app. cbn. by rewrite <- app_assoc, H4.
  - by apply tracked_ok_process.
Qed.

Lemma system_ok_dispatch s : system_ok s → system_ok (step s EvDispatch).
Proof.
  intros [H1 H2 H3 H4 H5 H6 H7]. cbn. destruct (effects (syz s)) as [|e rest] eqn:He; [by split; rewrite ?He|].
  cbn in H2. destruct (dispatchEffect e) as [| | |e'] eqn:Hd; try (split; cbn; try done; lia).
  apply dispatch_for_horizon in Hd as [-> Hfor].
  destruct (Horizon_Send_ok (hor s) e H3 H6 Hfor). split; cbn; try done. lia.
Qed.

Lemma system_ok_horizon s : system_ok s → system_ok (step s EvHorizon).
Proof.
  intros [H1 H2 H3 H4 H5 H6 H7]. cbn. destruct (h_inbox (hor s)) as [|e rest] eqn:He; [by split; rewrite ?He|].
  inversion H6; subst. cbn in H3. split; cbn; try done; [lia|].
  rewrite elem_of_app, list_elem_of_singleton. intros [?|Heq]; [done|]. by symmetry in Heq.
Qed.

Lemma system_ok_step s e : system_ok s → system_ok (step s e).
Proof.
  intros Hs. destruct e; eauto using system_ok_send, system_ok_process, system_ok_dispatch,
    system_ok_horizon; destruct Hs; cbn.
  - unfold close. by destruct (closed (syz s)).
  - unfold Horizon_close. by destruct (h_closed (hor s)).
Qed.

Lemma system_ok_run s es : system_ok s → system_ok (run s es).
Proof. revert s. induction es as [|e es IH]; intros s Hs; [done|]. cbn. by apply IH, system_ok_step. Qed.

Lemma facts_of_app uid l l' : facts_of uid (l ++ l') = facts_of uid l ++ facts_of uid l'.
Proof. unfold facts_of. apply filter_app. Qed.

Lemma runFacts_app s l l' : (runFacts s (l ++ l')).1 = (runFacts (runFacts s l).1 l').1.
Proof.
  revert s. induction l as [|[clk f] l IH]; intros s; [done|].
  cbn [app]. rewrite !runFacts_cons. cbn [fst]. apply IH.
Qed.

(** One step moves the states of the pods by the facts it processes. *)
Lemma step_refines s e :
  tracked_ok s.(syz).(states) →
  ∃ new, processed (step s e) = processed s ++ new ∧
    ∀ uid, uid ≠ "" → state_of (step s e).(syz) uid = (runFacts (state_of s.(syz) uid) (facts_of uid new)).1.
Proof.
  intros Hm. destruct e as [f|clk| | | |]; cbn [step].
  - exists []. rewrite app_nil_r. destruct (Send (syz s) f) as [z ok] eqn:Hs.
    split; [done|]. intros uid _. cbn. unfold Send in Hs.
    destruct (closed (syz s)); [by simplify_eq|]. destruct (try_send _ _ _). by simplify_eq.
  - destruct (inbox (syz s)) as [|f rest]; [exists []; by rewrite app_nil_r|].
    exists [(clk, f)]. split; [done|]. intros uid Hu. cbn [syz].
    unfold facts_of. rewrite filter_cons, filter_nil. cbn [snd].
    destruct (decide (UID f = "")) as [Hf|Hf].
    { unfold processFact. rewrite bool_decide_eq_true_2 by done.
      rewrite decide_False by congruence. done. }
    rewrite processFact_state by done.
    destruct (decide (uid = UID f)) as [->|Hd].
    + rewrite decide_True by done. by rewrite runFacts_cons.
    + by rewrite decide_False.
  - exists []. rewrite app_nil_r. destruct (effects (syz s)); [done|]. by destruct (dispatchEffect _).
  - exists []. rewrite app_nil_r. by destruct (h_inbox (hor s)).
  - exists []. rewrite app_nil_r. split; [done|]. intros uid _. cbn. unfold close.
    by destruct (closed (syz s)).
  - exists []. by rewrite app_nil_r.
Qed.

(** ** Properties *)

(** Under every interleaving of senders, the fact loop, effect workers,
    Horizon workers and shutdowns: no channel exceeds its capacity; facts are
    processed exactly once, in the order in which they were accepted, and
    none that was accepted is lost; every tracked pod is stored under its own
    UID in a well-formed state; and Horizon is only ever given effects it can
    execute. *)
Theorem system_invariant es :
  let s := run initSystem es in
  length s.(syz).(inbox) ≤ inboxBuf ∧ length s.(syz).(effects) ≤ N.to_nat effectsBuf ∧
  length s.(hor).(h_inbox) ≤ horizonBuf ∧
  s.(accepted) = map snd s.(processed) ++ s.(syz).(inbox) ∧
  tracked_ok s.(syz).(states) ∧ CallWarn ∉ s.(apiCalls).
Proof. cbn zeta. destruct (system_ok_run initSystem es system_ok_init). by split_and!. Qed.

(** C2: The event loop implements one state machine per pod: whatever the
    interleaving, the state of a pod is the one that the facts of that pod,
    in the order they were processed, lead to from where it started. *)
Theorem syzygy_refines_foci s es :
  system_ok s →
  ∃ new, processed (run s es) = processed s ++ new ∧
    ∀ uid, uid ≠ "" →
      state_of (run s es).(syz) uid = (runFacts (state_of s.(syz) uid) (facts_of uid new)).1.
Proof.
  revert s. induction es as [|e es IH]; intros s Hs; [exists []; by rewrite app_nil_r|].
  destruct (step_refines s e (ok_tracked _ Hs)) as (new & Hp & Hst).
  destruct (IH (step s e) (system_ok_step _ _ Hs)) as (new' & Hp' & Hst').
  exists (new ++ new'). change (run s (e :: es)) with (run (step s e) es).
  split; [by rewrite Hp', Hp, app_assoc|]. intros uid Hu.
  by rewrite Hst', Hst, facts_of_app, runFacts_app.
Qed.

(** A system in which one pod is tracked. *)
Definition trackingSystem : System :=
  {| initSystem with syz := {| NewSyzygy with states := {[ "u1" := sampleState ]} |} |}.

Lemma trackingSystem_ok : system_ok trackingSystem.
Proof.
  split; cbn; try lia; try done; [|apply not_elem_of_nil].
  intros uid ps [<- <-]%lookup_singleton_Some. split_and!; [done|done|]. apply wf_NewPodState.
Qed.

Lemma syzygy_refines_foci_witness :
  ∃ new, processed (run trackingSystem
      [EvSend (ContainerStateFact "u1" "web" StateRunning 0); EvSend (MarkRunningFact "u2" "db");
       EvProcess sampleClock; EvDispatch; EvProcess sampleClock]) = [] ++ new ∧
    ∀ uid, uid ≠ "" → state_of (run trackingSystem
      [EvSend (ContainerStateFact "u1" "web" StateRunning 0); EvSend (MarkRunningFact "u2" "db");
       EvProcess sampleClock; EvDispatch; EvProcess sampleClock]).(syz) uid
      = (runFacts (state_of trackingSystem.(syz) uid) (facts_of uid new)).1.
Proof. apply (syzygy_refines_foci trackingSystem). apply trackingSystem_ok. Defined.

(** C31: A status is only ever written to the pod it was computed for: every
    update sent to the API server is the pod just read, with that UID and
    with nothing but its status replaced; at most five updates are sent. *)
Theorem writePodStatus_guarded get update uid ns name st :
  let calls := (writePodStatus get update uid ns name st).1 in
  length calls ≤ 2 * maxRetries ∧
  ∀ ns' pod, ApiUpdateStatus ns' pod ∈ calls →
    ns' = ns ∧ pod.(p_UID) = uid ∧
    ∃ i cur, i < maxRetries ∧ get i = inl cur ∧ pod = {| cur with p_Status := st |}.
Proof.
  cbn zeta. unfold writePodStatus.
  assert (∀ n a, n + a ≤ maxRetries →
    let calls := (writePodStatus_loop get update uid ns name st n a).1 in
    length calls ≤ 2 * n ∧
    ∀ ns' pod, ApiUpdateStatus ns' pod ∈ calls → ns' = ns ∧ pod.(p_UID) = uid ∧
      ∃ i cur, i < maxRetries ∧ get i = inl cur ∧ pod = {| cur with p_Status := st |}) as H;
    [|by apply H].
  induction n as [|n IH]; intros a Ha; cbn -[app Nat.mul]; [split; [lia|set_solver]|].
  destruct (get a) as [cur|err] eqn:Hg; [|split; [cbn; lia|set_solver]].
  destruct (bool_decide (p_UID cur = uid)) eqn:Hu; cbn [negb]; [|split; [cbn; lia|set_solver]].
  apply bool_decide_eq_true_1 in Hu.
  assert (∀ ns' pod,
    ApiUpdateStatus ns' pod ∈ [ApiGet ns name; ApiUpdateStatus ns {| cur with p_Status := st |}] →
    ns' = ns ∧ p_UID pod = uid ∧
    ∃ i cur, i < maxRetries ∧ get i = inl cur ∧ pod = {| cur with p_Status := st |}) as Hhere.
  { intros ns' pod. rewrite !elem_of_cons, elem_of_nil. intros [[=]|[[= -> ->]|[]]].
    split_and!; [done|done|]. exists a, cur. split_and!; [lia|done|done]. }
  destruct (IH (S a) ltac:(lia)) as [IHl IHu].
  repeat case_match; cbn [fst length] in *; try (split; [lia|exact Hhere]).
  rewrite length_app. cbn [length]. split; [lia|]. intros ns' pod. rewrite elem_of_app.
  intros [?|?]; [by apply Hhere|by apply IHu].
Qed.

(** A status write survives up to four conflicts: if the API server
    answers conflict to the first [k < 5] updates and accepts the next, the
    last call made is the accepted update carrying the status and no error is
    returned. *)
Theorem writePodStatus_retries get update uid ns name st k cur :
  k < maxRetries →
  (∀ i, i < k → update i = Some ErrConflict) → update k = None →
  (∀ i, i ≤ k → get i = inl cur) → cur.(p_UID) = uid →
  ∃ pre, writePodStatus get update uid ns name st
         = (pre ++ [ApiUpdateStatus ns {| cur with p_Status := st |}], None).
Proof.
  intros Hk Hc Hok Hg Hu. unfold writePodStatus.
  assert (∀ n a, n + a = maxRetries → a ≤ k → ∃ pre,
    writePodStatus_loop get update uid ns name st n a
    = (pre ++ [ApiUpdateStatus ns {| cur with p_Status := st |}], None)) as H;
    [|apply H; unfold maxRetries in *; lia].
  induction n as [|n IH]; intros a Ha Hak; [lia|]. cbn [writePodStatus_loop].
  rewrite Hg by done. rewrite bool_decide_eq_true_2 by done. cbn [negb].
  destruct (decide (a = k)) as [->|Hne].
  - rewrite Hok. by exists [ApiGet ns name].
  - rewrite Hc by lia. cbn [IsNotFound IsConflict].
    rewrite (proj2 (Nat.ltb_lt a (maxRetries - 1))) by lia.
    destruct (IH (S a) ltac:(lia) ltac:(lia)) as [pre ->].
    eexists. by rewrite app_assoc.
Qed.

Lemma writePodStatus_retries_witness :
  ∃ pre, writePodStatus (λ _, inl {| zeroPod with p_UID := "u1" |})
      (λ i, if (i <? 4)%nat then Some ErrConflict else None) "u1" "default" "web-0" zeroPodStatus
    = (pre ++ [ApiUpdateStatus "default" {| zeroPod with p_UID := "u1" |}], None).
Proof.
  apply (writePodStatus_retries _ _ "u1" "default" "web-0" zeroPodStatus 4 {| zeroPod with p_UID := "u1" |});
    [unfold maxRetries; lia|..|done|done|done].
  intros i Hi. by rewrite (proj2 (Nat.ltb_lt i 4)) by lia.
Defined.

(** ** Behaviours that differ from what the code means to do *)

(** No pod is ever tracked: [Reduce] ignores every fact for an untracked pod,
    also the [PodAdmitFact] that would create its state, so from its initial
    state the event loop never holds a pod and never emits an effect. *)
Theorem syzygy_never_tracks es :
  let s := run initSystem es in
  s.(syz).(states) = ∅ ∧ s.(syz).(effects) = [] ∧ s.(localCalls) = [] ∧ s.(apiCalls) = [].
Proof.
  cbn zeta.
  assert (∀ s, s.(syz).(states) = ∅ ∧ s.(syz).(effects) = [] ∧ s.(hor).(h_inbox) = [] ∧
               s.(localCalls) = [] ∧ s.(apiCalls) = [] →
    (run s es).(syz).(states) = ∅ ∧ (run s es).(syz).(effects) = [] ∧ (run s es).(hor).(h_inbox) = [] ∧
    (run s es).(localCalls) = [] ∧ (run s es).(apiCalls) = []) as H.
  { induction es as [|e es IH]; intros s Hs; [done|]. apply IH. destruct Hs as (H1 & H2 & H3 & H4 & H5).
    destruct e as [f|clk| | | |]; cbn [step].
    - unfold Send. destruct (closed _); [done|]. by destruct (try_send _ _ _).
    - destruct (inbox _); [done|]. unfold processFact. case_bool_decide; [done|].
      cbn [states]. rewrite H1, lookup_empty. cbn. by rewrite delete_empty.
    - by rewrite H2.
    - by rewrite H3.
    - cbn. unfold close. by destruct (closed _).
    - cbn. unfold Horizon_close. by destruct (h_closed _). }
  by destruct (H initSystem) as (? & ? & ? & ? & ?).
Qed.

(** Shutting Syzygy down panics: the function run by [aeWg.Go] calls
    [aeWg.Done] itself, and [Go] calls it again. *)
Theorem antiEntropy_shutdown_panics : wgRun 0 antiEntropyWg = None.
Proof. reflexivity. Qed.

(** The host address of a published status is the pod's own address: the
    comment in [BuildPodStatusPayload] says that Horizon replaces it by the
    node's, but the status reaches the API as it was built. *)
Theorem published_HostIP clk s uid ns n :
  ∃ st, executeEffect (UpdateStatus uid ns n (BuildPodStatusPayload clk s)) = CallWritePodStatus uid ns n st ∧
        st.(ps_HostIP) = s.(s_PodIP).
Proof. by eexists. Qed.
