(* ===== verification/Queue.v ===== *)
(** * The retrying work queue (internal/queue)

    The queue behind the three controllers of node/podcontroller.go.  Every
    operation runs under the queue's lock, so a run is a sequence of the
    operations below; the handler runs outside the lock, between
    [getNextItem] and [finishItem], and its result is an argument of the
    latter.  The rate limiter is client-go's and is a parameter
    ([RateLimiter]); the retry function is a parameter too, with
    [DefaultRetryFunc] as the source's instance.  A [*list.Element] is
    represented by the key of its item: [itemsInQueue] is the set of keys. *)
From S2P Require Import Prelude Corev1.

(** [workqueue.TypedRateLimiter]. *)
Class RateLimiter (RL : Type) := {
  When : RL → string → RL * Duration;
  limiterForget : RL → string → RL;
}.

(** Errors, with the wrapping the queue adds. *)
Inductive QErr :=
  | HandlerErr (msg : string)
  | MaxRetriesReached (e : QErr)
  | Forgetting (requeued : bool) (key : string) (e : QErr).

Definition MaxRetries : Z := 20.

Record queueItem := {
  key : string;
  plannedToStartWorkAt : Time;
  redirtiedAt : Time;
  redirtiedWithRatelimit : bool;
  forget : bool;
  requeues : Z;
  originallyAdded : Time;
  addedViaRedirty : bool;
  delayedViaRateLimit : option Duration;
}.

Record Queue (RL : Type) := {
  items : list queueItem;
  itemsInQueue : gset string;
  itemsBeingProcessed : gmap string queueItem;
  ratelimiter : RL;
  wakeupCh : bool;
  forgotten : list (string * QErr);
}.
Arguments items {RL}. Arguments itemsInQueue {RL}. Arguments itemsBeingProcessed {RL}.
Arguments ratelimiter {RL}. Arguments wakeupCh {RL}. Arguments forgotten {RL}.

Definition durationDeref (d : option Duration) (def : Duration) : Duration := default def d.

(** The backwards scan of [insert] and [adjustPosition], over the reversed
    list: after the last item planned strictly before, else in front. *)
Fixpoint place (rl : list queueItem) (val : queueItem) : list queueItem :=
  match rl with
  | [] => [val]
  | x :: rl' =>
      if (x.(plannedToStartWorkAt) <? val.(plannedToStartWorkAt))%Z then val :: x :: rl'
      else x :: place rl' val
  end.

Definition insertSorted (l : list queueItem) (val : queueItem) : list queueItem :=
  reverse (place (reverse l) val).

(** The element of a key, with what precedes and what follows it. *)
Fixpoint splitKey (k : string) (l : list queueItem)
    : option (list queueItem * queueItem * list queueItem) :=
  match l with
  | [] => None
  | x :: l' =>
      if decide (x.(key) = k) then Some ([], x, l')
      else '(pre, qi, post) ← splitKey k l'; Some (x :: pre, qi, post)
  end.

Definition removeKey (k : string) (l : list queueItem) : list queueItem :=
  match splitKey k l with Some (pre, _, post) => pre ++ post | None => l end.

Definition adjustPosition (l : list queueItem) (k : string) (when : Time) : list queueItem :=
  match splitKey k l with
  | None => l
  | Some (pre, qi, post) =>
      if (qi.(plannedToStartWorkAt) <? when)%Z then l
      else insertSorted pre {| qi with plannedToStartWorkAt := when |} ++ post
  end.

(** Applies a write through a [*queueItem] in a list of items. *)
Definition updateItems (l : list queueItem) (k : string) (f : queueItem → queueItem) : list queueItem :=
  map (λ qi, if decide (qi.(key) = k) then f qi else qi) l.

Definition DefaultRetryFunc (k : string) (timesTried : Z) (originallyAdded : Time) (err : QErr)
    : option Duration + QErr :=
  if (timesTried <? MaxRetries)%Z then inl None else inr (MaxRetriesReached err).

Section Queue.
Context {RL : Type} `{!RateLimiter RL}.
Variable retryFunc : string → Z → Time → QErr → option Duration + QErr.
Implicit Types q : Queue RL.

Definition New (rl : RL) : Queue RL := {|
  items := []; itemsInQueue := ∅; itemsBeingProcessed := ∅; ratelimiter := rl;
  wakeupCh := false; forgotten := [] |}.

Definition Forget q (k : string) : Queue RL :=
  if decide (k ∈ q.(itemsInQueue)) then
    {| q with itemsInQueue := q.(itemsInQueue) ∖ {[ k ]}; items := removeKey k q.(items) |}
  else
    match q.(itemsBeingProcessed) !! k with
    | Some qi =>
        {| q with itemsBeingProcessed := <[k := {| qi with forget := true |}]> q.(itemsBeingProcessed) |}
    | None => q
    end.

(** The write to an item that is being processed when it is inserted again. *)
Definition redirty (qi : queueItem) (ratelimit : bool) (when : Time) : queueItem :=
  let qi :=
    if IsZero qi.(redirtiedAt) || (when <? qi.(redirtiedAt))%Z
    then {| qi with redirtiedAt := when; redirtiedWithRatelimit := ratelimit |} else qi in
  {| qi with forget := false |}.

Definition insertItem (now : Time) q (k : string) (ratelimit : bool) (delay : option Duration)
    : Queue RL :=
  let q := {| q with wakeupCh := true |} in
  match q.(itemsBeingProcessed) !! k with
  | Some item =>
      let when := (now + durationDeref delay 0)%Z in
      {| q with itemsBeingProcessed := <[k := redirty item ratelimit when]> q.(itemsBeingProcessed) |}
  | None =>
      if decide (k ∈ q.(itemsInQueue)) then
        let when := (now + durationDeref delay 0)%Z in
        {| q with items := adjustPosition q.(items) k when |}
      else
        let val := {| key := k; plannedToStartWorkAt := now; redirtiedAt := 0;
                      redirtiedWithRatelimit := false; forget := false; requeues := 0;
                      originallyAdded := now; addedViaRedirty := false;
                      delayedViaRateLimit := None |} in
        let '(rl, val) :=
          if ratelimit then
            let '(rl, d) := When q.(ratelimiter) k in
            let actualDelay := durationDeref delay d in
            (rl, {| val with plannedToStartWorkAt := now + actualDelay;
                             delayedViaRateLimit := Some actualDelay |})
          else (q.(ratelimiter), {| val with plannedToStartWorkAt := now + durationDeref delay 0 |}) in
        {| q with ratelimiter := rl; items := insertSorted q.(items) val;
                  itemsInQueue := {[ k ]} ∪ q.(itemsInQueue) |}
  end.

Definition Enqueue (now : Time) q k : Queue RL := insertItem now q k true None.
Definition EnqueueWithoutRateLimit (now : Time) q k : Queue RL := insertItem now q k false None.
Definition EnqueueWithoutRateLimitWithDelay (now : Time) q k (after : Duration) : Queue RL :=
  insertItem now q k false (Some after).

(** A write through the pointer that [insert] returned. *)
Definition updateItem q (k : string) (f : queueItem → queueItem) : Queue RL :=
  match q.(itemsBeingProcessed) !! k with
  | Some qi => {| q with itemsBeingProcessed := <[k := f qi]> q.(itemsBeingProcessed) |}
  | None => {| q with items := updateItems q.(items) k f |}
  end.

(** [None] is the panic on an inconsistent state. *)
Definition Len q : option nat :=
  if negb (bool_decide (length q.(items) = size q.(itemsInQueue))) then None
  else Some (length q.(items) + size q.(itemsBeingProcessed)).

Definition UnprocessedLen q : option nat :=
  if negb (bool_decide (length q.(items) = size q.(itemsInQueue))) then None
  else Some (size q.(itemsInQueue)).

Definition ItemsBeingProcessedLen q : nat := size q.(itemsBeingProcessed).

(** One pass of the loop of [getNextItem]: an item taken, or the time to
    wait ([None] without bound) for the timer or the wake-up. *)
Definition getNextItem (now : Time) q : (queueItem * Queue RL) + option Duration :=
  match q.(items) with
  | [] => inr None
  | qi :: rest =>
      let timeUntilProcessing := (qi.(plannedToStartWorkAt) - now)%Z in
      if (timeUntilProcessing <=? 0)%Z then
        inl (qi, {| q with itemsBeingProcessed := <[qi.(key) := qi]> q.(itemsBeingProcessed);
                           items := rest;
                           itemsInQueue := q.(itemsInQueue) ∖ {[ qi.(key) ]} |})
      else inr (Some timeUntilProcessing)
  end.

(** The end of [handleQueueItemObject]: [err] is the result of the
    handler; [now] and [until] are the clock readings of [insert] and of
    [time.Until]. *)
Definition finishItem (now until : Time) q (k : string) (err : option QErr)
    : Queue RL * option QErr :=
  match q.(itemsBeingProcessed) !! k with
  | None => (q, None)
  | Some qi =>
      let q := {| q with itemsBeingProcessed := delete k q.(itemsBeingProcessed) |} in
      if qi.(forget) then ({| q with ratelimiter := limiterForget q.(ratelimiter) k |}, None)
      else
        let done err :=
          let q := match err with
                   | Some e => {| q with forgotten := q.(forgotten) ++ [(k, e)] |}
                   | None => q
                   end in
          let q := {| q with ratelimiter := limiterForget q.(ratelimiter) k |} in
          let q :=
            if IsZero qi.(redirtiedAt) then q
            else
              let delay := (qi.(redirtiedAt) - until)%Z in
              updateItem (insertItem now q k qi.(redirtiedWithRatelimit) (Some delay)) k
                (λ i, {| i with addedViaRedirty := true |}) in
          (q, err) in
        match err with
        | None => done None
        | Some e =>
            match retryFunc k (qi.(requeues) + 1) qi.(originallyAdded) e with
            | inl delay =>
                (updateItem (insertItem now q k true delay) k
                   (λ i, {| i with requeues := qi.(requeues) + 1;
                                   originallyAdded := qi.(originallyAdded) |}), None)
            | inr e' => done (Some (Forgetting (negb (IsZero qi.(redirtiedAt))) k e'))
            end
        end
  end.
End Queue.

(** ** Invariant *)

Definition le_item (a b : queueItem) : Prop := (a.(plannedToStartWorkAt) ≤ b.(plannedToStartWorkAt))%Z.

(** The items are in the order in which they are due, one per key; the index
    holds exactly their keys; an item being processed is not also queued, and
    is filed under its key. *)
Record queue_ok {RL} (q : Queue RL) : Prop := {
  q_sorted : StronglySorted le_item q.(items);
  q_nodup : NoDup (key <$> q.(items));
  q_index : q.(itemsInQueue) = list_to_set (key <$> q.(items));
  q_disjoint : ∀ k, k ∈ q.(itemsInQueue) → q.(itemsBeingProcessed) !! k = None;
  q_proc : ∀ k qi, q.(itemsBeingProcessed) !! k = Some qi → qi.(key) = k;
}.

Lemma place_perm rl v : place rl v ≡ₚ v :: rl.
Proof.
  induction rl as [|x rl IH]; cbn; [done|]. case_match; [done|].
  rewrite IH. apply Permutation_swap.
Qed.

Lemma insertSorted_perm l v : insertSorted l v ≡ₚ v :: l.
Proof. unfold insertSorted. by rewrite reverse_Permutation, place_perm, reverse_Permutation. Qed.

Lemma place_sorted rl v :
  StronglySorted (flip le_item) rl → StronglySorted (flip le_item) (place rl v).
Proof.
  induction 1 as [|x rl Hs IH Hx]; cbn; [by repeat constructor|].
  destruct (Z.ltb_spec (plannedToStartWorkAt x) (plannedToStartWorkAt v)) as [Hlt|Hge].
  - constructor; [by constructor|]. constructor; [unfold flip, le_item; lia|].
    eapply Forall_impl; [done|]. unfold flip, le_item. intros y Hy. cbn in *. lia.
  - constructor; [done|]. rewrite place_perm. by constructor.
Qed.

Lemma StronglySorted_reverse {A} (R : A → A → Prop) l :
  StronglySorted R l → StronglySorted (flip R) (reverse l).
Proof.
  induction 1 as [|y l Hs IH Hy]; [constructor|]. rewrite reverse_cons.
  apply StronglySorted_app_2; [|done|by repeat constructor].
  intros a b Ha ->%list_elem_of_singleton. rewrite elem_of_reverse in Ha. rewrite Forall_forall in Hy.
  exact (Hy a Ha).
Qed.

Lemma insertSorted_sorted l v : StronglySorted le_item l → StronglySorted le_item (insertSorted l v).
Proof.
  intros Hs. apply (StronglySorted_reverse (flip le_item)), place_sorted.
  by apply StronglySorted_reverse.
Qed.

Lemma splitKey_Some k l pre qi post :
  splitKey k l = Some (pre, qi, post) → l = pre ++ qi :: post ∧ qi.(key) = k.
Proof.
  revert pre. induction l as [|x l IH]; intros pre; cbn; [done|]. case_decide as Hk.
  - intros [= <- <- <-]. done.
  - intros ([[pre' qi'] post'] & Hs & [= <- <- <-])%bind_Some.
    destruct (IH _ Hs) as [-> ?]. done.
Qed.

Lemma splitKey_is_Some k l : k ∈ key <$> l → is_Some (splitKey k l).
Proof.
  induction l as [|x l IH]; cbn; [by intros ?%elem_of_nil|]. intros [->|Hin]%elem_of_cons.
  - rewrite decide_True by done. by eexists.
  - case_decide; [by eexists|]. destruct (IH Hin) as [[[pre qi] post] ->]. cbn. by eexists.
Qed.

(** Moving an item forward keeps the order and the keys. *)
Lemma adjustPosition_ok l k when :
  StronglySorted le_item l →
  StronglySorted le_item (adjustPosition l k when) ∧ key <$> adjustPosition l k when ≡ₚ key <$> l.
Proof.
  intros Hs. unfold adjustPosition. destruct (splitKey k l) as [[[pre qi] post]|] eqn:Hk; [|done].
  destruct (Z.ltb_spec (plannedToStartWorkAt qi) when) as [|Hle]; [done|].
  apply splitKey_Some in Hk as [-> Hkey].
  apply StronglySorted_app in Hs as (Hcross & Hpre & Hqp).
  inversion Hqp as [|?? Hpost HF]; subst. split.
  - apply StronglySorted_app_2; [|by apply insertSorted_sorted|done].
    intros x y Hx Hy. rewrite insertSorted_perm in Hx. apply elem_of_cons in Hx as [->|Hx].
    + rewrite Forall_forall in HF. specialize (HF y Hy). unfold le_item in *. cbn. lia.
    + apply Hcross; set_solver.
  - rewrite !fmap_app, insertSorted_perm. cbn. by rewrite Permutation_middle.
Qed.

Lemma updateItems_ok l k f :
  (∀ i, (f i).(key) = i.(key) ∧ (f i).(plannedToStartWorkAt) = i.(plannedToStartWorkAt)) →
  key <$> updateItems l k f = key <$> l ∧
  (StronglySorted le_item l → StronglySorted le_item (updateItems l k f)).
Proof.
  intros Hf. set (g := λ qi, if decide (qi.(key) = k) then f qi else qi).
  assert (∀ i, (g i).(key) = i.(key) ∧ (g i).(plannedToStartWorkAt) = i.(plannedToStartWorkAt)) as Hg.
  { intros i. unfold g. case_decide; [apply Hf|done]. }
  split.
  - unfold updateItems. induction l as [|x l IH]; cbn; [done|]. f_equal; [apply Hg|done].
  - unfold updateItems. fold g. induction 1 as [|x l Hs IH HF]; cbn; constructor; [done|].
    apply Forall_forall. intros y Hy. apply list_elem_of_fmap in Hy as (z & -> & Hz).
    rewrite Forall_forall in HF. specialize (HF z Hz). unfold le_item in *.
    by rewrite (proj2 (Hg x)), (proj2 (Hg z)).
Qed.

Section Preservation.
Context {RL : Type} `{!RateLimiter RL}.
Variable retryFunc : string → Z → Time → QErr → option Duration + QErr.
Implicit Types q : Queue RL.

Lemma queue_ok_New (rl : RL) : queue_ok (New rl).
Proof.
  split; cbn; [constructor|constructor|done|set_solver|]. intros k qi. by rewrite lookup_empty.
Qed.

(** What an operation on the list of items has to respect. *)
Lemma queue_ok_items q l (Q : gset string) :
  queue_ok q → StronglySorted le_item l → NoDup (key <$> l) → Q = list_to_set (key <$> l) →
  (∀ k, k ∈ Q → q.(itemsBeingProcessed) !! k = None) →
  queue_ok {| q with items := l; itemsInQueue := Q |}.
Proof. intros Hq Hs Hn HQ Hd. split; cbn; try done. apply Hq. Qed.

Lemma removeKey_ok q k :
  queue_ok q → k ∈ q.(itemsInQueue) →
  StronglySorted le_item (removeKey k q.(items)) ∧ NoDup (key <$> removeKey k q.(items)) ∧
  q.(itemsInQueue) ∖ {[k]} = list_to_set (key <$> removeKey k q.(items)).
Proof.
  intros Hq Hk. pose proof (q_index _ Hq) as Hi. rewrite Hi in Hk. apply elem_of_list_to_set in Hk.
  destruct (splitKey_is_Some _ _ Hk) as [[[pre qi] post] Hsp]. unfold removeKey. rewrite Hsp.
  apply splitKey_Some in Hsp as [Heq Hkey].
  pose proof (q_sorted _ Hq) as Hs. pose proof (q_nodup _ Hq) as Hn. rewrite Heq in Hs, Hn, Hi.
  apply StronglySorted_app in Hs as (Hc & Hp & Hqp). inversion Hqp; subst.
  rewrite fmap_app in Hn, Hi |- *. cbn in Hn, Hi. split_and!.
  - apply StronglySorted_app_2; [|done|done]. intros x y Hx Hy. apply Hc; set_solver.
  - rewrite <- Permutation_middle in Hn. by inversion Hn.
  - rewrite Hi. rewrite <- Permutation_middle in Hn. inversion Hn as [|?? Hni _]; subst. set_solver.
Qed.

Lemma queue_ok_Forget q k : queue_ok q → queue_ok (Forget q k).
Proof.
  intros Hq. unfold Forget. case_decide as Hk.
  - destruct (removeKey_ok q k Hq Hk) as (Hs & Hn & Hi). split; cbn; try done.
    + intros k' Hk'. apply (q_disjoint _ Hq). set_solver.
    + apply Hq.
  - destruct (itemsBeingProcessed q !! k) as [qi|] eqn:Hp; [|done]. destruct Hq. split; cbn; try done.
    + intros k' Hk'. rewrite lookup_insert_ne; [by apply q_disjoint0|]. by intros <-.
    + intros k' qi'. rewrite lookup_insert_Some. intros [[<- <-]|[_ Hl]]; [|by apply q_proc0].
      cbn. by apply q_proc0.
Qed.

Lemma redirty_key qi r w : (redirty qi r w).(key) = qi.(key).
Proof. unfold redirty. by destruct (_ || _). Qed.

(** A new item joins the queue. *)
Lemma queue_ok_add q (rl : RL) val k :
  queue_ok q → val.(key) = k → q.(itemsBeingProcessed) !! k = None → k ∉ q.(itemsInQueue) →
  queue_ok {| q with wakeupCh := true; ratelimiter := rl; items := insertSorted q.(items) val;
                     itemsInQueue := {[k]} ∪ q.(itemsInQueue) |}.
Proof.
  intros Hq Hk Hp Hnk. pose proof (q_index _ Hq) as Hi. split; cbn.
  - apply insertSorted_sorted, Hq.
  - rewrite insertSorted_perm. cbn. constructor; [|apply Hq]. rewrite Hi in Hnk.
    rewrite Hk. by rewrite elem_of_list_to_set in Hnk.
  - rewrite insertSorted_perm, Hi. cbn. by rewrite Hk.
  - intros k' [->%elem_of_singleton|Hk']%elem_of_union; [done|]. by apply Hq.
  - apply Hq.
Qed.

Lemma queue_ok_insert now q k r d : queue_ok q → queue_ok (insertItem now q k r d).
Proof.
  intros Hq. unfold insertItem. cbn [itemsBeingProcessed itemsInQueue items ratelimiter].
  destruct (itemsBeingProcessed q !! k) as [item|] eqn:Hp.
  { destruct Hq. split; cbn; try done.
    - intros k' Hk'. rewrite lookup_insert_ne; [by apply q_disjoint0|]. intros <-.
      by rewrite q_disjoint0 in Hp.
    - intros k' qi'. rewrite lookup_insert_Some. intros [[<- <-]|[_ Hl]]; [|by apply q_proc0].
      rewrite redirty_key. by apply q_proc0. }
  case_decide as Hk.
  - destruct (adjustPosition_ok (items q) k (now + durationDeref d 0) (q_sorted _ Hq)) as [Hs Hperm].
    destruct Hq. split; cbn; try done; by rewrite Hperm.
  - destruct r; [destruct (When _ _) as [rl dd]|]; by apply (queue_ok_add q).
Qed.

Lemma queue_ok_update q k f :
  (∀ i, (f i).(key) = i.(key) ∧ (f i).(plannedToStartWorkAt) = i.(plannedToStartWorkAt)) →
  queue_ok q → queue_ok (updateItem q k f).
Proof.
  intros Hf Hq. unfold updateItem. destruct (itemsBeingProcessed q !! k) as [qi|] eqn:Hp.
  - destruct Hq. split; cbn; try done.
    + intros k' Hk'. rewrite lookup_insert_ne; [by apply q_disjoint0|]. intros <-.
      by rewrite q_disjoint0 in Hp.
    + intros k' qi'. rewrite lookup_insert_Some. intros [[<- <-]|[_ Hl]]; [|by apply q_proc0].
      rewrite (proj1 (Hf qi)). by apply q_proc0.
  - destruct (updateItems_ok (items q) k f Hf) as [Hk Hs]. destruct Hq. split; cbn; rewrite ?Hk; auto.
Qed.

Lemma queue_ok_getNextItem now q qi q' : queue_ok q → getNextItem now q = inl (qi, q') → queue_ok q'.
Proof.
  intros Hq. unfold getNextItem. destruct (items q) as [|x rest] eqn:Hit; [done|].
  case_match; [|done]. intros [= <- <-]. pose proof (q_index _ Hq) as Hi.
  pose proof (q_nodup _ Hq) as Hn. pose proof (q_sorted _ Hq) as Hs. rewrite Hit in *.
  cbn in Hi, Hn. inversion Hn as [|?? Hni Hn']; subst. inversion Hs; subst. split; cbn; try done.
  - rewrite Hi. set_solver.
  - intros k Hk. apply elem_of_difference in Hk as [Hk Hne]. rewrite lookup_insert_ne by set_solver.
    by apply Hq.
  - intros k qi'. rewrite lookup_insert_Some. intros [[<- <-]|[_ Hl]]; [done|]. by apply Hq.
Qed.

Lemma queue_ok_delete q k : queue_ok q → queue_ok {| q with itemsBeingProcessed := delete k q.(itemsBeingProcessed) |}.
Proof.
  intros []. split; cbn; try done.
  - intros k' Hk'. rewrite lookup_delete_None. right. by apply q_disjoint0.
  - intros k' qi [_ Hl]%lookup_delete_Some. by apply q_proc0.
Qed.

(** Fields the invariant does not mention. *)
Lemma queue_ok_limiter q (rl : RL) fg : queue_ok q → queue_ok {| q with ratelimiter := rl; forgotten := fg |}.
Proof. intros []. by split. Qed.

Lemma queue_ok_finishItem now until q k err :
  queue_ok q → queue_ok (finishItem retryFunc now until q k err).1.
Proof.
  intros Hq. unfold finishItem. destruct (itemsBeingProcessed q !! k) as [qi|] eqn:Hp; [|done].
  pose proof (queue_ok_delete q k Hq) as Hd.
  destruct (forget qi); [by apply (queue_ok_limiter _ _ (forgotten q) Hd)|].
  destruct err as [e|]; [destruct (retryFunc _ _ _ _) as [delay|e']|]; cbn [fst].
  - apply queue_ok_update; [done|]. by apply queue_ok_insert.
  - destruct (IsZero _); [by apply (queue_ok_limiter _ _ _ Hd)|].
    apply queue_ok_update; [done|]. apply queue_ok_insert, (queue_ok_limiter _ _ _ Hd).
  - destruct (IsZero _); [by apply (queue_ok_limiter _ _ (forgotten q) Hd)|].
    apply queue_ok_update; [done|]. apply queue_ok_insert, (queue_ok_limiter _ _ (forgotten q) Hd).
Qed.
End Preservation.

(** ** Runs *)

Inductive QOp :=
  | OpInsert (now : Time) (k : string) (ratelimit : bool) (delay : option Duration)
  | OpForget (k : string)
  | OpGetNext (now : Time)
  | OpFinish (now until : Time) (k : string) (err : option QErr).

Section Runs.
Context {RL : Type} `{!RateLimiter RL}.
Variable retryFunc : string → Z → Time → QErr → option Duration + QErr.
Implicit Types q : Queue RL.

Definition qstep q (op : QOp) : Queue RL :=
  match op with
  | OpInsert now k r d => insertItem now q k r d
  | OpForget k => Forget q k
  | OpGetNext now => match getNextItem now q with inl (_, q') => q' | inr _ => q end
  | OpFinish now until k err => (finishItem retryFunc now until q k err).1
  end.

Definition runOps q (ops : list QOp) : Queue RL := foldl qstep q ops.

Lemma queue_ok_qstep q op : queue_ok q → queue_ok (qstep q op).
Proof.
  intros Hq. destruct op; cbn; eauto using queue_ok_insert, queue_ok_Forget, queue_ok_finishItem.
  destruct (getNextItem now q) as [[qi q']|] eqn:Hg; [by eapply queue_ok_getNextItem|done].
Qed.

Lemma queue_ok_runOps q ops : queue_ok q → queue_ok (runOps q ops).
Proof. revert q. induction ops as [|op ops IH]; intros q Hq; [done|]. by apply IH, queue_ok_qstep. Qed.

Lemma index_size q : queue_ok q → length q.(items) = size q.(itemsInQueue).
Proof.
  intros Hq. rewrite (q_index _ Hq), size_list_to_set by apply Hq. by rewrite length_fmap.
Qed.

End Runs.

Section Tries.
Context {RL : Type} `{!RateLimiter RL}.
Implicit Types q : Queue RL.

(** Every item was requeued less often than the bound. *)
Definition tries_ok q : Prop :=
  (∀ qi, qi ∈ q.(items) → (0 ≤ qi.(requeues) < MaxRetries)%Z) ∧
  (∀ k qi, q.(itemsBeingProcessed) !! k = Some qi → (0 ≤ qi.(requeues) < MaxRetries)%Z).

Lemma adjustPosition_elem l k when qi :
  qi ∈ adjustPosition l k when → ∃ qi', qi' ∈ l ∧ qi.(requeues) = qi'.(requeues).
Proof.
  unfold adjustPosition. destruct (splitKey k l) as [[[pre x] post]|] eqn:Hs; [|by eauto].
  case_match; [by eauto|]. apply splitKey_Some in Hs as [-> _].
  rewrite elem_of_app, insertSorted_perm, elem_of_cons. intros [[->|Hin]|Hin].
  - exists x. split; [set_solver|done].
  - exists qi. split; [set_solver|done].
  - exists qi. split; [set_solver|done].
Qed.

Lemma redirty_requeues qi r w : (redirty qi r w).(requeues) = qi.(requeues).
Proof. unfold redirty. by destruct (_ || _). Qed.

Lemma tries_ok_insert now q k r d : tries_ok q → tries_ok (insertItem now q k r d).
Proof.
  intros [Hi Hp]. unfold insertItem. cbn [itemsBeingProcessed itemsInQueue items ratelimiter].
  destruct (itemsBeingProcessed q !! k) as [item|] eqn:Hk.
  { split; cbn; [done|]. intros k' qi. rewrite lookup_insert_Some. intros [[<- <-]|[_ Hl]]; eauto.
    rewrite redirty_requeues. eauto. }
  case_decide.
  - split; cbn; [|done]. intros qi (qi' & Hin & ->)%adjustPosition_elem. by apply Hi.
  - assert (∀ v, requeues v = 0%Z → ∀ qi, qi ∈ insertSorted (items q) v → (0 ≤ requeues qi < MaxRetries)%Z) as Hv.
    { intros v Hv qi. rewrite insertSorted_perm, elem_of_cons. intros [->|Hin]; [|by apply Hi].
      rewrite Hv. unfold MaxRetries. lia. }
    destruct r; [destruct (When _ _) as [rl dd]|]; (split; cbn; [by apply Hv|done]).
Qed.

Lemma tries_ok_update q k f :
  (∀ i, (0 ≤ i.(requeues) < MaxRetries)%Z → (0 ≤ (f i).(requeues) < MaxRetries)%Z) →
  tries_ok q → tries_ok (updateItem q k f).
Proof.
  intros Hf [Hi Hp]. unfold updateItem. destruct (itemsBeingProcessed q !! k) as [qi|] eqn:Hk.
  - split; cbn; [done|]. intros k' qi'. rewrite lookup_insert_Some.
    intros [[<- <-]|[_ Hl]]; [by eapply Hf, Hp|by eapply Hp].
  - split; cbn; [|done]. intros qi (x & -> & Hx)%list_elem_of_fmap. case_decide; auto.
Qed.
End Tries.

Lemma tries_ok_finish {RL} `{!RateLimiter RL} (q : Queue RL) now until k err :
  tries_ok q → tries_ok (finishItem DefaultRetryFunc now until q k err).1.
Proof.
  intros Hq. unfold finishItem. destruct (itemsBeingProcessed q !! k) as [qi|] eqn:Hp; [|done].
  assert (tries_ok {| q with itemsBeingProcessed := delete k q.(itemsBeingProcessed) |}) as Hd.
  { destruct Hq as [Hi Hpr]. split; cbn; [done|]. intros k' x [_ Hl]%lookup_delete_Some. eauto. }
  destruct (forget qi); [exact Hd|].
  assert (∀ i, (0 ≤ requeues i < MaxRetries)%Z →
    (0 ≤ requeues {| i with addedViaRedirty := true |} < MaxRetries)%Z) as Hu by done.
  destruct err as [e|]; [unfold DefaultRetryFunc; destruct (Z.ltb_spec (requeues qi + 1) MaxRetries)|]; cbn [fst].
  - apply tries_ok_update; [|apply tries_ok_insert, Hd]. intros i _. cbn.
    destruct Hq as [_ Hpr]. specialize (Hpr _ _ Hp). lia.
  - destruct (IsZero _); [exact Hd|]. apply tries_ok_update; [done|]. apply tries_ok_insert, Hd.
  - destruct (IsZero _); [exact Hd|]. apply tries_ok_update; [done|]. apply tries_ok_insert, Hd.
Qed.

Lemma tries_ok_qstep {RL} `{!RateLimiter RL} (q : Queue RL) op :
  tries_ok q → tries_ok (qstep DefaultRetryFunc q op).
Proof.
  intros Hq. destruct op as [now k r d|k|now|now until k err]; cbn;
    eauto using tries_ok_insert, tries_ok_finish; destruct Hq as [Hi Hp].
  - unfold Forget. case_decide.
    + split; cbn; [|done]. unfold removeKey. destruct (splitKey k (items q)) as [[[pre x] post]|] eqn:Hs; [|done].
      apply splitKey_Some in Hs as [Heq _]. intros qi Hin. apply Hi. rewrite Heq. set_solver.
    + destruct (itemsBeingProcessed q !! k) as [x|] eqn:Hx; [|done]. split; cbn; [done|].
      intros k' qi. rewrite lookup_insert_Some. intros [[<- <-]|[_ Hl]]; cbn; eauto.
  - pose proof (conj Hi Hp : tries_ok q) as Hq.
    unfold getNextItem. destruct (items q) as [|x rest]; [exact Hq|].
    destruct (_ <=? _)%Z; [|exact Hq]. split; cbn.
    + intros qi Hin. apply Hi. set_solver.
    + intros k qi. rewrite lookup_insert_Some. intros [[<- <-]|[_ Hl]]; [|by eapply Hp].
      apply Hi. set_solver.
Qed.

Lemma tries_ok_runOps {RL} `{!RateLimiter RL} (q : Queue RL) ops :
  tries_ok q → tries_ok (runOps DefaultRetryFunc q ops).
Proof. revert q. induction ops as [|op ops IH]; intros q Hq; [done|]. by apply IH, tries_ok_qstep. Qed.

(** ** Properties *)

(** C10: In every run of the queue, under any rate limiter and retry function,
    the items stay sorted by the time they are due, with one item per key, the
    index holds exactly the queued keys, and no key is queued and processed at
    once; so [Len] never finds the inconsistency on which it panics. *)
Theorem queue_invariant {RL} `{!RateLimiter RL} retryFunc (rl : RL) ops :
  let q := runOps retryFunc (New rl) ops in
  queue_ok q ∧ Len q = Some (length q.(items) + size q.(itemsBeingProcessed)).
Proof.
  cbn zeta. assert (queue_ok (runOps retryFunc (New rl) ops)) as Hq
    by apply queue_ok_runOps, queue_ok_New.
  split; [done|]. unfold Len. by rewrite bool_decide_eq_true_2 by by apply index_size.
Qed.

(** A worker is given an item only when it is due, the earliest one, and
    never for a key that another worker is processing; when it has to wait,
    no queued item is due. *)
Theorem getNextItem_earliest {RL} `{!RateLimiter RL} (q : Queue RL) now :
  queue_ok q →
  match getNextItem now q with
  | inl (qi, q') =>
      (qi.(plannedToStartWorkAt) ≤ now)%Z ∧ qi ∈ q.(items) ∧
      (∀ x, x ∈ q.(items) → (qi.(plannedToStartWorkAt) ≤ x.(plannedToStartWorkAt))%Z) ∧
      q.(itemsBeingProcessed) !! qi.(key) = None ∧ q'.(itemsBeingProcessed) !! qi.(key) = Some qi ∧
      qi.(key) ∉ q'.(itemsInQueue)
  | inr _ => ∀ x, x ∈ q.(items) → (now < x.(plannedToStartWorkAt))%Z
  end.
Proof.
  intros Hq. unfold getNextItem. pose proof (q_sorted _ Hq) as Hs. pose proof (q_index _ Hq) as Hi.
  destruct (items q) as [|qi rest] eqn:Hit; [by intros x ?%elem_of_nil|].
  inversion Hs as [|?? _ HF]; subst. rewrite Forall_forall in HF.
  destruct (Z.leb_spec (plannedToStartWorkAt qi - now) 0) as [Hle|Hgt].
  - split_and!; [lia|set_solver| | |cbn; by rewrite lookup_insert_eq|cbn; set_solver].
    + intros x [->|Hx]%elem_of_cons; [lia|]. by apply HF.
    + apply Hq. rewrite Hi. cbn. set_solver.
  - intros x [->|Hx]%elem_of_cons; [lia|]. specialize (HF x Hx). unfold le_item in HF. lia.
Qed.

#[export] Instance unit_limiter : RateLimiter unit := {
  When := λ rl _, (rl, 5%Z); limiterForget := λ rl _, rl }.

Lemma getNextItem_earliest_witness :
  let q := runOps DefaultRetryFunc (New tt) [OpInsert 10 "a" true None; OpInsert 11 "b" false None] in
  match getNextItem 12 q with
  | inl (qi, q') => qi ∈ q.(items) ∧ qi.(key) = "b"
  | inr _ => False
  end.
Proof.
  cbn zeta.
  pose proof (getNextItem_earliest (runOps DefaultRetryFunc (New tt)
    [OpInsert 10 "a" true None; OpInsert 11 "b" false None]) 12
    (queue_ok_runOps DefaultRetryFunc _ _ (queue_ok_New tt))) as H.
  destruct (getNextItem 12 _) as [[qi q']|d] eqn:Hg; [|by vm_compute in Hg].
  split; [apply H|]. vm_compute in Hg. by simplify_eq.
Defined.

(** Inserting a key that is already queued never delays it: its item is
    kept with the earlier of the two times (whatever the rate limiter says),
    and every other item is untouched. *)
Theorem insert_brings_forward {RL} `{!RateLimiter RL} (q : Queue RL) now k ratelimit delay qi :
  queue_ok q → qi ∈ q.(items) → qi.(key) = k →
  let q' := insertItem now q k ratelimit delay in
  {| qi with plannedToStartWorkAt :=
       Z.min qi.(plannedToStartWorkAt) (now + durationDeref delay 0) |} ∈ q'.(items) ∧
  (∀ x, x.(key) ≠ k → x ∈ q'.(items) ↔ x ∈ q.(items)) ∧ q'.(itemsInQueue) = q.(itemsInQueue).
Proof.
  intros Hq Hin Hk. cbn zeta.
  assert (k ∈ q.(itemsInQueue)) as HkQ.
  { rewrite (q_index _ Hq), elem_of_list_to_set. apply list_elem_of_fmap. eauto. }
  unfold insertItem. cbn [itemsBeingProcessed itemsInQueue items]. rewrite (q_disjoint _ Hq k HkQ).
  rewrite decide_True by done. cbn [items itemsInQueue].
  unfold adjustPosition.
  destruct (splitKey_is_Some k (items q)) as [[[pre x] post] Hs]; [apply list_elem_of_fmap; eauto|].
  rewrite Hs. apply splitKey_Some in Hs as [Heq Hx].
  assert (x = qi) as ->.
  { apply (NoDup_fmap_elem key (items q)); [apply Hq| |done|congruence]. rewrite Heq. set_solver. }
  destruct (Z.ltb_spec (plannedToStartWorkAt qi) (now + durationDeref delay 0)).
  - rewrite Z.min_l by lia. split_and!; [|done|done]. by destruct qi.
  - rewrite Z.min_r by lia. rewrite Heq. split_and!; [|intros y Hy|done].
    + rewrite elem_of_app, insertSorted_perm. set_solver.
    + rewrite !elem_of_app, insertSorted_perm, !elem_of_cons.
      assert (y ≠ {| qi with plannedToStartWorkAt := now + durationDeref delay 0 |}) by (intros ->; done).
      assert (y ≠ qi) by (intros ->; done). tauto.
Qed.

Lemma insert_brings_forward_witness :
  let q := runOps DefaultRetryFunc (New tt) [OpInsert 10 "a" true None; OpInsert 11 "b" false None] in
  ∃ qi, qi ∈ q.(items) ∧ qi.(key) = "a" ∧ qi.(plannedToStartWorkAt) = 15%Z ∧
    {| qi with plannedToStartWorkAt := Z.min 15 (12 + durationDeref None 0) |}
      ∈ (insertItem 12 q "a" true None).(items).
Proof.
  cbn zeta. eexists. split; [apply list_elem_of_further, list_elem_of_here|].
  split; [reflexivity|]. split; [reflexivity|].
  apply (insert_brings_forward (runOps DefaultRetryFunc (New tt)
    [OpInsert 10 "a" true None; OpInsert 11 "b" false None]) 12 "a" true None); [|vm_compute|reflexivity].
  - apply queue_ok_runOps, queue_ok_New.
  - apply list_elem_of_further, list_elem_of_here.
Defined.

Section Finish.
Context {RL : Type} `{!RateLimiter RL}.
Implicit Types q : Queue RL.

Lemma updateItem_index q k f :
  (updateItem q k f).(itemsInQueue) = q.(itemsInQueue) ∧ (updateItem q k f).(forgotten) = q.(forgotten).
Proof. unfold updateItem. by destruct (itemsBeingProcessed q !! k). Qed.

Lemma insertItem_forgotten now q k r d : (insertItem now q k r d).(forgotten) = q.(forgotten).
Proof. unfold insertItem. repeat case_match; simplify_eq; done. Qed.

Lemma insertItem_queued now q k r d :
  q.(itemsBeingProcessed) !! k = None →
  k ∈ (insertItem now q k r d).(itemsInQueue) ∧
  (insertItem now q k r d).(itemsBeingProcessed) = q.(itemsBeingProcessed).
Proof.
  intros Hp. unfold insertItem. cbn [itemsBeingProcessed itemsInQueue items ratelimiter]. rewrite Hp.
  case_decide; [done|].
  destruct r; [destruct (When _ _) as [rl dd]|]; cbn; (split; [set_solver|done]).
Qed.

Lemma redirty_nonzero qi r w : w ≠ 0%Z → IsZero (redirty qi r w).(redirtiedAt) = false.
Proof.
  intros Hw. unfold redirty. destruct (IsZero (redirtiedAt qi)) eqn:Hz; cbn; [by apply bool_decide_eq_false_2|].
  destruct (_ <? _)%Z; cbn; [by apply bool_decide_eq_false_2|done].
Qed.

Lemma redirty_forget qi r w : (redirty qi r w).(forget) = false.
Proof. unfold redirty. by destruct (_ || _). Qed.

(** Items written through [updateItem] after an insert. *)
Lemma updateItem_items q k f x :
  q.(itemsBeingProcessed) !! k = None → x ∈ (updateItem q k f).(items) → (f x).(key) = x.(key) →
  x.(key) = k → (∀ i, (f i).(key) = i.(key)) → ∃ i, x = f i.
Proof.
  intros Hp. unfold updateItem. rewrite Hp. cbn. intros (i & -> & Hi)%list_elem_of_fmap _ Hk Hf.
  case_decide as Hd; [by exists i|]. congruence.
Qed.
End Finish.

(** C32: An update that arrives while its key is being processed is not lost:
    whatever the handler returns, and whether it is retried or given up, the
    key is queued again when the handler ends. *)
Theorem redirty_not_lost {RL} `{!RateLimiter RL} retryFunc (q : Queue RL) qi now now' until k r d err :
  q.(itemsBeingProcessed) !! k = Some qi → (now + durationDeref d 0)%Z ≠ 0%Z →
  k ∈ (finishItem retryFunc now' until (insertItem now q k r d) k err).1.(itemsInQueue).
Proof.
  intros Hp Hw. unfold insertItem at 1. cbn [itemsBeingProcessed]. rewrite Hp.
  unfold finishItem. cbn [itemsBeingProcessed]. rewrite lookup_insert_eq, redirty_forget.
  rewrite redirty_nonzero by done.
  destruct err as [e|]; [destruct (retryFunc _ _ _ _)|]; cbn [fst];
    rewrite (proj1 (updateItem_index _ _ _));
    apply insertItem_queued; cbn; apply lookup_delete_eq.
Qed.

Lemma redirty_not_lost_witness :
  let q := runOps DefaultRetryFunc (New tt) [OpInsert 10 "a" false None; OpGetNext 10] in
  "a" ∈ (finishItem DefaultRetryFunc 30 30 (insertItem 20 q "a" true None) "a" None).1.(itemsInQueue).
Proof. cbn zeta. eapply redirty_not_lost; [vm_compute; reflexivity|vm_compute; discriminate]. Defined.

(** Retries are bounded: no item of any run under the default retry
    function has been requeued more than 19 times; an item that fails is
    queued again with its counter advanced and its original time of addition
    kept, and one that fails for the 20th time is reported as forgotten, with
    the handler's error, and leaves the queue unless it was inserted again
    while it was processed. *)
Theorem default_retries {RL} `{!RateLimiter RL} (rl : RL) ops k qi now until e :
  let q := runOps DefaultRetryFunc (New rl) ops in
  q.(itemsBeingProcessed) !! k = Some qi → qi.(forget) = false →
  let q' := (finishItem DefaultRetryFunc now until q k (Some e)).1 in
  (0 ≤ qi.(requeues) < MaxRetries)%Z ∧
  ((qi.(requeues) < MaxRetries - 1)%Z →
     k ∈ q'.(itemsInQueue) ∧ q'.(forgotten) = q.(forgotten) ∧
     ∀ x, x ∈ q'.(items) → x.(key) = k →
       x.(requeues) = (qi.(requeues) + 1)%Z ∧ x.(originallyAdded) = qi.(originallyAdded)) ∧
  (qi.(requeues) = (MaxRetries - 1)%Z →
     q'.(forgotten) = q.(forgotten)
       ++ [(k, Forgetting (negb (IsZero qi.(redirtiedAt))) k (MaxRetriesReached e))] ∧
     (IsZero qi.(redirtiedAt) = true → k ∉ q'.(itemsInQueue))).
Proof.
  cbn zeta. set (q := runOps DefaultRetryFunc (New rl) ops). intros Hp Hf.
  assert (tries_ok q) as [_ Ht].
  { apply tries_ok_runOps. split; cbn; [by intros ? ?%elem_of_nil|intros ??; by rewrite lookup_empty]. }
  assert (queue_ok q) as Hq by apply queue_ok_runOps, queue_ok_New.
  split; [by eapply Ht|]. unfold finishItem. rewrite Hp, Hf. unfold DefaultRetryFunc.
  destruct (Z.ltb_spec (requeues qi + 1) MaxRetries); cbn [fst]; split; try (intros; lia); intros _.
  - set (q0 := {| q with itemsBeingProcessed := delete k q.(itemsBeingProcessed) |}).
    destruct (insertItem_queued now q0 k true None) as [Hin Hpr]; [apply lookup_delete_eq|].
    destruct (updateItem_index (insertItem now q0 k true None) k
      (λ i, {| i with requeues := qi.(requeues) + 1; originallyAdded := qi.(originallyAdded) |})) as [-> ->].
    split_and!; [done|by rewrite insertItem_forgotten|]. intros x Hx Hk.
    apply updateItem_items in Hx as [i ->]; try done. rewrite Hpr. apply lookup_delete_eq.
  - destruct (IsZero (redirtiedAt qi)); cbn [forgotten itemsInQueue negb].
    + split; [done|]. intros _ Hin. by rewrite (q_disjoint _ Hq k Hin) in Hp.
    + rewrite (proj2 (updateItem_index _ _ _)), insertItem_forgotten. done.
Qed.

Lemma default_retries_witness :
  let q := runOps DefaultRetryFunc (New tt) [OpInsert 10 "a" false None; OpGetNext 10] in
  "a" ∈ (finishItem DefaultRetryFunc 12 12 q "a" (Some (HandlerErr "boom"))).1.(itemsInQueue).
Proof.
  cbn zeta.
  destruct (default_retries tt [OpInsert 10 "a" false None; OpGetNext 10] "a"
    {| key := "a"; plannedToStartWorkAt := 10; redirtiedAt := 0; redirtiedWithRatelimit := false;
       forget := false; requeues := 0; originallyAdded := 10; addedViaRedirty := false;
       delayedViaRateLimit := None |} 12 12 (HandlerErr "boom")) as (_ & H & _);
    [vm_compute; reflexivity|reflexivity|].
  apply H. vm_compute. reflexivity.
Defined.
