(* ===== verification/Monitor.v ===== *)
(** * Monitor variables and the node ping (internal/lock/monitor.go,
      node/node_ping_controller.go)

    A variable whose changes can be waited for through channels. Channels are
    numbers; [m_closed] is the set of the closed ones and [m_next] the number
    of the next channel that is made. Every operation holds the lock of the
    variable, so that an execution is a sequence of operations in any order.
    The ping controller publishes the outcome of each ping in such a
    variable. *)
From S2P Require Import Prelude Corev1.

Section Monitor.
Context {V : Type}.

Record monitorVariable := {
  currentValue : option V;
  currentVersion : Z;
  versionInvalidationChannel : nat;
  m_closed : gset nat;
  m_next : nat;
}.

Record subscription := {
  lastVersionRead : Z;
  lastVersionReadInvalidationChannel : nat;
}.

Record VersionedValue := { v_Value : option V; v_Version : Z }.

Definition NewMonitorVariable : monitorVariable := {|
  currentValue := None; currentVersion := 0; versionInvalidationChannel := 0; m_closed := ∅; m_next := 1 |}.

(** [None] is the panic of closing a closed channel. *)
Definition closeChan (m : monitorVariable) (ch : nat) : option monitorVariable :=
  if decide (ch ∈ m.(m_closed)) then None else Some {| m with m_closed := {[ ch ]} ∪ m.(m_closed) |}.

Definition Set_ (m : monitorVariable) (newValue : V) : option monitorVariable :=
  m ← closeChan {| m with currentValue := Some newValue; currentVersion := wrap64 (m.(currentVersion) + 1) |}
        m.(versionInvalidationChannel);
  Some {| m with versionInvalidationChannel := m.(m_next); m_next := S m.(m_next) |}.

Definition Subscribe (m : monitorVariable) : monitorVariable * subscription :=
  if (0 <? m.(currentVersion))%Z then
    let closedCh := m.(m_next) in
    ({| m with m_next := S m.(m_next); m_closed := {[ closedCh ]} ∪ m.(m_closed) |},
     {| lastVersionRead := 0; lastVersionReadInvalidationChannel := closedCh |})
  else (m, {| lastVersionRead := 0; lastVersionReadInvalidationChannel := m.(versionInvalidationChannel) |}).

Definition NewValueReady (s : subscription) : nat := s.(lastVersionReadInvalidationChannel).

Definition ReadValue (m : monitorVariable) (s : subscription) : subscription * VersionedValue :=
  ({| lastVersionRead := m.(currentVersion); lastVersionReadInvalidationChannel := m.(versionInvalidationChannel) |},
   {| v_Value := m.(currentValue); v_Version := m.(currentVersion) |}).

(** A receive from the channel returns at once. *)
Definition isReady (m : monitorVariable) (s : subscription) : bool := bool_decide (NewValueReady s ∈ m.(m_closed)).

(** ** Executions *)

Record MSys := { ms_var : monitorVariable; ms_subs : list subscription; ms_sets : list V; }.

Inductive mstep : MSys → MSys → Prop :=
  | step_set s v m' :
      Set_ s.(ms_var) v = Some m' →
      mstep s {| s with ms_var := m'; ms_sets := s.(ms_sets) ++ [v] |}
  | step_subscribe s :
      mstep s {| s with ms_var := (Subscribe s.(ms_var)).1; ms_subs := s.(ms_subs) ++ [(Subscribe s.(ms_var)).2] |}
  | step_read s i sub :
      s.(ms_subs) !! i = Some sub →
      mstep s {| s with ms_subs := <[i := (ReadValue s.(ms_var) sub).1]> s.(ms_subs) |}.

Definition minit : MSys := {| ms_var := NewMonitorVariable; ms_subs := []; ms_sets := [] |}.

(** The executions with fewer than 2^63 values. *)
Definition mreach (s : MSys) : Prop := rtc mstep minit s ∧ (Z.of_nat (length s.(ms_sets)) < 2 ^ 63)%Z.

Definition sub_ok (m : monitorVariable) (s : subscription) : Prop :=
  (0 <= s.(lastVersionRead) <= m.(currentVersion))%Z ∧
  (s.(lastVersionReadInvalidationChannel) < m.(m_next)) ∧
  (s.(lastVersionRead) = m.(currentVersion) → s.(lastVersionReadInvalidationChannel) = m.(versionInvalidationChannel)) ∧
  (s.(lastVersionRead) < m.(currentVersion) → s.(lastVersionReadInvalidationChannel) ∈ m.(m_closed))%Z.

Record minv (s : MSys) : Prop := {
  mi_version : s.(ms_var).(currentVersion) = Z.of_nat (length s.(ms_sets));
  mi_value : s.(ms_var).(currentValue) = last s.(ms_sets);
  mi_open : s.(ms_var).(versionInvalidationChannel) ∉ s.(ms_var).(m_closed);
  mi_fresh : s.(ms_var).(versionInvalidationChannel) < s.(ms_var).(m_next);
  mi_closed : ∀ ch, ch ∈ s.(ms_var).(m_closed) → ch < s.(ms_var).(m_next);
  mi_subs : Forall (sub_ok s.(ms_var)) s.(ms_subs);
}.

Lemma minit_inv : minv minit.
Proof. split; cbn; [done|done|set_solver|lia|set_solver|constructor]. Qed.

Lemma Set_total m v : versionInvalidationChannel m ∉ m_closed m →
  Set_ m v = Some {| currentValue := Some v; currentVersion := wrap64 (currentVersion m + 1);
    versionInvalidationChannel := m_next m; m_closed := {[ versionInvalidationChannel m ]} ∪ m_closed m;
    m_next := S (m_next m) |}.
Proof. intros H. unfold Set_, closeChan. cbn. by rewrite decide_False. Qed.

Lemma set_inv s v m' : minv s → (Z.of_nat (length s.(ms_sets)) + 1 < 2 ^ 63)%Z → Set_ s.(ms_var) v = Some m' →
  minv {| s with ms_var := m'; ms_sets := s.(ms_sets) ++ [v] |}.
Proof.
  intros [Hv Hval Hopen Hfresh Hcl Hsubs] Hlen Hset. rewrite Set_total in Hset by done. injection Hset as <-.
  assert (wrap64 (currentVersion (ms_var s) + 1) = currentVersion (ms_var s) + 1)%Z as Hw.
  { apply wrap64_id. rewrite Hv. unfold in_int64. lia. }
  split; cbn; rewrite ?Hw.
  - rewrite length_app. cbn. lia.
  - by rewrite last_snoc.
  - intros [H%elem_of_singleton|H]%elem_of_union; [lia|]. apply Hcl in H. lia.
  - lia.
  - intros ch [->%elem_of_singleton|H%Hcl]%elem_of_union; lia.
  - eapply Forall_impl; [exact Hsubs|]. intros sub (Hr & Hc & Heq & Hlt). split_and!; cbn; [lia|lia|lia|lia|].
    intros _. destruct (decide (lastVersionRead sub = currentVersion (ms_var s))) as [He|Hne].
    + rewrite (Heq He). set_solver.
    + apply elem_of_union_r, Hlt. lia.
Qed.

Lemma subscribe_inv s : minv s →
  minv {| s with ms_var := (Subscribe s.(ms_var)).1; ms_subs := s.(ms_subs) ++ [(Subscribe s.(ms_var)).2] |}.
Proof.
  intros [Hv Hval Hopen Hfresh Hcl Hsubs]. unfold Subscribe. destruct (Z.ltb_spec 0 (currentVersion (ms_var s))) as [Hpos|Hz].
  - split; cbn; [done|done| |lia| |].
    + intros [H%elem_of_singleton|H]%elem_of_union; [lia|done].
    + intros ch [->%elem_of_singleton|H%Hcl]%elem_of_union; lia.
    + apply Forall_app. split.
      * eapply Forall_impl; [exact Hsubs|]. intros sub (Hr & Hc & Heq & Hlt). split_and!; cbn; [lia|lia|lia|done|].
        intros H. apply elem_of_union_r, Hlt, H.
      * constructor; [|constructor]. split_and!; cbn; [lia|lia|lia|lia|set_solver].
  - split; cbn; [done..|]. apply Forall_app. split; [done|]. constructor; [|constructor].
    split_and!; cbn; [lia|lia|done|done|lia].
Qed.

Lemma read_inv s i sub : minv s → s.(ms_subs) !! i = Some sub →
  minv {| s with ms_subs := <[i := (ReadValue s.(ms_var) sub).1]> s.(ms_subs) |}.
Proof.
  intros [Hv Hval Hopen Hfresh Hcl Hsubs] Hi. split; cbn; [done..|]. apply Forall_insert; [done|].
  split_and!; cbn; [lia|lia|done|done|lia].
Qed.

Lemma mreach_inv s : mreach s → minv s.
Proof.
  intros [Hr Hlen]. revert s Hr Hlen.
  apply (rtc_ind_r (λ s, (Z.of_nat (length s.(ms_sets)) < 2 ^ 63)%Z → minv s) minit); [intros _; apply minit_inv|].
  intros s s' Hr Hstep IH Hlen. destruct Hstep as [s v m' Hset|s|s i sub Hi]; cbn in Hlen.
  - rewrite length_app in Hlen. cbn in Hlen. apply set_inv; [apply IH; lia|lia|done].
  - apply subscribe_inv, IH, Hlen.
  - apply read_inv; [by apply IH|done].
Qed.

End Monitor.

Arguments monitorVariable : clear implicits.
Arguments subscription : clear implicits.
Arguments MSys : clear implicits.

(** A monitor variable tells every subscriber of every change and of no
    other: whatever the order of the operations, the channel of a subscription
    is closed exactly when a value was set after the subscription last read
    the variable, the variable holds the last value that was set, and no
    operation closes a channel twice. *)
Theorem monitor_ready {V} (s : MSys V) :
  mreach s →
  Forall (λ sub, isReady s.(ms_var) sub = true ↔ (sub.(lastVersionRead) < s.(ms_var).(currentVersion))%Z) s.(ms_subs) ∧
  s.(ms_var).(currentVersion) = Z.of_nat (length s.(ms_sets)) ∧
  s.(ms_var).(currentValue) = last s.(ms_sets) ∧
  ∀ v, is_Some (Set_ s.(ms_var) v).
Proof.
  intros [Hv Hval Hopen _ _ Hsubs]%mreach_inv. split_and!; [|done|done|by intros v; rewrite Set_total].
  eapply Forall_impl; [exact Hsubs|]. intros sub (Hr & _ & Heq & Hlt). unfold isReady, NewValueReady.
  rewrite bool_decide_eq_true. split; [|exact Hlt]. intros Hin.
  destruct (decide (lastVersionRead sub = currentVersion (ms_var s))) as [He|]; [|lia].
  rewrite (Heq He) in Hin. done.
Qed.

(** ** The ping of the provider (node/node_ping_controller.go) *)

(** [pr_error] is [None] when the provider answered without an error; [E] are
    the errors of contexts and of the provider. *)
Record pingResult {E : Type} := { pr_time : Time; pr_error : option E }.
Arguments pingResult : clear implicits.

(** Which case of the [select] of [checkFunc] runs. *)
Inductive PingOutcome {E : Type} :=
  | CtxDone (err : E)
  | PingReturned (started : Time) (err : option E).
Arguments PingOutcome : clear implicits.

Definition checkFunc {E} (m : monitorVariable (pingResult E)) (o : PingOutcome E) : option (monitorVariable (pingResult E)) :=
  Set_ m match o with
         | CtxDone err => {| pr_time := 0; pr_error := Some err |}
         | PingReturned started err => {| pr_time := started; pr_error := err |}
         end.

(** The outcomes of [getResult]; [GRPanic] is the type assertion on a value
    that was never set. *)
Inductive GetResult {E : Type} := GRBlocks | GRCancelled (err : E) | GRResult (r : pingResult E) | GRPanic.
Arguments GetResult : clear implicits.

(** [m] when the subscription is made, [m'] when the [select] returns or is
    observed to wait; [pickCtx] resolves a [select] with both cases ready. *)
Definition getResult {E} (m m' : monitorVariable (pingResult E)) (ctxErr : option E) (pickCtx : bool) : GetResult E :=
  let '(m, sub) := Subscribe m in
  let ready := isReady m sub || isReady m' sub in
  let read := match (ReadValue m' sub).2.(v_Value) with Some r => GRResult r | None => GRPanic end in
  match ctxErr with
  | Some e => if pickCtx || negb ready then GRCancelled e else read
  | None => if ready then read else GRBlocks
  end.

(** The pings so far, in order. *)
Definition runPings {E} (os : list (PingOutcome E)) : option (monitorVariable (pingResult E)) :=
  foldl (λ m o, m ← m; checkFunc m o) (Some NewMonitorVariable) os.

Definition outcomeResult {E} (o : PingOutcome E) : pingResult E :=
  match o with
  | CtxDone err => {| pr_time := 0; pr_error := Some err |}
  | PingReturned started err => {| pr_time := started; pr_error := err |}
  end.

Lemma runPings_reach {E} (os : list (PingOutcome E)) : (Z.of_nat (length os) < 2 ^ 63)%Z →
  ∃ m, runPings os = Some m ∧ mreach {| ms_var := m; ms_subs := []; ms_sets := outcomeResult <$> os |}.
Proof.
  induction os as [|o os IH] using rev_ind; intros Hlen.
  { exists NewMonitorVariable. split; [done|]. split; [apply rtc_refl|done]. }
  rewrite length_app in Hlen. cbn in Hlen. destruct IH as (m & Hm & Hr); [lia|].
  unfold runPings in *. rewrite foldl_app, Hm. cbn [foldl mbind option_bind].
  destruct (Set_ m (outcomeResult o)) as [m'|] eqn:Hset;
    [|apply mreach_inv in Hr; by rewrite Set_total in Hset by apply Hr].
  exists m'. split; [by destruct o|]. split.
  - eapply rtc_r; [apply Hr|]. rewrite fmap_app. exact (step_set {| ms_var := m; ms_subs := []; ms_sets := _ |} _ _ Hset).
  - cbn. rewrite length_fmap, length_app. cbn. lia.
Qed.

Lemma runPings_facts {E} (os : list (PingOutcome E)) m : (Z.of_nat (length os) < 2 ^ 63)%Z → runPings os = Some m →
  currentVersion m = Z.of_nat (length os) ∧ currentValue m = outcomeResult <$> last os ∧
  (os = [] → versionInvalidationChannel m = 0) ∧ (0 ∈ m_closed m ↔ os ≠ []).
Proof.
  intros Hlen Hm. destruct (runPings_reach os Hlen) as (m0 & Hm0 & Hr). rewrite Hm in Hm0. injection Hm0 as <-.
  pose proof (mreach_inv _ Hr) as [Hv Hval Hopen _ _ _]. cbn in *. rewrite length_fmap in Hv. rewrite fmap_last in Hval.
  split_and!; [done|done|by intros ->; injection Hm as <-|].
  clear -Hm Hlen. destruct os as [|o os]; [injection Hm as <-; cbn; set_solver|].
  split; [done|]. intros _. revert m Hm Hlen. induction os as [|o' os IH] using rev_ind; intros m Hm Hlen.
  - unfold runPings in Hm. cbn [foldl mbind option_bind] in Hm.
    assert (Set_ NewMonitorVariable (outcomeResult o) = Some m) as H by by destruct o.
    rewrite Set_total in H by (cbn; set_solver). injection H as <-. cbn. set_solver.
  - rewrite app_comm_cons in Hm, Hlen. rewrite length_app in Hlen. cbn [length] in Hlen.
    destruct (runPings_reach (o :: os)) as (m1 & Hm1 & Hr1); [cbn [length]; lia|].
    unfold runPings in *. rewrite foldl_app, Hm1 in Hm. cbn [foldl mbind option_bind] in Hm.
    assert (Set_ m1 (outcomeResult o') = Some m) as H by by destruct o'.
    apply mreach_inv in Hr1. rewrite Set_total in H by apply Hr1. injection H as <-. cbn.
    apply elem_of_union_r. apply IH; [done|cbn [length]; lia].
Qed.

(** [getResult] waits for the first ping only, never panics, and returns the
    latest result. *)
Lemma getResult_latest {E} (os os' : list (PingOutcome E)) m m' ctxErr pickCtx :
  (Z.of_nat (length (os ++ os')) < 2 ^ 63)%Z → runPings os = Some m → runPings (os ++ os') = Some m' →
  getResult m m' ctxErr pickCtx =
    match ctxErr, last (os ++ os') with
    | Some e, Some o => if pickCtx then GRCancelled e else GRResult (outcomeResult o)
    | Some e, None => GRCancelled e
    | None, Some o => GRResult (outcomeResult o)
    | None, None => GRBlocks
    end.
Proof.
  intros Hlen Hm Hm'. pose proof Hlen as Hlen'. rewrite length_app in Hlen'.
  destruct (runPings_facts os m) as (Hv & _ & Hch & _); [lia|done|].
  destruct (runPings_facts (os ++ os') m') as (_ & Hval & _ & Hcl); [done|done|].
  assert (∃ m1 sub, Subscribe m = (m1, sub) ∧ isReady m1 sub || isReady m' sub = bool_decide (os ++ os' ≠ []))
    as (m1 & sub & Hsub & Hready).
  { unfold Subscribe. destruct (Z.ltb_spec 0 (currentVersion m)) as [Hpos|Hz].
    - eexists _, _. split; [reflexivity|]. unfold isReady. cbn.
      rewrite (bool_decide_true (m_next m ∈ _)) by set_solver. symmetry. apply bool_decide_true.
      destruct os; [cbn in Hv; lia|done].
    - eexists _, _. split; [reflexivity|]. assert (os = []) as -> by (destruct os; [done|cbn [length] in *; lia]).
      unfold isReady, NewValueReady. cbn [lastVersionReadInvalidationChannel]. rewrite Hch by done.
      injection Hm as <-. cbn. apply bool_decide_ext. exact Hcl. }
  unfold getResult. rewrite Hsub, Hready. cbn [ReadValue snd v_Value]. rewrite Hval.
  destruct (last (os ++ os')) as [o|] eqn:Hlast; cbn.
  - rewrite bool_decide_true by (intros H; rewrite H in Hlast; done). by destruct ctxErr, pickCtx.
  - apply last_None in Hlast. rewrite Hlast. cbn. by destruct ctxErr, pickCtx.
Qed.

(** Two values, a subscription that has read the first and one made after. *)
Definition demoMonitor : MSys nat :=
  let m0 := NewMonitorVariable in
  let '(m1, s1) := Subscribe m0 in
  let m2 := default m1 (Set_ m1 7) in
  let s1 := (ReadValue m2 s1).1 in
  let m3 := default m2 (Set_ m2 9) in
  let '(m4, s2) := Subscribe m3 in
  {| ms_var := m4; ms_subs := [s1; s2]; ms_sets := [7; 9] |}.

Lemma monitor_ready_witness :
  mreach demoMonitor ∧ map (isReady demoMonitor.(ms_var)) demoMonitor.(ms_subs) = [true; true] ∧
  demoMonitor.(ms_var).(currentValue) = Some 9.
Proof.
  assert (mreach demoMonitor) as Hr.
  { split; [|done].
    eapply rtc_l; [apply step_subscribe|]. eapply rtc_l; [by apply (step_set _ 7)|].
    eapply rtc_l; [by apply (step_read _ 0)|]. eapply rtc_l; [by apply (step_set _ 9)|].
    eapply rtc_l; [apply step_subscribe|]. apply rtc_refl. }
  split; [done|]. destruct (monitor_ready demoMonitor Hr) as (_ & _ & H & _). split; [by vm_compute|exact H].
Defined.
