(* ===== verification/Probes.v ===== *)
(** * Probes (node/probes.go, internal/probescheduler, BatchWatcher.runProbes)

    Evaluation of probe results against their thresholds, the schedule of
    probes, their execution, and the two callers that run the probes of one
    container: the poll of the BatchWatcher ([runProbes]) and the
    ProbeScheduler ([probeContainer]).  The network and the container runtime
    are parameters of [RunProbe]; the random jitter, the clock readings and
    the results that a caller obtains are in a [ProbeEnv] per probe type. *)
From stdpp Require Import pretty.
From S2P Require Import Prelude Corev1 Types.

Inductive ProbeResult := ProbeSuccess | ProbeFailure | ProbeUnknown.

#[export] Instance ProbeResult_eq_dec : EqDecision ProbeResult.
Proof. solve_decision. Defined.

Definition probeResultString (r : ProbeResult) : string :=
  match r with ProbeSuccess => "success" | ProbeFailure => "failure" | ProbeUnknown => "unknown" end.

Record ContainerProbeState := {
  StartedAt : Time;
  StartupPassed : bool;
  StartupFailCount : Z;
  LiveFailCount : Z;
  Ready : bool;
  ReadyFailCount : Z;
  ReadySuccessCount : Z;
  LastProbeTime : gmap string Time;
}.

(** ** Execution *)

(** [net.JoinHostPort]. *)
Definition JoinHostPort (host port : string) : string :=
  match Str.index_byte host ":" with
  | Some _ => "[" +:+ host +:+ "]:" +:+ port
  | None => host +:+ ":" +:+ port
  end.

Section RunProbe.
(** The status code of a GET, or [None] when the request or the transfer
    fails; whether a TCP connection is established; whether a command in a
    container succeeds.  Each is subject to the given timeout. *)
Variable httpDo : Duration → string → list (string * string) → option Z.
Variable dial : Duration → string → bool.
Variable runInContainer : Duration → string → string → list string → bool.

Definition runHTTPGetProbe (timeout : Duration) (podIP : string) (action : HTTPGetAction) : ProbeResult :=
  let scheme := if action.(h_HTTPS) then "https" else "http" in
  let path := if decide (action.(h_Path) = "") then "/" else action.(h_Path) in
  let target := if decide (action.(h_Host) = "") then podIP else action.(h_Host) in
  let url := scheme +:+ "://" +:+ target +:+ ":" +:+ action.(h_Port) +:+ path in
  match httpDo timeout url action.(h_Headers) with
  | None => ProbeFailure
  | Some status => if (200 <=? status)%Z && (status <? 400)%Z then ProbeSuccess else ProbeFailure
  end.

Definition runTCPSocketProbe (timeout : Duration) (podIP : string) (action : TCPSocketAction) : ProbeResult :=
  let host := if decide (action.(tcp_Host) = "") then podIP else action.(tcp_Host) in
  if dial timeout (JoinHostPort host action.(tcp_Port)) then ProbeSuccess else ProbeFailure.

Definition runExecProbe (timeout : Duration) (podUID containerName : string) (cmd : list string) : ProbeResult :=
  if runInContainer timeout podUID containerName cmd then ProbeSuccess else ProbeFailure.

Definition RunProbe (podUID containerName : string) (probe : option Probe) (podIP : string) : ProbeResult :=
  match probe with
  | None => ProbeSuccess
  | Some probe =>
      let timeout := (probe.(TimeoutSeconds) * Second)%Z in
      let timeout := if (timeout =? 0)%Z then Second else timeout in
      match probe.(HTTPGet), probe.(TCPSocket), probe.(Exec) with
      | Some a, _, _ => runHTTPGetProbe timeout podIP a
      | None, Some a, _ => runTCPSocketProbe timeout podIP a
      | None, None, Some cmd => runExecProbe timeout podUID containerName cmd
      | None, None, None => ProbeUnknown
      end
  end.
End RunProbe.

(** ** Schedule *)

(** What a caller meets when it handles one probe: the random number, the
    clock readings of [isDue] (seeding, [Since(StartedAt)], [Since(last)]), of
    [markProbed] and of [ResetProbeState], and the result of the probe. *)
Record ProbeEnv := {
  e_rand : Z;
  e_seed : Time;
  e_sinceStart : Time;
  e_sinceLast : Time;
  e_mark : Time;
  e_reset : Time;
  e_result : ProbeResult;
}.

Definition effectivePeriod (periodSeconds : Z) : Z := if (periodSeconds <=? 0)%Z then 10 else periodSeconds.

(** [rand.Int63n(n)] for the drawn number. *)
Definition Int63n (r n : Z) : Z := r `mod` n.

Definition isDue (e : ProbeEnv) (state : ContainerProbeState) (probeType : string)
    (periodSeconds initialDelaySeconds : Z) : ContainerProbeState * bool :=
  let periodSeconds := effectivePeriod periodSeconds in
  let state :=
    match state.(LastProbeTime) !! probeType with
    | Some _ => state
    | None =>
        let jitter := (Int63n e.(e_rand) periodSeconds * Second)%Z in
        let initialDelay := (initialDelaySeconds * Second)%Z in
        let t := if negb (IsZero state.(StartedAt))
                 then (state.(StartedAt) + (initialDelay + jitter - periodSeconds * Second))%Z
                 else (e.(e_seed) + (jitter - periodSeconds * Second))%Z in
        {| state with LastProbeTime := <[probeType := t]> state.(LastProbeTime) |}
    end in
  let last := default 0%Z (state.(LastProbeTime) !! probeType) in
  if (0 <? initialDelaySeconds)%Z && negb (IsZero state.(StartedAt))
     && (e.(e_sinceStart) - state.(StartedAt) <? initialDelaySeconds * Second)%Z
  then (state, false)
  else (state, (periodSeconds * Second <=? e.(e_sinceLast) - last)%Z).

Definition markProbed (e : ProbeEnv) (state : ContainerProbeState) (probeType : string) : ContainerProbeState :=
  {| state with LastProbeTime := <[probeType := e.(e_mark)]> state.(LastProbeTime) |}.

(** ** Evaluation *)

Definition threshold (val def : Z) : Z := if (val <=? 0)%Z then def else val.

Definition EvalStartup (state : ContainerProbeState) (probe : Probe) (result : ProbeResult)
    : ContainerProbeState * bool :=
  if decide (result = ProbeSuccess)
  then ({| state with StartupPassed := true; StartupFailCount := 0 |}, false)
  else
    let state := {| state with StartupFailCount := wrap32 (state.(StartupFailCount) + 1) |} in
    (state, (threshold probe.(FailureThreshold) 3 <=? state.(StartupFailCount))%Z).

Definition EvalLiveness (state : ContainerProbeState) (probe : Probe) (result : ProbeResult)
    : ContainerProbeState * bool :=
  if decide (result = ProbeSuccess)
  then ({| state with LiveFailCount := 0 |}, false)
  else
    let state := {| state with LiveFailCount := wrap32 (state.(LiveFailCount) + 1) |} in
    (state, (threshold probe.(FailureThreshold) 3 <=? state.(LiveFailCount))%Z).

Definition EvalReadiness (state : ContainerProbeState) (probe : Probe) (result : ProbeResult)
    : ContainerProbeState :=
  if decide (result = ProbeSuccess) then
    let state := {| state with ReadyFailCount := 0;
                               ReadySuccessCount := wrap32 (state.(ReadySuccessCount) + 1) |} in
    if (threshold probe.(SuccessThreshold) 1 <=? state.(ReadySuccessCount))%Z
    then {| state with Ready := true |} else state
  else
    let state := {| state with ReadySuccessCount := 0;
                               ReadyFailCount := wrap32 (state.(ReadyFailCount) + 1) |} in
    if (threshold probe.(FailureThreshold) 3 <=? state.(ReadyFailCount))%Z
    then {| state with Ready := false |} else state.

(** The state that [PodStore.ResetProbeState] stores. *)
Definition resetProbeState (now : Time) : ContainerProbeState := {|
  StartedAt := now; StartupPassed := false; StartupFailCount := 0; LiveFailCount := 0;
  Ready := false; ReadyFailCount := 0; ReadySuccessCount := 0; LastProbeTime := ∅ |}.

(** The state that [PodStore.InitRestartState] stores. *)
Definition initProbeState (now : Time) (hasReadinessProbe : bool) : ContainerProbeState :=
  {| (resetProbeState now) with Ready := negb hasReadinessProbe |}.

(** ** The probes of one container *)

(** What a caller emits: an event for the pod, a request to restart the
    container, or a fact for Syzygy. *)
Inductive ProbeOut :=
  | OutEvent (EventType Reason Message : string)
  | OutRestart (container : string)
  | OutFact (f : Fact).

Section Container.
Variable env : string → ProbeEnv.
Variables (uid : string) (c : Container).

Definition due (ps : ContainerProbeState) (probeType : string) (p : Probe) : ContainerProbeState * bool :=
  isDue (env probeType) ps probeType p.(PeriodSeconds) p.(InitialDelaySeconds).

(** The check in [runProbeCycle] and [poll] before a goroutine is started. *)
Definition hasAnyDue (ps : ContainerProbeState) : ContainerProbeState * bool :=
  let try ps t (p : option Probe) :=
    match p with Some p => due ps t p | None => (ps, false) end in
  let '(ps, b) := try ps "startup" c.(c_StartupProbe) in
  if b then (ps, true) else
  let '(ps, b) := try ps "liveness" c.(c_LivenessProbe) in
  if b then (ps, true) else
  try ps "readiness" c.(c_ReadinessProbe).

(** [BatchWatcher.runProbes]. *)
Definition runProbes_startup (ps : ContainerProbeState) (p : Probe) : ContainerProbeState * list ProbeOut :=
  let e := env "startup" in
  let '(ps, b) := due ps "startup" p in
  if b then
    let '(ps, restart) := EvalStartup (markProbed e ps "startup") p e.(e_result) in
    (ps,
     (if decide (e.(e_result) = ProbeSuccess) then
        if ps.(StartupPassed)
        then [OutEvent "Normal" "Started" ("Container " +:+ c.(c_Name) +:+ " passed startup probe")] else []
      else []) ++
     (if decide (e.(e_result) = ProbeFailure) then
        [OutEvent "Warning" "Unhealthy"
           ("Startup probe failed for container " +:+ c.(c_Name) +:+ " (" +:+ pretty ps.(StartupFailCount)
            +:+ "/" +:+ pretty p.(FailureThreshold) +:+ ")")]
      else []) ++
     (if restart then [OutRestart c.(c_Name)] else []))
  else (ps, []).

(** The result, and whether the caller returns after it. *)
Definition runProbes_liveness (ps : ContainerProbeState) : ContainerProbeState * list ProbeOut * bool :=
  match c.(c_LivenessProbe) with
  | None => (ps, [], false)
  | Some p =>
      let e := env "liveness" in
      let '(ps, b) := due ps "liveness" p in
      if b then
        let '(ps, restart) := EvalLiveness (markProbed e ps "liveness") p e.(e_result) in
        let ps := if restart then resetProbeState e.(e_reset) else ps in
        (ps,
         (if decide (e.(e_result) = ProbeFailure) then
            [OutEvent "Warning" "Unhealthy"
               ("Liveness probe failed for container " +:+ c.(c_Name) +:+ " (" +:+ pretty ps.(LiveFailCount)
                +:+ "/" +:+ pretty p.(FailureThreshold) +:+ ")")]
          else []) ++
         (if restart then [OutRestart c.(c_Name)] else []), restart)
      else (ps, [], false)
  end.

Definition runProbes_readiness (ps : ContainerProbeState) : ContainerProbeState * list ProbeOut :=
  match c.(c_ReadinessProbe) with
  | None => (ps, [])
  | Some p =>
      let e := env "readiness" in
      let '(ps, b) := due ps "readiness" p in
      if b then
        let wasReady := ps.(Ready) in
        let ps := EvalReadiness (markProbed e ps "readiness") p e.(e_result) in
        let nowReady := ps.(Ready) in
        (ps,
         (if decide (e.(e_result) = ProbeFailure) then
            [OutEvent "Warning" "Unhealthy" ("Readiness probe failed for container " +:+ c.(c_Name))]
          else []) ++
         (if negb wasReady && nowReady then
            [OutEvent "Normal" "ProbeReady" ("Container " +:+ c.(c_Name) +:+ " passed readiness probe")]
          else []))
      else (ps, [])
  end.

Definition runProbes (ps : ContainerProbeState) : ContainerProbeState * list ProbeOut :=
  match c.(c_StartupProbe) with
  | Some p => if negb ps.(StartupPassed) then runProbes_startup ps p
              else let '(ps, out, stop) := runProbes_liveness ps in
                   if stop then (ps, out)
                   else let '(ps, out') := runProbes_readiness ps in (ps, out ++ out')
  | None => let '(ps, out, stop) := runProbes_liveness ps in
            if stop then (ps, out)
            else let '(ps, out') := runProbes_readiness ps in (ps, out ++ out')
  end.

(** [ProbeScheduler.probeContainer]. *)
Definition probeFact (probeType : string) (p : Probe) (result : ProbeResult) (ready startupPassed : bool) : ProbeOut :=
  OutFact (ProbeFact uid c.(c_Name) probeType (bool_decide (result = ProbeSuccess)) ready startupPassed
             (threshold p.(SuccessThreshold) 1) (threshold p.(FailureThreshold) 3)).

Definition probeContainer_startup (ps : ContainerProbeState) (p : Probe) : ContainerProbeState * list ProbeOut :=
  let e := env "startup" in
  let '(ps, b) := due ps "startup" p in
  if b then
    let '(ps, restart) := EvalStartup (markProbed e ps "startup") p e.(e_result) in
    (ps, [probeFact "startup" p e.(e_result) ps.(StartupPassed) ps.(StartupPassed)])
  else (ps, []).

Definition probeContainer_liveness (ps : ContainerProbeState) : ContainerProbeState * list ProbeOut * bool :=
  match c.(c_LivenessProbe) with
  | None => (ps, [], false)
  | Some p =>
      let e := env "liveness" in
      let '(ps, b) := due ps "liveness" p in
      if b then
        let '(ps, restart) := EvalLiveness (markProbed e ps "liveness") p e.(e_result) in
        let ps := if restart then resetProbeState e.(e_reset) else ps in
        (ps, [probeFact "liveness" p e.(e_result) (negb restart) ps.(StartupPassed)], restart)
      else (ps, [], false)
  end.

Definition probeContainer_readiness (ps : ContainerProbeState) : ContainerProbeState * list ProbeOut :=
  match c.(c_ReadinessProbe) with
  | None => (ps, [])
  | Some p =>
      let e := env "readiness" in
      let '(ps, b) := due ps "readiness" p in
      if b then
        let ps := EvalReadiness (markProbed e ps "readiness") p e.(e_result) in
        (ps, [probeFact "readiness" p e.(e_result) ps.(Ready) ps.(StartupPassed)])
      else (ps, [])
  end.

Definition probeContainer (ps : ContainerProbeState) : ContainerProbeState * list ProbeOut :=
  match c.(c_StartupProbe) with
  | Some p => if negb ps.(StartupPassed) then probeContainer_startup ps p
              else let '(ps, out, stop) := probeContainer_liveness ps in
                   if stop then (ps, out)
                   else let '(ps, out') := probeContainer_readiness ps in (ps, out ++ out')
  | None => let '(ps, out, stop) := probeContainer_liveness ps in
            if stop then (ps, out)
            else let '(ps, out') := probeContainer_readiness ps in (ps, out ++ out')
  end.
End Container.

(** ** Streaks of results *)

Definition is_success (r : ProbeResult) : bool := bool_decide (r = ProbeSuccess).
Definition is_failure (r : ProbeResult) : bool := negb (is_success r).

(** The number of results at the front of the list that satisfy [p]. *)
Fixpoint streak (p : ProbeResult → bool) (l : list ProbeResult) : Z :=
  match l with
  | [] => 0
  | r :: l => if p r then streak p l + 1 else 0
  end.

Lemma streak_bound p l : (0 ≤ streak p l ≤ Z.of_nat (length l))%Z.
Proof. induction l as [|r l IH]; cbn -[Z.of_nat]; [lia|]. case_match; lia. Qed.

(** The readiness state after a history of results, oldest first. *)
Definition evalHistory (probe : Probe) (s : ContainerProbeState) (rs : list ProbeResult) : ContainerProbeState :=
  foldl (λ s r, EvalReadiness s probe r) s rs.

Lemma evalHistory_snoc probe s rs r : evalHistory probe s (rs ++ [r]) = EvalReadiness (evalHistory probe s rs) probe r.
Proof. unfold evalHistory. by rewrite foldl_app. Qed.

Lemma EvalReadiness_counts s probe r :
  (EvalReadiness s probe r).(ReadySuccessCount)
    = (if is_success r then wrap32 (s.(ReadySuccessCount) + 1) else 0)%Z ∧
  (EvalReadiness s probe r).(ReadyFailCount)
    = (if is_failure r then wrap32 (s.(ReadyFailCount) + 1) else 0)%Z.
Proof.
  unfold EvalReadiness, is_failure, is_success. case_decide; case_bool_decide; try done; by case_match.
Qed.

Lemma evalHistory_counts probe s rs :
  s.(ReadySuccessCount) = 0%Z → s.(ReadyFailCount) = 0%Z → (Z.of_nat (length rs) < 2 ^ 31)%Z →
  (evalHistory probe s rs).(ReadySuccessCount) = streak is_success (reverse rs) ∧
  (evalHistory probe s rs).(ReadyFailCount) = streak is_failure (reverse rs).
Proof.
  intros H1 H2. induction rs as [|r rs IH] using rev_ind; intros Hl; [done|].
  rewrite length_app in Hl. cbn [length] in Hl. destruct IH as [IH1 IH2]; [lia|].
  rewrite evalHistory_snoc, reverse_snoc. cbn [streak].
  destruct (EvalReadiness_counts (evalHistory probe s rs) probe r) as [-> ->].
  rewrite IH1, IH2.
  pose proof (streak_bound is_success (reverse rs)) as B1.
  pose proof (streak_bound is_failure (reverse rs)) as B2. rewrite length_reverse in B1, B2.
  split; (case_match; [|done]); apply wrap32_id; unfold in_int32; lia.
Qed.

Lemma isDue_frame e s t p d :
  let s' := (isDue e s t p d).1 in
  s'.(StartedAt) = s.(StartedAt) ∧ s'.(StartupPassed) = s.(StartupPassed) ∧
  s'.(StartupFailCount) = s.(StartupFailCount) ∧ s'.(LiveFailCount) = s.(LiveFailCount) ∧
  s'.(Ready) = s.(Ready) ∧ s'.(ReadyFailCount) = s.(ReadyFailCount) ∧
  s'.(ReadySuccessCount) = s.(ReadySuccessCount).
Proof. unfold isDue. cbn. destruct (LastProbeTime s !! t); case_match; by split_and!. Qed.

Lemma EvalLiveness_ready s p r : Ready (EvalLiveness s p r).1 = Ready s.
Proof. unfold EvalLiveness. by case_decide. Qed.

Lemma EvalStartup_ready s p r : Ready (EvalStartup s p r).1 = Ready s.
Proof. unfold EvalStartup. by case_decide. Qed.

(** Without a readiness probe nothing makes a container ready. *)
Lemma runProbes_not_ready env c ps :
  c.(c_ReadinessProbe) = None → ps.(Ready) = false → Ready (runProbes env c ps).1 = false.
Proof.
  intros Hc Hr.
  assert (∀ ps, Ready ps = false → Ready (runProbes_liveness env c ps).1.1 = false) as Hlive.
  { intros ps' Hr'. unfold runProbes_liveness. destruct (c_LivenessProbe c) as [p|]; [|done].
    unfold due. pose proof (isDue_frame (env "liveness") ps' "liveness" (PeriodSeconds p) (InitialDelaySeconds p))
      as (_ & _ & _ & _ & Hf & _).
    destruct (isDue _ _ _ _ _) as [ps1 b]. cbn in Hf. destruct b; [|by rewrite <- Hr'].
    pose proof (EvalLiveness_ready (markProbed (env "liveness") ps1 "liveness") p (e_result (env "liveness"))) as He.
    destruct (EvalLiveness _ _ _) as [ps2 restart]. cbn in *. destruct restart; [done|]. cbn. congruence. }
  unfold runProbes. destruct (c_StartupProbe c) as [p|].
  - destruct (StartupPassed ps); cbn [negb].
    + specialize (Hlive ps Hr). destruct (runProbes_liveness env c ps) as [[ps1 out] stop].
      destruct stop; [done|]. unfold runProbes_readiness. by rewrite Hc.
    + unfold runProbes_startup, due.
      pose proof (isDue_frame (env "startup") ps "startup" (PeriodSeconds p) (InitialDelaySeconds p))
        as (_ & _ & _ & _ & Hf & _).
      destruct (isDue _ _ _ _ _) as [ps1 b]. cbn in Hf. destruct b; [|by rewrite <- Hr].
      pose proof (EvalStartup_ready (markProbed (env "startup") ps1 "startup") p (e_result (env "startup"))) as He.
      destruct (EvalStartup _ _ _) as [ps2 restart]. cbn in *. congruence.
  - specialize (Hlive ps Hr). destruct (runProbes_liveness env c ps) as [[ps1 out] stop].
    destruct stop; [done|]. unfold runProbes_readiness. by rewrite Hc.
Qed.

(** A container with a startup, a liveness and a readiness probe, and an
    environment in which every probe is due and has the same result. *)
Definition sampleProbed : Container :=
  {| zeroContainer with c_Name := "web"; c_StartupProbe := Some zeroProbe;
       c_LivenessProbe := Some zeroProbe; c_ReadinessProbe := Some zeroProbe |}.

Definition sampleEnv (r : ProbeResult) : string → ProbeEnv := λ _, {|
  e_rand := 4; e_seed := 0; e_sinceStart := 100 * Second; e_sinceLast := 100 * Second;
  e_mark := 100 * Second; e_reset := 100 * Second; e_result := r |}.

(** ** Properties *)

(** Readiness has hysteresis, exactly as the thresholds say: from fresh
    counters, after any history of results, one more success makes the
    container ready exactly when the streak of successes has reached the
    success threshold, one more failure makes it unready exactly when the
    streak of failures has reached the failure threshold, and otherwise the
    container stays what it was. *)
Theorem readiness_hysteresis probe s rs r :
  s.(ReadySuccessCount) = 0%Z → s.(ReadyFailCount) = 0%Z → (Z.of_nat (length rs) < 2 ^ 31 - 1)%Z →
  let before := (evalHistory probe s rs).(Ready) in
  let after := (evalHistory probe s (rs ++ [r])).(Ready) in
  after = if is_success r
          then before || (threshold probe.(SuccessThreshold) 1 <=? streak is_success (r :: reverse rs))%Z
          else before && negb (threshold probe.(FailureThreshold) 3 <=? streak is_failure (r :: reverse rs))%Z.
Proof.
  intros H1 H2 Hl. cbn zeta.
  destruct (evalHistory_counts probe s (rs ++ [r]) H1 H2) as [Hs Hf];
    [rewrite length_app; cbn; lia|].
  rewrite reverse_snoc in Hs, Hf. rewrite <- Hs, <- Hf. clear Hs Hf.
  rewrite evalHistory_snoc. unfold EvalReadiness, is_success. case_decide; case_bool_decide; try done.
  - cbn. destruct (_ <=? _)%Z eqn:E; cbn; rewrite E; [by rewrite orb_true_r|by rewrite orb_false_r].
  - cbn. destruct (_ <=? _)%Z eqn:E; cbn; rewrite E; [by rewrite andb_false_r|by rewrite andb_true_r].
Qed.

Lemma readiness_hysteresis_witness :
  (evalHistory zeroProbe (resetProbeState 0) ([ProbeFailure; ProbeUnknown] ++ [ProbeSuccess])).(Ready) = true.
Proof.
  rewrite (readiness_hysteresis zeroProbe (resetProbeState 0) [ProbeFailure; ProbeUnknown] ProbeSuccess);
    [reflexivity|reflexivity|reflexivity|cbn; lia].
Defined.

(** A failing liveness probe asks for a restart exactly from the failure
    that completes the threshold: after [k] failures in a row, the next one
    does so exactly when [k + 1] reaches it. *)
Theorem liveness_threshold probe s (k : nat) :
  s.(LiveFailCount) = 0%Z → (Z.of_nat k < 2 ^ 31 - 1)%Z →
  let after := Nat.iter k (λ s, (EvalLiveness s probe ProbeFailure).1) s in
  (EvalLiveness after probe ProbeFailure).2 = (threshold probe.(FailureThreshold) 3 <=? Z.of_nat k + 1)%Z.
Proof.
  intros H0 Hk. cbn zeta.
  set (f := λ s, (EvalLiveness s probe ProbeFailure).1).
  assert ((Nat.iter k f s).(LiveFailCount) = Z.of_nat k) as Hn.
  { induction k as [|k IH]; [done|]. change (Nat.iter (S k) f s) with (f (Nat.iter k f s)).
    unfold f at 1, EvalLiveness. cbn [fst LiveFailCount].
    rewrite decide_False by done. cbn [fst LiveFailCount].
    rewrite IH by lia. rewrite wrap32_id; unfold in_int32; lia. }
  unfold EvalLiveness. rewrite decide_False by done. cbn [snd LiveFailCount]. rewrite Hn. by rewrite wrap32_id by (unfold in_int32; lia).
Qed.

Lemma liveness_threshold_witness :
  (EvalLiveness (Nat.iter 2 (λ s, (EvalLiveness s zeroProbe ProbeFailure).1) (resetProbeState 0))
     zeroProbe ProbeFailure).2 = true.
Proof. apply (liveness_threshold zeroProbe (resetProbeState 0) 2); [reflexivity|lia]. Defined.

(** The schedule of a probe: the first one is due exactly from the initial
    delay plus a jitter of less than one period after the start of the
    container; and once probed at time [t], the next is due exactly from [t]
    plus one period, never before the initial delay has passed. *)
Theorem isDue_schedule e s t period delay now :
  s.(StartedAt) ≠ 0%Z → (0 ≤ delay)%Z → e.(e_sinceStart) = now → e.(e_sinceLast) = now →
  let p := effectivePeriod period in
  (0 ≤ Int63n e.(e_rand) p < p)%Z ∧
  (s.(LastProbeTime) !! t = None →
     (isDue e s t period delay).2
     = bool_decide (s.(StartedAt) + (delay + Int63n e.(e_rand) p) * Second ≤ now)%Z) ∧
  (∀ last, s.(LastProbeTime) !! t = Some last →
     (isDue e s t period delay).2
     = bool_decide (last + p * Second ≤ now ∧ s.(StartedAt) + delay * Second ≤ now
                    ∨ last + p * Second ≤ now ∧ delay = 0)%Z).
Proof.
  intros Hst Hd Hs Hl. cbn zeta.
  assert (0 < effectivePeriod period)%Z as Hp
    by (unfold effectivePeriod; destruct (Z.leb_spec period 0); lia).
  assert (0 ≤ Int63n e.(e_rand) (effectivePeriod period) < effectivePeriod period)%Z as Hj
    by (apply Z.mod_pos_bound; lia).
  assert (IsZero (StartedAt s) = false) as Hz by by apply bool_decide_eq_false_2.
  split; [done|]. unfold isDue. rewrite Hs, Hl.
  split; [intros Hn|intros last Hn]; rewrite Hn; cbn [StartedAt LastProbeTime]; rewrite Hz; cbn [negb];
    rewrite ?lookup_insert_eq, ?Hn; cbn [default]; rewrite andb_true_r.
  all: destruct (Z.ltb_spec 0 delay); cbn [andb];
      [destruct (Z.ltb_spec (now - StartedAt s) (delay * Second)); cbn [snd]|cbn [snd]];
      unfold id, Second in *;
      match goal with
      | |- false = _ => symmetry; apply bool_decide_eq_false_2; lia
      | |- (?a <=? ?b)%Z = _ => destruct (Z.leb_spec a b); symmetry;
          [apply bool_decide_eq_true_2|apply bool_decide_eq_false_2]; lia
      end.
Qed.

Lemma isDue_schedule_witness :
  (isDue (sampleEnv ProbeSuccess "startup") (resetProbeState (50 * Second)) "startup" 0 30).2 = true.
Proof.
  destruct (isDue_schedule (sampleEnv ProbeSuccess "startup") (resetProbeState (50 * Second)) "startup" 0 30
    (100 * Second)) as (_ & H & _); [discriminate|lia|reflexivity|reflexivity|].
  rewrite H; [reflexivity|apply lookup_empty].
Defined.

(** C40: The ProbeScheduler and the poll of the BatchWatcher evaluate the
    probes of a container in the same way: from the same state and with the
    same results they leave the same state. *)
Theorem scheduler_agrees env uid c ps :
  (probeContainer env uid c ps).1 = (runProbes env c ps).1.
Proof.
  assert (∀ ps, (probeContainer_liveness env uid c ps).1.1 = (runProbes_liveness env c ps).1.1 ∧
    (probeContainer_liveness env uid c ps).2 = (runProbes_liveness env c ps).2) as Hl.
  { intros ps'. unfold probeContainer_liveness, runProbes_liveness. destruct (c_LivenessProbe c); [|done].
    destruct (due _ _ _ _) as [ps1 [|]]; [|done]. by destruct (EvalLiveness _ _ _). }
  assert (∀ ps, (probeContainer_readiness env uid c ps).1 = (runProbes_readiness env c ps).1) as Hr.
  { intros ps'. unfold probeContainer_readiness, runProbes_readiness. destruct (c_ReadinessProbe c); [|done].
    by destruct (due _ _ _ _) as [ps1 [|]]. }
  assert (∀ ps p, (probeContainer_startup env uid c ps p).1 = (runProbes_startup env c ps p).1) as Hs.
  { intros ps' p. unfold probeContainer_startup, runProbes_startup.
    destruct (due _ _ _ _) as [ps1 [|]]; [|done]. by destruct (EvalStartup _ _ _). }
  unfold probeContainer, runProbes. destruct (Hl ps) as [H1 H2].
  destruct (probeContainer_liveness env uid c ps) as [[ps1 o1] b1].
  destruct (runProbes_liveness env c ps) as [[ps2 o2] b2]. cbn in H1, H2. subst.
  specialize (Hr ps2). destruct (probeContainer_readiness env uid c ps2), (runProbes_readiness env c ps2).
  cbn in Hr. subst. repeat case_match; done || apply Hs.
Qed.

(** The probe type of a fact. *)
Definition fact_probe (o : ProbeOut) : option string :=
  match o with OutFact (ProbeFact _ _ t _ _ _ _ _) => Some t | _ => None end.

(** A startup probe gates the others: until it has passed, no run of the
    probes changes the readiness or the liveness count of the container or
    reports a liveness or readiness result. *)
Theorem startup_gates env uid c ps p :
  c.(c_StartupProbe) = Some p → ps.(StartupPassed) = false →
  let r := probeContainer env uid c ps in
  r.1.(Ready) = ps.(Ready) ∧ r.1.(ReadyFailCount) = ps.(ReadyFailCount) ∧
  r.1.(ReadySuccessCount) = ps.(ReadySuccessCount) ∧ r.1.(LiveFailCount) = ps.(LiveFailCount) ∧
  Forall (λ o, fact_probe o = Some "startup") r.2.
Proof.
  intros Hc Hp. cbn zeta. unfold probeContainer. rewrite Hc, Hp. cbn [negb].
  unfold probeContainer_startup, due.
  pose proof (isDue_frame (env "startup") ps "startup" (PeriodSeconds p) (InitialDelaySeconds p))
    as (_ & _ & _ & H1 & H2 & H3 & H4).
  destruct (isDue _ _ _ _ _) as [ps1 b]. cbn in H1, H2, H3, H4. destruct b; [|by split_and!].
  unfold EvalStartup. case_decide; cbn; split_and!; try done; by repeat constructor.
Qed.

Lemma startup_gates_witness :
  let r := probeContainer (sampleEnv ProbeFailure) "u1" sampleProbed (resetProbeState Second) in
  Forall (λ o, fact_probe o = Some "startup") r.2 ∧ length r.2 = 1.
Proof.
  cbn zeta. split; [|reflexivity].
  apply (startup_gates (sampleEnv ProbeFailure) "u1" sampleProbed (resetProbeState Second) zeroProbe); reflexivity.
Defined.

(** ** A behaviour that differs from what the code means to do *)

(** A container with a liveness probe and no readiness probe starts ready;
    [ResetProbeState], which a liveness restart calls, stores it as not ready,
    and after that no sequence of probe runs makes it ready again. *)
Theorem liveness_restart_unready :
  let c := {| zeroContainer with c_Name := "web"; c_LivenessProbe := Some zeroProbe |} in
  let crash := Nat.iter 3 (λ ps, (runProbes (sampleEnv ProbeFailure) c {| ps with LastProbeTime := ∅ |}).1)
                 (initProbeState 1 false) in
  (initProbeState 1 false).(Ready) = true ∧ crash = resetProbeState (100 * Second) ∧
  ∀ envs, (foldl (λ ps env, (runProbes env c ps).1) crash envs).(Ready) = false.
Proof.
  cbn zeta. split; [done|]. split; [vm_compute; done|]. intros envs.
  set (crash := Nat.iter _ _ _). assert (crash.(Ready) = false) as Hr by (vm_compute; done).
  clearbody crash. revert crash Hr. induction envs as [|env envs IH]; intros ps Hr; [done|].
  cbn [foldl]. apply IH. by apply runProbes_not_ready.
Qed.
