(* ===== verification/PodStore.v ===== *)
(** * The pod store (node/podstore.go)

    The registry of the pods of a node: per-pod state, the name index, the
    list of recently deleted pods, and the atomic counters of requested
    resources and deletions that admission and the reconciler read without a
    lock.  Each method is one atomic step of a caller; in the code some
    methods change a counter or trigger a snapshot just after the lock is
    released, and a reader in between, who sees the new pod with the old
    counter, is not in the model.  A method that reads
    the clock takes the reading; [psi.Read] and the iteration order of Go
    maps are arguments.  The pod pointer of an entry is never nil: every
    registration stores the pod it is given. *)
From Stdlib Require Import QArith.
From S2P Require Import Prelude Corev1 Float64 Types Probes.

#[local] Open Scope nat_scope.

Definition completedTTL : Duration := 24 * Hour.
Definition restartBackoffInit : Duration := 10 * Second.

Record completedEntry := { ce_uid : string; ce_deletedAt : Time }.

Record containerRestartState := {
  count : Z;
  backoff : Duration;
  lastStarted : Time;
}.

(** [pst_inFlight] is the identity of the creation handle. *)
Record podState := {
  pst_pod : Pod;
  pst_ip : string;
  pst_phase : PodPhase;
  pst_hydrated : bool;
  pst_inFlight : option nat;
  pst_deleting : bool;
  pst_restarts : gmap string containerRestartState;
  pst_probes : option (gmap string ContainerProbeState);
}.

Record PodSnapshot := {
  sn_Name : string;
  sn_Namespace : string;
  sn_UID : string;
  sn_IP : string;
  sn_Phase : PodPhase;
  sn_Containers : nat;
}.

Record PodStore := {
  pods : gmap string podState;
  nameIndex : gmap string string;
  completed : gmap string completedEntry;
  usedCPU : Z;
  usedMem : Z;
  deletingCount : Z;
  triggerCh : bool;
  roSnap : option (list PodSnapshot);
}.

Definition NewPodStore : PodStore := {|
  pods := ∅; nameIndex := ∅; completed := ∅; usedCPU := 0; usedMem := 0; deletingCount := 0;
  triggerCh := false; roSnap := None |}.

Definition podKey (namespace name : string) : string := namespace +:+ "/" +:+ name.
Definition pod_key (pod : Pod) : string := podKey pod.(p_Namespace) pod.(p_Name).

(** ** Helpers *)

Definition request (c : Container) (res : string) : option Quantity :=
  c.(c_Resources).(Requests) ≫= λ m, m !! res.

(** [podResources], the loop over the containers. *)
Definition podResources (pod : Pod) : Z * Z :=
  foldl (λ '(cpuMillis, memBytes) c,
    (match request c "cpu" with Some q => wrap64 (cpuMillis + q.(MilliValue)) | None => cpuMillis end,
     match request c "memory" with Some q => wrap64 (memBytes + q.(Value)) | None => memBytes end))
    (0%Z, 0%Z) pod.(p_Containers).

Definition podCPU (pod : Pod) : Z := (podResources pod).1.
Definition podMem (pod : Pod) : Z := (podResources pod).2.

Definition triggerSnapshot (s : PodStore) : PodStore := {| s with triggerCh := true |}.

Definition getPodState (s : PodStore) (uid : string) : option podState := s.(pods) !! uid.

(** [if ps := s.getPodState(uid); ps != nil { ... }] with a write to [ps]. *)
Definition modify (s : PodStore) (uid : string) (f : podState → podState) : PodStore :=
  match s.(pods) !! uid with
  | Some ps => {| s with pods := <[uid := f ps]> s.(pods) |}
  | None => s
  end.

Definition addUsed (s : PodStore) (cpu mem : Z) : PodStore :=
  {| s with usedCPU := wrap64 (s.(usedCPU) + cpu); usedMem := wrap64 (s.(usedMem) + mem) |}.

(** One pass of [runSnapshotAggregator], over the entries in the order in
    which the map is ranged over. *)
Definition buildSnapshot (entries : list (string * podState)) : list PodSnapshot :=
  omap (λ '(uid, ps),
    if negb ps.(pst_hydrated) then
      Some {| sn_Name := ps.(pst_pod).(p_Name); sn_Namespace := ps.(pst_pod).(p_Namespace);
              sn_UID := uid; sn_IP := ps.(pst_ip); sn_Phase := ps.(pst_phase);
              sn_Containers := length ps.(pst_pod).(p_Containers) |}
    else None) entries.

Definition runSnapshotAggregator (s : PodStore) (entries : list (string * podState)) : PodStore :=
  if s.(triggerCh) then {| s with triggerCh := false; roSnap := Some (buildSnapshot entries) |} else s.

(** The map [existing] of [syncSlice]: the last index of each name. *)
Definition existingIndex (status : list ContainerStatus) : gmap string nat :=
  foldl (λ m '(i, cs), <[cs.(cs_Name) := i]> m) ∅ (imap pair status).

Definition syncSlice (spec : list Container) (status : list ContainerStatus) : list ContainerStatus :=
  match spec with
  | [] => status
  | _ =>
      let existing := existingIndex status in
      let needsSync := existsb (λ c, match existing !! c.(c_Name) with Some _ => false | None => true end) spec in
      if negb needsSync then status
      else
        map (λ c,
          match existing !! c.(c_Name) ≫= λ idx, status !! idx with
          | Some cs => cs
          | None => {| cs_Name := c.(c_Name); cs_State := zeroContainerState; cs_Ready := false;
                       cs_RestartCount := 0; cs_Image := "" |}
          end) spec
  end.

Definition syncStatusToSpec (pod : Pod) : Pod :=
  let st := pod.(p_Status) in
  {| pod with p_Status :=
     {| st with ps_ContainerStatuses := syncSlice pod.(p_Containers) st.(ps_ContainerStatuses);
                ps_InitContainerStatuses :=
                  syncSlice pod.(p_InitContainers) st.(ps_InitContainerStatuses) |} |}.

(** ** Queries *)

Definition IsInFlight (s : PodStore) (uid : string) : bool :=
  match getPodState s uid with
  | Some ps => match ps.(pst_inFlight) with Some _ => true | None => false end
  | None => false
  end.

Definition HasPod (s : PodStore) (uid : string) : bool :=
  match getPodState s uid with Some _ => true | None => false end.

Definition PodUIDs (s : PodStore) : gmap string string := (λ ps, pod_key ps.(pst_pod)) <$> s.(pods).

Definition PodCount (s : PodStore) : nat := size s.(pods).

Definition PodIP (s : PodStore) (uid : string) : string :=
  match getPodState s uid with Some ps => ps.(pst_ip) | None => "" end.

Definition PodPhase_of (s : PodStore) (uid : string) : PodPhase :=
  match getPodState s uid with Some ps => ps.(pst_phase) | None => PhaseZero end.

Definition DeletionsInProgress (s : PodStore) : bool := (0 <? s.(deletingCount))%Z.

Definition IsDeleting (s : PodStore) (uid : string) : bool :=
  match getPodState s uid with Some ps => ps.(pst_deleting) | None => false end.

Definition probe_of (ps : podState) (containerName : string) : option ContainerProbeState :=
  ps.(pst_probes) ≫= λ m, m !! containerName.

Definition IsContainerReady (s : PodStore) (uid containerName : string) : bool :=
  match getPodState s uid ≫= λ ps, probe_of ps containerName with
  | Some probe => probe.(Ready)
  | None => true
  end.

Definition ProbeState (s : PodStore) (uid containerName : string) : option ContainerProbeState :=
  getPodState s uid ≫= λ ps, probe_of ps containerName.

Definition RestartState (s : PodStore) (uid containerName : string) : option containerRestartState :=
  getPodState s uid ≫= λ ps, ps.(pst_restarts) !! containerName.

Definition RestartCounts (s : PodStore) (uid : string) : option (gmap string Z) :=
  ps ← getPodState s uid;
  if bool_decide (ps.(pst_restarts) = ∅) then None else Some (count <$> ps.(pst_restarts)).

Definition RestartBackoffs (s : PodStore) (uid : string) : option (gmap string float64) :=
  ps ← getPodState s uid;
  if bool_decide (ps.(pst_restarts) = ∅) then None else Some ((λ rs, Seconds rs.(backoff)) <$> ps.(pst_restarts)).

(** The creation goroutine to cancel and wait for. *)
Definition CancelInFlight (s : PodStore) (uid : string) : option nat := getPodState s uid ≫= pst_inFlight.

Definition ContainerStartedAt (s : PodStore) (uid containerName : string) : Time :=
  match RestartState s uid containerName with
  | Some rs => if negb (IsZero rs.(lastStarted)) then rs.(lastStarted) else 0
  | None => 0
  end.

Definition HydratedUIDs (s : PodStore) : gset string :=
  dom (filter (λ kv, kv.2.(pst_hydrated) = true) s.(pods)).

Definition ActiveUIDs (s : PodStore) : gset string := dom s.(pods).

Definition GetPod (s : PodStore) (namespace name : string) : option Pod :=
  uid ← s.(nameIndex) !! podKey namespace name;
  ps ← getPodState s uid;
  Some ps.(pst_pod).

Definition GetPodCopy (s : PodStore) (uid : string) : option Pod :=
  ps ← getPodState s uid; Some ps.(pst_pod).

Definition FindPodUID (s : PodStore) (namespace podName : string) : option string :=
  s.(nameIndex) !! podKey namespace podName.

Definition CompletedPodUID (s : PodStore) (namespace name : string) : string :=
  match s.(completed) !! podKey namespace name with Some e => e.(ce_uid) | None => "" end.

Definition LoadSnapshot (s : PodStore) : list PodSnapshot := default [] s.(roSnap).

Definition SnapshotPods (s : PodStore) : list PodSnapshot := LoadSnapshot s.

Definition AlreadyInFlight (s : PodStore) (uid : string) : bool := IsInFlight s uid.

(** The lists that range over the map: in some order. *)
Definition GetPods (s : PodStore) : list Pod := map (λ kv, kv.2.(pst_pod)) (map_to_list s.(pods)).

Record PodEntry := { pe_UID : string; pe_Pod : Pod; pe_Phase : PodPhase; pe_PodIP : string }.

Definition Snapshot (s : PodStore) : list PodEntry :=
  map (λ '(uid, ps), {| pe_UID := uid; pe_Pod := ps.(pst_pod); pe_Phase := ps.(pst_phase); pe_PodIP := ps.(pst_ip) |})
    (map_to_list s.(pods)).

(** ** Registration *)

(** The entry that [RegisterPending] and [RegisterHydrated] store. *)
Definition newPodState (pod : Pod) (ip : string) (phase : PodPhase) (hydrated : bool)
    (handle : option nat) : podState := {|
  pst_pod := pod; pst_ip := ip; pst_phase := phase; pst_hydrated := hydrated; pst_inFlight := handle;
  pst_deleting := false; pst_restarts := ∅; pst_probes := None |}.

Definition register (s : PodStore) (uid : string) (ps : podState) : PodStore :=
  {| s with pods := <[uid := ps]> s.(pods); nameIndex := <[pod_key ps.(pst_pod) := uid]> s.(nameIndex) |}.

Definition RegisterPending (s : PodStore) (uid : string) (pod : Pod) (handle : nat) : PodStore :=
  let s := register s uid (newPodState pod "" PodPending false (Some handle)) in
  triggerSnapshot (addUsed s (podCPU pod) (podMem pod)).

Definition RegisterHydrated (s : PodStore) (uid : string) (pod : Pod) (ip : string) : PodStore :=
  let s := register s uid (newPodState pod ip PodRunning true None) in
  triggerSnapshot (addUsed s (podCPU pod) (podMem pod)).

Record hydratedEntry := { he_uid : string; he_pod : Pod; he_ip : string }.

Fixpoint RegisterHydratedBatch_loop (s : PodStore) (entries : list hydratedEntry) (cpu mem : Z)
    : PodStore * Z * Z :=
  match entries with
  | [] => (s, cpu, mem)
  | e :: entries =>
      RegisterHydratedBatch_loop
        (register s e.(he_uid) (newPodState e.(he_pod) e.(he_ip) PodRunning true None)) entries
        (wrap64 (cpu + podCPU e.(he_pod))) (wrap64 (mem + podMem e.(he_pod)))
  end.

Definition RegisterHydratedBatch (s : PodStore) (entries : list hydratedEntry) : PodStore :=
  let '(s, totalCPU, totalMem) := RegisterHydratedBatch_loop s entries 0 0 in
  triggerSnapshot (addUsed s totalCPU totalMem).

(** The store, and the results [exists] and [wasStub]. *)
Definition AlreadyRunning (s : PodStore) (uid : string) (pod : Pod) : PodStore * (bool * bool) :=
  match getPodState s uid with
  | None => (s, (false, false))
  | Some ps =>
      let wasStub := bool_decide (length ps.(pst_pod).(p_Containers) = 0) in
      let '(s, ps) :=
        if wasStub then (addUsed s (podCPU pod) (podMem pod), {| ps with pst_pod := pod |}) else (s, ps) in
      (triggerSnapshot {| s with pods := <[uid := {| ps with pst_hydrated := false |}]> s.(pods) |},
       (true, wasStub))
  end.

Definition PromoteRunning (s : PodStore) (uid : string) (pod : Pod) (ip : string) : PodStore :=
  match getPodState s uid with
  | None => s
  | Some _ =>
      triggerSnapshot (modify s uid (λ ps, {| ps with pst_pod := pod; pst_ip := ip;
        pst_phase := PodRunning; pst_inFlight := None |}))
  end.

(** ** Removal *)

Definition unindex (s : PodStore) (uid key : string) : PodStore :=
  {| s with pods := delete uid s.(pods); nameIndex := delete key s.(nameIndex) |}.

Definition EvictGhost (s : PodStore) (uid : string) : PodStore :=
  match s.(pods) !! uid with
  | None => s
  | Some ps =>
      let s := unindex s uid (pod_key ps.(pst_pod)) in
      triggerSnapshot (addUsed s (- podCPU ps.(pst_pod)) (- podMem ps.(pst_pod)))
  end.

Definition expireCompleted (now : Time) (m : gmap string completedEntry) : gmap string completedEntry :=
  filter (λ kv, (now - completedTTL ≤ kv.2.(ce_deletedAt))%Z) m.

(** [deletedAt] and [cutoff] are the two readings of the clock. *)
Definition Unregister (deletedAt cutoff : Time) (s : PodStore) (uid namespace name : string) : PodStore :=
  let found := s.(pods) !! uid in
  let s := match found with Some _ => unindex s uid (podKey namespace name) | None => s end in
  let s := {| s with completed := expireCompleted cutoff
              (<[podKey namespace name := {| ce_uid := uid; ce_deletedAt := deletedAt |}]> s.(completed)) |} in
  match found with
  | None => s
  | Some ps =>
      let s := addUsed s (- podCPU ps.(pst_pod)) (- podMem ps.(pst_pod)) in
      let s := if ps.(pst_deleting) then {| s with deletingCount := wrap32 (s.(deletingCount) - 1) |} else s in
      triggerSnapshot s
  end.

Fixpoint PurgeHydrated_loop (s : PodStore) (staleUIDs : list string) (cpu mem : Z) : PodStore * Z * Z :=
  match staleUIDs with
  | [] => (s, cpu, mem)
  | uid :: rest =>
      match s.(pods) !! uid with
      | Some ps =>
          PurgeHydrated_loop (unindex s uid (pod_key ps.(pst_pod))) rest
            (wrap64 (cpu + podCPU ps.(pst_pod))) (wrap64 (mem + podMem ps.(pst_pod)))
      | None => PurgeHydrated_loop s rest cpu mem
      end
  end.

Definition PurgeHydrated (s : PodStore) (staleUIDs : list string) : PodStore :=
  let '(s, subCPU, subMem) := PurgeHydrated_loop s staleUIDs 0 0 in
  triggerSnapshot (addUsed s (- subCPU) (- subMem)).

(** ** Updates of one pod *)

(** [triggerSnapshot] is called only when the pod is known. *)
Definition modifyAndTrigger (s : PodStore) (uid : string) (f : podState → podState) : PodStore :=
  match getPodState s uid with Some _ => triggerSnapshot (modify s uid f) | None => s end.

Definition MarkDeleting (s : PodStore) (uid : string) : PodStore :=
  match getPodState s uid with
  | Some ps =>
      if negb ps.(pst_deleting)
      then modify {| s with deletingCount := wrap32 (s.(deletingCount) + 1) |} uid
             (λ ps, {| ps with pst_deleting := true |})
      else s
  | None => s
  end.

Definition SetPodIP (s : PodStore) (uid ip : string) : PodStore :=
  modifyAndTrigger s uid (λ ps, {| ps with pst_ip := ip |}).

Definition setPhase (ps : podState) (phase : PodPhase) : podState :=
  {| ps with pst_phase := phase;
             pst_pod := {| ps.(pst_pod) with p_Status := {| ps.(pst_pod).(p_Status) with ps_Phase := phase |} |} |}.

Definition SetPhase (s : PodStore) (uid : string) (phase : PodPhase) : PodStore :=
  modifyAndTrigger s uid (λ ps, setPhase ps phase).

Definition SetPodStatus (s : PodStore) (uid : string) (status : PodStatus) : PodStore :=
  modifyAndTrigger s uid (λ ps,
    let ps := setPhase ps status.(ps_Phase) in
    {| ps with pst_pod := {| ps.(pst_pod) with p_Status := status |} |}).

(** The timestamps that [SetContainerState] fills in. *)
Definition enrichState (now : Time) (rs : option containerRestartState) (state : ContainerState) : ContainerState :=
  match rs with
  | Some rs =>
      if negb (IsZero rs.(lastStarted)) then
        {| state with
           Running := (λ r, if IsZero r.(r_StartedAt) then {| r_StartedAt := rs.(lastStarted) |} else r)
                        <$> state.(Running);
           Terminated := (λ t,
             let t := if IsZero t.(t_StartedAt) then {| t with t_StartedAt := rs.(lastStarted) |} else t in
             if IsZero t.(t_FinishedAt) then {| t with t_FinishedAt := now |} else t) <$> state.(Terminated) |}
      else state
  | None => state
  end.

(** The local [updated]: writes the first status of that name. *)
Definition updateStatus (statuses : list ContainerStatus) (name : string) (state : ContainerState) (ready : bool)
    : option (list ContainerStatus) :=
  i ← find_index (λ cs, bool_decide (cs.(cs_Name) = name)) statuses;
  cs ← statuses !! i;
  Some (<[i := {| cs with cs_State := state; cs_Ready := ready |}]> statuses).

(** The pod after the locked part, and [changed]. *)
Definition setContainerState (pod : Pod) (name : string) (state : ContainerState) (ready : bool) : Pod * bool :=
  let pod := syncStatusToSpec pod in
  let st := pod.(p_Status) in
  match updateStatus st.(ps_ContainerStatuses) name state ready with
  | Some l => ({| pod with p_Status := {| st with ps_ContainerStatuses := l |} |}, true)
  | None =>
      match updateStatus st.(ps_InitContainerStatuses) name state ready with
      | Some l => ({| pod with p_Status := {| st with ps_InitContainerStatuses := l |} |}, true)
      | None => (pod, false)
      end
  end.

Definition SetContainerState (now : Time) (s : PodStore) (uid name : string) (state : ContainerState) (ready : bool)
    : PodStore :=
  match getPodState s uid with
  | None => s
  | Some ps =>
      let state := enrichState now (ps.(pst_restarts) !! name) state in
      let '(pod, changed) := setContainerState ps.(pst_pod) name state ready in
      let s := modify s uid (λ ps, {| ps with pst_pod := pod |}) in
      if changed then triggerSnapshot s else s
  end.

Definition MarkFailed (s : PodStore) (uid : string) (pod : Pod) (reason message : string) : PodStore * Pod :=
  let failedPod := {| pod with p_Status := {| pod.(p_Status) with
    ps_Phase := PodFailed; ps_Reason := reason; ps_Message := message |} |} in
  (modifyAndTrigger s uid (λ ps, {| ps with pst_pod := failedPod; pst_phase := PodFailed |}), failedPod).

Definition ClearHydrated (s : PodStore) (uid : string) : PodStore :=
  modifyAndTrigger s uid (λ ps, {| ps with pst_hydrated := false |}).

(** ** Restart and probe state *)

(** The maps built by [InitRestartState] from names and readiness probes; the
    [i]-th container reads the clock twice. *)
Definition initRestartMaps (clk : nat → Time) (containers : list (string * bool))
    : gmap string containerRestartState * gmap string ContainerProbeState :=
  foldl (λ '(rs, probes) '(i, (name, hasReadiness)),
    (<[name := {| count := 0; backoff := restartBackoffInit; lastStarted := clk (2 * i) |}]> rs,
     <[name := initProbeState (clk (2 * i + 1)) hasReadiness]> probes))
    (∅, ∅) (imap pair containers).

Definition InitRestartState (clk : nat → Time) (s : PodStore) (pod : Pod) : PodStore :=
  let '(rs, probes) := initRestartMaps clk
    (map (λ c, (c.(c_Name), match c.(c_ReadinessProbe) with Some _ => true | None => false end)) pod.(p_Containers)) in
  modify s pod.(p_UID) (λ ps, {| ps with pst_restarts := rs; pst_probes := Some probes |}).

Definition InitRestartStateFrom (clk : nat → Time) (s : PodStore) (uid namespace name : string)
    (containers : list ContainerInitPayload) : PodStore :=
  let '(rs, probes) := initRestartMaps clk
    (map (λ c, (c.(ci_Name), c.(ci_HasReadinessProbe))) containers) in
  modify s uid (λ ps, {| ps with pst_restarts := rs; pst_probes := Some probes |}).

(** A write to an existing restart state. *)
Definition modifyRestart (s : PodStore) (uid name : string) (f : containerRestartState → containerRestartState)
    : PodStore :=
  modify s uid (λ ps, match ps.(pst_restarts) !! name with
                      | Some rs => {| ps with pst_restarts := <[name := f rs]> ps.(pst_restarts) |}
                      | None => ps
                      end).

Definition UpdateProbeState (s : PodStore) (uid name : string) (fn : ContainerProbeState → ContainerProbeState)
    : PodStore :=
  modify s uid (λ ps, match probe_of ps name with
                      | Some st => {| ps with pst_probes := <[name := fn st]> <$> ps.(pst_probes) |}
                      | None => ps
                      end).

Definition ResetProbeState (now : Time) (s : PodStore) (uid name : string) : PodStore :=
  modify s uid (λ ps, {| ps with pst_probes := <[name := resetProbeState now]> <$> ps.(pst_probes) |}).

Definition IncrementRestart (now : Time) (s : PodStore) (uid name : string) : PodStore :=
  modifyRestart s uid name (λ rs, {| rs with count := wrap32 (rs.(count) + 1); lastStarted := now |}).

Definition PatchRestartCount (s : PodStore) (uid name : string) (n : Z) : PodStore :=
  modifyRestart s uid name (λ rs, {| rs with count := n |}).

Definition PatchBackoff (s : PodStore) (uid name : string) (backoffSec : float64) : PodStore :=
  modifyRestart s uid name (λ rs, {| rs with backoff := Duration_of_seconds backoffSec |}).

Definition bump (rs : containerRestartState) : containerRestartState :=
  let b := wrap64 (rs.(backoff) * 2) in
  {| rs with count := wrap32 (rs.(count) + 1);
             backoff := if (5 * Minute <? b)%Z then 5 * Minute else b |}.

Definition BumpBackoff (s : PodStore) (uid name : string) : PodStore * (Z * Duration) :=
  match RestartState s uid name with
  | Some rs => (modifyRestart s uid name bump, (wrap32 (rs.(count) + 1), rs.(backoff)))
  | None => (s, (0%Z, 0%Z))
  end.

Definition MarkRestarted (now : Time) (s : PodStore) (uid name : string) : PodStore :=
  modifyRestart s uid name (λ rs, {| rs with lastStarted := now |}).

Definition ResetBackoff (s : PodStore) (uid name : string) : PodStore :=
  modifyRestart s uid name (λ rs, {| rs with backoff := restartBackoffInit |}).

(** ** Admission *)

(** The reasons of [AdmitPod], with the numbers of its messages; [AdmitOK]
    is the empty string. *)
Inductive AdmitResult :=
  | AdmitOK
  | CPUPressure
  | MemoryPressure
  | InsufficientCPU (requested used capacity : Z)
  | InsufficientMemory (requested used capacity : Z).

Definition psiCPUThreshold : Q := 70.
Definition psiMemoryThreshold : Q := 15.

(** [hp] is the avg10 of the CPU and memory pressure that [psi.Read] returned,
    [None] when it failed. *)
Definition AdmitPod (hp : option (Q * Q)) (s : PodStore) (pod : Pod) (nodeCPU nodeMem : Quantity) : AdmitResult :=
  let cont :=
    let cpu := podCPU pod in
    let mem := podMem pod in
    if (cpu =? 0)%Z && (mem =? 0)%Z then AdmitOK
    else
      let cpuCap := nodeCPU.(MilliValue) in
      let memCap := nodeMem.(Value) in
      if (0 <? cpuCap)%Z && (cpuCap <? wrap64 (s.(usedCPU) + cpu))%Z
      then InsufficientCPU cpu s.(usedCPU) cpuCap
      else if (0 <? memCap)%Z && (memCap <? wrap64 (s.(usedMem) + mem))%Z
      then InsufficientMemory mem s.(usedMem) memCap
      else AdmitOK in
  match hp with
  | Some (cpuAvg, memAvg) =>
      if negb (Qle_bool cpuAvg psiCPUThreshold) then CPUPressure
      else if negb (Qle_bool memAvg psiMemoryThreshold) then MemoryPressure
      else cont
  | None => cont
  end.

Definition ComputeAllocatable (s : PodStore) (capacity : ResourceList) : ResourceList :=
  let alloc := capacity in
  let alloc :=
    if (0 <? s.(usedCPU))%Z then
      let cap := MilliValue (default zeroQuantity (capacity !! "cpu")) in
      <["cpu" := NewMilliQuantity (if (s.(usedCPU) <? cap)%Z then wrap64 (cap - s.(usedCPU)) else 0)]> alloc
    else alloc in
  if (0 <? s.(usedMem))%Z then
    let cap := Value (default zeroQuantity (capacity !! "memory")) in
    <["memory" := NewQuantity (if (s.(usedMem) <? cap)%Z then wrap64 (cap - s.(usedMem)) else 0)]> alloc
  else alloc.

(** ** Invariant *)

Definition ps_cpu (ps : podState) : Z := podCPU ps.(pst_pod).
Definition ps_mem (ps : podState) : Z := podMem ps.(pst_pod).
Definition ps_del (ps : podState) : Z := if ps.(pst_deleting) then 1 else 0.
Definition ps_key (ps : podState) : string := pod_key ps.(pst_pod).

(** The counters hold the totals of the registered pods, short of what a
    running loop has yet to add, and the name index is the inverse of the
    registry. *)
Record store_ok_pending (s : PodStore) (cpu mem : Z) : Prop := {
  so_cpu : wrap64 (s.(usedCPU) + cpu) = wrap64 (map_sum ps_cpu s.(pods));
  so_mem : wrap64 (s.(usedMem) + mem) = wrap64 (map_sum ps_mem s.(pods));
  so_del : s.(deletingCount) = wrap32 (map_sum ps_del s.(pods));
  so_name : ∀ k uid, s.(nameIndex) !! k = Some uid ↔ ∃ ps, s.(pods) !! uid = Some ps ∧ ps_key ps = k;
}.

Definition store_ok (s : PodStore) : Prop :=
  in_int64 s.(usedCPU) ∧ in_int64 s.(usedMem) ∧ store_ok_pending s 0 0.

Lemma store_ok_New : store_ok NewPodStore.
Proof.
  split_and!; [by unfold in_int64; cbn; lia..|]. split; cbn; rewrite ?map_sum_empty; try done.
  intros k uid. rewrite lookup_empty. split; [done|]. intros (ps & Hps & _). by rewrite lookup_empty in Hps.
Qed.

Lemma store_ok_done s cpu mem : store_ok_pending s cpu mem → store_ok (addUsed s cpu mem).
Proof.
  intros []. split_and!; [apply wrap64_range..|]. split; cbn; try done;
    rewrite Z.add_0_r; [rewrite <- so_cpu0|rewrite <- so_mem0]; apply wrap64_id, wrap64_range.
Qed.

Lemma store_ok_trigger s : store_ok s → store_ok (triggerSnapshot s).
Proof. intros (? & ? & []). by split_and!. Qed.

(** Pods and name index after a pod joins. *)
Lemma pending_register s uid ps cpu mem :
  store_ok_pending s cpu mem → s.(pods) !! uid = None → s.(nameIndex) !! ps_key ps = None →
  ps.(pst_deleting) = false →
  store_ok_pending (register s uid ps) (wrap64 (cpu + ps_cpu ps)) (wrap64 (mem + ps_mem ps)).
Proof.
  intros [] Hu Hn Hd. split; cbn; rewrite ?map_sum_insert_new by done.
  - rewrite wrap64_add_r, Z.add_assoc. rewrite <- (wrap64_add_l (usedCPU s + cpu)), so_cpu0.
    rewrite wrap64_add_l. f_equal. lia.
  - rewrite wrap64_add_r, Z.add_assoc. rewrite <- (wrap64_add_l (usedMem s + mem)), so_mem0.
    rewrite wrap64_add_l. f_equal. lia.
  - unfold ps_del at 1. rewrite Hd. by rewrite Z.add_0_l.
  - intros k u. fold (ps_key ps). destruct (decide (k = ps_key ps)) as [->|Hk].
    + rewrite lookup_insert_eq. split.
      * intros [= <-]. exists ps. by rewrite lookup_insert_eq.
      * intros (ps' & Hps & Hkey). apply lookup_insert_Some in Hps as [[-> _]|[_ Hps]]; [done|].
        assert (s.(nameIndex) !! ps_key ps = Some u) by (apply so_name0; eauto). congruence.
    + rewrite lookup_insert_ne by done. rewrite so_name0. split; intros (ps' & Hps & Hkey); exists ps'.
      * rewrite lookup_insert_ne; [done|]. by intros ->; rewrite Hu in Hps.
      * apply lookup_insert_Some in Hps as [[-> ->]|[_ Hps]]; [done|]. done.
Qed.

(** Pods and name index after a pod leaves. *)
Lemma pending_unindex s uid ps cpu mem n :
  store_ok_pending s cpu mem → s.(pods) !! uid = Some ps →
  n = wrap32 (s.(deletingCount) - ps_del ps) →
  store_ok_pending {| (unindex s uid (ps_key ps)) with deletingCount := n |}
    (wrap64 (cpu - ps_cpu ps)) (wrap64 (mem - ps_mem ps)).
Proof.
  intros [] Hu ->. split; cbn; rewrite ?(map_sum_delete _ _ _ _ Hu).
  - rewrite wrap64_add_r, Z.add_sub_assoc. unfold Z.sub at 1.
    rewrite <- (wrap64_add_l (usedCPU s + cpu)), so_cpu0. rewrite wrap64_add_l. f_equal.
  - rewrite wrap64_add_r, Z.add_sub_assoc. unfold Z.sub at 1.
    rewrite <- (wrap64_add_l (usedMem s + mem)), so_mem0. rewrite wrap64_add_l. f_equal.
  - rewrite so_del0. unfold Z.sub. apply wrap32_add_l.
  - assert (s.(nameIndex) !! ps_key ps = Some uid) as Hk by (apply so_name0; eauto).
    intros k u. destruct (decide (k = ps_key ps)) as [->|Hne].
    + rewrite lookup_delete_eq. split; [done|]. intros (ps' & Hps & Hkey).
      apply lookup_delete_Some in Hps as [Hne Hps].
      assert (s.(nameIndex) !! ps_key ps = Some u) by (apply so_name0; eauto). congruence.
    + rewrite lookup_delete_ne by done. rewrite so_name0. split; intros (ps' & Hps & Hkey); exists ps'.
      * rewrite lookup_delete_ne; [done|]. intros ->. rewrite Hu in Hps. by simplify_eq.
      * by apply lookup_delete_Some in Hps as [_ Hps].
Qed.

(** The measures of a pod that the invariant is about. *)
Definition same_measures (ps ps' : podState) : Prop :=
  ps_cpu ps' = ps_cpu ps ∧ ps_mem ps' = ps_mem ps ∧ ps_del ps' = ps_del ps ∧ ps_key ps' = ps_key ps.

Lemma pending_replace s uid ps ps' cpu mem cpu' mem' n :
  store_ok_pending s cpu mem → s.(pods) !! uid = Some ps → ps_key ps' = ps_key ps →
  wrap64 (cpu' - cpu) = wrap64 (ps_cpu ps' - ps_cpu ps) → wrap64 (mem' - mem) = wrap64 (ps_mem ps' - ps_mem ps) →
  n = wrap32 (map_sum ps_del (<[uid := ps']> s.(pods))) →
  store_ok_pending {| s with pods := <[uid := ps']> s.(pods); deletingCount := n |} cpu' mem'.
Proof.
  intros [] Hu Hk Hc Hm Hn. split; cbn; [..|done|].
  - rewrite (map_sum_replace _ _ _ _ _ Hu).
    replace (usedCPU s + cpu')%Z with ((usedCPU s + cpu) + (cpu' - cpu))%Z by lia.
    rewrite <- wrap64_add_r, Hc, wrap64_add_r, <- wrap64_add_l, so_cpu0, wrap64_add_l. f_equal. lia.
  - rewrite (map_sum_replace _ _ _ _ _ Hu).
    replace (usedMem s + mem')%Z with ((usedMem s + mem) + (mem' - mem))%Z by lia.
    rewrite <- wrap64_add_r, Hm, wrap64_add_r, <- wrap64_add_l, so_mem0, wrap64_add_l. f_equal. lia.
  - intros k u. rewrite so_name0. destruct (decide (u = uid)) as [->|Hne].
    + rewrite lookup_insert_eq. rewrite Hu. split.
      * intros (x & [= <-] & Hx). eexists. split; [done|]. congruence.
      * intros (x & [= <-] & Hx). eexists. split; [done|]. congruence.
    + by rewrite lookup_insert_ne.
Qed.

Lemma pending_modify s uid f cpu mem :
  (∀ ps, s.(pods) !! uid = Some ps → same_measures ps (f ps)) →
  store_ok_pending s cpu mem → store_ok_pending (modify s uid f) cpu mem.
Proof.
  intros Hf Hs. unfold modify. destruct (pods s !! uid) as [ps|] eqn:Hu; [|done].
  destruct (Hf ps eq_refl) as (Hc & Hm & Hd & Hk).
  change {| s with pods := <[uid := f ps]> s.(pods) |}
    with {| s with pods := <[uid := f ps]> s.(pods); deletingCount := s.(deletingCount) |}.
  eapply pending_replace; try done; rewrite ?Hc, ?Hm, ?Z.sub_diag; try done.
  rewrite (map_sum_replace _ _ _ _ _ Hu), Hd. destruct Hs. rewrite so_del0. f_equal. lia.
Qed.

Lemma store_ok_modify s uid f :
  (∀ ps, s.(pods) !! uid = Some ps → same_measures ps (f ps)) → store_ok s → store_ok (modify s uid f).
Proof.
  intros Hf (H1 & H2 & H3). split_and!; [..|by apply pending_modify];
    unfold modify; by destruct (pods s !! uid).
Qed.

Lemma store_ok_modifyAndTrigger s uid f :
  (∀ ps, s.(pods) !! uid = Some ps → same_measures ps (f ps)) → store_ok s → store_ok (modifyAndTrigger s uid f).
Proof.
  intros Hf Hs. unfold modifyAndTrigger. destruct (getPodState s uid); [|done].
  by apply store_ok_trigger, store_ok_modify.
Qed.

(** ** Operations as steps *)

Inductive StoreOp :=
  | OpRegisterPending (uid : string) (pod : Pod) (handle : nat)
  | OpRegisterHydrated (uid : string) (pod : Pod) (ip : string)
  | OpRegisterHydratedBatch (entries : list hydratedEntry)
  | OpAlreadyRunning (uid : string) (pod : Pod)
  | OpPromoteRunning (uid : string) (pod : Pod) (ip : string)
  | OpEvictGhost (uid : string)
  | OpUnregister (deletedAt cutoff : Time) (uid namespace name : string)
  | OpPurgeHydrated (uids : list string)
  | OpMarkDeleting (uid : string)
  | OpSetPodIP (uid ip : string)
  | OpSetPhase (uid : string) (phase : PodPhase)
  | OpSetPodStatus (uid : string) (status : PodStatus)
  | OpSetContainerState (now : Time) (uid name : string) (state : ContainerState) (ready : bool)
  | OpMarkFailed (uid : string) (pod : Pod) (reason message : string)
  | OpClearHydrated (uid : string)
  | OpInitRestartState (clk : nat → Time) (pod : Pod)
  | OpInitRestartStateFrom (clk : nat → Time) (uid namespace name : string) (cs : list ContainerInitPayload)
  | OpUpdateProbeState (uid name : string) (fn : ContainerProbeState → ContainerProbeState)
  | OpResetProbeState (now : Time) (uid name : string)
  | OpIncrementRestart (now : Time) (uid name : string)
  | OpPatchRestartCount (uid name : string) (n : Z)
  | OpPatchBackoff (uid name : string) (backoffSec : float64)
  | OpBumpBackoff (uid name : string)
  | OpMarkRestarted (now : Time) (uid name : string)
  | OpResetBackoff (uid name : string)
  | OpAggregate (entries : list (string * podState)).

Definition store_step (s : PodStore) (op : StoreOp) : PodStore :=
  match op with
  | OpRegisterPending uid pod h => RegisterPending s uid pod h
  | OpRegisterHydrated uid pod ip => RegisterHydrated s uid pod ip
  | OpRegisterHydratedBatch es => RegisterHydratedBatch s es
  | OpAlreadyRunning uid pod => (AlreadyRunning s uid pod).1
  | OpPromoteRunning uid pod ip => PromoteRunning s uid pod ip
  | OpEvictGhost uid => EvictGhost s uid
  | OpUnregister d c uid ns n => Unregister d c s uid ns n
  | OpPurgeHydrated uids => PurgeHydrated s uids
  | OpMarkDeleting uid => MarkDeleting s uid
  | OpSetPodIP uid ip => SetPodIP s uid ip
  | OpSetPhase uid p => SetPhase s uid p
  | OpSetPodStatus uid st => SetPodStatus s uid st
  | OpSetContainerState now uid n st r => SetContainerState now s uid n st r
  | OpMarkFailed uid pod r m => (MarkFailed s uid pod r m).1
  | OpClearHydrated uid => ClearHydrated s uid
  | OpInitRestartState clk pod => InitRestartState clk s pod
  | OpInitRestartStateFrom clk uid ns n cs => InitRestartStateFrom clk s uid ns n cs
  | OpUpdateProbeState uid n fn => UpdateProbeState s uid n fn
  | OpResetProbeState now uid n => ResetProbeState now s uid n
  | OpIncrementRestart now uid n => IncrementRestart now s uid n
  | OpPatchRestartCount uid n c => PatchRestartCount s uid n c
  | OpPatchBackoff uid n d => PatchBackoff s uid n d
  | OpBumpBackoff uid n => (BumpBackoff s uid n).1
  | OpMarkRestarted now uid n => MarkRestarted now s uid n
  | OpResetBackoff uid n => ResetBackoff s uid n
  | OpAggregate es => runSnapshotAggregator s es
  end.

(** A pod is the same workload as the registered one: same name, same
    requests. *)
Definition same_workload (pod pod' : Pod) : Prop :=
  pod_key pod' = pod_key pod ∧ podResources pod' = podResources pod.

Definition fresh (s : PodStore) (uid : string) (pod : Pod) : Prop :=
  s.(pods) !! uid = None ∧ s.(nameIndex) !! pod_key pod = None.

(** What the callers of the store guarantee: a pod is registered under a UID
    and a name that are not in use; a registered pod is only replaced by a
    copy of the same workload (a stub by a pod of the same name); it is
    unregistered under its own name; and only pods whose deletion has not
    begun are dropped as ghosts or stale. *)
Definition op_ok (s : PodStore) (op : StoreOp) : Prop :=
  match op with
  | OpRegisterPending uid pod _ | OpRegisterHydrated uid pod _ => fresh s uid pod
  | OpRegisterHydratedBatch es =>
      NoDup (he_uid <$> es) ∧ NoDup ((λ e, pod_key e.(he_pod)) <$> es) ∧
      ∀ e, e ∈ es → fresh s e.(he_uid) e.(he_pod)
  | OpAlreadyRunning uid pod => ∀ ps, s.(pods) !! uid = Some ps → pod_key pod = ps_key ps
  | OpPromoteRunning uid pod _ | OpMarkFailed uid pod _ _ =>
      ∀ ps, s.(pods) !! uid = Some ps → same_workload ps.(pst_pod) pod
  | OpEvictGhost uid => IsDeleting s uid = false
  | OpUnregister _ _ uid ns n => ∀ ps, s.(pods) !! uid = Some ps → podKey ns n = ps_key ps
  | OpPurgeHydrated uids => ∀ uid, uid ∈ uids → IsDeleting s uid = false
  | _ => True
  end.

Lemma same_measures_workload ps ps' :
  same_workload ps.(pst_pod) ps'.(pst_pod) → ps'.(pst_deleting) = ps.(pst_deleting) → same_measures ps ps'.
Proof.
  intros [Hk Hr] Hd. unfold same_measures, ps_cpu, ps_mem, ps_del, ps_key, podCPU, podMem.
  by rewrite Hd, Hk, Hr.
Qed.

Lemma podResources_spec pod pod' : p_Containers pod' = p_Containers pod → podResources pod' = podResources pod.
Proof. unfold podResources. by intros ->. Qed.

(** Updates that keep the metadata and the containers of the pod. *)
Ltac measures_tac :=
  let ps := fresh "ps" in let H := fresh in
  intros ps H; unfold same_measures;
  first [split_and!; reflexivity | case_match; split_and!; reflexivity].

Lemma setContainerState_spec pod n st r :
  p_Containers (setContainerState pod n st r).1 = p_Containers pod ∧
  pod_key (setContainerState pod n st r).1 = pod_key pod.
Proof.
  unfold setContainerState. destruct (updateStatus _ _ _ _); [done|].
  by destruct (updateStatus _ _ _ _).
Qed.

Lemma store_ok_SetContainerState now s uid n st r :
  store_ok s → store_ok (SetContainerState now s uid n st r).
Proof.
  intros Hs. unfold SetContainerState. destruct (getPodState s uid) as [ps|] eqn:Hu; [|done].
  pose proof (setContainerState_spec (pst_pod ps) n (enrichState now (pst_restarts ps !! n) st) r) as [Hc Hk].
  destruct (setContainerState _ _ _ _) as [pod changed]. cbn in Hc, Hk.
  assert (store_ok (modify s uid (λ ps, {| ps with pst_pod := pod |}))) as Hm.
  { apply store_ok_modify; [|done]. intros ps' Hps. unfold getPodState in Hu. simplify_eq.
    apply same_measures_workload; [|done]. split; [done|]. by apply podResources_spec. }
  destruct changed; [by apply store_ok_trigger|done].
Qed.

Lemma store_ok_addUsed_opp s cpu mem :
  store_ok_pending s (wrap64 (0 - cpu)) (wrap64 (0 - mem)) → store_ok (addUsed s (- cpu) (- mem)).
Proof.
  intros H%store_ok_done. revert H. unfold addUsed. by rewrite !wrap64_add_r.
Qed.

Lemma store_ok_Unregister d c s uid ns n :
  op_ok s (OpUnregister d c uid ns n) → store_ok s → store_ok (Unregister d c s uid ns n).
Proof.
  intros Hop Hs. unfold Unregister. destruct (pods s !! uid) as [ps|] eqn:Hu; [|by destruct Hs as (? & ? & [])].
  rewrite (Hop ps Hu). apply store_ok_trigger. destruct Hs as (_ & _ & Hs).
  pose proof (pending_unindex s uid ps 0 0 _ Hs Hu eq_refl) as H0.
  apply store_ok_addUsed_opp in H0. destruct H0 as (H1 & H2 & H3).
  assert (wrap32 (deletingCount s - 0) = deletingCount s) as Hz.
  { rewrite Z.sub_0_r, (so_del _ _ _ Hs). apply wrap32_id, wrap32_range. }
  unfold ps_del in H3. destruct (pst_deleting ps); rewrite ?Hz in H3; destruct H3; by split_and!.
Qed.

Lemma store_ok_EvictGhost s uid : IsDeleting s uid = false → store_ok s → store_ok (EvictGhost s uid).
Proof.
  intros Hop Hs. unfold EvictGhost. unfold IsDeleting, getPodState in Hop.
  destruct (pods s !! uid) as [ps|] eqn:Hu; [|done]. apply store_ok_trigger, store_ok_addUsed_opp.
  destruct Hs as (_ & _ & Hs). apply (pending_unindex s uid ps 0 0 (deletingCount s) Hs Hu).
  unfold ps_del. rewrite Hop, Z.sub_0_r, (so_del _ _ _ Hs). symmetry. apply wrap32_id, wrap32_range.
Qed.

Lemma wrap64_opp_step c d : wrap64 (wrap64 (0 - c) - d) = wrap64 (0 - wrap64 (c + d)).
Proof.
  rewrite wrap64_sub_r. unfold Z.sub at 1. rewrite wrap64_add_l. f_equal. lia.
Qed.

Lemma IsDeleting_unindex s uid k uid' :
  IsDeleting s uid' = false → IsDeleting (unindex s uid k) uid' = false.
Proof.
  unfold IsDeleting, getPodState. cbn. destruct (decide (uid = uid')) as [->|Hne].
  - by rewrite lookup_delete_eq.
  - by rewrite lookup_delete_ne.
Qed.

Lemma pending_PurgeHydrated_loop uids s c m s' c' m' :
  PurgeHydrated_loop s uids c m = (s', c', m') →
  (∀ uid, uid ∈ uids → IsDeleting s uid = false) →
  store_ok_pending s (wrap64 (0 - c)) (wrap64 (0 - m)) →
  store_ok_pending s' (wrap64 (0 - c')) (wrap64 (0 - m')).
Proof.
  revert s c m. induction uids as [|uid uids IH]; intros s c m Hl Hd Hs; cbn in Hl; [by simplify_eq|].
  destruct (pods s !! uid) as [ps|] eqn:Hu.
  - eapply IH; [exact Hl| |].
    + intros uid' Hin. apply IsDeleting_unindex, Hd. set_solver.
    + rewrite <- !wrap64_opp_step.
      apply (pending_unindex s uid ps (wrap64 (0 - c)) (wrap64 (0 - m)) (deletingCount s) Hs Hu).
      specialize (Hd uid ltac:(set_solver)). unfold IsDeleting, getPodState in Hd. rewrite Hu in Hd.
      unfold ps_del. rewrite Hd, Z.sub_0_r, (so_del _ _ _ Hs). symmetry. apply wrap32_id, wrap32_range.
  - eapply IH; [exact Hl| |done]. intros. apply Hd. set_solver.
Qed.

Lemma store_ok_PurgeHydrated s uids :
  (∀ uid, uid ∈ uids → IsDeleting s uid = false) → store_ok s → store_ok (PurgeHydrated s uids).
Proof.
  intros Hd (_ & _ & Hs). unfold PurgeHydrated.
  destruct (PurgeHydrated_loop s uids 0 0) as [[s' c] m] eqn:Hl.
  apply store_ok_trigger, store_ok_addUsed_opp. eapply pending_PurgeHydrated_loop; [done..|].
  by rewrite !Z.sub_0_r.
Qed.

Lemma store_ok_register s uid pod ip ph h hd :
  fresh s uid pod → store_ok s →
  store_ok (triggerSnapshot (addUsed (register s uid (newPodState pod ip ph h hd)) (podCPU pod) (podMem pod))).
Proof.
  intros [Hu Hn] (_ & _ & Hs). apply store_ok_trigger.
  pose proof (pending_register s uid (newPodState pod ip ph h hd) 0 0 Hs Hu Hn eq_refl) as H%store_ok_done.
  revert H. unfold addUsed. by rewrite !wrap64_add_r.
Qed.

Lemma fresh_register s uid ps uid' pod :
  fresh s uid' pod → uid' ≠ uid → pod_key pod ≠ ps_key ps → fresh (register s uid ps) uid' pod.
Proof. intros [H1 H2] Hu Hk. split; cbn; rewrite lookup_insert_ne; done. Qed.

Lemma pending_RegisterHydratedBatch_loop es s c m s' c' m' :
  RegisterHydratedBatch_loop s es c m = (s', c', m') →
  op_ok s (OpRegisterHydratedBatch es) →
  store_ok_pending s c m → store_ok_pending s' c' m'.
Proof.
  revert s c m. induction es as [|e es IH]; intros s c m Hl (Hnu & Hnk & Hf) Hs; cbn in Hl; [by simplify_eq|].
  cbn in Hnu, Hnk. inversion Hnu as [|?? Hu Hnu']; subst. inversion Hnk as [|?? Hk Hnk']; subst.
  eapply IH; [exact Hl| |].
  - split_and!; [done|done|]. intros e' He'. apply fresh_register; [apply Hf; set_solver|..].
    + intros Heq. apply Hu. rewrite <- Heq. by apply list_elem_of_fmap_2.
    + intros Heq. apply Hk. cbn in Heq. unfold ps_key in Heq. cbn in Heq. rewrite <- Heq.
      by apply (list_elem_of_fmap_2 (λ e, pod_key e.(he_pod))).
  - destruct (Hf e ltac:(set_solver)) as [H1 H2].
    apply (pending_register s e.(he_uid) (newPodState e.(he_pod) e.(he_ip) PodRunning true None) c m); done.
Qed.

Lemma store_ok_RegisterHydratedBatch s es :
  op_ok s (OpRegisterHydratedBatch es) → store_ok s → store_ok (RegisterHydratedBatch s es).
Proof.
  intros Hop (_ & _ & Hs). unfold RegisterHydratedBatch.
  destruct (RegisterHydratedBatch_loop s es 0 0) as [[s' c] m] eqn:Hl.
  apply store_ok_trigger, store_ok_done. by eapply pending_RegisterHydratedBatch_loop.
Qed.

Lemma podResources_nil pod : p_Containers pod = [] → podResources pod = (0, 0)%Z.
Proof. unfold podResources. by intros ->. Qed.

Lemma store_ok_AlreadyRunning s uid pod :
  op_ok s (OpAlreadyRunning uid pod) → store_ok s → store_ok (AlreadyRunning s uid pod).1.
Proof.
  intros Hop Hs. unfold AlreadyRunning. unfold getPodState.
  destruct (pods s !! uid) as [ps|] eqn:Hu; [|done]. specialize (Hop ps Hu).
  case_bool_decide as Hst; cbn [fst]; apply store_ok_trigger.
  - destruct Hs as (_ & _ & Hs).
    pose proof (pending_replace s uid ps {| ps with pst_pod := pod; pst_hydrated := false |} 0 0
      (podCPU pod) (podMem pod) s.(deletingCount) Hs Hu Hop) as H.
    apply nil_length_inv, podResources_nil in Hst.
    unfold ps_cpu, ps_mem, podCPU, podMem in H. cbn [pst_pod] in H. rewrite Hst in H.
    specialize (H eq_refl eq_refl). refine (store_ok_done _ _ _ (H _)).
    rewrite (map_sum_replace _ _ _ _ _ Hu), (so_del _ _ _ Hs). f_equal. unfold ps_del. cbn. lia.
  - change {| s with pods := <[uid := {| ps with pst_hydrated := false |}]> s.(pods) |}
      with {| s with pods := <[uid := (λ ps, {| ps with pst_hydrated := false |}) ps]> s.(pods) |}.
    assert (store_ok (modify s uid (λ ps, {| ps with pst_hydrated := false |}))) as H
      by (apply store_ok_modify; [measures_tac|done]).
    unfold modify in H. by rewrite Hu in H.
Qed.

Lemma store_ok_MarkDeleting s uid : store_ok s → store_ok (MarkDeleting s uid).
Proof.
  intros Hs. unfold MarkDeleting, getPodState. destruct (pods s !! uid) as [ps|] eqn:Hu; [|done].
  destruct (pst_deleting ps) eqn:Hd; cbn [negb]; [done|]. unfold modify. cbn [pods]. rewrite Hu.
  destruct Hs as (H1 & H2 & Hs). split_and!; [done|done|].
  refine (pending_replace s uid ps {| ps with pst_deleting := true |} 0 0 0 0
    (wrap32 (s.(deletingCount) + 1)) Hs Hu eq_refl _ _ _);
    [f_equal; unfold ps_cpu, ps_mem; cbn; lia..|].
  rewrite (map_sum_replace _ _ _ _ _ Hu), (so_del _ _ _ Hs). rewrite wrap32_add_l. f_equal.
  unfold ps_del. cbn. rewrite Hd. lia.
Qed.

Lemma store_ok_step s op : op_ok s op → store_ok s → store_ok (store_step s op).
Proof.
  intros Hop Hs. destruct op; cbn [store_step];
    try (by apply store_ok_modify; [measures_tac|]);
    try (by apply store_ok_modifyAndTrigger; [measures_tac|]);
    eauto using store_ok_register, store_ok_RegisterHydratedBatch, store_ok_AlreadyRunning,
      store_ok_EvictGhost, store_ok_Unregister, store_ok_PurgeHydrated, store_ok_MarkDeleting,
      store_ok_SetContainerState.
  - unfold PromoteRunning. destruct (getPodState s uid); [|done]. apply store_ok_trigger, store_ok_modify; [|done].
    intros ps Hps. apply same_measures_workload; [by apply Hop|done].
  - apply store_ok_modifyAndTrigger; [|done]. intros ps Hps. apply same_measures_workload; [|done].
    by apply Hop.
  - unfold InitRestartState. destruct (initRestartMaps _ _). apply store_ok_modify; [measures_tac|done].
  - unfold InitRestartStateFrom. destruct (initRestartMaps _ _). apply store_ok_modify; [measures_tac|done].
  - unfold BumpBackoff. destruct (RestartState s uid name); [|done]. apply store_ok_modify; [measures_tac|done].
  - unfold runSnapshotAggregator. destruct (triggerCh s); [|done]. by destruct Hs as (? & ? & []).
Qed.

(** A run whose every step respects the callers' obligations. *)
Fixpoint valid (s : PodStore) (ops : list StoreOp) : Prop :=
  match ops with
  | [] => True
  | op :: ops => op_ok s op ∧ valid (store_step s op) ops
  end.

Definition store_run (s : PodStore) (ops : list StoreOp) : PodStore := foldl store_step s ops.

Lemma store_ok_run s ops : valid s ops → store_ok s → store_ok (store_run s ops).
Proof.
  revert s. induction ops as [|op ops IH]; intros s Hv Hs; [done|]. destruct Hv as [Hop Hv].
  cbn. apply IH; [done|]. by apply store_ok_step.
Qed.

(** ** Lemmas for the properties *)

Definition quantity (m v : Z) : Quantity := {| MilliValue := m; Value := v |}.

(** A pod requesting the given CPU and memory, for the examples. *)
Definition demoPod (name : string) (cpu mem : Z) : Pod :=
  {| zeroPod with p_Namespace := "default"; p_Name := name;
     p_Containers := [{| zeroContainer with c_Name := "web";
       c_Resources := {| Limits := None;
         Requests := Some (<["cpu" := quantity cpu 1]> (<["memory" := quantity (mem * 1000) mem]> ∅)) |} |}] |}.

Lemma demo_valid :
  valid NewPodStore [OpRegisterPending "u1" (demoPod "a" 250 64) 1; OpPromoteRunning "u1" (demoPod "a" 250 64) "10.0.0.2";
    OpRegisterPending "u2" (demoPod "b" 100 32) 2; OpMarkDeleting "u1"; OpUnregister 5 6 "u1" "default" "a"].
Proof.
  cbn [valid]. split_and!; try done.
  - intros ps Hps. vm_compute in Hps. simplify_eq. done.
  - intros ps Hps. vm_compute in Hps. simplify_eq. done.
Qed.

(** The restart state after a bump. *)
Lemma RestartState_modifyRestart s uid name f rs :
  RestartState s uid name = Some rs → RestartState (modifyRestart s uid name f) uid name = Some (f rs).
Proof.
  unfold RestartState, modifyRestart, modify, getPodState. intros (ps & Hps & Hrs)%bind_Some.
  rewrite Hps. cbn. rewrite lookup_insert_eq. cbn. rewrite Hrs. cbn. by rewrite lookup_insert_eq.
Qed.

(** What the [n]-th further bump returns. *)
Fixpoint bumps (n : nat) (s : PodStore) (uid name : string) : PodStore * list (Z * Duration) :=
  match n with
  | O => (s, [])
  | S n =>
      let '(s, r) := BumpBackoff s uid name in
      let '(s, rs) := bumps n s uid name in (s, r :: rs)
  end.

Lemma bump_backoff m : (0 ≤ m)%Z →
  let b := wrap64 (Z.min (restartBackoffInit * 2 ^ m) (5 * Minute) * 2) in
  (if (5 * Minute <? b)%Z then 5 * Minute else b)%Z = Z.min (restartBackoffInit * 2 ^ (m + 1)) (5 * Minute).
Proof.
  intros Hm. assert (1 ≤ 2 ^ m)%Z by (apply (Z.pow_le_mono_r 2 0 m); lia). cbn zeta.
  unfold restartBackoffInit, Minute, Second. rewrite wrap64_id by (unfold in_int64; lia).
  rewrite Z.pow_add_r by lia. match goal with |- context [(?a <? ?b)%Z] => destruct (Z.ltb_spec a b) end; lia.
Qed.

Lemma existingIndex_None status name :
  existingIndex status !! name = None ↔ ∀ cs, cs ∈ status → cs.(cs_Name) ≠ name.
Proof.
  unfold existingIndex.
  assert (∀ l (m : gmap string nat),
    foldl (λ m '(i, cs), <[cs.(cs_Name) := i]> m) m l !! name = None ↔
    m !! name = None ∧ ∀ i cs, (i, cs) ∈ l → cs.(cs_Name) ≠ name) as H.
  { induction l as [|[i cs] l IH]; intros m; cbn.
    - split; [|by intros []]. intros. split; [done|]. by intros ?? ?%elem_of_nil.
    - rewrite IH, lookup_insert_None. split.
      + intros [[H1 H2] H3]. split; [done|]. intros j x [[= -> ->]|Hin]%elem_of_cons; [done|by eapply H3].
      + intros [H1 H2]. split_and!; [done|by eapply H2, elem_of_cons; left|].
        intros j x Hin. eapply H2, elem_of_cons. by right. }
  rewrite H, lookup_empty. split.
  - intros [_ Hall] cs [i Hi]%list_elem_of_lookup. apply (Hall i). apply list_elem_of_lookup.
    exists i. by rewrite list_lookup_imap, Hi.
  - intros Hall. split; [done|]. intros i cs [j Hj]%list_elem_of_lookup. rewrite list_lookup_imap in Hj.
    apply fmap_Some in Hj as (x & Hx & [= -> ->]). eapply Hall, list_elem_of_lookup_2. done.
Qed.

Lemma bumps_from n : ∀ s uid name rs (k : nat),
  RestartState s uid name = Some rs → rs.(count) = Z.of_nat k →
  rs.(backoff) = Z.min (restartBackoffInit * 2 ^ Z.of_nat k) (5 * Minute) →
  (Z.of_nat (k + n) < 2 ^ 31)%Z →
  (bumps n s uid name).2 =
    map (λ i, (Z.of_nat i + 1, Z.min (restartBackoffInit * 2 ^ Z.of_nat i) (5 * Minute))%Z) (seq k n).
Proof.
  induction n as [|n IH]; intros s uid name rs k Hrs Hc Hb Hlt; [done|]. cbn [bumps seq map].
  unfold BumpBackoff. rewrite Hrs.
  assert (wrap32 (count rs + 1) = Z.of_nat (S k)) as Hw by (rewrite Hc, wrap32_id by (unfold in_int32; lia); lia).
  specialize (IH (modifyRestart s uid name bump) uid name (bump rs) (S k)).
  destruct (bumps n _ uid name) as [s' l] eqn:E. cbn [snd] in *. rewrite Hw, Hb, IH.
  - f_equal. f_equal. lia.
  - by apply RestartState_modifyRestart.
  - done.
  - unfold bump. cbn [backoff]. rewrite Hb, bump_backoff by lia. do 3 f_equal. lia.
  - lia.
Qed.

(** ** Properties *)

(** C9: In every run that respects the callers' obligations the lock-free
    counters are exact: the used CPU and memory are the int64 totals of the
    requests of the registered pods and the deletion counter is the number of
    pods marked as deleting; and the name index finds exactly the registered
    pods. *)
Theorem store_accounting ops :
  valid NewPodStore ops →
  let s := store_run NewPodStore ops in
  s.(usedCPU) = wrap64 (map_sum ps_cpu s.(pods)) ∧
  s.(usedMem) = wrap64 (map_sum ps_mem s.(pods)) ∧
  s.(deletingCount) = wrap32 (map_sum ps_del s.(pods)) ∧
  (∀ ns n uid, FindPodUID s ns n = Some uid ↔ ∃ ps, s.(pods) !! uid = Some ps ∧ ps_key ps = podKey ns n).
Proof.
  intros Hv. destruct (store_ok_run _ _ Hv store_ok_New) as (H1 & H2 & [Hc Hm Hd Hn]). cbn zeta.
  rewrite Z.add_0_r, wrap64_id in Hc by done. rewrite Z.add_0_r, wrap64_id in Hm by done.
  split_and!; [done..|]. intros ns n uid. apply Hn.
Qed.

Lemma store_accounting_witness :
  (store_run NewPodStore [OpRegisterPending "u1" (demoPod "a" 250 64) 1; OpPromoteRunning "u1" (demoPod "a" 250 64) "10.0.0.2";
    OpRegisterPending "u2" (demoPod "b" 100 32) 2; OpMarkDeleting "u1"; OpUnregister 5 6 "u1" "default" "a"]).(usedCPU)
  = 100%Z.
Proof. rewrite (proj1 (store_accounting _ demo_valid)). vm_compute. reflexivity. Defined.

(** Admission keeps the node within its capacity: if a pod with requests
    is admitted and then registered, the total CPU requests of the registered
    pods are at most the node's CPU, and likewise for memory, as long as the
    totals fit an int64. *)
Theorem admission_within_capacity hp s uid pod handle nodeCPU nodeMem :
  store_ok s → fresh s uid pod →
  AdmitPod hp s pod nodeCPU nodeMem = AdmitOK →
  (podCPU pod ≠ 0 ∨ podMem pod ≠ 0)%Z →
  in_int64 (podCPU pod + map_sum ps_cpu s.(pods)) → in_int64 (podMem pod + map_sum ps_mem s.(pods)) →
  (0 < nodeCPU.(MilliValue))%Z → (0 < nodeMem.(Value))%Z →
  let s' := RegisterPending s uid pod handle in
  (map_sum ps_cpu s'.(pods) ≤ nodeCPU.(MilliValue))%Z ∧ (map_sum ps_mem s'.(pods) ≤ nodeMem.(Value))%Z.
Proof.
  intros Hs [Hu Hn] Ha Hne H1 H2 Hc Hm. cbn zeta. unfold RegisterPending. cbn [pods triggerSnapshot addUsed register].
  cbn. rewrite !map_sum_insert_new by done. cbn.
  destruct Hs as (I1 & I2 & [Ec Em _ _]). rewrite Z.add_0_r, wrap64_id in Ec, Em by done.
  unfold ps_cpu at 1, ps_mem at 1. cbn [pst_pod newPodState].
  assert ((podCPU pod =? 0)%Z && (podMem pod =? 0)%Z = false) as Hz.
  { destruct (Z.eqb_spec (podCPU pod) 0), (Z.eqb_spec (podMem pod) 0); cbn; try done. lia. }
  unfold AdmitPod in Ha. rewrite Hz in Ha.
  rewrite Ec, Em, !wrap64_add_l in Ha.
  rewrite (Z.add_comm _ (podCPU pod)), (Z.add_comm _ (podMem pod)) in Ha.
  rewrite (wrap64_id (_ + map_sum ps_cpu _)), (wrap64_id (_ + map_sum ps_mem _)) in Ha by done.
  rewrite (proj2 (Z.ltb_lt _ _) Hc), (proj2 (Z.ltb_lt _ _) Hm) in Ha. cbn [andb] in Ha.
  destruct hp as [[ca ma]|]; [destruct (Qle_bool ca _), (Qle_bool ma _); cbn [negb] in Ha; try done|];
    destruct (Z.ltb_spec (MilliValue nodeCPU) (podCPU pod + map_sum ps_cpu (pods s)));
    destruct (Z.ltb_spec (Value nodeMem) (podMem pod + map_sum ps_mem (pods s))); try done; lia.
Qed.

Lemma admission_within_capacity_witness :
  let s' := RegisterPending NewPodStore "u1" (demoPod "a" 250 64) 1 in
  (map_sum ps_cpu s'.(pods) ≤ 1000)%Z ∧ (map_sum ps_mem s'.(pods) ≤ 128)%Z.
Proof.
  apply (admission_within_capacity (Some (0%Q, 0%Q)) NewPodStore "u1" (demoPod "a" 250 64) 1
           (quantity 1000 1) (quantity 128000 128)).
  - apply store_ok_New.
  - split; apply lookup_empty.
  - vm_compute. reflexivity.
  - left. vm_compute. discriminate.
  - vm_compute. split; [discriminate|reflexivity].
  - vm_compute. split; [discriminate|reflexivity].
  - reflexivity.
  - reflexivity.
Defined.

Lemma lookup_if_insert_ne {A} (b : bool) (m : gmap string A) k k' v :
  k ≠ k' → (if b then <[k := v]> m else m) !! k' = m !! k'.
Proof. intros H. destruct b; [by apply lookup_insert_ne|done]. Qed.

Lemma remaining_max cap used :
  in_int64 cap → (0 ≤ used)%Z → (if (used <? cap)%Z then wrap64 (cap - used) else 0%Z) = Z.max 0 (cap - used).
Proof. intros [H1 H2] H. destruct (Z.ltb_spec used cap); [rewrite wrap64_id by (unfold in_int64; lia)|]; lia. Qed.

(** What remains of the node: with non-negative usage, the allocatable CPU
    and memory are the capacity minus the usage, at least 0, and every other
    resource is the node's. *)
Theorem allocatable_remaining s capacity r :
  (0 ≤ s.(usedCPU))%Z → (0 ≤ s.(usedMem))%Z →
  (∀ q, capacity !! "cpu" = Some q → in_int64 q.(MilliValue) ∧ (0 ≤ q.(MilliValue))%Z) →
  (∀ q, capacity !! "memory" = Some q → in_int64 q.(Value) ∧ (0 ≤ q.(Value))%Z) →
  let alloc := ComputeAllocatable s capacity in
  (capacity !! "cpu" ≠ None →
     MilliValue <$> alloc !! "cpu" = (λ q, Z.max 0 (q.(MilliValue) - s.(usedCPU))) <$> capacity !! "cpu") ∧
  (capacity !! "memory" ≠ None →
     Value <$> alloc !! "memory" = (λ q, Z.max 0 (q.(Value) - s.(usedMem))) <$> capacity !! "memory") ∧
  (r ≠ "cpu" → r ≠ "memory" → alloc !! r = capacity !! r).
Proof.
  intros Hc Hm Bc Bm. cbn zeta. unfold ComputeAllocatable. split_and!.
  - intros Hne. rewrite lookup_if_insert_ne by done.
    destruct (capacity !! "cpu") as [q|] eqn:Hq; [|done]. destruct (Bc q eq_refl) as [B1 B2].
    destruct (Z.ltb_spec 0 (usedCPU s)); [rewrite lookup_insert_eq; cbn; f_equal; by apply remaining_max|].
    rewrite Hq. cbn. f_equal. lia.
  - intros Hne. destruct (capacity !! "memory") as [q|] eqn:Hq; [|done]. destruct (Bm q eq_refl) as [B1 B2].
    destruct (Z.ltb_spec 0 (usedMem s)); [rewrite lookup_insert_eq; cbn; f_equal; by apply remaining_max|].
    rewrite lookup_if_insert_ne, Hq by done. cbn. f_equal. lia.
  - intros H1 H2. by rewrite !lookup_if_insert_ne by done.
Qed.

Lemma allocatable_remaining_witness :
  let s := RegisterPending NewPodStore "u1" (demoPod "a" 250 64) 1 in
  MilliValue <$> ComputeAllocatable s (<["cpu" := quantity 1000 1]> ∅) !! "cpu" = Some 750%Z.
Proof.
  cbn zeta.
  destruct (allocatable_remaining (RegisterPending NewPodStore "u1" (demoPod "a" 250 64) 1)
    (<["cpu" := quantity 1000 1]> ∅) "pods") as (H & _ & _).
  - vm_compute. discriminate.
  - vm_compute. discriminate.
  - intros q. rewrite lookup_insert_eq. intros [= <-]. vm_compute. split; [split; [discriminate|reflexivity]|discriminate].
  - intros q. rewrite lookup_insert_ne, lookup_empty by done. discriminate.
  - rewrite H; [reflexivity|]. by rewrite lookup_insert_eq.
Defined.

(** Crash-loop delays: starting from a fresh restart state, the n-th call
    of [BumpBackoff] reports restart count n and the delay 10s * 2^(n-1), never
    more than five minutes. *)
Theorem backoff_doubles s uid name rs n :
  RestartState s uid name = Some rs → rs.(count) = 0%Z → rs.(backoff) = restartBackoffInit →
  (Z.of_nat n < 2 ^ 31)%Z →
  (bumps n s uid name).2 =
    map (λ i, (Z.of_nat i + 1, Z.min (10 * Second * 2 ^ Z.of_nat i) (5 * Minute))%Z) (seq 0 n).
Proof. intros Hrs Hc Hb Hn. by apply (bumps_from n s uid name rs 0). Qed.

Lemma backoff_doubles_witness :
  let s := InitRestartState (λ _, 7%Z) (RegisterPending NewPodStore "" (demoPod "a" 250 64) 1) (demoPod "a" 250 64) in
  map snd (bumps 7 s "" "web").2 =
    map (λ n, n * Second)%Z [10; 20; 40; 80; 160; 300; 300]%Z.
Proof.
  cbn zeta.
  rewrite (backoff_doubles _ "" "web" {| count := 0; backoff := restartBackoffInit; lastStarted := 7 |} 7);
    try (vm_compute; reflexivity).
Defined.

(** Defect: evicting a pod that is marked as deleting leaves the deletion
    counter raised, and no operation lowers it again for that pod. *)
Theorem evicted_deletion_leaks :
  let s := EvictGhost (MarkDeleting (RegisterPending NewPodStore "u1" (demoPod "a" 250 64) 1) "u1") "u1" in
  s.(pods) = ∅ ∧ DeletionsInProgress s = true ∧
  DeletionsInProgress (Unregister 1 2 s "u1" "default" "a") = true.
Proof. vm_compute. split_and!; reflexivity. Qed.

(** Defect: removing a pod also removes the name of a newer pod with the same
    namespace and name, which is then not found although it is registered. *)
Theorem recreated_pod_unfindable :
  let s := Unregister 1 2 (RegisterPending (RegisterPending NewPodStore "old" (demoPod "a" 250 64) 1)
             "new" (demoPod "a" 250 64) 2) "old" "default" "a" in
  HasPod s "new" = true ∧ FindPodUID s "default" "a" = None ∧ GetPod s "default" "a" = None.
Proof. vm_compute. split_and!; reflexivity. Qed.

(** ** Container statuses *)

(** The status of a container in a list of statuses: the first of that name. *)
Definition statusOf (l : list ContainerStatus) (name : string) : option ContainerStatus :=
  head (filter (λ cs, cs.(cs_Name) = name) l).

Definition blankStatus (name : string) : ContainerStatus :=
  {| cs_Name := name; cs_State := zeroContainerState; cs_Ready := false; cs_RestartCount := 0; cs_Image := "" |}.

Lemma statusOf_cons cs l name :
  statusOf (cs :: l) name = if bool_decide (cs.(cs_Name) = name) then Some cs else statusOf l name.
Proof. unfold statusOf. rewrite filter_cons. case_decide; case_bool_decide; done. Qed.

Lemma updateStatus_cons cs l name state ready :
  updateStatus (cs :: l) name state ready =
    if bool_decide (cs.(cs_Name) = name) then Some ({| cs with cs_State := state; cs_Ready := ready |} :: l)
    else cons cs <$> updateStatus l name state ready.
Proof.
  unfold updateStatus. cbn. case_bool_decide; cbn; [done|].
  destruct (find_index _ l) as [i|]; cbn; [|done]. by destruct (l !! i).
Qed.

Lemma updateStatus_None l name state ready : updateStatus l name state ready = None ↔ statusOf l name = None.
Proof.
  induction l as [|cs l IH]; [done|]. rewrite updateStatus_cons, statusOf_cons.
  case_bool_decide; [done|]. by rewrite fmap_None.
Qed.

Lemma updateStatus_Some l name state ready l' : updateStatus l name state ready = Some l' →
  ∀ other, statusOf l' other =
    (λ cs, if bool_decide (other = name) then {| cs with cs_State := state; cs_Ready := ready |} else cs)
      <$> statusOf l other.
Proof.
  revert l'. induction l as [|cs l IH]; intros l' Hu other; [done|].
  rewrite updateStatus_cons in Hu. rewrite statusOf_cons. case_bool_decide as Hn.
  - injection Hu as <-. rewrite statusOf_cons. cbn [cs_Name].
    destruct (decide (other = name)) as [->|Ho].
    + rewrite !bool_decide_true by done. done.
    + rewrite !bool_decide_false by congruence. by rewrite option_fmap_id.
  - apply fmap_Some in Hu as (l1 & Hl1 & ->). rewrite statusOf_cons, (IH _ Hl1).
    case_bool_decide as Hm; [|done]. rewrite bool_decide_false by congruence. done.
Qed.

Lemma existingIndex_Some status name i :
  existingIndex status !! name = Some i → ∃ cs, status !! i = Some cs ∧ cs.(cs_Name) = name.
Proof.
  unfold existingIndex.
  assert (∀ l (m : gmap string nat),
    foldl (λ m '(i, cs), <[cs.(cs_Name) := i]> m) m l !! name = Some i →
    m !! name = Some i ∨ ∃ cs, (i, cs) ∈ l ∧ cs.(cs_Name) = name) as H.
  { induction l as [|[j cs] l IH]; intros m Hl; cbn in Hl; [by left|].
    destruct (IH _ Hl) as [[[<- <-]|[_ ?]]%lookup_insert_Some|(x & Hx & Hn)]; [|by left|]; right.
    - exists cs. by rewrite elem_of_cons; auto.
    - exists x. by rewrite elem_of_cons; auto. }
  intros [Hm|(cs & [j Hj]%list_elem_of_lookup & Hn)]%H; [by rewrite lookup_empty in Hm|].
  rewrite list_lookup_imap in Hj. apply fmap_Some in Hj as (x & Hx & [= -> ->]). by exists x.
Qed.

Lemma statusOf_None l name : statusOf l name = None ↔ ∀ cs, cs ∈ l → cs.(cs_Name) ≠ name.
Proof.
  induction l as [|x l IH]; [split; [by intros _ ? ?%elem_of_nil|done]|].
  rewrite statusOf_cons. setoid_rewrite elem_of_cons. case_bool_decide; naive_solver.
Qed.

Lemma statusOf_name l name cs : statusOf l name = Some cs → cs.(cs_Name) = name.
Proof. unfold statusOf. intros He%head_Some_elem_of%list_elem_of_filter. by destruct He. Qed.

Lemma statusOf_NoDup l i cs : NoDup (map cs_Name l) → l !! i = Some cs → statusOf l cs.(cs_Name) = Some cs.
Proof.
  revert i. induction l as [|x l IH]; intros i Hnd Hi; [done|]. rewrite statusOf_cons. cbn in Hnd.
  apply NoDup_cons in Hnd as [Hx Hnd]. destruct i as [|i]; cbn in Hi; [simplify_eq; by rewrite bool_decide_true|].
  rewrite bool_decide_false; [by apply (IH i)|]. intros Heq. apply Hx. rewrite Heq.
  apply list_elem_of_fmap_2. by eapply list_elem_of_lookup_2.
Qed.

Lemma statusOf_existing status name : NoDup (map cs_Name status) →
  (existingIndex status !! name ≫= λ i, status !! i) = statusOf status name.
Proof.
  intros Hnd. destruct (existingIndex status !! name) as [i|] eqn:He; cbn.
  - apply existingIndex_Some in He as (cs & Hi & <-). by rewrite Hi, (statusOf_NoDup _ i).
  - symmetry. by apply statusOf_None, existingIndex_None.
Qed.

(** After [syncSlice] every container of the spec has a status: its own, or a
    blank one. *)
Lemma syncSlice_spec spec status name :
  NoDup (map cs_Name status) → name ∈ map c_Name spec →
  statusOf (syncSlice spec status) name = Some (default (blankStatus name) (statusOf status name)).
Proof.
  intros Hnd Hin. unfold syncSlice. destruct spec as [|c0 spec0] eqn:Hs; [by apply elem_of_nil in Hin|].
  rewrite <- Hs in *. destruct (negb _) eqn:Hneed.
  - apply negb_true_iff in Hneed. destruct (statusOf status name) as [cs|] eqn:He; [done|]. exfalso.
    rewrite statusOf_None, <- existingIndex_None in He. apply list_elem_of_fmap in Hin as (c & -> & Hc).
    apply not_true_iff_false in Hneed. apply Hneed, existsb_exists. exists c.
    rewrite He. split; [by apply list_elem_of_In|done].
  - clear Hneed Hs. induction spec as [|c spec IH]; [by apply elem_of_nil in Hin|].
    cbn [map]. rewrite statusOf_cons, statusOf_existing by done.
    case_bool_decide as Hc.
    + destruct (statusOf status (c_Name c)) as [cs|] eqn:He; cbn [cs_Name] in Hc.
      * by rewrite <- Hc, (statusOf_name _ _ _ He), He.
      * by rewrite <- Hc, He.
    + apply IH. cbn in Hin. apply elem_of_cons in Hin as [->|Hin]; [|done]. exfalso. apply Hc.
      destruct (statusOf status (c_Name c)) as [cs|] eqn:He; [by apply statusOf_name in He|done].
Qed.

(** Publishing a container's state: for a container of the pod's spec,
    [SetContainerState] gives that container the new state (with the recorded
    start time filled in) and readiness, keeps the state of every other
    container of the spec, and leaves no container of the spec without a
    status. *)
Theorem set_container_state now s uid name state ready ps :
  let statuses ps := ps.(pst_pod).(p_Status).(ps_ContainerStatuses) in
  getPodState s uid = Some ps → name ∈ map c_Name ps.(pst_pod).(p_Containers) → NoDup (map cs_Name (statuses ps)) →
  ∃ ps', getPodState (SetContainerState now s uid name state ready) uid = Some ps' ∧
    (λ cs, (cs.(cs_State), cs.(cs_Ready))) <$> statusOf (statuses ps') name =
      Some (enrichState now (ps.(pst_restarts) !! name) state, ready) ∧
    ∀ other, other ∈ map c_Name ps.(pst_pod).(p_Containers) → other ≠ name →
      statusOf (statuses ps') other = Some (default (blankStatus other) (statusOf (statuses ps) other)).
Proof.
  cbn zeta. intros Hps Hname Hnd. unfold SetContainerState. rewrite Hps. unfold setContainerState.
  set (st := enrichState _ _ _).
  set (l := ps_ContainerStatuses (p_Status (syncStatusToSpec (pst_pod ps)))).
  assert (∀ n, n ∈ map c_Name (p_Containers (pst_pod ps)) → statusOf l n =
    Some (default (blankStatus n) (statusOf (ps_ContainerStatuses (p_Status (pst_pod ps))) n))) as Hl
    by (intros; by apply syncSlice_spec).
  destruct (updateStatus l name st ready) as [l'|] eqn:Hu.
  - pose proof (updateStatus_Some _ _ _ _ _ Hu) as Hl'. eexists. split_and!.
    + unfold getPodState, modify, triggerSnapshot in *. rewrite Hps. cbn. by rewrite lookup_insert_eq.
    + cbn. rewrite Hl', Hl by done. cbn. by rewrite bool_decide_true.
    + intros other Ho Hne. cbn. rewrite Hl', Hl by done. cbn. by rewrite bool_decide_false.
  - apply updateStatus_None in Hu. by rewrite Hl in Hu.
Qed.

Lemma set_container_state_witness :
  let s := RegisterPending NewPodStore "u1" (demoPod "a" 250 64) 1 in
  ∃ ps', getPodState (SetContainerState 9 s "u1" "web" zeroContainerState true) "u1" = Some ps' ∧
    (λ cs, (cs.(cs_State), cs.(cs_Ready))) <$>
      statusOf ps'.(pst_pod).(p_Status).(ps_ContainerStatuses) "web" = Some (zeroContainerState, true).
Proof.
  cbn zeta.
  destruct (set_container_state 9 (RegisterPending NewPodStore "u1" (demoPod "a" 250 64) 1) "u1" "web"
    zeroContainerState true (newPodState (demoPod "a" 250 64) "" PodPending false (Some 1)))
    as (ps' & H1 & H2 & _).
  - reflexivity.
  - vm_compute. left.
  - vm_compute. constructor.
  - exists ps'. split; [exact H1|]. rewrite H2. reflexivity.
Defined.
