(* ===== verification/Persist.v ===== *)
(** * The state files of pods (node/podstate.go)

    One JSON file for each pod, below the pods directory of the pawn.  The
    directory is a map from the names of its entries; the uid of a pod is a
    plain file name, so it names the entry of the pod.  [encoding/json] is a
    pair of parameters, and the outcomes of the system calls are arguments of
    the operations.  A write is the sequence of states that the disk goes
    through, for the process may be killed at any of them. *)
From S2P Require Import Prelude Corev1 Float64 Monad Types Probes PodStore.
Import Str.

Record PersistedPodState := {
  pp_Pod : option Pod;
  pp_PodIP : string;
  pp_Phase : PodPhase;
  pp_Restarts : gmap string Z;
  pp_Backoffs : gmap string float64;
}.

(** What is written about a pod; a nil map is an empty one in the file. *)
Definition persistedState (store : PodStore) (pod : Pod) (phase : PodPhase) : PersistedPodState :=
  let uid := pod.(p_UID) in
  {| pp_Pod := Some pod; pp_PodIP := PodIP store uid; pp_Phase := phase;
     pp_Restarts := default ∅ (RestartCounts store uid); pp_Backoffs := default ∅ (RestartBackoffs store uid) |}.

(** An entry of the pods directory: a plain file, or a directory with the
    contents of its files. *)
Inductive Entry :=
  | EFile
  | EDir (files : gmap string string).

(** The pods directory; [None] when it does not exist. *)
Abbreviation PodsDir := (option (gmap string Entry)).

Definition podStateFile : string := "pod-state.json".
Definition tmpFile : string := podStateFile +:+ ".tmp".

Inductive WriteErr :=
  | ErrMkdir (err : string)
  | ErrMarshal (err : string)
  | ErrWriteTmp (err : string)
  | ErrRename (err : string).

Inductive ReadErr :=
  | ErrNotExist
  | ErrRead (err : string)
  | ErrUnmarshal (err : string).

(** The outcomes of the system calls of one write; [io_written] is how much of
    the data is on disk at some moment before the write of it ends. *)
Record WriteIO := {
  io_MkdirAll : option string;
  io_written : nat;
  io_WriteFile : option string;
  io_Rename : option string;
}.

Definition lookupDir (d : PodsDir) (name : string) : option (gmap string string) :=
  match d ≫= λ m, m !! name with Some (EDir files) => Some files | _ => None end.

(** [os.MkdirAll] of an entry. *)
Definition MkdirAll (d : PodsDir) (name : string) : option PodsDir :=
  match default ∅ d !! name with
  | Some EFile => None
  | Some (EDir _) => Some d
  | None => Some (Some (<[name := EDir ∅]> (default ∅ d)))
  end.

(** A change of the files of an existing entry. *)
Definition onFiles (d : PodsDir) (name : string) (f : gmap string string → gmap string string) : PodsDir :=
  (λ m, alter (λ e, match e with EDir files => EDir (f files) | EFile => EFile end) name m) <$> d.

Definition rename (src dst : string) (files : gmap string string) : gmap string string :=
  match files !! src with
  | Some data => <[dst := data]> (delete src files)
  | None => files
  end.

(** The disk, with the states that it went through. *)
Record Disk := { d_now : PodsDir; d_seen : list PodsDir }.

Definition setDisk {E} (f : PodsDir → PodsDir) : SE Disk E () :=
  modifyS (λ s, {| d_now := f s.(d_now); d_seen := s.(d_seen) ++ [f s.(d_now)] |}).

Section Json.
Context (Marshal : PersistedPodState → string + string) (Unmarshal : string → string + PersistedPodState).

(** [os.WriteFile]: the file is created or truncated, then filled. *)
Definition WriteFile (io : WriteIO) (uid file data : string) : SE Disk WriteErr () :=
  _ ← setDisk (λ d, onFiles d uid <[file := ""]>);
  _ ← setDisk (λ d, onFiles d uid <[file := stake io.(io_written) data]>);
  match io.(io_WriteFile) with
  | Some e => throw (ErrWriteTmp e)
  | None => setDisk (λ d, onFiles d uid <[file := data]>)
  end.

(** The pod of a state that is written is never nil. *)
Definition stateUID (state : PersistedPodState) : string := default "" (p_UID <$> state.(pp_Pod)).

Definition writePodState (io : WriteIO) (state : PersistedPodState) : SE Disk WriteErr () :=
  let uid := stateUID state in
  d ← gets d_now;
  _ ← match io.(io_MkdirAll), MkdirAll d uid with
      | None, Some d => setDisk (λ _, d)
      | Some e, _ => throw (ErrMkdir e)
      | None, None => throw (ErrMkdir "not a directory")
      end;
  data ← match Marshal state with
         | inl e => throw (ErrMarshal e)
         | inr data => mret data
         end;
  _ ← WriteFile io uid tmpFile data;
  match io.(io_Rename) with
  | Some e => throw (ErrRename e)
  | None => setDisk (λ d, onFiles d uid (rename tmpFile podStateFile))
  end.

(** [ioerr] is an error of [os.ReadFile] other than a missing file. *)
Definition readPodState (ioerr : option string) (d : PodsDir) (uid : string) : ReadErr + PersistedPodState :=
  match lookupDir d uid ≫= λ files, files !! podStateFile with
  | None => inl ErrNotExist
  | Some data =>
      match ioerr with
      | Some e => inl (ErrRead e)
      | None => match Unmarshal data with
                | inl e => inl (ErrUnmarshal e)
                | inr state => inr state
                end
      end
  end.

Definition deletePodState (d : PodsDir) (uid : string) : PodsDir := onFiles d uid (delete podStateFile).

(** [os.ReadDir]: the entries, sorted by name. *)
Definition ReadDir (m : gmap string Entry) : list (string * Entry) :=
  omap (λ name, pair name <$> m !! name) (sortStrings (map fst (map_to_list m))).

(** [ioerr] gives the read errors by uid.  The caller goes on with no states
    when the directory cannot be read. *)
Definition loadAllPodStates (ioerr : string → option string) (d : PodsDir) : list PersistedPodState :=
  match d with
  | None => []
  | Some m =>
      omap (λ '(uid, e),
        match e with
        | EFile => None
        | EDir _ =>
            match readPodState (ioerr uid) d uid with
            | inl _ => None
            | inr state => match state.(pp_Pod) with None => None | Some _ => Some state end
            end
        end) (ReadDir m)
  end.
End Json.

(** ** A write is atomic *)

Definition stateFile (d : PodsDir) (uid : string) : option string :=
  lookupDir d uid ≫= λ files, files !! podStateFile.

Lemma lookupDir_onFiles d uid f u :
  lookupDir (onFiles d uid f) u = (if decide (u = uid) then f <$> lookupDir d uid else lookupDir d u).
Proof.
  destruct d as [m|]; cbn; [|by case_decide]. unfold lookupDir. cbn. case_decide; subst.
  - rewrite lookup_alter_eq. by destruct (m !! uid) as [[]|].
  - by rewrite lookup_alter_ne.
Qed.

Lemma stateFile_onFiles d uid f u : (∀ files, f files !! podStateFile = files !! podStateFile) →
  stateFile (onFiles d uid f) u = stateFile d u.
Proof.
  intros Hf. unfold stateFile. rewrite lookupDir_onFiles. case_decide; [subst|done].
  destruct (lookupDir d uid); cbn; auto.
Qed.

Lemma lookupDir_MkdirAll d d' uid u : MkdirAll d uid = Some d' →
  stateFile d' u = stateFile d u ∧ is_Some (lookupDir d' uid).
Proof.
  unfold MkdirAll. destruct (default ∅ d !! uid) as [[|files]|] eqn:Hd; intros [= <-].
  - split; [done|]. destruct d as [m|]; cbn in Hd; [|done]. unfold lookupDir. cbn. rewrite Hd. eauto.
  - unfold stateFile, lookupDir. cbn. rewrite lookup_insert_eq. split; [|eauto].
    destruct (decide (u = uid)) as [->|Hu].
    + rewrite lookup_insert_eq. destruct d as [m|]; cbn in Hd; [|done]. cbn. by rewrite Hd.
    + rewrite lookup_insert_ne by done. by destruct d.
Qed.

Section Atomic.
Context (Marshal : PersistedPodState → string + string) (Unmarshal : string → string + PersistedPodState).
Context (d : PodsDir).

(** No state file has changed so far. *)
Definition quiet (s : Disk) : Prop :=
  (∀ d' u, d' ∈ s.(d_seen) → stateFile d' u = stateFile d u) ∧ ∀ u, stateFile s.(d_now) u = stateFile d u.

(** The directory of the pod exists, and [file] holds [data] when given. *)
Definition holds (uid : string) (data : option string) (s : Disk) : Prop :=
  ∃ files, lookupDir s.(d_now) uid = Some files ∧ (data = None ∨ files !! tmpFile = data).

Lemma quiet_setDisk E uid file text data R : file = tmpFile → data = None ∨ data = Some text →
  triple (λ s, quiet s ∧ holds uid None s) (@setDisk E (λ d, onFiles d uid <[file := text]>))
    (λ _ s, quiet s ∧ holds uid data s) R.
Proof.
  intros -> Hdata. apply triple_modify. intros s [[Hseen Hnow] (files & Hfiles & _)].
  assert (∀ u, stateFile (onFiles (d_now s) uid <[tmpFile:=text]>) u = stateFile d u) as Hq.
  { intros u. rewrite stateFile_onFiles; [done|]. intros. by rewrite lookup_insert_ne. }
  split; [split|].
  - intros d' u [Hd| ->%list_elem_of_singleton]%elem_of_app; auto.
  - done.
  - exists (<[tmpFile:=text]> files). cbn. rewrite lookupDir_onFiles, decide_True, Hfiles by done. split; [done|].
    destruct Hdata as [->| ->]; [by left|right; by rewrite lookup_insert_eq].
Qed.

Lemma WriteFile_quiet io uid data :
  triple (λ s, quiet s ∧ holds uid None s) (WriteFile io uid tmpFile data)
    (λ _ s, quiet s ∧ holds uid (Some data) s) (λ _ s, quiet s).
Proof.
  unfold WriteFile. eapply triple_bind; [by apply (quiet_setDisk _ _ _ _ None); auto|]. intros [].
  eapply triple_bind; [by apply (quiet_setDisk _ _ _ _ None); auto|]. intros [].
  destruct (io_WriteFile io); [apply triple_throw; tauto|]. apply quiet_setDisk; auto.
Qed.

(** What a reader of the new contents gets. *)
Definition decoded (data : string) : ReadErr + PersistedPodState :=
  match Unmarshal data with inl e => inl (ErrUnmarshal e) | inr state => inr state end.

Lemma readPodState_file ioerr d' d'' uid : stateFile d' uid = stateFile d'' uid →
  readPodState Unmarshal ioerr d' uid = readPodState Unmarshal ioerr d'' uid.
Proof. unfold readPodState, stateFile. by intros ->. Qed.

(** Every state of the disk shows each pod's old file, except that the one
    written may show its new contents. *)
Definition old_or_new (uid data : string) (d' : PodsDir) : Prop :=
  ∀ u, stateFile d' u = stateFile d u ∨ u = uid ∧ stateFile d' u = Some data.

Lemma rename_done E uid data R :
  triple (λ s, quiet s ∧ holds uid (Some data) s)
    (@setDisk E (λ d, onFiles d uid (rename tmpFile podStateFile)))
    (λ _ s, (∀ d', d' ∈ s.(d_seen) → old_or_new uid data d') ∧ s.(d_now) ∈ s.(d_seen) ∧ stateFile s.(d_now) uid = Some data) R.
Proof.
  apply triple_modify. intros s [[Hseen Hnow] (files & Hfiles & [?|Htmp])]; [done|]. cbn.
  assert (∀ u, stateFile (onFiles (d_now s) uid (rename tmpFile podStateFile)) u =
    if decide (u = uid) then Some data else stateFile d u) as Hd.
  { intros u. unfold stateFile at 1. rewrite lookupDir_onFiles. case_decide; subst; [|apply Hnow].
    rewrite Hfiles. cbn. unfold rename. by rewrite Htmp, lookup_insert_eq. }
  split_and!; [|by apply elem_of_app; right; left|by rewrite Hd, decide_True].
  intros d' [Hd'| ->%list_elem_of_singleton]%elem_of_app u; [left; auto|]. rewrite Hd. case_decide; auto.
Qed.

Lemma writePodState_triple io state :
  triple quiet (writePodState Marshal io state)
    (λ _ s, ∃ data, Marshal state = inr data ∧
       (∀ d', d' ∈ s.(d_seen) → old_or_new (stateUID state) data d') ∧ s.(d_now) ∈ s.(d_seen) ∧
       stateFile s.(d_now) (stateUID state) = Some data)
    (λ _ s, quiet s).
Proof.
  unfold writePodState. eapply (triple_bind _ (λ x s, quiet s ∧ x = s.(d_now))); [by apply triple_gets|]. intros d0.
  eapply (triple_bind _ (λ _ s, quiet s ∧ holds (stateUID state) None s)).
  { destruct (io_MkdirAll io); [apply triple_throw; tauto|].
    destruct (MkdirAll d0 _) as [d1|] eqn:Hd1; [|apply triple_throw; tauto].
    apply triple_modify. intros s [[Hseen Hnow] ->]. cbn.
    assert (∀ u, stateFile d1 u = stateFile d u) as Hq.
    { intros u. rewrite (proj1 (lookupDir_MkdirAll _ _ _ u Hd1)). apply Hnow. }
    split; [split|].
    - intros d' u [Hd| ->%list_elem_of_singleton]%elem_of_app; auto.
    - done.
    - destruct (lookupDir_MkdirAll _ _ _ "" Hd1) as [_ [files Hf]]. exists files. auto. }
  intros []. destruct (Marshal state) as [e|data]; [apply triple_throw_bind; tauto|]. apply triple_ret_bind.
  eapply triple_bind; [apply WriteFile_quiet|]. intros []. destruct (io_Rename io); [apply triple_throw; tauto|].
  eapply triple_conseq; [apply (rename_done _ _ data (λ _ s, quiet s))|by auto| |by auto].
  intros ? s H. eauto.
Qed.
End Atomic.

(** [writePodState] is atomic: whatever system calls fail, at every moment
    (a crash may stop it at any of them) a reader of the pod's file gets the
    state of before or the complete new one, and the files of the other pods
    are as before; a call that returns nil has stored the new state, and one
    that returns an error has left the old one. *)
Theorem writePodState_atomic Marshal Unmarshal io state d :
  let uid := stateUID state in
  let read d := readPodState Unmarshal None d in
  let '(s, r) := writePodState Marshal io state {| d_now := d; d_seen := [d] |} in
  (∀ d', d' ∈ s.(d_seen) →
     (read d' uid = read d uid ∨ ∃ data, Marshal state = inr data ∧ read d' uid = decoded Unmarshal data) ∧
     ∀ uid', uid' ≠ uid → read d' uid' = read d uid') ∧
  match r with
  | inr _ => ∃ data, Marshal state = inr data ∧ read s.(d_now) uid = decoded Unmarshal data
  | inl _ => read s.(d_now) uid = read d uid
  end.
Proof.
  intros uid read. destruct (writePodState Marshal io state _) as [s r] eqn:Hrun.
  eapply triple_run in Hrun; [|apply (writePodState_triple Marshal Unmarshal d)|].
  2: { split; [|done]. by intros d' u ->%list_elem_of_singleton. }
  assert (∀ d' u data, stateFile d' u = Some data → read d' u = decoded Unmarshal data) as Hread.
  { intros d' u data. unfold read, readPodState, stateFile, decoded. by intros ->. }
  destruct r as [e|_].
  - destruct Hrun as [Hseen Hnow]. split; [|apply readPodState_file, Hnow]. intros d' Hd'.
    split; [left|intros u _]; apply readPodState_file; auto.
  - destruct Hrun as (data & Hm & Hseen & _ & Hnow). split; [|eauto]. intros d' Hd'. split.
    + destruct (Hseen d' Hd' uid) as [?|[_ ?]]; [left; by apply readPodState_file|right; eauto].
    + intros u Hu. destruct (Hseen d' Hd' u) as [?|[? _]]; [by apply readPodState_file|done].
Qed.

(** After a write that succeeds, a reader gets what was written if decoding it
    gives it back, and the other files are as before. *)
Lemma written_read Marshal Unmarshal io state d s u ioerr :
  writePodState Marshal io state {| d_now := d; d_seen := [d] |} = (s, inr tt) →
  (∀ data, Marshal state = inr data → Unmarshal data = inr state) → ioerr = None ∨ u ≠ stateUID state →
  readPodState Unmarshal ioerr s.(d_now) u =
    if decide (u = stateUID state) then inr state else readPodState Unmarshal ioerr d u.
Proof.
  intros Hrun Hround Hio. eapply triple_run in Hrun; [|apply (writePodState_triple Marshal Unmarshal d)|].
  2: { split; [|done]. by intros d' u' ->%list_elem_of_singleton. }
  destruct Hrun as (data & Hm & Hseen & Hin & Hnow). case_decide as Hu.
  - subst u. destruct Hio as [->|]; [|done]. unfold readPodState. unfold stateFile in Hnow. by rewrite Hnow, (Hround _ Hm).
  - apply readPodState_file. destruct (Hseen _ Hin u) as [|[]]; done.
Qed.

(** ** Concurrent writers *)

(** The changes of the disk that a write without errors makes below an
    existing directory. *)
Definition writeSteps (uid data : string) : list (PodsDir → PodsDir) :=
  [λ d, onFiles d uid <[tmpFile := ""]>; λ d, onFiles d uid <[tmpFile := data]>;
   λ d, onFiles d uid (rename tmpFile podStateFile)].

Lemma onFiles_onFiles d uid f g : onFiles (onFiles d uid f) uid g = onFiles d uid (λ files, g (f files)).
Proof.
  destruct d as [m|]; cbn; [|done]. f_equal. apply map_eq. intros k. destruct (decide (k = uid)) as [->|].
  - rewrite !lookup_alter_eq. by destruct (m !! uid) as [[]|].
  - by rewrite !lookup_alter_ne.
Qed.

Lemma onFiles_ext d uid f g : (∀ files, f files = g files) → onFiles d uid f = onFiles d uid g.
Proof. intros H. destruct d as [m|]; cbn; [|done]. f_equal. apply alter_ext. intros [] _; by rewrite ?H. Qed.

Lemma writePodState_steps Marshal state data m files seen : Marshal state = inr data →
  m !! stateUID state = Some (EDir files) →
  (writePodState Marshal {| io_MkdirAll := None; io_written := 0; io_WriteFile := None; io_Rename := None |} state
     {| d_now := Some m; d_seen := seen |}).1.(d_now) =
  foldl (λ d f, f d) (Some m) (writeSteps (stateUID state) data).
Proof.
  intros Hm Hf. unfold writePodState, mbind, SE_bind, gets, MkdirAll.
  cbn [d_now io_MkdirAll default from_option id]. rewrite Hf, Hm.
  set (u := stateUID state).
  change (onFiles (onFiles (onFiles (onFiles (Some m) u <[tmpFile:=""]>) u <[tmpFile:=""]>) u <[tmpFile:=data]>) u
    (rename tmpFile podStateFile) = onFiles (onFiles (onFiles (Some m) u <[tmpFile:=""]>) u <[tmpFile:=data]>) u
    (rename tmpFile podStateFile)).
  rewrite !onFiles_onFiles. apply onFiles_ext. intros f. by rewrite !insert_insert_eq.
Qed.

(** Two goroutines may report the same pod at once, and both use the same
    temporary file: one renames the file that the other has just truncated.
    The steps of each writer are in their order; the file that a reader then
    finds is empty. *)
Example concurrent_writes_race :
  let a := writeSteps "u" "{old}" in let b := writeSteps "u" "{new}" in
  let interleaved := take 2 a ++ take 1 b ++ drop 2 a in
  stateFile (foldl (λ d f, f d) (Some {[ "u" := EDir ∅ ]}) interleaved) "u" = Some "".
Proof. vm_compute. reflexivity. Qed.

(** ** Loading *)

Lemma ReadDir_elem m name e : (name, e) ∈ ReadDir m ↔ m !! name = Some e.
Proof.
  unfold ReadDir. rewrite list_elem_of_omap. split.
  - intros (x & _ & Hx). by apply fmap_Some in Hx as (e' & ? & [= -> ->]).
  - intros H. exists name. rewrite H. split; [|done]. unfold sortStrings. rewrite merge_sort_Permutation.
    apply list_elem_of_fmap. exists (name, e). split; [done|]. by apply elem_of_map_to_list.
Qed.

Lemma loadAllPodStates_elem Unmarshal ioerr m state :
  state ∈ loadAllPodStates Unmarshal ioerr (Some m) ↔
  is_Some state.(pp_Pod) ∧ ∃ uid, readPodState Unmarshal (ioerr uid) (Some m) uid = inr state.
Proof.
  unfold loadAllPodStates. rewrite list_elem_of_omap. split.
  - intros ([uid [|files]] & _ & H); [done|]. destruct (readPodState _ _ _ uid) as [|st] eqn:Hr; [done|].
    destruct (pp_Pod st) eqn:Hp; [|done]. injection H as <-. split; [by rewrite Hp|eauto].
  - intros [[p Hp] [uid Hr]]. pose proof Hr as Hr'. unfold readPodState, lookupDir in Hr'. cbn in Hr'.
    destruct (m !! uid) as [[|files]|] eqn:Hm; [done| |done]. exists (uid, EDir files).
    split; [by apply ReadDir_elem|]. by rewrite Hr, Hp.
Qed.

(** ** Back-off delays *)

(** The delays of [BumpBackoff]: ten seconds, doubled up to five minutes. *)
Definition backoffValues : list Duration := map (λ s, s * Second)%Z [10; 20; 40; 80; 160; 300]%Z.

Lemma backoff_roundtrip d : d ∈ backoffValues → Duration_of_seconds (Seconds d) = d.
Proof.
  intros H. assert (Forall (λ d, Duration_of_seconds (Seconds d) = d) backoffValues) as Hall.
  { repeat constructor; vm_compute; reflexivity. }
  by eapply Forall_forall in Hall.
Qed.

Lemma bump_scheduled rs : rs.(backoff) ∈ backoffValues → (bump rs).(backoff) ∈ backoffValues.
Proof.
  intros H. assert (Forall (λ d, (if (5 * Minute <? wrap64 (d * 2))%Z then (5 * Minute)%Z else wrap64 (d * 2)) ∈ backoffValues) backoffValues)
    as Hall by (repeat constructor; vm_compute; set_solver).
  exact (proj1 (Forall_forall _ _) Hall _ H).
Qed.

Lemma persisted_restarts store pod phase name rs : RestartState store pod.(p_UID) name = Some rs →
  (persistedState store pod phase).(pp_Restarts) !! name = Some rs.(count) ∧
  (persistedState store pod phase).(pp_Backoffs) !! name = Some (Seconds rs.(backoff)).
Proof.
  unfold RestartState. intros (ps & Hps & Hrs)%bind_Some. unfold persistedState, RestartCounts, RestartBackoffs.
  cbn [pp_Restarts pp_Backoffs]. rewrite Hps. cbn [mbind option_bind].
  rewrite bool_decide_false by (intros Hn; by rewrite Hn in Hrs). cbn [default from_option id].
  by rewrite !lookup_fmap, Hrs.
Qed.
