(* ===== verification/Status.v ===== *)
(** * Pod status

    [node/status.go]: the status of a pod computed from its spec, the pod
    store and a lookup of container states ([buildPodStatus]), and the query
    that chooses between it and the stored status ([GetPodStatus]); with
    [resolveNodeIP] of [node/gambit.go]. *)
From S2P Require Import Prelude Corev1 Types Probes PodStore.

(** [outbound] is what [pki.GetOutboundIP] finds. *)
Definition resolveNodeIP (NodeIP : string) (outbound : option string) : string :=
  if negb (bool_decide (NodeIP = "")) then NodeIP
  else match outbound with Some ip => ip | None => "127.0.0.1" end.

Definition effectivePolicy (pod : Pod) : RestartPolicy :=
  if decide (pod.(p_RestartPolicy) = RestartPolicyZero) then RestartPolicyAlways else pod.(p_RestartPolicy).

Definition waiting (reason : string) : ContainerState :=
  {| zeroContainerState with Waiting := Some {| w_Reason := reason; w_Message := "" |} |}.

Definition terminated (code : Z) (reason : string) (startedAt finishedAt : Time) : ContainerState :=
  {| zeroContainerState with Terminated := Some {| t_ExitCode := code; t_Reason := reason; t_Message := "";
       t_StartedAt := startedAt; t_FinishedAt := finishedAt |} |}.

Section Status.
Context (s : PodStore) (uid : string) (policy : RestartPolicy) (previous : gmap string ContainerStatus).

(** The switch of [buildPodStatus]: the phase so far, the container and its
    state, to the phase, [cs.Ready] and [cs.State]. *)
Definition containerStatus (now : Time) (podPhase : PodPhase) (c : Container) (state : MachineState)
    : PodPhase * bool * ContainerState :=
  let startedAt := ContainerStartedAt s uid c.(c_Name) in
  match state with
  | StateRunning =>
      (podPhase, IsContainerReady s uid c.(c_Name),
       {| zeroContainerState with Running := Some {| r_StartedAt := startedAt |} |})
  | StateCreating => (PodPending, false, waiting "ContainerCreating")
  | StateUnknown =>
      let unknown := (podPhase, false, waiting "ContainerCreating") in
      if decide (podPhase = PodPending) then
        match previous !! c.(c_Name) with
        | Some cs => match cs.(cs_State).(Running) with
                     | Some _ => (podPhase, cs.(cs_Ready), cs.(cs_State))
                     | None => unknown
                     end
        | None => unknown
        end
      else unknown
  | StateFailed =>
      if decide (policy = RestartPolicyAlways ∨ policy = RestartPolicyOnFailure)
      then (PodRunning, false, waiting "CrashLoopBackOff")
      else (podPhase, false, terminated 1 "Error" startedAt now)
  | StateExited =>
      if decide (policy = RestartPolicyAlways)
      then (PodRunning, false, waiting "CrashLoopBackOff")
      else (podPhase, false, terminated 0 "Completed" startedAt now)
  | StateZero => (podPhase, false, zeroContainerState)
  end.

(** The loop; [clk i] is the clock at the [i]-th container. *)
Fixpoint containerStatuses (clk : nat → Time) (stateLookup : string → string → MachineState)
    (podPhase : PodPhase) (cs : list Container) : PodPhase * list ContainerStatus :=
  match cs with
  | [] => (podPhase, [])
  | c :: cs =>
      let '(podPhase, ready, state) := containerStatus (clk 0) podPhase c (stateLookup uid c.(c_Name)) in
      let st := {| cs_Name := c.(c_Name); cs_State := state; cs_Ready := ready;
                   cs_RestartCount := default 0%Z (RestartCounts s uid ≫= λ m, m !! c.(c_Name));
                   cs_Image := c.(c_Image) |} in
      let '(podPhase, sts) := containerStatuses (λ i, clk (S i)) stateLookup podPhase cs in
      (podPhase, st :: sts)
  end.
End Status.

Definition previousStatuses (pod : Pod) : gmap string ContainerStatus :=
  foldl (λ m cs, <[cs.(cs_Name) := cs]> m) ∅ pod.(p_Status).(ps_ContainerStatuses).

Definition buildPodStatus (clk : nat → Time) (hostIP : string) (s : PodStore) (pod : Pod)
    (stateLookup : string → string → MachineState) : PodStatus :=
  let uid := pod.(p_UID) in
  let '(podPhase, sts) :=
    containerStatuses s uid (effectivePolicy pod) (previousStatuses pod) clk stateLookup PodRunning pod.(p_Containers) in
  let allReady := forallb cs_Ready sts in
  let ip := PodIP s uid in
  {| zeroPodStatus with
     ps_Phase := podPhase; ps_HostIP := hostIP; ps_PodIP := ip;
     ps_PodIPs := if bool_decide (ip = "") then [] else [ip];
     ps_StartTime := pod.(p_Status).(ps_StartTime);
     ps_Conditions := [{| pc_Type := "Ready"; pc_Status := if allReady then ConditionTrue else ConditionFalse |}];
     ps_ContainerStatuses := sts |}.

(** [None] is the NotFound error.  [cache] is the lookup of the BatchWatcher
    when there is one, [machineStatus] the query of the runtime, [None] when it
    fails. *)
Definition GetPodStatus (clk : nat → Time) (hostIP : string) (s : PodStore)
    (cache : option (string → string → MachineState)) (machineStatus : string → string → option MachineState)
    (namespace name : string) : option PodStatus :=
  targetPod ← GetPod s namespace name;
  let uid := targetPod.(p_UID) in
  let phase := PodPhase_of s uid in
  Some
    (if decide (phase = PodPending) then
       let ip := PodIP s uid in
       let status := {| zeroPodStatus with ps_Phase := PodPending |} in
       if negb (bool_decide (ip = "")) then {| status with ps_PodIP := ip; ps_PodIPs := [ip] |} else status
     else if decide (phase = PodSucceeded ∨ phase = PodFailed) then targetPod.(p_Status)
     else if decide (targetPod.(p_Status).(ps_Phase) = PodFailed) then targetPod.(p_Status)
     else buildPodStatus clk hostIP s targetPod
            (match cache with
             | Some lookup => lookup
             | None => λ uid c, default StateUnknown (machineStatus uid c)
             end)).

(** ** Lemmas *)

(** The containers whose state sets the phase, and what they set it to. *)
Definition phaseSet (policy : RestartPolicy) (state : MachineState) : option PodPhase :=
  match state with
  | StateCreating => Some PodPending
  | StateFailed => if decide (policy = RestartPolicyAlways ∨ policy = RestartPolicyOnFailure)
                   then Some PodRunning else None
  | StateExited => if decide (policy = RestartPolicyAlways) then Some PodRunning else None
  | _ => None
  end.

Lemma containerStatus_phase s uid policy prev now ph c st :
  (containerStatus s uid policy prev now ph c st).1.1 = default ph (phaseSet policy st).
Proof. destruct st; cbn; repeat case_match; try done. Qed.

Lemma containerStatuses_phase s uid policy prev lookup cs : ∀ clk ph,
  (containerStatuses s uid policy prev clk lookup ph cs).1 =
    default ph (last (omap (λ c, phaseSet policy (lookup uid c.(c_Name))) cs)).
Proof.
  induction cs as [|c cs IH]; intros clk ph; [done|]. cbn [containerStatuses].
  destruct (containerStatus _ _ _ _ _ _ _ _) as [[ph1 r] st1] eqn:E.
  destruct (containerStatuses _ _ _ _ _ _ ph1 cs) as [ph2 l] eqn:E2.
  cbn [fst]. change ph2 with (ph2, l).1. rewrite <- E2, IH. cbn.
  pose proof (containerStatus_phase s uid policy prev (clk 0) ph c (lookup uid (c_Name c))) as Hp.
  rewrite E in Hp. cbn in Hp. rewrite Hp. destruct (phaseSet policy (lookup uid (c_Name c))); cbn; [|done].
  by destruct (last (omap _ cs)) eqn:El; rewrite last_cons, El.
Qed.

(** Why a container is reported as ready. *)
Definition readyReason (s : PodStore) (uid : string) (prev : gmap string ContainerStatus) (name : string)
    (state : MachineState) (cs : ContainerState) : Prop :=
  (state = StateRunning ∧ IsContainerReady s uid name = true) ∨
  (state = StateUnknown ∧ ∃ old, prev !! name = Some old ∧ old.(cs_Ready) = true ∧ cs = old.(cs_State)).

Lemma containerStatus_ready s uid policy prev now ph c st ph' cs :
  containerStatus s uid policy prev now ph c st = (ph', true, cs) →
  is_Some cs.(Running) ∧ readyReason s uid prev c.(c_Name) st cs.
Proof.
  unfold readyReason. destruct st; cbn; intros H; repeat case_match; simplify_eq/=; eauto 10.
Qed.

Lemma containerStatuses_Forall2 s uid policy prev lookup cs : ∀ clk ph,
  Forall2 (λ c st, st.(cs_Name) = c.(c_Name) ∧ st.(cs_Image) = c.(c_Image) ∧
      (st.(cs_Ready) = true → is_Some st.(cs_State).(Running) ∧
         readyReason s uid prev c.(c_Name) (lookup uid c.(c_Name)) st.(cs_State)))
    cs (containerStatuses s uid policy prev clk lookup ph cs).2.
Proof.
  induction cs as [|c cs IH]; intros clk ph; [constructor|]. cbn [containerStatuses].
  destruct (containerStatus _ _ _ _ _ _ _ _) as [[ph1 r] st1] eqn:E.
  destruct (containerStatuses _ _ _ _ _ _ ph1 cs) as [ph2 l] eqn:E2. cbn [snd].
  specialize (IH (λ i, clk (S i)) ph1). rewrite E2 in IH. constructor; [|done].
  split_and!; [done..|]. cbn. intros ->. by eapply containerStatus_ready.
Qed.

(** ** Properties *)

(** The computed status: one entry per container of the spec, in order,
    with its name and image; a container is reported ready only while it is
    reported running, and because its probe says so or, when its state is
    unknown, because its last status did; the Ready condition is True exactly
    when every container is ready; and the phase is never a terminal one. *)
Theorem buildPodStatus_sound clk hostIP s pod lookup :
  let st := buildPodStatus clk hostIP s pod lookup in
  Forall2 (λ c cs, cs.(cs_Name) = c.(c_Name) ∧ cs.(cs_Image) = c.(c_Image) ∧
      (cs.(cs_Ready) = true → is_Some cs.(cs_State).(Running) ∧
         readyReason s pod.(p_UID) (previousStatuses pod) c.(c_Name) (lookup pod.(p_UID) c.(c_Name)) cs.(cs_State)))
    pod.(p_Containers) st.(ps_ContainerStatuses) ∧
  (st.(ps_Conditions) = [{| pc_Type := "Ready"; pc_Status := ConditionTrue |}] ↔
     Forall (λ cs, cs.(cs_Ready) = true) st.(ps_ContainerStatuses)) ∧
  (st.(ps_Phase) = PodRunning ∨ st.(ps_Phase) = PodPending).
Proof.
  cbn zeta. unfold buildPodStatus.
  pose proof (containerStatuses_Forall2 s (p_UID pod) (effectivePolicy pod) (previousStatuses pod) lookup
    (p_Containers pod) clk PodRunning) as HF.
  pose proof (containerStatuses_phase s (p_UID pod) (effectivePolicy pod) (previousStatuses pod) lookup
    (p_Containers pod) clk PodRunning) as Hp.
  destruct (containerStatuses _ _ _ _ _ _ _ _) as [ph sts]. cbn in HF, Hp |- *. split_and!; [done|..].
  - assert (forallb cs_Ready sts = true ↔ Forall (λ cs, cs_Ready cs = true) sts) as <-.
    { rewrite forallb_forall, Forall_forall. by setoid_rewrite <- list_elem_of_In. }
    destruct (forallb cs_Ready sts); split; done.
  - rewrite Hp. destruct (last _) as [x|] eqn:El; [|by left].
    apply last_Some_elem_of, list_elem_of_omap in El as (c & _ & Hc).
    unfold phaseSet in Hc. repeat case_match; simplify_eq/=; auto.
Qed.

(** The phase is set by the last container whose state sets one. *)
Lemma buildPodStatus_phase clk hostIP s pod lookup :
  (buildPodStatus clk hostIP s pod lookup).(ps_Phase) =
    default PodRunning (last (omap (λ c, phaseSet (effectivePolicy pod) (lookup pod.(p_UID) c.(c_Name)))
                                   pod.(p_Containers))).
Proof.
  rewrite <- (containerStatuses_phase s (p_UID pod) (effectivePolicy pod) (previousStatuses pod) lookup
    (p_Containers pod) clk PodRunning).
  unfold buildPodStatus. by destruct (containerStatuses _ _ _ _ _ _ _ _).
Qed.

(** Defect: the phase depends on the order of the containers of the spec.  With
    a container that is still being created and one that crashed, the pod is
    Pending or Running depending on which one comes last. *)
Theorem phase_depends_on_order clk hostIP s a b lookup :
  a.(c_Name) ≠ b.(c_Name) →
  lookup "u" a.(c_Name) = StateCreating → lookup "u" b.(c_Name) = StateFailed →
  (buildPodStatus clk hostIP s {| zeroPod with p_UID := "u"; p_Containers := [a; b] |} lookup).(ps_Phase) = PodRunning ∧
  (buildPodStatus clk hostIP s {| zeroPod with p_UID := "u"; p_Containers := [b; a] |} lookup).(ps_Phase) = PodPending.
Proof. intros _ Ha Hb. rewrite !buildPodStatus_phase. cbn. by rewrite Ha, Hb. Qed.
