(* ===== verification/BatchWatcher.v ===== *)
(** * Batch watcher

    [node/batchwatcher.go]: the loop that compares the machines of systemd
    with the pods of the store, applies the restart policy, runs the probes
    and pushes the statuses that changed; with [ListManagedMachines] of
    [internal/runtime/systemd/runtime.go], where its input comes from.

    The Go maps [prevStateMap] and [stateCache] are references: [poll] stores
    the same new map in both, and [handleUnitEvent] writes through the second.
    They are therefore indices into a heap of maps.  [poll] and
    [handleUnitEvent] run on one goroutine; the goroutines of the probe
    fan-out touch the states of different containers and are run in sequence.
    A poll is one step: changes of the store by other goroutines during a poll
    are not in the model.
    What leaves the watcher (events, status pushes, restart goroutines, unit
    resets, facts) is a list of outputs. *)
From stdpp Require Import pretty.
From S2P Require Import Prelude Corev1 Types UnitNames Probes PodStore Status.
Import Str.

(** ** The machines of systemd *)

(** A unit as systemd lists it, with the properties that are read for it;
    [u_ExecMainStatus] is 0 when it is unavailable. *)
Record Unit := {
  u_Name : string;
  u_ActiveState : string;
  u_ExecMainStatus : Z;
  u_Env : gmap string string;
}.

Record PodMetadata := {
  pm_UID : string;
  pm_Name : string;
  pm_Namespace : string;
  pm_NodeName : string;
  pm_PodIP : string;
  pm_ContainerName : string;
  pm_State : MachineState;
  pm_ExitCode : Z;
}.

Definition mapActiveState (s : string) : MachineState :=
  if bool_decide (s = "active") || bool_decide (s = "reloading") then StateRunning
  else if bool_decide (s = "activating") then StateCreating
  else if bool_decide (s = "failed") then StateFailed
  else StateExited.

Definition env_get (m : gmap string string) (k : string) : string := default "" (m !! k).

(** [units] is the listing, [None] when it failed. *)
Definition ListManagedMachines (pawnName : string) (units : option (list Unit)) : option (list PodMetadata) :=
  let prefix := "perigeos-" +:+ pawnName +:+ "-pod-" in
  map (λ unit,
    let state := mapActiveState unit.(u_ActiveState) in
    let exitCode := unit.(u_ExecMainStatus) in
    let state := if bool_decide (state = StateExited) && negb (exitCode =? 0)%Z then StateFailed else state in
    let uid := env_get unit.(u_Env) "PERIGEOS_META_UID" in
    let uid := if bool_decide (uid = "") then trim_suffix (trim_prefix unit.(u_Name) prefix) ".service" else uid in
    {| pm_UID := uid; pm_Name := env_get unit.(u_Env) "PERIGEOS_META_NAME";
       pm_Namespace := env_get unit.(u_Env) "PERIGEOS_META_NAMESPACE";
       pm_NodeName := env_get unit.(u_Env) "PERIGEOS_META_NODENAME";
       pm_PodIP := env_get unit.(u_Env) "PERIGEOS_META_IP";
       pm_ContainerName := env_get unit.(u_Env) "PERIGEOS_META_CONTAINER";
       pm_State := state; pm_ExitCode := exitCode |}) <$> units.

(** ** State and outputs *)

Record BatchWatcher := {
  store : PodStore;
  maps : list (gmap string MachineState);
  prevStateMap : nat;
  stateCache : nat;
  prevReady : gmap string bool;
  seenRunning : gset string;
  restarting : gset string;
  pokeCh : bool;
}.

(** [BNotify] carries the UID at which the pod was read from the store. *)
Inductive BWOut :=
  | BEvent (pod : Pod) (EventType Reason Message : string)
  | BNotify (uid : string) (pod : Pod)
  | BRestart (uid : string) (pod : Pod) (containerName : string) (count : Z) (backoff : Duration)
  | BReset (uid containerName : string)
  | BFact (f : Fact).

Definition containerKey (uid containerName : string) : string := uid +:+ "/" +:+ containerName.

Definition readMap (bw : BatchWatcher) (r : nat) : gmap string MachineState := default ∅ (bw.(maps) !! r).

(** A loop that threads a state and collects outputs. *)
Fixpoint iter {S A O} (f : S → A → S * list O) (s : S) (l : list A) : S * list O :=
  match l with
  | [] => (s, [])
  | a :: l =>
      let '(s, out) := f s a in
      let '(s, out') := iter f s l in (s, out ++ out')
  end.

Definition StartBatchWatcher (s : PodStore) : BatchWatcher := {|
  store := s; maps := [∅; ∅]; prevStateMap := 0; stateCache := 1; prevReady := ∅;
  seenRunning := list_to_set (pod ← GetPods s;
    if decide (PodPhase_of s pod.(p_UID) = PodRunning)
    then map (λ c, containerKey pod.(p_UID) c.(c_Name)) pod.(p_Containers) else []);
  restarting := ∅; pokeCh := false |}.

Definition Poke (bw : BatchWatcher) : BatchWatcher := {| bw with pokeCh := true |}.

Definition MarkRunning (bw : BatchWatcher) (uid containerName : string) : BatchWatcher :=
  {| bw with seenRunning := {[containerKey uid containerName]} ∪ bw.(seenRunning) |}.

Definition ContainerState_of (bw : BatchWatcher) (uid containerName : string) : MachineState :=
  default StateUnknown (readMap bw bw.(stateCache) !! containerKey uid containerName).

Definition podName (pod : option Pod) : string :=
  match pod with Some pod => pod.(p_Name) | None => "<unknown>" end.

Definition isInitContainer (pod : Pod) (containerName : string) : bool :=
  existsb (λ c, bool_decide (c.(c_Name) = containerName)) pod.(p_InitContainers).

(** A missing key: restarting, completed, or not yet created. *)
Definition makeStateLookup (bw : BatchWatcher) (stateMap : gmap string MachineState) (uid containerName : string)
    : MachineState :=
  let key := containerKey uid containerName in
  match stateMap !! key with
  | Some s => s
  | None =>
      if decide (key ∈ bw.(restarting)) then StateFailed
      else if decide (key ∈ bw.(seenRunning)) then StateExited
      else StateUnknown
  end.

(** ** Restarts and probes *)

(** The goroutine that is started is the output [BRestart]; it removes the key
    from [restarting] when it ends ([restartDone]). *)
Definition maybeRestart (bw : BatchWatcher) (uid : string) (pod : Pod) (containerName : string)
    : BatchWatcher * list BWOut :=
  let key := containerKey uid containerName in
  if IsDeleting bw.(store) uid then (bw, [])
  else if decide (key ∈ bw.(restarting)) then (bw, [])
  else
    let bw := {| bw with restarting := {[key]} ∪ bw.(restarting) |} in
    let '(s, (count, backoff)) := BumpBackoff bw.(store) uid containerName in
    let bw := {| bw with store := s |} in
    if (count =? 0)%Z then ({| bw with restarting := bw.(restarting) ∖ {[key]} |}, [])
    else (bw, [BRestart uid pod containerName count backoff]).

Definition restartDone (bw : BatchWatcher) (key : string) : BatchWatcher :=
  {| bw with restarting := bw.(restarting) ∖ {[key]} |}.

Definition emitProbe (uid : string) (pod : Pod) (bw : BatchWatcher) (o : ProbeOut) : BatchWatcher * list BWOut :=
  match o with
  | OutEvent t r m => (bw, [BEvent pod t r m])
  | OutRestart c => maybeRestart bw uid pod c
  | OutFact f => (bw, [BFact f])
  end.

(** [BatchWatcher.runProbes]: the evaluation of [Probes.runProbes] on the
    probe state of the store. *)
Definition runContainerProbes (env : string → ProbeEnv) (bw : BatchWatcher) (uid : string) (pod : Pod) (c : Container)
    : BatchWatcher * list BWOut :=
  match ProbeState bw.(store) uid c.(c_Name) with
  | None => (bw, [])
  | Some ps =>
      let '(ps, out) := runProbes env c ps in
      let bw := {| bw with store := UpdateProbeState bw.(store) uid c.(c_Name) (λ _, ps) |} in
      iter (emitProbe uid pod) bw out
  end.

(** ** Unit events *)

(** The environment of one call: the listing of the machines, the order in
    which the store's map is ranged over, the probe environments (stage 0: the
    due check of the fan-out, 1: its goroutine, 2: [checkPod]), the clock
    readings and the address of the host. *)
Record PollEnv := {
  pe_machines : option (list PodMetadata);
  pe_order : list PodEntry → list PodEntry;
  pe_probe : nat → string → string → string → ProbeEnv;
  pe_since : string → string → Time;
  pe_stamp : string → string → Time;
  pe_clk : nat → Time;
  pe_hostIP : string;
}.

Definition restartBackoffReset : Duration := 10 * Minute.

(** ** One pod *)

(** [allExited], [allSucceeded] and [anyRestarting]. *)
Record Flags := { allExited : bool; allSucceeded : bool; anyRestarting : bool }.

Definition exitMessage (name : string) (code : Z) : string :=
  "Container " +:+ name +:+ " exited with error (code " +:+ pretty code +:+ ")".

Section Poll.
Variables (env : PollEnv) (stateMap : gmap string MachineState) (exitCodeMap : gmap string Z).

Definition busy (fl : Flags) : Flags := {| fl with allExited := false; allSucceeded := false |}.

(** [if prev, ok := bw.prevStateMap[key]; !ok || prev != state] *)
Definition transition (bw : BatchWatcher) (key : string) (state : MachineState) : bool :=
  negb (bool_decide (readMap bw bw.(prevStateMap) !! key = Some state)).

Definition clearState (bw : BatchWatcher) (uid name : string) : BatchWatcher :=
  {| bw with store := SetContainerState (env.(pe_stamp) uid name) bw.(store) uid name (waiting "") false |}.

(** The cases of the switch. *)
Definition checkRunning (uid : string) (pod : Pod) (bw : BatchWatcher) (c : Container) : BatchWatcher * list BWOut :=
  let bw := MarkRunning bw uid c.(c_Name) in
  let bw :=
    match RestartState bw.(store) uid c.(c_Name) with
    | Some rs => if (restartBackoffReset <? env.(pe_since) uid c.(c_Name) - rs.(lastStarted))%Z
                 then {| bw with store := ResetBackoff bw.(store) uid c.(c_Name) |} else bw
    | None => bw
    end in
  runContainerProbes (env.(pe_probe) 2 uid c.(c_Name)) bw uid pod c.

Definition restartIf (b : bool) (uid : string) (pod : Pod) (bw : BatchWatcher) (c : Container) (fl : Flags)
    : BatchWatcher * Flags * list BWOut :=
  if b then
    let '(bw, out) := maybeRestart bw uid pod c.(c_Name) in
    (bw, {| fl with allExited := false; anyRestarting := true |}, out)
  else (bw, fl, []).

Definition checkFailed (uid : string) (pod : Pod) (policy : RestartPolicy) (bw : BatchWatcher) (c : Container)
    (fl : Flags) : BatchWatcher * Flags * list BWOut :=
  let key := containerKey uid c.(c_Name) in
  let bw := clearState bw uid c.(c_Name) in
  let ev := if transition bw key StateFailed
            then [BEvent pod "Warning" "Failed" (exitMessage c.(c_Name) (default 0%Z (exitCodeMap !! key)))] else [] in
  let '(bw, fl, out) :=
    restartIf (bool_decide (policy = RestartPolicyAlways ∨ policy = RestartPolicyOnFailure)) uid pod bw c
      {| fl with allSucceeded := false |} in
  (bw, fl, ev ++ out).

Definition checkExited (uid : string) (pod : Pod) (policy : RestartPolicy) (bw : BatchWatcher) (c : Container)
    (fl : Flags) : BatchWatcher * Flags * list BWOut :=
  let key := containerKey uid c.(c_Name) in
  let bw := clearState bw uid c.(c_Name) in
  let exitCode := default 0%Z (exitCodeMap !! key) in
  let ev := if transition bw key StateExited then
              if (exitCode =? 0)%Z
              then [BEvent pod "Normal" "Completed"
                      ("Container " +:+ c.(c_Name) +:+ " exited with code " +:+ pretty exitCode)]
              else [BEvent pod "Warning" "Failed" (exitMessage c.(c_Name) exitCode)]
            else [] in
  let '(bw, fl, out) := restartIf (bool_decide (policy = RestartPolicyAlways)) uid pod bw c fl in
  (bw, fl, ev ++ out).

(** One round of the loop of [checkPod]. *)
Definition checkContainer (uid : string) (pod : Pod) (policy : RestartPolicy) (st : BatchWatcher * Flags)
    (c : Container) : (BatchWatcher * Flags) * list BWOut :=
  let '(bw, fl) := st in
  let key := containerKey uid c.(c_Name) in
  let exists_ := match stateMap !! key with Some _ => true | None => false end in
  let state := default StateExited (stateMap !! key) in
  if decide (key ∈ bw.(restarting)) then ((bw, busy fl), [])
  else
    let unseen := negb (bool_decide (key ∈ bw.(seenRunning)))
                  && (bool_decide (state = StateExited) || bool_decide (state = StateUnknown)) in
    let fastExit := exists_ && bool_decide (state = StateExited) && (default 0%Z (exitCodeMap !! key) =? 0)%Z in
    if unseen && negb fastExit then ((bw, busy fl), [])
    else
      let bw := if unseen then MarkRunning bw uid c.(c_Name) else bw in
      match state with
      | StateRunning => let '(bw, out) := checkRunning uid pod bw c in ((bw, busy fl), out)
      | StateCreating => ((bw, busy fl), [])
      | StateFailed => checkFailed uid pod policy bw c fl
      | StateExited => checkExited uid pod policy bw c fl
      | StateUnknown | StateZero => ((bw, fl), [])
      end.

(** [status.DeepCopyInto(&currentPod.Status); NotifyStatus(currentPod)] *)
Definition withStatus (pod : Pod) (status : PodStatus) : Pod := {| pod with p_Status := status |}.

Definition eagerPush (uid : string) (bw : BatchWatcher) : list BWOut :=
  match GetPodCopy bw.(store) uid with
  | Some currentPod =>
      let status := buildPodStatus env.(pe_clk) env.(pe_hostIP) bw.(store) currentPod (makeStateLookup bw stateMap) in
      if decide (status.(ps_Phase) = PodRunning) then [BNotify uid (withStatus currentPod status)] else []
  | None => []
  end.

Definition terminalLookup (uid containerName : string) : MachineState :=
  default StateExited (stateMap !! containerKey uid containerName).

(** All containers have exited and none is restarted. *)
Definition setTerminal (uid : string) (pod : Pod) (terminalPhase : PodPhase) (bw : BatchWatcher)
    : BatchWatcher * list BWOut :=
  let bw := {| bw with store := SetPhase bw.(store) uid terminalPhase |} in
  (bw,
   match GetPodCopy bw.(store) uid with
   | Some currentPod =>
       let status := buildPodStatus env.(pe_clk) env.(pe_hostIP) bw.(store) currentPod terminalLookup in
       [BNotify uid (withStatus currentPod {| status with ps_Phase := terminalPhase |})]
   | None => []
   end ++ map (λ c, BReset uid c.(c_Name)) pod.(p_Containers)).

Definition checkPod (bw : BatchWatcher) (uid : string) (pod : Pod) : BatchWatcher * list BWOut :=
  let policy := effectivePolicy pod in
  let '((bw, fl), out) :=
    iter (checkContainer uid pod policy) (bw, {| allExited := true; allSucceeded := true; anyRestarting := false |})
      pod.(p_Containers) in
  let eager := if fl.(anyRestarting) && negb (IsDeleting bw.(store) uid) then eagerPush uid bw else [] in
  if negb fl.(allExited) then (bw, out ++ eager)
  else
    let '(bw, out') := setTerminal uid pod (if fl.(allSucceeded) then PodSucceeded else PodFailed) bw in
    (bw, out ++ eager ++ out').

(** ** One poll *)

Definition isTerminal (phase : PodPhase) : bool := bool_decide (phase = PodSucceeded ∨ phase = PodFailed).

Definition fanOutContainer (e : PodEntry) (bw : BatchWatcher) (c : Container) : BatchWatcher * list BWOut :=
  let uid := e.(pe_UID) in
  if negb (bool_decide (stateMap !! containerKey uid c.(c_Name) = Some StateRunning)) then (bw, [])
  else match ProbeState bw.(store) uid c.(c_Name) with
       | None => (bw, [])
       | Some ps =>
           let '(ps, due) := hasAnyDue (env.(pe_probe) 0 uid c.(c_Name)) c ps in
           let bw := {| bw with store := UpdateProbeState bw.(store) uid c.(c_Name) (λ _, ps) |} in
           if due then runContainerProbes (env.(pe_probe) 1 uid c.(c_Name)) bw uid e.(pe_Pod) c else (bw, [])
       end.

Definition fanOut (bw : BatchWatcher) (e : PodEntry) : BatchWatcher * list BWOut :=
  if bool_decide (e.(pe_Phase) = PodPending) || isTerminal e.(pe_Phase) then (bw, [])
  else iter (fanOutContainer e) bw e.(pe_Pod).(p_Containers).

(** A container of a finished pod whose known state changed. *)
Definition needsReeval (bw : BatchWatcher) (e : PodEntry) : bool :=
  existsb (λ c,
    let key := containerKey e.(pe_UID) c.(c_Name) in
    match readMap bw bw.(prevStateMap) !! key, stateMap !! key with
    | Some prev, Some cur => negb (bool_decide (prev = cur))
    | _, _ => false
    end) e.(pe_Pod).(p_Containers).

(** The detection of changes for one container: the new [prevReady], and
    whether [changedPods] gets the pod. *)
Definition detect (uid : string) (bw : BatchWatcher) (c : Container) : BatchWatcher * bool :=
  let key := containerKey uid c.(c_Name) in
  let cur := default StateZero (stateMap !! key) in
  let changed := transition bw key cur in
  if decide (cur = StateRunning) then
    match ProbeState bw.(store) uid c.(c_Name) with
    | Some _ =>
        let ready := IsContainerReady bw.(store) uid c.(c_Name) in
        if bool_decide (bw.(prevReady) !! key = Some ready) then (bw, changed)
        else ({| bw with prevReady := <[key := ready]> bw.(prevReady) |}, true)
    | None => (bw, changed)
    end
  else (bw, changed).

Definition detectAll (uid : string) (bw : BatchWatcher) (cs : list Container) : BatchWatcher * bool :=
  foldl (λ '(bw, changed) c, let '(bw, b) := detect uid bw c in (bw, changed || b)) (bw, false) cs.

(** One entry of the main loop; the set is [changedPods]. *)
Definition pollEntry (st : BatchWatcher * gset string) (e : PodEntry) : (BatchWatcher * gset string) * list BWOut :=
  let '(bw, changedPods) := st in
  if bool_decide (e.(pe_Phase) = PodPending) then (st, [])
  else if IsDeleting bw.(store) e.(pe_UID) then (st, [])
  else if isTerminal e.(pe_Phase) && negb (needsReeval bw e) then (st, [])
  else if bool_decide (e.(pe_Pod).(p_Containers) = []) then (st, [])
  else
    let '(bw, changed) := detectAll e.(pe_UID) bw e.(pe_Pod).(p_Containers) in
    let changedPods := if changed then {[e.(pe_UID)]} ∪ changedPods else changedPods in
    let '(bw, out) := checkPod bw e.(pe_UID) e.(pe_Pod) in
    ((bw, changedPods), out).

(** The coalescer, for one entry. *)
Definition coalesce (changedPods : gset string) (bw : BatchWatcher) (e : PodEntry) : BatchWatcher * list BWOut :=
  let uid := e.(pe_UID) in
  if negb (bool_decide (uid ∈ changedPods)) then (bw, [])
  else
    let currentPhase := PodPhase_of bw.(store) uid in
    if bool_decide (currentPhase = PodPending) || isTerminal currentPhase then (bw, [])
    else match GetPodCopy bw.(store) uid with
         | None => (bw, [])
         | Some currentPod =>
             let status :=
               buildPodStatus env.(pe_clk) env.(pe_hostIP) bw.(store) currentPod (makeStateLookup bw stateMap) in
             (bw, [BNotify uid (withStatus currentPod status)])
         end.
End Poll.

Definition stateMapOf (machines : list PodMetadata) : gmap string MachineState :=
  foldl (λ m x, <[containerKey x.(pm_UID) x.(pm_ContainerName) := x.(pm_State)]> m) ∅ machines.
Definition exitCodeMapOf (machines : list PodMetadata) : gmap string Z :=
  foldl (λ m x, <[containerKey x.(pm_UID) x.(pm_ContainerName) := x.(pm_ExitCode)]> m) ∅ machines.

Definition activeKeys (entries : list PodEntry) : gset string :=
  list_to_set (e ← entries; map (λ c, containerKey e.(pe_UID) c.(c_Name)) e.(pe_Pod).(p_Containers)).

Definition poll (env : PollEnv) (bw : BatchWatcher) : BatchWatcher * list BWOut :=
  match env.(pe_machines) with
  | None => (bw, [])
  | Some machines =>
      let stateMap := stateMapOf machines in
      let exitCodeMap := exitCodeMapOf machines in
      let ref := length bw.(maps) in
      let bw := {| bw with maps := bw.(maps) ++ [stateMap]; stateCache := ref |} in
      let entries := env.(pe_order) (Snapshot bw.(store)) in
      let '(bw, out1) := iter (fanOut env stateMap) bw entries in
      let '((bw, changedPods), out2) := iter (pollEntry env stateMap exitCodeMap) (bw, ∅) entries in
      let '(bw, out3) := iter (coalesce env stateMap changedPods) bw entries in
      let keys := activeKeys entries in
      ({| bw with prevStateMap := ref;
                  prevReady := filter (λ kv, kv.1 ∈ keys) bw.(prevReady);
                  seenRunning := bw.(seenRunning) ∩ keys |},
       out1 ++ out2 ++ out3)
  end.

(** ** Unit events *)

Record UnitEvent := { ev_UnitName : string; ev_SubState : string }.

(** The state for the cache; [None] is the [default] case, which returns. *)
Definition mapSubState (sub : string) : option MachineState :=
  if bool_decide (sub = "running") then Some StateRunning
  else if bool_decide (sub = "failed") then Some StateFailed
  else if bool_decide (sub ∈ ["start-pre"; "start"; "start-post"]) then Some StateCreating
  else None.

Definition killEvents (pod : option Pod) (containerName sub : string) : list BWOut :=
  match pod with
  | None => []
  | Some pod =>
      if bool_decide (sub ∈ ["stop-sigterm"; "stop-watchdog"]) then
        [BEvent pod "Normal" "Killing"
           ("Container " +:+ containerName +:+ " received SIGTERM, waiting for graceful exit")]
      else if bool_decide (sub ∈ ["stop-sigkill"; "stop-kill"]) then
        [BEvent pod "Warning" "Killing"
           ("Container " +:+ containerName +:+ " grace period expired, sending SIGKILL")]
      else []
  end.

(** [bw.stateCache[key] = state], through the reference. *)
Definition cacheState (bw : BatchWatcher) (key : string) (state : MachineState) : BatchWatcher :=
  {| bw with maps := alter (<[key := state]>) bw.(stateCache) bw.(maps) |}.

(** [sendFact] tells whether the callback [SendFact] is set. *)
Definition handleUnitEvent (env : PollEnv) (sendFact : bool) (PawnName : string) (bw : BatchWatcher) (ev : UnitEvent)
    : BatchWatcher * list BWOut :=
  let sub := ev.(ev_SubState) in
  if negb (has_prefix ev.(ev_UnitName) ("perigeos-" +:+ PawnName +:+ "-")) then (bw, [])
  else
    let '(uid, containerName) := default ("", "") (ParseUnitName PawnName ev.(ev_UnitName)) in
    if bool_decide (uid = "") then (bw, [])
    else
      let pod := GetPodCopy bw.(store) uid in
      let isInit := match pod with Some pod => isInitContainer pod containerName | None => false end in
      let bw := if negb (bool_decide (sub ∈ ["running"; "start"; "start-pre"; "start-post"]))
                then clearState env bw uid containerName else bw in
      let out := killEvents pod containerName sub ++
                 (if sendFact then [BFact (UnitFact uid ev.(ev_UnitName) sub 0)] else []) in
      match mapSubState sub with
      | None => (bw, out)
      | Some state =>
          let key := containerKey uid containerName in
          let bw := if decide (state = StateRunning) then MarkRunning bw uid containerName else bw in
          let prev := default StateZero (readMap bw bw.(stateCache) !! key) in
          let bw := cacheState bw key state in
          if decide (prev = state) then (bw, out)
          else
            let out := out ++
              (if decide (state = StateRunning) then
                 match pod with
                 | Some pod => [BEvent pod "Normal" (if isInit then "InitStarted" else "Started")
                                  ("Container " +:+ containerName +:+ " started")]
                 | None => []
                 end
               else []) in
            if bool_decide (state = StateRunning) && negb isInit then
              let '(bw, out') := poll env bw in (bw, out ++ out')
            else if bool_decide (state = StateFailed) then
              let '(bw, out') := poll env bw in (bw, out ++ out')
            else (bw, out)
      end.

(** ** The watcher among its environment *)

(** What happens to the watcher: a tick of the ticker or a poke, an event of
    systemd, the end of the [i]-th restart goroutine, a call of [MarkRunning] or
    [Poke], and an operation of another goroutine on the store. *)
Inductive BWStep :=
  | StepPoll (env : PollEnv)
  | StepUnit (env : PollEnv) (sendFact : bool) (PawnName : string) (ev : UnitEvent)
  | StepRestartDone (i : nat)
  | StepMarkRunning (uid containerName : string)
  | StepPoke
  | StepStore (op : StoreOp).

(** The watcher with the keys of the restart goroutines that have not ended. *)
Record BWSystem := { watcher : BatchWatcher; live : list string }.

Definition restartKeys (out : list BWOut) : list string :=
  omap (λ o, match o with BRestart uid _ c _ _ => Some (containerKey uid c) | _ => None end) out.

Definition bw_step (s : BWSystem) (st : BWStep) : BWSystem :=
  match st with
  | StepPoll env => let '(bw, out) := poll env s.(watcher) in
                    {| watcher := bw; live := s.(live) ++ restartKeys out |}
  | StepUnit env f pawn ev => let '(bw, out) := handleUnitEvent env f pawn s.(watcher) ev in
                              {| watcher := bw; live := s.(live) ++ restartKeys out |}
  | StepRestartDone i =>
      match s.(live) !! i with
      | Some key => {| watcher := restartDone s.(watcher) key; live := delete i s.(live) |}
      | None => s
      end
  | StepMarkRunning uid c => {| s with watcher := MarkRunning s.(watcher) uid c |}
  | StepPoke => {| s with watcher := Poke s.(watcher) |}
  | StepStore op => {| s with watcher := {| s.(watcher) with store := store_step s.(watcher).(store) op |} |}
  end.

Definition bw_run (s : BWSystem) (l : list BWStep) : BWSystem := foldl bw_step s l.

(** ** What a step may do *)

(** The part of a pod's entry that only other components change, but for
    [SetPhase]. *)
Definition keeps {B} (g : podState → B) (s s' : PodStore) : Prop :=
  ∀ uid, g <$> s'.(pods) !! uid = g <$> s.(pods) !! uid.

#[export] Instance keeps_preorder {B} (g : podState → B) : PreOrder (keeps g).
Proof. split; [done|]. intros s1 s2 s3 H1 H2 uid. by rewrite H2, H1. Qed.

Lemma keeps_modify {B} (g : podState → B) s uid f : (∀ ps, g (f ps) = g ps) → keeps g s (modify s uid f).
Proof.
  intros Hf uid'. unfold modify. destruct (pods s !! uid) as [ps|] eqn:E; [|done]. cbn.
  destruct (decide (uid' = uid)) as [->|]; [by rewrite lookup_insert_eq, E; cbn; rewrite Hf|].
  by rewrite lookup_insert_ne.
Qed.

Lemma keeps_trigger {B} (g : podState → B) s s' : keeps g s s' → keeps g s (triggerSnapshot s').
Proof. done. Qed.

Definition core (ps : podState) : bool * PodPhase := (ps.(pst_deleting), ps.(pst_phase)).

Lemma keeps_core s s' : keeps core s s' → keeps pst_deleting s s' ∧ keeps pst_phase s s'.
Proof.
  unfold core. intros H. split; intros uid; specialize (H uid); destruct (pods s' !! uid), (pods s !! uid);
    cbn in *; congruence.
Qed.

Lemma keeps_UpdateProbeState s uid n f : keeps core s (UpdateProbeState s uid n f).
Proof. apply keeps_modify. intros ps. by destruct (probe_of ps n). Qed.

Lemma keeps_modifyRestart s uid n f : keeps core s (modifyRestart s uid n f).
Proof. apply keeps_modify. intros ps. by destruct (pst_restarts ps !! n). Qed.

Lemma keeps_BumpBackoff s uid n : keeps core s (BumpBackoff s uid n).1.
Proof. unfold BumpBackoff. destruct (RestartState s uid n); [apply keeps_modifyRestart|done]. Qed.

Lemma keeps_SetContainerState now s uid n st r : keeps core s (SetContainerState now s uid n st r).
Proof.
  unfold SetContainerState. destruct (getPodState s uid); [|done]. destruct (setContainerState _ _ _ _) as [pod []];
    [apply keeps_trigger|]; by apply keeps_modify.
Qed.

Lemma keeps_SetPhase s uid ph : keeps pst_deleting s (SetPhase s uid ph).
Proof. unfold SetPhase, modifyAndTrigger. destruct (getPodState s uid); [apply keeps_trigger; by apply keeps_modify|done]. Qed.

Lemma IsDeleting_keeps s s' uid : keeps pst_deleting s s' → IsDeleting s' uid = IsDeleting s uid.
Proof.
  intros H. specialize (H uid). unfold IsDeleting, getPodState.
  destruct (pods s' !! uid), (pods s !! uid); cbn in *; congruence.
Qed.

Definition outUID (o : BWOut) : option string :=
  match o with
  | BNotify uid _ | BRestart uid _ _ _ _ | BReset uid _ => Some uid
  | BEvent _ _ _ _ | BFact _ => None
  end.

(** A part of a step: the restarts it starts are new and recorded, no pod
    starts or stops being deleted, and what it does to pods it does to pods that
    are not being deleted. *)
Record evolves (bw : BatchWatcher) (out : list BWOut) (bw' : BatchWatcher) : Prop := {
  ev_restarting : bw'.(restarting) = bw.(restarting) ∪ list_to_set (restartKeys out);
  ev_new : NoDup (restartKeys out) ∧ ∀ k, k ∈ restartKeys out → k ∉ bw.(restarting);
  ev_deleting : keeps pst_deleting bw.(store) bw'.(store);
  ev_out : ∀ o uid, o ∈ out → outUID o = Some uid → IsDeleting bw.(store) uid = false;
}.

Lemma evolves_trans bw o1 bw1 o2 bw2 : evolves bw o1 bw1 → evolves bw1 o2 bw2 → evolves bw (o1 ++ o2) bw2.
Proof.
  intros [R1 [N1 D1] K1 O1] [R2 [N2 D2] K2 O2].
  assert (restartKeys (o1 ++ o2) = restartKeys o1 ++ restartKeys o2) as Hk by apply omap_app.
  split.
  - rewrite R2, R1, Hk, list_to_set_app_L. by rewrite (assoc_L (∪)).
  - rewrite Hk. split.
    + apply NoDup_app. split_and!; [done| |done]. intros k Hk1 Hk2. apply (D2 k Hk2). rewrite R1. set_solver.
    + intros k [Hk1|Hk2]%elem_of_app; [by apply D1|]. specialize (D2 k Hk2). rewrite R1 in D2. set_solver.
  - by etrans.
  - intros o uid [Ho|Ho]%elem_of_app Hu; [by eapply O1|]. rewrite <- (IsDeleting_keeps _ _ _ K1). by eapply O2.
Qed.

(** A step that only changes the store and the records of the watcher. *)
Lemma evolves_quiet bw bw' out :
  bw'.(restarting) = bw.(restarting) → keeps pst_deleting bw.(store) bw'.(store) →
  Forall (λ o, ∀ uid, outUID o = Some uid → IsDeleting bw.(store) uid = false) out → restartKeys out = [] →
  evolves bw out bw'.
Proof.
  intros HR HK HO Hk. split; rewrite ?Hk; [set_solver|split; [constructor|set_solver]|done|].
  rewrite Forall_forall in HO. intros o uid Ho. by apply HO.
Qed.

Lemma evolves_refl bw : evolves bw [] bw.
Proof. by apply evolves_quiet. Qed.

Lemma evolves_store bw s' : keeps core bw.(store) s' → evolves bw [] {| bw with store := s' |}.
Proof. intros H. apply evolves_quiet; try done. by apply keeps_core. Qed.

Lemma evolves_iter {S A} (f : S → A → S * list BWOut) (π : S → BatchWatcher) (P : S → Prop) l : ∀ s s' out,
  (∀ s a s' out, a ∈ l → P s → f s a = (s', out) → evolves (π s) out (π s') ∧ P s') →
  P s → iter f s l = (s', out) → evolves (π s) out (π s') ∧ P s'.
Proof.
  induction l as [|a l IH]; intros s s' out Hf HP H; cbn in H.
  - simplify_eq. split; [apply evolves_refl|done].
  - destruct (f s a) as [s1 o1] eqn:E1, (iter f s1 l) as [s2 o2] eqn:E2. simplify_eq.
    destruct (Hf _ _ _ _ (list_elem_of_here _ _) HP E1) as [H1 P1].
    destruct (IH s1 s' o2) as [H2 P2]; [|done|done|]; [|split; [by eapply evolves_trans|done]].
    intros ???? Hin. apply Hf. by apply list_elem_of_further.
Qed.

Lemma evolves_maybeRestart bw uid pod n bw' out : maybeRestart bw uid pod n = (bw', out) → evolves bw out bw'.
Proof.
  unfold maybeRestart. intros H. destruct (IsDeleting (store bw) uid) eqn:Hd; [simplify_eq; apply evolves_refl|].
  case_decide as Hr; [simplify_eq; apply evolves_refl|]. cbn [store] in H.
  pose proof (keeps_core _ _ (keeps_BumpBackoff (store bw) uid n)) as [HK _].
  destruct (BumpBackoff (store bw) uid n) as [s [count b]]. destruct (count =? 0)%Z; simplify_eq.
  - apply evolves_quiet; try done. cbn. set_solver.
  - split; cbn; try done; [set_solver| |].
    + split; [apply NoDup_singleton|]. by intros k ->%list_elem_of_singleton.
    + intros o u ->%list_elem_of_singleton [= <-]. done.
Qed.

Lemma evolves_runContainerProbes env bw uid pod c bw' out :
  runContainerProbes env bw uid pod c = (bw', out) → evolves bw out bw'.
Proof.
  unfold runContainerProbes. intros H.
  destruct (ProbeState _ _ _) as [ps|]; [|simplify_eq; apply evolves_refl].
  destruct (runProbes env c ps) as [ps' po].
  eapply (evolves_trans _ []); [apply evolves_store, keeps_UpdateProbeState|].
  refine (proj1 (evolves_iter _ (λ x, x) (λ _, True) po _ _ _ _ I H)).
  intros b o b' out' _ _ Ho. split; [|done]. destruct o; cbn in Ho; [|by eapply evolves_maybeRestart|];
    simplify_eq; apply evolves_quiet; try done; by apply Forall_singleton.
Qed.

Lemma evolves_checkRunning env uid pod bw c bw' out : checkRunning env uid pod bw c = (bw', out) → evolves bw out bw'.
Proof.
  unfold checkRunning. intros H. eapply (evolves_trans _ []); [|by eapply evolves_runContainerProbes].
  destruct (RestartState _ _ _) as [rs|]; [|by apply evolves_quiet].
  case_match; [|by apply evolves_quiet]. apply evolves_quiet; try done.
  apply (keeps_core (store bw)), keeps_modifyRestart.
Qed.

Lemma evolves_clearState env bw uid n : evolves bw [] (clearState env bw uid n).
Proof. apply evolves_store, keeps_SetContainerState. Qed.

Lemma evolves_events bw out : Forall (λ o, outUID o = None) out → evolves bw out bw.
Proof.
  intros H. apply evolves_quiet; try done.
  - eapply Forall_impl; [done|]. cbn. intros o Ho uid. by rewrite Ho.
  - induction H as [|o out Ho _ IH]; [done|]. by destruct o.
Qed.

Lemma evolves_restartIf b uid pod bw c fl bw' fl' out :
  restartIf b uid pod bw c fl = (bw', fl', out) → evolves bw out bw'.
Proof.
  unfold restartIf. destruct b; [|intros; simplify_eq; apply evolves_refl].
  destruct (maybeRestart _ _ _ _) eqn:E. intros; simplify_eq. by eapply evolves_maybeRestart.
Qed.

Lemma evolves_checkFailed env ecm uid pod policy bw c fl bw' fl' out :
  checkFailed env ecm uid pod policy bw c fl = (bw', fl', out) → evolves bw out bw'.
Proof.
  unfold checkFailed. destruct (restartIf _ _ _ _ _ _) as [[b f] o] eqn:E. intros; simplify_eq.
  eapply (evolves_trans _ []); [apply evolves_clearState|].
  eapply evolves_trans; [apply evolves_events|by eapply evolves_restartIf]. case_match; by repeat constructor.
Qed.

Lemma evolves_checkExited env ecm uid pod policy bw c fl bw' fl' out :
  checkExited env ecm uid pod policy bw c fl = (bw', fl', out) → evolves bw out bw'.
Proof.
  unfold checkExited. destruct (restartIf _ _ _ _ _ _) as [[b f] o] eqn:E. intros; simplify_eq.
  eapply (evolves_trans _ []); [apply evolves_clearState|].
  eapply evolves_trans; [apply evolves_events|by eapply evolves_restartIf]. repeat case_match; by repeat constructor.
Qed.

Lemma evolves_checkContainer env sm ecm uid pod policy st c st' out :
  checkContainer env sm ecm uid pod policy st c = (st', out) → evolves st.1 out st'.1.
Proof.
  unfold checkContainer. destruct st as [bw fl]. case_decide; [intros; simplify_eq; apply evolves_refl|].
  destruct (_ && negb _); [intros; simplify_eq; apply evolves_refl|]. cbn [fst].
  set (bw1 := if _ && _ then MarkRunning _ _ _ else _). intros H1.
  assert (evolves bw [] bw1) as HM by (subst bw1; match goal with |- context [if ?b then MarkRunning _ _ _ else _] => destruct b end;
    by apply evolves_quiet).
  eapply (evolves_trans _ []); [exact HM|]. clearbody bw1. destruct (default _ _).
  - simplify_eq. apply evolves_refl.
  - destruct (checkRunning _ _ _ _ _) eqn:E. simplify_eq. by eapply evolves_checkRunning.
  - simplify_eq. apply evolves_refl.
  - destruct st' as [b f]. by eapply evolves_checkFailed.
  - destruct st' as [b f]. by eapply evolves_checkExited.
  - simplify_eq. apply evolves_refl.
Qed.

Lemma evolves_checkContainers env sm ecm uid pod policy l st st' out :
  iter (checkContainer env sm ecm uid pod policy) st l = (st', out) → evolves st.1 out st'.1.
Proof.
  intros H. refine (proj1 (evolves_iter _ fst (λ _, True) l _ _ _ _ I H)).
  intros ???? _ _ ?. split; [by eapply evolves_checkContainer|done].
Qed.

Lemma evolves_setTerminal env sm uid pod ph bw bw' out :
  IsDeleting bw.(store) uid = false → setTerminal env sm uid pod ph bw = (bw', out) → evolves bw out bw'.
Proof.
  unfold setTerminal. intros Hd H. simplify_eq. apply evolves_quiet; try done; [apply keeps_SetPhase|..].
  - apply Forall_app. split; [case_match; repeat constructor; cbn; congruence|].
    apply Forall_fmap, Forall_true. cbn. congruence.
  - unfold restartKeys. rewrite omap_app. cbn [store].
    assert (omap (λ o, match o with BRestart u _ c _ _ => Some (containerKey u c) | _ => None end)
      (map (λ c, BReset uid (c_Name c)) (p_Containers pod)) = []) as ->
      by (induction (p_Containers pod); done).
    by case_match.
Qed.

Lemma evolves_eagerPush env sm uid bw :
  IsDeleting bw.(store) uid = false → evolves bw (eagerPush env sm uid bw) bw.
Proof.
  intros Hd. unfold eagerPush. case_match; [|apply evolves_refl]. case_decide; [|apply evolves_refl].
  apply evolves_quiet; try done. apply Forall_singleton. cbn. congruence.
Qed.

Lemma evolves_checkPod env sm ecm bw uid pod bw' out :
  IsDeleting bw.(store) uid = false → checkPod env sm ecm bw uid pod = (bw', out) → evolves bw out bw'.
Proof.
  unfold checkPod. intros Hd. destruct (iter _ _ _) as [[bw1 fl] out1] eqn:E.
  apply evolves_checkContainers in E. cbn [fst] in E.
  assert (IsDeleting (store bw1) uid = false) as Hd1 by (by rewrite (IsDeleting_keeps _ _ _ (ev_deleting _ _ _ E))).
  set (eager := if _ && _ then _ else _).
  assert (evolves bw1 eager bw1) by (subst eager; case_match; [by apply evolves_eagerPush|apply evolves_refl]).
  clearbody eager. destruct (negb (allExited fl)).
  - intros; simplify_eq. by eapply evolves_trans.
  - destruct (setTerminal _ _ _ _ _ _) eqn:Et. intros; simplify_eq. apply evolves_setTerminal in Et; [|done].
    eapply evolves_trans; [done|]. by eapply evolves_trans.
Qed.

Lemma evolves_fanOut env sm bw e bw' out : fanOut env sm bw e = (bw', out) → evolves bw out bw'.
Proof.
  unfold fanOut. destruct (_ || _); intros H; [simplify_eq; apply evolves_refl|].
  refine (proj1 (evolves_iter _ (λ x, x) (λ _, True) _ _ _ _ _ I H)). clear. intros b c b' out _ _ H. split; [|done].
  unfold fanOutContainer in H. destruct (negb _); [simplify_eq; apply evolves_refl|].
  destruct (ProbeState _ _ _) as [ps|]; [|simplify_eq; apply evolves_refl].
  destruct (hasAnyDue _ _ _) as [ps' due]. eapply (evolves_trans _ []); [apply evolves_store, keeps_UpdateProbeState|].
  destruct due; [by eapply evolves_runContainerProbes|simplify_eq; apply evolves_refl].
Qed.

Lemma detect_frame sm uid bw c bw' b : detect sm uid bw c = (bw', b) →
  bw'.(store) = bw.(store) ∧ bw'.(restarting) = bw.(restarting) ∧ bw'.(seenRunning) = bw.(seenRunning).
Proof. unfold detect. intros H. repeat (case_match || case_decide); simplify_eq; done. Qed.

Lemma detectAll_frame sm uid bw cs bw' b : detectAll sm uid bw cs = (bw', b) →
  bw'.(store) = bw.(store) ∧ bw'.(restarting) = bw.(restarting) ∧ bw'.(seenRunning) = bw.(seenRunning).
Proof.
  unfold detectAll. generalize false. revert bw. induction cs as [|c cs IH]; intros bw b0 H; cbn in H; [by simplify_eq|].
  destruct (detect sm uid bw c) as [bw1 b1] eqn:E. apply detect_frame in E as (? & ? & ?).
  destruct (IH _ _ H) as (? & ? & ?). split_and!; congruence.
Qed.

(** Only pods that are not being deleted get into [changedPods]. *)
Definition changed_ok (st : BatchWatcher * gset string) : Prop :=
  ∀ uid, uid ∈ st.2 → IsDeleting st.1.(store) uid = false.

Lemma evolves_pollEntry env sm ecm st e st' out : changed_ok st →
  pollEntry env sm ecm st e = (st', out) → evolves st.1 out st'.1 ∧ changed_ok st'.
Proof.
  destruct st as [bw ch]. intros Hc H. unfold pollEntry in H.
  assert (evolves bw [] bw ∧ changed_ok (bw, ch)) as Hsame by (split; [apply evolves_refl|done]).
  case_bool_decide; [by simplify_eq|]. destruct (IsDeleting (store bw) (pe_UID e)) eqn:Hd; [by simplify_eq|].
  destruct (isTerminal _ && _); [by simplify_eq|]. case_bool_decide; [by simplify_eq|].
  destruct (detectAll _ _ _ _) as [bw1 chd] eqn:Ed. apply detectAll_frame in Ed as (Es & Er & _).
  destruct (checkPod _ _ _ _ _ _) as [bw2 o] eqn:Ec. simplify_eq.
  apply evolves_checkPod in Ec; [|by rewrite Es].
  assert (evolves bw out bw2) as HE.
  { eapply (evolves_trans _ []); [|exact Ec]. by apply evolves_quiet; rewrite ?Es. }
  split; [exact HE|]. intros uid Huid. cbn [fst snd] in *.
  rewrite (IsDeleting_keeps _ _ _ (ev_deleting _ _ _ HE)).
  destruct chd; [apply elem_of_union in Huid as [->%elem_of_singleton|]; [done|]|]; by apply Hc.
Qed.

Lemma evolves_coalesce env sm ch bw e bw' out :
  (∀ uid, uid ∈ ch → IsDeleting bw.(store) uid = false) →
  coalesce env sm ch bw e = (bw', out) → evolves bw out bw' ∧ bw' = bw.
Proof.
  unfold coalesce. intros Hc H.
  assert (evolves bw [] bw ∧ bw = bw) as Hsame by (split; [apply evolves_refl|done]).
  case_bool_decide as Hin; cbn in H; [|by simplify_eq]. destruct (_ || _); [by simplify_eq|].
  destruct (GetPodCopy _ _); simplify_eq; [|done]. split; [|done]. apply evolves_quiet; try done.
  apply Forall_singleton. cbn. intros uid [= <-]. by apply Hc.
Qed.

Lemma evolves_poll env bw bw' out : poll env bw = (bw', out) → evolves bw out bw'.
Proof.
  unfold poll. intros H. destruct (pe_machines env) as [ms|]; [|simplify_eq; apply evolves_refl].
  set (bw0 := {| bw with maps := _; stateCache := _ |}) in H.
  destruct (iter (fanOut _ _) _ _) as [bw1 o1] eqn:E1.
  destruct (iter (pollEntry _ _ _) _ _) as [[bw2 ch] o2] eqn:E2.
  destruct (iter (coalesce _ _ _) _ _) as [bw3 o3] eqn:E3. simplify_eq.
  eapply (evolves_trans _ [] bw0); [by apply evolves_quiet|].
  apply (evolves_iter _ (λ x, x) (λ _, True)) in E1 as [H1 _]; [|intros; split; [by eapply evolves_fanOut|done]|done].
  apply (evolves_iter _ fst changed_ok) in E2 as [H2 Hc];
    [|intros; by eapply evolves_pollEntry|by intros uid ?%elem_of_empty].
  apply (evolves_iter _ (λ x, x) (λ b, ∀ uid, uid ∈ ch → IsDeleting b.(store) uid = false)) in E3 as [H3 _];
    [|intros ???? _ HP Hf; destruct (evolves_coalesce _ _ _ _ _ _ _ HP Hf) as [? ->]; done|exact Hc].
  eapply evolves_trans; [exact H1|]. eapply evolves_trans; [exact H2|].
  rewrite <- (right_id_L [] (++) o3). eapply evolves_trans; [exact H3|]. by apply evolves_quiet.
Qed.

Lemma evolves_poll_after env bw out bw1 bw2 out2 : evolves bw out bw1 → poll env bw1 = (bw2, out2) →
  evolves bw (out ++ out2) bw2.
Proof. intros H1 H2%evolves_poll. by eapply evolves_trans. Qed.

Lemma evolves_handleUnitEvent env sf pawn bw ev bw' out :
  handleUnitEvent env sf pawn bw ev = (bw', out) → evolves bw out bw'.
Proof.
  unfold handleUnitEvent. destruct (negb (has_prefix _ _)); [intros; simplify_eq; apply evolves_refl|].
  destruct (default _ _) as [uid cn]. case_bool_decide; [intros; simplify_eq; apply evolves_refl|].
  set (pod := GetPodCopy _ _). set (out1 := killEvents _ _ _ ++ _).
  set (bw1 := if negb _ then _ else _).
  assert (evolves bw [] bw1) as H1 by (subst bw1; case_bool_decide; [apply evolves_refl|apply evolves_clearState]).
  assert (Forall (λ o, outUID o = None) out1) as Ho.
  { subst out1. apply Forall_app. split; [unfold killEvents|]; repeat case_match; by repeat constructor. }
  clearbody bw1 out1. destruct (mapSubState _) as [state|];
    [|intros; simplify_eq; by eapply (evolves_trans _ []), evolves_events].
  set (bw2 := if decide (state = _) then _ else _).
  assert (∀ st, evolves bw1 [] (cacheState bw2 (containerKey uid cn) st)) as H2
    by (intros; subst bw2; case_decide; by apply evolves_quiet).
  specialize (H2 state). assert (evolves bw [] (cacheState bw2 (containerKey uid cn) state)) as H3
    by by apply (evolves_trans _ [] bw1 []).
  clearbody bw2. clear H1 H2. set (bw3 := cacheState _ _ _) in *. clearbody bw3.
  case_decide; [intros; simplify_eq; by eapply (evolves_trans _ []), evolves_events|].
  set (out2 := out1 ++ _).
  assert (evolves bw out2 bw3) as H4.
  { eapply (evolves_trans _ []); [exact H3|]. apply evolves_events. subst out2. apply Forall_app. split; [done|].
    repeat (case_match || case_decide); by repeat constructor. }
  clearbody out2. destruct (poll env bw3) as [bw4 out4] eqn:Ep.
  destruct (_ && _); [intros; simplify_eq; by eapply evolves_poll_after|].
  case_bool_decide; intros; simplify_eq; [by eapply evolves_poll_after|done].
Qed.

(** ** What checking one container may do *)

(** Only the records of this container change, no phase is set and no unit is
    reset. *)
Record stays (key : string) (bw : BatchWatcher) (out : list BWOut) (bw' : BatchWatcher) : Prop := {
  st_core : keeps core bw.(store) bw'.(store);
  st_restarting : ∀ k, k ≠ key → k ∈ bw'.(restarting) ↔ k ∈ bw.(restarting);
  st_seen : ∀ k, k ≠ key → k ∈ bw'.(seenRunning) ↔ k ∈ bw.(seenRunning);
  st_out : Forall (λ o, match o with BReset _ _ => False | _ => True end) out;
}.

Lemma stays_trans key bw o1 bw1 o2 bw2 : stays key bw o1 bw1 → stays key bw1 o2 bw2 → stays key bw (o1 ++ o2) bw2.
Proof.
  intros [C1 R1 S1 O1] [C2 R2 S2 O2]. split; [by etrans|..|by apply Forall_app];
    intros k Hk; [by rewrite R2, R1|by rewrite S2, S1].
Qed.

Lemma stays_refl key bw : stays key bw [] bw.
Proof. by split. Qed.

Lemma stays_store key bw s' : keeps core bw.(store) s' → stays key bw [] {| bw with store := s' |}.
Proof. by split. Qed.

Lemma stays_events key bw out : Forall (λ o, outUID o = None) out → stays key bw out bw.
Proof. intros H. split; try done. eapply Forall_impl; [done|]. by intros []. Qed.

Lemma stays_MarkRunning bw uid n : stays (containerKey uid n) bw [] (MarkRunning bw uid n).
Proof. split; try done. intros k Hk. cbn. set_solver. Qed.

Lemma stays_maybeRestart bw uid pod n bw' out :
  maybeRestart bw uid pod n = (bw', out) → stays (containerKey uid n) bw out bw'.
Proof.
  unfold maybeRestart. intros H. destruct (IsDeleting _ _); [simplify_eq; apply stays_refl|].
  case_decide; [simplify_eq; apply stays_refl|]. cbn [store] in H.
  pose proof (keeps_BumpBackoff (store bw) uid n) as HK.
  destruct (BumpBackoff (store bw) uid n) as [s [count b]]. destruct (count =? 0)%Z; simplify_eq;
    (split; cbn; [exact HK|set_solver|done|]); by repeat constructor.
Qed.

(** The probes of a container ask only for restarts of that container. *)
Lemma runProbes_restarts env c ps ps' out n :
  runProbes env c ps = (ps', out) → OutRestart n ∈ out → n = c.(c_Name).
Proof.
  intros H Hin. assert (Forall (λ o, match o with OutRestart m => m = c.(c_Name) | _ => True end) out) as HF;
    [|rewrite Forall_forall in HF; exact (HF _ Hin)].
  clear Hin. revert H. unfold runProbes, runProbes_startup, runProbes_liveness, runProbes_readiness. intros H.
  repeat match type of H with
    | context [match ?x with _ => _ end] => lazymatch x with context [match _ with _ => _ end] => fail | _ => destruct x end
    | context [let '(_, _) := ?x in _] => destruct x
    end; simplify_eq; rewrite ?Forall_app; repeat split; by repeat constructor.
Qed.

Lemma stays_emit key uid pod : ∀ l bw bw' out,
  Forall (λ o, match o with OutRestart m => containerKey uid m = key | _ => True end) l →
  iter (emitProbe uid pod) bw l = (bw', out) → stays key bw out bw'.
Proof.
  induction l as [|o l IH]; intros bw bw' out HF H; cbn in H; [simplify_eq; apply stays_refl|].
  apply Forall_cons in HF as [Ho HF].
  destruct (emitProbe uid pod bw o) as [bw1 o1] eqn:E1, (iter _ bw1 l) as [bw2 o2] eqn:E2. simplify_eq.
  eapply stays_trans; [|by eapply IH]. destruct o; cbn in E1; [|subst key; by eapply stays_maybeRestart|];
    simplify_eq; apply stays_events; by repeat constructor.
Qed.

Lemma stays_runContainerProbes env bw uid pod c bw' out :
  runContainerProbes env bw uid pod c = (bw', out) → stays (containerKey uid c.(c_Name)) bw out bw'.
Proof.
  unfold runContainerProbes. intros H. destruct (ProbeState _ _ _) as [ps|]; [|simplify_eq; apply stays_refl].
  destruct (runProbes env c ps) as [ps' po] eqn:Ep.
  eapply (stays_trans _ _ []); [apply stays_store, keeps_UpdateProbeState|]. eapply stays_emit; [|exact H].
  apply Forall_forall. intros [| |] Hin; try done. by rewrite (runProbes_restarts _ _ _ _ _ _ Ep Hin).
Qed.

Lemma stays_checkRunning env uid pod bw c bw' out :
  checkRunning env uid pod bw c = (bw', out) → stays (containerKey uid c.(c_Name)) bw out bw'.
Proof.
  unfold checkRunning. intros H. eapply (stays_trans _ _ [] (MarkRunning bw uid c.(c_Name))); [apply stays_MarkRunning|].
  eapply (stays_trans _ _ []); [|by eapply stays_runContainerProbes].
  destruct (RestartState _ _ _) as [rs|]; [|apply stays_refl].
  case_match; [|apply stays_refl]. apply (stays_store _ (MarkRunning bw uid (c_Name c))), keeps_modifyRestart.
Qed.

Lemma stays_clearState key env bw uid n : stays key bw [] (clearState env bw uid n).
Proof. apply stays_store, keeps_SetContainerState. Qed.

Lemma restartIf_spec b uid pod bw c fl bw' fl' out : restartIf b uid pod bw c fl = (bw', fl', out) →
  stays (containerKey uid c.(c_Name)) bw out bw' ∧
  fl'.(allExited) = fl.(allExited) && negb b ∧ fl'.(allSucceeded) = fl.(allSucceeded).
Proof.
  unfold restartIf. destruct b.
  - destruct (maybeRestart _ _ _ _) eqn:E. intros; simplify_eq. split; [by eapply stays_maybeRestart|].
    cbn. by rewrite andb_false_r.
  - intros; simplify_eq. rewrite andb_true_r. split; [apply stays_refl|done].
Qed.

Lemma checkFailed_spec env ecm uid pod policy bw c fl bw' fl' out :
  checkFailed env ecm uid pod policy bw c fl = (bw', fl', out) →
  stays (containerKey uid c.(c_Name)) bw out bw' ∧
  fl'.(allExited) = fl.(allExited) && negb (bool_decide (policy = RestartPolicyAlways ∨ policy = RestartPolicyOnFailure)) ∧
  fl'.(allSucceeded) = false.
Proof.
  unfold checkFailed. destruct (restartIf _ _ _ _ _ _) as [[b f] o] eqn:E. intros; simplify_eq.
  apply restartIf_spec in E as (HS & -> & ->). split; [|done].
  eapply (stays_trans _ _ []); [apply stays_clearState|]. eapply stays_trans; [apply stays_events|exact HS].
  case_match; by repeat constructor.
Qed.

Lemma checkExited_spec env ecm uid pod policy bw c fl bw' fl' out :
  checkExited env ecm uid pod policy bw c fl = (bw', fl', out) →
  stays (containerKey uid c.(c_Name)) bw out bw' ∧
  fl'.(allExited) = fl.(allExited) && negb (bool_decide (policy = RestartPolicyAlways)) ∧
  fl'.(allSucceeded) = fl.(allSucceeded).
Proof.
  unfold checkExited. destruct (restartIf _ _ _ _ _ _) as [[b f] o] eqn:E. intros; simplify_eq.
  apply restartIf_spec in E as (HS & -> & ->). split; [|done].
  eapply (stays_trans _ _ []); [apply stays_clearState|]. eapply stays_trans; [apply stays_events|exact HS].
  repeat case_match; by repeat constructor.
Qed.

(** ** When a pod is finished *)

(** What systemd's listing yields: a state, and exit code 0 for a unit that is
    listed as exited. *)
Definition observed (sm : gmap string MachineState) (ecm : gmap string Z) : Prop :=
  ∀ k st, sm !! k = Some st → st ≠ StateUnknown ∧ st ≠ StateZero ∧ (st = StateExited → ecm !! k = Some 0%Z).

(** The container will not run again: it failed and is never restarted, or it
    exited, or its unit is gone after it was seen running, and the policy does
    not restart it. *)
Definition finished (bw : BatchWatcher) (sm : gmap string MachineState) (policy : RestartPolicy) (uid : string)
    (c : Container) : bool :=
  let key := containerKey uid c.(c_Name) in
  negb (bool_decide (key ∈ bw.(restarting))) &&
  match sm !! key with
  | Some StateFailed => negb (bool_decide (policy = RestartPolicyAlways ∨ policy = RestartPolicyOnFailure))
  | Some StateExited => negb (bool_decide (policy = RestartPolicyAlways))
  | None => negb (bool_decide (policy = RestartPolicyAlways)) && bool_decide (key ∈ bw.(seenRunning))
  | _ => false
  end.

Definition crashed (sm : gmap string MachineState) (uid : string) (c : Container) : bool :=
  bool_decide (sm !! containerKey uid c.(c_Name) = Some StateFailed).

Lemma checkContainer_spec env sm ecm uid pod policy bw fl c bw' fl' out :
  observed sm ecm → checkContainer env sm ecm uid pod policy (bw, fl) c = ((bw', fl'), out) →
  stays (containerKey uid c.(c_Name)) bw out bw' ∧
  fl'.(allExited) = fl.(allExited) && finished bw sm policy uid c ∧
  (fl'.(allExited) = true → fl'.(allSucceeded) = fl.(allSucceeded) && negb (crashed sm uid c)).
Proof.
  intros Hobs H. unfold checkContainer in H. unfold finished, crashed. set (key := containerKey uid (c_Name c)) in *.
  case_decide as Hr.
  { simplify_eq. rewrite (bool_decide_true (key ∈ _)), andb_false_r by done. split; [apply stays_refl|done]. }
  rewrite (bool_decide_false (key ∈ restarting bw)) by done. cbn [negb andb].
  destruct (sm !! key) as [st|] eqn:Hst; cbn [default] in H.
  - destruct (Hobs _ _ Hst) as (Hu & Hz & Hex).
    destruct st; try done; cbn in H; rewrite ?andb_false_r in *; cbn in H.
    + destruct (checkRunning _ _ _ _ _) eqn:E. simplify_eq. by apply stays_checkRunning in E.
    + simplify_eq. split; [apply stays_refl|done].
    + apply checkFailed_spec in H as (HS & HE & HA). by rewrite HE, HA.
    + rewrite (Hex eq_refl) in H. cbn in H. rewrite andb_false_r in H. cbn in H.
      apply checkExited_spec in H as (HS & HE & HA). rewrite HE, HA.
      rewrite (bool_decide_false (Some StateExited = _)), andb_true_r by done. split; [|done].
      eapply (stays_trans _ _ []); [|exact HS]. destruct (negb _ && _); [apply stays_MarkRunning|apply stays_refl].
  - cbn in H. rewrite andb_true_r in H. rewrite (bool_decide_false (None = _)), andb_true_r by done.
    destruct (bool_decide (key ∈ seenRunning bw)); cbn in H.
    + apply checkExited_spec in H as (HS & HE & HA). rewrite HE, HA. by rewrite andb_true_r.
    + rewrite (bool_decide_true (StateExited = _)) in H by done. cbn in H. simplify_eq.
      rewrite !andb_false_r. split; [apply stays_refl|done].
Qed.

(** ** The machines that are listed *)

Lemma stateMapOf_lookup ms : ∀ (m : gmap string MachineState) (e : gmap string Z) k st,
  foldl (λ m x, <[containerKey x.(pm_UID) x.(pm_ContainerName) := x.(pm_State)]> m) m ms !! k = Some st →
  (∃ x, x ∈ ms ∧ x.(pm_State) = st ∧
     foldl (λ m x, <[containerKey x.(pm_UID) x.(pm_ContainerName) := x.(pm_ExitCode)]> m) e ms !! k
       = Some x.(pm_ExitCode)) ∨
  (m !! k = Some st ∧
     foldl (λ m x, <[containerKey x.(pm_UID) x.(pm_ContainerName) := x.(pm_ExitCode)]> m) e ms !! k = e !! k).
Proof.
  induction ms as [|x ms IH]; intros m e k st H; cbn in *; [by right|].
  destruct (IH _ (<[containerKey x.(pm_UID) x.(pm_ContainerName) := x.(pm_ExitCode)]> e) _ _ H)
    as [(y & Hy & Hst & He)|[Hm He]].
  - left. exists y. by rewrite elem_of_cons; auto.
  - destruct (decide (containerKey (pm_UID x) (pm_ContainerName x) = k)) as [Hk|Hk].
    + subst k. rewrite lookup_insert_eq in Hm. simplify_eq. left. exists x. rewrite lookup_insert_eq in He.
      by rewrite elem_of_cons; auto.
    + rewrite lookup_insert_ne in Hm by done. rewrite lookup_insert_ne in He by done. by right.
Qed.

Lemma observed_listing pawn units ms :
  ListManagedMachines pawn units = Some ms → observed (stateMapOf ms) (exitCodeMapOf ms).
Proof.
  unfold ListManagedMachines. intros (us & -> & ->)%fmap_Some k st H.
  destruct (stateMapOf_lookup _ _ ∅ _ _ H) as [(x & Hx & Hst & He)|[Hm _]]; [|by rewrite lookup_empty in Hm].
  unfold exitCodeMapOf. rewrite He. apply list_elem_of_fmap in Hx as (u & -> & _). cbn in *. subst st.
  unfold mapActiveState. destruct (Z.eqb_spec (u_ExecMainStatus u) 0); repeat case_bool_decide; cbn;
    split_and!; try done; congruence.
Qed.

Lemma containerKey_inj uid a b : containerKey uid a = containerKey uid b → a = b.
Proof. unfold containerKey. intros H. by apply (inj (String.append uid)), (inj (String.append "/")) in H. Qed.

Lemma finished_frame sm policy uid key bw out bw' c :
  stays key bw out bw' → containerKey uid c.(c_Name) ≠ key →
  finished bw' sm policy uid c = finished bw sm policy uid c.
Proof.
  intros [_ HR HS _] Hne. unfold finished. cbn zeta.
  rewrite (bool_decide_ext (containerKey uid (c_Name c) ∈ restarting bw') _ (HR _ Hne)).
  by rewrite (bool_decide_ext (containerKey uid (c_Name c) ∈ seenRunning bw') _ (HS _ Hne)).
Qed.

(** The loop of [checkPod] computes the conjunction over the containers. *)
Lemma checkContainers_spec env sm ecm uid pod policy : observed sm ecm →
  ∀ l bw fl bw' fl' out, NoDup (map c_Name l) →
  iter (checkContainer env sm ecm uid pod policy) (bw, fl) l = ((bw', fl'), out) →
  keeps core bw.(store) bw'.(store) ∧
  Forall (λ o, match o with BReset _ _ => False | _ => True end) out ∧
  fl'.(allExited) = fl.(allExited) && forallb (finished bw sm policy uid) l ∧
  (fl'.(allExited) = true → fl'.(allSucceeded) = fl.(allSucceeded) && negb (existsb (crashed sm uid) l)).
Proof.
  intros Hobs. induction l as [|c l IH]; intros bw fl bw' fl' out Hnd H; cbn [iter] in H.
  - simplify_eq. cbn. by rewrite !andb_true_r.
  - apply NoDup_cons in Hnd as [Hc Hnd].
    destruct (checkContainer _ _ _ _ _ _ _ c) as [[bw1 fl1] o1] eqn:E1.
    destruct (iter _ (bw1, fl1) l) as [[bw2 fl2] o2] eqn:E2. simplify_eq.
    destruct (checkContainer_spec _ _ _ _ _ _ _ _ _ _ _ _ Hobs E1) as (HS & HE & HA).
    destruct (IH _ _ _ _ _ Hnd E2) as (HK & HO & HE2 & HA2).
    assert (forallb (finished bw1 sm policy uid) l = forallb (finished bw sm policy uid) l) as Hfin.
    { apply forallb_ext_elem. intros x Hx. apply (finished_frame _ _ _ _ _ _ _ _ HS).
      intros Heq%containerKey_inj. apply Hc. rewrite <- Heq. by apply list_elem_of_fmap_2. }
    split_and!.
    + etrans; [apply (st_core _ _ _ _ HS)|done].
    + apply Forall_app. split; [apply (st_out _ _ _ _ HS)|done].
    + cbn. by rewrite HE2, Hfin, HE, andb_assoc.
    + intros Ht. rewrite HA2 by done. rewrite HE2 in Ht. apply andb_true_iff in Ht as [Ht _].
      rewrite HA by done. cbn. by rewrite negb_orb, andb_assoc.
Qed.

Lemma evolves_live bw out bw' l : evolves bw out bw' → NoDup l ∧ bw.(restarting) = list_to_set l →
  NoDup (l ++ restartKeys out) ∧ bw'.(restarting) = list_to_set (l ++ restartKeys out).
Proof.
  intros [HR [HN HD] _ _] [Hl Hs]. split.
  - apply NoDup_app. split_and!; [done| |done]. intros k Hk Hk2. apply (HD k Hk2). rewrite Hs. set_solver.
  - by rewrite HR, Hs, list_to_set_app_L.
Qed.

Lemma bw_step_live sys st :
  NoDup sys.(live) ∧ sys.(watcher).(restarting) = list_to_set sys.(live) →
  NoDup (bw_step sys st).(live) ∧ (bw_step sys st).(watcher).(restarting) = list_to_set (bw_step sys st).(live).
Proof.
  intros H. destruct st; cbn [bw_step]; try done.
  - destruct (poll _ _) eqn:E. by eapply evolves_live; [eapply evolves_poll|].
  - destruct (handleUnitEvent _ _ _ _ _) eqn:E. by eapply evolves_live; [eapply evolves_handleUnitEvent|].
  - destruct H as [Hn Hr]. destruct (live sys !! i) as [key|] eqn:Hi; [|done]. cbn.
    pose proof (delete_Permutation _ _ _ Hi) as Hp. rewrite Hp in Hn. apply NoDup_cons in Hn as [Hk Hn].
    split; [done|]. rewrite Hr. rewrite (list_to_set_perm_L _ _ Hp). set_solver.
Qed.

(** ** Properties *)

(** C6: A container has at most one restart at a time: in every run of the
    watcher, whatever systemd lists or signals, whatever the probes say and
    whatever other goroutines do to the store, no two restart goroutines are
    live for the same container, and the set of restarting containers is
    exactly that of the live goroutines. *)
Theorem one_restart_per_container s steps :
  let sys := bw_run {| watcher := StartBatchWatcher s; live := [] |} steps in
  NoDup sys.(live) ∧ sys.(watcher).(restarting) = list_to_set sys.(live).
Proof.
  cbn zeta. set (sys0 := {| watcher := _; live := _ |}).
  assert (NoDup sys0.(live) ∧ sys0.(watcher).(restarting) = list_to_set sys0.(live)) as H0 by (split; [constructor|done]).
  clearbody sys0. revert sys0 H0. induction steps as [|st steps IH]; intros sys H; [done|]. apply IH. clear IH.
  by apply bw_step_live.
Qed.

(** A pod that is being deleted is left alone: neither a poll nor a unit
    event pushes a status of it, restarts one of its containers or resets one
    of its units. *)
Theorem deleting_pod_left_alone env sendFact pawn bw ev uid :
  IsDeleting bw.(store) uid = true →
  ∀ o, o ∈ (poll env bw).2 ∨ o ∈ (handleUnitEvent env sendFact pawn bw ev).2 → outUID o ≠ Some uid.
Proof.
  intros Hd o Ho Hu. destruct (poll env bw) as [bw1 out1] eqn:E1, (handleUnitEvent _ _ _ _ _) as [bw2 out2] eqn:E2.
  apply evolves_poll in E1. apply evolves_handleUnitEvent in E2. cbn in Ho.
  destruct Ho as [Ho|Ho]; [pose proof (ev_out _ _ _ E1 _ _ Ho Hu)|pose proof (ev_out _ _ _ E2 _ _ Ho Hu)]; congruence.
Qed.

(** A running pod with one container, and a poll that sees its machine. *)
Definition demoUID : string := "00000000-0000-0000-0000-000000000001".

Definition watchedPod (policy : RestartPolicy) : Pod :=
  {| (demoPod "a" 250 64) with p_UID := demoUID; p_RestartPolicy := policy |}.

Definition demoStore (policy : RestartPolicy) : PodStore :=
  let pod := watchedPod policy in
  InitRestartState (λ _, 7%Z) (PromoteRunning (RegisterPending NewPodStore demoUID pod 1) demoUID pod "10.0.0.2") pod.

Definition demoUnit (active : string) (code : Z) : Unit := {|
  u_Name := "perigeos-pawn-pod-" +:+ demoUID +:+ "-web.service"; u_ActiveState := active; u_ExecMainStatus := code;
  u_Env := <["PERIGEOS_META_UID" := demoUID]> (<["PERIGEOS_META_CONTAINER" := "web"]> ∅) |}.

Definition demoMachines (active : string) (code : Z) : list PodMetadata :=
  default [] (ListManagedMachines "pawn" (Some [demoUnit active code])).

Definition demoEnv (machines : list PodMetadata) : PollEnv := {|
  pe_machines := Some machines; pe_order := λ l, l; pe_probe := λ _ _ _, sampleEnv ProbeSuccess;
  pe_since := λ _ _, 100 * Second; pe_stamp := λ _ _, 100 * Second; pe_clk := λ _, 100 * Second;
  pe_hostIP := "192.0.2.1" |}%Z.

Lemma deleting_pod_left_alone_witness :
  Forall (λ o, outUID o ≠ Some demoUID)
    (poll (demoEnv (demoMachines "failed" 1))
       (StartBatchWatcher (MarkDeleting (demoStore RestartPolicyAlways) demoUID))).2.
Proof.
  apply Forall_forall. intros o Ho.
  refine (deleting_pod_left_alone _ true "pawn" _ {| ev_UnitName := ""; ev_SubState := "" |} demoUID _ o
    (or_introl Ho)). vm_compute. reflexivity.
Defined.

(** C8: The terminal phase: on the machines that systemd lists, a pod becomes
    terminal exactly when every container has finished, that is, is not being
    restarted, has failed, exited or disappeared after running, and the restart
    policy does not restart it.  It is then Failed if a container failed and
    Succeeded otherwise, and its units are reset; until then its phase stays
    and none of its units is reset. *)
Theorem checkPod_terminal env pawn units ms bw uid pod ps bw' out :
  ListManagedMachines pawn units = Some ms → getPodState bw.(store) uid = Some ps →
  NoDup (map c_Name pod.(p_Containers)) →
  checkPod env (stateMapOf ms) (exitCodeMapOf ms) bw uid pod = (bw', out) →
  if forallb (finished bw (stateMapOf ms) (effectivePolicy pod) uid) pod.(p_Containers) then
    PodPhase_of bw'.(store) uid =
      (if existsb (crashed (stateMapOf ms) uid) pod.(p_Containers) then PodFailed else PodSucceeded) ∧
    Forall (λ c, BReset uid c.(c_Name) ∈ out) pod.(p_Containers)
  else PodPhase_of bw'.(store) uid = ps.(pst_phase) ∧ Forall (λ o, match o with BReset _ _ => False | _ => True end) out.
Proof.
  intros Hms Hps Hnd H. apply observed_listing in Hms as Hobs. unfold checkPod in H.
  destruct (iter _ _ _) as [[bw1 fl] out1] eqn:E.
  destruct (checkContainers_spec _ _ _ _ _ _ Hobs _ _ _ _ _ _ Hnd E) as (HK & HO & HE & HA).
  apply keeps_core in HK as [_ HP]. specialize (HP uid). unfold getPodState in Hps. rewrite Hps in HP.
  apply fmap_Some in HP as (ps1 & Hps1 & Hph). cbn [allExited allSucceeded andb] in HE, HA.
  rewrite HE in H. destruct (forallb _ _); cbn [negb] in H.
  - rewrite (HA HE) in H. destruct (setTerminal _ _ _ _ _ _) as [bw2 out2] eqn:Et. simplify_eq.
    unfold setTerminal in Et. simplify_eq. split.
    + unfold PodPhase_of, getPodState, SetPhase, modifyAndTrigger, getPodState, modify. cbn.
      rewrite Hps1. cbn. rewrite lookup_insert_eq. cbn. by destruct (existsb _ _).
    + apply Forall_forall. intros c Hc. rewrite !elem_of_app. do 3 right. by apply (list_elem_of_fmap_2 (λ c, BReset uid c.(c_Name))).
  - simplify_eq. unfold PodPhase_of, getPodState. rewrite Hps1. split; [done|]. apply Forall_app. split; [done|].
    destruct (_ && _); [|constructor]. unfold eagerPush. repeat case_match; by repeat constructor.
Qed.

Lemma checkPod_terminal_witness :
  let bw := StartBatchWatcher (demoStore RestartPolicyNever) in
  let ms := demoMachines "failed" 1 in
  PodPhase_of (checkPod (demoEnv ms) (stateMapOf ms) (exitCodeMapOf ms) bw demoUID (watchedPod RestartPolicyNever)).1.(store)
    demoUID = PodFailed.
Proof.
  cbn zeta. set (r := checkPod _ _ _ _ _ _). destruct r as [bw' out] eqn:E. subst r.
  assert (∃ ps, getPodState (store (StartBatchWatcher (demoStore RestartPolicyNever))) demoUID = Some ps) as [ps Hps].
  { apply is_Some_alt. vm_compute. exact I. }
  pose proof (checkPod_terminal _ "pawn" (Some [demoUnit "failed" 1]) (demoMachines "failed" 1) _ _ (watchedPod RestartPolicyNever) ps _ _
    eq_refl Hps (NoDup_singleton "web") E) as H.
  replace (forallb _ _) with true in H by (vm_compute; reflexivity).
  destruct H as [H _]. cbn [fst]. rewrite H. vm_compute. reflexivity.
Defined.

(** Defect: a poll leaves [prevStateMap] and [stateCache] pointing to the same
    map, through which [handleUnitEvent] writes the new state before the poll
    that it triggers.  That poll then sees no transition: the failure of a
    container that systemd signals is not recorded as an event, whereas the
    same failure found by the ticker is. *)
Definition isFailedEvent (o : BWOut) : bool :=
  match o with BEvent _ _ r _ => bool_decide (r = "Failed") | _ => false end.

Theorem signalled_failure_not_recorded :
  let bw := (poll (demoEnv (demoMachines "active" 0)) (StartBatchWatcher (demoStore RestartPolicyAlways))).1 in
  let env := demoEnv (demoMachines "failed" 1) in
  let ev := {| ev_UnitName := (demoUnit "failed" 1).(u_Name); ev_SubState := "failed" |} in
  bw.(prevStateMap) = bw.(stateCache) ∧
  existsb isFailedEvent (handleUnitEvent env true "pawn" bw ev).2 = false ∧
  restartKeys (handleUnitEvent env true "pawn" bw ev).2 = [containerKey demoUID "web"] ∧
  existsb isFailedEvent (poll env bw).2 = true.
Proof. vm_compute. split_and!; reflexivity. Qed.
