(* ===== verification/Hydration.v ===== *)
(** * Hydration (node/hydration.go)

    At start the store is filled from the state files of the pods and, for
    units that no file describes, from systemd; directories of unknown pods are
    cleaned up.  Later, hydrated stubs of pods that Kubernetes does not know
    are purged.  The order in which a Go map is ranged over is a parameter. *)
From S2P Require Import Prelude Corev1 Float64 Types Probes PodStore Persist BatchWatcher.
Import Str.

(** What is done to the pods directory. *)
Inductive Sweep :=
  | SUnmount (name : string)
  | SRemoveAll (name : string).

Definition isTerminalPhase (phase : PodPhase) : bool := bool_decide (phase = PodSucceeded ∨ phase = PodFailed).

(** [len(name) > 36 && name[36] == '-'], and the uid that a name belongs to. *)
Definition isOverlayName (name : string) : bool := bool_decide (String.get 36 name = Some "-"%char).
Definition ownerUID (name : string) : string := if isOverlayName name then stake 36 name else name.

Section Hydration.
Context (Unmarshal : string → string + PersistedPodState) (range : ∀ A, gmap string A → list (string * A)).

(** The states of the pods that are restored, with their pods. *)
Definition restorable (states : list PersistedPodState) : list (PersistedPodState * Pod) :=
  omap (λ state, match state.(pp_Pod) with
                 | Some pod => if isTerminalPhase state.(pp_Phase) then None else Some (state, pod)
                 | None => None
                 end) states.

Definition hydrated_entry (sp : PersistedPodState * Pod) : hydratedEntry :=
  {| he_uid := sp.2.(p_UID); he_pod := sp.2; he_ip := sp.1.(pp_PodIP) |}.

(** Restart state of one pod: fresh, then the persisted counts and delays. *)
Definition restoreRestarts (clk : nat → Time) (s : PodStore) (sp : PersistedPodState * Pod) : PodStore :=
  let '(state, pod) := sp in
  let s := InitRestartState clk s pod in
  let s := foldl (λ s '(cname, n), PatchRestartCount s pod.(p_UID) cname n) s (range _ state.(pp_Restarts)) in
  foldl (λ s '(cname, sec), PatchBackoff s pod.(p_UID) cname sec) s (range _ state.(pp_Backoffs)).

Definition stubPod (m : PodMetadata) : Pod :=
  {| zeroPod with p_Name := m.(pm_Name); p_Namespace := m.(pm_Namespace); p_UID := m.(pm_UID) |}.

Definition hydrateMachine (clk : nat → Time) (diskUIDs : gset string) (s : PodStore) (m : PodMetadata) : PodStore :=
  if decide (m.(pm_UID) = "" ∨ m.(pm_UID) ∈ diskUIDs) then s
  else if decide (m.(pm_Name) ≠ "" ∧ m.(pm_Namespace) ≠ "") then
    InitRestartState clk (RegisterHydrated s m.(pm_UID) (stubPod m) m.(pm_PodIP)) (stubPod m)
  else s.

(** The directories without a hydrated pod. *)
Definition sweepOrphans (s : PodStore) (d : PodsDir) : list Sweep :=
  match d with
  | None => []
  | Some m =>
      omap (λ '(name, e), match e with
        | EFile => None
        | EDir _ =>
            if decide (ownerUID name ∈ HydratedUIDs s) then None
            else Some (if isOverlayName name then SUnmount name else SRemoveAll name)
        end) (ReadDir m)
  end.

(** [ioerr] gives the read errors of the state files, [machines] is [None]
    when the listing failed; the clock is read per pod. *)
Definition HydrateFromRuntime (ioerr : string → option string) (clk : nat → nat → Time) (d : PodsDir)
    (machines : option (list PodMetadata)) (s : PodStore) : PodStore * list Sweep :=
  let live := restorable (loadAllPodStates Unmarshal ioerr d) in
  let diskUIDs : gset string := list_to_set (map (λ sp, sp.2.(p_UID)) live) in
  let s := RegisterHydratedBatch s (map hydrated_entry live) in
  let s := foldl (λ s '(i, sp), restoreRestarts (clk i) s sp) s (imap pair live) in
  let s := foldl (λ s '(i, m), hydrateMachine (clk (length live + i)) diskUIDs s m) s
             (imap pair (default [] machines)) in
  (s, sweepOrphans s d).

(** ** Purging *)

(** [lister] is nil, or answers with an error or the pods of the informer. *)
Definition isStale (lister : option (string + list Pod)) (s : PodStore) (uid : string) : bool :=
  if decide (0 < length (default [] (p_Containers <$> GetPodCopy s uid))) then false
  else match lister with
       | Some (inr known) => negb (bool_decide (uid ∈ map p_UID known))
       | _ => true
       end.

(** [uids] are the hydrated uids in the order of the loop. *)
Definition PurgeStaleHydrated (lister : option (string + list Pod)) (uids : list string) (s : PodStore) (d : PodsDir)
    : PodStore * list Sweep :=
  let stale := List.filter (isStale lister s) uids in
  let s := if decide (stale = []) then s else PurgeHydrated s stale in
  (s, concat (map (λ uid,
    SRemoveAll uid ::
    match d with
    | None => []
    | Some m => omap (λ '(name, e), match e with
                  | EDir _ => if has_prefix name (uid +:+ "-") then Some (SUnmount name) else None
                  | EFile => None
                  end) (ReadDir m)
    end) stale)).

(** ** Restored pods *)

Hypothesis range_perm : ∀ A (m : gmap string A), range A m ≡ₚ map_to_list m.

Lemma lookup_modify s uid f u :
  pods (modify s uid f) !! u = if decide (u = uid) then f <$> pods s !! uid else pods s !! u.
Proof.
  unfold modify. destruct (pods s !! uid) as [ps|] eqn:H; cbn; case_decide; subst; try done.
  - by rewrite lookup_insert_eq.
  - by rewrite lookup_insert_ne.
Qed.

(** A step that changes the restart states of [uid]. *)
Definition onRestarts (u uid : string) (f : gmap string containerRestartState → gmap string containerRestartState)
    (ps : podState) : podState :=
  if decide (u = uid) then {| ps with pst_restarts := f ps.(pst_restarts) |} else ps.

Lemma lookup_modifyRestart s uid name f u ps : pods s !! u = Some ps →
  pods (modifyRestart s uid name f) !! u = Some (onRestarts u uid (alter f name) ps).
Proof.
  intros H. unfold modifyRestart, onRestarts. rewrite lookup_modify. case_decide; subst; [|done]. rewrite H. cbn. f_equal.
  rewrite alter_alt. destruct (pst_restarts ps !! name); [done|]. by destruct ps.
Qed.

Lemma lookup_patches {A} (g : A → containerRestartState → containerRestartState) uid l : ∀ s u ps,
  pods s !! u = Some ps →
  pods (foldl (λ s '(cname, a), modifyRestart s uid cname (g a)) s l) !! u =
  Some (onRestarts u uid (λ m, foldl (λ m '(cname, a), alter (g a) cname m) m l) ps).
Proof.
  induction l as [|[cname a] l IH]; intros s u ps H; cbn [foldl].
  - rewrite H. unfold onRestarts. case_decide; [|done]. by destruct ps.
  - rewrite (IH _ _ (onRestarts u uid (alter (g a) cname) ps)) by by apply lookup_modifyRestart.
    unfold onRestarts. by case_decide.
Qed.

(** Patches at the keys of a map, in any order. *)
Lemma foldl_alter {A B} (g : A → B → B) (l : list (string * A)) name : NoDup l.*1 → ∀ m : gmap string B,
  foldl (λ m '(k, a), alter (g a) k m) m l !! name =
  match (list_to_map l : gmap string A) !! name with Some a => g a <$> m !! name | None => m !! name end.
Proof.
  induction l as [|[k a] l IH]; intros Hnd m; cbn [foldl]; [by rewrite list_to_map_nil, lookup_empty|].
  inversion Hnd as [|?? Hk Hl]; subst. rewrite IH by done. rewrite list_to_map_cons.
  destruct (decide (k = name)) as [->|Hne].
  - rewrite lookup_insert_eq, lookup_alter_eq. rewrite not_elem_of_list_to_map_1 by done. done.
  - by rewrite lookup_insert_ne, lookup_alter_ne by done.
Qed.

Lemma foldl_range {A B} (g : A → B → B) (M : gmap string A) name (m : gmap string B) :
  foldl (λ m '(k, a), alter (g a) k m) m (range _ M) !! name =
  match M !! name with Some a => g a <$> m !! name | None => m !! name end.
Proof.
  assert (NoDup (range _ M).*1) as Hnd by (rewrite range_perm; apply NoDup_fst_map_to_list).
  assert (list_to_map (range _ M) = M) as Hm.
  { rewrite <- (list_to_map_to_list M) at 2. by apply list_to_map_proper. }
  rewrite foldl_alter by done. by rewrite Hm.
Qed.

Lemma initRestartMaps_lookup clk cs name :
  name ∈ map fst cs → ∃ t, (initRestartMaps clk cs).1 !! name = Some {| count := 0; backoff := restartBackoffInit; lastStarted := t |}.
Proof.
  unfold initRestartMaps. induction cs as [|[n b] cs IH] using rev_ind; [by intros ?%elem_of_nil|].
  rewrite imap_app, foldl_app, map_app. cbn. intros [H|H%list_elem_of_singleton]%elem_of_app.
  - destruct (foldl _ (∅, ∅) (imap pair cs)) as [rs probes]. cbn in *. destruct (decide (n = name)) as [->|].
    + rewrite lookup_insert_eq. eauto.
    + rewrite lookup_insert_ne by done. by apply IH.
  - destruct (foldl _ (∅, ∅) (imap pair cs)) as [rs probes]. cbn in *. subst. rewrite lookup_insert_eq. eauto.
Qed.

Lemma lookup_InitRestartState clk s pod u ps : pods s !! u = Some ps →
  ∃ ps', pods (InitRestartState clk s pod) !! u = Some ps' ∧
    ps'.(pst_pod) = ps.(pst_pod) ∧ ps'.(pst_ip) = ps.(pst_ip) ∧ ps'.(pst_phase) = ps.(pst_phase) ∧
    ps'.(pst_hydrated) = ps.(pst_hydrated) ∧ ps'.(pst_inFlight) = ps.(pst_inFlight) ∧ ps'.(pst_deleting) = ps.(pst_deleting) ∧
    if decide (u = pod.(p_UID)) then
      ∀ c, c ∈ pod.(p_Containers) → ∃ t, ps'.(pst_restarts) !! c.(c_Name) =
        Some {| count := 0; backoff := restartBackoffInit; lastStarted := t |}
    else ps'.(pst_restarts) = ps.(pst_restarts).
Proof.
  intros H. unfold InitRestartState.
  set (cs := map _ (p_Containers pod)). pose proof (initRestartMaps_lookup clk cs) as Hm.
  destruct (initRestartMaps clk cs) as [rs probes]. rewrite lookup_modify. case_decide; subst.
  - rewrite H. cbn. eexists. split; [done|]. split_and!; [done..|]. intros c Hc. cbn. apply Hm. unfold cs.
    rewrite map_map. cbn. apply list_elem_of_fmap. eauto.
  - exists ps. rewrite H. done.
Qed.

(** A restored entry: the pod as it was persisted, with its restart states. *)
Definition restoredEntry (state : PersistedPodState) (pod : Pod) (ps : podState) : Prop :=
  ps.(pst_pod) = pod ∧ ps.(pst_ip) = state.(pp_PodIP) ∧ ps.(pst_phase) = PodRunning ∧ ps.(pst_hydrated) = true ∧
  ps.(pst_inFlight) = None ∧ ps.(pst_deleting) = false.

Definition restoredRestarts (state : PersistedPodState) (pod : Pod) (ps : podState) : Prop :=
  ∀ c, c ∈ pod.(p_Containers) → ∃ rs, ps.(pst_restarts) !! c.(c_Name) = Some rs ∧
    rs.(count) = default 0%Z (state.(pp_Restarts) !! c.(c_Name)) ∧
    rs.(backoff) = match state.(pp_Backoffs) !! c.(c_Name) with
                   | Some sec => Duration_of_seconds sec
                   | None => restartBackoffInit
                   end.

Lemma restoreRestarts_own clk s state pod ps : pods s !! pod.(p_UID) = Some ps → restoredEntry state pod ps →
  ∃ ps', pods (restoreRestarts clk s (state, pod)) !! pod.(p_UID) = Some ps' ∧ restoredEntry state pod ps' ∧
    restoredRestarts state pod ps'.
Proof.
  intros H He. unfold restoreRestarts.
  destruct (lookup_InitRestartState clk s pod _ ps H) as (ps1 & H1 & Hp & Hi & Hph & Hh & Hf & Hd & Hr).
  rewrite decide_True in Hr by done.
  pose proof (lookup_patches (λ n rs, {| rs with count := n |}) (p_UID pod) (range _ (pp_Restarts state)) _ _ _ H1) as H2.
  pose proof (lookup_patches (λ sec rs, {| rs with backoff := Duration_of_seconds sec |}) (p_UID pod)
    (range _ (pp_Backoffs state)) _ _ _ H2) as H3.
  unfold onRestarts in H3. rewrite !decide_True in H3 by done. eexists. split; [exact H3|]. split.
  - unfold restoredEntry in *. cbn. naive_solver congruence.
  - intros c Hc. destruct (Hr c Hc) as [t Ht]. cbn.
    rewrite (foldl_range (λ sec rs, {| rs with backoff := Duration_of_seconds sec |})),
      (foldl_range (λ n rs, {| rs with count := n |})), Ht.
    destruct (pp_Backoffs state !! c_Name c), (pp_Restarts state !! c_Name c); cbn; eexists; by split_and!.
Qed.

Lemma restoreRestarts_other clk s state pod u : u ≠ pod.(p_UID) →
  pods (restoreRestarts clk s (state, pod)) !! u = pods s !! u.
Proof.
  intros Hu. unfold restoreRestarts.
  assert (∀ A (g : A → containerRestartState → containerRestartState) l s,
    pods (foldl (λ s '(cname, a), modifyRestart s (p_UID pod) cname (g a)) s l) !! u = pods s !! u) as H.
  { intros A g l. induction l as [|[cname a] l IH]; intros s0; cbn; [done|]. rewrite IH. unfold modifyRestart.
    by rewrite lookup_modify, decide_False. }
  etrans; [exact (H _ (λ sec rs, {| rs with backoff := Duration_of_seconds sec |}) _ _)|].
  etrans; [exact (H _ (λ n rs, {| rs with count := n |}) _ _)|].
  unfold InitRestartState. destruct (initRestartMaps _ _). by rewrite lookup_modify, decide_False.
Qed.

Lemma batch_loop_lookup es : ∀ s c m u,
  pods (RegisterHydratedBatch_loop s es c m).1.1 !! u =
  match last (filter (λ e, e.(he_uid) = u) es) with
  | Some e => Some (newPodState e.(he_pod) e.(he_ip) PodRunning true None)
  | None => pods s !! u
  end.
Proof.
  induction es as [|e es IH]; intros s c m u; cbn [RegisterHydratedBatch_loop]; [done|]. rewrite IH.
  rewrite filter_cons. destruct (decide (he_uid e = u)) as [He|He].
  - rewrite last_cons. destruct (last _); [done|]. unfold register. cbn. by rewrite He, lookup_insert_eq.
  - destruct (last _); [done|]. unfold register. cbn. by rewrite lookup_insert_ne.
Qed.

Lemma batch_lookup es s e : NoDup (map he_uid es) → e ∈ es →
  pods (RegisterHydratedBatch s es) !! e.(he_uid) = Some (newPodState e.(he_pod) e.(he_ip) PodRunning true None).
Proof.
  intros Hnd He. unfold RegisterHydratedBatch.
  pose proof (batch_loop_lookup es s 0 0 (he_uid e)) as H. destruct (RegisterHydratedBatch_loop s es 0 0) as [[s' c] m].
  cbn in *. rewrite H. assert (filter (λ e', he_uid e' = he_uid e) es = [e]) as ->; [|done].
  clear H. induction es as [|e' es IH]; [by apply elem_of_nil in He|]. inversion Hnd as [|?? Hn Hnd']; subst.
  rewrite filter_cons. apply elem_of_cons in He as [->|He].
  - rewrite decide_True by done. f_equal. apply filter_none, Forall_forall. intros x Hx Hu.
    apply Hn. rewrite <- Hu. apply list_elem_of_fmap. eauto.
  - rewrite decide_False; [by apply IH|]. intros Hu. apply Hn. rewrite Hu. apply list_elem_of_fmap. eauto.
Qed.

(** The loops over the restored pods and over the machines. *)
Lemma restoreAll_lookup clk live : NoDup (map (λ sp, sp.2.(p_UID)) live) → ∀ n s state pod ps,
  (state, pod) ∈ live → pods s !! pod.(p_UID) = Some ps → restoredEntry state pod ps →
  ∃ ps', pods (foldl (λ s '(i, sp), restoreRestarts (clk i) s sp) s (imap (λ i, pair (n + i)) live)) !! pod.(p_UID) = Some ps' ∧
    restoredEntry state pod ps' ∧ restoredRestarts state pod ps'.
Proof.
  assert (∀ live n s u, u ∉ map (λ sp : PersistedPodState * Pod, sp.2.(p_UID)) live →
    pods (foldl (λ s '(i, sp), restoreRestarts (clk i) s sp) s (imap (λ i, pair (n + i)) live)) !! u = pods s !! u) as Hother.
  { clear live. induction live as [|[st p] live IH]; intros n s u Hu; cbn; [done|].
    rewrite map_cons, not_elem_of_cons in Hu. rewrite (imap_ext _ (λ i, pair (S n + i))) by (intros; cbn; f_equal; lia).
    rewrite IH by naive_solver. apply restoreRestarts_other. naive_solver. }
  induction live as [|[st p] live IH]; intros Hnd n s state pod ps Hin H He; [by apply elem_of_nil in Hin|].
  inversion Hnd as [|?? Hn Hnd']; subst. rewrite imap_cons. cbn [foldl]. cbn beta iota.
  rewrite (imap_ext _ (λ i, pair (S n + i))) by (intros; cbn; f_equal; lia).
  apply elem_of_cons in Hin as [[= -> ->]|Hin].
  - rewrite Hother by done. eapply restoreRestarts_own; eauto.
  - eapply IH; [done|done| |done]. rewrite restoreRestarts_other; [done|]. intros Hu. apply Hn. cbn. rewrite <- Hu.
    apply list_elem_of_fmap. by exists (state, pod).
Qed.

Lemma machines_lookup clk uids ms n s u : u ∈ uids →
  pods (foldl (λ s '(i, m), hydrateMachine (clk (n + i)) uids s m) s (imap pair ms)) !! u = pods s !! u.
Proof.
  intros Hu. generalize (imap pair ms). intros l. revert s. induction l as [|[i m] l IH]; intros s; cbn; [done|].
  rewrite IH. unfold hydrateMachine. case_decide as H1; [done|]. case_decide; [|done].
  assert (u ≠ pm_UID m) as Hne by (intros ->; naive_solver).
  unfold InitRestartState. destruct (initRestartMaps _ _). rewrite lookup_modify, decide_False by done.
  cbn. by rewrite lookup_insert_ne.
Qed.
End Hydration.

(** ** Restored pods, from the disk *)

(** Each state file describes the pod that its directory is named after, as
    [writePodState] files them. *)
Definition well_filed (Unmarshal : string → string + PersistedPodState) (ioerr : string → option string) (d : PodsDir) : Prop :=
  ∀ uid state pod, readPodState Unmarshal (ioerr uid) d uid = inr state → state.(pp_Pod) = Some pod → pod.(p_UID) = uid.

Lemma NoDup_omap_fmap {A B C} (f : A → option B) (g : B → C) (h : A → C) l :
  (∀ x y, x ∈ l → f x = Some y → g y = h x) → NoDup (map h l) → NoDup (map g (omap f l)).
Proof.
  induction l as [|x l IH]; intros Hf Hnd; cbn; [constructor|]. inversion Hnd as [|?? Hn Hnd']; subst.
  assert (NoDup (map g (omap f l))) as Hl by (apply IH; [|done]; intros; apply Hf; [by right|done]).
  destruct (f x) as [y|] eqn:Hy; cbn; [|exact Hl]. constructor; [|exact Hl].
  rewrite (Hf x y) by (done || by left). intros (z & Hz & Hin)%list_elem_of_fmap.
  apply list_elem_of_omap in Hin as (x' & Hx' & Hfx). apply Hn. rewrite Hz, (Hf x' z) by (done || by right).
  apply list_elem_of_fmap. eauto.
Qed.

Lemma ReadDir_NoDup m : NoDup (map fst (ReadDir m)).
Proof.
  unfold ReadDir. apply (NoDup_omap_fmap _ _ id).
  - intros x y _ H. by apply fmap_Some in H as (e & _ & ->).
  - rewrite map_id. unfold sortStrings. rewrite merge_sort_Permutation. apply NoDup_fst_map_to_list.
Qed.

Lemma restorable_NoDup Unmarshal ioerr d : well_filed Unmarshal ioerr d →
  NoDup (map (λ sp, sp.2.(p_UID)) (restorable (loadAllPodStates Unmarshal ioerr d))).
Proof.
  intros Hw. unfold restorable. apply (NoDup_omap_fmap _ _ (λ state, default "" (p_UID <$> state.(pp_Pod)))).
  { intros state [st pod] _ H. destruct (pp_Pod state) eqn:Hp; [|done]. destruct (isTerminalPhase _); [done|].
    by injection H as <- <-. }
  unfold loadAllPodStates. destruct d as [m|]; [|constructor]. apply (NoDup_omap_fmap _ _ fst); [|apply ReadDir_NoDup].
  intros [uid [|files]] state _ H; [done|]. destruct (readPodState _ _ _ uid) as [|st] eqn:Hr; [done|].
  destruct (pp_Pod st) as [pod|] eqn:Hp; [|done]. injection H as <-. rewrite Hp. cbn. eapply Hw; eauto.
Qed.

Lemma restorable_elem Unmarshal ioerr d uid state pod :
  readPodState Unmarshal (ioerr uid) d uid = inr state → state.(pp_Pod) = Some pod →
  isTerminalPhase state.(pp_Phase) = false → (state, pod) ∈ restorable (loadAllPodStates Unmarshal ioerr d).
Proof.
  intros Hr Hp Ht. unfold restorable. apply list_elem_of_omap. exists state. rewrite Hp, Ht. split; [|done].
  destruct d as [m|]; [|done]. apply loadAllPodStates_elem. rewrite Hp. eauto.
Qed.

Lemma sweep_keeps s d name ps : getPodState s (ownerUID name) = Some ps → ps.(pst_hydrated) = true →
  (SRemoveAll name ∉ sweepOrphans s d) ∧ (SUnmount name ∉ sweepOrphans s d).
Proof.
  intros Hps Hh. assert (ownerUID name ∈ HydratedUIDs s) as Hin.
  { unfold HydratedUIDs. apply elem_of_dom. exists ps. by apply map_lookup_filter_Some. }
  unfold sweepOrphans. destruct d as [m|]; [|split; apply not_elem_of_nil].
  split; intros ([n [|files]] & _ & H)%list_elem_of_omap; try done;
    (case_decide as Hd; [done|]; destruct (isOverlayName n); simplify_eq; done).
Qed.

Lemma hydrated_lookup Unmarshal range ioerr clk d machines uid state pod
    (Hrange : ∀ A (m : gmap string A), range A m ≡ₚ map_to_list m) :
  well_filed Unmarshal ioerr d →
  readPodState Unmarshal (ioerr uid) d uid = inr state → state.(pp_Pod) = Some pod →
  isTerminalPhase state.(pp_Phase) = false →
  ∃ ps, getPodState (HydrateFromRuntime Unmarshal range ioerr clk d machines NewPodStore).1 uid = Some ps ∧
    restoredEntry state pod ps ∧ restoredRestarts state pod ps.
Proof.
  intros Hw Hr Hp Ht. unfold HydrateFromRuntime, getPodState. cbv zeta. cbn [fst].
  pose proof (restorable_NoDup _ _ _ Hw) as Hnd. pose proof (restorable_elem _ _ _ _ _ _ Hr Hp Ht) as Hin.
  set (live := restorable _) in *. rewrite <- (Hw _ _ _ Hr Hp).
  rewrite machines_lookup; [|apply elem_of_list_to_set, list_elem_of_fmap; by exists (state, pod)].
  rewrite (imap_ext pair (λ i, pair (0 + i))) by done.
  eapply (restoreAll_lookup _ Hrange); [done|done| |].
  - apply (batch_lookup _ _ (hydrated_entry (state, pod))); [|apply list_elem_of_fmap; by exists (state, pod)].
    by rewrite map_map.
  - done.
Qed.

(** after a restart, every pod whose state file is readable and not
    terminal is in the store again, whatever systemd lists and in whatever
    order Go ranges over the maps: with its pod object, address, restart counts
    and back-off delays as persisted, registered as running and hydrated, and
    none of its directories is swept. *)
Theorem hydration_restores Unmarshal range ioerr clk d machines uid state pod
    (Hrange : ∀ A (m : gmap string A), range A m ≡ₚ map_to_list m) :
  well_filed Unmarshal ioerr d →
  readPodState Unmarshal (ioerr uid) d uid = inr state → state.(pp_Pod) = Some pod →
  isTerminalPhase state.(pp_Phase) = false →
  let '(s, swept) := HydrateFromRuntime Unmarshal range ioerr clk d machines NewPodStore in
  ∃ ps, getPodState s uid = Some ps ∧ restoredEntry state pod ps ∧ restoredRestarts state pod ps ∧
    ∀ name, ownerUID name = uid → (SRemoveAll name ∉ swept) ∧ (SUnmount name ∉ swept).
Proof.
  intros Hw Hr Hp Ht.
  destruct (hydrated_lookup _ _ ioerr clk d machines _ _ _ Hrange Hw Hr Hp Ht) as (ps & Hps & He & Hrs).
  exists ps. split_and!; [done..|]. intros name Hn. eapply sweep_keeps; [|apply He]. by rewrite Hn.
Qed.

(** ** A restart *)

(** The state of one pod, for the examples. *)
Definition crashedStore : PodStore :=
  let pod := demoPod "a" 600 10 in
  let s := PromoteRunning (RegisterPending NewPodStore "u" {| pod with p_UID := "u" |} 1) "u" {| pod with p_UID := "u" |} "10.0.0.7" in
  (BumpBackoff (BumpBackoff (InitRestartState (λ _, 1%Z) s {| pod with p_UID := "u" |}) "u" "web").1 "u" "web").1.

Definition crashedState : PersistedPodState :=
  persistedState crashedStore (default zeroPod (GetPodCopy crashedStore "u")) PodRunning.

Definition exUnmarshal (data : string) : string + PersistedPodState :=
  if decide (data = "{u}") then inr crashedState else inl "unexpected end of JSON input".

Definition exDisk : PodsDir := Some {[ "u" := EDir {[ podStateFile := "{u}" ]}; "stale" := EDir ∅ ]}.

Lemma exDisk_read uid : readPodState exUnmarshal None exDisk uid =
  if decide (uid = "u") then inr crashedState else inl ErrNotExist.
Proof.
  unfold readPodState, exDisk, lookupDir. cbn [mbind option_bind]. case_decide as Hu; [subst|].
  { by rewrite lookup_insert_eq. }
  rewrite lookup_insert_ne by done. destruct (decide (uid = "stale")) as [->|Hs].
  - by rewrite lookup_singleton_eq.
  - by rewrite lookup_singleton_ne.
Qed.

Lemma exDisk_filed : well_filed exUnmarshal (λ _, None) exDisk.
Proof.
  intros uid state pod. rewrite exDisk_read. case_decide as Hu; [|done]. intros [= <-]. rewrite Hu.
  assert (pp_Pod crashedState = Some (default zeroPod (GetPodCopy crashedStore "u"))) as -> by reflexivity.
  intros H. apply (f_equal (from_option p_UID "")) in H. cbn [from_option] in H. rewrite <- H. vm_compute. reflexivity.
Qed.

Definition exHydrate : PodStore * list Sweep :=
  HydrateFromRuntime exUnmarshal (λ _, map_to_list) (λ _, None) (λ _ _, 1%Z) exDisk None NewPodStore.

Lemma hydration_restores_witness :
  (∃ ps, getPodState exHydrate.1 "u" = Some ps ∧ ps.(pst_ip) = "10.0.0.7") ∧ exHydrate.2 = [SRemoveAll "stale"] ∧
  (count <$> RestartState exHydrate.1 "u" "web") = Some 2%Z ∧
  (backoff <$> RestartState exHydrate.1 "u" "web") = Some (40 * Second)%Z.
Proof.
  split; [|vm_compute; auto].
  pose proof (hydration_restores exUnmarshal (λ _, map_to_list) (λ _, None) (λ _ _, 1%Z) exDisk None "u" crashedState
    (default zeroPod (GetPodCopy crashedStore "u")) (λ A m, Permutation_refl _) exDisk_filed (exDisk_read "u") eq_refl eq_refl) as H.
  fold exHydrate in H. destruct exHydrate as [s swept]. destruct H as (ps & Hps & He & _). exists ps. split; [exact Hps|].
  destruct He as (_ & -> & _). vm_compute. reflexivity.
Defined.

(** What [writePodState] adds keeps the files where they belong. *)
Lemma written_well_filed Marshal Unmarshal io state d s ioerr :
  writePodState Marshal io state {| d_now := d; d_seen := [d] |} = (s, inr tt) →
  (∀ data, Marshal state = inr data → Unmarshal data = inr state) → is_Some state.(pp_Pod) →
  ioerr (stateUID state) = None → well_filed Unmarshal ioerr d → well_filed Unmarshal ioerr s.(d_now).
Proof.
  intros Hrun Hround [pod Hpod] Hio Hw u st p. rewrite (written_read _ _ _ _ _ _ _ _ Hrun Hround).
  - case_decide; [|apply Hw]. intros [= <-]. rewrite Hpod. intros [= <-]. subst u. unfold stateUID. by rewrite Hpod.
  - destruct (decide (u = stateUID state)) as [->|]; auto.
Qed.

(** C12: a restart keeps what the node knows about a running pod.  When
    [writePodState] stored the state of a pod that is not terminal (its result
    is nil) and a new process finds that disk, the store after hydration has
    the same pod object and address, and for each of its containers the same
    restart count; its back-off delay is the old one converted to a number of
    seconds and back, which is the old one when it is one of the delays that
    the code computes, 10 seconds doubled up to 5 minutes.  It is assumed that
    decoding gives back what was encoded, that the new process can read the
    file, and that the files of the other pods are in their directories. *)
Theorem restart_roundtrip Marshal Unmarshal io range ioerr clk d disk machines store pod phase
    (Hrange : ∀ A (m : gmap string A), range A m ≡ₚ map_to_list m) :
  let state := persistedState store pod phase in
  (∀ data, Marshal state = inr data → Unmarshal data = inr state) →
  well_filed Unmarshal ioerr d → ioerr pod.(p_UID) = None →
  writePodState Marshal io state {| d_now := d; d_seen := [d] |} = (disk, inr tt) →
  isTerminalPhase phase = false →
  let s := (HydrateFromRuntime Unmarshal range ioerr clk disk.(d_now) machines NewPodStore).1 in
  GetPodCopy s pod.(p_UID) = Some pod ∧ PodIP s pod.(p_UID) = PodIP store pod.(p_UID) ∧
  ∀ c rs, c ∈ pod.(p_Containers) → RestartState store pod.(p_UID) c.(c_Name) = Some rs →
    ∃ rs', RestartState s pod.(p_UID) c.(c_Name) = Some rs' ∧ rs'.(count) = rs.(count) ∧
      rs'.(backoff) = Duration_of_seconds (Seconds rs.(backoff)) ∧
      (rs.(backoff) ∈ backoffValues → rs'.(backoff) = rs.(backoff)).
Proof.
  intros state Hround Hw Hio Hrun Ht s.
  assert (well_filed Unmarshal ioerr disk.(d_now)) as Hw' by (eapply written_well_filed; eauto).
  assert (readPodState Unmarshal (ioerr pod.(p_UID)) disk.(d_now) pod.(p_UID) = inr state) as Hr.
  { rewrite (written_read _ _ _ _ _ _ _ _ Hrun Hround) by auto. by rewrite decide_True. }
  destruct (hydrated_lookup _ _ ioerr clk _ machines _ _ pod Hrange Hw' Hr eq_refl Ht) as (ps' & Hps' & He & Hrs).
  fold s in Hps'. destruct He as (Hpod & Hip & _).
  split_and!; [unfold GetPodCopy; rewrite Hps'; cbn; by rewrite Hpod|unfold PodIP at 1; by rewrite Hps'|].
  intros c rs Hc Hrsc. destruct (Hrs c Hc) as (rs' & Hrs' & Hcount & Hback). exists rs'.
  destruct (persisted_restarts _ _ phase _ _ Hrsc) as [Hc1 Hb1]. unfold state in *. rewrite Hc1 in Hcount. rewrite Hb1 in Hback.
  unfold RestartState. rewrite Hps'. split_and!; [done..|]. intros Hb. by rewrite Hback, backoff_roundtrip.
Qed.

Definition exMarshal (state : PersistedPodState) : string + string := inr "{u}".

Definition fineIO : WriteIO := {| io_MkdirAll := None; io_written := 0; io_WriteFile := None; io_Rename := None |}.

Definition rewrittenDisk : Disk := (writePodState exMarshal fineIO crashedState {| d_now := exDisk; d_seen := [exDisk] |}).1.

Lemma restart_roundtrip_witness :
  PodIP (HydrateFromRuntime exUnmarshal (λ _, map_to_list) (λ _, None) (λ _ _, 1%Z) rewrittenDisk.(d_now) None NewPodStore).1 "u" =
    "10.0.0.7".
Proof.
  etransitivity; [|vm_compute; reflexivity].
  apply (restart_roundtrip exMarshal exUnmarshal fineIO (λ _, map_to_list) (λ _, None) (λ _ _, 1%Z) exDisk rewrittenDisk None crashedStore
    (default zeroPod (GetPodCopy crashedStore "u")) PodRunning (λ A m, Permutation_refl _)).
  - intros data [= <-]. reflexivity.
  - exact exDisk_filed.
  - reflexivity.
  - reflexivity.
  - reflexivity.
Defined.

(** A failed pod is not restored from its file, but its unit, which systemd
    keeps until it is reset, brings it back as a running stub. *)
Theorem terminal_pod_resurrected :
  let pod := demoPod "a" 600 10 in
  let unmarshal := λ _, inr {| pp_Pod := Some {| pod with p_UID := "u" |}; pp_PodIP := "10.0.0.7"; pp_Phase := PodFailed;
                               pp_Restarts := ∅; pp_Backoffs := ∅ |} in
  let machine := {| pm_UID := "u"; pm_Name := "a"; pm_Namespace := "default"; pm_NodeName := "n"; pm_PodIP := "10.0.0.7";
                    pm_ContainerName := "web"; pm_State := StateFailed; pm_ExitCode := 1 |} in
  let s := (HydrateFromRuntime unmarshal (λ _, map_to_list) (λ _, None) (λ _ _, 1%Z) exDisk (Some [machine]) NewPodStore).1 in
  PodPhase_of s "u" = PodRunning ∧ p_Containers <$> GetPodCopy s "u" = Some [].
Proof. vm_compute. auto. Qed.
