(* ===== verification/Reconciler.v ===== *)
(** * The reconciler (node/reconciler.go)

    The periodic pass that removes what Kubernetes no longer wants: machines
    of unknown pods, pods of the store that Kubernetes does not know, and
    directories without a pod.  A pass works on the pods directory, whose
    entries are given by name, and records what it does.  The answers of the
    pod lister and the order in which Go ranges over a map are parameters; the
    store is changed by nobody else during a pass. *)
From S2P Require Import Prelude Corev1 Types Probes PodStore Persist UnitNames BatchWatcher Hydration.
Import Str.

Inductive RAct :=
  | RStop (uid containerName : string)
  | RNetTeardown (uid namespace name : string)
  | RUnmount (overlay : string)
  | RVolumeCleanup (uid : string)
  | RRemoveAll (name : string)
  | RSync (namespace name : string)
  | RDeleteState (uid : string).

(** The lister is nil, or answers its calls, which are numbered. *)
Abbreviation Lister := (option (nat → string + list Pod)).

Definition lists (answer : string + list Pod) (uid : string) : bool :=
  match answer with inr known => bool_decide (uid ∈ map p_UID known) | inl _ => false end.

Definition removeEntry (d : PodsDir) (name : string) : PodsDir := delete name <$> d.

(** [strings.Cut(nsName, "/")] *)
Definition splitNsName (nsName : string) : string * string :=
  match index_byte nsName "/" with
  | Some i => (stake i nsName, sdrop (i + 1) nsName)
  | None => ("", nsName)
  end.

Record RState := { r_store : PodStore; r_disk : PodsDir; r_out : list RAct }.

Definition teardown (r : RState) (m : PodMetadata) : RState :=
  let '(namespace, name) := match GetPodCopy r.(r_store) m.(pm_UID) with
                            | Some pod => (pod.(p_Namespace), pod.(p_Name))
                            | None => (m.(pm_Namespace), m.(pm_Name))
                            end in
  {| r with r_disk := removeEntry r.(r_disk) m.(pm_UID);
     r_out := r.(r_out) ++
       [RStop m.(pm_UID) m.(pm_ContainerName); RNetTeardown m.(pm_UID) namespace name;
        RUnmount (m.(pm_UID) +:+ "-" +:+ m.(pm_ContainerName)); RVolumeCleanup m.(pm_UID); RRemoveAll m.(pm_UID)] |}.

(** One machine, the [i]-th of the listing. *)
Definition cleanOrphan (lister : Lister) (r : RState) (im : nat * PodMetadata) : RState :=
  let '(i, m) := im in
  if IsInFlight r.(r_store) m.(pm_UID) then r
  else if HasPod r.(r_store) m.(pm_UID) then r
  else if match lister with Some l => lists (l i) m.(pm_UID) | None => false end
  then {| r with r_out := r.(r_out) ++ [RSync m.(pm_Namespace) m.(pm_Name)] |}
  else teardown r m.

Definition cleanOrphans (lister : Lister) (machines : option (list PodMetadata)) (r : RState) : RState :=
  match machines with
  | None => r
  | Some ms => foldl (cleanOrphan lister) r (imap pair ms)
  end.

(** [EvictGhost] of the gambit: the store and the state file. *)
Definition evictGhost (r : RState) (uid : string) : RState :=
  {| r_store := EvictGhost r.(r_store) uid; r_disk := deletePodState r.(r_disk) uid;
     r_out := r.(r_out) ++ [RDeleteState uid] |}.

Definition cleanGhost (known : list Pod) (r : RState) (kv : string * string) : RState :=
  let '(uid, nsName) := kv in
  if IsInFlight r.(r_store) uid then r
  else if bool_decide (uid ∈ map p_UID known) then r
  else
    let '(namespace, name) := splitNsName nsName in
    evictGhost {| r with r_out := r.(r_out) ++ [RNetTeardown uid namespace name] |} uid.

(** [i] is the number of the lister's call. *)
Definition cleanGhosts (range : ∀ A, gmap string A → list (string * A)) (lister : Lister) (i : nat) (r : RState) : RState :=
  match lister with
  | None => r
  | Some l =>
      if decide (PodUIDs r.(r_store) = ∅) then r
      else match l i with
           | inl _ => r
           | inr known => foldl (cleanGhost known) r (range _ (PodUIDs r.(r_store)))
           end
  end.

Definition cleanStaleDir (uids : gmap string string) (r : RState) (ne : string * Entry) : RState :=
  let '(name, e) := ne in
  match e with
  | EFile => r
  | EDir _ =>
      if decide (is_Some (uids !! ownerUID name)) then r
      else if IsInFlight r.(r_store) (ownerUID name) then r
      else {| r with r_disk := removeEntry r.(r_disk) name; r_out := r.(r_out) ++ [RRemoveAll name] |}
  end.

Definition cleanStaleDirs (r : RState) : RState :=
  match r.(r_disk) with
  | None => r
  | Some m => foldl (cleanStaleDir (PodUIDs r.(r_store))) r (ReadDir m)
  end.

Definition RunOnce (range : ∀ A, gmap string A → list (string * A)) (lister : Lister) (machines : option (list PodMetadata))
    (store : PodStore) (d : PodsDir) : RState :=
  let r := {| r_store := store; r_disk := d; r_out := [] |} in
  let r := cleanOrphans lister machines r in
  let r := cleanGhosts range lister (length (default [] machines)) r in
  cleanStaleDirs r.

(** ** What a pass leaves alone *)

Definition is_uid (u : string) : Prop := len u = 36.

Lemma get_length s n : len s ≤ n → String.get n s = None.
Proof. revert n. induction s as [|c s IH]; intros [|n] H; cbn in *; try done; [lia|]. apply IH. lia. Qed.

Lemma ownerUID_uid u : is_uid u → ownerUID u = u.
Proof.
  intros H. unfold ownerUID, isOverlayName. rewrite get_length by (rewrite H; done). done.
Qed.

Lemma get_app a c s : String.get (len a) (a +:+ String c s) = Some c.
Proof. induction a as [|x a IH]; cbn; [done|exact IH]. Qed.

Lemma ownerUID_overlay u c : is_uid u → ownerUID (u +:+ "-" +:+ c) = u.
Proof.
  intros H. unfold ownerUID, isOverlayName. unfold is_uid in H. rewrite <- H.
  change ("-" +:+ c) with (String "-" c). rewrite get_app, bool_decide_true by done. apply stake_app.
Qed.

Definition touches (uid : string) (a : RAct) : Prop :=
  match a with
  | RStop u _ | RNetTeardown u _ _ | RVolumeCleanup u | RDeleteState u => u = uid
  | RUnmount n | RRemoveAll n => ownerUID n = uid
  | RSync _ _ => False
  end.

Definition entry (d : PodsDir) (name : string) : option Entry := d ≫= λ m, m !! name.

(** Nothing that belongs to [uid] has been touched. *)
Record spared (uid : string) (r0 r : RState) : Prop := {
  sp_store : getPodState r.(r_store) uid = getPodState r0.(r_store) uid;
  sp_out : Forall (λ a, ¬ touches uid a) r.(r_out);
  sp_disk : ∀ name, ownerUID name = uid → entry r.(r_disk) name = entry r0.(r_disk) name;
}.

Lemma entry_remove d name n : entry (removeEntry d name) n = if decide (n = name) then None else entry d n.
Proof.
  unfold entry, removeEntry. destruct d as [m|]; cbn; [|by case_decide].
  case_decide; [subst; apply lookup_delete_eq|by apply lookup_delete_ne].
Qed.

Lemma entry_onFiles d uid f n : n ≠ uid → entry (onFiles d uid f) n = entry d n.
Proof. intros H. destruct d as [m|]; cbn; [|done]. by apply lookup_alter_ne. Qed.

Lemma EvictGhost_other s uid u : u ≠ uid → getPodState (EvictGhost s uid) u = getPodState s u.
Proof.
  intros H. unfold EvictGhost, getPodState. destruct (pods s !! uid); [|done]. cbn. by apply lookup_delete_ne.
Qed.

Lemma spared_refl uid r : r.(r_out) = [] → spared uid r r.
Proof. intros H. by split; [|rewrite H; constructor|]. Qed.

Section Spared.
Context (uid : string) (r0 : RState).

Lemma spared_teardown r m : spared uid r0 r → is_uid m.(pm_UID) → m.(pm_UID) ≠ uid → spared uid r0 (teardown r m).
Proof.
  intros [Hs Ho Hd] Hm Hne. unfold teardown. set (nn := match GetPodCopy _ _ with Some _ => _ | None => _ end).
  destruct nn as [namespace name]. split; cbn [r_store r_out r_disk]; [done| |].
  - apply Forall_app. split; [done|]. repeat constructor; cbn; try done.
    + by rewrite ownerUID_overlay.
    + by rewrite ownerUID_uid.
  - intros n Hn. rewrite entry_remove. case_decide as Hx; [|by apply Hd]. subst n. by rewrite ownerUID_uid in Hn.
Qed.

Lemma spared_orphans lister ms r : spared uid r0 r → is_Some (getPodState r0.(r_store) uid) →
  (∀ m, m ∈ default [] ms → is_uid m.(pm_UID)) → spared uid r0 (cleanOrphans lister ms r).
Proof.
  intros Hr [ps Hps] Hm. destruct ms as [ms|]; [|done]. cbn in *.
  assert (∀ im, im ∈ imap pair ms → is_uid im.2.(pm_UID)) as Him.
  { intros [i m] (j & ? & ? & ?)%elem_of_lookup_imap. simplify_eq. apply Hm. by eapply list_elem_of_lookup_2. }
  revert r Hr Him. generalize (imap pair ms). intros l. induction l as [|[i m] l IH]; intros r Hr Him; cbn; [done|].
  apply IH; [|intros; apply Him; by right]. specialize (Him (i, m) ltac:(by left)).
  destruct (IsInFlight _ _); [done|]. destruct (HasPod _ _) eqn:Hh; [done|].
  destruct (match lister with Some _ => _ | None => _ end).
  - destruct Hr as [Hs Ho Hd]. split; cbn; [done| |done]. apply Forall_app. split; [done|]. constructor; [|constructor]. tauto.
  - apply spared_teardown; [done|done|]. intros Hu. unfold HasPod in Hh. rewrite Hu, (sp_store _ _ _ Hr), Hps in Hh. done.
Qed.

Lemma IsInFlight_getPodState s s' : getPodState s uid = getPodState s' uid → IsInFlight s uid = IsInFlight s' uid.
Proof. unfold IsInFlight. by intros ->. Qed.

Lemma spared_ghost known r u nsName : spared uid r0 r → is_uid u →
  IsInFlight r0.(r_store) uid = true ∨ uid ∈ map p_UID known → spared uid r0 (cleanGhost known r (u, nsName)).
Proof.
  intros Hr Hu Hprot. unfold cleanGhost. destruct (IsInFlight (r_store r) u) eqn:Hf; [done|].
  case_bool_decide as Hk; [done|]. destruct (splitNsName nsName) as [namespace name].
  assert (u ≠ uid) as Hne.
  { intros ->. destruct Hprot as [Hp|Hp]; [|done]. by rewrite (IsInFlight_getPodState _ _ (sp_store _ _ _ Hr)), Hp in Hf. }
  destruct Hr as [Hs Ho Hd]. split; cbn [evictGhost r_store r_out r_disk].
  - by rewrite EvictGhost_other.
  - rewrite !Forall_app. split_and!; [done|by repeat constructor|by repeat constructor].
  - intros n Hn. unfold deletePodState. rewrite entry_onFiles; [by apply Hd|]. intros ->. by rewrite ownerUID_uid in Hn.
Qed.

Lemma spared_ghosts range lister i r : spared uid r0 r →
  (∀ A (m : gmap string A), range A m ≡ₚ map_to_list m) →
  (∀ u, HasPod r.(r_store) u = true → is_uid u) →
  IsInFlight r0.(r_store) uid = true ∨ (∀ l known, lister = Some l → l i = inr known → uid ∈ map p_UID known) →
  spared uid r0 (cleanGhosts range lister i r).
Proof.
  intros Hr Hrange Huids Hprot. unfold cleanGhosts. destruct lister as [l|]; [|done]. case_decide; [done|].
  destruct (l i) as [e|known] eqn:Hl; [done|].
  assert (Forall (λ kv, is_uid kv.1) (range _ (PodUIDs (r_store r)))) as Hkv.
  { apply Forall_forall. intros [u n]. rewrite Hrange. intros Hin%elem_of_map_to_list. apply Huids. unfold PodUIDs in Hin.
    rewrite lookup_fmap in Hin. unfold HasPod, getPodState. cbn. by destruct (pods (r_store r) !! u). }
  clear Huids H. revert r Hr Hkv. generalize (range string). intros rg r Hr Hkv.
  revert Hkv Hr. generalize (rg (PodUIDs (r_store r))). intros kvs Hkv. revert r.
  induction Hkv as [|[u nsName] kvs Hu _ IH]; intros r Hr; cbn [foldl]; [done|].
  apply IH, spared_ghost; [done|done|]. destruct Hprot as [?|Hp]; [by left|right; by eapply Hp].
Qed.

Lemma spared_dirs r : spared uid r0 r → is_Some (getPodState r0.(r_store) uid) → spared uid r0 (cleanStaleDirs r).
Proof.
  intros Hr [ps Hps]. unfold cleanStaleDirs. destruct (r_disk r) as [m|]; [|done].
  assert (is_Some (PodUIDs (r_store r) !! uid)) as Hu.
  { unfold PodUIDs. rewrite lookup_fmap. pose proof (sp_store _ _ _ Hr) as Hs. unfold getPodState in Hs, Hps.
    rewrite Hs, Hps. eauto. }
  revert Hu. generalize (PodUIDs (r_store r)). intros uids Hu. revert r Hr. generalize (ReadDir m). intros l.
  induction l as [|[n e] l IH]; intros r Hr; cbn [foldl]; [done|]. apply IH. unfold cleanStaleDir.
  destruct e; [done|]. case_decide as Hn; [done|]. destruct (IsInFlight _ _); [done|].
  assert (ownerUID n ≠ uid) by (by intros <-). destruct Hr as [Hs Ho Hd]. split; cbn [r_store r_out r_disk]; [done| |].
  - apply Forall_app. split; [done|]. by repeat constructor.
  - intros n' Hn'. rewrite entry_remove. case_decide; [by subst|]. by apply Hd.
Qed.
End Spared.

Lemma cleanOrphans_store lister ms r : r_store (cleanOrphans lister ms r) = r_store r.
Proof.
  destruct ms as [ms|]; [|done]. cbn. revert r. generalize (imap pair ms). intros l.
  induction l as [|[i m] l IH]; intros r; cbn [foldl]; [done|]. rewrite IH. unfold cleanOrphan, teardown.
  repeat case_match; done.
Qed.

(** C13: a pass of the reconciler never harms a pod that is wanted: when a pod of
    the store is being created, or is in every listing of Kubernetes' pods that
    succeeds, nothing of it is stopped, unmounted, torn down or removed, its
    entry in the store is as before, and so is everything in its directories.
    The uids are those of Kubernetes, also the ones that systemd reports. *)
Theorem reconcile_spares range lister machines store d uid ps
    (Hrange : ∀ A (m : gmap string A), range A m ≡ₚ map_to_list m) :
  getPodState store uid = Some ps →
  IsInFlight store uid = true ∨ (∀ l i known, lister = Some l → l i = inr known → uid ∈ map p_UID known) →
  (∀ m, m ∈ default [] machines → is_uid m.(pm_UID)) →
  (∀ u, HasPod store u = true → is_uid u) →
  let r := RunOnce range lister machines store d in
  getPodState r.(r_store) uid = Some ps ∧ Forall (λ a, ¬ touches uid a) r.(r_out) ∧
  ∀ name, ownerUID name = uid → entry r.(r_disk) name = entry d name.
Proof.
  intros Hps Hprot Hm Hu r. unfold r, RunOnce. set (r0 := {| r_store := store; r_disk := d; r_out := [] |}).
  enough (spared uid r0 (cleanStaleDirs (cleanGhosts range lister (length (default [] machines)) (cleanOrphans lister machines r0))))
    as [Hs Ho Hd] by (rewrite Hs; auto).
  assert (is_Some (getPodState (r_store r0) uid)) as Hsome by (cbn; eauto).
  apply spared_dirs; [|done]. apply spared_ghosts; [|done| |].
  - apply spared_orphans; [by apply spared_refl|done..].
  - intros u. rewrite cleanOrphans_store. apply Hu.
  - destruct Hprot as [?|Hp]; [by left|right; eauto].
Qed.

(** ** What a pass removes *)

Definition wanted (known : list Pod) (s : PodStore) (u : string) : Prop :=
  IsInFlight s u = true ∨ u ∈ map p_UID known.

Lemma ghosts_removed known kvs : ∀ r,
  (∀ u, is_Some (getPodState r.(r_store) u) → wanted known r.(r_store) u ∨ u ∈ kvs.*1) →
  ∀ u, is_Some (getPodState (foldl (cleanGhost known) r kvs).(r_store) u) →
       wanted known (foldl (cleanGhost known) r kvs).(r_store) u.
Proof.
  induction kvs as [|[u' nsName] kvs IH]; intros r Hr; cbn [foldl].
  { intros u Hu. destruct (Hr u Hu) as [?|?%elem_of_nil]; done. }
  apply IH. intros u Hu. unfold cleanGhost in *. destruct (IsInFlight (r_store r) u') eqn:Hf.
  { destruct (Hr u Hu) as [?|[->|?]%elem_of_cons]; [by left|by left; left|by right]. }
  case_bool_decide as Hk; [destruct (Hr u Hu) as [?|[->|?]%elem_of_cons]; [by left|by left; right|by right]|].
  destruct (splitNsName nsName) as [namespace name]. cbn [evictGhost r_store] in *.
  destruct (decide (u = u')) as [->|Hne].
  - exfalso. revert Hu. unfold EvictGhost, getPodState. destruct (pods (r_store r) !! u') eqn:Hp; cbn.
    + rewrite lookup_delete_eq. by intros [].
    + rewrite Hp. by intros [].
  - rewrite EvictGhost_other in Hu by done. unfold wanted, IsInFlight. rewrite EvictGhost_other by done.
    destruct (Hr u Hu) as [?|[->|?]%elem_of_cons]; [by left|done|by right].
Qed.

Lemma cleanGhosts_removed range l i known r :
  (∀ A (m : gmap string A), range A m ≡ₚ map_to_list m) → l i = inr known →
  ∀ u, is_Some (getPodState (cleanGhosts range (Some l) i r).(r_store) u) →
       wanted known (cleanGhosts range (Some l) i r).(r_store) u.
Proof.
  intros Hrange Hl. unfold cleanGhosts. case_decide as He.
  - intros u [ps Hps]. exfalso. apply (f_equal (lookup u)) in He. unfold PodUIDs in He. rewrite lookup_fmap in He.
    unfold getPodState in Hps. by rewrite Hps in He.
  - rewrite Hl. apply ghosts_removed. intros u [ps Hps]. right. rewrite Hrange. apply list_elem_of_fmap.
    exists (u, ps_key ps). split; [done|]. apply elem_of_map_to_list. unfold PodUIDs. rewrite lookup_fmap.
    unfold getPodState in Hps. by rewrite Hps.
Qed.

Lemma staleDirs_store uids l : ∀ r, r_store (foldl (cleanStaleDir uids) r l) = r_store r.
Proof.
  induction l as [|[n e] l IH]; intros r; cbn [foldl]; [done|]. rewrite IH. unfold cleanStaleDir. by repeat case_match.
Qed.

Lemma staleDirs_removed uids l : ∀ r,
  let kept s name := is_Some (uids !! ownerUID name) ∨ IsInFlight s (ownerUID name) = true in
  (∀ name files, entry r.(r_disk) name = Some (EDir files) → kept r.(r_store) name ∨ (name, EDir files) ∈ l) →
  ∀ name files, entry (foldl (cleanStaleDir uids) r l).(r_disk) name = Some (EDir files) → kept r.(r_store) name.
Proof.
  induction l as [|[n e] l IH]; intros r kept Hr name files; cbn [foldl].
  { intros He. destruct (Hr _ _ He) as [?|?%elem_of_nil]; done. }
  intros He. assert (kept (r_store (cleanStaleDir uids r (n, e))) name) as Hk.
  { eapply IH; [|exact He]. clear He name files. intros name files. unfold cleanStaleDir. destruct e as [|fs].
    { intros He. destruct (Hr _ _ He) as [?|[?|?]%elem_of_cons]; [by left|done|by right]. }
    case_decide as Hd; [intros He; destruct (Hr _ _ He) as [?|[[= -> ->]|?]%elem_of_cons]; [by left|by left; left|by right]|].
    destruct (IsInFlight _ _) eqn:Hf;
      [intros He; destruct (Hr _ _ He) as [?|[[= -> ->]|?]%elem_of_cons]; [by left|by left; right|by right]|].
    cbn [r_disk r_store]. rewrite entry_remove. case_decide; [done|]. intros He.
    destruct (Hr _ _ He) as [?|[[= -> ->]|?]%elem_of_cons]; [by left|done|by right]. }
  revert Hk. unfold kept, cleanStaleDir. by repeat case_match.
Qed.

Lemma cleanStaleDirs_removed r name files :
  entry (cleanStaleDirs r).(r_disk) name = Some (EDir files) →
  is_Some (getPodState (cleanStaleDirs r).(r_store) (ownerUID name)).
Proof.
  unfold cleanStaleDirs. destruct (r_disk r) as [m|] eqn:Hd; [|by rewrite Hd]. intros He.
  apply staleDirs_removed in He.
  - rewrite staleDirs_store. destruct He as [[x Hx]|Hf].
    + unfold PodUIDs in Hx. rewrite lookup_fmap in Hx. unfold getPodState. by destruct (pods (r_store r) !! _).
    + unfold IsInFlight in Hf. by destruct (getPodState _ _).
  - intros n fs Hn. right. rewrite Hd in Hn. by apply ReadDir_elem.
Qed.

(** What is done stays done. *)
Definition grows (r r' : RState) : Prop := ∀ a, a ∈ r.(r_out) → a ∈ r'.(r_out).

Lemma grows_foldl {A} (f : RState → A → RState) l : (∀ r x, grows r (f r x)) → ∀ r, grows r (foldl f r l).
Proof. intros Hf. induction l as [|x l IH]; intros r a Ha; cbn; [done|]. by apply IH, Hf. Qed.

Lemma grows_app r out store d : grows r {| r_store := store; r_disk := d; r_out := r.(r_out) ++ out |}.
Proof. intros a Ha. cbn. apply elem_of_app. by left. Qed.

Lemma cleanOrphan_grows lister r im : grows r (cleanOrphan lister r im).
Proof.
  destruct im as [i m]. unfold cleanOrphan, teardown. repeat case_match; try by intros a. all: apply grows_app.
Qed.

Lemma cleanGhosts_grows range lister i r : grows r (cleanGhosts range lister i r).
Proof.
  unfold cleanGhosts. destruct lister as [l|]; [|by intros a]. case_decide; [by intros a|]. destruct (l i); [by intros a|].
  apply grows_foldl. intros r' [u n]. unfold cleanGhost. repeat case_match; try by intros a.
  intros a Ha. cbn. rewrite !elem_of_app. by left; left.
Qed.

Lemma cleanStaleDirs_grows r : grows r (cleanStaleDirs r).
Proof.
  unfold cleanStaleDirs. destruct (r_disk r); [|by intros a]. apply grows_foldl. intros r' [n e]. unfold cleanStaleDir.
  repeat case_match; try by intros a. apply grows_app.
Qed.

Lemma orphans_stopped lister ms i m r : ms !! i = Some m → HasPod r.(r_store) m.(pm_UID) = false →
  match lister with Some l => lists (l i) m.(pm_UID) = false | None => True end →
  RStop m.(pm_UID) m.(pm_ContainerName) ∈ (cleanOrphans lister (Some ms) r).(r_out).
Proof.
  intros Hi Hh Hl. cbn. assert (imap pair ms !! i = Some (i, m)) as Hi' by by rewrite list_lookup_imap, Hi.
  apply list_elem_of_split_length in Hi' as (l1 & l2 & -> & _). rewrite foldl_app. cbn [foldl].
  apply grows_foldl; [intros; apply cleanOrphan_grows|].
  assert (r_store (foldl (cleanOrphan lister) r l1) = r_store r) as Hs.
  { clear. revert r. induction l1 as [|[j x] l1 IH]; intros r; cbn [foldl]; [done|]. rewrite IH.
    unfold cleanOrphan, teardown. by repeat case_match. }
  set (r1 := foldl _ r l1) in *. unfold cleanOrphan. rewrite Hs.
  assert (IsInFlight (r_store r) (pm_UID m) = false) as ->.
  { unfold IsInFlight, HasPod in *. by destruct (getPodState _ _). }
  rewrite Hh. assert (match lister with Some l => lists (l i) (pm_UID m) | None => false end = false) as ->.
  { by destruct lister. }
  unfold teardown. destruct (match GetPodCopy _ _ with Some _ => _ | None => _ end) as [ns n].
  cbn. apply elem_of_app. right. by left.
Qed.

(** a pass of the reconciler removes everything that is not wanted, when
    the listing of Kubernetes' pods succeeds: the pods that are left in the
    store are being created or known to Kubernetes, the directories that are
    left belong to pods of the store, and every machine whose pod is neither in
    the store nor listed has been stopped. *)
Theorem reconcile_removes range l machines store d known
    (Hrange : ∀ A (m : gmap string A), range A m ≡ₚ map_to_list m) :
  l (length (default [] machines)) = inr known →
  let r := RunOnce range (Some l) machines store d in
  (∀ u, HasPod r.(r_store) u = true → wanted known r.(r_store) u) ∧
  (∀ name files, entry r.(r_disk) name = Some (EDir files) → HasPod r.(r_store) (ownerUID name) = true) ∧
  ∀ i m, default [] machines !! i = Some m → HasPod store m.(pm_UID) = false → lists (l i) m.(pm_UID) = false →
    RStop m.(pm_UID) m.(pm_ContainerName) ∈ r.(r_out).
Proof.
  intros Hl r. unfold r, RunOnce. set (r0 := {| r_store := store; r_disk := d; r_out := [] |}).
  assert (∀ s u, HasPod s u = true ↔ is_Some (getPodState s u)) as Hhas.
  { intros s u. unfold HasPod. by destruct (getPodState s u); split; [eauto|..|intros []]. }
  split_and!.
  - intros u. rewrite Hhas. set (r1 := cleanGhosts _ _ _ _).
    assert (r_store (cleanStaleDirs r1) = r_store r1) as ->.
    { unfold cleanStaleDirs. destruct (r_disk r1); [apply staleDirs_store|done]. }
    by apply cleanGhosts_removed.
  - intros name files He. apply Hhas. by eapply cleanStaleDirs_removed.
  - intros i m Hi Hh Hli. apply cleanStaleDirs_grows, cleanGhosts_grows. destruct machines as [ms|]; [|done].
    by apply (orphans_stopped (Some l) ms i m r0).
Qed.

(** ** Passes *)

Definition demoDisk : PodsDir := Some {[ demoUID := EDir ∅; demoUID +:+ "-web" := EDir ∅; "left-over" := EDir ∅ ]}.

Definition demoPass (lister : Lister) (machines : list PodMetadata) (store : PodStore) : RState :=
  RunOnce (λ _, map_to_list) lister (Some machines) store demoDisk.

Definition listsPod : Lister := Some (λ _, inr [watchedPod RestartPolicyAlways]).

Lemma listsPod_known l i known : listsPod = Some l → l i = inr known → demoUID ∈ map p_UID known.
Proof. intros [= <-] [= <-]. by left. Qed.

Lemma demoMachines_uid m : m ∈ demoMachines "active" 0 → is_uid m.(pm_UID).
Proof. intros ->%list_elem_of_singleton. reflexivity. Qed.

Lemma demoStore_uid u : HasPod (demoStore RestartPolicyAlways) u = true → is_uid u.
Proof.
  destruct (decide (u = demoUID)) as [->|Hu]; [done|]. unfold HasPod, getPodState, demoStore, InitRestartState.
  destruct (initRestartMaps _ _). rewrite lookup_modify, decide_False by done. unfold PromoteRunning, getPodState. cbn.
  rewrite lookup_insert_eq. cbn. rewrite lookup_modify, decide_False by done. cbn. by rewrite lookup_insert_ne.
Qed.

Lemma reconcile_spares_witness :
  getPodState (demoPass listsPod (demoMachines "active" 0) (demoStore RestartPolicyAlways)).(r_store) demoUID =
    getPodState (demoStore RestartPolicyAlways) demoUID ∧
  (demoPass listsPod (demoMachines "active" 0) (demoStore RestartPolicyAlways)).(r_out) = [RRemoveAll "left-over"].
Proof.
  split; [|vm_compute; reflexivity].
  assert (∃ ps, getPodState (demoStore RestartPolicyAlways) demoUID = Some ps) as [ps Hps].
  { vm_compute. eexists. reflexivity. }
  rewrite Hps. unfold demoPass.
  pose proof (reconcile_spares (λ _, map_to_list) listsPod (Some (demoMachines "active" 0)) (demoStore RestartPolicyAlways)
    demoDisk demoUID ps (λ A m, Permutation_refl _) Hps (or_intror listsPod_known) demoMachines_uid demoStore_uid) as H.
  exact (proj1 H).
Defined.

Lemma reconcile_removes_witness :
  HasPod (demoPass (Some (λ _, inr [])) (demoMachines "active" 0) NewPodStore).(r_store) demoUID = false ∧
  RStop demoUID "web" ∈ (demoPass (Some (λ _, inr [])) (demoMachines "active" 0) NewPodStore).(r_out).
Proof.
  split; [vm_compute; reflexivity|].
  refine (proj2 (proj2 (reconcile_removes (λ _, map_to_list) (λ _, inr []) (Some (demoMachines "active" 0)) NewPodStore demoDisk []
    (λ A m, Permutation_refl _) eq_refl)) 0 (default {| pm_UID := ""; pm_Name := ""; pm_Namespace := ""; pm_NodeName := ""; pm_PodIP := "";
    pm_ContainerName := ""; pm_State := StateUnknown; pm_ExitCode := 0 |} (demoMachines "active" 0 !! 0)) _ _ _); vm_compute; reflexivity.
Defined.

(** A pod that Kubernetes forgot is dropped from the store although its machine
    runs; the machine is left alone, for the pod was still known when machines
    were looked at, but in the same pass its directories are removed under it. *)
Theorem ghost_directory_removed_under_machine :
  let r := demoPass (Some (λ _, inr [])) (demoMachines "active" 0) (demoStore RestartPolicyAlways) in
  HasPod r.(r_store) demoUID = false ∧
  r.(r_out) = [RNetTeardown demoUID "default" "a"; RDeleteState demoUID;
               RRemoveAll demoUID; RRemoveAll (demoUID +:+ "-web"); RRemoveAll "left-over"].
Proof. vm_compute. auto. Qed.

(** When the environment of a unit cannot be read, the uid of its machine is
    taken from the unit's name, with the container's name behind it; no pod has
    that uid, and the directory of that name is the overlay of the container,
    which runs. *)
Theorem unreadable_unit_loses_overlay :
  let unit := {| u_Name := wrapperUnitName "pawn" demoUID "web"; u_ActiveState := "active"; u_ExecMainStatus := 0; u_Env := ∅ |} in
  let r := demoPass listsPod (default [] (ListManagedMachines "pawn" (Some [unit]))) (demoStore RestartPolicyAlways) in
  HasPod r.(r_store) demoUID = true ∧
  r.(r_out) = [RStop (demoUID +:+ "-web") ""; RNetTeardown (demoUID +:+ "-web") "" ""; RUnmount (demoUID +:+ "-web-");
               RVolumeCleanup (demoUID +:+ "-web"); RRemoveAll (demoUID +:+ "-web"); RRemoveAll "left-over"].
Proof. vm_compute. auto. Qed.
