(* ===== verification/Expansion.v ===== *)
(** * Variable expansion

    [internal/expansion/expand.go]: the replacement of [$(NAME)] references.
    The code is a loop over indices; its specification is the grammar of the
    expansion syntax, an inductive relation, and the theorems show that the
    loop always ends, never indexes out of range and computes that relation. *)
From S2P Require Import Prelude.
Import Str.

#[local] Arguments String.append !_ _ : simpl nomatch.

Definition operator : ascii := "$".
Definition referenceOpener : ascii := "(".
Definition referenceCloser : ascii := ")".

Definition str1 (c : ascii) : string := String c "".

(** The Go conversion [string(b)] of a byte: the UTF-8 encoding of the code
    point of that number. *)
Definition string_of_byte (b : ascii) : string :=
  let n := N_of_ascii b in
  if (n <? 128)%N then str1 b
  else String (ascii_of_N (192 + n / 64)) (str1 (ascii_of_N (128 + n `mod` 64))).

Definition syntaxWrap (input : string) : string :=
  str1 operator +:+ str1 referenceOpener +:+ input +:+ str1 referenceCloser.

Fixpoint MappingFuncFor (context : list (gmap string string)) (input : string) : string :=
  match context with
  | [] => syntaxWrap input
  | vars :: context => match vars !! input with Some val => val | None => MappingFuncFor context input end
  end.

(** [None] is the panic of [input[0]] on an empty string. *)
Definition tryReadVariableName (input : string) : option (string * bool * nat) :=
  c ← at_ input 0;
  if decide (c = operator) then Some (stake 1 input, false, 1)
  else if decide (c = referenceOpener) then
    match index_byte (sdrop 1 input) referenceCloser with
    | Some j => Some (stake j (sdrop 1 input), true, j + 2)
    | None => Some (str1 operator +:+ str1 referenceOpener, false, 1)
    end
  else Some (str1 operator +:+ string_of_byte c, false, 1).

Section Expand.
Variables (input : string) (mapping : string → string).

(** The loop; [None] is a panic, or the end of the fuel. *)
Fixpoint Expand_loop (fuel cursor checkpoint : nat) (buf : string) : option string :=
  match fuel with
  | O => None
  | S fuel =>
      if (cursor <? len input)%nat then
        c ← at_ input cursor;
        if bool_decide (c = operator) && (cursor + 1 <? len input)%nat then
          portion ← slice input checkpoint cursor;
          rest ← slice input (cursor + 1) (len input);
          '(read, isVar, advance) ← tryReadVariableName rest;
          let buf := buf +:+ portion +:+ (if isVar : bool then mapping read else read) in
          let cursor := cursor + advance in
          Expand_loop fuel (cursor + 1) (cursor + 1) buf
        else Expand_loop fuel (cursor + 1) checkpoint buf
      else
        tail ← slice input checkpoint (len input);
        Some (buf +:+ tail)
  end.

Definition Expand : option string := Expand_loop (len input + 1) 0 0 "".
End Expand.

(** ** The syntax *)

(** The byte does not occur in the string. *)
Definition free (b : ascii) (s : string) : Prop := index_byte s b = None.

(** The text [s] expands to [t]; [enc] is what becomes of a character after a
    dollar sign that begins no expression. *)
Inductive ExpandsBy (enc : ascii → string) (mapping : string → string) : string → string → Prop :=
  | ex_nil : ExpandsBy enc mapping "" ""
  | ex_lone : ExpandsBy enc mapping "$" "$"
  | ex_char c s t : c ≠ operator → ExpandsBy enc mapping s t → ExpandsBy enc mapping (String c s) (String c t)
  | ex_escape s t : ExpandsBy enc mapping s t → ExpandsBy enc mapping ("$$" +:+ s) ("$" +:+ t)
  | ex_reference name s t : free referenceCloser name → ExpandsBy enc mapping s t →
      ExpandsBy enc mapping ("$(" +:+ name +:+ ")" +:+ s) (mapping name +:+ t)
  | ex_open s t : free referenceCloser s → ExpandsBy enc mapping s t → ExpandsBy enc mapping ("$(" +:+ s) ("$(" +:+ t)
  | ex_other c s t : c ≠ operator → c ≠ referenceOpener → ExpandsBy enc mapping s t →
      ExpandsBy enc mapping ("$" +:+ String c s) ("$" +:+ enc c +:+ t).

(** The expansion syntax: such a character is copied. *)
Abbreviation Expands := (ExpandsBy str1).

(** A dollar sign that is not itself escaped is followed by an ASCII character,
    if by any. *)
Definition isASCII (c : ascii) : bool := (N_of_ascii c <? 128)%N.

Fixpoint asciiAfter (s : string) : bool :=
  match s with
  | EmptyString => true
  | String c s => if decide (c = operator) then match s with
                    | EmptyString => true
                    | String d s => isASCII d && asciiAfter s
                    end
                  else asciiAfter s
  end.

(** ** Lemmas *)

Lemma index_byte_app name s b : free b name → index_byte (name +:+ String b s) b = Some (len name).
Proof.
  unfold free. induction name as [|c name IH]; cbn; intros H; [by rewrite decide_True|].
  destruct (decide (c = b)); [done|]. apply fmap_None in H. by rewrite IH.
Qed.

Lemma index_byte_split s b j : index_byte s b = Some j → ∃ name rest, s = name +:+ String b rest ∧ free b name.
Proof.
  unfold free. revert j. induction s as [|c s IH]; cbn; intros j H; [done|].
  destruct (decide (c = b)) as [->|Hne]; [by exists "", s|].
  apply fmap_Some in H as (i & Hi & _). destruct (IH _ Hi) as (name & rest & -> & Hf).
  exists (String c name), rest. cbn. by rewrite decide_False, Hf.
Qed.

Lemma at_app (a : string) c s : at_ (a +:+ String c s) (len a) = Some c.
Proof. unfold at_. induction a; cbn; done. Qed.

(** Every text expands to something. *)
Lemma Expands_total enc mapping s : ∃ t, ExpandsBy enc mapping s t.
Proof.
  remember (len s) as n eqn:Hn. revert s Hn. induction (lt_wf n) as [n _ IH]. intros s ->.
  destruct s as [|c s]; [exists ""; constructor|].
  destruct (decide (c = operator)) as [->|Hc].
  2: { destruct (IH (len s) ltac:(cbn; lia) s eq_refl) as [t Ht]. exists (String c t). by constructor. }
  destruct s as [|d s]; [exists "$"; constructor|].
  destruct (IH (len s) ltac:(cbn; lia) s eq_refl) as [t Ht].
  destruct (decide (d = operator)) as [->|Hd]; [exists ("$" +:+ t); by apply (ex_escape _ _ s)|].
  destruct (decide (d = referenceOpener)) as [->|Ho]; [|eexists; by apply (ex_other _ _ d s)].
  destruct (index_byte s referenceCloser) as [j|] eqn:Hj; [|eexists; by apply (ex_open _ _ s)].
  destruct (index_byte_split _ _ _ Hj) as (name & rest & -> & Hf).
  destruct (IH (len rest)) with (s := rest) as [t' Ht']; [cbn; rewrite length_app; cbn; lia|done|].
  eexists. by apply (ex_reference _ _ name rest).
Qed.

(** One round of the loop, in the three cases of the condition. *)
Lemma loop_end pre mid mapping fuel buf :
  Expand_loop (pre +:+ mid) mapping (S fuel) (len pre + len mid) (len pre) buf = Some (buf +:+ mid).
Proof.
  cbn [Expand_loop]. rewrite length_app, (proj2 (Nat.ltb_ge _ _)) by lia. by rewrite (slice_tail_at pre mid).
Qed.

Lemma loop_char pre mid c s mapping fuel buf : c ≠ operator ∨ s = "" →
  Expand_loop (pre +:+ mid +:+ String c s) mapping (S fuel) (len pre + len mid) (len pre) buf =
  Expand_loop (pre +:+ mid +:+ String c s) mapping fuel (len pre + len mid + 1) (len pre) buf.
Proof.
  intros H. cbn [Expand_loop]. rewrite !length_app. cbn [String.length]. rewrite (proj2 (Nat.ltb_lt _ (_ + (_ + S _)))) by lia.
  rewrite <- length_app, app_assoc, at_app. cbn [mbind option_bind]. case_bool_decide as Hc; [|done]. destruct H as [H| ->]; [done|].
  rewrite (proj2 (Nat.ltb_ge _ _)); [done|]. rewrite length_app. cbn. lia.
Qed.

Lemma loop_operator pre mid c s mapping fuel buf read isVar advance :
  tryReadVariableName (String c s) = Some (read, isVar, advance) →
  Expand_loop (pre +:+ mid +:+ String operator (String c s)) mapping (S fuel) (len pre + len mid) (len pre) buf =
  Expand_loop (pre +:+ mid +:+ String operator (String c s)) mapping fuel
    (len pre + len mid + advance + 1) (len pre + len mid + advance + 1)
    (buf +:+ mid +:+ (if isVar then mapping read else read)).
Proof.
  intros H. cbn [Expand_loop]. rewrite !length_app. cbn [String.length].
  rewrite (proj2 (Nat.ltb_lt _ (_ + (_ + S _)))) by lia.
  rewrite (slice_mid_at pre mid _ (len pre) (len pre + len mid)) by done. rewrite <- length_app, app_assoc, at_app. cbn [mbind option_bind].
  rewrite bool_decide_true by done. rewrite (proj2 (Nat.ltb_lt _ _)) by (rewrite length_app; lia). cbn [andb].
  change (String operator (String c s)) with ("$" +:+ String c s). rewrite app_assoc.
  rewrite (slice_tail_at ((pre +:+ mid) +:+ "$") (String c s)) by (rewrite !length_app; cbn; lia).
  cbn [mbind option_bind]. by rewrite H.
Qed.

(** After an operator everything read so far has been copied. *)
Lemma shift a s t mapping pre mid buf out n fuel :
  n + 1 = len a →
  (∀ pre mid fuel buf, len s < fuel →
     Expand_loop (pre +:+ mid +:+ s) mapping fuel (len pre + len mid) (len pre) buf = Some (buf +:+ mid +:+ t)) →
  len s < fuel →
  Expand_loop (pre +:+ mid +:+ a +:+ s) mapping fuel (len pre + len mid + n + 1) (len pre + len mid + n + 1)
    (buf +:+ mid +:+ out) = Some (buf +:+ mid +:+ out +:+ t).
Proof.
  intros Hn IH Hlt. specialize (IH (pre +:+ mid +:+ a) "" fuel (buf +:+ mid +:+ out) Hlt).
  rewrite !length_app in IH. cbn in IH.
  replace (len pre + (len mid + len a)) with (len pre + len mid + n + 1) in IH by lia.
  rewrite Nat.add_0_r in IH. rewrite <- !app_assoc in IH. exact IH.
Qed.

(** The loop at the text [s], after [pre] has been copied and [mid] read. *)
Lemma loop_spec mapping s t : ExpandsBy string_of_byte mapping s t → ∀ pre mid fuel buf, len s < fuel →
  Expand_loop (pre +:+ mid +:+ s) mapping fuel (len pre + len mid) (len pre) buf = Some (buf +:+ mid +:+ t).
Proof.
  induction 1 as [| |c s t Hc _ IH|s t _ IH|name s t Hf _ IH|s t Hf _ IH|c s t Hc Ho _ IH];
    intros pre mid [|fuel] buf Hlen; cbn in Hlen; try lia.
  - rewrite !app_nil_r. apply loop_end.
  - rewrite loop_char by auto. destruct fuel as [|fuel]; [lia|].
    replace (len pre + len mid + 1) with (len pre + len (mid +:+ "$")) by (rewrite length_app; cbn; lia).
    apply loop_end.
  - rewrite loop_char by auto. change (String c s) with (str1 c +:+ s). rewrite (app_assoc mid).
    replace (len pre + len mid + 1) with (len pre + len (mid +:+ str1 c)) by (rewrite length_app; cbn; lia).
    rewrite IH by lia. by rewrite <- app_assoc.
  - rewrite (loop_operator _ _ "$" s _ _ _ "$" false 1) by done. apply (shift "$$"); [done|exact IH|lia].
  - rewrite (loop_operator _ _ "(" (name +:+ ")" +:+ s) _ _ _ name true (len name + 2)).
    + rewrite !length_app in Hlen. cbn in Hlen.
      change (String operator _) with ("$(" +:+ name +:+ ")" +:+ s).
      rewrite (app_assoc name), (app_assoc "$("). apply shift; [rewrite !length_app; cbn; lia|exact IH|lia].
    + cbn. by rewrite index_byte_app, stake_app.
  - rewrite (loop_operator _ _ "(" s _ _ _ "$(" false 1) by (cbn; by rewrite Hf). apply (shift "$("); [done|exact IH|lia].
  - rewrite (loop_operator _ _ c s _ _ _ ("$" +:+ string_of_byte c) false 1)
      by (cbn; by rewrite !decide_False by done).
    rewrite (app_assoc "$" (string_of_byte c)).
    apply (shift ("$" +:+ str1 c) s t mapping pre mid buf ("$" +:+ string_of_byte c) 1 fuel); [done|exact IH|lia].
Qed.

Lemma Expand_computes mapping s t : ExpandsBy string_of_byte mapping s t → Expand s mapping = Some t.
Proof. intros H. unfold Expand. apply (loop_spec mapping s t H "" "" (len s + 1) ""). lia. Qed.

(** The rest after a reference. *)
Lemma asciiAfter_reference name s : free referenceCloser name → asciiAfter (name +:+ ")" +:+ s) = true → asciiAfter s = true.
Proof.
  remember (len name) as n eqn:Hn. revert name Hn. induction (lt_wf n) as [n _ IH]. intros [|c name] -> Hf; [done|].
  unfold free in *. cbn in Hf. destruct (decide (c = referenceCloser)); [done|]. apply fmap_None in Hf. cbn [asciiAfter String.append].
  destruct (decide (c = operator)).
  - destruct name as [|d name]; cbn in *; [by intros [_ H]%andb_prop|]. intros [_ H]%andb_prop.
    destruct (decide (d = referenceCloser)); [done|]. apply fmap_None in Hf.
    apply (IH (len name)) with (name := name); [lia|done|exact Hf|exact H].
  - intros H. apply (IH (len name)) with (name := name); [cbn; lia|done|exact Hf|exact H].
Qed.

(** Only what follows a dollar sign depends on [enc]. *)
Lemma ExpandsBy_agree enc enc' mapping s t : (∀ c, isASCII c = true → enc c = enc' c) →
  asciiAfter s = true → ExpandsBy enc mapping s t → ExpandsBy enc' mapping s t.
Proof.
  intros Hagree Ha He. induction He as [| |c s t Hc _ IH|s t _ IH|name s t Hf _ IH|s t Hf _ IH|c s t Hc Ho _ IH].
  - constructor.
  - constructor.
  - cbn in Ha. rewrite decide_False in Ha by done. constructor; auto.
  - apply ex_escape, IH. by apply andb_prop in Ha as [_ Ha].
  - apply ex_reference; [done|]. apply IH. apply andb_prop in Ha as [_ Ha]. by eapply asciiAfter_reference.
  - apply ex_open; [done|]. apply IH. by apply andb_prop in Ha as [_ Ha].
  - apply andb_prop in Ha as [Hasc Ha]. rewrite (Hagree c Hasc). apply ex_other; auto.
Qed.

Lemma string_of_ascii c : isASCII c = true → string_of_byte c = str1 c.
Proof. unfold isASCII, string_of_byte. by intros ->. Qed.

Lemma Expand_Expands mapping s t : asciiAfter s = true → Expands mapping s t → Expand s mapping = Some t.
Proof.
  intros Ha He. apply Expand_computes. eapply ExpandsBy_agree; [|done|exact He]. intros c Hc. by rewrite string_of_ascii.
Qed.

(** ** Properties *)

(** C39: [Expand] always returns, without indexing out of range. Its result is
    the expansion of the text by the syntax: [$$] is a dollar sign, [$(X)] the
    value of [X], an unclosed reference and any other dollar sign stay, and all
    other text is copied, provided that no dollar sign of the text is followed
    by a character outside ASCII. (Such a character is corrupted, against the
    comment in the code: [Expand_corrupts_utf8].) *)
Theorem Expand_correct mapping s :
  is_Some (Expand s mapping) ∧ (asciiAfter s = true → ∀ t, Expand s mapping = Some t ↔ Expands mapping s t).
Proof.
  destruct (Expands_total string_of_byte mapping s) as [t' Ht']. pose proof (Expand_computes _ _ _ Ht') as Hr.
  split; [by exists t'|]. intros Ha t. split; [|by apply Expand_Expands]. rewrite Hr. intros [= <-].
  eapply ExpandsBy_agree; [exact string_of_ascii|done|exact Ht'].
Qed.

(** Doubling the dollar signs. *)
Fixpoint escape (s : string) : string :=
  match s with
  | EmptyString => EmptyString
  | String c s => if decide (c = operator) then "$$" +:+ escape s else String c (escape s)
  end.

(** Escaping: a text in which every dollar sign is doubled expands to the
    original text, whatever the variables; and a reference to a variable that no
    map defines expands to itself. *)
Theorem Expand_escape mapping s name context :
  Expand (escape s) mapping = Some s ∧
  (free referenceCloser name → Forall (λ vars, vars !! name = None) context →
     Expand (syntaxWrap name) (MappingFuncFor context) = Some (syntaxWrap name)).
Proof.
  split.
  - apply Expand_computes. induction s as [|c s IH]; cbn; [constructor|].
    destruct (decide (c = operator)) as [->|Hc]; [by apply (ex_escape _ _ _ s)|by constructor].
  - intros Hf Hctx. apply Expand_computes. rewrite <- (app_nil_r (syntaxWrap name)) at 2.
    replace (syntaxWrap name +:+ "") with (MappingFuncFor context name +:+ "");
      [apply (ex_reference _ _ name ""); [done|constructor]|].
    f_equal. induction Hctx as [|vars context Hv _ IH]; [done|]. cbn. by rewrite Hv.
Qed.

(** Defect: the byte after a dollar sign is converted as if it were a code
    point, so that a character outside ASCII after a dollar sign is corrupted. *)
Theorem Expand_corrupts_utf8 mapping :
  let dollar_e_acute := String "$" (String "195" (String "169" "")) in
  Expand dollar_e_acute mapping = Some (String "$" (String "195" (String "131" (String "169" "")))).
Proof. vm_compute. reflexivity. Qed.
