(* ===== verification/Env.v ===== *)
(** * Container environments (internal/podutils, internal/downward)

    What a container sees in its environment: [PopulateEnvironmentVariables]
    (env.go, envvars.go, helper.go) resolves the [env] and [envFrom] fields of
    every container in place, and [Tidal.ResolveEnv] (tidal.go) turns the
    result into the [KEY=VALUE] strings of the machine.  The listers behind
    the resource manager are arguments, and so are the two validation
    functions of apimachinery.  A recorded event is given by its reason and
    the arguments of its message.  [range] is the order in which Go iterates
    over a map. *)
From stdpp Require Import pretty.
From S2P Require Import Prelude Corev1 Monad Expansion.
Import Str.

#[local] Arguments String.append !_ _ : simpl nomatch.

(** ** Resources *)

(** The answer of a lister. *)
Inductive Lookup (A : Type) :=
  | Got (a : A)
  | IsNotFound
  | OtherErr (err : string).
Arguments Got {A} a.
Arguments IsNotFound {A}.
Arguments OtherErr {A} err.

(** A config map or a secret, whose bytes are read as strings. *)
Record Source := { src_Name : string; src_Namespace : string; src_Data : gmap string string }.

Record ServicePort := { sp_Name : string; sp_Protocol : string; sp_Port : Z }.

Record Service := {
  svc_Name : string;
  svc_Namespace : string;
  svc_ClusterIP : string;
  svc_Ports : list ServicePort;
}.

Record ResourceManager := {
  GetConfigMap : string → string → Lookup Source;
  GetSecret : string → string → Lookup Source;
  ListServices : string + list Service;
}.

Inductive Kind := KConfigMap | KSecret.

Definition GetSource (rm : ResourceManager) (k : Kind) : string → string → Lookup Source :=
  match k with KConfigMap => rm.(GetConfigMap) | KSecret => rm.(GetSecret) end.

(** ** Service variables (envvars.go) *)

Definition IsServiceIPSet (service : Service) : bool :=
  bool_decide (service.(svc_ClusterIP) ≠ "None") && bool_decide (service.(svc_ClusterIP) ≠ "").

Definition makeEnvVariableName (str : string) : string :=
  ToUpper (smap (λ c, if decide (c = "-"%char) then "_"%char else c) str).

(** [net.JoinHostPort] *)
Definition JoinHostPort (host port : string) : string :=
  match index_byte host ":", index_byte host "%" with
  | None, None => host +:+ ":" +:+ port
  | _, _ => "[" +:+ host +:+ "]:" +:+ port
  end.

Definition makeLinkVariables (service : Service) : list (string * string) :=
  let prefix := makeEnvVariableName service.(svc_Name) in
  concat (imap (λ i sp,
    let protocol := if decide (sp.(sp_Protocol) = "") then "TCP" else sp.(sp_Protocol) in
    let hostPort := JoinHostPort service.(svc_ClusterIP) (pretty sp.(sp_Port)) in
    let url := ToLower protocol +:+ "://" +:+ hostPort in
    let portPrefix := prefix +:+ "_PORT_" +:+ pretty sp.(sp_Port) +:+ "_" +:+ ToUpper protocol in
    (if decide (i = 0) then [(prefix +:+ "_PORT", url)] else []) ++
    [(portPrefix, url); (portPrefix +:+ "_PROTO", ToLower protocol);
     (portPrefix +:+ "_PORT", pretty sp.(sp_Port)); (portPrefix +:+ "_ADDR", service.(svc_ClusterIP))])
    service.(svc_Ports)).

(** The variables of one service. *)
Definition fromService (service : Service) : list (string * string) :=
  if negb (IsServiceIPSet service) then [] else
  let prefix := makeEnvVariableName service.(svc_Name) in
  (prefix +:+ "_SERVICE_HOST", service.(svc_ClusterIP)) ::
  match service.(svc_Ports) with
  | [] => []
  | first :: _ =>
      let name := prefix +:+ "_SERVICE_PORT" in
      (name, pretty first.(sp_Port)) ::
      omap (λ sp, if decide (sp.(sp_Name) ≠ "")
                  then Some (name +:+ "_" +:+ makeEnvVariableName sp.(sp_Name), pretty sp.(sp_Port)) else None)
        service.(svc_Ports) ++
      makeLinkVariables service
  end.

Definition FromServices (services : list Service) : list (string * string) :=
  concat (map fromService services).

(** [m[k] = v] for each pair, in order. *)
Definition setAll (m : gmap string string) (kvs : list (string * string)) : gmap string string :=
  foldl (λ m '(k, v), <[k := v]> m) m kvs.

(** ** Field paths (helper.go) *)

(** [strings.SplitN(s, "['", 2)] has two parts when the separator occurs. *)
Definition SplitMaybeSubscriptedPath (fieldPath : string) : string * string * bool :=
  if negb (has_suffix fieldPath "']") then (fieldPath, "", false) else
  let s := trim_suffix fieldPath "']" in
  match index s "['" with
  | None => (fieldPath, "", false)
  | Some i =>
      if decide (i = 0) then (fieldPath, "", false)
      else (stake i s, sdrop (i + 2) s, true)
  end.

(** The errors of environment resolution, by their format. *)
Inductive EnvErr :=
  | ErrNotFound (k : Kind) (name : string)
  | ErrFetch (k : Kind) (name err : string)
  | ErrRead (k : Kind) (name err : string)
  | ErrKeyMissing (k : Kind) (name key pod : string)
  | ErrListServices (err : string)
  | ErrPodVersion (version : string)
  | ErrSubscript (label : string)
  | ErrFieldLabel (label : string).

Definition supportedLabels : list string :=
  ["metadata.annotations"; "metadata.labels"; "metadata.name"; "metadata.namespace"; "metadata.uid";
   "spec.nodeName"; "spec.restartPolicy"; "spec.serviceAccountName"; "spec.schedulerName";
   "status.phase"; "status.hostIP"; "status.podIP"; "status.podIPs"].

Definition ConvertDownwardAPIFieldLabel (version label value : string) : EnvErr + (string * string) :=
  if decide (version ≠ "v1") then inl (ErrPodVersion version) else
  match SplitMaybeSubscriptedPath label with
  | (path, _, true) =>
      if decide (path = "metadata.annotations" ∨ path = "metadata.labels") then inr (label, value)
      else inl (ErrSubscript label)
  | (_, _, false) =>
      if decide (label ∈ supportedLabels) then inr (label, value)
      else if decide (label = "spec.host") then inr ("spec.nodeName", value)
      else inl (ErrFieldLabel label)
  end.

(** [string(phase)] *)
Definition phaseString (p : PodPhase) : string :=
  match p with
  | PhaseZero => ""
  | PodPending => "Pending"
  | PodRunning => "Running"
  | PodSucceeded => "Succeeded"
  | PodFailed => "Failed"
  | PodUnknown => "Unknown"
  end.

(** The verb [%q] on ASCII text; the bytes of other characters are copied. *)
Definition hexDigit (n : N) : ascii := if (n <? 10)%N then ascii_of_N (48 + n) else ascii_of_N (87 + n).

Definition quoteByte (c : ascii) : string :=
  let n := N_of_ascii c in
  let esc d := String "\" (String d "") in
  if decide (c = "034"%char) then esc "034"%char
  else if decide (c = "\"%char) then esc "\"%char
  else if (n =? 7)%N then esc "a"%char else if (n =? 8)%N then esc "b"%char
  else if (n =? 12)%N then esc "f"%char else if (n =? 10)%N then esc "n"%char
  else if (n =? 13)%N then esc "r"%char else if (n =? 9)%N then esc "t"%char
  else if (n =? 11)%N then esc "v"%char
  else if (n <? 32)%N || (n =? 127)%N
  then String "\" (String "x" (String (hexDigit (n / 16)) (String (hexDigit (n `mod` 16)) "")))
  else String c "".

Fixpoint quoteBody (s : string) : string :=
  match s with EmptyString => "" | String c s => quoteByte c +:+ quoteBody s end.

Definition Quote (s : string) : string := String "034" (quoteBody s +:+ String "034" "").

(** [sets.String.List]: the keys in increasing order. *)
Definition FormatMap (m : gmap string string) : string :=
  let keys := sortStrings (map fst (map_to_list m)) in
  trim_suffix (foldl (λ acc key, acc +:+ key +:+ "=" +:+ Quote (default "" (m !! key)) +:+ String "010" "") "" keys)
    (String "010" "").

Record Recorded := { rec_Reason : string; rec_Args : list string }.

(** The pod whose containers are populated in place, and the recorder. *)
Record EnvState := { env_pod : Pod; env_events : list Recorded }.

Abbreviation EnvM := (SE EnvState EnvErr).

Definition Eventf (reason : string) (args : list string) : EnvM () :=
  modifyS (λ s, {| s with env_events := s.(env_events) ++ [{| rec_Reason := reason; rec_Args := args |}] |}).

(** The reasons, which differ in the kind of the source only. *)
Definition kindName (k : Kind) : string := match k with KConfigMap => "ConfigMap" | KSecret => "Secret" end.
Definition reasonNotFound (optional : bool) (k : Kind) : string :=
  (if optional then "Optional" else "Mandatory") +:+ kindName k +:+ "NotFound".
Definition reasonKeyNotFound (optional : bool) (k : Kind) : string :=
  (if optional then "Optional" else "Mandatory") +:+ kindName k +:+ "KeyNotFound".
Definition reasonFailedToRead (optional : bool) (k : Kind) : string :=
  "FailedToRead" +:+ (if optional then "Optional" else "Mandatory") +:+ kindName k.

Definition isTrue (b : option bool) : bool := match b with Some b => b | None => false end.

Section Environment.
Context (IsEnvVarName IsQualifiedName : string → bool).
Context (range : ∀ A, gmap string A → list (string * A)).

(** [None] is an error; its text is dropped by the only caller. *)
Definition ExtractFieldPathAsString (pod : Pod) (fieldPath : string) : option string :=
  match SplitMaybeSubscriptedPath fieldPath with
  | (path, subscript, true) =>
      if decide (path = "metadata.annotations") then
        if negb (IsQualifiedName (ToLower subscript)) then None else
        match pod.(p_Annotations) with
        | None => Some ""
        | Some annotations =>
            match find (λ '(k, v), bool_decide (ToLower k = ToLower subscript)) (range _ annotations) with
            | Some (_, v) => Some v
            | None => Some ""
            end
        end
      else if decide (path = "metadata.labels") then
        if negb (IsQualifiedName subscript) then None else
        match pod.(p_Labels) with
        | None => Some ""
        | Some labels => Some (default "" (labels !! subscript))
        end
      else None
  | (_, _, false) =>
      if decide (fieldPath = "metadata.annotations") then Some (FormatMap (default ∅ pod.(p_Annotations)))
      else if decide (fieldPath = "metadata.labels") then Some (FormatMap (default ∅ pod.(p_Labels)))
      else if decide (fieldPath = "metadata.name") then Some pod.(p_Name)
      else if decide (fieldPath = "metadata.namespace") then Some pod.(p_Namespace)
      else if decide (fieldPath = "metadata.uid") then Some pod.(p_UID)
      else None
  end.

Definition podFieldSelectorRuntimeValue (fs : ObjectFieldSelector) (pod : Pod) : EnvErr + string :=
  match ConvertDownwardAPIFieldLabel fs.(ofs_APIVersion) fs.(ofs_FieldPath) "" with
  | inl e => inl e
  | inr (internalFieldPath, _) =>
      if decide (internalFieldPath = "spec.nodeName") then inr pod.(p_NodeName)
      else if decide (internalFieldPath = "spec.serviceAccountName") then inr pod.(p_ServiceAccountName)
      else if decide (internalFieldPath = "status.podIP") then inr pod.(p_Status).(ps_PodIP)
      else if decide (internalFieldPath = "status.podIPs") then inr (Join pod.(p_Status).(ps_PodIPs) ",")
      else if decide (internalFieldPath = "status.hostIP") then inr pod.(p_Status).(ps_HostIP)
      else if decide (internalFieldPath = "status.phase") then inr (phaseString pod.(p_Status).(ps_Phase))
      else inr (default "" (ExtractFieldPathAsString pod internalFieldPath))
  end.

(** ** The services a pod sees *)

Definition getServiceEnvVarMap (rm : ResourceManager) (ns : string) (enableServiceLinks : bool)
    : EnvErr + gmap string string :=
  match rm.(ListServices) with
  | inl err => inl (ErrListServices err)
  | inr services =>
      let serviceMap := foldl (λ (m : gmap string Service) service,
        if negb (IsServiceIPSet service) then m else
        let serviceName := service.(svc_Name) in
        if bool_decide (service.(svc_Namespace) = "default") && bool_decide (serviceName = "kubernetes") then
          match m !! serviceName with None => <[serviceName := service]> m | Some _ => m end
        else if bool_decide (service.(svc_Namespace) = ns) && enableServiceLinks then
          <[serviceName := service]> m
        else m) ∅ services in
      let mappedServices := map snd (range _ serviceMap) in
      inr (setAll ∅ (FromServices mappedServices))
  end.

(** ** The variables of a container (env.go) *)

(** The keys of one [envFrom] source, with the prefix: the valid ones set in
    the environment, and the invalid ones. *)
Definition addKey (prefix : string) (acc : gmap string string * list string) (kv : string * string)
    : gmap string string * list string :=
  let key := prefix +:+ kv.1 in
  if IsEnvVarName key then (<[key := kv.2]> acc.1, acc.2) else (acc.1, acc.2 ++ [key]).

Definition addSource (prefix : string) (data : list (string * string)) (res : gmap string string)
    : gmap string string * list string :=
  foldl (addKey prefix) (res, []) data.

(** A case of the switch in [makeEnvironmentMapBasedOnEnvFrom]. *)
Definition fromSource (rm : ResourceManager) (k : Kind) (prefix : string) (ef : EnvSource)
    (res : gmap string string) : EnvM (gmap string string) :=
  pod ← gets env_pod;
  let optional := isTrue ef.(es_Optional) in
  match GetSource rm k ef.(es_Name) pod.(p_Namespace) with
  | IsNotFound =>
      _ ← Eventf (reasonNotFound optional k) [ef.(es_Name)];
      if optional then mret res else throw (ErrNotFound k ef.(es_Name))
  | OtherErr err =>
      _ ← Eventf (reasonFailedToRead optional k) [ef.(es_Name)];
      if optional then mret res else throw (ErrFetch k ef.(es_Name) err)
  | Got m =>
      let '(res, invalidKeys) := addSource prefix (range _ m.(src_Data)) res in
      _ ← whenM (bool_decide (0 < length invalidKeys))
            (Eventf "InvalidEnvironmentVariableNames"
               [Join (sortStrings invalidKeys) ", "; m.(src_Namespace); m.(src_Name)]);
      mret res
  end.

Fixpoint envFrom_loop (rm : ResourceManager) (envFrom : list EnvFromSource) (res : gmap string string)
    : EnvM (gmap string string) :=
  match envFrom with
  | [] => mret res
  | ef :: envFrom =>
      res ← match ef.(efs_ConfigMapRef), ef.(efs_SecretRef) with
            | Some r, _ => fromSource rm KConfigMap ef.(efs_Prefix) r res
            | None, Some r => fromSource rm KSecret ef.(efs_Prefix) r res
            | None, None => mret res
            end;
      envFrom_loop rm envFrom res
  end.

Definition makeEnvironmentMapBasedOnEnvFrom (rm : ResourceManager) (container : Container)
    : EnvM (gmap string string) :=
  envFrom_loop rm container.(c_EnvFrom) ∅.

(** [getEnvironmentVariableValueWithValueFromConfigMapKeyRef] and [...SecretKeyRef] *)
Definition getValueFromKeyRef (rm : ResourceManager) (k : Kind) (env : EnvVar) (vf : KeySelector)
    : EnvM (option string) :=
  pod ← gets env_pod;
  let optional := isTrue vf.(ksel_Optional) in
  let args := if optional then [env.(ev_Name); vf.(ksel_Name)] else [vf.(ksel_Name)] in
  match GetSource rm k vf.(ksel_Name) pod.(p_Namespace) with
  | IsNotFound =>
      _ ← Eventf (reasonNotFound optional k) args;
      if optional then mret None else throw (ErrNotFound k vf.(ksel_Name))
  | OtherErr err =>
      _ ← Eventf (reasonFailedToRead optional k) args;
      if optional then mret None else throw (ErrRead k vf.(ksel_Name) err)
  | Got m =>
      match m.(src_Data) !! vf.(ksel_Key) with
      | Some keyValue => mret (Some keyValue)
      | None =>
          if optional then
            _ ← Eventf (reasonKeyNotFound true k) [env.(ev_Name); vf.(ksel_Key); vf.(ksel_Name)];
            mret None
          else
            _ ← Eventf (reasonKeyNotFound false k) [vf.(ksel_Key); vf.(ksel_Name)];
            throw (ErrKeyMissing k vf.(ksel_Name) vf.(ksel_Key) pod.(p_Name))
      end
  end.

Definition getValueFromFieldRef (vf : ObjectFieldSelector) : EnvM (option string) :=
  pod ← gets env_pod;
  match podFieldSelectorRuntimeValue vf pod with
  | inl e => throw e
  | inr v => mret (Some v)
  end.

Definition getEnvironmentVariableValueWithValueFrom (rm : ResourceManager) (env : EnvVar) (vf : EnvVarSource)
    : EnvM (option string) :=
  match vf.(evs_ConfigMapKeyRef) with
  | Some r => getValueFromKeyRef rm KConfigMap env r
  | None =>
  match vf.(evs_SecretKeyRef) with
  | Some r => getValueFromKeyRef rm KSecret env r
  | None =>
  match vf.(evs_FieldRef) with
  | Some r => getValueFromFieldRef r
  | None => mret None
  end end end.

(** [Expand] never panics. *)
Definition getEnvironmentVariableValue (rm : ResourceManager) (env : EnvVar) (mappingFunc : string → string)
    : EnvM (option string) :=
  match env.(ev_ValueFrom) with
  | Some vf => getEnvironmentVariableValueWithValueFrom rm env vf
  | None => mret (Expand env.(ev_Value) mappingFunc)
  end.

(** The mapping function reads the map that the loop writes. *)
Fixpoint env_loop (rm : ResourceManager) (svcEnv : gmap string string) (envs : list EnvVar)
    (res : gmap string string) : EnvM (gmap string string) :=
  match envs with
  | [] => mret res
  | env :: envs =>
      val ← getEnvironmentVariableValue rm env (MappingFuncFor [res; svcEnv]);
      env_loop rm svcEnv envs (match val with Some v => <[env.(ev_Name) := v]> res | None => res end)
  end.

Definition makeEnvironmentMap (rm : ResourceManager) (container : Container) (res : gmap string string)
    : EnvM (gmap string string) :=
  pod ← gets env_pod;
  let enableServiceLinks := default true pod.(p_EnableServiceLinks) in
  match getServiceEnvVarMap rm pod.(p_Namespace) enableServiceLinks with
  | inl e => throw e
  | inr svcEnv =>
      res ← env_loop rm svcEnv container.(c_Env) res;
      mret (foldl (λ res '(k, v), match res !! k with Some _ => res | None => <[k := v]> res end)
              res (range _ svcEnv))
  end.

Definition populateContainerEnvironment (rm : ResourceManager) (container : Container) : EnvM Container :=
  tmpEnv ← makeEnvironmentMapBasedOnEnvFrom rm container;
  tmpEnv ← makeEnvironmentMap rm container tmpEnv;
  mret {| container with c_EnvFrom := [];
          c_Env := map (λ '(key, val), {| ev_Name := key; ev_Value := val; ev_ValueFrom := None |}) (range _ tmpEnv) |}.

(** [populateContainerEnvironment(ctx, pod, &containers[idx], ...)], for one of
    the two container lists of the pod. *)
Definition populateAt (rm : ResourceManager) (get : Pod → list Container) (set : list Container → Pod → Pod)
    (idx : nat) : EnvM () :=
  pod ← gets env_pod;
  match get pod !! idx with
  | None => mret tt
  | Some c =>
      c ← populateContainerEnvironment rm c;
      modifyS (λ s, {| s with env_pod := set (<[idx := c]> (get s.(env_pod))) s.(env_pod) |})
  end.

Definition PopulateEnvironmentVariables (rm : ResourceManager) : EnvM () :=
  pod ← gets env_pod;
  _ ← forM (seq 0 (length pod.(p_InitContainers)))
        (populateAt rm p_InitContainers (λ l pod, {| pod with p_InitContainers := l |}));
  forM (seq 0 (length pod.(p_Containers)))
    (populateAt rm p_Containers (λ l pod, {| pod with p_Containers := l |})).
End Environment.

(** ** The strings of the machine (tidal.go) *)

Record Tidal := { NodeName : string; NodeIP : string; APIServerHost : string; APIServerPort : string }.

Definition NewTidal (nodeName nodeIP : string) : Tidal :=
  {| NodeName := nodeName; NodeIP := nodeIP; APIServerHost := ""; APIServerPort := "" |}.

Definition SetAPIServer (t : Tidal) (host port : string) : Tidal :=
  {| t with APIServerHost := host; APIServerPort := if decide (port = "") then "443" else port |}.

Definition containerHasEnv (c : Container) (name : string) : bool :=
  existsb (λ e, bool_decide (e.(ev_Name) = name)) c.(c_Env).

Definition entry (kv : string * string) : string := kv.1 +:+ "=" +:+ kv.2.

(** The closure [set], over [seen] and [resolved]. *)
Definition setVar (st : gmap string nat * list string) (kv : string * string) : gmap string nat * list string :=
  let '(seen, resolved) := st in
  match seen !! kv.1 with
  | Some idx => (seen, <[idx := entry kv]> resolved)
  | None => (<[kv.1 := length resolved]> seen, resolved ++ [entry kv])
  end.

Definition podMetadata (t : Tidal) (pod : Pod) (podIP : string) : list (string * string) :=
  [("MY_POD_IP", podIP); ("MY_HOST_IP", t.(NodeIP)); ("MY_NODE_NAME", t.(NodeName));
   ("MY_POD_UID", pod.(p_UID)); ("MY_POD_NAME", pod.(p_Name)); ("MY_POD_NS", pod.(p_Namespace))].

Definition apiServerVars (t : Tidal) : list (string * string) :=
  [("KUBERNETES_SERVICE_HOST", t.(APIServerHost)); ("KUBERNETES_SERVICE_PORT", t.(APIServerPort));
   ("KUBERNETES_SERVICE_PORT_HTTPS", t.(APIServerPort))].

(** [idx := strings.IndexByte(entry, '='); idx > 0] *)
Definition hasKey (e : string) : bool := match index_byte e "=" with Some idx => (0 <? idx)%nat | None => false end.

Definition ResolveEnv (t : Tidal) (pod : Pod) (container : Container) (podIP : string) : list string :=
  let st := (∅, []) in
  let st := foldl (λ st env,
    if decide (env.(ev_Value) ≠ "") then setVar st (env.(ev_Name), env.(ev_Value)) else st) st container.(c_Env) in
  let st := foldl setVar st (podMetadata t pod podIP) in
  let st :=
    if bool_decide (t.(APIServerHost) ≠ "") && negb (containerHasEnv container "KUBERNETES_SERVICE_HOST")
    then foldl setVar st (apiServerVars t) else st in
  filter (λ e, hasKey e = true) st.2.

(** ** Reference semantics *)

Section Spec.
Context (IsEnvVarName IsQualifiedName : string → bool).
Context (range : ∀ A, gmap string A → list (string * A)).
Context (rm : ResourceManager) (pod : Pod).

(** The contribution of one [envFrom] entry to the variable [k]. *)
Definition sourceRef (ef : EnvFromSource) : option (Kind * EnvSource) :=
  match ef.(efs_ConfigMapRef), ef.(efs_SecretRef) with
  | Some r, _ => Some (KConfigMap, r)
  | None, Some r => Some (KSecret, r)
  | None, None => None
  end.

Definition fromVar (ef : EnvFromSource) (k : string) : option string :=
  match sourceRef ef with
  | Some (kd, r) =>
      match GetSource rm kd r.(es_Name) pod.(p_Namespace) with
      | Got m => if IsEnvVarName k && has_prefix k ef.(efs_Prefix)
                 then m.(src_Data) !! sdrop (len ef.(efs_Prefix)) k else None
      | _ => None
      end
  | None => None
  end.

(** The last entry that defines the variable wins; the list is given with
    the last entry first. *)
Fixpoint fromSpec (lastFirst : list EnvFromSource) (k : string) : option string :=
  match lastFirst with
  | [] => None
  | ef :: earlier => match fromVar ef k with Some v => Some v | None => fromSpec earlier k end
  end.

(** The value an [env] entry declares, when what it refers to exists. *)
Definition keyRefValue (kd : Kind) (r : KeySelector) : option string :=
  match GetSource rm kd r.(ksel_Name) pod.(p_Namespace) with
  | Got m => m.(src_Data) !! r.(ksel_Key)
  | _ => None
  end.

Definition declared (e : EnvVar) (see : string → string) : option string :=
  match e.(ev_ValueFrom) with
  | None => Expand e.(ev_Value) see
  | Some vf =>
      match vf.(evs_ConfigMapKeyRef), vf.(evs_SecretKeyRef), vf.(evs_FieldRef) with
      | Some r, _, _ => keyRefValue KConfigMap r
      | None, Some r, _ => keyRefValue KSecret r
      | None, None, Some r =>
          match podFieldSelectorRuntimeValue IsQualifiedName range r pod with inr v => Some v | inl _ => None end
      | None, None, None => None
      end
  end.

(** The last declaration of a variable wins, and a reference in it sees the
    declarations before it, then [envFrom], then the services. *)
Fixpoint envSpec (svc : gmap string string) (from : string → option string) (lastFirst : list EnvVar)
    (k : string) : option string :=
  match lastFirst with
  | [] => from k
  | e :: earlier =>
      let see x := match envSpec svc from earlier x with
                   | Some v => v
                   | None => default (syntaxWrap x) (svc !! x)
                   end in
      if decide (e.(ev_Name) = k)
      then match declared e see with Some v => Some v | None => envSpec svc from earlier k end
      else envSpec svc from earlier k
  end.

Definition services : EnvErr + gmap string string :=
  getServiceEnvVarMap range rm pod.(p_Namespace) (default true pod.(p_EnableServiceLinks)).

(** The environment of a container of the pod. *)
Definition environment (c : Container) (k : string) : option string :=
  let svc := match services with inr svc => svc | inl _ => ∅ end in
  match envSpec svc (fromSpec (reverse c.(c_EnvFrom))) (reverse c.(c_Env)) k with
  | Some v => Some v
  | None => svc !! k
  end.

(** The references that make the resolution fail. *)
Definition badFrom (ef : EnvFromSource) : bool :=
  match sourceRef ef with
  | Some (kd, r) =>
      negb (isTrue r.(es_Optional)) &&
      match GetSource rm kd r.(es_Name) pod.(p_Namespace) with Got _ => false | _ => true end
  | None => false
  end.

Definition badKey (kd : Kind) (r : KeySelector) : bool :=
  negb (isTrue r.(ksel_Optional)) && match keyRefValue kd r with Some _ => false | None => true end.

Definition badVar (e : EnvVar) : bool :=
  match e.(ev_ValueFrom) with
  | None => false
  | Some vf =>
      match vf.(evs_ConfigMapKeyRef), vf.(evs_SecretKeyRef), vf.(evs_FieldRef) with
      | Some r, _, _ => badKey KConfigMap r
      | None, Some r, _ => badKey KSecret r
      | None, None, Some r =>
          match ConvertDownwardAPIFieldLabel r.(ofs_APIVersion) r.(ofs_FieldPath) "" with
          | inl _ => true | inr _ => false
          end
      | None, None, None => false
      end
  end.

Definition unresolvable (c : Container) : bool :=
  existsb badFrom c.(c_EnvFrom) ||
  match rm.(ListServices) with inl _ => true | inr _ => false end ||
  existsb badVar c.(c_Env).

(** What population does to a container. *)
Definition populated (c c' : Container) : Prop :=
  c' = {| c with c_EnvFrom := []; c_Env := c'.(c_Env) |} ∧
  NoDup (ev_Name <$> c'.(c_Env)) ∧
  ∀ e, e ∈ c'.(c_Env) ↔ e.(ev_ValueFrom) = None ∧ environment c e.(ev_Name) = Some e.(ev_Value).
End Spec.

(** ** Lemmas *)

Lemma triple_Eventf pod reason args :
  triple (λ s, s.(env_pod) = pod) (Eventf reason args) (λ _ s, s.(env_pod) = pod) (λ _ _, False).
Proof. apply triple_modify. by intros s <-. Qed.

Lemma triple_env_pod {A} pod (f : Pod → EnvM A) Q R :
  triple (λ s, s.(env_pod) = pod) (f pod) Q R →
  triple (λ s, s.(env_pod) = pod) (pod ← gets env_pod; f pod) Q R.
Proof. intros H s <-. by apply H. Qed.

Lemma Expands_ext f g s t : (∀ x, f x = g x) → ExpandsBy string_of_byte f s t → ExpandsBy string_of_byte g s t.
Proof. intros Hfg. induction 1; [| | | | rewrite Hfg | |]; by constructor. Qed.

Lemma Expand_ext f g s : (∀ x, f x = g x) → Expand s f = Expand s g.
Proof.
  intros Hfg. destruct (Expands_total string_of_byte f s) as [t Ht].
  rewrite (Expand_computes f s t Ht). symmetry. by apply Expand_computes, (Expands_ext f).
Qed.

Lemma has_prefix_app_iff k p : has_prefix k p = true ↔ k = p +:+ sdrop (len p) k.
Proof.
  unfold has_prefix. split.
  - intros H. destruct (prefix_spec _ _ H) as [b ->]. by rewrite sdrop_app.
  - intros ->. apply prefix_app.
Qed.

Section Lemmas.
Context (IsEnvVarName IsQualifiedName : string → bool).
Context (range : ∀ A, gmap string A → list (string * A)).
Context (range_perm : ∀ A (m : gmap string A), range A m ≡ₚ map_to_list m).
Context (rm : ResourceManager) (pod : Pod).

Local Abbreviation same := (λ s : EnvState, s.(env_pod) = pod).

Lemma elem_of_range A (m : gmap string A) k x : (k, x) ∈ range A m ↔ m !! k = Some x.
Proof. by rewrite range_perm, elem_of_map_to_list. Qed.

Lemma NoDup_range A (m : gmap string A) : NoDup (range A m).*1.
Proof. rewrite range_perm. apply NoDup_fst_map_to_list. Qed.

(** The variables that a list of key-value pairs with distinct keys sets. *)
Lemma addSource_lookup prefix data res k :
  NoDup data.*1 →
  (addSource IsEnvVarName prefix data res).1 !! k =
  (if IsEnvVarName k && has_prefix k prefix
   then match list_to_map (M := gmap string string) data !! sdrop (len prefix) k with
        | Some v => Some v | None => res !! k end
   else res !! k).
Proof.
  unfold addSource. generalize (@nil string) as inv. revert res.
  induction data as [|[key val] data IH]; intros res inv Hnd; cbn [foldl].
  { rewrite list_to_map_nil, lookup_empty. by destruct (_ && _). }
  rewrite list_to_map_cons. unfold addKey at 2. cbn [fst snd].
  apply NoDup_cons in Hnd as [Hnotin Hnd]. cbn in Hnotin.
  assert (list_to_map (M := gmap string string) data !! key = None) as Hkey by by apply not_elem_of_list_to_map.
  destruct (IsEnvVarName (prefix +:+ key)) eqn:Hv; rewrite IH by done; cbn [fst].
  - destruct (decide (k = prefix +:+ key)) as [->|Hne].
    + rewrite Hv. unfold has_prefix. rewrite prefix_app, sdrop_app, Hkey. cbn.
      by rewrite !lookup_insert_eq.
    + rewrite lookup_insert_ne by done. destruct (IsEnvVarName k && has_prefix k prefix) eqn:Hp; [|done].
      apply andb_true_iff in Hp as [_ Hp%has_prefix_app_iff]. rewrite lookup_insert_ne; [done|].
      intros ->. by apply Hne.
  - destruct (IsEnvVarName k && has_prefix k prefix) eqn:Hp; [|done].
    apply andb_true_iff in Hp as [Hk Hp%has_prefix_app_iff]. rewrite lookup_insert_ne; [done|].
    intros ->. rewrite <- Hp in Hv. congruence.
Qed.

Lemma fromSource_spec ef kd r res :
  sourceRef ef = Some (kd, r) →
  triple same (fromSource IsEnvVarName range rm kd ef.(efs_Prefix) r res)
    (λ res' s, same s ∧ badFrom rm pod ef = false ∧
       ∀ k, res' !! k = match fromVar IsEnvVarName rm pod ef k with Some v => Some v | None => res !! k end)
    (λ e s, badFrom rm pod ef = true).
Proof.
  intros Hr. unfold fromSource, badFrom, fromVar. rewrite Hr.
  apply triple_env_pod.
  destruct (GetSource rm kd (es_Name r) (p_Namespace pod)) as [m| |err].
  - destruct (addSource _ _ _ _) as [res' invalid] eqn:Ha.
    eapply (triple_bind _ (λ _ s, same s)).
    { apply triple_when; [|done]. intros _. eapply triple_conseq; [apply (triple_Eventf pod)|done..]. }
    intros []. apply triple_ret. intros s Hs. rewrite andb_false_r. split_and!; [done|done|].
    intros k. replace res' with (addSource IsEnvVarName (efs_Prefix ef) (range _ (src_Data m)) res).1 by by rewrite Ha.
    rewrite addSource_lookup by apply NoDup_range.
    replace (list_to_map (range string (src_Data m))) with (src_Data m)
      by (rewrite <- (list_to_map_to_list (src_Data m)) at 1; apply list_to_map_proper;
          [apply NoDup_fst_map_to_list|by rewrite range_perm]).
    by destruct (_ && _).
  - eapply (triple_bind _ (λ _ s, same s));
      [eapply triple_conseq; [apply (triple_Eventf pod)|done..]|].
    intros []. destruct (isTrue _); [by apply triple_ret|by apply triple_throw].
  - eapply (triple_bind _ (λ _ s, same s));
      [eapply triple_conseq; [apply (triple_Eventf pod)|done..]|].
    intros []. destruct (isTrue _); [by apply triple_ret|by apply triple_throw].
Qed.
Lemma fromSpec_snoc l ef k :
  fromSpec IsEnvVarName rm pod (l ++ [ef]) k =
  match fromSpec IsEnvVarName rm pod l k with Some v => Some v | None => fromVar IsEnvVarName rm pod ef k end.
Proof. induction l as [|e l IH]; cbn; [by destruct (fromVar _ _ _ _ _)|]. rewrite IH. by destruct (fromVar _ _ _ e k). Qed.

Lemma envFrom_loop_spec envFrom res :
  triple same (envFrom_loop IsEnvVarName range rm envFrom res)
    (λ res' s, same s ∧ existsb (badFrom rm pod) envFrom = false ∧
       ∀ k, res' !! k = match fromSpec IsEnvVarName rm pod (reverse envFrom) k with
                        | Some v => Some v | None => res !! k end)
    (λ e s, existsb (badFrom rm pod) envFrom = true).
Proof.
  revert res. induction envFrom as [|ef envFrom IH]; intros res; cbn [envFrom_loop]; [by apply triple_ret|].
  eapply (triple_bind _ (λ res' s, same s ∧ badFrom rm pod ef = false ∧
    ∀ k, res' !! k = match fromVar IsEnvVarName rm pod ef k with Some v => Some v | None => res !! k end)).
  - destruct (sourceRef ef) as [[kd r]|] eqn:Hr.
    + pose proof (fromSource_spec ef kd r res Hr) as H. unfold sourceRef in Hr.
      destruct (efs_ConfigMapRef ef); simplify_eq; [|destruct (efs_SecretRef ef); simplify_eq];
        (eapply triple_conseq; [exact H|done..|]); intros e s; cbn; by intros ->.
    + unfold badFrom, fromVar. rewrite Hr. unfold sourceRef in Hr.
      destruct (efs_ConfigMapRef ef); [done|]. destruct (efs_SecretRef ef); [done|]. by apply triple_ret.
  - intros res'. intros s (Hs & Hb & Hl). specialize (IH res' s Hs). destruct (envFrom_loop _ _ _ _ _ _) as [s' [e|res'']];
      cbn [existsb]; rewrite Hb; [done|]. destruct IH as (? & ? & H). split_and!; [done..|].
    intros k. rewrite H, Hl, reverse_cons, fromSpec_snoc. by destruct (fromSpec _ _ _ _ _).
Qed.

Lemma getValueFromKeyRef_spec kd e r :
  triple same (getValueFromKeyRef rm kd e r)
    (λ v s, same s ∧ badKey rm pod kd r = false ∧ v = keyRefValue rm pod kd r)
    (λ _ s, badKey rm pod kd r = true).
Proof.
  unfold getValueFromKeyRef, badKey, keyRefValue. apply triple_env_pod.
  destruct (GetSource rm kd (ksel_Name r) (p_Namespace pod)) as [m| |err];
    [destruct (src_Data m !! ksel_Key r) as [kv|]; [apply triple_ret; intros s Hs; by rewrite andb_false_r|]|..];
    destruct (isTrue (ksel_Optional r));
    (eapply (triple_bind _ (λ _ s, same s)); [eapply triple_conseq; [apply (triple_Eventf pod)|done..]|]);
    intros []; by first [apply triple_ret|apply triple_throw].
Qed.

Lemma podFieldSelector_error fs :
  match ConvertDownwardAPIFieldLabel fs.(ofs_APIVersion) fs.(ofs_FieldPath) "" with inl _ => true | inr _ => false end =
  match podFieldSelectorRuntimeValue IsQualifiedName range fs pod with inl _ => true | inr _ => false end.
Proof.
  unfold podFieldSelectorRuntimeValue. destruct (ConvertDownwardAPIFieldLabel _ _ _) as [e'|[path v]]; [done|].
  by repeat case_decide.
Qed.

Lemma getEnvironmentVariableValue_spec e f :
  triple same (getEnvironmentVariableValue IsQualifiedName range rm e f)
    (λ v s, same s ∧ badVar rm pod e = false ∧ v = declared IsQualifiedName range rm pod e f)
    (λ _ s, badVar rm pod e = true).
Proof.
  unfold getEnvironmentVariableValue, badVar, declared. destruct (ev_ValueFrom e) as [[fr rr [cr|] sr]|]; [..|by apply triple_ret].
  { apply getValueFromKeyRef_spec. }
  unfold getEnvironmentVariableValueWithValueFrom. cbn.
  destruct sr as [sr|]; [apply getValueFromKeyRef_spec|]. destruct fr as [fr|]; [|by apply triple_ret].
  unfold getValueFromFieldRef. apply triple_env_pod. pose proof (podFieldSelector_error fr) as H.
  destruct (podFieldSelectorRuntimeValue _ _ _ _); rewrite H; [by apply triple_throw|by apply triple_ret].
Qed.

Lemma envSpec_app svc from a b k :
  envSpec IsQualifiedName range rm pod svc from (a ++ b) k =
  envSpec IsQualifiedName range rm pod svc (envSpec IsQualifiedName range rm pod svc from b) a k.
Proof.
  revert k. induction a as [|e a IH]; intros k; cbn [envSpec app]; [done|]. rewrite IH.
  replace (declared _ _ _ _ e (λ x, match envSpec _ _ _ _ svc from (a ++ b) x with Some v => v | None => _ end))
    with (declared IsQualifiedName range rm pod e (λ x,
      match envSpec IsQualifiedName range rm pod svc (envSpec IsQualifiedName range rm pod svc from b) a x with
      | Some v => v | None => default (syntaxWrap x) (svc !! x) end)); [done|].
  unfold declared. destruct (ev_ValueFrom e); [done|]. apply Expand_ext. intros x. by rewrite IH.
Qed.

Lemma envSpec_ext svc from from' l k : (∀ x, from x = from' x) →
  envSpec IsQualifiedName range rm pod svc from l k = envSpec IsQualifiedName range rm pod svc from' l k.
Proof.
  intros H. revert k. induction l as [|e l IH]; intros k; cbn [envSpec]; [done|]. rewrite IH.
  case_decide; [|done]. unfold declared. destruct (ev_ValueFrom e); [done|].
  erewrite Expand_ext; [done|]. intros x. cbn. by rewrite IH.
Qed.
Lemma MappingFuncFor_two (a b : gmap string string) x :
  MappingFuncFor [a; b] x = match a !! x with Some v => v | None => default (syntaxWrap x) (b !! x) end.
Proof. cbn. by destruct (a !! x), (b !! x). Qed.

Lemma env_loop_spec svc envs res :
  triple same (env_loop IsQualifiedName range rm svc envs res)
    (λ res' s, same s ∧ existsb (badVar rm pod) envs = false ∧
       ∀ k, res' !! k = envSpec IsQualifiedName range rm pod svc (λ x, res !! x) (reverse envs) k)
    (λ _ s, existsb (badVar rm pod) envs = true).
Proof.
  revert res. induction envs as [|e envs IH]; intros res; cbn [env_loop]; [by apply triple_ret|].
  eapply triple_bind; [eapply triple_conseq; [apply getEnvironmentVariableValue_spec|done|intros ???; eassumption|]|].
  { intros e' s H. cbn in *. by rewrite H. }
  intros v s (Hs & Hb & ->).
  specialize (IH (match declared IsQualifiedName range rm pod e (MappingFuncFor [res; svc]) with
                  | Some v => <[ev_Name e := v]> res | None => res end) s Hs).
  destruct (env_loop _ _ _ _ _ _ s) as [s' [e'|res']]; cbn [existsb]; rewrite Hb; [done|].
  destruct IH as (? & ? & H). split_and!; [done..|]. intros k. rewrite H, reverse_cons, envSpec_app.
  apply envSpec_ext. intros x. cbn [envSpec].
  replace (declared _ _ _ _ e (λ x0, match res !! x0 with Some v => v | None => _ end))
    with (declared IsQualifiedName range rm pod e (MappingFuncFor [res; svc])).
  2: { unfold declared. destruct (ev_ValueFrom e); [done|]. apply Expand_ext. intros y. apply MappingFuncFor_two. }
  destruct (declared _ _ _ _ _ _); case_decide; subst; rewrite ?lookup_insert_eq, ?lookup_insert_ne by done; done.
Qed.

Lemma add_missing_lookup (kvs : list (string * string)) (res : gmap string string) k :
  foldl (λ res '(k, v), match res !! k with Some _ => res | None => <[k := v]> res end) res kvs !! k =
  match res !! k with Some v => Some v | None => list_to_map (M := gmap string string) kvs !! k end.
Proof.
  revert res. induction kvs as [|[k' v'] kvs IH]; intros res; cbn [foldl].
  { rewrite list_to_map_nil, lookup_empty. by destruct (res !! k). }
  rewrite IH, list_to_map_cons. destruct (decide (k' = k)) as [->|Hne].
  - rewrite lookup_insert_eq. destruct (res !! k) eqn:E; rewrite ?E, ?lookup_insert_eq; done.
  - rewrite (lookup_insert_ne (list_to_map kvs)) by done.
    destruct (res !! k') eqn:E; rewrite ?lookup_insert_ne by done; done.
Qed.

Lemma list_to_map_range A (m : gmap string A) : list_to_map (range A m) = m.
Proof.
  rewrite <- (list_to_map_to_list m) at 2. apply list_to_map_proper; [apply NoDup_range|by rewrite range_perm].
Qed.

Lemma services_error :
  match services range rm pod with inl _ => true | inr _ => false end =
  match rm.(ListServices) with inl _ => true | inr _ => false end.
Proof. unfold services, getServiceEnvVarMap. by destruct (ListServices rm). Qed.

(** The whole of [populateContainerEnvironment]: the container it returns, and
    exactly when it fails. *)
Lemma populateContainerEnvironment_spec c :
  triple same (populateContainerEnvironment IsEnvVarName IsQualifiedName range rm c)
    (λ c' s, same s ∧ unresolvable rm pod c = false ∧ populated IsEnvVarName IsQualifiedName range rm pod c c')
    (λ _ s, unresolvable rm pod c = true).
Proof.
  unfold populateContainerEnvironment, makeEnvironmentMapBasedOnEnvFrom, unresolvable.
  eapply triple_bind; [eapply triple_conseq; [apply (envFrom_loop_spec (c_EnvFrom c) ∅)|done|intros ???; eassumption|]|].
  { cbn. by intros e s ->. }
  intros res s (Hs & Hb & Hres). revert s Hs. rewrite Hb.
  eapply (triple_bind _ (λ env s, same s ∧
      match rm.(ListServices) with inl _ => true | inr _ => false end = false ∧ existsb (badVar rm pod) (c_Env c) = false ∧
      ∀ k, env !! k = environment IsEnvVarName IsQualifiedName range rm pod c k)).
  - unfold makeEnvironmentMap. apply triple_env_pod. fold (services range rm pod).
    pose proof services_error as Hsvc. unfold environment.
    destruct (services range rm pod) as [e|svc]; rewrite <- Hsvc; [by apply triple_throw|].
    eapply triple_bind; [eapply triple_conseq; [apply (env_loop_spec svc (c_Env c) res)|done|intros ???; eassumption|]|].
    { cbn. by intros e s ->. }
    intros env. apply triple_ret. intros s (Hs & Hb' & Henv). split_and!; [done..|].
    intros k. rewrite add_missing_lookup, list_to_map_range, Henv.
    rewrite (envSpec_ext svc _ (fromSpec IsEnvVarName rm pod (reverse (c_EnvFrom c)))); [done|].
    intros x. rewrite Hres, lookup_empty. by destruct (fromSpec _ _ _ _ _).
  - intros env. apply triple_ret. intros s (Hs & -> & -> & Henv). split_and!; [done..|]. split_and!; [done| |].
    + cbn [c_Env]. rewrite <- list_fmap_compose. erewrite list_fmap_ext; [apply (NoDup_range _ env)|].
      by intros ? [??] _.
    + intros [name v vf]. cbn [c_Env ev_Name ev_Value ev_ValueFrom]. rewrite list_elem_of_fmap, <- Henv. split.
      * intros ([k x] & [= -> -> ->] & Hin). by apply elem_of_range in Hin.
      * intros [-> Hin]. exists (name, v). by rewrite elem_of_range.
Qed.
End Lemmas.

Section Pods.
Context (IsEnvVarName IsQualifiedName : string → bool).
Context (range : ∀ A, gmap string A → list (string * A)).
Context (range_perm : ∀ A (m : gmap string A), range A m ≡ₚ map_to_list m).
Context (rm : ResourceManager).

Local Abbreviation populated := (populated IsEnvVarName IsQualifiedName range rm).

(** One of the two loops of [PopulateEnvironmentVariables], over the list that
    [get] and [set] give access to. *)
Lemma populate_loop (get : Pod → list Container) (set : list Container → Pod → Pod) (p : Pod) :
  (∀ l p, get (set l p) = l) → (∀ l l' p, set l (set l' p) = set l p) →
  (∀ l c, unresolvable rm (set l p) c = unresolvable rm p c) →
  (∀ l c c', populated (set l p) c c' ↔ populated p c c') →
  ∀ orig,
  triple (λ s, s.(env_pod) = set orig p)
    (forM (seq 0 (length orig)) (populateAt IsEnvVarName IsQualifiedName range rm get set))
    (λ _ s, existsb (unresolvable rm p) orig = false ∧
       ∃ l, s.(env_pod) = set l p ∧ Forall2 (populated p) orig l)
    (λ _ s, existsb (unresolvable rm p) orig = true).
Proof.
  intros Hget Hset Hunres Hpop orig.
  eapply triple_conseq with
    (P' := λ s, ∃ l, s.(env_pod) = set (l ++ drop 0 orig) p ∧ Forall2 (populated p) (take 0 orig) l ∧
                     existsb (unresolvable rm p) (take 0 orig) = false)
    (Q' := λ _ s, ∃ l, s.(env_pod) = set (l ++ drop (length (seq 0 (length orig))) orig) p ∧
                     Forall2 (populated p) (take (length (seq 0 (length orig))) orig) l ∧
                     existsb (unresolvable rm p) (take (length (seq 0 (length orig))) orig) = false); cycle 3.
  { intros e s H. exact H. }
  2: { intros s ->. exists []. by rewrite drop_0. }
  2: { intros _ s (l & Hs & Hl & Hb). rewrite length_seq, drop_all, take_ge, (right_id_L [] (++)) in * by done. eauto. }
  apply (triple_forM (λ pre s, ∃ l, s.(env_pod) = set (l ++ drop (length pre) orig) p ∧
    Forall2 (populated p) (take (length pre) orig) l ∧ existsb (unresolvable rm p) (take (length pre) orig) = false)).
  intros pre x rest Hseq s (l & Hs & Hl & Hb).
  assert (x = length pre ∧ length pre < length orig) as [-> Hlt].
  { assert (seq 0 (length orig) !! length pre = Some x) as Hx by by rewrite Hseq, list_lookup_middle.
    by apply lookup_seq in Hx. }
  destruct (lookup_lt_is_Some_2 orig (length pre) Hlt) as [c Hc].
  assert (length l = length pre) as Hlen by (apply Forall2_length in Hl; rewrite length_take in Hl; lia).
  unfold populateAt. unfold mbind at 1, SE_bind at 1. cbn [gets]. rewrite Hs, Hget.
  rewrite lookup_app_r by lia. rewrite Hlen, Nat.sub_diag, lookup_drop, Nat.add_0_r, Hc.
  pose proof (populateContainerEnvironment_spec IsEnvVarName IsQualifiedName range range_perm rm _ c s eq_refl) as Hspec.
  unfold mbind, SE_bind. destruct (populateContainerEnvironment _ _ _ _ _ _) as [s' [e|c']].
  - rewrite Hs, Hunres in Hspec. apply existsb_exists. exists c. split; [|done].
    apply list_elem_of_In. by apply list_elem_of_lookup_2 in Hc.
  - destruct Hspec as (Hs' & Hun & Hc'). rewrite Hs, Hunres in Hun. rewrite Hs in Hc', Hs'. apply Hpop in Hc'.
    cbn. exists (l ++ [c']). rewrite List.length_app, Nat.add_1_r.
    erewrite take_S_r by done. rewrite existsb_app, Hb. cbn. rewrite Hun. split_and!; [|by apply Forall2_app; [|constructor]|done].
    rewrite Hs', Hget, Hset. f_equal. erewrite drop_S by done.
    rewrite insert_app_r_alt by lia. rewrite Hlen, Nat.sub_diag. cbn. by rewrite <- List.app_assoc.
Qed.
Definition allContainers (pod : Pod) : list Container := pod.(p_InitContainers) ++ pod.(p_Containers).

Lemma PopulateEnvironmentVariables_spec (pod : Pod) :
  triple (λ s, s.(env_pod) = pod) (PopulateEnvironmentVariables IsEnvVarName IsQualifiedName range rm)
    (λ _ s, existsb (unresolvable rm pod) (allContainers pod) = false ∧
       ∃ ic cs, s.(env_pod) = {| pod with p_InitContainers := ic; p_Containers := cs |} ∧
         Forall2 (populated pod) pod.(p_InitContainers) ic ∧ Forall2 (populated pod) pod.(p_Containers) cs)
    (λ _ s, existsb (unresolvable rm pod) (allContainers pod) = true).
Proof.
  unfold PopulateEnvironmentVariables, allContainers. apply triple_env_pod. rewrite existsb_app.
  eapply triple_bind.
  - eapply triple_conseq.
    + apply (populate_loop p_InitContainers (λ l pod, {| pod with p_InitContainers := l |}) pod); done.
    + intros s Hs. cbn. rewrite Hs. by destruct pod.
    + intros ???. eassumption.
    + cbn. by intros e s ->.
  - intros [] s (Hb & ic & Hs & Hic). revert s Hs. rewrite Hb.
    set (pod1 := {| pod with p_InitContainers := ic |}).
    eapply triple_conseq.
    + apply (populate_loop p_Containers (λ l pod, {| pod with p_Containers := l |}) pod1); done.
    + intros s Hs. cbn. rewrite Hs. by destruct pod.
    + intros [] s (Hb' & cs & -> & Hcs). split; [done|]. by exists ic, cs.
    + done.
Qed.
End Pods.

(** ** The list of [ResolveEnv] as a map *)

(** The value of the last pair with the key. *)
Definition lastOf (kvs : list (string * string)) (k : string) : option string :=
  last (omap (λ kv, if decide (kv.1 = k) then Some kv.2 else None) kvs).

Lemma lastOf_app a b k : lastOf (a ++ b) k = match lastOf b k with Some v => Some v | None => lastOf a k end.
Proof. unfold lastOf. rewrite omap_app, last_app. done. Qed.

Lemma lastOf_None kvs k : k ∉ kvs.*1 → lastOf kvs k = None.
Proof.
  intros H. unfold lastOf. induction kvs as [|[k' v] kvs IH]; cbn in *; [done|].
  apply not_elem_of_cons in H as [Hne H]. rewrite decide_False by done. by apply IH.
Qed.

Lemma lastOf_NoDup kvs k v : NoDup kvs.*1 → (k, v) ∈ kvs → lastOf kvs k = Some v.
Proof.
  intros Hnd Hin. apply list_elem_of_split in Hin as (a & b & ->).
  rewrite fmap_app in Hnd. apply NoDup_app in Hnd as (_ & _ & Hnd). cbn in Hnd. apply NoDup_cons in Hnd as [Hb _].
  rewrite lastOf_app. change ((k, v) :: b) with ([(k, v)] ++ b). rewrite lastOf_app, (lastOf_None b) by done.
  unfold lastOf at 1. cbn. by rewrite decide_True.
Qed.

Lemma setAll_lookup m kvs k : setAll m kvs !! k = match lastOf kvs k with Some v => Some v | None => m !! k end.
Proof.
  unfold setAll. induction kvs as [|[k' v] kvs IH] using rev_ind; [done|].
  rewrite foldl_snoc, lastOf_app. unfold lastOf at 1. cbn. case_decide; cbn; subst.
  - by rewrite lookup_insert_eq.
  - by rewrite lookup_insert_ne, IH.
Qed.

(** The state of the closure represents a map. *)
Definition represents (st : gmap string nat * list string) (m : gmap string string) : Prop :=
  ∃ l, st.2 = map entry l ∧ NoDup l.*1 ∧ (∀ k i, st.1 !! k = Some i ↔ l.*1 !! i = Some k) ∧ list_to_map l = m.

Lemma setVar_represents st m kv : represents st m → represents (setVar st kv) (<[kv.1 := kv.2]> m).
Proof.
  destruct st as [seen resolved], kv as [k v]. intros (l & Hl & Hnd & Hseen & Hm). cbn in *. subst resolved.
  destruct (seen !! k) as [idx|] eqn:Hk.
  - exists (<[idx := (k, v)]> l). apply Hseen in Hk as Hi.
    assert ((<[idx := (k, v)]> l).*1 = l.*1) as Hkeys by (rewrite list_fmap_insert; cbn; by apply list_insert_id).
    rewrite Hkeys. split_and!; [cbn; by rewrite (list_fmap_insert entry)|done|done|].
    rewrite <- Hm. apply map_eq. intros k'. apply option_eq. intros v'.
    rewrite list_lookup_fmap, fmap_Some in Hi. destruct Hi as ([k0 v0] & Hi & [= <-]).
    destruct (decide (k' = k)) as [->|Hne].
    + rewrite lookup_insert_eq, <- elem_of_list_to_map by by rewrite Hkeys. split.
      * intros Hin. apply list_elem_of_lookup in Hin as [j Hj].
        assert (j = idx) as ->; [|rewrite list_lookup_insert_eq in Hj by (by eapply lookup_lt_Some); congruence].
        eapply (NoDup_lookup l.*1 _ _ k Hnd); [|by rewrite list_lookup_fmap, Hi].
        by rewrite <- Hkeys, list_lookup_fmap, Hj.
      * intros [= <-]. apply list_elem_of_lookup. exists idx. apply list_lookup_insert_eq. by eapply lookup_lt_Some.
    + rewrite lookup_insert_ne, <- !elem_of_list_to_map by (by rewrite ?Hkeys || done).
      rewrite !list_elem_of_lookup. split; intros [j Hj]; exists j;
        (destruct (decide (j = idx)) as [->|]; [|by rewrite list_lookup_insert_ne in *]).
      * rewrite list_lookup_insert_eq in Hj by by eapply lookup_lt_Some. congruence.
      * congruence.
  - exists (l ++ [(k, v)]). cbn. split_and!.
    + by rewrite map_app.
    + rewrite fmap_app. apply NoDup_app. split_and!; [done| |by apply NoDup_singleton].
      intros k' Hk' ->%list_elem_of_singleton. apply list_elem_of_lookup in Hk' as [i Hi].
      apply Hseen in Hi. cbn in Hi. congruence.
    + intros k' i. rewrite fmap_app, length_map. destruct (decide (k = k')) as [<-|Hne].
      * rewrite lookup_insert_eq. split.
        -- intros [= <-]. by rewrite lookup_app_r, length_fmap, Nat.sub_diag by by rewrite length_fmap.
        -- intros [Hi|[Hge Hi]]%lookup_app_Some; [apply Hseen in Hi; congruence|].
           apply list_lookup_singleton_Some in Hi as [Hi _]. rewrite length_fmap in *. f_equal. lia.
      * rewrite lookup_insert_ne, Hseen by done. rewrite lookup_app_Some. split; [by left|].
        intros [?|[_ [_ [=]]%list_lookup_singleton_Some]]; [done|]. done.
    + rewrite <- Hm. apply map_eq. intros k'. rewrite list_to_map_snoc; [done|].
      intros Hin. apply list_elem_of_lookup in Hin as [i Hi]. apply Hseen in Hi. congruence.
Qed.

Lemma setVars_represent st m kvs : represents st m → represents (foldl setVar st kvs) (setAll m kvs).
Proof.
  unfold setAll. revert st m. induction kvs as [|kv kvs IH]; intros st m H; [done|]. cbn.
  apply IH. destruct kv. by apply (setVar_represents st m (_, _)).
Qed.

(** The pairs that [ResolveEnv] sets, in order. *)
Definition declaredPairs (c : Container) : list (string * string) :=
  omap (λ e, if decide (e.(ev_Value) ≠ "") then Some (e.(ev_Name), e.(ev_Value)) else None) c.(c_Env).

Definition injected (t : Tidal) (c : Container) : list (string * string) :=
  if bool_decide (t.(APIServerHost) ≠ "") && negb (containerHasEnv c "KUBERNETES_SERVICE_HOST")
  then apiServerVars t else [].

Definition forced (t : Tidal) (pod : Pod) (c : Container) (podIP : string) : list (string * string) :=
  podMetadata t pod podIP ++ injected t c.

Lemma forced_keys t pod c podIP : NoDup (forced t pod c podIP).*1 ∧
  Forall (λ kv, free "=" kv.1 ∧ kv.1 ≠ "") (forced t pod c podIP).
Proof.
  unfold forced, injected. destruct (_ && _); (split; [cbn; apply (bool_decide_unpack _); vm_compute; exact I|]);
    cbn; repeat constructor; done.
Qed.

Lemma ResolveEnv_state t pod c podIP :
  ∃ l, ResolveEnv t pod c podIP = filter (λ e, hasKey e = true) (map entry l) ∧ NoDup l.*1 ∧
    ∀ k v, (k, v) ∈ l ↔ lastOf (declaredPairs c ++ forced t pod c podIP) k = Some v.
Proof.
  assert (represents (∅, []) ∅) as H0.
  { exists []. split_and!; [done|constructor| |done]. intros k i. cbn. by rewrite lookup_empty. }
  assert (∀ st, foldl (λ st env, if decide (env.(ev_Value) ≠ "") then setVar st (env.(ev_Name), env.(ev_Value)) else st)
    st c.(c_Env) = foldl setVar st (declaredPairs c)) as Hdecl.
  { unfold declaredPairs. induction (c_Env c) as [|e envs IH]; intros st; cbn; [done|]. case_decide; cbn; by rewrite IH. }
  pose proof (setVars_represent _ _ (declaredPairs c ++ forced t pod c podIP) H0) as (l & Hl & Hnd & _ & Hm).
  exists l. split_and!; [|done|].
  - rewrite <- Hl. unfold ResolveEnv. rewrite Hdecl. unfold forced, injected. rewrite !foldl_app.
    by destruct (_ && _).
  - intros k v. rewrite elem_of_list_to_map, Hm, setAll_lookup, lookup_empty by done. by destruct (lastOf _ k).
Qed.

Lemma hasKey_entry k v : free "=" k → hasKey (entry (k, v)) = bool_decide (k ≠ "").
Proof.
  intros Hf. unfold hasKey, entry. cbn [fst snd]. change ("=" +:+ v) with (String "=" v).
  rewrite index_byte_app by done. by destruct k.
Qed.

(** ** An example *)

Definition exVar (name value : string) : EnvVar := {| ev_Name := name; ev_Value := value; ev_ValueFrom := None |}.

Definition exRM : ResourceManager := {|
  GetConfigMap := λ name ns, if decide (name = "settings") then
    Got {| src_Name := name; src_Namespace := ns; src_Data := {[ "MODE" := "fast"; "bad key" := "x" ]} |} else IsNotFound;
  GetSecret := λ name ns, OtherErr "forbidden";
  ListServices := inr [{| svc_Name := "kubernetes"; svc_Namespace := "default"; svc_ClusterIP := "10.96.0.1";
    svc_Ports := [{| sp_Name := "https"; sp_Protocol := "TCP"; sp_Port := 443 |}] |}] |}.

Definition exPod (env : list EnvVar) : Pod := {| zeroPod with p_Name := "web"; p_Namespace := "default"; p_UID := "u1";
  p_Containers := [{| zeroContainer with c_Name := "web"; c_Env := env;
    c_EnvFrom := [{| efs_Prefix := "APP_"; efs_ConfigMapRef := Some {| es_Name := "settings"; es_Optional := None |};
                     efs_SecretRef := None |};
                  {| efs_Prefix := ""; efs_ConfigMapRef := None;
                     efs_SecretRef := Some {| es_Name := "none"; es_Optional := Some true |} |}] |}] |}.

Definition exValid (s : string) : bool := match index_byte s " " with None => true | Some _ => false end.

Definition exRange (A : Type) (m : gmap string A) : list (string * A) := map_to_list m.

Definition exPopulate (pod : Pod) : EnvState * (EnvErr + ()) :=
  PopulateEnvironmentVariables exValid exValid exRange exRM {| env_pod := pod; env_events := [] |}.

(** The value of a variable of the first container. *)
Definition exValue (pod : Pod) (name : string) : option string :=
  c ← head pod.(p_Containers);
  snd <$> find (λ kv, bool_decide (kv.1 = name)) (map (λ e, (e.(ev_Name), e.(ev_Value))) c.(c_Env)).

(** ** Properties *)

(** C14: A population that succeeds gives every container, init container or not,
    exactly the environment of its declarations: each variable once and with a
    literal value, namely the value of its last [env] declaration that
    resolves, whose references see the declarations before it, else the value
    of the last [envFrom] source with that (valid, prefixed) key, else the
    service variable of that name.  Nothing else of the pod changes. *)
Theorem PopulateEnvironmentVariables_correct IsEnvVarName IsQualifiedName range rm s s' :
  (∀ A (m : gmap string A), range A m ≡ₚ map_to_list m) →
  PopulateEnvironmentVariables IsEnvVarName IsQualifiedName range rm s = (s', inr tt) →
  ∃ ic cs, s'.(env_pod) = {| s.(env_pod) with p_InitContainers := ic; p_Containers := cs |} ∧
    Forall2 (populated IsEnvVarName IsQualifiedName range rm s.(env_pod)) s.(env_pod).(p_InitContainers) ic ∧
    Forall2 (populated IsEnvVarName IsQualifiedName range rm s.(env_pod)) s.(env_pod).(p_Containers) cs.
Proof.
  intros Hr Hrun.
  pose proof (triple_run _ _ _ _ _ _ _
    (PopulateEnvironmentVariables_spec IsEnvVarName IsQualifiedName range Hr rm s.(env_pod)) eq_refl Hrun) as H.
  by destruct H as (_ & ?).
Qed.

Lemma PopulateEnvironmentVariables_correct_witness :
  let pod := exPod [exVar "A" "$(APP_MODE)-1"; exVar "A" "$(A)$(KUBERNETES_SERVICE_PORT)"] in
  (∃ ic cs, (exPopulate pod).1.(env_pod) = {| pod with p_InitContainers := ic; p_Containers := cs |} ∧
     Forall2 (populated exValid exValid exRange exRM pod) pod.(p_InitContainers) ic ∧
     Forall2 (populated exValid exValid exRange exRM pod) pod.(p_Containers) cs) ∧
  exValue (exPopulate pod).1.(env_pod) "A" = Some "fast-1443".
Proof.
  split; [|vm_compute; reflexivity].
  refine (PopulateEnvironmentVariables_correct exValid exValid exRange exRM
    {| env_pod := exPod [exVar "A" "$(APP_MODE)-1"; exVar "A" "$(A)$(KUBERNETES_SERVICE_PORT)"]; env_events := [] |}
    _ (λ A m, Permutation_refl _) _).
  vm_compute. reflexivity.
Defined.

(** Population fails exactly when a container refers to something mandatory
    that is not there: a config map, secret or key that is missing or cannot
    be read and is not marked optional, a field path the downward API does not
    know, or the list of services.  Optional references never fail it. *)
Theorem PopulateEnvironmentVariables_error IsEnvVarName IsQualifiedName range rm s :
  (∀ A (m : gmap string A), range A m ≡ₚ map_to_list m) →
  (∃ s' e, PopulateEnvironmentVariables IsEnvVarName IsQualifiedName range rm s = (s', inl e)) ↔
  Exists (λ c, unresolvable rm s.(env_pod) c = true) (allContainers s.(env_pod)).
Proof.
  intros Hr. rewrite Exists_exists.
  pose proof (PopulateEnvironmentVariables_spec IsEnvVarName IsQualifiedName range Hr rm s.(env_pod) s eq_refl) as H.
  assert (existsb (unresolvable rm s.(env_pod)) (allContainers s.(env_pod)) = true ↔
    ∃ c, c ∈ allContainers s.(env_pod) ∧ unresolvable rm s.(env_pod) c = true) as Hiff.
  { rewrite existsb_exists. by setoid_rewrite list_elem_of_In. }
  rewrite <- Hiff. destruct (PopulateEnvironmentVariables _ _ _ _ _) as [s' [e|[]]].
  - split; [done|]. by eauto.
  - destruct H as [H _]. rewrite H. split; [by intros (? & ? & ?)|done].
Qed.

Lemma PopulateEnvironmentVariables_error_witness :
  let pod := exPod [{| ev_Name := "TOKEN"; ev_Value := ""; ev_ValueFrom := Some {| evs_FieldRef := None;
    evs_ResourceFieldRef := false; evs_ConfigMapKeyRef := None;
    evs_SecretKeyRef := Some {| ksel_Name := "token"; ksel_Key := "k"; ksel_Optional := None |} |} |}] in
  ∃ s' e, exPopulate pod = (s', inl e).
Proof.
  refine (proj2 (PopulateEnvironmentVariables_error exValid exValid exRange exRM
    {| env_pod := exPod [{| ev_Name := "TOKEN"; ev_Value := ""; ev_ValueFrom := Some {| evs_FieldRef := None;
         evs_ResourceFieldRef := false; evs_ConfigMapKeyRef := None;
         evs_SecretKeyRef := Some {| ksel_Name := "token"; ksel_Key := "k"; ksel_Optional := None |} |} |}];
       env_events := [] |} (λ A m, Permutation_refl _)) _).
  apply Exists_cons_hd. vm_compute. reflexivity.
Defined.

(** The machine gets each variable once, which systemd requires: the
    entries are [KEY=VALUE] strings with distinct, non-empty keys; the pod's
    identity and, unless the container sets its own, the address of the API
    server are there whatever the container declares, so they cannot be
    spoofed; and every other variable has the last non-empty value declared
    for it. *)
Theorem ResolveEnv_correct t pod c podIP :
  Forall (λ e, free "=" e.(ev_Name)) c.(c_Env) →
  ∃ vars, ResolveEnv t pod c podIP = map entry vars ∧ NoDup vars.*1 ∧
    Forall (λ kv, free "=" kv.1 ∧ kv.1 ≠ "") vars ∧
    forced t pod c podIP ⊆ vars ∧
    ∀ k v, k ∉ (forced t pod c podIP).*1 → (k, v) ∈ vars ↔ k ≠ "" ∧ lastOf (declaredPairs c) k = Some v.
Proof.
  intros Hfree. destruct (ResolveEnv_state t pod c podIP) as (l & -> & Hnd & Hl).
  destruct (forced_keys t pod c podIP) as [Hfnd Hfk].
  assert (∀ k v, (k, v) ∈ l → free "=" k) as Hlf.
  { intros k v Hin. apply Hl in Hin. apply last_Some_elem_of, list_elem_of_omap in Hin as ([k' v'] & Hin & Heq).
    cbn in Heq. case_decide; simplify_eq. rewrite Forall_forall in Hfk. rewrite Forall_forall in Hfree.
    apply elem_of_app in Hin as [Hin|Hin]; [|by apply (Hfk (k, v))].
    apply list_elem_of_omap in Hin as (e & He & Heq'). case_decide; simplify_eq. by apply Hfree. }
  exists (filter (λ kv, kv.1 ≠ "") l). split_and!.
  - clear Hnd Hl. induction l as [|[k v] l IH]; cbn [map]; [done|].
    rewrite !filter_cons, hasKey_entry by (by eapply Hlf, list_elem_of_here). cbn [fst].
    rewrite IH by (intros k' v' ?; by eapply Hlf, list_elem_of_further).
    repeat case_decide; try case_bool_decide; done.
  - by apply NoDup_fmap_filter.
  - apply Forall_forall. intros [k v] [Hk Hin]%list_elem_of_filter. split; [by eapply Hlf|done].
  - intros [k v] Hin. eapply Forall_forall in Hfk as [_ Hk]; [|exact Hin]. apply list_elem_of_filter. split; [done|].
    apply Hl. by rewrite lastOf_app, (lastOf_NoDup _ k v).
  - intros k v Hk. rewrite list_elem_of_filter, Hl, lastOf_app, (lastOf_None (forced _ _ _ _)) by done. done.
Qed.

Lemma ResolveEnv_correct_witness :
  let t := SetAPIServer (NewTidal "pawn" "192.168.0.1") "10.0.0.1" "" in
  let c := {| zeroContainer with c_Env := [exVar "A" "1"; exVar "MY_POD_IP" "spoofed"; exVar "A" "2"] |} in
  (∃ vars, ResolveEnv t zeroPod c "10.1.2.3" = map entry vars ∧ NoDup vars.*1 ∧
    Forall (λ kv, free "=" kv.1 ∧ kv.1 ≠ "") vars ∧ forced t zeroPod c "10.1.2.3" ⊆ vars) ∧
  ResolveEnv t zeroPod c "10.1.2.3" =
    ["A=2"; "MY_POD_IP=10.1.2.3"; "MY_HOST_IP=192.168.0.1"; "MY_NODE_NAME=pawn"; "MY_POD_UID="; "MY_POD_NAME=";
     "MY_POD_NS="; "KUBERNETES_SERVICE_HOST=10.0.0.1"; "KUBERNETES_SERVICE_PORT=443"; "KUBERNETES_SERVICE_PORT_HTTPS=443"].
Proof.
  split; [|vm_compute; reflexivity].
  destruct (ResolveEnv_correct (SetAPIServer (NewTidal "pawn" "192.168.0.1") "10.0.0.1" "") zeroPod
    {| zeroContainer with c_Env := [exVar "A" "1"; exVar "MY_POD_IP" "spoofed"; exVar "A" "2"] |} "10.1.2.3")
    as (vars & H1 & H2 & H3 & H4 & _).
  - repeat constructor.
  - exists vars. exact (conj H1 (conj H2 (conj H3 H4))).
Defined.

(** Defect: a pod whose creation is retried has its environment resolved
    again, from the values of the first time, and an escaped reference is then
    expanded. *)
Theorem populate_twice_expands_escapes :
  let once := (exPopulate (exPod [exVar "A" "$$(KUBERNETES_SERVICE_HOST)"])).1.(env_pod) in
  exValue once "A" = Some "$(KUBERNETES_SERVICE_HOST)" ∧
  exValue (exPopulate once).1.(env_pod) "A" = Some "10.96.0.1".
Proof. vm_compute. done. Qed.

(** Defect: the service variables that population adds hide the configured API
    server: the container declares no [KUBERNETES_SERVICE_HOST] of its own,
    and gets the cluster IP all the same. *)
Theorem api_server_hidden_by_service_variables :
  let t := SetAPIServer (NewTidal "pawn" "192.168.0.1") "10.0.0.1" "6443" in
  let pod := exPod [] in
  let env p := default [] ((λ c, ResolveEnv t p c "10.1.2.3") <$> head p.(p_Containers)) in
  let pod' := (exPopulate pod).1.(env_pod) in
  "KUBERNETES_SERVICE_HOST=10.0.0.1" ∈ env pod ∧
  ("KUBERNETES_SERVICE_HOST=10.0.0.1" ∉ env pod') ∧
  "KUBERNETES_SERVICE_HOST=10.96.0.1" ∈ env pod'.
Proof. cbv zeta. split_and!; apply (bool_decide_unpack _); vm_compute; exact I. Qed.
