(* ===== verification/VolTracker.v ===== *)
(** * The volume tracker (node/voltracker.go)

    The reverse index from a config map or secret to the pods that mount it,
    which the informer handlers of [NewGambit] use to rewrite the files of
    running pods.  Writing the files is the volume package's; a refresh is
    modelled by the list of mounts it rewrites. *)
From S2P Require Import Prelude Corev1 Paths.
Import Str.

Record volumeMount := { vm_podUID : string; vm_hostDir : string; vm_vol : Volume }.

Record VolumeTracker := {
  volRefs : gmap string (list volumeMount);
  volRefsByPod : gmap string (list string);
  vt_baseDir : string;
  vt_pawnName : string;
}.

Definition NewVolumeTracker (baseDir pawnName : string) : VolumeTracker :=
  {| volRefs := ∅; volRefsByPod := ∅; vt_baseDir := baseDir; vt_pawnName := pawnName |}.

(** The switch on the kind of the volume. *)
Definition volumeKind (vol : Volume) : option (string * string) :=
  match vol.(vol_ConfigMap), vol.(vol_Secret) with
  | Some cm, _ => Some ("configmap", cm.(cmv_Name))
  | None, Some secret => Some ("secret", secret.(sev_SecretName))
  | None, None => None
  end.

Definition refKey (kind namespace name : string) : string := kind +:+ ":" +:+ namespace +:+ "/" +:+ name.

(** The loop over the volumes: the keys and their mounts. *)
Definition podMounts (vt : VolumeTracker) (uid : string) (pod : Pod) : list (string * volumeMount) :=
  omap (λ vol, match volumeKind vol with
    | None => None
    | Some (kind, name) =>
        Some (refKey kind pod.(p_Namespace) name,
              {| vm_podUID := uid; vm_vol := vol;
                 vm_hostDir := pathJoin [vt.(vt_baseDir); "pawns"; vt.(vt_pawnName); "pods"; uid; "volumes"; kind;
                                         vol.(vol_Name)] |})
    end) pod.(p_Volumes).

(** [vt.volRefs[key]], with nil for an absent key. *)
Definition mountsOf (m : gmap string (list volumeMount)) (key : string) : list volumeMount := default [] (m !! key).

Definition addMount (m : gmap string (list volumeMount)) (km : string * volumeMount) : gmap string (list volumeMount) :=
  <[km.1 := mountsOf m km.1 ++ [km.2]]> m.

Definition Track (vt : VolumeTracker) (uid : string) (pod : Pod) : VolumeTracker :=
  let mounts := podMounts vt uid pod in
  let keys := mounts.*1 in
  if decide (length keys = 0) then vt
  else {| vt with volRefs := foldl addMount vt.(volRefs) mounts; volRefsByPod := <[uid := keys]> vt.(volRefsByPod) |}.

Definition dropMounts (uid : string) (m : gmap string (list volumeMount)) (key : string) : gmap string (list volumeMount) :=
  let filtered := filter (λ v, v.(vm_podUID) ≠ uid) (mountsOf m key) in
  if decide (length filtered = 0) then delete key m else <[key := filtered]> m.

Definition Untrack (vt : VolumeTracker) (uid : string) : VolumeTracker :=
  {| vt with volRefs := foldl (dropMounts uid) vt.(volRefs) (default [] (vt.(volRefsByPod) !! uid));
             volRefsByPod := delete uid vt.(volRefsByPod) |}.

(** The mounts whose files [RefreshConfigMap] and [RefreshSecret] rewrite. *)
Definition RefreshConfigMap (vt : VolumeTracker) (namespace name : string) : list volumeMount :=
  mountsOf vt.(volRefs) (refKey "configmap" namespace name).

Definition RefreshSecret (vt : VolumeTracker) (namespace name : string) : list volumeMount :=
  mountsOf vt.(volRefs) (refKey "secret" namespace name).

(** ** The invariant *)

(** The index has no empty entries, and every mount is under a key that is
    recorded for its pod. *)
Record tracker_inv (vt : VolumeTracker) : Prop := {
  inv_nonempty : ∀ key l, vt.(volRefs) !! key = Some l → l ≠ [];
  inv_indexed : ∀ key v, v ∈ mountsOf vt.(volRefs) key →
    ∃ keys, vt.(volRefsByPod) !! v.(vm_podUID) = Some keys ∧ key ∈ keys;
}.

(** ** Lemmas *)

Lemma mountsOf_insert m key l k : mountsOf (<[key := l]> m) k = if decide (key = k) then l else mountsOf m k.
Proof. unfold mountsOf. case_decide; subst; by rewrite ?lookup_insert_eq, ?lookup_insert_ne. Qed.

Lemma mountsOf_delete m key k : mountsOf (delete key m) k = if decide (key = k) then [] else mountsOf m k.
Proof. unfold mountsOf. case_decide; subst; by rewrite ?lookup_delete_eq, ?lookup_delete_ne. Qed.

(** The mounts of [l] with the key. *)
Definition withKey (l : list (string * volumeMount)) (key : string) : list volumeMount :=
  omap (λ km, if decide (km.1 = key) then Some km.2 else None) l.

Lemma addMounts_lookup l m key : mountsOf (foldl addMount m l) key = mountsOf m key ++ withKey l key.
Proof.
  unfold withKey. revert m. induction l as [|[k v] l IH]; intros m; cbn [foldl omap list_omap]; [by rewrite (right_id_L [] (++))|].
  rewrite IH. unfold addMount. cbn [fst snd]. rewrite mountsOf_insert. case_decide; subst; [|done].
  by rewrite <- List.app_assoc.
Qed.

Lemma addMounts_nonempty l m : (∀ k x, m !! k = Some x → x ≠ []) → ∀ k x, foldl addMount m l !! k = Some x → x ≠ [].
Proof.
  revert m. induction l as [|[k v] l IH]; intros m H; cbn [foldl]; [done|]. apply IH. intros k' x.
  unfold addMount. cbn. intros [[<- <-]|[_ ?]]%lookup_insert_Some; [by destruct (mountsOf _ _)|by eapply H].
Qed.

Lemma dropMounts_lookup uid keys m key :
  mountsOf (foldl (dropMounts uid) m keys) key =
  if decide (key ∈ keys) then filter (λ v, v.(vm_podUID) ≠ uid) (mountsOf m key) else mountsOf m key.
Proof.
  revert m. induction keys as [|k keys IH]; intros m; cbn [foldl]; [by rewrite decide_False by apply not_elem_of_nil|].
  rewrite IH. assert (∀ k', mountsOf (dropMounts uid m k) k' =
    if decide (k = k') then filter (λ v, v.(vm_podUID) ≠ uid) (mountsOf m k') else mountsOf m k') as Hd.
  { intros k'. unfold dropMounts. destruct (decide (length (filter _ (mountsOf m k)) = 0)) as [Hl|Hl].
    - rewrite mountsOf_delete. destruct (decide (k = k')) as [<-|]; [|done].
      symmetry. by apply length_zero_iff_nil.
    - rewrite mountsOf_insert. by destruct (decide (k = k')) as [<-|]. }
  rewrite Hd. destruct (decide (k = key)) as [->|Hne].
  - rewrite (decide_True (P := key ∈ key :: keys)) by set_solver. case_decide; [|done].
    by rewrite list_filter_filter_l by done.
  - destruct (decide (key ∈ keys)); [by rewrite decide_True by set_solver|by rewrite decide_False by set_solver].
Qed.

Lemma dropMounts_nonempty uid keys m :
  (∀ k x, m !! k = Some x → x ≠ []) → ∀ k x, foldl (dropMounts uid) m keys !! k = Some x → x ≠ [].
Proof.
  revert m. induction keys as [|k keys IH]; intros m H; cbn [foldl]; [done|]. apply IH. intros k' x.
  unfold dropMounts. case_decide as Hl.
  - intros [_ ?]%lookup_delete_Some. by eapply H.
  - intros [[<- <-]|[_ ?]]%lookup_insert_Some; [by intros Hn; rewrite Hn in Hl|by eapply H].
Qed.

(** Two indices without empty entries are equal when they list the same mounts. *)
Lemma mounts_ext (m m' : gmap string (list volumeMount)) :
  (∀ k x, m !! k = Some x → x ≠ []) → (∀ k x, m' !! k = Some x → x ≠ []) →
  (∀ k, mountsOf m k = mountsOf m' k) → m = m'.
Proof.
  intros H H' Heq. apply map_eq. intros k. specialize (Heq k). unfold mountsOf in Heq.
  destruct (m !! k) as [l|] eqn:E, (m' !! k) as [l'|] eqn:E'; cbn in Heq; [by subst|..|done].
  - subst. by apply H in E.
  - subst. by apply H' in E'.
Qed.

Lemma podMounts_uid vt uid pod key v : (key, v) ∈ podMounts vt uid pod → v.(vm_podUID) = uid.
Proof.
  intros (vol & _ & H)%list_elem_of_omap. destruct (volumeKind vol) as [[kind name]|]; by simplify_eq.
Qed.

Lemma elem_of_withKey l key v : v ∈ withKey l key ↔ (key, v) ∈ l.
Proof.
  unfold withKey. rewrite list_elem_of_omap. split.
  - intros ([k x] & Hin & Heq). cbn in Heq. by case_decide; simplify_eq.
  - intros Hin. exists (key, v). cbn. by rewrite decide_True.
Qed.

Lemma NewVolumeTracker_inv baseDir pawnName : tracker_inv (NewVolumeTracker baseDir pawnName).
Proof. split; cbn; [done|]. intros key v Hv. unfold mountsOf in Hv. by rewrite lookup_empty in Hv; apply elem_of_nil in Hv. Qed.

Lemma Track_inv vt uid pod : tracker_inv vt → vt.(volRefsByPod) !! uid = None → tracker_inv (Track vt uid pod).
Proof.
  intros [Hne Hidx] Hnew. unfold Track. case_decide; [done|]. split; cbn; [by apply addMounts_nonempty|].
  intros key v. rewrite addMounts_lookup. intros [Hin|Hin]%elem_of_app.
  - destruct (Hidx _ _ Hin) as (keys & Hk & ?). exists keys. split; [|done]. rewrite lookup_insert_ne; congruence.
  - apply elem_of_withKey in Hin. rewrite (podMounts_uid _ _ _ _ _ Hin), lookup_insert_eq.
    eexists. split; [done|]. apply list_elem_of_fmap. by exists (key, v).
Qed.

Lemma Untrack_inv vt uid : tracker_inv vt → tracker_inv (Untrack vt uid).
Proof.
  intros [Hne Hidx]. split; cbn; [by apply dropMounts_nonempty|].
  intros key v. rewrite dropMounts_lookup. intros Hin.
  assert (v ∈ mountsOf vt.(volRefs) key ∧ (key ∈ default [] (vt.(volRefsByPod) !! uid) → v.(vm_podUID) ≠ uid)) as [Hv Hu].
  { case_decide; [apply list_elem_of_filter in Hin as [??]|]; naive_solver. }
  destruct (Hidx _ _ Hv) as (keys & Hk & Hkey). exists keys. split; [|done]. rewrite lookup_delete_ne; [done|].
  intros ->. apply Hu; [|done]. by rewrite Hk.
Qed.

(** The histories of the tracker: [CreatePod] tracks a pod once, when its
    creation succeeds, and [DeletePod] untracks it. *)
Inductive tracker_reachable : VolumeTracker → Prop :=
  | tr_new baseDir pawnName : tracker_reachable (NewVolumeTracker baseDir pawnName)
  | tr_track vt uid pod : tracker_reachable vt → vt.(volRefsByPod) !! uid = None → tracker_reachable (Track vt uid pod)
  | tr_untrack vt uid : tracker_reachable vt → tracker_reachable (Untrack vt uid).

Lemma reachable_inv vt : tracker_reachable vt → tracker_inv vt.
Proof. induction 1; [apply NewVolumeTracker_inv|by apply Track_inv|by apply Untrack_inv]. Qed.

(** ** Properties *)

(** In every reachable state, tracking a pod and untracking it again is the
    identity, so that no entry leaks; in between, an update of a config map or
    secret rewrites the mounts it rewrote before and, for the new pod, exactly
    its volumes with that source. *)
Theorem track_untrack vt uid pod :
  tracker_reachable vt → vt.(volRefsByPod) !! uid = None →
  Untrack (Track vt uid pod) uid = vt ∧
  ∀ kind namespace name v,
    v ∈ mountsOf (Track vt uid pod).(volRefs) (refKey kind namespace name) ↔
    v ∈ mountsOf vt.(volRefs) (refKey kind namespace name) ∨
    (refKey kind namespace name, v) ∈ podMounts vt uid pod.
Proof.
  intros [Hne Hidx]%reachable_inv Hnew. split.
  - assert (∀ key v, v ∈ mountsOf vt.(volRefs) key → v.(vm_podUID) ≠ uid) as Hother.
    { intros key v Hv Heq. rewrite <- Heq in Hnew. destruct (Hidx _ _ Hv) as (keys & Hk & _). congruence. }
    unfold Track. case_decide as Hl.
    + unfold Untrack. rewrite Hnew. cbn. rewrite delete_id by done. by destruct vt.
    + unfold Untrack. cbn. rewrite lookup_insert_eq, delete_insert_eq, delete_id by done. cbn.
      rewrite (mounts_ext (foldl _ _ _) vt.(volRefs)); [by destruct vt|by apply dropMounts_nonempty, addMounts_nonempty|done|].
      intros key. rewrite dropMounts_lookup, addMounts_lookup, filter_app.
      assert (filter (λ v, v.(vm_podUID) ≠ uid) (mountsOf vt.(volRefs) key) = mountsOf vt.(volRefs) key) as ->
        by (apply filter_all, Forall_forall; by apply Hother).
      assert (filter (λ v, v.(vm_podUID) ≠ uid) (withKey (podMounts vt uid pod) key) = []) as ->.
      { apply filter_none, Forall_forall. intros v ?%elem_of_withKey%podMounts_uid. naive_solver. }
      case_decide as Hk; [by rewrite (right_id_L [] (++))|].
      replace (withKey (podMounts vt uid pod) key) with (@nil volumeMount); [by rewrite (right_id_L [] (++))|].
      symmetry. apply elem_of_nil_inv. intros v ?%elem_of_withKey. apply Hk, list_elem_of_fmap. by exists (key, v).
  - intros kind namespace name v. unfold Track. case_decide as Hl; cbn.
    + apply length_zero_iff_nil, fmap_nil_inv in Hl. rewrite Hl, elem_of_nil. tauto.
    + by rewrite addMounts_lookup, elem_of_app, elem_of_withKey.
Qed.

Definition exVolumePod : Pod := {| zeroPod with p_Namespace := "default"; p_UID := "u1";
  p_Volumes := [{| zeroVolume with vol_Name := "cfg";
                     vol_ConfigMap := Some {| cmv_Name := "settings"; cmv_Items := [] |} |};
                {| zeroVolume with vol_Name := "tmp"; vol_EmptyDir := true |}] |}.

Lemma track_untrack_witness :
  let vt := NewVolumeTracker "/var/lib/perigeos" "pawn" in
  Untrack (Track vt "u1" exVolumePod) "u1" = vt ∧
  vm_hostDir <$> RefreshConfigMap (Track vt "u1" exVolumePod) "default" "settings" =
    ["/var/lib/perigeos/pawns/pawn/pods/u1/volumes/configmap/cfg"].
Proof.
  split; [|vm_compute; reflexivity].
  exact (proj1 (track_untrack _ "u1" exVolumePod (tr_new "/var/lib/perigeos" "pawn") eq_refl)).
Defined.
