(* ===== verification/Runtime.v ===== *)
(** * The systemd runtime (internal/runtime, internal/runtime/systemd, internal/cgroup)

    How a container becomes a transient systemd unit: the command line and
    the unit properties of [RunMachine] and [runProgram], the resource
    properties, the stop and status operations, and the wait for an init
    container.  systemd, the kernel and the file system answer through the
    record [Host], whose answers may depend on everything done before; the
    calls made are kept in a trace. *)
From stdpp Require Import pretty.
From S2P Require Import Prelude Corev1 Monad Paths UnitNames PodStore Status BatchWatcher Expansion.
Import Str.

#[local] Arguments String.append !_ _ : simpl nomatch.

(** ** Interface types (interface.go) *)

Record BindMount := { bm_HostPath : string; bm_ContainerPath : string; bm_ReadOnly : bool; bm_Propagation : string }.

Record PodConfig := {
  cfg_Name : string;
  cfg_Namespace : string;
  cfg_UID : string;
  cfg_ContainerName : string;
  cfg_Container : Container;
  cfg_PawnName : string;
  cfg_RootFS : string;
  cfg_BindMounts : list BindMount;
  cfg_NetNSPath : string;
  cfg_HostNetwork : bool;
  cfg_Privileged : bool;
  cfg_HostPID : bool;
  cfg_RunAsUser : option Z;
  cfg_RunAsGroup : option Z;
  cfg_Environment : list string;
  cfg_PodIP : string;
  cfg_MemoryLimitBytes : Z;
  cfg_SwapLimitBytes : Z;
  cfg_CPULimitMillis : Z;
  cfg_CPURequestMillis : Z;
  cfg_OOMScoreAdjust : Z;
  cfg_ImageEntrypoint : list string;
  cfg_ImageCmd : list string;
  cfg_TerminationGracePeriodSeconds : Z;
}.

(** ** Resource properties (internal/cgroup, resources.go) *)

Definition MinCPUShares : Z := 2.
Definition MaxCPUShares : Z := 262144.

Definition MilliCPUToCPUWeight (milliCPU : Z) : Z :=
  if (milliCPU <=? 0)%Z then 0 else
  let shares := Z.min (Z.max (wrap64 (milliCPU * 1024) `quot` 1000) MinCPUShares) MaxCPUShares in
  u64 (1 + ((shares - MinCPUShares) * 9999) `quot` (MaxCPUShares - MinCPUShares)).

(** [cgroup2.CPUMax]: the quota in a period of 100 ms, or ["max"]. *)
Definition MilliCPUToCPUMax (milliCPU : Z) : option Z :=
  if (milliCPU <=? 0)%Z then None else Some (wrap64 (milliCPU * 100)).

(** Of the quota that [MilliCPUToCPUMax] writes with the default period. *)
Definition cpuMaxToQuotaPerSecUS (m : option Z) : option Z :=
  match m with
  | None => None
  | Some quota => if (quota <=? 0)%Z then None else Some (u64 (wrap64 (quota * 1000000) `quot` 100000))
  end.

(** [types.PodResources], by the fields that [buildPodResources] sets. *)
Record PodResources := {
  res_CPUWeight : option Z;
  res_CPUMax : option (option Z);
  res_MemoryMax : option Z;
  res_MemorySwap : option Z;
  res_OOMScoreAdjust : Z;
}.

Definition buildPodResources (cfg : PodConfig) : PodResources :=
  let w := MilliCPUToCPUWeight cfg.(cfg_CPURequestMillis) in
  {| res_CPUWeight := if (0 <? w)%Z then Some w else None;
     res_CPUMax := if (0 <? cfg.(cfg_CPULimitMillis))%Z then Some (MilliCPUToCPUMax cfg.(cfg_CPULimitMillis)) else None;
     res_MemoryMax := if (0 <? cfg.(cfg_MemoryLimitBytes))%Z then Some (wrap64 cfg.(cfg_MemoryLimitBytes)) else None;
     res_MemorySwap := if (0 <? cfg.(cfg_SwapLimitBytes))%Z then Some (wrap64 cfg.(cfg_SwapLimitBytes)) else None;
     res_OOMScoreAdjust := cfg.(cfg_OOMScoreAdjust) |}.

(** The value of a D-Bus property. *)
Inductive PropValue :=
  | VStr (s : string)
  | VStrs (l : list string)
  | VBool (b : bool)
  | VUint64 (n : Z)
  | VInt32 (n : Z)
  | VBinds (l : list (string * string))
  | VIOLimits (l : list (string * Z)).

Abbreviation Property := (string * PropValue)%type.

Definition positive (v : option Z) : option Z := v ≫= λ n, if (0 <? n)%Z then Some n else None.

Definition optProp (name : string) (v : option Z) : list Property :=
  match v with Some n => [(name, VUint64 n)] | None => [] end.

Definition BuildSystemdProperties (res : PodResources) : list Property :=
  optProp "CPUWeight" (positive res.(res_CPUWeight)) ++
  optProp "CPUQuotaPerSecUSec" (res.(res_CPUMax) ≫= cpuMaxToQuotaPerSecUS) ++
  optProp "MemoryMax" (u64 <$> positive res.(res_MemoryMax)) ++
  optProp "MemorySwapMax" (u64 <$> positive res.(res_MemorySwap)) ++
  [("OOMScoreAdjust", VInt32 (wrap32 res.(res_OOMScoreAdjust)))].

(** ** Command lines *)

(** The loop of [substituteEnvVars]; [None] is a panic, or the end of the
    fuel. *)
Fixpoint substitute_loop (s : string) (env : gmap string string) (fuel i : nat) (buf : string) : option string :=
  match fuel with
  | O => None
  | S fuel =>
      if (i <? len s)%nat then
        c ← at_ s i;
        let next := at_ s (i + 1) in
        let closed := if bool_decide (c = "$"%char) && (i + 1 <? len s)%nat && bool_decide (next = Some "("%char)
                      then index_byte (sdrop (i + 2) s) ")" else None in
        match closed with
        | Some e =>
            varName ← slice s (i + 2) (i + 2 + e);
            whole ← slice s i (i + 2 + e + 1);
            substitute_loop s env fuel (i + (2 + e + 1)) (buf +:+ default whole (env !! varName))
        | None => substitute_loop s env fuel (i + 1) (buf +:+ String c "")
        end
      else Some buf
  end.

Definition substituteEnvVars (s : string) (env : gmap string string) : option string :=
  match index s "$(" with
  | None => Some s
  | Some _ => substitute_loop s env (len s + 1) 0 ""
  end.

(** [strings.Cut(kv, "=")] into a map, as [readUnitEnv] does too. *)
Definition cutEntry (m : gmap string string) (kv : string) : gmap string string :=
  match index_byte kv "=" with
  | Some i => <[stake i kv := sdrop (i + 1) kv]> m
  | None => m
  end.

Definition cutEntries (entries : list string) : gmap string string := foldl cutEntry ∅ entries.

Definition readUnitEnv (entries : option (list string)) : gmap string string :=
  match entries with Some l => cutEntries l | None => ∅ end.

Definition orSleep (cmd : list string) : list string :=
  match cmd with [] => ["/bin/sleep"; "infinity"] | _ => cmd end.

(** [substituteEnvVars] never panics ([substitute_agrees]). *)
Definition substituteAll (env : gmap string string) (parts : list string) : list string :=
  map (λ part, default part (substituteEnvVars part env)) parts.

(** [fullCmd] of [RunMachine], before the user namespace shim. *)
Definition machineCommand (cfg : PodConfig) : list string :=
  let envMap := cutEntries cfg.(cfg_Environment) in
  let c := cfg.(cfg_Container) in
  let effectiveEntrypoint := match c.(c_Command) with [] => cfg.(cfg_ImageEntrypoint) | cmd => cmd end in
  let effectiveCmd := match c.(c_Args), c.(c_Command) with
                      | (_ :: _) as args, _ => args
                      | [], [] => cfg.(cfg_ImageCmd)
                      | [], _ => []
                      end in
  orSleep (substituteAll envMap (effectiveEntrypoint ++ effectiveCmd)).

(** [fullCmd] of [runProgram]. *)
Definition programCommand (cfg : PodConfig) : list string :=
  let envMap := cutEntries cfg.(cfg_Environment) in
  orSleep (substituteAll envMap cfg.(cfg_Container).(c_Command) ++ substituteAll envMap cfg.(cfg_Container).(c_Args)).

Definition containerName_of (cfg : PodConfig) : string :=
  if decide (cfg.(cfg_ContainerName) = "") then cfg.(cfg_Container).(c_Name) else cfg.(cfg_ContainerName).

Definition machineName (podUID containerName : string) : string := "pod-" +:+ podUID +:+ "-" +:+ containerName.

Definition consoleMode (cfg : PodConfig) : string :=
  if cfg.(cfg_Container).(c_Stdin) || existsb (λ bm, bool_decide (bm.(bm_ContainerPath) = "/dev")) cfg.(cfg_BindMounts)
  then "pipe" else "read-only".

Definition metaEnv (podUID : string) (cfg : PodConfig) : list string :=
  ["PERIGEOS_META_UID=" +:+ podUID; "PERIGEOS_META_NAME=" +:+ cfg.(cfg_Name);
   "PERIGEOS_META_NAMESPACE=" +:+ cfg.(cfg_Namespace); "PERIGEOS_META_NODENAME=" +:+ cfg.(cfg_PawnName);
   "PERIGEOS_META_IP=" +:+ cfg.(cfg_PodIP); "PERIGEOS_META_CONTAINER=" +:+ containerName_of cfg].

Definition usernsShimHostPath : string := "/usr/local/lib/perigeos/userns-shim".
Definition usernsShimContainerPath : string := "/usr/local/bin/userns-shim".

(** The nspawn command line up to [--]; [userns] is the FIFO directory when the
    user namespace shim is used. *)
Definition nspawnOptions (pawnName podUID : string) (cfg : PodConfig) (netNSPath : string) (userns : option string)
    : list string :=
  ["/usr/bin/systemd-nspawn"; "--console=" +:+ consoleMode cfg; "--keep-unit"; "--register=yes";
   "--kill-signal=SIGTERM"; "--machine=" +:+ machineName podUID (containerName_of cfg);
   "--directory=" +:+ cfg.(cfg_RootFS); "--network-namespace-path=" +:+ netNSPath; "--resolv-conf=off"] ++
  (if cfg.(cfg_Privileged) then ["--capability=all"] else []) ++
  match userns, cfg.(cfg_RunAsUser) with
  | Some dir, _ => ["--bind-ro=" +:+ usernsShimHostPath +:+ ":" +:+ usernsShimContainerPath;
                    "--bind=" +:+ dir +:+ ":/run/userns"]
  | None, Some uid => ["--user=" +:+ pretty uid]
  | None, None => []
  end ++
  map (λ envVar, "--setenv=" +:+ envVar) cfg.(cfg_Environment) ++
  ["--setenv=PERIGEOS_PAWN=" +:+ pawnName; "--setenv=PERIGEOS_UID=" +:+ podUID] ++
  map (λ bm, (if bm.(bm_ReadOnly) then "--bind-ro=" else "--bind=") +:+
             bm.(bm_HostPath) +:+ ":" +:+ bm.(bm_ContainerPath)) cfg.(cfg_BindMounts).

Definition execStart (pawnName podUID : string) (cfg : PodConfig) (netNSPath : string) (userns : option string)
    : list string :=
  nspawnOptions pawnName podUID cfg netNSPath userns ++ ["--"] ++
  match userns with Some _ => [usernsShimContainerPath] | None => [] end ++ machineCommand cfg.

Definition machineProperties (pawnName podUID : string) (cfg : PodConfig) (exec : list string) (slavePath : option string)
    : list Property :=
  [("Description", VStr ("Pod " +:+ podUID)); ("Slice", VStr (sliceName pawnName)); ("Type", VStr "exec");
   ("ExecStart", VStrs exec); ("SyslogIdentifier", VStr cfg.(cfg_Container).(c_Name)); ("Delegate", VBool true);
   ("KillMode", VStr "mixed"); ("Environment", VStrs (metaEnv podUID cfg))] ++
  (if (0 <? cfg.(cfg_TerminationGracePeriodSeconds))%Z
   then [("TimeoutStopUSec", VUint64 (u64 (cfg.(cfg_TerminationGracePeriodSeconds) * 1000000)))] else []) ++
  match slavePath with
  | Some p => [("StandardInputFile", VStr p); ("StandardOutputFile", VStr p); ("StandardErrorFile", VStr p)]
  | None => []
  end ++
  BuildSystemdProperties (buildPodResources cfg).

(** ** Calls to the host *)

Inductive HostCall :=
  | HStart (unit : string) (props : list Property) (err : option string)
  | HStop (unit : string) (err : option string)
  | HStopWait (unit : string) (ok : bool)
  | HReset (unit : string) (err : option string)
  | HCleanExport (machine : string)
  | HFifoSetup (dir : string) (err : option string)
  | HFifoCleanup (dir : string)
  | HOpenPTY (machine : string) (slave : string + string)
  | HAcquire (ok : bool)
  | HSleep (d : Duration)
  | HUserNS (dir machine : string) (uid gid : Z).

(** The answers, from the calls made so far. [h_acquire] and [h_stopDone] are
    false when the context is done first. *)
Record Host := {
  h_start : list HostCall → string → option string;
  h_stop : list HostCall → string → option string;
  h_stopDone : list HostCall → string → bool;
  h_reset : list HostCall → string → option string;
  h_shimExists : list HostCall → bool;
  h_fifo : list HostCall → string → option string;
  h_openPTY : list HostCall → string → string + string;
  h_acquire : list HostCall → bool;
}.

(** [attachPTYs] by the machine names, and the trace. *)
Record RTState := { attachPTYs : gset string; rt_trace : list HostCall }.

Inductive RTErr :=
  | ErrNetNSRequired
  | ErrOpenPTY (err : string)
  | ErrContext
  | ErrCreateUnit (err : string)
  | ErrCreateUnitRetry (err : string)
  | ErrStopUnit (err : string).

Abbreviation RTM := (SE RTState RTErr).

(** [strings.Contains] *)
Definition contains (s sub : string) : bool := match index s sub with Some _ => true | None => false end.

(** Mounts are bound with the parents first. *)
Definition depth (bm : BindMount) : nat := length (splitOn "/" bm.(bm_ContainerPath)) - 1.

(** [sort.Slice] by depth; mounts of the same depth keep their order here. *)
Definition depth_le (a b : BindMount) : Prop := depth a <= depth b.

#[local] Instance depth_le_dec : RelDecision depth_le := λ a b, decide (depth a <= depth b).

Definition sortedBinds (l : list BindMount) : list BindMount := merge_sort depth_le l.

Section Runtime.
Context (host : Host) (pawnName : string).

Definition emit (c : HostCall) : RTM () := modifyS (λ s, {| s with rt_trace := s.(rt_trace) ++ [c] |}).

(** A call: the answer of the host, recorded with the call. *)
Definition ask {A} (answer : list HostCall → A) (record : A → HostCall) : RTM A :=
  a ← gets (λ s, answer s.(rt_trace)); _ ← emit (record a); mret a.

Definition startUnit (unit : string) (props : list Property) : RTM (option string) :=
  ask (λ h, host.(h_start) h unit) (HStart unit props).
Definition stopUnit (unit : string) : RTM (option string) := ask (λ h, host.(h_stop) h unit) (HStop unit).
Definition resetUnit (unit : string) : RTM (option string) := ask (λ h, host.(h_reset) h unit) (HReset unit).

Definition fifoDir (podUID containerName : string) : string :=
  pathJoin ["/run/perigeos/userns"; podUID +:+ "-" +:+ containerName].

(** [prepareUserIdentity] is in [UserNS.v]; [ensureGetentShim] only writes a
    script. Neither calls the services of the host. *)
Definition runMachine (podUID : string) (cfg : PodConfig) (netNSPath : string) : RTM () :=
  let containerName := containerName_of cfg in
  let serviceName := wrapperUnitName pawnName podUID containerName in
  let machine := machineName podUID containerName in
  let dir := fifoDir podUID containerName in
  shim ← gets (λ s, host.(h_shimExists) s.(rt_trace));
  let wantUserNS := match cfg.(cfg_RunAsUser) with Some _ => negb cfg.(cfg_Privileged) && shim | None => false end in
  userns ← (if wantUserNS
            then err ← ask (λ h, host.(h_fifo) h dir) (HFifoSetup dir);
                 mret (match err with None => Some dir | Some _ => None end)
            else mret None);
  slavePath ← (if cfg.(cfg_Container).(c_Stdin)
               then pty ← ask (λ h, host.(h_openPTY) h machine) (HOpenPTY machine);
                    match pty with
                    | inl err => throw (ErrOpenPTY err)
                    | inr slave =>
                        _ ← modifyS (λ s, {| s with attachPTYs := {[machine]} ∪ s.(attachPTYs) |});
                        mret (Some slave)
                    end
               else mret None);
  let properties := machineProperties pawnName podUID cfg (execStart pawnName podUID cfg netNSPath userns) slavePath in
  _ ← resetUnit serviceName;
  _ ← emit (HCleanExport machine);
  ok ← ask host.(h_acquire) HAcquire;
  if negb ok then throw ErrContext else
  err ← startUnit serviceName properties;
  _ ← match err with
      | None => mret tt
      | Some err =>
          _ ← modifyS (λ s, {| s with attachPTYs := s.(attachPTYs) ∖ {[machine]} |});
          _ ← whenM (bool_decide (is_Some userns)) (emit (HFifoCleanup dir));
          if contains err "already loaded" || contains err "fragment file" then
            _ ← stopUnit serviceName;
            _ ← resetUnit serviceName;
            _ ← emit (HSleep (200 * 1000000));
            retryErr ← startUnit serviceName properties;
            match retryErr with Some e => throw (ErrCreateUnitRetry e) | None => mret tt end
          else throw (ErrCreateUnit err)
      end;
  match userns, cfg.(cfg_RunAsUser) with
  | Some dir, Some targetUID => emit (HUserNS dir machine targetUID (default 0%Z cfg.(cfg_RunAsGroup)))
  | _, _ => mret tt
  end.

(** *** Host-PID workloads (program.go) *)

Definition bindsAPIVFS (mounts : list BindMount) : bool :=
  existsb (λ bm, bool_decide (bm.(bm_ContainerPath) ∈ ["/proc"; "/sys"; "/dev"])) mounts.

Definition bindProps (name : string) (l : list BindMount) : list Property :=
  match l with
  | [] => []
  | _ => [(name, VBinds (map (λ bm, (bm.(bm_HostPath), bm.(bm_ContainerPath))) l))]
  end.

Definition programProperties (podUID : string) (cfg : PodConfig) : list Property :=
  let allEnv := cfg.(cfg_Environment) ++ ["PERIGEOS_PAWN=" +:+ pawnName; "PERIGEOS_UID=" +:+ podUID] ++ metaEnv podUID cfg in
  let sorted := sortedBinds cfg.(cfg_BindMounts) in
  [("Description", VStr ("Pod " +:+ podUID)); ("Slice", VStr (sliceName pawnName));
   ("ExecStart", VStrs (programCommand cfg)); ("SyslogIdentifier", VStr cfg.(cfg_Container).(c_Name));
   ("Delegate", VBool true); ("KillMode", VStr "mixed"); ("RootDirectory", VStr cfg.(cfg_RootFS));
   ("MountAPIVFS", VBool (bindsAPIVFS cfg.(cfg_BindMounts))); ("Environment", VStrs allEnv)] ++
  match cfg.(cfg_RunAsUser) with Some u => [("User", VStr (pretty u))] | None => [] end ++
  match cfg.(cfg_RunAsGroup) with Some g => [("Group", VStr (pretty g))] | None => [] end ++
  (if negb cfg.(cfg_Privileged) && negb cfg.(cfg_HostNetwork)
   then [("NoNewPrivileges", VBool true); ("ProtectKernelTunables", VBool true); ("ProtectKernelModules", VBool true);
         ("PrivateDevices", VBool true); ("LockPersonality", VBool true)] else []) ++
  BuildSystemdProperties (buildPodResources cfg) ++
  bindProps "BindPaths" (filter (λ bm, bm.(bm_ReadOnly) = false) sorted) ++
  bindProps "BindReadOnlyPaths" (filter (λ bm, bm.(bm_ReadOnly) = true) sorted).

Definition runProgram (podUID : string) (cfg : PodConfig) : RTM () :=
  err ← startUnit (wrapperUnitName pawnName podUID (containerName_of cfg)) (programProperties podUID cfg);
  match err with Some e => throw (ErrCreateUnit e) | None => mret tt end.

Definition netNSPath_of (cfg : PodConfig) : option string :=
  if cfg.(cfg_HostNetwork)
  then Some (if decide (cfg.(cfg_NetNSPath) = "") then "/proc/1/ns/net" else cfg.(cfg_NetNSPath))
  else if decide (cfg.(cfg_NetNSPath) = "") then None else Some cfg.(cfg_NetNSPath).

Definition RunMachine (podUID : string) (cfg : PodConfig) : RTM () :=
  match netNSPath_of cfg with
  | None => throw ErrNetNSRequired
  | Some netNSPath => if cfg.(cfg_HostPID) then runProgram podUID cfg else runMachine podUID cfg netNSPath
  end.

(** *** Stopping *)

Definition StopMachine (podUID containerName : string) : RTM () :=
  let wrapperUnit := wrapperUnitName pawnName podUID containerName in
  let machine := machineName podUID containerName in
  _ ← modifyS (λ s, {| s with attachPTYs := s.(attachPTYs) ∖ {[machine]} |});
  err ← stopUnit wrapperUnit;
  match err with
  | Some e => if contains e "not loaded" then mret tt else throw (ErrStopUnit e)
  | None =>
      stopped ← ask (λ h, host.(h_stopDone) h wrapperUnit) (HStopWait wrapperUnit);
      if negb stopped then throw ErrContext else
      _ ← resetUnit wrapperUnit;
      emit (HCleanExport machine)
  end.

Definition ResetUnit (podUID containerName : string) : RTM (option string) :=
  resetUnit (wrapperUnitName pawnName podUID containerName).
End Runtime.

(** ** Status *)

(** [MachineStatus], from the [ActiveState] property ([None]: the call failed)
    and [readExitCode]. *)
Definition MachineStatus (activeState : option string) (exitCode : Z) : MachineState :=
  match activeState with
  | None => StateUnknown
  | Some state =>
      match mapActiveState state with
      | StateExited => if decide (exitCode ≠ 0%Z) then StateFailed else StateExited
      | st => st
      end
  end.

(** The units that [CleanupStaleUnits] resets; [reset] tells which calls
    succeed. *)
Definition staleUnit (activeUIDs : gset string) (reset : string → bool) (unit : Unit) : option string :=
  if bool_decide (unit.(u_ActiveState) = "active") || bool_decide (unit.(u_ActiveState) = "activating") then None else
  let uid := env_get unit.(u_Env) "PERIGEOS_META_UID" in
  if bool_decide (uid = "") then None
  else if bool_decide (uid ∈ activeUIDs) then None
  else if reset unit.(u_Name) then Some unit.(u_Name) else None.

Definition CleanupStaleUnits (units : option (list Unit)) (activeUIDs : gset string) (reset : string → bool)
    : option (list string) :=
  match units with Some units => Some (omap (staleUnit activeUIDs reset) units) | None => None end.

(** ** Waiting for an init container *)

Definition startGrace : Duration := 5 * Second.

(** What the [select] of [WaitForMachineExit] receives. *)
Inductive WaitInput := WDone | WSub (subState : string) | WTick.

(** The environment of the [n]-th round: the input, the status, and the clock
    readings of [checkState] and of the deadline test. *)
Record WaitRound := { wr_input : WaitInput; wr_status : MachineState; wr_check : Time; wr_now : Time }.

Inductive WaitErr := WaitContext | WaitTimeout.

(** [checkState]: the new [started], and the state unless it is [""]. *)
Definition checkState (startDeadline : Time) (started : bool) (status : MachineState) (now : Time)
    : bool * option MachineState :=
  match status with
  | StateRunning | StateCreating => (true, None)
  | StateFailed => (started, Some StateFailed)
  | StateExited => if started || (startDeadline <? now)%Z then (started, Some StateExited) else (started, None)
  | StateUnknown | StateZero => (started, None)
  end.

(** The sub-states that only mark the unit as started. *)
Definition startedSubStates : list string := ["running"; "start-pre"; "start"; "start-post"].

(** [None] is the end of the rounds given. *)
Fixpoint wait_loop (deadline startDeadline : Time) (rounds : list WaitRound) (started : bool)
    : option (WaitErr + MachineState) :=
  match rounds with
  | [] => None
  | r :: rounds =>
      let check :=
        let '(started, st) := checkState startDeadline started r.(wr_status) r.(wr_check) in
        match st with
        | Some st => Some (inr st)
        | None => if (deadline <? r.(wr_now))%Z then Some (inl WaitTimeout)
                  else wait_loop deadline startDeadline rounds started
        end in
      match r.(wr_input) with
      | WDone => Some (inl WaitContext)
      | WTick => check
      | WSub sub =>
          if decide (sub ∈ startedSubStates) then wait_loop deadline startDeadline rounds true
          else if decide (sub = "failed") then Some (inr StateFailed)
          else check
      end
  end.

(** [t0] and [t1] are the readings that give the two deadlines; the first
    check happens before the loop. *)
Definition WaitForMachineExit (timeout : Duration) (t0 t1 : Time) (first : WaitRound) (rounds : list WaitRound)
    : option (WaitErr + MachineState) :=
  let deadline := (t0 + timeout)%Z in
  let startDeadline := (t1 + startGrace)%Z in
  let '(started, st) := checkState startDeadline false first.(wr_status) first.(wr_check) in
  match st with
  | Some st => Some (inr st)
  | None => wait_loop deadline startDeadline rounds started
  end.

(** ** Lemmas *)

(** No [$$], and no dollar sign before a byte outside ASCII. *)
Fixpoint okDollars (s : string) : Prop :=
  match s with
  | String c s' =>
      (c = "$"%char → match s' with String d _ => d ≠ "$"%char ∧ (N_of_ascii d < 128)%N | EmptyString => True end) ∧
      okDollars s'
  | EmptyString => True
  end.

Lemma okDollars_app a b : okDollars (a +:+ b) → okDollars b.
Proof. induction a as [|c a IH]; [done|]. cbn. tauto. Qed.

Lemma sdrop_pre (pre s : string) n : sdrop (len pre + n) (pre +:+ s) = sdrop n s.
Proof. by rewrite <- sdrop_sdrop, sdrop_app. Qed.

Lemma at_pre (pre s : string) n : at_ (pre +:+ s) (len pre + n) = at_ s n.
Proof. unfold at_. induction pre as [|c pre IH]; [done|]. cbn. done. Qed.

(** One round of the loop copies a byte, unless a closed reference starts. *)
Lemma substitute_char pre c s env fuel buf :
  (c = "$"%char → at_ s 0 = Some "("%char → free ")" (sdrop 1 s)) →
  substitute_loop (pre +:+ String c s) env (S fuel) (len pre) buf =
  substitute_loop ((pre +:+ String c "") +:+ s) env fuel (len (pre +:+ String c "")) (buf +:+ String c "").
Proof.
  intros H. cbn [substitute_loop]. rewrite !length_app. cbn [String.length].
  rewrite (proj2 (Nat.ltb_lt (len pre) _)) by lia.
  pose proof (at_pre pre (String c s) 0) as Hat. rewrite Nat.add_0_r in Hat. rewrite Hat. cbn [at_ String.get mbind option_bind].
  rewrite at_pre, sdrop_pre. change (at_ (String c s) 1) with (at_ s 0). change (sdrop 2 (String c s)) with (sdrop 1 s).
  assert ((if bool_decide (c = "$"%char) && (len pre + 1 <? len pre + S (len s)) && bool_decide (at_ s 0 = Some "("%char)
           then index_byte (sdrop 1 s) ")" else None) = None) as ->.
  { destruct (_ && _ && _) eqn:Hb; [|done]. apply andb_true_iff in Hb as [[Hc _]%andb_true_iff Hn].
    apply bool_decide_eq_true in Hc, Hn. by apply H. }
  rewrite <- app_assoc. cbn. by rewrite Nat.add_1_r.
Qed.

(** A closed reference is replaced. *)
Lemma substitute_ref pre name s env fuel buf :
  free ")" name →
  substitute_loop (pre +:+ "$(" +:+ name +:+ ")" +:+ s) env (S fuel) (len pre) buf =
  substitute_loop ((pre +:+ "$(" +:+ name +:+ ")") +:+ s) env fuel (len (pre +:+ "$(" +:+ name +:+ ")"))
    (buf +:+ default (syntaxWrap name) (env !! name)).
Proof.
  intros Hf. set (r := name +:+ ")" +:+ s).
  assert (slice (pre +:+ "$(" +:+ r) (len pre + 2) (len pre + 2 + len name) = Some name) as Hvar.
  { unfold r. rewrite (app_assoc pre). apply slice_mid_at; rewrite length_app; cbn; lia. }
  assert (slice (pre +:+ "$(" +:+ r) (len pre) (len pre + 2 + len name + 1) = Some (syntaxWrap name)) as Hwhole.
  { replace ("$(" +:+ r) with (syntaxWrap name +:+ s) by (unfold r, syntaxWrap; by rewrite <- !app_assoc).
    apply slice_mid_at; [done|]. unfold syntaxWrap. rewrite !length_app. cbn. lia. }
  cbn [substitute_loop]. rewrite (proj2 (Nat.ltb_lt (len pre) _)) by (rewrite length_app; cbn; lia).
  pose proof (at_pre pre ("$(" +:+ r) 0) as Hat. rewrite Nat.add_0_r in Hat. rewrite Hat.
  change (at_ ("$(" +:+ r) 0) with (Some "$"%char). cbn [mbind option_bind].
  rewrite at_pre, sdrop_pre. change (at_ ("$(" +:+ r) 1) with (Some "("%char). change (sdrop 2 ("$(" +:+ r)) with r.
  rewrite (proj2 (Nat.ltb_lt (len pre + 1) _)) by (rewrite length_app; cbn; lia).
  rewrite !bool_decide_true by done. cbn [andb].
  change r with (name +:+ String ")" s) at 1. rewrite index_byte_app by done. rewrite Hvar. cbn [mbind option_bind].
  rewrite Hwhole. cbn [mbind option_bind]. unfold r. rewrite !length_app. cbn [String.length]. rewrite <- !app_assoc.
  f_equal; lia.
Qed.

Lemma free_app b s t : free b (s +:+ t) → free b t.
Proof.
  unfold free. induction s as [|c s IH]; [done|]. cbn. case_decide; [done|]. intros Hn%fmap_None. by apply IH.
Qed.

(** The loop computes the expansion of the rest of the text. *)
Lemma substitute_loop_spec env s t :
  ExpandsBy string_of_byte (λ x, default (syntaxWrap x) (env !! x)) s t → okDollars s →
  ∀ pre fuel buf, len s < fuel → substitute_loop (pre +:+ s) env fuel (len pre) buf = Some (buf +:+ t).
Proof.
  induction 1 as [| |c s t Hc _ IH|s t _ IH|name s t Hf _ IH|s t Hf _ IH|c s t Hc Ho _ IH];
    intros Hok pre [|fuel] buf Hlen; cbn in Hlen; try lia.
  - cbn [substitute_loop]. by rewrite app_nil_r, Nat.ltb_irrefl, app_nil_r.
  - destruct fuel as [|fuel]; [lia|]. rewrite (substitute_char pre "$" "") by done. cbn [substitute_loop].
    by rewrite app_nil_r, Nat.ltb_irrefl.
  - rewrite substitute_char by (by intros ->). rewrite IH by (cbn in Hok; tauto || lia). by rewrite <- app_assoc.
  - cbn in Hok. destruct Hok as [Hd _]. by destruct (Hd eq_refl).
  - rewrite substitute_ref by done. rewrite !length_app in Hlen. cbn in Hlen.
    rewrite IH; [by rewrite <- app_assoc|by apply (okDollars_app "$("), okDollars_app, (okDollars_app ")") in Hok|lia].
  - destruct fuel as [|fuel]; [lia|]. change ("$(" +:+ s) with (String "$" (String "(" s)).
    rewrite substitute_char by done. rewrite substitute_char by done.
    rewrite IH by (cbn in Hok; tauto || lia). by rewrite <- !app_assoc.
  - destruct fuel as [|fuel]; [lia|]. change ("$" +:+ String c s) with (String "$" (String c s)).
    rewrite substitute_char by (intros _ [= ->]; by destruct Ho). rewrite substitute_char by (by intros ->).
    assert (string_of_byte c = String c "") as ->.
    { unfold string_of_byte. cbn in Hok. destruct Hok as [Hd _]. destruct (Hd eq_refl) as [_ Hlt].
      by apply N.ltb_lt in Hlt as ->. }
    rewrite IH by (cbn in Hok; tauto || lia). by rewrite <- !app_assoc.
Qed.

Lemma index_tail c s sub : index (String c s) sub = None → index s sub = None.
Proof. rewrite index_cons. destruct (String.prefix sub (String c s)); [done|]. by intros H%fmap_None. Qed.

(** Without a reference nothing changes. *)
Lemma no_reference m s t : ExpandsBy string_of_byte m s t → okDollars s → index s "$(" = None → t = s.
Proof.
  induction 1 as [| |c s t Hc _ IH|s t _ IH|name s t Hf _ IH|s t Hf _ IH|c s t Hc Ho _ IH]; intros Hok Hidx; try done.
  - f_equal. apply IH; [cbn in Hok; tauto|by apply index_tail in Hidx].
  - cbn in Hok. destruct Hok as [Hd _]. by destruct (Hd eq_refl).
  - by rewrite index_prefix in Hidx by apply prefix_app.
  - by rewrite index_prefix in Hidx by apply prefix_app.
  - cbn in Hok. destruct Hok as (Hd & _ & Hok). destruct (Hd eq_refl) as [_ Hlt].
    unfold string_of_byte. apply N.ltb_lt in Hlt as ->. cbn. do 2 f_equal.
    apply IH; [done|]. by apply (index_tail "$"), (index_tail c) in Hidx.
Qed.

(** The map that a list of entries with the right keys gives. *)
Lemma cutEntries_app l l' k :
  cutEntries (l ++ l') !! k =
  match cutEntries l' !! k with Some v => Some v | None => cutEntries l !! k end.
Proof.
  unfold cutEntries. rewrite foldl_app. generalize (foldl cutEntry ∅ l) as m0.
  induction l' as [|kv l' IH] using rev_ind; intros m0; [cbn [foldl]; by rewrite lookup_empty|].
  rewrite !foldl_snoc. unfold cutEntry at 1 3. destruct (index_byte kv "=") as [i|]; [|apply IH].
  destruct (decide (stake i kv = k)) as [->|]; [by rewrite !lookup_insert_eq|]. by rewrite !lookup_insert_ne.
Qed.

Lemma cutEntries_one k v l : free "=" k →
  cutEntries ((k +:+ "=" +:+ v) :: l) = cutEntries l ∪ {[k := v]}.
Proof.
  intros Hf. apply map_eq. intros k'. rewrite lookup_union.
  change ((k +:+ "=" +:+ v) :: l) with ([k +:+ "=" +:+ v] ++ l). rewrite cutEntries_app.
  assert (cutEntries [k +:+ "=" +:+ v] = {[k := v]}) as ->.
  { unfold cutEntries. cbn [foldl]. unfold cutEntry. change ("=" +:+ v) with (String "=" v). rewrite index_byte_app by done.
    rewrite stake_app. replace (len k + 1) with (len k + 1 + 0) by lia. rewrite <- Nat.add_assoc, sdrop_pre. done. }
  by destruct (cutEntries l !! k'), ({[k := v]} !! k').
Qed.

Lemma metaEnv_map podUID cfg :
  cutEntries (metaEnv podUID cfg) =
  {[ "PERIGEOS_META_UID" := podUID; "PERIGEOS_META_NAME" := cfg.(cfg_Name);
     "PERIGEOS_META_NAMESPACE" := cfg.(cfg_Namespace); "PERIGEOS_META_NODENAME" := cfg.(cfg_PawnName);
     "PERIGEOS_META_IP" := cfg.(cfg_PodIP); "PERIGEOS_META_CONTAINER" := containerName_of cfg ]}.
Proof.
  change (metaEnv podUID cfg) with
    ["PERIGEOS_META_UID" +:+ "=" +:+ podUID; "PERIGEOS_META_NAME" +:+ "=" +:+ cfg.(cfg_Name);
     "PERIGEOS_META_NAMESPACE" +:+ "=" +:+ cfg.(cfg_Namespace); "PERIGEOS_META_NODENAME" +:+ "=" +:+ cfg.(cfg_PawnName);
     "PERIGEOS_META_IP" +:+ "=" +:+ cfg.(cfg_PodIP); "PERIGEOS_META_CONTAINER" +:+ "=" +:+ containerName_of cfg].
  rewrite (cutEntries_one "PERIGEOS_META_UID"), (cutEntries_one "PERIGEOS_META_NAME"),
    (cutEntries_one "PERIGEOS_META_NAMESPACE"), (cutEntries_one "PERIGEOS_META_NODENAME"),
    (cutEntries_one "PERIGEOS_META_IP"), (cutEntries_one "PERIGEOS_META_CONTAINER") by done.
  apply map_eq. intros k. rewrite !lookup_union, !lookup_insert, !lookup_singleton.
  unfold cutEntries. cbn [foldl]. rewrite lookup_empty. repeat case_decide; subst; try done.
Qed.

(** The value of a property of a unit. *)
Definition lookupProp (name : string) (props : list Property) : option PropValue :=
  snd <$> find (λ p, bool_decide (p.1 = name)) props.

(** What a round tells about the unit. *)
Definition seenStarted (r : WaitRound) : Prop :=
  r.(wr_status) = StateRunning ∨ r.(wr_status) = StateCreating ∨
  ∃ sub, r.(wr_input) = WSub sub ∧ sub ∈ startedSubStates.

Definition seenFailed (r : WaitRound) : Prop := r.(wr_status) = StateFailed ∨ r.(wr_input) = WSub "failed".

Lemma checkState_sound sd started r started' st :
  checkState sd started r.(wr_status) r.(wr_check) = (started', st) →
  (started' = true → started = true ∨ seenStarted r) ∧
  (st = Some StateExited → started = true ∨ r.(wr_status) = StateExited ∧ (sd < r.(wr_check))%Z) ∧
  (st = Some StateFailed → r.(wr_status) = StateFailed) ∧
  (st = None ∨ st = Some StateExited ∨ st = Some StateFailed).
Proof.
  unfold checkState, seenStarted. destruct (started || (sd <? wr_check r)%Z) eqn:Hor;
    [apply orb_true_iff in Hor; rewrite Z.ltb_lt in Hor|];
    destruct (wr_status r) eqn:Hs; intros [= <- <-]; naive_solver.
Qed.

Lemma wait_loop_sound deadline sd rounds started st :
  wait_loop deadline sd rounds started = Some (inr st) →
  (st = StateExited ∧ (started = true ∨ Exists seenStarted rounds ∨
     Exists (λ r, r.(wr_status) = StateExited ∧ (sd < r.(wr_check))%Z) rounds)) ∨
  (st = StateFailed ∧ Exists seenFailed rounds).
Proof.
  revert started. induction rounds as [|r rounds IH]; intros started; cbn [wait_loop]; [done|].
  destruct (checkState sd started (wr_status r) (wr_check r)) as [started' st'] eqn:Hc.
  destruct (checkState_sound _ _ _ _ _ Hc) as (H1 & H2 & H3 & H4).
  assert (match st' with Some st => Some (inr st) | None => if (deadline <? wr_now r)%Z then Some (inl WaitTimeout)
    else wait_loop deadline sd rounds started' end = Some (inr st) →
    (st = StateExited ∧ (started = true ∨ Exists seenStarted (r :: rounds) ∨
       Exists (λ r, r.(wr_status) = StateExited ∧ (sd < r.(wr_check))%Z) (r :: rounds))) ∨
    (st = StateFailed ∧ Exists seenFailed (r :: rounds))) as Hcheck.
  { rewrite !Exists_cons. unfold seenFailed at 1. destruct H4 as [->|[->| ->]]; [|intros [= <-]; naive_solver..].
    destruct (deadline <? _)%Z; [done|]. intros Hl. destruct (IH _ Hl); naive_solver. }
  destruct (wr_input r) as [|sub|] eqn:Hin; [done| |exact Hcheck].
  case_decide as Hsub; [|case_decide; subst; [|exact Hcheck]].
  - intros Hl. assert (seenStarted r) by (unfold seenStarted; eauto). rewrite !Exists_cons. destruct (IH _ Hl); naive_solver.
  - intros [= <-]. right. split; [done|]. rewrite Exists_cons. left. by right.
Qed.

(** A round that does not only mark the unit as started. *)
Definition decides (r : WaitRound) : Prop := ∀ sub, r.(wr_input) = WSub sub → sub ∉ startedSubStates.

Lemma wait_loop_terminates deadline sd rounds started :
  Exists (λ r, decides r ∧ (deadline < r.(wr_now))%Z) rounds → is_Some (wait_loop deadline sd rounds started).
Proof.
  intros H. revert started. induction H as [r rounds [Hd Hlt]|r rounds _ IH]; intros started; cbn [wait_loop];
    destruct (checkState _ _ _ _) as [started' [st'|]].
  - destruct (wr_input r) as [|sub|] eqn:Hin; [done| |done]. rewrite decide_False by by apply Hd. by case_decide.
  - apply Z.ltb_lt in Hlt as ->. destruct (wr_input r) as [|sub|] eqn:Hin; [done| |done].
    rewrite decide_False by by apply Hd. by case_decide.
  - destruct (wr_input r) as [|sub|]; [done| |done]. case_decide; [apply IH|]. by case_decide.
  - destruct (wr_input r) as [|sub|]; [done| |]; repeat case_decide; try done; try apply IH;
      destruct (deadline <? _)%Z; done || apply IH.
Qed.

(** ** Properties *)

(** What is written into a unit is read back: from the environment that
    [RunMachine] or [runProgram] gives a unit, whatever variables the
    container itself sets, [ListManagedMachines] recovers the pod's UID, name,
    namespace, address and the container's name. *)
Theorem machine_metadata_roundtrip pawn podUID cfg exec slave entries unit :
  podUID ≠ "" →
  lookupProp "Environment" (machineProperties pawn podUID cfg exec slave) = Some (VStrs entries) ∨
  lookupProp "Environment" (programProperties pawn podUID cfg) = Some (VStrs entries) →
  unit.(u_Env) = readUnitEnv (Some entries) →
  ∃ m, ListManagedMachines pawn (Some [unit]) = Some [m] ∧
    m.(pm_UID) = podUID ∧ m.(pm_Name) = cfg.(cfg_Name) ∧ m.(pm_Namespace) = cfg.(cfg_Namespace) ∧
    m.(pm_NodeName) = cfg.(cfg_PawnName) ∧ m.(pm_PodIP) = cfg.(cfg_PodIP) ∧ m.(pm_ContainerName) = containerName_of cfg.
Proof.
  intros Huid Hprop Hunit. eexists. split; [reflexivity|].
  assert (∃ before, entries = before ++ metaEnv podUID cfg) as [before ->].
  { destruct Hprop as [[= <-]|[= <-]]; [by exists []|].
    exists (cfg_Environment cfg ++ ["PERIGEOS_PAWN=" +:+ pawn; "PERIGEOS_UID=" +:+ podUID]).
    by rewrite <- List.app_assoc. }
  cbn [pm_UID pm_Name pm_Namespace pm_NodeName pm_PodIP pm_ContainerName]. rewrite Hunit. unfold env_get.
  cbn [readUnitEnv]. rewrite !cutEntries_app, metaEnv_map. cbn. rewrite bool_decide_false by done. done.
Qed.

(** An init container is never taken for finished before it has started:
    the wait reports it exited only when a status or an event has shown it
    started, or when it is inactive after the five seconds of grace; it
    reports a failure only when systemd does. *)
Theorem wait_exit_sound timeout t0 t1 first rounds st :
  WaitForMachineExit timeout t0 t1 first rounds = Some (inr st) →
  (st = StateExited ∧ (Exists seenStarted (first :: rounds) ∨
     Exists (λ r, r.(wr_status) = StateExited ∧ (t1 + startGrace < r.(wr_check))%Z) (first :: rounds))) ∨
  (st = StateFailed ∧ Exists seenFailed (first :: rounds)).
Proof.
  unfold WaitForMachineExit. destruct (checkState _ _ _ _) as [started st'] eqn:Hc.
  destruct (checkState_sound _ _ _ _ _ Hc) as (H1 & H2 & H3 & H4). rewrite !Exists_cons. unfold seenFailed at 1.
  destruct H4 as [->|[->| ->]]; [|intros [= <-]; naive_solver..].
  intros Hl. destruct (wait_loop_sound _ _ _ _ _ Hl); naive_solver.
Qed.

(** The wait ends: once the select delivers a tick, or an event that does
    not only report the start, after the deadline, the wait has returned. *)
Theorem wait_exit_terminates timeout t0 t1 first rounds :
  Exists (λ r, decides r ∧ (t0 + timeout < r.(wr_now))%Z) rounds →
  is_Some (WaitForMachineExit timeout t0 t1 first rounds).
Proof.
  intros H. unfold WaitForMachineExit. destruct (checkState _ _ _ _) as [started [st|]]; [done|].
  by apply wait_loop_terminates.
Qed.

(** The substitution in command lines agrees with the expansion of
    environment values on every text without an escaped dollar sign (and
    without a dollar sign before a byte outside ASCII); in particular it never
    fails there, and unknown and unclosed references stay. *)
Theorem substitute_agrees s env :
  okDollars s → substituteEnvVars s env = Expand s (λ x, default (syntaxWrap x) (env !! x)).
Proof.
  intros Hok. destruct (Expands_total string_of_byte (λ x, default (syntaxWrap x) (env !! x)) s) as [t Ht].
  rewrite (Expand_computes _ _ _ Ht). unfold substituteEnvVars. destruct (index s "$(") as [i|] eqn:Hi.
  - by apply (substitute_loop_spec env s t Ht Hok "" (len s + 1) ""); lia.
  - by rewrite (no_reference _ _ _ Ht).
Qed.

(** ** Examples *)

Definition exCfg : PodConfig := {|
  cfg_Name := "web"; cfg_Namespace := "default"; cfg_UID := "u1"; cfg_ContainerName := "main";
  cfg_Container := {| zeroContainer with c_Name := "main"; c_Stdin := true |}; cfg_PawnName := "pawn";
  cfg_RootFS := "/rootfs"; cfg_BindMounts := []; cfg_NetNSPath := "/var/run/netns/peri-u1"; cfg_HostNetwork := false;
  cfg_Privileged := false; cfg_HostPID := false; cfg_RunAsUser := None; cfg_RunAsGroup := None;
  cfg_Environment := ["PERIGEOS_META_UID=spoofed"]; cfg_PodIP := "10.1.2.3"; cfg_MemoryLimitBytes := 0; cfg_SwapLimitBytes := 0;
  cfg_CPULimitMillis := 0; cfg_CPURequestMillis := 0; cfg_OOMScoreAdjust := 1000; cfg_ImageEntrypoint := ["/entry"];
  cfg_ImageCmd := ["serve"]; cfg_TerminationGracePeriodSeconds := 30 |}.

Lemma machine_metadata_roundtrip_witness :
  let entries := ["PERIGEOS_META_UID=spoofed"; "PERIGEOS_PAWN=pawn"; "PERIGEOS_UID=u1"] ++ metaEnv "u1" exCfg in
  let unit := {| u_Name := "perigeos-pawn-pod-u1-main.service"; u_ActiveState := "active"; u_ExecMainStatus := 0;
                 u_Env := readUnitEnv (Some entries) |} in
  ∃ m, ListManagedMachines "pawn" (Some [unit]) = Some [m] ∧
    m.(pm_UID) = "u1" ∧ m.(pm_Name) = "web" ∧ m.(pm_Namespace) = "default" ∧
    m.(pm_NodeName) = "pawn" ∧ m.(pm_PodIP) = "10.1.2.3" ∧ m.(pm_ContainerName) = "main".
Proof.
  refine (machine_metadata_roundtrip "pawn" "u1" exCfg [] None _ {| u_Name := _; u_ActiveState := _;
    u_ExecMainStatus := _; u_Env := _ |} _ (or_intror _) _); [discriminate|reflexivity|reflexivity].
Defined.

Definition round (i : WaitInput) (st : MachineState) (t : Time) : WaitRound :=
  {| wr_input := i; wr_status := st; wr_check := t; wr_now := t |}.

Lemma wait_exit_sound_witness :
  Exists seenStarted [round WTick StateExited 1; round (WSub "running") StateExited 2; round (WSub "dead") StateExited 3] ∨
  Exists (λ r, r.(wr_status) = StateExited ∧ (0 + startGrace < r.(wr_check))%Z)
    [round WTick StateExited 1; round (WSub "running") StateExited 2; round (WSub "dead") StateExited 3].
Proof.
  destruct (wait_exit_sound (10 * Minute) 0 0 (round WTick StateExited 1)
    [round (WSub "running") StateExited 2; round (WSub "dead") StateExited 3] StateExited eq_refl) as [[_ H]|[[=] _]].
  exact H.
Defined.

Lemma wait_exit_terminates_witness :
  is_Some (WaitForMachineExit Second 0 0 (round WTick StateRunning 0)
    [round (WSub "running") StateRunning 1; round WTick StateRunning (2 * Second)]).
Proof.
  apply (wait_exit_terminates Second 0 0 (round WTick StateRunning 0)
    [round (WSub "running") StateRunning 1; round WTick StateRunning (2 * Second)]).
  apply Exists_cons_tl, Exists_cons_hd. split; [by intros sub [=]|]. vm_compute. reflexivity.
Defined.

Definition exEnv : gmap string string := {[ "A" := "1"; "HOME" := "/root" ]}.

Lemma substitute_agrees_witness :
  substituteEnvVars "$(A)-$(B)-$" exEnv = Expand "$(A)-$(B)-$" (λ x, default (syntaxWrap x) (exEnv !! x)) ∧
  substituteEnvVars "$(A)-$(B)-$" exEnv = Some "1-$(B)-$".
Proof.
  split; [|vm_compute; reflexivity].
  apply (substitute_agrees "$(A)-$(B)-$" exEnv). vm_compute. repeat split; intros; discriminate.
Defined.

(** Defect: an escaped reference in a command line is expanded, and its escape
    kept as text. *)
Theorem substitute_ignores_escape :
  substituteEnvVars "$$(HOME)" exEnv = Some "$/root" ∧
  Expand "$$(HOME)" (λ x, default (syntaxWrap x) (exEnv !! x)) = Some "$(HOME)".
Proof. vm_compute. done. Qed.

(** Defect: a host-PID container without a command runs [sleep infinity]
    instead of the entry point of its image. *)
Theorem program_ignores_entrypoint :
  machineCommand exCfg = ["/entry"; "serve"] ∧ programCommand exCfg = ["/bin/sleep"; "infinity"].
Proof. vm_compute. done. Qed.

(** Defect: when the start is retried because a stale unit was still loaded, the
    PTY of an interactive container has already been closed: the machine runs
    on it, and nothing can attach. *)
Theorem retried_start_loses_pty :
  let host := {| h_start := λ h _, if existsb (λ c, match c with HStop _ _ => true | _ => false end) h
                                    then None else Some "Unit was already loaded or has a fragment file.";
                 h_stop := λ _ _, None; h_stopDone := λ _ _, true; h_reset := λ _ _, None;
                 h_shimExists := λ _, false; h_fifo := λ _ _, None; h_openPTY := λ _ _, inr "/dev/pts/7";
                 h_acquire := λ _, true |} in
  let '(s, r) := RunMachine host "pawn" "u1" exCfg {| attachPTYs := ∅; rt_trace := [] |} in
  r = inr tt ∧ bool_decide (s.(attachPTYs) = ∅) = true ∧
  existsb (λ c, match c with
    | HStart _ props None =>
        match lookupProp "StandardInputFile" props with Some (VStr p) => bool_decide (p = "/dev/pts/7") | _ => false end
    | _ => false
    end) s.(rt_trace) = true.
Proof. vm_compute. done. Qed.
