(* ===== verification/Exec.v ===== *)
(** * Processes in containers (internal/runtime/systemd/exec.go, and of runtime.go
    attaching and shared mounts, and portforward.go)

    A command runs in a container by entering the namespaces of its first
    process, whose PID is asked from machined, or found as the first child of
    the supervisor. [EEnv] answers the calls; a D-Bus value of another type is
    [None] like an error. The streams are not modelled: a command is its
    arguments and how it ended. *)
From stdpp Require Import pretty.
From S2P Require Import Prelude Monad Trace Text UnitNames Runtime.
Import Str.

(** How a process ended: an exit code, a signal, or it could not be run. *)
Inductive ProcErr := ExitCode (code : Z) | Signaled (sig : Z) | NotRun.
#[export] Instance ProcErr_eq_dec : EqDecision ProcErr.
Proof. solve_decision. Defined.

(** [exitErr.ExitCode()] is -1 for signals. *)
Definition exitCode (e : ProcErr) : Z := match e with ExitCode c => c | _ => -1 end.

Inductive EErr :=
  | ErrMachine (name : string)
  | ErrLeader (name : string)
  | ErrSupervisor (name : string)
  | ErrMainPID (unit : string)
  | ErrChildren (pid : Z)
  | ErrParsePID (field : string)
  | ErrNoChildren (pid : Z)
  | ErrSpin
  | ErrHostMount (path : string)
  | ErrContainerMount (path : string)
  | CodeExitError (code : Z)
  | ErrRun (e : ProcErr).

(** [syscall] results of making a mount shared. *)
Inductive MountAns := MountOk | MountEINVAL | MountFailed.

Inductive EAct :=
  | EGetMachine (name : string) (path : option string)
  | ELeaderProp (path : string) (pid : option Z)
  | EGetLeader (path : string) (pid : option Z)
  | ESupervisor (path : string) (pid : option Z)
  | EMainPID (unit : string) (pid : option Z)
  | EChildren (pid : Z) (data : option string)
  | ESleep (ms : Z)
  | ERun (tty : bool) (cmd : list string) (err : option ProcErr)
  | EShareHost (path : string) (ans : MountAns)
  | EEnter (pid : Z) (ok : bool)
  | EShareIn (path : string) (ans : MountAns)
  | ERelay (machine : string).

Record EEnv := {
  ee_machine : list EAct → string → option string;
  ee_leader : list EAct → string → option Z;
  ee_getLeader : list EAct → string → option Z;
  ee_supervisor : list EAct → string → option Z;
  ee_mainPID : list EAct → string → option Z;
  ee_children : list EAct → Z → option string;
  ee_now : list EAct → Z;
  ee_run : list EAct → list string → option ProcErr;
  ee_shareHost : list EAct → string → MountAns;
  ee_enter : list EAct → Z → bool;
  ee_shareIn : list EAct → string → MountAns;
}.

(** [strconv.Atoi] *)
Definition Atoi (s : string) : option Z :=
  let '(neg, body) := match s with
                      | String "-" s' => (true, s')
                      | String "+" s' => (false, s')
                      | _ => (false, s)
                      end in
  match ParseUint body with
  | inr n => if neg : bool then if (n <=? 2 ^ 63)%Z then Some (- n)%Z else None
             else if (n <? 2 ^ 63)%Z then Some n else None
  | inl _ => None
  end.

Definition envPath : list string := ["/usr/bin/env"; "PATH=/usr/local/sbin:/usr/local/bin:/usr/sbin:/usr/bin:/sbin:/bin"].

Definition nsenterArgs (pid : Z) (cmd : list string) : list string :=
  ["nsenter"; "--target=" +:+ pretty pid; "--mount"; "--uts"; "--ipc"; "--net"; "--pid"; "--cgroup";
   "--root=/proc/" +:+ pretty pid +:+ "/root"; "--wdns=/"; "--"] ++ envPath ++ cmd.

Definition programArgs (pid : Z) (cmd : list string) : list string :=
  ["nsenter"; "--target=" +:+ pretty pid; "--mount"; "--root=/proc/" +:+ pretty pid +:+ "/root"; "--wdns=/"; "--"]
  ++ envPath ++ cmd.

Definition machinectlArgs (machineName : string) (cmd : list string) : list string :=
  ["machinectl"; "shell"; "--quiet"; machineName] ++ match cmd with [] => ["/bin/sh"] | _ => cmd end.

Definition wrapExitError (err : option ProcErr) : option EErr :=
  match err with
  | None => None
  | Some NotRun => Some (ErrRun NotRun)
  | Some e => Some (CodeExitError (exitCode e))
  end.

Definition suppressSignalExit (err : option ProcErr) : option EErr :=
  match err with
  | None => None
  | Some (Signaled _) => None
  | Some (ExitCode c) => if bool_decide (c = 130%Z) || bool_decide (c = 131%Z) then None else Some (ErrRun (ExitCode c))
  | Some NotRun => Some (ErrRun NotRun)
  end.

Inductive ExecStrategy := ExecNsenter | ExecMachinectl.

Section Exec.
Context (env : EEnv) (pawnName : string).

Abbreviation EM := (SE (TState EAct ()) EErr).

(** ** The first process of a container *)

Definition getMachine (machineName : string) : EM string :=
  path ← callT (λ t, env.(ee_machine) t machineName) (EGetMachine machineName);
  match path with Some p => mret p | None => throw (ErrMachine machineName) end.

(** A PID that is there and not zero. *)
Definition nonZero (pid : option Z) : option Z := pid ≫= λ p, if (0 <? p)%Z then Some p else None.

Definition leaderPIDFromMachined (machineName : string) : EM Z :=
  path ← getMachine machineName;
  leader ← callT (λ t, env.(ee_leader) t path) (ELeaderProp path);
  match nonZero leader with
  | Some pid => mret pid
  | None =>
      leader ← callT (λ t, env.(ee_getLeader) t path) (EGetLeader path);
      match nonZero leader with Some pid => mret pid | None => throw (ErrLeader machineName) end
  end.

Definition supervisorPIDFromMachined (machineName : string) : EM Z :=
  path ← getMachine machineName;
  pid ← callT (λ t, env.(ee_supervisor) t path) (ESupervisor path);
  match nonZero pid with Some pid => mret pid | None => throw (ErrSupervisor machineName) end.

Definition getUnitMainPID (unitName : string) : EM Z :=
  pid ← callT (λ t, env.(ee_mainPID) t unitName) (EMainPID unitName);
  match nonZero pid with Some pid => mret pid | None => throw (ErrMainPID unitName) end.

Definition supervisorPIDFromUnit (machineName : string) : EM Z :=
  getUnitMainPID ("perigeos-" +:+ pawnName +:+ "-" +:+ machineName +:+ ".service").

(** One round per 100 ms, until the deadline. *)
Fixpoint children_loop (fuel : nat) (deadline : Z) (nspawnPID : Z) : EM Z :=
  match fuel with
  | O => throw ErrSpin
  | S fuel =>
      now ← askT env.(ee_now);
      if negb (now <? deadline)%Z then throw (ErrNoChildren nspawnPID) else
      data ← callT (λ t, env.(ee_children) t nspawnPID) (EChildren nspawnPID);
      match data with
      | None => throw (ErrChildren nspawnPID)
      | Some data =>
          match Fields data with
          | f :: _ => match Atoi f with Some pid => mret pid | None => throw (ErrParsePID f) end
          | [] => _ ← doT (ESleep 100); children_loop fuel deadline nspawnPID
          end
      end
  end.

Definition childRounds : nat := 21.

Definition leaderPIDFromSupervisor (machineName : string) : EM Z :=
  r ← try (supervisorPIDFromMachined machineName);
  nspawnPID ← match r with inr pid => mret pid | inl _ => supervisorPIDFromUnit machineName end;
  now ← askT env.(ee_now);
  children_loop childRounds (now + 2000)%Z nspawnPID.

Definition getMachineLeaderPID (machineName : string) : EM Z :=
  r ← try (leaderPIDFromMachined machineName);
  match r with inr pid => mret pid | inl _ => leaderPIDFromSupervisor machineName end.

(** ** Running commands *)

Definition orThrow (err : option EErr) : EM () := match err with None => mret tt | Some e => throw e end.

Definition runCmd (tty : bool) (cmd : list string) : EM (option ProcErr) :=
  callT (λ t, env.(ee_run) t cmd) (ERun tty cmd).

Definition runInProgramContainer (unitName : string) (cmd : list string) (tty : bool) : EM () :=
  pid ← getUnitMainPID unitName;
  err ← runCmd tty (programArgs pid cmd);
  orThrow (wrapExitError err).

Definition runInContainerNsenter (podUID containerName : string) (cmd : list string) (tty : bool) : EM () :=
  r ← try (getMachineLeaderPID (machineName podUID containerName));
  match r with
  | inl _ => runInProgramContainer (wrapperUnitName pawnName podUID containerName) cmd tty
  | inr pid => err ← runCmd tty (nsenterArgs pid cmd); orThrow (wrapExitError err)
  end.

Definition runInContainerMachinectl (podUID containerName : string) (cmd : list string) (tty : bool) : EM () :=
  err ← runCmd tty (machinectlArgs (machineName podUID containerName) cmd);
  orThrow (wrapExitError err).

Definition RunInContainer (strategy : ExecStrategy) (podUID containerName : string) (cmd : list string) (tty : bool) : EM () :=
  match strategy with
  | ExecMachinectl => runInContainerMachinectl podUID containerName cmd tty
  | ExecNsenter => runInContainerNsenter podUID containerName cmd tty
  end.

(** [attachPTYs] are the machines with a PTY. *)
Definition AttachContainer (attachPTYs : gset string) (podUID containerName : string) (tty : bool) : EM () :=
  let machineName := machineName podUID containerName in
  if decide (machineName ∈ attachPTYs) then doT (ERelay machineName) else
  pid ← getMachineLeaderPID machineName;
  err ← runCmd tty (nsenterArgs pid ["/bin/sh"; "-l"; "-i"]);
  orThrow (suppressSignalExit err).

(** ** Shared mounts *)

(** The thread enters the namespace and root of the process and is not used
    again. *)
Definition makeContainerMountShared (pid : Z) (containerPath : string) : EM () :=
  entered ← callT (λ t, env.(ee_enter) t pid) (EEnter pid);
  if negb entered then throw (ErrContainerMount containerPath) else
  ans ← callT (λ t, env.(ee_shareIn) t containerPath) (EShareIn containerPath);
  match ans with MountFailed => throw (ErrContainerMount containerPath) | _ => mret tt end.

Definition shareMount (pid : Z) (bm : BindMount) : EM () :=
  ans ← callT (λ t, env.(ee_shareHost) t bm.(bm_HostPath)) (EShareHost bm.(bm_HostPath));
  match ans with
  | MountFailed => throw (ErrHostMount bm.(bm_HostPath))
  | _ => makeContainerMountShared pid bm.(bm_ContainerPath)
  end.

Definition bidirectional (mounts : list BindMount) : list BindMount :=
  filter (λ bm, bm.(bm_Propagation) = "Bidirectional") mounts.

Definition makeSharedMounts (machineName : string) (mounts : list BindMount) : EM () :=
  match bidirectional mounts with
  | [] => mret tt
  | l => pid ← getMachineLeaderPID machineName; forM l (shareMount pid)
  end.

Definition MakeSharedMounts (podUID containerName : string) (mounts : list BindMount) : EM () :=
  makeSharedMounts (machineName podUID containerName) mounts.

End Exec.

(** ** What a lookup finds *)

Section Lookup.
Context (machine unit : string).

(** machined gives the leader, or not. *)
Inductive led : list EAct → Z → Prop :=
  | led_property path pid : (0 < pid)%Z → led [EGetMachine machine (Some path); ELeaderProp path (Some pid)] pid
  | led_method path p pid : nonZero p = None → (0 < pid)%Z →
      led [EGetMachine machine (Some path); ELeaderProp path p; EGetLeader path (Some pid)] pid.

Inductive unled : list EAct → Prop :=
  | unled_machine : unled [EGetMachine machine None]
  | unled_leader path p q : nonZero p = None → nonZero q = None →
      unled [EGetMachine machine (Some path); ELeaderProp path p; EGetLeader path q].

(** The supervisor is known to machined, or is the main process of the unit. *)
Inductive unsupervised : list EAct → Prop :=
  | unsupervised_machine : unsupervised [EGetMachine machine None]
  | unsupervised_zero path p : nonZero p = None → unsupervised [EGetMachine machine (Some path); ESupervisor path p].

Inductive supervised : list EAct → Z → Prop :=
  | supervised_machined path pid : (0 < pid)%Z → supervised [EGetMachine machine (Some path); ESupervisor path (Some pid)] pid
  | supervised_unit a pid : unsupervised a → (0 < pid)%Z → supervised (a ++ [EMainPID unit (Some pid)]) pid.

(** Rounds in which the supervisor has no child. *)
Inductive childless (sup : Z) : nat → list EAct → Prop :=
  | childless_nil : childless sup 0 []
  | childless_round n d w : Fields d = [] → childless sup n w → childless sup (S n) ([EChildren sup (Some d); ESleep 100] ++ w).

Inductive firstChild (sup : Z) : list EAct → Z → Prop :=
  | firstChild_intro n w d f fs pid : childless sup n w → n < childRounds → Fields d = f :: fs → Atoi f = Some pid →
      firstChild sup (w ++ [EChildren sup (Some d)]) pid.

Inductive noChild (sup : Z) : list EAct → Prop :=
  | noChild_timeout n w : childless sup n w → n < childRounds → noChild sup w
  | noChild_unreadable n w : childless sup n w → n < childRounds → noChild sup (w ++ [EChildren sup None])
  | noChild_garbage n w d f fs : childless sup n w → n < childRounds → Fields d = f :: fs → Atoi f = None →
      noChild sup (w ++ [EChildren sup (Some d)]).

(** The whole lookup. *)
Inductive leaderFound : list EAct → Z → Prop :=
  | leaderFound_machined a pid : led a pid → leaderFound a pid
  | leaderFound_child a b c sup pid : unled a → supervised b sup → firstChild sup c pid → leaderFound (a ++ b ++ c) pid.

Inductive noLeader : list EAct → Prop :=
  | noLeader_unit a b p : unled a → unsupervised b → nonZero p = None → noLeader (a ++ b ++ [EMainPID unit p])
  | noLeader_child a b c sup : unled a → supervised b sup → noChild sup c → noLeader (a ++ b ++ c).
End Lookup.

Section Found.
Context (env : EEnv) (pawnName : string).
Hypothesis clock : ∀ t a, (env.(ee_now) t <= env.(ee_now) (t ++ [a]))%Z.
Hypothesis clock_sleep : ∀ t ms, (env.(ee_now) t + ms <= env.(ee_now) (t ++ [ESleep ms]))%Z.

Lemma nonZero_Some p pid : nonZero p = Some pid → p = Some pid ∧ (0 < pid)%Z.
Proof. destruct p as [p|]; cbn; [|done]. destruct (Z.ltb_spec 0 p); [|done]. intros [= ->]. done. Qed.

Lemma wp_leaderFromMachined machine t d :
  wp (leaderPIDFromMachined env machine) (λ r new _, match r with inr pid => led machine new pid | inl _ => unled machine new end) t d.
Proof.
  unfold leaderPIDFromMachined, getMachine. wp_step. wp_step. wp_step. destruct (ee_machine env t machine) as [path|]; wp_step; [|constructor].
  wp_step. wp_step. destruct (nonZero _) as [pid|] eqn:Hp.
  - apply nonZero_Some in Hp as [-> Hp]. wp_step. by constructor.
  - wp_step. wp_step. destruct (nonZero (ee_getLeader _ _ _)) as [pid|] eqn:Hq; wp_step; [|by constructor].
    apply nonZero_Some in Hq as [-> Hq]. by constructor.
Qed.

Lemma wp_supervisorFromMachined machine unit t d :
  wp (supervisorPIDFromMachined env machine)
    (λ r new _, match r with inr pid => supervised machine unit new pid | inl _ => unsupervised machine new end) t d.
Proof.
  unfold supervisorPIDFromMachined, getMachine. wp_step. wp_step. wp_step. destruct (ee_machine env t machine) as [path|]; wp_step; [|constructor].
  wp_step. wp_step. destruct (nonZero _) as [pid|] eqn:Hp; wp_step; [|by constructor].
  apply nonZero_Some in Hp as [-> Hp]. by constructor.
Qed.

(** [n] rounds have passed; the clock leaves time for those that remain. *)
Lemma wp_children_loop fuel deadline sup n w t d :
  childless sup n w → n + fuel = childRounds → (deadline - env.(ee_now) t <= 100 * Z.of_nat (fuel - 1))%Z → 0 < fuel →
  wp (children_loop env fuel deadline sup)
    (λ r new _, match r with inr pid => firstChild sup (w ++ new) pid | inl e => noChild sup (w ++ new) ∧ e ≠ ErrSpin end) t d.
Proof.
  revert n w t. induction fuel as [|fuel IH]; intros n w t Hw Hn Hd Hf; [lia|]. cbn [children_loop]. wp_step. wp_step.
  destruct (Z.ltb_spec (ee_now env t) deadline) as [Hlt|Hge]; cbn [negb].
  2: { wp_step. rewrite !(right_id_L [] (++)). split; [|done]. eapply noChild_timeout; [exact Hw|lia]. }
  wp_step. wp_step. rewrite !(right_id_L [] (++)). destruct (ee_children env t sup) as [data|].
  2: { wp_step. split; [|done]. eapply noChild_unreadable; [exact Hw|lia]. }
  destruct (Fields data) as [|f fs] eqn:HF.
  2: { destruct (Atoi f) as [pid|] eqn:Ha; wp_step; [by eapply firstChild_intro; [exact Hw|lia|..]|].
       split; [|done]. by eapply noChild_garbage; [exact Hw|lia|..]. }
  wp_step. wp_step. destruct (decide (fuel = 0)) as [->|Hne].
  { exfalso. cbn in Hd. lia. }
  eapply wp_conseq; [apply (IH (S n) (w ++ [EChildren sup (Some data); ESleep 100]))|].
  - clear -Hw HF. induction Hw; cbn; [by apply (childless_round sup 0 _ []); [|constructor]|]. by apply (childless_round sup _ _ _).
  - lia.
  - pose proof (clock t (EChildren sup (Some data))). pose proof (clock_sleep (t ++ [EChildren sup (Some data)]) 100). lia.
  - lia.
  - intros r new d'. cbn beta iota. rewrite <- (assoc_L (++)). done.
Qed.

Lemma wp_getUnitMainPID unit t d :
  wp (getUnitMainPID env unit) (λ r new _,
    match r with
    | inr pid => new = [EMainPID unit (Some pid)] ∧ (0 < pid)%Z
    | inl e => e = ErrMainPID unit ∧ ∃ p, new = [EMainPID unit p] ∧ nonZero p = None
    end) t d.
Proof.
  unfold getUnitMainPID. wp_step. wp_step. destruct (nonZero _) as [pid|] eqn:Hp; wp_step; [|eauto].
  by apply nonZero_Some in Hp as [-> Hp].
Qed.

Lemma wp_getMachineLeaderPID uid c t d :
  let machine := machineName uid c in
  let unit := wrapperUnitName pawnName uid c in
  wp (getMachineLeaderPID env pawnName machine) (λ r new _,
    match r with inr pid => leaderFound machine unit new pid | inl e => noLeader machine unit new ∧ e ≠ ErrSpin end) t d.
Proof.
  intros machine unit. unfold getMachineLeaderPID. wp_step. apply wp_try. eapply wp_conseq; [apply wp_leaderFromMachined|].
  intros [e|pid] a d' Ha; [|wp_step; rewrite !(right_id_L [] (++)); by constructor].
  unfold leaderPIDFromSupervisor. wp_step. apply wp_try. eapply wp_conseq; [apply (wp_supervisorFromMachined _ unit)|].
  intros r b d2 Hb. wp_step. cbn beta in Hb.
  assert (∀ b' sup t' d', supervised machine unit b' sup → wp (now ← askT env.(ee_now); children_loop env childRounds (now + 2000)%Z sup)
    (λ r new _, match r with inr pid => leaderFound machine unit (a ++ b' ++ new) pid
                | inl e => noLeader machine unit (a ++ b' ++ new) ∧ e ≠ ErrSpin end) t' d') as Hloop.
  { intros b' sup t' d3 Hb'. wp_step. wp_step. eapply wp_conseq;
      [apply (wp_children_loop childRounds _ sup 0 []); [apply childless_nil|done|rewrite !(right_id_L [] (++)); unfold childRounds; lia|unfold childRounds; lia]|].
    intros [e'|pid] new d4 H; cbn in H |- *; [|by econstructor]. destruct H. split; [by econstructor|done]. }
  destruct r as [e'|sup].
  - unfold supervisorPIDFromUnit.
    assert ("perigeos-" +:+ pawnName +:+ "-" +:+ machine +:+ ".service" = unit) as ->.
    { unfold machine, unit, machineName, wrapperUnitName. by rewrite <- ?app_assoc. }
    eapply wp_conseq; [apply wp_getUnitMainPID|]. intros [e2|sup] new d3 Hn.
    + destruct Hn as (-> & p & -> & Hp). cbn. split; [|done]. by constructor.
    + destruct Hn as [-> Hp]. eapply wp_conseq; [apply (Hloop (b ++ [EMainPID unit (Some sup)]) sup); by constructor|].
      intros r new d4. cbn beta. rewrite <- !(assoc_L (++)). done.
  - wp_step. eapply wp_conseq; [by apply (Hloop b sup)|]. done.
Qed.

(** What the caller gets. *)
Definition exitResult (err : option ProcErr) : EErr + () :=
  match wrapExitError err with None => inr tt | Some e => inl e end.

Lemma wp_runs tty cmd (Φ : EErr + () → list EAct → () → Prop) t d :
  (∀ err, Φ (exitResult err) [ERun tty cmd err] d) → wp (err ← runCmd env tty cmd; orThrow (wrapExitError err)) Φ t d.
Proof.
  intros H. unfold runCmd. wp_step. wp_step. specialize (H (ee_run env t cmd)). unfold exitResult in H.
  destruct (wrapExitError _); cbn [orThrow]; wp_step; by rewrite ?(right_id_L [] (++)).
Qed.

(** How a command was run in a container: where, after which look-ups. *)
Definition ranIn (uid c : string) (cmd : list string) (tty : bool) (r : EErr + ()) (new : list EAct) : Prop :=
  let machine := machineName uid c in
  let unit := wrapperUnitName pawnName uid c in
  (∃ look pid err, new = look ++ [ERun tty (nsenterArgs pid cmd) err] ∧ leaderFound machine unit look pid ∧ r = exitResult err) ∨
  (∃ look, noLeader machine unit look ∧
    ((∃ pid err, new = look ++ [EMainPID unit (Some pid); ERun tty (programArgs pid cmd) err] ∧ (0 < pid)%Z ∧ r = exitResult err) ∨
     (∃ p, new = look ++ [EMainPID unit p] ∧ nonZero p = None ∧ r = inl (ErrMainPID unit)))).

(** A command that is to run in a container runs at most once: in all
    namespaces of the process that machined, or the children of the supervisor,
    gave as the leader; and only when neither gave one, in the mount namespace of the
    main process of the unit of the container. The exit code is passed on, and
    the search for a leader ends after 20 waits at most. *)
Lemma wp_RunInContainer uid c cmd tty t d :
  wp (RunInContainer env pawnName ExecNsenter uid c cmd tty) (λ r new _, ranIn uid c cmd tty r new) t d.
Proof.
  unfold ranIn, RunInContainer, runInContainerNsenter. wp_step. apply wp_try.
  eapply wp_conseq; [apply wp_getMachineLeaderPID|]. intros [e|pid] look d' H.
  - destruct H as [H _]. unfold runInProgramContainer. wp_step. eapply wp_conseq; [apply wp_getUnitMainPID|].
    intros [e'|pid] new d2 Hn.
    + destruct Hn as (-> & p & -> & Hp). right. exists look. split; [done|]. right. by exists p.
    + destruct Hn as [-> Hp]. apply wp_runs. intros err. right. exists look. split; [done|]. left. by exists pid, err.
  - apply wp_runs. intros err. left. by exists look, pid, err.
Qed.


(** Sharing mounts touches only the bidirectional ones, all of them when it
    succeeds, each on the host before the container. *)
Definition shared (a : EAct) : option string :=
  match a with EShareHost p _ | EShareIn p _ => Some p | _ => None end.

Lemma wp_shareMounts pid l t d :
  wp (forM l (shareMount env pid)) (λ r new _,
    let all := concat (map (λ bm, [bm.(bm_HostPath); bm.(bm_ContainerPath)]) l) in
    match r with
    | inr _ => omap shared new = all
    | inl _ => ∃ k, omap shared new = take k all
    end) t d.
Proof.
  revert t. induction l as [|bm l IH]; intros t; cbn [forM]; [by wp_step|]. wp_step. unfold shareMount. wp_step. wp_step.
  destruct (ee_shareHost env t (bm_HostPath bm)) eqn:Hs; [| |wp_step; by exists 1].
  all: unfold makeContainerMountShared; wp_step; wp_step.
  all: destruct (ee_enter _ _ _); cbn [negb]; [|wp_step; by exists 1].
  all: wp_step; wp_step; destruct (ee_shareIn _ _ _); [| |wp_step; by exists 2]; wp_step.
  all: eapply wp_conseq; [apply IH|]; intros [e|[]] new d'; cbn; [|by intros ->].
  all: intros [k ->]; by exists (S (S k)).
Qed.
End Found.

(** ** On examples *)

Definition demoEEnv : EEnv := {|
  ee_machine := λ _ _, Some "/m/1"; ee_leader := λ _ _, Some 4242%Z; ee_getLeader := λ _ _, None;
  ee_supervisor := λ _ _, Some 100%Z; ee_mainPID := λ _ _, Some 100%Z; ee_children := λ _ _, Some "4242";
  ee_now := λ t, foldr (λ a n, match a with ESleep ms => Z.max 0 ms + n | _ => n end)%Z 0%Z t;
  ee_run := λ _ _, Some (ExitCode 3); ee_shareHost := λ _ _, MountOk; ee_enter := λ _ _, true; ee_shareIn := λ _ _, MountOk |}.

Lemma demo_now t a : ee_now demoEEnv (t ++ [a]) = (ee_now demoEEnv t + match a with ESleep ms => Z.max 0 ms | _ => 0 end)%Z.
Proof. cbn. induction t as [|x t IH]; cbn; [destruct a; lia|]. rewrite IH. destruct x; lia. Qed.

Example exec_demo :
  wp (RunInContainer demoEEnv "p" ExecNsenter "u" "c" ["id"] false)
    (λ r new _, r = inl (CodeExitError 3) ∧ ∃ look, new = look ++ [ERun false (nsenterArgs 4242 ["id"]) (Some (ExitCode 3))]) [] tt.
Proof.
  destruct (wp_RunInContainer demoEEnv "p" ltac:(intros t a; rewrite demo_now; destruct a; lia) ltac:(intros t ms; rewrite demo_now; lia)
    "u" "c" ["id"] false [] tt) as (r & new & d' & Hr & H).
  exists r, new, d'. split; [exact Hr|]. vm_compute in Hr. injection Hr as <- <- <-.
  destruct H as [(look & pid & err & Hn & _ & He)|(look & _ & [(pid & err & Hn & _)|(p & Hn & _)])].
  - split; [done|]. exists [EGetMachine "pod-u-c" (Some "/m/1"); ELeaderProp "/m/1" (Some 4242%Z)]. reflexivity.
  - exfalso. apply (f_equal last) in Hn. rewrite (last_app_cons look) in Hn. vm_compute in Hn. discriminate.
  - exfalso. apply (f_equal last) in Hn. rewrite last_snoc in Hn. discriminate.
Qed.

(** Defect: a machine whose leader cannot be found is taken for a program. Its
    main process is the supervisor, whose root is that of the host: the command
    runs there. *)
Example exec_in_supervisor :
  let env := {| demoEEnv with ee_machine := λ _ _, None; ee_children := λ _ _, None |} in
  let r := RunInContainer env "p" ExecNsenter "u" "c" ["id"] false (Build_TState [] tt) in
  last r.1.(t_trace) = Some (ERun false (programArgs 100 ["id"]) (Some (ExitCode 3))).
Proof. reflexivity. Qed.

(** Defect: a program is not left to that case when it has children: the first
    of them is entered, with all its namespaces. Without children the search
    waits for two seconds before the command runs. *)
Example program_child_entered :
  let env := {| demoEEnv with ee_machine := λ _ _, None; ee_mainPID := λ _ _, Some 7%Z; ee_children := λ _ _, Some "9" |} in
  last (RunInContainer env "p" ExecNsenter "u" "c" ["id"] false (Build_TState [] tt)).1.(t_trace) =
    Some (ERun false (nsenterArgs 9 ["id"]) (Some (ExitCode 3))).
Proof. reflexivity. Qed.

Example program_waits :
  let env := {| demoEEnv with ee_machine := λ _ _, None; ee_mainPID := λ _ _, Some 7%Z; ee_children := λ _ _, Some "" |} in
  let t := (RunInContainer env "p" ExecNsenter "u" "c" ["id"] false (Build_TState [] tt)).1.(t_trace) in
  ee_now env t = 2000%Z ∧ last t = Some (ERun false (programArgs 7 ["id"]) (Some (ExitCode 3))).
Proof. split; vm_compute; reflexivity. Qed.
