(* ===== verification/UserNS.v ===== *)
(** * User identities and user namespaces (internal/runtime/systemd/userns.go)

    Before a container starts as some user, entries for the user and the group
    are appended to its files, in the tree of [Extract.v] with its links. A
    container with a user namespace waits until the host has written the maps of
    its process; [completeUserNSSetup] is the host's side. SHA-256 is a
    parameter. Modes and owners are left out. *)
From stdpp Require Import pretty.
From S2P Require Import Prelude Monad Trace Text Paths FileSys Extract Exec.
Import Str.

(** ** Ranges of user IDs *)

Definition uidbaseSlots : Z := 256.

(** [binary.LittleEndian.Uint32(h[:4])]; a shorter hash would panic. *)
Definition leUint32 (h : list Z) : option Z :=
  match h with b0 :: b1 :: b2 :: b3 :: _ => Some (b0 + 256 * b1 + 65536 * b2 + 16777216 * b3)%Z | _ => None end.

Definition computeUIDBASE (sha256 : string → list Z) (podUID : string) : option Z :=
  h ← leUint32 (sha256 podUID);
  Some (u32 (65536 * u32 (2 + h `mod` uidbaseSlots))).

(** ** passwd and group *)

(** [strings.SplitN] *)
Definition SplitN (s : string) (sep : ascii) (n : nat) : list string :=
  let l := splitOn sep s in
  if length l <=? n then l else take (n - 1) l ++ [Join (drop (n - 1) l) (String sep "")].

(** A line that does not fit into the buffer ends the scan. *)
Definition fits (line : string) : bool := (Z.of_nat (len line) <=? 65535)%Z.
Fixpoint scanned (lines : list string) : list string :=
  match lines with [] => [] | x :: l => if fits x then x :: scanned l else [] end.

Definition hasField (value : string) (fieldIdx : nat) (line : string) : bool :=
  bool_decide (SplitN line ":" (fieldIdx + 2) !! fieldIdx = Some value).

Definition passwdLine (uid gid : Z) : string :=
  let username := "peri-" +:+ pretty uid in
  let home := if decide (uid = 0%Z) then "/" else "/home/" +:+ username in
  username +:+ ":x:" +:+ pretty uid +:+ ":" +:+ pretty gid +:+ "::" +:+ home +:+ ":/bin/sh".

Definition groupLine (gid : Z) : string := "peri-" +:+ pretty gid +:+ ":x:" +:+ pretty gid +:+ ":".

Section Identity.
Context (env : XEnv).

Abbreviation XM := (SE LFS XErr).

Definition entryExists (path : Path) (value : string) (fieldIdx : nat) (fs : LFS) : bool :=
  if env.(x_fails) (XOpen path) fs then false
  else match statNode fs path with
       | Some (NFile i) => existsb (hasField value fieldIdx) (scanned (scanLines (default "" (fs.(l_data) !! i))))
       | _ => false
       end.

(** A write to a file opened with [O_APPEND]. *)
Definition appendTo (i : nat) (data : string) : XM () :=
  fs ← get;
  let old := default "" (fs.(l_data) !! i) in
  if env.(x_fails) (XWrite data) fs then
    _ ← modifyS (setData i (old +:+ stake (env.(x_written) fs) data));
    throw (ErrOp (XWrite data))
  else modifyS (setData i (old +:+ data)).

Definition injectEntry (path : Path) (value line : string) : XM () :=
  present ← gets (entryExists path value 2);
  if present : bool then mret tt else
  i ← OpenFile env path;
  appendTo i (line +:+ nl).

Definition injectPasswdEntry (rootfs : string) (uid gid : Z) : XM () :=
  injectEntry (cleanComponents (pathJoin [rootfs; "etc"; "passwd"])) (pretty uid) (passwdLine uid gid).

Definition injectGroupEntry (rootfs : string) (gid : Z) : XM () :=
  injectEntry (cleanComponents (pathJoin [rootfs; "etc"; "group"])) (pretty gid) (groupLine gid).

Definition createHomeDir (rootfs : string) (uid : Z) : XM () :=
  if decide (uid = 0%Z) then mret tt else
  _ ← try (MkdirAll env (cleanComponents (pathJoin [rootfs; "home"; "peri-" +:+ pretty uid])));
  mret tt.

Definition prepareUserIdentity (rootfs : string) (runAsUser runAsGroup : option Z) : XM () :=
  match runAsUser with
  | None => mret tt
  | Some uid =>
      let gid := default 0%Z runAsGroup in
      _ ← try (injectPasswdEntry rootfs uid gid);
      _ ← try (injectGroupEntry rootfs gid);
      createHomeDir rootfs uid
  end.
End Identity.

(** ** The handshake *)

Inductive UAct :=
  | UReady (ok : bool)
  | ULeader (pid : option Z)
  | UWrite (file data : string) (ok : bool)
  | UGate (payload : string) (ok : bool).

(** [ue_leader] is what [getMachineLeaderPID] of [Exec.v] finds. *)
Record UEnv := {
  ue_ready : list UAct → bool;
  ue_leader : list UAct → option Z;
  ue_write : list UAct → string → bool;
  ue_openGate : list UAct → bool;
  ue_gate : list UAct → bool;
}.

Section Handshake.
Context (env : UEnv) (sha256 : string → list Z).

Abbreviation UM := (SE (TState UAct ()) ()).

Definition procFile (pid : Z) (name : string) : string := "/proc/" +:+ pretty pid +:+ "/" +:+ name.

(** A step whose failure is logged and ends the handshake. *)
Definition writeProc (file data : string) : UM () :=
  ok ← callT (λ t, env.(ue_write) t file) (UWrite file data);
  if ok : bool then mret tt else throw tt.

Definition mapLine (base : Z) : string := "0 " +:+ pretty base +:+ " 65536" +:+ nl.

(** [None] for the base would be a panic. *)
Definition completeUserNSSetup (podUID : string) (targetUID targetGID : Z) : UM () :=
  ready ← callT env.(ue_ready) UReady;
  if negb ready then throw tt else
  pid ← callT env.(ue_leader) ULeader;
  match pid, computeUIDBASE sha256 podUID with
  | Some pid, Some uidbase =>
      _ ← writeProc (procFile pid "uid_map") (mapLine uidbase);
      _ ← writeProc (procFile pid "setgroups") "deny";
      _ ← writeProc (procFile pid "gid_map") (mapLine uidbase);
      opened ← askT env.(ue_openGate);
      if negb opened then throw tt else
      _ ← callT env.(ue_gate) (UGate (pretty targetUID +:+ ":" +:+ pretty targetGID +:+ nl));
      mret tt
  | _, _ => throw tt
  end.
End Handshake.

(** *** The FIFOs *)

Definition usernsFIFOBase : string := "/run/perigeos/userns".

Section Fifos.
Context (mkdir : string → bool) (mkfifo : string → bool).

(** The FIFOs that exist, by their paths. *)
Definition setupUserNSFIFOs (podUID containerName : string) (fifos : gset string) : gset string * option string :=
  let dir := pathJoin [usernsFIFOBase; podUID +:+ "-" +:+ containerName] in
  if negb (mkdir dir) then (fifos, None) else
  let ready := pathJoin [dir; "ready"] in
  let gate := pathJoin [dir; "gate"] in
  let fifos := fifos ∖ {[ ready ]} in
  if negb (mkfifo ready) then (fifos, None) else
  let fifos := ({[ ready ]} ∪ fifos) ∖ {[ gate ]} in
  if negb (mkfifo gate) then (fifos, None) else
  ({[ gate ]} ∪ fifos, Some dir).

Definition cleanupUserNSFIFOs (podUID containerName : string) (fifos : gset string) : gset string :=
  let dir := pathJoin [usernsFIFOBase; podUID +:+ "-" +:+ containerName] in
  fifos ∖ {[ pathJoin [dir; "ready"]; pathJoin [dir; "gate"] ]}.
End Fifos.

(** ** Ranges *)

Lemma computeUIDBASE_slot sha256 uid h : (∀ s, Forall (λ b, 0 <= b < 256)%Z (sha256 s)) → leUint32 (sha256 uid) = Some h →
  ∃ slot, computeUIDBASE sha256 uid = Some (65536 * (2 + slot))%Z ∧ (0 <= slot < 256)%Z ∧ head (sha256 uid) = Some slot.
Proof.
  intros Hb Hh. unfold computeUIDBASE. rewrite Hh. cbn. specialize (Hb uid). destruct (sha256 uid) as [|b0 [|b1 [|b2 [|b3 l]]]]; try done.
  injection Hh as <-. apply Forall_cons in Hb as [Hb0 _]. cbn beta in Hb0. exists b0. unfold uidbaseSlots, u32.
  assert ((b0 + 256 * b1 + 65536 * b2 + 16777216 * b3) `mod` 256 = b0)%Z as ->.
  { replace (b0 + 256 * b1 + 65536 * b2 + 16777216 * b3)%Z with (b0 + (b1 + 256 * b2 + 65536 * b3) * 256)%Z by lia.
    rewrite Z.mod_add by done. apply Z.mod_small. lia. }
  rewrite (Z.mod_small (2 + b0)), Z.mod_small by lia. done.
Qed.

(** ** The steps of the handshake *)

Definition steps (pid uidbase targetUID targetGID : Z) : list UAct :=
  [UReady true; ULeader (Some pid);
   UWrite (procFile pid "uid_map") (mapLine uidbase) true;
   UWrite (procFile pid "setgroups") "deny" true;
   UWrite (procFile pid "gid_map") (mapLine uidbase) true].

Definition failed (a : UAct) : Prop := match a with UReady b | UWrite _ _ b => b = false | ULeader p => p = None | UGate _ _ => False end.

Lemma wp_completeUserNSSetup env sha256 podUID base uid gid t d :
  computeUIDBASE sha256 podUID = Some base →
  wp (completeUserNSSetup env sha256 podUID uid gid) (λ r new _,
    (∃ pid ok, r = inr tt ∧ new = steps pid base uid gid ++ [UGate (pretty uid +:+ ":" +:+ pretty gid +:+ nl) ok]) ∨
    (∃ pid k last, r = inl tt ∧ new = take k (steps pid base uid gid) ++ last ∧ length last <= 1 ∧ Forall failed last)) t d.
Proof.
  intros Hbase. unfold completeUserNSSetup. wp_step. wp_step. destruct (ue_ready env t) eqn:Hr; cbn [negb].
  2: { wp_step. right. exists 0%Z, 0, [UReady false]. split_and!; [done|by cbn|done|by constructor]. }
  wp_step. wp_step. destruct (ue_leader _ _) as [pid|] eqn:Hp.
  2: { wp_step. right. exists 0%Z, 1, [ULeader None]. split_and!; [done|by cbn|done|by constructor]. }
  rewrite Hbase. unfold writeProc. wp_step. wp_step. wp_step. destruct (ue_write _ _ _); wp_step.
  2: { right. exists pid, 2. eexists [_]. split_and!; [done|by cbn|done|by constructor]. }
  wp_step. wp_step. wp_step. destruct (ue_write _ _ _); wp_step.
  2: { right. exists pid, 3. eexists [_]. split_and!; [done|by cbn|done|by constructor]. }
  wp_step. wp_step. wp_step. destruct (ue_write _ _ _); wp_step.
  2: { right. exists pid, 4. eexists [_]. split_and!; [done|by cbn|done|by constructor]. }
  wp_step. wp_step. destruct (ue_openGate _ _); cbn [negb].
  2: { wp_step. right. exists pid, 5, []. split_and!; [done|by cbn|cbn; lia|done]. }
  wp_step. wp_step. wp_step. left. eexists pid, _. split; [done|reflexivity].
Qed.

(** C24: The process in a new user namespace goes on only after its maps are
    written, and setgroups is denied, all for one process; a step that fails ends the
    handshake. The maps give it 65536 user IDs that lie above the first 131072
    of the host and below 2^32, and those of two pods are the same or disjoint. *)
Theorem userns_isolated env sha256 podUID uid gid t d :
  (∀ s, Forall (λ b, 0 <= b < 256)%Z (sha256 s)) → (∀ s, length (sha256 s) = 32) →
  (∃ base, computeUIDBASE sha256 podUID = Some base ∧ (131072 <= base ∧ base + 65536 <= 2 ^ 32)%Z ∧
    (∀ other base', computeUIDBASE sha256 other = Some base' → base' = base ∨ (base' + 65536 <= base ∨ base + 65536 <= base')%Z) ∧
    wp (completeUserNSSetup env sha256 podUID uid gid) (λ r new _,
      (∃ pid ok, r = inr tt ∧ new = steps pid base uid gid ++ [UGate (pretty uid +:+ ":" +:+ pretty gid +:+ nl) ok]) ∨
      (∃ pid k last, r = inl tt ∧ new = take k (steps pid base uid gid) ++ last ∧ length last <= 1 ∧ Forall failed last)) t d).
Proof.
  intros Hb Hl.
  assert (∀ s, ∃ h, leUint32 (sha256 s) = Some h) as Hle.
  { intros s. specialize (Hl s). destruct (sha256 s) as [|? [|? [|? [|? ?]]]]; try done. by eexists. }
  destruct (Hle podUID) as [h Hh]. destruct (computeUIDBASE_slot sha256 podUID h Hb Hh) as (slot & Hbase & Hslot & _).
  exists (65536 * (2 + slot))%Z. split_and!; [done|lia|lia| |].
  { intros other base' Ho. destruct (Hle other) as [h' Hh']. destruct (computeUIDBASE_slot sha256 other h' Hb Hh') as (slot' & Hbase' & Hslot' & _).
    rewrite Hbase' in Ho. injection Ho as <-. lia. }
  by apply wp_completeUserNSSetup.
Qed.

Lemma userns_isolated_witness :
  let sha := λ _ : string, repeat 7%Z 32 in
  let env := {| ue_ready := λ _, true; ue_leader := λ _, Some 42%Z; ue_write := λ _ _, true; ue_openGate := λ _, true; ue_gate := λ _, true |} in
  ∃ base, computeUIDBASE sha "u" = Some base ∧ (131072 <= base)%Z ∧
    wp (completeUserNSSetup env sha "u" 1000 1000) (λ r new _, r = inr tt) [] tt.
Proof.
  intros sha env. destruct (userns_isolated env sha "u" 1000 1000 [] tt) as (base & H1 & [H2 _] & _ & r & new & d' & Hr & _).
  - intros ?. by repeat constructor.
  - done.
  - exists base. split; [exact H1|]. split; [exact H2|]. exists r, new, d'. split; [exact Hr|]. vm_compute in Hr. by injection Hr.
Defined.

(** ** Fields of a line *)

Lemma splitOn_sep sep a s : index_byte a sep = None → splitOn sep (a +:+ String sep s) = a :: splitOn sep s.
Proof.
  induction a as [|c a IH].
  - intros _. change ("" +:+ String sep s) with (String sep s). cbn [splitOn]. by rewrite decide_True.
  - change (String c a +:+ String sep s) with (String c (a +:+ String sep s)). cbn [index_byte splitOn].
    case_decide; [done|]. intros Hn%fmap_None. by rewrite IH.
Qed.

Lemma index_byte_none_app a b c : index_byte a c = None → index_byte b c = None → index_byte (a +:+ b) c = None.
Proof.
  induction a as [|x a IH]; [done|]. change (String x a +:+ b) with (String x (a +:+ b)). cbn [index_byte].
  case_decide; [done|]. intros Ha%fmap_None Hb. by rewrite IH.
Qed.

Lemma pretty_char_not n c : digit c = None → c ≠ "0"%char → pretty_N_char n ≠ c.
Proof.
  intros Hc H0 <-. unfold pretty_N_char in *. destruct n as [|p]; [done|]. by repeat (destruct p as [p|p|]; try done).
Qed.

Lemma index_byte_go n s c : digit c = None → index_byte s c = None → index_byte (pretty_N_go n s) c = None.
Proof.
  intros Hc. assert (c ≠ "0"%char) as H0 by (by intros ->). revert s. induction (N.lt_wf_0 n) as [n _ IH]; intros s Hs.
  destruct (decide (n = 0%N)) as [->|Hne]; [done|]. rewrite pretty_N_go_step by lia. apply IH; [apply N.div_lt; lia|].
  cbn [index_byte]. rewrite decide_False by (by apply pretty_char_not). by rewrite Hs.
Qed.

Lemma index_byte_pretty (n : Z) c : digit c = None → (0 <= n)%Z → index_byte (pretty n) c = None.
Proof.
  intros Hc Hn. destruct n as [|p|p]; [|by apply index_byte_go|lia]. change (index_byte "0" c = None). cbn. by case_decide; [subst|].
Qed.

Lemma len_pretty_go k n s : (n < 10 ^ N.of_nat k)%N → len (pretty_N_go n s) <= k + len s.
Proof.
  revert n s. induction k as [|k IH]; intros n s Hn.
  - assert (n = 0%N) as -> by (cbn in Hn; lia). by rewrite pretty_N_go_0.
  - destruct (decide (n = 0%N)) as [->|Hne]; [rewrite pretty_N_go_0; lia|]. rewrite pretty_N_go_step by lia.
    rewrite Nat2N.inj_succ, N.pow_succ_r in Hn by lia. pose proof (IH (n `div` 10)%N (String (pretty_N_char (n `mod` 10)) s)) as H.
    cbn in H. cbn. enough (n `div` 10 < 10 ^ N.of_nat k)%N by (specialize (H ltac:(done)); lia). apply N.Div0.div_lt_upper_bound. lia.
Qed.

Lemma len_pretty (n : Z) : (0 <= n < 2 ^ 63)%Z → len (pretty n) <= 19.
Proof.
  intros Hn. destruct n as [|p|p]; [cbn; lia| |lia]. rewrite pretty_Z_pos. etransitivity; [apply (len_pretty_go 19)|cbn; lia].
  change (10 ^ N.of_nat 19)%N with 10000000000000000000%N. lia.
Qed.

(** The third field. *)
Lemma hasField_third a b v r : index_byte a ":" = None → index_byte b ":" = None → index_byte v ":" = None →
  hasField v 2 (a +:+ ":" +:+ b +:+ ":" +:+ v +:+ ":" +:+ r) = true.
Proof.
  intros Ha Hb Hv. unfold hasField, SplitN.
  assert (splitOn ":" (a +:+ ":" +:+ b +:+ ":" +:+ v +:+ ":" +:+ r) = [a; b; v] ++ splitOn ":" r) as ->.
  { assert (∀ s, ":" +:+ s = String ":" s) as E by done. rewrite !E, !splitOn_sep by done. done. }
  apply bool_decide_eq_true. destruct (_ <=? _); done.
Qed.

(** ** Injected entries *)

Definition goodLine (line : string) : Prop := oneLine line ∧ fits line = true.

(** A file of complete lines, or none. *)
Definition linesAt (fs : LFS) (p : Path) (lines : list string) : Prop :=
  (nodeAt fs p = None ∧ lines = []) ∨ ∃ i, nodeAt fs p = Some (NFile i) ∧ fs.(l_data) !! i = Some (unlines lines).

Definition dirsTo (fs : LFS) (dir : Path) : Prop := ∀ a, a ∈ prefixes dir → nodeAt fs a = Some NDir.

Lemma unlines_snoc l x : unlines (l ++ [x]) = unlines l +:+ x +:+ nl.
Proof. induction l as [|y l IH]; cbn [app unlines foldr]; [by rewrite app_nil_r|]. fold (unlines (l ++ [x])). rewrite IH. fold (unlines l). by rewrite !app_assoc. Qed.

Lemma scanned_good l : Forall goodLine l → scanned l = l.
Proof. induction 1 as [|x l [_ Hx] _ IH]; [done|]. cbn. by rewrite Hx, IH. Qed.

Lemma lookup_dirs fs dir x follow : Forall plain dir → plain x → dirsTo fs dir → (∀ l, nodeAt fs (dir ++ [x]) ≠ Some (NLink l)) →
  lookupPath fs follow (dir ++ [x]) = Some (dir ++ [x]).
Proof.
  intros Hd Hx Hdir Hl. unfold lookupPath. generalize maxLinks. intros links.
  assert (∀ rest cur, dir = cur ++ rest → walk links fs follow cur (rest ++ [x]) = Some (cur ++ rest ++ [x])) as H; [|by apply (H dir [])].
  induction rest as [|y rest IH]; intros cur Hc.
  - subst dir. rewrite (right_id_L [] (++)) in *. cbn [app]. rewrite walk_cons by done. destruct (nodeAt fs (cur ++ [x])) as [[| |l]|] eqn:Hn.
    + by rewrite walk_nil.
    + done.
    + by destruct (Hl l).
    + done.
  - cbn [app]. rewrite walk_cons by (rewrite Hc in Hd; by apply Forall_app in Hd as [_ [? _]%Forall_cons]).
    rewrite (Hdir (cur ++ [y])) by (apply prefixes_spec; exists rest; by rewrite <- List.app_assoc).
    rewrite (IH (cur ++ [y])); rewrite <- ?List.app_assoc; done.
Qed.

Section Injected.
Context (env : XEnv).
Hypothesis works : ∀ op fs, env.(x_fails) op fs = false.

(** The lines after an entry was injected. *)
Definition withEntry (v line : string) (lines : list string) : list string :=
  if existsb (hasField v 2) lines then lines else lines ++ [line].

Lemma linesAt_nolink fs p lines l : linesAt fs p lines → nodeAt fs p ≠ Some (NLink l).
Proof. intros [[-> _]|(i & -> & _)]; done. Qed.

Lemma entryExists_lines fs dir x v lines : Forall plain dir → plain x → dirsTo fs dir →
  linesAt fs (dir ++ [x]) lines → Forall goodLine lines →
  entryExists env (dir ++ [x]) v 2 fs = existsb (hasField v 2) lines.
Proof.
  intros Hd Hx Hdir Hp Hl. unfold entryExists, statNode. rewrite works, lookup_dirs; eauto using linesAt_nolink. cbn [mbind option_bind].
  destruct Hp as [[-> ->]|(i & -> & ->)]; [done|]. cbn [default]. unfold id.
  rewrite scanLines_unlines by (by eapply Forall_impl; [exact Hl|intros ? []]). by rewrite scanned_good.
Qed.

Lemma inject_spec fs dir x v line lines : Forall plain dir → plain x → dirsTo fs dir →
  linesAt fs (dir ++ [x]) lines → Forall goodLine lines →
  ∃ fs', injectEntry env (dir ++ [x]) v line fs = (fs', inr tt) ∧ linesAt fs' (dir ++ [x]) (withEntry v line lines) ∧
    (∀ q, q ≠ dir ++ [x] → nodeAt fs' q = nodeAt fs q) ∧
    (∀ i d, fs.(l_data) !! i = Some d → nodeAt fs (dir ++ [x]) ≠ Some (NFile i) → fs'.(l_data) !! i = Some d) ∧
    (∀ i, nodeAt fs' (dir ++ [x]) = Some (NFile i) → nodeAt fs (dir ++ [x]) = Some (NFile i) ∨ fs.(l_data) !! i = None).
Proof.
  intros Hd Hx Hdir Hp Hl. pose proof (entryExists_lines fs dir x v lines Hd Hx Hdir Hp Hl) as He.
  unfold injectEntry, withEntry, gets, mbind, SE_bind. rewrite He. destruct (existsb _ lines); [exists fs; split_and!; auto|].
  unfold OpenFile, mbind, SE_bind, get. rewrite works. cbn [whenM]. unfold mret, SE_ret.
  rewrite lookup_dirs by eauto using linesAt_nolink. set (p := dir ++ [x]) in *. assert (p ≠ []) as Hpne by (subst p; by destruct dir).
  destruct Hp as [[Hn ->]|(i & Hn & Hi)]; rewrite Hn.
  - cbn [modifyS]. unfold modifyS, appendTo, mbind, SE_bind, get. rewrite works. eexists. split; [done|]. split_and!.
    + right. exists (newInode fs). rewrite !nodeAt_setData, nodeAt_setNode, decide_True by done. split; [done|].
      cbn. rewrite !lookup_insert_eq. cbn. by rewrite app_nil_r.
    + intros q Hq. by rewrite !nodeAt_setData, nodeAt_setNode, decide_False.
    + intros j d Hj _. pose proof (newInode_fresh fs). cbn. rewrite !lookup_insert_ne by congruence. done.
    + intros j. rewrite !nodeAt_setData, nodeAt_setNode, decide_True by done. intros [= <-]. right. apply newInode_fresh.
  - unfold appendTo, mbind, SE_bind, get. rewrite works, Hi. eexists. split; [done|]. split_and!.
    + right. exists i. rewrite nodeAt_setData. split; [done|]. cbn. rewrite lookup_insert_eq. by rewrite unlines_snoc.
    + intros q Hq. by rewrite nodeAt_setData.
    + intros j d Hj Hne. cbn. rewrite lookup_insert_ne by congruence. done.
    + intros j Hj. left. rewrite nodeAt_setData in Hj. congruence.
Qed.

Lemma inLine_pretty (n : Z) : (0 <= n)%Z → inLine (pretty n) = true.
Proof. intros Hn. by apply inLine_noSpace, pretty_word. Qed.

Lemma good_passwd uid gid : (0 <= uid < 2 ^ 63)%Z → (0 <= gid < 2 ^ 63)%Z →
  goodLine (passwdLine uid gid) ∧ hasField (pretty uid) 2 (passwdLine uid gid) = true.
Proof.
  intros Hu Hg. pose proof (len_pretty uid Hu). pose proof (len_pretty gid Hg). unfold passwdLine. set (home := if decide _ then _ else _).
  assert (inLine home = true ∧ len home <= 30) as [Hh Hlen].
  { subst home. case_decide; [by split; [|cbn; lia]|]. rewrite !inLine_app, inLine_pretty, !length_app by lia. split; [done|cbn; lia]. }
  split; [split|].
  - apply oneLine_inLine. rewrite !inLine_app, !inLine_pretty, Hh by lia. done.
  - unfold fits. rewrite !length_app. apply Z.leb_le. change (len "peri-") with 5. change (len ":x:") with 3. change (len ":") with 1.
    change (len "::") with 2. change (len ":/bin/sh") with 8. lia.
  - change (":x:" +:+ ?r) with (":" +:+ "x" +:+ ":" +:+ r). rewrite <- !app_assoc.
    change ("peri-" +:+ pretty uid +:+ ?r) with (("peri-" +:+ pretty uid) +:+ r).
    apply (hasField_third ("peri-" +:+ pretty uid) "x" (pretty uid)); [|done|by apply index_byte_pretty; [|lia]].
    apply index_byte_none_app; [done|]. by apply index_byte_pretty; [|lia].
Qed.

Lemma good_group gid : (0 <= gid < 2 ^ 63)%Z → goodLine (groupLine gid) ∧ hasField (pretty gid) 2 (groupLine gid) = true.
Proof.
  intros Hg. pose proof (len_pretty gid Hg). unfold groupLine. split; [split|].
  - apply oneLine_inLine. rewrite !inLine_app, !inLine_pretty by lia. done.
  - unfold fits. rewrite !length_app. apply Z.leb_le. change (len "peri-") with 5. change (len ":x:") with 3. change (len ":") with 1. lia.
  - apply (hasField_third ("peri-" +:+ pretty gid) "x" (pretty gid) ""); [|done|by apply index_byte_pretty; [|lia]].
    apply index_byte_none_app; [done|]. by apply index_byte_pretty; [|lia].
Qed.

Lemma withEntry_good v line lines : goodLine line → hasField v 2 line = true → Forall goodLine lines →
  Forall goodLine (withEntry v line lines) ∧ existsb (hasField v 2) (withEntry v line lines) = true ∧ withEntry v line lines ≠ [].
Proof.
  intros Hg Hf Hl. unfold withEntry. destruct (existsb _ lines) eqn:He; [split_and!; try done; by intros ->|]. split_and!.
  - apply Forall_app. split; [done|by constructor].
  - rewrite existsb_app. cbn. by rewrite Hf, orb_true_r.
  - by destruct lines.
Qed.

Lemma linesAt_kept fs fs' p lines : kept [] fs fs' → p ≠ [] → lines ≠ [] → linesAt fs p lines → linesAt fs' p lines.
Proof. intros (H1 & _ & H3) Hp Hne [[_ ->]|(i & Hn & Hi)]; [done|]. right. exists i. eauto. Qed.

Lemma createHomeDir_kept rootfs uid fs : kept [] fs (createHomeDir env rootfs uid fs).1 ∧ (createHomeDir env rootfs uid fs).2 = inr tt.
Proof.
  unfold createHomeDir. case_decide; [by split; [apply kept_refl|]|].
  unfold try, mbind, SE_bind. destruct (MkdirAll_kept env [] (cleanComponents (pathJoin [rootfs; "home"; "peri-" +:+ pretty uid])) fs) as [Hk _].
  { by intros n [= <-]. }
  destruct (MkdirAll _ _ fs) as [fs' r]. split; [exact Hk|done].
Qed.

(** Both files. *)
Lemma inject_both fs dir x y v w line line' lines lines' : Forall plain dir → plain x → plain y → x ≠ y → dirsTo fs dir →
  linesAt fs (dir ++ [x]) lines → Forall goodLine lines → linesAt fs (dir ++ [y]) lines' → Forall goodLine lines' →
  (∀ i, nodeAt fs (dir ++ [x]) = Some (NFile i) → nodeAt fs (dir ++ [y]) ≠ Some (NFile i)) → withEntry v line lines ≠ [] →
  ∃ fs1 fs2, injectEntry env (dir ++ [x]) v line fs = (fs1, inr tt) ∧ injectEntry env (dir ++ [y]) w line' fs1 = (fs2, inr tt) ∧
    linesAt fs2 (dir ++ [x]) (withEntry v line lines) ∧ linesAt fs2 (dir ++ [y]) (withEntry w line' lines') ∧
    (∀ q, q ≠ dir ++ [x] → q ≠ dir ++ [y] → nodeAt fs2 q = nodeAt fs q) ∧ dirsTo fs2 dir.
Proof.
  intros Hd Hx Hy Hxy Hdir Lx Gx Ly Gy Hdist Hne.
  assert (dir ++ [x] ≠ dir ++ [y]) as Hp by (by intros [_ ?]%app_inj_2; [simplify_eq|]).
  assert (∀ z a, a ∈ prefixes dir → a ≠ dir ++ [z]) as Hpre.
  { intros z a Ha ->. apply prefixes_spec in Ha as [q Hq]. apply (f_equal length) in Hq. rewrite !List.length_app in Hq. cbn in Hq. lia. }
  destruct (inject_spec fs dir x v line lines) as (fs1 & E1 & L1 & N1 & D1 & I1); try done.
  assert (dirsTo fs1 dir) as Hdir1 by (intros a Ha; rewrite N1 by auto; by apply Hdir).
  assert (linesAt fs1 (dir ++ [y]) lines') as Ly1.
  { destruct Ly as [[Hn ->]|(i & Hn & Hi)]; [left; by rewrite N1|]. right. exists i. rewrite N1 by done. split; [done|].
    apply D1; [done|]. intros Hi'. by apply (Hdist i). }
  destruct (inject_spec fs1 dir y w line' lines') as (fs2 & E2 & L2 & N2 & D2 & _); try done.
  exists fs1, fs2. split_and!; try done.
  - destruct L1 as [[_ L1]|(i & Hn & Hi)]; [done|]. right. exists i. rewrite N2 by done. split; [done|]. apply D2; [done|].
    rewrite N1 by done. intros Hj. destruct (I1 i Hn) as [Hi'|Hi']; [by apply (Hdist i)|].
    destruct Ly as [[Hn' _]|(j & Hn' & Hj')]; congruence.
  - intros q Hq1 Hq2. by rewrite N2, N1.
  - intros a Ha. rewrite N2 by auto. by apply Hdir1.
Qed.
End Injected.

(** When the files of users and groups of a container consist of complete
    lines, each gets the entry asked for, at its end, unless it has one for the ID; a
    look-up then finds it. Nothing else in the container changes, directories
    added apart. *)
Theorem user_identity env rootfs uid runAsGroup fs plines glines :
  let gid := default 0%Z runAsGroup in
  let etc := cleanComponents rootfs ++ ["etc"] in
  let passwd := etc ++ ["passwd"] in
  let group := etc ++ ["group"] in
  (∀ op fs, env.(x_fails) op fs = false) → isRooted rootfs = true → (0 <= uid < 2 ^ 63)%Z → (0 <= gid < 2 ^ 63)%Z →
  dirsTo fs etc → linesAt fs passwd plines → linesAt fs group glines → Forall goodLine plines → Forall goodLine glines →
  (∀ i, nodeAt fs passwd = Some (NFile i) → nodeAt fs group ≠ Some (NFile i)) →
  let '(fs', r) := prepareUserIdentity env rootfs (Some uid) runAsGroup fs in
  r = inr tt ∧
  linesAt fs' passwd (withEntry (pretty uid) (passwdLine uid gid) plines) ∧ entryExists env passwd (pretty uid) 2 fs' = true ∧
  linesAt fs' group (withEntry (pretty gid) (groupLine gid) glines) ∧ entryExists env group (pretty gid) 2 fs' = true ∧
  (∀ q n, q ≠ [] → q ≠ passwd → q ≠ group → nodeAt fs q = Some n → nodeAt fs' q = Some n).
Proof.
  intros gid etc passwd group Hw Hr Hu Hg Hdir Hp Hgr Hpl Hgl Hdist.
  assert (Forall plain etc) as Hetc by (apply Forall_app; split; [by apply cleanComponents_plain|by repeat constructor]).
  assert (∀ x, plain x → cleanComponents (pathJoin [rootfs; "etc"; x]) = etc ++ [x]) as Hpath.
  { intros x Hx. destruct (pathJoin_names rootfs ["etc"; x] Hr) as [_ ->]; [by constructor; [repeat split|apply Forall_singleton]|done|]. unfold etc. by rewrite <- (assoc_L (++)). }
  assert (plain "passwd" ∧ plain "group") as [Hpp Hpg] by (split; by repeat split).
  assert (passwd ≠ group ∧ passwd ≠ [] ∧ group ≠ []) as (Hne & Hpn & Hgn).
  { unfold passwd, group. split_and!; [by intros [_ ?]%app_inj_tail|by destruct etc|by destruct etc]. }
  unfold prepareUserIdentity, injectPasswdEntry, injectGroupEntry, mbind, SE_bind, try. rewrite !Hpath by done. fold passwd group gid.
  destruct (good_passwd uid gid Hu Hg) as [Gp Fp], (good_group gid Hg) as [Gg Fg].
  destruct (withEntry_good (pretty uid) _ plines Gp Fp Hpl) as (P1 & P2 & P3), (withEntry_good (pretty gid) _ glines Gg Fg Hgl) as (Q1 & Q2 & Q3).
  destruct (inject_both env Hw fs etc "passwd" "group" (pretty uid) (pretty gid) (passwdLine uid gid) (groupLine gid) plines glines)
    as (fs1 & fs2 & E1 & E2 & L1 & L2 & N & Hdir2); try done.
  fold passwd group in E1, E2, L1, L2, N. rewrite E1, E2. destruct (createHomeDir_kept env rootfs uid fs2) as [Hk Hres].
  destruct (createHomeDir env rootfs uid fs2) as [fs3 r3]. cbn [fst snd] in Hk, Hres. subst r3.
  assert (dirsTo fs3 etc) as Hdir3.
  { intros a Ha. destruct (decide (a = [])) as [->|Hane]; [done|]. destruct Hk as [Hk _]. apply Hk; auto. }
  pose proof (linesAt_kept fs2 fs3 passwd _ Hk Hpn P3 L1) as L1'. pose proof (linesAt_kept fs2 fs3 group _ Hk Hgn Q3 L2) as L2'.
  split_and!; try done.
  - unfold passwd. erewrite entryExists_lines; eauto.
  - unfold group. erewrite entryExists_lines; eauto.
  - intros q n H0 H1 H2 Hq. destruct Hk as [Hk _]. apply Hk; [done|]. by rewrite N.
Qed.

(** ** On examples *)

Definition rootLine : string := "root:x:0:0:root:/root:/bin/sh".

(** A host with its own users, and a container below /r. *)
Definition idLFS (passwd : Node) (data : string) : LFS := {|
  l_nodes := list_to_map [(["etc"], NDir); (["etc"; "passwd"], NFile 0); (["r"], NDir); (["r"; "etc"], NDir); (["r"; "etc"; "passwd"], passwd)];
  l_data := {[ 0 := rootLine +:+ nl; 1 := data ]} |}.

Definition passwdOf (r : LFS * (XErr + ())) (p : Path) : option string :=
  nodeAt r.1 p ≫= λ n, match n with NFile i => r.1.(l_data) !! i | _ => None end.

Lemma user_identity_witness :
  let fs := idLFS (NFile 1) (unlines [rootLine]) in
  let r := prepareUserIdentity demoXEnv "/r" (Some 1000%Z) None fs in
  linesAt r.1 ["r"; "etc"; "passwd"] [rootLine; "peri-1000:x:1000:0::/home/peri-1000:/bin/sh"] ∧
  linesAt r.1 ["r"; "etc"; "group"] ["peri-0:x:0:"] ∧ nodeAt r.1 ["etc"; "passwd"] = Some (NFile 0).
Proof.
  intros fs r.
  assert (dirsTo fs ["r"; "etc"]) as Hd.
  { intros a Ha. vm_compute in Ha. repeat (apply elem_of_cons in Ha as [->|Ha]; [vm_compute; reflexivity|]). by apply elem_of_nil in Ha. }
  pose proof (user_identity demoXEnv "/r" 1000 None fs [rootLine] [] (λ _ _, eq_refl) eq_refl ltac:(lia) ltac:(cbn; lia) Hd
    ltac:(right; exists 1; split; vm_compute; reflexivity) ltac:(left; split; vm_compute; reflexivity)
    ltac:(apply Forall_singleton; split; [split|]; vm_compute; reflexivity) ltac:(constructor)
    ltac:(intros i _; vm_compute; discriminate)) as H.
  change (prepareUserIdentity demoXEnv "/r" (Some 1000%Z) None fs) with r in H. rewrite (surjective_pairing r) in H.
  destruct H as (_ & H1 & _ & H2 & _ & H3). split; [exact H1|]. split; [exact H2|].
  apply H3; [discriminate|discriminate|discriminate|vm_compute; reflexivity].
Defined.

(** Defect: without a newline at the end of the file, the entry is appended to
    the last line; the user is not found, and that line is damaged. *)
Example last_line_joined :
  let r := prepareUserIdentity demoXEnv "/r" (Some 1000%Z) None (idLFS (NFile 1) rootLine) in
  passwdOf r ["r"; "etc"; "passwd"] = Some (rootLine +:+ "peri-1000:x:1000:0::/home/peri-1000:/bin/sh" +:+ nl) ∧
  entryExists demoXEnv ["r"; "etc"; "passwd"] "1000" 2 r.1 = false.
Proof. by vm_compute. Qed.

(** Defect: links in the image are followed on the host: the user is added to
    the host's file. *)
Example host_passwd_changed :
  let r := prepareUserIdentity demoXEnv "/r" (Some 1000%Z) None (idLFS (NLink "/etc/passwd") "") in
  passwdOf r ["etc"; "passwd"] = Some (rootLine +:+ nl +:+ "peri-1000:x:1000:0::/home/peri-1000:/bin/sh" +:+ nl).
Proof. by vm_compute. Qed.

(** The FIFOs of a container are both there after a set-up, and gone after the
    clean-up. *)
Lemma fifos_roundtrip uid c fifos fifos' dir : plain (uid +:+ "-" +:+ c) → setupUserNSFIFOs (λ _, true) (λ _, true) uid c fifos = (fifos', Some dir) →
  pathJoin [dir; "ready"] ∈ fifos' ∧ pathJoin [dir; "gate"] ∈ fifos' ∧
  cleanupUserNSFIFOs uid c fifos' = fifos ∖ {[ pathJoin [dir; "ready"]; pathJoin [dir; "gate"] ]}.
Proof.
  unfold setupUserNSFIFOs, cleanupUserNSFIFOs. intros Hn. cbn [negb]. intros [= <- <-].
  destruct (pathJoin_names usernsFIFOBase [uid +:+ "-" +:+ c] eq_refl) as [Hr _]; [by apply Forall_singleton|done|].
  set (d := pathJoin [_; uid +:+ "-" +:+ c]) in *. assert (pathJoin [d; "ready"] ≠ pathJoin [d; "gate"]) as Hne.
  { intros He%(f_equal cleanComponents). destruct (pathJoin_names d ["ready"] Hr) as [_ E1]; [by repeat constructor|done|].
    destruct (pathJoin_names d ["gate"] Hr) as [_ E2]; [by repeat constructor|done|]. rewrite E1, E2 in He. by apply app_inj_tail in He as [_ ?]. }
  split_and!; [set_solver|set_solver|]. apply leibniz_equiv. set_solver.
Qed.
