(* ===== verification/Shim.v ===== *)
(** * The shim of user namespaces (cmd/userns-shim/main.c) and its protocol with the host

    The C program as a machine: [shimNext] goes on after each system call with
    the answer it got. [pstep] runs it together with the host, whose calls are
    those of [completeUserNSSetup] of [UserNS.v], over the two FIFOs and the
    files of the process, with any call of either side failing at any time. *)
From stdpp Require Import pretty.
From S2P Require Import Prelude Monad Trace Text Paths UserNS.
Import Str.

(** ** sscanf *)

Fixpoint scanDigits (s : string) (n : Z) : Z * string :=
  match s with
  | String c s' => match digit c with Some d => scanDigits s' (n * 10 + d)%Z | None => (n, s) end
  | "" => (n, "")
  end.

(** [%u]: [strtoul], cut to 32 bits. *)
Definition scanU (s : string) : option (Z * string) :=
  let '(neg, s) := match trimLeft s with
                   | String "-" s' => (true, s')
                   | String "+" s' => (false, s')
                   | s => (false, s)
                   end in
  match s with
  | String c _ =>
      match digit c with
      | Some _ => let '(n, rest) := scanDigits s 0 in
                  Some (if (maxUint64 <? n)%Z then 4294967295%Z else u32 (if neg : bool then (- n)%Z else n), rest)
      | None => None
      end
  | "" => None
  end.

(** [sscanf(buf, "%u:%u", ...) == 2] *)
Definition scanIds (buf : string) : option (Z * Z) :=
  match scanU buf with
  | Some (uid, String ":" rest) => match scanU rest with Some (gid, _) => Some (uid, gid) | None => None end
  | _ => None
  end.

(** A string in a buffer ends at the first NUL. *)
Fixpoint cString (s : string) : string :=
  match s with String "000" _ | "" => "" | String c s => String c (cString s) end.

(** ** The program *)

Inductive ShimPC :=
  | AtUnshare | AtOpenReady | AtWriteReady | AtOpenGate | AtPoll | AtRead
  | AtSetgid (uid gid : Z) | AtSetuid (uid : Z) | AtExec
  | Running
  | Died (msg : string)
  | Usage.

Inductive SysAns := SysOk | SysFail | SysTimeout | SysData (data : string).

Definition shimStart (argc : nat) : ShimPC := if argc <? 2 then Usage else AtUnshare.

Definition shimNext (pc : ShimPC) (ans : SysAns) : ShimPC :=
  match pc, ans with
  | AtUnshare, SysOk => AtOpenReady
  | AtUnshare, _ => Died "unshare(CLONE_NEWUSER)"
  | AtOpenReady, SysOk => AtWriteReady
  | AtOpenReady, _ => Died "open /run/userns/ready"
  | AtWriteReady, SysOk => AtOpenGate
  | AtWriteReady, _ => Died "write ready"
  | AtOpenGate, SysOk => AtPoll
  | AtOpenGate, _ => Died "open /run/userns/gate"
  | AtPoll, SysOk => AtRead
  | AtPoll, SysTimeout => Died "poll timeout"
  | AtPoll, _ => Died "poll"
  | AtRead, SysData (String c buf) =>
      match scanIds (cString (String c buf)) with Some (uid, gid) => AtSetgid uid gid | None => Died "gate payload" end
  | AtRead, _ => Died "read gate"
  | AtSetgid uid _, SysOk => AtSetuid uid
  | AtSetgid _ _, _ => Died "setgid"
  | AtSetuid _, SysOk => AtExec
  | AtSetuid _, _ => Died "setuid"
  | AtExec, SysOk => Running
  | AtExec, _ => Died "execvp"
  | (Running | Died _ | Usage), _ => pc
  end.

Definition bufSize : nat := 31.

(** ** Together with the host *)

(** What is left of the host's calls; the shim; what is in the FIFOs, and whether
    the shim has the gate open; the files of processes; the namespace and the
    identity of the shim. *)
Record Proto := {
  pr_host : list UAct;
  pr_shim : ShimPC;
  pr_ready : bool;
  pr_gate : string;
  pr_reader : bool;
  pr_files : gmap string string;
  pr_userns : bool;
  pr_uid : Z;
  pr_gid : Z;
}.

(** The kernel: an ID can be taken if it is in the map of the namespace. *)
Definition mappedIn (files : gmap string string) (file : string) (id : Z) : Prop :=
  (∃ base, files !! file = Some (mapLine base)) ∧ (0 <= id < 65536)%Z.

(** Opening a FIFO waits for the other side: the host is there when its next
    call is the one that opens it. *)
Definition hostAtReady (h : list UAct) : Prop := ∃ b l, h = UReady b :: l.
Definition hostAtGate (h : list UAct) : Prop := ∃ d b l, h = UGate d b :: l.

(** [true]: the call succeeded. *)
Inductive pstep (pid : Z) : bool → Proto → Proto → Prop :=
  | p_ready s h : s.(pr_host) = UReady true :: h → s.(pr_ready) = true →
      pstep pid true s {| s with pr_host := h; pr_ready := false |}
  | p_leader s p h : s.(pr_host) = ULeader (Some p) :: h → pstep pid true s {| s with pr_host := h |}
  | p_write s f d h : s.(pr_host) = UWrite f d true :: h →
      pstep pid true s {| s with pr_host := h; pr_files := <[ f := d ]> s.(pr_files) |}
  | p_gate s d h : s.(pr_host) = UGate d true :: h → s.(pr_reader) = true →
      pstep pid true s {| s with pr_host := h; pr_gate := s.(pr_gate) +:+ d |}
  | p_failed s a h : s.(pr_host) = a :: h → (failed a ∨ ∃ d, a = UGate d false) → pstep pid false s {| s with pr_host := h |}
  | s_unshare s : s.(pr_shim) = AtUnshare → pstep pid true s {| s with pr_shim := shimNext AtUnshare SysOk; pr_userns := true |}
  | s_openReady s : s.(pr_shim) = AtOpenReady → hostAtReady s.(pr_host) →
      pstep pid true s {| s with pr_shim := shimNext AtOpenReady SysOk |}
  | s_writeReady s : s.(pr_shim) = AtWriteReady →
      pstep pid true s {| s with pr_shim := shimNext AtWriteReady SysOk; pr_ready := true |}
  | s_openGate s : s.(pr_shim) = AtOpenGate → hostAtGate s.(pr_host) →
      pstep pid true s {| s with pr_shim := shimNext AtOpenGate SysOk; pr_reader := true |}
  | s_poll s : s.(pr_shim) = AtPoll → s.(pr_gate) ≠ "" → pstep pid true s {| s with pr_shim := shimNext AtPoll SysOk |}
  | s_timeout s : s.(pr_shim) = AtPoll → s.(pr_gate) = "" → pstep pid false s {| s with pr_shim := shimNext AtPoll SysTimeout |}
  | s_read s : s.(pr_shim) = AtRead → s.(pr_gate) ≠ "" →
      pstep pid true s {| s with pr_shim := shimNext AtRead (SysData (stake bufSize s.(pr_gate)));
                                 pr_gate := sdrop bufSize s.(pr_gate) |}
  | s_setgid s uid gid : s.(pr_shim) = AtSetgid uid gid → mappedIn s.(pr_files) (procFile pid "gid_map") gid →
      pstep pid true s {| s with pr_shim := shimNext (AtSetgid uid gid) SysOk; pr_gid := gid |}
  | s_setuid s uid : s.(pr_shim) = AtSetuid uid → mappedIn s.(pr_files) (procFile pid "uid_map") uid →
      pstep pid true s {| s with pr_shim := shimNext (AtSetuid uid) SysOk; pr_uid := uid |}
  | s_exec s : s.(pr_shim) = AtExec → pstep pid true s {| s with pr_shim := shimNext AtExec SysOk |}
  | s_failed s : pstep pid false s {| s with pr_shim := shimNext s.(pr_shim) SysFail |}.

(** The start: the host will make the calls of [h]. The identity is that of
    processes without a map. *)
Definition protoStart (h : list UAct) (argc : nat) : Proto := {|
  pr_host := h; pr_shim := shimStart argc; pr_ready := false; pr_gate := ""; pr_reader := false; pr_files := ∅;
  pr_userns := false; pr_uid := 65534; pr_gid := 65534 |}.

(** The calls that the host makes with the answers of [env]. *)
Definition hostCalls (env : UEnv) (sha256 : string → list Z) (podUID : string) (uid gid : Z) : list UAct :=
  (completeUserNSSetup env sha256 podUID uid gid {| t_trace := []; t_data := tt |}).1.(t_trace).

(** ** The message *)

Definition payload (uid gid : Z) : string := pretty uid +:+ ":" +:+ pretty gid +:+ nl.

Lemma pretty_go_append n s s' : pretty_N_go n s +:+ s' = pretty_N_go n (s +:+ s').
Proof.
  revert s. induction (N.lt_wf_0 n) as [n _ IH]; intros s.
  destruct (decide (n = 0%N)) as [->|Hne]; [by rewrite !pretty_N_go_0|].
  rewrite !(pretty_N_go_step n) by lia. rewrite IH by (apply N.div_lt; lia). done.
Qed.

Lemma scanDigits_go n s : scanDigits (pretty_N_go n s) 0 = scanDigits s (Z.of_N n).
Proof.
  revert s. induction (N.lt_wf_0 n) as [n _ IH]; intros s.
  destruct (decide (n = 0%N)) as [->|Hne]; [by rewrite pretty_N_go_0|].
  rewrite pretty_N_go_step by lia. rewrite IH by (apply N.div_lt; lia). cbn [scanDigits].
  rewrite pretty_N_char_digit by (apply N.mod_lt; lia). f_equal. pose proof (N.div_mod n 10). lia.
Qed.

(** The first character of a number. *)
Lemma pretty_head (n : Z) s : (0 <= n)%Z → ∃ c rest, pretty n +:+ s = String c rest ∧ is_Some (digit c) ∧ isSpace c = false.
Proof.
  intros Hn. destruct n as [|p|p]; [by exists "0"%char, s|rewrite pretty_Z_pos, pretty_go_append|lia].
  generalize ("" +:+ s). assert (0 < N.pos p)%N as Hp by lia. revert Hp. generalize (N.pos p). clear. intros n Hp.
  induction (N.lt_wf_0 n) as [n _ IH]; intros s'. rewrite pretty_N_go_step by lia.
  destruct (decide (n `div` 10 = 0)%N) as [->|Hne].
  - rewrite pretty_N_go_0. eexists _, _. split; [done|]. rewrite pretty_N_char_digit by (apply N.mod_lt; lia).
    split; [done|apply pretty_N_char_noSpace].
  - apply IH; [apply N.div_lt; lia|by apply N.neq_0_lt_0].
Qed.

Lemma digit_sign c : is_Some (digit c) → c ≠ "-"%char ∧ c ≠ "+"%char.
Proof. intros [d Hd]. split; by intros ->. Qed.

Lemma scanDigits_pretty (n : Z) s : (0 <= n)%Z → match s with String c _ => digit c = None | "" => True end →
  scanDigits (pretty n +:+ s) 0 = (n, s).
Proof.
  intros Hn Hs. assert (scanDigits (pretty n +:+ s) 0 = scanDigits s n) as ->.
  { destruct n as [|p|p]; [done| |lia]. rewrite pretty_Z_pos, pretty_go_append, scanDigits_go. done. }
  destruct s as [|c s]; cbn; [done|]. by rewrite Hs.
Qed.

Lemma scanU_pretty (n : Z) s : (0 <= n < 2 ^ 32)%Z → match s with String c _ => digit c = None | "" => True end →
  scanU (pretty n +:+ s) = Some (n, s).
Proof.
  intros Hn Hs. destruct (pretty_head n s) as (c & rest & Hc & [d Hd] & Hsp); [lia|]. unfold scanU.
  rewrite Hc. cbn [trimLeft]. rewrite Hsp. destruct (digit_sign c) as [H1 H2]; [by exists d|].
  assert (match String c rest with String "-" s' => (true, s') | String "+" s' => (false, s') | s => (false, s) end = (false, String c rest)) as ->
    by (destruct c as [[] [] [] [] [] [] [] []]; congruence).
  rewrite Hd, <- Hc, scanDigits_pretty by (lia || done). destruct (Z.ltb_spec maxUint64 n); [unfold maxUint64 in *; lia|].
  unfold u32. by rewrite Z.mod_small by lia.
Qed.

Lemma len_small (n : Z) : (0 <= n < 2 ^ 31)%Z → len (pretty n) <= 10.
Proof.
  intros Hn. destruct n as [|p|p]; [cbn; lia| |lia]. rewrite pretty_Z_pos. etransitivity; [apply (len_pretty_go 10)|cbn; lia]. cbn. lia.
Qed.

Lemma stake_short n s : len s <= n → stake n s = s.
Proof. revert n. induction s as [|c s IH]; intros [|n] H; cbn in *; try done; [lia|]. by rewrite IH by lia. Qed.

Lemma cString_noNul s : index_byte s "000" = None → cString s = s.
Proof.
  induction s as [|c s IH]; [done|]. cbn [index_byte]. case_decide as Hc; [done|]. intros Hn%fmap_None.
  rewrite <- (IH Hn) at 2. cbn. destruct c as [[] [] [] [] [] [] [] []]; done.
Qed.

(** What the host writes is what the shim reads. *)
Lemma payload_roundtrip uid gid : (0 <= uid < 2 ^ 31)%Z → (0 <= gid < 2 ^ 31)%Z →
  shimNext AtRead (SysData (stake bufSize (payload uid gid))) = AtSetgid uid gid.
Proof.
  intros Hu Hg. pose proof (len_small uid Hu). pose proof (len_small gid Hg).
  rewrite stake_short by (unfold payload, bufSize; rewrite !length_app; cbn; lia).
  destruct (pretty_head uid (":" +:+ pretty gid +:+ nl)) as (c & rest & Hc & _); [lia|].
  unfold payload. rewrite Hc. cbn [shimNext]. rewrite <- Hc, cString_noNul.
  - unfold scanIds. rewrite scanU_pretty by (lia || done). change (":" +:+ pretty gid +:+ nl) with (String ":" (pretty gid +:+ nl)). cbn iota beta. by rewrite scanU_pretty by (lia || done).
  - repeat apply index_byte_none_app; try done; by apply index_byte_pretty; [|lia].
Qed.

(** ** What the host does *)

Section Protocol.
Context (sha256 : string → list Z) (podUID : string) (base uid gid : Z).
Hypothesis Hbase : computeUIDBASE sha256 podUID = Some base.
Hypothesis Huid : (0 <= uid < 2 ^ 31)%Z.
Hypothesis Hgid : (0 <= gid < 2 ^ 31)%Z.

Definition hostForm (T : list UAct) : Prop :=
  (∃ p ok, T = steps p base uid gid ++ [UGate (payload uid gid) ok]) ∨
  (∃ p k last, T = take k (steps p base uid gid) ++ last ∧ length last <= 1 ∧ Forall failed last).

Lemma hostCalls_form env : hostForm (hostCalls env sha256 podUID uid gid).
Proof.
  destruct (wp_completeUserNSSetup env sha256 podUID base uid gid [] tt Hbase) as (r & new & d' & Hr & H).
  unfold hostCalls. rewrite Hr. cbn. unfold hostForm, payload. destruct H as [(p & ok & _ & ->)|(p & k & last & _ & -> & ? & ?)]; [by left; exists p, ok|by right; exists p, k, last].
Qed.

(** The gate is the last call, after all others succeeded. *)
Lemma gate_last T done d b h : hostForm T → done ++ UGate d b :: h = T →
  h = [] ∧ d = payload uid gid ∧ ∃ p, done = steps p base uid gid.
Proof.
  intros [(p & ok & ->)|(p & k & last & -> & _ & Hl)] H.
  - unfold steps in *. destruct done as [|? [|? [|? [|? [|? [|? [|? ?]]]]]]]; simplify_list_eq. eauto.
  - exfalso. assert (UGate d b ∈ take k (steps p base uid gid) ++ last) as Hin by (rewrite <- H; set_solver).
    apply elem_of_app in Hin as [Hin|Hin].
    + apply elem_of_take in Hin as (i & Hi & _). apply list_elem_of_lookup_2 in Hi. unfold steps in Hi. set_solver.
    + rewrite Forall_forall in Hl. by apply Hl in Hin.
Qed.

Definition filesOf (l : list UAct) : gmap string string :=
  foldl (λ m a, match a with UWrite f d true => <[ f := d ]> m | _ => m end) ∅ l.

Lemma filesOf_snoc l a : filesOf (l ++ [a]) = match a with UWrite f d true => <[ f := d ]> (filesOf l) | _ => filesOf l end.
Proof. unfold filesOf. by rewrite foldl_app. Qed.

(** ** The invariant *)

Section Invariant.
Context (pid : Z) (T : list UAct) (HT : hostForm T).

(** The message has been sent. *)
Definition sent (done : list UAct) : Prop := ∃ p, done = steps p base uid gid ++ [UGate (payload uid gid) true].

Definition shimOk (done : list UAct) (s : Proto) : Prop :=
  match s.(pr_shim) with
  | AtUnshare | Usage | Died _ => True
  | AtOpenReady | AtWriteReady | AtOpenGate | AtPoll | AtRead => s.(pr_userns) = true
  | AtSetgid u g => s.(pr_userns) = true ∧ sent done ∧ u = uid ∧ g = gid
  | AtSetuid u => s.(pr_userns) = true ∧ sent done ∧ u = uid ∧ s.(pr_gid) = gid ∧ mappedIn s.(pr_files) (procFile pid "gid_map") gid
  | AtExec | Running => s.(pr_userns) = true ∧ sent done ∧ s.(pr_uid) = uid ∧ s.(pr_gid) = gid ∧
      mappedIn s.(pr_files) (procFile pid "gid_map") gid ∧ mappedIn s.(pr_files) (procFile pid "uid_map") uid
  end.

Record proto_ok (s : Proto) (done : list UAct) : Prop := {
  po_host : done ++ s.(pr_host) = T;
  po_files : s.(pr_files) = filesOf done;
  po_gate : s.(pr_gate) ≠ "" → s.(pr_gate) = payload uid gid ∧ sent done;
  po_shim : shimOk done s;
}.

(** Once the message is sent the host is done. *)
Lemma sent_done done h : sent done → done ++ h = T → h = [].
Proof.
  intros [p ->] H. rewrite <- (assoc_L (++)) in H. by apply (gate_last T _ _ _ h HT) in H as [-> _].
Qed.

Lemma sent_mono done s a h : s.(pr_host) = a :: h → done ++ s.(pr_host) = T → ¬ sent done.
Proof. intros Hh Hd Hs. rewrite Hh in Hd. by apply (sent_done done) in Hd. Qed.

Lemma proto_ok_shim s s' done :
  proto_ok s done → s'.(pr_host) = s.(pr_host) → s'.(pr_files) = s.(pr_files) → (s'.(pr_gate) = s.(pr_gate) ∨ s'.(pr_gate) = "") →
  shimOk done s' → proto_ok s' done.
Proof.
  intros [H1 H2 H3 _] Hh Hf Hg Hs. split; [by rewrite Hh|by rewrite Hf|destruct Hg as [-> | ->]; [done|done]|done].
Qed.

(** A call of the host changes nothing for the shim, which waits. *)
Lemma proto_ok_host s a h g : s.(pr_host) = a :: h → shimOk g s → ¬ sent g → ∀ s' g',
  s'.(pr_shim) = s.(pr_shim) → s'.(pr_userns) = s.(pr_userns) → shimOk g' s'.
Proof.
  intros Hh Hs Hn s' g' Hpc Hns. unfold shimOk in *. rewrite Hpc, Hns. destruct (pr_shim s); try done; naive_solver.
Qed.

Lemma proto_ok_step b s s' done : proto_ok s done → pstep pid b s s' → ∃ done', proto_ok s' done'.
Proof.
  intros Hok Hstep. assert (Hok' := Hok). destruct Hok' as [H1 H2 H3 H4]. destruct Hstep as
    [s h Hh Hr|s p h Hh|s f d h Hh|s d h Hh Hr|s a h Hh Ha|s Hp|s Hp Hh|s Hp|s Hp Hh|s Hp Hg|s Hp Hg|s Hp Hg|s u g Hp Hm|s u Hp Hm|s Hp|s].
  1-5: pose proof (sent_mono _ _ _ _ Hh H1) as Hn; assert (pr_gate s = "") as Hgate by (destruct (decide (pr_gate s = "")); [done|]; by apply H3 in n as [_ ?]).
  - exists (done ++ [UReady true]). split; cbn; [by rewrite <- H1, Hh, <- (assoc_L (++))|by rewrite filesOf_snoc|by rewrite Hgate|].
    by eapply proto_ok_host.
  - exists (done ++ [ULeader (Some p)]). split; cbn; [by rewrite <- H1, Hh, <- (assoc_L (++))|by rewrite filesOf_snoc|by rewrite Hgate|].
    by eapply proto_ok_host.
  - exists (done ++ [UWrite f d true]). split; cbn; [by rewrite <- H1, Hh, <- (assoc_L (++))|by rewrite filesOf_snoc, H2|by rewrite Hgate|].
    by eapply proto_ok_host.
  - exists (done ++ [UGate d true]). rewrite Hh in H1. destruct (gate_last T done d true h HT H1) as (-> & -> & p & ->).
    split; cbn [pr_host pr_files pr_gate]; [by rewrite (right_id_L [] (++))|by rewrite filesOf_snoc|rewrite Hgate; split; [done|by exists p]|].
    by eapply proto_ok_host.
  - exists (done ++ [a]). split; cbn; [by rewrite <- H1, Hh, <- (assoc_L (++))| |by rewrite Hgate|by eapply proto_ok_host].
    rewrite filesOf_snoc, H2. destruct Ha as [Ha|[d ->]]; [|done]. destruct a as [| |f d []|]; done.
  - exists done. apply (proto_ok_shim s); [done|done|done|by left|done].
  - exists done. apply (proto_ok_shim s); [done|done|done|by left|]. unfold shimOk in *. by rewrite Hp in H4.
  - exists done. apply (proto_ok_shim s); [done|done|done|by left|]. unfold shimOk in *. by rewrite Hp in H4.
  - exists done. apply (proto_ok_shim s); [done|done|done|by left|]. unfold shimOk in *. by rewrite Hp in H4.
  - exists done. apply (proto_ok_shim s); [done|done|done|by left|]. unfold shimOk in *. by rewrite Hp in H4.
  - exists done. apply (proto_ok_shim s); [done|done|done|by left|]. by unfold shimOk in *.
  - exists done. destruct (H3 Hg) as [Hpay Hs]. apply (proto_ok_shim s); [done|done|done| |].
    + right. cbn [pr_gate]. rewrite Hpay. pose proof (len_small uid Huid). pose proof (len_small gid Hgid).
      assert (len (sdrop bufSize (payload uid gid)) = 0) as Hl
        by (rewrite length_sdrop; unfold payload, bufSize; rewrite !length_app; cbn; lia).
      destruct (sdrop bufSize (payload uid gid)); [done|cbn in Hl; lia].
    + unfold shimOk in *. cbn [pr_shim]. rewrite Hpay, payload_roundtrip by done. rewrite Hp in H4. by split_and!.
  - exists done. apply (proto_ok_shim s); [done|done|done|by left|]. unfold shimOk in *. rewrite Hp in H4. cbn. naive_solver.
  - exists done. apply (proto_ok_shim s); [done|done|done|by left|]. unfold shimOk in *. rewrite Hp in H4. cbn. naive_solver.
  - exists done. apply (proto_ok_shim s); [done|done|done|by left|]. unfold shimOk in *. rewrite Hp in H4. cbn. naive_solver.
  - exists done. apply (proto_ok_shim s); [done|done|done|by left|]. unfold shimOk in *. cbn. by destruct (pr_shim s).
Qed.
End Invariant.

(** ** The files of a process *)

Lemma pretty_noSlash (n : Z) : index_byte (pretty n) "/" = None.
Proof.
  destruct (decide (0 <= n)%Z) as [Hn|Hn]; [by apply index_byte_pretty|]. destruct n as [|p|p]; [lia..|].
  change (pretty (Z.neg p)) with (String "-" (pretty (N.pos p))). cbn [index_byte]. rewrite decide_False by done.
  change (pretty (N.pos p)) with (pretty (Z.pos p)). by rewrite index_byte_pretty by (done || lia).
Qed.

Lemma procFile_inj p q x y : index_byte x "/" = None → index_byte y "/" = None → procFile p x = procFile q y →
  x = y ∧ ∀ z, procFile p z = procFile q z.
Proof.
  intros Hx Hy H. apply (f_equal (splitOn "/")) in H. unfold procFile in *.
  assert (∀ (n : Z) z, index_byte z "/" = None → splitOn "/" ("/proc/" +:+ pretty n +:+ "/" +:+ z) = [""; "proc"; pretty n; z]) as Hs.
  { intros n z Hz. change ("/proc/" +:+ ?r) with ("" +:+ "/" +:+ ("proc" +:+ "/" +:+ r)).
    by rewrite !splitOn_plain, splitOn_last by (done || apply pretty_noSlash). }
  rewrite !Hs in H by done. injection H as Hp ->. by rewrite Hp.
Qed.

Lemma sent_files pid done id : sent done → mappedIn (filesOf done) (procFile pid "uid_map") id →
  filesOf done !! procFile pid "uid_map" = Some (mapLine base) ∧ filesOf done !! procFile pid "setgroups" = Some "deny" ∧
  filesOf done !! procFile pid "gid_map" = Some (mapLine base).
Proof.
  intros [p ->] [[b Hb] _]. rewrite filesOf_snoc in *. unfold filesOf, steps in *. cbn [foldl] in *.
  assert (∀ z, procFile pid z = procFile p z) as He.
  { apply lookup_insert_Some in Hb as [[H _]|[_ Hb]]; [by apply procFile_inj in H as [??]|].
    apply lookup_insert_Some in Hb as [[H _]|[_ Hb]]; [by apply procFile_inj in H as [??]|].
    apply lookup_insert_Some in Hb as [[H _]|[_ Hb]]; [|by rewrite lookup_empty in Hb].
    apply procFile_inj in H as [_ H]; [|done..]. intros z. by rewrite H. }
  rewrite !He. assert (∀ x y, x ≠ y → index_byte x "/" = None → index_byte y "/" = None → procFile p x ≠ procFile p y) as Hne
    by (intros x y Hxy Hx Hy H; by apply procFile_inj in H as [? _]).
  rewrite !(lookup_insert_ne _ (procFile p "gid_map")) by (apply Hne; done).
  rewrite !(lookup_insert_ne _ (procFile p "setgroups")) by (apply Hne; done). by rewrite !lookup_insert_eq.
Qed.

(** C19: The shim and the host together. Whatever fails on either side, and however their
    steps are interleaved: if the workload runs, it runs in a new user
    namespace, whose maps are those of its pod, in which setgroups is denied, and with
    the user and the group that were asked for. *)
Theorem userns_protocol env pid argc s :
  rtc (λ s s', ∃ b, pstep pid b s s') (protoStart (hostCalls env sha256 podUID uid gid) argc) s → s.(pr_shim) = Running →
  s.(pr_userns) = true ∧ s.(pr_uid) = uid ∧ s.(pr_gid) = gid ∧ (uid < 65536)%Z ∧ (gid < 65536)%Z ∧
  s.(pr_files) !! procFile pid "uid_map" = Some (mapLine base) ∧ s.(pr_files) !! procFile pid "setgroups" = Some "deny" ∧
  s.(pr_files) !! procFile pid "gid_map" = Some (mapLine base).
Proof.
  set (T := hostCalls env sha256 podUID uid gid). assert (hostForm T) as HT by apply hostCalls_form. intros Hr Hrun.
  assert (∃ done, proto_ok pid T s done) as (done & [_ Hf _ Hs]).
  { clear Hrun. revert s Hr. apply rtc_ind_r; [|intros s1 s2 _ [b Hb] [done Hd]; by eapply proto_ok_step].
    exists []. split; [done..|]. unfold shimOk, protoStart, shimStart. cbn [pr_shim]. by destruct (argc <? 2). }
  unfold shimOk in Hs. rewrite Hrun in Hs. destruct Hs as (Hns & Hsent & Hu & Hg & Hmg & Hmu). rewrite Hf in *.
  destruct (sent_files pid done uid Hsent Hmu) as (H1 & H2 & H3). destruct Hmg as [_ ?], Hmu as [_ ?]. split_and!; try done; lia.
Qed.

(** ** Without failures the workload starts *)

Section Live.
Context (pid : Z).
Hypothesis Huid' : (uid < 65536)%Z.
Hypothesis Hgid' : (gid < 65536)%Z.

(** The answers of a host on which everything works. *)
Definition hostWorks (env : UEnv) : Prop :=
  (∀ t, env.(ue_ready) t = true) ∧ (∀ t, env.(ue_leader) t = Some pid) ∧ (∀ t f, env.(ue_write) t f = true) ∧
  (∀ t, env.(ue_openGate) t = true) ∧ (∀ t, env.(ue_gate) t = true).

Definition allCalls : list UAct := steps pid base uid gid ++ [UGate (payload uid gid) true].

Lemma hostCalls_works env : hostWorks env → hostCalls env sha256 podUID uid gid = allCalls.
Proof.
  intros (H1 & H2 & H3 & H4 & H5).
  assert (wp (completeUserNSSetup env sha256 podUID uid gid) (λ _ new _, new = allCalls) [] tt) as (r & new & d & Hr & ->).
  { unfold completeUserNSSetup. wp_step. wp_step. rewrite H1. cbn [negb]. wp_step. wp_step. rewrite H2, Hbase. unfold writeProc.
    do 3 (wp_step; wp_step; wp_step; rewrite H3; wp_step). wp_step. wp_step. rewrite H4. cbn [negb]. wp_step. wp_step. rewrite H5. by wp_step. }
  unfold hostCalls. by rewrite Hr.
Qed.

Definition rank (pc : ShimPC) : nat :=
  match pc with
  | AtUnshare => 9 | AtOpenReady => 8 | AtWriteReady => 7 | AtOpenGate => 6 | AtPoll => 5 | AtRead => 4
  | AtSetgid _ _ => 3 | AtSetuid _ => 2 | AtExec => 1 | Running | Died _ | Usage => 0
  end.

(** After [k] calls of the host. *)
Definition shimLive (k : nat) (s : Proto) : Prop :=
  match s.(pr_shim) with
  | AtUnshare | AtOpenReady | AtWriteReady => k = 0 ∧ s.(pr_ready) = false ∧ s.(pr_reader) = false ∧ s.(pr_gate) = ""
  | AtOpenGate => k <= 5 ∧ s.(pr_ready) = (k =? 0) ∧ s.(pr_reader) = false ∧ s.(pr_gate) = ""
  | AtPoll => (k = 5 ∧ s.(pr_gate) = "" ∨ k = 6 ∧ s.(pr_gate) = payload uid gid) ∧ s.(pr_reader) = true
  | AtRead => k = 6 ∧ s.(pr_gate) = payload uid gid
  | AtSetgid u g => k = 6 ∧ u = uid ∧ g = gid
  | AtSetuid u => k = 6 ∧ u = uid
  | AtExec | Running => k = 6
  | Died _ | Usage => False
  end.

Record live (k : nat) (s : Proto) : Prop := {
  li_host : s.(pr_host) = drop k allCalls;
  li_files : s.(pr_files) = filesOf (take k allCalls);
  li_shim : shimLive k s;
}.

Lemma live_bound k s : live k s → k <= 6.
Proof. intros [_ _ H]. unfold shimLive in H. destruct (pr_shim s); naive_solver lia. Qed.

Lemma files_mapped f : f ∈ ["uid_map"; "gid_map"] → ∃ b, filesOf allCalls !! procFile pid f = Some (mapLine b).
Proof.
  intros Hf. exists base. unfold allCalls. rewrite filesOf_snoc. unfold filesOf, steps. cbn [foldl].
  assert (∀ x y, x ≠ y → index_byte x "/" = None → index_byte y "/" = None → procFile pid x ≠ procFile pid y) as Hne
    by (intros x y Hxy Hx Hy H; by apply procFile_inj in H as [? _]).
  apply list_elem_of_In in Hf as [<-|[<-|[]]]; [|by rewrite lookup_insert_eq].
  rewrite !lookup_insert_ne by (apply Hne; done). by rewrite lookup_insert_eq.
Qed.

Lemma payload_ne : payload uid gid ≠ "".
Proof. unfold payload. destruct (pretty_head uid (":" +:+ pretty gid +:+ nl)) as (c & r & -> & _); [lia|done]. Qed.

(** A state that is not the end goes on. *)
Lemma live_progress k s : live k s → (s.(pr_shim) = Running ∧ s.(pr_host) = []) ∨ ∃ s', pstep pid true s s'.
Proof.
  intros Hl. pose proof (live_bound k s Hl) as Hk. destruct Hl as [Hh Hf Hs]. unfold shimLive in Hs. destruct (pr_shim s) eqn:Hpc; try done.
  - right. eexists. by apply s_unshare.
  - right. eexists. apply s_openReady; [done|]. destruct Hs as [-> _]. rewrite Hh. by eexists _, _.
  - right. eexists. by apply s_writeReady.
  - right. destruct Hs as (Hk5 & Hr & Hrd & Hg). destruct k as [|[|[|[|[|[|k]]]]]]; cbn in Hh; [| | | | | |lia]; eexists.
    1: by eapply p_ready. 1: by eapply p_leader. 1-3: by eapply p_write.
    apply s_openGate; [done|]. rewrite Hh. by eexists _, _, _.
  - right. destruct Hs as [[[-> Hg]|[-> Hg]] Hr]; eexists; [cbn in Hh; by eapply p_gate|]. apply s_poll; [done|]. rewrite Hg. apply payload_ne.
  - right. destruct Hs as [-> Hg]. eexists. apply s_read; [done|]. rewrite Hg. apply payload_ne.
  - right. destruct Hs as (-> & -> & ->). eexists. eapply s_setgid; [done|]. rewrite Hf. split; [|lia]. apply files_mapped. set_solver.
  - right. destruct Hs as (-> & ->). eexists. eapply s_setuid; [done|]. rewrite Hf. split; [|lia]. apply files_mapped. set_solver.
  - right. eexists. by apply s_exec.
  - left. split; [done|]. by rewrite Hh, Hs.
Qed.

Lemma live_host k s a h : live k s → s.(pr_host) = a :: h →
  allCalls !! k = Some a ∧ h = drop (S k) allCalls ∧ filesOf (take (S k) allCalls) = filesOf (take k allCalls ++ [a]).
Proof.
  intros [Hh _ _] Ha. rewrite Hh in Ha. assert (allCalls !! k = Some a) as Hk.
  { rewrite <- (Nat.add_0_r k), <- lookup_drop. by rewrite Ha. }
  split_and!; [done| |by erewrite take_S_r]. rewrite (drop_S _ _ _ Hk) in Ha. by injection Ha.
Qed.

(** A call of the host: the shim waits at the gate, or for the message. *)
Lemma live_host_step k s a h s' : live k s → s.(pr_host) = a :: h → s'.(pr_host) = h → s'.(pr_shim) = s.(pr_shim) →
  s'.(pr_files) = filesOf (take k allCalls ++ [a]) → shimLive (S k) s' →
  ∃ k', live k' s' ∧ length s'.(pr_host) + rank s'.(pr_shim) + 1 = length s.(pr_host) + rank s.(pr_shim).
Proof.
  intros Hl Ha Hh Hpc Hf Hs. destruct (live_host k s a h Hl Ha) as (Hk & Hd & Ht). exists (S k). split.
  - split; [by rewrite Hh|by rewrite Hf, Ht|done].
  - rewrite Hh, Hpc, Ha. cbn. lia.
Qed.

Lemma live_shim_step k s s' : live k s → s'.(pr_host) = s.(pr_host) → s'.(pr_files) = s.(pr_files) → shimLive k s' →
  S (rank s'.(pr_shim)) = rank s.(pr_shim) →
  ∃ k', live k' s' ∧ length s'.(pr_host) + rank s'.(pr_shim) + 1 = length s.(pr_host) + rank s.(pr_shim).
Proof.
  intros [Hh Hf _] Hh' Hf' Hs Hr. exists k. split; [|rewrite Hh'; lia]. split; [by rewrite Hh'|by rewrite Hf'|done].
Qed.

Lemma host_index k a : allCalls !! k = Some a →
  match a with
  | UReady _ => k = 0 | ULeader _ => k = 1 | UWrite _ _ _ => 2 <= k <= 4 | UGate d _ => k = 5 ∧ d = payload uid gid
  end.
Proof.
  unfold allCalls, steps. destruct k as [|[|[|[|[|[|k]]]]]]; cbn [lookup list_lookup app]; intros [= <-]; try lia. done.
Qed.

(** Where the shim is while the host is between its first and its last call. *)
Lemma shimLive_mid k s : k <= 4 → (0 < k ∨ s.(pr_ready) = true) → shimLive k s →
  s.(pr_shim) = AtOpenGate ∧ s.(pr_reader) = false ∧ s.(pr_gate) = "" ∧ s.(pr_ready) = (k =? 0).
Proof.
  intros Hk Hr Hs. unfold shimLive in Hs. destruct (pr_shim s); try lia; try done.
  all: destruct Hs as (? & H & ? & ?); try done. all: destruct Hr as [Hr|Hr]; [lia|congruence].
Qed.

Lemma shimLive_reader s : s.(pr_reader) = true → shimLive 5 s → s.(pr_shim) = AtPoll ∧ s.(pr_gate) = "".
Proof.
  intros Hr Hs. unfold shimLive in Hs. destruct (pr_shim s); try done; try (destruct Hs; lia).
  - destruct Hs as (_ & _ & H & _). congruence.
  - destruct Hs as [[[_ H]|[H _]] _]; [done|lia].
Qed.

(** A successful step is one call of one side. *)
Lemma live_step k s s' : live k s → pstep pid true s s' →
  ∃ k', live k' s' ∧ length s'.(pr_host) + rank s'.(pr_shim) + 1 = length s.(pr_host) + rank s.(pr_shim).
Proof.
  intros Hl Hstep. assert (Hs := li_shim _ _ Hl). assert (Hf := li_files _ _ Hl).
  inversion Hstep as [s0 h Hh Hr|s0 p h Hh|s0 f d h Hh|s0 d h Hh Hr| |s0 Hp|s0 Hp Hh|s0 Hp|s0 Hp Hh|s0 Hp Hg| |s0 Hp Hg|s0 u g Hp Hm|s0 u Hp Hm|s0 Hp|];
    subst s0 s'.
  1-4: destruct (live_host _ _ _ _ Hl Hh) as (Hk & _); apply host_index in Hk; cbn beta iota in Hk.
  1-4: eapply (live_host_step k s); [exact Hl|exact Hh|reflexivity|reflexivity|cbn [pr_files]; rewrite filesOf_snoc, Hf; reflexivity|].
  - subst k. destruct (shimLive_mid 0 s) as (Hp & ? & ? & ?); [lia|by right|done|]. unfold shimLive. cbn [pr_shim]. rewrite Hp. split_and!; [lia|done..].
  - subst k. destruct (shimLive_mid 1 s) as (Hp & ? & ? & ?); [lia|left; lia|done|]. unfold shimLive. cbn [pr_shim]. rewrite Hp. split_and!; [lia|done..].
  - destruct (shimLive_mid k s) as (Hp & ? & ? & Hr); [lia|left; lia|done|]. unfold shimLive. cbn [pr_shim pr_ready]. rewrite Hp, Hr.
    split_and!; [lia| |done..]. destruct k; [lia|done].
  - destruct Hk as [-> ->]. destruct (shimLive_reader s Hr Hs) as [Hp Hg]. unfold shimLive. cbn [pr_shim pr_gate pr_reader]. rewrite Hp, Hg.
    split; [by right|done].
  - apply (live_shim_step k s); [done..| |by rewrite Hp]. unfold shimLive in *. by rewrite Hp in Hs.
  - apply (live_shim_step k s); [done..| |by rewrite Hp]. unfold shimLive in *. by rewrite Hp in Hs.
  - apply (live_shim_step k s); [done..| |by rewrite Hp]. unfold shimLive in *. rewrite Hp in Hs. cbn. destruct Hs as (-> & ? & ? & ?). split_and!; [lia|done..].
  - apply (live_shim_step k s); [done..| |by rewrite Hp]. unfold shimLive in *. rewrite Hp in Hs. destruct Hs as (Hk & ? & ? & ?).
    split; [|done]. left. split; [|done]. destruct Hh as (d & b & l & Hh). destruct (live_host _ _ _ _ Hl Hh) as (Hi & _). by apply host_index in Hi as [? _].
  - apply (live_shim_step k s); [done..| |by rewrite Hp]. unfold shimLive in *. rewrite Hp in Hs. by destruct Hs as [[[_ ?]|?] _].
  - unfold shimLive in Hs. rewrite Hp in Hs. destruct Hs as [-> Hpay].
    assert (shimNext AtRead (SysData (stake bufSize (pr_gate s))) = AtSetgid uid gid) as Hn by (rewrite Hpay; by apply payload_roundtrip).
    apply (live_shim_step 6 s); [done..| |]; cbn [pr_shim]; rewrite ?Hn, ?Hp; done.
  - apply (live_shim_step k s); [done..| |by rewrite Hp]. unfold shimLive in *. rewrite Hp in Hs. by destruct Hs as (? & ? & _).
  - apply (live_shim_step k s); [done..| |by rewrite Hp]. unfold shimLive in *. rewrite Hp in Hs. by destruct Hs as (? & _).
  - apply (live_shim_step k s); [done..| |by rewrite Hp]. unfold shimLive in *. by rewrite Hp in Hs.
Qed.

Lemma live_reaches m k s : live k s → length s.(pr_host) + rank s.(pr_shim) <= m → ∃ s', rtc (pstep pid true) s s' ∧ s'.(pr_shim) = Running.
Proof.
  revert k s. induction m as [|m IH]; intros k s Hl Hm; destruct (live_progress k s Hl) as [[Hr _]|[s1 H1]]; try (exists s; split; [apply rtc_refl|done]).
  - destruct (live_step k s s1 Hl H1) as (? & _ & H). lia.
  - destruct (live_step k s s1 Hl H1) as (k1 & Hl1 & H). destruct (IH k1 s1 Hl1) as (s' & Hs' & Hr); [lia|].
    exists s'. split; [by eapply rtc_l|done].
Qed.

Lemma live_start argc : 2 <= argc → live 0 (protoStart allCalls argc).
Proof. intros Ha. unfold protoStart, shimStart. destruct (Nat.ltb_spec argc 2); [lia|]. by split. Qed.

Lemma start_measure argc : 2 <= argc → length (protoStart allCalls argc).(pr_host) + rank (protoStart allCalls argc).(pr_shim) = 15.
Proof. intros Ha. unfold protoStart, shimStart. by destruct (Nat.ltb_spec argc 2); [lia|]. Qed.

(** C20: As long as no call fails, the handshake does not get stuck: after at most 15 calls of
    the shim and the host, in whatever order they come, the workload runs and the host is done.
    The user and the group have to be below 65536. *)
Theorem userns_completes env argc n s :
  hostWorks env → 2 <= argc → nsteps (pstep pid true) n (protoStart (hostCalls env sha256 podUID uid gid) argc) s →
  n <= 15 ∧ ((s.(pr_shim) = Running ∧ s.(pr_host) = [] ∧ n = 15) ∨ n < 15 ∧ ∃ s', pstep pid true s s').
Proof.
  intros Hw Ha Hn. rewrite hostCalls_works in Hn by done.
  assert (∃ k, live k s ∧ length s.(pr_host) + rank s.(pr_shim) + n = 15) as (k & Hl & Hm).
  { revert s Hn. induction n as [|n IH]; intros s Hn.
    - inversion Hn; subst. exists 0. split; [by apply live_start|]. by rewrite start_measure.
    - apply nsteps_inv_r in Hn as (s0 & Hn & Hs). destruct (IH _ Hn) as (k & Hl & Hm).
      destruct (live_step k s0 s Hl Hs) as (k' & Hl' & Hm'). exists k'. split; [done|lia]. }
  split; [lia|]. destruct (live_progress k s Hl) as [[Hr Hh]|Hs].
  - left. rewrite Hr, Hh in Hm. cbn in Hm. by split_and!; [| |lia].
  - right. split; [|done]. destruct Hs as [s' Hs]. destruct (live_step k s s' Hl Hs) as (k' & _ & Hm'). lia.
Qed.
End Live.
End Protocol.

(** ** On examples *)

Definition demoSha (_ : string) : list Z := repeat 7%Z 32.

Definition workingHost : UEnv := {|
  ue_ready := λ _, true; ue_leader := λ _, Some 42%Z; ue_write := λ _ _, true; ue_openGate := λ _, true; ue_gate := λ _, true |}.

Lemma userns_protocol_witness :
  ∃ s, rtc (λ s s', ∃ b, pstep 42 b s s') (protoStart (hostCalls workingHost demoSha "u" 1000 100) 2) s ∧ s.(pr_shim) = Running ∧
    s.(pr_uid) = 1000%Z ∧ s.(pr_gid) = 100%Z ∧ s.(pr_files) !! procFile 42 "uid_map" = Some (mapLine 589824).
Proof.
  assert (hostWorks 42 workingHost) as Hw by (repeat split).
  destruct (live_reaches demoSha "u" 589824 1000 100 eq_refl ltac:(lia) ltac:(lia) 42 ltac:(lia) ltac:(lia) 15 0 (protoStart (allCalls 589824 1000 100 42) 2))
    as (s & Hs & Hr); [apply live_start; lia|by rewrite start_measure by lia|].
  assert (rtc (λ s s', ∃ b, pstep 42 b s s') (protoStart (hostCalls workingHost demoSha "u" 1000 100) 2) s) as Hrun.
  { rewrite (hostCalls_works demoSha "u" 589824 1000 100 eq_refl 42 workingHost Hw).
    eapply rtc_subrel; [|exact Hs]. intros x y H. by exists true. }
  destruct (userns_protocol demoSha "u" 589824 1000 100 eq_refl ltac:(lia) ltac:(lia) workingHost 42 2 s Hrun Hr) as (_ & H1 & H2 & _ & _ & H3 & _).
  exists s. split; [exact Hrun|]. split; [exact Hr|]. split; [exact H1|]. split; [exact H2|exact H3].
Defined.

Lemma userns_completes_witness :
  ∃ s', pstep 42 true (protoStart (hostCalls workingHost demoSha "u" 1000 100) 2) s'.
Proof.
  destruct (userns_completes demoSha "u" 589824 1000 100 eq_refl ltac:(lia) ltac:(lia) 42 ltac:(lia) ltac:(lia) workingHost 2 0
    (protoStart (hostCalls workingHost demoSha "u" 1000 100) 2)) as (_ & [(H & _)|[_ H]]);
    [by repeat split|lia|apply nsteps_O|discriminate|exact H].
Defined.

(** A shim that opens the gate when the host is done: its call can only fail. *)
Lemma gate_stuck pid s b s' : s.(pr_host) = [] → s.(pr_shim) = AtOpenGate → pstep pid b s s' →
  b = false ∧ s'.(pr_shim) = Died "open /run/userns/gate".
Proof.
  intros Hh Hp Hs. destruct Hs as [? ? H|? ? ? H|? ? ? ? H|? ? ? H|? ? ? H|? H|? H|? H|? H G|? H|? H|? H|? ? ? H|? ? H|? H|?]; try congruence.
  - destruct G as (? & ? & ? & G). congruence.
  - cbn [pr_shim]. by rewrite Hp.
Qed.

Lemma map_write_fails f d pid : ∃ s, rtc (λ s s', ∃ b, pstep pid b s s') (protoStart [UReady true; ULeader (Some pid); UWrite f d false] 2) s ∧
  s.(pr_host) = [] ∧ s.(pr_shim) = AtOpenGate.
Proof.
  eexists. split.
  - unfold protoStart. eapply rtc_l; [eexists; by apply s_unshare|]. cbn.
    eapply rtc_l; [eexists; apply s_openReady; [done|by eexists _, _]|]. cbn. eapply rtc_l; [eexists; by apply s_writeReady|]. cbn.
    eapply rtc_l; [eexists; by eapply p_ready|]. cbn. eapply rtc_l; [eexists; by eapply p_leader|]. cbn.
    eapply rtc_l; [eexists; eapply p_failed; [done|by left]|]. cbn. apply rtc_refl.
  - done.
Qed.

(** Defect: the time-out of the shim begins after the gate is open. When the host fails
    before that, opening it waits for ever. *)
Example shim_hangs :
  let env := {| workingHost with ue_write := λ _ _, false |} in
  ∃ s, rtc (λ s s', ∃ b, pstep 42 b s s') (protoStart (hostCalls env demoSha "u" 1000 100) 2) s ∧
    s.(pr_host) = [] ∧ s.(pr_shim) = AtOpenGate ∧ ∀ b s', pstep 42 b s s' → b = false ∧ s'.(pr_shim) = Died "open /run/userns/gate".
Proof.
  intros env. assert (hostCalls env demoSha "u" 1000 100 = [UReady true; ULeader (Some 42%Z); UWrite (procFile 42 "uid_map") (mapLine 589824) false]) as ->
    by (vm_compute; reflexivity).
  destruct (map_write_fails (procFile 42 "uid_map") (mapLine 589824) 42) as (s & Hs & Hh & Hp).
  exists s. split_and!; [exact Hs|exact Hh|exact Hp|]. intros b s'. by apply gate_stuck.
Qed.
