(* ===== verification/Logs.v ===== *)
(** * Logs of containers (node/api/logs.go, node/exec.go, and of
    internal/runtime/systemd/runtime.go the journal)

    Logs are read from the journal. Its library is the class [Journal]: the
    operations the code calls, and [JournalLaws] what the library documents of
    them: matches on different fields must all hold, one on the same field
    suffices; a seek only sets the place from which [j_next] steps to an entry;
    [j_previousSkip] steps back to one. A message is followed by a newline. *)
From S2P Require Import Prelude Monad Text UnitNames Corev1 PodStore Exec.
Import Str.

(** ** Options *)

Record ContainerLogOpts := {
  lo_Tail : Z;
  lo_LimitBytes : Z;
  lo_Timestamps : bool;
  lo_Follow : bool;
  lo_Previous : bool;
  lo_SinceSeconds : Z;
  lo_SinceTime : Z;
}.

Definition noOpts : ContainerLogOpts := {|
  lo_Tail := 0; lo_LimitBytes := 0; lo_Timestamps := false; lo_Follow := false; lo_Previous := false; lo_SinceSeconds := 0; lo_SinceTime := 0 |}.

(** [strconv.ParseBool] *)
Definition ParseBool (s : string) : option bool :=
  if decide (s ∈ ["1"; "t"; "T"; "TRUE"; "true"; "True"]) then Some true
  else if decide (s ∈ ["0"; "f"; "F"; "FALSE"; "false"; "False"]) then Some false
  else None.

Inductive LogErr :=
  | ErrInvalid (param : string)
  | ErrBothSince
  | ErrPodNotFound
  | ErrJournal
  | ErrNoPrevious.

(** [q] are the values of the query, "" where there is none; [parseTime] is
    [time.Parse] with RFC 3339. *)
Section Options.
Context (parseTime : string → option Z) (q : string → string).

Definition optional {A} (name : string) (parse : string → option A) (ok : A → bool) (zero : A) : LogErr + A :=
  if decide (q name = "") then inr zero
  else match parse (q name) with
       | Some v => if ok v then inr v else inl (ErrInvalid name)
       | None => inl (ErrInvalid name)
       end.

Definition parseLogOptions : LogErr + ContainerLogOpts :=
  tail ← optional "tailLines" Atoi (λ n, 0 <=? n)%Z 0%Z;
  follow ← optional "follow" ParseBool (λ _, true) false;
  limit ← optional "limitBytes" Atoi (λ n, 1 <=? n)%Z 0%Z;
  previous ← optional "previous" ParseBool (λ _, true) false;
  since ← optional "sinceSeconds" Atoi (λ n, 1 <=? n)%Z 0%Z;
  time ← optional "sinceTime" parseTime (λ _, true) 0%Z;
  if negb (bool_decide (q "sinceTime" = "")) && (0 <? since)%Z then inl ErrBothSince else
  timestamps ← optional "timestamps" ParseBool (λ _, true) false;
  inr {| lo_Tail := tail; lo_LimitBytes := limit; lo_Timestamps := timestamps; lo_Follow := follow; lo_Previous := previous;
         lo_SinceSeconds := since; lo_SinceTime := time |}.
End Options.

(** ** The journal *)

Record Entry := { e_Fields : gmap string string; e_Realtime : Z }.

Definition field (name : string) (e : Entry) : string := default "" (e.(e_Fields) !! name).

(** [None] is an error; [j_next] tells whether there was an entry. *)
Class Journal (J : Type) := {
  j_addMatch : string → string → J → option J;
  j_flushMatches : J → J;
  j_seekHead : J → option J;
  j_seekTail : J → option J;
  j_seekRealtime : Z → J → option J;
  j_previousSkip : Z → J → option J;
  j_next : J → J * option bool;
  j_getEntry : J → option Entry;
  j_wait : J → J * Z;
}.

(** The entries that match. *)
Definition matchedBy (ms : list (string * string)) (e : Entry) : bool :=
  forallb (λ m, existsb (λ m', bool_decide (m'.1 = m.1) && bool_decide (field m'.1 e = m'.2)) ms) ms.

Definition matching (ms : list (string * string)) (all : list Entry) : list Entry := filter (λ e, matchedBy ms e = true) all.

Section Reader.
Context {J : Type} `{!Journal J}.

(** *** The invocations of a unit *)

Fixpoint ids_loop (fuel : nat) (seen : gset string) (j : J) : J * list string :=
  match fuel with
  | O => (j, [])
  | S fuel =>
      match j_next j with
      | (j, Some true) =>
          match j_getEntry j with
          | None => ids_loop fuel seen j
          | Some e =>
              let id := field "_SYSTEMD_INVOCATION_ID" e in
              if decide (id = "" ∨ id ∈ seen) then ids_loop fuel seen j
              else let '(j, ids) := ids_loop fuel ({[ id ]} ∪ seen) j in (j, id :: ids)
          end
      | (j, _) => (j, [])
      end
  end.

(** [fuel] bounds the number of entries. *)
Definition loadInvocationIDs (fuel : nat) (unitName : string) (j : J) : J * list string :=
  let j := default j (j_addMatch "_SYSTEMD_UNIT" unitName j) in
  match j_seekHead j with
  | None => (j_flushMatches j, [])
  | Some j => let '(j, ids) := ids_loop fuel ∅ j in (j_flushMatches j, ids)
  end.

(** *** The stream *)

Record journalReader := { jr_j : J; jr_buf : string; jr_follow : bool }.

Definition orJournal (o : option J) : LogErr + J := match o with Some j => inr j | None => inl ErrJournal end.

Definition targetInvocation (previous : bool) (ids : list string) : LogErr + string :=
  if previous then
    if length ids <? 2 then inl ErrNoPrevious else inr (default "" (ids !! (length ids - 2)))
  else inr (default "" (last ids)).

(** The cut-off in microseconds. *)
Definition cutoff (now since : Z) : Z := u64 ((now + wrap64 (wrap64 (- since) * 1000000000)) `div` 1000).

Definition seek (now : Z) (opts : ContainerLogOpts) (j : J) : LogErr + J :=
  if (0 <? opts.(lo_SinceSeconds))%Z then orJournal (j_seekRealtime (cutoff now opts.(lo_SinceSeconds)) j)
  else if (0 <? opts.(lo_Tail))%Z then
    j ← orJournal (j_seekTail j);
    orJournal (j_previousSkip opts.(lo_Tail) j)
  else orJournal (j_seekHead j).

(** [journal] is the new journal, unless it cannot be opened. *)
Definition GetLogStream (pawnName : string) (journal : option J) (fuel : nat) (now : Z) (podUID containerName : string)
    (opts : ContainerLogOpts) : LogErr + journalReader :=
  let unitName := wrapperUnitName pawnName podUID containerName in
  j ← orJournal journal;
  let '(j, ids) := loadInvocationIDs fuel unitName j in
  targetID ← targetInvocation opts.(lo_Previous) ids;
  j ← (if decide (targetID = "") then orJournal (j_addMatch "_SYSTEMD_UNIT" unitName j)
       else orJournal (j_addMatch "_SYSTEMD_INVOCATION_ID" targetID j));
  j ← orJournal (j_addMatch "SYSLOG_IDENTIFIER" containerName j);
  j ← seek now opts j;
  inr {| jr_j := j; jr_buf := ""; jr_follow := opts.(lo_Follow) |}.

Inductive ReadErr := EOF | ErrNext | ErrEntry | ErrWait | ErrCancelled | StillWaiting.

(** The wait of a reader that follows: [rounds] tells for each wait whether the
    context is done. *)
Fixpoint wait_rounds (rounds : list bool) (j : J) : J * list bool * (ReadErr + ()) :=
  match rounds with
  | [] => (j, [], inl StillWaiting)
  | true :: rounds => (j, rounds, inl ErrCancelled)
  | false :: rounds =>
      let '(j, status) := j_wait j in
      if (status =? 1)%Z then (j, rounds, inr tt)
      else if (status <? 0)%Z then (j, rounds, inl ErrWait)
      else wait_rounds rounds j
  end.

(** The next entry, whose text is never empty. *)
Fixpoint fill (fuel : nat) (rounds : list bool) (follow : bool) (j : J) : J * (ReadErr + string) :=
  match fuel with
  | O => (j, inl StillWaiting)
  | S fuel =>
      match j_next j with
      | (j, None) => (j, inl ErrNext)
      | (j, Some false) =>
          if negb follow then (j, inl EOF)
          else match wait_rounds rounds j with
               | (j, _, inl e) => (j, inl e)
               | (j, rounds, inr _) => fill fuel rounds follow j
               end
      | (j, Some true) =>
          match j_getEntry j with
          | None => (j, inl ErrEntry)
          | Some e => (j, inr (field "MESSAGE" e +:+ nl))
          end
      end
  end.

(** A read into a buffer of [cap] bytes. *)
Definition Read (cap : nat) (rounds : list bool) (r : journalReader) : journalReader * (ReadErr + string) :=
  let '(r, res) := match r.(jr_buf) with
                   | EmptyString =>
                       let '(j, res) := fill (S (length rounds)) rounds r.(jr_follow) r.(jr_j) in
                       match res with
                       | inr text => ({| r with jr_j := j; jr_buf := text |}, inr tt)
                       | inl e => ({| r with jr_j := j |}, inl e)
                       end
                   | _ => (r, inr tt)
                   end in
  match res with
  | inl e => (r, inl e)
  | inr _ => ({| r with jr_buf := sdrop cap r.(jr_buf) |}, inr (stake cap r.(jr_buf)))
  end.
End Reader.
Arguments journalReader J : clear implicits.

(** [Gambit.GetContainerLogs] *)
Definition GetContainerLogs {J} `{!Journal J} (s : PodStore) (pawnName : string) (journal : option J) (fuel : nat) (now : Z)
    (namespace podName containerName : string) (opts : ContainerLogOpts) : LogErr + journalReader J :=
  let uid := match FindPodUID s namespace podName with Some uid => uid | None => CompletedPodUID s namespace podName end in
  if decide (uid = "" ∧ FindPodUID s namespace podName = None) then inl ErrPodNotFound
  else GetLogStream pawnName journal fuel now uid containerName opts.

(** ** What the library promises *)

(** The entries of the journal, the matches that are set, and among the entries
    that match the index of the one [j_next] steps to. *)
Class JournalLaws (J : Type) `{!Journal J} := {
  v_all : J → list Entry;
  v_matches : J → list (string * string);
  v_next : J → nat;
  addMatch_law f v j j' : j_addMatch f v j = Some j' → v_all j' = v_all j ∧ v_matches j' = v_matches j ++ [(f, v)];
  flush_law j : v_all (j_flushMatches j) = v_all j ∧ v_matches (j_flushMatches j) = [];
  seekHead_law j j' : j_seekHead j = Some j' → v_all j' = v_all j ∧ v_matches j' = v_matches j ∧ v_next j' = 0;
  seekTail_law j j' : j_seekTail j = Some j' →
    v_all j' = v_all j ∧ v_matches j' = v_matches j ∧ v_next j' = length (matching (v_matches j) (v_all j));
  seekRealtime_law usec j j' : j_seekRealtime usec j = Some j' → v_all j' = v_all j ∧ v_matches j' = v_matches j ∧
    ∀ i e, i < v_next j' → matching (v_matches j) (v_all j) !! i = Some e → (e.(e_Realtime) < usec)%Z;
  previousSkip_law n j j' : (0 < n)%Z → j_previousSkip n j = Some j' → v_all j' = v_all j ∧ v_matches j' = v_matches j ∧
    (matching (v_matches j) (v_all j) ≠ [] → v_next j' = S (v_next j - Z.to_nat n));
  next_law j j' b : j_next j = (j', b) → v_all j' = v_all j ∧ v_matches j' = v_matches j ∧
    match b with
    | Some true => ∃ e, matching (v_matches j) (v_all j) !! v_next j = Some e ∧ j_getEntry j' = Some e ∧ v_next j' = S (v_next j)
    | Some false => matching (v_matches j) (v_all j) !! v_next j = None ∧ v_next j' = v_next j
    | None => True
    end;
}.

(** Without repetitions, each at its first place. *)
Definition distinct (l : list string) : list string := reverse (remove_dups (reverse l)).

Lemma remove_dups_snoc (l : list string) x : remove_dups (l ++ [x]) = filter (λ y, y ≠ x) (remove_dups l) ++ [x].
Proof.
  induction l as [|y l IH]; [done|]. cbn [app remove_dups].
  destruct (decide_rel elem_of y (l ++ [x])) as [H1|H1], (decide_rel elem_of y l) as [H2|H2]; rewrite ?IH.
  - done.
  - assert (y = x) as -> by set_solver. by rewrite filter_cons_False by (by intros H; apply H).
  - set_solver.
  - by rewrite filter_cons_True by set_solver.
Qed.

Lemma distinct_cons x l : distinct (x :: l) = x :: filter (λ y, y ≠ x) (distinct l).
Proof.
  unfold distinct. by rewrite reverse_cons, remove_dups_snoc, reverse_snoc, filter_reverse.
Qed.

(** The invocations of a unit, oldest first. *)
Definition invocations (unitName : string) (all : list Entry) : list string :=
  distinct (filter (λ id, id ≠ "") (map (field "_SYSTEMD_INVOCATION_ID") (filter (λ e, field "_SYSTEMD_UNIT" e = unitName) all))).

Lemma matchedBy_one f v e : matchedBy [(f, v)] e = true ↔ field f e = v.
Proof. unfold matchedBy. cbn. rewrite (bool_decide_eq_true_2 (f = f)) by done. rewrite andb_true_l, orb_false_r, andb_true_r. apply bool_decide_eq_true. Qed.

Lemma matchedBy_two f v g w e : f ≠ g → matchedBy [(f, v); (g, w)] e = true ↔ field f e = v ∧ field g e = w.
Proof.
  intros Hne. unfold matchedBy. cbn. rewrite (bool_decide_eq_true_2 (f = f)), (bool_decide_eq_true_2 (g = g)) by done.
  rewrite (bool_decide_eq_false_2 (f = g)), (bool_decide_eq_false_2 (g = f)) by done.
  cbn. rewrite !orb_false_r, !andb_true_r, andb_true_iff, !bool_decide_eq_true. done.
Qed.

Section Complete.
Context {J : Type} `{!Journal J, !JournalLaws J}.
Hypothesis no_errors : ∀ j, (j_next j).2 ≠ None.

Definition entries (j : J) : list Entry := matching (v_matches j) (v_all j).

Lemma ids_loop_spec fuel seen j : length (drop (v_next j) (entries j)) < fuel →
  let '(j', ids) := ids_loop fuel seen j in
  v_all j' = v_all j ∧
  ids = filter (λ id, id ∉ seen) (distinct (filter (λ id, id ≠ "") (map (field "_SYSTEMD_INVOCATION_ID") (drop (v_next j) (entries j))))).
Proof.
  revert seen j. induction fuel as [|fuel IH]; intros seen j Hlt; [lia|]. cbn [ids_loop].
  pose proof (no_errors j) as Hno. destruct (j_next j) as [j1 [[]|]] eqn:Hn; [| |done].
  - apply next_law in Hn as (Ha & Hm & e & He & Hg & Hx). rewrite Hg.
    assert (entries j1 = entries j) as Hent by (unfold entries; by rewrite Ha, Hm).
    assert (drop (v_next j) (entries j) = e :: drop (v_next j1) (entries j1)) as Hd.
    { rewrite Hent, Hx. by apply drop_S. }
    rewrite Hd in Hlt |- *. cbn in Hlt. rewrite <- Ha. cbn [map]. case_decide as Hid.
    + specialize (IH seen j1 ltac:(lia)). destruct (ids_loop fuel seen j1) as [j' ids]. destruct IH as [IH1 IH2]. split; [done|].
      rewrite IH2. destruct Hid as [Hid|Hid].
      * rewrite filter_cons_False by (by intros H; apply H). done.
      * destruct (decide (field "_SYSTEMD_INVOCATION_ID" e = "")) as [Hz|Hz]; [by rewrite filter_cons_False by (intros H; by apply H)|].
        rewrite filter_cons_True, distinct_cons by done. rewrite filter_cons_False by (by intros H; apply H).
        rewrite list_filter_filter. apply list_filter_iff. intros x. set_solver.
    + assert (field "_SYSTEMD_INVOCATION_ID" e ≠ "" ∧ field "_SYSTEMD_INVOCATION_ID" e ∉ seen) as [Hz Hs] by tauto.
      specialize (IH ({[ field "_SYSTEMD_INVOCATION_ID" e ]} ∪ seen) j1 ltac:(lia)). destruct (ids_loop fuel _ j1) as [j' ids].
      destruct IH as [IH1 IH2]. split; [done|]. rewrite filter_cons_True, distinct_cons, filter_cons_True by done. f_equal.
      rewrite IH2, list_filter_filter. apply list_filter_iff. intros x. set_solver.
  - apply next_law in Hn as (Ha & Hm & He & Hx). split; [done|]. by rewrite drop_ge by (by apply lookup_ge_None).
Qed.

Lemma loadInvocationIDs_spec fuel unitName j : v_matches j = [] → length (v_all j) < fuel →
  (∃ j', j_addMatch "_SYSTEMD_UNIT" unitName j = Some j' ∧ is_Some (j_seekHead j')) →
  let '(j', ids) := loadInvocationIDs fuel unitName j in
  v_all j' = v_all j ∧ v_matches j' = [] ∧ ids = invocations unitName (v_all j).
Proof.
  intros Hm Hf (j1 & H1 & [j2 H2]). unfold loadInvocationIDs. rewrite H1. change (default j (Some j1)) with j1. rewrite H2.
  apply addMatch_law in H1 as [A1 M1]. apply seekHead_law in H2 as (A2 & M2 & N2). rewrite Hm in M1.
  assert (entries j2 = filter (λ e, field "_SYSTEMD_UNIT" e = unitName) (v_all j)) as He.
  { unfold entries, matching. rewrite A2, A1, M2, M1. apply list_filter_iff. intros e. apply matchedBy_one. }
  pose proof (ids_loop_spec fuel ∅ j2) as H. rewrite N2, drop_0, He in H. destruct (ids_loop fuel ∅ j2) as [j3 ids].
  destruct H as [A3 ->]; [eapply Nat.le_lt_trans; [apply length_filter|done]|].
  destruct (flush_law j3) as [A4 M4]. rewrite A4, A3, A2, A1. split_and!; [done..|]. unfold invocations.
  rewrite (list_filter_iff _ (λ _, True)) by set_solver. apply filter_all. by apply Forall_true.
Qed.

(** What is still to be read. *)
Definition remaining (r : journalReader J) : string :=
  r.(jr_buf) +:+ unlines (map (field "MESSAGE") (drop (v_next r.(jr_j)) (entries r.(jr_j)))).

Lemma Read_step cap r : r.(jr_follow) = false → 0 < cap →
  match Read cap [] r with
  | (r', inr text) => remaining r = text +:+ remaining r' ∧ text ≠ "" ∧ r'.(jr_follow) = false
  | (_, inl e) => e = EOF ∧ remaining r = ""
  end.
Proof.
  intros Hf Hc.
  assert (∀ buf j, buf ≠ "" → remaining {| jr_j := j; jr_buf := buf; jr_follow := false |} =
    stake cap buf +:+ remaining {| jr_j := j; jr_buf := sdrop cap buf; jr_follow := false |} ∧ stake cap buf ≠ "") as Hcut.
  { intros buf j Hb. unfold remaining. cbn [jr_buf jr_j]. rewrite app_assoc, stake_sdrop. split; [done|]. destruct cap; [lia|]. by destruct buf. }
  unfold Read. destruct r as [j buf follow]. cbn in Hf. subst follow. cbn [jr_buf jr_j jr_follow]. destruct buf as [|c buf].
  - cbn [length fill negb]. pose proof (no_errors j) as Hno. destruct (j_next j) as [j1 [[]|]] eqn:Hn; [| |done].
    + apply next_law in Hn as (Ha & Hm & e & He & Hg & Hx). rewrite Hg. cbn [jr_buf jr_j jr_follow].
      assert (field "MESSAGE" e +:+ nl ≠ "") as Hne by (by destruct (field "MESSAGE" e)).
      destruct (Hcut (field "MESSAGE" e +:+ nl) j1 Hne) as [H1 H2]. split_and!; [|done..]. rewrite <- H1. unfold remaining. cbn [jr_buf jr_j].
      assert (entries j1 = entries j) as Hent by (unfold entries; by rewrite Ha, Hm). rewrite Hent, Hx.
      rewrite (drop_S (entries j) e _ He). cbn [map unlines foldr]. rewrite <- (app_assoc (field "MESSAGE" e)). done.
    + apply next_law in Hn as (Ha & Hm & He & Hx). split; [done|]. unfold remaining. cbn [jr_buf jr_j].
      by rewrite drop_ge by (by apply lookup_ge_None).
  - cbn [jr_buf jr_j jr_follow]. destruct (Hcut (String c buf) j) as [H1 H2]; [done|]. by split_and!.
Qed.

(** Reads into buffers of the given sizes: the text, and whether its end was
    reached. *)
Fixpoint drain (caps : list nat) (r : journalReader J) : string * bool :=
  match caps with
  | [] => ("", false)
  | cap :: caps =>
      match Read cap [] r with
      | (r, inr text) => let '(rest, eof) := drain caps r in (text +:+ rest, eof)
      | (_, inl e) => ("", match e with EOF => true | _ => false end)
      end
  end.

Lemma drain_spec caps r : r.(jr_follow) = false → Forall (λ cap, 0 < cap) caps → len (remaining r) < length caps →
  drain caps r = (remaining r, true).
Proof.
  revert r. induction caps as [|cap caps IH]; intros r Hf Hc Hlen; [cbn in Hlen; lia|]. apply Forall_cons in Hc as [Hc Hcs].
  cbn [drain]. pose proof (Read_step cap r Hf Hc) as H. destruct (Read cap [] r) as [r' [e|text]].
  - destruct H as [-> ->]. done.
  - destruct H as (H1 & H2 & H3). rewrite IH; [by rewrite H1|done|done|]. rewrite H1, length_app in Hlen. cbn in Hlen.
    destruct text; [done|]. cbn in Hlen. lia.
Qed.
End Complete.

(** What a log request asks for: the entries of the container in the invocation
    asked for, or in any of the unit if there is none. *)
Definition selector (unitName target : string) : string * string :=
  if decide (target = "") then ("_SYSTEMD_UNIT", unitName) else ("_SYSTEMD_INVOCATION_ID", target).

Definition wanted (unitName containerName target : string) (all : list Entry) : list Entry :=
  let sel := selector unitName target in
  filter (λ e, field sel.1 e = sel.2 ∧ field "SYSLOG_IDENTIFIER" e = containerName) all.

(** C25: Logs without a limit are complete: whatever the sizes of the buffers,
    the reads give the messages of the container, each on its line and in order,
    of the last invocation of its unit, or of the one before with [Previous],
    and then the end. *)
Theorem logs_complete {J} `{!Journal J, !JournalLaws J} pawnName (j : J) fuel now uid c opts r caps :
  let unitName := wrapperUnitName pawnName uid c in
  let ids := invocations unitName (v_all j) in
  let target := default "" (if opts.(lo_Previous) then ids !! (length ids - 2) else last ids) in
  let text := unlines (map (field "MESSAGE") (wanted unitName c target (v_all j))) in
  (∀ j, (j_next j).2 ≠ None) → (∀ f v j, is_Some (j_addMatch f v j)) → (∀ j, is_Some (j_seekHead j)) →
  v_matches j = [] → length (v_all j) < fuel →
  opts.(lo_Tail) = 0%Z → opts.(lo_SinceSeconds) = 0%Z → opts.(lo_Follow) = false →
  GetLogStream pawnName (Some j) fuel now uid c opts = inr r →
  Forall (λ cap, 0 < cap) caps → len text < length caps →
  drain caps r = (text, true) ∧ (opts.(lo_Previous) = true → 2 <= length ids).
Proof.
  intros unitName ids target text Hno Hadd Hseek Hm Hf Htail Hsince Hfol Hget Hcaps Hlen.
  unfold GetLogStream in Hget. cbn [orJournal mbind sum_bind] in Hget. fold unitName in Hget.
  pose proof (loadInvocationIDs_spec Hno fuel unitName j Hm Hf) as Hload. destruct (loadInvocationIDs fuel unitName j) as [j0 ids0].
  destruct Hload as (A0 & M0 & ->). { destruct (Hadd "_SYSTEMD_UNIT" unitName j) as [j' Hj']. by exists j'. }
  fold ids in Hget.
  destruct (targetInvocation (lo_Previous opts) ids) as [e|id] eqn:Ht; [done|]. cbn [mbind sum_bind] in Hget.
  assert (id = target ∧ (lo_Previous opts = true → 2 <= length ids)) as [-> Hprev].
  { unfold targetInvocation in Ht. unfold target. destruct (lo_Previous opts); [|by injection Ht as <-].
    destruct (Nat.ltb_spec (length ids) 2); [done|]. by injection Ht as <-. }
  split; [|done]. assert (remaining r = text ∧ jr_follow r = false) as [Hrem Hrf]; [|rewrite <- Hrem in *; by apply drain_spec].
  set (first := selector unitName target).
  assert ((if decide (target = "") then orJournal (j_addMatch "_SYSTEMD_UNIT" unitName j0)
           else orJournal (j_addMatch "_SYSTEMD_INVOCATION_ID" target j0)) = orJournal (j_addMatch first.1 first.2 j0)) as E1.
  { unfold first, selector. by case_decide. }
  rewrite E1 in Hget. destruct (Hadd first.1 first.2 j0) as [j1 H1]. rewrite H1 in Hget. cbn [orJournal mbind sum_bind] in Hget.
  destruct (Hadd "SYSLOG_IDENTIFIER" c j1) as [j2 H2]. rewrite H2 in Hget. cbn [orJournal mbind sum_bind] in Hget.
  unfold seek in Hget. rewrite Hsince, Htail in Hget. cbn in Hget. destruct (Hseek j2) as [j3 H3]. rewrite H3 in Hget. cbn in Hget.
  injection Hget as <-. split; [|done].
  apply addMatch_law in H1 as [A1 M1], H2 as [A2 M2]. apply seekHead_law in H3 as (A3 & M3 & N3).
  unfold remaining. cbn [jr_buf jr_j]. rewrite N3, drop_0. unfold text, wanted, entries, matching.
  rewrite A3, A2, A1, A0, M3, M2, M1, M0. change ("" +:+ ?x) with x. f_equal. f_equal. apply list_filter_iff. intros e.
  cbn [app]. fold first. rewrite matchedBy_two by (unfold first, selector; by case_decide). done.
Qed.

(** ** A journal *)

Record MemJournal := { mj_all : list Entry; mj_matches : list (string * string); mj_next : nat; mj_current : option Entry }.

Definition mj_entries (j : MemJournal) : list Entry := matching j.(mj_matches) j.(mj_all).

Definition mj_step (j : MemJournal) : MemJournal * option bool :=
  match mj_entries j !! j.(mj_next) with
  | Some e => ({| j with mj_next := S j.(mj_next); mj_current := Some e |}, Some true)
  | None => (j, Some false)
  end.

Definition mj_back (n : Z) (j : MemJournal) : MemJournal :=
  match mj_entries j with
  | [] => j
  | _ => let i := j.(mj_next) - Z.to_nat n in {| j with mj_next := S i; mj_current := mj_entries j !! i |}
  end.

#[export] Instance MemJournal_ops : Journal MemJournal := {
  j_addMatch f v j := Some {| j with mj_matches := j.(mj_matches) ++ [(f, v)] |};
  j_flushMatches j := {| j with mj_matches := [] |};
  j_seekHead j := Some {| j with mj_next := 0 |};
  j_seekTail j := Some {| j with mj_next := length (mj_entries j) |};
  j_seekRealtime usec j := Some {| j with
    mj_next := default (length (mj_entries j)) (find_index (λ e, usec <=? e.(e_Realtime))%Z (mj_entries j)) |};
  j_previousSkip n j := Some (mj_back n j);
  j_next j := mj_step j;
  j_getEntry j := j.(mj_current);
  j_wait j := (j, 0%Z);
}.

#[export] Program Instance MemJournal_laws : JournalLaws MemJournal := {
  v_all := mj_all; v_matches := mj_matches; v_next := mj_next }.
Next Obligation. by intros f v j j' [= <-]. Qed.
Next Obligation. done. Qed.
Next Obligation. by intros j j' [= <-]. Qed.
Next Obligation. by intros j j' [= <-]. Qed.
Next Obligation.
  intros usec j j' [= <-]. cbn. split_and!; [done..|]. intros i e Hi He. destruct (Z.ltb_spec e.(e_Realtime) usec); [done|]. exfalso.
  destruct (find_index _ (mj_entries j)) as [k|] eqn:Hk; cbn in Hi.
  - pose proof (find_index_first _ _ _ _ _ Hk He ltac:(by apply Z.leb_le)). lia.
  - apply find_index_None in Hk. rewrite Forall_forall in Hk. apply list_elem_of_lookup_2 in He. specialize (Hk e He). apply Z.leb_gt in Hk. lia.
Qed.
Next Obligation.
  intros n j j' Hn [= <-]. unfold mj_back, mj_entries. destruct (matching _ _) as [|x l]; [done|]. by split_and!.
Qed.
Next Obligation.
  intros j j' b. cbn. unfold mj_step. fold (mj_entries j). destruct (mj_entries j !! mj_next j) as [e|] eqn:He; intros [= <- <-]; [|done].
  split_and!; [done..|]. by exists e.
Qed.

(** ** On an example *)

Definition logEntry (id msg : string) : Entry := {|
  e_Fields := list_to_map [("_SYSTEMD_UNIT", wrapperUnitName "p" "u" "web"); ("_SYSTEMD_INVOCATION_ID", id);
                           ("SYSLOG_IDENTIFIER", "web"); ("MESSAGE", msg)];
  e_Realtime := 0 |}.

Definition demoJournal : MemJournal := {|
  mj_all := [logEntry "i1" "old"; logEntry "i2" "a"; logEntry "i2" "b"; logEntry "i2" "c"];
  mj_matches := []; mj_next := 0; mj_current := None |}.

Lemma logs_complete_witness : ∃ r, GetLogStream "p" (Some demoJournal) 5 0 "u" "web" noOpts = inr r ∧
  drain (repeat 1 9) r = ("a" +:+ nl +:+ "b" +:+ nl +:+ "c" +:+ nl, true).
Proof.
  destruct (GetLogStream "p" (Some demoJournal) 5 0 "u" "web" noOpts) as [e|r] eqn:E; [vm_compute in E; discriminate|].
  exists r. split; [reflexivity|].
  refine (proj1 (logs_complete "p" demoJournal 5 0 "u" "web" noOpts r (repeat 1 9) _ _ _ _ _ _ _ _ E _ _)).
  - intros j. cbn. unfold mj_step. by destruct (mj_entries j !! mj_next j).
  - by eexists.
  - by eexists.
  - reflexivity.
  - cbn. lia.
  - reflexivity.
  - reflexivity.
  - reflexivity.
  - by repeat constructor; lia.
  - vm_compute. lia.
Defined.

Definition logsOf (opts : ContainerLogOpts) : option string :=
  match GetLogStream "p" (Some demoJournal) 5 0 "u" "web" opts with
  | inr r => Some (drain (repeat 8 9) r).1
  | inl _ => None
  end.

Example previous_logs : logsOf {| noOpts with lo_Previous := true |} = Some ("old" +:+ nl).
Proof. by vm_compute. Qed.

(** Defect: stepping back leaves the reader at the first of the entries asked
    for, and its first step skips it: one line is missing, and a request for one
    line gives nothing. *)
Example tail_one_short :
  logsOf {| noOpts with lo_Tail := 2 |} = Some ("c" +:+ nl) ∧ logsOf {| noOpts with lo_Tail := 1 |} = Some "" ∧
  logsOf {| noOpts with lo_Tail := 100 |} = Some ("b" +:+ nl +:+ "c" +:+ nl).
Proof. by vm_compute. Qed.

(** Defect: a request for no lines gives all of them, and limits, times and
    timestamps that were accepted have no effect. *)
Example options_ignored :
  let get := λ name : string, if decide (name = "tailLines") then "0" else if decide (name = "limitBytes") then "1"
             else if decide (name = "timestamps") then "true" else if decide (name = "sinceTime") then "2030-01-01T00:00:00Z" else "" in
  match parseLogOptions (λ _, Some 1893456000000000000%Z) get with
  | inr opts => logsOf opts = logsOf noOpts
  | inl _ => False
  end.
Proof. by vm_compute. Qed.

(** The options that are accepted are consistent. *)
Lemma parseLogOptions_ok parseTime q opts : parseLogOptions parseTime q = inr opts →
  (0 <= opts.(lo_Tail))%Z ∧ (0 <= opts.(lo_LimitBytes))%Z ∧ (0 <= opts.(lo_SinceSeconds))%Z ∧
  (q "sinceTime" ≠ "" → opts.(lo_SinceSeconds) = 0%Z).
Proof.
  assert (∀ name (v : Z) lo, (0 <= lo)%Z → optional q name Atoi (λ n, lo <=? n)%Z 0%Z = inr v → (0 <= v)%Z) as Hopt.
  { intros name v lo Hlo. unfold optional. case_decide; [by intros [= <-]|]. destruct (Atoi _); [|done].
    destruct (Z.leb_spec lo z); [|done]. intros [= <-]. lia. }
  unfold parseLogOptions. intros H.
  repeat (apply sum_bind_inr in H as (? & ? & H)). destruct (negb _ && _) eqn:Hb in H; [done|].
  apply sum_bind_inr in H as (? & ? & H). injection H as <-. cbn. split_and!; [eapply Hopt; eauto; lia..|].
  intros Hs. rewrite bool_decide_eq_false_2 in Hb by done. apply Z.ltb_ge in Hb.
  enough (0 <= x3)%Z by lia. eapply Hopt; eauto; lia.
Qed.
