(* ===== verification/Signals.v ===== *)
(** * Signals of systemd (internal/runtime/systemd/runtime.go: SubscribeEvents,
    registerWaiter, notifyWaiters)

    The events goroutine turns D-Bus signals into unit events for the watcher
    and wakes the goroutines that wait for a unit. A channel is the list of
    what is buffered in it; a list of [SEvent]s is an interleaving of the events
    goroutine with those that register, wait and consume. *)
From S2P Require Import Prelude UnitNames BatchWatcher.
Import Str.

(** The body of a signal: what the type assertions distinguish. *)
Inductive Variant := VString (s : string) | VOther.
Inductive BodyItem := BString (s : string) | BMap (m : gmap string Variant) | BOther.

Record Signal := { sig_Path : string; sig_Body : list BodyItem }.

Definition unitPath : string := "/org/freedesktop/systemd1/unit/".

Definition pathPrefix (pawnName : string) : string := unitPath +:+ dbusUnitEscape ("perigeos-" +:+ pawnName +:+ "-").

(** The event of a signal, or none. *)
Definition signalEvent (pawnName : string) (sig : Signal) : option UnitEvent :=
  if negb (has_prefix sig.(sig_Path) (pathPrefix pawnName)) then None
  else match sig.(sig_Body) with
       | BString iface :: BMap changed :: _ =>
           if negb (bool_decide (iface = "org.freedesktop.systemd1.Unit")) then None
           else match changed !! "SubState" with
                | Some (VString subState) =>
                    Some {| ev_UnitName := dbusUnitUnescape (pathBase sig.(sig_Path)); ev_SubState := subState |}
                | _ => None
                end
       | _ => None
       end.

(** [unitWaiters] maps units to channels; [sg_chans] are their buffers. *)
Record SigState := {
  unitWaiters : gmap string nat;
  sg_chans : list (list string);
  eventCh : list UnitEvent;
}.

Definition waiterCap : nat := 4.
Definition eventCap : nat := 64.

Definition registerWaiter (unitName : string) (s : SigState) : SigState * nat :=
  let ch := length s.(sg_chans) in
  ({| s with unitWaiters := <[unitName := ch]> s.(unitWaiters); sg_chans := s.(sg_chans) ++ [[]] |}, ch).

(** The clean-up that [registerWaiter] returns. *)
Definition unregisterWaiter (unitName : string) (s : SigState) : SigState :=
  {| s with unitWaiters := delete unitName s.(unitWaiters) |}.

(** A send that does not block: dropped when the buffer is full. *)
Definition offer {A} (cap : nat) (x : A) (buf : list A) : list A := if length buf <? cap then buf ++ [x] else buf.

Definition notifyWaiters (unitName subState : string) (s : SigState) : SigState :=
  match s.(unitWaiters) !! unitName with
  | Some ch => {| s with sg_chans := alter (offer waiterCap subState) ch s.(sg_chans) |}
  | None => s
  end.

Definition onSignal (pawnName : string) (sig : Signal) (s : SigState) : SigState :=
  match signalEvent pawnName sig with
  | None => s
  | Some ev => let s := notifyWaiters ev.(ev_UnitName) ev.(ev_SubState) s in {| s with eventCh := offer eventCap ev s.(eventCh) |}
  end.

Inductive SEvent :=
  | SRegister (unitName : string)
  | SUnregister (unitName : string)
  | SSignal (sig : Signal)
  | SReceiveWaiter (ch : nat)
  | SReceiveEvent.

(** What the consumers have received: unit events, and per channel. *)
Record Received := { rc_events : list UnitEvent; rc_subs : gmap nat (list string) }.

Definition subsOf (ch : nat) (r : Received) : list string := default [] (r.(rc_subs) !! ch).

Definition sstep (pawnName : string) (s : SigState * Received) (e : SEvent) : SigState * Received :=
  let '(s, r) := s in
  match e with
  | SRegister unit => ((registerWaiter unit s).1, r)
  | SUnregister unit => (unregisterWaiter unit s, r)
  | SSignal sig => (onSignal pawnName sig s, r)
  | SReceiveWaiter ch =>
      match s.(sg_chans) !! ch with
      | Some (x :: buf) => ({| s with sg_chans := <[ch := buf]> s.(sg_chans) |},
                            {| r with rc_subs := <[ch := subsOf ch r ++ [x]]> r.(rc_subs) |})
      | _ => (s, r)
      end
  | SReceiveEvent =>
      match s.(eventCh) with
      | ev :: buf => ({| s with eventCh := buf |}, {| r with rc_events := r.(rc_events) ++ [ev] |})
      | [] => (s, r)
      end
  end.

Definition sinit : SigState * Received := ({| unitWaiters := ∅; sg_chans := []; eventCh := [] |}, {| rc_events := []; rc_subs := ∅ |}).

Definition srun (pawnName : string) (l : list SEvent) : SigState * Received := foldl (sstep pawnName) sinit l.

(** ** Names of units in paths *)

Lemma prefix_app_same a x y : String.prefix (a +:+ x) (a +:+ y) = String.prefix x y.
Proof.
  induction a as [|c a IH]; [done|]. change (String.prefix (String c (a +:+ x)) (String c (a +:+ y)) = String.prefix x y).
  cbn [String.prefix]. by destruct (ascii_dec c c).
Qed.

Lemma escape_byte_prefix c d x y : c ≠ d → String.prefix (escape_byte c +:+ x) (escape_byte d +:+ y) = false.
Proof.
  intros Hne. destruct (escape_byte_unhex c) as (h & l & -> & _ & Hc), (escape_byte_unhex d) as (h' & l' & -> & _ & Hd).
  change (String.prefix (String "_" (String h (String l x))) (String "_" (String h' (String l' y))) = false). cbn [String.prefix].
  destruct (ascii_dec "_" "_"); [|done]. destruct (ascii_dec h h') as [<-|]; [|done].
  destruct (ascii_dec l l') as [<-|]; [|done]. congruence.
Qed.

Lemma escape_prefix first p u :
  String.prefix (dbusUnitEscape_loop first p) (dbusUnitEscape_loop first u) = String.prefix p u.
Proof.
  revert first u. induction p as [|c p IH]; intros first u; [by destruct (dbusUnitEscape_loop first u), u|]. cbn [dbusUnitEscape_loop]. destruct u as [|d u].
  - destruct (isAlpha c || _); [done|]. unfold escape_byte. done.
  - cbn [dbusUnitEscape_loop]. assert (String.prefix (String c p) (String d u) = if ascii_dec c d then String.prefix p u else false) as -> by done.
    destruct (ascii_dec c d) as [<-|Hne].
    + destruct (isAlpha c || _); [|by rewrite prefix_app_same].
      change (String c ?x) with ((String c "") +:+ x). by rewrite prefix_app_same.
    + destruct (isAlpha c || _) eqn:Hc, (isAlpha d || _) eqn:Hd.
      * cbn [String.prefix]. by destruct (ascii_dec c d).
      * apply isAlpha_isDigit_not_special in Hc as [Hc _]. unfold escape_byte.
        change (String "_" ?a +:+ ?b) with (String "_" (a +:+ b)). cbn [String.prefix]. by destruct (ascii_dec c "_").
      * apply isAlpha_isDigit_not_special in Hd as [Hd _]. unfold escape_byte.
        change (String "_" ?a +:+ ?b) with (String "_" (a +:+ b)). cbn [String.prefix]. by destruct (ascii_dec "_" d).
      * by apply escape_byte_prefix.
Qed.

(** The signal that systemd sends when the state of a unit changes. *)
Definition unitSignal (unit subState : string) : Signal := {|
  sig_Path := unitPath +:+ dbusUnitEscape unit;
  sig_Body := [BString "org.freedesktop.systemd1.Unit"; BMap {[ "SubState" := VString subState ]}; BOther] |}.

Lemma unitSignal_event pawn unit sub :
  signalEvent pawn (unitSignal unit sub) =
    if has_prefix unit ("perigeos-" +:+ pawn +:+ "-") then Some {| ev_UnitName := unit; ev_SubState := sub |} else None.
Proof.
  unfold signalEvent. cbn [sig_Path sig_Body unitSignal].
  assert (has_prefix (unitPath +:+ dbusUnitEscape unit) (pathPrefix pawn) = has_prefix unit ("perigeos-" +:+ pawn +:+ "-")) as ->.
  { unfold has_prefix, pathPrefix. rewrite prefix_app_same. apply escape_prefix. }
  destruct (has_prefix unit _); [|done]. cbn [negb]. rewrite bool_decide_eq_true_2 by done. cbn [negb].
  rewrite lookup_singleton_eq. f_equal. f_equal.
  change (unitPath +:+ dbusUnitEscape unit) with ("/org/freedesktop/systemd1/unit" +:+ String "/" (dbusUnitEscape unit)).
  rewrite pathBase_app by apply escape_no_slash. apply unescape_escape.
Qed.

(** ** Runs *)

(** The events of the signals of a run. *)
Definition sent (pawnName : string) (l : list SEvent) : list UnitEvent :=
  omap (λ e, match e with SSignal sig => signalEvent pawnName sig | _ => None end) l.

Definition subStates (unit : string) (evs : list UnitEvent) : list string :=
  omap (λ ev, if decide (ev.(ev_UnitName) = unit) then Some ev.(ev_SubState) else None) evs.

Record sig_ok (s : SigState) (r : Received) : Prop := {
  so_events : length s.(eventCh) ≤ eventCap;
  so_chans : Forall (λ buf, length buf ≤ waiterCap) s.(sg_chans);
  so_known : ∀ unit ch, s.(unitWaiters) !! unit = Some ch → ch < length s.(sg_chans);
  so_inj : ∀ u v ch, s.(unitWaiters) !! u = Some ch → s.(unitWaiters) !! v = Some ch → u = v;
  so_fresh : ∀ ch, length s.(sg_chans) ≤ ch → r.(rc_subs) !! ch = None;
}.

Lemma srun_snoc pawn l e : srun pawn (l ++ [e]) = sstep pawn (srun pawn l) e.
Proof. unfold srun. by rewrite foldl_app. Qed.

Lemma length_offer {A} cap (x : A) buf : length buf ≤ cap → length (offer cap x buf) ≤ cap.
Proof. intros H. unfold offer. destruct (Nat.ltb_spec (length buf) cap); [rewrite List.length_app; cbn; lia|done]. Qed.

Lemma notify_chans unit sub s : length (notifyWaiters unit sub s).(sg_chans) = length s.(sg_chans) ∧
  (notifyWaiters unit sub s).(unitWaiters) = s.(unitWaiters) ∧ (notifyWaiters unit sub s).(eventCh) = s.(eventCh).
Proof. unfold notifyWaiters. destruct (unitWaiters s !! unit); [|done]. cbn. by rewrite length_alter. Qed.

Lemma sstep_ok pawn s r e : sig_ok s r → sig_ok (sstep pawn (s, r) e).1 (sstep pawn (s, r) e).2.
Proof.
  intros [H1 H2 H3 H4 H5]. destruct e as [unit|unit|sig|ch|]; cbn.
  - split; cbn; [done| | | |].
    + apply Forall_app. split; [done|]. apply Forall_singleton. cbn. lia.
    + intros u ch. rewrite List.length_app. cbn. destruct (decide (u = unit)) as [->|Hne].
      * rewrite lookup_insert_eq. intros [= <-]. lia.
      * rewrite lookup_insert_ne by done. intros ?%H3. lia.
    + intros u v ch. destruct (decide (u = unit)) as [->|Hu], (decide (v = unit)) as [->|Hv]; rewrite ?lookup_insert_eq, ?lookup_insert_ne by done; try done.
      * intros [= <-] ?%H3. lia.
      * intros ?%H3 [= <-]. lia.
      * apply H4.
    + intros ch. rewrite List.length_app. cbn. intros ?. apply H5. lia.
  - split; cbn; try done.
    + intros u ch [_ ?]%lookup_delete_Some. eauto.
    + intros u v ch [_ ?]%lookup_delete_Some [_ ?]%lookup_delete_Some. eauto.
  - unfold onSignal. destruct (signalEvent pawn sig) as [ev|]; [|done].
    destruct (notify_chans ev.(ev_UnitName) ev.(ev_SubState) s) as (Hl & Hw & He). split; cbn; rewrite ?Hl, ?Hw, ?He; try done.
    + by apply length_offer.
    + unfold notifyWaiters. destruct (unitWaiters s !! _); [|done]. cbn. apply Forall_alter; [done|]. intros. by apply length_offer.
  - destruct (sg_chans s !! ch) as [[|x buf]|] eqn:Hc; [done| |done]. split; cbn; rewrite ?length_insert; try done.
    + apply Forall_insert; [done|]. rewrite Forall_forall in H2. apply list_elem_of_lookup_2 in Hc. specialize (H2 _ Hc). cbn in H2. lia.
    + intros c Hle. rewrite lookup_insert_ne; [by apply H5|]. intros ->. apply lookup_lt_Some in Hc. lia.
  - destruct (eventCh s) as [|ev buf] eqn:He; split; cbn; rewrite ?He; try done; cbn in *; lia.
Qed.

Lemma srun_ok pawn l : sig_ok (srun pawn l).1 (srun pawn l).2.
Proof.
  induction l as [|e l IH] using rev_ind.
  - split; cbn; [lia|constructor|by intros ? ? ?%lookup_empty_Some|by intros ? ? ? ?%lookup_empty_Some|intros; apply lookup_empty].
  - rewrite srun_snoc. destruct (srun pawn l) as [s r]. by apply sstep_ok.
Qed.

Lemma sent_snoc pawn l e : sent pawn (l ++ [e]) = sent pawn l ++ sent pawn [e].
Proof. apply omap_app. Qed.

Lemma events_in_order pawn l :
  ((srun pawn l).2.(rc_events) ++ (srun pawn l).1.(eventCh)) `sublist_of` sent pawn l ∧
  ((∀ l1 sig l2, l = l1 ++ SSignal sig :: l2 → length (srun pawn l1).1.(eventCh) < eventCap) →
   (srun pawn l).2.(rc_events) ++ (srun pawn l).1.(eventCh) = sent pawn l).
Proof.
  induction l as [|e l [IH1 IH2]] using rev_ind; [done|]. rewrite srun_snoc, sent_snoc. split.
  - destruct (srun pawn l) as [s r]. cbn [fst snd] in *. destruct e as [unit|unit|sig|ch|]; cbn; rewrite ?(right_id_L [] (++)); try done.
    + unfold onSignal. destruct (signalEvent pawn sig) as [ev|]; [|by rewrite (right_id_L [] (++))]. cbn.
      destruct (notify_chans ev.(ev_UnitName) ev.(ev_SubState) s) as (_ & _ & He). rewrite He. unfold offer.
      destruct (_ <? _); [rewrite (assoc_L (++)); by apply sublist_app|by apply sublist_inserts_r].
    + by destruct (sg_chans s !! ch) as [[|? ?]|].
    + destruct (eventCh s) as [|ev buf] eqn:He; cbn; [by rewrite He|]. by rewrite <- (assoc_L (++)).
  - intros Hfull. assert (length (srun pawn l).1.(eventCh) < eventCap ∨ sent pawn [e] = []) as Hlast.
    { destruct e as [| |sig| |]; try (by right). left. by apply (Hfull l sig []). }
    specialize (IH2 (λ l1 sig l2 H, Hfull l1 sig (l2 ++ [e]) ltac:(by rewrite H, <- List.app_assoc))).
    destruct (srun pawn l) as [s r]. cbn [fst snd] in *. destruct e as [unit|unit|sig|ch|]; cbn; rewrite ?(right_id_L [] (++)); try done.
    + unfold onSignal. cbn in Hlast. destruct (signalEvent pawn sig) as [ev|]; [|by rewrite (right_id_L [] (++))]. cbn.
      destruct (notify_chans ev.(ev_UnitName) ev.(ev_SubState) s) as (_ & _ & He). rewrite He. unfold offer.
      destruct Hlast as [Hlast|]; [|done]. destruct (Nat.ltb_spec (length (eventCh s)) eventCap); [|lia]. by rewrite (assoc_L (++)), IH2.
    + by destruct (sg_chans s !! ch) as [[|? ?]|].
    + destruct (eventCh s) as [|ev buf] eqn:He; cbn; [by rewrite He|]. by rewrite <- (assoc_L (++)).
Qed.

(** The run after a registration, as long as nobody else registers or
    unregisters for the unit. *)
Definition undisturbed (unit : string) (e : SEvent) : Prop :=
  match e with SRegister u | SUnregister u => u ≠ unit | _ => True end.

(** What reached a channel: received or still in the buffer. *)
Definition reached (ch : nat) (s : SigState * Received) : list string := subsOf ch s.2 ++ default [] (s.1.(sg_chans) !! ch).

Lemma reached_step pawn unit ch s r e : sig_ok s r → s.(unitWaiters) !! unit = Some ch → undisturbed unit e →
  let s' := sstep pawn (s, r) e in
  s'.1.(unitWaiters) !! unit = Some ch ∧
  match subStates unit (sent pawn [e]) with
  | [] => reached ch s' = reached ch (s, r)
  | sub :: _ => reached ch s' = reached ch (s, r) ++ [sub] ∨ (reached ch s' = reached ch (s, r) ∧ waiterCap ≤ length (reached ch (s, r)))
  end.
Proof.
  intros Hok Hw Hu s'. pose proof (so_known _ _ Hok _ _ Hw) as Hlt. destruct e as [u|u|sig|c|]; unfold s'; cbn in Hu |- *.
  - rewrite lookup_insert_ne by done. split; [done|]. unfold reached. cbn. by rewrite lookup_app_l.
  - rewrite lookup_delete_ne by done. done.
  - unfold onSignal. destruct (signalEvent pawn sig) as [ev|]; [|done]. cbn.
    destruct (notify_chans ev.(ev_UnitName) ev.(ev_SubState) s) as (_ & Hw' & _). rewrite Hw'. split; [done|].
    unfold reached, notifyWaiters. cbn. destruct (decide (ev_UnitName ev = unit)) as [->|Hne].
    + rewrite Hw. cbn. destruct (lookup_lt_is_Some_2 _ _ Hlt) as [buf Hb]. rewrite list_lookup_alter_eq, Hb. cbn.
      unfold offer. destruct (Nat.ltb_spec (length buf) waiterCap).
      * left. by rewrite (assoc_L (++)).
      * right. split; [done|]. rewrite List.length_app. lia.
    + destruct (unitWaiters s !! ev_UnitName ev) as [c|] eqn:Hc; [|done]. cbn.
      rewrite list_lookup_alter_ne; [done|]. intros ->. apply Hne. by apply (so_inj _ _ Hok _ _ ch).
  - destruct (sg_chans s !! c) as [[|x buf]|] eqn:Hc; [done| |done]. cbn. split; [done|]. unfold reached, subsOf. cbn.
    destruct (decide (c = ch)) as [->|Hne].
    + rewrite lookup_insert_eq, list_lookup_insert_eq, Hc by done. cbn. by rewrite <- (assoc_L (++)).
    + by rewrite lookup_insert_ne, list_lookup_insert_ne.
  - by destruct (eventCh s).
Qed.

Lemma subStates_app unit a b : subStates unit (a ++ b) = subStates unit a ++ subStates unit b.
Proof. apply omap_app. Qed.

Lemma waiter_reached pawn l1 unit l2 : Forall (undisturbed unit) l2 →
  let ch := length (srun pawn l1).1.(sg_chans) in
  let s := srun pawn (l1 ++ SRegister unit :: l2) in
  s.1.(unitWaiters) !! unit = Some ch ∧
  reached ch s `sublist_of` subStates unit (sent pawn l2) ∧ take waiterCap (subStates unit (sent pawn l2)) `prefix_of` reached ch s.
Proof.
  intros Hu ch. induction l2 as [|e l2 IH] using rev_ind.
  - cbn [app]. rewrite srun_snoc. unfold ch. pose proof (srun_ok pawn l1) as Hok. destruct (srun pawn l1) as [s r]. cbn in *.
    rewrite lookup_insert_eq. split; [done|]. unfold reached, subsOf. cbn. rewrite (so_fresh _ _ Hok) by done. cbn.
    rewrite lookup_app_r, Nat.sub_diag by done. done.
  - apply Forall_app in Hu as [Hu He]. apply Forall_cons in He as [He _]. destruct (IH Hu) as (H1 & H2 & H3).
    change (l1 ++ SRegister unit :: l2 ++ [e]) with (l1 ++ (SRegister unit :: l2) ++ [e]). rewrite (assoc_L (++)), srun_snoc.
    pose proof (srun_ok pawn (l1 ++ SRegister unit :: l2)) as Hok. destruct (srun pawn (l1 ++ SRegister unit :: l2)) as [s r]. cbn [fst snd] in *.
    destruct (reached_step pawn unit ch s r e Hok H1 He) as [Hw Hr]. rewrite sent_snoc, subStates_app. split; [done|].
    assert (length (subStates unit (sent pawn [e])) ≤ 1) as Hone.
    { destruct e as [| |sig| |]; cbn; try lia. destruct (signalEvent pawn sig); cbn; [|lia]. case_decide; cbn; lia. }
    destruct (subStates unit (sent pawn [e])) as [|sub rest]; [by rewrite (right_id_L [] (++)), Hr|].
    destruct rest; [|cbn in Hone; lia]. pose proof (sublist_length _ _ H2) as Hlen.
    destruct Hr as [->|[-> Hfull]].
    + split; [by apply sublist_app|]. destruct (decide (waiterCap ≤ length (subStates unit (sent pawn l2)))) as [Hle|Hgt].
      * rewrite take_app_le by done. by apply prefix_app_r.
      * rewrite take_ge in H3 by lia. rewrite take_ge by (rewrite List.length_app; cbn; lia).
        assert (reached ch (s, r) = subStates unit (sent pawn l2)) as ->; [|done]. symmetry. apply prefix_length_eq; [done|]. done.
    + split; [by apply sublist_inserts_r|]. by rewrite take_app_le by lia.
Qed.

(** The watcher gets the events of its units in the order of the signals,
    each at most once, and all of them as long as its channel does not fill up.
    A goroutine that waits for a unit gets the states of that unit only, in order,
    the first four of them in any case. No channel exceeds its buffer. A unit
    belongs to the pawn exactly if its name starts so. *)
Theorem signals_delivered pawn :
  (∀ unit sub, signalEvent pawn (unitSignal unit sub) =
     if has_prefix unit ("perigeos-" +:+ pawn +:+ "-") then Some {| ev_UnitName := unit; ev_SubState := sub |} else None) ∧
  (∀ l, let '(s, r) := srun pawn l in
     length s.(eventCh) ≤ eventCap ∧ Forall (λ buf, length buf ≤ waiterCap) s.(sg_chans) ∧
     (r.(rc_events) ++ s.(eventCh)) `sublist_of` sent pawn l ∧
     ((∀ l1 sig l2, l = l1 ++ SSignal sig :: l2 → length (srun pawn l1).1.(eventCh) < eventCap) →
      r.(rc_events) ++ s.(eventCh) = sent pawn l)) ∧
  (∀ l1 unit l2, Forall (undisturbed unit) l2 →
     let '(s, r) := srun pawn (l1 ++ SRegister unit :: l2) in
     let ch := (registerWaiter unit (srun pawn l1).1).2 in
     reached ch (s, r) `sublist_of` subStates unit (sent pawn l2) ∧
     take waiterCap (subStates unit (sent pawn l2)) `prefix_of` reached ch (s, r)).
Proof.
  split_and!.
  - apply unitSignal_event.
  - intros l. destruct (events_in_order pawn l) as [H1 H2]. pose proof (srun_ok pawn l) as Hok. destruct (srun pawn l) as [s r].
    split_and!; [apply Hok|apply Hok|done|done].
  - intros l1 unit l2 Hu. destruct (waiter_reached pawn l1 unit l2 Hu) as (_ & H1 & H2). by destruct (srun pawn (l1 ++ SRegister unit :: l2)).
Qed.

(** Defect: the map has one waiter per unit. A second one replaces the first,
    which is not woken any more; and the clean-up of the first removes the
    second. *)
Example second_waiter_lost :
  let unit := wrapperUnitName "p" "u" "c" in
  let '(s, r) := srun "p" [SRegister unit; SRegister unit; SUnregister unit; SSignal (unitSignal unit "failed")] in
  reached 0 (s, r) = [] ∧ reached 1 (s, r) = [].
Proof. by vm_compute. Qed.
