(* ===== verification/Slice.v ===== *)
(** * Slices of pawns (internal/runtime/systemd/slice.go)

    Every pawn has a cgroup slice with its limits; at the start, the slices of
    pawns that are no longer configured are stopped with their pods. [LEnv] answers
    the calls to systemd. Quantities are given by their integer values. *)
From stdpp Require Import pretty.
From S2P Require Import Prelude Monad Trace UnitNames Runtime.
Import Str.

Record PawnSliceConfig := {
  ps_Name : string;
  ps_BaseDir : string;
  ps_CPUMilli : Z;
  ps_Memory : Z;
  ps_CPUWeight : Z;
  ps_IOReadBandwidthMax : Z;
  ps_IOWriteBandwidthMax : Z;
}.

(** The block device of a file system, from [st_dev]. *)
Definition devMajor (dev : Z) : Z := Z.land (Z.shiftr dev 8) 0xfff.
Definition devMinor (dev : Z) : Z := Z.lor (Z.land dev 0xff) (Z.land (Z.shiftr dev 12) 0xfff00).

Definition getBackingDevice (dev : option Z) : option string :=
  dev ← dev;
  Some ("/dev/block/" +:+ pretty (devMajor dev) +:+ ":" +:+ pretty (devMinor dev)).

Inductive LAct :=
  | LReset (unit : string)
  | LStartTransient (unit : string) (props : list Property) (err : option string)
  | LSetProps (unit : string) (props : list Property) (ok : bool)
  | LStart (unit : string) (ok : bool)
  | LJob (unit : string) (result : option string)
  | LList (pattern : string) (units : option (list string))
  | LStop (unit : string) (ok : bool).

(** A job's result is [None] when the context is done first. *)
Record LEnv := {
  le_startTransient : list LAct → string → option string;
  le_setProps : list LAct → string → bool;
  le_start : list LAct → string → bool;
  le_job : list LAct → string → option string;
  le_list : list LAct → string → option (list string);
  le_stop : list LAct → string → bool;
  le_stat : list LAct → string → option Z;
}.

Inductive LErr := ErrUpdateSlice | ErrStartSlice | ErrSliceJob (result : string) | ErrSliceContext | ErrCreateSlice (err : string) | ErrListSlices.

Section Slices.
Context (env : LEnv).

Abbreviation LM := (SE (TState LAct ()) LErr).

Definition ifPositive (name : string) (n : Z) (v : PropValue) : list Property := if (0 <? n)%Z then [(name, v)] else [].

Definition sliceProperties (cfg : PawnSliceConfig) (device : option string) : list Property :=
  [("Description", VStr ("Perigeos Pawn: " +:+ cfg.(ps_Name))); ("MemoryAccounting", VBool true); ("CPUAccounting", VBool true);
   ("IOAccounting", VBool true)] ++
  ifPositive "MemoryMax" cfg.(ps_Memory) (VUint64 (u64 cfg.(ps_Memory))) ++
  ifPositive "CPUQuotaPerSecUSec" cfg.(ps_CPUMilli) (VUint64 (u64 (wrap64 (cfg.(ps_CPUMilli) * 1000)))) ++
  ifPositive "CPUWeight" cfg.(ps_CPUWeight) (VUint64 cfg.(ps_CPUWeight)) ++
  match device with
  | None => []
  | Some path =>
      ifPositive "IOReadBandwidthMax" cfg.(ps_IOReadBandwidthMax) (VIOLimits [(path, u64 cfg.(ps_IOReadBandwidthMax))]) ++
      ifPositive "IOWriteBandwidthMax" cfg.(ps_IOWriteBandwidthMax) (VIOLimits [(path, u64 cfg.(ps_IOWriteBandwidthMax))])
  end.

Definition wantsIO (cfg : PawnSliceConfig) : bool := (0 <? cfg.(ps_IOReadBandwidthMax))%Z || (0 <? cfg.(ps_IOWriteBandwidthMax))%Z.

(** The end of a job. *)
Definition awaitJob (name : string) : LM () :=
  res ← callT (λ t, env.(le_job) t name) (LJob name);
  match res with
  | None => throw ErrSliceContext
  | Some r => if decide (r = "done") then mret tt else throw (ErrSliceJob r)
  end.

Definition InitPawnSlice (cfg : PawnSliceConfig) : LM () :=
  let name := sliceName cfg.(ps_Name) in
  _ ← doT (LReset name);
  stat ← askT (λ t, env.(le_stat) t cfg.(ps_BaseDir));
  let properties := sliceProperties cfg (if wantsIO cfg then getBackingDevice stat else None) in
  err ← callT (λ t, env.(le_startTransient) t name) (LStartTransient name properties);
  match err with
  | Some err =>
      if contains err "already loaded" || contains err "already exists" then
        ok ← callT (λ t, env.(le_setProps) t name) (LSetProps name properties);
        if negb ok then throw ErrUpdateSlice else
        ok ← callT (λ t, env.(le_start) t name) (LStart name);
        if negb ok then throw ErrStartSlice else awaitJob name
      else throw (ErrCreateSlice err)
  | None => awaitJob name
  end.

(** ** Slices of pawns that are gone *)

Definition pawnOfSlice (unit : string) : string := trim_suffix (trim_prefix unit "perigeos-") ".slice".

Definition podPattern (pawn : string) : string := "perigeos-" +:+ pawn +:+ "-pod-*.service".

Definition isParent (active : list string) (unit : string) : bool :=
  existsb (λ a, has_prefix a (trim_suffix unit ".slice" +:+ "-")) active.

Definition stopUnitIn (unit : string) : LM bool := callT (λ t, env.(le_stop) t unit) (LStop unit).

Definition stopPod (unit : string) : LM () := _ ← stopUnitIn unit; doT (LReset unit).

(** One slice: whether it was cleaned. *)
Definition cleanSlice (active : list string) (unit : string) : LM bool :=
  if decide (unit ∈ active) then mret false
  else if isParent active unit then mret false
  else
    podUnits ← callT (λ t, env.(le_list) t (podPattern (pawnOfSlice unit))) (LList (podPattern (pawnOfSlice unit)));
    _ ← forM (default [] podUnits) stopPod;
    ok ← stopUnitIn unit;
    if negb ok then mret false else
    _ ← doT (LReset unit);
    mret true.

Fixpoint slices_loop (active : list string) (units : list string) : LM (list string) :=
  match units with
  | [] => mret []
  | unit :: units =>
      cleaned ← cleanSlice active unit;
      rest ← slices_loop active units;
      mret (if cleaned : bool then pawnOfSlice unit :: rest else rest)
  end.

Definition CleanStalePawnSlices (activePawns : list string) : LM (list string) :=
  units ← callT (λ t, env.(le_list) t "perigeos-*.slice") (LList "perigeos-*.slice");
  match units with
  | None => throw ErrListSlices
  | Some units => slices_loop (map sliceName activePawns) units
  end.

End Slices.

(** ** Device numbers *)

(** How the kernel encodes a device number for [stat]. *)
Definition encodeDev (major minor : Z) : Z :=
  Z.lor (Z.lor (Z.land minor 0xff) (Z.shiftl major 8)) (Z.shiftl (Z.ldiff minor 0xff) 12).

Lemma testbit_ones n k : (0 <= n)%Z → Z.testbit (2 ^ n - 1) k = bool_decide (0 <= k < n)%Z.
Proof.
  intros Hn. replace (2 ^ n - 1)%Z with (Z.ones n) by (rewrite Z.ones_equiv; lia).
  destruct (Z.ltb_spec k 0).
  - rewrite Z.testbit_neg_r, bool_decide_eq_false_2 by lia. done.
  - rewrite Z.testbit_ones_nonneg by lia. destruct (Z.ltb_spec k n); by rewrite ?bool_decide_eq_true_2, ?bool_decide_eq_false_2 by lia.
Qed.

Lemma testbit_high n a k : (0 <= a < 2 ^ n)%Z → (0 <= n <= k)%Z → Z.testbit a k = false.
Proof.
  intros Ha Hk. destruct (decide (a = 0%Z)) as [->|Hne]; [apply Z.testbit_0_l|]. apply Z.bits_above_log2; [lia|].
  apply Z.log2_lt_pow2; [lia|]. eapply Z.lt_le_trans; [apply Ha|]. apply Z.pow_le_mono_r; lia.
Qed.

Lemma encodeDev_bits major minor k : (0 <= k)%Z →
  Z.testbit (encodeDev major minor) k =
    (Z.testbit minor k && bool_decide (k < 8)%Z) || Z.testbit major (k - 8) || (Z.testbit minor (k - 12) && bool_decide (20 <= k)%Z).
Proof.
  intros Hk. unfold encodeDev. rewrite !Z.lor_spec, Z.land_spec, !Z.shiftl_spec by lia.
  change 0xff%Z with (2 ^ 8 - 1)%Z. rewrite testbit_ones by lia. f_equal; [f_equal|].
  - f_equal. apply bool_decide_ext. lia.
  - destruct (decide (12 <= k)%Z).
    + rewrite Z.ldiff_spec, testbit_ones by lia. f_equal. destruct (decide (20 <= k)%Z).
      * rewrite bool_decide_eq_false_2, bool_decide_eq_true_2 by lia. done.
      * rewrite bool_decide_eq_true_2, bool_decide_eq_false_2 by lia. done.
    + rewrite !(Z.testbit_neg_r _ (k - 12)) by lia. done.
Qed.

(** The device of a file system is found: the numbers that the kernel
    encodes, 12 bits for the major and 20 for the minor one, are decoded. *)
Theorem device_roundtrip major minor : (0 <= major < 2 ^ 12)%Z → (0 <= minor < 2 ^ 20)%Z →
  getBackingDevice (Some (encodeDev major minor)) = Some ("/dev/block/" +:+ pretty major +:+ ":" +:+ pretty minor).
Proof.
  intros Ha Hb. unfold getBackingDevice. cbn [mbind option_bind]. f_equal.
  assert (devMajor (encodeDev major minor) = major) as ->.
  { apply Z.bits_inj'. intros k Hk. unfold devMajor. change 0xfff%Z with (2 ^ 12 - 1)%Z.
    rewrite Z.land_spec, Z.shiftr_spec, testbit_ones, encodeDev_bits by lia. replace (k + 8 - 8)%Z with k by lia.
    rewrite (bool_decide_eq_false_2 (k + 8 < 8)%Z), andb_false_r by lia. cbn. destruct (decide (k < 12)%Z).
    - rewrite (bool_decide_eq_true_2 (0 <= k < 12)%Z), (bool_decide_eq_false_2 (20 <= k + 8)%Z), andb_false_r, orb_false_r, andb_true_r by lia. done.
    - rewrite (bool_decide_eq_false_2 (0 <= k < 12)%Z), andb_false_r by lia. symmetry. apply (testbit_high 12); lia. }
  assert (devMinor (encodeDev major minor) = minor) as ->; [|done].
  apply Z.bits_inj'. intros k Hk. unfold devMinor. change 0xfff00%Z with (Z.shiftl (2 ^ 12 - 1) 8). change 0xff%Z with (2 ^ 8 - 1)%Z.
  rewrite Z.lor_spec, !Z.land_spec, Z.shiftr_spec, Z.shiftl_spec, !testbit_ones, !encodeDev_bits by lia.
  replace (k + 12 - 12)%Z with k by lia. destruct (decide (k < 8)%Z).
  - rewrite (bool_decide_eq_false_2 (0 <= k - 8 < 12)%Z), andb_false_r, orb_false_r by lia.
    rewrite (bool_decide_eq_true_2 (k < 8)%Z), (bool_decide_eq_true_2 (0 <= k < 8)%Z), (bool_decide_eq_false_2 (20 <= k)%Z) by lia.
    rewrite (Z.testbit_neg_r major) by lia. by rewrite andb_false_r, !orb_false_r, !andb_true_r.
  - rewrite (bool_decide_eq_false_2 (0 <= k < 8)%Z), andb_false_r, orb_false_l by lia.
    rewrite (bool_decide_eq_false_2 (k + 12 < 8)%Z), andb_false_r, orb_false_l by lia.
    rewrite (testbit_high 12 major (k + 12 - 8)), orb_false_l by lia. rewrite (bool_decide_eq_true_2 (20 <= k + 12)%Z), andb_true_r by lia.
    destruct (decide (k < 20)%Z).
    + by rewrite bool_decide_eq_true_2, andb_true_r by lia.
    + rewrite bool_decide_eq_false_2, andb_false_r by lia. symmetry. apply (testbit_high 20); lia.
Qed.

Lemma device_roundtrip_witness : getBackingDevice (Some (encodeDev 259 1027)) = Some "/dev/block/259:1027".
Proof. apply (device_roundtrip 259 1027); lia. Defined.

(** ** Only stale slices are stopped *)

Lemma trim_suffix_app s suf : trim_suffix (s +:+ suf) suf = s.
Proof. unfold trim_suffix. rewrite has_suffix_app, length_app. replace (len s + len suf - len suf) with (len s) by lia. apply stake_app. Qed.

Lemma trim_prefix_app p s : trim_prefix (p +:+ s) p = s.
Proof. unfold trim_prefix, has_prefix. rewrite prefix_app. apply sdrop_app. Qed.

Lemma has_prefix_spec s p : has_prefix s p = true ↔ ∃ r, s = p +:+ r.
Proof. unfold has_prefix. split; [apply prefix_spec|]. intros [r ->]. apply prefix_app. Qed.

(** A pawn that is neither active nor the first part of the name of one. *)
Definition stale (activePawns : list string) (p : string) : Prop :=
  (p ∉ activePawns) ∧ ∀ q, q ∈ activePawns → has_prefix q (p +:+ "-") = false.

Lemma not_parent active x : sliceName x ∉ map sliceName active → isParent (map sliceName active) (sliceName x) = false → stale active x.
Proof.
  intros Hn Hp. split; [intros Hin; apply Hn; by apply list_elem_of_fmap_2|]. intros q Hq.
  destruct (has_prefix q (x +:+ "-")) eqn:Hx; [|done]. exfalso. apply has_prefix_spec in Hx as [r ->].
  unfold isParent in Hp. apply not_true_iff_false in Hp. apply Hp, existsb_exists. exists (sliceName ((x +:+ "-") +:+ r)). split.
  - apply list_elem_of_In. by apply list_elem_of_fmap_2.
  - unfold sliceName at 2. rewrite app_assoc, trim_suffix_app. apply has_prefix_spec. exists (r +:+ ".slice").
    unfold sliceName. by rewrite <- !app_assoc.
Qed.

(** Two units of pods: the names of their pawns extend one another. *)
Lemma app_compare (a b x y : string) : a +:+ x = b +:+ y → (∃ s, a = b +:+ s ∧ s +:+ x = y) ∨ (∃ s, b = a +:+ s ∧ x = s +:+ y).
Proof.
  revert b. induction a as [|c a IH]; intros b H; [right; by exists b|]. destruct b as [|d b]; [left; by exists (String c a)|].
  change (String c (a +:+ x) = String d (b +:+ y)) in H. injection H as -> H. destruct (IH b H) as [(s & -> & Hs)|(s & -> & Hs)]; [left|right]; by exists s.
Qed.

Lemma pod_of_other p q x y : p +:+ "-pod-" +:+ x = q +:+ "-pod-" +:+ y → p = q ∨ has_prefix q (p +:+ "-") = true ∨ has_prefix p (q +:+ "-") = true.
Proof.
  intros H. assert (∀ s (u v : string), s ≠ "" → s +:+ u = "-pod-" +:+ v → ∃ r, s = "-" +:+ r) as Hdash.
  { intros [|c s] u v Hs He; [done|]. change (String c (s +:+ u) = String "-" ("pod-" +:+ v)) in He. injection He as -> _. by exists s. }
  apply app_compare in H as [(s & -> & Hs)|(s & -> & Hs)]; (destruct (decide (s = "")) as [->|Hne]; [left; by rewrite app_nil_r|right]).
  - right. destruct (Hdash s _ _ Hne Hs) as [r ->]. apply has_prefix_spec. exists r. by rewrite <- app_assoc.
  - left. destruct (Hdash s _ _ Hne (eq_sym Hs)) as [r ->]. apply has_prefix_spec. exists r. by rewrite <- app_assoc.
Qed.

Section Stale.
Context (env : LEnv) (activePawns : list string).
(** What a listing by a pattern gives. *)
Hypothesis list_slices : ∀ t units u, env.(le_list) t "perigeos-*.slice" = Some units → u ∈ units → ∃ x, u = sliceName x.
Hypothesis list_pods : ∀ t pawn units u, env.(le_list) t (podPattern pawn) = Some units → u ∈ units →
  ∃ x, u = "perigeos-" +:+ pawn +:+ "-pod-" +:+ x +:+ ".service".

(** Units of stale pawns. *)
Definition ofStale (unit : string) : Prop :=
  ∃ p, stale activePawns p ∧ (unit = sliceName p ∨ ∃ x, unit = "perigeos-" +:+ p +:+ "-pod-" +:+ x +:+ ".service").

Definition stopsStale (a : LAct) : Prop := match a with LStop u _ => ofStale u | _ => True end.

Lemma pawnOfSlice_name x : pawnOfSlice (sliceName x) = x.
Proof. unfold pawnOfSlice, sliceName. by rewrite trim_prefix_app, trim_suffix_app. Qed.

Lemma wp_cleanSlice x t d :
  wp (cleanSlice env (map sliceName activePawns) (sliceName x)) (λ r new _,
    Forall stopsStale new ∧ match r with inr cleaned => cleaned = true → stale activePawns x | inl _ => False end) t d.
Proof.
  unfold cleanSlice. case_decide as Hin; [by wp_step|]. destruct (isParent _ _) eqn:Hp; [by wp_step|].
  pose proof (not_parent _ _ Hin Hp) as Hst. rewrite pawnOfSlice_name. wp_step. wp_step. wp_step.
  set (units := le_list env t (podPattern x)). eapply wp_conseq.
  - apply (wp_forM (λ _ new _, Forall stopsStale new) (λ _ _ _, False)); [done|]. intros pre u rest new d' Hl Hnew.
    unfold stopPod, stopUnitIn. wp_step. wp_step. wp_step. apply Forall_app. split; [done|]. constructor; [|by constructor].
    exists x. split; [done|]. right. assert (u ∈ default [] units) as Hu by (rewrite Hl; set_solver).
    destruct units as [us|] eqn:Hus; [|by apply elem_of_nil in Hu]. by eapply list_pods.
  - intros [e|[]] new d' H; [done|]. cbn beta in H. wp_step. unfold stopUnitIn at 1. wp_step.
    assert (stopsStale (LStop (sliceName x) (le_stop env ((t ++ [LList (podPattern x) units]) ++ new) (sliceName x)))) as Hs.
    { exists x. split; [done|by left]. }
    destruct (le_stop _ _ _); cbn [negb]; repeat wp_step; (split; [|done]); repeat (constructor; [done|]); apply Forall_app; (split; [done|]); by repeat constructor.
Qed.

Lemma wp_slices_loop units t d : (∀ u, u ∈ units → ∃ x, u = sliceName x) →
  wp (slices_loop env (map sliceName activePawns) units) (λ r new _,
    Forall stopsStale new ∧ match r with inr cleaned => Forall (stale activePawns) cleaned | inl _ => False end) t d.
Proof.
  revert t d. induction units as [|u units IH]; intros t d Hu; cbn [slices_loop]; [by wp_step|].
  destruct (Hu u) as [x ->]; [set_solver|]. wp_step. eapply wp_conseq; [apply wp_cleanSlice|].
  intros [e|cleaned] new d' [H1 H2]; [done|]. wp_step. eapply wp_conseq; [apply IH; set_solver|].
  intros [e|rest] new' d2 [H3 H4]; [done|]. wp_step. rewrite (right_id_L [] (++)). split; [by apply Forall_app|].
  rewrite pawnOfSlice_name. destruct cleaned; [constructor; auto|done].
Qed.

Lemma slice_extends q p r : q +:+ ".slice" = p +:+ "-" +:+ r → has_prefix q (p +:+ "-") = true.
Proof.
  intros H. apply app_compare in H as [(s & -> & Hs)|(s & -> & Hs)].
  - destruct s as [|c s]; [done|]. change (String c (s +:+ ".slice") = String "-" r) in Hs. injection Hs as -> _.
    apply has_prefix_spec. exists s. by rewrite <- app_assoc.
  - exfalso. assert (∀ s', index_byte (s' +:+ "-" +:+ r) "-" ≠ None) as Hd.
    { intros s'. induction s' as [|c s' IH]; [done|]. change (String c s' +:+ "-" +:+ r) with (String c (s' +:+ "-" +:+ r)). cbn [index_byte].
      case_decide; [done|]. destruct (index_byte _ _); done. }
    apply (Hd s). by rewrite <- Hs.
Qed.

Lemma slice_not_service a b : a +:+ ".slice" ≠ b +:+ ".service".
Proof.
  assert (∀ x y, sdrop (len (x +:+ y) - len y) (x +:+ y) = y) as Hend.
  { intros x y. rewrite length_app. replace (len x + len y - len y) with (len x) by lia. apply sdrop_app. }
  intros H%(f_equal (λ s, sdrop (len s - 5) s)). revert H.
  replace (a +:+ ".slice") with ((a +:+ ".") +:+ "slice") by (by rewrite <- app_assoc).
  replace (b +:+ ".service") with ((b +:+ ".se") +:+ "rvice") by (by rewrite <- app_assoc).
  change 5 with (len "slice") at 1. rewrite Hend. change (len "slice") with (len "rvice"). by rewrite Hend.
Qed.

Lemma slice_no_service p a : sliceName p ≠ a +:+ ".service".
Proof. unfold sliceName. rewrite app_assoc. apply slice_not_service. Qed.

Lemma sliceName_inj p q : sliceName p = sliceName q → p = q.
Proof. intros H%(f_equal pawnOfSlice). by rewrite !pawnOfSlice_name in H. Qed.

Lemma ofStale_safe u : ofStale u →
  (∀ q, q ∈ activePawns → u ≠ sliceName q ∧ has_prefix (sliceName q) (trim_suffix u ".slice" +:+ "-") = false) ∧
  (∀ q uid c, q ∈ activePawns → u = wrapperUnitName q uid c → ∃ p, stale activePawns p ∧ has_prefix p (q +:+ "-") = true).
Proof.
  assert (∀ x y, "perigeos-" +:+ x = "perigeos-" +:+ y → x = y) as Hcut by (intros x y [=]; done).
  intros (p & Hst & Hu). split.
  - intros q Hq. split.
    + destruct Hu as [->|[x ->]].
      * intros <-%sliceName_inj. by destruct Hst.
      * intros H. apply (slice_no_service q ("perigeos-" +:+ p +:+ "-pod-" +:+ x)). by rewrite <- H, <- !app_assoc.
    + apply not_true_iff_false. intros [r Hr]%has_prefix_spec. destruct Hst as [_ Hst]. specialize (Hst q Hq).
      enough (∃ r', q +:+ ".slice" = p +:+ "-" +:+ r') as [r' Hr'] by (apply slice_extends in Hr'; congruence).
      destruct Hu as [->|[x ->]].
      * unfold sliceName in Hr at 2. rewrite app_assoc, trim_suffix_app in Hr. exists r. apply Hcut. unfold sliceName in Hr. rewrite Hr. by rewrite <- !app_assoc.
      * exists ("pod-" +:+ x +:+ ".service" +:+ "-" +:+ r). apply Hcut. unfold sliceName in Hr. rewrite Hr.
        unfold trim_suffix. destruct (has_suffix _ ".slice") eqn:Hsuf; [|by rewrite <- !app_assoc].
        exfalso. apply has_suffix_spec in Hsuf. symmetry in Hsuf. rewrite !app_assoc in Hsuf. by apply slice_not_service in Hsuf.
  - intros q uid c Hq ->. destruct Hu as [H|[x H]].
    + exfalso. apply (slice_no_service p ("perigeos-" +:+ q +:+ "-pod-" +:+ uid +:+ "-" +:+ c)). rewrite <- H. unfold wrapperUnitName. by rewrite <- !app_assoc.
    + unfold wrapperUnitName in H. apply Hcut in H. symmetry in H. apply pod_of_other in H as [->|[H|H]].
      * by destruct Hst.
      * destruct Hst as [_ Hst]. specialize (Hst q Hq). congruence.
      * by exists p.
Qed.

(** At the start, only units of stale pawns are stopped: never the slice of
    a configured pawn nor one that contains it; and no pod of a configured pawn,
    unless a stale pawn is named like it with more parts. *)
Theorem stale_slices_only t d :
  wp (CleanStalePawnSlices env activePawns) (λ r new _,
    (∀ u ok, LStop u ok ∈ new →
      (∀ q, q ∈ activePawns → u ≠ sliceName q ∧ has_prefix (sliceName q) (trim_suffix u ".slice" +:+ "-") = false) ∧
      (∀ q uid c, q ∈ activePawns → u = wrapperUnitName q uid c → ∃ p, stale activePawns p ∧ has_prefix p (q +:+ "-") = true)) ∧
    match r with inr cleaned => Forall (stale activePawns) cleaned | inl e => e = ErrListSlices end) t d.
Proof.
  assert (∀ new u ok, Forall stopsStale new → LStop u ok ∈ new → ofStale u) as Hstop.
  { intros new u ok Hf Hin. rewrite Forall_forall in Hf. exact (Hf _ Hin). }
  unfold CleanStalePawnSlices. wp_step. wp_step. destruct (le_list env t "perigeos-*.slice") as [units|] eqn:Hl.
  - eapply wp_conseq; [apply wp_slices_loop; intros u Hu; by eapply list_slices|]. intros [e|cleaned] new d' [H1 H2]; [done|].
    split; [|done]. intros u ok [|Hin]%elem_of_cons; [done|]. by apply ofStale_safe, (Hstop new u ok).
  - wp_step. split; [|done]. by intros u ok ?%list_elem_of_singleton.
Qed.
End Stale.

(** A slice that was set up has the limits of the configuration, and its job
    is done. *)
Lemma init_slice env cfg t d :
  let name := sliceName cfg.(ps_Name) in
  wp (InitPawnSlice env cfg) (λ r new _, r = inr tt →
    ∃ device, let props := sliceProperties cfg device in
      (wantsIO cfg = false → device = None) ∧
      (LStartTransient name props None ∈ new ∨ LSetProps name props true ∈ new) ∧ last new = Some (LJob name (Some "done"))) t d.
Proof.
  intros name. unfold InitPawnSlice. fold name. wp_step. wp_step. wp_step. wp_step.
  set (device := if wantsIO cfg then _ else None). assert (wantsIO cfg = false → device = None) as Hdev by (unfold device; by destruct (wantsIO cfg)).
  assert (∀ t' d' pre, (LStartTransient name (sliceProperties cfg device) None ∈ pre ∨ LSetProps name (sliceProperties cfg device) true ∈ pre) →
    wp (awaitJob env name) (λ r new _, r = inr tt → ∃ device, let props := sliceProperties cfg device in
      (wantsIO cfg = false → device = None) ∧
      (LStartTransient name props None ∈ pre ++ new ∨ LSetProps name props true ∈ pre ++ new) ∧ last (pre ++ new) = Some (LJob name (Some "done"))) t' d') as Hjob.
  { intros t' d' pre Hpre. unfold awaitJob. wp_step. wp_step. destruct (le_job _ _ _) as [res|]; [|by wp_step]. case_decide as Hd; [|by wp_step].
    wp_step. intros _. exists device. rewrite (right_id_L [] (++)), last_snoc. subst res. split_and!; [done|set_solver|done]. }
  wp_step. wp_step. destruct (le_startTransient _ _ _) as [err|]; [|apply (Hjob _ _ [_; _]); set_solver].
  destruct (contains err _ || _); [|by wp_step]. wp_step. wp_step. destruct (le_setProps _ _ _); cbn [negb]; [|by wp_step].
  wp_step. wp_step. destruct (le_start _ _ _); cbn [negb]; [|by wp_step]. apply (Hjob _ _ [_; _; _; _]). set_solver.
Qed.

(** ** On an example *)

Definition demoLEnv (slices pods : list string) : LEnv := {|
  le_startTransient := λ _ _, None; le_setProps := λ _ _, true; le_start := λ _ _, true; le_job := λ _ _, Some "done";
  le_list := λ _ pat, if decide (pat = "perigeos-*.slice") then Some slices
                      else if decide (pat = podPattern "old") then Some pods else Some [];
  le_stop := λ _ _, true; le_stat := λ _ _, Some 0%Z |}.

Lemma stale_slices_only_witness :
  let env := demoLEnv ["perigeos-old.slice"; "perigeos-compute.slice"; "perigeos-compute-00.slice"] [wrapperUnitName "old" "u" "c"] in
  wp (CleanStalePawnSlices env ["compute-00"]) (λ r new _, r = inr ["old"] ∧ Forall (stale ["compute-00"]) ["old"] ∧
    ∀ ok, LStop "perigeos-compute-00.slice" ok ∉ new) [] tt.
Proof.
  intros env. destruct (stale_slices_only env ["compute-00"]) with (t := @nil LAct) (d := tt) as (r & new & d' & Hr & H1 & H2).
  - intros t units u [= <-] Hu. apply elem_of_cons in Hu as [->|Hu]; [by exists "old"|].
    apply elem_of_cons in Hu as [->|Hu]; [by exists "compute"|]. apply list_elem_of_singleton in Hu as ->. by exists "compute-00".
  - intros t pawn units u Hl Hu. cbn in Hl. unfold podPattern in Hl. case_decide as Hp.
    { exfalso. apply (slice_not_service "perigeos-*" ("perigeos-" +:+ pawn +:+ "-pod-*")). rewrite <- !app_assoc. exact (eq_sym Hp). }
    case_decide as Hq.
    + injection Hl as <-. apply list_elem_of_singleton in Hu as ->. assert (pawn = "old") as ->.
      { unfold podPattern in Hq. apply (f_equal (λ s, trim_suffix (trim_prefix s "perigeos-") "-pod-*.service")) in Hq.
        by rewrite !trim_prefix_app, !trim_suffix_app in Hq. }
      by exists "u-c".
    + injection Hl as <-. by apply elem_of_nil in Hu.
  - exists r, new, d'. split; [exact Hr|]. vm_compute in Hr. injection Hr as _ _ <-. split; [done|]. split; [exact H2|].
    intros ok Hin. destruct (H1 _ _ Hin) as [H _]. by destruct (H "compute-00") as [Hne _]; [apply list_elem_of_here|].
Defined.
