(* ===== verification/Control.v ===== *)
(** * The control server (internal/control)

    The server answers the operator's questions over a local socket, and some of
    them over TCP. A method is a handler over what the server sees: its pawns
    with their stores, the machines systemd listsAll for them and the directories
    on disk, and files of the host. What a handler does to the pawns is the list
    of its [CtlAct]s. JSON and TLS are left out: a request is its method, if it
    can be parsed. *)
From stdpp Require Import pretty.
From S2P Require Import Prelude Monad Text Paths UnitNames Corev1 PodStore BatchWatcher Stats Exec Slice Float64.
Import Str.

(** ** What the server sees *)

Record GambitView := {
  gv_Name : string;
  gv_IsPrimary : bool;
  gv_Port : Z;
  gv_BaseDir : string;
  gv_NodeIP : string;
  gv_store : PodStore;
  gv_machines : option (list PodMetadata);
  gv_activeUnits : string → option (list string);
}.

Record BuildInfo := { bi_Version : string; bi_GoVersion : string; bi_Arch : string; bi_OS : string; bi_GitCommit : string }.

Record HostView := {
  hv_hostname : string;
  hv_uptime : Z;
  hv_now : Z;
  hv_fs : string → option string;
  hv_dir : string → option (list (string * bool));
  hv_release : option (list ascii);
  hv_cores : Z;
  hv_pageSize : Z;
  hv_psi : option (float64 * float64);
  hv_build : BuildInfo;
}.

(** What the server was given: the pawns, in the order of their registration,
    the queues of some of them and, perhaps, the list of the cached images. *)
Record Server := {
  gambits : list GambitView;
  queues : gmap string (Z * Z * Z);
  imageLister : option (list string * string);
}.

Definition RegisterGambit (g : GambitView) (s : Server) : Server := {| s with gambits := s.(gambits) ++ [g] |}.
Definition RegisterQueues (pawnName : string) (q : Z * Z * Z) (s : Server) : Server := {| s with queues := <[pawnName := q]> s.(queues) |}.
Definition SetImageLister (il : list string * string) (s : Server) : Server := {| s with imageLister := Some il |}.

Definition AllPodUIDs (s : Server) : gset string := ⋃ map (λ g, dom (PodUIDs g.(gv_store))) s.(gambits).

Inductive CtlAct := AShutdown (pawn : string) | ADrainPods (pawn : string).

(** ** Responses *)

Record StatusResponse := {
  st_Hostname : string; st_UptimeSecs : Z; st_PawnCount : nat; st_PodCount : nat;
  st_Build : BuildInfo; st_Kernel : string; st_CPUCores : Z;
  st_MemTotalMiB : Z; st_MemUsedMiB : Z; st_LoadAvg : string; st_PSI : option (float64 * float64);
  st_Machines : nat; st_DiskDirs : nat; st_SystemdUnits : nat; st_PerigeosRSSMiB : Z; st_LxcVeths : nat; st_NetnsCount : nat;
}.

Record PawnInfo := {
  pi_Name : string; pi_IsPrimary : bool; pi_Port : Z; pi_NodeIP : string; pi_PodCount : nat;
  pi_CPUUsageMs : Z; pi_MemoryMiB : Z; pi_Queues : Z * Z * Z;
}.

Record PodInfo := {
  po_Name : string; po_Namespace : string; po_UID : string; po_PawnName : string; po_PodIP : string; po_Phase : PodPhase; po_Containers : nat;
}.

Record PawnTopInfo := { pt_Name : string; pt_IsPrimary : bool; pt_PodCount : nat; pt_CPUUsageNs : Z; pt_MemoryBytes : Z; pt_MemoryWSBytes : Z }.

Record DoctorEntry := { de_UID : string; de_Name : string }.

Record PawnDiagnosis := {
  pd_Name : string; pd_GambitPods : nat; pd_SystemdUnits : nat; pd_DiskDirs : nat;
  pd_GhostPods : list DoctorEntry; pd_OrphanMachines : list DoctorEntry; pd_StaleDirs : list string; pd_MissingDirs : list DoctorEntry;
  pd_StaleUnits : nat; pd_SliceActive : bool;
}.

Record DoctorSummary := {
  ds_TotalGambit : nat; ds_TotalSystemd : nat; ds_TotalDisk : nat; ds_TotalGhosts : nat; ds_TotalOrphans : nat; ds_TotalStaleDirs : nat;
  ds_TotalStaleUnits : nat; ds_ActiveSlices : nat; ds_StaleSlices : nat; ds_LxcVeths : nat; ds_NetnsCount : nat;
}.

Record DoctorResponse := { dr_Healthy : bool; dr_Pawns : list PawnDiagnosis; dr_Summary : DoctorSummary }.

Inductive Reply :=
  | RStatus (r : StatusResponse)
  | RPawns (l : list PawnInfo)
  | RPods (l : list PodInfo)
  | RTop (now : Z) (load : string) (mem : Z * Z) (l : list PawnTopInfo)
  | RDoctor (r : DoctorResponse)
  | RImages (images : list string) (cacheDir : string)
  | RVersion (b : BuildInfo)
  | RText (s : string).

(** ** Files of the host *)

(** The last value of each field counts. *)
Definition meminfoLine (acc : Z * Z) (line : string) : Z * Z :=
  match Fields line with
  | name :: value :: _ =>
      let val := ParseUint_value value in
      if decide (name = "MemTotal:") then (val, acc.2)
      else if decide (name = "MemAvailable:") then (acc.1, val)
      else acc
  | _ => acc
  end.

(** The characters before the first zero. *)
Fixpoint untilNul (l : list ascii) : string :=
  match l with
  | [] => ""
  | c :: l' => if decide (c = Ascii.zero) then "" else String c (untilNul l')
  end.

Definition kernelVersion (release : option (list ascii)) : string :=
  match release with None => "" | Some l => untilNul l end.

Section Host.
Context (h : HostView).

Definition readHostMemory : option (Z * Z) :=
  data ← h.(hv_fs) "/proc/meminfo";
  let '(memTotal, memAvailable) := foldl meminfoLine (0, 0)%Z (scanLines data) in
  if decide (memTotal = 0%Z) then None
  else Some (wrap64 (memTotal `div` 1024), wrap64 (u64 (memTotal - memAvailable) `div` 1024)).

Definition readLoadAvg : option string :=
  data ← h.(hv_fs) "/proc/loadavg";
  match Fields data with a :: b :: c :: _ => Some (Join [a; b; c] " ") | _ => None end.

Definition readSelfRSS : Z :=
  match h.(hv_fs) "/proc/self/statm" with
  | None => 0
  | Some data =>
      match Fields data with
      | _ :: f :: _ => match Atoi f with
                       | Some rssPages => wrap64 (rssPages * h.(hv_pageSize)) `quot` 1048576
                       | None => 0
                       end
      | _ => 0
      end
  end.

Definition countLxcVeths : nat :=
  length (filter (λ e, has_prefix e.1 "lxc" = true) (default [] (h.(hv_dir) "/sys/class/net"))).

Definition countNetns : nat := length (default [] (h.(hv_dir) "/var/run/netns")).

Definition isStaleSlice (activePawns : list string) (e : string * bool) : bool :=
  let '(name, isDir) := e in
  if negb isDir || negb (has_prefix name "perigeos-") || negb (has_suffix name ".slice") then false
  else
    let pawn := pawnOfSlice name in
    if decide (pawn ∈ activePawns) then false
    else negb (existsb (λ ap, has_prefix ap (pawn +:+ "-")) activePawns).

Definition countStaleSlices (activePawns : list string) : nat :=
  length (filter (λ e, isStaleSlice activePawns e = true) (default [] (h.(hv_dir) "/sys/fs/cgroup/perigeos.slice"))).

(** ** Pods, machines and directories *)

(** The UID that a directory of a pod or of a container is named after. *)
Definition dirUID (name : string) : string :=
  if (36 <? len name) && bool_decide (at_ name 36 = Some "-"%char) then stake 36 name else name.

Definition scanDiskPods (baseDir pawnName : string) : gset string :=
  list_to_set (map (λ e, dirUID e.1)
    (filter (λ e : string * bool, e.2 = true) (default [] (h.(hv_dir) (pathJoin [baseDir; "pawns"; pawnName; "pods"]))))).

(** The units by UID: the last one listed counts. *)
Definition systemdUIDs (machines : option (list PodMetadata)) : gmap string (string * MachineState) :=
  foldl (λ m pm, if decide (pm.(pm_UID) = "") then m else <[pm.(pm_UID) := (pm.(pm_Name), pm.(pm_State))]> m) ∅ (default [] machines).

Definition SliceActive (g : GambitView) : bool :=
  match g.(gv_activeUnits) (sliceName g.(gv_Name)) with None => false | Some units => 0 <? length units end.

Definition entriesOf (m : gmap string string) : list DoctorEntry := (λ kv : string * string, {| de_UID := kv.1; de_Name := kv.2 |}) <$> map_to_list m.

Definition diagnosePawn (g : GambitView) : PawnDiagnosis :=
  let gambitUIDs := PodUIDs g.(gv_store) in
  let units := systemdUIDs g.(gv_machines) in
  let diskUIDs := scanDiskPods g.(gv_BaseDir) g.(gv_Name) in
  let orphans := filter (λ kv, gambitUIDs !! kv.1 = None) units in
  {| pd_Name := g.(gv_Name); pd_GambitPods := size gambitUIDs; pd_SystemdUnits := size units; pd_DiskDirs := size diskUIDs;
     pd_GhostPods := entriesOf (filter (λ kv, units !! kv.1 = None) gambitUIDs);
     pd_OrphanMachines := entriesOf (fst <$> orphans);
     pd_StaleDirs := elements (filter (λ uid, gambitUIDs !! uid = None) diskUIDs);
     pd_MissingDirs := entriesOf (filter (λ kv, kv.1 ∉ diskUIDs) gambitUIDs);
     pd_StaleUnits := size (filter (λ kv : string * (string * MachineState), kv.2.2 = StateExited ∨ kv.2.2 = StateFailed) orphans);
     pd_SliceActive := SliceActive g |}.

Definition sound (d : PawnDiagnosis) : bool :=
  match d.(pd_GhostPods), d.(pd_OrphanMachines), d.(pd_StaleDirs), d.(pd_MissingDirs) with
  | [], [], [], [] => true
  | _, _, _, _ => false
  end.

Definition total (f : PawnDiagnosis → nat) (l : list PawnDiagnosis) : nat := foldl (λ n d, n + f d) 0 l.

Definition buildDoctor (gambits : list GambitView) : DoctorResponse :=
  let pawns := map diagnosePawn gambits in
  {| dr_Healthy := forallb sound pawns; dr_Pawns := pawns;
     dr_Summary := {|
       ds_TotalGambit := total pd_GambitPods pawns; ds_TotalSystemd := total pd_SystemdUnits pawns; ds_TotalDisk := total pd_DiskDirs pawns;
       ds_TotalGhosts := total (λ d, length d.(pd_GhostPods)) pawns; ds_TotalOrphans := total (λ d, length d.(pd_OrphanMachines)) pawns;
       ds_TotalStaleDirs := total (λ d, length d.(pd_StaleDirs)) pawns; ds_TotalStaleUnits := total pd_StaleUnits pawns;
       ds_ActiveSlices := total (λ d, if d.(pd_SliceActive) then 1 else 0) pawns;
       ds_StaleSlices := countStaleSlices (map gv_Name gambits);
       ds_LxcVeths := countLxcVeths; ds_NetnsCount := countNetns |} |}.

(** ** The other builders *)

Definition countMachines (gambits : list GambitView) : nat := foldl (λ n g, n + length (default [] g.(gv_machines))) 0 gambits.
Definition countDiskDirs (gambits : list GambitView) : nat := foldl (λ n g, n + size (scanDiskPods g.(gv_BaseDir) g.(gv_Name))) 0 gambits.

Definition countSystemdUnits (gambits : list GambitView) : nat :=
  size (list_to_set (map (λ m, m.(pm_UID) +:+ "-" +:+ m.(pm_ContainerName))
    (filter (λ m, m.(pm_UID) ≠ "") (concat (map (λ g, default [] g.(gv_machines)) gambits)))) : gset string).

Definition buildStatus (gambits : list GambitView) : StatusResponse :=
  let mem := default (0, 0)%Z readHostMemory in
  {| st_Hostname := h.(hv_hostname); st_UptimeSecs := h.(hv_uptime); st_PawnCount := length gambits;
     st_PodCount := foldl (λ n g, n + PodCount g.(gv_store)) 0 gambits; st_Build := h.(hv_build); st_Kernel := kernelVersion h.(hv_release); st_CPUCores := h.(hv_cores);
     st_MemTotalMiB := mem.1; st_MemUsedMiB := mem.2;
     st_LoadAvg := default "" readLoadAvg; st_PSI := h.(hv_psi);
     st_Machines := countMachines gambits; st_DiskDirs := countDiskDirs gambits; st_SystemdUnits := countSystemdUnits gambits;
     st_PerigeosRSSMiB := readSelfRSS; st_LxcVeths := countLxcVeths; st_NetnsCount := countNetns |}.

Definition orZero {E A} (zero : A) (r : E + A) : A := match r with inr a => a | inl _ => zero end.

Definition buildPawns (queues : gmap string (Z * Z * Z)) (gambits : list GambitView) : list PawnInfo :=
  map (λ g, {| pi_Name := g.(gv_Name); pi_IsPrimary := g.(gv_IsPrimary); pi_Port := g.(gv_Port); pi_NodeIP := g.(gv_NodeIP);
               pi_PodCount := PodCount g.(gv_store); pi_CPUUsageMs := wrap64 (orZero 0%Z (ReadSliceCPU h.(hv_fs) g.(gv_Name)) `div` 1000000);
               pi_MemoryMiB := wrap64 ((orZero (0, 0)%Z (ReadSliceMemory h.(hv_fs) g.(gv_Name))).1 `div` 1048576);
               pi_Queues := default (0, 0, 0)%Z (queues !! g.(gv_Name)) |}) gambits.

Definition buildPods (gambits : list GambitView) : list PodInfo :=
  concat (map (λ g, map (λ sn, {| po_Name := sn.(sn_Name); po_Namespace := sn.(sn_Namespace); po_UID := sn.(sn_UID);
    po_PawnName := g.(gv_Name); po_PodIP := sn.(sn_IP); po_Phase := sn.(sn_Phase); po_Containers := sn.(sn_Containers) |})
    (SnapshotPods g.(gv_store))) gambits).

Definition buildTop (gambits : list GambitView) : Reply :=
  RTop h.(hv_now) (default "" readLoadAvg) (default (0, 0)%Z readHostMemory)
    (map (λ g, {| pt_Name := g.(gv_Name); pt_IsPrimary := g.(gv_IsPrimary); pt_PodCount := PodCount g.(gv_store);
                  pt_CPUUsageNs := orZero 0%Z (ReadSliceCPU h.(hv_fs) g.(gv_Name)); pt_MemoryBytes := (orZero (0, 0)%Z (ReadSliceMemory h.(hv_fs) g.(gv_Name))).1;
                  pt_MemoryWSBytes := (orZero (0, 0)%Z (ReadSliceMemory h.(hv_fs) g.(gv_Name))).2 |}) gambits).

Definition buildImages (imageLister : option (list string * string)) : Reply :=
  match imageLister with None => RImages [] "" | Some (l, dir) => RImages l dir end.

Definition buildDrain (gambits : list GambitView) : list CtlAct := map (λ g, AShutdown g.(gv_Name)) gambits.

Definition buildStop (gambits : list GambitView) : list CtlAct :=
  map (λ g, AShutdown g.(gv_Name)) gambits ++ map (λ g, ADrainPods g.(gv_Name)) gambits.

(** ** The method table *)

(** [handler] is what a call answers and what it does to the pawns;
    [tcpAllowed] says whether a remote client may call it. *)
Record methodEntry := { handler : Server → list CtlAct * Reply; tcpAllowed : bool }.

Definition methods : gmap string methodEntry := {[
  "Status" := {| handler := λ s, ([], RStatus (buildStatus s.(gambits))); tcpAllowed := true |};
  "Pawns" := {| handler := λ s, ([], RPawns (buildPawns s.(queues) s.(gambits))); tcpAllowed := true |};
  "Pods" := {| handler := λ s, ([], RPods (buildPods s.(gambits))); tcpAllowed := true |};
  "Top" := {| handler := λ s, ([], buildTop s.(gambits)); tcpAllowed := true |};
  "Doctor" := {| handler := λ s, ([], RDoctor (buildDoctor s.(gambits))); tcpAllowed := true |};
  "Images" := {| handler := λ s, ([], buildImages s.(imageLister)); tcpAllowed := true |};
  "Version" := {| handler := λ s, ([], RVersion h.(hv_build)); tcpAllowed := true |};
  "Drain" := {| handler := λ s, (buildDrain s.(gambits),
    RText "Drain initiated: nodes marked NotReady. Pods will be evicted by the scheduler."); tcpAllowed := false |};
  "Stop" := {| handler := λ s, (buildStop s.(gambits),
    RText ("Stop drain complete: " +:+ pretty (length s.(gambits)) +:+ " pawn(s) drained, pods stopped.")); tcpAllowed := false |}
]}.

Inductive VarlinkErr := InvalidParameter | MethodNotFound | PermissionDenied.

(** The local socket. *)
Definition VarlinkDispatch (s : Server) (methodname : string) : list CtlAct * (VarlinkErr + Reply) :=
  match methods !! methodname with
  | None => ([], inl MethodNotFound)
  | Some entry => let '(acts, r) := entry.(handler) s in (acts, inr r)
  end.

(** TCP *)
Definition dispatch (s : Server) (method : string) : list CtlAct * (VarlinkErr + Reply) :=
  match methods !! method with
  | None => ([], inl MethodNotFound)
  | Some entry =>
      if negb entry.(tcpAllowed) then ([], inl PermissionDenied)
      else let '(acts, r) := entry.(handler) s in (acts, inr r)
  end.

Definition stripInterface (method : string) : string :=
  match last_index_byte method "." with Some idx => sdrop (S idx) method | None => method end.

(** A connection is the lines that the scanner delivers, each with the method of
    its request if it is one. A line over 1 MiB ends the scanner, and with it
    the connection, like the end of the stream: then the list ends before it. *)
Definition handleTCPConn (s : Server) (lines : list (option string)) : list CtlAct * list (VarlinkErr + Reply) :=
  foldl (λ acc req,
    let '(acts, r) := match req with None => ([], inl InvalidParameter) | Some m => dispatch s (stripInterface m) end in
    (acc.1 ++ acts, acc.2 ++ [r])) ([], []) lines.
End Host.

(** ** What a remote client can do *)

Definition remoteAnswer (h : HostView) (s : Server) (req : option string) : list CtlAct * (VarlinkErr + Reply) :=
  match req with None => ([], inl InvalidParameter) | Some m => dispatch h s (stripInterface m) end.

Lemma handleTCPConn_each h s lines :
  handleTCPConn h s lines = (concat (map (λ r, (remoteAnswer h s r).1) lines), map (λ r, (remoteAnswer h s r).2) lines).
Proof.
  induction lines as [|req lines IH] using rev_ind; [done|].
  unfold handleTCPConn in *. rewrite foldl_app, IH, !map_app, concat_app. cbn.
  fold (remoteAnswer h s req). destruct (remoteAnswer h s req). cbn. by rewrite (right_id_L [] (++)).
Qed.

Lemma dispatch_spec h s m :
  dispatch h s m = ([], if decide (m ∈ ["Drain"; "Stop"]) then inl PermissionDenied else (VarlinkDispatch h s m).2).
Proof.
  unfold dispatch, VarlinkDispatch, methods. rewrite !lookup_insert, lookup_singleton.
  repeat (destruct (decide (_ = m)) as [<-|]; [done|]). rewrite decide_False; [done|]. set_solver.
Qed.

Lemma stripInterface_qualified iface m : last_index_byte m "." = None → stripInterface (iface +:+ "." +:+ m) = m.
Proof.
  intros Hm. unfold stripInterface. change ("." +:+ m) with (String "." m).
  rewrite last_index_byte_app by done.
  replace (S (len iface)) with (len iface + 1) by lia. by rewrite <- sdrop_sdrop, sdrop_app.
Qed.

Definition ifaceName : string := "io.perigeos.Manager".

Lemma in_uids (uid : string) (ms : list PodMetadata) :
  is_Some (systemdUIDs (Some ms) !! uid) ↔ uid ≠ "" ∧ ∃ m, m ∈ ms ∧ m.(pm_UID) = uid.
Proof.
  unfold systemdUIDs. cbn. induction ms as [|m ms IH] using rev_ind.
  - cbn. rewrite lookup_empty. split; [by intros [? ?]|]. intros (_ & m & Hm & _). by apply not_elem_of_nil in Hm.
  - rewrite foldl_app. cbn. case_decide as Hm.
    + rewrite IH. set_solver.
    + rewrite lookup_insert_is_Some', IH. set_solver.
Qed.

(** ** What the doctor reports *)

(** The pods a pawn tracks, those systemd has units of, and those that have a
    directory. *)
Definition tracked (g : GambitView) : gset string := dom (PodUIDs g.(gv_store)).
Definition inSystemd (g : GambitView) : gset string := list_to_set (filter (λ u, u ≠ "") (map pm_UID (default [] g.(gv_machines)))).
Definition onDisk (h : HostView) (g : GambitView) : gset string := scanDiskPods h g.(gv_BaseDir) g.(gv_Name).

Lemma systemdUIDs_dom g : dom (systemdUIDs g.(gv_machines)) = inSystemd g.
Proof.
  apply set_eq. intros uid. unfold inSystemd. rewrite elem_of_dom, elem_of_list_to_set, list_elem_of_filter.
  destruct (gv_machines g) as [ms|]; cbn [default].
  - rewrite in_uids, list_elem_of_fmap. naive_solver.
  - cbn. rewrite lookup_empty, elem_of_nil. split; [by intros [? ?]|tauto].
Qed.

Lemma entriesOf_uids m : de_UID <$> entriesOf m = (map_to_list m).*1.
Proof. unfold entriesOf. by rewrite <- list_fmap_compose. Qed.

(** A list of entries has each UID of a set, once. *)
Definition listsAll (l : list string) (X : gset string) : Prop := NoDup l ∧ list_to_set l = X.

Lemma entriesOf_listsAll m (X : gset string) : dom m = X → listsAll (de_UID <$> entriesOf m) X.
Proof.
  intros <-. rewrite entriesOf_uids. split; [apply NoDup_fst_map_to_list|].
  apply set_eq. intros k. rewrite elem_of_list_to_set, elem_of_dom, list_elem_of_fmap. split.
  - intros ([k' x] & -> & Hx). apply elem_of_map_to_list in Hx. by eexists.
  - intros [x Hx]. exists (k, x). by rewrite elem_of_map_to_list.
Qed.

Lemma listsAll_nil {A} (f : A → string) (l : list A) X : listsAll (f <$> l) X → l = [] ↔ X = ∅.
Proof.
  intros [_ <-]. destruct l; cbn; [tauto|]. split; [done|]. intros HX. set_solver.
Qed.

Lemma listsAll_length {A} (f : A → string) (l : list A) X : listsAll (f <$> l) X → length l = size X.
Proof. intros [Hnd <-]. by rewrite size_list_to_set, length_fmap. Qed.

Lemma dom_filter_out {A} (m : gmap string A) (P : string * A → Prop) `{∀ kv, Decision (P kv)} (Y : gset string) :
  (∀ k x, P (k, x) ↔ k ∉ Y) → dom (filter P m) = dom m ∖ Y.
Proof.
  intros HP. apply set_eq. intros k. rewrite elem_of_difference, !elem_of_dom. split.
  - intros [x Hx]. apply map_lookup_filter_Some in Hx as [Hx Hk]. split; [by eexists|by apply (HP k x)].
  - intros [[x Hx] Hk]. exists x. apply map_lookup_filter_Some. split; [done|by apply HP].
Qed.

Lemma none_notin {A} (m : gmap string A) k : m !! k = None ↔ k ∉ (dom m : gset string).
Proof. by rewrite not_elem_of_dom. Qed.

Definition diagnosed (h : HostView) (g : GambitView) (d : PawnDiagnosis) : Prop :=
  d.(pd_Name) = g.(gv_Name) ∧
  listsAll (de_UID <$> d.(pd_GhostPods)) (tracked g ∖ inSystemd g) ∧
  listsAll (de_UID <$> d.(pd_OrphanMachines)) (inSystemd g ∖ tracked g) ∧
  listsAll d.(pd_StaleDirs) (onDisk h g ∖ tracked g) ∧
  listsAll (de_UID <$> d.(pd_MissingDirs)) (tracked g ∖ onDisk h g) ∧
  d.(pd_GambitPods) = size (tracked g) ∧ d.(pd_SystemdUnits) = size (inSystemd g) ∧ d.(pd_DiskDirs) = size (onDisk h g).

Lemma diagnosePawn_spec h g : diagnosed h g (diagnosePawn h g).
Proof.
  unfold diagnosed, diagnosePawn, tracked. cbn. split_and!; [done| | | | | | |done].
  - apply entriesOf_listsAll. rewrite <- systemdUIDs_dom.
    apply dom_filter_out. intros. apply none_notin.
  - apply entriesOf_listsAll. rewrite dom_fmap_L, <- systemdUIDs_dom.
    apply dom_filter_out. intros. apply none_notin.
  - split; [apply NoDup_elements|]. rewrite list_to_set_elements_L. apply set_eq. intros k.
    rewrite elem_of_filter, elem_of_difference, none_notin. unfold onDisk. tauto.
  - apply entriesOf_listsAll. by apply dom_filter_out.
  - by rewrite size_dom.
  - by rewrite <- systemdUIDs_dom, size_dom.
Qed.

Lemma sound_spec h g d : diagnosed h g d → sound d = true ↔ tracked g = inSystemd g ∧ tracked g = onDisk h g.
Proof.
  intros (_ & Hg & Ho & Hs & Hm & _).
  assert (sound d = true ↔ pd_GhostPods d = [] ∧ pd_OrphanMachines d = [] ∧ pd_StaleDirs d = [] ∧ pd_MissingDirs d = []) as ->.
  { unfold sound. destruct (pd_GhostPods d), (pd_OrphanMachines d), (pd_StaleDirs d), (pd_MissingDirs d); naive_solver. }
  rewrite <- (list_fmap_id (pd_StaleDirs d)) in Hs.
  rewrite (listsAll_nil _ _ _ Hg), (listsAll_nil _ _ _ Ho), (listsAll_nil _ _ _ Hs), (listsAll_nil _ _ _ Hm). clear.
  split; [|by intros [<- <-]; rewrite !difference_diag_L].
  intros (? & ? & ? & ?). split; apply (anti_symm (⊆)); by apply empty_difference_subseteq_L.
Qed.

Lemma total_sum h f (k : GambitView → nat) gs :
  (∀ g, f (diagnosePawn h g) = k g) → total f (map (diagnosePawn h) gs) = sum_list_with k gs.
Proof.
  intros Hf. induction gs as [|g gs IH] using rev_ind; [done|].
  unfold total in *. rewrite map_app, foldl_app, IH, sum_list_with_app. cbn. rewrite Hf. lia.
Qed.

(** C26: A remote client only reads. Whatever a TCP connection carries, no pawn is shut down or drained; each line gets one answer: Drain and Stop, under any interface name, are denied, and every other method is answered as on the local socket, where Stop shuts every pawn down before it drains the first. *)
Theorem remote_read_only h s lines :
  (handleTCPConn h s lines).1 = [] ∧
  (handleTCPConn h s lines).2 =
    map (λ req, match req with
                | None => inl InvalidParameter
                | Some m => if decide (stripInterface m ∈ ["Drain"; "Stop"]) then inl PermissionDenied
                            else (VarlinkDispatch h s (stripInterface m)).2
                end) lines ∧
  (∀ m, last_index_byte m "." = None → stripInterface (ifaceName +:+ "." +:+ m) = m) ∧
  (∀ m, (VarlinkDispatch h s m).1 ≠ [] → m ∈ ["Drain"; "Stop"]) ∧
  (VarlinkDispatch h s "Stop").1 =
    map (λ g, AShutdown g.(gv_Name)) s.(gambits) ++ map (λ g, ADrainPods g.(gv_Name)) s.(gambits).
Proof.
  rewrite handleTCPConn_each. cbn [fst snd]. split_and!.
  - induction lines as [|[m|] lines IH]; [done| |done]. cbn. by rewrite dispatch_spec.
  - apply map_ext. intros [m|]; [|done]. cbn. by rewrite dispatch_spec.
  - intros m. apply stripInterface_qualified.
  - intros m. unfold VarlinkDispatch, methods. rewrite !lookup_insert, lookup_singleton.
    repeat (destruct (decide (_ = m)) as [<-|]; [first [by intros []|intros _; by apply (bool_decide_unpack _)]|]). done.
  - done.
Qed.

(** The doctor's report is exact. A host is healthy if and only if every pawn tracks just the pods that systemd has units of and that have a directory; the report of each pawn lists each pod that is tracked without a unit, has a unit without being tracked, has a directory without being tracked or is tracked without a directory, once, and no other; the summary adds them up. *)
Theorem doctor_exact h gs :
  let r := buildDoctor h gs in
  (r.(dr_Healthy) = true ↔ ∀ g, g ∈ gs → tracked g = inSystemd g ∧ tracked g = onDisk h g) ∧
  Forall2 (diagnosed h) gs r.(dr_Pawns) ∧
  r.(dr_Summary).(ds_TotalGambit) = sum_list_with (λ g, size (tracked g)) gs ∧
  r.(dr_Summary).(ds_TotalGhosts) = sum_list_with (λ g, size (tracked g ∖ inSystemd g)) gs ∧
  r.(dr_Summary).(ds_TotalOrphans) = sum_list_with (λ g, size (inSystemd g ∖ tracked g)) gs ∧
  r.(dr_Summary).(ds_TotalStaleDirs) = sum_list_with (λ g, size (onDisk h g ∖ tracked g)) gs.
Proof.
  cbn. split_and!.
  - rewrite <- Is_true_true, forallb_True, Forall_fmap, Forall_forall.
    assert (∀ g, sound (diagnosePawn h g) = true ↔ tracked g = inSystemd g ∧ tracked g = onDisk h g) as Hs
      by (intros g; apply sound_spec, diagnosePawn_spec).
    split; intros H g Hg; [by apply Hs, Is_true_true, H|by apply Is_true_true, Hs, H].
  - apply Forall2_fmap_r, Forall_Forall2_diag, Forall_forall. intros g _. apply diagnosePawn_spec.
  - apply total_sum. intros g. by destruct (diagnosePawn_spec h g) as (_ & _ & _ & _ & _ & Hg & _).
  - apply total_sum. intros g. destruct (diagnosePawn_spec h g) as (_ & Hl & _). by apply listsAll_length in Hl.
  - apply total_sum. intros g. destruct (diagnosePawn_spec h g) as (_ & _ & Hl & _). by apply listsAll_length in Hl.
  - apply total_sum. intros g. destruct (diagnosePawn_spec h g) as (_ & _ & _ & Hl & _).
    rewrite <- (list_fmap_id (pd_StaleDirs _)) in Hl. by apply listsAll_length in Hl.
Qed.

Definition newline : string := String (ascii_of_nat 10) "".

Definition ctlHost (meminfo : string) (pods : list (string * bool)) : HostView :=
  {| hv_hostname := "h"; hv_uptime := 5; hv_now := 0;
     hv_fs := λ p, if decide (p = "/proc/meminfo") then Some meminfo else None;
     hv_dir := λ p, if decide (p = "/base/pawns/pawn-00/pods") then Some pods else None;
     hv_release := None; hv_cores := 1; hv_pageSize := 4096; hv_psi := None;
     hv_build := {| bi_Version := "v"; bi_GoVersion := "go"; bi_Arch := "amd64"; bi_OS := "linux"; bi_GitCommit := "" |} |}.

Definition ctlUnit (uid container : string) (st : MachineState) : PodMetadata :=
  {| pm_UID := uid; pm_Name := container; pm_Namespace := "default"; pm_NodeName := "pawn-00"; pm_PodIP := "";
     pm_ContainerName := container; pm_State := st; pm_ExitCode := 0 |}.

Definition demoGambit (ms : list PodMetadata) : GambitView :=
  {| gv_Name := "pawn-00"; gv_IsPrimary := true; gv_Port := 10250; gv_BaseDir := "/base"; gv_NodeIP := "10.0.0.1";
     gv_store := NewPodStore; gv_machines := Some ms; gv_activeUnits := λ _, Some [] |}.

(** A unit and a directory that no pod accounts for. *)
Example doctor_finds_leftovers :
  let d := diagnosePawn (ctlHost "" [("0123456789abcdef0123456789abcdef0123-web", true); ("lost+found", false)])
             (demoGambit [ctlUnit "u1" "web" StateFailed; ctlUnit "u1" "log" StateFailed; ctlUnit "" "x" StateRunning]) in
  (d.(pd_OrphanMachines), d.(pd_StaleUnits), d.(pd_StaleDirs)) =
  ([{| de_UID := "u1"; de_Name := "log" |}], 1, ["0123456789abcdef0123456789abcdef0123"]).
Proof. reflexivity. Qed.

(** More memory available than there is, as in a container whose meminfo is
    limited in part only, is reported as 2^54 MiB in use. *)
Example memory_wraps :
  readHostMemory (ctlHost ("MemTotal: 1024 kB" +:+ newline +:+ "MemAvailable: 2048 kB") []) = Some (1, 18014398509481983)%Z.
Proof. vm_compute. reflexivity. Qed.
