(* ===== verification/Api.v ===== *)
(** * What a pawn's server answers (node/api, node/exec.go, internal/server/server.go, errdefs)

    The handlers of logs, commands, attachment, port forwarding, statistics and
    layers, from the request to the call of the provider, the classes of errors
    and the status codes they become. A handler that hands its connection to a
    library ends in a response that says what it passes on. Matching the
    templates of the routes is left to the library. Port forwarding enters the
    network namespace of a container with a thread whose namespace is modelled. *)
From stdpp Require Import pretty.
From S2P Require Import Prelude Monad Trace Text Paths UnitNames Corev1 PodStore Image Runtime Exec Logs.
Import Str.

(** ** Errors *)

(** The errors of [errdefs] and of [github.com/pkg/errors] have a cause; those
    of [fmt.Errorf] do not. *)
Inductive GoErr :=
  | Plain (msg : string)
  | FmtWrapped (msg : string) (e : GoErr)
  | Wrapped (msg : string) (e : GoErr)
  | notFoundError (e : GoErr)
  | invalidInputError (e : GoErr)
  | transientError (e : GoErr)
  | CanceledErr.

Fixpoint IsNotFound (e : GoErr) : bool :=
  match e with
  | notFoundError _ => true
  | invalidInputError e | transientError e | Wrapped _ e => IsNotFound e
  | Plain _ | FmtWrapped _ _ | CanceledErr => false
  end.

Fixpoint IsInvalidInput (e : GoErr) : bool :=
  match e with
  | invalidInputError _ => true
  | notFoundError e | transientError e | Wrapped _ e => IsInvalidInput e
  | Plain _ | FmtWrapped _ _ | CanceledErr => false
  end.

Fixpoint IsTransient (e : GoErr) : bool :=
  match e with
  | transientError _ => true
  | notFoundError e | invalidInputError e | Wrapped _ e => IsTransient e
  | Plain _ | FmtWrapped _ _ | CanceledErr => false
  end.

Fixpoint isCancelled (e : GoErr) : bool :=
  match e with
  | CanceledErr => true
  | notFoundError e | invalidInputError e | transientError e | Wrapped _ e => isCancelled e
  | Plain _ | FmtWrapped _ _ => false
  end.

Fixpoint errText (e : GoErr) : string :=
  match e with
  | Plain msg => msg
  | FmtWrapped msg e | Wrapped msg e => msg +:+ ": " +:+ errText e
  | notFoundError e | invalidInputError e | transientError e => errText e
  | CanceledErr => "context canceled"
  end.

Definition httpStatusCode (err : option GoErr) : Z :=
  match err with
  | None => 200
  | Some e => if IsNotFound e then 404 else if IsInvalidInput e then 400 else 500
  end.

(** ** Answers *)

Record ExecOptions := { eo_Stdin : bool; eo_Stdout : bool; eo_Stderr : bool; eo_TTY : bool }.

(** What a stream is for: the variables of the route. *)
Record Target := { tg_namespace : string; tg_pod : string; tg_container : string }.

(** A reply, or a connection that is handed to the library of the streams or of
    files; an empty content type is left to the server. *)
Inductive Response :=
  | Reply (code : Z) (contentType body : string)
  | ServeStream (tg : Target) (command : list string) (opts : ExecOptions) (idle creation : Z)
  | ServePortForward (namespace pod : string) (idle creation : Z)
  | ServeContent (name content : string).

Definition httpError (msg : string) (code : Z) : Response :=
  Reply code "text/plain; charset=utf-8" (msg +:+ String "010" "").

Definition NotFound : Response := httpError "404 request not found" 404.
Definition NotImplemented : Response := httpError "501 not implemented" 501.

(** What has been written when an error comes stays, with its code. *)
Definition handleError (contentType written : string) (err : option GoErr) : Response :=
  match err with
  | None => Reply 200 contentType written
  | Some e => Reply (if decide (written = "") then httpStatusCode err else 200) contentType (written +:+ errText e)
  end.

(** Writing to a client: how much was written, and the error. *)
Abbreviation Writer := (string → string * option GoErr).

(** ** Handlers *)

Definition getExecOptions (form : string → string) : GoErr + ExecOptions :=
  let tty := bool_decide (form "tty" = "1") in
  let stdin := bool_decide (form "input" = "1") in
  let stdout := bool_decide (form "output" = "1") in
  let stderr := bool_decide (form "error" = "1") in
  if tty && stderr then inl (Plain "cannot exec with tty and stderr")
  else if negb stdin && negb stdout && negb stderr then inl (Plain "you must specify at least one of stdin, stdout, stderr")
  else inr {| eo_Stdin := stdin; eo_Stdout := stdout; eo_Stderr := stderr; eo_TTY := tty |}.

(** Thirty seconds when it is not set. *)
Definition orDefault (timeout : Z) : Z := if decide (timeout = 0%Z) then 30000000000 else timeout.

(** [h] tells whether the provider implements the call; [vars] are the variables
    of the route, "" where there is none. *)
Definition HandleContainerExec (h : bool) (idle creation : Z) (vars form : string → string) (command : list string) : Response :=
  if negb h then NotImplemented else
  match getExecOptions form with
  | inl e => handleError "" "" (Some (invalidInputError e))
  | inr opts => ServeStream {| tg_namespace := vars "namespace"; tg_pod := vars "pod"; tg_container := vars "container" |}
                  command opts (orDefault idle) (orDefault creation)
  end.

Definition HandleContainerAttach (h : bool) (idle creation : Z) (vars form : string → string) : Response :=
  if negb h then NotImplemented else
  match getExecOptions form with
  | inl e => handleError "" "" (Some (invalidInputError e))
  | inr opts => ServeStream {| tg_namespace := vars "namespace"; tg_pod := vars "pod"; tg_container := vars "container" |}
                  [] opts (orDefault idle) (orDefault creation)
  end.

Definition HandlePortForward (h : bool) (idle creation : Z) (vars : string → string) : Response :=
  if negb h then NotImplemented else ServePortForward (vars "namespace") (vars "pod") (orDefault idle) (orDefault creation).

(** The errors of [Logs] in their classes; the messages are shortened. *)
Definition logErrOf (e : LogErr) : GoErr :=
  match e with
  | ErrInvalid p => invalidInputError (Plain p)
  | ErrBothSince => invalidInputError (Plain "both sinceSeconds and sinceTime are set")
  | ErrPodNotFound => Plain "pod not found"
  | ErrJournal => Plain "journal"
  | ErrNoPrevious => Plain "no previous invocation"
  end.

(** [h] is the provider's call; [copy] copies the stream to the client. *)
Definition HandleContainerLogs {R} (parseTime : string → option Z) (h : option (string → string → string → ContainerLogOpts → LogErr + R))
    (copy : R → string * option GoErr) (vars : gmap string string) (query : string → string) : Response :=
  match h with
  | None => NotImplemented
  | Some h =>
      let var k := default "" (vars !! k) in
      if decide (size vars ≠ 3) then handleError "" "" (Some (notFoundError (Plain "not found"))) else
      match parseLogOptions parseTime query with
      | inl e => handleError "" "" (Some (logErrOf e))
      | inr opts =>
          match h (var "namespace") (var "pod") (var "container") opts with
          | inl e => handleError "" "" (Some (Wrapped "error getting container logs?)" (logErrOf e)))
          | inr logs => let '(written, err) := copy logs in handleError "" written (Wrapped "error writing response to client" <$> err)
          end
      end
  end.

(** A cancellation is not wrapped. *)
Definition fromProvider (e : GoErr) : GoErr := if isCancelled e then e else Wrapped "error getting status from provider" e.

Definition HandlePodStatsSummary {A} (marshal : A → GoErr + string) (write : Writer) (h : option (GoErr + A)) : Response :=
  match h with
  | None => NotImplemented
  | Some (inl e) => handleError "" "" (Some (fromProvider e))
  | Some (inr stats) =>
      match marshal stats with
      | inl e => handleError "" "" (Some (Wrapped "error marshalling stats" e))
      | inr b => let '(written, err) := write b in handleError "" written (Wrapped "could not write to client" <$> err)
      end
  end.

(** The families are encoded one after the other; the first that cannot be
    ends it. *)
Fixpoint encodeAll {F} (enc : F → GoErr + string) (metrics : list F) : GoErr + string :=
  match metrics with
  | [] => inr ""
  | mf :: metrics => match enc mf with
                     | inl e => inl e
                     | inr b => match encodeAll enc metrics with inl e => inl e | inr rest => inr (b +:+ rest) end
                     end
  end.

Definition HandlePodMetricsResource {F} (enc : F → GoErr + string) (write : Writer) (h : option (GoErr + list F)) : Response :=
  match h with
  | None => NotImplemented
  | Some (inl e) => handleError "" "" (Some (fromProvider e))
  | Some (inr metrics) =>
      match encodeAll enc metrics with
      | inl e => handleError "" "" (Some (Wrapped "could not convert metrics to prometheus text format" e))
      | inr b => let '(written, err) := write b in
                 handleError "text/plain; version=0.0.4" written (Wrapped "could not write to client" <$> err)
      end
  end.

Definition HandleRunningPods (encode : list Pod → GoErr + string) (write : Writer) (getPods : option (GoErr + list Pod)) : Response :=
  match getPods with
  | None => NotImplemented
  | Some (inl e) => handleError "" "" (Some e)
  | Some (inr pods) =>
      match encode pods with
      | inl e => handleError "" "" (Some e)
      | inr data => let '(written, err) := write data in handleError "application/json" written err
      end
  end.

(** ** Routes *)

(** The calls a provider implements, and the time-outs of streams. *)
Record PodHandlerConfig := {
  ph_RunInContainer : bool; ph_AttachContainer : bool; ph_PortForward : bool; ph_GetContainerLogs : bool;
  ph_GetPods : bool; ph_GetPodsFromKubernetes : bool; ph_GetStatsSummary : bool; ph_GetMetricsResource : bool;
  ph_StreamIdleTimeout : Z; ph_StreamCreationTimeout : Z;
}.

Inductive Handler :=
  | RunningPods (h : bool)
  | ContainerLogs (h : bool)
  | ContainerExec (h : bool) (idle creation : Z)
  | ContainerAttach (h : bool) (idle creation : Z)
  | PortForwarding (h : bool) (idle creation : Z)
  | PodStatsSummary
  | PodMetricsResource.

Record Route := { rt_path : string; rt_methods : list string; rt_handler : Handler }.

Definition PodHandler (p : PodHandlerConfig) (debug : bool) : list Route :=
  (if debug then [{| rt_path := "/runningpods/"; rt_methods := ["GET"]; rt_handler := RunningPods p.(ph_GetPods) |}] else []) ++
  [{| rt_path := "/pods"; rt_methods := ["GET"]; rt_handler := RunningPods p.(ph_GetPodsFromKubernetes) |};
   {| rt_path := "/containerLogs/{namespace}/{pod}/{container}"; rt_methods := ["GET"]; rt_handler := ContainerLogs p.(ph_GetContainerLogs) |};
   {| rt_path := "/exec/{namespace}/{pod}/{container}"; rt_methods := ["POST"; "GET"];
      rt_handler := ContainerExec p.(ph_RunInContainer) p.(ph_StreamIdleTimeout) p.(ph_StreamCreationTimeout) |};
   {| rt_path := "/attach/{namespace}/{pod}/{container}"; rt_methods := ["POST"; "GET"];
      rt_handler := ContainerAttach p.(ph_AttachContainer) p.(ph_StreamIdleTimeout) p.(ph_StreamCreationTimeout) |};
   {| rt_path := "/portForward/{namespace}/{pod}"; rt_methods := ["POST"; "GET"];
      rt_handler := PortForwarding p.(ph_PortForward) p.(ph_StreamCreationTimeout) p.(ph_StreamIdleTimeout) |}] ++
  (if p.(ph_GetStatsSummary)
   then [{| rt_path := "/stats/summary"; rt_methods := ["GET"]; rt_handler := PodStatsSummary |};
         {| rt_path := "/stats/summary/"; rt_methods := ["GET"]; rt_handler := PodStatsSummary |}] else []) ++
  (if p.(ph_GetMetricsResource)
   then [{| rt_path := "/metrics/resource"; rt_methods := ["GET"]; rt_handler := PodMetricsResource |};
         {| rt_path := "/metrics/resource/"; rt_methods := ["GET"]; rt_handler := PodMetricsResource |}] else []).

(** What a pawn implements. *)
Definition pawnConfig : PodHandlerConfig := {|
  ph_RunInContainer := true; ph_AttachContainer := true; ph_PortForward := true; ph_GetContainerLogs := true;
  ph_GetPods := false; ph_GetPodsFromKubernetes := false; ph_GetStatsSummary := false; ph_GetMetricsResource := false;
  ph_StreamIdleTimeout := 0; ph_StreamCreationTimeout := 0 |}.

(** ** Terminal sizes *)

(** What comes from the client's channel: a size, or that it is closed; a
    receive from a closed channel gives zeros at once. *)
Inductive ResizeEvent := Resize (w h : Z) | ResizeClosed.

(** What reaches the command, until the context is done after [turns] turns. *)
Fixpoint relayExec (turns : nat) (evs : list ResizeEvent) : list (Z * Z) :=
  match turns, evs with
  | S turns, Resize w h :: evs => (w, h) :: relayExec turns evs
  | S turns, ResizeClosed :: _ => (0, 0)%Z :: relayExec turns [ResizeClosed]
  | _, _ => []
  end.

Fixpoint relayAttach (turns : nat) (evs : list ResizeEvent) : list (Z * Z) :=
  match turns, evs with
  | S turns, Resize w h :: evs => (w, h) :: relayAttach turns evs
  | _, _ => []
  end.

(** ** Layers for peers *)

Inductive OpenResult := Opened (content : string) | NotExist | OpenErr.

(** [strings.ContainsAny] of a slash and a backslash *)
Definition hasSlash (s : string) : bool := match index_byte s "/", index_byte s "\" with None, None => false | _, _ => true end.

Definition blobPath (im : ImageManager) (hash : string) : string := pathJoin [im.(im_layerCache); hash +:+ ".tar.gz"].

(** The file that is opened, if any, and the response to the request. *)
Definition handleBlobs (im : ImageManager) (open : string → OpenResult) (method urlPath : string) : option string * Response :=
  if decide (method ≠ "GET" ∧ method ≠ "HEAD") then (None, httpError "method not allowed" 405) else
  let digest := trim_prefix urlPath "/blobs/" in
  if bool_decide (digest = "") || hasSlash digest then (None, httpError "invalid digest" 400) else
  let blobFile := blobPath im digest in
  (Some blobFile,
   match open blobFile with
   | NotExist => httpError "not found" 404
   | OpenErr => httpError "internal error" 500
   | Opened content => if decide (method = "HEAD") then Reply 200 "application/gzip" "" else ServeContent (digest +:+ ".tar.gz") content
   end).

Definition handleInflight (encode : list string → string) (hashes : list string) (method : string) : Response :=
  if decide (method ≠ "GET") then httpError "method not allowed" 405 else Reply 200 "application/json" (encode hashes).

(** An encoding that fails is only logged; what was written stays. *)
Definition handleStats {A} (encode : A → string) (summary : GoErr + A) : Response :=
  match summary with
  | inl e => httpError (errText e) 500
  | inr summary => Reply 200 "application/json" (encode summary)
  end.

(** [http.ServeMux]: the longest pattern wins; only one that ends in a slash
    matches what follows it. The path is clean. *)
Definition pawnMux {R} (blobs inflight stats pods : R) (hasImages : bool) (urlPath : string) : R :=
  if hasImages && bool_decide (urlPath = "/blobs/inflight") then inflight
  else if hasImages && has_prefix urlPath "/blobs/" then blobs
  else if decide (urlPath = "/stats/summary") then stats
  else pods.

(** ** The provider *)

Inductive Called (A : Type) := PodMissing | NoContainers | Ran (r : A).
Arguments PodMissing {A}.
Arguments NoContainers {A}.
Arguments Ran {A} r.

(** ** The network namespace of a thread *)

Inductive NetNS := HostNS | ContainerNS (pid : Z).

(** The thread, the descriptors of namespaces that are open, and the connection
    with the namespace in which it was made. *)
Record Thread := { th_ns : NetNS; th_open : list NetNS; th_locked : bool; th_conn : option (NetNS * string) }.

Inductive DialErr := ErrOpenHost | ErrOpenContainer (pid : Z) | ErrSetns | ErrDial (addr : string) | DialPanic.

(** The answers of the kernel. *)
Record DialEnv := {
  de_openHost : bool; de_openContainer : Z → bool; de_enter : Z → bool; de_dial : NetNS → string → bool; de_restore : bool;
}.

(** The process is in the host's namespace. The deferred calls run on every
    path, the panic too. *)
Definition dialInNetNS (env : DialEnv) (pid port : Z) (th : Thread) : Thread * (DialErr + string) :=
  let unlock (t : Thread) := {| t with th_locked := false |} in
  let closeNS (t : Thread) := {| t with th_open := tail t.(th_open) |} in
  let th := {| th with th_locked := true |} in
  if negb env.(de_openHost) then (unlock th, inl ErrOpenHost) else
  let th := {| th with th_open := HostNS :: th.(th_open) |} in
  if negb (env.(de_openContainer) pid) then (unlock (closeNS th), inl (ErrOpenContainer pid)) else
  let th := {| th with th_open := ContainerNS pid :: th.(th_open) |} in
  if negb (env.(de_enter) pid) then (unlock (closeNS (closeNS th)), inl ErrSetns) else
  let th := {| th with th_ns := ContainerNS pid |} in
  let addr := "127.0.0.1:" +:+ pretty port in
  let dialled := env.(de_dial) th.(th_ns) addr in
  let th := if dialled then {| th with th_conn := Some (th.(th_ns), addr) |} else th in
  if negb env.(de_restore) then (unlock (closeNS (closeNS th)), inl DialPanic) else
  let th := {| th with th_ns := HostNS |} in
  (unlock (closeNS (closeNS th)), if dialled then inr addr else inl (ErrDial addr)).

Section Provider.
Context (env : EEnv) (pawnName : string) (strategy : ExecStrategy) (s : PodStore).
Abbreviation PM := (SE (TState EAct ()) EErr).

Definition gambitRunInContainer (namespace podName containerName : string) (cmd : list string) (tty : bool) : PM (Called ()) :=
  match FindPodUID s namespace podName with
  | None => mret PodMissing
  | Some uid => r ← RunInContainer env pawnName strategy uid containerName cmd tty; mret (Ran r)
  end.

Definition gambitAttachContainer (attachPTYs : gset string) (namespace podName containerName : string) (tty : bool) : PM (Called ()) :=
  match FindPodUID s namespace podName with
  | None => mret PodMissing
  | Some uid => r ← AttachContainer env pawnName attachPTYs uid containerName tty; mret (Ran r)
  end.

(** Up to the connection; the copying of the streams is left out. *)
Definition systemdPortForward (denv : DialEnv) (podUID containerName : string) (port : Z) (th : Thread) : PM (Thread * (DialErr + string)) :=
  pid ← getMachineLeaderPID env pawnName (machineName podUID containerName);
  mret (dialInNetNS denv pid port th).

(** The first container of the pod: they share its network. *)
Definition gambitPortForward (denv : DialEnv) (namespace podName : string) (port : Z) (th : Thread) : PM (Called (Thread * (DialErr + string))) :=
  match FindPodUID s namespace podName with
  | None => mret PodMissing
  | Some uid =>
      match GetPod s namespace podName with
      | None => mret PodMissing
      | Some pod => match pod.(p_Containers) with
                    | [] => mret NoContainers
                    | c :: _ => r ← systemdPortForward denv uid c.(c_Name) port th; mret (Ran r)
                    end
      end
  end.

(** [ServeExec] calls it with the command and options of the handler. *)
Definition ExecInContainer (tg : Target) (cmd : list string) (tty : bool) : PM (Called ()) :=
  gambitRunInContainer tg.(tg_namespace) tg.(tg_pod) tg.(tg_container) cmd tty.

Definition serveExec (resp : Response) : PM (Response + Called ()) :=
  match resp with
  | ServeStream tg cmd opts _ _ => r ← ExecInContainer tg cmd opts.(eo_TTY); mret (inr r)
  | resp => mret (inl resp)
  end.
End Provider.

(** ** Which error decides the code *)

(** [Cause] of an error, any number of times. *)
Inductive causedBy : GoErr → GoErr → Prop :=
  | caused_here e : causedBy e e
  | caused_Wrapped msg e c : causedBy e c → causedBy (Wrapped msg e) c
  | caused_notFound e c : causedBy e c → causedBy (notFoundError e) c
  | caused_invalid e c : causedBy e c → causedBy (invalidInputError e) c
  | caused_transient e c : causedBy e c → causedBy (transientError e) c.

Lemma IsNotFound_causedBy e : IsNotFound e = true ↔ ∃ c, causedBy e (notFoundError c).
Proof.
  split.
  - induction e; cbn; intros H; try done; try (destruct (IHe H) as [c Hc]; exists c; by constructor). exists e. constructor.
  - intros [c Hc]. remember (notFoundError c) as n eqn:Hn. induction Hc; subst; cbn; auto.
Qed.

Lemma IsInvalidInput_causedBy e : IsInvalidInput e = true ↔ ∃ c, causedBy e (invalidInputError c).
Proof.
  split.
  - induction e; cbn; intros H; try done; try (destruct (IHe H) as [c Hc]; exists c; by constructor). exists e. constructor.
  - intros [c Hc]. remember (invalidInputError c) as n eqn:Hn. induction Hc; subst; cbn; auto.
Qed.

(** The code of an error is that of its causes, missing before invalid. *)
Lemma status_code e :
  (httpStatusCode (Some e) = 404%Z ↔ ∃ c, causedBy e (notFoundError c)) ∧
  (httpStatusCode (Some e) = 400%Z ↔ (∃ c, causedBy e (invalidInputError c)) ∧ ¬ ∃ c, causedBy e (notFoundError c)) ∧
  httpStatusCode (Some e) ∈ [400; 404; 500]%Z.
Proof.
  rewrite <- IsNotFound_causedBy, <- IsInvalidInput_causedBy. cbn. destruct (IsNotFound e), (IsInvalidInput e);
    (split_and!; [naive_solver lia..|set_solver]).
Qed.

(** ** Layers stay in their directory *)

Lemma hasSlash_false x : hasSlash x = false → index_byte x "/" = None.
Proof. unfold hasSlash. by destruct (index_byte x "/"). Qed.

Lemma plain_tarball x : x ≠ "" → hasSlash x = false → plain (x +:+ ".tar.gz").
Proof.
  intros Hx Hs. apply hasSlash_false in Hs. split_and!.
  - by destruct x.
  - destruct x as [|a [|b x]]; [done|discriminate..].
  - destruct x as [|a [|b [|c x]]]; [done|discriminate..].
  - clear Hx. induction x as [|a x IH]; [done|]. cbn in Hs. case_decide as Ha; [done|]. apply fmap_None in Hs.
    change (String a x +:+ ".tar.gz") with (String a (x +:+ ".tar.gz")). cbn [index_byte]. by rewrite decide_False, IH by done.
Qed.

(** C23: Whatever path a peer asks for, the server opens at most one file, directly
    in the directory of the layers, for a request to read: the tarball of the
    digest in the path; a path with another separator in it is refused. And
    what it answers with is that file, or an error. *)
Theorem blobs_contained im open method urlPath :
  isRooted im.(im_layerCache) = true →
  let digest := trim_prefix urlPath "/blobs/" in
  match handleBlobs im open method urlPath with
  | (Some file, resp) =>
      (method = "GET" ∨ method = "HEAD") ∧ isRooted file = true ∧
      cleanComponents file = cleanComponents im.(im_layerCache) ++ [digest +:+ ".tar.gz"] ∧
      match open file with
      | Opened content => (method = "GET" → resp = ServeContent (digest +:+ ".tar.gz") content) ∧ (method = "HEAD" → resp = Reply 200 "application/gzip" "")
      | NotExist => resp = httpError "not found" 404
      | OpenErr => resp = httpError "internal error" 500
      end
  | (None, resp) => resp = httpError "method not allowed" 405 ∨ resp = httpError "invalid digest" 400 ∧ (digest = "" ∨ hasSlash digest = true)
  end.
Proof.
  intros Hr digest. unfold handleBlobs. case_decide as Hm; [by left|]. fold digest. case_bool_decide as Hd; cbn [orb]; [by right; auto|].
  destruct (hasSlash digest) eqn:Hs; [by right; auto|]. unfold blobPath.
  destruct (pathJoin_names (im_layerCache im) [digest +:+ ".tar.gz"]) as [H1 H2];
    [done|by constructor; [apply plain_tarball|constructor]|done|].
  split_and!; [|done..|].
  - destruct (decide (method = "GET")); [auto|]. destruct (decide (method = "HEAD")); [auto|]. by exfalso; apply Hm.
  - destruct (open _); [|done..]. by split; intros ->.
Qed.

Lemma blobs_contained_witness :
  handleBlobs (NewImageManager "/var/lib/p") (λ _, Opened "x") "GET" "/blobs/.." = (Some "/var/lib/p/layers/...tar.gz", ServeContent "...tar.gz" "x") ∧
  cleanComponents "/var/lib/p/layers/...tar.gz" = ["var"; "lib"; "p"; "layers"; "...tar.gz"].
Proof.
  split; [reflexivity|].
  exact (proj1 (proj2 (proj2 (blobs_contained (NewImageManager "/var/lib/p") (λ _, Opened "x") "GET" "/blobs/.." eq_refl)))).
Defined.

(** ** Requests reach the pod they name *)

(** The one registered pod of that name. *)
Definition podAt (s : PodStore) (ns n uid : string) : Prop := ∃ ps, s.(pods) !! uid = Some ps ∧ ps_key ps = podKey ns n.

Lemma FindPodUID_at ops ns n : valid NewPodStore ops →
  let s := store_run NewPodStore ops in
  match FindPodUID s ns n with Some uid => podAt s ns n uid | None => ∀ uid, ¬ podAt s ns n uid end.
Proof.
  intros Hv s. destruct (store_ok_run _ _ Hv store_ok_New) as (_ & _ & [_ _ _ Hn]). unfold FindPodUID, podAt.
  destruct (nameIndex s !! podKey ns n) as [uid|] eqn:E; [by apply Hn|]. intros uid Hu. apply Hn in Hu. fold s in Hu. by rewrite E in Hu.
Qed.

Section Reach.
Context (env : EEnv) (pawnName : string).
Hypothesis clock : ∀ t a, (env.(ee_now) t <= env.(ee_now) (t ++ [a]))%Z.
Hypothesis clock_sleep : ∀ t ms, (env.(ee_now) t + ms <= env.(ee_now) (t ++ [ESleep ms]))%Z.


(** The thread after dialling: descriptors are closed, the lock is given back,
    and unless the program stops it is in the namespace it came from. *)
Lemma dialInNetNS_restores denv pid port th : th.(th_ns) = HostNS →
  let '(th', r) := dialInNetNS denv pid port th in
  th'.(th_open) = th.(th_open) ∧ th'.(th_locked) = false ∧
  match r with
  | inr addr => th'.(th_ns) = HostNS ∧ th'.(th_conn) = Some (ContainerNS pid, "127.0.0.1:" +:+ pretty port) ∧
                addr = "127.0.0.1:" +:+ pretty port ∧ denv.(de_dial) (ContainerNS pid) addr = true
  | inl DialPanic => denv.(de_restore) = false
  | inl _ => th'.(th_ns) = HostNS ∧ th'.(th_conn) = th.(th_conn)
  end.
Proof.
  destruct th as [ns open locked conn]. cbn [th_ns]. intros ->. unfold dialInNetNS. generalize ("127.0.0.1:" +:+ pretty port).
  intros to. cbn zeta. cbn [th_ns th_open th_locked th_conn].
  destruct (de_openHost denv), (de_openContainer denv pid), (de_enter denv pid), (de_restore denv), (de_dial denv (ContainerNS pid) to) eqn:Hd;
    cbn; rewrite ?Hd; repeat split; auto.
Qed.

(** C18: Forwarding a port of a pod connects to that port of the loopback address in
    the network namespace of the leader of the first container of the pod that is
    registered under the name of the request, and to nothing else: not to the host,
    not for another pod. Afterwards, connected or not, the thread is back in the
    namespace of the host with no descriptor left open, unless the program has
    stopped because it could not be brought back. *)
Theorem port_forward_isolated ops denv namespace name port th t :
  valid NewPodStore ops → th.(th_ns) = HostNS →
  let s := store_run NewPodStore ops in
  wp (gambitPortForward env pawnName s denv namespace name port th) (λ r new _,
    match r with
    | inr PodMissing => new = [] ∧ ∀ uid, ¬ podAt s namespace name uid
    | inr NoContainers => new = []
    | inl e => ∃ uid c, podAt s namespace name uid ∧ noLeader (machineName uid c) (wrapperUnitName pawnName uid c) new ∧ e ≠ ErrSpin
    | inr (Ran (th', res)) =>
        ∃ uid ps c pid, s.(pods) !! uid = Some ps ∧ ps_key ps = podKey namespace name ∧
          head ps.(pst_pod).(p_Containers) = Some c ∧
          leaderFound (machineName uid c.(c_Name)) (wrapperUnitName pawnName uid c.(c_Name)) new pid ∧
          th'.(th_open) = th.(th_open) ∧ th'.(th_locked) = false ∧
          match res with
          | inr addr => th'.(th_ns) = HostNS ∧ th'.(th_conn) = Some (ContainerNS pid, "127.0.0.1:" +:+ pretty port) ∧
                        denv.(de_dial) (ContainerNS pid) addr = true
          | inl DialPanic => denv.(de_restore) = false
          | inl _ => th'.(th_ns) = HostNS ∧ th'.(th_conn) = th.(th_conn)
          end
    end) t tt.
Proof.
  intros Hv Hth s. unfold gambitPortForward, GetPod. pose proof (FindPodUID_at ops namespace name Hv) as Hf. fold s in Hf.
  cbn zeta in Hf. unfold FindPodUID in *. destruct (nameIndex s !! podKey namespace name) as [uid|]; [|by wp_step].
  destruct Hf as (ps & Hps & Hk). unfold getPodState. cbn [mbind option_bind]. rewrite Hps. cbn [mbind option_bind].
  destruct (p_Containers (pst_pod ps)) as [|c cs] eqn:Hc; [by wp_step|]. unfold systemdPortForward. wp_step. wp_step.
  eapply wp_conseq; [by apply wp_getMachineLeaderPID|]. intros [e|pid] new [] Hl.
  { destruct Hl. exists uid, (c_Name c). split; [by exists ps|done]. }
  wp_step. wp_step. pose proof (dialInNetNS_restores denv pid port th Hth) as Hd. destruct (dialInNetNS denv pid port th) as [th' res].
  rewrite ?(right_id_L [] (++)). exists uid, ps, c, pid. rewrite Hc. destruct Hd as (H1 & H2 & H3). split_and!; try done.
  destruct res as [[]|addr]; naive_solver.
Qed.
End Reach.

(** ** On examples *)

Definition demoOps : list StoreOp :=
  [OpRegisterPending "u1" (demoPod "a" 250 64) 1; OpPromoteRunning "u1" (demoPod "a" 250 64) "10.0.0.2";
   OpRegisterPending "u2" (demoPod "b" 100 32) 2; OpMarkDeleting "u1"; OpUnregister 5 6 "u1" "default" "a"].

Definition demoVars (k : string) : string :=
  if decide (k = "namespace") then "default" else if decide (k = "pod") then "b" else if decide (k = "container") then "web" else "".

Definition demoForm (k : string) : string := if decide (k = "output") then "1" else "".

Definition demoThread : Thread := {| th_ns := HostNS; th_open := []; th_locked := false; th_conn := None |}.

Definition demoDial : DialEnv := {|
  de_openHost := true; de_openContainer := λ _, true; de_enter := λ _, true; de_dial := λ _ _, true; de_restore := true |}.


Lemma port_forward_isolated_witness :
  wp (gambitPortForward demoEEnv "p" (store_run NewPodStore demoOps) demoDial "default" "b" 8080 demoThread)
    (λ r new _, match r with
                | inr (Ran (th, inr _)) =>
                    ∃ uid c pid, podAt (store_run NewPodStore demoOps) "default" "b" uid ∧
                      leaderFound (machineName uid c) (wrapperUnitName "p" uid c) new pid ∧
                      th.(th_ns) = HostNS ∧ th.(th_conn) = Some (ContainerNS pid, "127.0.0.1:8080")
                | _ => False
                end) [] tt.
Proof.
  destruct (port_forward_isolated demoEEnv "p" ltac:(intros t a; rewrite demo_now; destruct a; lia) ltac:(intros t ms; rewrite demo_now; lia)
    demoOps demoDial "default" "b" 8080 demoThread [] demo_valid eq_refl) as (r & new & d' & Hr & H).
  exists r, new, d'. split; [exact Hr|]. assert (Hc := Hr). vm_compute in Hc.
  injection Hc as <- <- <-. destruct H as (uid & ps & c & pid & Hps & Hk & Hh & Hl & _ & _ & Hn & Hcn & _).
  exists uid, (c_Name c), pid. split; [exists ps; exact (conj Hps Hk)|]. split; [exact Hl|]. split; [exact Hn|exact Hcn].
Defined.

(** Divergence: the time-outs of port forwarding are exchanged. *)
Example forward_timeouts_swapped :
  let p := {| pawnConfig with ph_StreamIdleTimeout := 1; ph_StreamCreationTimeout := 2 |} in
  map rt_handler (PodHandler p false) =
    [RunningPods false; ContainerLogs true; ContainerExec true 1 2; ContainerAttach true 1 2; PortForwarding true 2 1].
Proof. reflexivity. Qed.

(** Defect: logs of a pod that is not known give 500, not 404: the error has no
    class. A digit that is no number gives 400. *)
Example logs_unknown_pod :
  let vars := list_to_map [("namespace", "default"); ("pod", "a"); ("container", "c")] in
  let ask q := HandleContainerLogs (λ _, None) (Some (λ _ _ _ _, @inl _ () ErrPodNotFound)) (λ _, ("", None)) vars q in
  ask (λ _, "") = Reply 500 "" "error getting container logs?): pod not found" ∧
  ask (λ k, if decide (k = "tailLines") then "x" else "") = Reply 400 "" "tailLines".
Proof. split; reflexivity. Qed.

(** Defect: once the client's channel of sizes is closed, the relay of a command
    sends zeros for as long as they are taken; that of an attachment stops. *)
Example closed_resize_spins n :
  relayExec (S n) [Resize 80 24; ResizeClosed] = (80, 24)%Z :: replicate n (0, 0)%Z ∧
  relayAttach (S n) [Resize 80 24; ResizeClosed] = [(80, 24)%Z].
Proof.
  split; cbn; [|by destruct n]. f_equal. induction n as [|n IH]; cbn; [done|]. by rewrite IH.
Qed.

(** Two providers' statistics: one that was cancelled keeps its message. *)
Example cancelled_unwrapped :
  HandlePodStatsSummary (λ _ : (), inr "") (λ b, (b, None)) (Some (inl CanceledErr)) = Reply 500 "" "context canceled" ∧
  HandlePodStatsSummary (λ _ : (), inr "") (λ b, (b, None)) (Some (inl (notFoundError (Plain "no"))))
    = Reply 404 "" "error getting status from provider: no".
Proof. split; reflexivity. Qed.
