(* ===== verification/Plugin.v ===== *)
(** * Registration of storage drivers (internal/plugin/registration.go)

    The watcher finds the socket of a driver's registrar, asks the driver who it
    is, enters it in the CSINode of every pawn and in an annotation of its node,
    and tells the registrar. The objects are a [Cluster]; whether a call to the
    API server or to a socket succeeds is a function of the calls before it. A
    JSON text is given by its value. *)
From S2P Require Import Prelude Monad Trace Paths.
Import Str.

(** ** Data *)

Record CSINodeDriver := { drv_Name : string; drv_NodeID : string; drv_TopologyKeys : list string; drv_Allocatable : option Z }.

Record CSINode := { csn_owner : string; csn_Drivers : list CSINodeDriver }.

(** The value of the annotation: an object, with [None] for a member that is
    not a string; [null]; or anything else, malformed texts included. *)
Inductive Annotation := AnnObject (members : list (string * option string)) | AnnNull | AnnOther.

Record NodeObj := { nob_UID : string; nob_nodeid : option Annotation }.

Record Cluster := { cl_nodes : gmap string NodeObj; cl_csi : gmap string CSINode }.

(** What [NodeGetInfo] and [GetInfo] answer. *)
Record NodeInfo := { NodeId : string; AccessibleTopology : option (list string); MaxVolumesPerNode : Z }.
Record PluginInfo := { inf_Type : string; inf_Name : string; inf_Endpoint : string }.

Inductive PErr :=
  | ErrGetNode (pawn : string)
  | ErrCreateCSI (pawn : string)
  | ErrGetCSI (pawn : string)
  | ErrUpdateCSI (pawn : string)
  | ErrPatch (pawn : string)
  | ErrGetInfo
  | ErrNodeGetInfo (endpoint : string)
  | Panic
  | Spin.

Inductive PAct :=
  | PGetNode (pawn : string) (ok : bool)
  | PGetCSI (pawn : string) (ok : bool)
  | PCreate (pawn : string) (ok : bool)
  | PUpdate (pawn : string) (ok : bool)
  | PPatch (pawn : string) (ok : bool)
  | PGetInfo (socket : string) (r : option PluginInfo)
  | PNodeGetInfo (endpoint : string) (r : option NodeInfo)
  | PNotify (socket : string) (ok : bool)
  | PSleep (ms : Z).

(** [pe_exists] is [os.Stat] on the host, [pe_now] the clock in ms. *)
Record PEnv := {
  pe_ok : list PAct → bool;
  pe_getInfo : list PAct → string → option PluginInfo;
  pe_nodeGetInfo : list PAct → string → option NodeInfo;
  pe_exists : list PAct → string → bool;
  pe_now : list PAct → Z;
}.

Definition CSIPlugin : string := "CSIPlugin".
Definition pluginRegistryDir : string := "/var/lib/kubelet/plugins_registry".
Definition pluginRegistryKubeletDir : string := "/var/lib/kubelet/plugins".
Definition handleRetryInterval : Z := 500.
Definition handleRetryTimeout : Z := 30000.

(** The number of attempts that fit. *)
Definition retryRounds : nat := 60.

(** ** One pawn *)

Definition driverEntry (driverName : string) (nodeInfo : NodeInfo) : CSINodeDriver := {|
  drv_Name := driverName; drv_NodeID := nodeInfo.(NodeId);
  drv_TopologyKeys := default [] nodeInfo.(AccessibleTopology);
  drv_Allocatable := if (0 <? nodeInfo.(MaxVolumesPerNode))%Z then Some (wrap32 nodeInfo.(MaxVolumesPerNode)) else None |}.

(** The drivers with the entry of this one, and whether they changed. *)
Fixpoint putDriver (e : CSINodeDriver) (l : list CSINodeDriver) : list CSINodeDriver * bool :=
  match l with
  | [] => ([e], true)
  | d :: l' =>
      if decide (d.(drv_Name) = e.(drv_Name)) then
        if decide (d.(drv_NodeID) = e.(drv_NodeID)) then (l, false) else (e :: l', true)
      else let '(l'', updated) := putDriver e l' in (d :: l'', updated)
  end.

(** [json.Unmarshal] into a map of strings, its error ignored: a member that is
    not a string is the empty string, and [null] makes the map nil. *)
Definition decodeMap (a : Annotation) : option (gmap string string) :=
  match a with
  | AnnObject members => Some (foldl (λ m kv, <[kv.1 := default "" kv.2]> m) ∅ members)
  | AnnNull => None
  | AnnOther => Some ∅
  end.

Definition encodeMap (m : gmap string string) : Annotation := AnnObject (map (λ kv, (kv.1, Some kv.2)) (map_to_list m)).

(** [filepath.Base] *)
Definition fileBase (p : string) : string :=
  if decide (p = "") then "." else default "/" (last (filter (λ x, x ≠ "") (splitOn "/" p))).

Section Watcher.
Context (env : PEnv) (pawnNames : list string).

Abbreviation PM := (SE (TState PAct Cluster) PErr).

Definition apiCall (rec : bool → PAct) : PM bool := callT env.(pe_ok) rec.

Definition setCSI (pawn : string) (cn : CSINode) : PM () := modD (λ c, {| c with cl_csi := <[pawn := cn]> c.(cl_csi) |}).

Definition setAnnotation (pawn : string) (a : Annotation) : PM () :=
  modD (λ c, {| c with cl_nodes := alter (λ n, {| n with nob_nodeid := Some a |}) pawn c.(cl_nodes) |}).

Definition writeCSINode (pawnName : string) (node : NodeObj) (e : CSINodeDriver) : PM () :=
  ok ← apiCall (PGetCSI pawnName);
  if negb ok then throw (ErrGetCSI pawnName) else
  csiNode ← getD (λ c, c.(cl_csi) !! pawnName);
  match csiNode with
  | None =>
      ok ← apiCall (PCreate pawnName);
      if negb ok then throw (ErrCreateCSI pawnName) else setCSI pawnName {| csn_owner := node.(nob_UID); csn_Drivers := [e] |}
  | Some csiNode =>
      let '(drivers, updated) := putDriver e csiNode.(csn_Drivers) in
      whenM updated
        (ok ← apiCall (PUpdate pawnName);
         if negb ok then throw (ErrUpdateCSI pawnName) else setCSI pawnName {| csiNode with csn_Drivers := drivers |})
  end.

Definition ensureCSINode (pawnName driverName : string) (nodeInfo : NodeInfo) : PM () :=
  ok ← apiCall (PGetNode pawnName);
  node ← getD (λ c, c.(cl_nodes) !! pawnName);
  match node with
  | Some node =>
      if negb ok then throw (ErrGetNode pawnName) else
      _ ← writeCSINode pawnName node (driverEntry driverName nodeInfo);
      match default (Some ∅) (decodeMap <$> node.(nob_nodeid)) with
      | None => throw Panic
      | Some nodeIDMap =>
          ok ← apiCall (PPatch pawnName);
          if negb ok then throw (ErrPatch pawnName)
          else setAnnotation pawnName (encodeMap (<[driverName := nodeInfo.(NodeId)]> nodeIDMap))
      end
  | None => throw (ErrGetNode pawnName)
  end.

(** ** One socket *)

Definition resolveCSIEndpoint (t : list PAct) (driverName containerPath : string) : string :=
  if env.(pe_exists) t containerPath then containerPath else
  let hostPath := pathJoin [pluginRegistryKubeletDir; driverName; fileBase containerPath] in
  if env.(pe_exists) t hostPath then hostPath else
  let stagingSocket := pathJoin [pluginRegistryKubeletDir; driverName; "csi.sock"] in
  if env.(pe_exists) t stagingSocket then stagingSocket else containerPath.

(** An error is logged; a panic is not caught. *)
Definition registerPawn (driverName : string) (nodeInfo : NodeInfo) (pawnName : string) : PM () :=
  r ← try (ensureCSINode pawnName driverName nodeInfo);
  match r with inl Panic => throw Panic | _ => mret tt end.

Definition handleSocket (socketPath : string) : PM () :=
  info ← callT (λ t, env.(pe_getInfo) t socketPath) (PGetInfo socketPath);
  match info with
  | None => throw ErrGetInfo
  | Some info =>
      if decide (info.(inf_Type) ≠ CSIPlugin) then _ ← apiCall (PNotify socketPath); mret tt else
      let endpoint := if decide (info.(inf_Endpoint) = "") then socketPath else info.(inf_Endpoint) in
      endpoint ← askT (λ t, resolveCSIEndpoint t info.(inf_Name) endpoint);
      nodeResp ← callT (λ t, env.(pe_nodeGetInfo) t endpoint) (PNodeGetInfo endpoint);
      match nodeResp with
      | None => throw (ErrNodeGetInfo endpoint)
      | Some nodeResp =>
          _ ← forM pawnNames (registerPawn info.(inf_Name) nodeResp);
          _ ← apiCall (PNotify socketPath); mret tt
      end
  end.

(** One attempt per half second, until one succeeds or the time is over. *)
Fixpoint retry_loop (fuel : nat) (deadline : Z) (socketPath : string) : PM bool :=
  match fuel with
  | O => throw Spin
  | S fuel =>
      r ← try (handleSocket socketPath);
      match r with
      | inr _ => mret true
      | inl Panic => throw Panic
      | inl _ =>
          now ← askT env.(pe_now);
          if (deadline <=? now + handleRetryInterval)%Z then mret false
          else _ ← doT (PSleep handleRetryInterval); retry_loop fuel deadline socketPath
      end
  end.

Definition handleSocketWithRetry (socketPath : string) : PM bool :=
  now ← askT env.(pe_now);
  retry_loop retryRounds (now + handleRetryTimeout)%Z socketPath.
End Watcher.

(** ** Finding the sockets *)

(** The sockets there are at the start, and those that appear. *)
Definition existingSockets (entries : option (list (string * bool))) : list string :=
  map (λ e, pathJoin [pluginRegistryDir; e.1])
    (filter (λ e : string * bool, e.2 = false ∧ has_suffix e.1 ".sock" = true) (default [] entries)).

(** An event is the bit set of its operations; [fsnotify.Create] is the first bit. *)
Definition newSocket (ev : Z * string) : option string :=
  if decide (ev.1 ≠ 1%Z) then None else if has_suffix ev.2 ".sock" then Some ev.2 else None.

(** ** What a registration leaves *)

Definition driversOf (c : Cluster) (p : string) : list CSINodeDriver := default [] (csn_Drivers <$> c.(cl_csi) !! p).
Definition annotationOf (c : Cluster) (p : string) : gmap string string :=
  default ∅ (n ← c.(cl_nodes) !! p; a ← n.(nob_nodeid); decodeMap a).
Definition nullAnnotation (c : Cluster) (p : string) : Prop := ∃ n, c.(cl_nodes) !! p = Some n ∧ n.(nob_nodeid) = Some AnnNull.

Section Driver.
Context (driver id : string).

Definition driverOf (l : list CSINodeDriver) : option CSINodeDriver := head (filter (λ d, d.(drv_Name) = driver) l).
Definition others (l : list CSINodeDriver) : list CSINodeDriver := filter (λ d, d.(drv_Name) ≠ driver) l.

Definition inCSINode (c : Cluster) (p : string) : Prop := drv_NodeID <$> driverOf (driversOf c p) = Some id.
Definition inAnnotation (c : Cluster) (p : string) : Prop := annotationOf c p !! driver = Some id.

(** Only the entries of this driver may change, and those that are right stay. *)
Definition entriesKept (c c' : Cluster) : Prop := ∀ p,
  others (driversOf c' p) = others (driversOf c p) ∧
  delete driver (annotationOf c' p) = delete driver (annotationOf c p) ∧
  (inCSINode c p → inCSINode c' p) ∧ (inAnnotation c p → inAnnotation c' p) ∧ (nullAnnotation c' p → nullAnnotation c p) ∧
  (c'.(cl_nodes) !! p = None ↔ c.(cl_nodes) !! p = None).

#[local] Instance entriesKept_preorder : PreOrder entriesKept.
Proof.
  split; [by intros c p|]. intros a b c Hab Hbc p. destruct (Hab p) as (H1 & H2 & H3 & H4 & H5 & H6).
  destruct (Hbc p) as (K1 & K2 & K3 & K4 & K5 & K6).
  split_and!; [by rewrite K1|by rewrite K2|auto..|by rewrite K6].
Qed.

Lemma putDriver_spec e l :
  e.(drv_Name) = driver → e.(drv_NodeID) = id →
  drv_NodeID <$> driverOf (putDriver e l).1 = Some id ∧ others (putDriver e l).1 = others l ∧
  ((putDriver e l).2 = false → (putDriver e l).1 = l).
Proof.
  intros Hn Hi. unfold driverOf, others. induction l as [|d l (IH1 & IH2 & IH3)]; cbn [putDriver].
  - cbn [fst snd]. rewrite !filter_cons, decide_True by done. rewrite decide_False by tauto. cbn. by rewrite Hi.
  - rewrite Hn. destruct (decide (drv_Name d = driver)) as [Hd|Hd].
    + rewrite (filter_cons _ d l), (decide_False (P := drv_Name d ≠ driver)) by tauto.
      destruct (decide (drv_NodeID d = drv_NodeID e)) as [He|He]; cbn [fst snd].
      * rewrite !filter_cons, decide_True by done. rewrite decide_False by tauto. cbn. by rewrite He, Hi.
      * rewrite !filter_cons, decide_True by done. rewrite decide_False by tauto. cbn. by rewrite Hi.
    + destruct (putDriver e l) as [l' u]. cbn [fst snd] in *.
      rewrite !filter_cons, !(decide_False (P := drv_Name d = driver)), !(decide_True (P := drv_Name d ≠ driver)) by done.
      split_and!; [done|by rewrite IH2|intros Hu; by rewrite IH3].
Qed.

Lemma decode_encode m : decodeMap (encodeMap m) = Some m.
Proof.
  unfold decodeMap, encodeMap. f_equal.
  enough (∀ l (acc : gmap string string), NoDup l.*1 →
    foldl (λ m (kv : string * option string), <[kv.1 := default "" kv.2]> m) acc (map (λ kv : string * string, (kv.1, Some kv.2)) l)
    = list_to_map l ∪ acc) as H.
  { rewrite H by apply NoDup_fst_map_to_list. by rewrite list_to_map_to_list, (right_id_L ∅ (∪)). }
  intros l. induction l as [|[k x] l IH]; intros acc Hl; cbn; [by rewrite (left_id_L ∅ (∪))|].
  apply NoDup_cons in Hl as [Hk Hl]. rewrite IH by done.
  rewrite <- insert_union_r by (by apply not_elem_of_list_to_map_1). by rewrite insert_union_l.
Qed.
Lemma entriesKept_csi c p owner l :
  drv_NodeID <$> driverOf l = Some id → others l = others (driversOf c p) →
  let c' := {| c with cl_csi := <[p := {| csn_owner := owner; csn_Drivers := l |}]> c.(cl_csi) |} in
  entriesKept c c' ∧ inCSINode c' p.
Proof.
  intros Hl Ho c'.
  assert (driversOf c' p = l) as Hp by (unfold driversOf; cbn; by rewrite lookup_insert_eq).
  split; [|unfold inCSINode; by rewrite Hp]. intros q. unfold inCSINode. destruct (decide (q = p)) as [->|Hq].
  - rewrite Hp. done.
  - assert (driversOf c' q = driversOf c q) as -> by (unfold driversOf; cbn; by rewrite lookup_insert_ne). done.
Qed.

Lemma entriesKept_annotation c p n m :
  c.(cl_nodes) !! p = Some n → default (Some ∅) (decodeMap <$> n.(nob_nodeid)) = Some m →
  let c' := {| c with cl_nodes := alter (λ n, {| n with nob_nodeid := Some (encodeMap (<[driver := id]> m)) |}) p c.(cl_nodes) |} in
  entriesKept c c' ∧ inAnnotation c' p.
Proof.
  intros Hn Hm c'.
  assert (annotationOf c p = m) as Hp.
  { unfold annotationOf. rewrite Hn. cbn. destruct (nob_nodeid n) as [a|]; cbn in *; [by rewrite Hm|by injection Hm]. }
  assert (annotationOf c' p = <[driver := id]> m) as Hp'.
  { unfold annotationOf. cbn. rewrite lookup_alter_eq, Hn. cbn -[decodeMap encodeMap]. by rewrite decode_encode. }
  split; [|unfold inAnnotation; by rewrite Hp', lookup_insert_eq]. intros q. destruct (decide (q = p)) as [->|Hq].
  - unfold inAnnotation, nullAnnotation. rewrite Hp, Hp', lookup_insert_eq. cbn. rewrite lookup_alter_eq, Hn. cbn.
    split_and!; [done|by rewrite delete_insert_eq|done|done|by intros (? & [= <-] & [=])|done].
  - unfold inAnnotation, nullAnnotation, annotationOf. cbn. by rewrite lookup_alter_ne.
Qed.

(** A call about this pawn that failed. *)
Definition failedFor (p : string) (a : PAct) : Prop :=
  a ∈ [PGetNode p false; PGetCSI p false; PCreate p false; PUpdate p false; PPatch p false].

Definition notNotify (a : PAct) : Prop := match a with PNotify _ _ => False | _ => True end.
End Driver.

Ltac wp_ok :=
  match goal with |- wp (if negb ?b then _ else _) _ _ _ => let E := fresh "E" in destruct b eqn:E; cbn [negb] end.
Ltac failed_here := cbn; first [constructor 1; solve [repeat first [apply list_elem_of_here | apply list_elem_of_further]] | constructor 2; failed_here].

Section Registering.
Context (env : PEnv) (driver : string) (ni : NodeInfo).
#[local] Existing Instance entriesKept_preorder.

Lemma wp_writeCSINode p n t c :
  wp (writeCSINode env p n (driverEntry driver ni))
    (λ r new c', entriesKept driver (NodeId ni) c c' ∧ c'.(cl_nodes) = c.(cl_nodes) ∧ Forall notNotify new ∧
      match r with
      | inr _ => inCSINode driver (NodeId ni) c' p
      | inl e => e ≠ Panic ∧ e ≠ Spin ∧ Exists (failedFor p) new
      end) t c.
Proof.
  unfold writeCSINode, apiCall, setCSI. do 2 wp_step. wp_ok.
  2: { wp_step. split_and!; [done|done|by repeat constructor|done|done|failed_here]. }
  do 2 wp_step. destruct (cl_csi c !! p) as [cn|] eqn:Ec.
  - destruct (putDriver_spec driver (NodeId ni) (driverEntry driver ni) (csn_Drivers cn) eq_refl eq_refl) as (H1 & H2 & H3).
    destruct (putDriver (driverEntry driver ni) (csn_Drivers cn)) as [l u]. cbn [fst snd] in *.
    assert (driversOf c p = csn_Drivers cn) as Hd by (unfold driversOf; by rewrite Ec).
    destruct u; cbn [whenM].
    + do 2 wp_step. wp_ok; wp_step.
      * destruct (entriesKept_csi driver (NodeId ni) c p (csn_owner cn) l H1) as [K1 K2]; [by rewrite Hd|].
        split_and!; [exact K1|done|by repeat constructor|exact K2].
      * split_and!; [done|done|by repeat constructor|done|done|failed_here].
    + wp_step. split_and!; [done|done|by repeat constructor|]. unfold inCSINode. by rewrite Hd, <- H3.
  - do 2 wp_step. wp_ok; wp_step.
    + destruct (entriesKept_csi driver (NodeId ni) c p (nob_UID n) [driverEntry driver ni]) as [K1 K2].
      { unfold driverOf. rewrite filter_cons, decide_True by done. done. }
      { unfold others, driversOf. rewrite Ec, filter_cons, decide_False by (cbn; tauto). done. }
      split_and!; [exact K1|done|by repeat constructor|exact K2].
    + split_and!; [done|done|by repeat constructor|done|done|failed_here].
Qed.
Lemma wp_ensureCSINode p t c :
  wp (ensureCSINode env p driver ni)
    (λ r new c', entriesKept driver (NodeId ni) c c' ∧ Forall notNotify new ∧
      match r with
      | inr _ => inCSINode driver (NodeId ni) c' p ∧ inAnnotation driver (NodeId ni) c' p
      | inl Panic => nullAnnotation c p
      | inl e => e ≠ Spin ∧ (Exists (failedFor p) new ∨ c.(cl_nodes) !! p = None)
      end) t c.
Proof.
  unfold ensureCSINode, apiCall, setAnnotation. do 4 wp_step. destruct (cl_nodes c !! p) as [n|] eqn:En.
  2: { wp_step. split_and!; [done|by repeat constructor|done|by right]. }
  wp_ok. 2: { wp_step. split_and!; [done|by repeat constructor|done|left; failed_here]. }
  wp_step. eapply wp_conseq; [apply wp_writeCSINode|]. intros [e|?] new1 c1 (K1 & Hnodes & Hn1 & Hr); cbn beta iota.
  { split_and!; [done|by repeat constructor|]. destruct Hr as (He1 & He2 & Hf).
    destruct e; try done; (split; [done|left; cbn; by constructor 2]). }
  destruct (default (Some ∅) (decodeMap <$> nob_nodeid n)) as [m|] eqn:Em.
  2: { wp_step. split_and!; [done|rewrite !(right_id_L [] (++)); by repeat constructor|]. exists n. split; [done|].
       destruct (nob_nodeid n) as [[]|]; cbn in Em; done. }
  do 2 wp_step. wp_ok; wp_step.
  - destruct (entriesKept_annotation driver (NodeId ni) c1 p n m) as [K2 Ha]; [by rewrite Hnodes|done|].
    split_and!; [by etrans|cbn; constructor; [done|]; apply Forall_app; split; [done|by repeat constructor]|by apply (K2 p)|done].
  - split_and!; [done|cbn; constructor; [done|]; apply Forall_app; split; [done|by repeat constructor]|done|].
    left. cbn. constructor 2. apply Exists_app. right. failed_here.
Qed.

(** The pawns that are done are registered, unless a call for them failed. *)
Definition settled (c c' : Cluster) (new : list PAct) (p : string) : Prop :=
  (inCSINode driver (NodeId ni) c' p ∧ inAnnotation driver (NodeId ni) c' p) ∨ Exists (failedFor p) new ∨ c.(cl_nodes) !! p = None.

Lemma wp_registerPawns pawns t c :
  wp (forM pawns (registerPawn env driver ni))
    (λ r new c', entriesKept driver (NodeId ni) c c' ∧ Forall notNotify new ∧
      match r with
      | inr _ => Forall (settled c c' new) pawns
      | inl e => e = Panic ∧ Exists (nullAnnotation c) pawns
      end) t c.
Proof.
  eapply wp_conseq.
  - apply (wp_forM (λ pre new c', entriesKept driver (NodeId ni) c c' ∧ Forall notNotify new ∧ Forall (settled c c' new) pre)
      (λ e new c', entriesKept driver (NodeId ni) c c' ∧ Forall notNotify new ∧ e = Panic ∧ Exists (nullAnnotation c) pawns)).
    { split_and!; [done|done|constructor]. }
    intros pre p rest new1 c1 -> (K1 & Hn1 & Hs). unfold registerPawn. wp_step. apply wp_try.
    eapply wp_conseq; [apply wp_ensureCSINode|]. intros r new2 c2 (K2 & Hn2 & Hr). cbn beta iota.
    assert (entriesKept driver (NodeId ni) c c2) as K by by etrans.
    assert (Forall notNotify (new1 ++ new2)) as Hn by by apply Forall_app.
    assert (Forall (settled c c2 (new1 ++ new2)) pre) as Hs'.
    { eapply Forall_impl; [exact Hs|]. intros q [[H1 H2]|[H|H]]; [left; by split; apply (K2 q)|right; left|by right; right].
      apply Exists_app. by left. }
    assert (settled c c2 (new1 ++ new2) p → wp (mret ()) (λ r' new' d'', match r' with
      | inl e => entriesKept driver (NodeId ni) c d'' ∧ Forall notNotify (new1 ++ new2 ++ new') ∧ e = Panic ∧ Exists (nullAnnotation c) (pre ++ p :: rest)
      | inr _ => entriesKept driver (NodeId ni) c d'' ∧ Forall notNotify (new1 ++ new2 ++ new') ∧ Forall (settled c d'' (new1 ++ new2 ++ new')) (pre ++ [p]) end)
      ((t ++ new1) ++ new2) c2) as Hdone.
    { intros Hp. wp_step. rewrite !(right_id_L [] (++)). split_and!; [done|done|]. apply Forall_app. split; [done|by apply Forall_singleton]. }
    destruct r as [e|[]]; [|by apply Hdone; left].
    assert (∀ q, c1.(cl_nodes) !! q = None → c.(cl_nodes) !! q = None) as Hnone by (intros q; apply (K1 q)).
    destruct e; try (apply Hdone; right; destruct Hr as [_ [Hf|Hf]]; [left; apply Exists_app; by right|right; by apply Hnone]).
    wp_step. rewrite !(right_id_L [] (++)). split_and!; [done|done|done|].
    apply Exists_app. right. constructor. by apply (K1 p).
  - intros [e|[]] new c' H; cbn beta iota in *; [|done]. by destruct H as (? & ? & ? & ?).
Qed.
End Registering.

(** ** A socket *)

(** What an attempt that succeeds found and left. *)
Definition registration (pawns : list string) (c c' : Cluster) (new : list PAct) : Prop :=
  (∃ socket info, PGetInfo socket (Some info) ∈ new ∧ info.(inf_Type) ≠ CSIPlugin ∧ c' = c) ∨
  (∃ socket info endpoint ni, PGetInfo socket (Some info) ∈ new ∧ PNodeGetInfo endpoint (Some ni) ∈ new ∧
     entriesKept info.(inf_Name) ni.(NodeId) c c' ∧ Forall (settled info.(inf_Name) ni c c' new) pawns).

Lemma settled_app driver ni c c' new new0 p : settled driver ni c c' new p → settled driver ni c c' (new0 ++ new) p.
Proof. intros [H|[H|H]]; [by left| |by right; right]. right. left. apply Exists_app. by right. Qed.

Lemma registration_app pawns c c' new new0 : registration pawns c c' new → registration pawns c c' (new0 ++ new).
Proof.
  intros [(s & i & H & ? & ?)|(s & i & e & ni & H1 & H2 & K & Hs)].
  - left. exists s, i. split_and!; [set_solver|done|done].
  - right. exists s, i, e, ni. split_and!; [set_solver|set_solver|done|]. eapply Forall_impl; [exact Hs|]. intros. by apply settled_app.
Qed.

Lemma wp_handleSocket env pawns socket t c :
  wp (handleSocket env pawns socket)
    (λ r new c', match r with
      | inr _ => ∃ pre ok, new = pre ++ [PNotify socket ok] ∧ Forall notNotify pre ∧ registration pawns c c' new
      | inl Panic => Exists (nullAnnotation c) pawns
      | inl e => e ≠ Spin ∧ c' = c ∧ Forall notNotify new
      end) t c.
Proof.
  unfold handleSocket, apiCall. do 2 wp_step. destruct (pe_getInfo env t socket) as [info|].
  2: { wp_step. split_and!; [done|done|by repeat constructor]. }
  case_decide as Hty.
  { do 3 wp_step. rewrite !(right_id_L [] (++)). eexists [_], _. split_and!; [done|by repeat constructor|].
    left. exists socket, info. split_and!; [set_solver|done|done]. }
  do 4 wp_step. set (endpoint := resolveCSIEndpoint _ _ _ _). destruct (pe_nodeGetInfo env _ endpoint) as [ni|].
  2: { wp_step. split_and!; [done|done|by repeat constructor]. }
  wp_step. eapply wp_conseq; [apply wp_registerPawns|]. intros [e|[]] new c' (K & Hn & Hr); cbn beta iota.
  { by destruct Hr as [-> Hr]. }
  do 3 wp_step. rewrite !(right_id_L [] (++)). cbn [app].
  eexists (PGetInfo socket (Some info) :: PNodeGetInfo endpoint (Some ni) :: new), _.
  split_and!; [done|by repeat constructor|]. right. exists socket, info, endpoint, ni.
  split_and!; [set_solver|set_solver|done|]. eapply Forall_impl; [exact Hr|].
  intros p [H|[H|H]]; [by left| |by right; right]. right. left. do 2 constructor 2. apply Exists_app. by left.
Qed.

(** Time passes, and a sleep lasts as long as it says. *)
Definition clock_ok (env : PEnv) : Prop :=
  (∀ t u, env.(pe_now) t <= env.(pe_now) (t ++ u))%Z ∧ (∀ t ms, env.(pe_now) t + ms <= env.(pe_now) (t ++ [PSleep ms]))%Z.

Lemma wp_retry_loop env pawns socket fuel deadline t c :
  clock_ok env → 0 < fuel → (deadline <= env.(pe_now) t + handleRetryInterval * Z.of_nat fuel)%Z →
  wp (retry_loop env pawns fuel deadline socket)
    (λ r new c', match r with
      | inr true => ∃ pre ok, new = pre ++ [PNotify socket ok] ∧ Forall notNotify pre ∧ registration pawns c c' new
      | inr false => c' = c ∧ Forall notNotify new
      | inl e => e = Panic ∧ Exists (nullAnnotation c) pawns
      end) t c.
Proof.
  intros [Hmono Hsleep]. revert t. induction fuel as [|fuel IH]; intros t Hf Ht; [lia|]. cbn [retry_loop].
  wp_step. apply wp_try. eapply wp_conseq; [apply wp_handleSocket|]. intros r new c1 Hr. cbn beta iota.
  assert (∀ e, r = inl e → e ≠ Panic → c1 = c ∧ Forall notNotify new) as Herr by (intros e ->; destruct e; naive_solver).
  destruct r as [e|[]]; [|wp_step; by rewrite (right_id_L [] (++))].
  assert (e = Panic ∨ e ≠ Panic) as [->|He] by (destruct e; auto); [by wp_step|].
  destruct (Herr e eq_refl He) as [-> Hn].
  assert (∀ (a b : SE (TState PAct Cluster) PErr bool), match e with Panic => a | _ => b end = b) as -> by (intros; by destruct e).
  do 2 wp_step. specialize (Hmono t new). destruct (deadline <=? _)%Z eqn:Hd; [wp_step; by rewrite !(right_id_L [] (++))|].
  apply Z.leb_gt in Hd. unfold handleRetryInterval in *. rewrite !(right_id_L [] (++)).
  do 2 wp_step. specialize (Hsleep (t ++ new) 500%Z).
  eapply wp_conseq; [apply IH; lia|]. intros [?|[]] new' c' H; cbn beta iota; [done| |].
  - destruct H as (pre & ok & -> & Hp & Hreg). exists (new ++ [PSleep 500] ++ pre), ok.
    split_and!; [by rewrite <- !(assoc_L (++))|apply Forall_app; split; [done|by constructor]|].
    do 3 apply registration_app. exact Hreg.
  - destruct H as [-> Hp]. split; [done|]. apply Forall_app. split; [done|]. by constructor.
Qed.

(** C27: Registration of a driver. The attempts end, by success or within the 30 seconds. The registrar is told of a success once and last, and only after every pawn has been tried: each pawn then has the driver with its node ID in its CSINode and in the annotation of its node, unless its node is missing or a call for it failed; the entries of other drivers are as before. Without success nothing has changed; and the only other outcome is the panic of a node whose annotation is the JSON value null. *)
Theorem csi_registration env pawns socket t c :
  clock_ok env →
  wp (handleSocketWithRetry env pawns socket)
    (λ r new c', match r with
      | inr true => ∃ pre ok, new = pre ++ [PNotify socket ok] ∧ Forall notNotify pre ∧ registration pawns c c' new
      | inr false => c' = c ∧ Forall notNotify new
      | inl e => e = Panic ∧ Exists (nullAnnotation c) pawns
      end) t c.
Proof.
  intros Hc. unfold handleSocketWithRetry. do 2 wp_step. rewrite (right_id_L [] (++)). cbn [app].
  apply wp_retry_loop; [done|unfold retryRounds; lia|]. unfold handleRetryTimeout, handleRetryInterval, retryRounds. lia.
Qed.

Definition sleeps (t : list PAct) : Z := foldr (λ a n, (match a with PSleep ms => Z.max 0 ms | _ => 0 end + n)%Z) 0%Z t.

(** A driver that answers at the second attempt. *)
Definition demoPEnv (ok : list PAct → bool) : PEnv := {|
  pe_ok := ok;
  pe_getInfo := λ t _, if (sleeps t =? 0)%Z then None
                       else Some {| inf_Type := CSIPlugin; inf_Name := "seaweedfs"; inf_Endpoint := "/csi/csi.sock" |};
  pe_nodeGetInfo := λ _ e, if decide (e = "/var/lib/kubelet/plugins/seaweedfs/csi.sock")
                           then Some {| NodeId := "n1"; AccessibleTopology := Some ["zone"]; MaxVolumesPerNode := 0 |} else None;
  pe_exists := λ _ p, bool_decide (p = "/var/lib/kubelet/plugins/seaweedfs/csi.sock");
  pe_now := sleeps |}.

Definition demoCluster (a : option Annotation) (csi : gmap string CSINode) : Cluster :=
  {| cl_nodes := {[ "pawn-00" := {| nob_UID := "uid0"; nob_nodeid := a |} ]}; cl_csi := csi |}.

Lemma sleeps_app t u : sleeps (t ++ u) = (sleeps t + sleeps u)%Z.
Proof. unfold sleeps. induction t as [|a t IH]; [done|]. cbn. rewrite IH. lia. Qed.

Lemma demo_clock ok : clock_ok (demoPEnv ok).
Proof.
  split; cbn [demoPEnv pe_now]; intros t u; rewrite sleeps_app; [|cbn; lia].
  assert (0 <= sleeps u)%Z; [|lia]. unfold sleeps. induction u as [|a u IH]; cbn; [lia|]. destruct a; lia.
Qed.

Lemma csi_registration_witness :
  let '(s, r) := handleSocketWithRetry (demoPEnv (λ _, true)) ["pawn-00"] "/reg.sock" {| t_trace := []; t_data := demoCluster None ∅ |} in
  r = inr true ∧
  s.(t_data) = demoCluster (Some (AnnObject [("seaweedfs", Some "n1")]))
    {[ "pawn-00" := {| csn_owner := "uid0"; csn_Drivers := [{| drv_Name := "seaweedfs"; drv_NodeID := "n1"; drv_TopologyKeys := ["zone"]; drv_Allocatable := None |}] |} ]} ∧
  registration ["pawn-00"] (demoCluster None ∅) s.(t_data) s.(t_trace).
Proof.
  destruct (csi_registration (demoPEnv (λ _, true)) ["pawn-00"] "/reg.sock" [] (demoCluster None ∅) (demo_clock _)) as (r & new & c' & Hrun & H).
  assert (Hc := Hrun). vm_compute in Hc. injection Hc as <- <- <-. rewrite Hrun. cbn beta iota in *.
  destruct H as (pre & ok & _ & _ & H). split_and!; [done|reflexivity|exact H].
Defined.

Definition runSocket (ok : list PAct → bool) (c : Cluster) : Cluster * (PErr + bool) :=
  let '(s, r) := handleSocketWithRetry (demoPEnv ok) ["pawn-00"] "/reg.sock" {| t_trace := []; t_data := c |} in (s.(t_data), r).

(** An annotation that is [null] stops the program. *)
Example null_annotation_panics : (runSocket (λ _, true) (demoCluster (Some AnnNull) ∅)).2 = inl Panic.
Proof. vm_compute. reflexivity. Qed.

(** A driver that changed its topology but not its ID keeps the old one. *)
Example stale_topology :
  let old := {[ "pawn-00" := {| csn_owner := "uid0"; csn_Drivers := [{| drv_Name := "seaweedfs"; drv_NodeID := "n1"; drv_TopologyKeys := ["rack"]; drv_Allocatable := Some 3%Z |}] |} ]} in
  (runSocket (λ _, true) (demoCluster None old)).1.(cl_csi) = old.
Proof. vm_compute. reflexivity. Qed.

(** The registrar is told of success although no CSINode could be written. *)
Example unregistered_reported :
  runSocket (λ t, negb (existsb (λ a, match a with PGetNode _ _ => true | _ => false end) t)) (demoCluster None ∅)
  = (demoCluster None ∅, inr true).
Proof. vm_compute. reflexivity. Qed.

(** More volumes than 2^31 - 1 are a negative number of volumes. *)
Example allocatable_truncated :
  drv_Allocatable (driverEntry "d" {| NodeId := "n"; AccessibleTopology := None; MaxVolumesPerNode := 2147483648 |}) = Some (-2147483648)%Z.
Proof. reflexivity. Qed.
