(* ===== verification/Pki.v ===== *)
(** * Serving certificates (internal/pki, internal/server/server.go)

    How a pawn's server gets its certificate, from the disk, by a signing
    request to the cluster or by signing it itself, and the holder that renews
    it during handshakes. Keys, certificates and what the crypto libraries do
    with them are parameters; the files are a map from paths to contents. *)
From stdpp Require Import pretty.
From S2P Require Import Prelude Monad Trace Paths.
Import Str.

(** ** Addresses *)

(** [net.IP]: four or sixteen bytes, as [Z]s; nil is the empty list. *)
Definition IP : Type := list Z.

Definition v4InV6Prefix : list Z := [0; 0; 0; 0; 0; 0; 0; 0; 0; 0; 255; 255]%Z.

(** [ip.Equal(x)]: an IPv4 address and the same address in IPv6 form are equal. *)
Definition ipEqual (a b : IP) : bool :=
  if decide (length a = length b) then bool_decide (a = b)
  else if decide (length a = 4 ∧ length b = 16) then bool_decide (b = v4InV6Prefix ++ a)
  else if decide (length a = 16 ∧ length b = 4) then bool_decide (a = v4InV6Prefix ++ b)
  else false.

Inductive IfAddr := IPNet (ip : IP) | IPAddr (ip : IP) | OtherAddr.

Definition ifIP (a : IfAddr) : IP := match a with IPNet ip | IPAddr ip => ip | OtherAddr => [] end.

Definition addIP (ips : list IP) (a : IfAddr) : list IP :=
  let ip := ifIP a in
  if decide (ip = []) then ips else if existsb (λ existing, ipEqual existing ip) ips then ips else ips ++ [ip].

(** [net.ParseIP("127.0.0.1")], in sixteen bytes *)
Definition loopback : IP := v4InV6Prefix ++ [127; 0; 0; 1]%Z.

(** The dialled address, or the first address of the host name. *)
Definition GetOutboundIP (dial : option IP) (lookup : list IP) : option IP :=
  match dial with Some ip => Some ip | None => head lookup end.

Definition collectIPs (outbound : option IP) (addrs : list IfAddr) : list IP :=
  foldl addIP (loopback :: option_list outbound) addrs.

(** ** The certificate of a holder *)

Record Leaf := { DNSNames : list string; IPAddresses : list IP; NotAfter : Z }.

(** What a client asked for: a name, or nothing, and the local address if it is
    one of TCP. *)
Record ClientHello := { ServerName : string; LocalAddr : option IP }.

Section Holder.
Context {Cert : Type} (leafOf : Cert → option Leaf) (verifyHostname : Leaf → string → bool) (parseIP : string → option IP).

Record CertHolder := { ch_cert : Cert; ch_leaf : Leaf; lastRenewAttempt : option Z; cooldown : Z }.

(** Five minutes, in ns. *)
Definition renewCooldown : Z := 300000000000.

Definition NewCertHolder (initial : Cert) : option CertHolder :=
  leaf ← leafOf initial;
  Some {| ch_cert := initial; ch_leaf := leaf; lastRenewAttempt := None; cooldown := renewCooldown |}.

Definition hasIP (leaf : Leaf) (ip : IP) : bool := existsb (λ san, ipEqual san ip) leaf.(IPAddresses).

Definition covers (leaf : Leaf) (hello : ClientHello) : bool :=
  if decide (hello.(ServerName) = "") then
    match hello.(LocalAddr) with Some ip => hasIP leaf ip | None => true end
  else if verifyHostname leaf hello.(ServerName) then true
  else match parseIP hello.(ServerName) with Some ip => hasIP leaf ip | None => false end.

Inductive Renewal := Renewed (c : Cert) | RateLimited | RenewFailed.

(** A zero time is long ago. [renew] is what [renewFn] returns, should it be
    called; the flag says whether it was. *)
Definition tryRenew (now : Z) (renew : option Cert) (ch : CertHolder) : CertHolder * Renewal * bool :=
  let limited := match ch.(lastRenewAttempt) with Some last => (now - last <? ch.(cooldown))%Z | None => false end in
  if limited then (ch, RateLimited, false) else
  let ch := {| ch with lastRenewAttempt := Some now |} in
  match renew with
  | None => (ch, RenewFailed, true)
  | Some c => match leafOf c with
              | None => (ch, RenewFailed, true)
              | Some leaf => ({| ch with ch_cert := c; ch_leaf := leaf |}, Renewed c, true)
              end
  end.

(** [GetCertificate] takes the lock twice. Between its two parts a handshake
    waits with the certificate it saw. *)
Record HSState := { hs_holder : CertHolder; hs_waiting : gmap nat (ClientHello * Cert); hs_attempts : list Z; hs_served : list (ClientHello * Cert) }.

Inductive HSEvent :=
  | HRead (i : nat) (hello : ClientHello)
  | HRenew (i : nat) (now : Z) (renew : option Cert).

Definition hsstep (s : HSState) (e : HSEvent) : HSState :=
  match e with
  | HRead i hello =>
      let ch := s.(hs_holder) in
      if covers ch.(ch_leaf) hello then {| s with hs_served := s.(hs_served) ++ [(hello, ch.(ch_cert))] |}
      else {| s with hs_waiting := <[i := (hello, ch.(ch_cert))]> s.(hs_waiting) |}
  | HRenew i now renew =>
      match s.(hs_waiting) !! i with
      | None => s
      | Some (hello, cert) =>
          let '(ch, r, called) := tryRenew now renew s.(hs_holder) in
          {| hs_holder := ch; hs_waiting := delete i s.(hs_waiting);
             hs_attempts := if called : bool then s.(hs_attempts) ++ [now] else s.(hs_attempts);
             hs_served := s.(hs_served) ++ [(hello, match r with Renewed c => c | _ => cert end)] |}
      end
  end.

Definition hsstart (ch : CertHolder) : HSState := {| hs_holder := ch; hs_waiting := ∅; hs_attempts := []; hs_served := [] |}.
Definition hsrun : HSState → list HSEvent → HSState := foldl hsstep.

(** The names of the certificate, for the log. *)
Definition sanSummary (ipString : IP → string) (leaf : Leaf) : string :=
  let parts := leaf.(DNSNames) ++ map ipString leaf.(IPAddresses) in
  Join (if 6 <? length parts then take 6 parts ++ ["..."] else parts) ",".
End Holder.
Arguments CertHolder : clear implicits.
Arguments HSEvent : clear implicits.
Arguments HSState : clear implicits.
Arguments Renewal : clear implicits.

(** ** Obtaining a certificate *)

Record Template := { tpl_CommonName : string; tpl_Organization : string; tpl_DNSNames : list string; tpl_IPAddresses : list IP }.

(** The status of a signing request: the certificate, empty while there is
    none, and the types of its conditions. *)
Record CSRStatus := { cs_Certificate : string; cs_Conditions : list string }.

Inductive WEvent := WClosed | WDeleted | WOther | WCSR (s : CSRStatus).

Inductive PkiErr :=
  | ErrKey | ErrCreateCSR | ErrSubmit | ErrApprove | ErrGetCSR | ErrDenied | ErrWatch | ErrWatchClosed | ErrDeleted | ErrWaitTimeout
  | ErrParseIssued | ErrSign.

Section Obtain.
Context {Key Cert CA : Type}.

Inductive KAct :=
  | KSubmit (name : string) (request : string) (ok : bool)
  | KGet (name : string)
  | KApprove (name : string) (conditions : list string) (ok : bool)
  | KWatch (name : string)
  | KSign (ca : option CA) (tpl : Template) (r : option Cert).

(** [ke_now] is the one reading of the clock that a request uses; [ke_ok] is
    whether a call succeeds, [ke_writable] whether a file can be written. *)
Record KEnv := {
  ke_now : Z;
  ke_hostname : string;
  ke_outbound : option IP;
  ke_addrs : list IfAddr;
  ke_genKey : option Key;
  ke_createCSR : Template → Key → option string;
  ke_keyPEM : Key → string;
  ke_keyPair : string → string → option Cert;
  ke_leaf : Cert → option Leaf;
  ke_ok : list KAct → bool;
  ke_get : list KAct → string → option CSRStatus;
  ke_watch : list KAct → string → option (list WEvent);
  ke_sign : option CA → Template → option Cert;
  ke_loadCA : string → string → option CA;
  ke_writable : string → bool;
}.

Context (env : KEnv).
Abbreviation Files := (gmap string string).
Abbreviation KM := (SE (TState KAct Files) PkiErr).

(** Thirty days, in ns. *)
Definition minRemaining : Z := 2592000000000000.

Definition loadCertIfValid (files : Files) (certPath keyPath : string) : option Cert :=
  cert ← files !! certPath; key ← files !! keyPath;
  tlsCert ← env.(ke_keyPair) cert key;
  leaf ← env.(ke_leaf) tlsCert;
  if (leaf.(NotAfter) - env.(ke_now) <? minRemaining)%Z then None else Some tlsCert.

Definition dnsNames (nodeName : string) : list string :=
  [nodeName; "localhost"] ++ (if decide (env.(ke_hostname) ≠ "" ∧ env.(ke_hostname) ≠ nodeName) then [env.(ke_hostname)] else []).

Definition csrTemplate (nodeName : string) : Template :=
  {| tpl_CommonName := "system:node:" +:+ nodeName; tpl_Organization := "system:nodes";
     tpl_DNSNames := dnsNames nodeName; tpl_IPAddresses := collectIPs env.(ke_outbound) env.(ke_addrs) |}.

Definition extractCert (s : CSRStatus) : option string := if decide (s.(cs_Certificate) = "") then None else Some s.(cs_Certificate).
Definition isDenied (s : CSRStatus) : bool := existsb (λ c, bool_decide (c = "Denied")) s.(cs_Conditions).

(** The events that arrive within the five minutes. *)
Fixpoint watch_loop (evs : list WEvent) : PkiErr + string :=
  match evs with
  | [] => inl ErrWaitTimeout
  | WClosed :: _ => inl ErrWatchClosed
  | WDeleted :: _ => inl ErrDeleted
  | WOther :: evs => watch_loop evs
  | WCSR s :: evs =>
      if isDenied s then inl ErrDenied
      else match extractCert s with Some c => inr c | None => watch_loop evs end
  end.

Definition getCSR (e : PkiErr) (name : string) : KM CSRStatus :=
  r ← callT (λ t, env.(ke_get) t name) (λ _, KGet name);
  match r with Some s => mret s | None => throw e end.

Definition waitForCert (csrName : string) : KM string :=
  s ← getCSR ErrGetCSR csrName;
  match extractCert s with
  | Some c => mret c
  | None =>
      if isDenied s then throw ErrDenied else
      w ← callT (λ t, env.(ke_watch) t csrName) (λ _, KWatch csrName);
      match w with
      | None => throw ErrWatch
      | Some evs => match watch_loop evs with inr c => mret c | inl e => throw e end
      end
  end.

Definition approveCSR (csrName : string) : KM () :=
  s ← getCSR ErrApprove csrName;
  ok ← callT env.(ke_ok) (KApprove csrName (s.(cs_Conditions) ++ ["Approved"]));
  if negb ok then throw ErrApprove else mret tt.

Definition writeFileK (path content : string) (files : Files) : Files * bool :=
  if env.(ke_writable) path then (<[path := content]> files, true) else (files, false).

Definition writeCert (pkiDir certPath keyPath certPEM keyPEM : string) (files : Files) : Files * bool :=
  if negb (env.(ke_writable) pkiDir) then (files, false) else
  let '(files, ok) := writeFileK keyPath keyPEM files in
  if negb ok then (files, false) else writeFileK certPath certPEM files.

Definition orThrowK {A} (e : PkiErr) (r : option A) : KM A := match r with Some a => mret a | None => throw e end.

Definition certPathOf (configDir nodeName : string) : string := pathJoin [pathJoin [configDir; "pki"]; nodeName +:+ ".crt"].
Definition keyPathOf (configDir nodeName : string) : string := pathJoin [pathJoin [configDir; "pki"]; nodeName +:+ ".key"].

(** The name ends in the time in seconds. *)
Definition csrNameOf (nodeName : string) : string := "perigeos-" +:+ nodeName +:+ "-" +:+ pretty (env.(ke_now) `div` 1000000000)%Z.

Definition RequestServingCert (nodeName configDir : string) : KM Cert :=
  let certPath := certPathOf configDir nodeName in
  let keyPath := keyPathOf configDir nodeName in
  cached ← getD (λ files, loadCertIfValid files certPath keyPath);
  match cached with
  | Some tlsCert => mret tlsCert
  | None =>
      key ← orThrowK ErrKey env.(ke_genKey);
      csrPEM ← orThrowK ErrCreateCSR (env.(ke_createCSR) (csrTemplate nodeName) key);
      let csrName := csrNameOf nodeName in
      ok ← callT env.(ke_ok) (KSubmit csrName csrPEM);
      if negb ok then throw ErrSubmit else
      _ ← approveCSR csrName;
      certPEM ← waitForCert csrName;
      let keyPEM := env.(ke_keyPEM) key in
      _ ← modD (λ files, fst (writeCert (pathJoin [configDir; "pki"]) certPath keyPath certPEM keyPEM files));
      orThrowK ErrParseIssued (env.(ke_keyPair) certPEM keyPEM)
  end.

Definition certTemplate (nodeName : string) : Template :=
  {| tpl_CommonName := nodeName; tpl_Organization := "Perigeos"; tpl_DNSNames := dnsNames nodeName;
     tpl_IPAddresses := foldl addIP (loopback :: option_list env.(ke_outbound)) env.(ke_addrs) |}.

Definition GenerateCert (nodeName : string) (ca : option CA) : KM Cert :=
  r ← callT (λ _, env.(ke_sign) ca (certTemplate nodeName)) (KSign ca (certTemplate nodeName));
  orThrowK ErrSign r.

Record PawnServerConfig := { psc_KubeClient : bool; psc_ConfigDir : string; psc_CACertPath : string; psc_CAKeyPath : string }.

Definition localCert (pawnName : string) (cfg : PawnServerConfig) : KM Cert :=
  if decide (cfg.(psc_CACertPath) ≠ "") then
    match env.(ke_loadCA) cfg.(psc_CACertPath) cfg.(psc_CAKeyPath) with
    | Some ca => GenerateCert pawnName (Some ca)
    | None => GenerateCert pawnName None
    end
  else GenerateCert pawnName None.

Definition obtainCert (pawnName : string) (cfg : PawnServerConfig) : KM Cert :=
  if cfg.(psc_KubeClient) then
    r ← try (RequestServingCert pawnName cfg.(psc_ConfigDir));
    match r with inr cert => mret cert | inl _ => localCert pawnName cfg end
  else localCert pawnName cfg.

Definition obtainCertFresh (pawnName : string) (cfg : PawnServerConfig) : KM Cert :=
  _ ← whenM (bool_decide (cfg.(psc_ConfigDir) ≠ ""))
        (modD (λ files, delete (cfg.(psc_ConfigDir) +:+ "/pki/" +:+ pawnName +:+ ".key")
                          (delete (cfg.(psc_ConfigDir) +:+ "/pki/" +:+ pawnName +:+ ".crt") files)));
  obtainCert pawnName cfg.
End Obtain.

(** ** Addresses of a certificate *)

Definition covered (ips : list IP) (ip : IP) : Prop := existsb (λ existing, ipEqual existing ip) ips = true.

Lemma ipEqual_refl ip : ipEqual ip ip = true.
Proof. unfold ipEqual. rewrite decide_True by done. by apply bool_decide_eq_true. Qed.

Lemma covered_elem ips ip : ip ∈ ips → covered ips ip.
Proof. intros Hip. unfold covered. apply existsb_exists. exists ip. split; [by apply list_elem_of_In|apply ipEqual_refl]. Qed.

Lemma covered_app ips l ip : covered ips ip → covered (ips ++ l) ip.
Proof. unfold covered. rewrite existsb_app. intros ->. done. Qed.

Lemma addIP_app ips a : ∃ l, addIP ips a = ips ++ l.
Proof.
  unfold addIP. case_decide; [exists []; by rewrite (right_id_L [] (++))|].
  destruct (existsb _ ips); [exists []; by rewrite (right_id_L [] (++))|by eexists].
Qed.

Lemma addIP_covers ips a : ifIP a ≠ [] → covered (addIP ips a) (ifIP a).
Proof.
  intros Ha. unfold addIP. rewrite decide_False by done. destruct (existsb _ ips) eqn:E; [exact E|].
  apply covered_elem. set_solver.
Qed.

Lemma collectIPs_covers outbound addrs ip :
  ip = loopback ∨ outbound = Some ip ∨ (ip ≠ [] ∧ ∃ a, a ∈ addrs ∧ ifIP a = ip) → covered (collectIPs outbound addrs) ip.
Proof.
  unfold collectIPs. set (start := loopback :: option_list outbound). intros H.
  assert (covered start ip ∨ ip ≠ [] ∧ ∃ a, a ∈ addrs ∧ ifIP a = ip) as Hip.
  { destruct H as [->|[->|H]]; [left; apply covered_elem; subst start; set_solver..|by right]. }
  clear H. revert Hip. generalize start. induction addrs as [|a addrs IH]; intros ips Hip; cbn.
  - destruct Hip as [|(_ & a & Ha & _)]; [done|]. by apply not_elem_of_nil in Ha.
  - apply IH. destruct (addIP_app ips a) as [l Hl]. destruct Hip as [Hc|(Hne & b & [->|Hb]%elem_of_cons & <-)].
    + left. rewrite Hl. by apply covered_app.
    + left. by apply addIP_covers.
    + right. split; [done|]. by exists b.
Qed.

(** ** The holder *)

Section HolderTheorems.
Context {Cert : Type} (leafOf : Cert → option Leaf) (verifyHostname : Leaf → string → bool) (parseIP : string → option IP).

(** The certificates that the renewals of these events would give. *)
Definition issued (evs : list (HSEvent Cert)) : list Cert := omap (λ e, match e with HRenew _ _ r => r | _ => None end) evs.

(** Each entry is at least [d] after the one before it. *)
Definition spaced (d : Z) (l : list Z) : Prop := ∀ i a b, l !! i = Some a → l !! S i = Some b → (a + d <= b)%Z.

Definition served_ok (evs : list (HSEvent Cert)) (initial : Cert) (attempts : list Z) (hc : ClientHello * Cert) : Prop :=
  hc.2 ∈ initial :: issued evs ∧
  ((∃ leaf, leafOf hc.2 = Some leaf ∧ covers verifyHostname parseIP leaf hc.1 = true) ∨ attempts ≠ []).

Record holder_ok (ch : CertHolder Cert) (evs : list (HSEvent Cert)) (s : HSState Cert) : Prop := {
  hk_leaf : leafOf s.(hs_holder).(ch_cert) = Some s.(hs_holder).(ch_leaf);
  hk_cooldown : s.(hs_holder).(cooldown) = ch.(cooldown);
  hk_last : s.(hs_holder).(lastRenewAttempt) = last s.(hs_attempts);
  hk_spaced : spaced ch.(cooldown) s.(hs_attempts);
  hk_cert : s.(hs_holder).(ch_cert) ∈ ch.(ch_cert) :: issued evs;
  hk_waiting : map_Forall (λ _ hc, hc.2 ∈ ch.(ch_cert) :: issued evs) s.(hs_waiting);
  hk_served : Forall (served_ok evs ch.(ch_cert) s.(hs_attempts)) s.(hs_served);
}.

Lemma issued_app evs e : ∀ x i, x ∈ i :: issued evs → x ∈ i :: issued (evs ++ [e]).
Proof. intros x i. unfold issued. rewrite omap_app. set_solver. Qed.

Lemma served_mono evs e i attempts attempts' hc :
  (attempts ≠ [] → attempts' ≠ []) → served_ok evs i attempts hc → served_ok (evs ++ [e]) i attempts' hc.
Proof. intros Ha [H1 H2]. split; [by apply issued_app|]. destruct H2; [by left|right; auto]. Qed.

Lemma spaced_app d l b : spaced d l → (∀ a, last l = Some a → (a + d <= b)%Z) → spaced d (l ++ [b]).
Proof.
  intros Hl Hb i x y Hx Hy.
  assert (S i < length (l ++ [b])) as Hi by (by apply lookup_lt_Some in Hy). rewrite List.length_app in Hi. cbn in Hi.
  rewrite lookup_app_l in Hx by lia.
  destruct (decide (S i < length l)) as [Hs|Hs]; [rewrite lookup_app_l in Hy by done; by eapply Hl|].
  assert (S i = length l) as Hlen by lia. rewrite Hlen, list_lookup_middle in Hy by done. injection Hy as <-.
  apply Hb. by rewrite last_lookup, <- Hlen.
Qed.

Lemma tryRenew_spec now renew (ch : CertHolder Cert) :
  (∃ last, ch.(lastRenewAttempt) = Some last ∧ (now < last + ch.(cooldown))%Z ∧ tryRenew leafOf now renew ch = (ch, RateLimited, false)) ∨
  ((∀ last, ch.(lastRenewAttempt) = Some last → (last + ch.(cooldown) <= now)%Z) ∧
   ((∃ r, r ≠ RateLimited ∧ (∀ c, r ≠ Renewed c) ∧ tryRenew leafOf now renew ch = ({| ch with lastRenewAttempt := Some now |}, r, true)) ∨
    (∃ c leaf, renew = Some c ∧ leafOf c = Some leaf ∧
       tryRenew leafOf now renew ch = ({| {| ch with lastRenewAttempt := Some now |} with ch_cert := c; ch_leaf := leaf |}, Renewed c, true)))).
Proof.
  unfold tryRenew. destruct ch as [cert leaf last cd]. cbn.
  destruct (match last with Some l => (now - l <? cd)%Z | None => false end) eqn:E.
  - left. destruct last as [l|]; [|done]. exists l. split_and!; [done|lia|done].
  - right. split; [intros l ->; lia|]. destruct renew as [c|]; [destruct (leafOf c) as [leaf'|] eqn:El|].
    + right. by exists c, leaf'.
    + left. by exists RenewFailed.
    + left. by exists RenewFailed.
Qed.
Lemma holder_read ch evs s i hello :
  holder_ok ch evs s → holder_ok ch (evs ++ [HRead i hello]) (hsstep leafOf verifyHostname parseIP s (HRead i hello)).
Proof.
  intros []. assert (ch_cert (hs_holder s) ∈ ch_cert ch :: issued (evs ++ [HRead i hello])) as Hc by by apply issued_app.
  assert (Forall (served_ok (evs ++ [HRead i hello]) (ch_cert ch) (hs_attempts s)) (hs_served s)) as Hs
    by (eapply Forall_impl; [done|]; intros; by eapply served_mono).
  cbn. destruct (covers _ _ _ hello) eqn:E.
  - split; cbn; try done.
    + intros j x Hx. by eapply issued_app, hk_waiting0.
    + apply Forall_app. split; [done|]. apply Forall_singleton. split; [done|]. left. by eexists.
  - split; cbn; try done. intros j x [[<- <-]|[_ Hx]]%lookup_insert_Some; [done|]. by eapply issued_app, hk_waiting0.
Qed.

Lemma holder_renew ch evs s i now renew :
  holder_ok ch evs s → holder_ok ch (evs ++ [HRenew i now renew]) (hsstep leafOf verifyHostname parseIP s (HRenew i now renew)).
Proof.
  intros []. set (evs' := evs ++ [HRenew i now renew]).
  assert (ch_cert (hs_holder s) ∈ ch_cert ch :: issued evs') as Hc by by apply issued_app.
  assert (∀ a', (hs_attempts s ≠ [] → a' ≠ []) → Forall (served_ok evs' (ch_cert ch) a') (hs_served s)) as Hs
    by (intros; eapply Forall_impl; [done|]; intros; by eapply served_mono).
  assert (map_Forall (λ _ hc, hc.2 ∈ ch_cert ch :: issued evs') (hs_waiting s)) as Hw
    by (intros j x Hx; by eapply issued_app, hk_waiting0).
  cbn. destruct (hs_waiting s !! i) as [[hello cert]|] eqn:Ei; [|by split; auto].
  assert (cert ∈ ch_cert ch :: issued evs') as Hcert by exact (Hw i _ Ei).
  assert (map_Forall (λ _ hc, hc.2 ∈ ch_cert ch :: issued evs') (delete i (hs_waiting s))) as Hw' by by apply map_Forall_delete.
  assert (∀ l : list Z, l ++ [now] ≠ []) as Hne by (intros []; done).
  destruct (tryRenew_spec now renew (hs_holder s)) as [(l & Hl & _ & ->)|[Hl H]].
  - split; cbn; try done. apply Forall_app. split; [by apply Hs|]. apply Forall_singleton. split; [done|]. right.
    rewrite hk_last0 in Hl. by destruct (hs_attempts s).
  - assert (spaced (cooldown ch) (hs_attempts s ++ [now])) as Hsp
      by (apply spaced_app; [done|]; rewrite <- hk_last0, <- hk_cooldown0; exact Hl).
    destruct H as [(r & _ & Hr & ->)|(c & leaf & -> & Hleaf & ->)].
    + split; cbn; try done; [by rewrite last_snoc|]. apply Forall_app. split; [by apply Hs|]. apply Forall_singleton.
      split; [|right; apply Hne]. destruct r; [by destruct (Hr c)|done|done].
    + assert (c ∈ ch_cert ch :: issued evs') as Hnew by (subst evs'; unfold issued; rewrite omap_app; cbn; set_solver).
      split; cbn; try done; [by rewrite last_snoc|]. apply Forall_app. split; [by apply Hs|]. apply Forall_singleton.
      split; [done|right; apply Hne].
Qed.

(** C28: The certificate holder under concurrent handshakes. However the two halves of handshakes interleave, renewals are called at least the cool-down apart; the certificate held is always one that parses, with its own leaf; each certificate served is the initial or a renewed one; and one that does not cover what the client asked for is served only after a renewal has been tried. *)
Theorem renewals_limited (ch : CertHolder Cert) (evs : list (HSEvent Cert)) :
  leafOf ch.(ch_cert) = Some ch.(ch_leaf) → ch.(lastRenewAttempt) = None →
  let s := hsrun leafOf verifyHostname parseIP (hsstart ch) evs in
  spaced ch.(cooldown) s.(hs_attempts) ∧
  leafOf s.(hs_holder).(ch_cert) = Some s.(hs_holder).(ch_leaf) ∧
  Forall (served_ok evs ch.(ch_cert) s.(hs_attempts)) s.(hs_served).
Proof.
  intros Hleaf Hlast s.
  enough (holder_ok ch evs s) as [] by done. subst s. induction evs as [|e evs IH] using rev_ind.
  - split; cbn; try done. set_solver.
  - unfold hsrun in *. rewrite foldl_app. cbn. destruct e; [by apply holder_read|by apply holder_renew].
Qed.
End HolderTheorems.

(** A certificate for one name, renewed for another; the second handshake had
    read the holder before the first renewed it. *)
Definition demoLeaf (names : list string) : Leaf := {| DNSNames := names; IPAddresses := []; NotAfter := 0 |}.
Definition demoHello (name : string) : ClientHello := {| ServerName := name; LocalAddr := None |}.
Definition demoHolder : CertHolder (list string) :=
  {| ch_cert := ["a"]; ch_leaf := demoLeaf ["a"]; lastRenewAttempt := None; cooldown := renewCooldown |}.
Definition demoRun : list (HSEvent (list string)) → HSState (list string) :=
  hsrun (λ c, Some (demoLeaf c)) (λ l n, bool_decide (n ∈ l.(DNSNames))) (λ _, None) (hsstart demoHolder).

Definition demoEvs : list (HSEvent (list string)) :=
  [HRead 0 (demoHello "a"); HRead 1 (demoHello "b"); HRead 2 (demoHello "b"); HRenew 1 7 (Some ["a"; "b"]); HRenew 2 8 (Some ["c"])]%Z.

Lemma renewals_limited_witness :
  let s := demoRun demoEvs in
  s.(hs_attempts) = [7]%Z ∧ spaced renewCooldown s.(hs_attempts) ∧
  Forall (served_ok (λ c, Some (demoLeaf c)) (λ l n, bool_decide (n ∈ l.(DNSNames))) (λ _, None) demoEvs ["a"] s.(hs_attempts)) s.(hs_served).
Proof.
  destruct (renewals_limited (λ c, Some (demoLeaf c)) (λ l n, bool_decide (n ∈ l.(DNSNames))) (λ _, None) demoHolder demoEvs eq_refl eq_refl)
    as (H1 & _ & H2).
  split; [reflexivity|]. split; [exact H1|exact H2].
Defined.

(** The second client gets the old certificate, though the new one covers it. *)
Example overtaken_handshake :
  (demoRun demoEvs).(hs_served) = [(demoHello "a", ["a"]); (demoHello "b", ["a"; "b"]); (demoHello "b", ["a"])] ∧
  (demoRun demoEvs).(hs_holder).(ch_cert) = ["a"; "b"].
Proof. split; reflexivity. Qed.

(** Only the names are looked at: an expired certificate is served for ever. *)
Example expiry_ignored verifyHostname parseIP leaf hello t :
  covers verifyHostname parseIP leaf hello = true →
  (∀ n, verifyHostname {| leaf with NotAfter := t |} n = verifyHostname leaf n) →
  covers verifyHostname parseIP {| leaf with NotAfter := t |} hello = true.
Proof. intros H Hv. unfold covers in *. by rewrite Hv. Qed.

(** ** Requests *)

Section ObtainTheorems.
Context {Key Cert CA : Type} (env : @KEnv Key Cert CA).

(** The request that is asked about or changed. *)
Definition aboutCSR (name : string) (a : @KAct Cert CA) : Prop :=
  match a with KSubmit n _ _ | KGet n | KApprove n _ _ | KWatch n => n = name | KSign _ _ _ => False end.

(** Still valid for thirty days, from the files of this pawn. *)
Definition cachedCert (files : gmap string string) (nodeName configDir : string) (cert : Cert) : Prop :=
  ∃ c k leaf, files !! certPathOf configDir nodeName = Some c ∧ files !! keyPathOf configDir nodeName = Some k ∧
    env.(ke_keyPair) c k = Some cert ∧ env.(ke_leaf) cert = Some leaf ∧ (env.(ke_now) + minRemaining <= leaf.(NotAfter))%Z.

Lemma loadCert_spec files nodeName configDir cert :
  loadCertIfValid env files (certPathOf configDir nodeName) (keyPathOf configDir nodeName) = Some cert ↔
  cachedCert files nodeName configDir cert.
Proof.
  unfold loadCertIfValid, cachedCert. split.
  - intros (c & Hc & (k & Hk & (tc & Htc & (leaf & Hl & H)%bind_Some)%bind_Some)%bind_Some)%bind_Some.
    destruct (_ <? _)%Z eqn:E; simplify_eq. exists c, k, leaf. split_and!; [done..|lia].
  - intros (c & k & leaf & -> & -> & Hp & Hl & Ht). cbn. rewrite Hp. cbn. rewrite Hl. cbn.
    destruct (_ <? _)%Z eqn:E; [lia|done].
Qed.

Lemma wp_getCSR e name t files :
  wp (getCSR env e name) (λ r new files', files' = files ∧ new = [KGet name] ∧ (∀ e', r = inl e' → e' = e)) t files.
Proof.
  unfold getCSR. do 2 wp_step. destruct (ke_get env t name); wp_step; split_and!; try done. by intros e' [= <-].
Qed.

(** A certificate is only taken from the status of this request. *)
Lemma wp_waitForCert name t files :
  wp (waitForCert env name) (λ r new files', files' = files ∧ Forall (aboutCSR name) new) t files.
Proof.
  unfold waitForCert. wp_step. eapply wp_conseq; [apply wp_getCSR|]. intros [e|st] new f (-> & -> & _); cbn beta iota.
  { split; [done|]. by repeat constructor. }
  destruct (extractCert st); [wp_step; split; [done|by repeat constructor]|].
  destruct (isDenied st); [wp_step; split; [done|by repeat constructor]|].
  do 2 wp_step. destruct (ke_watch env _ _) as [evs|]; [destruct (watch_loop evs)|]; wp_step; (split; [done|by repeat constructor]).
Qed.

Definition approvedOnce (name csrPEM : string) (new : list (@KAct Cert CA)) : Prop :=
  ∃ conds rest, new = [KSubmit name csrPEM true; KGet name; KApprove name (conds ++ ["Approved"]) true] ++ rest ∧ Forall (aboutCSR name) rest.

Lemma wp_approveCSR name t files :
  wp (approveCSR env name) (λ r new files', files' = files ∧ Forall (aboutCSR name) new ∧
    (r = inr tt → ∃ conds, new = [KGet name; KApprove name (conds ++ ["Approved"]) true])) t files.
Proof.
  unfold approveCSR. wp_step. eapply wp_conseq; [apply wp_getCSR|]. intros [e|st] new f (-> & -> & _); cbn beta iota.
  { split_and!; [done|by repeat constructor|done]. }
  do 2 wp_step. destruct (ke_ok env _) eqn:E; cbn [negb]; wp_step; split_and!; try done; [by repeat constructor| |by repeat constructor].
  intros _. by eexists.
Qed.

Lemma writeCert_frame dir cp kp c k files p :
  p ≠ cp → p ≠ kp → (writeCert env dir cp kp c k files).1 !! p = files !! p.
Proof.
  intros Hc Hk. unfold writeCert, writeFileK. destruct (ke_writable env dir); [|done]. cbn.
  destruct (ke_writable env kp); [|done]. cbn. destruct (ke_writable env cp); cbn; by rewrite !lookup_insert_ne.
Qed.

Definition requested (nodeName configDir : string) (new : list (@KAct Cert CA)) (cert : Cert) : Prop :=
  ∃ key csrPEM certPEM, env.(ke_genKey) = Some key ∧ env.(ke_createCSR) (csrTemplate env nodeName) key = Some csrPEM ∧
    env.(ke_keyPair) certPEM (env.(ke_keyPEM) key) = Some cert ∧ approvedOnce (csrNameOf env nodeName) csrPEM new.

Definition onlyOwnFiles (nodeName configDir : string) (files files' : gmap string string) : Prop :=
  ∀ p, p ≠ certPathOf configDir nodeName → p ≠ keyPathOf configDir nodeName → files' !! p = files !! p.

Lemma wp_RequestServingCert nodeName configDir t files :
  wp (RequestServingCert env nodeName configDir) (λ r new files',
    Forall (aboutCSR (csrNameOf env nodeName)) new ∧ onlyOwnFiles nodeName configDir files files' ∧
    match r with
    | inr cert => (cachedCert files nodeName configDir cert ∧ new = [] ∧ files' = files) ∨
                  ((∀ c, ¬ cachedCert files nodeName configDir c) ∧ requested nodeName configDir new cert)
    | inl _ => ∀ c, ¬ cachedCert files nodeName configDir c
    end) t files.
Proof.
  unfold RequestServingCert. do 2 wp_step.
  destruct (loadCertIfValid _ _ _ _) as [cert|] eqn:Ec.
  { wp_step. apply loadCert_spec in Ec. split_and!; [done|by intros p|by left]. }
  assert (∀ c, ¬ cachedCert files nodeName configDir c) as Hno by (intros c Hc%loadCert_spec; congruence).
  assert (onlyOwnFiles nodeName configDir files files) as Hf by by intros p.
  wp_step. unfold orThrowK. destruct (ke_genKey env) as [key|] eqn:Ek; wp_step; [|by split_and!].
  wp_step. destruct (ke_createCSR env _ key) as [csr|] eqn:Er; wp_step; [|by split_and!].
  do 2 wp_step. destruct (ke_ok env _) eqn:Eo; cbn [negb]; [|wp_step; split_and!; [by repeat constructor|done|done]].
  wp_step. eapply wp_conseq; [apply wp_approveCSR|]. intros [e|[]] new1 f (-> & Hn1 & H1); cbn beta iota.
  { split_and!; [by repeat constructor|done|done]. }
  destruct (H1 eq_refl) as [conds ->].
  wp_step. eapply wp_conseq; [apply wp_waitForCert|]. intros [e|certPEM] new2 f (-> & Hn2); cbn beta iota.
  { split_and!; [by repeat constructor|done|done]. }
  assert (onlyOwnFiles nodeName configDir files (writeCert env (pathJoin [configDir; "pki"]) (certPathOf configDir nodeName)
    (keyPathOf configDir nodeName) certPEM (ke_keyPEM env key) files).1) as Hw by (intros p ? ?; by apply writeCert_frame).
  do 2 wp_step. destruct (ke_keyPair env certPEM _) as [cert|] eqn:Ep; wp_step; rewrite !(right_id_L [] (++)).
  - split_and!; [by repeat constructor|done|]. right. split; [done|]. exists key, csr, certPEM. split_and!; try done.
    exists conds, new2. split; [done|done].
  - split_and!; [by repeat constructor|done|done].
Qed.
Lemma wp_localCert nodeName cfg t files :
  wp (localCert env nodeName cfg) (λ r new files', files' = files ∧
    ∃ ca, new = [KSign ca (certTemplate env nodeName) match r with inr cert => Some cert | inl _ => None end] ∧
          match r with inr _ => True | inl e => e = ErrSign end) t files.
Proof.
  assert (∀ ca, wp (GenerateCert env nodeName ca) (λ r new files', files' = files ∧
    ∃ ca, new = [KSign ca (certTemplate env nodeName) match r with inr cert => Some cert | inl _ => None end] ∧
          match r with inr _ => True | inl e => e = ErrSign end) t files) as Hg.
  { intros ca. unfold GenerateCert, orThrowK. do 2 wp_step. destruct (ke_sign env ca _); wp_step; (split; [done|by exists ca]). }
  unfold localCert. case_decide; [|apply Hg]. destruct (ke_loadCA env _ _); apply Hg.
Qed.

(** Where a certificate comes from. *)
Definition obtained (nodeName : string) (cfg : PawnServerConfig) (files : gmap string string) (new : list (@KAct Cert CA)) (r : PkiErr + Cert) : Prop :=
  match r with
  | inr cert =>
      (cachedCert files nodeName cfg.(psc_ConfigDir) cert ∧ new = []) ∨
      ((∀ c, ¬ cachedCert files nodeName cfg.(psc_ConfigDir) c) ∧ requested nodeName cfg.(psc_ConfigDir) new cert) ∨
      (∃ req ca, new = req ++ [KSign ca (certTemplate env nodeName) (Some cert)] ∧ Forall (aboutCSR (csrNameOf env nodeName)) req)
  | inl e => e = ErrSign
  end.

Lemma wp_obtainCert nodeName cfg t files :
  wp (obtainCert env nodeName cfg) (λ r new files',
    onlyOwnFiles nodeName cfg.(psc_ConfigDir) files files' ∧ obtained nodeName cfg files new r) t files.
Proof.
  assert (∀ req f t, Forall (aboutCSR (csrNameOf env nodeName)) req → onlyOwnFiles nodeName cfg.(psc_ConfigDir) files f →
    wp (localCert env nodeName cfg) (λ r new files',
      onlyOwnFiles nodeName cfg.(psc_ConfigDir) files files' ∧ obtained nodeName cfg files (req ++ new) r) t f) as Hl.
  { intros req f t' Hreq Hf. eapply wp_conseq; [apply wp_localCert|]. intros r new f' (-> & ca & -> & Hr). split; [done|].
    destruct r as [e|cert]; cbn; [done|]. right. right. by exists req, ca. }
  unfold obtainCert. destruct (psc_KubeClient cfg).
  - wp_step. apply wp_try. eapply wp_conseq; [apply wp_RequestServingCert|]. intros [e|cert] new f (Hreq & Hf & Hr); cbn beta iota.
    + by apply Hl.
    + wp_step. rewrite (right_id_L [] (++)). split; [done|]. destruct Hr as [(Hc & -> & _)|[Hc Hr]]; [by left|right; by left].
  - by apply (Hl []).
Qed.

(** Serving certificates. A pawn's server always gets a certificate unless even signing its own fails: the one on disk if it is valid for another thirty days, and then nothing is asked of the cluster; else one for a request under the pawn's own name that was submitted, approved once and for a key made for it; else one signed on the host. No other request is read or approved and no file but the pawn's key and certificate is written; the certificates asked for and signed name the node, localhost and every address of the host. *)
Theorem serving_cert nodeName cfg t files :
  wp (obtainCert env nodeName cfg) (λ r new files',
    onlyOwnFiles nodeName cfg.(psc_ConfigDir) files files' ∧ obtained nodeName cfg files new r) t files ∧
  (∀ tpl, tpl = csrTemplate env nodeName ∨ tpl = certTemplate env nodeName →
    nodeName ∈ tpl.(tpl_DNSNames) ∧ "localhost" ∈ tpl.(tpl_DNSNames) ∧
    (env.(ke_hostname) ≠ "" → env.(ke_hostname) ∈ tpl.(tpl_DNSNames)) ∧
    (∀ ip, ip = loopback ∨ env.(ke_outbound) = Some ip ∨ (ip ≠ [] ∧ ∃ a, a ∈ env.(ke_addrs) ∧ ifIP a = ip) → covered tpl.(tpl_IPAddresses) ip)).
Proof.
  split; [apply wp_obtainCert|]. intros tpl Htpl.
  assert (tpl.(tpl_DNSNames) = dnsNames env nodeName ∧ tpl.(tpl_IPAddresses) = collectIPs env.(ke_outbound) env.(ke_addrs)) as [-> ->]
    by by destruct Htpl as [->| ->].
  split_and!; [unfold dnsNames; set_solver..| |apply collectIPs_covers].
  intros Hh. unfold dnsNames. destruct (decide (ke_hostname env = nodeName)) as [->|Hne]; [set_solver|].
  rewrite decide_True by done. set_solver.
Qed.

(** A renewal never gives the certificate on disk again, where the directory is
    written as it is cleaned. *)
Lemma fresh_cert nodeName cfg t files :
  cfg.(psc_ConfigDir) ≠ "" → certPathOf cfg.(psc_ConfigDir) nodeName = cfg.(psc_ConfigDir) +:+ "/pki/" +:+ nodeName +:+ ".crt" →
  wp (obtainCertFresh env nodeName cfg) (λ r new _, ∀ cert, r = inr cert → new ≠ []) t files.
Proof.
  intros Hd Hp. unfold obtainCertFresh. wp_step. rewrite bool_decide_eq_true_2 by done. cbn [whenM]. wp_step.
  set (files' := delete _ (delete _ files)). eapply wp_conseq; [apply wp_obtainCert|].
  intros r new f [_ Hr] cert ->. cbn [app]. destruct Hr as [[(c & k & leaf & Hc & _) _]|[[_ Hr]|(req & ca & -> & _)]].
  - rewrite Hp in Hc. subst files'. destruct (decide (cfg.(psc_ConfigDir) +:+ "/pki/" +:+ nodeName +:+ ".key" = cfg.(psc_ConfigDir) +:+ "/pki/" +:+ nodeName +:+ ".crt")) as [E|E].
    + by rewrite E, lookup_delete_eq in Hc.
    + by rewrite lookup_delete_ne, lookup_delete_eq in Hc by done.
  - by destruct Hr as (key & csr & pem & _ & _ & _ & conds & rest & -> & _).
  - by destruct req.
Qed.
End ObtainTheorems.

(** ** A pawn on a fresh host *)

Definition demoKEnv (now : Z) : @KEnv string (string * string) () := {|
  ke_now := now; ke_hostname := "host"; ke_outbound := Some [10; 0; 0; 1]%Z;
  ke_addrs := [IPNet [127; 0; 0; 1]%Z; IPNet [10; 0; 0; 1]%Z; OtherAddr; IPAddr [10; 0; 0; 2]%Z];
  ke_genKey := Some "key"; ke_createCSR := λ _ k, Some ("csr:" +:+ k); ke_keyPEM := λ k, k; ke_keyPair := λ c k, Some (c, k);
  ke_leaf := λ _, Some {| DNSNames := []; IPAddresses := []; NotAfter := minRemaining |};
  ke_ok := λ _, true; ke_get := λ t _, Some {| cs_Certificate := ""; cs_Conditions := [] |};
  ke_watch := λ _ _, Some [WOther; WCSR {| cs_Certificate := ""; cs_Conditions := ["Approved"] |}; WCSR {| cs_Certificate := "cert"; cs_Conditions := ["Approved"] |}];
  ke_sign := λ _ _, None; ke_loadCA := λ _ _, None; ke_writable := λ _, true |}.

Definition demoCfg : PawnServerConfig := {| psc_KubeClient := true; psc_ConfigDir := "/etc/apsis"; psc_CACertPath := ""; psc_CAKeyPath := "" |}.

(** The certificate is asked for once, found on disk the second time, and asked
    for again when less than thirty days remain or a renewal is due. *)
Example certificate_reused :
  let s1 := obtainCert (demoKEnv 0) "pawn" demoCfg {| t_trace := []; t_data := ∅ |} in
  let s2 := obtainCert (demoKEnv 0) "pawn" demoCfg {| t_trace := []; t_data := s1.1.(t_data) |} in
  let s3 := obtainCert (demoKEnv 1) "pawn" demoCfg {| t_trace := []; t_data := s1.1.(t_data) |} in
  let s4 := obtainCertFresh (demoKEnv 0) "pawn" demoCfg {| t_trace := []; t_data := s1.1.(t_data) |} in
  (s1.2, length s1.1.(t_trace), s2.2, length s2.1.(t_trace), length s3.1.(t_trace), length s4.1.(t_trace)) =
  (inr ("cert", "key"), 5, inr ("cert", "key"), 0, 5, 5).
Proof. vm_compute. reflexivity. Qed.

Example collected : collectIPs (ke_outbound (demoKEnv 0)) (ke_addrs (demoKEnv 0)) = [loopback; [10; 0; 0; 1]; [10; 0; 0; 2]]%Z.
Proof. reflexivity. Qed.

(** The outbound address is added without a look at the list. *)
Example outbound_twice : collectIPs (Some loopback) [] = [loopback; loopback].
Proof. reflexivity. Qed.
