(* ===== verification/Rollout.v ===== *)
(** * Stepped rollouts (cmd/apsis/rollout.go)

    The [apsis rollout] command: its flags, the steps towards the wanted number
    of replicas and the loop that takes them, each after the deployment reports
    the one before it as ready. The deployment is reached by calls whose answers
    depend on the calls before them; what is printed is left out, but for the
    last line. [fmt.Sscanf] and [time.ParseDuration] are arguments. *)
From stdpp Require Import pretty.
From S2P Require Import Prelude Monad Trace.
Import Str.

(** ** Flags *)

Record rolloutArgs := {
  ra_deployment : string; ra_namespace : string; ra_replicas : Z; ra_step : Z; ra_timeout : Z; ra_kubeconfig : string; ra_dryRun : bool;
}.

Inductive ArgErr := ErrUnknownFlag (key : string) | ErrFlag (key : string) | ErrReplicasRequired.

Section Args.
Context (scanInt parseDuration : string → option Z).

(** Two minutes, in ns. *)
Definition defaultArgs : rolloutArgs :=
  {| ra_deployment := ""; ra_namespace := "default"; ra_replicas := -1; ra_step := 1; ra_timeout := 120000000000; ra_kubeconfig := ""; ra_dryRun := false |}.

Definition isBool (key : string) : bool := bool_decide (key ∈ ["--dry-run"; "-dry-run"; "--dry"; "-dry"]).

(** The key, the value after the equals sign, if there is one. *)
Definition splitArg (arg : string) : string * option string :=
  match index_byte arg "=" with Some i => (stake i arg, Some (sdrop (S i) arg)) | None => (arg, None) end.

(** The value of a flag, and the arguments that are left. *)
Definition takeValue (key : string) (val : option string) (rest : list string) : string * list string :=
  match val with
  | Some v => (v, rest)
  | None =>
      if isBool key then ("", rest)
      else match rest with
           | next :: rest' => if has_prefix next "-" then ("", rest) else (next, rest')
           | [] => ("", rest)
           end
  end.

(** [None] for a flag that is not known. *)
Definition setFlag (key val : string) (ra : rolloutArgs) : option (ArgErr + rolloutArgs) :=
  let num (r : option Z) (f : Z → rolloutArgs) := Some match r with Some n => inr (f n) | None => inl (ErrFlag key) end in
  if decide (key ∈ ["--deployment"; "-deployment"]) then Some (inr {| ra with ra_deployment := val |})
  else if decide (key ∈ ["--namespace"; "-namespace"; "-n"]) then Some (inr {| ra with ra_namespace := val |})
  else if decide (key ∈ ["--replicas"; "-replicas"]) then num (scanInt val) (λ n, {| ra with ra_replicas := n |})
  else if decide (key ∈ ["--step"; "-step"]) then num (scanInt val) (λ n, {| ra with ra_step := n |})
  else if decide (key ∈ ["--timeout"; "-timeout"]) then num (parseDuration val) (λ n, {| ra with ra_timeout := n |})
  else if decide (key ∈ ["--kubeconfig"; "-kubeconfig"]) then Some (inr {| ra with ra_kubeconfig := val |})
  else if isBool key then Some (inr {| ra with ra_dryRun := true |})
  else None.

(** Each argument takes up to one more. *)
Fixpoint parse_loop (fuel : nat) (args : list string) (ra : rolloutArgs) (remaining : list string) : ArgErr + rolloutArgs * list string :=
  match fuel, args with
  | S fuel, arg :: rest =>
      let '(key, eqVal) := splitArg arg in
      let '(val, rest) := takeValue key eqVal rest in
      match setFlag key val ra with
      | Some (inr ra) => parse_loop fuel rest ra remaining
      | Some (inl e) => inl e
      | None => if has_prefix arg "-" then inl (ErrUnknownFlag key) else parse_loop fuel rest ra (remaining ++ [arg])
      end
  | _, _ => inr (ra, remaining)
  end.

Definition parseRolloutArgs (args : list string) : ArgErr + rolloutArgs * list string :=
  match parse_loop (length args) args defaultArgs [] with
  | inl e => inl e
  | inr (ra, remaining) => if (ra.(ra_replicas) <? 0)%Z then inl ErrReplicasRequired else inr (ra, remaining)
  end.
End Args.

(** ** Steps *)

Fixpoint steps_up (fuel : nat) (cur target stepSize : Z) : list (Z * Z) :=
  match fuel with
  | O => []
  | S fuel =>
      if (cur <? target)%Z then
        let next := wrap64 (cur + stepSize) in
        let next := if (target <? next)%Z then target else next in
        (cur, next) :: steps_up fuel next target stepSize
      else []
  end.

Fixpoint steps_down (fuel : nat) (cur target stepSize : Z) : list (Z * Z) :=
  match fuel with
  | O => []
  | S fuel =>
      if (target <? cur)%Z then
        let next := wrap64 (cur - stepSize) in
        let next := if (next <? target)%Z then target else next in
        (cur, next) :: steps_down fuel next target stepSize
      else []
  end.

(** There are at most as many steps as replicas to add or remove, as long as
    the sums do not overflow. *)
Definition stepsFor (current target stepSize : Z) : list (Z * Z) :=
  if (current <? target)%Z then steps_up (Z.to_nat (target - current)) current target stepSize
  else steps_down (Z.to_nat (current - target)) current target stepSize.

(** ** The loop *)

(** What the deployment reports: ready and available replicas. *)
Inductive RolloutAct :=
  | RGet (replicas : option (option Z))
  | RUpdate (n : Z) (ok : bool)
  | RTicker
  | RTick
  | RPoll (r : option (Z * Z))
  | RComplete.

Inductive RErr := ErrRGet | ErrRefresh | ErrUpdate | ErrPoll | ErrTimeout | ErrCtx | ErrStepWait (i : nat) | ErrSpinning
  | ErrArgs (e : ArgErr) | ErrUnexpected | ErrNoDeployment | ErrReplicas | ErrStep.

Record REnv := {
  re_get : list RolloutAct → option (option Z);
  re_update : list RolloutAct → Z → bool;
  re_poll : list RolloutAct → option (Z * Z);
  re_now : list RolloutAct → Z;
  re_cancelled : list RolloutAct → bool;
}.

Section Run.
Context (env : REnv).
Abbreviation RM := (SE (TState RolloutAct ()) RErr).

(** Two seconds, in ns. *)
Definition pollInterval : Z := 2000000000.

Fixpoint ready_loop (fuel : nat) (deadline desired : Z) : RM () :=
  match fuel with
  | O => throw ErrSpinning
  | S fuel =>
      cancelled ← askT env.(re_cancelled);
      if cancelled : bool then throw ErrCtx else
      _ ← doT RTick;
      dep ← callT env.(re_poll) RPoll;
      match dep with
      | None => throw ErrPoll
      | Some (ready, available) =>
          if (desired <=? ready)%Z && (desired <=? available)%Z then mret tt else
          now ← askT env.(re_now);
          if (deadline <? now)%Z then throw ErrTimeout else ready_loop fuel deadline desired
      end
  end.

(** The ticks until the deadline is over. *)
Definition waitRounds (timeout : Z) : nat := S (Z.to_nat (timeout `div` pollInterval)).

Definition waitForReady (desired timeout : Z) : RM () :=
  now ← askT env.(re_now);
  _ ← doT RTicker;
  ready_loop (waitRounds timeout) (now + timeout)%Z desired.

(** [true] when the context was cancelled while waiting. *)
Definition takeStep (ra : rolloutArgs) (i : nat) (s : Z * Z) : RM bool :=
  cancelled ← askT env.(re_cancelled);
  if cancelled : bool then throw ErrCtx else
  dep ← callT env.(re_get) RGet;
  match dep with
  | None => throw ErrRefresh
  | Some _ =>
      let n := wrap32 s.2 in
      ok ← callT (λ t, env.(re_update) t n) (RUpdate n);
      if negb ok then throw ErrUpdate else
      r ← try (waitForReady s.2 ra.(ra_timeout));
      match r with
      | inr _ => mret false
      | inl _ =>
          cancelled ← askT env.(re_cancelled);
          if cancelled : bool then mret true else throw (ErrStepWait (S i))
      end
  end.

Fixpoint steps_loop (ra : rolloutArgs) (i : nat) (steps : list (Z * Z)) : RM () :=
  match steps with
  | [] => doT RComplete
  | s :: steps =>
      stop ← takeStep ra i s;
      if stop : bool then mret tt else steps_loop ra (S i) steps
  end.

Definition runRollout (ra : rolloutArgs) : RM () :=
  dep ← callT env.(re_get) RGet;
  match dep with
  | None => throw ErrRGet
  | Some replicas =>
      let current := default 0%Z replicas in
      if decide (current = ra.(ra_replicas)) then mret tt else
      if ra.(ra_dryRun) then mret tt else
      steps_loop ra 0 (stepsFor current ra.(ra_replicas) ra.(ra_step))
  end.

Definition cmdRollout (scanInt parseDuration : string → option Z) (args : list string) : RM () :=
  match parseRolloutArgs scanInt parseDuration args with
  | inl e => throw (ErrArgs e)
  | inr (ra, remaining) =>
      if decide (remaining ≠ []) then throw ErrUnexpected
      else if decide (ra.(ra_deployment) = "") then throw ErrNoDeployment
      else if (ra.(ra_replicas) <? 0)%Z then throw ErrReplicas
      else if (ra.(ra_step) <=? 0)%Z then throw ErrStep
      else runRollout ra
  end.
End Run.

(** ** The steps lead to the target *)

(** From [cur] to [target], one after the other. *)
Fixpoint path (cur : Z) (l : list (Z * Z)) (target : Z) : Prop :=
  match l with [] => cur = target | s :: l => s.1 = cur ∧ path s.2 l target end.

(** A step of at most [size] that stays between the two ends. *)
Definition bounded (lo hi size : Z) (s : Z * Z) : Prop := (0 < Z.abs (s.2 - s.1) <= size ∧ lo <= s.2 <= hi)%Z.

Lemma steps_up_spec fuel cur target size lo :
  (0 < size)%Z → (- 2 ^ 63 <= lo <= cur)%Z → (cur <= target)%Z → (target + size < 2 ^ 63)%Z → (target - cur <= Z.of_nat fuel)%Z →
  path cur (steps_up fuel cur target size) target ∧ Forall (bounded lo target size) (steps_up fuel cur target size) ∧
  Z.of_nat (length (steps_up fuel cur target size)) = ((target - cur + size - 1) / size)%Z.
Proof.
  intros Hs. revert cur. induction fuel as [|fuel IH]; intros cur Hlo Hc Hm Hf; cbn [steps_up].
  { assert (cur = target) as -> by lia. split_and!; [done|constructor|]. cbn. rewrite Z.div_small by lia. done. }
  destruct (cur <? target)%Z eqn:E.
  2: { assert (cur = target) as -> by lia. split_and!; [done|constructor|]. cbn. rewrite Z.div_small by lia. done. }
  rewrite wrap64_id by (unfold in_int64; lia).
  set (next := if (target <? cur + size)%Z then target else (cur + size)%Z).
  assert (next = Z.min target (cur + size)) as Hn by (subst next; destruct (target <? cur + size)%Z eqn:E'; lia).
  destruct (IH next) as (H1 & H2 & H3); [lia..|]. cbn [path fst snd]. split_and!; [done|done| |].
  - constructor; [unfold bounded; cbn; lia|done].
  - cbn [length]. rewrite Nat2Z.inj_succ, H3. destruct (decide (cur + size <= target)%Z).
    + replace (target - cur + size - 1)%Z with (target - next + size - 1 + 1 * size)%Z by lia. rewrite Z.div_add by lia. lia.
    + replace (target - next)%Z with 0%Z by lia. rewrite (Z.div_small (0 + size - 1)) by lia.
      apply (Z.div_unique_pos _ _ _ (target - cur - 1)); lia.
Qed.

Lemma steps_down_spec fuel cur target size hi :
  (0 < size < 2 ^ 63)%Z → (cur <= hi < 2 ^ 63)%Z → (target <= cur)%Z → (0 <= target)%Z → (cur - target <= Z.of_nat fuel)%Z →
  path cur (steps_down fuel cur target size) target ∧ Forall (bounded target hi size) (steps_down fuel cur target size) ∧
  Z.of_nat (length (steps_down fuel cur target size)) = ((cur - target + size - 1) / size)%Z.
Proof.
  intros Hs. revert cur. induction fuel as [|fuel IH]; intros cur Hhi Hc Hm Hf; cbn [steps_down].
  { assert (cur = target) as -> by lia. split_and!; [done|constructor|]. cbn. rewrite Z.div_small by lia. done. }
  destruct (target <? cur)%Z eqn:E.
  2: { assert (cur = target) as -> by lia. split_and!; [done|constructor|]. cbn. rewrite Z.div_small by lia. done. }
  rewrite wrap64_id by (unfold in_int64; lia).
  set (next := if (cur - size <? target)%Z then target else (cur - size)%Z).
  assert (next = Z.max target (cur - size)) as Hn by (subst next; destruct (cur - size <? target)%Z eqn:E'; lia).
  destruct (IH next) as (H1 & H2 & H3); [lia..|]. cbn [path fst snd]. split_and!; [done|done| |].
  - constructor; [unfold bounded; cbn; lia|done].
  - cbn [length]. rewrite Nat2Z.inj_succ, H3. destruct (decide (target <= cur - size)%Z).
    + replace (cur - target + size - 1)%Z with (next - target + size - 1 + 1 * size)%Z by lia. rewrite Z.div_add by lia. lia.
    + replace (next - target)%Z with 0%Z by lia. rewrite (Z.div_small (0 + size - 1)) by lia.
      apply (Z.div_unique_pos _ _ _ (cur - target - 1)); lia.
Qed.

Definition steps_ok (cur target size : Z) (l : list (Z * Z)) : Prop :=
  path cur l target ∧ Forall (bounded (Z.min cur target) (Z.max cur target) size) l ∧
  Z.of_nat (length l) = ((Z.abs (target - cur) + size - 1) / size)%Z.

Lemma stepsFor_ok cur target size :
  (0 < size)%Z → (0 <= cur < 2 ^ 63)%Z → (0 <= target)%Z → (target + size < 2 ^ 63)%Z → steps_ok cur target size (stepsFor cur target size).
Proof.
  intros Hs Hc Ht Hm. unfold stepsFor, steps_ok. destruct (cur <? target)%Z eqn:E.
  - replace (Z.min cur target) with cur by lia. replace (Z.max cur target) with target by lia.
    rewrite Z.abs_eq by lia. apply steps_up_spec; lia.
  - replace (Z.min cur target) with target by lia. replace (Z.max cur target) with cur by lia.
    replace (Z.abs (target - cur)) with (cur - target)%Z by lia. apply steps_down_spec; lia.
Qed.

(** ** The loop takes them *)

Definition isPolling (a : RolloutAct) : Prop := match a with RTick | RPoll _ => True | _ => False end.
#[local] Instance RolloutAct_eq : EqDecision RolloutAct.
Proof. solve_decision. Defined.

Definition ticks (l : list RolloutAct) : nat := length (filter (λ a, a = RTick) l).

(** The clock does not go back, and the ticks of a ticker are two seconds
    apart, counted from its start. *)
Definition ticker_ok (env : REnv) : Prop :=
  (∀ t, env.(re_now) t <= env.(re_now) (t ++ [RTicker]))%Z ∧
  (∀ t w, Forall isPolling w → env.(re_now) (t ++ [RTicker]) + pollInterval * Z.of_nat (ticks w) <= env.(re_now) ((t ++ [RTicker]) ++ w))%Z.

(** The last report of a wait that succeeds. *)
Definition reported (desired : Z) (w : list RolloutAct) : Prop :=
  ∃ polls ready available, w = polls ++ [RPoll (Some (ready, available))] ∧ (desired <= ready)%Z ∧ (desired <= available)%Z.

Section Theorems.
Context (env : REnv).

Lemma wp_ready_loop t0 w fuel deadline timeout desired :
  ticker_ok env → Forall isPolling w → (deadline <= env.(re_now) (t0 ++ [RTicker]) + timeout)%Z → 0 < fuel → waitRounds timeout <= ticks w + fuel →
  wp (ready_loop env fuel deadline desired) (λ r new _, Forall isPolling new ∧ r ≠ inl ErrSpinning ∧ (r = inr tt → reported desired new))
    ((t0 ++ [RTicker]) ++ w) tt.
Proof.
  intros [_ Htick]. revert w. induction fuel as [|fuel IH]; intros w Hw Hd Hf Hk; [lia|]. cbn [ready_loop].
  do 2 wp_step. destruct (re_cancelled env _); [wp_step; by split_and!|]. do 4 wp_step. rewrite (right_id_L [] (++)).
  destruct (re_poll env _) as [[ready available]|]; [|wp_step; split_and!; [by repeat constructor|done|done]].
  destruct ((desired <=? ready)%Z && (desired <=? available)%Z) eqn:Er.
  { wp_step. split_and!; [by repeat constructor|done|]. intros _. apply andb_true_iff in Er as [??].
    exists [RTick], ready, available. split_and!; [done|lia|lia]. }
  do 2 wp_step. destruct (deadline <? _)%Z eqn:Ed; [wp_step; split_and!; [by repeat constructor|done|done]|].
  apply Z.ltb_ge in Ed. rewrite !(right_id_L [] (++)), <- !(assoc_L (++)) in *. rewrite !(assoc_L (++) t0) in *. cbn [app] in *.
  set (w' := w ++ [RTick; RPoll (Some (ready, available))]) in *.
  assert (Forall isPolling w') as Hw' by (subst w'; apply Forall_app; split; [done|by repeat constructor]).
  assert (ticks w' = S (ticks w)) as Hw'' by (subst w'; unfold ticks; rewrite filter_app, List.length_app, !filter_cons, decide_True, decide_False by done; cbn; lia).
  specialize (Htick t0 w' Hw').
  assert (0 < fuel).
  { assert (Hdiv := Z.mul_succ_div_gt timeout pollInterval). unfold waitRounds in Hk. rewrite Hw'' in Htick.
    unfold pollInterval in *. destruct fuel; [|lia]. lia. }
  eapply wp_conseq; [apply IH; [done|done|done|lia]|]. intros r new [] (Hn & Hsp & Hr).
  split_and!; [by repeat constructor|done|]. intros ->. destruct (Hr eq_refl) as (polls & rd & av & -> & ? & ?).
  by exists (RTick :: RPoll (Some (ready, available)) :: polls), rd, av.
Qed.

Lemma wp_waitForReady desired timeout t :
  ticker_ok env →
  wp (waitForReady env desired timeout) (λ r new _, ∃ w, (new = RTicker :: w) ∧ Forall isPolling w ∧ r ≠ inl ErrSpinning ∧ (r = inr tt → reported desired w)) t tt.
Proof.
  intros Hc. unfold waitForReady. do 4 wp_step. rewrite (right_id_L [] (++)). eapply wp_conseq.
  - assert (Hl := wp_ready_loop t [] (waitRounds timeout) (re_now env t + timeout) timeout desired Hc).
    rewrite (right_id_L [] (++)) in Hl. apply Hl; [constructor| |unfold waitRounds; lia|lia].
    destruct Hc as [H _]. specialize (H t). lia.
  - intros r new [] (H1 & H2 & H3). by exists new.
Qed.

(** The steps that were taken, each after a report that the one before is
    ready. *)
Inductive stepped : list (Z * Z) → list RolloutAct → Prop :=
  | stepped_nil : stepped [] []
  | stepped_cons s steps rep w new :
      Forall isPolling w → reported s.2 w → stepped steps new →
      stepped (s :: steps) ([RGet (Some rep); RUpdate (wrap32 s.2) true; RTicker] ++ w ++ new).

(** A step that was begun: nothing but its own update, and no completion. *)
Definition unfinished (s : Z * Z) (a : RolloutAct) : Prop :=
  match a with RUpdate n _ => n = wrap32 s.2 | RComplete => False | _ => True end.

Lemma wait_unfinished s w : Forall isPolling w → Forall (unfinished s) w.
Proof. intros H. eapply Forall_impl; [done|]. intros []; done. Qed.

Lemma wp_takeStep ra i s t :
  ticker_ok env →
  wp (takeStep env ra i s) (λ r new _,
    (r = inr false → ∃ rep w, new = [RGet (Some rep); RUpdate (wrap32 s.2) true; RTicker] ++ w ∧ Forall isPolling w ∧ reported s.2 w) ∧
    Forall (unfinished s) new) t tt.
Proof.
  intros Hc. unfold takeStep. do 2 wp_step. destruct (re_cancelled env t); [wp_step; by split|].
  do 2 wp_step. destruct (re_get env _) as [rep|]; [|wp_step; split; [done|by repeat constructor]].
  do 2 wp_step. destruct (re_update env _ _) eqn:Eu; cbn [negb]; [|wp_step; split; [done|by repeat constructor]].
  wp_step. apply wp_try. eapply wp_conseq; [by apply wp_waitForReady|]. intros r new [] (w & -> & Hw & _ & Hr). cbn beta iota.
  apply (wait_unfinished s) in Hw as Hu. destruct r as [e|[]].
  - do 2 wp_step. destruct (re_cancelled env _); wp_step; rewrite !(right_id_L [] (++)); (split; [done|cbn; by repeat constructor]).
  - wp_step. rewrite !(right_id_L [] (++)). split; [|cbn; by repeat constructor]. intros _. exists rep, w. split_and!; [done|done|by apply Hr].
Qed.

Definition taken (steps : list (Z * Z)) (new : list RolloutAct) (r : RErr + ()) : Prop :=
  (∃ w, new = w ++ [RComplete] ∧ stepped steps w ∧ r = inr tt) ∨
  (∃ done s rest w tail, steps = done ++ s :: rest ∧ new = w ++ tail ∧ stepped done w ∧ Forall (unfinished s) tail).

Lemma wp_steps_loop ra i steps t :
  ticker_ok env → wp (steps_loop env ra i steps) (λ r new _, taken steps new r) t tt.
Proof.
  intros Hc. revert i t. induction steps as [|s steps IH]; intros i t; cbn [steps_loop].
  { wp_step. left. exists []. split_and!; [done|constructor|done]. }
  wp_step. eapply wp_conseq; [by apply wp_takeStep|]. intros r new [] (Hok & Hu). cbn beta iota.
  assert (∀ r', taken (s :: steps) new r') as Hstop by (intros r'; right; exists [], s, steps, [], new; split_and!; [done|done|constructor|done]).
  destruct r as [e|[]]; [apply Hstop|wp_step; rewrite (right_id_L [] (++)); apply Hstop|].
  destruct (Hok eq_refl) as (rep & w & -> & Hw & Hrep).
  eapply wp_conseq; [apply IH|]. intros r new' [] [(w' & -> & Hst & ->)|(d & s' & rest & w' & tail & -> & -> & Hst & Ht)].
  - left. eexists. split_and!; [|by apply (stepped_cons s steps rep w w')|done]. by rewrite <- !(assoc_L (++)).
  - right. exists (s :: d), s', rest. eexists _, tail. split_and!; [done| |by apply (stepped_cons s d rep w w')|done].
    by rewrite <- !(assoc_L (++)).
Qed.

(** Stepped rollouts. The steps lead from the current number of replicas to the wanted one, none larger than the step size nor beyond the two ends, and as few as that allows. They are taken in order, each only after the deployment has reported as many ready and available replicas as the one before wanted; the command says that it is complete only after the last, and a dry run changes nothing. Waiting for a step ends. *)
Theorem rollout_stepwise ra t :
  ticker_ok env → (∀ t n, env.(re_get) t = Some (Some n) → 0 <= n < 2 ^ 31)%Z →
  (0 <= ra.(ra_replicas))%Z → (0 < ra.(ra_step))%Z → (ra.(ra_replicas) + ra.(ra_step) < 2 ^ 63)%Z →
  wp (runRollout env ra) (λ r new _, ∃ rep w, new = RGet rep :: w ∧
    match rep with
    | None => w = [] ∧ r = inl ErrRGet
    | Some replicas =>
        let cur := default 0%Z replicas in
        let steps := stepsFor cur ra.(ra_replicas) ra.(ra_step) in
        steps_ok cur ra.(ra_replicas) ra.(ra_step) steps ∧
        if decide (cur = ra.(ra_replicas) ∨ ra.(ra_dryRun) = true) then w = [] ∧ r = inr tt else taken steps w r
    end) t tt ∧
  (∀ desired t', wp (waitForReady env desired ra.(ra_timeout)) (λ r _ _, r ≠ inl ErrSpinning) t' tt).
Proof.
  intros Hc Hrep Hr Hs Hm. split.
  2: { intros. eapply wp_conseq; [by apply wp_waitForReady|]. by intros r new [] (w & _ & _ & H & _). }
  unfold runRollout. do 2 wp_step. destruct (re_get env t) as [replicas|] eqn:Eg; [|wp_step; by exists None, []].
  set (cur := default 0%Z replicas).
  assert (steps_ok cur (ra_replicas ra) (ra_step ra) (stepsFor cur (ra_replicas ra) (ra_step ra))) as Hok.
  { apply stepsFor_ok; [done| |done|done]. subst cur. destruct replicas as [n|]; cbn; [|lia]. specialize (Hrep t n Eg). lia. }
  destruct (decide (cur = ra_replicas ra)) as [E|E].
  { wp_step. exists (Some replicas), []. split_and!; [done|done|]. by rewrite decide_True by by left. }
  destruct (ra_dryRun ra) eqn:Ed.
  { wp_step. exists (Some replicas), []. split_and!; [done|done|]. by rewrite decide_True by by right. }
  eapply wp_conseq; [by apply wp_steps_loop|]. intros r new [] Ht. exists (Some replicas), new.
  split_and!; [done|done|]. rewrite decide_False; [done|]. by intros [|].
Qed.
End Theorems.

(** ** Flags that are written are read back *)

Lemma splitArg_eq key v : index_byte key "=" = None → splitArg (key +:+ String "=" v) = (key, Some v).
Proof.
  intros Hk. unfold splitArg. assert (index_byte (key +:+ String "=" v) "=" = Some (len key)) as ->.
  { induction key as [|c key IH]; [done|]. cbn in Hk. change (String c key +:+ String "=" v) with (String c (key +:+ String "=" v)). cbn.
    destruct (decide (c = "="%char)); [done|]. destruct (index_byte key "="); [done|]. by rewrite IH. }
  rewrite stake_app. f_equal. f_equal. replace (S (len key)) with (len key + 1) by lia. by rewrite <- sdrop_sdrop, sdrop_app.
Qed.

Section Flags.
Context (scanInt parseDuration : string → option Z) (showDuration : Z → string).

Lemma parse_flag fuel key v rest ra ra' remaining :
  index_byte key "=" = None → setFlag scanInt parseDuration key v ra = Some (inr ra') →
  parse_loop scanInt parseDuration (S fuel) ((key +:+ String "=" v) :: rest) ra remaining = parse_loop scanInt parseDuration fuel rest ra' remaining.
Proof. intros Hk Hs. cbn [parse_loop]. rewrite splitArg_eq by done. cbn [takeValue]. by rewrite Hs. Qed.

Lemma setFlag_num v n ra :
  (scanInt v = Some n → setFlag scanInt parseDuration "--replicas" v ra = Some (inr {| ra with ra_replicas := n |})) ∧
  (scanInt v = Some n → setFlag scanInt parseDuration "--step" v ra = Some (inr {| ra with ra_step := n |})) ∧
  (parseDuration v = Some n → setFlag scanInt parseDuration "--timeout" v ra = Some (inr {| ra with ra_timeout := n |})).
Proof.
  split_and!; intros H.
  - change (Some match scanInt v with Some n => inr {| ra with ra_replicas := n |} | None => inl (ErrFlag "--replicas") end = Some (inr {| ra with ra_replicas := n |})).
    by rewrite H.
  - change (Some match scanInt v with Some n => inr {| ra with ra_step := n |} | None => inl (ErrFlag "--step") end = Some (inr {| ra with ra_step := n |})).
    by rewrite H.
  - change (Some match parseDuration v with Some n => inr {| ra with ra_timeout := n |} | None => inl (ErrFlag "--timeout") end = Some (inr {| ra with ra_timeout := n |})).
    by rewrite H.
Qed.

Definition render (ra : rolloutArgs) : list string :=
  ["--deployment" +:+ String "=" ra.(ra_deployment); "--namespace" +:+ String "=" ra.(ra_namespace); "--replicas" +:+ String "=" (pretty ra.(ra_replicas));
   "--step" +:+ String "=" (pretty ra.(ra_step)); "--timeout" +:+ String "=" (showDuration ra.(ra_timeout)); "--kubeconfig" +:+ String "=" ra.(ra_kubeconfig)]
  ++ (if ra.(ra_dryRun) then ["--dry-run"] else []).

(** Rollout flags. The flags that spell out a set of arguments are read back as those arguments, whatever strings they hold, with nothing left over. *)
Theorem rollout_flags_roundtrip ra :
  scanInt (pretty ra.(ra_replicas)) = Some ra.(ra_replicas) → scanInt (pretty ra.(ra_step)) = Some ra.(ra_step) →
  parseDuration (showDuration ra.(ra_timeout)) = Some ra.(ra_timeout) → (0 <= ra.(ra_replicas))%Z →
  parseRolloutArgs scanInt parseDuration (render ra) = inr (ra, []).
Proof.
  intros Hr Hs Ht Hpos. unfold parseRolloutArgs.
  assert (∃ extra, length (render ra) = 6 + extra ∧
    parse_loop scanInt parseDuration extra (if ra.(ra_dryRun) then ["--dry-run"] else []) {| ra with ra_dryRun := false |} [] = inr (ra, [])) as (extra & -> & Hlast).
  { destruct ra as [d n r s t k []]; [by exists 1|by exists 0]. }
  unfold render. cbn [app Nat.add].
  do 6 (erewrite parse_flag; [|reflexivity|first [by apply setFlag_num|reflexivity]]).
  cbn [defaultArgs ra_dryRun]. destruct ra. cbn in *. rewrite Hlast. cbn. destruct (ra_replicas0 <? 0)%Z eqn:E; [lia|done].
Qed.
End Flags.

(** ** A deployment *)

(** Decimal numbers only. *)
Definition demoScan (s : string) : option Z := if decide (s = "8") then Some 8%Z else if decide (s = "3") then Some 3%Z else None.
Definition demoDuration (s : string) : option Z := if decide (s = "2m") then Some 120000000000%Z else None.

Definition demoArgs (dry : bool) : rolloutArgs :=
  {| ra_deployment := "a=b"; ra_namespace := "default"; ra_replicas := 8; ra_step := 3; ra_timeout := 120000000000; ra_kubeconfig := "-x y"; ra_dryRun := dry |}.

Lemma rollout_flags_roundtrip_witness :
  parseRolloutArgs demoScan demoDuration (render (λ _, "2m") (demoArgs true)) = inr (demoArgs true, []).
Proof. apply (rollout_flags_roundtrip demoScan demoDuration (λ _, "2m") (demoArgs true)); [reflexivity..|cbn; lia]. Defined.

(** Replicas get ready as soon as they are wanted; [cur] is what there is. *)
Fixpoint demoWanted (cur : Z) (t : list RolloutAct) : Z :=
  match t with [] => cur | RUpdate n true :: t => demoWanted n t | _ :: t => demoWanted cur t end.

(** Reports all that is wanted as ready, at every other tick. *)
Definition demoREnv (cur : Z) : REnv := {|
  re_get := λ t, Some (Some (if (0 <=? demoWanted cur t)%Z && (demoWanted cur t <? 2 ^ 31)%Z then demoWanted cur t else 0%Z));
  re_update := λ _ _, true;
  re_poll := λ t, if Nat.even (ticks t) then Some (demoWanted cur t, demoWanted cur t) else Some (0, 0)%Z;
  re_now := λ t, (pollInterval * Z.of_nat (ticks t))%Z;
  re_cancelled := λ _, false |}.

Lemma ticks_app t u : ticks (t ++ u) = ticks t + ticks u.
Proof. unfold ticks. by rewrite filter_app, List.length_app. Qed.

Lemma demo_ticker cur : ticker_ok (demoREnv cur).
Proof. split; cbn [demoREnv re_now]; intros; rewrite !ticks_app; unfold pollInterval; lia. Qed.

Definition runDemo (ra : rolloutArgs) (cur : Z) : list RolloutAct * (RErr + ()) :=
  let '(s, r) := runRollout (demoREnv cur) ra {| t_trace := []; t_data := tt |} in (s.(t_trace), r).

Definition demoUpdates (l : list RolloutAct) : list Z := omap (λ a, match a with RUpdate n true => Some n | _ => None end) l.

Lemma rollout_stepwise_witness :
  let '(new, r) := runDemo (demoArgs false) 1 in
  r = inr tt ∧ demoUpdates new = [4; 7; 8]%Z ∧ ∃ w, new = RGet (Some (Some 1%Z)) :: w ∧ taken (stepsFor 1 8 3) w r.
Proof.
  destruct (rollout_stepwise (demoREnv 1) (demoArgs false) []) as [(r & new & [] & Hrun & rep & w & Hnew & H) _].
  - apply demo_ticker.
  - intros t n [= <-]. destruct (_ && _) eqn:E; lia.
  - cbn. lia.
  - cbn. lia.
  - cbn. lia.
  - unfold runDemo. rewrite Hrun. cbn [t_trace app]. assert (Hc := Hrun). vm_compute in Hc. injection Hc as Hn Hr. subst r.
    rewrite Hnew in *. injection Hn as Hrep Hw. subst rep. cbn [default] in H. destruct H as [_ H]. rewrite decide_False in H by (by intros []).
    split; [reflexivity|]. split; [subst w; reflexivity|]. exists w. split; [reflexivity|exact H].
Defined.

(** Going down, a step is over at once: as many replicas as are wanted are
    ready before any is removed. *)
Example scale_down_not_awaited :
  let '(s, r) := waitForReady {| re_get := λ _, None; re_update := λ _ _, true; re_poll := λ _, Some (10, 10)%Z; re_now := λ _, 0%Z; re_cancelled := λ _, false |}
                   3 1 {| t_trace := []; t_data := tt |} in
  (length (filter (λ a, a = RTick) s.(t_trace)), r) = (1, inr tt).
Proof. reflexivity. Qed.

(** A step that is too large wraps around: the first step from 5 replicas to 10
    is to a negative number, of which the deployment gets the low 32 bits. *)
Example step_overflow : steps_up 1 5 10 (2 ^ 63 - 1) = [(5, -9223372036854775804)]%Z ∧ wrap32 (-9223372036854775804) = 4%Z.
Proof. split; reflexivity. Qed.

(** [--dry-run=false] is a dry run, and an argument that belongs to no flag
    swallows the one after it. *)
Example flags_misread :
  parseRolloutArgs demoScan demoDuration ["--replicas=8"; "--dry-run=false"; "a"; "b"] =
  inr ({| defaultArgs with ra_replicas := 8%Z; ra_dryRun := true |}, ["a"]).
Proof. reflexivity. Qed.
