(* ===== verification/Volume.v ===== *)
(** * Volumes (internal/volume/resolver.go, csi.go)

    A container's volume mounts become bind mounts: the resolver writes the
    files of config maps, secrets and projected volumes below the pod's state
    directory, follows claims to their volumes and stages volumes of CSI
    drivers. Files are those of [FileSys]; the listers are functions, the API
    server and the CSI drivers answer through the record [VEnv] as functions of
    the calls made before. [range] is the order in which Go iterates over a
    map. Host paths are absolute; file modes and log output are left out. *)
From S2P Require Import Prelude Corev1 Monad Trace Paths FileSys VolTracker Runtime.
Import Str.

(** ** Objects *)

(** A config map whose [Data] is nil has [None]. *)
Record ConfigMap := { cm_Data : option (gmap string string); cm_BinaryData : gmap string string }.
Abbreviation SecretData := (gmap string string).

Inductive ClaimPhase := ClaimBound | ClaimPending | ClaimOther.
#[export] Instance ClaimPhase_eq_dec : EqDecision ClaimPhase.
Proof. solve_decision. Defined.

Record Claim := { pvc_Phase : ClaimPhase; pvc_VolumeName : string }.

Inductive AccessMode := ReadWriteOnce | ReadOnlyMany | ReadWriteMany | ReadWriteOncePod.
Inductive CSIAccessMode := SINGLE_NODE_WRITER | MULTI_NODE_READER_ONLY | MULTI_NODE_MULTI_WRITER | SINGLE_NODE_SINGLE_WRITER.

Record CSISource := { csi_Driver : string; csi_VolumeHandle : string; csi_VolumeAttributes : option (gmap string string) }.

Record PersistentVolume := {
  pv_Name : string;
  pv_HostPath : option string;
  pv_Local : option string;
  pv_CSI : option CSISource;
  pv_AccessModes : list AccessMode;
}.

Record VolumeAttachment := { va_Name : string; va_Attacher : string; va_PV : string; va_NodeName : string }.
Record AttachmentStatus := { va_Attached : bool; va_Metadata : option (gmap string string) }.

Record NodeStageVolumeRequest := {
  st_VolumeId : string;
  st_StagingTargetPath : string;
  st_AccessMode : CSIAccessMode;
  st_VolumeContext : gmap string string;
  st_PublishContext : gmap string string;
  st_Secrets : gmap string string;
}.

Record TokenRequest := {
  tr_ExpirationSeconds : option Z;
  tr_PodName : string;
  tr_PodUID : string;
  tr_Audiences : list string;
}.

(** ** Calls *)

Inductive VAct :=
  | VFile (op : FSOp) (ans : FSAns)
  | VGetClaim (namespace name : string)
  | VGetPV (name : string)
  | VGetConfigMap (namespace name : string)
  | VToken (namespace sa : string) (req : TokenRequest)
  | VAttach (va : VolumeAttachment)
  | VWait
  | VGetAttachment (name : string) (ans : option AttachmentStatus)
  | VDetach (name : string)
  | VConnect (driver : string) (ok : bool)
  | VStage (req : NodeStageVolumeRequest) (ok : bool)
  | VUnpublish (id target : string)
  | VUnstage (id staging : string) (ok : bool).

Inductive CreateAns := Created | AlreadyExists | CreateFailed.
#[export] Instance CreateAns_eq_dec : EqDecision CreateAns.
Proof. solve_decision. Defined.

(** [ve_cancelled]: the context is done before the next tick of the poll;
    [ve_sha256]: the digest in hexadecimal. *)
Record VEnv := {
  ve_fails : list VAct → FSOp → FS → option FS;
  ve_GetClaim : list VAct → string → string → option Claim;
  ve_GetPV : list VAct → string → option PersistentVolume;
  ve_GetConfigMap : list VAct → string → string → option ConfigMap;
  ve_CreateToken : list VAct → string → string → TokenRequest → option string;
  ve_Attach : list VAct → VolumeAttachment → CreateAns;
  ve_GetAttachment : list VAct → string → option AttachmentStatus;
  ve_cancelled : list VAct → bool;
  ve_connect : list VAct → string → bool;
  ve_stage : list VAct → NodeStageVolumeRequest → bool;
  ve_unstage : list VAct → string → string → bool;
  ve_sha256 : string → string;
}.

(** The errors; [ErrPending] is the one marked transient. *)
Inductive VErr :=
  | ErrNoVolume (name container : string)
  | ErrUnsupported (name : string)
  | ErrFile (op : FSOp)
  | ErrNoClient
  | ErrNoLister
  | ErrGet (what name : string)
  | ErrPending
  | ErrUnbound
  | ErrPVType (name : string)
  | ErrNoHost
  | ErrAttach (pv : string)
  | ErrTimeout
  | ErrDriver (driver : string)
  | ErrStage (pv : string)
  | ErrToken
  | ErrField (path : string).

(** [r_kubeClient] tells whether there is a client. *)
Record Resolver := {
  r_stateDir : string;
  r_hostNodeName : string;
  r_cmLister : option (string → string → option ConfigMap);
  r_secretLister : option (string → string → option SecretData);
  r_kubeClient : bool;
}.

Definition NewResolver (baseDir pawnName podUID hostNodeName : string)
    (cmLister : option (string → string → option ConfigMap)) (secretLister : option (string → string → option SecretData))
    (kubeClient : bool) : Resolver := {|
  r_stateDir := pathJoin [baseDir; "pawns"; pawnName; "pods"; podUID; "volumes"];
  r_hostNodeName := hostNodeName; r_cmLister := cmLister; r_secretLister := secretLister; r_kubeClient := kubeClient |}.

Definition pvAccessModeToCSI (modes : list AccessMode) : CSIAccessMode :=
  let step m := match m with
                | ReadWriteMany => Some MULTI_NODE_MULTI_WRITER
                | ReadOnlyMany => Some MULTI_NODE_READER_ONLY
                | ReadWriteOncePod => Some SINGLE_NODE_SINGLE_WRITER
                | ReadWriteOnce => None
                end in
  default SINGLE_NODE_WRITER (head (omap step modes)).

(** [filepath.Join(dir, path)], as the path of a file. *)
Definition dest (dir path : string) : Path := cleanComponents (dir +:+ "/" +:+ path).

Definition stagingPathOf (pvName : string) : string :=
  pathJoin ["/var/lib/kubelet/plugins/kubernetes.io/csi"; pvName; "globalmount"].

(** The keys to project, each with the path of its file. *)
Definition itemPaths (items : list KeyToPath) : gmap string string :=
  foldl (λ m it, <[it.(ktp_Key) := it.(ktp_Path)]> m) ∅ items.

Definition ownPaths (m : gmap string string) : gmap string string := map_imap (λ k _, Some k) m.

Definition keyToPath (items : list KeyToPath) (keys : gmap string string) : gmap string string :=
  if decide (items = []) then ownPaths keys else itemPaths items.

(** All the keys of a config map; [Data] wins over [BinaryData]. *)
Definition cmEntries (cm : ConfigMap) : gmap string string := default ∅ cm.(cm_Data) ∪ cm.(cm_BinaryData).

Definition labelsToString (range : gmap string string → list (string * string)) (m : gmap string string) : string :=
  foldr (λ '(k, v) s, k +:+ "=" +:+ v +:+ String "010" s) "" (range m).

Definition resolveDownwardAPIField (range : gmap string string → list (string * string)) (pod : Pod)
    (item : DownwardAPIVolumeFile) : VErr + string :=
  match item.(daf_FieldRef) with
  | None => inl (ErrField "")
  | Some path =>
      if decide (path = "metadata.namespace") then inr pod.(p_Namespace)
      else if decide (path = "metadata.name") then inr pod.(p_Name)
      else if decide (path = "metadata.uid") then inr pod.(p_UID)
      else if decide (path = "metadata.labels") then inr (labelsToString range (default ∅ pod.(p_Labels)))
      else if decide (path = "metadata.annotations") then inr (labelsToString range (default ∅ pod.(p_Annotations)))
      else if decide (path = "spec.serviceAccountName") then inr pod.(p_ServiceAccountName)
      else if decide (path = "spec.nodeName") then inr pod.(p_NodeName)
      else if decide (path = "status.podIP") then inr pod.(p_Status).(ps_PodIP)
      else if decide (path = "status.hostIP") then inr pod.(p_Status).(ps_HostIP)
      else inl (ErrField path)
  end.

(** ** The resolver *)

Section Resolver.
Context (env : VEnv) (range : gmap string string → list (string * string)).

Abbreviation VM := (SE (TState VAct FS) VErr).

Definition file (op : FSOp) : VM FSAns := fsTry VFile env.(ve_fails) op.
Definition fileDo (op : FSOp) : VM () := fsDo VFile env.(ve_fails) ErrFile op.

(** A value that the API server or a lister returns, or the error. *)
Definition orThrow {A} (e : VErr) (a : option A) : VM A := match a with Some a => mret a | None => throw e end.

Definition sha256Hash (input : string) : string := String.substring 0 16 (env.(ve_sha256) input).

Definition GetClaim (namespace name : string) : VM (option Claim) :=
  callT (λ t, env.(ve_GetClaim) t namespace name) (λ _, VGetClaim namespace name).
Definition GetPV (name : string) : VM (option PersistentVolume) := callT (λ t, env.(ve_GetPV) t name) (λ _, VGetPV name).
Definition GetConfigMap (namespace name : string) : VM (option ConfigMap) :=
  callT (λ t, env.(ve_GetConfigMap) t namespace name) (λ _, VGetConfigMap namespace name).
Definition GetAttachment (name : string) : VM (option AttachmentStatus) :=
  callT (λ t, env.(ve_GetAttachment) t name) (VGetAttachment name).

(** One file of a volume: its directory, then its content. *)
Definition writeFile (p : Path) (data : string) : VM () :=
  _ ← fileDo (FMkdirAll (parent p));
  fileDo (FWrite p data).

Definition ensurePath (path : string) (t : option string) : VM () :=
  let p := cleanComponents path in
  match t with
  | None => mret tt
  | Some t =>
      if decide (t = "" ∨ t = "File") then mret tt
      else if decide (t = "Directory" ∨ t = "DirectoryOrCreate") then fileDo (FMkdirAll p)
      else if decide (t = "FileOrCreate") then
        _ ← fileDo (FMkdirAll (parent p));
        ans ← file (FCreate p);
        if decide (ans = FSOk ∨ ans = FSExist) then mret tt else throw (ErrFile (FCreate p))
      else mret tt
  end.

(** The config map from the lister, else from the API server. *)
Definition lookupConfigMap (r : Resolver) (namespace name : string) : VM ConfigMap :=
  match r.(r_cmLister) ≫= (λ get, get namespace name) with
  | Some cm => mret cm
  | None =>
      if r.(r_kubeClient) then
        cm ← GetConfigMap namespace name;
        orThrow (ErrGet "ConfigMap" name) cm
      else throw ErrNoClient
  end.

Definition writeConfigMap (r : Resolver) (namespace volName : string) (src : ConfigMapVolumeSource) : VM string :=
  cm ← lookupConfigMap r namespace src.(cmv_Name);
  let dir := pathJoin [r.(r_stateDir); "configmap"; volName] in
  _ ← fileDo (FMkdirAll (cleanComponents dir));
  _ ← forM (range (keyToPath src.(cmv_Items) (cmEntries cm))) (λ '(key, path),
        _ ← fileDo (FMkdirAll (parent (dest dir path)));
        match cmEntries cm !! key with
        | Some data => fileDo (FWrite (dest dir path) data)
        | None => mret tt
        end);
  mret dir.

Definition writeSecret (r : Resolver) (namespace volName : string) (src : SecretVolumeSource) : VM string :=
  match r.(r_secretLister) with
  | None => throw ErrNoLister
  | Some get =>
      secret ← orThrow (ErrGet "Secret" src.(sev_SecretName)) (get namespace src.(sev_SecretName));
      let dir := pathJoin [r.(r_stateDir); "secret"; volName] in
      _ ← fileDo (FMkdirAll (cleanComponents dir));
      _ ← forM (range (keyToPath src.(sev_Items) secret)) (λ '(key, path),
            writeFile (dest dir path) (default "" (secret !! key)));
      mret dir
  end.

Definition requestToken (r : Resolver) (pod : Pod) (src : ServiceAccountTokenProjection) : VM string :=
  if r.(r_kubeClient) then
    let sa := if decide (pod.(p_ServiceAccountName) = "") then "default" else pod.(p_ServiceAccountName) in
    let audience := if decide (src.(sat_Audience) = "") then "https://kubernetes.default.svc.cluster.local"
                    else src.(sat_Audience) in
    let req := {| tr_ExpirationSeconds := src.(sat_ExpirationSeconds); tr_PodName := pod.(p_Name);
                  tr_PodUID := pod.(p_UID); tr_Audiences := [audience] |} in
    token ← callT (λ t, env.(ve_CreateToken) t pod.(p_Namespace) sa req) (λ _, VToken pod.(p_Namespace) sa req);
    orThrow ErrToken token
  else throw ErrNoClient.

(** The items of a source of a projected volume: all keys where none are given. *)
Definition projectedItems (items : list KeyToPath) (data : gmap string string) : list KeyToPath :=
  if decide (items = []) then map (λ '(k, _), {| ktp_Key := k; ktp_Path := k |}) (range data) else items.

Definition projectedConfigMap (r : Resolver) (namespace name : string) : VM (gmap string string * gmap string string) :=
  if decide (r.(r_cmLister) = None ∧ r.(r_kubeClient) = false) then throw ErrNoLister
  else
    let listed := r.(r_cmLister) ≫= (λ get, get namespace name) in
    match listed ≫= cm_Data with
    | Some data => mret (data, from_option cm_BinaryData ∅ listed)
    | None =>
        if r.(r_kubeClient) then
          cm ← GetConfigMap namespace name;
          cm ← orThrow (ErrGet "ConfigMap" name) cm;
          data ← orThrow (ErrGet "ConfigMap" name) cm.(cm_Data);
          mret (data, cm.(cm_BinaryData))
        else throw (ErrGet "ConfigMap" name)
    end.

Definition writeSource (r : Resolver) (pod : Pod) (dir : string) (src : VolumeProjection) : VM () :=
  match src.(vpr_ServiceAccountToken), src.(vpr_ConfigMap), src.(vpr_DownwardAPI), src.(vpr_Secret) with
  | Some sat, _, _, _ =>
      token ← requestToken r pod sat;
      writeFile (dest dir sat.(sat_Path)) token
  | None, Some cms, _, _ =>
      '(data, binary) ← projectedConfigMap r pod.(p_Namespace) cms.(cmv_Name);
      forM (projectedItems cms.(cmv_Items) data) (λ it,
        writeFile (dest dir it.(ktp_Path)) (default (default "" (data !! it.(ktp_Key))) (binary !! it.(ktp_Key))))
  | None, None, Some items, _ =>
      forM items (λ it,
        _ ← fileDo (FMkdirAll (parent (dest dir it.(daf_Path))));
        match resolveDownwardAPIField range pod it with
        | inl e => throw e
        | inr value => fileDo (FWrite (dest dir it.(daf_Path)) value)
        end)
  | None, None, None, Some ss =>
      match r.(r_secretLister) with
      | None => throw ErrNoLister
      | Some get =>
          secret ← orThrow (ErrGet "Secret" ss.(sev_SecretName)) (get pod.(p_Namespace) ss.(sev_SecretName));
          forM (projectedItems ss.(sev_Items) secret) (λ it,
            writeFile (dest dir it.(ktp_Path)) (default "" (secret !! it.(ktp_Key))))
      end
  | None, None, None, None => mret tt
  end.

Definition writeProjected (r : Resolver) (pod : Pod) (volName : string) (sources : list VolumeProjection) : VM string :=
  let dir := pathJoin [r.(r_stateDir); "projected"; volName] in
  _ ← fileDo (FMkdirAll (cleanComponents dir));
  _ ← forM sources (writeSource r pod dir);
  mret dir.

(** *** Claims and CSI volumes *)

Definition attachTimeout : Duration := 30 * Second.
Definition attachTick : Duration := Second / 2.

(** The polls that fit in the timeout. *)
Definition attachPolls : nat := Z.to_nat (attachTimeout / attachTick).

Fixpoint pollAttachment (fuel : nat) (vaName : string) : VM () :=
  match fuel with
  | O => throw ErrTimeout
  | S fuel =>
      cancelled ← askT env.(ve_cancelled);
      if cancelled : bool then throw ErrTimeout
      else
        _ ← doT VWait;
        va ← GetAttachment vaName;
        va ← orThrow (ErrGet "VolumeAttachment" vaName) va;
        if va.(va_Attached) then mret tt else pollAttachment fuel vaName
  end.

Definition waitForAttachment (vaName : string) : VM () := pollAttachment attachPolls vaName.

Definition NewCSIClient (driverName : string) : VM bool :=
  callT (λ t, env.(ve_connect) t driverName) (VConnect driverName).

Definition NodeStageVolume (volumeID stagingPath : string) (accessModes : list AccessMode)
    (volumeContext publishContext secrets : gmap string string) : VM bool :=
  let req := {| st_VolumeId := volumeID; st_StagingTargetPath := stagingPath;
                st_AccessMode := pvAccessModeToCSI accessModes; st_VolumeContext := volumeContext;
                st_PublishContext := publishContext; st_Secrets := secrets |} in
  callT (λ t, env.(ve_stage) t req) (VStage req).

Definition NodeUnpublishVolume (volumeID targetPath : string) : VM () := doT (VUnpublish volumeID targetPath).

Definition NodeUnstageVolume (volumeID stagingPath : string) : VM bool :=
  callT (λ t, env.(ve_unstage) t volumeID stagingPath) (VUnstage volumeID stagingPath).

Definition resolveCSI (r : Resolver) (pvName : string) (pv : PersistentVolume) (csi : CSISource) : VM string :=
  if decide (r.(r_hostNodeName) = "") then throw ErrNoHost
  else
    let vaName := sha256Hash (pvName +:+ "/" +:+ r.(r_hostNodeName)) in
    let va := {| va_Name := vaName; va_Attacher := csi.(csi_Driver); va_PV := pvName; va_NodeName := r.(r_hostNodeName) |} in
    ans ← callT (λ t, env.(ve_Attach) t va) (λ _, VAttach va);
    if decide (ans = CreateFailed) then throw (ErrAttach pvName)
    else
      _ ← waitForAttachment vaName;
      va ← GetAttachment vaName;
      va ← orThrow (ErrGet "VolumeAttachment" vaName) va;
      connected ← NewCSIClient csi.(csi_Driver);
      if connected : bool then
        let stagingPath := stagingPathOf pvName in
        _ ← fileDo (FMkdirAll (cleanComponents stagingPath));
        staged ← NodeStageVolume csi.(csi_VolumeHandle) stagingPath pv.(pv_AccessModes)
                   (default ∅ csi.(csi_VolumeAttributes)) (default ∅ va.(va_Metadata)) ∅;
        if staged : bool then mret stagingPath else throw (ErrStage pvName)
      else throw (ErrDriver csi.(csi_Driver)).

Definition resolvePVC (r : Resolver) (namespace claimName : string) : VM string :=
  if r.(r_kubeClient) then
    pvc ← GetClaim namespace claimName;
    pvc ← orThrow (ErrGet "PVC" claimName) pvc;
    match pvc.(pvc_Phase) with
    | ClaimPending => throw ErrPending
    | ClaimOther => throw ErrUnbound
    | ClaimBound =>
        let pvName := pvc.(pvc_VolumeName) in
        pv ← GetPV pvName;
        pv ← orThrow (ErrGet "PV" pvName) pv;
        match pv.(pv_HostPath), pv.(pv_Local), pv.(pv_CSI) with
        | Some path, _, _ => mret path
        | None, Some path, _ => mret path
        | None, None, Some csi => resolveCSI r pvName pv csi
        | None, None, None => throw (ErrPVType pvName)
        end
    end
  else throw ErrNoClient.

Definition resolveVolume (r : Resolver) (pod : Pod) (vol : Volume) (vm : VolumeMount) : VM BindMount :=
  let namespace := pod.(p_Namespace) in
  let base hostPath readOnly := {| bm_HostPath := hostPath; bm_ContainerPath := vm.(vm_MountPath);
    bm_ReadOnly := readOnly; bm_Propagation := default "" vm.(vm_MountPropagation) |} in
  match vol.(vol_HostPath) with
  | Some hp =>
      _ ← ensurePath hp.(hpv_Path) hp.(hpv_Type);
      mret (base hp.(hpv_Path) vm.(vm_ReadOnly))
  | None =>
  if vol.(vol_EmptyDir) then
    let dir := pathJoin [r.(r_stateDir); "emptydir"; vol.(vol_Name)] in
    _ ← fileDo (FMkdirAll (cleanComponents dir));
    mret (base dir vm.(vm_ReadOnly))
  else
  match vol.(vol_ConfigMap) with
  | Some src => dir ← writeConfigMap r namespace vol.(vol_Name) src; mret (base dir true)
  | None =>
  match vol.(vol_Secret) with
  | Some src => dir ← writeSecret r namespace vol.(vol_Name) src; mret (base dir true)
  | None =>
  match vol.(vol_PersistentVolumeClaim) with
  | Some src =>
      hostPath ← resolvePVC r namespace src.(pvv_ClaimName);
      mret (base hostPath (vm.(vm_ReadOnly) || src.(pvv_ReadOnly)))
  | None =>
  match vol.(vol_Projected) with
  | Some sources => dir ← writeProjected r pod vol.(vol_Name) sources; mret (base dir true)
  | None => throw (ErrUnsupported vol.(vol_Name))
  end end end end end.

(** The volumes by name: the last of a name counts. *)
Definition volByName (pod : Pod) : gmap string Volume :=
  foldl (λ m vol, <[vol.(vol_Name) := vol]> m) ∅ pod.(p_Volumes).

Fixpoint resolve_loop (r : Resolver) (pod : Pod) (container : string) (vms : list VolumeMount) (mounts : list BindMount) :
    VM (list BindMount) :=
  match vms with
  | [] => mret mounts
  | vm :: vms =>
      match volByName pod !! vm.(vm_Name) with
      | None => throw (ErrNoVolume vm.(vm_Name) container)
      | Some vol =>
          bm ← resolveVolume r pod vol vm;
          resolve_loop r pod container vms (mounts ++ [bm])
      end
  end.

Definition Resolve (r : Resolver) (pod : Pod) (container : Container) : VM (list BindMount) :=
  resolve_loop r pod container.(c_Name) container.(c_VolumeMounts) [].

(** *** Clean-up *)

Definition Cleanup (r : Resolver) : VM () := fileDo (FRemoveAll (cleanComponents r.(r_stateDir))).

Definition cleanupCSIVolume (r : Resolver) (pv : PersistentVolume) (csi : CSISource) : VM () :=
  let stagingPath := stagingPathOf pv.(pv_Name) in
  let targetPath := pathJoin [r.(r_stateDir); "csi"; pv.(pv_Name); "mount"] in
  connected ← NewCSIClient csi.(csi_Driver);
  if connected : bool then
    _ ← NodeUnpublishVolume csi.(csi_VolumeHandle) targetPath;
    _ ← NodeUnstageVolume csi.(csi_VolumeHandle) stagingPath;
    _ ← file (FRemoveAll (cleanComponents stagingPath));
    _ ← file (FRemoveAll (cleanComponents targetPath));
    doT (VDetach (sha256Hash (pv.(pv_Name) +:+ "/" +:+ r.(r_hostNodeName))))
  else
    _ ← file (FRemoveAll (cleanComponents stagingPath));
    _ ← file (FRemoveAll (cleanComponents targetPath));
    mret tt.

Definition cleanupClaim (r : Resolver) (pod : Pod) (vol : Volume) : VM () :=
  match vol.(vol_PersistentVolumeClaim) with
  | None => mret tt
  | Some src =>
      pvc ← GetClaim pod.(p_Namespace) src.(pvv_ClaimName);
      match pvc with
      | None => mret tt
      | Some pvc =>
          pv ← GetPV pvc.(pvc_VolumeName);
          match pv with
          | None => mret tt
          | Some pv => match pv.(pv_CSI) with None => mret tt | Some csi => cleanupCSIVolume r pv csi end
          end
      end
  end.

Definition CleanupCSI (r : Resolver) (pod : option Pod) : VM () :=
  match pod with
  | Some pod => if r.(r_kubeClient) then forM pod.(p_Volumes) (cleanupClaim r pod) else mret tt
  | None => mret tt
  end.

(** *** Refresh *)

Definition truncateWrite (p : Path) (data : string) : VM () := fileDo (FWrite p data).

Definition readDir (p : Path) : VM (option (list (string * bool))) := ReadDir VFile env.(ve_fails) p.

Fixpoint removeStaleFiles (fuel : nat) (hostDir : Path) (keep : gset Path) : VM () :=
  match fuel with
  | O => mret tt
  | S fuel =>
      entries ← readDir hostDir;
      match entries with
      | None => mret tt
      | Some entries =>
          forM entries (λ '(name, isdir),
            let path := hostDir ++ [name] in
            if isdir : bool then
              _ ← removeStaleFiles fuel path keep;
              sub ← readDir path;
              if decide (default [] sub = []) then _ ← file (FRemove path); mret tt else mret tt
            else if decide (path ∈ keep) then mret tt
            else
              _ ← file (FTruncate path);
              ans ← file (FRemove path);
              if decide (ans = FSOk ∨ ans = FSNotExist) then mret tt else throw (ErrFile (FRemove path)))
      end
  end.

(** The depth of the tree, which bounds the recursion. *)
Definition depth_of (fs : FS) : nat := max_list (map length (elements fs.(fs_dirs))).

(** Both refreshes: the files of the keys, then the stale ones. *)
Definition refresh (items : list KeyToPath) (data : gmap string string) (hostDir : string) : VM () :=
  let files := range (keyToPath items data) in
  _ ← forM files (λ '(key, path),
        _ ← fileDo (FMkdirAll (parent (dest hostDir path)));
        truncateWrite (dest hostDir path) (default "" (data !! key)));
  n ← getD depth_of;
  removeStaleFiles (S n) (cleanComponents hostDir) (list_to_set (map (λ '(_, path), dest hostDir path) files)).

Definition RefreshConfigMapDirect (cm : ConfigMap) (src : ConfigMapVolumeSource) (hostDir : string) : VM () :=
  refresh src.(cmv_Items) (cmEntries cm) hostDir.

Definition RefreshSecretDirect (secret : SecretData) (src : SecretVolumeSource) (hostDir : string) : VM () :=
  refresh src.(sev_Items) secret hostDir.

End Resolver.

(** ** Refreshing *)

(** The contract of [range], and of the failures of files. *)
Definition ranges (range : gmap string string → list (string * string)) : Prop := ∀ m, range m ≡ₚ map_to_list m.
Definition confines (env : VEnv) : Prop := ∀ t op fs fs', env.(ve_fails) t op fs = Some fs' → confined op fs fs'.

Definition readsOk (new : list VAct) : Prop := ∀ p ans, VFile (FReadDir p) ans ∈ new → ans = FSOk.

Lemma readsOk_app a b : readsOk (a ++ b) → readsOk a ∧ readsOk b.
Proof. unfold readsOk. intros H. split; intros p ans Hin; apply (H p ans), elem_of_app; auto. Qed.

(** What the removal may change: below [dir], outside [keep], and nothing new. *)
Record shrinks (dir : Path) (keep : gset Path) (fs fs' : FS) : Prop := {
  sh_tree : tree fs';
  sh_dirs : fs'.(fs_dirs) ⊆ fs.(fs_dirs);
  sh_kept : ∀ q, below dir q = false ∨ q ∈ keep → fs'.(fs_files) !! q = fs.(fs_files) !! q;
  sh_new : ∀ q, fs.(fs_files) !! q = None → fs'.(fs_files) !! q = None;
}.

Lemma shrinks_refl dir keep fs : tree fs → shrinks dir keep fs fs.
Proof. by split. Qed.

Lemma shrinks_trans dir keep fs1 fs2 fs3 : shrinks dir keep fs1 fs2 → shrinks dir keep fs2 fs3 → shrinks dir keep fs1 fs3.
Proof. intros [] []. split; [done|set_solver|intros q Hq; by rewrite sh_kept1, sh_kept0|auto]. Qed.

Lemma shrinks_up dir x keep fs fs' : shrinks (dir ++ [x]) keep fs fs' → shrinks dir keep fs fs'.
Proof.
  intros []. split; [done..| |done]. intros q [Hq|Hq]; [|auto]. apply sh_kept0. left.
  destruct (below (dir ++ [x]) q) eqn:E; [|done]. apply below_spec in E as [r ->]. by rewrite <- List.app_assoc, below_app in Hq.
Qed.

(** Truncating or removing a path below [dir] that is not kept. *)
Lemma shrinks_op dir keep op p fs fs' : tree fs' → op = FTruncate p ∨ op = FRemove p → below dir p = true → p ∉ keep →
  fs' = applyFS op fs ∨ confined op fs fs' → shrinks dir keep fs fs'.
Proof.
  intros Ht Hop Hb Hk Hfs. assert (∀ q, below dir q = false ∨ q ∈ keep → q ≠ p) as Hne by (intros q [?|?] ->; congruence).
  destruct Hop as [-> | ->], Hfs as [-> | Hc]; cbn in *; subst; split; cbn; try done.
  - intros q Hq. rewrite lookup_alter_ne by (apply not_eq_sym; auto). done.
  - intros q Hq. rewrite lookup_alter. case_decide; subst; by rewrite Hq.
  - set_solver.
  - intros q Hq. rewrite lookup_delete_ne by (apply not_eq_sym; auto). done.
  - intros q Hq. rewrite lookup_delete. by case_decide.
Qed.

Lemma shrinks_rmdir dir keep p fs fs' : tree fs' → fs.(fs_files) !! p = None →
  fs' = applyFS (FRemove p) fs ∨ confined (FRemove p) fs fs' → shrinks dir keep fs fs'.
Proof.
  intros Ht Hp [-> | Hc]; cbn in *; subst; [|by apply shrinks_refl].
  split; cbn; [done|set_solver| |]; intros q Hq; by rewrite delete_id.
Qed.

(** What is left below an entry of the directory. *)
Definition cleared (dir : Path) (keep : gset Path) (fs : FS) : Prop :=
  ∀ q, below dir q = true → q ∉ keep → fs.(fs_files) !! q = None.

Lemma cleared_shrinks dir dir' keep keep' fs fs' : cleared dir keep fs → shrinks dir' keep' fs fs' → cleared dir keep fs'.
Proof. intros H Hs q Hb Hk. eapply sh_new; [done|]. auto. Qed.

(** A directory is cleared when its entries are. *)
Lemma cleared_children dir keep fs0 fs : tree fs0 → dir ∈ fs0.(fs_dirs) → shrinks dir keep fs0 fs →
  (∀ x b, (x, b) ∈ children fs0 dir → cleared (dir ++ [x]) keep fs) → cleared dir keep fs.
Proof.
  intros Ht Hd Hs Hc q Hb Hk. destruct (fs_files fs0 !! q) as [c|] eqn:E; [|by eapply sh_new].
  apply below_spec in Hb as [[|x r] ->]; [rewrite (right_id_L [] (++)), tree_disjoint in E by done; done|].
  assert (∃ b, (x, b) ∈ children fs0 dir) as [b Hx].
  { destruct r as [|y r]; [exists false; apply children_file; eauto|exists true; apply children_dir].
    apply (tree_above _ _ y r Ht). rewrite <- List.app_assoc. eauto. }
  apply (Hc x b Hx); [|done]. change (x :: r) with ([x] ++ r). rewrite List.app_assoc. apply below_app.
Qed.

Section Refresh.
Context (env : VEnv) (range : gmap string string → list (string * string)) (Hconf : confines env) (keep : gset Path).
#[local] Set Default Proof Using "Type".

Abbreviation post dir fs := (λ (r : VErr + ()) new fs', shrinks dir keep fs fs' ∧ (r = inr tt → readsOk new → cleared dir keep fs')).

(** An entry of the listing that is a file. *)
Lemma wp_staleFile p t fs : tree fs → p ≠ [] → p ∉ keep → (∀ q, below p q = true → q ≠ p → fs.(fs_files) !! q = None) →
  wp (_ ← file env (FTruncate p);
      ans ← file env (FRemove p);
      if decide (ans = FSOk ∨ ans = FSNotExist) then mret tt else throw (ErrFile (FRemove p)))
    (post p fs) t fs.
Proof using Hconf.
  intros Ht Hp Hk Hleaf. assert (below p p = true) as Hb by (apply below_spec; exists []; by rewrite (right_id_L [] (++))).
  assert (∀ new fs', shrinks p keep fs fs' → tree fs' →
    wp (ans ← file env (FRemove p);
        if decide (ans = FSOk ∨ ans = FSNotExist) then mret tt else throw (ErrFile (FRemove p)))
      (λ r new' fs'', post p fs r (new ++ new') fs'') (t ++ new) fs') as Hrem.
  { intros new fs' Hs Ht'. wp_step. apply wp_file; [done|done|congruence|done|..].
    - intros ans fs'' Hne Ha Ht'' Hc. cbn in Hc. subst fs''. case_decide as Hd; wp_step; (split; [done|]); [intros _ _|done].
      destruct Hd as [->|Hd]; [done|]. destruct Ha as [Ha _]; [congruence|]. rewrite Hd in Ha. intros q Hq _.
      destruct (decide (q = p)) as [->|]; [|eapply sh_new; eauto].
      cbn in Ha. destruct (fs_files fs' !! p) eqn:E; [|done].
      assert (isFile fs' p = true) as Hf by (apply isFile_true; eauto). by rewrite Hf in Ha.
    - intros Ha Ht''. rewrite decide_True by auto. wp_step.
      assert (shrinks p keep fs (applyFS (FRemove p) fs')) as Hs' by (eapply shrinks_trans; [done|]; eapply shrinks_op; eauto).
      split; [done|]. intros _ _ q Hq _. destruct (decide (q = p)) as [->|]; [apply lookup_delete_eq|eapply sh_new; eauto]. }
  wp_step. apply wp_file; try done.
  - intros ans fs' _ _ Ht' Hc. apply Hrem; [|done]. eapply (shrinks_op _ _ (FTruncate p)); eauto.
  - intros Ha Ht'. apply Hrem; [|done]. eapply (shrinks_op _ _ (FTruncate p)); eauto.
Qed.

(** An entry that is a directory, given that its own entries are handled. *)
Lemma wp_staleDir m p t fs : p ≠ [] → fs.(fs_files) !! p = None → wp m (post p fs) t fs →
  wp (_ ← m;
      sub ← readDir env p;
      if decide (default [] sub = []) then _ ← file env (FRemove p); mret tt else mret tt)
    (post p fs) t fs.
Proof using Hconf.
  intros Hp Hf Hm. wp_step. eapply wp_conseq; [exact Hm|]. intros [e|[]] new fs' [Hs Hc]; [done|].
  pose proof (sh_tree _ _ _ _ Hs) as Ht. assert (fs_files fs' !! p = None) as Hf' by (by eapply sh_new).
  assert (∀ (sub : option (list (string * bool))) new', wp (if decide (default [] sub = []) then _ ← file env (FRemove p); mret tt else mret tt)
    (λ r new'' fs'', post p fs r (new ++ (new' ++ new'')) fs'') (t ++ new ++ new') fs') as Hrm.
  { intros sub new'. assert (∀ fs'' new'', shrinks p keep fs' fs'' → post p fs (inr tt) (new ++ (new' ++ new'')) fs'') as Hfin.
    { intros fs'' new'' Hs'. split; [by eapply shrinks_trans|]. intros _ [Hr _]%readsOk_app. eapply cleared_shrinks; [|done]. by apply Hc. }
    case_decide; [|wp_step; by apply Hfin, shrinks_refl]. wp_step. apply wp_file; [done|done|congruence|done|..].
    - intros ans fs'' _ _ Ht'' Hcf. wp_step. apply Hfin. eapply shrinks_rmdir; eauto.
    - intros Ha Ht''. wp_step. apply Hfin. eapply shrinks_rmdir; eauto. }
  wp_step. apply wp_ReadDir; [done|done|..].
  - intros ans _. rewrite <- List.app_assoc. apply (Hrm None).
  - intros _. rewrite <- List.app_assoc. apply (Hrm (Some _)).
Qed.

Lemma entry_done dir pre x b rest fs0 fs1 fs2 r new new' : pre ++ (x, b) :: rest = children fs0 dir →
  shrinks dir keep fs0 fs1 ∧ (readsOk new → ∀ y b, (y, b) ∈ pre → cleared (dir ++ [y]) keep fs1) → post (dir ++ [x]) fs1 r new' fs2 →
  shrinks dir keep fs0 fs2 ∧
  (r = inr tt → readsOk (new ++ new') → ∀ y b', (y, b') ∈ pre ++ [(x, b)] → cleared (dir ++ [y]) keep fs2).
Proof.
  intros _ [Hs Hc] [Hs' Hc']. split; [eapply shrinks_trans, shrinks_up; eauto|].
  intros Hr [H1 H2]%readsOk_app y b' [Hin|[= -> ->]%list_elem_of_singleton]%elem_of_app; [|auto].
  eapply cleared_shrinks; [by eapply Hc|done].
Qed.

Lemma removeStaleFiles_spec fuel dir t fs : tree fs → 0 < fuel → dir ≠ [] →
  (∀ q, q ∈ fs.(fs_dirs) → below dir q = true → length q < length dir + fuel) →
  wp (removeStaleFiles env fuel dir keep) (post dir fs) t fs.
Proof using Hconf.
  revert dir t fs. induction fuel as [|fuel IH]; intros dir t fs Ht Hfuel Hroot Hdepth; [lia|]. cbn [removeStaleFiles].
  wp_step. apply wp_ReadDir; [done|done|..].
  { intros ans Hne. wp_step. split; [by apply shrinks_refl|]. intros _ Hr. exfalso. apply Hne, (Hr dir). set_solver. }
  intros Hdir. eapply wp_conseq.
  - apply (wp_forM (λ pre new fs', shrinks dir keep fs fs' ∧
      (readsOk new → ∀ x b, (x, b) ∈ pre → cleared (dir ++ [x]) keep fs')) (λ _ _ fs', shrinks dir keep fs fs')).
    + split; [by apply shrinks_refl|]. intros _ x b []%not_elem_of_nil.
    + intros pre [x b] rest new fs' Hl HI. assert ((x, b) ∈ children fs dir) as Hx by (rewrite Hl; set_solver).
      apply (wp_conseq _ (post (dir ++ [x]) fs')); [|intros r new' fs'' Hp;
        destruct (entry_done dir pre x b rest fs fs' fs'' r new new' (eq_sym Hl) HI Hp) as [Hd1 Hd2];
        destruct r as [|[]]; [done|split; [done|by apply Hd2]]].
      destruct HI as [Hs _]. pose proof (sh_tree _ _ _ _ Hs) as Ht'. destruct b.
      * apply children_dir in Hx. apply wp_staleDir; [by destruct dir|eapply sh_new; [done|by apply tree_disjoint]|].
        assert (length (dir ++ [x]) < length dir + S fuel) as Hl' by (apply Hdepth; [done|apply below_app]).
        rewrite List.length_app in Hl'. cbn in Hl'. apply IH; [done|lia|by destruct dir|]. intros q Hq Hb.
        rewrite List.length_app. cbn. specialize (Hdepth q). apply below_spec in Hb as [r ->].
        assert (below dir ((dir ++ [x]) ++ r) = true) as Hb by (rewrite <- List.app_assoc; apply below_app).
        pose proof (sh_dirs _ _ _ _ Hs) as Hsub. specialize (Hdepth (Hsub _ Hq) Hb). lia.
      * apply children_file in Hx. case_decide as Hk.
        -- wp_step. split; [by apply shrinks_refl|]. intros _ _ q Hq Hnk. eapply sh_new; [done|].
           destruct (fs_files fs !! q) eqn:E; [|done]. apply below_spec in Hq as [r ->].
           assert (r = []) as -> by (by eapply (tree_leaf fs (dir ++ [x]) r); [| |eexists]). by rewrite (right_id_L [] (++)) in Hnk.
        -- apply wp_staleFile; [done|by destruct dir|done|]. intros q Hq Hne. eapply sh_new; [done|].
           destruct (fs_files fs !! q) eqn:E; [|done]. apply below_spec in Hq as [r ->].
           assert (r = []) as -> by (by eapply (tree_leaf fs (dir ++ [x]) r); [| |eexists]). by rewrite (right_id_L [] (++)) in Hne.
  - intros r new fs' Hr. destruct r as [e|[]]; [done|]. destruct Hr as [Hs Hc]. split; [done|]. intros _ Hro.
    eapply cleared_children; eauto. intros x b Hx. eapply Hc; [|done]. eapply proj2, readsOk_app; done.
Qed.
End Refresh.

Lemma depth_of_spec fs q : q ∈ fs.(fs_dirs) → length q <= depth_of fs.
Proof.
  intros Hq%elem_of_elements. unfold depth_of. apply max_list_elem_of_le, list_elem_of_fmap. by exists q.
Qed.

(** ** Writing the files of a volume *)

(** The content at [p] afterwards; [None] leaves it. *)
Definition wrote (fs fs' : FS) (p : Path) (data : option string) : Prop :=
  fs'.(fs_files) !! p = match data with Some _ => data | None => fs.(fs_files) !! p end.

Definition unchanged (ps : list Path) (fs fs' : FS) : Prop := ∀ q, q ∉ ps → fs'.(fs_files) !! q = fs.(fs_files) !! q.

Lemma unchanged_trans ps qs fs1 fs2 fs3 : unchanged ps fs1 fs2 → unchanged qs fs2 fs3 → unchanged (ps ++ qs) fs1 fs3.
Proof. intros H1 H2 q Hq. rewrite H2, H1; set_solver. Qed.

Lemma wp_writes {A} (f : A → Path) (g : A → option string) (body : A → SE (TState VAct FS) VErr ()) l t fs :
  tree fs → NoDup (map f l) →
  (∀ x t fs, tree fs → wp (body x) (λ r _ fs', tree fs' ∧ unchanged [f x] fs fs' ∧ (r = inr tt → wrote fs fs' (f x) (g x))) t fs) →
  wp (forM l body) (λ r _ fs', tree fs' ∧ unchanged (map f l) fs fs' ∧ (r = inr tt → ∀ x, x ∈ l → wrote fs fs' (f x) (g x))) t fs.
Proof.
  intros Ht Hnd Hbody. eapply wp_conseq.
  - apply (wp_forM (λ pre _ fs', tree fs' ∧ unchanged (map f pre) fs fs' ∧ ∀ x, x ∈ pre → wrote fs fs' (f x) (g x))
      (λ _ _ fs', tree fs' ∧ unchanged (map f l) fs fs')).
    + split_and!; [done|done|]. intros x []%not_elem_of_nil.
    + intros pre x rest new fs1 -> (Ht1 & Hu1 & Hw1). eapply wp_conseq; [by apply Hbody|].
      rewrite map_app in *. cbn [map] in *. apply NoDup_app in Hnd as (_ & Hx & Hnd).
      intros r new' fs2 (Ht2 & Hu2 & Hw2). pose proof (unchanged_trans _ _ _ _ _ Hu1 Hu2) as Hu.
      destruct r as [e|[]]; [split; [done|]; intros q Hq; apply Hu; set_solver|]. split_and!; [done|by rewrite map_app|].
      intros y [Hy|Hy%list_elem_of_singleton]%elem_of_app; unfold wrote in *; [|subst y].
      * assert (f y ∈ map f pre) as Hin by (apply list_elem_of_fmap; eauto). rewrite Hu2; [by apply Hw1|].
        intros Heq%list_elem_of_singleton. apply (Hx _ Hin). rewrite Heq. constructor.
      * rewrite Hw2 by done. destruct (g x); [done|]. apply Hu1. intros Hin. apply (Hx _ Hin). constructor.
  - intros [e|[]] new fs' H; naive_solver.
Qed.

Section Writes.
Context (env : VEnv) (Hconf : confines env).
#[local] Set Default Proof Using "Type".

Lemma wp_mkdir p t fs : tree fs → wp (fileDo env (FMkdirAll p)) (λ r _ fs', tree fs' ∧ fs'.(fs_files) = fs.(fs_files)) t fs.
Proof using Hconf. intros Ht. apply wp_fileDo; try done. by intros ans fs' Ht' [? _]. Qed.

Lemma wp_write p data t fs : tree fs →
  wp (fileDo env (FWrite p data)) (λ r _ fs', tree fs' ∧ unchanged [p] fs fs' ∧ (r = inr tt → wrote fs fs' p (Some data))) t fs.
Proof using Hconf.
  intros Ht. apply wp_fileDo; try done.
  - intros ans fs' Ht' [_ Hd]. split_and!; [done| |done]. intros q Hq%not_elem_of_cons.
    by rewrite <- (lookup_delete_ne (fs_files fs') p q), Hd, lookup_delete_ne by naive_solver.
  - intros _ Ht'. split_and!; [done| |intros _; apply lookup_insert_eq]. intros q Hq%not_elem_of_cons.
    cbn. by rewrite lookup_insert_ne by naive_solver.
Qed.

(** A directory, then possibly the file: the turn of each of the loops. *)
Lemma wp_writeOpt p (data : option string) t fs : tree fs →
  wp (_ ← fileDo env (FMkdirAll (parent p)); match data with Some data => fileDo env (FWrite p data) | None => mret tt end)
    (λ r _ fs', tree fs' ∧ unchanged [p] fs fs' ∧ (r = inr tt → wrote fs fs' p data)) t fs.
Proof using Hconf.
  intros Ht. wp_step. eapply wp_conseq; [by apply wp_mkdir|]. intros r new fs1 [Ht1 Hf1].
  assert (unchanged [p] fs fs1) as Hu by (intros q _; by rewrite Hf1).
  destruct r as [e|[]]; [done|]. destruct data as [data|]; [|wp_step; split_and!; [done..|intros _; unfold wrote; by rewrite Hf1]].
  eapply wp_conseq; [by apply wp_write|]. intros r new' fs2 (Ht2 & Hu2 & Hw). split_and!; [done| |done].
  intros q Hq. rewrite (Hu2 q Hq). by apply Hu.
Qed.

End Writes.

(** ** Contents *)

(** What a volume shows: the content at the path of each key. *)
Definition shows (dir : string) (paths : gmap string string) (value : string → option string) (fs : FS) : Prop :=
  ∀ k p v, paths !! k = Some p → value k = Some v → fs.(fs_files) !! dest dir p = Some v.

(** The keys have files of their own. *)
Definition apart (dir : string) (paths : gmap string string) : Prop :=
  ∀ k1 k2 p1 p2, paths !! k1 = Some p1 → paths !! k2 = Some p2 → dest dir p1 = dest dir p2 → k1 = k2.

Lemma apart_NoDup range dir paths : ranges range → apart dir paths → NoDup (map (λ '(_, path), dest dir path) (range paths)).
Proof.
  intros Hr Ha. assert (∀ k p, (k, p) ∈ range paths → paths !! k = Some p) as Hin.
  { intros k p. by rewrite (Hr paths), elem_of_map_to_list. }
  apply NoDup_fmap_2_strong.
  - intros [k1 p1] [k2 p2] H1%Hin H2%Hin Heq. assert (k1 = k2) as -> by eauto. congruence.
  - rewrite (Hr paths). apply NoDup_map_to_list.
Qed.

Lemma refresh_spec env range items data hostDir t fs : confines env → ranges range → tree fs →
  cleanComponents hostDir ≠ [] → apart hostDir (keyToPath items data) →
  wp (refresh env range items data hostDir) (λ r new fs',
    tree fs' ∧
    (∀ q, below (cleanComponents hostDir) q = false → (∀ k p, keyToPath items data !! k = Some p → q ≠ dest hostDir p) →
      fs'.(fs_files) !! q = fs.(fs_files) !! q) ∧
    (r = inr tt → shows hostDir (keyToPath items data) (λ k, Some (default "" (data !! k))) fs') ∧
    (r = inr tt → readsOk new → ∀ q, below (cleanComponents hostDir) q = true → is_Some (fs'.(fs_files) !! q) →
      ∃ k p, keyToPath items data !! k = Some p ∧ q = dest hostDir p)) t fs.
Proof.
  intros Hconf Hr Ht Hroot Ha. unfold refresh. set (paths := keyToPath items data) in *. set (files := range paths).
  set (keep := list_to_set (map (λ '(_, path), dest hostDir path) files) : gset Path).
  assert (∀ k p, (k, p) ∈ files ↔ paths !! k = Some p) as Hin by (intros k p; unfold files; by rewrite (Hr paths), elem_of_map_to_list).
  assert (∀ q, q ∈ map (λ '(_, path), dest hostDir path) files ↔ ∃ k p, paths !! k = Some p ∧ q = dest hostDir p) as Hmap.
  { intros q. rewrite list_elem_of_fmap. split; [intros ([k p] & -> & ?%Hin); eauto|]. intros (k & p & ?%Hin & ->). by exists (k, p). }
  wp_step. eapply wp_conseq.
  { apply (wp_writes (λ '(_, path), dest hostDir path) (λ '(key, _), Some (default "" (data !! key)))); [done|by apply apart_NoDup|].
    intros [key path] t' fs1 Ht1. by apply (wp_writeOpt env Hconf (dest hostDir path) (Some _)). }
  intros r new fs1 (Ht1 & Hu1 & Hw1). destruct r as [e|[]].
  { split_and!; [done| |done|done]. intros q _ Hq. apply Hu1. rewrite Hmap. naive_solver. }
  wp_step. wp_step. eapply wp_conseq.
  { apply (removeStaleFiles_spec env Hconf keep); [done|lia|done|]. intros q Hq%depth_of_spec _. lia. }
  intros r new' fs2 [Hs Hc]. assert (∀ q, q ∈ keep ↔ ∃ k p, paths !! k = Some p ∧ q = dest hostDir p) as Hkeep
    by (intros q; unfold keep; by rewrite elem_of_list_to_set, Hmap).
  split_and!; [apply (sh_tree _ _ _ _ Hs)|..].
  - intros q Hb Hq. rewrite (sh_kept _ _ _ _ Hs) by auto. apply Hu1. rewrite Hmap. naive_solver.
  - intros _ k p v Hk [= <-]. rewrite (sh_kept _ _ _ _ Hs) by (right; apply Hkeep; eauto).
    apply (Hw1 eq_refl (k, p)). by apply Hin.
  - intros -> Hro q Hb [c Hq]. apply Hkeep. destruct (decide (q ∈ keep)); [done|]. exfalso.
    rewrite Hc in Hq; [done|done| |done|done]. by apply readsOk_app in Hro as [_ Hro].
Qed.

(** Every key that is mounted is in the object. *)
Definition allPresent (items : list KeyToPath) (data : gmap string string) : Prop :=
  ∀ k p, keyToPath items data !! k = Some p → is_Some (data !! k).

Lemma refreshed_exact items data hostDir (fs' : FS) :
  shows hostDir (keyToPath items data) (λ k, Some (default "" (data !! k))) fs' →
  (∀ q, below (cleanComponents hostDir) q = true → is_Some (fs'.(fs_files) !! q) →
    ∃ k p, keyToPath items data !! k = Some p ∧ q = dest hostDir p) →
  allPresent items data → ∀ q v, below (cleanComponents hostDir) q = true →
    fs'.(fs_files) !! q = Some v ↔ ∃ k p, keyToPath items data !! k = Some p ∧ data !! k = Some v ∧ q = dest hostDir p.
Proof.
  intros Hs Hx Hp q v Hb. split.
  - intros Hq. destruct (Hx q Hb) as (k & p & Hk & ->); [by rewrite Hq|]. exists k, p. split_and!; [done| |done].
    destruct (Hp k p Hk) as [v' Hv']. pose proof (Hs k p _ Hk eq_refl) as Hs'. rewrite Hv' in Hs'. cbn in Hs'. congruence.
  - intros (k & p & Hk & Hv & ->). rewrite (Hs k p _ Hk eq_refl). by rewrite Hv.
Qed.

Lemma dest_inside hostDir path : isRooted hostDir = true → ".." ∉ splitOn "/" path →
  below (cleanComponents hostDir) (dest hostDir path) = true.
Proof. intros Hr Hp. destruct (cleanComponents_inside hostDir path Hr Hp) as [l Hl]. unfold dest. rewrite Hl. apply below_app. Qed.


(** ** Materialising *)

Lemma wp_lookupConfigMap env r ns name t fs (Φ : VErr + ConfigMap → list VAct → FS → Prop) :
  (∀ e new, Φ (inl e) new fs) →
  (∀ cm new, (r.(r_cmLister) ≫= λ get, get ns name) = Some cm ∨ (∃ t, env.(ve_GetConfigMap) t ns name = Some cm) → Φ (inr cm) new fs) →
  wp (lookupConfigMap env r ns name) Φ t fs.
Proof.
  intros He Hok. unfold lookupConfigMap. destruct (r_cmLister r ≫= _) eqn:E; [wp_step; auto|].
  destruct (r_kubeClient r); [|wp_step; auto]. wp_step. unfold GetConfigMap. wp_step.
  unfold orThrow. destruct (ve_GetConfigMap _ _ _ _) eqn:E'; wp_step; [apply Hok; eauto|apply He].
Qed.

(** The keys of a config map or secret that is mounted have their contents. *)
Lemma writeConfigMap_shows env range r ns volName src t fs : confines env → ranges range → tree fs →
  (∀ cm, (r.(r_cmLister) ≫= λ get, get ns src.(cmv_Name)) = Some cm ∨ (∃ t, env.(ve_GetConfigMap) t ns src.(cmv_Name) = Some cm) →
    apart (pathJoin [r.(r_stateDir); "configmap"; volName]) (keyToPath src.(cmv_Items) (cmEntries cm))) →
  wp (writeConfigMap env range r ns volName src) (λ res _ fs', tree fs' ∧
    ∀ dir, res = inr dir → dir = pathJoin [r.(r_stateDir); "configmap"; volName] ∧ ∃ cm,
      ((r.(r_cmLister) ≫= λ get, get ns src.(cmv_Name)) = Some cm ∨ ∃ t, env.(ve_GetConfigMap) t ns src.(cmv_Name) = Some cm) ∧
      shows dir (keyToPath src.(cmv_Items) (cmEntries cm)) (λ k, cmEntries cm !! k) fs') t fs.
Proof.
  intros Hconf Hr Ht Ha. unfold writeConfigMap. set (dir := pathJoin _) in *. wp_step.
  apply wp_lookupConfigMap; [done|]. intros cm new Hcm. wp_step. eapply wp_conseq; [by apply wp_mkdir|].
  intros res new1 fs1 [Ht1 _]. destruct res as [e|[]]; [done|]. wp_step. eapply wp_conseq.
  { apply (wp_writes (λ '(_, path), dest dir path) (λ '(key, _), cmEntries cm !! key)); [done|by apply apart_NoDup, Ha|].
    intros [key path] t' fs2 Ht2. by apply wp_writeOpt. }
  intros res new2 fs2 (Ht2 & _ & Hw). destruct res as [e|[]]; [done|]. wp_step. split; [done|]. intros ? [= <-]. split; [done|].
  exists cm. split; [done|]. intros k p v Hk Hv. specialize (Hw eq_refl (k, p)). cbn in Hw. unfold wrote in Hw. rewrite Hv in Hw.
  apply Hw. by rewrite (Hr _), elem_of_map_to_list.
Qed.

Lemma writeSecret_shows env range r ns volName src t fs : confines env → ranges range → tree fs →
  (∀ secret, (r.(r_secretLister) ≫= λ get, get ns src.(sev_SecretName)) = Some secret →
    apart (pathJoin [r.(r_stateDir); "secret"; volName]) (keyToPath src.(sev_Items) secret)) →
  wp (writeSecret env range r ns volName src) (λ res _ fs', tree fs' ∧
    ∀ dir, res = inr dir → dir = pathJoin [r.(r_stateDir); "secret"; volName] ∧ ∃ secret,
      (r.(r_secretLister) ≫= λ get, get ns src.(sev_SecretName)) = Some secret ∧
      shows dir (keyToPath src.(sev_Items) secret) (λ k, Some (default "" (secret !! k))) fs') t fs.
Proof.
  intros Hconf Hr Ht Ha. unfold writeSecret. destruct (r_secretLister r) as [get|]; [|by wp_step]. cbn [mbind option_bind] in *.
  set (dir := pathJoin _) in *. wp_step. unfold orThrow. destruct (get ns (sev_SecretName src)) as [secret|]; [|by wp_step].
  specialize (Ha secret eq_refl).
  wp_step. wp_step. eapply wp_conseq; [by apply wp_mkdir|].
  intros res new1 fs1 [Ht1 _]. destruct res as [e|[]]; [done|]. wp_step. eapply wp_conseq.
  { apply (wp_writes (λ '(_, path), dest dir path) (λ '(key, _), Some (default "" (secret !! key)))); [done|by apply apart_NoDup|].
    intros [key path] t' fs2 Ht2. by apply (wp_writeOpt env Hconf (dest dir path) (Some _)). }
  intros res new2 fs2 (Ht2 & _ & Hw). destruct res as [e|[]]; [done|]. wp_step. split; [done|]. intros ? [= <-]. split; [done|].
  exists secret. split; [done|]. intros k p v Hk [= <-]. apply (Hw eq_refl (k, p)). by rewrite (Hr _), elem_of_map_to_list.
Qed.

(** ** Where the resolver writes *)

Definition opPath (op : FSOp) : Path :=
  match op with
  | FMkdirAll p | FWrite p _ | FCreate p | FTruncate p | FRemove p | FRemoveAll p | FReadDir p => p
  end.

(** The account and the request of a pod's tokens. *)
Definition tokenFor (pod : Pod) (ns sa : string) (req : TokenRequest) : Prop :=
  ns = pod.(p_Namespace) ∧ req.(tr_PodName) = pod.(p_Name) ∧ req.(tr_PodUID) = pod.(p_UID) ∧
  sa = (if decide (pod.(p_ServiceAccountName) = "") then "default" else pod.(p_ServiceAccountName)).

(** A volume that the container mounts, and the name of the persistent volume
    to which a claim among them is bound. *)
Definition mounted (pod : Pod) (c : Container) (vol : Volume) : Prop :=
  ∃ vm, vm ∈ c.(c_VolumeMounts) ∧ volByName pod !! vm.(vm_Name) = Some vol.

Definition claimed (env : VEnv) (pod : Pod) (c : Container) (pvName : string) : Prop :=
  ∃ vol src t pvc, mounted pod c vol ∧ vol.(vol_PersistentVolumeClaim) = Some src ∧
    env.(ve_GetClaim) t pod.(p_Namespace) src.(pvv_ClaimName) = Some pvc ∧ pvc.(pvc_Phase) = ClaimBound ∧ pvName = pvc.(pvc_VolumeName).

(** Files are touched below the state directory; apart from that, the resolver
    makes the paths of host path volumes that the container mounts, and the
    staging directories of the persistent volumes that it claims. Only these are
    attached, to this node, and staged; objects are read in the pod's namespace.
    Nothing is detached. *)
Definition resolving (env : VEnv) (r : Resolver) (pod : Pod) (c : Container) (a : VAct) : Prop :=
  match a with
  | VFile op _ =>
      below (cleanComponents r.(r_stateDir)) (opPath op) = true ∨
      (∃ vol hp, mounted pod c vol ∧ vol.(vol_HostPath) = Some hp ∧
        (op = FMkdirAll (cleanComponents hp.(hpv_Path)) ∨ op = FMkdirAll (parent (cleanComponents hp.(hpv_Path))) ∨
         op = FCreate (cleanComponents hp.(hpv_Path)))) ∨
      (∃ pvName, claimed env pod c pvName ∧ op = FMkdirAll (cleanComponents (stagingPathOf pvName)))
  | VToken ns sa req => tokenFor pod ns sa req
  | VGetClaim ns _ | VGetConfigMap ns _ => ns = pod.(p_Namespace)
  | VAttach va => claimed env pod c va.(va_PV) ∧ va.(va_NodeName) = r.(r_hostNodeName)
  | VStage req _ => ∃ pvName, claimed env pod c pvName ∧ req.(st_StagingTargetPath) = stagingPathOf pvName
  | VDetach _ | VUnpublish _ _ | VUnstage _ _ _ => False
  | VGetPV _ | VWait | VGetAttachment _ _ | VConnect _ _ => True
  end.

(** Relative paths as the API server admits them. *)
Definition relative (path : string) : Prop := ".." ∉ splitOn "/" path.

Definition validItems (items : list KeyToPath) : Prop := Forall (λ it, relative it.(ktp_Path)) items.
Definition validKeys (data : gmap string string) : Prop := ∀ k v, data !! k = Some v → relative k.

Definition validSource (src : VolumeProjection) : Prop :=
  (∀ s, src.(vpr_ServiceAccountToken) = Some s → relative s.(sat_Path)) ∧
  (∀ s, src.(vpr_ConfigMap) = Some s → validItems s.(cmv_Items)) ∧
  (∀ l, src.(vpr_DownwardAPI) = Some l → Forall (λ it, relative it.(daf_Path)) l) ∧
  (∀ s, src.(vpr_Secret) = Some s → validItems s.(sev_Items)).

Record validVolume (vol : Volume) : Prop := {
  vv_name : plain vol.(vol_Name);
  vv_cm : ∀ s, vol.(vol_ConfigMap) = Some s → validItems s.(cmv_Items);
  vv_secret : ∀ s, vol.(vol_Secret) = Some s → validItems s.(sev_Items);
  vv_projected : ∀ l, vol.(vol_Projected) = Some l → Forall validSource l;
}.

(** The keys of the objects the resolver can get. *)
Record validObjects (env : VEnv) (r : Resolver) : Prop := {
  vo_listed : ∀ get ns name cm, r.(r_cmLister) = Some get → get ns name = Some cm → validKeys (cmEntries cm);
  vo_read : ∀ t ns name cm, env.(ve_GetConfigMap) t ns name = Some cm → validKeys (cmEntries cm);
  vo_secret : ∀ get ns name data, r.(r_secretLister) = Some get → get ns name = Some data → validKeys data;
}.

Lemma itemPaths_elem items k p : itemPaths items !! k = Some p → ∃ it, it ∈ items ∧ it.(ktp_Path) = p.
Proof.
  unfold itemPaths. enough (∀ m, foldl (λ m it, <[ktp_Key it := ktp_Path it]> m) m items !! k = Some p →
    m !! k = Some p ∨ ∃ it, it ∈ items ∧ ktp_Path it = p) as H by (intros [|]%H; [by rewrite lookup_empty in *|done]).
  induction items as [|it items IH]; intros m; cbn; [auto|]. intros [[[<- <-]|[_ ?]]%lookup_insert_Some|(it' & ? & ?)]%IH; [|auto|].
  - right. exists it. split; [constructor|done].
  - right. exists it'. split; [by constructor|done].
Qed.

Lemma keyToPath_relative items data k p : validItems items → validKeys data → keyToPath items data !! k = Some p → relative p.
Proof.
  intros Hi Hk. unfold keyToPath. case_decide.
  - unfold ownPaths. rewrite map_lookup_imap. intros (v & Hv & [= <-])%bind_Some. eauto.
  - intros (it & Hin & <-)%itemPaths_elem. unfold validItems in Hi. rewrite Forall_forall in Hi. auto.
Qed.

Lemma volByName_elem pod n vol : volByName pod !! n = Some vol → vol ∈ pod.(p_Volumes) ∧ vol.(vol_Name) = n.
Proof.
  unfold volByName. enough (∀ l m, foldl (λ m vol, <[vol_Name vol := vol]> m) m l !! n = Some vol →
    m !! n = Some vol ∨ vol ∈ l ∧ vol_Name vol = n) as H by (intros [|]%H; [by rewrite lookup_empty in *|done]).
  induction l as [|v l IH]; intros m; cbn; [auto|]. intros [[[<- <-]|[_ ?]]%lookup_insert_Some|[? ?]]%IH; [|auto|].
  - right. split; [constructor|done].
  - right. split; [by constructor|done].
Qed.

(** The two operations for a file of a volume stay below the state directory. *)
Lemma dest_below stateDir kind name path : isRooted stateDir = true → plain kind → plain name → relative path →
  below (cleanComponents stateDir) (dest (pathJoin [stateDir; kind; name]) path) = true ∧
  below (cleanComponents stateDir) (parent (dest (pathJoin [stateDir; kind; name]) path)) = true.
Proof.
  intros Hr Hk Hn Hp. destruct (pathJoin_names stateDir [kind; name]) as [Hr' Hc]; [done|by rewrite !Forall_cons, Forall_nil|done|].
  destruct (cleanComponents_inside _ path Hr' Hp) as [l Hl]. unfold dest. rewrite Hl, Hc.
  split; [rewrite <- List.app_assoc; apply below_app|].
  destruct (exists_last (l := [kind; name] ++ l)) as (l' & x & Hx); [by destruct l|].
  rewrite <- List.app_assoc, Hx, List.app_assoc, parent_snoc. apply below_app.
Qed.

Lemma validKeys_data cm data : validKeys (cmEntries cm) → cm.(cm_Data) = Some data → validKeys data.
Proof. intros H Hd k v Hk. apply (H k v). unfold cmEntries. rewrite Hd. cbn. by apply lookup_union_Some_l. Qed.

Section Confined.
Context (env : VEnv) (range : gmap string string → list (string * string)) (Hrange : ranges range).
Context (r : Resolver) (pod : Pod) (c : Container) (Hrooted : isRooted r.(r_stateDir) = true) (Hobj : validObjects env r).
#[local] Set Default Proof Using "Type".

Abbreviation P := (resolving env r pod c).
Abbreviation ns := pod.(p_Namespace).

Lemma only_file op : (∀ ans, P (VFile op ans)) → only P (file env op).
Proof.
  intros H t fs. apply wp_fsTry; intros; apply Forall_singleton, H.
Qed.

Lemma only_fileDo op : (∀ ans, P (VFile op ans)) → only P (fileDo env op).
Proof. intros H. unfold fileDo, fsDo. only_step; [by apply only_file|]. repeat only_step. Qed.

Lemma only_orThrow {A} e (a : option A) : only P (orThrow e a).
Proof. unfold orThrow. repeat only_step. Qed.

Lemma only_mkdir kind name : plain kind → plain name →
  only P (fileDo env (FMkdirAll (cleanComponents (pathJoin [r.(r_stateDir); kind; name])))).
Proof using Hrooted.
  intros Hk Hn. apply only_fileDo. intros ans. left. cbn.
  destruct (pathJoin_names (r_stateDir r) [kind; name]) as [_ ->]; [done|by rewrite !Forall_cons, Forall_nil|done|]. apply below_app.
Qed.

Lemma only_writeOpt kind name path (data : option string) : plain kind → plain name → relative path →
  let p := dest (pathJoin [r.(r_stateDir); kind; name]) path in
  only P (_ ← fileDo env (FMkdirAll (parent p)); match data with Some data => fileDo env (FWrite p data) | None => mret tt end).
Proof using Hrooted.
  intros Hk Hn Hp p. destruct (dest_below (r_stateDir r) kind name path) as [H1 H2]; [done..|].
  only_step; [apply only_fileDo; intros ans; by left|]. intros _. destruct data; [|only_step].
  apply only_fileDo. intros ans. by left.
Qed.

Lemma only_lookupConfigMap name t fs :
  wp (lookupConfigMap env r ns name) (λ res new _, Forall P new ∧ ∀ cm, res = inr cm → validKeys (cmEntries cm)) t fs.
Proof using Hobj.
  unfold lookupConfigMap. destruct (r_cmLister r ≫= _) as [cm|] eqn:E.
  - wp_step. split; [done|]. intros ? [= <-]. apply bind_Some in E as (get & Hg & E). by eapply vo_listed.
  - destruct (r_kubeClient r); [|by wp_step]. unfold GetConfigMap. wp_step. wp_step.
    unfold orThrow. destruct (ve_GetConfigMap _ _ _ _) eqn:E'; wp_step; (split; [by apply Forall_singleton|]); [|done].
    intros ? [= <-]. by eapply vo_read.
Qed.

Lemma only_writeConfigMap volName src : plain volName → validItems src.(cmv_Items) →
  only P (writeConfigMap env range r ns volName src).
Proof using Hobj Hrange Hrooted.
  intros Hn Hi. unfold writeConfigMap. eapply only_bind_wp; [apply only_lookupConfigMap|]. intros cm Hk.
  only_step; [by apply only_mkdir|]. intros _. only_step; [|intros _; only_step]. apply only_forM. intros [key path] Hin.
  rewrite (Hrange _), elem_of_map_to_list in Hin. apply only_writeOpt; [done|done|]. exact (keyToPath_relative _ _ key path Hi Hk Hin).
Qed.

(** The config map of a projected volume that is read from the API server. *)
Lemma only_readConfigMap name t fs :
  wp (if r.(r_kubeClient) then
        cm ← GetConfigMap env ns name;
        cm ← orThrow (ErrGet "ConfigMap" name) cm;
        data ← orThrow (ErrGet "ConfigMap" name) cm.(cm_Data);
        mret (data, cm.(cm_BinaryData))
      else throw (ErrGet "ConfigMap" name))
    (λ res new _, Forall P new ∧ ∀ db, res = inr db → validKeys db.1) t fs.
Proof using Hobj.
  destruct (r_kubeClient r); [|by wp_step]. unfold GetConfigMap, orThrow. wp_step. wp_step. wp_step.
  destruct (ve_GetConfigMap _ _ _ _) as [cm|] eqn:E; wp_step; [|split; [by apply Forall_singleton|done]]. wp_step.
  destruct (cm_Data cm) as [data|] eqn:Hd; wp_step; [|split; [by apply Forall_singleton|done]]. wp_step.
  split; [by apply Forall_singleton|]. intros ? [= <-]. eapply validKeys_data; [by eapply vo_read|done].
Qed.

Lemma only_secret get ns name t fs : r.(r_secretLister) = Some get →
  wp (orThrow (ErrGet "Secret" name) (get ns name)) (λ res new (_ : FS), Forall P new ∧ ∀ s, res = inr s → validKeys s) t fs.
Proof using Hobj.
  intros Hg. unfold orThrow. destruct (get ns name) eqn:E; wp_step; (split; [done|]); [|done]. intros ? [= <-]. by eapply vo_secret.
Qed.

Lemma only_writeSecret ns volName src : plain volName → validItems src.(sev_Items) →
  only P (writeSecret env range r ns volName src).
Proof using Hobj Hrange Hrooted.
  intros Hn Hi. unfold writeSecret. destruct (r_secretLister r) as [get|] eqn:Hg; [|only_step].
  eapply only_bind_wp; [intros t fs; exact (only_secret get _ _ t fs Hg)|]. intros secret Hk.
  only_step; [by apply only_mkdir|]. intros _. only_step; [|intros _; only_step]. apply only_forM. intros [key path] Hin.
  rewrite (Hrange _), elem_of_map_to_list in Hin. apply (only_writeOpt _ _ _ (Some _)); [done|done|]. exact (keyToPath_relative _ _ key path Hi Hk Hin).
Qed.

Lemma projectedItems_relative items data it : validItems items → validKeys data → it ∈ projectedItems range items data →
  relative it.(ktp_Path).
Proof using Hrange.
  intros Hi Hk. unfold projectedItems. case_decide; [|by unfold validItems in Hi; rewrite Forall_forall in Hi; auto].
  intros ([k v] & -> & Hin)%list_elem_of_fmap. rewrite (Hrange _), elem_of_map_to_list in Hin. by eapply Hk.
Qed.

Lemma only_projectedConfigMap name t fs :
  wp (projectedConfigMap env r ns name) (λ res new _, Forall P new ∧ ∀ db, res = inr db → validKeys db.1) t fs.
Proof using Hobj.
  unfold projectedConfigMap. case_decide; [by wp_step|]. destruct (r_cmLister r ≫= _) as [cm|] eqn:E; cbn [mbind option_bind].
  - destruct (cm_Data cm) as [data|] eqn:Hd.
    + wp_step. split; [done|]. intros ? [= <-]. apply bind_Some in E as (get & Hg & E).
      eapply validKeys_data; [by eapply vo_listed|done].
    + apply only_readConfigMap.
  - apply only_readConfigMap.
Qed.

Lemma only_writeSource volName src : plain volName → validSource src →
  only P (writeSource env range r pod (pathJoin [r.(r_stateDir); "projected"; volName]) src).
Proof using Hobj Hrange Hrooted.
  intros Hn (Hsat & Hcm & Hda & Hsec). unfold writeSource.
  destruct (vpr_ServiceAccountToken src) as [sat|]; [|destruct (vpr_ConfigMap src) as [cms|];
    [|destruct (vpr_DownwardAPI src) as [items|]; [|destruct (vpr_Secret src) as [ss|]; [|only_step]]]].
  - only_step; [|intros token; apply (only_writeOpt _ _ _ (Some _)); [done..|by apply Hsat]].
    unfold requestToken. destruct (r_kubeClient r); [|only_step]. only_step; [|intros a; apply only_orThrow].
    apply only_call. done.
  - eapply only_bind_wp; [intros t fs; apply only_projectedConfigMap|]. intros [data binary] Hk. apply only_forM. intros it Hin.
    apply (only_writeOpt _ _ _ (Some _)); [done..|]. eapply projectedItems_relative; [by apply Hcm|exact Hk|exact Hin].
  - apply only_forM. intros it Hin. specialize (Hda _ eq_refl). rewrite Forall_forall in Hda.
    pose proof (only_writeOpt "projected" volName (daf_Path it)) as Hw. cbn zeta in Hw.
    destruct (resolveDownwardAPIField range pod it) as [e|v].
    + only_step; [|intros; only_step]. apply only_fileDo. intros ans. left. by apply dest_below; [..|apply Hda].
    + apply (Hw (Some v)); [done|done|by apply Hda].
  - destruct (r_secretLister r) as [get|] eqn:Hg; [|only_step].
    eapply only_bind_wp; [intros t fs; exact (only_secret get _ _ t fs Hg)|]. intros secret Hk. apply only_forM. intros it Hin.
    apply (only_writeOpt _ _ _ (Some _)); [done..|]. eapply projectedItems_relative; [by apply Hsec|exact Hk|exact Hin].
Qed.

Lemma only_poll fuel name : only P (pollAttachment env fuel name).
Proof.
  induction fuel as [|fuel IH]; cbn [pollAttachment]; [only_step|]. unfold GetAttachment.
  repeat (only_step || apply only_orThrow || done). 
Qed.

Lemma only_resolveCSI pvName pv csi : claimed env pod c pvName → only P (resolveCSI env r pvName pv csi).
Proof.
  intros Hc. unfold resolveCSI, waitForAttachment, GetAttachment, NewCSIClient, NodeStageVolume.
  repeat match goal with
  | |- only _ (orThrow _ _) => apply only_orThrow
  | |- only _ (pollAttachment _ _ _) => apply only_poll
  | |- only _ (fileDo _ _) => apply only_fileDo; intros ans; right; right; eauto
  | |- resolving _ _ _ _ _ => cbn; eauto
  | _ => only_step
  end.
Qed.

Lemma only_resolvePVC vol src : mounted pod c vol → vol.(vol_PersistentVolumeClaim) = Some src →
  only P (resolvePVC env r ns src.(pvv_ClaimName)).
Proof.
  intros Hm Hsrc. unfold resolvePVC. destruct (r_kubeClient r); [|only_step].
  eapply (only_bind_wp _ (λ a, ∃ t, a = ve_GetClaim env t ns (pvv_ClaimName src))).
  { intros t fs. unfold GetClaim. wp_step. split; [by apply Forall_singleton|]. intros ? [= <-]. eauto. }
  intros pvc [t ->]. eapply (only_bind_wp _ (λ pvc, ve_GetClaim env t ns (pvv_ClaimName src) = Some pvc)).
  { intros t' fs. unfold orThrow. destruct (ve_GetClaim env t ns _); wp_step; split; [done|by intros ? [= <-]|done|done]. }
  intros pvc Hpvc. destruct (pvc_Phase pvc) eqn:Hph; [|only_step..].
  only_step; [by apply only_call|]. intros pv. only_step; [apply only_orThrow|]. intros pv'.
  destruct (pv_HostPath pv'); [only_step|]. destruct (pv_Local pv'); [only_step|]. destruct (pv_CSI pv'); [|only_step].
  apply only_resolveCSI. by exists vol, src, t, pvc.
Qed.

Lemma only_ensurePath vol hp : mounted pod c vol → vol.(vol_HostPath) = Some hp →
  only P (ensurePath env hp.(hpv_Path) hp.(hpv_Type)).
Proof.
  intros Hv Hp. unfold ensurePath.
  repeat match goal with
  | |- only _ (fileDo _ _) => apply only_fileDo; intros ans; right; left; eauto 10
  | |- only _ (file _ _) => apply only_file; intros ans; right; left; eauto 10
  | _ => only_step
  end.
Qed.

Lemma only_resolveVolume vol vm : mounted pod c vol → validVolume vol → only P (resolveVolume env range r pod vol vm).
Proof using Hobj Hrange Hrooted.
  intros Hv [Hn Hcm Hsec Hpr]. unfold resolveVolume, writeProjected.
  destruct (vol_HostPath vol) as [hp|] eqn:Hhp; [only_step; [by eapply only_ensurePath|intros; only_step]|].
  destruct (vol_EmptyDir vol); [only_step; [by apply only_mkdir|intros; only_step]|].
  destruct (vol_ConfigMap vol) as [cm|]; [only_step; [by apply only_writeConfigMap; [|apply Hcm]|intros; only_step]|].
  destruct (vol_Secret vol) as [ss|]; [only_step; [by apply only_writeSecret; [|apply Hsec]|intros; only_step]|].
  destruct (vol_PersistentVolumeClaim vol) as [pvc|] eqn:Hpvc; [only_step; [by eapply only_resolvePVC|intros; only_step]|].
  destruct (vol_Projected vol) as [sources|]; [|only_step]. only_step; [|intros; only_step].
  only_step; [by apply only_mkdir|]. intros _. only_step; [|intros; only_step]. apply only_forM. intros src Hin.
  apply only_writeSource; [done|]. specialize (Hpr _ eq_refl). rewrite Forall_forall in Hpr. auto.
Qed.

Lemma only_resolve : Forall validVolume pod.(p_Volumes) → only P (Resolve env range r pod c).
Proof using Hobj Hrange Hrooted.
  intros Hv. rewrite Forall_forall in Hv. unfold Resolve. generalize (@nil BindMount).
  assert (∀ vm, vm ∈ c_VolumeMounts c → vm ∈ c_VolumeMounts c) as Hin by done. revert Hin. generalize (c_VolumeMounts c) at 1 3.
  induction l as [|vm vms IH]; intros Hin mounts; cbn [resolve_loop]; [only_step|].
  destruct (volByName pod !! vm_Name vm) as [vol|] eqn:E; [|only_step]. pose proof E as [Hvol _]%volByName_elem.
  only_step; [apply only_resolveVolume; [exists vm; split; [apply Hin; constructor|done]|by apply Hv]|].
  intros bm. apply IH. intros vm' H. apply Hin. by constructor.
Qed.
End Confined.

(** ** The bind mounts *)

(** A claim leads to its bound volume. *)
Definition claimPath (env : VEnv) (ns claim path : string) : Prop :=
  ∃ t pvc t' pv, env.(ve_GetClaim) t ns claim = Some pvc ∧ pvc.(pvc_Phase) = ClaimBound ∧
    env.(ve_GetPV) t' pvc.(pvc_VolumeName) = Some pv ∧
    match pv.(pv_HostPath), pv.(pv_Local) with
    | Some p, _ => path = p
    | None, Some p => path = p
    | None, None => is_Some pv.(pv_CSI) ∧ path = stagingPathOf pvc.(pvc_VolumeName)
    end.

(** Where the data of a volume is on the host: the first source that is set
    decides. *)
Definition hostPathOf (env : VEnv) (r : Resolver) (ns : string) (vol : Volume) (path : string) : Prop :=
  match vol.(vol_HostPath), vol.(vol_EmptyDir), vol.(vol_ConfigMap), vol.(vol_Secret), vol.(vol_PersistentVolumeClaim),
        vol.(vol_Projected) with
  | Some hp, _, _, _, _, _ => path = hp.(hpv_Path)
  | None, true, _, _, _, _ => path = pathJoin [r.(r_stateDir); "emptydir"; vol.(vol_Name)]
  | None, false, Some _, _, _, _ => path = pathJoin [r.(r_stateDir); "configmap"; vol.(vol_Name)]
  | None, false, None, Some _, _, _ => path = pathJoin [r.(r_stateDir); "secret"; vol.(vol_Name)]
  | None, false, None, None, Some src, _ => claimPath env ns src.(pvv_ClaimName) path
  | None, false, None, None, None, Some _ => path = pathJoin [r.(r_stateDir); "projected"; vol.(vol_Name)]
  | None, false, None, None, None, None => False
  end.

(** Volumes that are mounted read-only whatever the container asks for. *)
Definition alwaysReadOnly (vol : Volume) : bool :=
  match vol.(vol_HostPath), vol.(vol_EmptyDir), vol.(vol_ConfigMap), vol.(vol_Secret), vol.(vol_PersistentVolumeClaim) with
  | Some _, _, _, _, _ | None, true, _, _, _ => false
  | None, false, None, None, Some src => src.(pvv_ReadOnly)
  | None, false, _, _, _ => true
  end.

Definition mountFor (env : VEnv) (r : Resolver) (pod : Pod) (vm : VolumeMount) (bm : BindMount) : Prop :=
  ∃ vol, volByName pod !! vm.(vm_Name) = Some vol ∧ hostPathOf env r pod.(p_Namespace) vol bm.(bm_HostPath) ∧
    bm.(bm_ContainerPath) = vm.(vm_MountPath) ∧ bm.(bm_Propagation) = default "" vm.(vm_MountPropagation) ∧
    bm.(bm_ReadOnly) = vm.(vm_ReadOnly) || alwaysReadOnly vol.

Section Mounts.
Context (env : VEnv) (range : gmap string string → list (string * string)).

(** The value that a computation returns, when it returns one. *)
Definition returns {A} (Q : A → Prop) (m : SE (TState VAct FS) VErr A) : Prop := ∀ s a, (m s).2 = inr a → Q a.

Lemma returns_ret {A} (Q : A → Prop) a : Q a → returns Q (mret a).
Proof. intros H s b [= <-]. done. Qed.
Lemma returns_throw {A} (Q : A → Prop) e : returns Q (throw e).
Proof. by intros s a. Qed.
Lemma returns_bind {A B} (Q' : A → Prop) (Q : B → Prop) m (f : A → SE (TState VAct FS) VErr B) :
  returns Q' m → (∀ a, Q' a → returns Q (f a)) → returns Q (m ≫= f).
Proof.
  intros Hm Hf s b. unfold mbind, SE_bind. specialize (Hm s). destruct (m s) as [s' [e|a]]; [done|]. apply Hf. by apply Hm.
Qed.
Lemma returns_any {A} (m : SE (TState VAct FS) VErr A) : returns (λ _, True) m.
Proof. done. Qed.
Lemma returns_call {A} (Q : A → Prop) answer record : (∀ t, Q (answer t)) → returns Q (callT answer record).
Proof. intros H s a [= <-]. apply H. Qed.
Lemma returns_orThrow {A} e (o : option A) : returns (λ a, o = Some a) (orThrow e o).
Proof. intros s a. unfold orThrow. by destruct o; intros [= ->]. Qed.

Lemma returns_last {A B} (Q : B → Prop) (m : SE (TState VAct FS) VErr A) (b : B) : Q b → returns Q (_ ← m; mret b).
Proof. intros H. eapply returns_bind; [apply returns_any|]. intros _ _. by apply returns_ret. Qed.

Lemma returns_writeConfigMap r ns volName src :
  returns (λ dir, dir = pathJoin [r.(r_stateDir); "configmap"; volName]) (writeConfigMap env range r ns volName src).
Proof.
  unfold writeConfigMap. eapply returns_bind; [apply returns_any|]. intros cm _. eapply returns_bind; [apply returns_any|].
  intros _ _. by apply returns_last.
Qed.

Lemma returns_writeSecret r ns volName src :
  returns (λ dir, dir = pathJoin [r.(r_stateDir); "secret"; volName]) (writeSecret env range r ns volName src).
Proof.
  unfold writeSecret. destruct (r_secretLister r); [|apply returns_throw]. eapply returns_bind; [apply returns_any|].
  intros secret _. eapply returns_bind; [apply returns_any|]. intros _ _. by apply returns_last.
Qed.

Lemma returns_resolveCSI r pvName pv csi : returns (λ path, path = stagingPathOf pvName) (resolveCSI env r pvName pv csi).
Proof.
  unfold resolveCSI. case_decide; [apply returns_throw|]. eapply returns_bind; [apply returns_any|]. intros ans _.
  case_decide; [apply returns_throw|]. do 3 (eapply returns_bind; [apply returns_any|]; intros ? _).
  eapply returns_bind; [apply returns_any|]. intros [] _; [|apply returns_throw].
  eapply returns_bind; [apply returns_any|]. intros _ _. eapply returns_bind; [apply returns_any|].
  intros [] _; [by apply returns_ret|apply returns_throw].
Qed.

Lemma returns_resolvePVC r ns claim : returns (claimPath env ns claim) (resolvePVC env r ns claim).
Proof.
  unfold resolvePVC. destruct (r_kubeClient r); [|apply returns_throw].
  eapply returns_bind; [apply (returns_call (λ o, ∃ t, o = ve_GetClaim env t ns claim)); eauto|]. intros ? [t ->].
  eapply returns_bind; [apply returns_orThrow|]. intros pvc Hpvc.
  destruct (pvc_Phase pvc) eqn:Hph; [|apply returns_throw..].
  eapply returns_bind; [apply (returns_call (λ o, ∃ t, o = ve_GetPV env t (pvc_VolumeName pvc))); eauto|]. intros ? [t' ->].
  eapply returns_bind; [apply returns_orThrow|]. intros pv Hpv. intros s path Hs. exists t, pvc, t', pv. split_and!; [done..|].
  destruct (pv_HostPath pv); [by injection Hs|]. destruct (pv_Local pv); [by injection Hs|].
  destruct (pv_CSI pv); [|done]. split; [done|]. by eapply returns_resolveCSI.
Qed.

Lemma returns_resolveVolume r pod vol vm : volByName pod !! vm.(vm_Name) = Some vol →
  returns (mountFor env r pod vm) (resolveVolume env range r pod vol vm).
Proof.
  intros Hv. unfold resolveVolume.
  assert (∀ path ro, hostPathOf env r (p_Namespace pod) vol path → ro = vm_ReadOnly vm || alwaysReadOnly vol →
    mountFor env r pod vm {| bm_HostPath := path; bm_ContainerPath := vm_MountPath vm; bm_ReadOnly := ro;
                             bm_Propagation := default "" (vm_MountPropagation vm) |}) as Hm.
  { intros path ro Hp ->. by exists vol. }
  unfold hostPathOf, alwaysReadOnly in Hm.
  destruct (vol_HostPath vol); [apply returns_last, Hm; [done|by rewrite orb_false_r]|].
  destruct (vol_EmptyDir vol); [apply returns_last, Hm; [done|by rewrite orb_false_r]|].
  destruct (vol_ConfigMap vol).
  { eapply returns_bind; [apply returns_writeConfigMap|]. intros dir ->. apply returns_ret, Hm; [done|by rewrite orb_true_r]. }
  destruct (vol_Secret vol).
  { eapply returns_bind; [apply returns_writeSecret|]. intros dir ->. apply returns_ret, Hm; [done|by rewrite orb_true_r]. }
  destruct (vol_PersistentVolumeClaim vol) as [src|].
  { eapply returns_bind; [|intros path Hp; apply returns_ret, Hm; [exact Hp|done]]. apply returns_resolvePVC. }
  destruct (vol_Projected vol); [|apply returns_throw].
  eapply returns_bind; [|intros dir Hd; apply returns_ret, Hm; [exact Hd|by rewrite orb_true_r]]. unfold writeProjected.
  eapply returns_bind; [apply returns_any|]. intros _ _. by apply returns_last.
Qed.

Lemma returns_resolve r pod name vms pre mounts : Forall2 (mountFor env r pod) pre mounts →
  returns (Forall2 (mountFor env r pod) (pre ++ vms)) (resolve_loop env range r pod name vms mounts).
Proof.
  revert pre mounts. induction vms as [|vm vms IH]; intros pre mounts H; cbn [resolve_loop].
  - apply returns_ret. by rewrite (right_id_L [] (++)).
  - destruct (volByName pod !! vm_Name vm) as [vol|] eqn:Hv; [|apply returns_throw].
    eapply returns_bind; [by apply returns_resolveVolume|]. intros bm Hbm.
    specialize (IH (pre ++ [vm]) (mounts ++ [bm])). rewrite <- List.app_assoc in IH. apply IH.
    apply Forall2_app; [done|]. by constructor.
Qed.
End Mounts.

(** C34: [Resolve] gives one bind mount for each volume mount of the container,
    in order, with the mount's path and propagation, from where the named
    volume's data is; config maps, secrets, projected volumes and read-only
    claims are read-only whatever the container asks for.  Whether it succeeds
    or fails, the files it touches are below the pod's volume directory, or it
    makes a declared host path of a volume that the container mounts, or the
    staging directory of a persistent volume to which one of its claims is
    bound; it attaches (to this node) and stages only such volumes, reads claims
    and config maps only in the pod's namespace, asks for tokens only for this
    pod, and detaches nothing.  Volume names, keys and paths are those that the
    API server admits. *)
Theorem volumes_resolved env range r pod c t fs :
  ranges range → isRooted r.(r_stateDir) = true → validObjects env r → Forall validVolume pod.(p_Volumes) →
  wp (Resolve env range r pod c) (λ res new _,
    (∀ mounts, res = inr mounts → Forall2 (mountFor env r pod) c.(c_VolumeMounts) mounts) ∧ Forall (resolving env r pod c) new) t fs.
Proof.
  intros Hr Hrooted Hobj Hv. apply wp_only.
  - assert (only (resolving env r pod c) (Resolve env range r pod c)) as Ho by by apply only_resolve.
    destruct (Ho t fs) as (res & new & fs' & Hm & _). exists res, new, fs'. split; [done|]. intros mounts ->.
    eapply (returns_resolve env range r pod (c_Name c) (c_VolumeMounts c) [] []); [constructor|]. unfold Resolve in Hm. by rewrite Hm.
  - by apply only_resolve.
Qed.

(** ** CSI volumes *)

Definition isWait (a : VAct) : bool := match a with VWait => true | _ => false end.
Definition isStage (a : VAct) : bool := match a with VStage _ _ => true | _ => false end.
Definition waits (new : list VAct) : nat := length (List.filter isWait new).

Definition sawAttached (name : string) (new : list VAct) : Prop :=
  ∃ st, VGetAttachment name (Some st) ∈ new ∧ st.(va_Attached) = true.

Lemma waits_app a b : waits (a ++ b) = waits a + waits b.
Proof. unfold waits. by rewrite List.filter_app, List.length_app. Qed.

Lemma poll_spec env fuel name t fs :
  wp (pollAttachment env fuel name) (λ res new fs', fs' = fs ∧ waits new <= fuel ∧ Forall (λ a, isStage a = false) new ∧
    (res = inr tt → sawAttached name new)) t fs.
Proof.
  revert t. induction fuel as [|fuel IH]; intros t; cbn [pollAttachment]; [by wp_step|]. wp_step. wp_step.
  destruct (ve_cancelled env t); [wp_step; split_and!; [done|cbn; lia|constructor|done]|].
  wp_step. wp_step. wp_step. unfold GetAttachment. wp_step. wp_step. unfold orThrow.
  destruct (ve_GetAttachment _ _ _) as [st|] eqn:Hst; wp_step.
  2: { split_and!; [done|cbn; lia|by repeat constructor|done]. }
  destruct (va_Attached st) eqn:Ha.
  - wp_step. split_and!; [done|cbn; lia|by repeat constructor|]. intros _. exists st. split; [set_solver|done].
  - eapply wp_conseq; [apply IH|]. intros res new fs' (-> & Hw & Hs & Hr). cbn. split_and!; [done|unfold waits in *; cbn; lia| |].
    + repeat constructor; done.
    + intros (st' & Hin & Hst')%Hr. exists st'. split; [set_solver|done].
Qed.

(** Staging comes last and once, after the attachment was created for this
    node and seen attached, with the parameters of the volume; the wait ends
    within its polls; and a path is returned only for a staged volume. *)
Lemma csi_staging env r pvName pv csi t fs :
  let name := sha256Hash env (pvName +:+ "/" +:+ r.(r_hostNodeName)) in
  wp (resolveCSI env r pvName pv csi) (λ res new _,
    waits new <= attachPolls ∧
    match res with
    | inl _ => True
    | inr path => ∃ pre req,
        new = pre ++ [VStage req true] ∧ Forall (λ a, isStage a = false) pre ∧
        VAttach {| va_Name := name; va_Attacher := csi.(csi_Driver); va_PV := pvName; va_NodeName := r.(r_hostNodeName) |} ∈ pre ∧
        sawAttached name pre ∧ req.(st_VolumeId) = csi.(csi_VolumeHandle) ∧ req.(st_StagingTargetPath) = path ∧
        req.(st_AccessMode) = pvAccessModeToCSI pv.(pv_AccessModes)
    end) t fs.
Proof.
  intros name. unfold resolveCSI. case_decide; [wp_step; cbn; split; [lia|done]|]. wp_step. wp_step.
  case_decide; [wp_step; cbn; split; [lia|done]|]. wp_step. unfold waitForAttachment.
  eapply wp_conseq; [apply poll_spec|]. intros res new1 fs1 (-> & Hw & Hs & Ha).
  set (va := VAttach _). assert (waits [va] = 0) as Hv by done.
  destruct res as [e|[]]; [rewrite waits_app, Hv; split; [lia|done]|]. specialize (Ha eq_refl).
  wp_step. unfold GetAttachment. wp_step. wp_step. unfold orThrow. destruct (ve_GetAttachment _ _ _) as [st|]; wp_step.
  2: { rewrite !waits_app, Hv. cbn. split; [lia|done]. }
  wp_step. unfold NewCSIClient. wp_step. destruct (ve_connect _ _ _); wp_step.
  2: { rewrite !waits_app, Hv. cbn. split; [lia|done]. }
  unfold fileDo, fsDo. wp_step. apply wp_fsTry; intros.
  1-2: rewrite decide_False by done; wp_step; rewrite !waits_app, Hv; cbn; (split; [lia|done]).
  rewrite decide_True by done. wp_step. wp_step. unfold NodeStageVolume. wp_step. destruct (ve_stage _ _ _); wp_step.
  2: { rewrite !waits_app, Hv. cbn. split; [lia|done]. }
  rewrite !waits_app, Hv. split; [cbn; lia|]. eexists ([va] ++ new1 ++ [_] ++ [_] ++ [_]), _.
  split; [rewrite <- !List.app_assoc; cbn; reflexivity|]. split_and!; [| | |done..].
  - rewrite !Forall_app, !Forall_singleton. done.
  - apply elem_of_app. left. constructor.
  - destruct Ha as (st' & Hin & Hst'). exists st'. split; [|done]. rewrite !elem_of_app. auto.
Qed.

(** ** The tracker's directories *)

Lemma pathJoin_string dir l : isRooted dir = true → Forall plain l → l ≠ [] →
  pathJoin (dir :: l) = "/" +:+ Join (cleanComponents dir ++ l) "/".
Proof.
  intros Hr Hl Hne. assert (pathJoin (dir :: l) = Clean (dir +:+ "/" +:+ Join l "/")) as ->.
  { unfold pathJoin. destruct dir; [done|]. by destruct l. }
  rewrite Clean_rooted by by apply isRooted_app. by rewrite cleanComponents_names.
Qed.

(** The directory that the tracker refreshes for a volume is the one that the
    resolver bound into the pod's containers. *)
Lemma tracked_dir_resolved env vt r uid pod key m : isRooted vt.(vt_baseDir) = true → Forall plain [vt.(vt_pawnName); uid] →
  r.(r_stateDir) = (NewResolver vt.(vt_baseDir) vt.(vt_pawnName) uid "" None None false).(r_stateDir) →
  Forall validVolume pod.(p_Volumes) → (key, m) ∈ podMounts vt uid pod →
  m.(vm_vol).(vol_HostPath) = None → m.(vm_vol).(vol_EmptyDir) = false →
  hostPathOf env r pod.(p_Namespace) m.(vm_vol) m.(vm_hostDir).
Proof.
  intros Hb [Hp [Hu _]%Forall_cons]%Forall_cons Hr Hv (vol & Hin & Hm)%list_elem_of_omap Hhp Hed.
  destruct (volumeKind vol) as [[kind name]|] eqn:Hk; [|done]. injection Hm as <- <-. cbn in *.
  rewrite Forall_forall in Hv. destruct (Hv _ Hin) as [Hn _ _ _].
  assert (plain kind ∧ (vol_ConfigMap vol = None → kind = "secret" ∧ is_Some (vol_Secret vol)) ∧ (is_Some (vol_ConfigMap vol) → kind = "configmap")) as (Hpk & Hs & Hc).
  { unfold volumeKind in Hk. destruct (vol_ConfigMap vol), (vol_Secret vol); simplify_eq; split_and!; try done; intros []; done. }
  assert (pathJoin [vt_baseDir vt; "pawns"; vt_pawnName vt; "pods"; uid; "volumes"; kind; vol_Name vol] =
          pathJoin [r_stateDir r; kind; vol_Name vol]) as ->.
  { rewrite Hr. cbn [NewResolver r_stateDir].
    destruct (pathJoin_names (vt_baseDir vt) ["pawns"; vt_pawnName vt; "pods"; uid; "volumes"]) as [Hr' Hc'];
      [done|by rewrite !Forall_cons, Forall_nil|done|].
    set (stateDir := pathJoin [vt_baseDir vt; "pawns"; vt_pawnName vt; "pods"; uid; "volumes"]) in *.
    rewrite !pathJoin_string by (done || by rewrite !Forall_cons, Forall_nil). rewrite Hc', <- List.app_assoc. done. }
  unfold hostPathOf. rewrite Hhp, Hed. destruct (vol_ConfigMap vol) as [c|]; [by rewrite Hc|].
  destruct Hs as [-> [s ->]]; done.
Qed.

(** ** Instances *)

(** Files never fail, objects are not found, drivers answer. *)
Definition demoVEnv : VEnv := {|
  ve_fails := λ _ _ _, None; ve_GetClaim := λ _ _ _, None; ve_GetPV := λ _ _, None; ve_GetConfigMap := λ _ _ _, None;
  ve_CreateToken := λ _ _ _ _, Some "token"; ve_Attach := λ _ _, Created; ve_GetAttachment := λ _ _, None;
  ve_cancelled := λ _, false; ve_connect := λ _ _, true; ve_stage := λ _ _, true; ve_unstage := λ _ _ _, true;
  ve_sha256 := λ s, s |}.

Definition rootFS : FS := {| fs_files := ∅; fs_dirs := {[ [] ]} |}.

Lemma rootFS_tree : tree rootFS.
Proof.
  split; cbn; [set_solver| | |done].
  - intros [|] x; set_solver.
  - intros p x [c Hc]. by rewrite lookup_empty in Hc.
Qed.

(** A file with its directories. *)
Definition putFile (p : Path) (data : string) (fs : FS) : FS := applyFS (FWrite p data) (applyFS (FMkdirAll (parent p)) fs).

Definition canPut (p : Path) (data : string) (fs : FS) : bool :=
  bool_decide (allowed (FMkdirAll (parent p)) fs = FSOk ∧ allowed (FWrite p data) (applyFS (FMkdirAll (parent p)) fs) = FSOk).

Lemma putFile_tree p data fs : tree fs → canPut p data fs = true → tree (putFile p data fs).
Proof. intros Ht [H1 H2]%bool_decide_eq_true. unfold putFile. apply applyFS_tree; [|done..]. by apply applyFS_tree. Qed.

Definition demoCM : ConfigMap := {| cm_Data := Some {[ "key" := "new" ]}; cm_BinaryData := ∅ |}.
Definition demoVolFS : FS := putFile ["s"; "old"] "stale" (putFile ["s"; "key"] "before" rootFS).

Lemma demoVolFS_tree : tree demoVolFS.
Proof. apply putFile_tree; [apply putFile_tree; [apply rootFS_tree|]|]; vm_compute; reflexivity. Qed.


Definition demoVolPod : Pod := {| zeroPod with p_Name := "web"; p_Namespace := "prod"; p_UID := "u1"; p_Volumes := [
  {| zeroVolume with vol_Name := "scratch"; vol_EmptyDir := true |};
  {| zeroVolume with vol_Name := "cfg"; vol_ConfigMap := Some {| cmv_Name := "settings"; cmv_Items := [] |} |}] |}.

Definition demoVolContainer : Container := {| zeroContainer with c_Name := "c"; c_VolumeMounts := [
  {| vm_Name := "cfg"; vm_MountPath := "/etc/app"; vm_ReadOnly := false; vm_MountPropagation := None |};
  {| vm_Name := "scratch"; vm_MountPath := "/tmp"; vm_ReadOnly := false; vm_MountPropagation := Some "Bidirectional" |}] |}.

Definition demoResolver : Resolver :=
  NewResolver "/var" "p" "u1" "host" (Some (λ ns name, if decide (name = "settings") then Some demoCM else None)) None true.

Lemma volumes_resolved_witness :
  let m := Resolve demoVEnv map_to_list demoResolver demoVolPod demoVolContainer in
  (m (Build_TState [] rootFS)).2 =
    inr [{| bm_HostPath := "/var/pawns/p/pods/u1/volumes/configmap/cfg"; bm_ContainerPath := "/etc/app"; bm_ReadOnly := true;
            bm_Propagation := "" |};
         {| bm_HostPath := "/var/pawns/p/pods/u1/volumes/emptydir/scratch"; bm_ContainerPath := "/tmp"; bm_ReadOnly := false;
            bm_Propagation := "Bidirectional" |}] ∧
  wp m (λ res new _, (∀ mounts, res = inr mounts →
      Forall2 (mountFor demoVEnv demoResolver demoVolPod) (c_VolumeMounts demoVolContainer) mounts) ∧
    Forall (resolving demoVEnv demoResolver demoVolPod demoVolContainer) new) [] rootFS.
Proof.
  split; [vm_compute; reflexivity|]. apply volumes_resolved.
  - intros m. reflexivity.
  - vm_compute. reflexivity.
  - split; [|intros ? ? ? ? [=]|intros ? ? ? ? [=]]. intros get ns name cm [= <-] Hcm. case_decide; [|done].
    injection Hcm as <-. intros k v Hk. replace (cmEntries demoCM) with ({[ "key" := "new" ]} : gmap string string) in Hk by by vm_compute.
    apply lookup_singleton_Some in Hk as [<- _]. unfold relative. apply (bool_decide_unpack _). vm_compute. exact I.
  - repeat (apply Forall_cons; split; [split; [unfold plain; split_and!; by vm_compute|..]|]); [..|constructor].
    1,2,3,5,6: by intros ? [=]. intros s [= <-]. constructor.
Defined.

(** ** Defects *)

(** The data of a CSI volume is lost when unstaging fails: the staging
    directory, where the volume is then still mounted, is removed with all that
    is in it. *)
Definition mountedEnv : VEnv := {| demoVEnv with
  ve_GetClaim := λ _ _ _, Some {| pvc_Phase := ClaimBound; pvc_VolumeName := "pv" |};
  ve_GetPV := λ _ _, Some {| pv_Name := "pv"; pv_HostPath := None; pv_Local := None; pv_AccessModes := [ReadWriteMany];
    pv_CSI := Some {| csi_Driver := "d"; csi_VolumeHandle := "h"; csi_VolumeAttributes := None |} |};
  ve_unstage := λ _ _ _, false |}.

Definition claimPod : Pod := {| zeroPod with p_Volumes := [
  {| zeroVolume with vol_Name := "data"; vol_PersistentVolumeClaim := Some {| pvv_ClaimName := "data"; pvv_ReadOnly := false |} |}] |}.

Definition volumeFile : Path := cleanComponents (stagingPathOf "pv") ++ ["db"].

Example unstage_failure_deletes_data :
  let fs := putFile volumeFile "rows" rootFS in
  let '(s, r) := CleanupCSI mountedEnv demoResolver (Some claimPod) (Build_TState [] fs) in
  r = inr tt ∧ fs.(fs_files) !! volumeFile = Some "rows" ∧ s.(t_data).(fs_files) !! volumeFile = None.
Proof. vm_compute. auto. Qed.

(** The same when the driver's socket is not there. *)
Example driver_down_deletes_data :
  let fs := putFile volumeFile "rows" rootFS in
  let '(s, r) := CleanupCSI {| mountedEnv with ve_connect := λ _ _, false |} demoResolver (Some claimPod) (Build_TState [] fs) in
  r = inr tt ∧ s.(t_data).(fs_files) !! volumeFile = None.
Proof. vm_compute. auto. Qed.

(** An item whose key is missing has no file at first, and an empty one after
    a refresh. *)
Example refresh_adds_empty_file :
  let src := {| cmv_Name := "settings"; cmv_Items := [{| ktp_Key := "gone"; ktp_Path := "f" |}] |} in
  let dir := "/var/pawns/p/pods/u1/volumes/configmap/cfg" in
  let s := (writeConfigMap demoVEnv map_to_list demoResolver "prod" "cfg" src (Build_TState [] rootFS)).1 in
  s.(t_data).(fs_files) !! dest dir "f" = None ∧
  (RefreshConfigMapDirect demoVEnv map_to_list demoCM src dir s).1.(t_data).(fs_files) !! dest dir "f" = Some "".
Proof. vm_compute. auto. Qed.

(** A projected volume refuses a config map that has only binary data. *)
Example projected_binary_refused :
  let r := {| demoResolver with r_cmLister := Some (λ _ _, Some {| cm_Data := None; cm_BinaryData := {[ "k" := "v" ]} |});
                                r_kubeClient := false |} in
  (projectedConfigMap demoVEnv r "prod" "settings" (Build_TState [] rootFS)).2 = inl (ErrGet "ConfigMap" "settings").
Proof. vm_compute. reflexivity. Qed.
