(* ===== verification/Resources.v ===== *)
(** * Resource limits and quality of service (node/lifecycle.go)

    The limits, the user and the OOM score of each container, from the pod
    spec. *)
From S2P Require Import Prelude Float64 Corev1 PodStore.

(** ** Limits *)

(** [rl[name]] with its presence, for a possibly nil list. *)
Definition rlookup (rl : option ResourceList) (name : string) : option Quantity := rl ≫= λ m, m !! name.

Definition calculateSwap (memBytes : Z) : Z := u64 (memBytes * 2).

Record ContainerLimits := { cl_mem : Z; cl_swap : Z; cl_cpuLimit : Z; cl_cpuRequest : Z }.

Definition extractResourceLimits (pod : Pod) (c : Container) : ContainerLimits :=
  let '(memBytes, swapBytes) := match rlookup c.(c_Resources).(Limits) "memory" with
    | Some mem => (u64 mem.(Value), calculateSwap (u64 mem.(Value)))
    | None => (0, 0)
    end%Z in
  let cpuLimit := match rlookup c.(c_Resources).(Limits) "cpu" with Some cpu => cpu.(MilliValue) | None => 0%Z end in
  let cpuRequest := match rlookup c.(c_Resources).(Requests) "cpu" with Some cpu => cpu.(MilliValue) | None => 0%Z end in
  match pod.(p_Resources) with
  | None => {| cl_mem := memBytes; cl_swap := swapBytes; cl_cpuLimit := cpuLimit; cl_cpuRequest := cpuRequest |}
  | Some res =>
      let '(memBytes, swapBytes) :=
        if (memBytes =? 0)%Z then
          match rlookup res.(Limits) "memory" with
          | Some mem => (u64 mem.(Value), calculateSwap (u64 mem.(Value)))
          | None => (memBytes, swapBytes)
          end
        else (memBytes, swapBytes) in
      let cpuLimit :=
        if (cpuLimit =? 0)%Z then
          match rlookup res.(Limits) "cpu" with Some cpu => cpu.(MilliValue) | None => cpuLimit end
        else cpuLimit in
      let cpuRequest :=
        if (cpuRequest =? 0)%Z then
          match rlookup res.(Requests) "cpu" with Some cpu => cpu.(MilliValue) | None => cpuRequest end
        else cpuRequest in
      {| cl_mem := memBytes; cl_swap := swapBytes; cl_cpuLimit := cpuLimit; cl_cpuRequest := cpuRequest |}
  end.

(** ** Quality of service *)

Inductive QOSClass := PodQOSBestEffort | PodQOSBurstable | PodQOSGuaranteed.

#[export] Instance QOSClass_eq_dec : EqDecision QOSClass.
Proof. solve_decision. Defined.

Definition hasResources (c : Container) : bool :=
  match c.(c_Resources).(Limits), c.(c_Resources).(Requests) with None, None => false | _, _ => true end.

Definition quantityIsZero (q : Quantity) : bool := (q.(MilliValue) =? 0)%Z && (q.(Value) =? 0)%Z.

(** The condition of the second loop, negated. *)
Definition isGuaranteedContainer (c : Container) : bool :=
  let get rl name := default zeroQuantity (rlookup rl name) in
  let memReq := get c.(c_Resources).(Requests) "memory" in
  let memLim := get c.(c_Resources).(Limits) "memory" in
  let cpuReq := get c.(c_Resources).(Requests) "cpu" in
  let cpuLim := get c.(c_Resources).(Limits) "cpu" in
  negb (quantityIsZero memReq || quantityIsZero memLim || quantityIsZero cpuReq || quantityIsZero cpuLim ||
        negb (memReq.(Value) =? memLim.(Value))%Z || negb (cpuReq.(MilliValue) =? cpuLim.(MilliValue))%Z).

Definition totalMemRequest (pod : Pod) : Z :=
  foldl (λ acc c, match rlookup c.(c_Resources).(Requests) "memory" with
                  | Some req => wrap64 (acc + req.(Value))
                  | None => acc
                  end) 0%Z pod.(p_Containers).

Definition burstableScore (total nodeMemoryBytes : Z) : Z :=
  Z.min (Z.max (wrap64 (2 + int_of_float64
    (fdiv (fmul (float64_of_int 1000) (float64_of_int total)) (float64_of_int nodeMemoryBytes)))) 2) 999.

Definition calculateOOMScore (pod : Pod) (nodeMemoryBytes : Z) : Z * QOSClass :=
  if negb (existsb hasResources pod.(p_Containers)) then (1000%Z, PodQOSBestEffort)
  else if forallb isGuaranteedContainer pod.(p_Containers) then ((-998)%Z, PodQOSGuaranteed)
  else if (0 <? nodeMemoryBytes)%Z && (0 <? totalMemRequest pod)%Z
  then (burstableScore (totalMemRequest pod) nodeMemoryBytes, PodQOSBurstable)
  else (2%Z, PodQOSBurstable).

(** ** Runtime profiles *)

Record containerRuntimeProfile := {
  MemoryLimitBytes : Z;
  SwapLimitBytes : Z;
  CPULimitMillis : Z;
  CPURequestMillis : Z;
  RunAsUser : option Z;
  RunAsGroup : option Z;
  OOMScoreAdjust : Z;
}.

(** The profile of a name that is not in the map. *)
Definition zeroProfile : containerRuntimeProfile := {|
  MemoryLimitBytes := 0; SwapLimitBytes := 0; CPULimitMillis := 0; CPURequestMillis := 0;
  RunAsUser := None; RunAsGroup := None; OOMScoreAdjust := 0 |}.

Definition effectiveRunAs (pod : Pod) (c : Container) : option Z * option Z :=
  let '(runAsUser, runAsGroup) := default (None, None) pod.(p_SecurityContext) in
  match c.(c_SecurityContext) with
  | None => (runAsUser, runAsGroup)
  | Some sc =>
      (match sc.(sc_RunAsUser) with Some u => Some u | None => runAsUser end,
       match sc.(sc_RunAsGroup) with Some g => Some g | None => runAsGroup end)
  end.

Definition isPrivileged (c : Container) : bool :=
  match c.(c_SecurityContext) with
  | Some sc => match sc.(sc_Privileged) with Some b => b | None => false end
  | None => false
  end.

Definition runtimeProfile (pod : Pod) (score : Z) (c : Container) : containerRuntimeProfile :=
  let l := extractResourceLimits pod c in
  let '(runAsUser, runAsGroup) := effectiveRunAs pod c in
  {| MemoryLimitBytes := l.(cl_mem); SwapLimitBytes := l.(cl_swap); CPULimitMillis := l.(cl_cpuLimit);
     CPURequestMillis := l.(cl_cpuRequest); RunAsUser := runAsUser; RunAsGroup := runAsGroup; OOMScoreAdjust := score |}.

Definition buildContainerRuntimeProfiles (pod : Pod) (nodeMemoryBytes : Z) : gmap string containerRuntimeProfile :=
  let score := (calculateOOMScore pod nodeMemoryBytes).1 in
  foldl (λ m c, <[c.(c_Name) := runtimeProfile pod score c]> m) ∅ (pod.(p_InitContainers) ++ pod.(p_Containers)).

(** ** Properties *)

(** The OOM score of a pod is decided by its class, and keeps the classes
    apart: a best-effort pod, none of whose containers declares resources, has
    1000; a guaranteed pod, all of whose containers have equal non-zero CPU and
    memory requests and limits, has -998; any other pod has between 2 and
    999.  The float computation stays within that range for every input. *)
Theorem oom_score_by_class pod nodeMemoryBytes :
  match calculateOOMScore pod nodeMemoryBytes with
  | (score, PodQOSBestEffort) => score = 1000%Z ∧ Forall (λ c, hasResources c = false) pod.(p_Containers)
  | (score, PodQOSGuaranteed) => score = (-998)%Z ∧ pod.(p_Containers) ≠ [] ∧
      Forall (λ c, ∃ mr ml cr cl,
        rlookup c.(c_Resources).(Requests) "memory" = Some mr ∧ rlookup c.(c_Resources).(Limits) "memory" = Some ml ∧
        rlookup c.(c_Resources).(Requests) "cpu" = Some cr ∧ rlookup c.(c_Resources).(Limits) "cpu" = Some cl ∧
        mr.(Value) = ml.(Value) ∧ cr.(MilliValue) = cl.(MilliValue)) pod.(p_Containers)
  | (score, PodQOSBurstable) => (2 <= score <= 999)%Z
  end.
Proof.
  unfold calculateOOMScore. destruct (existsb hasResources (p_Containers pod)) eqn:Hr; cbn [negb].
  - destruct (forallb isGuaranteedContainer (p_Containers pod)) eqn:Hg.
    + split_and!; [done|by intros Hn; rewrite Hn in Hr|]. apply Forall_forall. intros c Hc.
      apply forallb_forall with (x := c) in Hg; [|by apply list_elem_of_In]. unfold isGuaranteedContainer in Hg.
      apply negb_true_iff in Hg. rewrite !orb_false_iff, !negb_false_iff, !Z.eqb_eq in Hg.
      destruct Hg as [[[[[H1 H2] H3] H4] H5] H6].
      destruct (rlookup (Requests (c_Resources c)) "memory") as [mr|]; [|done].
      destruct (rlookup (Limits (c_Resources c)) "memory") as [ml|]; [|done].
      destruct (rlookup (Requests (c_Resources c)) "cpu") as [cr|]; [|done].
      destruct (rlookup (Limits (c_Resources c)) "cpu") as [cl|]; [|done]. naive_solver.
    + destruct (_ && _); [|lia]. unfold burstableScore. lia.
  - split; [done|]. apply Forall_forall. intros c Hc. destruct (hasResources c) eqn:Hc'; [|done].
    assert (existsb hasResources (p_Containers pod) = true); [|congruence].
    apply existsb_exists. exists c. split; [by apply list_elem_of_In|done].
Qed.

(** The score of a burstable pod grows with its memory request. *)
Example burstable_scores :
  map (λ gib, burstableScore (gib * 2 ^ 30) (16 * 2 ^ 30)) [0; 1; 4; 8; 16; 64]%Z = [2; 64; 252; 502; 999; 999]%Z.
Proof. vm_compute. reflexivity. Qed.
