(* ===== verification/Config.v ===== *)
(** * Configuration (internal/config/config.go, types.go)

    From the parsed TOML file to the configuration of the pawns: expansion of
    the pawn sets, the primary pawn, ports, quantities and taints. The parsers
    of Kubernetes for quantities and taints are arguments, and so is the order
    in which Go ranges over a map, of which only the contract is used. *)
From stdpp Require Import pretty sorting.
From S2P Require Import Prelude Monad Corev1 Text Runtime.
Import Str.

#[local] Arguments String.append !_ _ : simpl nomatch.
#[local] Set Default Proof Using "Type".

Record Taint := { t_Key : string; t_Value : string; t_Effect : string }.

#[export] Instance Taint_eq_dec : EqDecision Taint.
Proof. solve_decision. Defined.

Record RawCNIConfig := { rc_BinDir : string; rc_ConfDir : string; rc_Debug : bool }.
Record CNIConfig := { cni_BinDir : string; cni_ConfDir : string; cni_Debug : bool }.

Record RawGlobalConfig := {
  rg_PerigeosPort : Z;
  rg_DefaultCPU : string;
  rg_DefaultMemory : string;
  rg_ServerCAPath : string;
  rg_ServerCAKeyPath : string;
  rg_NodeIP : string;
  rg_Primary : bool;
  rg_CNI : option RawCNIConfig;
}.

Record RawPawnConfig := {
  rp_Port : Z;
  rp_Labels : gmap string string;
  rp_Taints : gmap string string;
  rp_NodeIP : string;
  rp_CreateConcurrency : Z;
  rp_CPU : string;
  rp_Memory : string;
  rp_CPUWeight : Z;
  rp_IOReadBandwidthMax : string;
  rp_IOWriteBandwidthMax : string;
}.

Record RawPawnSetConfig := { rs_Count : Z; rs_Pawn : RawPawnConfig }.

Record RawPerigeosConfig := {
  r_Global : RawGlobalConfig;
  r_Pawns : gmap string RawPawnConfig;
  r_PawnSets : gmap string RawPawnSetConfig;
}.

Record GlobalConfig := {
  g_PerigeosPort : Z;
  g_DefaultCPU : Quantity;
  g_DefaultMemory : Quantity;
  g_BaseDir : string;
  g_ServerCAPath : string;
  g_ServerCAKeyPath : string;
  g_Primary : bool;
  g_CNI : option CNIConfig;
}.

Record PawnConfig := {
  pcf_Name : string;
  pcf_Port : Z;
  pcf_NodeIP : string;
  pcf_BaseDir : string;
  pcf_IsPrimary : bool;
  pcf_Labels : gmap string string;
  pcf_Taints : list Taint;
  pcf_CreateConcurrency : Z;
  pcf_CPU : Quantity;
  pcf_Memory : Quantity;
  pcf_CPUWeight : Z;
  pcf_IOReadBandwidthMax : Quantity;
  pcf_IOWriteBandwidthMax : Quantity;
}.

Definition zeroPawnConfig : PawnConfig := {|
  pcf_Name := ""; pcf_Port := 0; pcf_NodeIP := ""; pcf_BaseDir := ""; pcf_IsPrimary := false; pcf_Labels := ∅;
  pcf_Taints := []; pcf_CreateConcurrency := 0; pcf_CPU := zeroQuantity; pcf_Memory := zeroQuantity;
  pcf_CPUWeight := 0; pcf_IOReadBandwidthMax := zeroQuantity; pcf_IOWriteBandwidthMax := zeroQuantity |}.

Record PerigeosConfig := { pg_Global : GlobalConfig; pg_Pawns : list PawnConfig }.

Inductive ConfErr :=
  | ErrInvalidCPUFormat
  | ErrInvalidPercentValue
  | ErrQuantity (what text : string)
  | ErrSetCollision (name : string)
  | ErrPrimaryConflict (name : string)
  | ErrPortCollision (port : Z)
  | ErrTaints (name : string).

(** ** CPU quantities *)

(** The match of [^(\d+)%$]: its digits. *)
Fixpoint allDigits (s : string) : bool :=
  match s with
  | EmptyString => true
  | String c s => bool_decide (is_Some (digit c)) && allDigits s
  end.

Definition percentDigits (c : string) : option string :=
  let number := trim_suffix c "%" in
  if has_suffix c "%" && negb (bool_decide (number = "")) && allDigits number then Some number else None.

Definition maxInt64 : Z := 2 ^ 63 - 1.

Fixpoint parseInt_loop (base : Z) (s : string) (n : Z) : option Z :=
  match s with
  | EmptyString => Some n
  | String c s =>
      d ← digit c;
      if (d <? base)%Z && (n * base + d <=? maxInt64)%Z then parseInt_loop base s (n * base + d) else None
  end.

(** [strconv.ParseInt(s, 0, 0)] on digits: a leading zero selects base 8. *)
Definition parseInt_base0 (s : string) : option Z :=
  match s with
  | EmptyString => None
  | String "0" s => parseInt_loop 8 s 0
  | _ => parseInt_loop 10 s 0
  end.

(** ** Pawn sets *)

(** [strings.Repeat("0", n)] *)
Fixpoint zeros (n : nat) : string := match n with O => "" | S n => String "0" (zeros n) end.

(** [%0<width>d] *)
Definition padded (width : nat) (i : nat) : string :=
  let s := pretty (Z.of_nat i) in zeros (width - len s) +:+ s.

Definition setWidth (count : Z) : nat := len (pretty (Z.max (count - 1) 0)).

Definition generatedName (setName : string) (count : Z) (i : nat) : string :=
  setName +:+ "-" +:+ padded (setWidth count) i.

(** The pawns that a set stands for. *)
Definition setMembers (setName : string) (setCfg : RawPawnSetConfig) : list (string * RawPawnConfig) :=
  map (λ i, (generatedName setName setCfg.(rs_Count) i,
             let p := setCfg.(rs_Pawn) in {| p with rp_Port := 0 |}))
      (seq 0 (Z.to_nat setCfg.(rs_Count))).

Fixpoint addMembers (l : list (string * RawPawnConfig)) (pawns : gmap string RawPawnConfig)
    : ConfErr + gmap string RawPawnConfig :=
  match l with
  | [] => inr pawns
  | (name, cfg) :: l =>
      match pawns !! name with
      | Some _ => inl (ErrSetCollision name)
      | None => addMembers l (<[name := cfg]> pawns)
      end
  end.

(** ** Ports *)

(** Pass 1: the ports the file names. *)
Fixpoint reservePorts (l : list (string * RawPawnConfig)) (usedPorts : gset Z) : ConfErr + gset Z :=
  match l with
  | [] => inr usedPorts
  | (_, pawn) :: l =>
      if decide (pawn.(rp_Port) = 0%Z) then reservePorts l usedPorts
      else if decide (pawn.(rp_Port) ∈ usedPorts) then inl (ErrPortCollision pawn.(rp_Port))
      else reservePorts l ({[ pawn.(rp_Port) ]} ∪ usedPorts)
  end.

(** [for usedPorts[nextPort] { nextPort++ }], with a bound on the iterations
    that [freePort_free] shows to be enough. *)
Fixpoint freePort_loop (fuel : nat) (usedPorts : gset Z) (p : Z) : Z :=
  match fuel with
  | O => p
  | S fuel => if decide (p ∈ usedPorts) then freePort_loop fuel usedPorts (p + 1) else p
  end.

Definition freePort (usedPorts : gset Z) (p : Z) : Z := freePort_loop (S (size usedPorts)) usedPorts p.

(** The port of a pawn, with the ports used and the next port after it. *)
Definition assignPort (port : Z) (usedPorts : gset Z) (nextPort : Z) : Z * gset Z * Z :=
  if decide (port = 0%Z) then
    let p := freePort usedPorts nextPort in (p, {[ p ]} ∪ usedPorts, (p + 1)%Z)
  else (port, usedPorts, nextPort).

Definition deriveCPUWeight (cpu : Quantity) (configuredWeight : Z) : Z :=
  if (0 <? configuredWeight)%Z then configuredWeight else MilliCPUToCPUWeight cpu.(MilliValue).

Definition constellationSocketPath : string := "/var/run/cilium/cilium.sock".

(** [exists_] is whether [os.Stat] finds the path. *)
Definition buildCNIConfig (exists_ : string → bool) (raw : option RawCNIConfig) : option CNIConfig :=
  raw ← match raw with
        | Some raw => Some raw
        | None => if exists_ constellationSocketPath then Some {| rc_BinDir := ""; rc_ConfDir := ""; rc_Debug := false |}
                  else None
        end;
  Some {| cni_BinDir := if decide (raw.(rc_BinDir) = "") then "/opt/cni/bin" else raw.(rc_BinDir);
          cni_ConfDir := if decide (raw.(rc_ConfDir) = "") then "/etc/cni/net.d/constellation" else raw.(rc_ConfDir);
          cni_Debug := raw.(rc_Debug) |}.

Definition defaultCAPath : string := "/var/lib/rancher/k3s/server/tls/server-ca.crt".
Definition defaultCAKeyPath : string := "/var/lib/rancher/k3s/server/tls/server-ca.key".

(** ** Names and ports *)

Lemma addMembers_fresh l pawns pawns' name cfg :
  addMembers l pawns = inr pawns' → pawns !! name = Some cfg → name ∉ l.*1.
Proof.
  revert pawns. induction l as [|[n c] l IH]; cbn; intros pawns H Hname; [apply not_elem_of_nil|].
  destruct (pawns !! n) eqn:Hn; [done|]. assert (name ≠ n) as Hne by congruence.
  apply not_elem_of_cons. split; [done|]. eapply IH; [exact H|]. by rewrite lookup_insert_ne.
Qed.

Lemma addMembers_spec l pawns pawns' : addMembers l pawns = inr pawns' →
  NoDup l.*1 ∧ ∀ name cfg, pawns' !! name = Some cfg ↔ pawns !! name = Some cfg ∨ (name, cfg) ∈ l.
Proof.
  revert pawns. induction l as [|[n c] l IH]; cbn; intros pawns H.
  { injection H as <-. split; [constructor|]. intros. rewrite elem_of_nil. tauto. }
  destruct (pawns !! n) eqn:Hn; [done|]. destruct (IH _ H) as [Hnd Hl].
  assert (n ∉ l.*1) as Hnew by (eapply addMembers_fresh; [exact H|apply lookup_insert_eq]).
  split; [by constructor|]. intros name cfg. rewrite Hl, elem_of_cons. destruct (decide (name = n)) as [->|Hne].
  - rewrite lookup_insert_eq, Hn. split; [|intros [?|[?|?]]; simplify_eq; eauto].
    intros [[= ->]|Hin]; [by right; left|]. exfalso. apply Hnew. apply list_elem_of_fmap. by exists (n, cfg).
  - rewrite lookup_insert_ne by done. split; [naive_solver|]. intros [?|[?|?]]; simplify_eq; eauto.
Qed.

(** The bound of the search for a free port is enough. *)
Lemma freePort_loop_free fuel used p :
  (size (filter (λ q, (p <= q)%Z) used) < fuel) →
  (freePort_loop fuel used p ∉ used) ∧ (p <= freePort_loop fuel used p)%Z.
Proof.
  revert p. induction fuel as [|fuel IH]; intros p Hsize; [lia|]. cbn.
  destruct (decide (p ∈ used)) as [Hin|Hout]; [|split; [done|lia]].
  destruct (IH (p + 1)%Z) as [H1 H2]; [|split; [done|lia]].
  assert (filter (λ q, (p <= q)%Z) used = {[ p ]} ∪ (filter (λ q, (p + 1 <= q)%Z) used)) as Heq.
  { apply set_eq. intros q. rewrite elem_of_union, !elem_of_filter, elem_of_singleton.
    split; [|intros [->|[? ?]]; split; [lia|done|lia|done]].
    intros [Hq Hu]. destruct (decide (q = p)); [by left|right; split; [lia|done]]. }
  rewrite Heq, size_union, size_singleton in Hsize; [lia|]. intros q ->%elem_of_singleton [Hq _]%elem_of_filter. lia.
Qed.

Lemma freePort_free used p : (freePort used p ∉ used) ∧ (p <= freePort used p)%Z.
Proof.
  apply freePort_loop_free. apply Nat.lt_succ_r, subseteq_size. intros q [_ Hq]%elem_of_filter. done.
Qed.

(** The manual ports are distinct and all reserved. *)
Definition manualPorts (l : list (string * RawPawnConfig)) : list Z :=
  filter (λ p, p ≠ 0%Z) (map (λ kv, kv.2.(rp_Port)) l).

Lemma manualPorts_cons n raw l : manualPorts ((n, raw) :: l) =
  if decide (rp_Port raw = 0%Z) then manualPorts l else rp_Port raw :: manualPorts l.
Proof.
  unfold manualPorts. cbn [map snd]. destruct (decide (rp_Port raw = 0%Z)).
  - rewrite filter_cons_False; [done|]. by intros ?.
  - by rewrite filter_cons_True.
Qed.

Lemma reservePorts_spec l used used' : reservePorts l used = inr used' →
  NoDup (manualPorts l) ∧ (∀ p, p ∈ manualPorts l → p ∉ used) ∧ used' = used ∪ list_to_set (manualPorts l).
Proof.
  revert used. induction l as [|[n c] l IH]; intros used H; cbn [reservePorts] in H.
  { injection H as <-. split_and!; [constructor|set_solver|set_solver]. }
  rewrite manualPorts_cons. destruct (decide (rp_Port c = 0%Z)) as [Hz|Hz]; [by apply IH|]. destruct (decide (rp_Port c ∈ used)) as [Hin|Hout]; [done|].
  destruct (IH _ H) as (Hnd & Hfresh & ->). split_and!.
  - constructor; [|done]. intros Hin. specialize (Hfresh _ Hin). set_solver.
  - intros p [->|Hp]%elem_of_cons; [done|]. specialize (Hfresh _ Hp). set_solver.
  - cbn. set_solver.
Qed.

Definition entries (pawns : gmap string RawPawnConfig) (names : list string) : list (string * RawPawnConfig) :=
  omap (λ n, pair n <$> pawns !! n) names.

Lemma entries_cons pawns n names raw : pawns !! n = Some raw → entries pawns (n :: names) = (n, raw) :: entries pawns names.
Proof. intros H. unfold entries. cbn. by rewrite H. Qed.

Lemma entries_keys pawns (l : list (string * RawPawnConfig)) :
  (∀ n c, (n, c) ∈ l → pawns !! n = Some c) → entries pawns l.*1 = l.
Proof.
  induction l as [|[n c] l IH]; intros Hl; [done|]. cbn [fmap list_fmap fst].
  rewrite (entries_cons _ _ _ c); [|apply Hl; constructor]. rewrite IH; [done|]. intros. apply Hl. by constructor.
Qed.

Lemma manualPorts_perm l l' : l ≡ₚ l' → manualPorts l ≡ₚ manualPorts l'.
Proof. intros H. unfold manualPorts. by rewrite H. Qed.

Section Process.
(** [resource.ParseQuantity], [taints.ParseTaints], the order of a [range]
    over a map and [os.Hostname] (empty on an error). *)
Context (ParseQuantity : string → option Quantity) (ParseTaints : list string → option (list Taint)).
Context (range : ∀ A : Type, gmap string A → list (string * A)).
Context (hostName : string).

Definition parseCPU (c : string) (defaultCPU : Quantity) : ConfErr + Quantity :=
  if decide (c = "") then inr defaultCPU
  else match ParseQuantity c with
       | Some q => inr q
       | None =>
           match percentDigits c with
           | None => inl ErrInvalidCPUFormat
           | Some number =>
               match parseInt_base0 number with
               | None => inl ErrInvalidPercentValue
               | Some percent =>
                   let text := pretty (wrap64 (percent * 10)) +:+ "m" in
                   orErr (ErrQuantity "cpu" text) (ParseQuantity text)
               end
           end
       end.

Definition primaryPawn (r : RawPerigeosConfig) : RawPawnConfig := {|
  rp_Port := r.(r_Global).(rg_PerigeosPort); rp_Labels := ∅; rp_Taints := ∅;
  rp_NodeIP := r.(r_Global).(rg_NodeIP); rp_CreateConcurrency := 0; rp_CPU := r.(r_Global).(rg_DefaultCPU);
  rp_Memory := r.(r_Global).(rg_DefaultMemory); rp_CPUWeight := 0;
  rp_IOReadBandwidthMax := ""; rp_IOWriteBandwidthMax := "" |}.

(** The sets and the primary pawn are added to the pawns of the file. *)
Definition expandPawns (r : RawPerigeosConfig) : ConfErr + gmap string RawPawnConfig :=
  pawns ← addMembers (flat_map (λ '(setName, setCfg), setMembers setName setCfg) (range _ r.(r_PawnSets))) r.(r_Pawns);
  if r.(r_Global).(rg_Primary) && negb (bool_decide (hostName = "")) then
    match pawns !! hostName with
    | Some _ => inl (ErrPrimaryConflict hostName)
    | None => inr (<[hostName := primaryPawn r]> pawns)
    end
  else inr pawns.

Definition sortedNames (pawns : gmap string RawPawnConfig) : list string := sortStrings (range _ pawns).*1.

(** The zero quantity when the text is empty. *)
Definition optionalQuantity (what text : string) : ConfErr + Quantity :=
  if decide (text = "") then inr zeroQuantity else orErr (ErrQuantity what text) (ParseQuantity text).

Definition buildPawn (r : RawPerigeosConfig) (baseDir : string) (defaultCPU defaultMemory : Quantity)
    (name : string) (currentPawn : RawPawnConfig) (assignedPort : Z) : ConfErr + PawnConfig :=
  cpu ← parseCPU currentPawn.(rp_CPU) defaultCPU;
  mem ← (if decide (currentPawn.(rp_Memory) = "") then inr defaultMemory
         else orErr (ErrQuantity "memory" currentPawn.(rp_Memory)) (ParseQuantity currentPawn.(rp_Memory)));
  pawnTaints ← orErr (ErrTaints name)
                 (ParseTaints (map (λ '(key, val), key +:+ "=" +:+ val) (range _ currentPawn.(rp_Taints))));
  ioRead ← optionalQuantity "io_read_bandwidth_max" currentPawn.(rp_IOReadBandwidthMax);
  ioWrite ← optionalQuantity "io_write_bandwidth_max" currentPawn.(rp_IOWriteBandwidthMax);
  mret {|
    pcf_Name := name; pcf_Port := assignedPort; pcf_NodeIP := currentPawn.(rp_NodeIP); pcf_BaseDir := baseDir;
    pcf_IsPrimary := r.(r_Global).(rg_Primary) && bool_decide (name = hostName);
    pcf_Labels := currentPawn.(rp_Labels); pcf_Taints := pawnTaints;
    pcf_CreateConcurrency := currentPawn.(rp_CreateConcurrency); pcf_CPU := cpu; pcf_Memory := mem;
    pcf_CPUWeight := deriveCPUWeight cpu currentPawn.(rp_CPUWeight);
    pcf_IOReadBandwidthMax := ioRead; pcf_IOWriteBandwidthMax := ioWrite |}.

(** The loop over the sorted names; a name is always in the map. *)
Fixpoint buildPawns (r : RawPerigeosConfig) (baseDir : string) (defaultCPU defaultMemory : Quantity)
    (pawns : gmap string RawPawnConfig) (names : list string) (usedPorts : gset Z) (nextPort : Z)
    : ConfErr + list PawnConfig :=
  match names with
  | [] => inr []
  | name :: names =>
      match pawns !! name with
      | None => buildPawns r baseDir defaultCPU defaultMemory pawns names usedPorts nextPort
      | Some currentPawn =>
          let '(assignedPort, usedPorts, nextPort) := assignPort currentPawn.(rp_Port) usedPorts nextPort in
          pawn ← buildPawn r baseDir defaultCPU defaultMemory name currentPawn assignedPort;
          rest ← buildPawns r baseDir defaultCPU defaultMemory pawns names usedPorts nextPort;
          mret (pawn :: rest)
      end
  end.

Definition Process (exists_ : string → bool) (r : RawPerigeosConfig) (baseDir : string) : ConfErr + PerigeosConfig :=
  let g := r.(r_Global) in
  (* [MustParse] panics on an error *)
  baseCPU ← orErr (ErrQuantity "base" "100m") (ParseQuantity "100m");
  defaultCPU ← parseCPU g.(rg_DefaultCPU) baseCPU;
  defaultMemory ← orErr (ErrQuantity "DefaultMemory" g.(rg_DefaultMemory)) (ParseQuantity g.(rg_DefaultMemory));
  let global := {|
    g_PerigeosPort := g.(rg_PerigeosPort); g_DefaultCPU := defaultCPU; g_DefaultMemory := defaultMemory;
    g_BaseDir := baseDir;
    g_ServerCAPath := if decide (g.(rg_ServerCAPath) = "") then defaultCAPath else g.(rg_ServerCAPath);
    g_ServerCAKeyPath := if decide (g.(rg_ServerCAKeyPath) = "") then defaultCAKeyPath else g.(rg_ServerCAKeyPath);
    g_Primary := g.(rg_Primary); g_CNI := buildCNIConfig exists_ g.(rg_CNI) |} in
  pawns ← expandPawns r;
  usedPorts ← reservePorts (range _ pawns) ∅;
  list ← buildPawns r baseDir defaultCPU defaultMemory pawns (sortedNames pawns) usedPorts (g.(rg_PerigeosPort) + 1);
  mret {| pg_Global := global; pg_Pawns := list |}.

(** ** Lemmas *)

Lemma buildPawn_fields r baseDir dc dm name raw port pawn : buildPawn r baseDir dc dm name raw port = inr pawn →
  pawn.(pcf_Name) = name ∧ pawn.(pcf_Port) = port ∧ pawn.(pcf_BaseDir) = baseDir ∧
  pawn.(pcf_IsPrimary) = r.(r_Global).(rg_Primary) && bool_decide (name = hostName).
Proof.
  unfold buildPawn. intros (cpu & _ & H)%sum_bind_inr. apply sum_bind_inr in H as (mem & _ & H).
  apply sum_bind_inr in H as (ts & _ & H). apply sum_bind_inr in H as (ir & _ & H).
  apply sum_bind_inr in H as (iw & _ & H). injection H as <-. done.
Qed.

(** What the loop keeps about the ports: those it has not met yet are either
    named in the file and reserved, or chosen free. *)
Definition pawn_as (r : RawPerigeosConfig) (baseDir : string) (pawns : gmap string RawPawnConfig) (next : Z) (pc : PawnConfig) : Prop :=
  ∃ raw, pawns !! pc.(pcf_Name) = Some raw ∧ pc.(pcf_BaseDir) = baseDir ∧
    pc.(pcf_IsPrimary) = r.(r_Global).(rg_Primary) && bool_decide (pc.(pcf_Name) = hostName) ∧
    if decide (raw.(rp_Port) = 0%Z) then (next <= pc.(pcf_Port))%Z else pc.(pcf_Port) = raw.(rp_Port).

Lemma pawn_as_mono r baseDir pawns next next' pc :
  (next <= next')%Z → pawn_as r baseDir pawns next' pc → pawn_as r baseDir pawns next pc.
Proof. intros Hn (raw & ? & ? & ? & Hp). exists raw. split_and!; [done..|]. case_decide; [lia|done]. Qed.

Lemma buildPawns_spec r baseDir dc dm pawns names : ∀ used next out,
  (∀ n, n ∈ names → is_Some (pawns !! n)) → NoDup (manualPorts (entries pawns names)) →
  (∀ p, p ∈ manualPorts (entries pawns names) → p ∈ used) →
  buildPawns r baseDir dc dm pawns names used next = inr out →
  map pcf_Name out = names ∧ NoDup (map pcf_Port out) ∧
  (∀ p, p ∈ map pcf_Port out → p ∈ manualPorts (entries pawns names) ∨ p ∉ used) ∧
  Forall (pawn_as r baseDir pawns next) out.
Proof.
  induction names as [|n names IH]; intros used next out Hsome Hnd Hused H.
  { injection H as <-. split_and!; [done|constructor|intros p Hp; by apply elem_of_nil in Hp|constructor]. }
  destruct (Hsome n) as [raw Hraw]; [constructor|]. cbn in H. rewrite Hraw in H.
  rewrite (entries_cons _ _ _ _ Hraw), manualPorts_cons in *. unfold assignPort in H.
  assert (∀ n, n ∈ names → is_Some (pawns !! n)) as Hsome' by (intros ? ?; apply Hsome; by constructor).
  destruct (decide (rp_Port raw = 0%Z)) as [Hz|Hz]; apply sum_bind_inr in H as (pawn & Hpawn & H);
    apply sum_bind_inr in H as (rest & Hrest & H); injection H as <-;
    apply buildPawn_fields in Hpawn as (Hname & Hport & Hbase & Hprim).
  - destruct (freePort_free used next) as [Hfree Hge]. set (p := freePort used next) in *.
    destruct (IH ({[ p ]} ∪ used) (p + 1)%Z rest) as (Hn & Hnd' & Hin & Hall); [done|done|set_solver|done|].
    split_and!; [by cbn; rewrite Hname, Hn| | |].
    + cbn. rewrite Hport. constructor; [|done]. intros Hp. destruct (Hin _ Hp) as [Hm|Hm]; [|set_solver].
      apply Hfree, Hused, Hm.
    + intros q. cbn. rewrite Hport. intros [->|Hq]%elem_of_cons; [by right|]. destruct (Hin _ Hq); [by left|right; set_solver].
    + constructor.
      * exists raw. rewrite Hname. split_and!; [done..|]. rewrite decide_True by done. rewrite Hport. lia.
      * eapply Forall_impl; [exact Hall|]. intros pc. apply pawn_as_mono. lia.
  - apply NoDup_cons in Hnd as [Hnew Hnd].
    destruct (IH used next rest) as (Hn & Hnd' & Hin & Hall); [done|done|set_solver|done|].
    split_and!; [by cbn; rewrite Hname, Hn| | |].
    + cbn. rewrite Hport. constructor; [|done]. intros Hp. destruct (Hin _ Hp) as [Hm|Hm]; [done|].
      apply Hm, Hused. constructor.
    + intros q. cbn. rewrite Hport. intros [->|Hq]%elem_of_cons; [by left; constructor|].
      destruct (Hin _ Hq); [by left; constructor|by right].
    + constructor; [|done]. exists raw. rewrite Hname. split_and!; [done..|]. by rewrite decide_False.
Qed.

(** The contract of [range]. *)
Definition ranges : Prop := ∀ A m, range A m ≡ₚ map_to_list m.

(** The pawns that a file asks for: its own, the members of its sets, and the
    primary. *)
Definition asked (r : RawPerigeosConfig) (name : string) (raw : RawPawnConfig) : Prop :=
  r.(r_Pawns) !! name = Some raw ∨
  (∃ setName setCfg, r.(r_PawnSets) !! setName = Some setCfg ∧ (name, raw) ∈ setMembers setName setCfg) ∨
  (r.(r_Global).(rg_Primary) = true ∧ hostName ≠ "" ∧ name = hostName ∧ raw = primaryPawn r).

Lemma members_elem (Hr : ranges) r name raw :
  (name, raw) ∈ flat_map (λ '(setName, setCfg), setMembers setName setCfg) (range _ r.(r_PawnSets)) ↔
  ∃ setName setCfg, r.(r_PawnSets) !! setName = Some setCfg ∧ (name, raw) ∈ setMembers setName setCfg.
Proof.
  rewrite list_elem_of_In, in_flat_map. split.
  - intros ([n c] & Hin%list_elem_of_In & Hm%list_elem_of_In). exists n, c. split; [|done].
    apply elem_of_map_to_list. by rewrite <- (Hr _ (r_PawnSets r)).
  - intros (n & c & Hin & Hm). exists (n, c). split; apply list_elem_of_In; [|done].
    rewrite (Hr _ (r_PawnSets r)). by apply elem_of_map_to_list.
Qed.

Lemma expandPawns_spec (Hr : ranges) r pawns : expandPawns r = inr pawns →
  ∀ name raw, pawns !! name = Some raw ↔ asked r name raw.
Proof.
  clear ParseQuantity ParseTaints. intros (pawns0 & H0 & H)%sum_bind_inr name raw. destruct (addMembers_spec _ _ _ H0) as [_ Hl].
  assert (∀ name raw, pawns0 !! name = Some raw ↔ r.(r_Pawns) !! name = Some raw ∨
    ∃ setName setCfg, r.(r_PawnSets) !! setName = Some setCfg ∧ (name, raw) ∈ setMembers setName setCfg) as Hl'.
  { intros n c. by rewrite Hl, (members_elem Hr). }
  clear Hl H0. unfold asked. destruct (rg_Primary (r_Global r)); cbn [andb] in H.
  2:{ injection H as <-. rewrite Hl'. naive_solver. }
  destruct (decide (hostName = "")) as [He|He]; [rewrite bool_decide_true in H by done|rewrite bool_decide_false in H by done].
  { injection H as <-. rewrite Hl'. naive_solver. }
  cbn [negb] in H. destruct (pawns0 !! hostName) eqn:Hh; [done|]. injection H as <-.
  destruct (decide (name = hostName)) as [->|Hne].
  - rewrite lookup_insert_eq. split; [intros [= <-]; naive_solver|].
    intros [H|[H|(_ & _ & _ & ->)]]; [..|done]; exfalso;
      assert (pawns0 !! hostName = Some raw) by (apply Hl'; auto); congruence.
  - rewrite lookup_insert_ne by done. rewrite Hl'. naive_solver.
Qed.

Lemma sortedNames_perm pawns : sortedNames pawns ≡ₚ (range _ pawns).*1.
Proof. apply merge_sort_Permutation. Qed.

Lemma sortedNames_entries (Hr : ranges) pawns : entries pawns (sortedNames pawns) ≡ₚ range _ pawns.
Proof.
  trans (entries pawns (range _ pawns).*1).
  - unfold entries. by rewrite sortedNames_perm.
  - rewrite entries_keys; [done|]. intros n c. rewrite (Hr _ pawns). apply elem_of_map_to_list.
Qed.

End Process.

(** C37: A configuration that is accepted has exactly the pawns that the file
    asks for, each once: its own, the members of its sets and the primary. No
    two pawns share a port, a port that the file names is kept, and every
    other port is above the port of the daemon. *)
Theorem Process_sound ParseQuantity ParseTaints range hostName exists_ r baseDir cfg :
  ranges range → Process ParseQuantity ParseTaints range hostName exists_ r baseDir = inr cfg →
  ∃ pawns, (∀ name raw, pawns !! name = Some raw ↔ asked hostName r name raw) ∧
    map pcf_Name cfg.(pg_Pawns) ≡ₚ (map_to_list pawns).*1 ∧
    NoDup (map pcf_Port cfg.(pg_Pawns)) ∧
    Forall (pawn_as hostName r baseDir pawns (r.(r_Global).(rg_PerigeosPort) + 1)) cfg.(pg_Pawns).
Proof.
  intros Hr H. unfold Process in H. apply sum_bind_inr in H as (baseCPU & _ & H).
  apply sum_bind_inr in H as (defaultCPU & _ & H). apply sum_bind_inr in H as (defaultMemory & _ & H).
  apply sum_bind_inr in H as (pawns & Hpawns & H). apply sum_bind_inr in H as (used & Hused & H).
  apply sum_bind_inr in H as (out & Hout & H). injection H as <-. cbn [pg_Pawns].
  exists pawns. split; [by eapply expandPawns_spec|].
  apply reservePorts_spec in Hused as (Hnd & _ & Hused).
  pose proof (manualPorts_perm _ _ (sortedNames_entries range Hr pawns)) as Hperm.
  apply buildPawns_spec in Hout as (Hn & Hnd' & _ & Hall).
  - split_and!; [|done|done]. by rewrite Hn, sortedNames_perm, (Hr _ pawns).
  - intros n. rewrite sortedNames_perm, (Hr _ pawns). intros ([n' c] & -> & Hc)%list_elem_of_fmap.
    apply elem_of_map_to_list in Hc. cbn. by rewrite Hc.
  - by rewrite Hperm.
  - intros p. rewrite Hperm, Hused. set_solver.
Qed.

(** ** The names of a set *)

Lemma parseUint_zeros n s : parseUint_loop (zeros n +:+ s) 0 = parseUint_loop s 0.
Proof. induction n as [|n IH]; [done|]. exact IH. Qed.

Lemma padded_ParseUint width i : (Z.of_nat i <= maxUint64)%Z → ParseUint (padded width i) = inr (Z.of_nat i).
Proof.
  intros Hi. assert (0 <= Z.of_nat i <= maxUint64)%Z as Hr by lia. unfold padded.
  pose proof (proj1 (pretty_word (Z.of_nat i) ltac:(lia))) as Hne. pose proof (ParseUint_pretty _ Hr) as H.
  unfold ParseUint in *. rewrite decide_False in H by done. rewrite decide_False, parseUint_zeros; [exact H|].
  by destruct (width - len (pretty (Z.of_nat i))).
Qed.

Lemma app_inj_prefix (a b c : string) : a +:+ b = a +:+ c → b = c.
Proof. induction a as [|x a IH]; [done|]. cbn. intros [= H]. by apply IH. Qed.

Lemma generatedName_inj setName count i j :
  (Z.of_nat i <= maxUint64)%Z → (Z.of_nat j <= maxUint64)%Z →
  generatedName setName count i = generatedName setName count j → i = j.
Proof.
  intros Hi Hj H%app_inj_prefix%app_inj_prefix. apply (f_equal ParseUint) in H.
  rewrite !padded_ParseUint in H by done. injection H as H. lia.
Qed.

Lemma addMembers_total l pawns : NoDup l.*1 → (∀ n, n ∈ l.*1 → pawns !! n = None) → ∃ pawns', addMembers l pawns = inr pawns'.
Proof.
  revert pawns. induction l as [|[n c] l IH]; intros pawns Hnd Hnew; [by eexists|]. cbn in Hnd, Hnew |- *.
  apply NoDup_cons in Hnd as [Hn Hnd]. rewrite Hnew by constructor. apply IH; [done|]. intros m Hm.
  rewrite lookup_insert_ne by (intros ->; done). apply Hnew. by constructor.
Qed.

(** The members of one set never collide with each other: a set whose names
    the file does not use is accepted, whatever its size. *)
Lemma one_set_accepted setName setCfg pawns :
  (setCfg.(rs_Count) <= maxUint64)%Z → (∀ n, n ∈ (setMembers setName setCfg).*1 → pawns !! n = None) →
  ∃ pawns', addMembers (setMembers setName setCfg) pawns = inr pawns'.
Proof.
  intros Hc Hnew. apply addMembers_total; [|done]. unfold setMembers.
  match goal with |- context [map ?f ?l] => change (map f l) with (f <$> l) end. rewrite <- list_fmap_compose.
  apply NoDup_fmap_2_strong; [|apply NoDup_seq]. intros i j [_ Hi]%elem_of_seq [_ Hj]%elem_of_seq. cbn.
  intros H. eapply generatedName_inj; [| |exact H]; lia.
Qed.

(** ** Percentages

    The number is parsed in base 0, which reads a leading zero as octal: 050%
    is 400 millicores, and 08% is rejected as a number that is too large. *)
Example percent_octal :
  percentDigits "050%" = Some "050" ∧ parseInt_base0 "050" = Some 40%Z ∧
  percentDigits "08%" = Some "08" ∧ parseInt_base0 "08" = None.
Proof. by vm_compute. Qed.

(** ** A run *)

Definition demoRaw : RawPerigeosConfig :=
  let raw := {| rp_Port := 0; rp_Labels := ∅; rp_Taints := ∅; rp_NodeIP := ""; rp_CreateConcurrency := 0; rp_CPU := "";
                rp_Memory := ""; rp_CPUWeight := 0; rp_IOReadBandwidthMax := ""; rp_IOWriteBandwidthMax := "" |} in
  {| r_Global := {| rg_PerigeosPort := 10250; rg_DefaultCPU := ""; rg_DefaultMemory := "1Gi"; rg_ServerCAPath := "";
                    rg_ServerCAKeyPath := ""; rg_NodeIP := ""; rg_Primary := true; rg_CNI := None |};
     r_Pawns := {[ "web" := {| raw with rp_Port := 10252 |} ]};
     r_PawnSets := {[ "c" := {| rs_Count := 11; rs_Pawn := raw |} ]} |}.

Definition demoProcess : ConfErr + PerigeosConfig :=
  Process (λ _, Some (NewQuantity 1)) (λ _, Some []) (λ A m, map_to_list m) "host" (λ _, false) demoRaw "/b".

Lemma Process_sound_witness :
  match demoProcess with
  | inr cfg =>
      map (λ p, (p.(pcf_Name), p.(pcf_Port))) (take 3 cfg.(pg_Pawns)) = [("c-00", 10251); ("c-01", 10253); ("c-02", 10254)]%Z ∧
      map (λ p, (p.(pcf_Name), p.(pcf_Port))) (drop 11 cfg.(pg_Pawns)) = [("host", 10250); ("web", 10252)]%Z ∧
      NoDup (map pcf_Port cfg.(pg_Pawns))
  | inl _ => False
  end.
Proof.
  destruct demoProcess as [e|cfg] eqn:H; [by vm_compute in H|].
  destruct (Process_sound _ _ _ _ _ _ _ cfg (λ A m, Permutation_refl _) H) as (pawns & _ & _ & Hnd & _).
  split_and!; [| |exact Hnd]; vm_compute in H; injection H as <-; by vm_compute.
Defined.
