(* ===== verification/Join.v ===== *)
(** * Joining a cluster (internal/join)

    [perigeos join]: the checks of the host, the kubeconfig that is found or
    copied, the decision whether the pawn stands for the host, the files and
    services that are set up, and the wait for the first node. The files are
    given by what they say: a kubeconfig, the configuration that the TOML
    decoder reads from the generated file, and the directories in the unit. The
    host and the cluster answer as functions of what was done before. *)
From S2P Require Import Prelude Monad Trace Text Paths UnitNames Corev1 Config Plugin.
Import Str.

(** ** Options and prerequisites *)

Record Options := { op_APIServer : string; op_Token : string; op_Kubeconfig : string; op_ConfigDir : string; op_BaseDir : string; op_DryRun : bool }.

Inductive JErr :=
  | ErrNoServer | ErrNoToken
  | ErrPrereq (missing : list string)
  | ErrReadKubeconfig | ErrDiscovery | ErrConfigDir | ErrWriteKubeconfig | ErrConnect
  | ErrWriteConfig | ErrWriteUnit | ErrSystemctl (args : list string)
  | ErrNoHostname | ErrSocket | ErrWatchNodes | ErrNodesTimeout | ErrNodesClosed | ErrSpins.

Definition Validate (o : Options) : option JErr :=
  if decide (o.(op_Kubeconfig) = "") then
    if decide (o.(op_APIServer) = "") then Some ErrNoServer else if decide (o.(op_Token) = "") then Some ErrNoToken else None
  else None.

(** ** Kubeconfigs *)

Inductive AuthInfo := TokenAuth (token : string) | OtherAuth.

Record Kubeconfig := {
  kc_Clusters : gmap string (string * string);
  kc_AuthInfos : gmap string AuthInfo;
  kc_Contexts : gmap string (string * string);
  kc_CurrentContext : string;
}.

Definition injectToken (cfg : Kubeconfig) (token : string) : Kubeconfig :=
  if decide (cfg.(kc_AuthInfos) = ∅) then
    {| cfg with kc_AuthInfos := {[ "perigeos" := TokenAuth token ]}; kc_Contexts := (λ c, (c.1, "perigeos")) <$> cfg.(kc_Contexts) |}
  else {| cfg with kc_AuthInfos := (λ _, TokenAuth token) <$> cfg.(kc_AuthInfos) |}.

Definition buildKubeconfig (apiServer caData token : string) : Kubeconfig :=
  {| kc_Clusters := {[ "perigeos" := (apiServer, caData) ]}; kc_AuthInfos := {[ "perigeos" := TokenAuth token ]};
     kc_Contexts := {[ "perigeos" := ("perigeos", "perigeos") ]}; kc_CurrentContext := "perigeos" |}.

(** ** The host and the cluster *)

(** A configuration file: one with all of its text, or what a write that failed
    has left. *)
Inductive ConfigFile := CfgWhole (c : RawPerigeosConfig) | CfgPart (text : string).

Record JoinFiles := { jf_kubeconfig : option Kubeconfig; jf_config : option ConfigFile; jf_unit : option (string * string) }.

Inductive JAct :=
  | JClusterInfo | JCACerts (url : string) | JReadKubeconfig (path : string)
  | JMkdir (dir : string) (ok : bool) | JWriteKubeconfig (path : string) (ok : bool) | JConnect (ok : bool)
  | JGetNode (name : string) | JGetAgent
  | JWriteConfig (path : string) (ok : bool) | JWriteUnit (ok : bool) | JSystemctl (args : list string) (ok : bool)
  | JSocket (ok : bool) | JSleep (ms : Z) | JListNodes | JWatchNodes.

Inductive NodeEvent := NAdded | NModified | NDeleted | NNotANode | NClosed.

(** [je_pid1] is the target of [/proc/1/exe]; [je_config] what [cluster-info]
    holds, [je_node] the provider ID of the node of this name; [je_left] what a
    configuration file has when writing it fails, [None] if it was not created. *)
Record JEnv := {
  je_uid : Z;
  je_pid1 : option string;
  je_private : bool;
  je_nspawn : bool;
  je_hostname : option string;
  je_proc : option (list (string * bool));
  je_cmdline : string → option string;
  je_ok : list JAct → bool;
  je_left : list JAct → option string;
  je_clusterInfo : option Kubeconfig;
  je_cacerts : string → option string;
  je_load : string → option Kubeconfig;
  je_node : string → option string;
  je_agent : bool;
  je_socket : list JAct → bool;
  je_now : list JAct → Z;
  je_list : option nat;
  je_watch : option (list NodeEvent);
}.

(** The text before the first NUL. *)
Fixpoint untilNulByte (s : string) : string :=
  match s with EmptyString => "" | String c s => if decide (c = Ascii.zero) then "" else String c (untilNulByte s) end.

Section Join.
Context (env : JEnv) (opts : Options).
Abbreviation JM := (SE (TState JAct JoinFiles) JErr).

Definition checkPrerequisites : list string :=
  (if decide (env.(je_uid) ≠ 0%Z) then ["root"] else []) ++
  (if bool_decide (env.(je_pid1) ∈ [Some "/usr/lib/systemd/systemd"; Some "/lib/systemd/systemd"; Some "/sbin/init"]) || env.(je_private) then [] else ["systemd"]) ++
  (if env.(je_nspawn) then [] else ["systemd-nspawn"]) ++
  (if decide (env.(je_hostname) ∈ [None; Some ""; Some "localhost"]) then ["hostname"] else []).

Definition isPID (name : string) : bool :=
  match name with String c _ => (49 <=? byte_of c)%Z && (byte_of c <=? 57)%Z | EmptyString => false end.

(** The process that a directory of [/proc] shows, if it is a kubelet. *)
Definition kubeletOf (e : string * bool) : option string :=
  if negb e.2 || negb (isPID e.1) then None else
  cmdline ← env.(je_cmdline) (pathJoin ["/proc"; e.1; "cmdline"]);
  let base := fileBase (trimRightChar " " (untilNulByte cmdline)) in
  if decide (base = "kubelet") then Some "process:kubelet"
  else if decide (base ∈ ["k3s"; "k3s-agent"]) then Some "process:k3s" else None.

Definition scanKubeletProcess : option string := head (omap kubeletOf (default [] env.(je_proc))).

(** [None] when there is no kubelet, and else where it was found. *)
Definition detectKubelet (client : bool) : JM (option string) :=
  match scanKubeletProcess with
  | Some source => mret (Some source)
  | None =>
      if negb client then mret None else
      match env.(je_hostname) with
      | None | Some "" => mret None
      | Some hostname =>
          node ← callT (λ _, env.(je_node) hostname) (λ _, JGetNode hostname);
          match node with
          | Some providerID => mret (if has_prefix providerID "perigeos://" then None else Some "node-api")
          | None => mret None
          end
      end
  end.

Definition k3sDiscover : JM Kubeconfig :=
  let url := trimRightChar "/" opts.(op_APIServer) +:+ "/cacerts" in
  ca ← callT (λ _, env.(je_cacerts) url) (λ _, JCACerts url);
  match ca with
  | Some caCert => mret (buildKubeconfig opts.(op_APIServer) caCert opts.(op_Token))
  | None => throw ErrDiscovery
  end.

Definition discoverKubeconfig : JM Kubeconfig :=
  info ← callT (λ _, env.(je_clusterInfo)) (λ _, JClusterInfo);
  match info with
  | Some cfg => mret (injectToken cfg opts.(op_Token))
  | None => k3sDiscover
  end.

Definition kubeconfigPath : string := pathJoin [opts.(op_ConfigDir); "kubeconfig.yaml"].

(** The mode is set with the file. *)
Definition generateKubeconfig : JM () :=
  cfg ← (if decide (opts.(op_Kubeconfig) ≠ "") then
           r ← callT (λ _, env.(je_load) opts.(op_Kubeconfig)) (λ _, JReadKubeconfig opts.(op_Kubeconfig));
           match r with Some cfg => mret cfg | None => throw ErrReadKubeconfig end
         else discoverKubeconfig);
  ok ← callT env.(je_ok) (JMkdir opts.(op_ConfigDir));
  if negb ok then throw ErrConfigDir else
  ok ← callT env.(je_ok) (JWriteKubeconfig kubeconfigPath);
  if negb ok then throw ErrWriteKubeconfig else
  _ ← modD (λ f, {| f with jf_kubeconfig := Some cfg |});
  ok ← callT env.(je_ok) JConnect;
  if negb ok then throw ErrConnect else mret tt.

Definition detectConstellationCNI (client : bool) : JM bool :=
  if negb client then mret false else callT (λ _, env.(je_agent)) (λ _, JGetAgent).

(** ** The configuration *)

Definition replaceChar (a b : ascii) : string → string := smap (λ c, if decide (c = a) then b else c).

(** Host names are ASCII. *)
Definition sanitizePawnName (name : string) : string :=
  let name := TrimChar "-" (replaceChar "." "-" (replaceChar "_" "-" (ToLower name))) in
  if decide (name = "") then "pawn-01" else name.

Definition generatedPawn : RawPawnConfig :=
  {| rp_Port := 0; rp_Labels := {[ "kubernetes.io/os" := "linux"; "kubernetes.io/arch" := "amd64" ]};
     rp_Taints := {[ "node.periapsis.io/type" := "pawn:NoSchedule" ]}; rp_NodeIP := ""; rp_CreateConcurrency := 0;
     rp_CPU := "100%"; rp_Memory := "512M"; rp_CPUWeight := 0; rp_IOReadBandwidthMax := ""; rp_IOWriteBandwidthMax := "" |}.

(** What the rendered template says. *)
Definition renderConfig (primary constellationCNI : bool) (pawnName : string) : RawPerigeosConfig :=
  {| r_Global := {| rg_PerigeosPort := 12260; rg_DefaultCPU := "100%"; rg_DefaultMemory := "512M"; rg_ServerCAPath := ""; rg_ServerCAKeyPath := "";
                    rg_NodeIP := ""; rg_Primary := primary;
                    rg_CNI := if constellationCNI then Some {| rc_BinDir := ""; rc_ConfDir := ""; rc_Debug := false |} else None |};
     r_Pawns := if primary then ∅ else {[ pawnName := generatedPawn ]}; r_PawnSets := ∅ |}.

Definition pawnNameOf : string := sanitizePawnName (match env.(je_hostname) with None | Some "" => "node" | Some h => h end) +:+ "-01".

Definition configPath : string := pathJoin [opts.(op_ConfigDir); "perigeos.toml"].

Definition generateConfig (primary constellationCNI : bool) : JM () :=
  existing ← getD jf_config;
  match existing with
  | Some _ => mret tt
  | None =>
      ok ← callT env.(je_ok) (JWriteConfig configPath);
      if negb ok then
        left ← askT env.(je_left);
        _ ← modD (λ f, {| f with jf_config := CfgPart <$> left |});
        throw ErrWriteConfig
      else modD (λ f, {| f with jf_config := Some (CfgWhole (renderConfig primary constellationCNI pawnNameOf)) |})
  end.

(** ** The service *)

Definition systemctlRun (args : list string) : JM () :=
  ok ← callT env.(je_ok) (JSystemctl args);
  if negb ok then throw (ErrSystemctl args) else mret tt.

Definition installService : JM () :=
  ok ← callT env.(je_ok) JWriteUnit;
  if negb ok then throw ErrWriteUnit else
  _ ← modD (λ f, {| f with jf_unit := Some (opts.(op_ConfigDir), opts.(op_BaseDir)) |});
  _ ← systemctlRun ["daemon-reload"];
  systemctlRun ["enable"; "perigeos.service"].

Definition startService : JM () := systemctlRun ["restart"; "perigeos.service"].

(** ** Verification *)

Definition verifyTimeout : Z := 60000.
Definition verifyPollInterval : Z := 2000.
Definition verifyRounds : nat := 30.

Fixpoint socket_loop (fuel : nat) (deadline : Z) : JM () :=
  match fuel with
  | O => throw ErrSpins
  | S fuel =>
      up ← callT env.(je_socket) JSocket;
      if up : bool then mret tt else
      now ← askT env.(je_now);
      if (deadline <=? now + verifyPollInterval)%Z then throw ErrSocket
      else _ ← doT (JSleep verifyPollInterval); socket_loop fuel deadline
  end.

(** The events that arrive before the deadline. *)
Fixpoint node_loop (evs : list NodeEvent) : option JErr :=
  match evs with
  | [] => Some ErrNodesTimeout
  | NClosed :: _ => Some ErrNodesClosed
  | NDeleted :: evs | NNotANode :: evs => node_loop evs
  | NAdded :: _ | NModified :: _ => None
  end.

Definition waitForPawnNodes : JM () :=
  nodes ← callT (λ _, env.(je_list)) (λ _, JListNodes);
  match nodes with
  | Some (S _) => mret tt
  | _ =>
      w ← callT (λ _, env.(je_watch)) (λ _, JWatchNodes);
      match w with
      | None => throw ErrWatchNodes
      | Some evs => match node_loop evs with None => mret tt | Some e => throw e end
      end
  end.

Definition verifyRegistration : JM () :=
  match env.(je_hostname) with
  | None | Some "" => throw ErrNoHostname
  | Some _ =>
      now ← askT env.(je_now);
      _ ← socket_loop verifyRounds (now + verifyTimeout)%Z;
      waitForPawnNodes
  end.

(** ** All steps *)

Definition Run : JM () :=
  if decide (checkPrerequisites ≠ []) then throw (ErrPrereq checkPrerequisites) else
  let client := negb opts.(op_DryRun) in
  _ ← whenM client generateKubeconfig;
  presence ← detectKubelet client;
  let primary := bool_decide (presence = None) in
  constellationCNI ← detectConstellationCNI client;
  _ ← whenM client (generateConfig primary constellationCNI);
  _ ← whenM client installService;
  _ ← whenM client startService;
  if opts.(op_DryRun) then mret tt else _ ← try verifyRegistration; mret tt.
End Join.

(** ** What joining changes *)

Definition isChange (a : JAct) : bool :=
  match a with JMkdir _ _ | JWriteKubeconfig _ _ | JWriteConfig _ _ | JWriteUnit _ | JSystemctl _ _ => true | _ => false end.

Definition changes (l : list JAct) : list JAct := filter (λ a, isChange a = true) l.

Lemma changes_app l l' : changes (l ++ l') = changes l ++ changes l'.
Proof. apply filter_app. Qed.

Lemma changes_none l : Forall (λ a, isChange a = false) l → changes l = [].
Proof.
  unfold changes. induction 1 as [|a l Ha _ IH]; [done|]. rewrite filter_cons, decide_False; [done|]. by rewrite Ha.
Qed.

(** A plan is a list of changes that may succeed or fail. *)
Definition succeeded (plan : list (bool → JAct)) : list JAct := map (λ a, a true) plan.

(** All went well up to some point, and perhaps one failed there. *)
Definition partial (plan : list (bool → JAct)) (l : list JAct) : Prop :=
  ∃ pre post, plan = pre ++ post ∧ (l = succeeded pre ∨ ∃ a post', post = a :: post' ∧ l = succeeded pre ++ [a false]).

Definition configKept (f f' : JoinFiles) : Prop := ∀ c, f.(jf_config) = Some c → f'.(jf_config) = Some c.

Lemma partial_none plan : partial plan [].
Proof. exists [], plan. split; [done|]. by left. Qed.
Lemma partial_failed a plan : partial (a :: plan) [a false].
Proof. exists [], (a :: plan). split; [done|]. right. by exists a, plan. Qed.
Lemma partial_cons a plan l : partial plan l → partial (a :: plan) (a true :: l).
Proof.
  intros (pre & post & -> & H). exists (a :: pre), post. split; [done|]. destruct H as [->|(b & post' & -> & ->)]; [by left|].
  right. by exists b, post'.
Qed.
Lemma partial_app plan1 plan2 l : partial plan2 l → partial (plan1 ++ plan2) (succeeded plan1 ++ l).
Proof. intros H. induction plan1 as [|a plan1 IH]; [done|]. by apply partial_cons. Qed.
Lemma partial_weaken plan1 plan2 l : partial plan1 l → partial (plan1 ++ plan2) l.
Proof.
  intros (pre & post & -> & H). exists pre, (post ++ plan2). split; [by rewrite (assoc_L (++))|].
  destruct H as [->|(b & post' & -> & ->)]; [by left|]. right. by exists b, (post' ++ plan2).
Qed.

Section Does.
Abbreviation JM := (SE (TState JAct JoinFiles) JErr).

Definition does {A} (P : JoinFiles → Prop) (plan : list (bool → JAct)) (m : JM A) (Q : A → JoinFiles → Prop) : Prop := ∀ t f, P f →
  wp m (λ r new f', configKept f f' ∧
    match r with inr a => changes new = succeeded plan ∧ Q a f' | inl e => e ≠ ErrSpins ∧ partial plan (changes new) end) t f.

Lemma does_ret {A} (P : JoinFiles → Prop) (a : A) (Q : A → JoinFiles → Prop) : (∀ f, P f → Q a f) → does P [] (mret a) Q.
Proof. intros H t f Hf. apply wp_ret. split_and!; [by intros c|done|auto]. Qed.

Lemma does_throw {A} P plan e (Q : A → JoinFiles → Prop) : e ≠ ErrSpins → does P plan (throw e) Q.
Proof. intros He t f Hf. apply wp_throw. split_and!; [by intros c|done|apply partial_none]. Qed.

Lemma does_bind {A B} P p1 p2 (Q : A → JoinFiles → Prop) (R : B → JoinFiles → Prop) (m : JM A) (k : A → JM B) :
  does P p1 m Q → (∀ a, does (Q a) p2 (k a) R) → does P (p1 ++ p2) (m ≫= k) R.
Proof.
  intros Hm Hk t f Hf. apply wp_bind. eapply wp_conseq; [by apply Hm|]. intros [e|a] new f1 (Hc1 & H1).
  { destruct H1. split_and!; [done|done|by apply partial_weaken]. }
  destruct H1 as [H1 HQ]. eapply wp_conseq; [by apply Hk|]. intros r new' f2 (Hc2 & H2). rewrite changes_app, H1.
  split; [by intros c Hc; apply Hc2, Hc1|]. destruct r as [e|b]; destruct H2 as [H2 H3].
  - split; [done|]. by apply partial_app.
  - split; [|done]. unfold succeeded. by rewrite map_app, H2.
Qed.

Lemma does_conseq {A} (P P' : JoinFiles → Prop) plan (m : JM A) (Q Q' : A → JoinFiles → Prop) :
  does P plan m Q → (∀ f, P' f → P f) → (∀ a f, Q a f → Q' a f) → does P' plan m Q'.
Proof.
  intros Hm HP HQ t f Hf. eapply wp_conseq; [by apply Hm, HP|]. intros [e|a] new f' H; cbn in *; [done|]. naive_solver.
Qed.

Lemma does_pure {A} (φ : Prop) (P : JoinFiles → Prop) plan (m : JM A) (Q : A → JoinFiles → Prop) :
  (φ → does P plan m Q) → does (λ f, P f ∧ φ) plan m Q.
Proof. intros H t f [Hf Hφ]. by apply H. Qed.

(** A call that changes nothing. *)
Lemma does_read {A} P (answer : list JAct → A) rec : (∀ a, isChange (rec a) = false) → does P [] (callT answer rec : JM A) (λ _, P).
Proof. intros H t f Hf. apply wp_call. split_and!; [by intros c|by apply changes_none; repeat constructor|done]. Qed.

Lemma does_answer {A} P (a : A) rec : (∀ a, isChange (rec a) = false) → does P [] (callT (λ _, a) rec : JM A) (λ a' f, P f ∧ a' = a).
Proof. intros H t f Hf. apply wp_call. split_and!; [by intros c|by apply changes_none; repeat constructor|done|done]. Qed.

(** A call that changes something, and what is done then. *)
Lemma does_change {A} P plan rec (answer : list JAct → bool) e (k : JM A) (Q : A → JoinFiles → Prop) :
  (∀ b, isChange (rec b) = true) → e ≠ ErrSpins → does P plan k Q →
  does P (rec :: plan) (ok ← callT answer rec; if negb ok then throw e else k) Q.
Proof.
  intros Hr He Hk t f Hf. apply wp_bind, wp_call. set (b := answer t). clearbody b.
  assert (∀ new, changes ([rec b] ++ new) = rec b :: changes new) as Hc
    by (intros new; unfold changes; cbn [app]; by rewrite filter_cons, decide_True by by apply Hr).
  destruct b; cbn [negb].
  - eapply wp_conseq; [by apply Hk|]. intros [e'|a] new f' (H1 & H2 & H3); cbn beta iota; rewrite Hc.
    + split_and!; [done|done|by apply partial_cons].
    + split_and!; [done|by rewrite H2|done].
  - apply wp_throw. rewrite Hc. split_and!; [by intros c|done|]. apply partial_failed.
Qed.

Lemma does_getD {A} P (g : JoinFiles → A) : does P [] (getD g : JM A) (λ a f, P f ∧ g f = a).
Proof. intros t f Hf. apply wp_getD. split_and!; [by intros c|done..]. Qed.

Lemma does_modD (P : JoinFiles → Prop) g (Q : () → JoinFiles → Prop) : (∀ f, P f → configKept f (g f) ∧ Q tt (g f)) → does P [] (modD g : JM ()) Q.
Proof. intros H t f Hf. apply wp_modD. destruct (H f Hf). by split_and!. Qed.
End Does.

Section Steps.
Context (env : JEnv) (opts : Options).

Lemma does_generateKubeconfig P :
  (∀ f g, P f → P {| f with jf_kubeconfig := g |}) →
  does P [JMkdir opts.(op_ConfigDir); JWriteKubeconfig (kubeconfigPath opts)] (generateKubeconfig env opts) (λ _ f, P f ∧ is_Some f.(jf_kubeconfig)).
Proof.
  intros HP. unfold generateKubeconfig. apply (does_bind P [] _ (λ _, P)).
  - case_decide; [|unfold discoverKubeconfig, k3sDiscover]; apply (does_bind P [] [] (λ _, P)); try (by apply does_read); intros [cfg|];
      try by apply does_throw. all: try by apply does_ret.
    apply (does_bind P [] [] (λ _, P)); [by apply does_read|]. intros [ca|]; [by apply does_ret|by apply does_throw].
  - intros cfg. apply does_change; [done|done|]. apply does_change; [done|done|].
    apply (does_bind P [] [] (λ _ f, P f ∧ is_Some f.(jf_kubeconfig))).
    { apply does_modD. intros f Hf. split; [by intros c|]. cbn. split; [by apply HP|by eexists]. }
    intros _. eapply (does_bind _ [] []); [by apply does_read|]. intros []; cbn [negb]; [|by apply does_throw]. by apply does_ret.
Qed.

(** Whether there is a kubelet, and where. *)
Definition presence (client : bool) : option string :=
  match scanKubeletProcess env with
  | Some source => Some source
  | None =>
      if negb client then None else
      match env.(je_hostname) with
      | None | Some "" => None
      | Some hostname => match env.(je_node) hostname with
                         | Some id => if has_prefix id "perigeos://" then None else Some "node-api"
                         | None => None
                         end
      end
  end.

Lemma does_detectKubelet P client : does P [] (detectKubelet env client) (λ a f, P f ∧ a = presence client).
Proof.
  unfold detectKubelet, presence. destruct (scanKubeletProcess env); [by apply does_ret|]. destruct client; [|by apply does_ret].
  cbn [negb]. destruct (je_hostname env) as [[|c h]|]; [by apply does_ret| |by apply does_ret].
  eapply (does_bind _ [] []); [by apply does_answer|]. intros a. destruct (je_node env (String c h)) as [id|]; cbn beta.
  - intros t f [Hf ->]. apply (does_ret P); [|done]. done.
  - intros t f [Hf ->]. apply (does_ret P); [|done]. done.
Qed.

Lemma does_detectCNI P client : does P [] (detectConstellationCNI env client) (λ a f, P f ∧ a = client && env.(je_agent)).
Proof. unfold detectConstellationCNI. destruct client; [by apply does_answer|by apply does_ret]. Qed.

(** The configuration that is there, or the one that is generated. *)
Definition configPlan (c : option ConfigFile) : list (bool → JAct) :=
  match c with Some _ => [] | None => [JWriteConfig (configPath opts)] end.

Definition hasConfig (primary cni : bool) (c : option ConfigFile) (f : JoinFiles) : Prop :=
  f.(jf_config) = Some (default (CfgWhole (renderConfig primary cni (pawnNameOf env))) c).

Lemma does_generateConfig c primary cni :
  does (λ f, f.(jf_config) = c ∧ is_Some f.(jf_kubeconfig)) (configPlan c) (generateConfig env opts primary cni)
    (λ _ f, hasConfig primary cni c f ∧ is_Some f.(jf_kubeconfig)).
Proof.
  intros t f [Hc Hk]. unfold generateConfig. do 2 wp_step. rewrite Hc, (right_id_L [] (++)). cbn [app]. destruct c as [raw|].
  - apply (does_ret (λ f, jf_config f = Some raw ∧ is_Some (jf_kubeconfig f))); [|done].
    intros f' [Hf' ?]. split; [|done]. unfold hasConfig. by rewrite Hf'.
  - wp_step. wp_step. destruct (je_ok env t); cbn [negb].
    + wp_step. split_and!; [by intros c' Hc'; rewrite Hc in Hc'|done|done|done].
    + repeat wp_step. split_and!; [by intros c' Hc'; rewrite Hc in Hc'|done|apply (partial_failed (JWriteConfig (configPath opts)))].
Qed.

Definition unitPlan : list (bool → JAct) := [JWriteUnit; JSystemctl ["daemon-reload"]; JSystemctl ["enable"; "perigeos.service"]].

Lemma does_systemctl P args : does P [JSystemctl args] (systemctlRun env args) (λ _, P).
Proof. unfold systemctlRun. apply does_change; [done|done|]. by apply does_ret. Qed.

Lemma does_installService (P : JoinFiles → Prop) :
  (∀ f u, P f → P {| f with jf_unit := u |}) →
  does P unitPlan (installService env opts) (λ _ f, P f ∧ f.(jf_unit) = Some (opts.(op_ConfigDir), opts.(op_BaseDir))).
Proof.
  intros HP. unfold installService, unitPlan. apply does_change; [done|done|].
  apply (does_bind P [] _ (λ _ f, P f ∧ f.(jf_unit) = Some (opts.(op_ConfigDir), opts.(op_BaseDir)))).
  { apply does_modD. intros f Hf. split; [by intros c|]. split; [by apply HP|done]. }
  intros _. apply (does_bind _ [JSystemctl ["daemon-reload"]] [JSystemctl ["enable"; "perigeos.service"]] _ _ _ _ (does_systemctl _ _)).
  intros _. apply does_systemctl.
Qed.

(** *** Waiting *)

Definition joinClock : Prop :=
  (∀ t u, env.(je_now) t <= env.(je_now) (t ++ u))%Z ∧ (∀ t ms, env.(je_now) t + ms <= env.(je_now) (t ++ [JSleep ms]))%Z.

Lemma wp_socket_loop fuel deadline t f :
  joinClock → 0 < fuel → (deadline <= env.(je_now) t + verifyPollInterval * Z.of_nat fuel)%Z →
  wp (socket_loop env fuel deadline) (λ r new f', f' = f ∧ changes new = [] ∧ (r = inr tt ∨ r = inl ErrSocket)) t f.
Proof.
  intros [Hm Hs]. revert t. induction fuel as [|fuel IH]; intros t Hf Hd; [lia|]. cbn [socket_loop]. do 2 wp_step.
  destruct (je_socket env t) eqn:E; [wp_step; split_and!; [done|done|by left]|].
  do 2 wp_step. specialize (Hm t [JSocket false]). destruct (deadline <=? _)%Z eqn:Ed; [wp_step; split_and!; [done|done|by right]|].
  apply Z.leb_gt in Ed. rewrite (right_id_L [] (++)) in *. do 2 wp_step.
  specialize (Hs (t ++ [JSocket false]) verifyPollInterval). unfold verifyPollInterval in *.
  eapply wp_conseq; [apply IH; lia|]. intros r new f' (-> & Hn & Hr). split_and!; [done| |done].
  by rewrite !changes_app, Hn.
Qed.

Lemma wp_waitForPawnNodes t f :
  wp (waitForPawnNodes env) (λ r new f', f' = f ∧ changes new = [] ∧ r ≠ inl ErrSpins) t f.
Proof.
  assert (∀ evs e, node_loop evs = Some e → e ≠ ErrSpins) as Hl by (intros evs; induction evs as [|[] evs IH]; naive_solver).
  unfold waitForPawnNodes. do 2 wp_step. destruct (je_list env) as [[|n]|]; [|wp_step; by split_and!|];
    (do 2 wp_step; destruct (je_watch env) as [evs|]; [|wp_step; by split_and!];
     destruct (node_loop evs) as [e|] eqn:E; wp_step; split_and!; [done|done| |done|done|done]; intros [= ->]; by eapply Hl).
Qed.

Lemma wp_verifyRegistration t f :
  joinClock → wp (verifyRegistration env) (λ r new f', f' = f ∧ changes new = [] ∧ r ≠ inl ErrSpins) t f.
Proof.
  intros Hc. unfold verifyRegistration. destruct (je_hostname env) as [[|c h]|]; [wp_step; by split_and!| |wp_step; by split_and!].
  do 2 wp_step. wp_step. eapply wp_conseq.
  { apply wp_socket_loop; [done|unfold verifyRounds; lia|]. unfold verifyTimeout, verifyPollInterval, verifyRounds. rewrite (right_id_L [] (++)). lia. }
  intros r new f' (-> & Hn & [->| ->]); cbn beta iota; [|by rewrite changes_app, Hn].
  eapply wp_conseq; [by apply wp_waitForPawnNodes|]. intros r' new' f'' (-> & Hn' & Hr). by rewrite !changes_app, Hn, Hn'.
Qed.

Definition joinPlan (c : option ConfigFile) : list (bool → JAct) :=
  [JMkdir opts.(op_ConfigDir); JWriteKubeconfig (kubeconfigPath opts)] ++ configPlan c ++ unitPlan ++ [JSystemctl ["restart"; "perigeos.service"]].

Definition joined (c : option ConfigFile) (f : JoinFiles) : Prop :=
  hasConfig (bool_decide (presence true = None)) env.(je_agent) c f ∧ is_Some f.(jf_kubeconfig) ∧
  f.(jf_unit) = Some (opts.(op_ConfigDir), opts.(op_BaseDir)).

Lemma does_steps c :
  joinClock → checkPrerequisites env = [] → opts.(op_DryRun) = false →
  does (λ f, f.(jf_config) = c) (joinPlan c) (Run env opts) (λ _, joined c).
Proof.
  intros Hc Hp Hd. unfold Run, joinPlan. rewrite Hp, Hd. rewrite decide_False by (by intros []). cbn [negb whenM].
  apply (does_bind _ _ _ _ _ _ _ (does_generateKubeconfig (λ f, f.(jf_config) = c) (λ f g Hf, Hf))). intros _.
  apply (does_bind _ [] _ _ _ _ _ (does_detectKubelet _ true)). intros pr. apply does_pure. intros ->.
  apply (does_bind _ [] _ _ _ _ _ (does_detectCNI _ true)). intros cni. apply does_pure. intros ->. cbn [andb].
  apply (does_bind _ _ _ _ _ _ _ (does_generateConfig c (bool_decide (presence true = None)) (je_agent env))). intros _.
  eapply does_bind; [apply does_installService|].
  { by intros f u. }
  intros ?. cbn beta. apply (does_bind _ [JSystemctl ["restart"; "perigeos.service"]] [] _ _ _ _ (does_systemctl _ _)). intros ?.
  intros t f ((Hcfg & Hk) & Hu). wp_step. apply wp_try. eapply wp_conseq; [by apply wp_verifyRegistration|].
  intros r new f' (-> & Hn & Hr). cbn beta iota. wp_step. rewrite changes_app, Hn. split_and!; [by intros c'|done|by split_and!].
Qed.
End Steps.

Lemma Run_dry env opts t f :
  checkPrerequisites env = [] → opts.(op_DryRun) = true → wp (Run env opts) (λ r new f', r = inr tt ∧ changes new = [] ∧ f' = f) t f.
Proof.
  intros Hp Hd. unfold Run, detectKubelet, detectConstellationCNI. rewrite Hp, Hd. rewrite decide_False by (by intros []). cbn [negb whenM].
  wp_step. wp_step. wp_step. destruct (scanKubeletProcess env); repeat wp_step; done.
Qed.

(** C21: Joining a cluster. If a prerequisite is missing nothing is done, and a dry run changes nothing. Otherwise the changes are made in their order - the kubeconfig, the configuration unless there is one, the unit, the service - and each only if all before it succeeded; an existing configuration is never changed. A success means that all were made: the configuration makes the pawn stand for the host if and only if no kubelet was found, the unit has the directories that were asked for, and the service was restarted. Waiting for the first node ends and decides nothing. *)
Theorem join_effects env opts t f :
  joinClock env →
  wp (Run env opts) (λ r new f', configKept f f' ∧
    if decide (checkPrerequisites env ≠ []) then r = inl (ErrPrereq (checkPrerequisites env)) ∧ new = [] ∧ f' = f
    else if opts.(op_DryRun) then r = inr tt ∧ changes new = [] ∧ f' = f
    else match r with
         | inr _ => changes new = succeeded (joinPlan opts f.(jf_config)) ∧ joined env opts f.(jf_config) f'
         | inl e => e ≠ ErrSpins ∧ partial (joinPlan opts f.(jf_config)) (changes new)
         end) t f.
Proof.
  intros Hc. destruct (decide (checkPrerequisites env ≠ [])) as [Hp|Hp%dec_stable].
  { unfold Run. rewrite decide_True by done. wp_step. split_and!; [by intros c|done..]. }
  destruct (op_DryRun opts) eqn:Hd.
  - eapply wp_conseq; [by apply Run_dry|]. intros r new f' (-> & H & ->). split_and!; [by intros c|done..].
  - by apply (does_steps env opts).
Qed.

(** ** The generated configuration is accepted *)

Section Accepted.
Context (ParseQuantity : string → option Quantity) (ParseTaints : list string → option (list Taint)).
Context (range : ∀ A : Type, gmap string A → list (string * A)) (Hrange : ranges range).

Lemma range_empty A : range A ∅ = [].
Proof. assert (H := Hrange A ∅). rewrite map_to_list_empty in H. symmetry in H. by apply Permutation_nil in H. Qed.

Lemma range_singleton A k (x : A) : range A {[ k := x ]} = [(k, x)].
Proof. assert (H := Hrange A {[ k := x ]}). rewrite map_to_list_singleton in H. symmetry in H. by apply Permutation_length_1_inv in H. Qed.

Lemma parseCPU_percent cpu d : ParseQuantity "100%" = None → ParseQuantity "1000m" = Some cpu → parseCPU ParseQuantity "100%" d = inr cpu.
Proof. intros H1 H2. unfold parseCPU. rewrite decide_False, H1 by done. change (orErr (ErrQuantity "cpu" "1000m") (ParseQuantity "1000m") = inr cpu). by rewrite H2. Qed.

Lemma sortedNames_singleton k x : sortedNames range {[ k := x ]} = [k].
Proof. unfold sortedNames. by rewrite range_singleton. Qed.
Lemma inr_bind {E A B} (a : A) (f : A → E + B) : (inr a : E + A) ≫= f = f a.
Proof. done. Qed.

Lemma expand_rendered primary cni pawn h :
  h ≠ "" → expandPawns range h (renderConfig primary cni pawn) =
  inr (if primary then {[ h := primaryPawn (renderConfig true cni pawn) ]} else {[ pawn := generatedPawn ]}).
Proof.
  intros Hh. unfold expandPawns. cbn [renderConfig r_PawnSets r_Pawns]. rewrite range_empty. cbn [flat_map addMembers]. rewrite inr_bind.
  cbn [renderConfig r_Global rg_Primary]. destruct primary; cbn [andb]; [|done].
  rewrite bool_decide_eq_false_2 by done. cbn [negb]. by rewrite lookup_empty.
Qed.

(** One pawn without a limit of its own for the disk. *)
Lemma build_one r h baseDir dc dm name raw used next cpu mem ts :
  parseCPU ParseQuantity raw.(rp_CPU) dc = inr cpu → raw.(rp_Memory) ≠ "" → ParseQuantity raw.(rp_Memory) = Some mem →
  ParseTaints (map (λ '(key, val), key +:+ "=" +:+ val) (range _ raw.(rp_Taints))) = Some ts →
  raw.(rp_IOReadBandwidthMax) = "" → raw.(rp_IOWriteBandwidthMax) = "" →
  ∃ p, buildPawns ParseQuantity ParseTaints range h r baseDir dc dm {[ name := raw ]} [name] used next = inr [p] ∧
    p.(pcf_Name) = name ∧ p.(pcf_Port) = (assignPort raw.(rp_Port) used next).1.1 ∧
    p.(pcf_IsPrimary) = r.(r_Global).(rg_Primary) && bool_decide (name = h) ∧
    p.(pcf_CPU) = cpu ∧ p.(pcf_Memory) = mem ∧ p.(pcf_Taints) = ts.
Proof.
  intros Hc Hm0 Hm Ht Hir Hiw. cbn [buildPawns]. rewrite lookup_singleton_eq. destruct (assignPort _ _ _) as [[port used'] next'].
  unfold buildPawn, optionalQuantity. rewrite Hc, inr_bind, (decide_False (P := rp_Memory raw = "")) by done. rewrite Hm. cbn [orErr]. rewrite inr_bind, Ht. cbn [orErr].
  rewrite inr_bind, Hir, Hiw. cbn. eexists. by split_and!.
Qed.
End Accepted.

(** C22: The configuration that joining writes is one that the program accepts: it gives exactly one pawn, which is the host itself under the base port if no kubelet was found, and else one named after the host that only tolerating pods reach. *)
Theorem join_config_accepted ParseQuantity ParseTaints range exists_ env baseDir primary cni h base cpu mem ts :
  ranges range → env.(je_hostname) = Some h → h ≠ "" →
  ParseQuantity "100m" = Some base → ParseQuantity "100%" = None → ParseQuantity "1000m" = Some cpu → ParseQuantity "512M" = Some mem →
  ParseTaints [] = Some [] → ParseTaints ["node.periapsis.io/type=pawn:NoSchedule"] = Some ts →
  ∃ cfg p, Process ParseQuantity ParseTaints range h exists_ (renderConfig primary cni (pawnNameOf env)) baseDir = inr cfg ∧
    cfg.(pg_Pawns) = [p] ∧ p.(pcf_Name) = (if primary then h else pawnNameOf env) ∧ p.(pcf_IsPrimary) = primary ∧
    p.(pcf_Port) = (if primary then 12260 else 12261)%Z ∧ p.(pcf_CPU) = cpu ∧ p.(pcf_Memory) = mem ∧
    p.(pcf_Taints) = (if primary then [] else ts).
Proof.
  intros Hr Hh Hne Hbase Hpct Hcpu Hmem Ht0 Ht. unfold Process.
  set (r := renderConfig primary cni (pawnNameOf env)).
  change (rg_DefaultCPU (r_Global r)) with "100%". change (rg_DefaultMemory (r_Global r)) with "512M".
  rewrite Hbase, Hmem. cbn [orErr]. rewrite inr_bind, (parseCPU_percent _ cpu) by done. rewrite !inr_bind.
  subst r. rewrite (expand_rendered range Hr) by done. rewrite inr_bind.
  assert (∀ d, parseCPU ParseQuantity "100%" d = inr cpu) as Hp by (intros d; by apply parseCPU_percent).
  destruct primary; rewrite (range_singleton range Hr), (sortedNames_singleton range Hr); cbn [reservePorts primaryPawn generatedPawn renderConfig r_Global rp_Port rg_PerigeosPort].
  - rewrite (decide_False (P := 12260%Z = 0%Z)), (decide_False (P := 12260%Z ∈ ∅)) by (done || apply not_elem_of_empty). rewrite inr_bind.
    destruct (build_one ParseQuantity ParseTaints range (renderConfig true cni (pawnNameOf env)) h baseDir cpu mem h
      (primaryPawn (renderConfig true cni (pawnNameOf env))) ({[12260%Z]} ∪ ∅) (12260 + 1)%Z cpu mem []) as (p & H & H1 & H2 & H3 & H4 & H5 & H6); try done.
    { cbn. by rewrite (range_empty range Hr). }
    change (12260 + 1)%Z with 12261%Z in *. eexists _, p. rewrite H. split; [reflexivity|]. cbn. rewrite bool_decide_eq_true_2 in H3 by done. by split_and!.
  - rewrite (decide_True (P := 0%Z = 0%Z)) by done. rewrite inr_bind.
    destruct (build_one ParseQuantity ParseTaints range (renderConfig false cni (pawnNameOf env)) h baseDir cpu mem (pawnNameOf env)
      generatedPawn ∅ (12260 + 1)%Z cpu mem ts) as (p & H & H1 & H2 & H3 & H4 & H5 & H6); try done.
    { unfold generatedPawn at 1. cbn [rp_Taints]. by rewrite (range_singleton range Hr). }
    eexists _, p. rewrite H. split; [reflexivity|]. cbn. by split_and!.
Qed.

(** ** A host *)

Definition joinSleeps (t : list JAct) : Z := foldr (λ a n, (match a with JSleep ms => Z.max 0 ms | _ => 0 end + n)%Z) 0%Z t.

(** The socket is there after two seconds, [ok] says which calls succeed. *)
Definition demoJEnv (ok : list JAct → bool) : JEnv := {|
  je_uid := 0; je_pid1 := Some "/usr/lib/systemd/systemd"; je_private := false; je_nspawn := true; je_hostname := Some "Host_1.example";
  je_proc := Some [("self", true); ("1", true); ("417", true)];
  je_cmdline := λ p, if decide (p = "/proc/417/cmdline") then Some "/usr/bin/sleep" else None;
  je_ok := ok; je_left := λ _, Some ""; je_clusterInfo := None; je_cacerts := λ url, if decide (url = "https://k3s:6443/cacerts") then Some "ca" else None;
  je_load := λ _, None; je_node := λ _, None; je_agent := true; je_socket := λ t, negb (joinSleeps t =? 0)%Z;
  je_now := joinSleeps; je_list := Some 0; je_watch := Some [NDeleted; NAdded] |}.

Definition demoOptions (dry : bool) : Options :=
  {| op_APIServer := "https://k3s:6443/"; op_Token := "t"; op_Kubeconfig := ""; op_ConfigDir := "/etc/apsis"; op_BaseDir := "/var/lib/apsis"; op_DryRun := dry |}.

Definition noFiles : JoinFiles := {| jf_kubeconfig := None; jf_config := None; jf_unit := None |}.

Lemma demo_joinClock ok : joinClock (demoJEnv ok).
Proof.
  assert (∀ t u, joinSleeps (t ++ u) = (joinSleeps t + joinSleeps u)%Z) as Happ.
  { intros t u. unfold joinSleeps. induction t as [|a t IH]; [done|]. cbn. rewrite IH. lia. }
  split; cbn [demoJEnv je_now]; intros t u; rewrite Happ; [|cbn; lia].
  assert (0 <= joinSleeps u)%Z; [|lia]. unfold joinSleeps. induction u as [|a u IH]; cbn; [lia|]. destruct a; lia.
Qed.

Lemma join_effects_witness :
  let '(s, r) := Run (demoJEnv (λ _, true)) (demoOptions false) {| t_trace := []; t_data := noFiles |} in
  r = inr tt ∧ joined (demoJEnv (λ _, true)) (demoOptions false) None s.(t_data) ∧
  changes s.(t_trace) = [JMkdir "/etc/apsis" true; JWriteKubeconfig "/etc/apsis/kubeconfig.yaml" true; JWriteConfig "/etc/apsis/perigeos.toml" true;
    JWriteUnit true; JSystemctl ["daemon-reload"] true; JSystemctl ["enable"; "perigeos.service"] true; JSystemctl ["restart"; "perigeos.service"] true].
Proof.
  destruct (join_effects (demoJEnv (λ _, true)) (demoOptions false) [] noFiles (demo_joinClock _)) as (r & new & f' & Hrun & _ & H).
  assert (Hc := Hrun). vm_compute in Hc. injection Hc as Hn Hf Hr. rewrite Hrun. cbn [t_trace t_data app].
  rewrite decide_False in H by (vm_compute; by intros []). cbn [op_DryRun demoOptions] in H. rewrite <- Hr in *.
  destruct H as [H1 H2]. split; [reflexivity|]. split; [exact H2|exact H1].
Defined.

Definition demoQuantity (s : string) : option Quantity := if decide (s = "100%") then None else Some zeroQuantity.

Lemma join_config_accepted_witness :
  ∃ cfg p, Process demoQuantity (λ l, Some (map (λ s, {| t_Key := s; t_Value := ""; t_Effect := "" |}) l)) (λ A m, map_to_list m) "Host_1.example"
    (λ _, false) (renderConfig false true (pawnNameOf (demoJEnv (λ _, true)))) "/var/lib/apsis" = inr cfg ∧
    cfg.(pg_Pawns) = [p] ∧ p.(pcf_Name) = "host-1-example-01" ∧ p.(pcf_IsPrimary) = false.
Proof.
  destruct (join_config_accepted demoQuantity (λ l, Some (map (λ s, {| t_Key := s; t_Value := ""; t_Effect := "" |}) l)) (λ A m, map_to_list m)
    (λ _, false) (demoJEnv (λ _, true)) "/var/lib/apsis" false true "Host_1.example" zeroQuantity zeroQuantity zeroQuantity
    [{| t_Key := "node.periapsis.io/type=pawn:NoSchedule"; t_Value := ""; t_Effect := "" |}])
    as (cfg & p & H1 & H2 & H3 & H4 & _); [by intros A m|done..|].
  exists cfg, p. split; [exact H1|]. split; [exact H2|]. split; [rewrite H3; reflexivity|exact H4].
Defined.

(** A cluster-info as kubeadm writes it has one cluster without a name, and no
    users and no contexts: the token is added under a name that nothing uses. *)
Example token_unused :
  let cfg := injectToken {| kc_Clusters := {[ "" := ("https://api", "ca") ]}; kc_AuthInfos := ∅; kc_Contexts := ∅; kc_CurrentContext := "" |} "t" in
  (cfg.(kc_AuthInfos) !! "perigeos", cfg.(kc_Contexts) !! cfg.(kc_CurrentContext)) = (Some (TokenAuth "t"), None).
Proof. reflexivity. Qed.

(** Joining again after a kubelet was installed keeps the configuration of a
    primary pawn. *)
Example primary_kept :
  let kubelet := let e := demoJEnv (λ _, true) in {| e with je_cmdline := λ _, Some "/usr/bin/kubelet" |} in
  let old := CfgWhole (renderConfig true true "host-01") in
  (Run kubelet (demoOptions false) {| t_trace := []; t_data := {| noFiles with jf_config := Some old |} |}).1.(t_data).(jf_config) = Some old.
Proof. vm_compute. reflexivity. Qed.

(** A configuration of which only a part could be written is kept by the next
    attempt, which succeeds with it. *)
Example partial_config_kept :
  let noSpace := {| (demoJEnv (λ t, negb (existsb (λ a, match a with JGetAgent => true | _ => false end) t)))
                    with je_left := λ _, Some "[perigeos]" |} in
  let '(s, r) := Run noSpace (demoOptions false) {| t_trace := []; t_data := noFiles |} in
  let '(s', r') := Run (demoJEnv (λ _, true)) (demoOptions false) {| t_trace := []; t_data := s.(t_data) |} in
  r = inl ErrWriteConfig ∧ r' = inr tt ∧ s'.(t_data).(jf_config) = Some (CfgPart "[perigeos]").
Proof. vm_compute. auto. Qed.
