(* ===== verification/Lifecycle.v ===== *)
(** * The life of a pod (node/lifecycle.go)

    Creation, deletion and restart: [CreatePod] registers a pod and starts
    the goroutine that retries [syncPodSandboxAndContainers] until it
    succeeds, [DeletePod] tears a pod down, [restartContainer] launches one
    container again.  The runtime, the image and network managers, the volume
    resolver, the batch watcher and the clock answer through the record
    [World]; their answers may depend on everything done before, and between
    two calls other goroutines may change the store ([w_others]).  The calls
    made are kept in a trace, in order.  Log output, the texts of recorded
    events and the progress of image pulls are left out. *)
From stdpp Require Import pretty.
From S2P Require Import Prelude Corev1 Monad Paths Types Probes PodStore Persist Status Env VolTracker BatchWatcher Runtime Resources Config.
Import Str.

#[local] Arguments String.append !_ _ : simpl nomatch.

Definition machineStartTimeout : Duration := 60 * Second.
Definition initContainerTimeout : Duration := 10 * Minute.
Definition createBackoffInit : Duration := 2 * Second.
Definition createBackoffMax : Duration := 5 * Minute.

(** ** Calls *)

(** A call with its answer; an [option string] is the error. *)
Inductive Call :=
  | CEvent (eventType reason : string)
  | CSetup (uid : string) (netPath podIP : string) (err : option string)
  | CNetTeardown (uid namespace name : string)
  | CContainerState (uid name : string) (state : MachineState)
  | CPull (image policy : string) (err : option string)
  | CMount (overlay : string) (layers : list string) (err : option string)
  | CUnmount (overlay : string)
  | CVolumes (uid name : string) (err : option string)
  | CResolvConf (rootfs : string)
  | CStop (uid name : string)
  | CReset (uid name : string)
  | CRun (uid name : string) (cfg : PodConfig) (err : option string)
  | CWaitExit (uid name : string) (state : MachineState) (err : option string)
  | CStatus (uid name : string) (state : option MachineState)
  | CSleep (d : Duration)
  | CMarkRunning (uid name : string)
  | CSharedMounts (uid name : string) (err : option string)
  | CHook (uid name hook : string) (err : option string)
  | CTrack (uid : string)
  | CUntrack (uid : string)
  | CPoke
  | CRemoveAll (path : string)
  | CCleanupCSI (uid : string)
  | CVolumeCleanup (uid : string)
  | CCancel (uid : string) (handle : option nat)
  | CAcquire (ok : bool)
  | CRelease
  | CDeleteState (uid : string)
  | CNotify (pod : Pod)
  | CWriteState (state : PersistedPodState)
  | CCheckMachined (err : option string).

Abbreviation History := (list Call).

(** Errors, by the prefix that [fmt.Errorf] gives them; [ErrFuel] is the end of
    the fuel of [waitForContainer], which a clock that advances excludes
    ([waitForContainer_terminates]). *)
Inductive LaunchErr :=
  | ErrPull (err : string)
  | ErrMount (err : string)
  | ErrVolume (err : string)
  | ErrRunMachine (err : string)
  | ErrInitWait (err : string)
  | ErrInitExited
  | ErrWait (err : string)
  | ErrSharedMounts (err : string)
  | ErrPostStart (err : string)
  | ErrFuel.

Inductive SyncErr :=
  | ErrNetwork (err : string)
  | ErrEnv (err : EnvErr)
  | ErrInit (name : string) (err : LaunchErr)
  | ErrApp (name : string) (err : LaunchErr).

(** [w_clock] gives the successive readings of the clock that are made without
    a call in between; [w_errText] is [err.Error()]. *)
Record World := {
  w_now : History → Time;
  w_clock : History → nat → Time;
  w_cancelled : History → bool;
  w_acquired : History → bool;
  w_others : History → PodStore → PodStore;
  w_Setup : History → string → string * string * option string;
  w_rm : History → ResourceManager;
  w_ContainerState : History → string → string → MachineState;
  w_Pull : History → string → string → list string * bool * option string;
  w_Mount : History → string → list string → string + string;
  w_Volumes : History → string → string → string + list BindMount;
  w_Entrypoint : History → string → list string * list string;
  w_Run : History → string → string → option string;
  w_WaitExit : History → string → string → MachineState * option string;
  w_Status : History → string → string → option MachineState;
  w_SharedMounts : History → string → string → option string;
  w_RunInContainer : History → string → string → list string → option string;
  w_HTTPGet : History → string → option (string + Z);
  w_Machined : History → option string;
  w_errText : SyncErr → string;
}.

(** The goroutine: the trace, the store, the pod object it works on (the one
    that [RegisterPending] put into the store), the pull cache, and the volume
    tracker. *)
Record LState := {
  l_trace : History;
  l_store : PodStore;
  l_pod : Pod;
  l_cache : gmap string (list string * bool);
  l_vols : VolumeTracker;
}.

Abbreviation LM := (SE LState).

Section Lifecycle.
Context (w : World) (cfg : PawnConfig) (tidal : Tidal) (clusterDNS : string) (outbound : option string).
Context (IsEnvVarName IsQualifiedName : string → bool) (range : ∀ A, gmap string A → list (string * A)).

(** A call records itself; then the other goroutines run. *)
Definition callE {E A} (answer : History → A) (record : A → Call) : LM E A := λ s,
  let a := answer s.(l_trace) in
  let trace := s.(l_trace) ++ [record a] in
  ({| s with l_trace := trace; l_store := w.(w_others) trace s.(l_store) |}, inr a).

Definition doE {E} (c : Call) : LM E () := callE (λ _, tt) (λ _, c).

Definition event {E} (eventType reason : string) : LM E () := doE (CEvent eventType reason).

Definition onStore {E} (f : PodStore → PodStore) : LM E () := modifyS (λ s, {| s with l_store := f s.(l_store) |}).

(** The fields of the pod object are written in place: the store sees them as
    long as its entry is the one of this creation. *)
Definition setPod {E} (handle : nat) (pod : Pod) : LM E () :=
  modifyS (λ s, {| s with l_pod := pod;
    l_store := modify s.(l_store) pod.(p_UID) (λ ps,
      if decide (ps.(pst_inFlight) = Some handle) then {| ps with pst_pod := pod |} else ps) |}).

Definition StopMachineC {E} (uid name : string) : LM E () := doE (CStop uid name).
Definition ResetUnitC {E} (uid name : string) : LM E () := doE (CReset uid name).
Definition stopAndReset {E} (uid name : string) : LM E () := _ ← StopMachineC uid name; ResetUnitC uid name.

Definition overlayName (uid name : string) : string := uid +:+ "-" +:+ name.
Definition Unmount {E} (uid name : string) : LM E () := doE (CUnmount (overlayName uid name)).

Definition podTerminationGracePeriod (pod : Pod) : Z := default 30%Z pod.(p_TerminationGracePeriodSeconds).

(** ** Hooks *)

(** The answer of a request is a transport error or a status code; a URL that
    cannot be made into a request is [None]. *)
Definition runLifecycleHook {E} (uid name hook : string) (handler : LifecycleHandler) : LM E (option string) :=
  err ← match handler.(lh_Exec), handler.(lh_HTTPGet), handler.(lh_Sleep) with
        | Some cmd, _, _ => gets (λ s, w.(w_RunInContainer) s.(l_trace) uid name cmd)
        | None, Some g, _ =>
            podIP ← gets (λ s, PodIP s.(l_store) uid);
            let h := if decide (g.(h_Host) = "") then podIP else g.(h_Host) in
            if decide (h = "") then mret (Some "no host/podIP available") else
            let url := (if g.(h_HTTPS) then "https" else "http") +:+ "://" +:+ h +:+ ":" +:+ g.(h_Port) +:+ g.(h_Path) in
            resp ← gets (λ s, w.(w_HTTPGet) s.(l_trace) url);
            mret (match resp with
                  | None => Some "bad request"
                  | Some (inl err) => Some ("HTTP request failed: " +:+ err)
                  | Some (inr code) => if (300 <=? code)%Z then Some ("HTTP status " +:+ pretty code) else None
                  end)
        | None, None, Some seconds => _ ← doE (CSleep (seconds * Second)); mret None
        | None, None, None => mret None
        end;
  _ ← doE (CHook uid name hook err);
  mret err.

Definition runPreStopHooks {E} (pod : Pod) (uid : string) : LM E () :=
  forM pod.(p_Containers) (λ c,
    match c.(c_Lifecycle) ≫= lc_PreStop with
    | None => mret tt
    | Some handler => _ ← runLifecycleHook uid c.(c_Name) "PreStop" handler; mret tt
    end).

(** ** Waiting for a container *)

(** [None] is the end of the fuel; the result is nil or the error. *)
Fixpoint waitForContainer_loop (fuel : nat) (uid name : string) (isInit : bool) (deadline : Time) (seenActive : bool)
    : LM LaunchErr (option (option string)) :=
  match fuel with
  | O => mret None
  | S fuel =>
      now ← gets (λ s, w.(w_now) s.(l_trace));
      if negb (now <? deadline)%Z then mret (Some (Some "did not become running")) else
      state ← callE (λ h, w.(w_Status) h uid name) (CStatus uid name);
      let seenActive := match state with Some StateCreating | Some StateRunning => true | _ => seenActive end in
      let result := match state with
                    | Some StateRunning => Some None
                    | Some StateExited => if isInit then Some None
                                          else if negb seenActive then None
                                          else Some (Some "exited prematurely")
                    | Some StateFailed => Some (Some "failed on startup")
                    | _ => None
                    end in
      match result with
      | Some r => mret (Some r)
      | None =>
          cancelled ← gets (λ s, w.(w_cancelled) s.(l_trace));
          if cancelled : bool then mret (Some (Some "context canceled")) else
          _ ← doE (CSleep (500 * 1000000));
          waitForContainer_loop fuel uid name isInit deadline seenActive
      end
  end.

(** One poll every half second at most. *)
Definition waitFuel (timeout : Duration) : nat := Z.to_nat (timeout / (500 * 1000000) + 2).

Definition waitForContainer (uid name : string) (isInit : bool) (timeout : Duration)
    : LM LaunchErr (option (option string)) :=
  now ← gets (λ s, w.(w_now) s.(l_trace));
  waitForContainer_loop (waitFuel timeout) uid name isInit (now + timeout)%Z false.

(** ** Launching a container *)

Definition pullLayers (c : Container) : LM LaunchErr (list string) :=
  cache ← gets l_cache;
  match cache !! c.(c_Image) with
  | Some (layers, _) => mret layers
  | None =>
      _ ← event "Normal" "Resolving";
      r ← callE (λ h, w.(w_Pull) h c.(c_Image) c.(c_ImagePullPolicy))
            (λ r, CPull c.(c_Image) c.(c_ImagePullPolicy) r.2);
      let '(layers, cached, err) := r in
      match err with
      | Some e => throw (ErrPull e)
      | None =>
          _ ← modifyS (λ s, {| s with l_cache := <[c.(c_Image) := (layers, cached)]> s.(l_cache) |});
          mret layers
      end
  end.

Definition errOf {A} (r : string + A) : option string := match r with inl e => Some e | inr _ => None end.

Definition mountOverlay (uid : string) (c : Container) (layers : list string) : LM LaunchErr string :=
  r ← callE (λ h, w.(w_Mount) h (overlayName uid c.(c_Name)) layers)
        (λ r, CMount (overlayName uid c.(c_Name)) layers (errOf r));
  match r with
  | inl e => throw (ErrMount e)
  | inr rootfs => _ ← event "Normal" "Mounted"; mret rootfs
  end.

Definition resolveVolumes (uid : string) (c : Container) : LM LaunchErr (list BindMount) :=
  r ← callE (λ h, w.(w_Volumes) h uid c.(c_Name)) (λ r, CVolumes uid c.(c_Name) (errOf r));
  match r with
  | inl e => _ ← Unmount uid c.(c_Name); throw (ErrVolume e)
  | inr binds => mret binds
  end.

Definition podConfig (pod : Pod) (c : Container) (uid netPath podIP rootfs : string) (binds : list BindMount)
    (profile : containerRuntimeProfile) (image : list string * list string) : PodConfig := {|
  cfg_Name := pod.(p_Name); cfg_Namespace := pod.(p_Namespace); cfg_UID := uid; cfg_ContainerName := c.(c_Name);
  cfg_Container := c; cfg_PawnName := cfg.(pcf_Name); cfg_RootFS := rootfs; cfg_BindMounts := binds;
  cfg_NetNSPath := netPath; cfg_HostNetwork := pod.(p_HostNetwork); cfg_Privileged := isPrivileged c;
  cfg_HostPID := pod.(p_HostPID); cfg_RunAsUser := profile.(RunAsUser); cfg_RunAsGroup := profile.(RunAsGroup);
  cfg_Environment := ResolveEnv tidal pod c podIP; cfg_PodIP := podIP;
  cfg_MemoryLimitBytes := profile.(MemoryLimitBytes); cfg_SwapLimitBytes := profile.(SwapLimitBytes);
  cfg_CPULimitMillis := profile.(CPULimitMillis); cfg_CPURequestMillis := profile.(CPURequestMillis);
  cfg_OOMScoreAdjust := profile.(OOMScoreAdjust); cfg_ImageEntrypoint := image.1; cfg_ImageCmd := image.2;
  cfg_TerminationGracePeriodSeconds := podTerminationGracePeriod pod |}.

Definition runMachineC (uid : string) (c : Container) (pcfg : PodConfig) : LM LaunchErr () :=
  _ ← stopAndReset uid c.(c_Name);
  _ ← whenM (bool_decide (is_Some pcfg.(cfg_RunAsUser))) (event "Normal" "UserIdentity");
  err ← callE (λ h, w.(w_Run) h uid c.(c_Name)) (CRun uid c.(c_Name) pcfg);
  match err with
  | None => mret tt
  | Some e =>
      _ ← Unmount uid c.(c_Name);
      _ ← stopAndReset uid c.(c_Name);
      throw (ErrRunMachine e)
  end.

(** The branch of an init container: wait for its end. *)
Definition awaitInit (uid : string) (c : Container) : LM LaunchErr () :=
  r ← callE (λ h, w.(w_WaitExit) h uid c.(c_Name)) (λ r, CWaitExit uid c.(c_Name) r.1 r.2);
  _ ← Unmount uid c.(c_Name);
  match r with
  | (_, Some e) => _ ← stopAndReset uid c.(c_Name); throw (ErrInitWait e)
  | (StateFailed, None) => throw ErrInitExited
  | (_, None) => mret tt
  end.

(** The other branch: wait until it runs, then share mounts and run the hook. *)
Definition awaitApp (uid : string) (c : Container) (isInit : bool) : LM LaunchErr () :=
  r ← waitForContainer uid c.(c_Name) isInit machineStartTimeout;
  _ ← match r with
      | None => throw ErrFuel
      | Some None => mret tt
      | Some (Some e) => _ ← stopAndReset uid c.(c_Name); throw (ErrWait e)
      end;
  _ ← doE (CMarkRunning uid c.(c_Name));
  err ← callE (λ h, w.(w_SharedMounts) h uid c.(c_Name)) (CSharedMounts uid c.(c_Name));
  _ ← match err with
      | None => mret tt
      | Some e => _ ← StopMachineC uid c.(c_Name); _ ← Unmount uid c.(c_Name); throw (ErrSharedMounts e)
      end;
  match c.(c_Lifecycle) ≫= lc_PostStart with
  | None => mret tt
  | Some handler =>
      err ← runLifecycleHook uid c.(c_Name) "PostStart" handler;
      match err with
      | None => mret tt
      | Some e => _ ← event "Warning" "PostStartHookFailed"; throw (ErrPostStart e)
      end
  end.

Definition launchContainer (pod : Pod) (c : Container) (uid netPath podIP : string)
    (profiles : gmap string containerRuntimeProfile) (isInit : bool) : LM LaunchErr () :=
  layers ← pullLayers c;
  rootfs ← mountOverlay uid c layers;
  binds ← resolveVolumes uid c;
  _ ← whenM (bool_decide (clusterDNS ≠ "")) (doE (CResolvConf rootfs));
  let profile := default zeroProfile (profiles !! c.(c_Name)) in
  image ← gets (λ s, w.(w_Entrypoint) s.(l_trace) c.(c_Image));
  _ ← runMachineC uid c (podConfig pod c uid netPath podIP rootfs binds profile image);
  if isInit then awaitInit uid c else awaitApp uid c isInit.

(** ** Bringing a pod up *)

Definition netnsPath (uid : string) : string := pathJoin ["/var/run/netns"; "peri-" +:+ uid].

(** Step 1: the network path and the pod's address. *)
Definition setupNetwork (uid : string) : LM SyncErr (string * string) :=
  pod ← gets l_pod;
  podIP ← gets (λ s, PodIP s.(l_store) uid);
  if pod.(p_HostNetwork) then mret ("/proc/1/ns/net", resolveNodeIP cfg.(pcf_NodeIP) outbound)
  else if decide (podIP = "") then
    r ← callE (λ h, w.(w_Setup) h uid) (λ r, CSetup uid r.1.1 r.1.2 r.2);
    let '(netPath, podIP, err) := r in
    match err with
    | Some e =>
        _ ← event "Warning" "NetworkFailed";
        _ ← whenM (bool_decide (podIP ≠ "")) (onStore (λ st, SetPodIP st uid podIP));
        throw (ErrNetwork e)
    | None => _ ← event "Normal" "NetworkReady"; mret (netPath, podIP)
    end
  else _ ← event "Normal" "Reconciling"; mret (netnsPath uid, podIP).

(** Step 2: the pod object is completed in place. *)
Definition resolveEnvironment (handle : nat) (podIP : string) : LM SyncErr () :=
  pod ← gets l_pod;
  let pod := {| pod with p_Status := {| pod.(p_Status) with ps_PodIP := podIP; ps_PodIPs := [podIP];
                 ps_HostIP := resolveNodeIP cfg.(pcf_NodeIP) outbound |} |} in
  _ ← setPod handle pod;
  rm ← gets (λ s, w.(w_rm) s.(l_trace));
  let '(es, r) := PopulateEnvironmentVariables IsEnvVarName IsQualifiedName range rm
                    {| env_pod := pod; env_events := [] |} in
  _ ← setPod handle es.(env_pod);
  _ ← forM es.(env_events) (λ e, event "Warning" e.(rec_Reason));
  match r with
  | inl e => _ ← event "Warning" "PopulateEnvFailed"; throw (ErrEnv e)
  | inr _ => mret tt
  end.

(** Step 3: one init container. *)
Definition isSidecar (ic : Container) : bool := bool_decide (ic.(c_RestartPolicy) = Some RestartPolicyAlways).

Definition initContainer (uid netPath podIP : string) (profiles : gmap string containerRuntimeProfile) (ic : Container)
    : LM SyncErr () :=
  state ← callE (λ h, w.(w_ContainerState) h uid ic.(c_Name)) (CContainerState uid ic.(c_Name));
  if isSidecar ic && bool_decide (state = StateRunning) then mret tt
  else if negb (isSidecar ic) && bool_decide (state = StateExited) then mret tt
  else
    pod ← gets l_pod;
    r ← try (mapErr (ErrInit ic.(c_Name)) (launchContainer pod ic uid netPath podIP profiles (negb (isSidecar ic))));
    match r with
    | inl e => _ ← event "Warning" "InitFailed"; throw e
    | inr _ => mret tt
    end.

(** Step 4: one app container. *)
Definition appContainer (uid netPath podIP : string) (profiles : gmap string containerRuntimeProfile) (c : Container)
    : LM SyncErr () :=
  phase ← gets (λ s, PodPhase_of s.(l_store) uid);
  known ← (if decide (phase = PodRunning) then
             state ← callE (λ h, w.(w_ContainerState) h uid c.(c_Name)) (CContainerState uid c.(c_Name));
             mret (bool_decide (state ∈ [StateRunning; StateExited; StateFailed]))
           else mret false);
  if known : bool then mret tt else
  pod ← gets l_pod;
  r ← try (mapErr (ErrApp c.(c_Name)) (launchContainer pod c uid netPath podIP profiles false));
  match r with
  | inl e => _ ← event "Warning" "StartFailed"; throw e
  | inr _ => event "Normal" "Created"
  end.

Definition syncPodSandboxAndContainers (handle : nat) : LM SyncErr () :=
  uid ← gets (λ s, s.(l_pod).(p_UID));
  net ← setupNetwork uid;
  let '(netPath, podIP) := net in
  _ ← modifyS (λ s, {| s with l_store := InitRestartState (w.(w_clock) s.(l_trace)) s.(l_store) s.(l_pod) |});
  _ ← resolveEnvironment handle podIP;
  pod ← gets l_pod;
  let profiles := buildContainerRuntimeProfiles pod cfg.(pcf_Memory).(Value) in
  _ ← forM pod.(p_InitContainers) (initContainer uid netPath podIP profiles);
  _ ← event "Normal" "SandboxReady";
  _ ← forM pod.(p_Containers) (appContainer uid netPath podIP profiles);
  _ ← modifyS (λ s, {| s with l_store := PromoteRunning s.(l_store) uid s.(l_pod) podIP |});
  _ ← modifyS (λ s, {| s with l_vols := Track s.(l_vols) uid s.(l_pod) |});
  _ ← doE (CTrack uid);
  _ ← event "Normal" "Started";
  doE CPoke.

(** ** Creation *)

(** The callback, which is registered before the first pod, and the state file. *)
Definition notifyPodStatus {E} (pod : Pod) : LM E () :=
  _ ← doE (CNotify pod);
  store ← gets l_store;
  doE (CWriteState (persistedState store pod pod.(p_Status).(ps_Phase))).

Definition PersistPodState {E} (pod : Pod) : LM E () :=
  store ← gets l_store;
  doE (CWriteState (persistedState store pod (PodPhase_of store pod.(p_UID)))).

Definition PersistPodStateByUID {E} (uid : string) : LM E () :=
  store ← gets l_store;
  match GetPodCopy store uid with
  | None => mret tt
  | Some pod => PersistPodState pod
  end.

Definition markPodFailed {E} (uid : string) (err : SyncErr) : LM E () :=
  _ ← event "Warning" "CreateFailed";
  pod ← gets l_pod;
  store ← gets l_store;
  let '(store, failedPod) := MarkFailed store uid pod "CreateFailed" (w.(w_errText) err) in
  _ ← onStore (λ _, store);
  notifyPodStatus failedPod.

Definition nextBackoff (b : Duration) : Duration :=
  let b := wrap64 (b * 2) in if (createBackoffMax <? b)%Z then createBackoffMax else b.

(** How the goroutine ends; [SagaRunning] is the end of the fuel. *)
Inductive SagaEnd := SagaRunning | SagaDone | SagaFailed | SagaCancelled.

Fixpoint saga_loop (fuel : nat) (handle : nat) (uid : string) (neverRestart : bool) (backoff : Duration)
    : LM Empty_set SagaEnd :=
  match fuel with
  | O => mret SagaRunning
  | S fuel =>
      r ← handled (syncPodSandboxAndContainers handle);
      match r with
      | inr _ => mret SagaDone
      | inl err =>
          _ ← event "Warning" "CreateFailed";
          if neverRestart then _ ← markPodFailed uid err; mret SagaFailed else
          _ ← event "Warning" "BackOff";
          cancelled ← gets (λ s, w.(w_cancelled) s.(l_trace));
          if cancelled : bool then mret SagaCancelled else
          _ ← doE (CSleep backoff);
          saga_loop fuel handle uid neverRestart (nextBackoff backoff)
      end
  end.

(** The goroutine: [w_acquired] tells whether it gets a slot of [createSem]
    before it is cancelled. *)
Definition saga (fuel : nat) (handle : nat) : LM Empty_set SagaEnd :=
  acquired ← callE w.(w_acquired) CAcquire;
  if acquired : bool then
    pod ← gets l_pod;
    _ ← modifyS (λ s, {| s with l_cache := ∅ |});
    r ← saga_loop fuel handle pod.(p_UID) (bool_decide (pod.(p_RestartPolicy) = RestartPolicyNever)) createBackoffInit;
    match r with
    | SagaRunning => mret r
    | _ => _ ← doE CRelease; mret r
    end
  else mret SagaCancelled.

(** The synchronous part of [CreatePod]: the store, and the admission error or
    whether the goroutine of [handle] is started.  [hp] is the pressure that
    [psi.Read] reports.  Its two events are left out. *)
Definition CreatePod (hp : option (QArith_base.Q * QArith_base.Q)) (clk : nat → Time) (handle : nat) (s : PodStore) (pod : Pod)
    : PodStore * (AdmitResult + bool) :=
  if decide (length pod.(p_Containers) = 0) then (s, inr false) else
  match AdmitPod hp s pod cfg.(pcf_CPU) cfg.(pcf_Memory) with
  | AdmitOK =>
      let uid := pod.(p_UID) in
      if AlreadyInFlight s uid then (s, inr false) else
      let '(s, (exists_, wasStub)) := AlreadyRunning s uid pod in
      if exists_ : bool then (if wasStub : bool then InitRestartState clk s pod else s, inr false)
      else (RegisterPending s uid pod handle, inr true)
  | reason => (s, inl reason)
  end.

(** ** Deletion *)

Definition overlayDir (uid name : string) : string :=
  pathJoin [cfg.(pcf_BaseDir); "pawns"; cfg.(pcf_Name); "pods"; overlayName uid name].
Definition podDir (uid : string) : string := pathJoin [cfg.(pcf_BaseDir); "pawns"; cfg.(pcf_Name); "pods"; uid].

Definition teardownContainer {E} (uid : string) (c : Container) : LM E () :=
  _ ← event "Normal" "Killing";
  _ ← stopAndReset uid c.(c_Name);
  _ ← Unmount uid c.(c_Name);
  _ ← doE (CRemoveAll (overlayDir uid c.(c_Name)));
  event "Normal" "Killed".

Definition teardownPodIdempotent {E} (uid : string) (pod : Pod) : LM E () :=
  _ ← event "Normal" "Killing";
  _ ← forM (pod.(p_Containers) ++ pod.(p_InitContainers)) (teardownContainer uid);
  _ ← whenM (negb pod.(p_HostNetwork))
        (_ ← doE (CNetTeardown uid pod.(p_Namespace) pod.(p_Name)); event "Normal" "NetworkTeardown");
  _ ← doE (CCleanupCSI uid);
  _ ← doE (CVolumeCleanup uid);
  doE (CRemoveAll (podDir uid)).

(** [CancelInFlight] waits for the goroutine of the creation to end; its last
    steps are steps of another goroutine. *)
Definition DeletePod {E} (pod : Pod) : LM E () :=
  let uid := pod.(p_UID) in
  _ ← onStore (λ st, MarkDeleting st uid);
  handle ← gets (λ s, CancelInFlight s.(l_store) uid);
  _ ← doE (CCancel uid handle);
  _ ← doE (CDeleteState uid);
  _ ← runPreStopHooks pod uid;
  _ ← teardownPodIdempotent uid pod;
  _ ← modifyS (λ s, {| s with l_vols := Untrack s.(l_vols) uid |});
  _ ← doE (CUntrack uid);
  modifyS (λ s, {| s with l_store := Unregister (w.(w_clock) s.(l_trace) 0) (w.(w_clock) s.(l_trace) 1)
                             s.(l_store) uid pod.(p_Namespace) pod.(p_Name) |}).

(** ** Restart *)

Definition findContainer (pod : Pod) (name : string) : option Container :=
  find (λ c, bool_decide (c.(c_Name) = name)) pod.(p_Containers).

(** [false] is an early return. *)
Definition restartContainer {E} (shuttingDown : bool) (uid : string) (pod : Pod) (name : string) (backoff : Duration)
    : LM E bool :=
  if shuttingDown then mret false else
  _ ← event "Warning" "BackOff";
  cancelled ← gets (λ s, w.(w_cancelled) s.(l_trace));
  if cancelled : bool then mret false else
  _ ← doE (CSleep backoff);
  _ ← stopAndReset uid name;
  _ ← Unmount uid name;
  err ← callE w.(w_Machined) CCheckMachined;
  match err, findContainer pod name with
  | Some _, _ | None, None => mret false
  | None, Some c =>
      podIP ← gets (λ s, PodIP s.(l_store) uid);
      let netPath := if pod.(p_HostNetwork) then "/proc/1/ns/net" else netnsPath uid in
      let profiles := buildContainerRuntimeProfiles pod cfg.(pcf_Memory).(Value) in
      _ ← modifyS (λ s, {| s with l_cache := ∅ |});
      r ← handled (launchContainer pod c uid netPath podIP profiles false);
      match r with
      | inl _ => mret false
      | inr _ =>
          _ ← modifyS (λ s, {| s with l_store := MarkRestarted (w.(w_clock) s.(l_trace) 0) s.(l_store) uid name |});
          store ← gets l_store;
          match GetPodCopy store uid with
          | None => mret true
          | Some restarted =>
              trace ← gets l_trace;
              let status := buildPodStatus (w.(w_clock) trace) (resolveNodeIP cfg.(pcf_NodeIP) outbound) store restarted
                (λ u cn, default StateUnknown (w.(w_Status) trace u cn)) in
              _ ← notifyPodStatus {| restarted with p_Status := status |};
              mret true
          end
      end
  end.
End Lifecycle.

(** ** Reasoning about traces *)

(** A predicate on the calls made so far. *)
Definition tr (P : History → Prop) (s : LState) : Prop := P s.(l_trace).

Section Traces.
Context (w : World).

Lemma tr_call {E A} (answer : History → A) (record : A → Call) (P : History → Prop) (Q : A → History → Prop)
    (R : E → LState → Prop) :
  (∀ h, P h → Q (answer h) (h ++ [record (answer h)])) →
  triple (tr P) (callE w answer record) (λ a, tr (Q a)) R.
Proof. intros H s Hs. by apply H. Qed.

Lemma tr_do {E} c (P Q : History → Prop) (R : E → LState → Prop) :
  (∀ h, P h → Q (h ++ [c])) → triple (tr P) (doE w c) (λ _, tr Q) R.
Proof. intros H. by apply (tr_call _ _ P (λ _, Q)). Qed.

Lemma tr_gets {E A} (f : LState → A) (P : History → Prop) (R : E → LState → Prop) :
  triple (tr P) (gets f) (λ _, tr P) R.
Proof. by apply triple_gets. Qed.

Lemma tr_modify {E} (f : LState → LState) (P : History → Prop) (R : E → LState → Prop) :
  (∀ s, l_trace (f s) = l_trace s) → triple (tr P) (modifyS f) (λ _, tr P) R.
Proof. intros H. apply triple_modify. intros s Hs. unfold tr. by rewrite H. Qed.

(** Calls that leave a predicate alone. *)
Definition ignores (P : History → Prop) (c : Call) : Prop := ∀ h, P h → P (h ++ [c]).

Lemma tr_do_ignored {E} c (P : History → Prop) (R : E → LState → Prop) :
  ignores P c → triple (tr P) (doE w c) (λ _, tr P) R.
Proof. intros H. apply tr_do, H. Qed.

Lemma tr_when {E} b (m : LM E ()) (P : History → Prop) (R : E → LState → Prop) :
  triple (tr P) m (λ _, tr P) R → triple (tr P) (whenM b m) (λ _, tr P) R.
Proof. intros H. by apply triple_when. Qed.

Lemma tr_hook {E} uid name hook handler (P : History → Prop) (R : E → LState → Prop) :
  (∀ d, ignores P (CSleep d)) → (∀ u n h e, ignores P (CHook u n h e)) →
  triple (tr P) (runLifecycleHook w uid name hook handler) (λ _, tr P) R.
Proof.
  intros H1 H2. unfold runLifecycleHook. eapply (triple_bind _ (λ _, tr P)).
  - destruct (lh_Exec handler); [apply tr_gets|]. destruct (lh_HTTPGet handler) as [g|].
    + eapply triple_bind; [apply tr_gets|]. intros podIP. repeat (case_decide; [by apply triple_ret|]).
      all: try (eapply triple_bind; [apply tr_gets|]; intros; by apply triple_ret).
    + destruct (lh_Sleep handler); [|by apply triple_ret].
      eapply triple_bind; [by apply tr_do_ignored|]. intros. by apply triple_ret.
  - intros err. eapply triple_bind; [by apply tr_do_ignored|]. intros. by apply triple_ret.
Qed.

Lemma tr_wait fuel uid name isInit deadline seen (P : History → Prop) R :
  (∀ d, ignores P (CSleep d)) → (∀ u n st, ignores P (CStatus u n st)) →
  triple (tr P) (waitForContainer_loop w fuel uid name isInit deadline seen) (λ _, tr P) R.
Proof.
  intros H1 H2. revert seen. induction fuel as [|fuel IH]; intros seen; cbn; [by apply triple_ret|].
  eapply triple_bind; [apply tr_gets|]. intros now. destruct (negb _); [by apply triple_ret|].
  eapply (triple_bind _ (λ _, tr P)); [apply tr_call; intros; by apply H2|]. intros state.
  assert (∀ seen, triple (tr P) (
    cancelled ← gets (λ s, w.(w_cancelled) s.(l_trace));
    if cancelled : bool then mret (Some (Some "context canceled")) else
    _ ← doE w (CSleep (500 * 1000000)); waitForContainer_loop w fuel uid name isInit deadline seen) (λ _, tr P) R) as Hnext.
  { intros seen'. eapply triple_bind; [apply tr_gets|]. intros [|]; [by apply triple_ret|].
    eapply triple_bind; [by apply tr_do_ignored|]. intros. apply IH. }
  destruct state as [[]|]; try apply Hnext; try by apply triple_ret.
  destruct isInit; [by apply triple_ret|]. destruct seen; [by apply triple_ret|apply Hnext].
Qed.
End Traces.

(** ** What a launch leaves behind *)

(** Whether the overlay of a container is mounted, and whether its machine was
    started and neither stopped nor seen to end since. *)
Definition resStep (uid name : string) (b : bool * bool) (c : Call) : bool * bool :=
  match c with
  | CMount o _ None => if decide (o = overlayName uid name) then (true, b.2) else b
  | CUnmount o => if decide (o = overlayName uid name) then (false, b.2) else b
  | CRun u n _ None => if decide (u = uid ∧ n = name) then (b.1, true) else b
  | CStop u n | CWaitExit u n _ None => if decide (u = uid ∧ n = name) then (b.1, false) else b
  | _ => b
  end.

Definition resources (uid name : string) (h : History) : bool * bool := foldl (resStep uid name) (false, false) h.

Definition leftovers (isInit : bool) (before : bool * bool) (r : LaunchErr + ()) : bool * bool :=
  match r with
  | inr _ => if isInit then (false, false) else (true, true)
  | inl (ErrPull _ | ErrMount _) => before
  | inl (ErrVolume _) => (false, before.2)
  | inl (ErrRunMachine _ | ErrInitWait _ | ErrInitExited | ErrSharedMounts _) => (false, false)
  | inl (ErrWait _) => (true, false)
  | inl (ErrPostStart _ | ErrFuel) => (true, true)
  end.

Section Launch.
Context (w : World) (cfg : PawnConfig) (tidal : Tidal) (clusterDNS : string).
Context (uid : string) (c : Container) (b0 : bool * bool).

Abbreviation res b := (tr (λ h, resources uid c.(c_Name) h = b)).
Abbreviation launched isInit := (λ (e : LaunchErr), res (leftovers isInit b0 (inl e))).

Lemma resources_snoc h x : resources uid c.(c_Name) (h ++ [x]) = resStep uid c.(c_Name) (resources uid c.(c_Name) h) x.
Proof. unfold resources. by rewrite foldl_app. Qed.

Lemma res_do {E} x b b' (R : E → LState → Prop) : resStep uid c.(c_Name) b x = b' →
  triple (res b) (doE w x) (λ _, res b') R.
Proof. intros H. apply tr_do. intros h Hh. by rewrite resources_snoc, Hh. Qed.

Lemma resStep_unmount b : resStep uid c.(c_Name) b (CUnmount (overlayName uid c.(c_Name))) = (false, b.2).
Proof. cbn. by rewrite decide_True. Qed.
Lemma resStep_stop b : resStep uid c.(c_Name) b (CStop uid c.(c_Name)) = (b.1, false).
Proof. cbn. by rewrite decide_True. Qed.

Lemma res_stopAndReset {E} b (R : E → LState → Prop) :
  triple (res b) (stopAndReset w uid c.(c_Name)) (λ _, res (b.1, false)) R.
Proof.
  unfold stopAndReset, StopMachineC, ResetUnitC. eapply triple_bind; [apply res_do, resStep_stop|]. intros [].
  by apply res_do.
Qed.

(** An error branch: what it does, then the error. *)
Lemma res_fail {A} b b' (m : LM LaunchErr ()) e isInit (Q : A → LState → Prop) :
  triple (res b) m (λ _, res b') (launched isInit) → leftovers isInit b0 (inl e) = b' →
  triple (res b) (_ ← m; throw e) Q (launched isInit).
Proof. intros Hm <-. eapply triple_bind; [exact Hm|]. intros []. by apply triple_throw. Qed.

Lemma res_pull isInit : triple (res b0) (pullLayers w c) (λ _, res b0) (launched isInit).
Proof.
  unfold pullLayers. eapply triple_bind; [apply tr_gets|]. intros cache. destruct (cache !! _) as [[??]|]; [by apply triple_ret|].
  eapply triple_bind; [by apply res_do|]. intros [].
  eapply (triple_bind _ (λ _, res b0)); [apply tr_call; intros h Hh; by rewrite resources_snoc|].
  intros [[layers cached] [e|]]; [by apply triple_throw|].
  eapply triple_bind; [by apply tr_modify|]. intros. by apply triple_ret.
Qed.

Lemma res_mount isInit layers :
  triple (res b0) (mountOverlay w uid c layers) (λ _, res (true, b0.2)) (launched isInit).
Proof.
  unfold mountOverlay.
  eapply (triple_bind _ (λ r, res (match r with inl _ => b0 | inr _ => (true, b0.2) end))).
  { apply tr_call. intros h Hh. rewrite resources_snoc, Hh. destruct (w_Mount _ _ _ _); cbn; [done|].
    by rewrite decide_True. }
  intros [e|rootfs]; [by apply triple_throw|]. eapply triple_bind; [by apply res_do|]. intros. by apply triple_ret.
Qed.

Lemma res_volumes isInit :
  triple (res (true, b0.2)) (resolveVolumes w uid c) (λ _, res (true, b0.2)) (launched isInit).
Proof.
  unfold resolveVolumes. eapply (triple_bind _ (λ _, res (true, b0.2))).
  { apply tr_call. intros h Hh. by rewrite resources_snoc, Hh. }
  intros [e|binds]; [|by apply triple_ret]. eapply res_fail; [apply res_do, resStep_unmount|done].
Qed.

Lemma res_run isInit pcfg :
  triple (res (true, b0.2)) (runMachineC w uid c pcfg) (λ _, res (true, true)) (launched isInit).
Proof.
  unfold runMachineC. eapply triple_bind; [apply res_stopAndReset|]. intros [].
  eapply triple_bind; [by apply tr_when, res_do|]. intros [].
  eapply (triple_bind _ (λ err, res (true, bool_decide (err = None)))).
  { apply tr_call. intros h Hh. rewrite resources_snoc, Hh. destruct (w_Run _ _ _ _); cbn; [done|].
    by rewrite decide_True. }
  intros [e|]; [|by apply triple_ret]. eapply triple_bind; [apply res_do, resStep_unmount|]. intros [].
  eapply res_fail; [apply res_stopAndReset|done].
Qed.

Lemma res_awaitInit : triple (res (true, true)) (awaitInit w uid c) (λ _, res (false, false)) (launched true).
Proof.
  unfold awaitInit. eapply (triple_bind _ (λ r, res (true, bool_decide (r.2 ≠ None)))).
  { apply tr_call. intros h Hh. rewrite resources_snoc, Hh. destruct (w_WaitExit _ _ _ _) as [st [e|]]; cbn; [done|].
    by rewrite decide_True. }
  intros [st err]. eapply triple_bind; [apply res_do, resStep_unmount|]. intros [].
  destruct err as [e|]; cbn; [|by destruct st; (apply triple_ret || apply triple_throw)].
  assert (∀ b : bool, triple (res (false, b)) (_ ← stopAndReset w uid (c_Name c); throw (ErrInitWait e))
    (λ _ : (), res (false, false)) (launched true)) as H.
  { intros b. eapply res_fail; [apply res_stopAndReset|done]. }
  destruct st; apply H.
Qed.

Lemma res_awaitApp isInit : triple (res (true, true)) (awaitApp w uid c isInit) (λ _, res (true, true)) (launched isInit).
Proof.
  unfold awaitApp, waitForContainer.
  eapply (triple_bind _ (λ _, res (true, true))).
  { eapply triple_bind; [apply tr_gets|]. intros now. apply tr_wait; intros; intros h Hh; by rewrite resources_snoc, Hh. }
  intros r. eapply (triple_bind _ (λ _, res (true, true))).
  { destruct r as [[e|]|]; [|by apply triple_ret|by apply triple_throw].
    eapply res_fail; [apply res_stopAndReset|done]. }
  intros []. eapply triple_bind; [by apply res_do|]. intros [].
  eapply (triple_bind _ (λ _, res (true, true))); [apply tr_call; intros h Hh; by rewrite resources_snoc, Hh|].
  intros err. eapply (triple_bind _ (λ _, res (true, true))).
  { destruct err as [e|]; [|by apply triple_ret].
    eapply triple_bind; [apply res_do, resStep_stop|]. intros []. eapply res_fail; [apply res_do, resStep_unmount|done]. }
  intros []. destruct (c_Lifecycle c ≫= lc_PostStart) as [handler|]; [|by apply triple_ret].
  eapply triple_bind; [apply tr_hook; repeat intro; by rewrite resources_snoc|].
  intros [e|]; [|by apply triple_ret]. eapply res_fail; [by apply res_do|done].
Qed.

Lemma res_launch pod netPath podIP profiles isInit :
  triple (res b0) (launchContainer w cfg tidal clusterDNS pod c uid netPath podIP profiles isInit)
    (λ _, res (leftovers isInit b0 (inr tt))) (launched isInit).
Proof.
  unfold launchContainer. eapply triple_bind; [apply res_pull|]. intros layers.
  eapply triple_bind; [apply res_mount|]. intros rootfs. eapply triple_bind; [apply res_volumes|]. intros binds.
  eapply triple_bind; [by apply tr_when, res_do|]. intros []. eapply triple_bind; [apply tr_gets|]. intros image.
  eapply triple_bind; [apply res_run|]. intros []. destruct isInit; [apply res_awaitInit|apply res_awaitApp].
Qed.
End Launch.

(** what [launchContainer] leaves behind, for every way it can end: an init
    container that is done and every error of pulling, mounting, resolving
    volumes, starting, waiting for an init container or sharing mounts leave
    neither a mounted overlay nor a started machine of this launch; an app
    container that is up has both; but a container that does not come up leaves
    its overlay mounted, and a failed PostStart hook also leaves the machine
    running. *)
Theorem launch_leaves w cfg tidal clusterDNS pod c uid netPath podIP profiles isInit s :
  let '(s', r) := launchContainer w cfg tidal clusterDNS pod c uid netPath podIP profiles isInit s in
  resources uid c.(c_Name) s'.(l_trace) = leftovers isInit (resources uid c.(c_Name) s.(l_trace)) r.
Proof.
  destruct (launchContainer _ _ _ _ _ _ _ _ _ _ _ s) as [s' r] eqn:Hrun.
  eapply triple_run in Hrun; [|eapply (res_launch w cfg tidal clusterDNS uid c (resources uid (c_Name c) (l_trace s)))|done].
  by destruct r as [e|[]].
Qed.

(** ** Waiting ends *)

Definition pollStep : Duration := 500 * 1000000.

Definition isPoll (uid name : string) (c : Call) : bool :=
  match c with CStatus u n _ => bool_decide (u = uid ∧ n = name) | _ => false end.
Definition polls (uid name : string) (h : History) : nat := length (List.filter (isPoll uid name) h).

(** The states that end the wait with success. *)
Definition up (isInit : bool) (st : MachineState) : Prop := st = StateRunning ∨ isInit = true ∧ st = StateExited.

Section WaitEnds.
Context (w : World) (uid name : string) (isInit : bool).

(** A clock: time does not go back, and sleeping takes the time asked for. *)
Hypothesis Hclock : ∀ h c, (w.(w_now) h ≤ w.(w_now) (h ++ [c]))%Z.
Hypothesis Hsleep : ∀ h d, (w.(w_now) h + d ≤ w.(w_now) (h ++ [CSleep d]))%Z.

(** How a wait of at most [n] polls ends. *)
Definition ended (n : nat) (s : LState) (out : LState * (LaunchErr + option (option string))) : Prop :=
  ∃ s' r new, out = (s', inr (Some r)) ∧ s'.(l_trace) = s.(l_trace) ++ new ∧ polls uid name new ≤ n ∧
    (r = None → ∃ h st, s'.(l_trace) = h ++ [CStatus uid name (Some st)] ∧ up isInit st).

Lemma polls_app h h' : polls uid name (h ++ h') = polls uid name h + polls uid name h'.
Proof. unfold polls. by rewrite List.filter_app, List.length_app. Qed.

Lemma wait_loop_ends deadline fuel : ∀ seen s,
  (deadline - w.(w_now) s.(l_trace) ≤ Z.of_nat fuel * pollStep)%Z →
  ended fuel s (waitForContainer_loop w (S fuel) uid name isInit deadline seen s).
Proof.
  induction fuel as [|fuel IH]; intros seen s Hd; cbn [waitForContainer_loop]; unfold mbind, SE_bind, gets; cbn beta iota;
    destruct (_ <? deadline)%Z eqn:Hlt; cbn [negb].
  1: apply Z.ltb_lt in Hlt; cbn in Hd; lia.
  1, 3: eexists s, _, []; split_and!; [done|by rewrite List.app_nil_r|cbn; lia|done].
  unfold callE. cbn beta iota zeta. set (st := w_Status w (l_trace s) uid name).
  set (s1 := {| l_trace := _; l_store := _; l_pod := _; l_cache := _; l_vols := _ |}).
  assert (∀ r, (r = None → ∃ x, st = Some x ∧ up isInit x) → ended (S fuel) s (s1, inr (Some r))) as Hstop.
  { intros r Hr. exists s1, r, [CStatus uid name st]. split_and!; [done..| |].
    - unfold polls. cbn. rewrite bool_decide_true by done. cbn. lia.
    - intros ->. destruct (Hr eq_refl) as (x & -> & ?). eauto. }
  assert (∀ seen, ended (S fuel) s ((
    cancelled ← gets (λ s, w.(w_cancelled) s.(l_trace));
    if cancelled : bool then mret (Some (Some "context canceled")) else
    _ ← doE w (CSleep (500 * 1000000)); waitForContainer_loop w (S fuel) uid name isInit deadline seen) s1)) as Hnext.
  { intros seen'. unfold mbind, SE_bind, gets. cbn beta iota. destruct (w_cancelled _ _); [by apply Hstop|].
    unfold doE, callE. cbn beta iota zeta.
    match goal with |- ended _ _ (waitForContainer_loop _ _ _ _ _ _ _ ?x) => set (s2 := x) end.
    destruct (IH seen' s2) as (s' & r & new & -> & Ht & Hp & Hr).
    - cbn. pose proof (Hclock (l_trace s) (CStatus uid name st)). pose proof (Hsleep (l_trace s ++ [CStatus uid name st]) pollStep).
      unfold pollStep in *. lia.
    - exists s', r, ([CStatus uid name st; CSleep pollStep] ++ new). split_and!; [done| | |done].
      + rewrite Ht. cbn. by rewrite <- !List.app_assoc.
      + rewrite polls_app. unfold polls at 1. cbn. rewrite bool_decide_true by done. cbn. lia. }
  destruct st as [[]|] eqn:Hst; try apply Hnext; try (apply Hstop; intros; unfold up; naive_solver).
  destruct isInit; [apply Hstop; unfold up; naive_solver|]. destruct seen; [by apply Hstop|apply Hnext].
Qed.
End WaitEnds.

(** [waitForContainer] returns, whatever the runtime answers: by a clock
    that advances by the time slept it polls at most once per half second of
    its timeout, and once more.  It returns nil only when the last status was
    that of a running machine (or, for an init container, of one that has
    exited). *)
Theorem wait_for_container_ends w uid name isInit timeout s
    (Hclock : ∀ h c, (w.(w_now) h ≤ w.(w_now) (h ++ [c]))%Z)
    (Hsleep : ∀ h d, (w.(w_now) h + d ≤ w.(w_now) (h ++ [CSleep d]))%Z) :
  (0 ≤ timeout)%Z →
  ∃ s' r new, waitForContainer w uid name isInit timeout s = (s', inr (Some r)) ∧
    s'.(l_trace) = s.(l_trace) ++ new ∧
    (Z.of_nat (polls uid name new) ≤ timeout / pollStep + 1)%Z ∧
    (r = None → ∃ h st, s'.(l_trace) = h ++ [CStatus uid name (Some st)] ∧ up isInit st).
Proof.
  intros Ht. unfold waitForContainer, mbind, SE_bind, gets. cbn beta iota.
  assert (waitFuel timeout = S (Z.to_nat (timeout / pollStep + 1))) as ->.
  { unfold waitFuel, pollStep. pose proof (Z.div_pos timeout (500 * 1000000) Ht). lia. }
  assert (0 ≤ timeout / pollStep)%Z by (apply Z.div_pos; unfold pollStep; lia).
  destruct (wait_loop_ends w uid name isInit Hclock Hsleep (w_now w (l_trace s) + timeout)
    (Z.to_nat (timeout / pollStep + 1)) false s) as (s' & r & new & Hrun & Htr & Hp & Hr).
  { rewrite Z2Nat.id by lia. pose proof (Z.mul_succ_div_gt timeout pollStep). unfold pollStep in *. lia. }
  exists s', r, new. split_and!; [done..|lia|done].
Qed.

(** ** The order of the calls *)

(** A computation only makes calls that satisfy [p]. *)
Definition emits {E A} (p : Call → Prop) (m : LM E A) : Prop :=
  ∀ s, ∃ new, (m s).1.(l_trace) = s.(l_trace) ++ new ∧ Forall p new.

(** A computation leaves some part of the state alone: the pod object, or the
    phase of a pod in the store. *)
Definition keepsOf {T E A} (g : LState → T) (m : LM E A) : Prop := ∀ s, g (m s).1 = g s.

Abbreviation steady := (keepsOf l_pod).

Definition phaseIn (uid : string) (s : LState) : PodPhase := PodPhase_of s.(l_store) uid.

(** The other goroutines do not touch the phase of the pod. *)
Definition phaseOwned (w : World) (uid : string) : Prop := ∀ h st, PodPhase_of (w.(w_others) h st) uid = PodPhase_of st uid.

Section Emits.
Context (w : World) (p : Call → Prop).

Lemma emits_same {E A} (m : LM E A) : (∀ s, l_trace (m s).1 = l_trace s) → emits p m.
Proof. intros H s. exists []. by rewrite H, List.app_nil_r. Qed.
Lemma emits_ret {E A} (a : A) : emits p (mret a : LM E A).
Proof. by apply emits_same. Qed.
Lemma emits_throw {E A} (e : E) : emits p (throw e : LM E A).
Proof. by apply emits_same. Qed.
Lemma emits_gets {E A} (f : LState → A) : emits p (gets f : LM E A).
Proof. by apply emits_same. Qed.
Lemma emits_modify {E} (f : LState → LState) : (∀ s, l_trace (f s) = l_trace s) → emits p (modifyS f : LM E ()).
Proof. intros H. apply emits_same, H. Qed.
Lemma emits_call {E A} (answer : History → A) (record : A → Call) :
  (∀ h, p (record (answer h))) → emits p (callE w answer record : LM E A).
Proof. intros H s. eexists. split; [done|]. by constructor. Qed.
Lemma emits_do {E} c : p c → emits p (doE w c : LM E ()).
Proof. intros H. by apply emits_call. Qed.
Lemma emits_bind {E A B} (m : LM E A) (f : A → LM E B) : emits p m → (∀ a, emits p (f a)) → emits p (m ≫= f).
Proof.
  intros Hm Hf s. destruct (Hm s) as (new & Hn & Hp). unfold mbind, SE_bind. destruct (m s) as [s1 [e|a]]; [by exists new|].
  destruct (Hf a s1) as (new' & Hn' & Hp'). exists (new ++ new'). cbn in Hn. rewrite Hn', Hn, List.app_assoc.
  split; [done|]. by apply Forall_app.
Qed.
Lemma emits_when {E} b (m : LM E ()) : emits p m → emits p (whenM b m).
Proof. intros H. destruct b; [done|apply emits_ret]. Qed.
Lemma emits_forM {E A} (l : list A) (f : A → LM E ()) : (∀ x, emits p (f x)) → emits p (forM l f).
Proof. intros H. induction l; cbn; [apply emits_ret|]. by apply emits_bind. Qed.
Lemma emits_try {E A} (m : LM E A) : emits p m → emits p (try m).
Proof. intros H s. destruct (H s) as (new & ? & ?). exists new. unfold try. by destruct (m s). Qed.
Lemma emits_mapErr {E F A} (g : E → F) (m : LM E A) : emits p m → emits p (mapErr g m).
Proof. intros H s. destruct (H s) as (new & ? & ?). exists new. unfold mapErr. by destruct (m s) as [? []]. Qed.
End Emits.

Lemma emits_weaken {E A} (p q : Call → Prop) (m : LM E A) : (∀ c, p c → q c) → emits p m → emits q m.
Proof. intros H Hm s. destruct (Hm s) as (new & ? & ?). exists new. eauto using Forall_impl. Qed.

Section Keeps.
Context (w : World) {T : Type} (g : LState → T).

Lemma keepsOf_same {E A} (f : LState → E + A) : keepsOf g (λ s, (s, f s)).
Proof. by intros s. Qed.
Lemma keepsOf_modify {E} (f : LState → LState) : (∀ s, g (f s) = g s) → keepsOf g (modifyS f : LM E ()).
Proof. intros H s. apply H. Qed.
Lemma keepsOf_call {E A} (answer : History → A) (record : A → Call) :
  (∀ s h, g {| s with l_trace := h; l_store := w.(w_others) h s.(l_store) |} = g s) → keepsOf g (callE w answer record : LM E A).
Proof. intros H s. apply H. Qed.
Lemma keepsOf_bind {E A B} (m : LM E A) (f : A → LM E B) : keepsOf g m → (∀ a, keepsOf g (f a)) → keepsOf g (m ≫= f).
Proof.
  intros Hm Hf s. specialize (Hm s). unfold mbind, SE_bind. destruct (m s) as [s1 [e|a]]; [done|].
  by rewrite Hf.
Qed.
Lemma keepsOf_when {E} b (m : LM E ()) : keepsOf g m → keepsOf g (whenM b m).
Proof. intros H. by destruct b. Qed.
Lemma keepsOf_forM {E A} (l : list A) (f : A → LM E ()) : (∀ x, keepsOf g (f x)) → keepsOf g (forM l f).
Proof. intros H. induction l; cbn; [done|]. by apply keepsOf_bind. Qed.
Lemma keepsOf_try {E A} (m : LM E A) : keepsOf g m → keepsOf g (try m).
Proof. intros H s. specialize (H s). unfold try. by destruct (m s). Qed.
Lemma keepsOf_mapErr {E F A} (k : E → F) (m : LM E A) : keepsOf g m → keepsOf g (mapErr k m).
Proof. intros H s. specialize (H s). unfold mapErr. by destruct (m s) as [? []]. Qed.
End Keeps.

(** Every error of a computation satisfies [q]. *)
Definition fails {E A} (q : E → Prop) (m : LM E A) : Prop := ∀ s e, (m s).2 = inl e → q e.

Section Fails.
Context (w : World) {E : Type} (q : E → Prop).

Lemma fails_ret {A} (a : A) : fails q (mret a).
Proof. by intros s e. Qed.
Lemma fails_throw {A} e : q e → fails q (throw e : LM E A).
Proof. intros H s e' [= <-]. done. Qed.
Lemma fails_gets {A} (f : LState → A) : fails q (gets f).
Proof. by intros s e. Qed.
Lemma fails_modify (f : LState → LState) : fails q (modifyS f).
Proof. by intros s e. Qed.
Lemma fails_call {A} (answer : History → A) (record : A → Call) : fails q (callE w answer record).
Proof. by intros s e. Qed.
Lemma fails_do c : fails q (doE w c).
Proof. by intros s e. Qed.
Lemma fails_bind {A B} (m : LM E A) (f : A → LM E B) : fails q m → (∀ a, fails q (f a)) → fails q (m ≫= f).
Proof.
  intros Hm Hf s e. specialize (Hm s). unfold mbind, SE_bind. destruct (m s) as [s1 [e'|a]]; [|apply Hf].
  intros [= <-]. by apply Hm.
Qed.
Lemma fails_when b (m : LM E ()) : fails q m → fails q (whenM b m).
Proof. intros H. destruct b; [done|apply fails_ret]. Qed.
Lemma fails_forM {A} (l : list A) (f : A → LM E ()) : (∀ x, fails q (f x)) → fails q (forM l f).
Proof. intros H. induction l; cbn; [apply fails_ret|]. by apply fails_bind. Qed.
End Fails.

(** All three are proved by walking through the code. *)
Ltac walk_step :=
  match goal with
  | |- ∀ _, _ => intro
  | H : ?P |- ?P => exact H
  | |- emits _ (_ ≫= _) => apply emits_bind
  | |- emits _ (mret _) => apply emits_ret
  | |- emits _ (throw _) => apply emits_throw
  | |- emits _ (gets _) => apply emits_gets
  | |- emits _ (doE _ _) => apply emits_do
  | |- emits _ (callE _ _ _) => apply emits_call
  | |- emits _ (modifyS _) => apply emits_modify
  | |- emits _ (whenM _ _) => apply emits_when
  | |- emits _ (forM _ _) => apply emits_forM
  | |- emits _ (try _) => apply emits_try
  | |- emits _ (mapErr _ _) => apply emits_mapErr
  | |- keepsOf _ (_ ≫= _) => apply keepsOf_bind
  | |- keepsOf _ (mret _) => apply keepsOf_same
  | |- keepsOf _ (throw _) => apply keepsOf_same
  | |- keepsOf _ (gets _) => apply keepsOf_same
  | |- keepsOf _ (doE _ _) => apply keepsOf_call
  | |- keepsOf _ (callE _ _ _) => apply keepsOf_call
  | |- keepsOf _ (modifyS _) => apply keepsOf_modify
  | |- keepsOf _ (whenM _ _) => apply keepsOf_when
  | |- keepsOf _ (forM _ _) => apply keepsOf_forM
  | |- keepsOf _ (try _) => apply keepsOf_try
  | |- keepsOf _ (mapErr _ _) => apply keepsOf_mapErr
  | |- fails _ (_ ≫= _) => apply fails_bind
  | |- fails _ (mret _) => apply fails_ret
  | |- fails _ (throw _) => apply fails_throw
  | |- fails _ (gets _) => apply fails_gets
  | |- fails _ (modifyS _) => apply fails_modify
  | |- fails _ (callE _ _ _) => apply fails_call
  | |- fails _ (doE _ _) => apply fails_do
  | |- fails _ (whenM _ _) => apply fails_when
  | |- fails _ (forM _ _) => apply fails_forM
  | |- fails _ (match ?x with _ => _ end) => destruct x eqn:?
  | |- emits _ (match ?x with _ => _ end) => destruct x eqn:?
  | |- keepsOf _ (match ?x with _ => _ end) => destruct x eqn:?
  | H : phaseOwned _ _ |- phaseIn _ _ = phaseIn _ _ => apply H
  end.

Ltac walk := repeat walk_step; try done.

Section LaunchCalls.
Context (w : World) (cfg : PawnConfig) (tidal : Tidal) (clusterDNS : string).

(** The calls of a hook and of a wait. *)
Definition waits (x : Call) : Prop :=
  match x with CSleep _ | CHook _ _ _ _ | CStatus _ _ _ => True | _ => False end.

Lemma emits_hook {E} uid name hook handler : emits waits (runLifecycleHook w uid name hook handler : LM E _).
Proof. unfold runLifecycleHook. walk. Qed.

Section LaunchKeeps.
Context {T : Type} (g : LState → T).
Hypothesis Hcall : ∀ s h, g {| s with l_trace := h; l_store := w.(w_others) h s.(l_store) |} = g s.
Hypothesis Hcache : ∀ s m, g {| s with l_cache := m |} = g s.

Lemma keepsOf_hook {E} uid name hook handler : keepsOf g (runLifecycleHook w uid name hook handler : LM E _).
Proof. unfold runLifecycleHook. walk. Qed.

Lemma keepsOf_wait uid name isInit timeout : keepsOf g (waitForContainer w uid name isInit timeout).
Proof.
  unfold waitForContainer. walk. generalize (waitFuel timeout), false. intros fuel.
  induction fuel as [|fuel IH]; intros seen; cbn [waitForContainer_loop]; walk; auto.
Qed.

Lemma keepsOf_launch pod c uid netPath podIP profiles isInit :
  keepsOf g (launchContainer w cfg tidal clusterDNS pod c uid netPath podIP profiles isInit).
Proof.
  unfold launchContainer, pullLayers, mountOverlay, resolveVolumes, runMachineC, awaitInit, awaitApp, event, Unmount,
    stopAndReset, StopMachineC, ResetUnitC.
  walk; auto using keepsOf_wait, keepsOf_hook.
Qed.

Lemma keepsOf_init uid netPath podIP profiles ic : keepsOf g (initContainer w cfg tidal clusterDNS uid netPath podIP profiles ic).
Proof. unfold initContainer, event. walk; auto using keepsOf_launch. Qed.

Lemma keepsOf_app uid netPath podIP profiles c : keepsOf g (appContainer w cfg tidal clusterDNS uid netPath podIP profiles c).
Proof. unfold appContainer, event. walk; auto using keepsOf_launch. Qed.
End LaunchKeeps.

Lemma emits_wait uid name isInit timeout : emits waits (waitForContainer w uid name isInit timeout).
Proof.
  unfold waitForContainer. walk. generalize (waitFuel timeout), false. intros fuel.
  induction fuel as [|fuel IH]; intros seen; cbn [waitForContainer_loop]; walk; auto.
Qed.
(** The only machine that a launch starts is the one of its container, in the
    network namespace [net.1] and with the address [net.2]. *)
Definition runsOnly (uid : string) (net : string * string) (c : Container) (x : Call) : Prop :=
  match x with
  | CRun u n pcfg _ => u = uid ∧ n = c.(c_Name) ∧ pcfg.(cfg_Container) = c ∧ pcfg.(cfg_NetNSPath) = net.1 ∧ pcfg.(cfg_PodIP) = net.2
  | _ => True
  end.

Lemma waits_runsOnly uid net c x : waits x → runsOnly uid net c x.
Proof. by destruct x. Qed.

Lemma emits_launch pod c uid netPath podIP profiles isInit :
  emits (runsOnly uid (netPath, podIP) c) (launchContainer w cfg tidal clusterDNS pod c uid netPath podIP profiles isInit).
Proof.
  unfold launchContainer, pullLayers, mountOverlay, resolveVolumes, runMachineC, awaitInit, awaitApp, event, Unmount,
    stopAndReset, StopMachineC, ResetUnitC.
  walk; try (eapply emits_weaken; [apply waits_runsOnly|]); auto using emits_wait, emits_hook.
Qed.

End LaunchCalls.

(** ** Init containers come first *)

(** The call that shows that an init container is done (a sidecar: that it is
    up), and the one that shows that an app container is up or known. *)
Definition initDoneCall (uid : string) (ic : Container) (x : Call) : Prop :=
  match x with
  | CContainerState u n st => u = uid ∧ n = ic.(c_Name) ∧ st = if isSidecar ic then StateRunning else StateExited
  | CWaitExit u n st None => isSidecar ic = false ∧ u = uid ∧ n = ic.(c_Name) ∧ st ≠ StateFailed
  | CMarkRunning u n => isSidecar ic = true ∧ u = uid ∧ n = ic.(c_Name)
  | _ => False
  end.

Definition appUpCall (uid : string) (c : Container) (x : Call) : Prop :=
  match x with
  | CContainerState u n st => u = uid ∧ n = c.(c_Name) ∧ st ∈ [StateRunning; StateExited; StateFailed]
  | CMarkRunning u n => u = uid ∧ n = c.(c_Name)
  | _ => False
  end.

(** The calls for a list of containers, one container after the other: each
    part starts no machine but that of its container, and shows it [ok] before
    the next part begins; the last part may fail. *)
Inductive Sequence (uid : string) (net : string * string) (ok : Container → Call → Prop) : list Container → History → bool → Prop :=
  | Seq_nil : Sequence uid net ok [] [] true
  | Seq_done c cs seg h b : Forall (runsOnly uid net c) seg → Exists (ok c) seg → Sequence uid net ok cs h b →
      Sequence uid net ok (c :: cs) (seg ++ h) b
  | Seq_failed c cs seg : Forall (runsOnly uid net c) seg → Sequence uid net ok (c :: cs) seg false.

Definition noRun (x : Call) : Prop := match x with CRun _ _ _ _ => False | _ => True end.

Definition succeeded {E A} (r : E + A) : bool := match r with inr _ => true | inl _ => false end.

(** What one container's step does. *)
Definition segment {E} (uid : string) (net : string * string) (c : Container) (ok : History → Prop) (bad : E → Prop) (m : LM E ()) : Prop :=
  ∀ s, ∃ seg, (m s).1.(l_trace) = s.(l_trace) ++ seg ∧ Forall (runsOnly uid net c) seg ∧ (m s).1.(l_pod) = s.(l_pod) ∧
    match (m s).2 with inr _ => ok seg | inl e => bad e end.

Lemma forM_sequence {E} uid net ok (bad : E → Prop) l (f : Container → LM E ()) :
  (∀ c, segment uid net c (Exists (ok c)) bad (f c)) → ∀ s, ∃ h,
  (forM l f s).1.(l_trace) = s.(l_trace) ++ h ∧ (forM l f s).1.(l_pod) = s.(l_pod) ∧
  Sequence uid net ok l h (succeeded (forM l f s).2) ∧ (∀ e, (forM l f s).2 = inl e → bad e).
Proof.
  intros Hf. induction l as [|c l IH]; intros s; cbn.
  { exists []. rewrite List.app_nil_r. split_and!; [done..|constructor|done]. }
  unfold mbind, SE_bind. destruct (Hf c s) as (seg & Ht & Hr & Hp & Hok).
  destruct (f c s) as [s1 [e|[]]]; cbn in *.
  - exists seg. split_and!; [done..|by constructor|]. by intros ? [= <-].
  - destruct (IH s1) as (h & Ht' & Hp' & Hs & He). exists (seg ++ h).
    split_and!; [by rewrite Ht', Ht, List.app_assoc|by rewrite Hp'|by constructor|done].
Qed.

Section SyncOrder.
Context (w : World) (cfg : PawnConfig) (tidal : Tidal) (clusterDNS : string).

(** The calls since a moment, one of which satisfies [q]. *)
Definition since (h0 : History) (h : History) : Prop := ∃ new, h = h0 ++ new.
Definition sinceHas (q : Call → Prop) (h0 : History) (h : History) : Prop := ∃ new, h = h0 ++ new ∧ Exists q new.

Lemma since_emits {E A} p (m : LM E A) h0 : emits p m →
  triple (tr (since h0)) m (λ _, tr (since h0)) (λ _ _, True).
Proof.
  intros H s [new Hs]. destruct (H s) as (new' & Hn & _). destruct (m s) as [s' [e|a]]; [done|].
  exists (new ++ new'). cbn in Hn. by rewrite Hn, Hs, List.app_assoc.
Qed.
Lemma sinceHas_emits {E A} p q (m : LM E A) h0 : emits p m →
  triple (tr (sinceHas q h0)) m (λ _, tr (sinceHas q h0)) (λ _ _, True).
Proof.
  intros H s (new & Hs & Hq). destruct (H s) as (new' & Hn & _). destruct (m s) as [s' [e|a]]; [done|].
  exists (new ++ new'). cbn in Hn. rewrite Hn, Hs, List.app_assoc. split; [done|]. apply Exists_app. by left.
Qed.
Lemma sinceHas_snoc (q : Call → Prop) h0 h x : since h0 h → q x → sinceHas q h0 (h ++ [x]).
Proof. intros [new ->] Hx. exists (new ++ [x]). rewrite List.app_assoc. split; [done|]. apply Exists_app. right. by constructor. Qed.

Definition launchDone (uid : string) (c : Container) (isInit : bool) (x : Call) : Prop :=
  if isInit then ∃ st, x = CWaitExit uid c.(c_Name) st None ∧ st ≠ StateFailed else x = CMarkRunning uid c.(c_Name).

Lemma awaitInit_done uid c h0 :
  triple (tr (since h0)) (awaitInit w uid c) (λ _, tr (sinceHas (launchDone uid c true) h0)) (λ _ _, True).
Proof.
  unfold awaitInit. eapply (triple_bind _ (λ r, tr (λ h, match r with
    | (st, None) => if decide (st = StateFailed) then True else sinceHas (launchDone uid c true) h0 h
    | (_, Some _) => True end))).
  { apply tr_call. intros h Hh. destruct (w_WaitExit _ _ _ _) as [st [e|]]; [done|]. case_decide; [done|].
    apply sinceHas_snoc; [done|]. exists st. eauto. }
  intros [st [e|]].
  - apply (triple_conseq (λ _, True) (λ _, True) _ (λ _ _, False) _ (λ _ _, True)); [|done..].
    intros s _. by destruct st.
  - destruct (decide (st = StateFailed)) as [->|Hst].
    { apply (triple_conseq (λ _, True) (λ _, True) _ (λ _ _, False) _ (λ _ _, True)); [by intros s _|done..]. }
    eapply triple_bind; [apply (sinceHas_emits (λ _, True)); by apply emits_do|]. intros [].
    destruct st; try by apply triple_ret. by destruct Hst.
Qed.

Lemma awaitApp_done uid c isInit h0 :
  triple (tr (since h0)) (awaitApp w uid c isInit) (λ _, tr (sinceHas (launchDone uid c false) h0)) (λ _ _, True).
Proof.
  unfold awaitApp. eapply triple_bind; [eapply since_emits, emits_wait|]. intros r.
  eapply triple_bind; [apply (since_emits (λ _, True)); unfold stopAndReset, StopMachineC, ResetUnitC; walk|]. intros [].
  eapply triple_bind; [apply tr_do; intros h Hh; by apply (sinceHas_snoc (launchDone uid c false))|]. intros [].
  apply (sinceHas_emits (λ _, True)). unfold StopMachineC, Unmount, event. walk.
  eapply emits_weaken; [|apply emits_hook]. done.
Qed.

Lemma launch_done pod c uid netPath podIP profiles isInit h0 :
  triple (tr (since h0)) (launchContainer w cfg tidal clusterDNS pod c uid netPath podIP profiles isInit)
    (λ _, tr (sinceHas (launchDone uid c isInit) h0)) (λ _ _, True).
Proof.
  unfold launchContainer. do 4 (eapply triple_bind; [apply (since_emits (λ _, True));
    unfold pullLayers, mountOverlay, resolveVolumes, event, Unmount; walk|]; intros ?).
  eapply triple_bind; [apply tr_gets|]. intros image. eapply triple_bind; [apply (since_emits (λ _, True));
    unfold runMachineC, stopAndReset, StopMachineC, ResetUnitC, event, Unmount; walk|]. intros [].
  destruct isInit; [apply awaitInit_done|apply awaitApp_done].
Qed.

(** A launch by a step of the pod: where it ends. *)
Lemma launch_segment pod c uid netPath podIP profiles isInit s :
  let '(s', r) := launchContainer w cfg tidal clusterDNS pod c uid netPath podIP profiles isInit s in
  ∃ seg, s'.(l_trace) = s.(l_trace) ++ seg ∧ Forall (runsOnly uid (netPath, podIP) c) seg ∧ s'.(l_pod) = s.(l_pod) ∧
    match r with inr _ => Exists (launchDone uid c isInit) seg | inl _ => True end.
Proof.
  destruct (emits_launch w cfg tidal clusterDNS pod c uid netPath podIP profiles isInit s) as (seg & Ht & Hr).
  pose proof (keepsOf_launch w cfg tidal clusterDNS l_pod (λ _ _, eq_refl) (λ _ _, eq_refl) pod c uid netPath podIP profiles isInit s) as Hp.
  pose proof (launch_done pod c uid netPath podIP profiles isInit s.(l_trace) s) as Hd.
  destruct (launchContainer _ _ _ _ _ _ _ _ _ _ _ s) as [s' [e|[]]]; cbn in *; exists seg; [done|].
  destruct Hd as (new & Hn & Hx); [exists []; by rewrite List.app_nil_r|].
  rewrite Ht in Hn. apply app_inv_head in Hn as <-. done.
Qed.

(** The launch of a step, with the event of its failure and what follows it. *)
Lemma launchStep_segment {E} pod c uid netPath podIP profiles isInit (ok : Call → Prop) (bad : E → Prop) wrap reason
    (k : LM E ()) :
  (∀ x, launchDone uid c isInit x → ok x) → (∀ e, bad (wrap e)) → emits noRun k → steady k →
  (∀ s, succeeded (k s).2 = true) →
  segment uid (netPath, podIP) c (Exists ok) bad (
    r ← try (mapErr wrap (launchContainer w cfg tidal clusterDNS pod c uid netPath podIP profiles isInit));
    match r with inl e => _ ← event w "Warning" reason; throw e | inr _ => k end).
Proof.
  intros Hok Hbad Hk Hks Hsucc s. unfold mbind, SE_bind, try, mapErr.
  pose proof (launch_segment pod c uid netPath podIP profiles isInit s) as Hl.
  destruct (launchContainer _ _ _ _ _ _ _ _ _ _ _ s) as [s1 [e|[]]]; destruct Hl as (seg & Ht & Hr & Hp & Hd).
  - exists (seg ++ [CEvent "Warning" reason]). cbn. rewrite Ht, List.app_assoc. split_and!; [done| |done..].
    apply Forall_app. split; [done|]. by constructor.
  - destruct (Hk s1) as (h & Hh & Hn). exists (seg ++ h). rewrite Hh, Ht, List.app_assoc, Hks, Hp.
    split_and!; [done| |done|].
    + apply Forall_app. split; [done|]. eapply Forall_impl; [exact Hn|]. by intros [].
    + specialize (Hsucc s1). destruct (k s1) as [? []]; [done|]. apply Exists_app. left.
      eapply Exists_impl; [exact Hd|exact Hok].
Qed.

(** A step that first looks at the state of the container. *)
Lemma segment_call {E} uid net c ok (bad : E → Prop) (f : MachineState → LM E ()) answer :
  (∀ st, (ok (CContainerState uid c.(c_Name) st) → segment uid net c (λ _, True) bad (f st)) ∧
         (¬ ok (CContainerState uid c.(c_Name) st) → segment uid net c (Exists ok) bad (f st))) →
  (∀ st, Decision (ok (CContainerState uid c.(c_Name) st))) →
  segment uid net c (Exists ok) bad (callE w answer (CContainerState uid c.(c_Name)) ≫= f).
Proof.
  intros Hf Hdec s. unfold mbind, SE_bind, callE. cbn beta iota zeta. set (st := answer (l_trace s)).
  set (x := CContainerState uid (c_Name c) st). set (s1 := {| l_trace := _; l_store := _; l_pod := _; l_cache := _; l_vols := _ |}).
  assert (∃ seg, (f st s1).1.(l_trace) = s1.(l_trace) ++ seg ∧ Forall (runsOnly uid net c) seg ∧ (f st s1).1.(l_pod) = s1.(l_pod) ∧
    match (f st s1).2 with inr _ => ok x ∨ Exists ok seg | inl e => bad e end) as (seg & Ht & Hr & Hp & Hd).
  { destruct (decide (ok x)) as [Hx|Hx]; [destruct (proj1 (Hf st) Hx s1) as (seg & ? & ? & ? & H)|
      destruct (proj2 (Hf st) Hx s1) as (seg & ? & ? & ? & H)]; exists seg; (split_and!; [done..|]);
      destruct (f st s1).2; auto. }
  exists (x :: seg). rewrite Ht, Hp. cbn. rewrite <- List.app_assoc. split_and!; [done|by constructor|done|].
  destruct (f st s1).2; [done|]. destruct Hd; [by left|by right].
Qed.

Lemma segment_ret {E} uid net c (bad : E → Prop) : segment uid net c (λ _, True) bad (mret tt).
Proof. intros s. exists []. by rewrite List.app_nil_r. Qed.

Lemma segment_gets {E A} uid net c ok (bad : E → Prop) (g : LState → A) f :
  (∀ a, segment uid net c ok bad (f a)) → segment uid net c ok bad (gets g ≫= f).
Proof. intros H s. apply (H (g s) s). Qed.

Lemma initContainer_segment uid netPath podIP profiles ic :
  segment uid (netPath, podIP) ic (Exists (initDoneCall uid ic)) (λ e, ∃ n l, e = ErrInit n l)
    (initContainer w cfg tidal clusterDNS uid netPath podIP profiles ic).
Proof.
  unfold initContainer. apply segment_call; [|intros st; cbn; apply _]. intros st. split; cbn.
  - intros (_ & _ & ->). destruct (isSidecar ic); cbn; apply segment_ret.
  - intros Hno. assert (isSidecar ic && bool_decide (st = StateRunning) = false) as ->.
    { destruct (isSidecar ic); [|done]. apply bool_decide_false. naive_solver. }
    assert (negb (isSidecar ic) && bool_decide (st = StateExited) = false) as ->.
    { destruct (isSidecar ic); [done|]. apply bool_decide_false. naive_solver. }
    apply segment_gets. intros pod. apply launchStep_segment; [|eauto|walk..].
    intros x. unfold launchDone. destruct (isSidecar ic) eqn:Hsc; cbn; [by intros ->|]. by intros (t & -> & ?).
Qed.

Lemma appContainer_segment uid netPath podIP profiles c :
  segment uid (netPath, podIP) c (Exists (appUpCall uid c)) (λ e, ∃ n l, e = ErrApp n l)
    (appContainer w cfg tidal clusterDNS uid netPath podIP profiles c).
Proof.
  unfold appContainer. apply segment_gets. intros phase.
  assert (segment uid (netPath, podIP) c (Exists (appUpCall uid c)) (λ e, ∃ n l, e = ErrApp n l) (
    pod ← gets l_pod;
    r ← try (mapErr (ErrApp c.(c_Name)) (launchContainer w cfg tidal clusterDNS pod c uid netPath podIP profiles false));
    match r with
    | inl e => _ ← event w "Warning" "StartFailed"; throw e
    | inr _ => event w "Normal" "Created"
    end)) as Hlaunch.
  { apply segment_gets. intros pod. apply launchStep_segment; [|eauto|unfold event; walk..].
    by intros x ->. }
  case_decide; [|exact Hlaunch].
  match type of Hlaunch with segment _ _ _ _ _ ?m => set (launch := m) in Hlaunch end.
  assert (segment uid (netPath, podIP) c (Exists (appUpCall uid c)) (λ e, ∃ n l, e = ErrApp n l) (
    callE w (λ h, w.(w_ContainerState) h uid c.(c_Name)) (CContainerState uid c.(c_Name)) ≫= λ st,
    if bool_decide (st ∈ [StateRunning; StateExited; StateFailed]) then mret tt else launch)) as H'; [|intros s; exact (H' s)].
  apply segment_call; [|intros st; cbn; apply _].
  intros st. split; cbn.
  - intros (_ & _ & Hst). rewrite bool_decide_true by done. apply segment_ret.
  - intros Hno. rewrite bool_decide_false by naive_solver. exact Hlaunch.
Qed.

(** The other steps. *)
Definition finish (uid podIP : string) : LM SyncErr () :=
  _ ← modifyS (λ s, {| s with l_store := PromoteRunning s.(l_store) uid s.(l_pod) podIP |});
  _ ← modifyS (λ s, {| s with l_vols := Track s.(l_vols) uid s.(l_pod) |});
  _ ← doE w (CTrack uid);
  _ ← event w "Normal" "Started";
  doE w CPoke.

Definition bringUp (a : string * string * string) : LM SyncErr () :=
  let '(uid, netPath, podIP) := a in
  pod ← gets l_pod;
  let profiles := buildContainerRuntimeProfiles pod cfg.(pcf_Memory).(Value) in
  _ ← forM pod.(p_InitContainers) (initContainer w cfg tidal clusterDNS uid netPath podIP profiles);
  _ ← event w "Normal" "SandboxReady";
  _ ← forM pod.(p_Containers) (appContainer w cfg tidal clusterDNS uid netPath podIP profiles);
  finish uid podIP.

(** The trace of [bringUp], and how it may fail. *)
Definition broughtUp (uid : string) (net : string * string) (pod : Pod) (inits mid apps fin : History) (r : SyncErr + ()) : Prop :=
  match r with
  | inr _ => Sequence uid net (initDoneCall uid) pod.(p_InitContainers) inits true ∧
             mid = [CEvent "Normal" "SandboxReady"] ∧
             Sequence uid net (appUpCall uid) pod.(p_Containers) apps true ∧
             fin = [CTrack uid; CEvent "Normal" "Started"; CPoke]
  | inl (ErrApp _ _) => Sequence uid net (initDoneCall uid) pod.(p_InitContainers) inits true ∧
             mid = [CEvent "Normal" "SandboxReady"] ∧
             Sequence uid net (appUpCall uid) pod.(p_Containers) apps false ∧ fin = []
  | inl (ErrInit _ _) => Sequence uid net (initDoneCall uid) pod.(p_InitContainers) inits false ∧
             mid = [] ∧ apps = [] ∧ fin = []
  | inl (ErrEnv _) => inits = [] ∧ mid = [] ∧ apps = [] ∧ fin = []
  | inl (ErrNetwork _) => False
  end.

(** What the other goroutines make of the store during some calls. *)
Fixpoint afterCalls (h calls : History) (st : PodStore) : PodStore :=
  match calls with
  | [] => st
  | c :: calls => afterCalls (h ++ [c]) calls (w.(w_others) (h ++ [c]) st)
  end.

(** The pod is promoted between the calls [h] and [fin], and the phase was
    [phase] until then. *)
Definition promoted (uid ip : string) (phase : PodPhase) (h fin : History) (s' : LState) : Prop :=
  ∃ st, (phaseOwned w uid → PodPhase_of st uid = phase) ∧
    s'.(l_store) = afterCalls h fin (PromoteRunning st uid s'.(l_pod) ip).

Lemma bringUp_trace uid netPath podIP s : let '(s', r) := bringUp (uid, netPath, podIP) s in
  ∃ inits mid apps fin, s'.(l_trace) = s.(l_trace) ++ inits ++ mid ++ apps ++ fin ∧ s'.(l_pod) = s.(l_pod) ∧
    broughtUp uid (netPath, podIP) s.(l_pod) inits mid apps fin r ∧
    match r with
    | inr _ => promoted uid podIP (phaseIn uid s) (s.(l_trace) ++ inits ++ mid ++ apps) fin s'
    | inl _ => phaseOwned w uid → phaseIn uid s' = phaseIn uid s
    end.
Proof.
  unfold bringUp, mbind, SE_bind, gets. cbn beta iota zeta.
  set (f := initContainer w cfg tidal clusterDNS uid netPath podIP _).
  set (g := appContainer w cfg tidal clusterDNS uid netPath podIP _).
  assert (phaseOwned w uid → keepsOf (phaseIn uid) (forM (p_InitContainers (l_pod s)) f)) as Hk.
  { intros Ho. apply keepsOf_forM. intros c. by apply keepsOf_init; intros; [apply Ho|]. }
  assert (phaseOwned w uid → keepsOf (phaseIn uid) (forM (p_Containers (l_pod s)) g)) as Hk'.
  { intros Ho. apply keepsOf_forM. intros c. by apply keepsOf_app; intros; [apply Ho|]. }
  destruct (forM_sequence uid (netPath, podIP) (initDoneCall uid) _ (p_InitContainers (l_pod s)) f
    (λ c, initContainer_segment uid netPath podIP _ c) s) as (inits & Ht & Hp & Hs & He).
  pose proof (λ H, Hk H s) as Hks. clear Hk.
  destruct (forM _ f s) as [s1 [e|[]]]; cbn [fst snd] in *.
  { destruct (He e eq_refl) as (n & l & ->). exists inits, [], [], []. by rewrite !List.app_nil_r. }
  unfold event, doE, callE at 1. cbn beta iota zeta.
  match goal with |- context [forM _ g ?x] => set (s2 := x) end.
  assert (phaseOwned w uid → phaseIn uid s2 = phaseIn uid s) as Hs2 by (intros Ho; rewrite <- (Hks Ho); apply Ho).
  destruct (forM_sequence uid (netPath, podIP) (appUpCall uid) _ (p_Containers (l_pod s)) g
    (λ c, appContainer_segment uid netPath podIP _ c) s2) as (apps & Ht' & Hp' & Hs' & He').
  pose proof (λ H, Hk' H s2) as Hks'. clear Hk'.
  assert (l_trace s2 = l_trace s ++ inits ++ [CEvent "Normal" "SandboxReady"]) as Ht2
    by (subst s2; cbn; by rewrite Ht, <- List.app_assoc).
  destruct (forM _ g s2) as [s3 [e|[]]]; cbn [fst snd] in *.
  - destruct (He' e eq_refl) as (n & l & ->). exists inits, [CEvent "Normal" "SandboxReady"], apps, [].
    rewrite !List.app_nil_r, Ht', Hp', Ht2, <- !List.app_assoc. split_and!; [done..|].
    intros Ho. by rewrite (Hks' Ho), Hs2.
  - exists inits, [CEvent "Normal" "SandboxReady"], apps, [CTrack uid; CEvent "Normal" "Started"; CPoke].
    unfold promoted. cbn. rewrite Ht', Hp', Ht2, <- !List.app_assoc. cbn. split_and!; [done..|].
    exists (l_store s3). split; [|by rewrite <- ?List.app_assoc].
    intros Ho. rewrite <- (Hs2 Ho). apply (Hks' Ho).
Qed.
Context (outbound : option string).
Context (IsEnvVarName IsQualifiedName : string → bool) (range : ∀ A, gmap string A → list (string * A)).

(** How the pod comes by its network: the calls, and the error or the path of
    the namespace and the address.  [known] is the address that the store has
    already, and [hostIP] the one of the node. *)
Inductive NetStep (uid : string) (pod : Pod) (known hostIP : string) : History → string + string * string → Prop :=
  | Net_host : pod.(p_HostNetwork) = true → NetStep uid pod known hostIP [] (inr ("/proc/1/ns/net", hostIP))
  | Net_known : pod.(p_HostNetwork) = false → known ≠ "" →
      NetStep uid pod known hostIP [CEvent "Normal" "Reconciling"] (inr (netnsPath uid, known))
  | Net_setup path ip : pod.(p_HostNetwork) = false → known = "" →
      NetStep uid pod known hostIP [CSetup uid path ip None; CEvent "Normal" "NetworkReady"] (inr (path, ip))
  | Net_failed path ip e : pod.(p_HostNetwork) = false → known = "" →
      NetStep uid pod known hostIP [CSetup uid path ip (Some e); CEvent "Warning" "NetworkFailed"] (inl e).

Definition hostIP : string := resolveNodeIP cfg.(pcf_NodeIP) outbound.

Definition isEvent (c : Call) : Prop := match c with CEvent _ _ => True | _ => False end.

Lemma modify_phase st u f uid : (∀ ps, pst_phase (f ps) = pst_phase ps) → PodPhase_of (modify st u f) uid = PodPhase_of st uid.
Proof.
  intros Hf. unfold PodPhase_of, getPodState, modify. destruct (pods st !! u) as [ps|] eqn:Hu; [|done]. cbn.
  destruct (decide (u = uid)) as [->|]; [by rewrite lookup_insert_eq, Hu, Hf|by rewrite lookup_insert_ne].
Qed.

Lemma SetPodIP_phase st u ip uid : PodPhase_of (SetPodIP st u ip) uid = PodPhase_of st uid.
Proof.
  unfold SetPodIP, modifyAndTrigger. destruct (getPodState st u); [|done].
  by apply (modify_phase st u (λ ps, {| ps with pst_ip := ip |})).
Qed.

Lemma InitRestartState_phase clk st pod uid : PodPhase_of (InitRestartState clk st pod) uid = PodPhase_of st uid.
Proof. unfold InitRestartState. destruct (initRestartMaps _ _). by apply modify_phase. Qed.

Lemma setup_trace uid s : let '(s', r) := setupNetwork w cfg outbound uid s in
  ∃ net out, s'.(l_trace) = s.(l_trace) ++ net ∧ NetStep uid s.(l_pod) (PodIP s.(l_store) uid) hostIP net out ∧
    s'.(l_pod) = s.(l_pod) ∧ r = match out with inl e => inl (ErrNetwork e) | inr n => inr n end.
Proof.
  unfold setupNetwork, gets, mbind, SE_bind. cbn beta iota zeta. destruct (p_HostNetwork (l_pod s)) eqn:Hh.
  { exists [], (inr ("/proc/1/ns/net", hostIP)). rewrite List.app_nil_r. split_and!; [done|by constructor|done..]. }
  case_decide as Hk.
  2:{ eexists [_], (inr (_, _)). split_and!; [done|by apply Net_known|done..]. }
  unfold callE at 1. cbn beta iota zeta. destruct (w_Setup w (l_trace s) uid) as [[path ip] [e|]]; cbn.
  - destruct (bool_decide (ip ≠ "")); cbn; rewrite <- List.app_assoc; eexists [_; _], (inl e);
      (split_and!; [done|by apply Net_failed|done..]).
  - eexists [_; _], (inr (path, ip)). rewrite <- List.app_assoc. split_and!; [done|by apply Net_setup|done..].
Qed.

Lemma setup_phase uid u : phaseOwned w u → keepsOf (phaseIn u) (setupNetwork w cfg outbound uid).
Proof.
  intros Ho. unfold setupNetwork, event, onStore. walk. apply SetPodIP_phase.
Qed.

Lemma env_trace handle podIP s :
  let '(s', r) := resolveEnvironment w cfg outbound IsEnvVarName IsQualifiedName range handle podIP s in
  (∃ env, s'.(l_trace) = s.(l_trace) ++ env ∧ Forall isEvent env) ∧ match r with inl (ErrEnv _) | inr _ => True | inl _ => False end.
Proof.
  assert (emits isEvent (resolveEnvironment w cfg outbound IsEnvVarName IsQualifiedName range handle podIP)) as He
    by (unfold resolveEnvironment, setPod, event; walk).
  assert (fails (λ e, match e with ErrEnv _ => True | _ => False end)
    (resolveEnvironment w cfg outbound IsEnvVarName IsQualifiedName range handle podIP)) as Hf
    by (unfold resolveEnvironment, setPod, event; walk).
  specialize (He s). specialize (Hf s). destruct (resolveEnvironment _ _ _ _ _ _ _ _ s) as [s' [e|]]; [|done].
  split; [done|]. specialize (Hf e eq_refl). by destruct e.
Qed.

Lemma env_phase handle podIP u : phaseOwned w u →
  keepsOf (phaseIn u) (resolveEnvironment w cfg outbound IsEnvVarName IsQualifiedName range handle podIP).
Proof.
  intros Ho. unfold resolveEnvironment, setPod, event. walk; apply modify_phase; intros ?; by case_decide.
Qed.

(** The first steps, up to the containers. *)
Definition prepare (handle : nat) : LM SyncErr (string * string * string) :=
  uid ← gets (λ s, s.(l_pod).(p_UID));
  net ← setupNetwork w cfg outbound uid;
  let '(netPath, podIP) := net in
  _ ← modifyS (λ s, {| s with l_store := InitRestartState (w.(w_clock) s.(l_trace)) s.(l_store) s.(l_pod) |});
  _ ← resolveEnvironment w cfg outbound IsEnvVarName IsQualifiedName range handle podIP;
  mret (uid, netPath, podIP).

(** What the first steps leave. *)
Definition prepared (uid : string) (out : string + string * string) (env : History) (r : SyncErr + string * string * string) : Prop :=
  match out, r with
  | inl e, inl (ErrNetwork e') => e' = e ∧ env = []
  | inr _, inl (ErrEnv _) => True
  | inr (path, ip), inr a => a = (uid, path, ip)
  | _, _ => False
  end.

Lemma prepare_trace handle s : let '(s', r) := prepare handle s in
  ∃ net env out, s'.(l_trace) = s.(l_trace) ++ net ++ env ∧
    NetStep s.(l_pod).(p_UID) s.(l_pod) (PodIP s.(l_store) s.(l_pod).(p_UID)) hostIP net out ∧ Forall isEvent env ∧
    prepared s.(l_pod).(p_UID) out env r.
Proof.
  unfold prepare, mbind, SE_bind, gets, modifyS. cbn beta iota zeta.
  pose proof (setup_trace (p_UID (l_pod s)) s) as Hs.
  destruct (setupNetwork _ _ _ _ s) as [s1 r1]; destruct Hs as (net & out & Ht & Hn & Hp & ->). destruct out as [e|[path ip]].
  { exists net, [], (inl e). by rewrite List.app_nil_r. }
  cbn beta iota. match goal with |- context [resolveEnvironment _ _ _ _ _ _ _ _ ?x] => set (s2 := x) end.
  pose proof (env_trace handle ip s2) as He. assert (l_trace s2 = l_trace s1) as Ht2 by done.
  destruct (resolveEnvironment _ _ _ _ _ _ _ _ s2) as [s3 [e|[]]]; cbn [fst snd] in *; destruct He as ((env & He & Hev) & Hr);
    exists net, env, (inr (path, ip)); rewrite He, Ht2, Ht, <- List.app_assoc; [by destruct e|done].
Qed.

Lemma prepare_phase handle u : phaseOwned w u → keepsOf (phaseIn u) (prepare handle).
Proof.
  intros Ho. unfold prepare. walk; auto using setup_phase, env_phase. apply InitRestartState_phase.
Qed.

Lemma sync_steps handle s :
  syncPodSandboxAndContainers w cfg tidal clusterDNS outbound IsEnvVarName IsQualifiedName range handle s =
  (prepare handle ≫= bringUp) s.
Proof.
  unfold syncPodSandboxAndContainers, prepare, mbind, SE_bind, gets. cbn beta iota.
  destruct (setupNetwork _ _ _ _ s) as [s1 [e|[netPath podIP]]]; [done|]. unfold modifyS. cbn beta iota.
  destruct (resolveEnvironment _ _ _ _ _ _ _ _ _) as [s2 [e2|[]]]; done.
Qed.

End SyncOrder.


(** ** A run *)

(** A world in which everything works: a machine is starting at its first two
    polls, init containers exit, and the clock shows the time slept. *)
Definition sleptTime (h : History) : Time := foldl (λ t c, match c with CSleep d => t + Z.max 0 d | _ => t end)%Z 1%Z h.

Definition demoWorld : World := {|
  w_now := sleptTime; w_clock := λ _ _, 1%Z; w_cancelled := λ _, false; w_acquired := λ _, true; w_others := λ _ st, st;
  w_Setup := λ _ uid, (netnsPath uid, "10.0.0.7", None); w_rm := λ _, exRM; w_ContainerState := λ _ _ _, StateUnknown;
  w_Pull := λ _ _ _, (["layer"], false, None); w_Mount := λ _ o _, inr ("/merged/" +:+ o);
  w_Volumes := λ _ _ _, inr []; w_Entrypoint := λ _ _, ([], []); w_Run := λ _ _ _, None;
  w_WaitExit := λ _ _ _, (StateExited, None);
  w_Status := λ h uid name, Some (if decide (polls uid name h < 2) then StateCreating else StateRunning);
  w_SharedMounts := λ _ _ _, None; w_RunInContainer := λ _ _ _ _, None; w_HTTPGet := λ _ _, None;
  w_Machined := λ _, None; w_errText := λ _, "" |}.

Definition demoState (pod : Pod) : LState := {|
  l_trace := []; l_store := RegisterPending NewPodStore pod.(p_UID) pod 1; l_pod := pod; l_cache := ∅;
  l_vols := NewVolumeTracker "/b" "p" |}.

Lemma sleptTime_clock h c : (sleptTime h ≤ sleptTime (h ++ [c]))%Z.
Proof. unfold sleptTime. rewrite foldl_app. destruct c; cbn; lia. Qed.
Lemma sleptTime_sleep h d : (sleptTime h + d ≤ sleptTime (h ++ [CSleep d]))%Z.
Proof. unfold sleptTime. rewrite foldl_app. cbn. lia. Qed.

Lemma wait_for_container_ends_witness :
  ∃ s' r new, waitForContainer demoWorld "u" "web" false machineStartTimeout (demoState zeroPod) = (s', inr (Some r)) ∧
    s'.(l_trace) = (demoState zeroPod).(l_trace) ++ new ∧
    (Z.of_nat (polls "u" "web" new) ≤ machineStartTimeout / pollStep + 1)%Z ∧
    (r = None → ∃ h st, s'.(l_trace) = h ++ [CStatus "u" "web" (Some st)] ∧ up false st).
Proof.
  apply (wait_for_container_ends demoWorld "u" "web" false machineStartTimeout (demoState zeroPod) sleptTime_clock
    sleptTime_sleep). vm_compute. discriminate.
Defined.
