(* ===== verification/PodLife.v ===== *)
(** * Deletion, retries and admission of pods (node/lifecycle.go)

    What the operations of [Lifecycle] promise: [DeletePod] tears a pod down
    completely and in order, the goroutine of [CreatePod] retries with growing
    delays and gives its slot back, and [CreatePod] starts at most one
    goroutine for a pod. *)
From S2P Require Import Prelude Corev1 Monad Paths Types Probes PodStore Persist Status Env VolTracker BatchWatcher Runtime Resources Config Lifecycle.
Import Str.

(** ** Exact traces *)

(** A computation that makes exactly the calls [h] and does not fail. *)
Definition outputs {E} (h : History) (m : LM E ()) : Prop :=
  ∀ s, (m s).1.(l_trace) = s.(l_trace) ++ h ∧ (m s).2 = inr tt.

Section Outputs.
Context (w : World) {E : Type}.

Lemma outputs_do c : outputs [c] (doE w c : LM E ()).
Proof. by intros s. Qed.
Lemma outputs_bind h h' (m m' : LM E ()) : outputs h m → outputs h' m' → outputs (h ++ h') (_ ← m; m').
Proof.
  intros Hm Hm' s. destruct (Hm s) as [Ht Hr]. unfold mbind, SE_bind. destruct (m s) as [s1 [e|[]]]; [done|].
  destruct (Hm' s1) as [Ht' Hr']. cbn in Ht. by rewrite Ht', Ht, List.app_assoc.
Qed.
Lemma outputs_forM {A} (g : A → History) (l : list A) (f : A → LM E ()) :
  (∀ x, outputs (g x) (f x)) → outputs (concat (map g l)) (forM l f).
Proof.
  intros H. induction l as [|x l IH]; cbn; [intros s; by rewrite List.app_nil_r|]. by apply outputs_bind.
Qed.
Lemma outputs_when (b : bool) h (m : LM E ()) : outputs h m → outputs (if b then h else []) (whenM b m).
Proof. intros H. destruct b; [done|]. intros s. by rewrite List.app_nil_r. Qed.
End Outputs.

(** ** Deletion *)

Section Delete.
Context (w : World) (cfg : PawnConfig).

(** The calls that remove one container, and the whole pod. *)
Definition containerTeardown (uid : string) (c : Container) : History :=
  [CEvent "Normal" "Killing"; CStop uid c.(c_Name); CReset uid c.(c_Name); CUnmount (overlayName uid c.(c_Name));
   CRemoveAll (overlayDir cfg uid c.(c_Name)); CEvent "Normal" "Killed"].

Definition podTeardown (uid : string) (pod : Pod) : History :=
  [CEvent "Normal" "Killing"] ++
  concat (map (containerTeardown uid) (pod.(p_Containers) ++ pod.(p_InitContainers))) ++
  (if negb pod.(p_HostNetwork)
   then [CNetTeardown uid pod.(p_Namespace) pod.(p_Name); CEvent "Normal" "NetworkTeardown"] else []) ++
  [CCleanupCSI uid; CVolumeCleanup uid; CRemoveAll (podDir cfg uid)].

Lemma teardown_outputs {E} uid pod : outputs (podTeardown uid pod) (teardownPodIdempotent w cfg uid pod : LM E ()).
Proof.
  apply outputs_bind; [apply outputs_do|]. apply outputs_bind.
  { apply outputs_forM. intros c. apply (outputs_bind [_] (_ :: _ :: _)); [apply outputs_do|].
    apply (outputs_bind [_; _] [_; _; _]); [apply (outputs_bind [_] [_]); apply outputs_do|].
    apply (outputs_bind [_] [_; _]); [apply outputs_do|]. apply (outputs_bind [_] [_]); apply outputs_do. }
  apply outputs_bind; [apply outputs_when, (outputs_bind [_] [_]); apply outputs_do|].
  apply (outputs_bind [_] [_; _]); [apply outputs_do|]. apply (outputs_bind [_] [_]); apply outputs_do.
Qed.

(** The containers whose PreStop hook was run, in the order of the hooks. *)
Definition hookNames (h : History) : list string :=
  omap (λ c, match c with CHook _ n _ _ => Some n | _ => None end) h.

Definition hasPreStop (c : Container) : bool := bool_decide (is_Some (c.(c_Lifecycle) ≫= lc_PreStop)).

Lemma hookNames_app h h' : hookNames (h ++ h') = hookNames h ++ hookNames h'.
Proof. apply omap_app. Qed.

(** One hook: the calls it makes end with its record. *)
Lemma hook_trace {E} uid name hook handler s :
  ∃ h err, (runLifecycleHook w uid name hook handler s : LState * (E + option string)).1.(l_trace) =
             s.(l_trace) ++ h ++ [CHook uid name hook err] ∧
    Forall waits h ∧ hookNames h = [] ∧ ∃ r, (runLifecycleHook w uid name hook handler s).2 = (inr r : E + _).
Proof.
  unfold runLifecycleHook. destruct (lh_Exec handler).
  { by exists [], (w_RunInContainer w (l_trace s) uid name l); split_and!; [|constructor| |eexists]. }
  destruct (lh_HTTPGet handler) as [g|].
  { unfold mbind, SE_bind, gets. cbn beta iota zeta. set (podIP := PodIP _ _).
    case_decide; case_decide; cbn beta iota zeta; eexists [], _;
      (split_and!; [reflexivity|constructor|reflexivity|eexists; reflexivity]). }
  destruct (lh_Sleep handler) as [d|].
  - exists [CSleep (d * Second)], None. split_and!; [by rewrite List.app_assoc|by repeat constructor|done|eauto].
  - by exists [], None; split_and!; [|constructor| |eexists].
Qed.

Lemma preStop_trace {E} pod uid s :
  ∃ s' h, runPreStopHooks w pod uid s = (s', inr tt : E + ()) ∧ s'.(l_trace) = s.(l_trace) ++ h ∧ Forall waits h ∧
    hookNames h = map c_Name (List.filter hasPreStop pod.(p_Containers)).
Proof.
  unfold runPreStopHooks. generalize (p_Containers pod). intros cs.
  set (f := λ c : Container, _ : LM E ()).
  assert (∀ c s, ∃ s1 h, f c s = (s1, inr tt) ∧ s1.(l_trace) = s.(l_trace) ++ h ∧ Forall waits h ∧
    hookNames h = if hasPreStop c then [c.(c_Name)] else []) as Hf.
  { intros c s0. unfold f, hasPreStop. destruct (c_Lifecycle c ≫= lc_PreStop) as [handler|].
    - destruct (hook_trace (E := E) uid (c_Name c) "PreStop" handler s0) as (h & err & Ht & Hw & Hn & r & Hr).
      unfold mbind, SE_bind. destruct (runLifecycleHook w uid (c_Name c) "PreStop" handler s0) as [s1 r1].
      cbn in Ht, Hr. subst r1. exists s1, (h ++ [CHook uid (c_Name c) "PreStop" err]).
      rewrite hookNames_app, Hn. split_and!; [done..| |by rewrite bool_decide_true by eauto]. apply Forall_app. by repeat constructor.
    - exists s0, []. by rewrite List.app_nil_r, bool_decide_false by (by intros []). }
  revert s. induction cs as [|c cs IH]; intros s; [exists s, []; by rewrite List.app_nil_r|].
  cbn [forM List.filter]. unfold mbind, SE_bind. destruct (Hf c s) as (s1 & h & -> & Ht & Hw & Hn).
  destruct (IH s1) as (s2 & h' & -> & Ht' & Hw' & Hn'). exists s2, (h ++ h').
  rewrite Ht', Ht, List.app_assoc, hookNames_app, Hn, Hn'. split_and!; [done..|by apply Forall_app|].
  by destruct (hasPreStop c).
Qed.
End Delete.

Lemma Unregister_gone d c s uid ns n : pods (Unregister d c s uid ns n) !! uid = None.
Proof.
  unfold Unregister. destruct (pods s !! uid) as [ps|] eqn:H; cbn; [|done].
  destruct (pst_deleting ps); cbn; by rewrite lookup_delete_eq.
Qed.

Lemma CancelInFlight_MarkDeleting s uid : CancelInFlight (MarkDeleting s uid) uid = CancelInFlight s uid.
Proof.
  unfold MarkDeleting, CancelInFlight, getPodState. destruct (pods s !! uid) as [ps|] eqn:H; cbn; [|by rewrite H].
  destruct (pst_deleting ps); cbn; [by rewrite H|]. unfold modify. cbn. by rewrite H; cbn; rewrite lookup_insert_eq.
Qed.

(** The calls of a deletion; its last step takes the pod from the store. *)
Lemma DeletePod_calls w cfg {E} pod s :
  ∃ s' hooks, DeletePod w cfg pod s = (s', inr tt : E + ()) ∧
    s'.(l_trace) = s.(l_trace) ++ [CCancel pod.(p_UID) (CancelInFlight s.(l_store) pod.(p_UID)); CDeleteState pod.(p_UID)] ++
                   hooks ++ podTeardown cfg pod.(p_UID) pod ++ [CUntrack pod.(p_UID)] ∧
    Forall waits hooks ∧ hookNames hooks = map c_Name (List.filter hasPreStop pod.(p_Containers)) ∧
    HasPod s'.(l_store) pod.(p_UID) = false ∧ s'.(l_vols).(volRefsByPod) !! pod.(p_UID) = None.
Proof.
  unfold DeletePod, mbind, SE_bind, onStore, modifyS at 1, gets, doE, callE at 1 2. cbn beta iota zeta.
  match goal with |- context [runPreStopHooks w pod _ ?x] => set (s1 := x) end.
  assert (l_trace s1 = l_trace s ++ [CCancel (p_UID pod) (CancelInFlight (l_store s) (p_UID pod)); CDeleteState (p_UID pod)]) as Ht1.
  { unfold s1. cbn. rewrite CancelInFlight_MarkDeleting, <- List.app_assoc. done. }
  clearbody s1. destruct (@preStop_trace w E pod (p_UID pod) s1) as (s2 & hooks & -> & Ht & Hw & Hn). cbn beta iota.
  destruct (@teardown_outputs w cfg E (p_UID pod) pod s2) as [Ht2 Hr2].
  destruct (teardownPodIdempotent w cfg (p_UID pod) pod s2) as [s3 r3]. cbn [fst snd] in Ht2, Hr2. subst r3. cbn beta iota.
  eexists _, hooks. split; [reflexivity|]. cbn -[podTeardown]. rewrite lookup_delete_eq.
  split_and!; [|done..| |done].
  - by rewrite Ht2, Ht, Ht1, <- !List.app_assoc.
  - unfold HasPod, getPodState. by rewrite Unregister_gone.
Qed.

(** C4: [DeletePod] never fails and always tears down the whole pod, whatever
    the services answer: it cancels the creation that is in flight, removes the
    state file, runs the PreStop hook of each container that has one, in order,
    and only then stops, resets, unmounts and removes each container, app and
    init containers alike, releases the network of a pod with its own, cleans
    up volumes and workspace; after that neither the store nor the volume
    tracker knows the pod. *)
Theorem delete_complete w cfg pod s :
  let uid := pod.(p_UID) in
  ∃ s' hooks, DeletePod w cfg pod s = (s', inr tt : Empty_set + ()) ∧
    s'.(l_trace) = s.(l_trace) ++ [CCancel uid (CancelInFlight s.(l_store) uid); CDeleteState uid] ++ hooks ++
                   podTeardown cfg uid pod ++ [CUntrack uid] ∧
    Forall waits hooks ∧ hookNames hooks = map c_Name (List.filter hasPreStop pod.(p_Containers)) ∧
    HasPod s'.(l_store) uid = false ∧ s'.(l_vols).(volRefsByPod) !! uid = None.
Proof. apply DeletePod_calls. Qed.

(** ** Creation *)

Section Saga.
Context (w : World) (cfg : PawnConfig) (tidal : Tidal) (clusterDNS : string) (outbound : option string).
Context (IsEnvVarName IsQualifiedName : string → bool) (range : ∀ A, gmap string A → list (string * A)).

Abbreviation sync := (syncPodSandboxAndContainers w cfg tidal clusterDNS outbound IsEnvVarName IsQualifiedName range).

(** The delay before the retry number [i]: two seconds, doubled each time, at
    most five minutes. *)
Definition delay (i : nat) : Duration := Z.min (2 * 2 ^ Z.of_nat i * Second) (5 * Minute).

Lemma delay_next i : nextBackoff (delay i) = delay (S i).
Proof.
  unfold nextBackoff, delay, createBackoffMax, Minute, Second. rewrite Nat2Z.inj_succ, Z.pow_succ_r by lia.
  pose proof (Z.pow_pos_nonneg 2 (Z.of_nat i)). rewrite wrap64_id by (unfold in_int64; lia).
  destruct (Z.ltb_spec (5 * (60 * 1000000000)) (Z.min (2 * 2 ^ Z.of_nat i * 1000000000) (5 * (60 * 1000000000)) * 2)); lia.
Qed.

(** [h] are the calls of one attempt, made after those of [pre], that ends with
    [r]. *)
Definition attempt (handle : nat) (pre h : History) (r : SyncErr + ()) : Prop :=
  ∃ s s', s.(l_trace) = pre ∧ sync handle s = (s', r) ∧ s'.(l_trace) = pre ++ h.

(** What is reported of an attempt that failed. *)
Definition backingOff : History := [CEvent "Warning" "CreateFailed"; CEvent "Warning" "BackOff"].

(** The calls of the goroutine from attempt [i] on, after those of [pre], with
    the way it ends: after an attempt that succeeds; with restart policy Never
    after one that fails, when the pod has been reported as failed; otherwise,
    after one that fails, it looks whether it is cancelled: if so it ends, and
    if not it sleeps and tries again.  It is still running only after [fuel]
    failures. *)
Inductive Attempts (handle fuel : nat) (never : bool) : History → nat → History → SagaEnd → Prop :=
  | At_more pre : Attempts handle fuel never pre fuel [] SagaRunning
  | At_done pre i h : attempt handle pre h (inr tt) → Attempts handle fuel never pre i h SagaDone
  | At_failed pre i h err pod state : never = true → attempt handle pre h (inl err) →
      pod.(p_Status).(ps_Phase) = PodFailed →
      Attempts handle fuel never pre i (h ++ [CEvent "Warning" "CreateFailed"; CEvent "Warning" "CreateFailed";
        CNotify pod; CWriteState state]) SagaFailed
  | At_cancelled pre i h err : never = false → attempt handle pre h (inl err) →
      w.(w_cancelled) (pre ++ h ++ backingOff) = true →
      Attempts handle fuel never pre i (h ++ backingOff) SagaCancelled
  | At_retry pre i h err h' e : never = false → attempt handle pre h (inl err) →
      w.(w_cancelled) (pre ++ h ++ backingOff) = false →
      Attempts handle fuel never (pre ++ h ++ backingOff ++ [CSleep (delay i)]) (S i) h' e →
      Attempts handle fuel never pre i (h ++ backingOff ++ [CSleep (delay i)] ++ h') e.

Lemma sync_extends handle s : ∃ h, (sync handle s).1.(l_trace) = s.(l_trace) ++ h.
Proof.
  assert (emits (λ _, True) (sync handle)) as H; [|destruct (H s) as (h & ? & _); eauto].
  unfold syncPodSandboxAndContainers, setupNetwork, resolveEnvironment, setPod, onStore, initContainer, appContainer, event. walk;
    (eapply emits_weaken; [|apply emits_launch]); done.
Qed.

Lemma MarkFailed_phase st uid pod reason msg : (MarkFailed st uid pod reason msg).2.(p_Status).(ps_Phase) = PodFailed.
Proof. unfold MarkFailed. by repeat case_match. Qed.

Lemma markPodFailed_trace {E} uid err s : ∃ s' pod state, markPodFailed w uid err s = (s', inr tt : E + ()) ∧
  s'.(l_trace) = s.(l_trace) ++ [CEvent "Warning" "CreateFailed"; CNotify pod; CWriteState state] ∧
  pod.(p_Status).(ps_Phase) = PodFailed.
Proof.
  unfold markPodFailed, mbind, SE_bind, event, doE, callE, gets. cbn beta iota zeta.
  pose proof (λ st pod, MarkFailed_phase st uid pod "CreateFailed" (w_errText w err)) as Hp.
  match goal with |- context [MarkFailed ?a ?b ?c ?d ?e] => specialize (Hp a c); destruct (MarkFailed a b c d e) as [st pod] end.
  eexists _, pod, _. split; [reflexivity|]. split; [|exact Hp]. cbn. by rewrite <- !List.app_assoc.
Qed.

Lemma saga_loop_attempts handle uid never fuel : ∀ i s, ∃ s' h e,
  saga_loop w cfg tidal clusterDNS outbound IsEnvVarName IsQualifiedName range fuel handle uid never (delay i) s =
    (s', inr e) ∧ s'.(l_trace) = s.(l_trace) ++ h ∧ Attempts handle (i + fuel) never s.(l_trace) i h e.
Proof.
  induction fuel as [|fuel IH]; intros i s; cbn [saga_loop].
  { exists s, [], SagaRunning. rewrite List.app_nil_r, Nat.add_0_r. split_and!; [done..|constructor]. }
  destruct (sync_extends handle s) as [h Hh]. destruct (sync handle s) as [s1 r] eqn:Hs. cbn in Hh.
  assert (attempt handle s.(l_trace) h r) as Ha by (by exists s, s1).
  unfold mbind, SE_bind, handled. rewrite Hs. cbn beta iota zeta.
  destruct r as [err|[]]; [|by exists s1, h, SagaDone; split_and!; [..|constructor]].
  unfold event, doE, callE at 1. cbn beta iota zeta. set (s2 := {| l_trace := _; l_store := _; l_pod := _; l_cache := _; l_vols := _ |}).
  destruct never.
  { destruct (@markPodFailed_trace Empty_set uid err s2) as (s3 & pod & state & -> & Ht & Hp). cbn beta iota.
    eexists s3, _, SagaFailed. split_and!; [done| |by eapply At_failed]. rewrite Ht. cbn. rewrite Hh, <- !List.app_assoc. done. }
  unfold callE at 1, gets. cbn beta iota zeta. destruct (w_cancelled _ _) eqn:Hc;
    (assert (Hc' := Hc); cbn in Hc'; rewrite Hh, <- !List.app_assoc in Hc').
  { eexists _, _, SagaCancelled. split_and!; [reflexivity| |by eapply At_cancelled]. cbn. by rewrite Hh, <- !List.app_assoc. }
  unfold callE. cbn beta iota zeta. rewrite delay_next.
  match goal with |- context [saga_loop _ _ _ _ _ _ _ _ _ _ _ _ _ ?x] => destruct (IH (S i) x) as (s' & h' & e & -> & Ht & Hat) end.
  eexists s', _, e. split_and!; [done| |eapply (At_retry _ _ _ _ i h err h'); [done|done|exact Hc'|]].
  - rewrite Ht. cbn. by rewrite Hh, <- !List.app_assoc.
  - replace (i + S fuel) with (S i + fuel) by lia. cbn in Hat. rewrite Hh, <- !List.app_assoc in Hat. exact Hat.
Qed.
End Saga.

(** C7: the goroutine of [CreatePod].  It makes no attempt exactly when it is
    cancelled before it gets a slot; otherwise it takes one slot and gives it
    back at the end.  With restart policy Never it makes one attempt and reports
    the pod as failed when that fails.  Otherwise, after each failure, it ends if
    it has been cancelled by then, and retries if it has not, with a delay of two
    seconds that doubles up to five minutes: it never gives up by itself, and
    never goes on when it is cancelled. *)
Theorem saga_protocol w cfg tidal clusterDNS outbound IsEnvVarName IsQualifiedName range fuel handle s :
  let never := bool_decide (s.(l_pod).(p_RestartPolicy) = RestartPolicyNever) in
  ∃ s' e, saga w cfg tidal clusterDNS outbound IsEnvVarName IsQualifiedName range fuel handle s = (s', inr e) ∧
    if w.(w_acquired) s.(l_trace) then
      ∃ h, s'.(l_trace) = s.(l_trace) ++ [CAcquire true] ++ h ++ match e with SagaRunning => [] | _ => [CRelease] end ∧
        Attempts w cfg tidal clusterDNS outbound IsEnvVarName IsQualifiedName range handle fuel never
          (s.(l_trace) ++ [CAcquire true]) 0 h e
    else s'.(l_trace) = s.(l_trace) ++ [CAcquire false] ∧ e = SagaCancelled.
Proof.
  intros never. unfold saga, mbind, SE_bind, callE at 1. cbn beta iota zeta.
  destruct (w_acquired w (l_trace s)); [|eexists _, _; split; [reflexivity|done]].
  unfold gets, modifyS. cbn beta iota.
  match goal with |- context [saga_loop _ _ _ _ _ _ _ _ _ _ ?u ?n ?d ?x] =>
    destruct (saga_loop_attempts w cfg tidal clusterDNS outbound IsEnvVarName IsQualifiedName range handle u n fuel 0 x)
      as (s1 & h & e & Hrun & Ht & Ha) end.
  change createBackoffInit with (delay 0). rewrite Hrun. cbn beta iota. cbn [l_trace l_pod] in *.
  rewrite <- List.app_assoc in Ht.
  destruct e; (eexists _, _; split; [reflexivity|]; exists h; split; [|exact Ha]); cbn; rewrite Ht;
    by rewrite ?List.app_nil_r, <- ?List.app_assoc.
Qed.

(** ** Admission and registration *)

(** What the API server guarantees about a pod that is handed to [CreatePod]:
    its name is used by no other registered pod, and its uid by no pod of
    another name. *)
Definition named_ok (s : PodStore) (pod : Pod) : Prop :=
  (∀ uid, s.(nameIndex) !! pod_key pod = Some uid → uid = pod.(p_UID)) ∧
  ∀ ps, s.(pods) !! pod.(p_UID) = Some ps → pod_key pod = ps_key ps.

Lemma store_ok_CreatePod cfg hp clk handle s pod : store_ok s → named_ok s pod →
  store_ok (CreatePod cfg hp clk handle s pod).1.
Proof.
  intros Hs [Hn Hu]. unfold CreatePod. case_decide; [done|]. destruct (AdmitPod _ _ _ _ _); try done.
  destruct (AlreadyInFlight _ _); [done|].
  pose proof (store_ok_step s (OpAlreadyRunning (p_UID pod) pod) Hu Hs) as Hr. cbn in Hr.
  pose proof (λ e, store_ok_step (AlreadyRunning s (p_UID pod) pod).1 (OpInitRestartState clk pod) e Hr) as Hi. cbn in Hi.
  unfold AlreadyRunning, getPodState in *. destruct (pods s !! p_UID pod) as [ps|] eqn:Hps.
  - destruct (bool_decide _); cbn in *; auto.
  - cbn. apply (store_ok_step s (OpRegisterPending (p_UID pod) pod handle)); [|done]. split; [done|].
    destruct (nameIndex s !! pod_key pod) as [uid|] eqn:Hk; [|done]. rewrite (Hn uid eq_refl) in Hk.
    destruct Hs as (_ & _ & []). apply so_name in Hk as (ps & Hps' & _). by rewrite Hps in Hps'.
Qed.

Lemma CreatePod_known cfg hp clk handle s pod : HasPod s pod.(p_UID) = true →
  (CreatePod cfg hp clk handle s pod).2 ≠ inr true.
Proof.
  unfold HasPod, CreatePod, AlreadyRunning, getPodState. intros Hp. case_decide; [done|].
  destruct (AdmitPod _ _ _ _ _); try done. destruct (AlreadyInFlight _ _); [done|].
  destruct (pods s !! p_UID pod) as [ps|]; [|done]. by destruct (bool_decide _).
Qed.

Lemma HasPod_modify s uid f uid' : HasPod (modify s uid f) uid' = HasPod s uid'.
Proof.
  unfold HasPod, getPodState, modify. destruct (pods s !! uid) as [ps|] eqn:H; [|done]. cbn.
  destruct (decide (uid = uid')) as [->|]; [by rewrite lookup_insert_eq, H|by rewrite lookup_insert_ne].
Qed.

Lemma HasPod_AlreadyRunning s uid pod : HasPod (AlreadyRunning s uid pod).1 uid = HasPod s uid.
Proof.
  unfold HasPod, AlreadyRunning, getPodState. destruct (pods s !! uid) as [ps|] eqn:H; [|cbn; by rewrite H].
  destruct (bool_decide _); cbn; by rewrite lookup_insert_eq.
Qed.

(** [CreatePod] keeps the store consistent; it starts a goroutine exactly
    when the pod has containers, is admitted and is not registered yet, and
    then the pod is registered as in flight, so that no later call starts
    another one; when it is rejected the store is unchanged. *)
Theorem create_pod_once cfg hp clk handle s pod :
  store_ok s → named_ok s pod →
  let '(s', r) := CreatePod cfg hp clk handle s pod in
  store_ok s' ∧
  (r = inr true ↔ pod.(p_Containers) ≠ [] ∧ AdmitPod hp s pod cfg.(pcf_CPU) cfg.(pcf_Memory) = AdmitOK ∧
                  HasPod s pod.(p_UID) = false) ∧
  match r with
  | inr true => CancelInFlight s' pod.(p_UID) = Some handle ∧
                ∀ hp' clk' handle', (CreatePod cfg hp' clk' handle' s' pod).2 ≠ inr true
  | inr false => pod.(p_Containers) = [] ∨ HasPod s' pod.(p_UID) = true
  | inl reason => s' = s ∧ reason = AdmitPod hp s pod cfg.(pcf_CPU) cfg.(pcf_Memory) ∧ reason ≠ AdmitOK
  end.
Proof.
  intros Hs Hn. pose proof (store_ok_CreatePod cfg hp clk handle s pod Hs Hn) as Hok.
  destruct (CreatePod cfg hp clk handle s pod) as [s' r] eqn:Hc. split; [exact Hok|]. clear Hok. revert Hc.
  unfold CreatePod at 1. destruct (decide (length (p_Containers pod) = 0)) as [Hl|Hl].
  { intros [= <- <-]. apply nil_length_inv in Hl. rewrite Hl. naive_solver. }
  assert (p_Containers pod ≠ []) as Hl' by (intros H; by rewrite H in Hl).
  destruct (AdmitPod _ _ _ _ _) eqn:Ha; try (intros [= <- <-]; naive_solver).
  pose proof (HasPod_AlreadyRunning s (p_UID pod) pod) as Hr.
  destruct (AlreadyInFlight s (p_UID pod)) eqn:Hf.
  { intros [= <- <-]. assert (HasPod s (p_UID pod) = true) as ->; [|naive_solver].
    unfold AlreadyInFlight, IsInFlight, HasPod in *. by destruct (getPodState s (p_UID pod)). }
  destruct (HasPod s (p_UID pod)) eqn:Hp; unfold HasPod in Hp; unfold AlreadyRunning in Hr |- *;
    destruct (getPodState s (p_UID pod)) as [ps|] eqn:Hps; try done.
  - destruct (bool_decide _); cbn in Hr |- *; intros [= <- <-]; (split; [naive_solver|right]); [|exact Hr].
    unfold InitRestartState. destruct (initRestartMaps _ _). by rewrite HasPod_modify.
  - intros [= <- <-]. split; [naive_solver|]. unfold CancelInFlight, getPodState. cbn. rewrite lookup_insert_eq.
    split; [done|]. intros. apply CreatePod_known. unfold HasPod, getPodState. cbn. by rewrite lookup_insert_eq.
Qed.

Definition demoConfig : PawnConfig := {| zeroPawnConfig with
  pcf_Name := "p"; pcf_BaseDir := "/b"; pcf_NodeIP := ""; pcf_CPU := quantity 1000 1; pcf_Memory := quantity 0 1000 |}.

Lemma create_pod_once_witness :
  store_ok (CreatePod demoConfig None (λ _, 0%Z) 7 NewPodStore (demoPod "a" 600 10)).1 ∧
  (CreatePod demoConfig None (λ _, 0%Z) 7 NewPodStore (demoPod "a" 600 10)).2 = inr true.
Proof.
  assert (named_ok NewPodStore (demoPod "a" 600 10)) as Hn.
  { split; intros x Hx; cbn in Hx; by rewrite lookup_empty in Hx. }
  pose proof (create_pod_once demoConfig None (λ _, 0%Z) 7 NewPodStore (demoPod "a" 600 10) store_ok_New Hn) as H.
  destruct (CreatePod _ _ _ _ _ _) as [s' r] eqn:Hc. destruct H as (H1 & H2 & _).
  split; [exact H1|]. apply H2. split_and!; [discriminate|vm_compute; reflexivity|reflexivity].
Defined.

(** ** Runs *)

Definition runNames (h : History) : list string := omap (λ c, match c with CRun _ n _ _ => Some n | _ => None end) h.

Definition lifePod (policy : RestartPolicy) : Pod :=
  {| zeroPod with p_UID := "u"; p_Namespace := "default"; p_Name := "web"; p_RestartPolicy := policy;
     p_InitContainers := [{| zeroContainer with c_Name := "setup" |}];
     p_Containers := [{| zeroContainer with c_Name := "web" |}] |}.

Definition demoSaga (w : World) (fuel : nat) (pod : Pod) : LState * (Empty_set + SagaEnd) :=
  saga w demoConfig (NewTidal "n" "192.0.2.1") "" None exValid exValid exRange fuel 1 (demoState pod).

Example creation_runs : let '(s', r) := demoSaga demoWorld 1 (lifePod RestartPolicyAlways) in
  r = inr SagaDone ∧ runNames s'.(l_trace) = ["setup"; "web"] ∧ PodPhase_of s'.(l_store) "u" = PodRunning ∧
  IsInFlight s'.(l_store) "u" = false.
Proof. vm_compute. auto. Qed.

(** A machine that does not come up: the pod is reported as failed and the
    goroutine has ended, but the pod still counts as in flight, and the overlay
    of the container is still mounted. *)
Definition brokenWorld : World := {| demoWorld with w_Status := λ _ _ _, Some StateFailed |}.

Theorem failed_creation_stays_in_flight : let '(s', r) := demoSaga brokenWorld 1 (lifePod RestartPolicyNever) in
  r = inr SagaFailed ∧ PodPhase_of s'.(l_store) "u" = PodFailed ∧ IsInFlight s'.(l_store) "u" = true ∧
  resources "u" "web" s'.(l_trace) = (true, false).
Proof. vm_compute. auto. Qed.
