(* ===== verification/Eviction.v ===== *)
(** * Eviction under memory pressure (node/eviction.go)

    The check that runs every ten seconds: when the working set of the pawn
    exceeds nine tenths of its memory, the most expendable pods are evicted.
    The numbers of the cgroups are arguments of the check, which [evictionTick]
    fills in with the readings of [Stats]; [sort.Slice] is an argument of which
    only the contract is used; evicting a pod is the deletion of [Lifecycle]. *)
From S2P Require Import Prelude Paths Corev1 Float64 Monad Types UnitNames Stats Probes PodStore Persist Status Env VolTracker BatchWatcher Runtime Resources Config Lifecycle PodLife.
Import Str.

(** The constants 0.90 and 0.95. *)
Definition evictionMemoryThreshold : float64 := fdiv (float64_of_int 9) (float64_of_int 10).
Definition evictionHardThreshold : float64 := fdiv (float64_of_int 95) (float64_of_int 100).
Definition evictionMinFreeBytes : Z := 128 * 1024 * 1024.

Record podEvictionCandidate := {
  ec_pod : Pod;
  ec_uid : string;
  ec_qosClass : QOSClass;
  ec_oomScore : Z;
  ec_memoryUsage : Z;
  ec_memoryRequest : Z;
}.

Definition qosOrdinal (q : QOSClass) : Z :=
  match q with PodQOSBestEffort => 0 | PodQOSBurstable => 1 | PodQOSGuaranteed => 2 end.

(** The comparison of the sort: [true] when [ci] is evicted before [cj]. *)
Definition evictedFirst (ci cj : podEvictionCandidate) : bool :=
  if decide (ci.(ec_qosClass) = cj.(ec_qosClass)) then
    if decide (ci.(ec_oomScore) = cj.(ec_oomScore)) then (cj.(ec_memoryUsage) <? ci.(ec_memoryUsage))%Z
    else (cj.(ec_oomScore) <? ci.(ec_oomScore))%Z
  else (qosOrdinal ci.(ec_qosClass) <? qosOrdinal cj.(ec_qosClass))%Z.

(** The working sets of the containers that can be read, added up. *)
Definition podMemUsage (readMemory : string → string → option Z) (uid : string) (pod : Pod) : Z :=
  foldl (λ acc c, match readMemory uid c.(c_Name) with Some ws => u64 (acc + ws) | None => acc end) 0%Z pod.(p_Containers).

Definition buildEvictionCandidates (readMemory : string → string → option Z) (nodeMem : Z) (s : PodStore)
    : list podEvictionCandidate :=
  omap (λ e,
    if decide (e.(pe_Phase) ≠ PodRunning) then None
    else if IsDeleting s e.(pe_UID) then None
    else
      let '(oomScore, qosClass) := calculateOOMScore e.(pe_Pod) nodeMem in
      Some {| ec_pod := e.(pe_Pod); ec_uid := e.(pe_UID); ec_qosClass := qosClass; ec_oomScore := oomScore;
              ec_memoryUsage := podMemUsage readMemory e.(pe_UID) e.(pe_Pod);
              ec_memoryRequest := totalMemRequest e.(pe_Pod) |}) (Snapshot s).

Section Evict.
Context (w : World) (cfg : PawnConfig) (sortSlice : list podEvictionCandidate → list podEvictionCandidate).

Definition evictPod {E} (c : podEvictionCandidate) : LM E () :=
  _ ← event w "Warning" "Evicted";
  let pod := c.(ec_pod) in
  let evicted := {| pod with p_Status := {| pod.(p_Status) with
    ps_Phase := PodFailed; ps_Reason := "Evicted"; ps_Message := "The node was under memory pressure." |} |} in
  _ ← notifyPodStatus w evicted;
  DeletePod w cfg pod.

(** The loop at or above the hard threshold. *)
Fixpoint evictUntil {E} (freed : Z) (candidates : list podEvictionCandidate) : LM E () :=
  match candidates with
  | [] => mret tt
  | c :: candidates =>
      if (0 <? freed)%Z && (evictionMinFreeBytes <=? freed)%Z then mret tt
      else _ ← evictPod c; evictUntil (u64 (freed + c.(ec_memoryUsage))) candidates
  end.

Definition usageFraction (workingSet nodeMem : Z) : float64 := fdiv (float64_of_int workingSet) (float64_of_int nodeMem).

(** [workingSet] is [None] when the slice cannot be read. *)
Definition checkAndEvict {E} (workingSet : option Z) (readMemory : string → string → option Z) : LM E () :=
  let nodeMem := cfg.(pcf_Memory).(Value) in
  if (nodeMem <=? 0)%Z then mret tt else
  match workingSet with
  | None => mret tt
  | Some ws =>
      if flt (usageFraction ws nodeMem) evictionMemoryThreshold then mret tt else
      s ← gets l_store;
      let candidates := buildEvictionCandidates readMemory nodeMem s in
      if decide (length candidates = 0) then mret tt else
      let candidates := sortSlice candidates in
      if fle evictionHardThreshold (usageFraction ws nodeMem) then evictUntil 0 candidates
      else match candidates with
           | first :: _ => evictPod first
           | [] => mret tt
           end
  end.

(** ** Who is evicted *)

(** The candidates that the loop takes. *)
Fixpoint victims (freed : Z) (candidates : list podEvictionCandidate) : list podEvictionCandidate :=
  match candidates with
  | [] => []
  | c :: candidates =>
      if (0 <? freed)%Z && (evictionMinFreeBytes <=? freed)%Z then []
      else c :: victims (u64 (freed + c.(ec_memoryUsage))) candidates
  end.

(** The pods whose deletion has begun, in order. *)
Definition deletedUIDs (h : History) : list string := omap (λ c, match c with CDeleteState u => Some u | _ => None end) h.

Definition evicts {E} (uids : list string) (m : LM E ()) : Prop :=
  ∀ s, ∃ s' new, m s = (s', inr tt) ∧ s'.(l_trace) = s.(l_trace) ++ new ∧ deletedUIDs new = uids.

Definition candidateUID (c : podEvictionCandidate) : string := c.(ec_pod).(p_UID).

Lemma deletedUIDs_app h h' : deletedUIDs (h ++ h') = deletedUIDs h ++ deletedUIDs h'.
Proof. apply omap_app. Qed.

Lemma deletedUIDs_waits h : Forall waits h → deletedUIDs h = [].
Proof. induction 1 as [|x h Hx _ IH]; [done|]. by destruct x. Qed.

Lemma deletedUIDs_teardown uid pod : deletedUIDs (podTeardown cfg uid pod) = [].
Proof.
  unfold podTeardown. rewrite !deletedUIDs_app. cbn [deletedUIDs]. destruct (p_HostNetwork pod); cbn;
    generalize (p_Containers pod ++ p_InitContainers pod); intros l; rewrite ?(right_id_L [] (++));
    (induction l as [|c l IH]; cbn; [done|exact IH]).
Qed.

Lemma evicts_nil {E} : evicts [] (mret tt : LM E ()).
Proof. intros s. exists s, []. by rewrite List.app_nil_r. Qed.

Lemma evicts_bind {E} vs vs' (m m' : LM E ()) : evicts vs m → evicts vs' m' → evicts (vs ++ vs') (_ ← m; m').
Proof.
  intros Hm Hm' s. destruct (Hm s) as (s1 & h1 & Hr & Ht & Hd). destruct (Hm' s1) as (s2 & h2 & Hr' & Ht' & Hd').
  exists s2, (h1 ++ h2). unfold mbind, SE_bind. rewrite Hr. split; [done|].
  by rewrite Ht', Ht, List.app_assoc, deletedUIDs_app, Hd, Hd'.
Qed.

Lemma evicts_do {E} x : deletedUIDs [x] = [] → evicts [] (doE w x : LM E ()).
Proof. intros H s. eexists _, [x]. split; [reflexivity|]. done. Qed.

Lemma evicts_notify {E} pod : evicts [] (notifyPodStatus w pod : LM E ()).
Proof.
  apply (evicts_bind [] []); [by apply evicts_do|]. intros s. exact (evicts_do (CWriteState _) eq_refl s).
Qed.

Lemma evicts_delete {E} pod : evicts [pod.(p_UID)] (DeletePod w cfg pod : LM E ()).
Proof.
  intros s. destruct (DeletePod_calls w cfg (E := E) pod s) as (s' & hooks & Hr & Ht & Hw & _).
  eexists s', _. split; [exact Hr|]. split; [exact Ht|].
  rewrite !deletedUIDs_app, (deletedUIDs_waits hooks), deletedUIDs_teardown by done. done.
Qed.

Lemma evicts_one {E} c : evicts [candidateUID c] (evictPod c : LM E ()).
Proof.
  apply (evicts_bind [] [_]); [by apply evicts_do|]. apply (evicts_bind [] [_]); [apply evicts_notify|apply evicts_delete].
Qed.

Lemma evicts_until {E} freed cs : evicts (map candidateUID (victims freed cs)) (evictUntil freed cs : LM E ()).
Proof.
  revert freed. induction cs as [|c cs IH]; intros freed; cbn; [apply evicts_nil|].
  destruct (_ && _); [apply evicts_nil|]. apply (evicts_bind [_]); [apply evicts_one|apply IH].
Qed.

Definition freedBy (cs : list podEvictionCandidate) : Z := sum_over ec_memoryUsage cs.

Lemma freedBy_cons c cs : freedBy (c :: cs) = (c.(ec_memoryUsage) + freedBy cs)%Z.
Proof. done. Qed.

(** The loop stops as soon as enough is freed, and not before. *)
Lemma victims_spec cs : Forall (λ c, 0 <= c.(ec_memoryUsage) < 2 ^ 62)%Z cs → ∀ freed, (0 <= freed < 2 ^ 63)%Z →
  ∃ rest, cs = victims freed cs ++ rest ∧ (rest = [] ∨ evictionMinFreeBytes <= freed + freedBy (victims freed cs))%Z ∧
    ∀ pre x post, victims freed cs = pre ++ x :: post → (freed + freedBy pre < evictionMinFreeBytes)%Z.
Proof.
  induction 1 as [|c cs Hc _ IH]; intros freed Hf; cbn [victims].
  { exists []. split_and!; [done|by left|by intros []]. }
  destruct (_ && _) eqn:Hb.
  { exists (c :: cs). apply andb_prop in Hb as [_ Hb%Z.leb_le]. cbn. split_and!; [done|right; lia|by intros []]. }
  assert (freed < evictionMinFreeBytes)%Z as Hlt.
  { apply andb_false_iff in Hb as [Hb|Hb]; [apply Z.ltb_ge in Hb|apply Z.leb_gt in Hb; lia].
    unfold evictionMinFreeBytes. lia. }
  assert (u64 (freed + ec_memoryUsage c) = freed + ec_memoryUsage c)%Z as Hu.
  { unfold u64. apply Z.mod_small. unfold evictionMinFreeBytes in Hlt. lia. }
  rewrite Hu. destruct (IH (freed + ec_memoryUsage c)%Z) as (rest & Hcs & Henough & Hmin).
  { unfold evictionMinFreeBytes in Hlt. lia. }
  exists rest. split_and!.
  - cbn. by f_equal.
  - destruct Henough as [?|?]; [by left|right]. rewrite freedBy_cons. lia.
  - intros [|y pre] x post; [intros; unfold freedBy; cbn; lia|]. intros [= <- Hv]. specialize (Hmin pre x post Hv).
    rewrite freedBy_cons. lia.
Qed.

(** The contract of [sort.Slice] with this comparison. *)
Definition sorts : Prop := ∀ l, sortSlice l ≡ₚ l ∧
  ∀ i j a b, i < j → sortSlice l !! i = Some a → sortSlice l !! j = Some b → evictedFirst b a = false.

End Evict.

(** The order of eviction: the more expendable class first, within a class the
    higher OOM score, and of equal scores the larger working set. *)
Definition ranked (a b : podEvictionCandidate) : Prop :=
  (qosOrdinal a.(ec_qosClass) < qosOrdinal b.(ec_qosClass) ∨
   qosOrdinal a.(ec_qosClass) = qosOrdinal b.(ec_qosClass) ∧
   (b.(ec_oomScore) < a.(ec_oomScore) ∨ b.(ec_oomScore) = a.(ec_oomScore) ∧ b.(ec_memoryUsage) <= a.(ec_memoryUsage)))%Z.

#[export] Instance ranked_dec : RelDecision ranked.
Proof. intros a b. unfold ranked. apply _. Defined.

Lemma qosOrdinal_inj p q : qosOrdinal p = qosOrdinal q → p = q.
Proof. by destruct p, q. Qed.

Lemma evictedFirst_ranked a b : evictedFirst b a = false ↔ ranked a b.
Proof.
  unfold ranked, evictedFirst. case_decide as Hq; [rewrite Hq; case_decide as Ho|]; rewrite Z.ltb_ge; [lia..|].
  split; [|lia]. intros H. left. destruct (decide (qosOrdinal (ec_qosClass a) = qosOrdinal (ec_qosClass b))) as [He|]; [|lia].
  by apply qosOrdinal_inj in He.
Qed.

Lemma ranked_trans : Transitive ranked.
Proof. intros a b c. unfold ranked. lia. Qed.

Lemma ranked_total : Total ranked.
Proof. intros a b. unfold ranked. lia. Qed.

Lemma lookup_StronglySorted {A} (R : A → A → Prop) l :
  StronglySorted R l ↔ ∀ i j a b, i < j → l !! i = Some a → l !! j = Some b → R a b.
Proof.
  split.
  - induction 1 as [|x l Hs IH Hx]; [done|]. intros [|i] [|j] a b Hij Ha Hb; cbn in *; try lia.
    + simplify_eq. rewrite Forall_forall in Hx. apply Hx. by eapply list_elem_of_lookup_2.
    + by eapply (IH i j); [lia|..].
  - induction l as [|x l IH]; intros H; constructor.
    + apply IH. intros i j a b Hij Ha Hb. by apply (H (S i) (S j)); [lia|..].
    + apply Forall_forall. intros y [j Hj]%list_elem_of_lookup. by apply (H 0 (S j)); [lia|..].
Qed.

Lemma sorts_ranked sortSlice l : sorts sortSlice → StronglySorted ranked (sortSlice l).
Proof. intros Hs. apply lookup_StronglySorted. intros i j a b Hij Ha Hb. apply evictedFirst_ranked. by eapply Hs. Qed.


(** ** A sort and a run *)

Definition mergeCandidates (l : list podEvictionCandidate) : list podEvictionCandidate := merge_sort ranked l.

Lemma mergeCandidates_sorts : sorts mergeCandidates.
Proof.
  intros l. pose proof ranked_trans. pose proof ranked_total. split; [apply merge_sort_Permutation|].
  intros i j a b Hij Ha Hb. apply evictedFirst_ranked. revert i j a b Hij Ha Hb. apply lookup_StronglySorted.
  by apply StronglySorted_merge_sort.
Qed.

(** A node of 1000 bytes with a best-effort and a guaranteed pod. *)
Definition pressedStore : PodStore :=
  let be := {| (lifePod RestartPolicyAlways) with p_UID := "be"; p_Name := "be" |} in
  let q := {| zeroContainer with c_Name := "web"; c_Resources := {|
    Limits := Some {[ "cpu" := quantity 100 1; "memory" := quantity 0 500 ]};
    Requests := Some {[ "cpu" := quantity 100 1; "memory" := quantity 0 500 ]} |} |} in
  let gu := {| zeroPod with p_UID := "gu"; p_Name := "gu"; p_Containers := [q] |} in
  PromoteRunning (PromoteRunning (RegisterPending (RegisterPending NewPodStore "be" be 1) "gu" gu 2) "be" be "") "gu" gu "".

Definition pressedState : LState := {|
  l_trace := []; l_store := pressedStore; l_pod := zeroPod; l_cache := ∅; l_vols := NewVolumeTracker "/b" "p" |}.

Definition demoMemory (uid name : string) : option Z := Some (if decide (uid = "gu") then 900 else 50)%Z.

Lemma pressed_usage : Forall (λ c, 0 <= c.(ec_memoryUsage) < 2 ^ 62)%Z (buildEvictionCandidates demoMemory 1000 pressedState.(l_store)).
Proof.
  assert (forallb (λ c, (0 <=? c.(ec_memoryUsage)) && (c.(ec_memoryUsage) <? 2 ^ 62))%Z
    (buildEvictionCandidates demoMemory 1000 (l_store pressedState)) = true) as H by (vm_compute; reflexivity).
  apply Forall_forall. intros c Hc. rewrite forallb_forall in H. specialize (H c (proj1 (list_elem_of_In _ _) Hc)). lia.
Qed.


(** Above the hard threshold the loop stops after 128 MiB, far from the soft
    threshold: with 16 GiB all in use, one pod of 200 MiB is evicted. *)
Theorem hard_eviction_stops_early :
  let c := {| ec_pod := zeroPod; ec_uid := ""; ec_qosClass := PodQOSBestEffort; ec_oomScore := 1000;
              ec_memoryUsage := 200 * 2 ^ 20; ec_memoryRequest := 0 |} in
  let nodeMem := (16 * 2 ^ 30)%Z in
  fle evictionHardThreshold (usageFraction nodeMem nodeMem) = true ∧ length (victims 0 (repeat c 80)) = 1 ∧
  flt (usageFraction (nodeMem - freedBy (victims 0 (repeat c 80))) nodeMem) evictionMemoryThreshold = false.
Proof. vm_compute. auto. Qed.

(** Of two burstable pods, the one with the higher score goes first, although
    it uses less memory. *)
Example score_before_usage :
  let c uid score usage := {| ec_pod := {| zeroPod with p_UID := uid |}; ec_uid := uid; ec_qosClass := PodQOSBurstable; ec_oomScore := score;
                              ec_memoryUsage := usage; ec_memoryRequest := 0 |} in
  map ec_uid (mergeCandidates [c "large" 500%Z 1000%Z; c "small" 900%Z 10%Z]) = ["small"; "large"].
Proof. vm_compute. reflexivity. Qed.

(** ** The check with the readings of the cgroups *)

Definition sliceWorkingSet (fs : string → option string) (cfg : PawnConfig) : option Z :=
  match ReadSliceMemory fs cfg.(pcf_Name) with inr (_, ws) => Some ws | inl _ => None end.

Definition containerWorkingSet (fs : string → option string) (cfg : PawnConfig) (uid name : string) : option Z :=
  match ReadContainerMemory fs cfg.(pcf_Name) uid name with inr (_, ws) => Some ws | inl _ => None end.

Definition evictionTick {E} (w : World) (cfg : PawnConfig)
    (sortSlice : list podEvictionCandidate → list podEvictionCandidate) (fs : string → option string) : LM E () :=
  checkAndEvict w cfg sortSlice (sliceWorkingSet fs cfg) (containerWorkingSet fs cfg).

(** A pawn whose slice cannot be read never evicts, whatever its memory. *)
Lemma unreadable_never_evicts {E} w cfg sortSlice fs s e :
  ReadSliceMemory fs cfg.(pcf_Name) = inl e → evictionTick w cfg sortSlice fs s = (s, inr tt : E + ()).
Proof. intros H. unfold evictionTick, checkAndEvict, sliceWorkingSet. rewrite H. by destruct (_ <=? 0)%Z. Qed.

(** So the pressed node above, with its slice where systemd puts it, evicts
    nobody: the working set is a thousand times the memory. *)
Example nested_slice_never_evicts :
  let dir := pathJoin [cgroupRoot; "perigeos.slice"; sliceName demoConfig.(pcf_Name)] in
  evictionTick demoWorld demoConfig mergeCandidates (demoCgroupFiles [dir]) pressedState =
    (pressedState, inr tt : Empty_set + ()) ∧
  demoConfig.(pcf_Memory).(Value) = 1000%Z ∧ workingSet demoCgroup = 1044480%Z.
Proof. split; [|by vm_compute]. eapply unreadable_never_evicts. vm_compute. reflexivity. Qed.
