(* ===== verification/PawnNode.v ===== *)
(** * The node of a pawn (node/pawnnode.go)

    The Kubernetes node object that a pawn registers: labels, capacity,
    conditions, volumes; the statistics of the pawn; shutdown and draining.
    The host answers through the record [Host]: its files and directories,
    [statfs], the commands. Timestamps other than the heartbeat are left out of
    the statistics. *)
From stdpp Require Import pretty.
From S2P Require Import Prelude Paths Corev1 Float64 Monad Text UnitNames Stats Types Probes PodStore Persist Status Env VolTracker BatchWatcher Runtime Resources Config Lifecycle PodLife Eviction.
Import Str.

#[local] Arguments String.append !_ _ : simpl nomatch.

(** ** The node object *)

Record NodeCondition := {
  nc_Type : string;
  nc_Status : ConditionStatus;
  nc_LastHeartbeatTime : Time;
  nc_LastTransitionTime : Time;
  nc_Reason : string;
  nc_Message : string;
}.

Record NodeStatus := {
  ns_Capacity : ResourceList;
  ns_Allocatable : ResourceList;
  ns_Conditions : list NodeCondition;
  ns_Addresses : list (string * string);
  ns_KubeletPort : Z;
  ns_ContainerRuntimeVersion : string;
  ns_KubeletVersion : string;
  ns_KernelVersion : string;
  ns_OSImage : string;
  ns_Architecture : string;
  ns_SwapCapacity : option Z;
  ns_VolumesAttached : list string;
  ns_VolumesInUse : list string;
}.

Record NodeSpec := { nsp_Unschedulable : bool; nsp_Taints : list Taint; nsp_ProviderID : string }.

Record ObjectMeta := {
  om_Name : string;
  om_Namespace : string;
  om_UID : string;
  om_ResourceVersion : string;
  om_Labels : option (gmap string string);
  om_Annotations : option (gmap string string);
}.

Record Node := { n_Meta : ObjectMeta; n_Spec : NodeSpec; n_Status : NodeStatus }.

Definition zeroObjectMeta : ObjectMeta := {|
  om_Name := ""; om_Namespace := ""; om_UID := ""; om_ResourceVersion := ""; om_Labels := None; om_Annotations := None |}.

Definition zeroNodeSpec : NodeSpec := {| nsp_Unschedulable := false; nsp_Taints := []; nsp_ProviderID := "" |}.

Definition zeroNodeStatus : NodeStatus := {|
  ns_Capacity := ∅; ns_Allocatable := ∅; ns_Conditions := []; ns_Addresses := []; ns_KubeletPort := 0;
  ns_ContainerRuntimeVersion := ""; ns_KubeletVersion := ""; ns_KernelVersion := ""; ns_OSImage := "";
  ns_Architecture := ""; ns_SwapCapacity := None; ns_VolumesAttached := []; ns_VolumesInUse := [] |}.

Definition zeroNode : Node := {| n_Meta := zeroObjectMeta; n_Spec := zeroNodeSpec; n_Status := zeroNodeStatus |}.

(** ** The host *)

Record Statfs := { st_Blocks : Z; st_Bfree : Z; st_Bsize : Z; st_Files : Z; st_Ffree : Z }.

Definition zeroStatfs : Statfs := {| st_Blocks := 0; st_Bfree := 0; st_Bsize := 0; st_Files := 0; st_Ffree := 0 |}.

(** [h_ReadDir] gives the names of the entries; [h_ParseFloat] the value that
    [strconv.ParseFloat] returns with or without an error; [h_Fmt2] is the verb
    [%.2f]; [h_IPString] is [net.ParseIP(s).String()]. *)
Record Host := {
  h_fs : string → option string;
  h_ReadDir : string → option (list string);
  h_Statfs : string → option Statfs;
  h_Hostname : string;
  h_GOARCH : string;
  h_Version : string;
  h_Systemctl : option string;
  h_UnameRelease : option string;
  h_OutboundIP : option string;
  h_IPString : string → string;
  h_ParseFloat : string → float64;
  h_Fmt2 : float64 → string;
  h_Now : Time;
}.

(** ** Versions *)

Definition systemdVersion (h : Host) : string :=
  match h.(h_Systemctl) with
  | None => "systemd://"
  | Some out =>
      let line := default "" (head (splitOn newline out)) in
      let fallback := match Fields line with _ :: v :: _ => "systemd://" +:+ v | _ => "systemd://" end in
      match index_byte line "(" with
      | None => fallback
      | Some start =>
          match index_byte (sdrop start line) ")" with
          | None => fallback
          | Some end_ => "systemd://" +:+ stake (end_ - 1) (sdrop (start + 1) line)
          end
      end
  end.

(** The bytes up to the first NUL. *)
Fixpoint upToNUL (s : string) : string :=
  match s with
  | EmptyString => ""
  | String c s => if decide (c = "000"%char) then "" else String c (upToNUL s)
  end.

Definition kernelVersion (h : Host) : string :=
  match h.(h_UnameRelease) with None => "" | Some release => upToNUL release end.

Definition osImage (h : Host) : string :=
  match h.(h_fs) "/etc/os-release" with
  | None => ""
  | Some content =>
      match head (filter (λ l, has_prefix l "PRETTY_NAME=" = true) (scanLines content)) with
      | Some line => TrimChar "034" (trim_prefix line "PRETTY_NAME=")
      | None => ""
      end
  end.

(** ** Conditions *)

Definition diskPressureThresholdPercent : float64 := float64_of_int 85.
Definition inodePressureThresholdPercent : float64 := float64_of_int 95.
Definition memoryPressureThreshold : float64 := float64_of_int 95.
Definition pidPressureThreshold : float64 := float64_of_int 98.
Definition nodeStatusUpdateInterval : Duration := 30 * Second.

(** [(a / b) * 100.0] *)
Definition percent (a b : float64) : float64 := fmul (fdiv a b) (float64_of_int 100).

Definition condition (type_ : string) (now : Time) (status : ConditionStatus) (reason message : string) : NodeCondition := {|
  nc_Type := type_; nc_Status := status; nc_LastHeartbeatTime := now; nc_LastTransitionTime := now;
  nc_Reason := reason; nc_Message := message |}.

(** One line of [/proc/meminfo]: [MemTotal] and [MemAvailable] so far. *)
Definition meminfoLine (acc : Z * Z) (line : string) : Z * Z :=
  match Fields line with
  | key :: value :: _ =>
      let val := ParseUint_value value in
      if decide (key = "MemTotal:") then (val, acc.2)
      else if decide (key = "MemAvailable:") then (acc.1, val)
      else acc
  | _ => acc
  end.

Definition readMeminfo (content : string) : Z * Z := foldl meminfoLine (0, 0)%Z (scanLines content).

Definition getMemoryPressureCondition (h : Host) (now : Time) : NodeCondition :=
  let cond := condition "MemoryPressure" now in
  match h.(h_fs) "/proc/meminfo" with
  | None => cond ConditionUnknown "ProcMeminfoUnavailable" "Could not read /proc/meminfo"
  | Some content =>
      let '(memTotal, memAvailable) := readMeminfo content in
      if (memTotal =? 0)%Z then
        cond ConditionUnknown "MeminfoParsingFailed" "Could not parse MemTotal from /proc/meminfo"
      else
        let usagePercent := percent (float64_of_int (u64 (memTotal - memAvailable))) (float64_of_int memTotal) in
        if flt memoryPressureThreshold usagePercent then
          cond ConditionTrue "PawnHasHighMemoryUsage"
            ("Memory usage " +:+ h.(h_Fmt2) usagePercent +:+ "% exceeds threshold "
             +:+ h.(h_Fmt2) memoryPressureThreshold +:+ "%")
        else cond ConditionFalse "PawnHasSufficientMemory" "Pawn has sufficient memory available"
  end.

Definition getDiskPressureCondition (h : Host) (now : Time) (path : string) : NodeCondition :=
  let cond := condition "DiskPressure" now in
  let none := cond ConditionFalse "PawnHasNoDiskPressure" "Pawn has no disk pressure" in
  match h.(h_Statfs) path with
  | None => cond ConditionUnknown "StatfsFailed" ("Could not stat filesystem at " +:+ path)
  | Some stat =>
      if (0 <? stat.(st_Files))%Z then
        let inodeUsage := percent (float64_of_int (u64 (stat.(st_Files) - stat.(st_Ffree)))) (float64_of_int stat.(st_Files)) in
        if flt inodePressureThresholdPercent inodeUsage then
          cond ConditionTrue "PawnHasHighInodeUsage" ("Inode usage " +:+ h.(h_Fmt2) inodeUsage +:+ "% exceeds threshold")
        else
          let blockUsage := percent (float64_of_int (u64 (stat.(st_Blocks) - stat.(st_Bfree)))) (float64_of_int stat.(st_Blocks)) in
          if flt diskPressureThresholdPercent blockUsage then
            cond ConditionTrue "PawnHasHighDiskUsage" ("Disk usage " +:+ h.(h_Fmt2) blockUsage +:+ "% exceeds threshold")
          else none
      else none
  end.

Definition getPIDPressureCondition (h : Host) (now : Time) : NodeCondition :=
  let cond := condition "PIDPressure" now in
  match h.(h_fs) "/proc/sys/kernel/pid_max" with
  | None => cond ConditionUnknown "PidMaxUnavailable" "Could not read /proc/sys/kernel/pid_max"
  | Some pidMaxBytes =>
      let pidMax := h.(h_ParseFloat) (TrimSpace pidMaxBytes) in
      match h.(h_ReadDir) "/proc" with
      | None => cond ConditionUnknown "ProcUnavailable" "Could not read /proc"
      | Some procFiles =>
          let pidCount := Z.of_nat (length (filter (λ f, isInt f = true) procFiles)) in
          let pidUsage := percent (float64_of_int pidCount) pidMax in
          if flt pidPressureThreshold pidUsage then
            cond ConditionTrue "PawnHasHighPIDUsage" ("PID usage " +:+ h.(h_Fmt2) pidUsage +:+ "% exceeds threshold")
          else cond ConditionFalse "PawnHasSufficientPID" "Pawn has sufficient PIDs available"
      end
  end.

Definition nodeConditions (h : Host) (layerCache : string) : list NodeCondition :=
  let now := h.(h_Now) in
  [condition "Ready" now ConditionTrue "PawnReady" "Pawn is ready";
   getMemoryPressureCondition h now;
   getDiskPressureCondition h now layerCache;
   getPIDPressureCondition h now;
   condition "NetworkUnavailable" now ConditionFalse "PawnNetworkAvailable" "Pawn network is available"].

(** ** The node *)

(** The labels of the configuration, overridden by those of the host. *)
Definition nodeLabels (h : Host) (cfg : PawnConfig) : gmap string string :=
  let own := <["periapsis.io/host" := h.(h_Hostname)]> (<["kubernetes.io/hostname" := cfg.(pcf_Name)]>
    (<["kubernetes.io/os" := "linux"]> (<["kubernetes.io/arch" := h.(h_GOARCH)]>
    (<["beta.kubernetes.io/os" := "linux"]> (<["beta.kubernetes.io/arch" := h.(h_GOARCH)]>
    (<["topology.kubernetes.io/zone" := h.(h_Hostname)]> cfg.(pcf_Labels))))))) in
  if cfg.(pcf_IsPrimary)
  then <["periapsis.io/primary" := "true"]> (<["node-role.kubernetes.io/primary" := ""]> own)
  else <["node-role.kubernetes.io/pawn" := ""]> own.

(** The synthetic names of the claims that the pods in use refer to. *)
Definition volumeName (pod : Pod) (claim : string) : string :=
  "kubernetes.io/no-attacher/" +:+ pod.(p_Namespace) +:+ "-" +:+ claim.

Definition podClaims (pod : Pod) : list string :=
  if decide (pod.(p_Status).(ps_Phase) = PodSucceeded ∨ pod.(p_Status).(ps_Phase) = PodFailed) then []
  else omap (λ vol, match vol.(vol_PersistentVolumeClaim) with
                    | Some pvc => Some (volumeName pod pvc.(pvv_ClaimName))
                    | None => None
                    end) pod.(p_Volumes).

(** The set [seen]; both slices are built by one range over it, here in the
    order of [elements]. *)
Definition collectVolumeStatus (s : PodStore) : list string * list string :=
  let seen : gset string := list_to_set (flat_map podClaims (GetPods s)) in
  (elements seen, elements seen).

Definition BuildNode (h : Host) (cfg : PawnConfig) (layerCache : string) (s : PodStore) : Node :=
  let stat := default zeroStatfs (h.(h_Statfs) layerCache) in
  let totalBytes := u64 (stat.(st_Blocks) * stat.(st_Bsize)) in
  let ephemeralStorage := NewQuantity (wrap64 totalBytes) in
  let capacity : ResourceList :=
    <["cpu" := cfg.(pcf_CPU)]> (<["memory" := cfg.(pcf_Memory)]> (<["pods" := NewQuantity 256]>
    (<["storage" := ephemeralStorage]> (<["ephemeral-storage" := ephemeralStorage]> ∅)))) in
  let '(attached, inUse) := collectVolumeStatus s in
  {| n_Meta := {| om_Name := cfg.(pcf_Name); om_Namespace := ""; om_UID := ""; om_ResourceVersion := "";
                  om_Labels := Some (nodeLabels h cfg); om_Annotations := None |};
     n_Spec := {| nsp_Unschedulable := false; nsp_Taints := cfg.(pcf_Taints);
                  nsp_ProviderID := "perigeos://" +:+ h.(h_Hostname) +:+ "/" +:+ cfg.(pcf_Name) |};
     n_Status := {|
       ns_Capacity := capacity; ns_Allocatable := ComputeAllocatable s capacity;
       ns_Conditions := nodeConditions h layerCache;
       ns_Addresses := [("Hostname", cfg.(pcf_Name)); ("InternalIP", h.(h_IPString) (resolveNodeIP cfg.(pcf_NodeIP) h.(h_OutboundIP)))];
       ns_KubeletPort := wrap32 cfg.(pcf_Port); ns_ContainerRuntimeVersion := systemdVersion h;
       ns_KubeletVersion := "perigeos://" +:+ h.(h_Version); ns_KernelVersion := kernelVersion h; ns_OSImage := osImage h;
       ns_Architecture := h.(h_GOARCH); ns_SwapCapacity := Some 1%Z;
       ns_VolumesAttached := attached; ns_VolumesInUse := inUse |} |}.

(** ** Shutdown *)

(** [pn_shutdownCh] is whether the channel is closed. *)
Record PawnNode := { pn_shuttingDown : bool; pn_shutdownCh : bool }.

Definition NewPawnNode : PawnNode := {| pn_shuttingDown := false; pn_shutdownCh := false |}.

Definition IsShuttingDown (pn : PawnNode) : bool := pn.(pn_shuttingDown).

(** [None] is the panic of closing the channel twice. *)
Definition Shutdown (pn : PawnNode) : option PawnNode :=
  if pn.(pn_shuttingDown) then Some pn
  else if pn.(pn_shutdownCh) then None
  else Some {| pn_shuttingDown := true; pn_shutdownCh := true |}.

Definition Ping (cfg : PawnConfig) (pn : PawnNode) : option string :=
  if pn.(pn_shuttingDown) then Some ("pawn " +:+ cfg.(pcf_Name) +:+ " is shutting down") else None.

(** The last node of a pawn: not ready, and not schedulable. *)
Definition markShutdown (node : Node) : Node :=
  let spec := node.(n_Spec) in
  let status := node.(n_Status) in
  {| node with n_Spec := {| spec with nsp_Unschedulable := true |};
               n_Status := {| status with ns_Conditions := map (λ c : NodeCondition,
                 if decide (c.(nc_Type) = "Ready")
                 then {| c with nc_Status := ConditionFalse; nc_Reason := "Shutdown"; nc_Message := "perigeos shutting down" |}
                 else c) status.(ns_Conditions) |} |}.

(** What wakes the notifier, with the host and the store at that time. *)
Inductive NotifyEvent :=
  | NotifyCtxDone
  | NotifyShutdown (h : Host) (s : PodStore)
  | NotifyTick (h : Host) (s : PodStore).

(** The nodes handed to the callback, in order. *)
Fixpoint notifyLoop (cfg : PawnConfig) (layerCache : string) (evs : list NotifyEvent) : list Node :=
  match evs with
  | [] => []
  | NotifyCtxDone :: _ => []
  | NotifyShutdown h s :: _ => [markShutdown (BuildNode h cfg layerCache s)]
  | NotifyTick h s :: evs => BuildNode h cfg layerCache s :: notifyLoop cfg layerCache evs
  end.

Definition NotifyNodeStatus (h : Host) (cfg : PawnConfig) (layerCache : string) (s : PodStore) (evs : list NotifyEvent) : list Node :=
  BuildNode h cfg layerCache s :: notifyLoop cfg layerCache evs.

(** [deletePod] is [DeletePod] of the provider; its error is only logged. *)
Definition DrainPods {E} (w : World) (cfg : PawnConfig) : LM E () :=
  s ← gets l_store;
  forM (GetPods s) (λ pod, DeletePod w cfg pod).

(** ** Statistics *)

Record ContainerStats := { cst_Name : string; cst_CPU : option Z; cst_Memory : option (Z * Z) }.
Record PodStats := {
  pst_Name : string; pst_Namespace : string; pst_UID : string;
  pst_Containers : list ContainerStats; pst_CPU : option Z; pst_Memory : option (Z * Z) }.
Record NodeStats := { nst_NodeName : string; nst_CPU : option Z; nst_Memory : option (Z * Z) }.
Record Summary := { sum_Node : NodeStats; sum_Pods : list PodStats }.

Definition readable {E A} (r : E + A) : option A := match r with inr a => Some a | inl _ => None end.

Definition containerStats (fs : string → option string) (pawnName : string) (pod : Pod) (c : Container) : ContainerStats := {|
  cst_Name := c.(c_Name);
  cst_CPU := readable (ReadContainerCPU fs pawnName pod.(p_UID) c.(c_Name));
  cst_Memory := readable (ReadContainerMemory fs pawnName pod.(p_UID) c.(c_Name)) |}.

(** The running totals of a pod: CPU, memory usage, working set. *)
Definition addStats (acc : Z * Z * Z) (cs : ContainerStats) : Z * Z * Z :=
  let '(cpu, usage, ws) := acc in
  let cpu := match cs.(cst_CPU) with Some ns => u64 (cpu + ns) | None => cpu end in
  match cs.(cst_Memory) with
  | Some (u, w) => (cpu, u64 (usage + u), u64 (ws + w))
  | None => (cpu, usage, ws)
  end.

Definition podStats (fs : string → option string) (pawnName : string) (pod : Pod) : PodStats :=
  let containers := map (containerStats fs pawnName pod) pod.(p_Containers) in
  let '(podCPUNs, podMemUsage, podMemWS) := foldl addStats (0, 0, 0)%Z containers in
  {| pst_Name := pod.(p_Name); pst_Namespace := pod.(p_Namespace); pst_UID := pod.(p_UID);
     pst_Containers := containers;
     pst_CPU := if (0 <? podCPUNs)%Z then Some podCPUNs else None;
     pst_Memory := if (0 <? podMemUsage)%Z then Some (podMemUsage, podMemWS) else None |}.

Definition GetStatsSummary (fs : string → option string) (cfg : PawnConfig) (s : PodStore) : Summary := {|
  sum_Node := {| nst_NodeName := cfg.(pcf_Name); nst_CPU := readable (ReadSliceCPU fs cfg.(pcf_Name));
                 nst_Memory := readable (ReadSliceMemory fs cfg.(pcf_Name)) |};
  sum_Pods := map (podStats fs cfg.(pcf_Name)) (GetPods s) |}.

(** ** Facts *)

Lemma podClaims_elem pod x : x ∈ podClaims pod ↔
  pod.(p_Status).(ps_Phase) ≠ PodSucceeded ∧ pod.(p_Status).(ps_Phase) ≠ PodFailed ∧
  ∃ vol pvc, vol ∈ pod.(p_Volumes) ∧ vol.(vol_PersistentVolumeClaim) = Some pvc ∧ x = volumeName pod pvc.(pvv_ClaimName).
Proof.
  unfold podClaims. case_decide as Hterm; [rewrite elem_of_nil; tauto|]. rewrite list_elem_of_omap. split.
  - intros (vol & Hin & Hx). destruct (vol_PersistentVolumeClaim vol) as [pvc|] eqn:Hpvc; [|done]. simplify_eq. naive_solver.
  - intros (_ & _ & vol & pvc & Hin & Hpvc & ->). exists vol. by rewrite Hpvc.
Qed.

Lemma collectVolumeStatus_spec s :
  let '(attached, inUse) := collectVolumeStatus s in
  attached = inUse ∧ NoDup inUse ∧ ∀ x, x ∈ inUse ↔ ∃ pod, pod ∈ GetPods s ∧ x ∈ podClaims pod.
Proof.
  unfold collectVolumeStatus. split_and!; [done|apply NoDup_elements|]. intros x.
  rewrite elem_of_elements, elem_of_list_to_set, list_elem_of_In, in_flat_map.
  split; intros (pod & H1%list_elem_of_In & H2%list_elem_of_In); by exists pod.
Qed.

Lemma memory_condition h now : ∃ st r m, getMemoryPressureCondition h now = condition "MemoryPressure" now st r m.
Proof. unfold getMemoryPressureCondition. repeat case_match; eauto. Qed.

Lemma disk_condition h now path : ∃ st r m, getDiskPressureCondition h now path = condition "DiskPressure" now st r m.
Proof. unfold getDiskPressureCondition. repeat case_match; eauto. Qed.

Lemma pid_condition h now : ∃ st r m, getPIDPressureCondition h now = condition "PIDPressure" now st r m.
Proof. unfold getPIDPressureCondition. repeat case_match; eauto. Qed.

(** Every condition carries the time of the report. *)
Lemma nodeConditions_types h lc :
  map nc_Type (nodeConditions h lc) = ["Ready"; "MemoryPressure"; "DiskPressure"; "PIDPressure"; "NetworkUnavailable"] ∧
  Forall (λ c, c.(nc_LastHeartbeatTime) = h.(h_Now)) (nodeConditions h lc).
Proof.
  unfold nodeConditions. destruct (memory_condition h (h_Now h)) as (s1 & r1 & m1 & ->).
  destruct (disk_condition h (h_Now h) lc) as (s2 & r2 & m2 & ->).
  destruct (pid_condition h (h_Now h)) as (s3 & r3 & m3 & ->). split; [reflexivity|by repeat constructor].
Qed.

Lemma nodeLabels_own h cfg :
  nodeLabels h cfg !! "periapsis.io/host" = Some h.(h_Hostname) ∧
  nodeLabels h cfg !! "kubernetes.io/hostname" = Some cfg.(pcf_Name) ∧
  (nodeLabels h cfg !! "node-role.kubernetes.io/primary" = Some "" ∨
   nodeLabels h cfg !! "node-role.kubernetes.io/pawn" = Some "").
Proof.
  unfold nodeLabels. destruct (pcf_IsPrimary cfg); split_and!;
    repeat (rewrite lookup_insert_eq || rewrite lookup_insert_ne by done); eauto.
Qed.

(** What a pawn reports of itself. What is allocatable is what the
    registered pods leave of the configured CPU and memory; the volumes in use
    are the claims of the pods that have not ended, each once; the five
    conditions are present and as old as the report; and the labels that
    identify the node cannot be overridden by the configuration. *)
Theorem BuildNode_report h cfg lc s :
  (0 <= s.(usedCPU))%Z → (0 <= s.(usedMem))%Z →
  in_int64 cfg.(pcf_CPU).(MilliValue) → (0 <= cfg.(pcf_CPU).(MilliValue))%Z →
  in_int64 cfg.(pcf_Memory).(Value) → (0 <= cfg.(pcf_Memory).(Value))%Z →
  let st := (BuildNode h cfg lc s).(n_Status) in
  MilliValue <$> st.(ns_Allocatable) !! "cpu" = Some (Z.max 0 (cfg.(pcf_CPU).(MilliValue) - s.(usedCPU))) ∧
  Value <$> st.(ns_Allocatable) !! "memory" = Some (Z.max 0 (cfg.(pcf_Memory).(Value) - s.(usedMem))) ∧
  st.(ns_Allocatable) !! "pods" = Some (NewQuantity 256) ∧
  NoDup st.(ns_VolumesInUse) ∧ st.(ns_VolumesAttached) = st.(ns_VolumesInUse) ∧
  (∀ x, x ∈ st.(ns_VolumesInUse) ↔ ∃ pod, pod ∈ GetPods s ∧ x ∈ podClaims pod) ∧
  map nc_Type st.(ns_Conditions) = ["Ready"; "MemoryPressure"; "DiskPressure"; "PIDPressure"; "NetworkUnavailable"] ∧
  Forall (λ c, c.(nc_LastHeartbeatTime) = h.(h_Now)) st.(ns_Conditions) ∧
  ∃ labels, (BuildNode h cfg lc s).(n_Meta).(om_Labels) = Some labels ∧
    labels !! "periapsis.io/host" = Some h.(h_Hostname) ∧ labels !! "kubernetes.io/hostname" = Some cfg.(pcf_Name).
Proof.
  intros Hc Hm Bc Bc' Bm Bm' st. unfold st, BuildNode. pose proof (collectVolumeStatus_spec s) as Hvol.
  destruct (collectVolumeStatus s) as [attached inUse]. destruct Hvol as (-> & Hnd & Hin).
  match goal with |- context [ComputeAllocatable s ?cap] => set (capacity := cap) end. cbn [n_Status n_Meta om_Labels ns_Allocatable
    ns_VolumesInUse ns_VolumesAttached ns_Conditions].
  assert (capacity !! "cpu" = Some cfg.(pcf_CPU)) as Ecpu by apply lookup_insert_eq.
  assert (capacity !! "memory" = Some cfg.(pcf_Memory)) as Emem by (unfold capacity; by rewrite lookup_insert_ne, lookup_insert_eq).
  destruct (allocatable_remaining s capacity "pods") as (H1 & H2 & H3); [done|done|intros q ?; by simplify_eq..|].
  rewrite Ecpu in H1. rewrite Emem in H2. destruct (nodeConditions_types h lc) as [Ht Hb].
  destruct (nodeLabels_own h cfg) as (L1 & L2 & _).
  split_and!; [by apply H1|by apply H2| |done|done|done|done|done|by eexists].
  rewrite H3 by done. unfold capacity. by repeat (rewrite lookup_insert_eq || rewrite lookup_insert_ne by done).
Qed.

(** A filesystem that does not count its inodes (btrfs reports none) never
    reports disk pressure, however full its blocks are: the test on the blocks
    is inside the test on the inodes. *)
Lemma no_inodes_no_disk_pressure h now path st :
  h.(h_Statfs) path = Some st → st.(st_Files) = 0%Z →
  (getDiskPressureCondition h now path).(nc_Status) = ConditionFalse.
Proof. intros Hs Hf. unfold getDiskPressureCondition. by rewrite Hs, Hf. Qed.

(** Shutdown may be called any number of times, and from then on the ping
    fails. *)
Definition pn_ok (pn : PawnNode) : Prop := pn.(pn_shutdownCh) = pn.(pn_shuttingDown).

Lemma Shutdown_total cfg pn : pn_ok pn → ∃ pn', Shutdown pn = Some pn' ∧ pn_ok pn' ∧ pn'.(pn_shuttingDown) = true ∧
  Ping cfg pn' ≠ None.
Proof.
  unfold pn_ok, Shutdown, Ping. intros H. destruct (pn_shuttingDown pn) eqn:Hd.
  - exists pn. by rewrite Hd.
  - rewrite H. eexists. by split.
Qed.

(** The last node that the notifier sends after a shutdown. *)
Lemma markShutdown_ready node c : c ∈ (markShutdown node).(n_Status).(ns_Conditions) → c.(nc_Type) = "Ready" →
  c.(nc_Status) = ConditionFalse.
Proof.
  cbn. intros (c0 & -> & _)%list_elem_of_fmap. case_decide; [done|]. by intros ?.
Qed.

Lemma addStats_bounds acc cs : let '(c, u, w) := addStats acc cs in
  let '(c0, u0, w0) := acc in (0 <= c0 → 0 <= c)%Z ∧ (0 <= u0 → 0 <= u)%Z ∧ (0 <= w0 → 0 <= w)%Z.
Proof.
  destruct acc as [[c0 u0] w0]. unfold addStats.
  destruct (cst_CPU cs), (cst_Memory cs) as [[u w]|]; split_and!; try done; intros _; apply Z.mod_pos_bound; lia.
Qed.

(** The totals of a pod, when they fit 64 bits. *)
Definition cpuOf (cs : ContainerStats) : Z := default 0%Z cs.(cst_CPU).
Definition usageOf (cs : ContainerStats) : Z := match cs.(cst_Memory) with Some (u, _) => u | None => 0%Z end.
Definition wsOf (cs : ContainerStats) : Z := match cs.(cst_Memory) with Some (_, w) => w | None => 0%Z end.

Definition stats_ok (cs : ContainerStats) : Prop := (0 <= cpuOf cs ∧ 0 <= usageOf cs ∧ 0 <= wsOf cs)%Z.

Lemma stats_sums_nonneg l : Forall stats_ok l →
  (0 <= sum_over cpuOf l ∧ 0 <= sum_over usageOf l ∧ 0 <= sum_over wsOf l)%Z.
Proof. intros H. split_and!; apply sum_over_nonneg; (eapply Forall_impl; [exact H|]); by intros cs (? & ? & ?). Qed.

Lemma addStats_sum l : ∀ c u w,
  Forall stats_ok l →
  (0 <= c)%Z → (0 <= u)%Z → (0 <= w)%Z → (c + sum_over cpuOf l <= maxUint64)%Z → (u + sum_over usageOf l <= maxUint64)%Z →
  (w + sum_over wsOf l <= maxUint64)%Z →
  foldl addStats (c, u, w) l = (c + sum_over cpuOf l, u + sum_over usageOf l, w + sum_over wsOf l)%Z.
Proof.
  induction l as [|cs l IH]; intros c u w Hl Hc Hu Hw Bc Bu Bw; [by rewrite !Z.add_0_r|].
  apply Forall_cons in Hl as [(H1 & H2 & H3) Hl]. change (sum_over ?f (cs :: l)) with (f cs + sum_over f l)%Z in *.
  destruct (stats_sums_nonneg l Hl) as (? & ? & ?).
  cbn [foldl]. assert (addStats (c, u, w) cs = (c + cpuOf cs, u + usageOf cs, w + wsOf cs)%Z) as ->.
  { unfold addStats, cpuOf, usageOf, wsOf in *. destruct (cst_CPU cs) as [n|], (cst_Memory cs) as [[u' w']|]; cbn in *;
      rewrite ?u64_id by (unfold maxUint64 in *; lia); repeat f_equal; lia. }
  rewrite IH; [by rewrite !Z.add_assoc|done|lia..].
Qed.

Lemma stats_nonneg fs pawn pod c : stats_ok (containerStats fs pawn pod c).
Proof.
  unfold stats_ok, cpuOf, usageOf, wsOf, containerStats. cbn [cst_CPU cst_Memory]. unfold ReadContainerCPU, ReadContainerMemory.
  split; [destruct (readCPUStat _ _); cbn; [done|]; apply Z.mod_pos_bound; lia|].
  destruct (readMemoryCurrent _ _) as [e|u] eqn:Hu; [done|]. cbn [readable].
  assert (0 <= u)%Z as Hu0.
  { unfold readMemoryCurrent in Hu. destruct (fs _); [|done]. destruct (ParseUint _) eqn:Hp; [done|]. injection Hu as ->.
    apply ParseUint_range in Hp. lia. }
  split; [done|]. destruct (Z.ltb_spec (readMemoryInactive fs (cgroupServicePath pawn (p_UID pod) (c_Name c))).1 u); lia.
Qed.

(** The statistics of a pawn. There is one entry for each pod of the store,
    with one entry for each of its containers; and where the totals fit 64
    bits, the CPU time and the memory of a pod are the sums over those of its
    containers whose cgroups can be read, absent when the sum is zero. *)
Theorem stats_summary fs cfg s :
  let sm := GetStatsSummary fs cfg s in
  map pst_UID sm.(sum_Pods) = map p_UID (GetPods s) ∧
  ∀ ps, ps ∈ sm.(sum_Pods) →
    ∃ pod, pod ∈ GetPods s ∧ ps.(pst_UID) = pod.(p_UID) ∧
      ps.(pst_Containers) = map (containerStats fs cfg.(pcf_Name) pod) pod.(p_Containers) ∧
      ((sum_over cpuOf ps.(pst_Containers) <= maxUint64)%Z → (sum_over usageOf ps.(pst_Containers) <= maxUint64)%Z →
       (sum_over wsOf ps.(pst_Containers) <= maxUint64)%Z →
       default 0%Z ps.(pst_CPU) = sum_over cpuOf ps.(pst_Containers) ∧
       default (0, 0)%Z ps.(pst_Memory) =
         if (0 <? sum_over usageOf ps.(pst_Containers))%Z
         then (sum_over usageOf ps.(pst_Containers), sum_over wsOf ps.(pst_Containers)) else (0, 0)%Z).
Proof.
  split.
  - cbn. rewrite map_map. apply map_ext. intros pod. unfold podStats. by destruct (foldl _ _ _) as [[??]?].
  - cbn [GetStatsSummary sum_Pods]. intros ps (pod & -> & Hin)%list_elem_of_fmap. exists pod. split; [done|]. unfold podStats.
    destruct (foldl addStats _ _) as [[c u] w] eqn:Hf. cbn [pst_UID pst_Containers pst_CPU pst_Memory]. split_and!; [done..|]. intros Bc Bu Bw.
    assert (Forall stats_ok (map (containerStats fs (pcf_Name cfg) pod) (p_Containers pod))) as Hall
      by (apply Forall_map, Forall_true; intros; apply stats_nonneg).
    destruct (stats_sums_nonneg _ Hall) as (Hc & Hu & Hw).
    rewrite addStats_sum in Hf by (done || lia). rewrite !Z.add_0_l in Hf. injection Hf as <- <- <-. split.
    + destruct (Z.ltb_spec 0 (sum_over cpuOf (map (containerStats fs (pcf_Name cfg) pod) (p_Containers pod)))); cbn [from_option id]; [done|lia].
    + by destruct (0 <? sum_over usageOf _)%Z.
Qed.

(** Draining a pawn never fails and deletes every pod of the store, each
    with one complete deletion, in the order of the store, whatever the
    runtime and the network answer. *)
Theorem drain_complete {E} w cfg s :
  ∃ s' new, DrainPods w cfg s = (s', inr tt : E + ()) ∧ s'.(l_trace) = s.(l_trace) ++ new ∧
    deletedUIDs new = map p_UID (GetPods s.(l_store)).
Proof.
  unfold DrainPods, mbind, SE_bind, gets. cbn beta iota zeta. generalize (GetPods (l_store s)) as l. intros l.
  assert (@evicts E (map p_UID l) (forM l (λ pod, DeletePod w cfg pod))) as H; [|apply H].
  induction l as [|pod l IH]; [apply evicts_nil|]. cbn [forM map].
  apply (evicts_bind [p_UID pod]); [apply evicts_delete|exact IH].
Qed.

(** ** A run *)

Definition demoHost : Host := {|
  h_fs := λ path, if decide (path = "/proc/meminfo") then Some (unlines ["MemTotal: 1000 kB"; "MemAvailable: 20 kB"])
                  else if decide (path = "/proc/sys/kernel/pid_max") then Some ("4194304" +:+ nl)
                  else if decide (path = "/etc/os-release") then Some (unlines ["ID=arch"; "PRETTY_NAME=Arch"])
                  else None;
  h_ReadDir := λ _, Some ["1"; "42"; "self"]; h_Statfs := λ _, None; h_Hostname := "host"; h_GOARCH := "amd64";
  h_Version := "1"; h_Systemctl := Some "systemd 259 (259.3-1-arch)"; h_UnameRelease := Some "6.18"; h_OutboundIP := None;
  h_IPString := λ s, s; h_ParseFloat := λ _, float64_of_int 4194304; h_Fmt2 := λ _, ""; h_Now := 77 |}.

Definition demoStore : PodStore :=
  let pod := {| (demoPod "a" 250 64) with p_Namespace := "default"; p_Volumes := [{| zeroVolume with vol_Name := "data";
    vol_PersistentVolumeClaim := Some {| pvv_ClaimName := "db"; pvv_ReadOnly := false |} |}] |} in
  RegisterPending NewPodStore "u1" pod 1.

Lemma BuildNode_report_witness :
  let st := (BuildNode demoHost demoConfig "/layers" demoStore).(n_Status) in
  MilliValue <$> st.(ns_Allocatable) !! "cpu" = Some 750%Z ∧ st.(ns_VolumesInUse) = ["kubernetes.io/no-attacher/default-db"] ∧
  map nc_Status st.(ns_Conditions) = [ConditionTrue; ConditionTrue; ConditionUnknown; ConditionFalse; ConditionFalse] ∧
  st.(ns_ContainerRuntimeVersion) = "systemd://259.3-1-arch" ∧ st.(ns_OSImage) = "Arch".
Proof.
  destruct (BuildNode_report demoHost demoConfig "/layers" demoStore) as (H1 & _);
    [vm_compute; congruence..|split; vm_compute; congruence|vm_compute; congruence|
     split; vm_compute; congruence|vm_compute; congruence|].
  split; [rewrite H1; vm_compute; reflexivity|]. vm_compute. by split_and!.
Defined.

Lemma stats_summary_witness :
  let fs := demoCgroupFiles [cgroupServicePath "p" "u1" "c"] in
  let s := RegisterPending NewPodStore "u1"
    {| (demoPod "a" 250 64) with p_UID := "u1"; p_Containers := [{| zeroContainer with c_Name := "c" |}] |} 1 in
  map (λ ps, (ps.(pst_UID), ps.(pst_CPU), ps.(pst_Memory))) (GetStatsSummary fs demoConfig s).(sum_Pods) =
    [("u1", Some 1234567000%Z, Some (1048576, 1044480)%Z)] ∧
  map pst_UID (GetStatsSummary fs demoConfig s).(sum_Pods) = ["u1"].
Proof.
  intros fs s. destruct (stats_summary fs demoConfig s) as [H _]. split; [vm_compute; reflexivity|].
  rewrite H. vm_compute. reflexivity.
Defined.
