(* ===== verification/NodeCtl.v ===== *)
(** * The node and lease controllers (node/node.go, node/lease_controller_v1.go)

    The controller that registers the node of a pawn and keeps its status and
    its lease alive, as long as the ping of [Monitor] is clean. The API
    server, the clock, the contexts and the error handler answer through the
    record [NEnv], as functions of the actions done so far; the encoding of
    JSON and the strategic merge patch are functions of it too. Spans and log
    output are left out. *)
From S2P Require Import Prelude Corev1 Float64 Monad PodStore Config PawnNode.
Import Str.

(** ** Errors, leases and actions *)

Inductive KErr := KNotFound | KConflict | KCanceled | KOther (msg : string).

Inductive NodeErr :=
  | PingContext
  | PingFailed (msg : string)
  | NodeApi (e : KErr)
  | PatchFailed (what : string)
  | RegisterFailed (e : KErr).

(** [errors.IsNotFound] looks through wrapped errors; the errors of a context
    and of a ping are not API statuses. *)
Definition isNotFound (e : NodeErr) : bool :=
  match e with NodeApi KNotFound => true | _ => false end.

Record OwnerReference := { or_APIVersion : string; or_Kind : string; or_Name : string; or_UID : string }.

Record Lease := {
  le_Name : string;
  le_Namespace : string;
  le_ResourceVersion : string;
  le_OwnerReferences : list OwnerReference;
  le_HolderIdentity : option string;
  le_LeaseDurationSeconds : option Z;
  le_RenewTime : option Time;
}.

(** The result of a ping, as [getResult] returns it. *)
Inductive PingAns := PACancelled | PAFailed (msg : string) | PAClean.

Inductive NAct :=
  | APing (ans : PingAns)
  | AGetNode (name : string) (ans : KErr + Node)
  | APatchNode (name : string) (patch : string) (ans : KErr + Node)
  | ACreateNode (node : Node) (ans : KErr + Node)
  | AHandler (err : NodeErr) (ans : option NodeErr)
  | ANodeEvent (reason : string)
  | AGetLease (name : string) (ans : KErr + Lease)
  | ACreateLease (lease : Lease) (ans : KErr + Lease)
  | AUpdateLease (lease : Lease) (ans : KErr + Lease)
  | ASleep (d : Duration)
  | ATimer (d : Duration) (cancelled : bool).

Abbreviation NTrace := (list NAct).

Record NState := {
  nt_trace : NTrace;
  serverNode : option Node;
  providerNode : Node;
  latestLease : option Lease;
}.

(** [ne_retrySteps] is the number of attempts of [retry.RetryOnConflict], one at
    least;
    [ne_handler] is [nodeStatusUpdateErrorHandler]; [ne_recorder] is whether an
    event recorder is configured. *)
Record NEnv := {
  ne_ping : NTrace → PingAns;
  ne_now : NTrace → Time;
  ne_getNode : NTrace → string → KErr + Node;
  ne_patchNode : NTrace → string → string → KErr + Node;
  ne_createNode : NTrace → Node → KErr + Node;
  ne_handler : option (NTrace → NodeErr → option NodeErr);
  ne_recorder : bool;
  ne_getLease : NTrace → string → KErr + Lease;
  ne_createLease : NTrace → Lease → KErr + Lease;
  ne_updateLease : NTrace → Lease → KErr + Lease;
  ne_cancelled : NTrace → bool;
  ne_retrySteps : nat;
  ne_marshalMeta : ObjectMeta → option string;
  ne_unmarshalMeta : string → option ObjectMeta;
  ne_marshalStatus : NodeStatus → option string;
  ne_unmarshalStatus : string → option NodeStatus;
  ne_threeWay : Node → Node → Node → option string;
}.

Definition LastAppliedNodeStatus : string := "virtual-kubelet.io/last-applied-node-status".
Definition LastAppliedObjectMeta : string := "virtual-kubelet.io/last-applied-object-meta".

(** ** The patch *)

(** Name, namespace and UID of the first, labels and annotations of the second
    without the two embedded ones. *)
Definition simplestObjectMetadata (base with_ : ObjectMeta) : ObjectMeta := {|
  om_Namespace := base.(om_Namespace); om_Name := base.(om_Name); om_UID := base.(om_UID); om_ResourceVersion := "";
  om_Labels := Some (default ∅ with_.(om_Labels));
  om_Annotations := Some (delete LastAppliedNodeStatus (delete LastAppliedObjectMeta (default ∅ with_.(om_Annotations)))) |}.

Definition annotate (m : ObjectMeta) (key value : string) : ObjectMeta :=
  {| m with om_Annotations := Some (<[key := value]> (default ∅ m.(om_Annotations))) |}.

Definition annotation (n : Node) (key : string) : option string := m ← n.(n_Meta).(om_Annotations); m !! key.

Section Env.
Context (env : NEnv).

(** What was applied last, empty when the node was not written before. *)
Definition lastApplied (apiServerNode : Node) : string + Node :=
  match annotation apiServerNode LastAppliedNodeStatus, annotation apiServerNode LastAppliedObjectMeta with
  | Some oldVKStatus, Some oldVKObjectMeta =>
      meta ← orErr "unmarshal old node object metadata" (env.(ne_unmarshalMeta) oldVKObjectMeta);
      status ← orErr "unmarshal old node status" (env.(ne_unmarshalStatus) oldVKStatus);
      mret {| zeroNode with n_Meta := meta; n_Status := status |}
  | _, _ => inr zeroNode
  end.

(** What the provider wants, with the two annotations that record it. *)
Definition wantedNode (nodeFromProvider apiServerNode : Node) : string + Node :=
  let meta := simplestObjectMetadata apiServerNode.(n_Meta) nodeFromProvider.(n_Meta) in
  metaBytes ← orErr "marshal object meta" (env.(ne_marshalMeta) meta);
  let meta := annotate meta LastAppliedObjectMeta metaBytes in
  statusBytes ← orErr "marshal node status" (env.(ne_marshalStatus) nodeFromProvider.(n_Status));
  let meta := annotate meta LastAppliedNodeStatus statusBytes in
  mret {| zeroNode with n_Meta := meta; n_Status := nodeFromProvider.(n_Status) |}.

Definition prepareThreewayPatchBytesForNodeStatus (nodeFromProvider apiServerNode : Node) : string + string :=
  oldNode ← lastApplied apiServerNode;
  newNode ← wantedNode nodeFromProvider apiServerNode;
  orErr "three-way patch" (env.(ne_threeWay) oldNode newNode apiServerNode).

(** ** Calls *)

Abbreviation NM E := (SE NState E).

Definition callN {E A} (answer : NTrace → A) (record : A → NAct) : NM E A := λ s,
  let a := answer s.(nt_trace) in ({| s with nt_trace := s.(nt_trace) ++ [record a] |}, inr a).

Definition nodeEvent {E} (reason : string) : NM E () := λ s,
  if env.(ne_recorder) && bool_decide (is_Some s.(serverNode))
  then ({| s with nt_trace := s.(nt_trace) ++ [ANodeEvent reason] |}, inr tt) else (s, inr tt).

(** ** The status *)

(** One attempt: get, patch. *)
Definition patchOnce {E} (nodeFromProvider : Node) : NM E (NodeErr + Node) :=
  let name := nodeFromProvider.(n_Meta).(om_Name) in
  got ← callN (λ t, env.(ne_getNode) t name) (AGetNode name);
  match got with
  | inl e => mret (inl (NodeApi e))
  | inr apiServerNode =>
      match prepareThreewayPatchBytesForNodeStatus nodeFromProvider apiServerNode with
      | inl what => mret (inl (PatchFailed what))
      | inr patchBytes =>
          ans ← callN (λ t, env.(ne_patchNode) t name patchBytes) (APatchNode name patchBytes);
          mret match ans with inl e => inl (NodeApi e) | inr n => inr n end
      end
  end.

Fixpoint retryOnConflict {E} (steps : nat) (nodeFromProvider : Node) : NM E (NodeErr + Node) :=
  r ← patchOnce nodeFromProvider;
  match r, steps with
  | inl (NodeApi KConflict), S (S _ as steps) => retryOnConflict steps nodeFromProvider
  | _, _ => mret r
  end.

Definition updateNodeStatus {E} (nodeFromProvider : Node) : NM E (NodeErr + Node) :=
  retryOnConflict env.(ne_retrySteps) nodeFromProvider.

Definition updateNodeStatusHeartbeat (now : Time) (n : Node) : Node :=
  let status := n.(n_Status) in
  {| n with n_Status := {| status with ns_Conditions :=
       map (λ c : NodeCondition, {| c with nc_LastHeartbeatTime := now |}) status.(ns_Conditions) |} |}.

Definition setServerNode {E} (node : Node) : NM E () := modifyS (λ s, {| s with serverNode := Some node |}).

Definition updateStatus (skipErrorCb : bool) : NM NodeErr () :=
  result ← callN env.(ne_ping) APing;
  match result with
  | PACancelled => throw PingContext
  | PAFailed msg =>
      _ ← nodeEvent "NodePingFailed";
      throw (PingFailed msg)
  | PAClean =>
      _ ← modifyS (λ s, {| s with providerNode := updateNodeStatusHeartbeat (env.(ne_now) s.(nt_trace)) s.(providerNode) |});
      node ← gets providerNode;
      r ← updateNodeStatus node;
      match r with
      | inr updated => setServerNode updated
      | inl err =>
          match skipErrorCb, env.(ne_handler) with
          | false, Some h =>
              handled ← callN (λ t, h t err) (AHandler err);
              match handled with
              | Some err => throw err
              | None =>
                  r ← updateNodeStatus node;
                  match r with
                  | inr updated => setServerNode updated
                  | inl err => throw err
                  end
              end
          | _, _ => throw err
          end
      end
  end.

Definition ensureNode : NM NodeErr () :=
  r ← handled (updateStatus true);
  match r with
  | inr _ => mret tt
  | inl err =>
      if negb (isNotFound err) then throw err
      else
        server ← gets serverNode;
        match server with
        | None => mret tt
        | Some node =>
            ans ← callN (λ t, env.(ne_createNode) t node) (ACreateNode node);
            match ans with
            | inl e => throw (RegisterFailed e)
            | inr created =>
                _ ← setServerNode created;
                modifyS (λ s, let p := s.(providerNode) in let m := p.(n_Meta) in
                  {| s with providerNode := {| p with n_Meta := {| m with
                       om_Name := created.(n_Meta).(om_Name); om_Namespace := created.(n_Meta).(om_Namespace);
                       om_UID := created.(n_Meta).(om_UID) |} |} |})
            end
        end
  end.

(** ** The control loop *)

Inductive LoopEvent := LoopCtxDone | LoopStatus (updated : Node) | LoopTimer.

(** [updateStatus] with its error logged and recorded. *)
Definition reportStatus {E} : NM E () :=
  r ← handled (updateStatus false);
  match r with
  | inr _ => mret tt
  | inl _ => nodeEvent "FailedNodeStatusUpdate"
  end.

(** The status, annotations and labels of an update; the rest is kept. *)
Definition acceptUpdate (updated provider : Node) : Node :=
  let m := provider.(n_Meta) in
  {| provider with n_Status := updated.(n_Status);
       n_Meta := {| m with om_Annotations := updated.(n_Meta).(om_Annotations); om_Labels := updated.(n_Meta).(om_Labels) |} |}.

(** One turn; the result is [shouldTerminate]. *)
Definition loopTurn {E} (ev : LoopEvent) : NM E bool :=
  match ev with
  | LoopCtxDone => mret true
  | LoopStatus updated =>
      _ ← modifyS (λ s, {| s with providerNode := acceptUpdate updated s.(providerNode) |});
      _ ← reportStatus;
      mret false
  | LoopTimer => _ ← reportStatus; mret false
  end.

Fixpoint controlLoop {E} (evs : list LoopEvent) : NM E () :=
  match evs with
  | [] => mret tt
  | ev :: evs => stop ← loopTurn ev; if (stop : bool) then mret tt else controlLoop evs
  end.

(** The part of [Run] after the notifier and the ping controller are started:
    [evs] is what the loop receives. *)
Definition RunNode (evs : list LoopEvent) : NM NodeErr () :=
  _ ← modifyS (λ s, {| s with providerNode := default s.(providerNode) s.(serverNode) |});
  _ ← ensureNode;
  controlLoop evs.

(** ** The lease *)

Definition maxUpdateRetries : nat := 5.
Definition Millisecond : Duration := 1000000.
Definition maxBackoff : Duration := 7 * Second.
Definition DefaultLeaseDuration : Z := 40.
Definition NamespaceNodeLease : string := "kube-node-lease".

Context (leaseDurationSeconds : Z).

Definition minDuration (a b : Duration) : Duration := if (a <? b)%Z then a else b.

Definition newLease (now : Time) (node : Node) (base : option Lease) : Lease :=
  let lease := match base with
               | None => {| le_Name := node.(n_Meta).(om_Name); le_Namespace := NamespaceNodeLease; le_ResourceVersion := "";
                            le_OwnerReferences := []; le_HolderIdentity := Some node.(n_Meta).(om_Name);
                            le_LeaseDurationSeconds := Some leaseDurationSeconds; le_RenewTime := None |}
               | Some base => base
               end in
  let lease := {| lease with le_RenewTime := Some now |} in
  match lease.(le_OwnerReferences) with
  | [] => {| lease with le_OwnerReferences :=
               [{| or_APIVersion := "v1"; or_Kind := "Node"; or_Name := node.(n_Meta).(om_Name);
                   or_UID := node.(n_Meta).(om_UID) |}] |}
  | _ => lease
  end.

(** The lease, if there is one, and whether this call created it. *)
Definition ensureLease {E} (node : Node) : NM E (KErr + option Lease * bool) :=
  got ← callN (λ t, env.(ne_getLease) t node.(n_Meta).(om_Name)) (AGetLease node.(n_Meta).(om_Name));
  match got with
  | inl KNotFound =>
      leaseToCreate ← gets (λ s, newLease (env.(ne_now) s.(nt_trace)) node None);
      if decide (length leaseToCreate.(le_OwnerReferences) = 0) then mret (inr (None, false))
      else
        ans ← callN (λ t, env.(ne_createLease) t leaseToCreate) (ACreateLease leaseToCreate);
        mret match ans with inl e => inl e | inr lease => inr (Some lease, true) end
  | inl e => mret (inl e)
  | inr lease => mret (inr (Some lease, false))
  end.

(** [StillRunning] is a loop that has not ended within the fuel. *)
Inductive StillRunning := stillRunning.

Fixpoint backoff_loop (fuel : nat) (node : Node) (sleep : Duration) : NM StillRunning (option Lease * bool) :=
  match fuel with
  | O => throw stillRunning
  | S fuel =>
      r ← ensureLease node;
      match r with
      | inr res => mret res
      | inl _ =>
          let sleep := minDuration (2 * sleep) maxBackoff in
          _ ← callN (λ _, tt) (λ _, ASleep sleep);
          cancelled ← callN env.(ne_cancelled) (ATimer sleep);
          if (cancelled : bool) then mret (None, false) else backoff_loop fuel node sleep
      end
  end.

Context (fuel : nat).

Definition backoffEnsureLease (node : Node) : NM StillRunning (option Lease * bool) :=
  backoff_loop fuel node (100 * Millisecond).

(** The remaining [tries] of the update. *)
Fixpoint retryUpdate_loop (tries : nat) (node : Node) (base : option Lease) : NM StillRunning bool :=
  match tries with
  | O => mret false
  | S tries =>
      l ← gets (λ s, newLease (env.(ne_now) s.(nt_trace)) node base);
      ans ← callN (λ t, env.(ne_updateLease) t l) (AUpdateLease l);
      match ans with
      | inr lease => _ ← modifyS (λ s, {| s with latestLease := Some lease |}); mret true
      | inl KCanceled => mret false
      | inl KConflict => r ← backoffEnsureLease node; retryUpdate_loop tries node r.1
      | inl _ => retryUpdate_loop tries node base
      end
  end.

(** [true] when the lease was updated. *)
Definition retryUpdateLease (node : Node) (base : option Lease) : NM StillRunning bool :=
  retryUpdate_loop maxUpdateRetries node base.

Definition syncLease : NM StillRunning () :=
  ping ← callN env.(ne_ping) APing;
  match ping with
  | PAClean =>
      server ← gets serverNode;
      match server with
      | None => mret tt
      | Some node =>
          latest ← gets latestLease;
          renewed ← match latest with
                    | None => mret false
                    | Some lease =>
                        base ← gets (λ s, newLease (env.(ne_now) s.(nt_trace)) node (Some lease));
                        ok ← retryUpdateLease node (Some base);
                        _ ← (if (ok : bool) then mret tt else nodeEvent "FailedLeaseRenewal");
                        mret ok
                    end;
          if (renewed : bool) then mret tt
          else
            r ← backoffEnsureLease node;
            _ ← modifyS (λ s, {| s with latestLease := r.1 |});
            match r with
            | (Some lease, false) =>
                ok ← retryUpdateLease node (Some lease);
                if (ok : bool) then mret tt else nodeEvent "FailedLeaseRenewal"
            | _ => mret tt
            end
      end
  | _ => mret tt
  end.

End Env.

(** ** Writes are guarded by the ping *)

Definition isWrite (a : NAct) : bool :=
  match a with APatchNode _ _ _ | ACreateNode _ _ | ACreateLease _ _ | AUpdateLease _ _ => true | _ => false end.

Definition pingOf (a : NAct) : option PingAns := match a with APing ans => Some ans | _ => None end.

(** Every write follows a ping, the last before it, that was clean. *)
Definition guarded (t : NTrace) : Prop :=
  ∀ pre a post, t = pre ++ a :: post → isWrite a = true → last (omap pingOf pre) = Some PAClean.

Definition clean (t : NTrace) : Prop := guarded t ∧ last (omap pingOf t) = Some PAClean.

Lemma guarded_nil : guarded [].
Proof. intros [|? ?] a post H; discriminate H. Qed.

Lemma guarded_snoc t a : guarded t → (isWrite a = true → last (omap pingOf t) = Some PAClean) → guarded (t ++ [a]).
Proof.
  intros Ht Ha pre b post H Hb. destruct post as [|c post] using rev_ind.
  - apply app_inj_tail in H as [-> ->]. by apply Ha.
  - rewrite app_comm_cons, List.app_assoc in H. apply app_inj_tail in H as [-> ->]. by eapply Ht.
Qed.

Lemma last_ping_snoc t a : last (omap pingOf (t ++ [a])) =
  match pingOf a with Some p => Some p | None => last (omap pingOf t) end.
Proof. rewrite omap_app. cbn. destruct (pingOf a); [by rewrite last_snoc|by rewrite List.app_nil_r]. Qed.

Lemma clean_snoc t a : clean t → pingOf a = None → clean (t ++ [a]).
Proof. intros [Hg Hl] Ha. split; [by apply guarded_snoc|]. by rewrite last_ping_snoc, Ha. Qed.

Section Guarded.
Context (env : NEnv).

Definition G (s : NState) : Prop := guarded s.(nt_trace).
Definition C (s : NState) : Prop := clean s.(nt_trace).

(** What runs after a clean ping keeps it clean. *)
Definition keepsC {E A} (m : SE NState E A) : Prop := triple C m (λ _, C) (λ _, C).
Definition keepsG {E A} (m : SE NState E A) : Prop := triple G m (λ _, G) (λ _, G).

Lemma C_G s : C s → G s.
Proof. by intros [? _]. Qed.

Lemma keepsC_call {E A} (answer : NTrace → A) record : (∀ a, pingOf (record a) = None) → keepsC (callN answer record : SE NState E A).
Proof. intros Hp s Hc. apply clean_snoc; [exact Hc|apply Hp]. Qed.

Lemma keepsG_call {E A} (answer : NTrace → A) record : (∀ a, isWrite (record a) = false) → keepsG (callN answer record : SE NState E A).
Proof. intros Hw s Hg. apply guarded_snoc; [exact Hg|]. by rewrite Hw. Qed.

Lemma ping_triple {E} (R : E → NState → Prop) :
  triple G (callN env.(ne_ping) APing) (λ a s, match a with PAClean => C s | _ => G s end) R.
Proof.
  intros s Hg. unfold callN. cbn beta iota zeta.
  assert (guarded (nt_trace s ++ [APing (ne_ping env (nt_trace s))])) as H by by apply guarded_snoc.
  destruct (ne_ping env (nt_trace s)); [exact H..|]. split; [exact H|]. cbn [nt_trace]. by rewrite last_ping_snoc.
Qed.

Lemma keepsC_ret {E A} (a : A) : keepsC (mret a : SE NState E A).
Proof. by apply triple_ret. Qed.
Lemma keepsC_throw {E A} (e : E) : keepsC (throw e : SE NState E A).
Proof. by apply triple_throw. Qed.
Lemma keepsC_gets {E A} (f : NState → A) : keepsC (gets f : SE NState E A).
Proof. by apply triple_gets. Qed.
Lemma keepsC_bind {E A B} (m : SE NState E A) (f : A → SE NState E B) : keepsC m → (∀ a, keepsC (f a)) → keepsC (m ≫= f).
Proof. intros Hm Hf. by eapply triple_bind. Qed.
Lemma keepsC_modify {E} (f : NState → NState) : (∀ s, (f s).(nt_trace) = s.(nt_trace)) → keepsC (modifyS f : SE NState E ()).
Proof. intros Hf. apply triple_modify. unfold C. intros s. by rewrite Hf. Qed.
Lemma keepsC_event {E} reason : keepsC (nodeEvent env reason : SE NState E ()).
Proof.
  intros s Hc. unfold nodeEvent. destruct (_ && _); [|exact Hc]. by apply (clean_snoc _ (ANodeEvent reason) Hc).
Qed.
Lemma event_triple {E} reason (R : E → NState → Prop) : triple G (nodeEvent env reason) (λ _, G) R.
Proof. intros s Hg. unfold nodeEvent. destruct (_ && _); [|exact Hg]. by apply (guarded_snoc _ (ANodeEvent reason) Hg). Qed.

Lemma C_to_G {E A} (m : SE NState E A) : keepsC m → triple C m (λ _, G) (λ _, G).
Proof. intros H. eapply triple_conseq; [exact H|done|..]; intros; by apply C_G. Qed.

End Guarded.

(** Walks through the code after a clean ping. *)
Ltac stepC :=
  match goal with
  | |- ∀ _, _ => intros ?
  | |- keepsC (mbind _ _) => apply keepsC_bind
  | |- keepsC (mret _) => apply keepsC_ret
  | |- keepsC (throw _) => apply keepsC_throw
  | |- keepsC (gets _) => apply keepsC_gets
  | |- keepsC (modifyS _) => apply keepsC_modify; intros ?; reflexivity
  | |- keepsC (callN _ _) => apply keepsC_call; intros ?; reflexivity
  | |- keepsC (nodeEvent _ _) => apply keepsC_event
  | |- keepsC (match ?x with _ => _ end) => destruct x
  end.
Ltac walkC := repeat stepC.

Section Node.
Context (env : NEnv).

Lemma patchOnce_C {E} node : keepsC (patchOnce env node : SE NState E (NodeErr + Node)).
Proof. unfold patchOnce. walkC. Qed.

Lemma updateNodeStatus_C {E} node : keepsC (updateNodeStatus env node : SE NState E (NodeErr + Node)).
Proof.
  unfold updateNodeStatus. induction (ne_retrySteps env) as [|steps IH]; cbn [retryOnConflict];
    (apply keepsC_bind; [apply patchOnce_C|intros r]); [walkC|].
  destruct r as [[]|]; try apply keepsC_ret. destruct e; try apply keepsC_ret. destruct steps; [apply keepsC_ret|exact IH].
Qed.

(** A clean ping, or nothing is written; an error that says that the node does
    not exist follows a clean ping. *)
Lemma updateStatus_strong skip :
  triple G (updateStatus env skip) (λ _, G) (λ e s, G s ∧ (isNotFound e = true → C s)).
Proof.
  unfold updateStatus. eapply triple_bind; [apply ping_triple|]. intros [|msg|].
  - by apply triple_throw.
  - eapply triple_bind; [apply event_triple|]. intros []. by apply triple_throw.
  - eapply (triple_conseq _ C _ (λ _, C) _ (λ _, C)); [|done|by intros; apply C_G|by intros e s Hc; split; [apply C_G|]].
    apply keepsC_bind; [by apply keepsC_modify|]. intros []. apply keepsC_bind; [apply keepsC_gets|]. intros node.
    apply keepsC_bind; [apply updateNodeStatus_C|]. intros [err|updated]; [|by apply keepsC_modify].
    destruct skip, (ne_handler env) as [h|]; try apply keepsC_throw.
    apply keepsC_bind; [by apply keepsC_call|]. intros [err'|]; [apply keepsC_throw|].
    apply keepsC_bind; [apply updateNodeStatus_C|]. intros [?|?]; [apply keepsC_throw|by apply keepsC_modify].
Qed.

Lemma updateStatus_G skip : keepsG (updateStatus env skip).
Proof. eapply triple_conseq; [apply updateStatus_strong|done..|]. by intros e s [? _]. Qed.

Lemma reportStatus_G {E} : keepsG (reportStatus env : SE NState E ()).
Proof.
  unfold keepsG, reportStatus. eapply triple_bind; [apply (triple_handled _ _ (λ _, G)), updateStatus_G|].
  intros [e|?]; [apply event_triple|by apply triple_ret].
Qed.

Lemma loopTurn_G {E} ev : keepsG (loopTurn env ev : SE NState E bool).
Proof.
  destruct ev as [|updated|]; unfold keepsG, loopTurn; [by apply triple_ret|..].
  - eapply triple_bind; [by apply (triple_modify _ _ _ (λ _, G))|]. intros [].
    eapply triple_bind; [apply reportStatus_G|]. intros []. by apply triple_ret.
  - eapply triple_bind; [apply reportStatus_G|]. intros []. by apply triple_ret.
Qed.

Lemma controlLoop_G {E} evs : keepsG (controlLoop env evs : SE NState E ()).
Proof.
  induction evs as [|ev evs IH]; unfold keepsG; cbn [controlLoop]; [by apply triple_ret|].
  eapply triple_bind; [apply loopTurn_G|]. intros []; [by apply triple_ret|apply IH].
Qed.

Lemma ensureNode_G : keepsG (ensureNode env).
Proof.
  unfold keepsG, ensureNode.
  eapply triple_bind; [apply (triple_handled _ _ (λ r s, G s ∧ match r with inl e => isNotFound e = true → C s | inr _ => True end))|].
  { eapply triple_conseq; [apply updateStatus_strong|done|by intros|by intros e s []]. }
  intros [e|?]; [|apply triple_ret; by intros s [? _]].
  destruct (isNotFound e) eqn:He; cbn [negb]; [|apply triple_throw; by intros s [? _]].
  eapply (triple_conseq _ C _ (λ _, C) _ (λ _, C)); [|by intros s [_ H]; apply H|by intros; apply C_G..].
  apply keepsC_bind; [apply keepsC_gets|]. intros [node|]; [|apply keepsC_ret].
  apply keepsC_bind; [by apply keepsC_call|]. intros [err|created]; [apply keepsC_throw|].
  apply keepsC_bind; [by apply keepsC_modify|]. intros []. by apply keepsC_modify.
Qed.

Lemma RunNode_G evs : keepsG (RunNode env evs).
Proof.
  unfold keepsG, RunNode. eapply triple_bind; [by apply (triple_modify _ _ _ (λ _, G))|]. intros [].
  eapply triple_bind; [apply ensureNode_G|]. intros []. apply controlLoop_G.
Qed.

Context (dur : Z) (fuel : nat).

Lemma ensureLease_C {E} node : keepsC (ensureLease env dur node : SE NState E (KErr + option Lease * bool)).
Proof. unfold ensureLease. walkC. Qed.

Lemma backoff_C node : keepsC (backoffEnsureLease env dur fuel node).
Proof.
  unfold backoffEnsureLease. generalize (100 * Millisecond)%Z. induction fuel as [|n IH]; intros d; cbn [backoff_loop]; [walkC|].
  apply keepsC_bind; [apply ensureLease_C|]. intros [e|res]; [|apply keepsC_ret]. walkC. apply IH.
Qed.

Lemma retryUpdate_C node base : keepsC (retryUpdateLease env dur fuel node base).
Proof.
  unfold retryUpdateLease. generalize maxUpdateRetries as n. intros n. revert base.
  induction n as [|n IH]; intros base; cbn [retryUpdate_loop]; [walkC|].
  apply keepsC_bind; [apply keepsC_gets|]. intros l. apply keepsC_bind; [by apply keepsC_call|].
  intros [[]|lease]; [apply IH| |apply keepsC_ret|apply IH|walkC].
  apply keepsC_bind; [apply backoff_C|]. intros r. apply IH.
Qed.

Lemma syncLease_G : keepsG (syncLease env dur fuel).
Proof.
  unfold keepsG, syncLease. eapply triple_bind; [apply ping_triple|]. intros [|msg|]; [by apply triple_ret..|].
  apply C_to_G. apply keepsC_bind; [apply keepsC_gets|]. intros [node|]; [|apply keepsC_ret].
  apply keepsC_bind; [apply keepsC_gets|]. intros latest. apply keepsC_bind.
  { destruct latest as [lease|]; [|apply keepsC_ret]. apply keepsC_bind; [apply keepsC_gets|]. intros base.
    apply keepsC_bind; [apply retryUpdate_C|]. intros []; walkC. }
  intros []; [apply keepsC_ret|]. apply keepsC_bind; [apply backoff_C|]. intros [[lease|] []]; walkC. apply retryUpdate_C.
Qed.
End Node.

(** C35: The node and its lease are written only while the provider answers.
    In every run of the controller, from registration through any sequence of
    status updates and timers, and in every renewal of the lease, each
    creation or patch of the node and each creation or update of the lease
    comes after a ping, the last one before it, that was clean. *)
Theorem node_writes_guarded env dur fuel evs s :
  guarded s.(nt_trace) →
  guarded (RunNode env evs s).1.(nt_trace) ∧ guarded (syncLease env dur fuel s).1.(nt_trace).
Proof.
  intros Hg. pose proof (RunNode_G env evs s Hg) as H1. pose proof (syncLease_G env dur fuel s Hg) as H2.
  destruct (RunNode env evs s) as [s1 [e1|a1]], (syncLease env dur fuel s) as [s2 [e2|a2]]; by split.
Qed.

(** ** The lease: termination, delays, number of writes *)

Definition isUpdate (a : NAct) : bool := match a with AUpdateLease _ _ => true | _ => false end.
Definition updates (t : NTrace) : nat := length (filter (λ a, isUpdate a = true) t).
Definition sleepOf (a : NAct) : option Duration := match a with ASleep d => Some d | _ => None end.
Definition timerOf (a : NAct) : option Duration := match a with ATimer d _ => Some d | _ => None end.

(** The delay before the retry number [i]. *)
Definition backoffDelay (i : nat) : Duration := Z.min (200 * Millisecond * 2 ^ Z.of_nat i) maxBackoff.

Lemma backoffDelay_0 : minDuration (2 * (100 * Millisecond)) maxBackoff = backoffDelay 0.
Proof. reflexivity. Qed.

Lemma backoffDelay_next i : minDuration (2 * backoffDelay i) maxBackoff = backoffDelay (S i).
Proof.
  unfold minDuration, backoffDelay, maxBackoff, Millisecond, Second. rewrite Nat2Z.inj_succ, Z.pow_succ_r by lia.
  pose proof (Z.pow_pos_nonneg 2 (Z.of_nat i)). destruct (Z.ltb_spec (2 * Z.min (200 * 1000000 * 2 ^ Z.of_nat i) (7 * 1000000000)) (7 * 1000000000)); lia.
Qed.

Lemma updates_app t t' : updates (t ++ t') = updates t + updates t'.
Proof. unfold updates. by rewrite filter_app, List.length_app. Qed.

Section Ends.
Context (env : NEnv) (dur : Z) (fuel N : nat).

(** A run that ends and appends [new] with [Q]. *)
Definition ends {E A} (Q : A → NTrace → Prop) (m : SE NState E A) : Prop :=
  ∀ s, ∃ s' a new, m s = (s', inr a) ∧ s'.(nt_trace) = s.(nt_trace) ++ new ∧ Q a new.

Lemma ends_ret {E A} (a : A) (Q : A → NTrace → Prop) : Q a [] → ends Q (mret a : SE NState E A).
Proof. intros H s. exists s, a, []. by rewrite List.app_nil_r. Qed.

Lemma ends_bind {E A B} (m : SE NState E A) (f : A → SE NState E B) (Q : A → NTrace → Prop) (R : B → NTrace → Prop) :
  ends Q m → (∀ a t, Q a t → ends (λ b u, R b (t ++ u)) (f a)) → ends R (m ≫= f).
Proof.
  intros Hm Hf s. destruct (Hm s) as (s1 & a & t & Hr & Ht & HQ). destruct (Hf a t HQ s1) as (s2 & b & u & Hr' & Ht' & HR).
  exists s2, b, (t ++ u). unfold mbind, SE_bind. rewrite Hr, Hr', Ht', Ht. by rewrite List.app_assoc.
Qed.

Lemma ends_gets {E A} (f : NState → A) (Q : A → NTrace → Prop) : (∀ a, Q a []) → ends Q (gets f : SE NState E A).
Proof. intros H s. exists s, (f s), []. by rewrite List.app_nil_r. Qed.

Lemma ends_modify {E} (f : NState → NState) (Q : () → NTrace → Prop) :
  (∀ s, (f s).(nt_trace) = s.(nt_trace)) → Q tt [] → ends Q (modifyS f : SE NState E ()).
Proof. intros Hf H s. exists (f s), tt, []. by rewrite List.app_nil_r. Qed.

Lemma ends_call {E A} (answer : NTrace → A) record (Q : A → NTrace → Prop) :
  (∀ a, Q a [record a]) → ends Q (callN answer record : SE NState E A).
Proof. intros H s. eexists _, _, [_]. split; [reflexivity|]. split; [reflexivity|apply H]. Qed.

Lemma ends_event {E} reason (Q : () → NTrace → Prop) : Q tt [] → Q tt [ANodeEvent reason] →
  ends Q (nodeEvent env reason : SE NState E ()).
Proof.
  intros H0 H1 s. unfold nodeEvent. destruct (_ && _).
  - by eexists _, tt, [_].
  - exists s, tt, []. by rewrite List.app_nil_r.
Qed.

Lemma ends_conseq {E A} (Q Q' : A → NTrace → Prop) (m : SE NState E A) : ends Q m → (∀ a t, Q a t → Q' a t) → ends Q' m.
Proof. intros H HQ s. destruct (H s) as (s' & a & t & ? & ? & ?). exists s', a, t. auto. Qed.

(** No update, no wait. *)
Definition quiet (t : NTrace) : Prop := updates t = 0 ∧ omap sleepOf t = [] ∧ omap timerOf t = [] ∧ (1 ≤ length t).

Lemma ensureLease_ends {E} node :
  ends (λ _, quiet) (ensureLease env dur node : SE NState E (KErr + option Lease * bool)).
Proof.
  unfold ensureLease. apply (ends_bind _ _ (λ _, quiet)); [by apply ends_call|]. intros got t (H1 & H2 & H3 & H4).
  assert (∀ u, quiet u ∨ u = [] → quiet (t ++ u)) as Happ.
  { intros u [(U1 & U2 & U3 & U4)| ->]; [|by rewrite List.app_nil_r]. unfold quiet.
    rewrite updates_app, !omap_app, List.length_app, H1, H2, H3, U1, U2, U3. split_and!; [done..|lia]. }
  destruct got as [[]|lease]; try (apply ends_ret, Happ; by right).
  apply (ends_bind _ _ (λ _ u, u = [])); [by apply ends_gets|]. intros l u ->.
  case_decide; [apply ends_ret, Happ; by right|].
  apply (ends_bind _ _ (λ _ u, quiet u)); [by apply ends_call|]. intros ans u Hu. apply ends_ret. rewrite List.app_nil_r.
  apply Happ. by left.
Qed.

(** The waits of a back-off, from the [i]th delay. *)
Definition waits_from (i : nat) (t : NTrace) : Prop :=
  updates t = 0 ∧ ∃ k, omap sleepOf t = map backoffDelay (seq i k) ∧ omap timerOf t = map backoffDelay (seq i k).

Lemma waits_quiet i t : quiet t → waits_from i t.
Proof. intros (H1 & H2 & H3 & _). split; [done|]. by exists 0. Qed.

Lemma waits_cons i t u b : quiet t → waits_from (S i) u →
  waits_from i (t ++ [ASleep (backoffDelay i); ATimer (backoffDelay i) b] ++ u).
Proof.
  intros (H1 & H2 & H3 & _) (U1 & k & U2 & U3). split; [by rewrite !updates_app, H1, U1|]. exists (S k).
  rewrite !omap_app, H2, H3, U2, U3. done.
Qed.

(** The context of the controller ends. *)
Definition cancels : Prop := ∀ t, N ≤ length t → env.(ne_cancelled) t = true.

Lemma backoff_loop_ends (Hc : cancels) node f : ∀ i sleep s,
  minDuration (2 * sleep) maxBackoff = backoffDelay i → N < length s.(nt_trace) + 3 * f → 0 < f →
  ∃ s' a new, backoff_loop env dur f node sleep s = (s', inr a) ∧ s'.(nt_trace) = s.(nt_trace) ++ new ∧ waits_from i new.
Proof.
  induction f as [|f IH]; intros i sleep s Hs HN Hf; [lia|]. cbn [backoff_loop].
  destruct (@ensureLease_ends StillRunning node s) as (s1 & r & t & Hr & Ht & Hq). unfold mbind, SE_bind. rewrite Hr.
  destruct r as [e|res]; [|exists s1, res, t; split_and!; [done..|by apply waits_quiet]].
  rewrite Hs. unfold callN. cbn beta iota zeta. cbn [nt_trace].
  destruct (ne_cancelled env (nt_trace s1 ++ [ASleep (backoffDelay i)])) eqn:Hcan.
  - eexists _, _, _. split; [reflexivity|]. cbn [nt_trace]. rewrite Ht, <- !List.app_assoc. split; [reflexivity|].
    apply (waits_cons i t []); [done|]. split; [done|]. by exists 0.
  - match goal with |- context [backoff_loop _ _ _ _ _ ?st] => set (s2 := st) end.
    assert (nt_trace s2 = nt_trace s ++ t ++ [ASleep (backoffDelay i); ATimer (backoffDelay i) false]) as Ht2.
    { unfold s2. cbn [nt_trace]. by rewrite Ht, <- !List.app_assoc. }
    assert (1 ≤ length t) as Hlen by apply Hq.
    assert (length (nt_trace s1 ++ [ASleep (backoffDelay i)]) < N) as Hlt.
    { destruct (decide (N ≤ length (nt_trace s1 ++ [ASleep (backoffDelay i)]))) as [Hge|]; [|lia]. by rewrite Hc in Hcan. }
    rewrite Ht, !List.length_app in Hlt. cbn in Hlt.
    destruct (IH (S i) (backoffDelay i) s2) as (s3 & a & u & Hr3 & Ht3 & Hw); [apply backoffDelay_next| |lia|].
    { rewrite Ht2, !List.length_app. cbn. lia. }
    exists s3, a, (t ++ [ASleep (backoffDelay i); ATimer (backoffDelay i) false] ++ u). split; [exact Hr3|].
    rewrite Ht3, Ht2, <- !List.app_assoc. split; [done|]. by apply waits_cons.
Qed.

Context (Hc : cancels) (Hfuel : N < 3 * fuel).

Lemma backoff_ends node : ends (λ _, waits_from 0) (backoffEnsureLease env dur fuel node).
Proof.
  intros s. unfold backoffEnsureLease. apply (backoff_loop_ends Hc); [apply backoffDelay_0|lia|lia].
Qed.

(** At most [n] updates. *)
Definition atMost (n : nat) (t : NTrace) : Prop := updates t ≤ n.

Ltac most := unfold atMost in *; rewrite ?updates_app in *; change (updates []) with 0 in *;
  repeat match goal with |- context [updates [ANodeEvent ?r]] => change (updates [ANodeEvent r]) with 0 end; lia.

Lemma retryUpdate_ends node base : ends (λ _, atMost maxUpdateRetries) (retryUpdateLease env dur fuel node base).
Proof.
  unfold retryUpdateLease. generalize maxUpdateRetries as n. intros n. revert base.
  induction n as [|n IH]; intros base; cbn [retryUpdate_loop]; [apply ends_ret; most|].
  apply (ends_bind _ _ (λ _ u, u = [])); [by apply ends_gets|]. intros l t ->.
  apply (ends_bind _ _ (λ _ u, updates u = 1)); [by apply ends_call|]. intros ans t Ht.
  assert (∀ base, ends (λ _ u, atMost (S n) ([] ++ t ++ u)) (retryUpdate_loop env dur fuel n node base)) as Hrest.
  { intros b. eapply ends_conseq; [apply IH|]. intros a u Hu. most. }
  assert (atMost (S n) ([] ++ t ++ [])) as Hdone by most.
  destruct ans as [[]|lease]; [apply Hrest| |by apply ends_ret|apply Hrest|].
  - apply (ends_bind _ _ (λ _, waits_from 0)); [apply backoff_ends|]. intros r u [Hu _].
    eapply ends_conseq; [apply IH|]. intros a v Hv. most.
  - apply (ends_bind _ _ (λ _ u, u = [])); [by apply ends_modify|]. intros ? u ->. by apply ends_ret.
Qed.

Lemma syncLease_ends : ends (λ _, atMost (2 * maxUpdateRetries)) (syncLease env dur fuel).
Proof.
  unfold syncLease. apply (ends_bind _ _ (λ _ u, updates u = 0)); [by apply ends_call|]. intros ans t Ht.
  assert (∀ u, atMost (2 * maxUpdateRetries) u → atMost (2 * maxUpdateRetries) (t ++ u)) as Happ.
  { intros u. most. }
  destruct ans; [by apply ends_ret, Happ; most..|].
  apply (ends_bind _ _ (λ _ u, u = [])); [by apply ends_gets|]. intros [node|] ? ->; [|by apply ends_ret, Happ; most].
  apply (ends_bind _ _ (λ _ u, u = [])); [by apply ends_gets|]. intros latest ? ->.
  apply (ends_bind _ _ (λ _, atMost maxUpdateRetries)).
  { destruct latest as [lease|]; [|apply ends_ret; most].
    apply (ends_bind _ _ (λ _ u, u = [])); [by apply ends_gets|]. intros base ? ->.
    apply (ends_bind _ _ (λ _, atMost maxUpdateRetries)); [apply retryUpdate_ends|]. intros ok u Hu. cbn [app].
    apply (ends_bind _ _ (λ _ v, updates v = 0)); [destruct ok; [by apply ends_ret|by apply ends_event]|].
    intros ? v Hv. apply ends_ret. most. }
  intros renewed u Hu. destruct renewed.
  { apply ends_ret, Happ. most. }
  apply (ends_bind _ _ (λ _, waits_from 0)); [apply backoff_ends|]. intros r v [Hv _].
  apply (ends_bind _ _ (λ _ u, u = [])); [by apply ends_modify|]. intros ? ? ->.
  assert (∀ w, atMost maxUpdateRetries w → atMost (2 * maxUpdateRetries) (t ++ [] ++ [] ++ u ++ v ++ [] ++ w)) as Hw.
  { intros w Hw. apply Happ. most. }
  destruct r as [[lease|] []]; try (apply ends_ret, Hw; most).
  apply (ends_bind _ _ (λ _, atMost maxUpdateRetries)); [apply retryUpdate_ends|]. intros ok w Hw'.
  destruct ok; [apply ends_ret; rewrite List.app_nil_r; by apply Hw|].
  apply ends_event; apply Hw; most.
Qed.
End Ends.

(** A renewal of the lease ends once the context of the controller has
    ended, within the fuel; it sends at most ten updates, five on the lease it
    remembers and five on the one it reads; and the pauses of its back-off
    start at 200 ms, double, and never exceed seven seconds. *)
Theorem lease_sync_bounded env dur fuel N s node :
  cancels env N → N < 3 * fuel →
  (∃ s' new, syncLease env dur fuel s = (s', inr tt) ∧ s'.(nt_trace) = s.(nt_trace) ++ new ∧ updates new ≤ 10) ∧
  (∃ s' r new k, backoffEnsureLease env dur fuel node s = (s', inr r) ∧ s'.(nt_trace) = s.(nt_trace) ++ new ∧
     omap sleepOf new = map backoffDelay (seq 0 k)).
Proof.
  intros Hc Hf. split.
  - destruct (syncLease_ends env dur fuel N Hc Hf s) as (s' & [] & new & H1 & H2 & H3).
    exists s', new. split; [exact H1|]. split; [exact H2|exact H3].
  - destruct (backoff_ends env dur fuel N Hc Hf node s) as (s' & r & new & H1 & H2 & _ & k & H3 & _).
    exists s', r, new, k. split; [exact H1|]. split; [exact H2|exact H3].
Qed.

(** ** The patch *)

(** Empty maps are omitted from JSON, and read back as nil. *)
Definition omitEmpty (m : option (gmap string string)) : option (gmap string string) :=
  match m with Some m => if decide (m = ∅) then None else Some m | None => None end.

Definition jsonMeta (m : ObjectMeta) : ObjectMeta :=
  {| m with om_Labels := omitEmpty m.(om_Labels); om_Annotations := omitEmpty m.(om_Annotations) |}.

(** What is encoded is read back. *)
Definition json_ok (env : NEnv) : Prop :=
  (∀ m b, env.(ne_marshalMeta) m = Some b → env.(ne_unmarshalMeta) b = Some (jsonMeta m)) ∧
  (∀ st b, env.(ne_marshalStatus) st = Some b → env.(ne_unmarshalStatus) b = Some st).

Lemma LastApplied_ne : LastAppliedObjectMeta ≠ LastAppliedNodeStatus.
Proof. done. Qed.

Lemma wantedNode_inv env provider api new : wantedNode env provider api = inr new →
  ∃ mb sb, env.(ne_marshalMeta) (simplestObjectMetadata api.(n_Meta) provider.(n_Meta)) = Some mb ∧
    env.(ne_marshalStatus) provider.(n_Status) = Some sb ∧
    annotation new LastAppliedObjectMeta = Some mb ∧ annotation new LastAppliedNodeStatus = Some sb ∧
    new.(n_Spec) = zeroNodeSpec ∧ new.(n_Status) = provider.(n_Status).
Proof.
  unfold wantedNode. intros (mb & Hm%orErr_inr & H)%sum_bind_inr. apply sum_bind_inr in H as (sb & Hs%orErr_inr & H).
  injection H as <-. exists mb, sb. split_and!; [done|done| |by apply lookup_insert_eq|done|done].
  unfold annotation. cbn -[LastAppliedObjectMeta LastAppliedNodeStatus].
  rewrite lookup_insert_ne by (intros H; by apply LastApplied_ne). apply lookup_insert_eq.
Qed.

(** The base of the three-way patch is what was applied last: once the API
    server keeps the two annotations of a patch, the next patch starts from
    exactly the metadata and the status that the provider asked for before,
    without the annotations themselves, so that what others changed is left
    alone. Neither side of a patch ever carries a node spec. *)
Theorem last_applied_roundtrip env provider api new api' :
  json_ok env → wantedNode env provider api = inr new →
  annotation api' LastAppliedNodeStatus = annotation new LastAppliedNodeStatus →
  annotation api' LastAppliedObjectMeta = annotation new LastAppliedObjectMeta →
  ∃ old, lastApplied env api' = inr old ∧
    old.(n_Meta) = jsonMeta (simplestObjectMetadata api.(n_Meta) provider.(n_Meta)) ∧
    old.(n_Status) = provider.(n_Status) ∧
    annotation old LastAppliedNodeStatus = None ∧ annotation old LastAppliedObjectMeta = None ∧
    old.(n_Spec) = zeroNodeSpec ∧ new.(n_Spec) = zeroNodeSpec.
Proof.
  intros [Jm Js] Hw Hs Hm. destruct (wantedNode_inv _ _ _ _ Hw) as (mb & sb & Em & Es & Am & As & Hspec & _).
  unfold lastApplied. rewrite Hs, Hm, Am, As, (Jm _ _ Em), (Js _ _ Es). eexists. split; [reflexivity|].
  assert (∀ key, key = LastAppliedNodeStatus ∨ key = LastAppliedObjectMeta →
    annotation {| zeroNode with n_Meta := jsonMeta (simplestObjectMetadata (n_Meta api) (n_Meta provider));
                                n_Status := n_Status provider |} key = None) as Hnone.
  { intros key Hkey. unfold annotation. cbn -[LastAppliedObjectMeta LastAppliedNodeStatus]. case_decide; [done|]. cbn.
    destruct Hkey as [->| ->]; [apply lookup_delete_eq|]. rewrite lookup_delete_ne by done. apply lookup_delete_eq. }
  split_and!; [done|done|apply Hnone; by left|apply Hnone; by right|done|done].
Qed.

(** The spec of a node that the provider sends is dropped twice: the update
    does not copy it, and the patch does not carry it. So the node of a pawn
    that shuts down is never made unschedulable. *)
Lemma spec_dropped env updated sp provider api :
  acceptUpdate {| updated with n_Spec := sp |} provider = acceptUpdate updated provider ∧
  wantedNode env {| provider with n_Spec := sp |} api = wantedNode env provider api.
Proof. done. Qed.

Lemma shutdown_stays_schedulable env node provider api :
  (markShutdown node).(n_Spec).(nsp_Unschedulable) = true ∧
  ∀ new, wantedNode env (acceptUpdate (markShutdown node) provider) api = inr new → new.(n_Spec).(nsp_Unschedulable) = false.
Proof. split; [done|]. intros new (mb & sb & _ & _ & _ & _ & -> & _)%wantedNode_inv. done. Qed.

(** ** The settings of the lease controller *)

Inductive LeaseConfErr := LeaseDurationInvalid | RenewIntervalZero | RenewIntervalTooLong.

Definition newLeaseControllerWithRenewInterval (leaseDurationSeconds : Z) (renewInterval : Duration) : LeaseConfErr + (Z * Duration) :=
  if (leaseDurationSeconds <=? 0)%Z then inl LeaseDurationInvalid
  else if (renewInterval =? 0)%Z then inl RenewIntervalZero
  else if fle (float64_of_int leaseDurationSeconds) (Seconds renewInterval) then inl RenewIntervalTooLong
  else inr (leaseDurationSeconds, renewInterval).

(** A quarter of the duration, in whole seconds. *)
Definition renewIntervalOf (leaseDurationSeconds : Z) : Duration :=
  let d := if (leaseDurationSeconds =? 0)%Z then DefaultLeaseDuration else leaseDurationSeconds in
  (Second * int_of_float64 (fmul (float64_of_int d) (fdiv (float64_of_int 1) (float64_of_int 4))))%Z.

Definition WithNodeEnableLeaseV1 (configured : option (Z * Duration)) (leaseDurationSeconds : Z) : option LeaseConfErr + (Z * Duration) :=
  let d := if (leaseDurationSeconds =? 0)%Z then DefaultLeaseDuration else leaseDurationSeconds in
  match configured with
  | Some _ => inl None
  | None => match newLeaseControllerWithRenewInterval d (renewIntervalOf leaseDurationSeconds) with
            | inl e => inl (Some e)
            | inr c => inr c
            end
  end.

(** The default is a lease of forty seconds, renewed every ten. A lease of
    less than four seconds has no whole renewal interval and is refused; a
    negative interval is accepted, although the message asks for a positive
    one. *)
Example lease_settings :
  WithNodeEnableLeaseV1 None 0 = inr (40, 10 * Second)%Z ∧
  WithNodeEnableLeaseV1 None 3 = inl (Some RenewIntervalZero) ∧
  newLeaseControllerWithRenewInterval 40 (- Second) = inr (40, - Second)%Z.
Proof. vm_compute. by split_and!. Qed.

(** ** A run *)

#[export] Instance ObjectMeta_eq_dec : EqDecision ObjectMeta.
Proof. solve_decision. Defined.
#[export] Instance NodeCondition_eq_dec : EqDecision NodeCondition.
Proof. solve_decision. Defined.
#[export] Instance NodeStatus_eq_dec : EqDecision NodeStatus.
Proof. solve_decision. Defined.

Definition demoNode : Node := {| zeroNode with
  n_Meta := {| zeroObjectMeta with om_Name := "p"; om_Labels := Some {[ "a" := "b" ]};
               om_Annotations := Some {[ LastAppliedNodeStatus := "stale"; "keep" := "me" ]} |};
  n_Status := {| zeroNodeStatus with ns_KernelVersion := "6.18"; ns_Conditions := [condition "Ready" 0 ConditionTrue "" ""] |} |}.

(** The API server of the run: the node is missing at first, the lease too;
    the first update of the lease conflicts. *)
Definition demoNEnv (ping : PingAns) : NEnv :=
  let meta := simplestObjectMetadata demoNode.(n_Meta) demoNode.(n_Meta) in
  let status := demoNode.(n_Status) in
  {| ne_ping := λ _, ping; ne_now := λ t, Z.of_nat (length t);
     ne_getNode := λ t _, if decide (length t < 4) then inl KNotFound else inr demoNode;
     ne_patchNode := λ _ _ _, inr demoNode; ne_createNode := λ _ n, inr n; ne_handler := None; ne_recorder := true;
     ne_getLease := λ t name, if decide (length t < 2) then inl KNotFound
                              else inr (newLease 40 0 demoNode None);
     ne_createLease := λ t l, inl (KOther "busy"); ne_updateLease := λ t l, if decide (length t < 8) then inl KConflict else inr l;
     ne_cancelled := λ t, bool_decide (20 ≤ length t); ne_retrySteps := 5;
     ne_marshalMeta := λ m, if decide (m = meta) then Some "meta" else None;
     ne_unmarshalMeta := λ b, if decide (b = "meta") then Some (jsonMeta meta) else None;
     ne_marshalStatus := λ st, if decide (st = status) then Some "status" else None;
     ne_unmarshalStatus := λ b, if decide (b = "status") then Some status else None;
     ne_threeWay := λ _ _ _, Some "patch" |}.

Definition demoNState : NState := {| nt_trace := []; serverNode := Some demoNode; providerNode := demoNode; latestLease := None |}.

Lemma node_writes_guarded_witness :
  let s1 := (RunNode (demoNEnv PAClean) [LoopTimer; LoopCtxDone] demoNState).1 in
  guarded s1.(nt_trace) ∧ map isWrite s1.(nt_trace) = [false; false; true; false; false; false] ∧
  map isWrite (RunNode (demoNEnv (PAFailed "down")) [LoopTimer; LoopCtxDone] demoNState).1.(nt_trace) = [false; false].
Proof.
  split; [exact (proj1 (node_writes_guarded (demoNEnv PAClean) 40 9 [LoopTimer; LoopCtxDone] demoNState guarded_nil))|].
  split; vm_compute; reflexivity.
Defined.

Lemma lease_sync_bounded_witness :
  let s' := (syncLease (demoNEnv PAClean) 40 9 demoNState).1 in
  (∃ s1 new, syncLease (demoNEnv PAClean) 40 9 demoNState = (s1, inr tt) ∧ s1.(nt_trace) = [] ++ new ∧ updates new ≤ 10) ∧
  omap sleepOf s'.(nt_trace) = [200 * Millisecond]%Z ∧ updates s'.(nt_trace) = 2 ∧
  le_HolderIdentity <$> s'.(latestLease) = Some (Some "p").
Proof.
  split.
  - apply (lease_sync_bounded (demoNEnv PAClean) 40 9 20 demoNState demoNode); [|cbn; lia].
    intros t Ht. cbn. by apply bool_decide_eq_true.
  - vm_compute. by split_and!.
Defined.

Lemma last_applied_roundtrip_witness :
  match wantedNode (demoNEnv PAClean) demoNode demoNode with
  | inr new => ∃ old, lastApplied (demoNEnv PAClean) new = inr old ∧ old.(n_Status) = demoNode.(n_Status) ∧
                 old.(n_Meta).(om_Annotations) = Some {[ "keep" := "me" ]}
  | inl _ => False
  end.
Proof.
  destruct (wantedNode (demoNEnv PAClean) demoNode demoNode) as [e|new] eqn:Hw; [by vm_compute in Hw|].
  assert (json_ok (demoNEnv PAClean)) as Hj.
  { split; intros x b; cbn; case_decide as Hd; intros H; try done; injection H as <-; subst x; vm_compute; reflexivity. }
  destruct (last_applied_roundtrip (demoNEnv PAClean) demoNode demoNode new new Hj Hw eq_refl eq_refl)
    as (old & Ho & Hm & Hs & _).
  exists old. split; [exact Ho|]. split; [exact Hs|]. rewrite Hm. vm_compute. reflexivity.
Defined.

(** A pawn that shuts down fails its ping; if the next ping comes before the
    notifier's last node, that node is not written either, and the node stays
    ready until its lease expires. *)
Example not_ready_lost :
  let shut := Shutdown NewPawnNode in
  (∃ msg, shut ≫= Ping zeroPawnConfig = Some msg) ∧
  existsb isWrite (controlLoop (E := NodeErr) (demoNEnv (PAFailed "shutting down")) [LoopStatus (markShutdown demoNode)] demoNState).1.(nt_trace)
  = false.
Proof. split; [eexists; reflexivity|]. vm_compute. reflexivity. Qed.
