(* ===== verification/IPPool.v ===== *)
(** * IP pool

    [internal/network/ippool.go]: addresses of a subnet handed out in order,
    wrapping around.  The fields are uint32 numbers; the loop of [Allocate]
    has as fuel one more than the last host offset, and the theorems show that it never
    uses it up. *)
From stdpp Require Import pretty.
From S2P Require Import Prelude.

Record ipPool := {
  base : Z;
  next : Z;
  max : Z;
  inUse : gmap Z string;
}.

(** What [net.ParseCIDR] returns: the masked address and the prefix length. *)
Inductive Network :=
  | IPv4 (address ones : Z)
  | IPv6.

(** The error of [ParseCIDR]; the panic of [Uint32] on the nil [To4] of an IPv6
    address; the pool. *)
Inductive NewIPPool :=
  | PoolErr
  | PoolPanic
  | PoolOK (p : ipPool).

Definition newIPPool (network : option Network) : NewIPPool :=
  match network with
  | None => PoolErr
  | Some IPv6 => PoolPanic
  | Some (IPv4 address ones) =>
      let hostBits := 32 - ones in
      PoolOK {| base := address; next := 2; max := u32 (u32 (2 ^ hostBits) - 2); inUse := ∅ |}
  end%Z.

(** [net.IP.String] of the four bytes of an address. *)
Definition ipString (a : Z) : string :=
  pretty (a `div` 2 ^ 24)%Z +:+ "." +:+ pretty ((a `div` 2 ^ 16) `mod` 256)%Z +:+ "." +:+
  pretty ((a `div` 2 ^ 8) `mod` 256)%Z +:+ "." +:+ pretty (a `mod` 256)%Z.

(** [p.next++; if p.next > p.max { p.next = 2 }] *)
Definition advance (p : ipPool) : ipPool :=
  let n := u32 (p.(next) + 1) in {| p with next := if (p.(max) <? n)%Z then 2%Z else n |}.

(** The address of a host offset. *)
Definition address (p : ipPool) (offset : Z) : string := ipString (u32 (p.(base) + offset)).

(** The outer [None] is the end of the fuel, the inner one the error. *)
Fixpoint Allocate_loop (fuel : nat) (start : Z) (p : ipPool) (podUID : string) : option (ipPool * option string) :=
  match fuel with
  | O => None
  | S fuel =>
      match p.(inUse) !! p.(next) with
      | None =>
          let offset := p.(next) in
          let p := advance {| p with inUse := <[offset := podUID]> p.(inUse) |} in
          Some (p, Some (address p offset))
      | Some _ =>
          let p := advance p in
          if (p.(next) =? start)%Z then Some (p, None) else Allocate_loop fuel start p podUID
      end
  end.

Definition Allocate (p : ipPool) (podUID : string) : option (ipPool * option string) :=
  Allocate_loop (S (Z.to_nat p.(max))) p.(next) p podUID.

(** The first entry of that pod, in the order in which the map is ranged over. *)
Definition Release (p : ipPool) (podUID : string) : ipPool :=
  match head (filter (λ kv, kv.2 = podUID) (map_to_list p.(inUse))) with
  | Some (offset, _) => {| p with inUse := delete offset p.(inUse) |}
  | None => p
  end.

Definition Gateway (p : ipPool) : string := ipString (u32 (p.(base) + 1)).

(** [bitLen] shifts until nothing is left; 32 rounds empty a uint32. *)
Fixpoint bitLen_loop (fuel : nat) (n l : Z) : Z :=
  match fuel with
  | O => l
  | S fuel => if (0 <? n)%Z then bitLen_loop fuel (Z.shiftr n 1) (l + 1) else l
  end.

Definition bitLen (n : Z) : Z := bitLen_loop 32 n 0.

Definition Subnet (p : ipPool) : string := "/" +:+ pretty (32 - bitLen (u32 (p.(max) + 1)))%Z.

(** ** Runs *)

Inductive PoolOp := OpAllocate (podUID : string) | OpRelease (podUID : string).

Definition pool_step (p : ipPool) (op : PoolOp) : ipPool :=
  match op with
  | OpAllocate uid => match Allocate p uid with Some (p', _) => p' | None => p end
  | OpRelease uid => Release p uid
  end.

Definition pool_run (p : ipPool) (ops : list PoolOp) : ipPool := foldl pool_step p ops.

(** The next offset and the offsets in use are host offsets, of a subnet with
    at least one host. *)
Record pool_ok (p : ipPool) : Prop := {
  po_max : (2 ≤ p.(max) ≤ 2 ^ 32 - 2)%Z;
  po_next : (2 ≤ p.(next) ≤ p.(max))%Z;
  po_used : ∀ o uid, p.(inUse) !! o = Some uid → (2 ≤ o ≤ p.(max))%Z;
}.

(** The offset reached after [k] rounds. *)
Definition nth_offset (p : ipPool) (start : Z) (k : Z) : Z := (2 + (start - 2 + k) `mod` (p.(max) - 1))%Z.

Lemma advance_next p : pool_ok p → (advance p).(next) = (if (p.(next) =? p.(max))%Z then 2 else p.(next) + 1)%Z.
Proof.
  intros [Hm Hn _]. unfold advance. cbn. rewrite u32_id by (unfold in_uint32; lia).
  destruct (Z.ltb_spec (max p) (next p + 1)), (Z.eqb_spec (next p) (max p)); lia.
Qed.

Lemma advance_nth p start k : pool_ok p → (2 ≤ start ≤ p.(max))%Z → (0 ≤ k)%Z →
  p.(next) = nth_offset p start k → (advance p).(next) = nth_offset p start (k + 1).
Proof.
  intros Hp Hs Hk Hn. rewrite advance_next by done. destruct Hp as [Hm _ _]. unfold nth_offset in *.
  set (N := (max p - 1)%Z) in *. rewrite Z.add_assoc, <- (Zplus_mod_idemp_l (start - 2 + k)).
  pose proof (Z.mod_pos_bound (start - 2 + k) N ltac:(lia)) as Hb. set (r := ((start - 2 + k) `mod` N)%Z) in *.
  destruct (Z.eqb_spec (next p) (max p)).
  - replace (r + 1)%Z with N by lia. by rewrite Z_mod_same_full.
  - rewrite Z.mod_small by lia. lia.
Qed.

Lemma pool_ok_advance p used : pool_ok p → (∀ o uid, used !! o = Some uid → (2 ≤ o ≤ p.(max))%Z) →
  pool_ok {| (advance p) with inUse := used |}.
Proof.
  intros Hp Hu. pose proof (advance_next p Hp) as Hn. destruct Hp as [Hm Hnx _]. split; cbn in *; [done| |done].
  rewrite Hn. destruct (Z.eqb_spec (next p) (max p)); lia.
Qed.

(** Every host offset is reached in the first [max - 1] rounds. *)
Lemma nth_offset_surj p start o : (2 ≤ p.(max))%Z → (2 ≤ start ≤ p.(max))%Z → (2 ≤ o ≤ p.(max))%Z →
  ∃ k, (0 ≤ k < p.(max) - 1)%Z ∧ nth_offset p start k = o.
Proof.
  intros Hm Hs Ho. unfold nth_offset. set (N := (max p - 1)%Z).
  exists ((o - start) `mod` N)%Z. split; [apply Z.mod_pos_bound; lia|].
  rewrite Zplus_mod_idemp_r. replace (start - 2 + (o - start))%Z with (o - 2)%Z by lia.
  rewrite Z.mod_small by lia. lia.
Qed.

(** The search stops when it is back at its start. *)
Lemma nth_offset_start p start k : (2 ≤ p.(max))%Z → (2 ≤ start ≤ p.(max))%Z → (0 < k ≤ p.(max) - 1)%Z →
  nth_offset p start k = start → k = (p.(max) - 1)%Z.
Proof.
  intros Hm Hs Hk. unfold nth_offset. set (N := (max p - 1)%Z) in *. intros H.
  assert ((start - 2 + k) `mod` N = start - 2)%Z as Hmod by lia.
  pose proof (Z.div_mod (start - 2 + k) N ltac:(lia)) as Hd. rewrite Hmod in Hd.
  set (q := ((start - 2 + k) `div` N)%Z) in *. assert (k = N * q)%Z as He by lia. assert (1 ≤ N)%Z by lia.
  assert (0 < q)%Z by nia. assert (q < 2)%Z by nia. assert (q = 1)%Z as Hq by lia. rewrite Hq in He. lia.
Qed.

(** The outcome of a search that starts at [start] and has done [k] rounds. *)
Lemma Allocate_loop_spec start uid fuel : ∀ p k,
  pool_ok p → (2 ≤ start ≤ p.(max))%Z → (0 ≤ k < p.(max) - 1)%Z → p.(next) = nth_offset p start k →
  (∀ j, (0 ≤ j < k)%Z → is_Some (p.(inUse) !! nth_offset p start j)) →
  (p.(max) - 1 - k ≤ Z.of_nat fuel)%Z →
  ∃ p' r, Allocate_loop fuel start p uid = Some (p', r) ∧ pool_ok p' ∧ p'.(base) = p.(base) ∧ p'.(max) = p.(max) ∧
    match r with
    | Some a => ∃ o, a = address p o ∧ p.(inUse) !! o = None ∧ p'.(inUse) = <[o := uid]> p.(inUse) ∧
                  (2 ≤ o ≤ p.(max))%Z
    | None => p'.(inUse) = p.(inUse) ∧ ∀ o, (2 ≤ o ≤ p.(max))%Z → is_Some (p.(inUse) !! o)
    end.
Proof.
  induction fuel as [|fuel IH]; intros p k Hp Hs Hk Hn Hused Hf; [lia|]. cbn [Allocate_loop].
  pose proof (po_max p Hp) as Hm. destruct (inUse p !! next p) as [x|] eqn:Hu.
  - pose proof (advance_nth p start k Hp Hs ltac:(lia) Hn) as Hn'.
    assert (pool_ok (advance p)) as Hp' by (apply (pool_ok_advance p (inUse p) Hp), Hp).
    assert (∀ j, (0 ≤ j < k + 1)%Z → is_Some (inUse p !! nth_offset p start j)) as Hused'.
    { intros j Hj. destruct (decide (j = k)) as [->|]; [rewrite <- Hn, Hu; eauto|apply Hused; lia]. }
    destruct (Z.eqb_spec (next (advance p)) start) as [He|He].
    + assert (k + 1 = max p - 1)%Z as Hlast by (apply (nth_offset_start p start); [lia|done|lia|congruence]).
      exists (advance p), None. split_and!; try done. intros o Ho.
      destruct (nth_offset_surj p start o) as (j & Hj & <-); [lia|done|done|]. apply Hused'. lia.
    + destruct (decide (k + 1 = max p - 1)%Z) as [Hk1|Hk1].
      * exfalso. apply He. rewrite Hn'. unfold nth_offset. rewrite Hk1.
        replace (start - 2 + (max p - 1))%Z with (start - 2 + 1 * (max p - 1))%Z by lia.
        rewrite Z_mod_plus_full, Z.mod_small; lia.
      * apply (IH (advance p) (k + 1)%Z); try done; cbn [max advance]; lia.
  - exists (advance {| p with inUse := <[next p := uid]> (inUse p) |}), (Some (address p (next p))).
    pose proof (po_next p Hp). split_and!; try done.
    + apply (pool_ok_advance p (<[next p := uid]> (inUse p)) Hp). intros o v [[<- _]|[_ Ho]]%lookup_insert_Some; [done|by apply (po_used p Hp) in Ho].
    + by exists (next p).
Qed.

Lemma Allocate_ok p uid : pool_ok p →
  ∃ p' r, Allocate p uid = Some (p', r) ∧ pool_ok p' ∧ p'.(base) = p.(base) ∧ p'.(max) = p.(max) ∧
    match r with
    | Some a => ∃ o, a = address p o ∧ p.(inUse) !! o = None ∧ p'.(inUse) = <[o := uid]> p.(inUse) ∧
                  (2 ≤ o ≤ p.(max))%Z
    | None => p'.(inUse) = p.(inUse) ∧ ∀ o, (2 ≤ o ≤ p.(max))%Z → is_Some (p.(inUse) !! o)
    end.
Proof.
  intros Hp. pose proof (po_max p Hp). pose proof (po_next p Hp). apply (Allocate_loop_spec _ _ _ p 0 Hp); try lia.
  unfold nth_offset. rewrite Z.mod_small; lia.
Qed.

Lemma Release_ok p uid : pool_ok p →
  pool_ok (Release p uid) ∧ (Release p uid).(base) = p.(base) ∧ (Release p uid).(max) = p.(max).
Proof.
  intros [Hm Hn Hu]. unfold Release. destruct (head _) as [[o v]|]; [|done]. split; [|done].
  split; cbn; [done|done|]. intros o' v' [_ Ho]%lookup_delete_Some. by eapply Hu.
Qed.

Lemma pool_run_ok ops : ∀ p, pool_ok p →
  pool_ok (pool_run p ops) ∧ (pool_run p ops).(base) = p.(base) ∧ (pool_run p ops).(max) = p.(max).
Proof.
  induction ops as [|op ops IH]; intros p Hp; [done|]. cbn [pool_run foldl].
  assert (pool_ok (pool_step p op) ∧ (pool_step p op).(base) = p.(base) ∧ (pool_step p op).(max) = p.(max))
    as (H1 & H2 & H3).
  { destruct op as [uid|uid]; cbn [pool_step]; [|by apply Release_ok].
    destruct (Allocate_ok p uid Hp) as (p' & r & -> & ? & ? & ? & _). done. }
  destruct (IH _ H1) as (? & ? & ?). split_and!; [done|..]; unfold pool_run in *; congruence.
Qed.

Lemma newIPPool_ok a ones : (1 ≤ ones ≤ 30)%Z →
  ∃ p, newIPPool (Some (IPv4 a ones)) = PoolOK p ∧ pool_ok p ∧ p.(base) = a ∧ p.(max) = (2 ^ (32 - ones) - 2)%Z.
Proof.
  intros Ho. eexists. split; [reflexivity|]. cbn.
  assert (2 ^ 2 ≤ 2 ^ (32 - ones) ≤ 2 ^ 31)%Z by (split; apply Z.pow_le_mono_r; lia).
  assert (u32 (u32 (2 ^ (32 - ones)) - 2) = 2 ^ (32 - ones) - 2)%Z as ->.
  { rewrite (u32_id (2 ^ (32 - ones))), u32_id; unfold in_uint32; lia. }
  split_and!; try done. split; cbn; [lia|lia|]. by intros o uid ?%lookup_empty_Some.
Qed.

(** The prefix length is recovered from the last host offset. *)
Lemma bitLen_mask ones : (1 ≤ ones ≤ 30)%Z → (32 - bitLen (u32 (2 ^ (32 - ones) - 2 + 1)) = ones)%Z.
Proof.
  intros H. assert (forallb (λ n, 32 - bitLen (u32 (2 ^ (32 - n) - 2 + 1)) =? n)%Z (seqZ 1 30) = true) as HF
    by (vm_compute; reflexivity).
  rewrite forallb_forall in HF. apply Z.eqb_eq, (HF ones), list_elem_of_In, elem_of_seqZ. lia.
Qed.

(** ** Properties *)

(** The addresses of a pool for a subnet of prefix length 1 to 30, after
    any allocations and releases: [Allocate] always returns; the address it
    gives is a host address of the subnet, neither the network, the gateway nor
    the broadcast address, and no pod holds it; it fails only when every host
    address is held; and [Subnet] is the prefix length of the subnet. *)
Theorem pool_allocation a ones ops uid p0 :
  (1 ≤ ones ≤ 30)%Z → (0 ≤ a ≤ 2 ^ 32 - 2 ^ (32 - ones))%Z → newIPPool (Some (IPv4 a ones)) = PoolOK p0 →
  let p := pool_run p0 ops in
  Subnet p = "/" +:+ pretty ones ∧
  ∃ p' r, Allocate p uid = Some (p', r) ∧
    match r with
    | Some addr => ∃ o, addr = ipString (a + o) ∧ (1 < o < 2 ^ (32 - ones) - 1)%Z ∧
                     p.(inUse) !! o = None ∧ p'.(inUse) = <[o := uid]> p.(inUse)
    | None => p'.(inUse) = p.(inUse) ∧ ∀ o, (1 < o < 2 ^ (32 - ones) - 1)%Z → is_Some (p.(inUse) !! o)
    end.
Proof.
  intros Ho Ha Hnew. destruct (newIPPool_ok a ones Ho) as (p1 & Hp1 & Hok & Hb & Hm). rewrite Hp1 in Hnew.
  injection Hnew as <-. destruct (pool_run_ok ops p1 Hok) as (Hok' & Hb' & Hm'). cbn zeta.
  rewrite Hb in Hb'. rewrite Hm in Hm'. split; [unfold Subnet; rewrite Hm'; by rewrite bitLen_mask|].
  destruct (Allocate_ok _ uid Hok') as (p' & r & HA & _ & _ & _ & Hr). exists p', r. split; [done|].
  rewrite Hm' in Hr. destruct r as [addr|].
  - destruct Hr as (o & -> & Hfree & Hin & Hrange). exists o. split_and!; try done; try lia.
    unfold address. rewrite Hb', u32_id by (unfold in_uint32; lia). done.
  - destruct Hr as [Hin Hall]. split; [done|]. intros o Hor. apply Hall. lia.
Qed.

Lemma pool_allocation_witness :
  let p0 := {| base := 3232235776; next := 2; max := 6; inUse := ∅ |}%Z in
  ∃ p' addr, Allocate (pool_run p0 [OpAllocate "u1"; OpAllocate "u2"; OpRelease "u1"]) "u3" = Some (p', Some addr) ∧
    addr = "192.168.1.4" ∧ Subnet p0 = "/29".
Proof.
  cbn zeta.
  destruct (pool_allocation 3232235776 29 [OpAllocate "u1"; OpAllocate "u2"; OpRelease "u1"] "u3"
    {| base := 3232235776; next := 2; max := 6; inUse := ∅ |}%Z) as (_ & p' & r & HA & _);
    [lia|lia|reflexivity|].
  destruct r as [addr|]; vm_compute in HA; [|discriminate HA].
  eexists _, _. split_and!; vm_compute; reflexivity.
Defined.

(** Defect: a subnet without host addresses is accepted, and the first address
    given out lies outside it: for 192.168.1.0/31, 192.168.1.2. *)
Theorem pool_leaves_subnet :
  let p := {| base := 3232235776; next := 2; max := 0; inUse := ∅ |}%Z in
  newIPPool (Some (IPv4 3232235776 31)) = PoolOK p ∧
  snd <$> Allocate p "u1" = Some (Some "192.168.1.2").
Proof. split; vm_compute; reflexivity. Qed.
