(* ===== verification/Network.v ===== *)
(** * Pod networks (internal/network/manager.go, constellation.go, ciliumnode.go)

    The two managers of pod networks: the built-in one, which drives [ip] and
    keeps its own pool of addresses, and the one that delegates to a CNI
    plugin. Commands, files and the plugin answer through the record [NetEnv]
    as functions of what was done before; [net.ParseCIDR] is a function of it
    too. Log output is left out. *)
From S2P Require Import Prelude Monad Trace Paths Text UnitNames IPPool.
Import Str.

Inductive StatAns := StatOK | StatNotExist | StatOther.

(** The configuration of a call of the plugin. *)
Record RuntimeConf := {
  rt_ContainerID : string;
  rt_NetNS : string;
  rt_IfName : string;
  rt_Args : list (string * string);
}.

(** The addresses of a result, each with whether it is IPv4; [None] is a result
    that cannot be converted. *)
Abbreviation CNIResult := (option (list (bool * string))).

(** An action with its answer; for a command, [inl] is the output of a failure. *)
Inductive NetAct :=
  | ARun (args : list string) (ans : string + string)
  | AStat (path : string) (ans : StatAns)
  | AReadDir (path : string) (ans : option (list string))
  | AAcquire (ok : bool)
  | ACNIAdd (rt : RuntimeConf) (ans : string + CNIResult)
  | ACNIDel (rt : RuntimeConf) (err : option string)
  | ACNICached (rt : RuntimeConf) (ans : string + CNIResult).

Record NetEnv := {
  nv_run : list NetAct → list string → string + string;
  nv_stat : list NetAct → string → StatAns;
  nv_ReadDir : list NetAct → string → option (list string);
  nv_acquire : list NetAct → bool;
  nv_add : list NetAct → RuntimeConf → string + CNIResult;
  nv_del : list NetAct → RuntimeConf → option string;
  nv_cached : list NetAct → RuntimeConf → string + CNIResult;
  nv_ParseCIDR : string → option string;
}.

Inductive NetErr :=
  | ErrExhausted
  | ErrCmd (args : list string) (out : string)
  | ErrNoIP (out : string)
  | ErrCIDR (cidr : string)
  | ErrContext
  | ErrCNIAdd (msg : string).

Definition bridgeName : string := "perigeos0".
Definition podCIDR : string := "10.88.0.0/16".
Definition podSubnet : string := "/16".
Definition netnsDir : string := "/var/run/netns".

Definition netnsName (podUID : string) : string := "peri-" +:+ podUID.
Definition netnsPath (podUID : string) : string := pathJoin [netnsDir; netnsName podUID].

(** The pool of [podCIDR]. *)
Definition podPool : ipPool := {| base := 173539328; next := 2; max := 65534; inUse := ∅ |}.

Section Manager.
Context (env : NetEnv).

Abbreviation NetM E := (SE (TState NetAct ipPool) E).

Definition run {E} (args : list string) : NetM E (string + string) := callT (λ t, env.(nv_run) t args) (ARun args).
Definition stat {E} (path : string) : NetM E StatAns := callT (λ t, env.(nv_stat) t path) (AStat path).

(** A command whose failure is returned. *)
Definition mustRun (args : list string) : NetM NetErr () :=
  r ← run args;
  match r with inl out => throw (ErrCmd args out) | inr _ => mret tt end.

Definition createNetns (ns : string) : NetM NetErr () :=
  _ ← mustRun ["ip"; "netns"; "add"; ns];
  mustRun ["ip"; "netns"; "exec"; ns; "ip"; "link"; "set"; "lo"; "up"].

Definition deleteNetns (ns : string) : NetM NetErr () := mustRun ["ip"; "netns"; "delete"; ns].

(** The pool is used under its lock. *)
Definition allocate (podUID : string) : NetM NetErr string := λ s,
  match Allocate s.(t_data) podUID with
  | Some (p, Some ip) => (Build_TState s.(t_trace) p, inr ip)
  | Some (p, None) => (Build_TState s.(t_trace) p, inl ErrExhausted)
  | None => (s, inl ErrExhausted)
  end.

Definition release {E} (podUID : string) : NetM E () := modD (λ p, Release p podUID).

(** ** The built-in manager *)

Definition recoverPodIP (podUID : string) : NetM NetErr string :=
  let args := ["ip"; "netns"; "exec"; netnsName podUID; "ip"; "-4"; "-o"; "addr"; "show"; "dev"; "eth0"] in
  r ← run args;
  match r with
  | inl out => throw (ErrCmd args out)
  | inr out =>
      match Fields (default "" (head (splitOn newline out))) with
      | _ :: _ :: inet :: cidr :: _ =>
          if decide (inet = "inet") then
            match env.(nv_ParseCIDR) cidr with Some ip => mret ip | None => throw (ErrCIDR cidr) end
          else throw (ErrNoIP out)
      | _ => throw (ErrNoIP out)
      end
  end.

Definition setupCmds (podUID podIP gateway : string) : list (list string) :=
  let vethHost := vethName podUID in
  let nns := netnsName podUID in
  [["ip"; "link"; "add"; vethHost; "type"; "veth"; "peer"; "name"; "eth0"; "netns"; nns];
   ["ip"; "link"; "set"; vethHost; "master"; bridgeName];
   ["ip"; "link"; "set"; vethHost; "up"];
   ["ip"; "netns"; "exec"; nns; "ip"; "addr"; "add"; podIP +:+ podSubnet; "dev"; "eth0"];
   ["ip"; "netns"; "exec"; nns; "ip"; "link"; "set"; "eth0"; "up"];
   ["ip"; "netns"; "exec"; nns; "ip"; "route"; "add"; "default"; "via"; gateway]].

(** What a failed step undoes. *)
Definition undo (podUID : string) : NetM NetErr () :=
  _ ← release podUID;
  _ ← run ["ip"; "link"; "delete"; vethName podUID];
  _ ← handled (deleteNetns (netnsName podUID));
  mret tt.

Definition setupStep (podUID : string) (args : list string) : NetM NetErr () :=
  r ← run args;
  match r with
  | inr _ => mret tt
  | inl out => _ ← undo podUID; throw (ErrCmd args out)
  end.

Definition Setup (podUID : string) : NetM NetErr (string * string) :=
  st ← stat (netnsPath podUID);
  match st with
  | StatOK =>
      r ← handled (recoverPodIP podUID);
      match r with
      | inr ip => mret (netnsPath podUID, ip)
      | inl _ => ip ← allocate podUID; mret (netnsPath podUID, ip)
      end
  | _ =>
      _ ← createNetns (netnsName podUID);
      a ← handled (allocate podUID);
      match a with
      | inl err => _ ← handled (deleteNetns podUID) : NetM NetErr _; throw err
      | inr podIP =>
          gateway ← getD Gateway;
          _ ← forM (setupCmds podUID podIP gateway) (setupStep podUID);
          mret (netnsPath podUID, podIP)
      end
  end.

Definition Teardown (podUID : string) : NetM NetErr () :=
  st ← stat (netnsPath podUID);
  match st with
  | StatNotExist => release podUID
  | _ =>
      let vethHost := vethName podUID in
      _ ← run ["ip"; "link"; "delete"; vethHost];
      r ← handled (deleteNetns (netnsName podUID));
      match r with
      | inl err => _ ← release podUID; throw err
      | inr _ =>
          _ ← run ["ip"; "link"; "delete"; vethHost];
          release podUID
      end
  end.

(** The interface name of a line of [ip link show]. *)
Definition ifNameOf (line : string) : option string :=
  match Fields line with
  | _ :: f :: _ => Some (default "" (head (splitOn "@" (trimRightChar ":" f))))
  | _ => None
  end.

Definition cleanLine {E} (line : string) : NetM E () :=
  match ifNameOf line with
  | None => mret tt
  | Some ifName =>
      if negb (has_prefix ifName "veth") then mret tt
      else
        let suffix := trim_prefix ifName "veth" in
        entries ← callT (λ t, env.(nv_ReadDir) t netnsDir) (AReadDir netnsDir);
        match entries with
        | None => mret tt
        | Some entries =>
            if existsb (λ e, has_suffix e suffix) entries then mret tt
            else _ ← run ["ip"; "link"; "delete"; ifName]; mret tt
        end
  end.

Definition cleanOrphanedVeths {E} : NetM E () :=
  r ← run ["ip"; "link"; "show"; "master"; bridgeName];
  match r with
  | inl _ => mret tt
  | inr out => forM (splitOn newline out) cleanLine
  end.

Definition bridgeCmds (gateway : string) : list (list string) :=
  [["ip"; "link"; "add"; "name"; bridgeName; "type"; "bridge"];
   ["ip"; "addr"; "add"; gateway +:+ podSubnet; "dev"; bridgeName];
   ["ip"; "link"; "set"; bridgeName; "up"];
   ["sysctl"; "-w"; "net.ipv4.ip_forward=1"];
   ["iptables"; "-t"; "nat"; "-A"; "POSTROUTING"; "-s"; podCIDR; "!"; "-o"; bridgeName; "-j"; "MASQUERADE"];
   ["iptables"; "-A"; "FORWARD"; "-i"; bridgeName; "-j"; "ACCEPT"];
   ["iptables"; "-A"; "FORWARD"; "-o"; bridgeName; "-j"; "ACCEPT"]].

Definition ensureBridge {E} : NetM E () :=
  gateway ← getD Gateway;
  r ← run ["ip"; "link"; "show"; bridgeName];
  match r with
  | inr _ => cleanOrphanedVeths
  | inl _ => forM (bridgeCmds gateway) (λ args, _ ← run args; mret tt)
  end.

(** ** The manager over CNI *)

Definition runtimeConf (podUID namespace name netns nodeName : string) : RuntimeConf := {|
  rt_ContainerID := podUID; rt_NetNS := netns; rt_IfName := "eth0";
  rt_Args := [("K8S_POD_NAMESPACE", namespace); ("K8S_POD_NAME", name); ("K8S_POD_UID", podUID)] ++
             (if decide (nodeName ≠ "") then [("K8S_POD_NODE_NAME", nodeName)] else []) |}.

(** The first IPv4 address. *)
Definition ipFromResult (result : CNIResult) : string :=
  match result with
  | None => ""
  | Some ips => default "" (head (omap (λ '(v4, ip), if v4 : bool then Some ip else None) ips))
  end.

Definition CNISetup (podUID namespace name nodeName : string) : NetM NetErr (string * string) :=
  let netns := netnsDir +:+ "/" +:+ netnsName podUID in
  st ← stat netns;
  match st with
  | StatOK =>
      let rt := runtimeConf podUID namespace name netns "" in
      r ← callT (λ t, env.(nv_cached) t rt) (ACNICached rt);
      match r with
      | inl _ => mret (netns, "")
      | inr result => mret (netns, ipFromResult result)
      end
  | _ =>
      _ ← createNetns (netnsName podUID);
      let rt := runtimeConf podUID namespace name netns nodeName in
      ok ← callT env.(nv_acquire) AAcquire;
      if negb ok then
        _ ← handled (deleteNetns (netnsName podUID)) : NetM NetErr _;
        throw ErrContext
      else
        r ← callT (λ t, env.(nv_add) t rt) (ACNIAdd rt);
        match r with
        | inl msg =>
            _ ← callT (λ t, env.(nv_del) t rt) (ACNIDel rt);
            _ ← handled (deleteNetns (netnsName podUID)) : NetM NetErr _;
            throw (ErrCNIAdd msg)
        | inr result => mret (netns, ipFromResult result)
        end
  end.

Definition CNITeardown (podUID namespace name : string) : NetM NetErr () :=
  let netns := netnsDir +:+ "/" +:+ netnsName podUID in
  st ← stat netns;
  let rt := runtimeConf podUID namespace name netns "" in
  ok ← callT env.(nv_acquire) AAcquire;
  if negb ok then throw ErrContext
  else
    _ ← callT (λ t, env.(nv_del) t rt) (ACNIDel rt);
    match st with
    | StatNotExist => mret tt
    | _ => deleteNetns (netnsName podUID)
    end.

(** The names that [uuidRE] matches. *)
Definition isHex (c : ascii) : bool :=
  let n := N_of_ascii c in ((48 <=? n) && (n <=? 57) || (97 <=? n) && (n <=? 102))%N.

(** [Some n] for a run of [n] hexadecimal digits, [None] for a dash. *)
Fixpoint matchHex (n : nat) (s : string) : option string :=
  match n, s with
  | O, s => Some s
  | S n, String c s => if isHex c then matchHex n s else None
  | S _, EmptyString => None
  end.

Definition matchDash (s : string) : option string := match s with String "-" s => Some s | _ => None end.

Definition isUUID (s : string) : bool :=
  bool_decide ((s ← matchHex 8 s; s ← matchDash s; s ← matchHex 4 s; s ← matchDash s; s ← matchHex 4 s; s ← matchDash s;
                s ← matchHex 4 s; s ← matchDash s; matchHex 12 s) = Some "").

Definition uuidRE (name : string) : bool := has_prefix name "peri-" && isUUID (trim_prefix name "peri-").

Definition sweepEntry {E} (activeUIDs : gset string) (nnsName : string) : NetM E () :=
  if negb (uuidRE nnsName) then mret tt
  else
    let podUID := trim_prefix nnsName "peri-" in
    if decide (podUID ∈ activeUIDs) then mret tt
    else
      let rt := runtimeConf podUID "" "" (netnsDir +:+ "/" +:+ nnsName) "" in
      _ ← callT (λ t, env.(nv_del) t rt) (ACNIDel rt);
      _ ← handled (deleteNetns nnsName) : NetM E _;
      mret tt.

Definition SweepStaleNetns {E} (activeUIDs : gset string) : NetM E () :=
  entries ← callT (λ t, env.(nv_ReadDir) t netnsDir) (AReadDir netnsDir);
  match entries with
  | None => mret tt
  | Some entries => forM entries (sweepEntry activeUIDs)
  end.

End Manager.

Lemma podPool_new : newIPPool (Some (IPv4 173539328 16)) = PoolOK podPool ∧ Gateway podPool = "10.88.0.1" ∧ pool_ok podPool.
Proof.
  split; [reflexivity|]. split; [vm_compute; reflexivity|].
  split; cbn; [lia|lia|]. by intros o uid ?%lookup_empty_Some.
Qed.

(** ** What setting up and tearing down do *)

Definition commands (new : list NetAct) : list (list string) := omap (λ a, match a with ARun args _ => Some args | _ => None end) new.
Definition succeeded (a : NetAct) : Prop := match a with ARun _ (inl _) => False | _ => True end.

Definition createCmds (podUID : string) : list (list string) :=
  [["ip"; "netns"; "add"; netnsName podUID]; ["ip"; "netns"; "exec"; netnsName podUID; "ip"; "link"; "set"; "lo"; "up"]].

Definition undoCmds (podUID : string) : list (list string) :=
  [["ip"; "link"; "delete"; vethName podUID]; ["ip"; "netns"; "delete"; netnsName podUID]].

Lemma commands_app l l' : commands (l ++ l') = commands l ++ commands l'.
Proof. apply omap_app. Qed.

(** The pod holds no address. *)
Definition free (p : ipPool) (podUID : string) : Prop := ∀ o, p.(inUse) !! o ≠ Some podUID.

Lemma Release_fresh p o uid : free p uid → p.(inUse) !! o = None →
  ∀ p', p'.(inUse) = <[o := uid]> p.(inUse) → (Release p' uid).(inUse) = p.(inUse).
Proof.
  intros Hfree Ho p' Hp'. unfold Release. rewrite Hp'.
  assert (Forall (λ kv, kv = (o, uid)) (filter (λ kv, kv.2 = uid) (map_to_list (<[o := uid]> (inUse p))))) as Hall.
  { apply Forall_forall. intros [k v] [Hv Hin]%list_elem_of_filter. apply elem_of_map_to_list in Hin. cbn in Hv. subst v.
    apply lookup_insert_Some in Hin as [[-> _]|[_ Hin]]; [done|]. by apply Hfree in Hin. }
  assert ((o, uid) ∈ filter (λ kv, kv.2 = uid) (map_to_list (<[o := uid]> (inUse p)))) as Hin.
  { apply list_elem_of_filter. split; [done|]. apply elem_of_map_to_list, lookup_insert_eq. }
  destruct (filter _ _) as [|kv l]; [by apply elem_of_nil in Hin|]. apply Forall_cons in Hall as [-> _]. cbn.
  by rewrite delete_insert_id.
Qed.

Section Outcomes.
Context (env : NetEnv).

Lemma wp_run {E} args (Φ : E + (string + string) → list NetAct → ipPool → Prop) t p :
  (∀ ans, Φ (inr ans) [ARun args ans] p) → wp (run env args) Φ t p.
Proof. intros H. apply wp_call, H. Qed.

Lemma wp_mustRun args (Φ : NetErr + () → list NetAct → ipPool → Prop) t p :
  (∀ out, Φ (inr tt) [ARun args (inr out)] p) → (∀ out, Φ (inl (ErrCmd args out)) [ARun args (inl out)] p) →
  wp (mustRun env args) Φ t p.
Proof. intros H1 H2. unfold mustRun. wp_step. apply wp_run. intros [out|out]; wp_step; [apply H2|apply H1]. Qed.

(** Both commands succeed, or the error names the one that failed, which was
    the last. *)
Lemma wp_createNetns uid (Φ : NetErr + () → list NetAct → ipPool → Prop) t p :
  (∀ new, commands new = createCmds uid → Forall succeeded new → Φ (inr tt) new p) →
  (∀ args out pre new, pre ++ [args] `prefix_of` createCmds uid → commands new = pre ++ [args] → Φ (inl (ErrCmd args out)) new p) →
  wp (createNetns env (netnsName uid)) Φ t p.
Proof.
  intros H1 H2. unfold createNetns. wp_step. apply wp_mustRun.
  - intros out. apply wp_mustRun.
    + intros out'. apply H1; [done|]. by repeat constructor.
    + intros out'. apply (H2 _ _ [["ip"; "netns"; "add"; netnsName uid]]); [|done]. by exists [].
  - intros out. apply (H2 _ _ []); [|done]. by eexists [_].
Qed.

Lemma wp_allocate uid (Φ : NetErr + string → list NetAct → ipPool → Prop) t p : pool_ok p →
  (∀ o p', p.(inUse) !! o = None → p'.(inUse) = <[o := uid]> p.(inUse) → p'.(base) = p.(base) → pool_ok p' → (1 < o < p.(max) + 1)%Z →
     Φ (inr (address p o)) [] p') →
  (∀ p', p'.(inUse) = p.(inUse) → pool_ok p' → (∀ o, (1 < o < p.(max) + 1)%Z → is_Some (p.(inUse) !! o)) → Φ (inl ErrExhausted) [] p') →
  wp (allocate uid) Φ t p.
Proof.
  intros Hp H1 H2. destruct (Allocate_ok p uid Hp) as (p' & r & HA & Hp' & Hb & Hm & Hr). unfold wp, allocate. cbn [t_data t_trace].
  rewrite HA. destruct r as [a|].
  - destruct Hr as (o & -> & Ho & Hin & Hrange). eexists _, [], p'. rewrite List.app_nil_r. split; [reflexivity|]. apply H1; auto. lia.
  - destruct Hr as [Hin Hall]. eexists _, [], p'. rewrite List.app_nil_r. split; [reflexivity|]. apply H2; auto. intros. apply Hall. lia.
Qed.

(** A step succeeds, or the error is raised after everything was undone. *)
Lemma wp_setupStep uid args (Φ : NetErr + () → list NetAct → ipPool → Prop) t p :
  (∀ out, Φ (inr tt) [ARun args (inr out)] p) →
  (∀ out new, commands new = args :: undoCmds uid → Φ (inl (ErrCmd args out)) new (Release p uid)) →
  wp (setupStep env uid args) Φ t p.
Proof.
  intros H1 H2. unfold setupStep. wp_step. apply wp_run. intros [out|out]; [|wp_step; apply H1].
  wp_step. unfold undo, release. wp_step. wp_step. wp_step. apply wp_run. intros ans. wp_step. wp_step.
  apply wp_mustRun; intros out'; wp_step; wp_step; by apply H2.
Qed.

(** The configuration of a namespace, with the address chosen. *)
Lemma wp_configure uid (path ip : string) t p :
  wp (gateway ← getD Gateway; _ ← forM (setupCmds uid ip gateway) (setupStep env uid); mret (path, ip)) (λ r new d,
    match r with
    | inr res => res = (path, ip) ∧ Forall succeeded new ∧ commands new = setupCmds uid ip (Gateway p) ∧ d = p
    | inl e => ∃ args out pre, e = ErrCmd args out ∧ d = Release p uid ∧ commands new = pre ++ args :: undoCmds uid ∧
        pre ++ [args] `prefix_of` setupCmds uid ip (Gateway p)
    end) t p.
Proof.
  wp_step. wp_step. wp_step.
  apply (wp_conseq _ (λ r new d, match r with
    | inr _ => commands new = setupCmds uid ip (Gateway p) ∧ Forall succeeded new ∧ d = p
    | inl e => ∃ args out pre, e = ErrCmd args out ∧ d = Release p uid ∧ commands new = pre ++ args :: undoCmds uid ∧
        pre ++ [args] `prefix_of` setupCmds uid ip (Gateway p) end)).
  - apply (wp_forM (λ done new d, commands new = done ∧ Forall succeeded new ∧ d = p)); [done|].
    intros pre args rest new d Hl (Hc & Hs & ->). apply wp_setupStep.
    + intros out. rewrite commands_app, Hc. split; [done|]. split; [|done]. apply Forall_app. by repeat constructor.
    + intros out new' Hc'. exists args, out, pre. rewrite commands_app, Hc, Hc'. split_and!; [done..|].
      exists rest. by rewrite <- List.app_assoc.
  - intros [e|[]] new d H; [exact H|]. destruct H as (Hc & Hs & ->). wp_step. rewrite List.app_nil_r. by split_and!.
Qed.

(** The pod takes a host address of the subnet that was not in use. *)
Definition takes (p : ipPool) (uid ip : string) (p' : ipPool) : Prop :=
  ∃ o, ip = address p o ∧ (1 < o < p.(max) + 1)%Z ∧ p.(inUse) !! o = None ∧ p'.(inUse) = <[o := uid]> p.(inUse).

(** Every host address is in use. *)
Definition full (p : ipPool) : Prop := ∀ o, (1 < o < p.(max) + 1)%Z → is_Some (p.(inUse) !! o).

Definition showCmd (uid : string) : list string := ["ip"; "netns"; "exec"; netnsName uid; "ip"; "-4"; "-o"; "addr"; "show"; "dev"; "eth0"].

Lemma wp_recoverPodIP uid (Φ : NetErr + string → list NetAct → ipPool → Prop) t p :
  (∀ r new, commands new = [showCmd uid] → Φ r new p) → wp (recoverPodIP env uid) Φ t p.
Proof.
  intros H. unfold recoverPodIP. wp_step. apply wp_run. intros [out|out]; [wp_step; by apply H|].
  destruct (Fields _) as [|? [|? [|inet [|cidr ?]]]]; try (wp_step; by apply H).
  case_decide; [|wp_step; by apply H]. destruct (nv_ParseCIDR env cidr); wp_step; by apply H.
Qed.

(** C36: Setting up the built-in network of a pod that holds no address. For a
    pod without a namespace: on success the commands that create the namespace,
    the link, the address and the route have all succeeded, in that order, and
    the pod has taken a host address of the subnet that was not in use. On an
    error no address is taken; when a configuration step failed, it was the
    last one, and the commands that delete the link and the namespace were run
    after it (their outcome is ignored). When the namespace could not be made or
    its loopback not brought up, nothing is run after the failed command, so in
    the second case the namespace stays; when all addresses are in use, the
    command that is run deletes a namespace named by the bare UID, so the one
    that was made stays ([exhausted_leaves_netns]). For a pod whose namespace
    exists, the address is read from it, or else a free one is taken; nothing is
    configured. *)
Theorem network_setup uid t p :
  pool_ok p → free p uid →
  wp (Setup env uid) (λ r new p',
    match env.(nv_stat) t (netnsPath uid), r with
    | StatOK, inr (path, ip) => path = netnsPath uid ∧ commands new = [showCmd uid] ∧ (p' = p ∨ takes p uid ip p')
    | StatOK, inl e => e = ErrExhausted ∧ commands new = [showCmd uid] ∧ p'.(inUse) = p.(inUse) ∧ full p
    | _, inr (path, ip) =>
        path = netnsPath uid ∧ Forall succeeded new ∧
        commands new = createCmds uid ++ setupCmds uid ip (Gateway p) ∧ takes p uid ip p'
    | _, inl ErrExhausted =>
        p'.(inUse) = p.(inUse) ∧ full p ∧ commands new = createCmds uid ++ [["ip"; "netns"; "delete"; uid]]
    | _, inl (ErrCmd args out) => p'.(inUse) = p.(inUse) ∧
        ((∃ pre, pre ++ [args] `prefix_of` createCmds uid ∧ commands new = pre ++ [args]) ∨
         ∃ pre ip, pre ++ [args] `prefix_of` setupCmds uid ip (Gateway p) ∧
           commands new = createCmds uid ++ pre ++ args :: undoCmds uid)
    | _, inl _ => False
    end) t p.
Proof.
  intros Hp Hfree. unfold Setup. wp_step. apply wp_call. cbn beta iota.
  destruct (nv_stat env t (netnsPath uid)) eqn:Hst.
  { wp_step. wp_step. apply wp_recoverPodIP. intros [e|ip] new Hn; [|wp_step; rewrite ?List.app_nil_r; cbn; auto].
    wp_step. apply wp_allocate; [done| |].
    - intros o p' Ho Hin Hb Hp' Hr. wp_step. rewrite ?List.app_nil_r. split_and!; [done..|]. right. by exists o.
    - intros p' Hin Hp' Hfull. rewrite ?List.app_nil_r. by split_and!. }
  all: wp_step; apply wp_createNetns; [|intros args out pre new Hpre Hn; split; [done|]; left; by exists pre].
  all: intros new1 Hc1 Hs1; wp_step; wp_step; apply wp_allocate; [done| |].
  all: first [intros o p' Ho Hin Hb Hp' Hr | intros p' Hin Hp' Hfull].
  2,4: wp_step; wp_step; apply wp_mustRun; intros out; wp_step; (split_and!; [done..|]); cbn; by rewrite !commands_app, Hc1.
  all: eapply wp_conseq; [apply wp_configure|]; intros [e|[path ip]] new d H.
  2,4: destruct H as ([= -> ->] & Hs & Hc & ->); split; [done|]; split; [by repeat (constructor || apply Forall_app_2)|];
    split; [rewrite !commands_app, Hc1, Hc; unfold Gateway; by rewrite Hb|by exists o].
  all: destruct H as (args & out & pre & -> & -> & Hc & Hpre); split; [by eapply Release_fresh|right]; exists pre, (address p o);
    rewrite !commands_app, Hc1, Hc; split; [|done]; unfold Gateway in *; by rewrite <- Hb.
Qed.

(** Tearing down always gives the address back, and fails only when the
    namespace cannot be deleted. *)
Lemma network_teardown uid t p :
  wp (Teardown env uid) (λ r new p', p' = Release p uid ∧
    match r with
    | inr _ => commands new = [] ∨ commands new = undoCmds uid ++ [["ip"; "link"; "delete"; vethName uid]]
    | inl e => commands new = undoCmds uid ∧ ∃ out, e = ErrCmd ["ip"; "netns"; "delete"; netnsName uid] out
    end) t p.
Proof.
  unfold Teardown, release. wp_step. apply wp_call. cbn beta iota. destruct (nv_stat env t (netnsPath uid)).
  2: wp_step; split; [done|by left].
  all: wp_step; apply wp_run; intros ans; wp_step; wp_step; apply wp_mustRun; intros out; wp_step.
  1,3: apply wp_run; intros ans'; wp_step; split; [done|by right].
  all: wp_step; wp_step; split; [done|]; split; [done|by exists out].
Qed.

(** ** Sweeps *)

(** The deletion of an interface is of one that no namespace claims. *)
Definition sparesNetns (entries : list string) (a : NetAct) : Prop :=
  match a with
  | ARun ["ip"; "link"; "delete"; ifName] _ =>
      has_prefix ifName "veth" = true ∧ ∀ e, e ∈ entries → has_suffix e (trim_prefix ifName "veth") = false
  | ARun args _ => args = ["ip"; "link"; "show"; "master"; bridgeName]
  | AReadDir _ _ => True
  | _ => False
  end.

Lemma cleanOrphanedVeths_spares {E} entries : (∀ t, env.(nv_ReadDir) t netnsDir = Some entries) →
  only (sparesNetns entries) (cleanOrphanedVeths env : SE (TState NetAct ipPool) E ()).
Proof.
  intros Hdir. unfold cleanOrphanedVeths. apply only_bind; [by apply only_call|]. intros [out|out]; [apply only_ret|].
  apply only_forM. intros line _. unfold cleanLine. destruct (ifNameOf line) as [ifName|]; [|apply only_ret].
  destruct (has_prefix ifName "veth") eqn:Hpre; cbn [negb]; [|apply only_ret].
  intros t d. wp_step. apply wp_call. rewrite Hdir. destruct (existsb _ entries) eqn:He; wp_step; [by repeat constructor|].
  apply wp_run. intros ans. wp_step. repeat constructor; [done|]. intros e Hin.
  destruct (has_suffix e (trim_prefix ifName "veth")) eqn:Hs; [|done]. exfalso. apply not_true_iff_false in He. apply He.
  apply existsb_exists. exists e. by rewrite <- list_elem_of_In.
Qed.

(** Only namespaces of pods that are not active are removed. *)
Definition sparesActive (active : gset string) (a : NetAct) : Prop :=
  match a with
  | ARun args _ => ∃ uid, args = ["ip"; "netns"; "delete"; netnsName uid] ∧ isUUID uid = true ∧ uid ∉ active
  | ACNIDel rt _ => isUUID rt.(rt_ContainerID) = true ∧ (rt.(rt_ContainerID) ∉ active) ∧
                    rt.(rt_NetNS) = netnsDir +:+ "/" +:+ netnsName rt.(rt_ContainerID)
  | AReadDir _ _ => True
  | _ => False
  end.

Lemma uuidRE_name name : uuidRE name = true → name = netnsName (trim_prefix name "peri-") ∧ isUUID (trim_prefix name "peri-") = true.
Proof.
  unfold uuidRE. intros [Hp Hu]%andb_true_iff. split; [|done]. apply prefix_spec in Hp as [b ->].
  unfold netnsName, trim_prefix. change (has_prefix ("peri-" +:+ b) "peri-") with (String.prefix "peri-" ("peri-" +:+ b)).
  by rewrite prefix_app, sdrop_app.
Qed.

Lemma SweepStaleNetns_spares {E} active :
  only (sparesActive active) (SweepStaleNetns env active : SE (TState NetAct ipPool) E ()).
Proof.
  unfold SweepStaleNetns. apply only_bind; [by apply only_call|]. intros [entries|]; [|apply only_ret].
  apply only_forM. intros name _. unfold sweepEntry. destruct (uuidRE name) eqn:Hu; cbn [negb]; [|apply only_ret].
  apply uuidRE_name in Hu as [Hn Hu]. set (uid := trim_prefix name "peri-") in *. case_decide as Hin; [apply only_ret|].
  apply only_bind; [apply only_call; intros ?; cbn; by rewrite <- Hn|]. intros _.
  apply only_bind; [|intros; apply only_ret]. apply only_handled. unfold deleteNetns, mustRun, run.
  apply only_bind; [apply only_call|]; [|intros []; only_step]. intros ans. exists uid. by rewrite <- Hn.
Qed.

End Outcomes.

(** ** Interface names *)

(** Eight characters that [vethName] takes as they are. *)
Fixpoint plainASCII (s : string) : bool :=
  match s with
  | EmptyString => true
  | String c s => bool_decide (c ≠ "-"%char) && (byte_of c <? 128)%Z && plainASCII s
  end.

Lemma vethName_full l s : 8 ≤ len s → vethName_loop l s = s.
Proof. intros H. destruct l as [|c l]; [done|]. cbn [vethName_loop]. destruct (Nat.ltb_spec (len s) 8); [lia|done]. Qed.

Lemma vethName_loop_tail s : ∀ rest clean, plainASCII s = true → len s + len clean ≤ 8 →
  vethName_loop (reverse (String.list_ascii_of_string s) ++ rest) clean = vethName_loop rest (s +:+ clean).
Proof.
  induction s as [|c s IH]; intros rest clean Hs Hl; [done|]. cbn [plainASCII] in Hs.
  apply andb_true_iff in Hs as [[Hc%bool_decide_eq_true Hb]%andb_true_iff Hs]. cbn [String.list_ascii_of_string].
  rewrite reverse_cons, <- List.app_assoc, IH by (done || cbn [len] in Hl; lia). cbn [app vethName_loop].
  destruct (Nat.ltb_spec (len (s +:+ clean)) 8) as [_|Hge]; [|rewrite length_app in Hge; cbn [len] in Hl; lia].
  rewrite decide_False by done. unfold rune_string. rewrite Hb. done.
Qed.

Lemma vethName_tail a s : plainASCII s = true → len s = 8 → vethName (a +:+ s) = "veth" +:+ s.
Proof.
  intros Hs Hl. unfold vethName.
  assert (String.list_ascii_of_string (a +:+ s) = String.list_ascii_of_string a ++ String.list_ascii_of_string s) as ->.
  { clear. induction a as [|c a IH]; [done|].
    change (String.list_ascii_of_string (String c a +:+ s)) with (c :: String.list_ascii_of_string (a +:+ s)). by rewrite IH. }
  rewrite reverse_app, vethName_loop_tail, app_nil_r by (done || cbn; lia). by rewrite vethName_full by lia.
Qed.

(** Cleaning up after a crash spares what is in use. The sweep of
    namespaces removes only namespaces that carry the name of a pod that is
    not active, and tells the plugin about those pods only; and the sweep of
    links removes no link of a pod whose namespace still exists, for pods
    whose UID ends, as a UUID does, in eight characters without a dash. *)
Theorem sweeps_spare {E} env active entries a s t p :
  (∀ t, env.(nv_ReadDir) t netnsDir = Some entries) → plainASCII s = true → len s = 8 →
  netnsName (a +:+ s) ∈ entries →
  wp (SweepStaleNetns env active : SE (TState NetAct ipPool) E ()) (λ _ new _, Forall (sparesActive active) new) t p ∧
  wp (cleanOrphanedVeths env : SE (TState NetAct ipPool) E ()) (λ _ new _,
    Forall (sparesNetns entries) new ∧ ∀ ans, ARun ["ip"; "link"; "delete"; vethName (a +:+ s)] ans ∉ new) t p.
Proof.
  intros Hdir Hs Hl Hin. split; [apply SweepStaleNetns_spares|].
  eapply wp_conseq; [by apply cleanOrphanedVeths_spares|]. intros r new d Hall. split; [done|]. intros ans Hnew.
  rewrite Forall_forall in Hall. apply Hall in Hnew as [_ Hnew]. specialize (Hnew _ Hin). apply not_true_iff_false in Hnew.
  apply Hnew. rewrite vethName_tail by done. unfold trim_prefix.
  change (has_prefix ("veth" +:+ s) "veth") with (String.prefix "veth" ("veth" +:+ s)). rewrite prefix_app, sdrop_app.
  unfold netnsName. rewrite app_assoc. apply has_suffix_app.
Qed.

(** ** What the provider relies on *)

Lemma netnsPath_eq uid : index_byte uid "/" = None → netnsPath uid = netnsDir +:+ "/" +:+ netnsName uid.
Proof.
  intros Hu. assert (plain (netnsName uid)) as Hp.
  { unfold netnsName. split_and!; [done..|].
    change (index_byte ("peri-" +:+ uid) "/") with (S <$> (S <$> (S <$> (S <$> (S <$> index_byte uid "/"))))). by rewrite Hu. }
  unfold netnsPath, pathJoin. cbn [dropEmpty netnsDir Join]. unfold Clean.
  change (Join [netnsDir; netnsName uid] "/") with (netnsDir +:+ "/" +:+ netnsName uid).
  rewrite cleanComponents_snoc by done. done.
Qed.

(** The contract of a manager: a network that is set up is the namespace that
    carries the name of the pod. *)
Class NetworkManager (M : Type) := {
  nm_Setup : M → string → string → string → string → SE (TState NetAct ipPool) NetErr (string * string);
  nm_Teardown : M → string → string → string → SE (TState NetAct ipPool) NetErr ();
  nm_path m uid namespace name node :
    index_byte uid "/" = None →
    triple (λ _, True) (nm_Setup m uid namespace name node)
      (λ r _, r.1 = netnsDir +:+ "/" +:+ netnsName uid) (λ _ _, True);
}.

Inductive LinuxNetworkManager := linuxManager (env : NetEnv).
Inductive ConstellationNetworkManager := constellationManager (env : NetEnv).

Lemma triple_any {S E A B} (P : S → Prop) (m : SE S E A) (f : A → SE S E B) Q :
  (∀ a, triple (λ _, True) (f a) Q (λ _ _, True)) → triple P (m ≫= f) Q (λ _ _, True).
Proof. intros H. eapply (triple_bind _ (λ _ _, True)); [|exact H]. intros s _. by destruct (m s) as [s' []]. Qed.

#[export] Program Instance LinuxNetworkManager_nm : NetworkManager LinuxNetworkManager := {|
  nm_Setup := λ '(linuxManager env) uid _ _ _, Setup env uid;
  nm_Teardown := λ '(linuxManager env) uid _ _, Teardown env uid |}.
Next Obligation.
  intros [env] uid namespace name node Hu. rewrite <- netnsPath_eq by done. unfold Setup. apply triple_any. intros st.
  destruct st; apply triple_any; [intros []; [apply triple_any; intros ip|]; by apply triple_ret|..];
    intros []; apply triple_any; (intros [err|podIP]; [apply triple_any; intros _; by apply triple_throw|]);
    apply triple_any; intros gw; apply triple_any; intros []; by apply triple_ret.
Qed.

#[export] Program Instance ConstellationNetworkManager_nm : NetworkManager ConstellationNetworkManager := {|
  nm_Setup := λ '(constellationManager env) uid namespace name node, CNISetup env uid namespace name node;
  nm_Teardown := λ '(constellationManager env) uid namespace name, CNITeardown env uid namespace name |}.
Next Obligation.
  intros [env] uid namespace name node Hu. unfold CNISetup. apply triple_any. intros st.
  destruct st; apply triple_any; [intros []; by apply triple_ret|..];
    intros []; apply triple_any; (intros []; [|apply triple_any; intros _; by apply triple_throw]); cbn [negb];
    apply triple_any; (intros [msg|result]; [do 2 (apply triple_any; intros _); by apply triple_throw|by apply triple_ret]).
Qed.

(** The two commands of [createNetns], or an error of one of them. *)
Lemma wp_createNetns_any env ns (Φ : NetErr + () → list NetAct → ipPool → Prop) t p :
  (∀ new, Φ (inr tt) new p) → (∀ args out new, Φ (inl (ErrCmd args out)) new p) → wp (createNetns env ns) Φ t p.
Proof.
  intros H1 H2. unfold createNetns. wp_step. apply wp_mustRun; [|intros; apply H2]. intros out.
  apply wp_mustRun; intros out'; [apply H1|apply H2].
Qed.

(** A failed CNI ADD is followed by a DEL and by the deletion of the
    namespace. *)
Lemma cni_add_undone env uid namespace name node t p :
  wp (CNISetup env uid namespace name node) (λ r new _,
    match r with
    | inl (ErrCNIAdd msg) => ∃ pre rt err ans, new = pre ++ [ACNIAdd rt (inl msg); ACNIDel rt err;
        ARun ["ip"; "netns"; "delete"; netnsName uid] ans] ∧ rt.(rt_ContainerID) = uid
    | _ => True
    end) t p.
Proof.
  unfold CNISetup. wp_step. apply wp_call. cbn beta iota. destruct (nv_stat env t _).
  { wp_step. apply wp_call. cbn beta iota. destruct (nv_cached _ _ _); by wp_step. }
  all: wp_step; apply wp_createNetns_any; [|done]; intros new; wp_step; apply wp_call; cbn beta iota;
    (destruct (nv_acquire env _); cbn [negb]; [|wp_step; wp_step; apply wp_mustRun; intros; by wp_step]);
    wp_step; apply wp_call; cbn beta iota; (destruct (nv_add env _ _) as [msg|result]; [|by wp_step]);
    wp_step; apply wp_call; wp_step; wp_step; apply wp_mustRun; intros out; wp_step;
    (eexists (_ :: new ++ [_]), _, _, _; split; [exact (f_equal (cons _) (List.app_assoc new [_] _))|reflexivity]).
Qed.

(** ** Runs and defects *)

(** Every command succeeds; the namespaces in [existing] are there, with the
    address that [addr] shows. *)
Definition demoNetEnv (existing : list string) (addr : string) : NetEnv := {|
  nv_run := λ _ args, if decide (last args = Some "eth0" ∧ "show" ∈ args) then inr ("2: eth0    inet " +:+ addr +:+ "/16 scope global eth0")
                      else inr "";
  nv_stat := λ _ path, if decide (path ∈ map netnsPath existing) then StatOK else StatNotExist;
  nv_ReadDir := λ _ _, Some (map netnsName existing);
  nv_acquire := λ _, true; nv_add := λ _ _, inl "no plugin"; nv_del := λ _ _, None; nv_cached := λ _ _, inl "no cache";
  nv_ParseCIDR := λ cidr, Some (trim_suffix cidr "/16") |}.

Definition setupResult (env : NetEnv) (uid : string) (p : ipPool) : NetErr + (string * string) :=
  (Setup env uid (Build_TState [] p)).2.

Lemma network_setup_witness :
  setupResult (demoNetEnv [] "") "uid-1" podPool = inr ("/var/run/netns/peri-uid-1", "10.88.0.2") ∧
  wp (Setup (demoNetEnv [] "") "uid-1") (λ r _ p', match r with inr _ => True | inl _ => False end ∧ p'.(inUse) = {[ 2%Z := "uid-1" ]}) [] podPool.
Proof.
  split; [vm_compute; reflexivity|].
  destruct (network_setup (demoNetEnv [] "") "uid-1" [] podPool) as (r & new & d & Hr & H);
    [apply podPool_new|by intros o|].
  exists r, new, d. split; [exact Hr|]. destruct r as [e|[path ip]].
  - exfalso. assert (setupResult (demoNetEnv [] "") "uid-1" podPool = inl e) as He by (unfold setupResult; by rewrite Hr).
    by vm_compute in He.
  - split; [exact I|]. vm_compute in Hr. injection Hr as _ <- _. reflexivity.
Defined.

Lemma sweeps_spare_witness :
  let env := demoNetEnv ["12345678-1234-1234-1234-123456789abc"] "" in
  wp (SweepStaleNetns env ∅ : SE (TState NetAct ipPool) NetErr ()) (λ _ new _, Forall (sparesActive ∅) new) [] podPool ∧
  commands (SweepStaleNetns (E := NetErr) env ∅ (Build_TState [] podPool)).1.(t_trace) =
    [["ip"; "netns"; "delete"; "peri-12345678-1234-1234-1234-123456789abc"]].
Proof.
  split; [|vm_compute; reflexivity].
  refine (proj1 (sweeps_spare _ _ ["peri-12345678-1234-1234-1234-123456789abc"] "12345678-1234-1234-1234-1234" "56789abc" _ _ _ _ _ _));
    [reflexivity|vm_compute; reflexivity|reflexivity|constructor].
Defined.

(** Every pawn has a manager of its own, with a pool of its own over the same
    subnet on the same bridge: the first pods of two pawns get one address. *)
Example two_pawns_one_address :
  setupResult (demoNetEnv [] "") "uid-a" podPool = inr ("/var/run/netns/peri-uid-a", "10.88.0.2") ∧
  setupResult (demoNetEnv [] "") "uid-b" podPool = inr ("/var/run/netns/peri-uid-b", "10.88.0.2").
Proof. split; vm_compute; reflexivity. Qed.

(** A recovered address is not reserved: after a restart, a new pod is given
    the address of a pod that kept running. *)
Example restart_reuses_address :
  let env := demoNetEnv ["uid-old"] "10.88.0.2" in
  let s := (Setup env "uid-old" (Build_TState [] podPool)).1 in
  setupResult env "uid-old" podPool = inr ("/var/run/netns/peri-uid-old", "10.88.0.2") ∧
  setupResult env "uid-new" s.(t_data) = inr ("/var/run/netns/peri-uid-new", "10.88.0.2").
Proof. split; vm_compute; reflexivity. Qed.

(** When the pool is exhausted, the namespace that was just created is not
    deleted: the name that is passed lacks its prefix. *)
Example exhausted_leaves_netns :
  let p := {| podPool with max := 2%Z; inUse := {[ 2%Z := "other" ]} |} in
  commands (Setup (demoNetEnv [] "") "uid-1" (Build_TState [] p)).1.(t_trace) =
    createCmds "uid-1" ++ [["ip"; "netns"; "delete"; "uid-1"]].
Proof. vm_compute. reflexivity. Qed.

(** A namespace that was created but not configured is taken for a finished one
    by the next attempt: setup then succeeds without a link, with an address
    that no interface has. *)
Example unconfigured_netns_accepted :
  let env := {| (demoNetEnv ["uid-1"] "") with nv_run := λ _ args, inl "Device eth0 does not exist" |} in
  setupResult env "uid-1" podPool = inr ("/var/run/netns/peri-uid-1", "10.88.0.2") ∧
  commands (Setup env "uid-1" (Build_TState [] podPool)).1.(t_trace) =
    [["ip"; "netns"; "exec"; "peri-uid-1"; "ip"; "-4"; "-o"; "addr"; "show"; "dev"; "eth0"]].
Proof. split; vm_compute; reflexivity. Qed.

(** ** The CiliumNode of a pawn (ciliumnode.go) *)

(** An entry of [spec.addresses]: its type and address; [None] is an entry that
    is not an object. *)
Abbreviation CiliumAddr := (option (string * string)).

Record CiliumNode := { cn_Name : string; cn_Labels : gmap string string; cn_Addresses : list CiliumAddr }.

Definition internalIPFromCiliumNode (addrs : list CiliumAddr) : string :=
  default "" (head (omap (λ a, match a with
    | Some (t, ip) => if decide (t = "InternalIP" ∧ ip ≠ "") then Some ip else None
    | None => None
    end) addrs)).

Fixpoint updatedAddresses (addrs : list CiliumAddr) (newIP : string) : list CiliumAddr :=
  match addrs with
  | [] => [Some ("InternalIP", newIP)]
  | Some (t, ip) :: addrs =>
      if decide (t = "InternalIP") then Some ("InternalIP", newIP) :: addrs
      else Some (t, ip) :: updatedAddresses addrs newIP
  | None :: addrs => None :: updatedAddresses addrs newIP
  end.

(** An absent label reads as the empty string. *)
Definition labelsMatch (existing desired : gmap string string) : bool :=
  forallb (λ kv, bool_decide (default "" (existing !! kv.1) = kv.2)) (map_to_list desired).

Inductive CiliumAct :=
  | ACreateCilium (node : CiliumNode)
  | APatchCilium (name : string) (addrs : list CiliumAddr) (labels : option (gmap string string)).

(** What is done, given what [Get] returned; the health address goes with the
    addresses. *)
Definition EnsureCiliumNode (existing : option CiliumNode) (pawnName nodeIP : string) (labels : gmap string string) : option CiliumAct :=
  match existing with
  | Some ex =>
      let ipChanged := negb (bool_decide (internalIPFromCiliumNode ex.(cn_Addresses) = nodeIP)) in
      let labelsChanged := negb (labelsMatch ex.(cn_Labels) labels) in
      if ipChanged || labelsChanged then
        Some (APatchCilium pawnName (updatedAddresses ex.(cn_Addresses) nodeIP)
                (if labelsChanged && negb (bool_decide (labels = ∅)) then Some labels else None))
      else None
  | None => Some (ACreateCilium {| cn_Name := pawnName; cn_Labels := labels; cn_Addresses := [Some ("InternalIP", nodeIP)] |})
  end.

(** The server's side: a merge patch adds the labels and replaces the list. *)
Definition applyCilium (existing : option CiliumNode) (a : CiliumAct) : option CiliumNode :=
  match a, existing with
  | ACreateCilium node, _ => Some node
  | APatchCilium _ addrs labels, Some ex =>
      Some {| ex with cn_Addresses := addrs; cn_Labels := default ∅ labels ∪ ex.(cn_Labels) |}
  | APatchCilium _ _ _, None => None
  end.

Lemma updatedAddresses_ip addrs ip : ip ≠ "" → internalIPFromCiliumNode (updatedAddresses addrs ip) = ip.
Proof.
  intros Hip. unfold internalIPFromCiliumNode. induction addrs as [|[[t x]|] addrs IH]; cbn.
  - by rewrite decide_True.
  - destruct (decide (t = "InternalIP")) as [->|Ht]; cbn; [by rewrite decide_True|]. rewrite decide_False by naive_solver. exact IH.
  - exact IH.
Qed.

Lemma updatedAddresses_others addrs ip t x : t ≠ "InternalIP" → Some (t, x) ∈ addrs → Some (t, x) ∈ updatedAddresses addrs ip.
Proof.
  intros Ht. induction addrs as [|[[t' x']|] addrs IH]; cbn; [by intros ?%elem_of_nil|..].
  - intros [[= <- <-]|Hin]%elem_of_cons; [rewrite decide_False by done; constructor|].
    case_decide; [by constructor|]. constructor. by apply IH.
  - intros [?|Hin]%elem_of_cons; [done|]. constructor. by apply IH.
Qed.

Lemma labelsMatch_union desired existing : labelsMatch (desired ∪ existing) desired = true.
Proof.
  unfold labelsMatch. apply forallb_forall. intros [k v] Hin%list_elem_of_In%elem_of_map_to_list.
  apply bool_decide_eq_true. by rewrite (lookup_union_Some_l _ _ _ _ Hin).
Qed.

(** One round is enough: the object that results needs no further change, and
    it keeps the addresses of other types. *)
Lemma EnsureCiliumNode_settles existing pawn ip labels a node : ip ≠ "" →
  EnsureCiliumNode existing pawn ip labels = Some a → applyCilium existing a = Some node →
  EnsureCiliumNode (Some node) pawn ip labels = None ∧
  ∀ ex t x, existing = Some ex → t ≠ "InternalIP" → Some (t, x) ∈ ex.(cn_Addresses) → Some (t, x) ∈ node.(cn_Addresses).
Proof.
  intros Hip He Ha. destruct existing as [ex|]; cbn [EnsureCiliumNode] in He.
  - destruct (_ || _) eqn:Hch; [|done]. injection He as <-. injection Ha as <-.
    split; [|intros ex' t x [= <-]; apply updatedAddresses_others]. unfold EnsureCiliumNode. cbn [cn_Addresses cn_Labels].
    rewrite updatedAddresses_ip, bool_decide_true by done. cbn [negb orb].
    assert (labelsMatch (default ∅ (if negb (labelsMatch (cn_Labels ex) labels) && negb (bool_decide (labels = ∅))
              then Some labels else None) ∪ cn_Labels ex) labels = true) as ->; [|done].
    destruct (labelsMatch (cn_Labels ex) labels) eqn:Hl; cbn [negb andb default]; [by rewrite (left_id_L ∅ (∪))|].
    destruct (decide (labels = ∅)) as [->|Hne]; [done|]. rewrite bool_decide_false by done. apply labelsMatch_union.
  - injection He as <-. injection Ha as <-. split; [|done]. unfold EnsureCiliumNode, internalIPFromCiliumNode. cbn.
    rewrite decide_True by done. cbn. rewrite bool_decide_true by done. cbn.
    replace (labelsMatch labels labels) with true; [done|]. rewrite <- (labelsMatch_union labels ∅) at 1.
    by rewrite (right_id_L ∅ (∪)).
Qed.
