(* ===== verification/PodController.v ===== *)
(** * The pod controller (node/podcontroller.go, node/pod.go)

    The controller that brings the pods of the API server to the provider and
    the statuses of the provider back.  The informer's callbacks, the handlers
    of its three work queues and the provider's notification callback are the
    operations; they share the map [knownPods], whose entries are pointers, so
    that the model keeps a heap of [knownPod] objects beside the map.  The
    lister, the provider, the API client, the clock and the key functions of
    client-go are the arguments [PCEnv]; their answers may depend on everything
    done before, and after each call the other goroutines may change the shared
    state ([pe_others]).  The queues are modelled in Queue.v: here an enqueue is
    an action of the trace.  Spans and log output are left out. *)
From S2P Require Import Prelude Corev1 Monad Types UnitNames PodStore.
Import Str.

#[local] Arguments String.append !_ _ : simpl nomatch.

(** ** Errors, actions and state *)

(** What [errdefs] and [apierrors] tell errors apart by. *)
Inductive EClass := ENotFound | EConflict | EOther.
Record Err := { e_class : EClass; e_msg : string }.

Definition IsNotFound (e : Err) : bool := match e.(e_class) with ENotFound => true | _ => false end.
Definition IsConflict (e : Err) : bool := match e.(e_class) with EConflict => true | _ => false end.

Inductive PCErr :=
  | ErrListerFetch (key : string) (e : Err)
  | ErrProviderFetch (key : string) (e : Err)
  | ErrProviderDelete (name : string) (e : Err)
  | ErrProviderSync (name : string) (e : Err)
  | ErrSplitKey
  | ErrLookup (e : Err)
  | ErrK8sDelete (e : Err)
  | ErrK8sStatus (e : Err)
  | ErrPlain (e : Err).

Inductive QName := syncPodsFromKubernetes | deletePodsFromKubernetes | syncPodStatusFromProvider.

(** An action with its answer. *)
Inductive Act :=
  | AEnqueue (q : QName) (key : string)
  | AEnqueueNow (q : QName) (key : string)
  | AEnqueueAfter (q : QName) (key : string) (after : Duration)
  | AForget (q : QName) (key : string)
  | ALister (namespace name : string) (ans : Err + Pod)
  | AGetPod (namespace name : string) (ans : option Err * option Pod)
  | AGetPods (ans : Err + list Pod)
  | ACreatePod (pod : Pod) (err : option Err)
  | AUpdatePod (pod : Pod) (err : option Err)
  | ADeletePod (pod : Pod) (err : option Err)
  | AUpdateStatus (namespace : string) (pod : Pod) (err : option Err)
  | AK8sDelete (namespace name : string) (grace : option Z) (uid : option string) (err : option Err)
  | AEvent (pod : Pod) (eventType reason : string).

Abbreviation Trace := (list Act).

Record knownPod := {
  lastPodStatusReceivedFromProvider : option Pod;
  lastPodUsed : option Pod;
  lastPodStatusUpdateSkipped : bool;
}.

Definition newKnownPod : knownPod := {|
  lastPodStatusReceivedFromProvider := None; lastPodUsed := None; lastPodStatusUpdateSkipped := false |}.

(** [knownPods] maps a key to a pointer into [kp_heap]. *)
Record PCState := {
  pc_trace : Trace;
  knownPods : gmap string nat;
  kp_heap : list knownPod;
}.

(** [pe_polls] is the number of attempts that a poll makes before its context
    ends; [pe_others] is what the other goroutines do after an action. *)
Record PCEnv := {
  pe_now : Trace → Time;
  pe_MetaNamespaceKeyFunc : Pod → option string;
  pe_SplitMetaNamespaceKey : string → option (string * string);
  pe_lister : Trace → string → string → Err + Pod;
  pe_GetPod : Trace → string → string → option Err * option Pod;
  pe_GetPods : Trace → Err + list Pod;
  pe_CreatePod : Trace → Pod → option Err;
  pe_UpdatePod : Trace → Pod → option Err;
  pe_DeletePod : Trace → Pod → option Err;
  pe_UpdateStatus : Trace → string → Pod → option Err;
  pe_K8sDelete : Trace → string → string → option Err;
  pe_polls : Trace → nat;
  pe_others : Trace → PCState → PCState;
}.

(** The others extend the shared state only through the operations below; the
    trace of a handler is its own. *)
Definition withOthers (env : PCEnv) (s : PCState) : PCState :=
  let o := env.(pe_others) s.(pc_trace) s in
  {| s with knownPods := o.(knownPods); kp_heap := o.(kp_heap) |}.

(** ** Comparing pods *)

(** [podsEqual]: the fields that may change after a pod has started. *)
Definition podsEqual (pod1 pod2 : Pod) : bool :=
  bool_decide (pod1.(p_Containers) = pod2.(p_Containers)) &&
  bool_decide (pod1.(p_InitContainers) = pod2.(p_InitContainers)) &&
  bool_decide (pod1.(p_EphemeralContainers) = pod2.(p_EphemeralContainers)) &&
  bool_decide (pod1.(p_ActiveDeadlineSeconds) = pod2.(p_ActiveDeadlineSeconds)) &&
  bool_decide (pod1.(p_Tolerations) = pod2.(p_Tolerations)) &&
  bool_decide (pod1.(p_Labels) = pod2.(p_Labels)) &&
  bool_decide (pod1.(p_Annotations) = pod2.(p_Annotations)).

Definition deleteGraceTimeEqual (old new : option Z) : bool :=
  match old, new with
  | None, None => true
  | Some o, Some n => (o =? n)%Z
  | _, _ => false
  end.

Definition podShouldEnqueue (oldPod newPod : Pod) : bool :=
  if negb (podsEqual oldPod newPod) then true
  else if negb (deleteGraceTimeEqual oldPod.(p_DeletionGracePeriodSeconds) newPod.(p_DeletionGracePeriodSeconds))
  then true
  else negb (bool_decide (oldPod.(p_DeletionTimestamp) = newPod.(p_DeletionTimestamp))).

(** [podsEffectivelyEqual]: everything but the status and the resource version. *)
Definition podsEffectivelyEqual (p1 p2 : Pod) : bool :=
  bool_decide ({| p1 with p_ResourceVersion := ""; p_Status := zeroPodStatus |}
               = {| p2 with p_ResourceVersion := ""; p_Status := zeroPodStatus |}).

(** [running]: some container is neither terminated nor waiting. *)
Definition running (podStatus : PodStatus) : bool :=
  existsb (λ status, match status.(cs_State).(Terminated), status.(cs_State).(Waiting) with
                     | None, None => true
                     | _, _ => false
                     end) podStatus.(ps_ContainerStatuses).

Definition shouldSkipPodStatusUpdate (pod : Pod) : bool :=
  match pod.(p_Status).(ps_Phase) with PodSucceeded | PodFailed => true | _ => false end.

(** [key[:idx]] and [key[idx+1:]] at the last slash; [None] is the panic of
    [key[:-1]]. *)
Definition getUIDAndMetaNamespaceKey (key : string) : option (string * string) :=
  match last_index_byte key "/" with
  | Some idx => Some (sdrop (S idx) key, stake idx key)
  | None => None
  end.

(** The key of the deletion queue, [fmt.Sprintf("%v/%v", key, pod.UID)]. *)
Definition deletionKey (key uid : string) : string := key +:+ "/" +:+ uid.

Section Controller.
Context (env : PCEnv).

(** ** The informer's callbacks *)

(** The object an informer hands over. *)
Inductive Obj :=
  | ObjPod (pod : Pod)
  | ObjTombstone (key : string)
  | ObjOther.

Definition emit (s : PCState) (a : Act) : PCState := {| s with pc_trace := s.(pc_trace) ++ [a] |}.

(** [pc.knownPods.Store(key, &knownPod{})] *)
Definition storeKnown (s : PCState) (key : string) : PCState :=
  {| s with knownPods := <[key := length s.(kp_heap)]> s.(knownPods);
            kp_heap := s.(kp_heap) ++ [newKnownPod] |}.

Definition onKnown (s : PCState) (r : nat) (f : knownPod → knownPod) : PCState :=
  {| s with kp_heap := alter f r s.(kp_heap) |}.

Definition objKey (o : Obj) : option string :=
  match o with ObjPod p => env.(pe_MetaNamespaceKeyFunc) p | _ => None end.

(** [cache.DeletionHandlingMetaNamespaceKeyFunc] *)
Definition deletionObjKey (o : Obj) : option string :=
  match o with ObjTombstone key => Some key | o => objKey o end.

Definition AddFunc (o : Obj) (s : PCState) : PCState :=
  match objKey o with
  | None => s
  | Some key => emit (storeKnown s key) (AEnqueue syncPodsFromKubernetes key)
  end.

(** The condition under which a skipped status is sent again, read through the
    pointer [lastPodStatusReceivedFromProvider]; [None] is the panic of a nil
    pointer. *)
Definition skippedDiffers (kPod : knownPod) (newPod : Pod) : option bool :=
  if kPod.(lastPodStatusUpdateSkipped) then
    match kPod.(lastPodStatusReceivedFromProvider) with
    | None => None
    | Some last => Some (negb (bool_decide (newPod.(p_Status) = last.(p_Status)))
                         || negb (bool_decide (newPod.(p_Annotations) = last.(p_Annotations)))
                         || negb (bool_decide (newPod.(p_Labels) = last.(p_Labels)))
                         || negb (bool_decide (newPod.(p_Finalizers) = last.(p_Finalizers))))
    end
  else Some false.

(** [None] is a panic. *)
Definition UpdateFunc (oldObj newObj : Obj) (s : PCState) : option PCState :=
  match oldObj, newObj with
  | ObjPod oldPod, ObjPod newPod =>
      match env.(pe_MetaNamespaceKeyFunc) newPod with
      | None => Some s
      | Some key =>
          r ← s.(knownPods) !! key;
          kPod ← s.(kp_heap) !! r;
          differs ← skippedDiffers kPod newPod;
          let s := if (differs : bool)
                   then onKnown (emit s (AEnqueue syncPodStatusFromProvider key)) r
                          (λ k, {| k with lastPodStatusUpdateSkipped := false |})
                   else s in
          Some (if podShouldEnqueue oldPod newPod then emit s (AEnqueue syncPodsFromKubernetes key) else s)
      end
  | _, _ => Some s
  end.

Definition DeleteFunc (o : Obj) (s : PCState) : PCState :=
  match deletionObjKey o, o with
  | Some key, ObjPod k8sPod =>
      let s := emit {| s with knownPods := delete key s.(knownPods) |} (AEnqueue syncPodsFromKubernetes key) in
      emit s (AForget deletePodsFromKubernetes (deletionKey key k8sPod.(p_UID)))
  | _, _ => s
  end.

Definition RequestSync (namespace name : string) (s : PCState) : PCState :=
  emit s (AEnqueue syncPodsFromKubernetes (namespace +:+ "/" +:+ name)).

(** ** Calls *)

Abbreviation PM E := (SE PCState E).

Definition callP {E A} (answer : Trace → A) (record : A → Act) : PM E A := λ s,
  let a := answer s.(pc_trace) in (withOthers env (emit s (record a)), inr a).

Definition doP {E} (a : Act) : PM E () := callP (λ _, tt) (λ _, a).

Definition Lister {E} (namespace name : string) : PM E (Err + Pod) :=
  callP (λ t, env.(pe_lister) t namespace name) (ALister namespace name).

Definition ProviderGetPod {E} (namespace name : string) : PM E (option Err * option Pod) :=
  callP (λ t, env.(pe_GetPod) t namespace name) (AGetPod namespace name).

Definition ProviderDeletePod {E} (pod : Pod) : PM E (option Err) :=
  callP (λ t, env.(pe_DeletePod) t pod) (ADeletePod pod).

Definition UpdateStatus {E} (namespace : string) (pod : Pod) : PM E (option Err) :=
  callP (λ t, env.(pe_UpdateStatus) t namespace pod) (AUpdateStatus namespace pod).

Definition K8sDelete {E} (namespace name : string) (grace : option Z) (uid : option string) : PM E (option Err) :=
  callP (λ t, env.(pe_K8sDelete) t namespace name) (AK8sDelete namespace name grace uid).

(** ** Statuses from the provider *)

(** The poll for the entry of [key]: [Some r] when it is there, [None] when the
    lister fails or the context ends first. *)
Fixpoint pollKnown {E} (attempts : nat) (pod : Pod) (key : string) : PM E (option nat) :=
  match attempts with
  | O => mret None
  | S attempts =>
      m ← gets knownPods;
      match m !! key with
      | Some r => mret (Some r)
      | None =>
          ans ← Lister pod.(p_Namespace) pod.(p_Name);
          match ans with
          | inl _ => mret None
          | inr _ => pollKnown attempts pod key
          end
      end
  end.

(** The part of [enqueuePodStatusUpdate] that runs under the lock of the entry. *)
Definition receiveStatus (r : nat) (key : string) (pod : Pod) (s : PCState) : PCState :=
  match s.(kp_heap) !! r with
  | None => s
  | Some kpod =>
      if bool_decide (kpod.(lastPodStatusReceivedFromProvider) = Some pod)
      then onKnown s r (λ k, {| k with lastPodStatusUpdateSkipped := true |})
      else emit (onKnown s r (λ k, {| k with lastPodStatusUpdateSkipped := false;
                                             lastPodStatusReceivedFromProvider := Some pod |}))
                (AEnqueue syncPodStatusFromProvider key)
  end.

Definition enqueuePodStatusUpdate {E} (pod : Pod) : PM E () :=
  match env.(pe_MetaNamespaceKeyFunc) pod with
  | None => mret tt
  | Some key =>
      t ← gets pc_trace;
      found ← pollKnown (env.(pe_polls) t) pod key;
      match found with
      | None => mret tt
      | Some r => modifyS (receiveStatus r key pod)
      end
  end.

(** ** Statuses to the API server *)

(** [podFromProvider.DeletionTimestamp.Before(&current)] clears the grace period. *)
Definition providerGrace (podFromProvider : Pod) (current : Time) : option Z :=
  match podFromProvider.(p_DeletionTimestamp) with
  | Some t => if (t <? current)%Z then Some 0%Z else podFromProvider.(p_DeletionGracePeriodSeconds)
  | None => podFromProvider.(p_DeletionGracePeriodSeconds)
  end.

(** [err != nil && !errors.IsNotFound(err)] *)
Definition realErr (err : option Err) : option Err :=
  match err with
  | Some e => if IsNotFound e then None else Some e
  | None => None
  end.

(** A pod that the provider has deleted is deleted in the API server too. *)
Definition propagateDeletion (podFromKubernetes podFromProvider : Pod) : PM PCErr () :=
  match podFromProvider.(p_DeletionTimestamp), podFromKubernetes.(p_DeletionTimestamp) with
  | Some _, None =>
      current ← gets (λ s, env.(pe_now) s.(pc_trace));
      if bool_decide (podFromKubernetes.(p_Status) = podFromProvider.(p_Status)) then
        err ← K8sDelete podFromKubernetes.(p_Namespace) podFromKubernetes.(p_Name)
                (providerGrace podFromProvider current) None;
        match realErr err with
        | Some e => throw (ErrK8sDelete e)
        | None => mret tt
        end
      else mret tt
  | _, _ => mret tt
  end.

Definition updatePodStatus (podFromKubernetes : Pod) (key : string) : PM PCErr () :=
  if shouldSkipPodStatusUpdate podFromKubernetes then mret tt
  else
    found ← gets (λ s, r ← s.(knownPods) !! key; s.(kp_heap) !! r);
    match found with
    | None => mret tt
    | Some kPod =>
        match kPod.(lastPodStatusReceivedFromProvider) with
        | None => mret tt
        | Some podFromProvider =>
            if bool_decide (podFromProvider.(p_UID) ≠ podFromKubernetes.(p_UID)) then mret tt
            else
              _ ← propagateDeletion podFromKubernetes podFromProvider;
              err ← UpdateStatus podFromKubernetes.(p_Namespace) {| podFromProvider with p_ResourceVersion := "0" |};
              match realErr err with
              | Some e =>
                  _ ← doP (AEvent podFromKubernetes "Warning" "StatusUpdateFailed");
                  throw (ErrK8sStatus e)
              | None => mret tt
              end
        end
    end.

Definition syncPodStatusFromProviderHandler (key : string) : PM PCErr () :=
  match env.(pe_SplitMetaNamespaceKey) key with
  | None => throw ErrSplitKey
  | Some (namespace, name) =>
      ans ← Lister namespace name;
      match ans with
      | inl e => if IsNotFound e then mret tt else throw (ErrLookup e)
      | inr pod => updatePodStatus pod key
      end
  end.

(** ** Pods to the provider *)

Definition handleProviderError (origErr : Err) (pod : Pod) : PM Err () :=
  let podPhase := match pod.(p_RestartPolicy) with RestartPolicyNever => PodFailed | _ => PodPending end in
  _ ← doP (AEvent pod "Warning" "ProviderError");
  let st := pod.(p_Status) in
  let pod := {| pod with p_ResourceVersion := "";
                p_Status := {| st with ps_Phase := podPhase; ps_Reason := "PerigeosFailed";
                                       ps_Message := origErr.(e_msg) |} |} in
  err ← UpdateStatus pod.(p_Namespace) pod;
  match err with
  | Some _ => doP (AEvent pod "Warning" "StatusUpdateFailed")
  | None => mret tt
  end.

(** What [createOrUpdatePod] does with the provider's answer to [op]. *)
Definition providerDone (pod : Pod) (origErr : option Err) (failed success : string) : PM Err () :=
  match origErr with
  | Some e =>
      _ ← handleProviderError e pod;
      _ ← doP (AEvent pod "Warning" failed);
      throw e
  | None => doP (AEvent pod "Normal" success)
  end.

Definition createOrUpdatePod (pod : Pod) : PM Err () :=
  ans ← ProviderGetPod pod.(p_Namespace) pod.(p_Name);
  match ans.2 with
  | Some podFromProvider =>
      if podsEqual podFromProvider pod then mret tt
      else
        err ← callP (λ t, env.(pe_UpdatePod) t pod) (AUpdatePod pod);
        providerDone pod err "UpdateFailed" "Update"
  | None =>
      err ← callP (λ t, env.(pe_CreatePod) t pod) (ACreatePod pod);
      providerDone pod err "CreateFailed" "Create"
  end.

(** The state of a container of a deleted pod. *)
Definition terminatedStatus (now : Time) (cs : ContainerStatus) : ContainerStatus :=
  let startedAt := match cs.(cs_State).(Running) with Some r => r.(r_StartedAt) | None => 0%Z end in
  {| cs with cs_State := {| Waiting := None; Running := None;
       Terminated := Some {| t_ExitCode := 0; t_Reason := "Terminated";
         t_Message := "Container was terminated. The exit code may not reflect the real exit code";
         t_StartedAt := startedAt; t_FinishedAt := now |} |} |}.

Definition terminatedPod (now : Time) (pod : Pod) : Pod :=
  let st := pod.(p_Status) in
  {| pod with p_Status := {| st with ps_Phase := PodSucceeded; ps_Reason := "Terminated";
       ps_ContainerStatuses := map (terminatedStatus now) st.(ps_ContainerStatuses) |} |}.

Definition deletePod (pod : Pod) : PM Err () :=
  err ← ProviderDeletePod pod;
  match err with
  | Some e => _ ← doP (AEvent pod "Warning" "DeleteFailed"); throw e
  | None =>
      now ← gets (λ s, env.(pe_now) s.(pc_trace));
      _ ← whenM (negb (shouldSkipPodStatusUpdate pod)) (enqueuePodStatusUpdate (terminatedPod now pod));
      doP (AEvent pod "Normal" "Delete")
  end.

Definition loggablePodName (pod : Pod) : string := default "(unknown)" (env.(pe_MetaNamespaceKeyFunc) pod).

(** The body of [syncPodInProvider] after the checks of the entry. *)
Definition reconcilePod (pod : Pod) (key : string) : PM PCErr () :=
  match pod.(p_DeletionTimestamp) with
  | Some _ =>
      r ← handled (deletePod pod);
      match r with
      | inl e => if IsNotFound e then mret tt else throw (ErrProviderDelete (loggablePodName pod) e)
      | inr _ => mret tt
      end ≫= λ _,
      let gracePeriod := default 0%Z pod.(p_DeletionGracePeriodSeconds) in
      doP (AEnqueueAfter deletePodsFromKubernetes (deletionKey key pod.(p_UID)) (wrap64 (Second * gracePeriod)))
  | None =>
      known ← (if shouldSkipPodStatusUpdate pod
               then ans ← ProviderGetPod pod.(p_Namespace) pod.(p_Name); mret (bool_decide (is_Some ans.2))
               else mret false);
      if (known : bool) then mret tt
      else mapErr (ErrProviderSync (loggablePodName pod)) (createOrUpdatePod pod)
  end.

Definition syncPodInProvider (pod : Pod) (key : string) : PM PCErr () :=
  if bool_decide (is_Some pod.(p_DeletionTimestamp)) && negb (running pod.(p_Status)) then
    doP (AEnqueueNow deletePodsFromKubernetes (deletionKey key pod.(p_UID)))
  else
    found ← gets (λ s, r ← s.(knownPods) !! key; k ← s.(kp_heap) !! r; Some (r, k));
    match found with
    | None => mret tt
    | Some (r, kPod) =>
        if match kPod.(lastPodUsed) with Some used => podsEffectivelyEqual used pod | None => false end
        then mret tt
        else
          _ ← reconcilePod pod key;
          modifyS (λ s, onKnown s r (λ k, {| k with lastPodUsed := Some pod |}))
    end.

Definition syncPodFromKubernetesHandler (key : string) : PM PCErr () :=
  match env.(pe_SplitMetaNamespaceKey) key with
  | None => mret tt
  | Some (namespace, name) =>
      ans ← Lister namespace name;
      match ans with
      | inr pod => syncPodInProvider pod key
      | inl e =>
          if negb (IsNotFound e) then throw (ErrListerFetch key e)
          else
            got ← ProviderGetPod namespace name;
            match got with
            | (Some e, _) => if IsNotFound e then mret tt else throw (ErrProviderFetch key e)
            | (None, None) => mret tt
            | (None, Some pod) =>
                err ← ProviderDeletePod pod;
                match err with
                | None => mret tt
                | Some e =>
                    if IsNotFound e then mret tt
                    else
                      _ ← doP (AEvent pod "Warning" "FailedSync");
                      throw (ErrProviderDelete (namespace +:+ "/" +:+ name) e)
                end
            end
      end
  end.

(** ** Forced deletion, pods left over at the start *)

(** [None] is the panic on a key without a slash, before anything is done. *)
Definition deletePodsFromKubernetesHandler (key : string) : option (PM PCErr ()) :=
  match getUIDAndMetaNamespaceKey key with
  | None => None
  | Some (uid, metaKey) => Some (
      match env.(pe_SplitMetaNamespaceKey) metaKey with
      | None => mret tt
      | Some (namespace, name) =>
          ans ← Lister namespace name;
          match ans with
          | inl e => if IsNotFound e then mret tt else throw (ErrPlain e)
          | inr k8sPod =>
              if bool_decide (k8sPod.(p_UID) ≠ uid) then mret tt
              else
                err ← K8sDelete namespace name (Some 0%Z) (Some uid);
                match err with
                | None => mret tt
                | Some e =>
                    if IsNotFound e || IsConflict e then mret tt
                    else
                      _ ← doP (AEvent k8sPod "Warning" "ForceDeleteFailed");
                      throw (ErrPlain e)
                end
          end
      end)
  end.

(** The pods of the provider that the lister does not know; [None] when the
    lister fails otherwise. *)
Fixpoint danglingPods {E} (pps : list Pod) : PM E (option (list Pod)) :=
  match pps with
  | [] => mret (Some [])
  | pp :: pps =>
      ans ← Lister pp.(p_Namespace) pp.(p_Name);
      match ans with
      | inr _ => danglingPods pps
      | inl e =>
          if IsNotFound e then rest ← danglingPods pps; mret (cons pp <$> rest) else mret None
      end
  end.

(** One goroutine per pod; the model runs them in the order of the list. *)
Definition deleteDanglingPods : PM PCErr () :=
  ans ← callP (λ t, env.(pe_GetPods) t) AGetPods;
  match ans with
  | inl _ => mret tt
  | inr pps =>
      ptd ← danglingPods pps;
      match ptd with
      | None => mret tt
      | Some ptd =>
          forM ptd (λ pod,
            err ← ProviderDeletePod pod;
            match realErr err with
            | Some _ => doP (AEvent pod "Warning" "FailedDeleteDangling")
            | None => mret tt
            end)
      end
  end.

(** The callback of the sync queue when it gives up on a key. *)
Definition onForget (key : string) : PM PCErr () :=
  match env.(pe_SplitMetaNamespaceKey) key with
  | None => mret tt
  | Some (namespace, name) =>
      ans ← Lister namespace name;
      match ans with
      | inl _ => mret tt
      | inr pod => doP (AEvent pod "Warning" "SyncRetriesExhausted")
      end
  end.

End Controller.

(** ** Traces of a computation *)

(** [m] appends a trace to the one it is given, and the trace and the result
    satisfy [Q]. *)
Definition appends {E A} (m : SE PCState E A) (Q : Trace → E + A → Prop) : Prop :=
  ∀ s, ∃ new, (m s).1.(pc_trace) = s.(pc_trace) ++ new ∧ Q new (m s).2.

Section Appends.
Context (env : PCEnv) {E : Type}.

Lemma appends_ret {A} (a : A) (Q : Trace → E + A → Prop) : Q [] (inr a) → appends (mret a) Q.
Proof. intros H s. exists []. by rewrite (right_id_L [] (++)). Qed.

Lemma appends_throw {A} (e : E) (Q : Trace → E + A → Prop) : Q [] (inl e) → appends (throw e) Q.
Proof. intros H s. exists []. by rewrite (right_id_L [] (++)). Qed.

Lemma appends_bind {A B} (m : SE PCState E A) (f : A → SE PCState E B) Qm (Q : Trace → E + B → Prop) :
  appends m Qm → (∀ new e, Qm new (inl e) → Q new (inl e)) →
  (∀ new a, Qm new (inr a) → appends (f a) (λ new', Q (new ++ new'))) → appends (m ≫= f) Q.
Proof.
  intros Hm He Hf s. destruct (Hm s) as (new & Htr & HQ). unfold mbind, SE_bind.
  destruct (m s) as [s1 [e|a]]; cbn [fst snd] in *; [by eauto|].
  destruct (Hf new a HQ s1) as (new' & Htr' & HQ'). exists (new ++ new').
  rewrite Htr', Htr. by rewrite List.app_assoc.
Qed.

Lemma appends_call_bind {A B} (answer : Trace → A) record (f : A → SE PCState E B) (Q : Trace → E + B → Prop) :
  (∀ a, appends (f a) (λ new, Q (record a :: new))) → appends (callP env answer record ≫= f) Q.
Proof.
  intros H s. unfold mbind, SE_bind, callP. cbn beta iota zeta.
  destruct (H (answer s.(pc_trace)) (withOthers env (emit s (record (answer s.(pc_trace)))))) as (new & Htr & HQ).
  eexists (_ :: new). split; [|exact HQ]. rewrite Htr. cbn. by rewrite <-List.app_assoc.
Qed.

(** The same, keeping where the answer comes from. *)
Lemma appends_answer_bind {A B} (answer : Trace → A) record (f : A → SE PCState E B) (Q : Trace → E + B → Prop) a :
  (∀ t, answer t = a) → appends (f a) (λ new, Q (record a :: new)) → appends (callP env answer record ≫= f) Q.
Proof.
  intros Ha H s. unfold mbind, SE_bind, callP. rewrite Ha. cbn beta iota zeta.
  destruct (H (withOthers env (emit s (record a)))) as (new & Htr & HQ).
  eexists (_ :: new). split; [|exact HQ]. rewrite Htr. cbn. by rewrite <-List.app_assoc.
Qed.

Lemma appends_call {A} (answer : Trace → A) record (Q : Trace → E + A → Prop) :
  (∀ a, Q [record a] (inr a)) → appends (callP env answer record) Q.
Proof. intros H s. exists [record (answer s.(pc_trace))]. split; [done|apply H]. Qed.

Lemma appends_gets_bind {A B} (g : PCState → A) (f : A → SE PCState E B) Q :
  (∀ a, appends (f a) Q) → appends (gets g ≫= f) Q.
Proof. intros H s. apply (H (g s) s). Qed.

Lemma appends_modify (g : PCState → PCState) (Q : Trace → E + () → Prop) :
  (∀ s, (g s).(pc_trace) = s.(pc_trace)) → Q [] (inr tt) → appends (modifyS g) Q.
Proof. intros Hg H s. exists []. cbn. by rewrite Hg, (right_id_L [] (++)). Qed.

Lemma appends_conseq {A} (m : SE PCState E A) (Q Q' : Trace → E + A → Prop) :
  appends m Q' → (∀ new r, Q' new r → Q new r) → appends m Q.
Proof. intros Hm H s. destruct (Hm s) as (new & ? & ?). eauto. Qed.

Lemma appends_handled {F A} (m : SE PCState E A) (Q : Trace → F + (E + A) → Prop) :
  appends m (λ new r, Q new (inr r)) → appends (handled m) Q.
Proof. intros Hm s. destruct (Hm s) as (new & Htr & HQ). exists new. unfold handled. by destruct (m s). Qed.

Lemma appends_mapErr {F A} (g : E → F) (m : SE PCState E A) (Q : Trace → F + A → Prop) :
  appends m (λ new r, Q new match r with inl e => inl (g e) | inr a => inr a end) → appends (mapErr g m) Q.
Proof.
  intros Hm s. destruct (Hm s) as (new & Htr & HQ). exists new. unfold mapErr.
  by destruct (m s) as [s1 [e|a]].
Qed.
End Appends.

(** What a poll and a notification append: lookups, and one enqueue at most. *)
Definition quiet (a : Act) : Prop :=
  match a with ALister _ _ _ | AEnqueue syncPodStatusFromProvider _ => True | _ => False end.

Lemma pollKnown_quiet env {E} n pod key : appends (E:=E) (pollKnown env n pod key) (λ new _, Forall quiet new).
Proof.
  induction n as [|n IH]; cbn [pollKnown]; [by apply appends_ret|].
  apply appends_gets_bind. intros m. destruct (m !! key); [by apply appends_ret|].
  apply appends_call_bind. intros [e|p]; [by apply appends_ret; repeat constructor|].
  eapply appends_conseq; [apply IH|]. by constructor.
Qed.

Lemma enqueuePodStatusUpdate_quiet env {E} pod :
  appends (E:=E) (enqueuePodStatusUpdate env pod) (λ new r, Forall quiet new ∧ r = inr tt).
Proof.
  unfold enqueuePodStatusUpdate. destruct (pe_MetaNamespaceKeyFunc env pod) as [key|]; [|by apply appends_ret].
  apply appends_gets_bind. intros t.
  intros s. unfold mbind, SE_bind.
  destruct (pollKnown_quiet env (E:=E) (pe_polls env t) pod key s) as (new & Htr & Hq).
  assert (∀ s0 e, (pollKnown env (E:=E) (pe_polls env t) pod key s0).2 ≠ inl e) as Hne.
  { clear. induction (pe_polls env t) as [|n IH]; intros s0 e; cbn [pollKnown]; [done|].
    unfold mbind, SE_bind, gets, Lister, callP. destruct (knownPods s0 !! key); [done|].
    destruct (pe_lister env _ _ _); [done|apply IH]. }
  specialize (Hne s). destruct (pollKnown env (pe_polls env t) pod key s) as [s1 [e|[r|]]]; cbn [fst snd] in *.
  - by destruct (Hne e).
  - unfold modifyS, receiveStatus. cbn. destruct (kp_heap s1 !! r) as [kpod|]; [|by exists new].
    case_bool_decide; [by exists new|].
    exists (new ++ [AEnqueue syncPodStatusFromProvider key]). cbn. rewrite Htr, List.app_assoc.
    split_and!; [done|apply Forall_app; by repeat constructor|done].
  - by exists new.
Qed.

(** One step of the symbolic execution of a handler. *)
Ltac app_step :=
  match goal with
  | |- appends (mret _) _ => apply appends_ret
  | |- appends (throw _) _ => apply appends_throw
  | |- appends (callP _ _ _ ≫= _) _ => apply appends_call_bind; intros ?
  | |- appends (doP _ _ ≫= _) _ => apply appends_call_bind; intros []
  | |- appends (Lister _ _ _ ≫= _) _ => apply appends_call_bind; intros ?
  | |- appends (ProviderGetPod _ _ _ ≫= _) _ => apply appends_call_bind; intros [? ?]
  | |- appends (ProviderDeletePod _ _ ≫= _) _ => apply appends_call_bind; intros ?
  | |- appends (UpdateStatus _ _ _ ≫= _) _ => apply appends_call_bind; intros ?
  | |- appends (K8sDelete _ _ _ _ _ ≫= _) _ => apply appends_call_bind; intros ?
  | |- appends (doP _ _) _ => apply appends_call; intros []
  | |- appends (gets _ ≫= _) _ => apply appends_gets_bind; intros ?
  | |- appends (mapErr _ _) _ => apply appends_mapErr
  | |- appends (modifyS _) _ => apply appends_modify; [done|]
  | |- appends (if ?b then _ else _) _ => let H := fresh "Hb" in destruct b eqn:H
  | |- appends (match ?x with _ => _ end) _ => let H := fresh "Hm" in destruct x eqn:H
  end.
Ltac app_walk := repeat (app_step; cbn beta iota zeta).

(** ** What the sync handler does to the provider *)

(** The reason for each action of a run of the sync handler that appended
    [new]: the answers that the run itself received. *)
Definition justified (key namespace name : string) (new : Trace) (a : Act) : Prop :=
  match a with
  | ACreatePod p _ =>
      ALister namespace name (inr p) ∈ new ∧ p.(p_DeletionTimestamp) = None ∧
      ∃ e, AGetPod p.(p_Namespace) p.(p_Name) (e, None) ∈ new
  | AUpdatePod p _ =>
      ALister namespace name (inr p) ∈ new ∧ p.(p_DeletionTimestamp) = None ∧
      ∃ e q, AGetPod p.(p_Namespace) p.(p_Name) (e, Some q) ∈ new ∧ podsEqual q p = false
  | ADeletePod p _ =>
      (∃ e, ALister namespace name (inl e) ∈ new ∧ IsNotFound e = true ∧
            AGetPod namespace name (None, Some p) ∈ new) ∨
      (ALister namespace name (inr p) ∈ new ∧ is_Some p.(p_DeletionTimestamp) ∧ running p.(p_Status) = true)
  | AEnqueueNow q k | AEnqueueAfter q k _ =>
      q = deletePodsFromKubernetes ∧
      ∃ p, ALister namespace name (inr p) ∈ new ∧ is_Some p.(p_DeletionTimestamp) ∧ k = deletionKey key p.(p_UID)
  | AUpdateStatus ns p _ =>
      ∃ p0 e, (ACreatePod p0 (Some e) ∈ new ∨ AUpdatePod p0 (Some e) ∈ new) ∧ ns = p0.(p_Namespace) ∧
        p.(p_UID) = p0.(p_UID) ∧ p.(p_Status).(ps_Message) = e.(e_msg) ∧
        p.(p_Status).(ps_Phase) = match p0.(p_RestartPolicy) with RestartPolicyNever => PodFailed | _ => PodPending end
  | AK8sDelete _ _ _ _ _ | AForget _ _ | AGetPods _ => False
  | _ => True
  end.

(** The calls that change the provider's pods. *)
Definition mutates (a : Act) : bool :=
  match a with ACreatePod _ _ | AUpdatePod _ _ | ADeletePod _ _ => true | _ => false end.

Definition mutations (new : Trace) : list Act := List.filter mutates new.

Lemma mutations_cons a l : mutations (a :: l) = if mutates a then a :: mutations l else mutations l.
Proof. done. Qed.

Lemma quiet_justified key ns n l new : Forall quiet l → Forall (justified key ns n new) l.
Proof. intros H. apply (Forall_impl _ _ _ H). intros [[] ?| | | | | | | | | | | |]; cbn; tauto. Qed.

Lemma quiet_mutations l : Forall quiet l → mutations l = [].
Proof. unfold mutations. induction 1 as [|[] l H _ IH]; cbn in *; try done. Qed.

Ltac by_elem := intros; repeat first [done | rewrite elem_of_cons | rewrite elem_of_app | rewrite list_elem_of_singleton]; tauto.
Ltac justify :=
  split; [rewrite ?Forall_app, ?Forall_cons, ?Forall_nil; split_and?; try exact I; cbn [justified]|];
  eauto 10 using quiet_justified.

Definition sync_ok {E} (key ns n : string) (new : Trace) (r : E) : Prop :=
  Forall (justified key ns n new) new ∧ length (mutations new) ≤ 1.

(** The events and the status with which a failed provider call is reported. *)
Definition reports (pod : Pod) (err : option Err) (a : Act) : Prop :=
  match a with
  | AEvent _ _ _ => True
  | AUpdateStatus ns p _ => ∃ e, err = Some e ∧ ns = pod.(p_Namespace) ∧ p.(p_UID) = pod.(p_UID) ∧
      p.(p_Status).(ps_Message) = e.(e_msg) ∧
      p.(p_Status).(ps_Phase) = match pod.(p_RestartPolicy) with RestartPolicyNever => PodFailed | _ => PodPending end
  | _ => False
  end.

Lemma reports_mutations pod err l : Forall (reports pod err) l → mutations l = [].
Proof. unfold mutations. induction 1 as [|[] l H _ IH]; cbn in *; try done. Qed.

Lemma handleProviderError_appends env e pod :
  appends (handleProviderError env e pod) (λ new _, Forall (reports pod (Some e)) new).
Proof. unfold handleProviderError. app_walk; repeat (constructor; [cbn; by eauto 10|]); constructor. Qed.

Lemma providerDone_appends env pod err failed success :
  appends (providerDone env pod err failed success) (λ new _, Forall (reports pod err) new).
Proof.
  unfold providerDone. destruct err as [e|]; [|app_walk; by repeat constructor].
  eapply appends_bind; [apply handleProviderError_appends|done|].
  intros new [] Hf. app_walk. apply Forall_app. split; [exact Hf|by repeat constructor].
Qed.

Lemma reports_justified key ns n pod err new l :
  (∀ e, err = Some e → ACreatePod pod (Some e) ∈ new ∨ AUpdatePod pod (Some e) ∈ new) →
  Forall (reports pod err) l → Forall (justified key ns n new) l.
Proof.
  intros Hin H. apply (Forall_impl _ _ _ H). intros []; cbn; try tauto.
  intros (e & -> & ?). exists pod, e. by auto.
Qed.

Lemma justified_mono key ns n new new' a : (∀ b, b ∈ new → b ∈ new') → justified key ns n new a → justified key ns n new' a.
Proof. intros H. destruct a; cbn; try done; naive_solver. Qed.

(** A run so far, without a change of the provider's pods. *)
Definition sync_pre (key ns n : string) (pre : Trace) : Prop :=
  Forall (justified key ns n pre) pre ∧ mutations pre = [].

Lemma sync_pre_app key ns n pre l :
  sync_pre key ns n pre → Forall (justified key ns n (pre ++ l)) l → length (mutations l) ≤ 1 →
  sync_ok (E:=PCErr + ()) key ns n (pre ++ l) (inr tt).
Proof.
  intros [Hj Hm] Hl Hle. split.
  - apply Forall_app. split; [|done]. apply (Forall_impl _ _ _ Hj). intros a. apply justified_mono. by_elem.
  - unfold mutations in *. by rewrite List.filter_app, Hm.
Qed.

Lemma createOrUpdatePod_ok env key ns n pod pre :
  ALister ns n (inr pod) ∈ pre → pod.(p_DeletionTimestamp) = None → sync_pre key ns n pre →
  appends (createOrUpdatePod env pod) (λ new _, sync_ok (E:=PCErr + ()) key ns n (pre ++ new) (inr tt)).
Proof.
  intros Hin Hd Hpre. unfold createOrUpdatePod. app_walk.
  - apply sync_pre_app; [done|by apply Forall_singleton|cbn; lia].
  - eapply appends_conseq; [apply providerDone_appends|]. intros new r Hr. apply sync_pre_app; [done| |].
    + apply Forall_cons. split; [done|]. apply Forall_cons. split.
      * cbn [justified]. split_and!; [by_elem|done|]. cbn in *. subst. do 2 eexists. split; [by_elem|done].
      * eapply reports_justified; [|exact Hr]. intros e ->. by_elem.
    + rewrite !mutations_cons, (reports_mutations _ _ _ Hr). cbn. lia.
  - eapply appends_conseq; [apply providerDone_appends|]. intros new r Hr. apply sync_pre_app; [done| |].
    + apply Forall_cons. split; [done|]. apply Forall_cons. split.
      * cbn [justified]. split_and!; [by_elem|done|]. cbn in *. subst. eexists. by_elem.
      * eapply reports_justified; [|exact Hr]. intros e ->. by_elem.
    + rewrite !mutations_cons, (reports_mutations _ _ _ Hr). cbn. lia.
Qed.

Lemma deletePod_appends env pod :
  appends (deletePod env pod) (λ new _, ∃ err l, new = ADeletePod pod err :: l ∧ mutations l = [] ∧
    ∀ key ns n all, Forall (justified key ns n all) l).
Proof.
  unfold deletePod. app_step. app_step.
  - app_walk. eexists _, _. split; [reflexivity|]. by repeat constructor.
  - app_step. eapply appends_bind with (Qm := λ new r, Forall quiet new ∧ r = inr tt).
    + unfold whenM. destruct (negb _); [apply enqueuePodStatusUpdate_quiet|by app_walk].
    + by intros new e [_ [=]].
    + intros new [] [Hq _]. app_walk. eexists _, _. split; [reflexivity|].
      unfold mutations. rewrite List.filter_app. setoid_rewrite (quiet_mutations _ Hq). split; [done|].
      intros. apply Forall_app. split; [by apply quiet_justified|by repeat constructor].
Qed.

Lemma sync_pre_quiet key ns n l : Forall (λ a, match a with ALister _ _ _ | AGetPod _ _ _ => True | _ => False end) l →
  sync_pre key ns n l.
Proof.
  intros H. split; [apply (Forall_impl _ _ _ H); by intros []|].
  unfold mutations. induction H as [|[] l Ha _ IH]; cbn in *; try done.
Qed.

Lemma reconcilePod_ok env key ns n pod :
  (is_Some pod.(p_DeletionTimestamp) → running pod.(p_Status) = true) →
  appends (reconcilePod env pod key) (λ new _,
    sync_ok (E:=PCErr + ()) key ns n (ALister ns n (inr pod) :: new) (inr tt)).
Proof.
  intros Hrun. set (pre := [ALister ns n (inr pod)]).
  assert (sync_pre key ns n pre) as Hpre by (apply sync_pre_quiet; by repeat constructor).
  assert (ALister ns n (inr pod) ∈ pre) as Hin by constructor.
  unfold reconcilePod. destruct (p_DeletionTimestamp pod) as [t|] eqn:Hd.
  - set (Q := λ (new : Trace), ∃ err l, new = ADeletePod pod err :: l ∧ mutations l = [] ∧
      ∀ key ns n all, Forall (justified key ns n all) l).
    assert (∀ new l', Q new → mutations l' = [] → Forall (justified key ns n (pre ++ new ++ l')) l' →
      sync_ok (E:=PCErr + ()) key ns n (pre ++ new ++ l') (inr tt)) as Hok.
    { intros new l' (err & l & -> & Hm & Hl) Hm' Hl'. apply sync_pre_app; [done| |].
      - apply Forall_cons. split; [|apply Forall_app; by split; [apply Hl|]].
        cbn [justified]. right. rewrite Hd. split_and!; [by_elem|by eauto|by apply Hrun; eauto].
      - unfold mutations in *. cbn. rewrite List.filter_app, Hm, Hm'. cbn. lia. }
    eapply (appends_bind _ _ (λ new r, Q new ∧ ∃ a, r = inr a)).
    { apply appends_handled. eapply appends_conseq; [apply deletePod_appends|]. intros new r H. by eauto. }
    { by intros new e [_ [? [=]]]. }
    intros new r [Hnew _].
    eapply (appends_bind _ _ (λ l _, l = [])); [by repeat app_step| |].
    + intros ? e ->. by apply Hok.
    + intros ? [] ->. apply appends_call. intros []. apply Hok; [done|done|].
      apply Forall_singleton. cbn [justified]. split; [done|]. exists pod. rewrite Hd. split_and!; [by_elem|by eauto|done].
  - eapply (appends_bind _ _ (λ l r, Forall (λ a, match a with ALister _ _ _ | AGetPod _ _ _ => True | _ => False end) l
                                     ∧ ∃ b, r = inr b)).
    + app_walk; (split; [by repeat constructor|by eauto]).
    + by intros new e [_ [? [=]]].
    + intros new known [Hl _].
      assert (sync_pre key ns n (pre ++ new)) as Hpre' by (apply sync_pre_quiet, Forall_app; by split; [repeat constructor|]).
      destruct known; [apply appends_ret|apply appends_mapErr].
      * rewrite (right_id_L [] (++)). destruct Hpre' as [H1 H2]. split; [exact H1|]. unfold pre in H2. cbn [app] in H2.
        rewrite H2. cbn. lia.
      * eapply appends_conseq; [apply (createOrUpdatePod_ok env key ns n pod (pre ++ new)); [by_elem|done|done]|].
        by intros new' r H.
Qed.

Lemma sync_ok_nil {E} key ns n new (r : E) :
  Forall (λ a, match a with ALister _ _ _ | AGetPod _ _ _ | AEvent _ _ _ => True | _ => False end) new → sync_ok key ns n new r.
Proof.
  intros H. split; [apply (Forall_impl _ _ _ H); by intros []|].
  unfold mutations. induction H as [|[] l Ha _ IH]; cbn in *; try done; lia.
Qed.

(** C5: Whatever the API server's cache and the provider answer, and whatever
    the other goroutines do meanwhile, one run of the sync handler changes the
    provider's pods at most once, and each of its actions follows from the
    answers of that very run: a pod is created only when it is in the cache, is
    not being deleted and the provider said it has no pod of that name; updated
    only when the provider's pod differs from it; deleted only when the cache
    does not have it and the provider does, or when it is marked for deletion
    and still running; queued for forced deletion, under its own UID, only when
    it is marked for deletion; and a status is written only to report that
    creating or updating this pod has failed. *)
Theorem sync_actions_justified (env : PCEnv) (key namespace name : string) :
  env.(pe_SplitMetaNamespaceKey) key = Some (namespace, name) →
  ∀ s, ∃ new, (syncPodFromKubernetesHandler env key s).1.(pc_trace) = s.(pc_trace) ++ new ∧
    Forall (justified key namespace name new) new ∧ length (mutations new) ≤ 1.
Proof.
  intros Hsplit.
  enough (appends (syncPodFromKubernetesHandler env key) (λ new r, sync_ok key namespace name new r)) as H by exact H.
  unfold syncPodFromKubernetesHandler. rewrite Hsplit. app_step. destruct a as [e|pod].
  - app_step; app_walk; try (apply sync_ok_nil; by repeat constructor).
    all: destruct (IsNotFound e) eqn:He; [|done].
    all: split; [|unfold mutations; cbn; lia].
    all: rewrite !Forall_cons; split_and!; try done; cbn [justified]; left; exists e; split_and!; [by_elem|done|subst; by_elem].
  - unfold syncPodInProvider. app_step.
    + apply appends_call. intros []. apply andb_true_iff in Hb as [Hd _]. apply bool_decide_eq_true in Hd.
      split; [|unfold mutations; cbn; lia]. rewrite !Forall_cons. split_and!; try done.
      cbn [justified]. split; [done|]. exists pod. split_and!; [by_elem|done|done].
    + apply andb_false_iff in Hb. app_step. repeat app_step; try (apply sync_ok_nil; by repeat constructor).
      eapply appends_bind; [apply (reconcilePod_ok env key namespace name pod)| |].
      * intros Hd. destruct Hb as [Hb|Hb]; [by apply bool_decide_eq_false in Hb|by apply negb_false_iff in Hb].
      * by intros new e' H.
      * intros new [] H. app_step. by rewrite (right_id_L [] (++)).
Qed.

(** ** What reaches the API server *)

(** Writes of the status handler, and the pod of the cache they are made for. *)
Definition status_guarded (k8s : Pod) (a : Act) : Prop :=
  match a with
  | AUpdateStatus ns p _ => ns = k8s.(p_Namespace) ∧ p.(p_UID) = k8s.(p_UID) ∧ p.(p_ResourceVersion) = "0"
  | AK8sDelete ns n _ _ _ => ns = k8s.(p_Namespace) ∧ n = k8s.(p_Name) ∧ k8s.(p_DeletionTimestamp) = None
  | AEvent p _ _ => p = k8s
  | _ => False
  end.

Lemma updatePodStatus_guarded env pod key :
  appends (updatePodStatus env pod key) (λ new _, Forall (status_guarded pod) new ∧
    (new ≠ [] → shouldSkipPodStatusUpdate pod = false)).
Proof.
  unfold updatePodStatus. destruct (shouldSkipPodStatusUpdate pod) eqn:Hskip; [by app_walk|].
  repeat app_step; try by split; [constructor|]. apply bool_decide_eq_false in Hb. apply dec_stable in Hb.
  eapply (appends_bind _ _ (λ new _, Forall (status_guarded pod) new)).
  - unfold propagateDeletion. app_walk; repeat (constructor; [by cbn|]); constructor.
  - done.
  - intros new [] Hnew. app_walk; (split; [|done]); apply Forall_app; (split; [done|]);
      repeat (constructor; [by cbn|]); constructor.
Qed.

(** A run of the status handler writes to the API server only for the pod
    that the cache has under the key: a status carries that pod's UID and no
    resource version of its own, a deletion is sent only for a pod not yet
    marked for deletion, and a pod that has already succeeded or failed is
    never written again. *)
Theorem status_writes_guarded (env : PCEnv) (key namespace name : string) (s : PCState) (k8s : Pod) :
  env.(pe_SplitMetaNamespaceKey) key = Some (namespace, name) →
  env.(pe_lister) s.(pc_trace) namespace name = inr k8s →
  ∃ new, (syncPodStatusFromProviderHandler env key s).1.(pc_trace)
         = s.(pc_trace) ++ ALister namespace name (inr k8s) :: new ∧
    Forall (status_guarded k8s) new ∧ (new ≠ [] → shouldSkipPodStatusUpdate k8s = false).
Proof.
  intros Hsplit Hl. unfold syncPodStatusFromProviderHandler. rewrite Hsplit.
  unfold mbind, SE_bind, Lister, callP. rewrite Hl.
  destruct (updatePodStatus_guarded env k8s key (withOthers env (emit s (ALister namespace name (inr k8s)))))
    as (new & Htr & H).
  exists new. split; [|exact H]. rewrite Htr. cbn. by rewrite <-List.app_assoc.
Qed.

(** A key of the deletion queue gives back the UID and the pod's key. *)
Lemma deletionKey_roundtrip key uid :
  last_index_byte uid "/" = None → getUIDAndMetaNamespaceKey (deletionKey key uid) = Some (uid, key).
Proof.
  intros Hu. unfold getUIDAndMetaNamespaceKey, deletionKey.
  change (key +:+ "/" +:+ uid) with (key +:+ String "/" uid). rewrite last_index_byte_app by done.
  rewrite stake_app. f_equal. f_equal.
  replace (S (len key)) with (len (key +:+ "/")) by (rewrite length_app; cbn; lia).
  change (String "/" uid) with ("/" +:+ uid). by rewrite app_assoc, sdrop_app.
Qed.

(** The entry that [syncPodInProvider] puts into the deletion queue for a
    pod leads to that pod: its handler does not panic, and, when the cache has
    a pod under the key, it sends one deletion with no grace period and the UID
    as precondition if the UIDs agree, and nothing at all if the name now
    belongs to another pod.  It returns an error, to be retried, exactly when
    the deletion failed for another reason than a missing or replaced pod. *)
Theorem forced_deletion_exact (env : PCEnv) (key uid namespace name : string) (s : PCState) (k8s : Pod) :
  last_index_byte uid "/" = None →
  env.(pe_SplitMetaNamespaceKey) key = Some (namespace, name) →
  env.(pe_lister) s.(pc_trace) namespace name = inr k8s →
  ∃ m, deletePodsFromKubernetesHandler env (deletionKey key uid) = Some m ∧
    let t := s.(pc_trace) ++ [ALister namespace name (inr k8s)] in
    if bool_decide (k8s.(p_UID) = uid) then
      let err := env.(pe_K8sDelete) t namespace name in
      ∃ events, (m s).1.(pc_trace) = t ++ AK8sDelete namespace name (Some 0%Z) (Some uid) err :: events ∧
        Forall (λ a, ∃ ty r, a = AEvent k8s ty r) events ∧
        (m s).2 = match err with
                  | Some e => if IsNotFound e || IsConflict e then inr tt else inl (ErrPlain e)
                  | None => inr tt
                  end
    else (m s).1.(pc_trace) = t ∧ (m s).2 = inr tt.
Proof.
  intros Hu Hsplit Hl. unfold deletePodsFromKubernetesHandler. rewrite deletionKey_roundtrip, Hsplit by done.
  eexists. split; [reflexivity|]. unfold mbind, SE_bind, Lister, K8sDelete, doP, callP. rewrite Hl.
  cbn beta iota zeta. case_bool_decide as Hu1; case_bool_decide as Hu2; try done; try tauto.
  cbn [withOthers emit pc_trace].
  destruct (pe_K8sDelete env _ namespace name) as [e|] eqn:He; cbn beta iota zeta.
  - destruct (IsNotFound e || IsConflict e); cbn.
    + by exists [].
    + eexists [_]. rewrite <-(List.app_assoc _ [_] [_]). split_and!; [done|by repeat econstructor|done].
  - by exists [].
Qed.

(** ** No panic, in any interleaving *)

(** The steps that goroutines take on the shared map and its entries, each
    atomic: the informer's callbacks, the locked part of a notification and the
    locked part at the end of a sync. *)
Inductive KStep :=
  | KAdd (o : Obj)
  | KUpdate (old new : Obj)
  | KDelete (o : Obj)
  | KReceive (r : nat) (key : string) (pod : Pod)
  | KUsed (r : nat) (pod : Pod).

Section Steps.
Context (env : PCEnv).

Definition kstep (st : KStep) (s : PCState) : option PCState :=
  match st with
  | KAdd o => Some (AddFunc env o s)
  | KUpdate old new => UpdateFunc env old new s
  | KDelete o => Some (DeleteFunc env o s)
  | KReceive r key pod => Some (receiveStatus r key pod s)
  | KUsed r pod => Some (onKnown s r (λ k, {| k with lastPodUsed := Some pod |}))
  end.

Fixpoint krun (l : list KStep) (s : PCState) : option PCState :=
  match l with
  | [] => Some s
  | st :: l => s ← kstep st s; krun l s
  end.

(** The order that an informer keeps: an object is updated or deleted only
    after it was added; [present] are the keys it holds. *)
Fixpoint informer_order (present : gset string) (l : list KStep) : Prop :=
  match l with
  | [] => True
  | KAdd o :: l => informer_order (match objKey env o with Some k => {[k]} ∪ present | None => present end) l
  | KUpdate _ o :: l => (∀ k, objKey env o = Some k → k ∈ present) ∧ informer_order present l
  | KDelete o :: l => informer_order (match deletionObjKey env o with Some k => present ∖ {[k]} | None => present end) l
  | _ :: l => informer_order present l
  end.

(** Every pointer is valid, and a status that was skipped has been received. *)
Record known_ok (s : PCState) : Prop := {
  ko_refs : ∀ k r, s.(knownPods) !! k = Some r → r < length s.(kp_heap);
  ko_skipped : ∀ r k, s.(kp_heap) !! r = Some k → k.(lastPodStatusUpdateSkipped) = true →
               is_Some k.(lastPodStatusReceivedFromProvider);
}.

Lemma onKnown_ok s r f :
  known_ok s →
  (∀ k, s.(kp_heap) !! r = Some k → (f k).(lastPodStatusUpdateSkipped) = true →
        is_Some (f k).(lastPodStatusReceivedFromProvider)) →
  known_ok (onKnown s r f).
Proof.
  intros [Hr Hs] Hf. split; cbn.
  - intros k r' Hk. rewrite length_alter. by eapply Hr.
  - intros r' k Hk. destruct (decide (r = r')) as [<-|Hne].
    + rewrite list_lookup_alter_eq in Hk. destruct (kp_heap s !! r) as [k0|] eqn:H0; [|done].
      cbn in Hk. injection Hk as <-. by apply Hf.
    + rewrite list_lookup_alter_ne in Hk by done. by eapply Hs.
Qed.

Lemma emit_ok s a : known_ok s → known_ok (emit s a).
Proof. by intros [??]. Qed.

Lemma storeKnown_ok s key : known_ok s → known_ok (storeKnown s key).
Proof.
  intros [Hr Hs]. split; cbn.
  - intros k r. rewrite List.length_app. cbn. destruct (decide (k = key)) as [->|Hne].
    + rewrite lookup_insert_eq. intros [= <-]. lia.
    + rewrite lookup_insert_ne by done. intros Hk. specialize (Hr k r Hk). lia.
  - intros r k Hk. apply lookup_app_Some in Hk as [Hk|[_ Hk]]; [by eapply Hs|].
    apply list_lookup_singleton_Some in Hk as [_ <-]. done.
Qed.

Lemma receiveStatus_ok r key pod s : known_ok s → known_ok (receiveStatus r key pod s).
Proof.
  intros H. unfold receiveStatus. destruct (kp_heap s !! r) as [k|] eqn:Hk; [|done].
  case_bool_decide as Heq.
  - apply onKnown_ok; [done|]. intros k' Hk' _. cbn. rewrite Hk in Hk'. injection Hk' as <-. rewrite Heq. by eauto.
  - apply emit_ok, onKnown_ok; [done|]. by eauto.
Qed.

(** One step neither panics nor breaks the invariant, and the map keeps the
    keys that the informer holds. *)
Lemma UpdateFunc_ok old new s :
  known_ok s → (∀ k, objKey env new = Some k → k ∈ dom s.(knownPods)) →
  ∃ s', UpdateFunc env old new s = Some s' ∧ known_ok s' ∧ dom s'.(knownPods) = dom s.(knownPods).
Proof.
  intros H Hin. unfold UpdateFunc. destruct old as [op| |]; [|by eauto..]. destruct new as [np| |]; [|by eauto..].
  cbn in Hin. destruct (pe_MetaNamespaceKeyFunc env np) as [key|] eqn:Hkey; [|by eauto].
  specialize (Hin key eq_refl). apply elem_of_dom in Hin as [r Hr]. rewrite Hr. cbn [mbind option_bind].
  destruct (lookup_lt_is_Some_2 s.(kp_heap) r (ko_refs _ H _ _ Hr)) as [k Hk]. rewrite Hk. cbn [mbind option_bind].
  assert (∃ b, skippedDiffers k np = Some b) as [b ->].
  { unfold skippedDiffers. destruct (lastPodStatusUpdateSkipped k) eqn:Hs; [|by eauto].
    destruct (ko_skipped _ H _ _ Hk Hs) as [p ->]. by eauto. }
  cbn [mbind option_bind]. eexists. split; [reflexivity|].
  set (s1 := if b then _ else _).
  assert (known_ok s1 ∧ dom s1.(knownPods) = dom s.(knownPods)) as [H1 H2].
  { unfold s1. destruct b; [|done]. split; [|done]. apply onKnown_ok; [by apply emit_ok|]. done. }
  destruct (podShouldEnqueue op np); [|done]. split; [by apply emit_ok|done].
Qed.

Lemma DeleteFunc_ok o s : known_ok s → known_ok (DeleteFunc env o s).
Proof.
  intros Hok. unfold DeleteFunc. destruct (deletionObjKey env o), o as [p| |]; try done.
  apply emit_ok, emit_ok. destruct Hok as [Hr Hs]. split; cbn; [|done].
  intros k' r [_ ?]%lookup_delete_Some. by eapply Hr.
Qed.

Lemma DeleteFunc_dom o s present :
  present ⊆ dom s.(knownPods) →
  match deletionObjKey env o with Some k => present ∖ {[k]} | None => present end
  ⊆ dom (DeleteFunc env o s).(knownPods).
Proof.
  intros Hsub. unfold DeleteFunc. destruct (deletionObjKey env o) as [k|], o as [p| |]; cbn; try done.
  - rewrite dom_delete_L. set_solver.
  - set_solver.
  - set_solver.
Qed.

Lemma krun_ok l present s :
  informer_order present l → present ⊆ dom s.(knownPods) → known_ok s → ∃ s', krun l s = Some s' ∧ known_ok s'.
Proof.
  revert present s. induction l as [|[o|old new|o|r key pod|r pod] l IH]; intros present s Ho Hsub Hok; cbn in *; [by eauto|..].
  - eapply IH; [exact Ho| |]; unfold AddFunc; destruct (objKey env o) as [k|]; try done.
    + cbn. set_solver.
    + by apply emit_ok, storeKnown_ok.
  - destruct Ho as [Hin Ho]. destruct (UpdateFunc_ok old new s Hok) as (s' & -> & Hok' & Hdom); [set_solver|].
    cbn. eapply IH; [exact Ho|by rewrite Hdom|done].
  - eapply IH; [exact Ho|by apply DeleteFunc_dom|by apply DeleteFunc_ok].
  - eapply IH; [exact Ho| |by apply receiveStatus_ok]. unfold receiveStatus.
    destruct (kp_heap s !! r); [|done]. by case_bool_decide.
  - eapply IH; [exact Ho|done|]. apply onKnown_ok; [done|]. intros k Hk. exact (ko_skipped _ Hok r k Hk).
Qed.

End Steps.

Definition initialPC : PCState := {| pc_trace := []; knownPods := ∅; kp_heap := [] |}.

(** C11: From the empty controller, in every interleaving of the informer's
    callbacks with notifications of the provider and ends of syncs - through
    any pointers, also stale ones - the callbacks never panic, neither on an
    unknown pod nor on a status that was never received, provided the informer
    updates only objects that it has added. *)
Theorem controller_never_panics (env : PCEnv) (l : list KStep) :
  informer_order env ∅ l → ∃ s', krun env l initialPC = Some s' ∧ known_ok s'.
Proof. intros H. apply (krun_ok env l ∅); [done|set_solver|]. by split. Qed.

(** ** Syncs settle *)

(** The entry of a key: the pointer and the pod it was last synced with. *)
Definition entry (key : string) (s : PCState) : option (nat * option Pod) :=
  r ← s.(knownPods) !! key; k ← s.(kp_heap) !! r; Some (r, k.(lastPodUsed)).

(** Marked for deletion and not running: the pod goes to the deletion queue. *)
Definition forced (pod : Pod) : bool :=
  bool_decide (is_Some pod.(p_DeletionTimestamp)) && negb (running pod.(p_Status)).

(** [m] leaves the entry of [key] alone. *)
Definition keeps (key : string) {E A} (m : SE PCState E A) : Prop := ∀ s, entry key (m s).1 = entry key s.

Section Settle.
Context (env : PCEnv) (key : string).
Hypothesis others_keep : ∀ t s, entry key (env.(pe_others) t s) = entry key s.

Lemma keeps_bind {E A B} (m : SE PCState E A) (f : A → SE PCState E B) :
  keeps key m → (∀ a, keeps key (f a)) → keeps key (m ≫= f).
Proof.
  intros Hm Hf s. unfold mbind, SE_bind. specialize (Hm s). destruct (m s) as [s1 [e|a]]; [done|].
  by rewrite (Hf a s1).
Qed.

Lemma keeps_call {E A} (answer : Trace → A) record : keeps key (E:=E) (callP env answer record).
Proof. intros s. unfold callP. cbn [fst]. apply (others_keep _ (emit s _)). Qed.

Lemma keeps_handled {E F A} (m : SE PCState E A) : keeps key m → keeps key (handled (F:=F) m).
Proof. intros H s. specialize (H s). unfold handled. by destruct (m s). Qed.

Lemma keeps_mapErr {E F A} (g : E → F) (m : SE PCState E A) : keeps key m → keeps key (mapErr g m).
Proof. intros H s. specialize (H s). unfold mapErr. by destruct (m s) as [? []]. Qed.

Lemma entry_onKnown r f s : (∀ k, (f k).(lastPodUsed) = k.(lastPodUsed)) → entry key (onKnown s r f) = entry key s.
Proof.
  intros Hf. unfold entry, onKnown. cbn [knownPods kp_heap]. destruct (knownPods s !! key) as [r'|]; [|done].
  cbn [mbind option_bind]. destruct (decide (r = r')) as [<-|Hne].
  - rewrite list_lookup_alter_eq. destruct (kp_heap s !! r); [|done]. cbn. by rewrite Hf.
  - by rewrite list_lookup_alter_ne.
Qed.

Lemma keeps_receive {E} r k pod : keeps key (E:=E) (modifyS (receiveStatus r k pod)).
Proof.
  intros s. cbn. unfold receiveStatus. destruct (kp_heap s !! r); [|done].
  case_bool_decide; [by apply entry_onKnown|]. by apply (entry_onKnown r _ s).
Qed.

Lemma keeps_poll {E} n pod k : keeps key (E:=E) (pollKnown env n pod k).
Proof.
  induction n as [|n IH]; cbn [pollKnown]; [done|].
  apply keeps_bind; [done|]. intros m. destruct (m !! k); [done|].
  apply keeps_bind; [apply keeps_call|]. by intros [e|p].
Qed.

Lemma keeps_ret {E A} (a : A) : keeps key (mret a : SE PCState E A).
Proof. done. Qed.

Lemma keeps_throw {E A} (e : E) : keeps key (throw e : SE PCState E A).
Proof. done. Qed.

Lemma keeps_gets {E A} (g : PCState → A) : keeps key (gets g : SE PCState E A).
Proof. done. Qed.

Ltac keep :=
  repeat match goal with
  | |- keeps _ (mret _) => apply keeps_ret
  | |- keeps _ (throw _) => apply keeps_throw
  | |- keeps _ (gets _) => apply keeps_gets
  | |- keeps _ (modifyS (receiveStatus _ _ _)) => apply keeps_receive
  | |- keeps _ (callP _ _ _) => apply keeps_call
  | |- keeps _ (doP _ _) => apply keeps_call
  | |- keeps _ (UpdateStatus _ _ _) => apply keeps_call
  | |- keeps _ (ProviderGetPod _ _ _) => apply keeps_call
  | |- keeps _ (ProviderDeletePod _ _) => apply keeps_call
  | |- keeps _ (pollKnown _ _ _ _) => apply keeps_poll
  | |- keeps _ (handled _) => apply keeps_handled
  | |- keeps _ (mapErr _ _) => apply keeps_mapErr
  | |- keeps _ (_ ≫= _) => apply keeps_bind; [|intros ?]
  | |- keeps _ (match ?x with _ => _ end) => destruct x
  | |- keeps _ (if ?x then _ else _) => destruct x
  | |- keeps _ (whenM ?b _) => destruct b; unfold whenM
  end.

Lemma createOrUpdatePod_keeps pod : keeps key (createOrUpdatePod env pod).
Proof. unfold createOrUpdatePod, providerDone, handleProviderError. cbv zeta. keep. Qed.

Lemma deletePod_keeps pod : keeps key (deletePod env pod).
Proof. unfold deletePod. keep; unfold enqueuePodStatusUpdate; keep. Qed.

Lemma reconcilePod_keeps pod k : keeps key (reconcilePod env pod k).
Proof. unfold reconcilePod. keep; auto using createOrUpdatePod_keeps, deletePod_keeps. Qed.

Lemma podsEffectivelyEqual_spec p q :
  podsEffectivelyEqual p q = true ↔
  {| p with p_ResourceVersion := ""; p_Status := zeroPodStatus |} = {| q with p_ResourceVersion := ""; p_Status := zeroPodStatus |}.
Proof. unfold podsEffectivelyEqual. by rewrite bool_decide_eq_true. Qed.

(** A sync that returns no error has recorded the pod. *)
Lemma syncPodInProvider_records pod s s1 r u :
  entry key s = Some (r, u) → forced pod = false → syncPodInProvider env pod key s = (s1, inr tt) →
  ∃ used, entry key s1 = Some (r, Some used) ∧ podsEffectivelyEqual used pod = true.
Proof.
  intros He Hf. unfold syncPodInProvider. fold (forced pod). rewrite Hf. unfold mbind, SE_bind, gets.
  unfold entry in He. destruct (knownPods s !! key) as [r'|] eqn:Hr; [|done]. cbn [mbind option_bind] in He |- *.
  destruct (kp_heap s !! r') as [k|] eqn:Hk; [|done]. cbn [mbind option_bind] in He |- *. injection He as -> <-.
  assert (entry key s = Some (r, lastPodUsed k)) as He by (unfold entry; rewrite Hr; cbn; by rewrite Hk).
  destruct (match lastPodUsed k with Some used => _ | None => false end) eqn:Heq.
  - intros [= <-]. destruct (lastPodUsed k) as [used|]; [|done]. exists used. by rewrite He.
  - pose proof (reconcilePod_keeps pod key s) as Hkeep.
    destruct (reconcilePod env pod key s) as [s2 [e|[]]]; [done|]. intros [= <-]. exists pod.
    split; [|by apply podsEffectivelyEqual_spec]. cbn [fst] in Hkeep. rewrite He in Hkeep.
    unfold entry in *. cbn. destruct (knownPods s2 !! key) as [r'|]; [|done]. cbn [mbind option_bind] in *.
    destruct (kp_heap s2 !! r') as [k2|] eqn:Hk2; [|done]. cbn in Hkeep. injection Hkeep as -> _.
    rewrite list_lookup_alter_eq, Hk2. done.
Qed.

(** A pod that was recorded is not synced again. *)
Lemma syncPodInProvider_settled pod s r used :
  entry key s = Some (r, Some used) → podsEffectivelyEqual used pod = true → forced pod = false →
  syncPodInProvider env pod key s = (s, inr tt).
Proof.
  intros He Heq Hf. unfold syncPodInProvider. fold (forced pod). rewrite Hf. unfold mbind, SE_bind, gets.
  unfold entry in He. destruct (knownPods s !! key) as [r'|] eqn:Hr; [|done]. cbn [mbind option_bind] in He |- *.
  destruct (kp_heap s !! r') as [k|] eqn:Hk; [|done]. cbn [mbind option_bind] in He |- *.
  injection He as -> Hu. by rewrite Hu, Heq.
Qed.

End Settle.

(** Syncing settles.  After a run of the sync handler that returned no error
    for a known pod, a further run that finds the same pod in the cache, up to
    its status and resource version, looks it up and does nothing else - it
    neither calls the provider nor writes to the API server nor queues
    anything.  The informer may not replace the entry meanwhile; notifications
    of the provider may arrive at any time. *)
Theorem sync_settles (env : PCEnv) (key namespace name : string) (s s1 : PCState) (pod pod' : Pod) :
  (∀ t s, entry key (env.(pe_others) t s) = entry key s) →
  env.(pe_SplitMetaNamespaceKey) key = Some (namespace, name) →
  is_Some (entry key s) →
  env.(pe_lister) s.(pc_trace) namespace name = inr pod → forced pod = false →
  syncPodFromKubernetesHandler env key s = (s1, inr tt) →
  env.(pe_lister) s1.(pc_trace) namespace name = inr pod' → forced pod' = false →
  podsEffectivelyEqual pod pod' = true →
  let '(s2, r) := syncPodFromKubernetesHandler env key s1 in
  r = inr tt ∧ s2.(pc_trace) = s1.(pc_trace) ++ [ALister namespace name (inr pod')].
Proof.
  intros Hoth Hsplit [[r u] He] Hl Hf Hrun Hl' Hf' Heq.
  unfold syncPodFromKubernetesHandler in *. rewrite Hsplit in *. unfold mbind, SE_bind, Lister, callP in *.
  rewrite Hl in Hrun. rewrite Hl'. cbn beta iota zeta in *.
  assert (∀ s a, entry key (withOthers env (emit s a)) = entry key s) as Hw by (intros s0 a; apply (Hoth _ (emit s0 a))).
  eapply (syncPodInProvider_records env key Hoth pod) in Hrun as (used & He1 & Hu); [|by rewrite Hw|done].
  rewrite (syncPodInProvider_settled env key pod' _ r used); [done| | |done].
  - by rewrite Hw.
  - apply podsEffectivelyEqual_spec. apply podsEffectivelyEqual_spec in Hu, Heq. by rewrite Hu.
Qed.

(** ** The controller over the pawn's store *)

(** [Gambit.GetPod] and [Gambit.UpdatePod], which does nothing. *)
Definition pawnGetPod (store : PodStore) (namespace name : string) : option Err * option Pod :=
  match GetPod store namespace name with
  | Some p => (None, Some p)
  | None => (Some {| e_class := ENotFound; e_msg := "pod not found" |}, None)
  end.

Definition pawnUpdatePod (pod : Pod) : option Err := None.

(** Defect: as long as the store has any pod under the name of a pod of the API
    server - also a predecessor with another UID, or a stub found at the start -
    syncing the pod never creates it and reports no error. *)
Theorem name_taken_never_created (env : PCEnv) (store : PodStore) (key namespace name : string) (pod q : Pod) :
  env.(pe_SplitMetaNamespaceKey) key = Some (namespace, name) →
  (∀ t ns n, env.(pe_GetPod) t ns n = pawnGetPod store ns n) →
  (∀ t p, env.(pe_UpdatePod) t p = pawnUpdatePod p) →
  (∀ t, env.(pe_lister) t namespace name = inr pod) →
  pod.(p_DeletionTimestamp) = None →
  GetPod store pod.(p_Namespace) pod.(p_Name) = Some q →
  appends (syncPodFromKubernetesHandler env key) (λ new r, r = inr tt ∧
    Forall (λ a, match a with ACreatePod _ _ => False | _ => True end) new).
Proof.
  intros Hsplit HG HU Hl Hd Hq.
  assert (∀ t, pe_GetPod env t (p_Namespace pod) (p_Name pod) = (None, Some q)) as HG'.
  { intros t. rewrite HG. unfold pawnGetPod. by rewrite Hq. }
  unfold syncPodFromKubernetesHandler. rewrite Hsplit.
  apply (appends_answer_bind _ _ _ _ _ (inr pod)); [done|]. unfold syncPodInProvider. rewrite Hd. cbn [andb].
  rewrite bool_decide_eq_false_2 by apply is_Some_None. cbn [andb]. app_step.
  repeat app_step; try by (split; [done|repeat constructor]).
  eapply (appends_bind _ _ (λ new r, r = inr tt ∧ Forall (λ a, match a with ACreatePod _ _ => False | _ => True end) new)).
  - unfold reconcilePod. rewrite Hd.
    eapply (appends_bind _ _ (λ new r, (∃ b, r = inr b) ∧ Forall (λ a, match a with ACreatePod _ _ => False | _ => True end) new)).
    + app_walk; (split; [by eauto|by repeat constructor]).
    + by intros new e [[? [=]] _].
    + intros new known [_ Hnew]. destruct known; [apply appends_ret; by rewrite (right_id_L [] (++))|].
      apply appends_mapErr. unfold createOrUpdatePod.
      apply (appends_answer_bind _ _ _ _ _ (None, Some q)); [done|]. cbn [snd]. app_step.
      * app_step. split; [done|]. apply Forall_app. by split; [|repeat constructor].
      * apply (appends_answer_bind _ _ _ _ _ None); [intros t; apply HU|]. cbn [providerDone]. app_step.
        split; [done|]. apply Forall_app. by split; [|repeat constructor].
  - by intros new e [[=] _].
  - intros new [] [_ Hnew]. app_step. split; [done|]. rewrite (right_id_L [] (++)). by constructor.
Qed.

(** ** Witnesses *)

(** A cache with one pod, the pawn's store, and an API server and a provider
    that always succeed. *)
Definition demoSplit (key : string) : option (string * string) :=
  match index_byte key "/" with
  | Some i => Some (stake i key, sdrop (S i) key)
  | None => Some ("", key)
  end.

Definition demoEnv (cache : option Pod) (store : PodStore) : PCEnv := {|
  pe_now := λ _, 100%Z;
  pe_MetaNamespaceKeyFunc := λ p, Some (p.(p_Namespace) +:+ "/" +:+ p.(p_Name));
  pe_SplitMetaNamespaceKey := demoSplit;
  pe_lister := λ _ ns n, match cache with
    | Some p => inr p
    | None => inl {| e_class := ENotFound; e_msg := "pod not found" |} end;
  pe_GetPod := λ _ ns n, pawnGetPod store ns n;
  pe_GetPods := λ _, inr (GetPods store);
  pe_CreatePod := λ _ _, None;
  pe_UpdatePod := λ _ p, pawnUpdatePod p;
  pe_DeletePod := λ _ _, None;
  pe_UpdateStatus := λ _ _ _, None;
  pe_K8sDelete := λ _ _ _, None;
  pe_polls := λ _, 20;
  pe_others := λ _ s, s |}.

Definition cachedPod : Pod := {| (demoPod "a" 250 64) with p_UID := "u1" |}.
Definition demoController : PCState := AddFunc (demoEnv None NewPodStore) (ObjPod cachedPod) initialPC.

Lemma sync_actions_justified_witness :
  ∃ new, (syncPodFromKubernetesHandler (demoEnv (Some cachedPod) NewPodStore) "default/a" demoController).1.(pc_trace)
         = demoController.(pc_trace) ++ new ∧ length (mutations new) = 1.
Proof.
  destruct (sync_actions_justified (demoEnv (Some cachedPod) NewPodStore) "default/a" "default" "a" eq_refl demoController)
    as (new & Htr & _ & _).
  exists new. split; [exact Htr|]. revert Htr.
  intros Htr%(f_equal (drop (length demoController.(pc_trace)))). rewrite drop_app_length in Htr.
  rewrite <-Htr. vm_compute. reflexivity.
Defined.

Definition notifiedController : PCState :=
  (enqueuePodStatusUpdate (E:=PCErr) (demoEnv (Some cachedPod) NewPodStore) cachedPod demoController).1.

Lemma status_writes_guarded_witness :
  ∃ new, (syncPodStatusFromProviderHandler (demoEnv (Some cachedPod) NewPodStore) "default/a" notifiedController).1.(pc_trace)
    = notifiedController.(pc_trace) ++ ALister "default" "a" (inr cachedPod) :: new ∧
    Forall (status_guarded cachedPod) new ∧ length new = 1.
Proof.
  destruct (status_writes_guarded (demoEnv (Some cachedPod) NewPodStore) "default/a" "default" "a" notifiedController
    cachedPod eq_refl eq_refl) as (new & Htr & Hg & _).
  exists new. split_and!; [exact Htr|exact Hg|].
  assert (length (syncPodStatusFromProviderHandler (demoEnv (Some cachedPod) NewPodStore) "default/a"
    notifiedController).1.(pc_trace) = length notifiedController.(pc_trace) + 2) as Hn by (vm_compute; reflexivity).
  rewrite Htr, List.length_app in Hn. cbn [length] in Hn. lia.
Defined.

Lemma forced_deletion_exact_witness :
  ∃ m, deletePodsFromKubernetesHandler (demoEnv (Some cachedPod) NewPodStore) "default/a/u1" = Some m ∧
    (m demoController).2 = inr tt.
Proof.
  destruct (forced_deletion_exact (demoEnv (Some cachedPod) NewPodStore) "default/a" "u1" "default" "a" demoController
    cachedPod eq_refl eq_refl eq_refl) as (m & Hm & Hr).
  exists m. split; [exact Hm|]. cbn zeta in Hr. rewrite bool_decide_eq_true_2 in Hr by done.
  destruct Hr as (events & _ & _ & Hr). exact Hr.
Defined.

Lemma controller_never_panics_witness :
  ∃ s', krun (demoEnv None NewPodStore) [KAdd (ObjPod cachedPod); KReceive 0 "default/a" cachedPod;
          KReceive 0 "default/a" cachedPod; KUpdate (ObjPod cachedPod) (ObjPod (terminatedPod 5 cachedPod));
          KDelete (ObjTombstone "default/a"); KAdd (ObjPod cachedPod); KUsed 0 cachedPod] initialPC = Some s' ∧ known_ok s'.
Proof.
  apply (controller_never_panics (demoEnv None NewPodStore)). vm_compute. split; [|exact I].
  intros k [= <-]. vm_compute. reflexivity.
Defined.

Lemma sync_settles_witness :
  let env := demoEnv (Some cachedPod) NewPodStore in
  let s1 := (syncPodFromKubernetesHandler env "default/a" demoController).1 in
  (syncPodFromKubernetesHandler env "default/a" s1).2 = inr tt ∧
  (syncPodFromKubernetesHandler env "default/a" s1).1.(pc_trace)
    = s1.(pc_trace) ++ [ALister "default" "a" (inr cachedPod)].
Proof.
  intros env s1.
  assert (syncPodFromKubernetesHandler env "default/a" demoController = (s1, inr tt)) as Hrun by (vm_compute; reflexivity).
  pose proof (sync_settles env "default/a" "default" "a" demoController s1 cachedPod cachedPod (λ _ _, eq_refl) eq_refl
    (ltac:(vm_compute; eauto)) eq_refl eq_refl Hrun eq_refl eq_refl (ltac:(vm_compute; reflexivity))) as H.
  destruct (syncPodFromKubernetesHandler env "default/a" s1). exact H.
Defined.

(** Defect: a pod deleted and created again under the same name, while the
    store still has its predecessor, is taken for the predecessor; the next sync
    request finds it settled. *)
Example recreated_pod_never_created :
  let store := RegisterPending NewPodStore "old" {| cachedPod with p_UID := "old" |} 1 in
  let env := demoEnv (Some cachedPod) store in
  let s1 := (syncPodFromKubernetesHandler env "default/a" demoController).1 in
  let s2 := (syncPodFromKubernetesHandler env "default/a" (RequestSync "default" "a" s1)).1 in
  mutations s2.(pc_trace) = [] ∧ (snd <$> entry "default/a" s2) = Some (Some cachedPod).
Proof. vm_compute. split; reflexivity. Qed.
